(* ===== verification/_CoqProject ===== *)
-Q . S2P
Prelude.v
Bitset.v
Checksum.v
Redo.v
BuddyTree.v
BuddyInv.v
BuddyResize.v
PowerOfTwo.v
BuddyAlloc.v
BuddyAllocSpec.v
ShmemLog.v
LogSpec.v
ListQueue.v
PersistCas.v
TatasLock.v
MetaAlloc.v
MetaSpec.v
CircularQueue.v
Cgroup.v
CgroupSpec.v
FailureDetect.v
MetaInit.v
LinuxList.v
HList.v
PList.v
Futex.v
FutexSpec.v
FutexRace.v
ProcDeath.v
ProcDeathSpec.v
MpscQueue.v
Jhash.v
HashIndex.v
Device.v
Driver.v
DriverSpec.v
AtomicBitset.v
WportLock.v
WportSpec.v
MinArray.v
JjLock.v
Ivshmem.v
PageTable.v
McsQueue.v
Rmcs.v
QSpinlock.v
OsqLock.v
GuestDriver.v
Atomics.v
SenseBarrier.v
Python.v
PciParser.v
PciScanner.v
StartVm.v
StartVmSpec.v
Qmp.v
KernelBits.v
LockClient.v
BenchTtas.v
BenchLocks.v
Bench.v
BenchSpec.v
