(* ===== verification/Prelude.v ===== *)
(** * Verification of the Lupin driver and its shared-memory allocator

    The program lets several machines share one region of memory.  A machine
    allocates named objects in the region, messages and wakes the processes of
    other machines, and detects and repairs the crashes of its peers.  Its
    parts call each other as follows.

    - A buddy allocator (src/src/buddy) keeps a tree of block states in a bit
      set inside the region.
    - The driver (src/driver/src) wraps the allocator in transactions: an
      operation writes its updates as entries of a redo log, seals them with a
      commit record that holds a checksum, and then executes the log.  After a
      crash the log is executed again.
    - Object headers, kept in blocks of records and linked in a queue, name the
      allocated objects.
    - A recoverable spin lock (src/src/common/tatas), built on a persistent
      compare-and-swap, protects the metadata.  The lock records the owner and
      its generation so that a survivor can take it over.
    - Rings of messages, process groups with a failure detector, futexes and
      the notification of process deaths connect the machines.

    ** Model

    C integers are [Z] with the wrap-around of their width written out ([u8] to
    [u64], [s64]).  Shared memory is a finite map from addresses to bytes; loads
    and stores are little-endian, and a struct is the offsets of its fields.
    The allocator's tree lives in such a memory too; the driver's state [shm]
    holds the memory, the allocator and the current record block.  Code that may
    stop the machine ([BUG_ON], a null dereference) returns an [outcome], [Bug]
    being the stop.  Code that may wait returns [None] while it waits.  Loops
    without a structural bound take fuel; each theorem either gives the fuel
    that is enough (64 for the height of a tree, the length of a queue, the size
    of a table) or shows the loop total.  Cache-line flushes and fences have no
    effect on these values and are left out, except where the persistent
    compare-and-swap reads the dirty bit they clear.

    ** Files

    - Prelude: integers, byte memory, [outcome], tactics and hints.
    - Bitset: src/src/buddy/bitset.c and bitset.h.  Checksum:
      src/src/common/util_checksum.c.  PowerOfTwo: the bit tricks of
      buddy_alloc.h.
    - Redo: blind updates, the interface ([Blind]) between the log and what it
      updates: replaying converges whatever part had been applied.
    - BuddyTree, BuddyInv, BuddyResize: the tree of buddy_alloc.h, its invariant
      (every inner node summarises its children), and its resizing.
    - BuddyAlloc, BuddyAllocSpec: the allocator of buddy_alloc.h on top of it.
    - ShmemLog, LogSpec: src/driver/src/log.c and recover_with_redolog.
    - ListQueue: src/driver/src/list_queue.c.  MetaAlloc, MetaSpec: obj_header.c
      and the allocation, release and lookup of src/driver/src/buddy_alloc.c.
      MetaInit: the creation and recovery of the metadata there.
    - PersistCas: src/src/common/persist_cas.h, with the interface
      [AtomicRegister].  TatasLock: src/src/common/tatas, as functions and as a
      step relation of all processors with crashes, restarts and recoveries.
    - CircularQueue: src/driver/src/circular_queue.c.  Cgroup, CgroupSpec,
      FailureDetect: src/driver/src/cxl_cgroup.c.
    - LinuxList, HList, PList: the lists and hashed lists of the kernel's list.h
      (user_space_kernel_def) and the priority list of src/driver/src/plist.c;
      [PlistHeader] is the interface to the inline functions of linux/plist.h,
      which is not in the repository.
    - Futex, FutexSpec, FutexRace: src/driver/src/cxl_futex_waitwake.c and
      cxl_futex.h, as functions and as a step relation of waiters and wakers.
      ProcDeath, ProcDeathSpec: src/driver/src/proc_death.c and the robust lists.
    - MpscQueue: src/driver/src/mpsc_queue.c.  Jhash: linux/jhash.h.  HashIndex:
      src/driver/src/hash_index.c.
    - Device: src/driver/src/cxl_ivpci.c and ftrace_helper.c, the life of the
      module and of a device.  Driver, DriverSpec: src/driver/src/cxl_alloc.c and
      the dispatcher of requests and interrupts of cxl_ivpci.c, over the rest.
    - The alternative locks of src/src/common.  AtomicBitset: atomic_bitset.h.
      WportLock, WportSpec: the lock with one port per processor
      (jj_ab_spin/jj_ab_wport_*.h).  MinArray: the minimum array of
      min_array.  JjLock: the lock over it (jj_ab_spin/jj_abortable_*.h).  Both
      locks are functions and programs of atomic steps, run by ports that give
      up and crash at any point.
    - The benchmark of locks (src/lupin_lock_benchmark).  McsQueue: lemmas on
      queues of nodes.  Rmcs: rmcs.hpp.  QSpinlock: linux/queued_spinlock.h.
      OsqLock: linux/osq_lock.h.  Each is a program of memory accesses with an
      invariant.  Atomics: atomics.h, its operations as instructions of each
      architecture.  SenseBarrier: the barrier there.  BenchTtas: ttas.h and
      tatas_align.  LockClient: [SpinLock], what a program expects of a lock.
      BenchLocks: the locks of the benchmark as instances of it.  Bench: the
      thirteen programs (cxl_test_*.cpp, dram_test_*.cpp), statement by
      statement, and their runs.  BenchSpec: theorems about them, proved
      against [SpinLock].
    - Ivshmem: the server that connects virtual machines, and its client
      (src/ivshmem/ivshmem-host).  GuestDriver: the driver of the guest
      (src/ivshmem/ivshmem-kernel).  PageTable: src/driver/src/page_table.
      KernelBits: the bit operations of user_space_kernel_def.
    - The scripts of src/vm_lib.  Python: strings, exceptions and commands of
      the language.  PciParser, PciScanner: pci_parser.py and pci_scanner.py.
      StartVm, StartVmSpec: start_vm.py and what it calls.  Qmp: qmp.py.

    ** What the theorems show

    - The log: every entry round-trips, a committed log is executed exactly,
      and recovery from any point of an interrupted execution gives the memory
      of an uninterrupted one.
    - The allocator: marking and releasing keep the tree invariant, allocated
      blocks are disjoint and inside the arena, the search finds a block when
      there is one, and malloc and free do what they promise.
    - The driver's allocation is all or nothing, keeps the metadata well-formed
      and is completed by recovery; what was allocated is found again.
    - The lock: at most one processor is in the critical section under every
      interleaving of steps, crashes, restarts and recoveries, and the lock of a
      crashed machine can be taken over.
    - Rings are bounded queues, groups are bounded sets, a silent machine is
      declared dead once and its transaction is completed.
    - Creating the region establishes the invariant that the allocation needs,
      recovery finds the metadata again and completes the transaction of a
      machine that restarts.
    - Seen from a user program the device is a catalogue of disjoint objects:
      the requests are composed from initialisation, lock, log and allocator.
    - Lists, hashed lists, priority lists, the task table and the index refine
      lists and maps; the multi-producer queue is a FIFO under interleaving.
    - A waiter does not miss a wake in any interleaving; waking, waiting, remote
      wakes and the report of deaths do what they promise, with their errors.
    - A device is attached with everything or nothing, a mapping shows the region
      and nothing else, the module gives back what it holds.
    - The abortable locks exclude each other under every interleaving.  The port
      lock never loses a grant and hands a free lock over within eight steps; the
      lock over the minimum array serves tokens in order, and can be granted to a
      process that has given up.
    - The queue locks of the benchmark are exclusive and never stuck; rmcs is
      first come first served, the word of the queued spinlock is its state, the
      spin queue leaves no link to a thread that has given up.  The atomic
      operations are atomic, but for the compiler's compare and swap, which can
      report a failure as a success; the barrier separates its rounds.
    - The benchmark programs, each with the lock it measures, use their memory as they may,
      exclude each other, count every passage and never get stuck, for up to 32
      threads and fewer than 2^51 passages of each.
    - The guest driver gives back what it holds when the kernel maps what it is
      asked for; a failure to map is reported as success.  The bit operations of
      the kernel headers agree with each other and with sets and logarithms.
    - On a host that answers as expected, without passed-through devices or
      restarts, each virtual machine is started once, on sockets of its own; the
      PCI search finds the devices below one when the buses form a tree, and does
      not end on two different host bridges of a bus.
    - Virtual machines that connect and leave in any order know each other.
    - Where the code does not do what it means to, a closed theorem exhibits the
      behaviour (see the error properties).

    ** Not modelled

    The printers and the floating-point fragmentation metric of the allocator;
    inline assembly of kernel headers, whose effects are atomic steps; clocks and
    printed averages of the benchmark; what the kernel's PCI, memory, scheduler,
    netlink and tracing subsystems, the allocator cxlalloc and the thread library
    do, whose results are arguments or their documented behaviour; sockets,
    polling and the command lines of the host programs; the programs that measure
    the guest device; copying files to virtual machines; the test programs. *)
From Stdlib Require Import ZArith Lia Bool.
From stdpp Require Import base list gmap numbers.
Local Open Scope Z_scope.

(** ** Machine integers *)

Definition u8 (x : Z) : Z := x mod 2 ^ 8.
Definition u16 (x : Z) : Z := x mod 2 ^ 16.
Definition u32 (x : Z) : Z := x mod 2 ^ 32.
Definition u64 (x : Z) : Z := x mod 2 ^ 64.

Definition s64 (x : Z) : Z := let y := u64 x in if y <? 2 ^ 63 then y else y - 2 ^ 64.

(** C truth values: a condition is an integer, and comparisons give 0 or 1. *)
Definition truthy (x : Z) : bool := negb (x =? 0).

(** ** Byte-addressed memory *)

Abbreviation bytes := (gmap Z Z).

Definition rd (m : bytes) (a : Z) : Z := u8 (default 0 (m !! a)).
Definition wr (m : bytes) (a v : Z) : bytes := <[a := v]> m.

(** Little-endian words of [n] bytes. *)
Fixpoint load (m : bytes) (a : Z) (n : nat) : Z :=
  match n with
  | O => 0
  | S k => rd m a + 2 ^ 8 * load m (a + 1) k
  end.

Fixpoint store (m : bytes) (a : Z) (n : nat) (v : Z) : bytes :=
  match n with
  | O => m
  | S k => store (wr m a (u8 v)) (a + 1) k (v / 2 ^ 8)
  end.

Definition load64 (m : bytes) (a : Z) : Z := load m a 8.
Definition store64 (m : bytes) (a v : Z) : bytes := store m a 8 (u64 v).
Definition load16 (m : bytes) (a : Z) : Z := load m a 2.
Definition store16 (m : bytes) (a v : Z) : bytes := store m a 2 (u16 v).

(** Reading an array of constants. *)
Definition getZ {A : Type} (d : A) (l : list A) (i : Z) : A := default d (l !! Z.to_nat i).
Definition setZ {A : Type} (l : list A) (i : Z) (x : A) : list A := <[Z.to_nat i := x]> l.

(** [memset] and [memmove] of [n] bytes; the latter reads every source byte
    before it writes, so the ranges may overlap. *)
Fixpoint memset (m : bytes) (a v : Z) (n : nat) : bytes :=
  match n with
  | O => m
  | S k => memset (wr m a v) (a + 1) v k
  end.

Fixpoint write_bytes (m : bytes) (a : Z) (l : list Z) : bytes :=
  match l with
  | [] => m
  | x :: rest => write_bytes (wr m a x) (a + 1) rest
  end.

Definition memmove (m : bytes) (dst src : Z) (n : nat) : bytes :=
  write_bytes m dst (map (fun k => rd m (src + Z.of_nat k)) (seq 0 n)).

(** Two memories are equivalent when every byte reads the same. *)
Definition mem_eq (m1 m2 : bytes) : Prop := forall a, rd m1 a = rd m2 a.

(** ** Tactics *)

Ltac zb :=
  repeat match goal with
    | |- context [?a =? ?b] => destruct (Z.eqb_spec a b)
    | |- context [?a <? ?b] => destruct (Z.ltb_spec a b)
    | |- context [?a <=? ?b] => destruct (Z.leb_spec a b)
    | H : context [?a =? ?b] |- _ => destruct (Z.eqb_spec a b)
    | H : context [?a <? ?b] |- _ => destruct (Z.ltb_spec a b)
    | H : context [?a <=? ?b] |- _ => destruct (Z.leb_spec a b)
    end.

Create HintDb lupin.
Create Rewrite HintDb lupin.

(** ** Lemmas *)

Lemma u8_range x : 0 <= u8 x < 256.
Proof. apply Z.mod_pos_bound. lia. Qed.
Lemma u64_range x : 0 <= u64 x < 2 ^ 64.
Proof. apply Z.mod_pos_bound. lia. Qed.
Lemma u8_small x : 0 <= x < 256 -> u8 x = x.
Proof. intros. apply Z.mod_small. lia. Qed.
Lemma u16_small x : 0 <= x < 65536 -> u16 x = x.
Proof. intros. apply Z.mod_small. lia. Qed.
Lemma u32_small x : 0 <= x < 2 ^ 32 -> u32 x = x.
Proof. intros. apply Z.mod_small. lia. Qed.
Lemma u64_small x : 0 <= x < 2 ^ 64 -> u64 x = x.
Proof. intros. apply Z.mod_small. lia. Qed.

Lemma rd_range m a : 0 <= rd m a < 256.
Proof. apply u8_range. Qed.

Lemma rd_wr m a v b : rd (wr m a v) b = if a =? b then u8 v else rd m b.
Proof.
  unfold rd, wr. zb; [subst; by rewrite lookup_insert_eq|by rewrite lookup_insert_ne].
Qed.

Lemma rd_wr_eq m a v : rd (wr m a v) a = u8 v.
Proof. by rewrite rd_wr, Z.eqb_refl. Qed.

Lemma rd_wr_ne m a v b : a <> b -> rd (wr m a v) b = rd m b.
Proof. intros. rewrite rd_wr. zb; [lia|done]. Qed.

Lemma rd_store_out m a n v b :
  b < a \/ a + Z.of_nat n <= b -> rd (store m a n v) b = rd m b.
Proof.
  revert m a v. induction n as [|n IH]; intros m a v H; simpl; [done|].
  rewrite IH by lia. apply rd_wr_ne. lia.
Qed.

Lemma load_ext m1 m2 a n :
  (forall b, a <= b < a + Z.of_nat n -> rd m1 b = rd m2 b) -> load m1 a n = load m2 a n.
Proof.
  revert a. induction n as [|n IH]; intros a H; simpl; [done|].
  rewrite (H a) by lia. rewrite IH; [done|]. intros b Hb. apply H. lia.
Qed.

Lemma load_range m a n : 0 <= load m a n < 2 ^ (8 * Z.of_nat n).
Proof.
  revert a. induction n as [|n IH]; intros a; [simpl; lia|].
  cbn [load]. specialize (IH (a + 1)). pose proof (rd_range m a).
  replace (8 * Z.of_nat (S n)) with (8 + 8 * Z.of_nat n) by lia.
  rewrite Z.pow_add_r by lia. nia.
Qed.

Lemma load_store m a n v :
  load (store m a n v) a n = v mod 2 ^ (8 * Z.of_nat n).
Proof.
  revert m a v. induction n as [|n IH]; intros m a v.
  - simpl. by rewrite Z.mod_1_r.
  - cbn [load store]. rewrite IH, rd_store_out, rd_wr_eq by lia.
    unfold u8. rewrite Zmod_mod.
    replace (8 * Z.of_nat (S n)) with (8 + 8 * Z.of_nat n) by lia.
    rewrite Z.pow_add_r, Z.rem_mul_r; lia.
Qed.

Lemma load64_store64 m a v : load64 (store64 m a v) a = u64 v.
Proof.
  unfold load64, store64. rewrite load_store. unfold u64.
  change (8 * Z.of_nat 8) with 64. apply Zmod_mod.
Qed.

Lemma load64_store64_out m a v b :
  b + 8 <= a \/ a + 8 <= b -> load64 (store64 m a v) b = load64 m b.
Proof.
  intros. apply load_ext. intros c Hc. apply rd_store_out. lia.
Qed.

Lemma rd_store64_out m a v b : b < a \/ a + 8 <= b -> rd (store64 m a v) b = rd m b.
Proof. intros. apply rd_store_out. lia. Qed.

#[export] Hint Rewrite u8_small u16_small u32_small u64_small using lia : lupin.
#[export] Hint Resolve rd_range u8_range u64_range : lupin.

#[export] Instance mem_eq_equiv : Equivalence mem_eq.
Proof. split; repeat intro; [done| |]; unfold mem_eq in *; congruence. Qed.
#[export] Instance rd_proper : Proper (mem_eq ==> eq ==> eq) rd.
Proof. intros m1 m2 H a ? <-. apply H. Qed.
#[export] Instance wr_proper : Proper (mem_eq ==> eq ==> eq ==> mem_eq) wr.
Proof. intros m1 m2 H a ? <- v ? <- b. rewrite !rd_wr. zb; [done|apply H]. Qed.
#[export] Instance load_proper : Proper (mem_eq ==> eq ==> eq ==> eq) load.
Proof. intros m1 m2 H a ? <- n ? <-. apply load_ext. intros. apply H. Qed.

(** Bounded universal checks, to turn an exhaustive evaluation into a proof. *)
Definition all_below (n : nat) (P : Z -> bool) : bool :=
  forallb (fun k => P (Z.of_nat k)) (seq 0 n).

Lemma all_below_spec n P :
  all_below n P = true -> forall k, 0 <= k < Z.of_nat n -> P k = true.
Proof.
  intros H k Hk. unfold all_below in H. rewrite forallb_forall in H.
  specialize (H (Z.to_nat k)). rewrite Z2Nat.id in H by lia.
  apply H. apply in_seq. lia.
Qed.

Ltac below H k := apply (fun H0 => all_below_spec _ _ H0 k) in H; [cbv beta in H|lia].

Lemma load64_ext m1 m2 a :
  (forall b, a <= b < a + 8 -> rd m1 b = rd m2 b) -> load64 m1 a = load64 m2 a.
Proof. intros. by apply load_ext. Qed.

#[global] Arguments load64 : simpl never.
#[global] Arguments store64 : simpl never.
#[global] Arguments load16 : simpl never.
#[global] Arguments store16 : simpl never.
#[global] Arguments u8 : simpl never.
#[global] Arguments u16 : simpl never.
#[global] Arguments u32 : simpl never.
#[global] Arguments u64 : simpl never.
#[global] Arguments s64 : simpl never.
#[global] Arguments rd : simpl never.
#[global] Arguments wr : simpl never.

(** ** Outcomes *)

(** A kernel routine returns, or stops the machine at a failed [BUG_ON]. *)
Inductive outcome (A : Type) : Type :=
| Ret (a : A)
| Bug.
#[global] Arguments Ret {A} a.
#[global] Arguments Bug {A}.

Definition obind {A B : Type} (x : outcome A) (f : A -> outcome B) : outcome B :=
  match x with Ret a => f a | Bug => Bug end.

Declare Scope lupin_scope.
Delimit Scope lupin_scope with lupin.
Notation "'let!' x ':=' e 'in' f" := (obind e (fun x => f))
  (at level 10, x binder, f at level 200) : lupin_scope.

Definition bug_on (c : bool) {A : Type} (k : outcome A) : outcome A := if c then Bug else k.

(** Error numbers of the kernel. *)
Definition ENXIO : Z := 6.
Definition ENOMEM : Z := 12.
Definition EFAULT : Z := 14.
Definition EINVAL : Z := 22.

Definition load32 (m : bytes) (a : Z) : Z := load m a 4.
Definition store32 (m : bytes) (a v : Z) : bytes := store m a 4 (u32 v).
Definition load8 (m : bytes) (a : Z) : Z := load m a 1.
Definition store8 (m : bytes) (a v : Z) : bytes := store m a 1 (u8 v).

Lemma load32_ext m1 m2 a :
  (forall b, a <= b < a + 4 -> rd m1 b = rd m2 b) -> load32 m1 a = load32 m2 a.
Proof. intros. by apply load_ext. Qed.

Lemma load32_range m a : 0 <= load32 m a < 2 ^ 32.
Proof. apply (load_range m a 4). Qed.

Lemma load16_store16 m a v : load16 (store16 m a v) a = u16 v.
Proof.
  unfold load16, store16. rewrite load_store. unfold u16.
  change (8 * Z.of_nat 2) with 16. apply Zmod_mod.
Qed.

Lemma load32_store32 m a v : load32 (store32 m a v) a = u32 v.
Proof.
  unfold load32, store32. rewrite load_store. unfold u32.
  change (8 * Z.of_nat 4) with 32. apply Zmod_mod.
Qed.

Lemma u32_range x : 0 <= u32 x < 2 ^ 32.
Proof. apply Z.mod_pos_bound. lia. Qed.
Lemma u16_range x : 0 <= u16 x < 2 ^ 16.
Proof. apply Z.mod_pos_bound. lia. Qed.

#[global] Arguments load32 : simpl never.
#[global] Arguments store32 : simpl never.
#[global] Arguments load8 : simpl never.
#[global] Arguments store8 : simpl never.

(** A value placed above the low [n] bits and one inside them combine by addition. *)
Lemma filter_all {A} (P : A -> Prop) `{!forall x, Decision (P x)} (l : list A) : (forall x, x ∈ l -> P x) -> filter P l = l.
Proof.
  induction l as [|x l IH]; intros Hl; [done|]. rewrite filter_cons, decide_True by (apply Hl; by left).
  rewrite IH; [done|]. intros y Hy. apply Hl. by right.
Qed.

(** How many entries of a map have the property. *)
Definition map_count {V} (P : V -> Prop) `{!forall x, Decision (P x)} (m : gmap Z V) : Z :=
  Z.of_nat (size (filter (fun kv : Z * V => P (snd kv)) m)).

Lemma map_count_delete {V} (P : V -> Prop) `{!forall x, Decision (P x)} (m : gmap Z V) k x :
  m !! k = Some x -> map_count P m = map_count P (delete k m) + (if decide (P x) then 1 else 0).
Proof.
  intros E. rewrite <- (insert_delete_id m k x E) at 1. unfold map_count. rewrite map_filter_insert. cbn [snd].
  case_decide as D.
  - rewrite map_size_insert_None; [lia|]. apply map_lookup_filter_None. left. apply lookup_delete_eq.
  - rewrite delete_delete_eq. lia.
Qed.

Lemma map_count_insert {V} (P : V -> Prop) `{!forall x, Decision (P x)} (m : gmap Z V) k x y :
  m !! k = Some x ->
  map_count P (<[k := y]> m) = map_count P m - (if decide (P x) then 1 else 0) + (if decide (P y) then 1 else 0).
Proof.
  intros E. rewrite (map_count_delete P m k x E), (map_count_delete P (<[k := y]> m) k y) by apply lookup_insert_eq.
  rewrite delete_insert_eq. lia.
Qed.

Lemma map_count_nonneg {V} (P : V -> Prop) `{!forall x, Decision (P x)} (m : gmap Z V) : 0 <= map_count P m.
Proof. unfold map_count. lia. Qed.

Lemma map_count_le {V} (P : V -> Prop) `{!forall x, Decision (P x)} (m : gmap Z V) : map_count P m <= Z.of_nat (size m).
Proof. unfold map_count. pose proof (map_subseteq_size _ _ (map_filter_subseteq (fun kv : Z * V => P (snd kv)) m)). lia. Qed.

Lemma testbit_above l n k : 0 <= l < 2 ^ n -> 0 <= n <= k -> Z.testbit l k = false.
Proof.
  intros Hl Hk. destruct (Z.eq_dec l 0) as [->|]; [apply Z.bits_0|].
  apply Z.bits_above_log2; [lia|]. assert (Z.log2 l < n) by (apply Z.log2_lt_pow2; lia). lia.
Qed.

Lemma lor_shiftl_add h l n :
  0 <= n -> 0 <= l < 2 ^ n -> Z.lor (Z.shiftl h n) l = h * 2 ^ n + l.
Proof.
  intros Hn Hl.
  assert (E : Z.land (Z.shiftl h n) l = 0).
  { apply Z.bits_inj'. intros k Hk. rewrite Z.land_spec, Z.bits_0.
    destruct (Z.lt_ge_cases k n); [by rewrite Z.shiftl_spec_low by lia|].
    rewrite (testbit_above l n k) by lia. apply andb_false_r. }
  rewrite <- Z.shiftl_mul_pow2 by lia. rewrite Z.add_nocarry_lxor by done. symmetry. by apply Z.lxor_lor.
Qed.

Lemma load_store_out m a n v b k :
  b + Z.of_nat k <= a \/ a + Z.of_nat n <= b -> load (store m a n v) b k = load m b k.
Proof. intros. apply load_ext. intros c Hc. apply rd_store_out. lia. Qed.

Lemma load_store_eq m a n v :
  0 <= v < 2 ^ (8 * Z.of_nat n) -> load (store m a n v) a n = v.
Proof. intros. rewrite load_store. by apply Z.mod_small. Qed.
