(* ===== verification/Bitset.v ===== *)
(** The char-backed bitset of src/src/buddy/bitset.c and include/bitset.h.

    A bitset is a pointer into byte memory: every operation takes the memory
    and the address of the first bucket.  [bit] is the reference view, one
    boolean per position; the theorems show that the bucket-and-mask code
    computes exactly the operation on that view. *)
From Stdlib Require Import ZArith Lia Bool.
From stdpp Require Import base list gmap numbers.
From S2P Require Import Prelude.
Local Open Scope Z_scope.

Definition CHAR_BIT : Z := 8.

Record bitset_bucket_range := BucketRange { from : Z; to : Z }.

Definition popcount_lookup : list Z := [
    0;1;1;2;1;2;2;3;1;2;2;3;2;3;3;4;1;2;2;3;2;3;3;4;2;3;3;4;3;4;4;5;
    1;2;2;3;2;3;3;4;2;3;3;4;3;4;4;5;2;3;3;4;3;4;4;5;3;4;4;5;4;5;5;6;
    1;2;2;3;2;3;3;4;2;3;3;4;3;4;4;5;2;3;3;4;3;4;4;5;3;4;4;5;4;5;5;6;
    2;3;3;4;3;4;4;5;3;4;4;5;4;5;5;6;3;4;4;5;4;5;5;6;4;5;5;6;5;6;6;7;
    1;2;2;3;2;3;3;4;2;3;3;4;3;4;4;5;2;3;3;4;3;4;4;5;3;4;4;5;4;5;5;6;
    2;3;3;4;3;4;4;5;3;4;4;5;4;5;5;6;3;4;4;5;4;5;5;6;4;5;5;6;5;6;6;7;
    2;3;3;4;3;4;4;5;3;4;4;5;4;5;5;6;3;4;4;5;4;5;5;6;4;5;5;6;5;6;6;7;
    3;4;4;5;4;5;5;6;4;5;5;6;5;6;6;7;4;5;5;6;5;6;6;7;5;6;6;7;6;7;7;8].

Definition popcount_byte (b : Z) : Z := getZ 0 popcount_lookup b.

Definition bitset_sizeof (elements : Z) : Z := u64 (elements + CHAR_BIT - 1) / CHAR_BIT.

Definition bitset_index_mask : list Z := [1; 2; 4; 8; 16; 32; 64; 128].

(** [~mask] of a byte: the complement is taken on an int and the assignment
    truncates it to eight bits. *)
Definition not8 (mask : Z) : Z := u8 (Z.lnot mask).

Definition bitset_set (m : bytes) (bitset pos : Z) : bytes :=
  let bucket := pos / CHAR_BIT in
  let index := pos mod CHAR_BIT in
  wr m (bitset + bucket) (Z.lor (rd m (bitset + bucket)) (getZ 0 bitset_index_mask index)).

Definition bitset_clear (m : bytes) (bitset pos : Z) : bytes :=
  let bucket := pos / CHAR_BIT in
  let index := pos mod CHAR_BIT in
  wr m (bitset + bucket)
     (Z.land (rd m (bitset + bucket)) (not8 (getZ 0 bitset_index_mask index))).

Definition bitset_test (m : bytes) (bitset pos : Z) : Z :=
  let bucket := pos / CHAR_BIT in
  let index := pos mod CHAR_BIT in
  Z.land (rd m (bitset + bucket)) (getZ 0 bitset_index_mask index).

Definition bitset_char_mask : list (list Z) := [
    [1; 3; 7; 15; 31; 63; 127; 255];
    [0; 2; 6; 14; 30; 62; 126; 254];
    [0; 0; 4; 12; 28; 60; 124; 252];
    [0; 0; 0;  8; 24; 56; 120; 248];
    [0; 0; 0;  0; 16; 48; 112; 240];
    [0; 0; 0;  0;  0; 32;  96; 224];
    [0; 0; 0;  0;  0;  0;  64; 192];
    [0; 0; 0;  0;  0;  0;   0; 128]].

Definition char_mask (i j : Z) : Z := getZ 0 (getZ [] bitset_char_mask i) j.

(** [while (++from_bucket != to_bucket) bitset[from_bucket] = v;] with the
    memory and the final value of [from_bucket].  The loop makes
    [to_bucket - from_bucket] tests, which is the fuel it is given. *)
Fixpoint fill_buckets (fuel : nat) (m : bytes) (bitset from_bucket to_bucket v : Z)
  : bytes * Z :=
  match fuel with
  | O => (m, from_bucket)
  | S k =>
      let from_bucket := from_bucket + 1 in
      if from_bucket =? to_bucket then (m, from_bucket)
      else fill_buckets k (wr m (bitset + from_bucket) v) bitset from_bucket to_bucket v
  end.

Definition bitset_clear_range (m : bytes) (bitset from_pos to_pos : Z)
  : bytes * bitset_bucket_range :=
  let from_bucket := from_pos / CHAR_BIT in
  let to_bucket := to_pos / CHAR_BIT in
  let from_index := from_pos mod CHAR_BIT in
  let to_index := to_pos mod CHAR_BIT in
  let '(m, from_bucket) :=
    if from_bucket =? to_bucket then
      (wr m (bitset + from_bucket)
         (Z.land (rd m (bitset + from_bucket)) (not8 (char_mask from_index to_index))),
       from_bucket)
    else
      let m := wr m (bitset + from_bucket)
                 (Z.land (rd m (bitset + from_bucket)) (not8 (char_mask from_index 7))) in
      let m := wr m (bitset + to_bucket)
                 (Z.land (rd m (bitset + to_bucket)) (not8 (char_mask 0 to_index))) in
      fill_buckets (Z.to_nat (to_bucket - from_bucket)) m bitset from_bucket to_bucket 0
  in (m, BucketRange from_bucket from_bucket).

Definition bitset_set_range (m : bytes) (bitset from_pos to_pos : Z)
  : bytes * bitset_bucket_range :=
  let from_bucket := from_pos / CHAR_BIT in
  let to_bucket := to_pos / CHAR_BIT in
  let from_index := from_pos mod CHAR_BIT in
  let to_index := to_pos mod CHAR_BIT in
  let '(m, from_bucket) :=
    if from_bucket =? to_bucket then
      (wr m (bitset + from_bucket)
         (Z.lor (rd m (bitset + from_bucket)) (char_mask from_index to_index)),
       from_bucket)
    else
      let m := wr m (bitset + from_bucket)
                 (Z.lor (rd m (bitset + from_bucket)) (char_mask from_index 7)) in
      let m := wr m (bitset + to_bucket)
                 (Z.lor (rd m (bitset + to_bucket)) (char_mask 0 to_index)) in
      fill_buckets (Z.to_nat (to_bucket - from_bucket)) m bitset from_bucket to_bucket 255
  in (m, BucketRange from_bucket from_bucket).

(** [while (++from_bucket != to_bucket) result += popcount_byte(...)]. *)
Fixpoint count_buckets (fuel : nat) (m : bytes) (bitset from_bucket to_bucket result : Z) : Z :=
  match fuel with
  | O => result
  | S k =>
      let from_bucket := from_bucket + 1 in
      if from_bucket =? to_bucket then result
      else count_buckets k m bitset from_bucket to_bucket
             (u64 (result + popcount_byte (rd m (bitset + from_bucket))))
  end.

Definition bitset_count_range (m : bytes) (bitset from_pos to_pos : Z) : Z :=
  let from_bucket := from_pos / CHAR_BIT in
  let to_bucket := to_pos / CHAR_BIT in
  let from_index := from_pos mod CHAR_BIT in
  let to_index := to_pos mod CHAR_BIT in
  if from_bucket =? to_bucket then
    popcount_byte (Z.land (rd m (bitset + from_bucket)) (char_mask from_index to_index))
  else
    let result :=
      popcount_byte (Z.land (rd m (bitset + from_bucket)) (char_mask from_index 7))
      + popcount_byte (Z.land (rd m (bitset + to_bucket)) (char_mask 0 to_index)) in
    count_buckets (Z.to_nat (to_bucket - from_bucket)) m bitset from_bucket to_bucket result.

(** One iteration of the shift loops: copy the bit at [at] to [dst]. *)
Definition copy_bit (m : bytes) (bitset at_ dst : Z) : bytes :=
  if truthy (bitset_test m bitset at_) then bitset_set m bitset dst
  else bitset_clear m bitset dst.

(** [for (i = 0; i < length; i++)], [fuel] iterations left. *)
Fixpoint shift_left_loop (fuel : nat) (m : bytes) (bitset from_pos by_ i : Z) : bytes :=
  match fuel with
  | O => m
  | S k =>
      let at_ := u64 (from_pos + i) in
      shift_left_loop k (copy_bit m bitset at_ (u64 (at_ - by_))) bitset from_pos by_ (i + 1)
  end.

Definition bitset_shift_left (m : bytes) (bitset from_pos to_pos by_ : Z) : bytes :=
  let length := u64 (to_pos - from_pos) in
  let m := shift_left_loop (Z.to_nat length) m bitset from_pos by_ 0 in
  fst (bitset_clear_range m bitset length (u64 (length + by_ - 1))).

(** [while (length >= 0)], counting down; [fuel] is [length + 1]. *)
Fixpoint shift_right_loop (fuel : nat) (m : bytes) (bitset from_pos by_ length : Z) : bytes :=
  match fuel with
  | O => m
  | S k =>
      if 0 <=? length then
        let at_ := u64 (from_pos + length) in
        shift_right_loop k (copy_bit m bitset at_ (u64 (at_ + by_))) bitset from_pos by_
          (length - 1)
      else m
  end.

Definition bitset_shift_right (m : bytes) (bitset from_pos to_pos by_ : Z) : bytes :=
  let length := s64 (to_pos - from_pos) in
  let m := shift_right_loop (Z.to_nat (length + 1)) m bitset from_pos by_ length in
  fst (bitset_clear_range m bitset from_pos (u64 (from_pos + by_ - 1))).

(** ** Reference view *)

Definition bit (m : bytes) (bitset i : Z) : bool :=
  Z.testbit (rd m (bitset + i / 8)) (i mod 8).

Fixpoint count_bits (m : bytes) (bitset from_pos : Z) (n : nat) : Z :=
  match n with
  | O => 0
  | S k => Z.b2z (bit m bitset from_pos) + count_bits m bitset (from_pos + 1) k
  end.

(** ** The mask and popcount tables *)

Lemma char_mask_spec i j k :
  0 <= i < 8 -> 0 <= j < 8 -> 0 <= k < 8 ->
  Z.testbit (char_mask i j) k = (i <=? k) && (k <=? j).
Proof.
  assert (H : all_below 8 (fun i => all_below 8 (fun j => all_below 8 (fun k =>
    eqb (Z.testbit (char_mask i j) k) ((i <=? k) && (k <=? j))))) = true) by reflexivity.
  intros. apply eqb_prop.
  below H i. below H j. by below H k.
Qed.

Lemma not8_spec x k : 0 <= k < 8 -> Z.testbit (not8 x) k = negb (Z.testbit x k).
Proof.
  intros. unfold not8, u8. rewrite Z.mod_pow2_bits_low by lia. apply Z.lnot_spec. lia.
Qed.

Lemma index_mask_spec i k :
  0 <= i < 8 -> 0 <= k < 8 -> Z.testbit (getZ 0 bitset_index_mask i) k = (i =? k).
Proof.
  assert (H : all_below 8 (fun i => all_below 8 (fun k =>
    eqb (Z.testbit (getZ 0 bitset_index_mask i) k) (i =? k))) = true) by reflexivity.
  intros. apply eqb_prop.
  below H i. by below H k.
Qed.

(** Number of set bits of [v] at positions [i .. i + n - 1]. *)
Fixpoint sum_bits (v i : Z) (n : nat) : Z :=
  match n with
  | O => 0
  | S k => Z.b2z (Z.testbit v i) + sum_bits v (i + 1) k
  end.

Lemma popcount_masked v i j :
  0 <= v < 256 -> 0 <= i -> i <= j < 8 ->
  popcount_byte (Z.land v (char_mask i j)) = sum_bits v i (Z.to_nat (j - i + 1)).
Proof.
  assert (H : all_below 256 (fun v => all_below 8 (fun i => all_below 8 (fun j =>
    if i <=? j then popcount_byte (Z.land v (char_mask i j))
                    =? sum_bits v i (Z.to_nat (j - i + 1)) else true))) = true)
    by (vm_compute; reflexivity).
  intros. below H v. below H i. below H j.
  destruct (Z.leb_spec i j); [|lia]. by apply Z.eqb_eq.
Qed.

Lemma land_255 v : 0 <= v < 256 -> Z.land v (char_mask 0 7) = v.
Proof.
  intros. change (char_mask 0 7) with (Z.ones 8). rewrite Z.land_ones by lia.
  apply Z.mod_small. lia.
Qed.

Lemma popcount_byte_spec v : 0 <= v < 256 -> popcount_byte v = sum_bits v 0 8.
Proof. intros. rewrite <- (land_255 v) at 1 by done. by rewrite popcount_masked. Qed.

(** ** Memory frames of the loops *)

Lemma fill_buckets_spec m b f t v :
  f < t ->
  exists m', fill_buckets (Z.to_nat (t - f)) m b f t v = (m', t) /\
    forall a, rd m' a = if (b + f <? a) && (a <? b + t) then u8 v else rd m a.
Proof.
  remember (Z.to_nat (t - f)) as n eqn:Hn. revert m f Hn.
  induction n as [|n IH]; intros m f Hn Hlt; [lia|]. cbn [fill_buckets].
  destruct (Z.eqb_spec (f + 1) t) as [Heq|Hne].
  - subst t. exists m. split; [done|]. intros a. zb; simpl; try done; lia.
  - destruct (IH (wr m (b + (f + 1)) v) (f + 1)) as (m' & -> & Hm'); [lia..|].
    exists m'. split; [done|]. intros a. rewrite Hm', rd_wr.
    zb; simpl; try done; lia.
Qed.

(** Splitting a position into its bucket and index. *)
Ltac split_pos i q r :=
  let Hq := fresh "Hq" in let Hr := fresh "Hr" in
  pose proof (Z.div_mod i 8 ltac:(lia)) as Hq;
  pose proof (Z.mod_pos_bound i 8 ltac:(lia)) as Hr;
  set (q := i / 8) in *; set (r := i mod 8) in *; clearbody q r; subst i.

Lemma testbit_255 k : 0 <= k < 8 -> Z.testbit 255 k = true.
Proof. intros. change 255 with (Z.ones 8). apply Z.ones_spec_low. lia. Qed.

Lemma u8_testbit v k : 0 <= k < 8 -> Z.testbit (u8 v) k = Z.testbit v k.
Proof. intros. apply Z.mod_pow2_bits_low. lia. Qed.

(** Case analysis on the comparisons of a goal between boolean expressions. *)
Ltac bool_cases :=
  zb; cbn [andb orb negb]; rewrite ?andb_true_r, ?andb_false_r, ?orb_true_r, ?orb_false_r;
  try done; try lia.

Lemma bit_bitset_set_range m b f t i :
  0 <= f <= t -> 0 <= i ->
  bit (fst (bitset_set_range m b f t)) b i = bit m b i || ((f <=? i) && (i <=? t)).
Proof.
  intros Hft Hi. unfold bitset_set_range, bit, CHAR_BIT.
  split_pos f fq fr. split_pos t tq tr. split_pos i iq ir.
  destruct (Z.eqb_spec fq tq) as [->|Hne].
  - cbn [fst]. rewrite rd_wr. zb; try lia;
      rewrite ?u8_testbit, ?Z.lor_spec, ?char_mask_spec by lia;
      repeat match goal with H : b + _ = b + _ |- _ => apply Z.add_cancel_l in H; subst end; bool_cases.
  - match goal with |- context [fill_buckets _ ?m0 _ _ _ _] =>
      destruct (fill_buckets_spec m0 b fq tq 255) as (m' & -> & Hm') end; [lia|].
    cbn [fst]. rewrite Hm', !rd_wr. zb; cbn [andb]; try lia;
      rewrite ?u8_testbit, ?Z.lor_spec, ?testbit_255, ?char_mask_spec by lia;
      repeat match goal with H : b + _ = b + _ |- _ => apply Z.add_cancel_l in H; subst end; bool_cases.
Qed.

Lemma bit_bitset_clear_range m b f t i :
  0 <= f <= t -> 0 <= i ->
  bit (fst (bitset_clear_range m b f t)) b i = bit m b i && negb ((f <=? i) && (i <=? t)).
Proof.
  intros Hft Hi. unfold bitset_clear_range, bit, CHAR_BIT.
  split_pos f fq fr. split_pos t tq tr. split_pos i iq ir.
  destruct (Z.eqb_spec fq tq) as [->|Hne].
  - cbn [fst]. rewrite rd_wr. zb; try lia;
      rewrite ?u8_testbit, ?Z.land_spec, ?not8_spec, ?char_mask_spec by lia;
      repeat match goal with H : b + _ = b + _ |- _ => apply Z.add_cancel_l in H; subst end; bool_cases.
  - match goal with |- context [fill_buckets _ ?m0 _ _ _ _] =>
      destruct (fill_buckets_spec m0 b fq tq 0) as (m' & -> & Hm') end; [lia|].
    cbn [fst]. rewrite Hm', !rd_wr. zb; cbn [andb]; try lia;
      rewrite ?u8_testbit, ?Z.land_spec, ?not8_spec, ?Z.bits_0, ?char_mask_spec by lia;
      repeat match goal with H : b + _ = b + _ |- _ => apply Z.add_cancel_l in H; subst end; bool_cases.
Qed.

Lemma rd_bitset_set_range_out m b f t a :
  0 <= f <= t -> a < b + f / 8 \/ b + t / 8 < a ->
  rd (fst (bitset_set_range m b f t)) a = rd m a.
Proof.
  intros Hft Ha. unfold bitset_set_range, CHAR_BIT.
  split_pos f fq fr. split_pos t tq tr.
  destruct (Z.eqb_spec fq tq) as [->|Hne]; cbn [fst].
  - apply rd_wr_ne. lia.
  - match goal with |- context [fill_buckets _ ?m0 _ _ _ _] =>
      destruct (fill_buckets_spec m0 b fq tq 255) as (m' & -> & Hm') end; [lia|].
    cbn [fst]. rewrite Hm', !rd_wr. zb; cbn [andb]; try done; lia.
Qed.

Lemma rd_bitset_clear_range_out m b f t a :
  0 <= f <= t -> a < b + f / 8 \/ b + t / 8 < a ->
  rd (fst (bitset_clear_range m b f t)) a = rd m a.
Proof.
  intros Hft Ha. unfold bitset_clear_range, CHAR_BIT.
  split_pos f fq fr. split_pos t tq tr.
  destruct (Z.eqb_spec fq tq) as [->|Hne]; cbn [fst].
  - apply rd_wr_ne. lia.
  - match goal with |- context [fill_buckets _ ?m0 _ _ _ _] =>
      destruct (fill_buckets_spec m0 b fq tq 0) as (m' & -> & Hm') end; [lia|].
    cbn [fst]. rewrite Hm', !rd_wr. zb; cbn [andb]; try done; lia.
Qed.

Lemma snd_bitset_set_range m b f t :
  0 <= f <= t -> snd (bitset_set_range m b f t) = BucketRange (t / 8) (t / 8).
Proof.
  intros Hft. unfold bitset_set_range, CHAR_BIT.
  split_pos f fq fr. split_pos t tq tr.
  destruct (Z.eqb_spec fq tq) as [->|Hne]; cbn [snd]; [done|].
  match goal with |- context [fill_buckets _ ?m0 _ _ _ _] =>
    destruct (fill_buckets_spec m0 b fq tq 255) as (m' & -> & Hm') end; [lia|done].
Qed.

Lemma snd_bitset_clear_range m b f t :
  0 <= f <= t -> snd (bitset_clear_range m b f t) = BucketRange (t / 8) (t / 8).
Proof.
  intros Hft. unfold bitset_clear_range, CHAR_BIT.
  split_pos f fq fr. split_pos t tq tr.
  destruct (Z.eqb_spec fq tq) as [->|Hne]; cbn [snd]; [done|].
  match goal with |- context [fill_buckets _ ?m0 _ _ _ _] =>
    destruct (fill_buckets_spec m0 b fq tq 0) as (m' & -> & Hm') end; [lia|done].
Qed.

(** ** Single-bit operations *)

Lemma truthy_bitset_test m b p : truthy (bitset_test m b p) = bit m b p.
Proof.
  assert (H : all_below 256 (fun v => all_below 8 (fun k =>
    eqb (truthy (Z.land v (getZ 0 bitset_index_mask k))) (Z.testbit v k))) = true)
    by (vm_compute; reflexivity).
  unfold bitset_test, bit, CHAR_BIT. apply eqb_prop.
  pose proof (rd_range m (b + p / 8)). pose proof (Z.mod_pos_bound p 8 ltac:(lia)).
  below H (rd m (b + p / 8)). by below H (p mod 8).
Qed.

Lemma bit_bitset_set m b p i :
  0 <= p -> 0 <= i -> bit (bitset_set m b p) b i = bit m b i || (p =? i).
Proof.
  intros Hp Hi. unfold bitset_set, bit, CHAR_BIT. split_pos p pq pr. split_pos i iq ir.
  rewrite rd_wr. zb; rewrite ?u8_testbit, ?Z.lor_spec, ?index_mask_spec by lia;
    repeat match goal with H : b + _ = b + _ |- _ => apply Z.add_cancel_l in H; subst end;
    bool_cases.
Qed.

Lemma bit_bitset_clear m b p i :
  0 <= p -> 0 <= i -> bit (bitset_clear m b p) b i = bit m b i && negb (p =? i).
Proof.
  intros Hp Hi. unfold bitset_clear, bit, CHAR_BIT. split_pos p pq pr. split_pos i iq ir.
  rewrite rd_wr. zb; rewrite ?u8_testbit, ?Z.land_spec, ?not8_spec, ?index_mask_spec by lia;
    repeat match goal with H : b + _ = b + _ |- _ => apply Z.add_cancel_l in H; subst end;
    bool_cases.
Qed.

Lemma bit_copy_bit m b s d i :
  0 <= d -> 0 <= i ->
  bit (copy_bit m b s d) b i = if d =? i then bit m b s else bit m b i.
Proof.
  intros. unfold copy_bit. rewrite truthy_bitset_test.
  destruct (bit m b s) eqn:E; rewrite ?bit_bitset_set, ?bit_bitset_clear by done; bool_cases.
Qed.

(** ** Counting *)

Lemma count_bits_app m b f n1 n2 :
  count_bits m b f (n1 + n2) = count_bits m b f n1 + count_bits m b (f + Z.of_nat n1) n2.
Proof.
  revert f. induction n1 as [|n1 IH]; intros f.
  - by rewrite Z.add_0_r.
  - cbn [count_bits Nat.add]. rewrite IH.
    replace (f + Z.of_nat (S n1)) with (f + 1 + Z.of_nat n1) by lia. lia.
Qed.

Lemma count_bits_range m b f n : 0 <= count_bits m b f n <= Z.of_nat n.
Proof.
  revert f. induction n as [|n IH]; intros f; [simpl; lia|]. cbn [count_bits].
  specialize (IH (f + 1)). destruct (bit m b f); simpl Z.b2z; lia.
Qed.

Lemma sum_bits_count m b q i n :
  0 <= i -> i + Z.of_nat n <= 8 ->
  sum_bits (rd m (b + q)) i n = count_bits m b (8 * q + i) n.
Proof.
  revert i. induction n as [|n IH]; intros i Hi Hn; [done|].
  cbn [sum_bits count_bits]. rewrite IH, Z.add_assoc by lia. f_equal. unfold bit.
  replace ((8 * q + i) / 8) with q by (Z.div_mod_to_equations; lia).
  by replace ((8 * q + i) mod 8) with i by (Z.div_mod_to_equations; lia).
Qed.

Lemma count_buckets_spec m b f t r :
  f < t -> 0 <= r -> r + 8 * (t - f) < 2 ^ 64 ->
  count_buckets (Z.to_nat (t - f)) m b f t r
  = r + count_bits m b (8 * (f + 1)) (Z.to_nat (8 * (t - f - 1))).
Proof.
  remember (Z.to_nat (t - f)) as n eqn:Hn. revert f r Hn.
  induction n as [|n IH]; intros f r Hn Hlt Hr Hb; [lia|]. cbn [count_buckets].
  destruct (Z.eqb_spec (f + 1) t) as [Heq|Hne].
  - replace (Z.to_nat (8 * (t - f - 1))) with O by lia. simpl. lia.
  - rewrite popcount_byte_spec by apply rd_range.
    rewrite (sum_bits_count m b (f + 1) 0 8), Z.add_0_r by lia.
    pose proof (count_bits_range m b (8 * (f + 1)) 8).
    rewrite u64_small, IH by lia.
    replace (Z.to_nat (8 * (t - f - 1))) with (8 + Z.to_nat (8 * (t - (f + 1) - 1)))%nat by lia.
    rewrite count_bits_app. replace (8 * (f + 1 + 1)) with (8 * (f + 1) + Z.of_nat 8) by lia. lia.
Qed.

Lemma bitset_count_range_count m b f t :
  0 <= f <= t -> t < 2 ^ 63 ->
  bitset_count_range m b f t = count_bits m b f (Z.to_nat (t - f + 1)).
Proof.
  intros Hft Ht. unfold bitset_count_range, CHAR_BIT.
  split_pos f fq fr. split_pos t tq tr.
  pose proof (rd_range m (b + fq)). pose proof (rd_range m (b + tq)).
  destruct (Z.eqb_spec fq tq) as [->|Hne]; rewrite !popcount_masked by lia;
    rewrite !sum_bits_count by lia.
  - f_equal; lia.
  - rewrite Z.add_0_r.
    pose proof (count_bits_range m b (8 * fq + fr) (Z.to_nat (7 - fr + 1))).
    pose proof (count_bits_range m b (8 * tq) (Z.to_nat (tr - 0 + 1))).
    rewrite count_buckets_spec by lia.
    replace (Z.to_nat (8 * tq + tr - (8 * fq + fr) + 1)) with
      (Z.to_nat (7 - fr + 1) + (Z.to_nat (8 * (tq - fq - 1)) + Z.to_nat (tr - 0 + 1)))%nat by lia.
    rewrite !count_bits_app.
    replace (8 * fq + fr + Z.of_nat (Z.to_nat (7 - fr + 1))) with (8 * (fq + 1)) by lia.
    replace (8 * (fq + 1) + Z.of_nat (Z.to_nat (8 * (tq - fq - 1)))) with (8 * tq) by lia. lia.
Qed.

(** ** Shifting *)

Lemma bit_shift_left_loop n m b f by_ i j :
  0 <= i -> 0 <= by_ <= f -> f + i + Z.of_nat n < 2 ^ 64 -> 0 <= j ->
  bit (shift_left_loop n m b f by_ i) b j =
  if (f + i - by_ <=? j) && (j <? f + i + Z.of_nat n - by_) then bit m b (j + by_) else bit m b j.
Proof.
  revert m i. induction n as [|n IH]; intros m i Hi Hby Hn Hj; cbn [shift_left_loop].
  - bool_cases.
  - rewrite (u64_small (f + i)), u64_small by lia.
    rewrite IH, !bit_copy_bit by lia.
    replace (f + (i + 1) + Z.of_nat n) with (f + i + Z.of_nat (S n)) by lia.
    bool_cases; f_equal; lia.
Qed.

Lemma bit_shift_right_loop m b f by_ len j :
  -1 <= len -> 0 <= f -> 0 <= by_ -> f + len + by_ < 2 ^ 64 -> 0 <= j ->
  bit (shift_right_loop (Z.to_nat (len + 1)) m b f by_ len) b j =
  if (f + by_ <=? j) && (j <=? f + len + by_) then bit m b (j - by_) else bit m b j.
Proof.
  remember (Z.to_nat (len + 1)) as n eqn:Hn. revert m len Hn.
  induction n as [|n IH]; intros m len Hn Hlen Hf Hby Hb Hj; cbn [shift_right_loop].
  - bool_cases.
  - destruct (Z.leb_spec 0 len); [|lia]. rewrite (u64_small (f + len)), u64_small by lia.
    rewrite IH by lia. clear IH. bool_cases; rewrite bit_copy_bit by lia; bool_cases; f_equal; lia.
Qed.

Lemma s64_small x : 0 <= x < 2 ^ 63 -> s64 x = x.
Proof. intros. unfold s64. rewrite u64_small by lia. zb; [done|lia]. Qed.

(** ** Correctness of the bitset *)

(** [bitset_set_range] and [bitset_clear_range] set, respectively clear,
    exactly the positions [from_pos..to_pos] (both ends included) of the bitset
    and leave every other position as it was, whatever the alignment of the
    ends to bytes and however many whole bytes lie between. *)
Theorem bitset_range_correct (m : bytes) (b f t i : Z) :
  0 <= f <= t -> 0 <= i ->
  bit (fst (bitset_set_range m b f t)) b i = (if (f <=? i) && (i <=? t) then true else bit m b i) /\
  bit (fst (bitset_clear_range m b f t)) b i = (if (f <=? i) && (i <=? t) then false else bit m b i).
Proof.
  intros. rewrite bit_bitset_set_range, bit_bitset_clear_range by done.
  destruct ((f <=? i) && (i <=? t)), (bit m b i); done.
Qed.

Lemma bitset_range_correct_witness :
  0 <= 3 <= 20 /\ bit (fst (bitset_set_range ∅ 0 3 20)) 0 17 = true.
Proof.
  split; [lia|]. rewrite (proj1 (bitset_range_correct ∅ 0 3 20 17 ltac:(lia) ltac:(lia))). reflexivity.
Defined.

(** [bitset_count_range] returns the number of set positions among
    [from_pos..to_pos], for every range below 2^63 bits. *)
Theorem bitset_count_range_correct (m : bytes) (b f t : Z) :
  0 <= f <= t -> t < 2 ^ 63 ->
  bitset_count_range m b f t
  = Z.of_nat (length (filter (fun i => bit m b i = true) (seqZ f (t - f + 1)))).
Proof.
  intros. rewrite bitset_count_range_count by done.
  remember (Z.to_nat (t - f + 1)) as n eqn:Hn. replace (t - f + 1) with (Z.of_nat n) by lia.
  clear. revert f. induction n as [|n IH]; intros f; [done|].
  rewrite seqZ_cons by lia. replace (Z.pred (Z.of_nat (S n))) with (Z.of_nat n) by lia.
  cbn [count_bits]. rewrite filter_cons, IH, Z.add_1_r.
  destruct (bit m b f); case_decide; simpl length; simpl Z.b2z; try done; lia.
Qed.

Lemma bitset_count_range_correct_witness :
  0 <= 2 <= 30 /\
  bitset_count_range (fst (bitset_set_range ∅ 0 5 25)) 0 2 30
  = Z.of_nat (length (filter (fun i => bit (fst (bitset_set_range ∅ 0 5 25)) 0 i = true)
                        (seqZ 2 (30 - 2 + 1)))).
Proof. split; [lia|]. apply (bitset_count_range_correct _ 0 2 30); lia. Defined.

(** [bitset_shift_right] by a positive distance moves the bits
    [from_pos..to_pos] up by [by], also when source and destination overlap,
    clears the vacated positions and touches nothing else. *)
Theorem bitset_shift_right_correct (m : bytes) (b f t by_ j : Z) :
  0 <= f <= t -> 1 <= by_ -> t + by_ < 2 ^ 63 -> 0 <= j ->
  bit (bitset_shift_right m b f t by_) b j =
  if (f <=? j) && (j <? f + by_) then false
  else if (f + by_ <=? j) && (j <=? t + by_) then bit m b (j - by_)
  else bit m b j.
Proof.
  intros. unfold bitset_shift_right. rewrite s64_small, u64_small by lia.
  rewrite bit_bitset_clear_range, bit_shift_right_loop by lia.
  replace (f + (t - f) + by_) with (t + by_) by lia. bool_cases.
Qed.

Lemma bitset_shift_right_correct_witness :
  0 <= 1 <= 9 /\
  bit (bitset_shift_right (fst (bitset_set_range ∅ 0 1 9)) 0 1 9 4) 0 12 = true.
Proof.
  split; [lia|].
  rewrite (bitset_shift_right_correct _ 0 1 9 4 12 ltac:(lia) ltac:(lia) ltac:(lia) ltac:(lia)).
  reflexivity.
Defined.

(** [bitset_shift_left] copies [from_pos..to_pos-1] down by [by]; the
    range it clears afterwards starts at the length of the range, not at its
    new end, so it clears the vacated tail exactly when [from_pos = by]. *)
Theorem bitset_shift_left_exact (m : bytes) (b f t by_ j : Z) :
  1 <= by_ <= f -> f <= t -> t + by_ < 2 ^ 63 -> 0 <= j ->
  bit (bitset_shift_left m b f t by_) b j =
  if (t - f <=? j) && (j <? t - f + by_) then false
  else if (f - by_ <=? j) && (j <? t - by_) then bit m b (j + by_)
  else bit m b j.
Proof.
  intros. unfold bitset_shift_left. rewrite (u64_small (t - f)), u64_small by lia.
  rewrite bit_bitset_clear_range, bit_shift_left_loop by lia. bool_cases.
Qed.

Lemma bitset_shift_left_exact_witness :
  1 <= 4 <= 4 /\
  bit (bitset_shift_left (fst (bitset_set_range ∅ 0 4 11)) 0 4 12 4) 0 5 = true.
Proof.
  split; [lia|].
  rewrite (bitset_shift_left_exact _ 0 4 12 4 5 ltac:(lia) ltac:(lia) ltac:(lia) ltac:(lia)).
  reflexivity.
Defined.

(** The bucket range that [bitset_set_range] and [bitset_clear_range]
    report, which [write_to_internal_position] turns into the bytes to flush,
    is the last bucket alone: a write that spans several buckets leaves its
    first bucket out of the reported range. *)
Theorem bitset_range_reported (m : bytes) (b f t : Z) :
  0 <= f <= t ->
  snd (bitset_set_range m b f t) = BucketRange (t / 8) (t / 8) /\
  snd (bitset_clear_range m b f t) = BucketRange (t / 8) (t / 8).
Proof. intros. by rewrite snd_bitset_set_range, snd_bitset_clear_range. Qed.

Lemma bitset_range_reported_witness :
  0 <= 3 <= 20 /\ from (snd (bitset_set_range ∅ 0 3 20)) <> 3 / 8.
Proof.
  split; [lia|].
  rewrite (proj1 (bitset_range_reported ∅ 0 3 20 ltac:(lia))). discriminate.
Defined.
