(* ===== verification/Checksum.v ===== *)
(** The Fletcher64-like checksum of src/src/common/util_checksum.c, over byte
    memory read as little-endian 32-bit words. *)
From Stdlib Require Import ZArith Lia Bool.
From stdpp Require Import base list gmap numbers.
From S2P Require Import Prelude.
Local Open Scope Z_scope.
Local Open Scope lupin_scope.

(** [(uint64_t)hi32 << 32 | lo32] *)
Definition pack64 (hi32 lo32 : Z) : Z := Z.lor (Z.shiftl hi32 32) lo32.

(** [while (p32 < p32end)]: every iteration consumes at least one word. *)
Fixpoint checksum_loop (fuel : nat) (m : bytes) (p32 p32end csump skip lo32 hi32 : Z) : Z :=
  match fuel with
  | O => pack64 hi32 lo32
  | S k =>
      if p32 <? p32end then
        if (p32 =? csump) || (p32 >=? skip) then
          checksum_loop k m (p32 + 8) p32end csump skip lo32 (u32 (u32 (hi32 + lo32) + lo32))
        else
          let lo32 := u32 (lo32 + load32 m p32) in
          checksum_loop k m (p32 + 4) p32end csump skip lo32 (u32 (hi32 + lo32))
      else pack64 hi32 lo32
  end.

Definition util_checksum_compute (m : bytes) (addr len csump skip_off : Z) : outcome Z :=
  bug_on (negb (len mod 4 =? 0))
    (let skip := if truthy skip_off then addr + skip_off else addr + len in
     Ret (checksum_loop (Z.to_nat (len / 4)) m addr (addr + len) csump skip 0 0)).

(** Returns the memory, with the checksum stored when [insert], and the result. *)
Definition util_checksum (m : bytes) (addr len csump insert skip_off : Z) : outcome (bytes * Z) :=
  let! csum := util_checksum_compute m addr len csump skip_off in
  if truthy insert then Ret (store64 m csump csum, 1)
  else Ret (m, if load64 m csump =? csum then 1 else 0).

Fixpoint checksum_seq_loop (fuel : nat) (m : bytes) (p32 p32end lo32 hi32 : Z) : Z :=
  match fuel with
  | O => pack64 hi32 lo32
  | S k =>
      if p32 <? p32end then
        let lo32 := u32 (lo32 + load32 m p32) in
        checksum_seq_loop k m (p32 + 4) p32end lo32 (u32 (hi32 + lo32))
      else pack64 hi32 lo32
  end.

Definition util_checksum_seq (m : bytes) (addr len csum : Z) : outcome Z :=
  bug_on (negb (len mod 4 =? 0))
    (Ret (checksum_seq_loop (Z.to_nat (len / 4)) m addr (addr + len)
            (u32 csum) (u32 (Z.shiftr csum 32)))).

(** ** Lemmas *)

Lemma pack64_lo hi lo : 0 <= hi -> 0 <= lo < 2 ^ 32 -> u32 (pack64 hi lo) = lo.
Proof.
  intros Hh Hl. unfold pack64, u32. rewrite lor_shiftl_add by lia.
  rewrite Z.add_comm, Z.mod_add, Z.mod_small; lia.
Qed.

Lemma pack64_hi hi lo : 0 <= hi < 2 ^ 32 -> 0 <= lo < 2 ^ 32 -> u32 (Z.shiftr (pack64 hi lo) 32) = hi.
Proof.
  intros Hh Hl. unfold pack64. rewrite Z.shiftr_lor, Z.shiftr_shiftl_l, Z.shiftl_0_r by lia.
  rewrite (Z.shiftr_div_pow2 lo), Z.div_small, Z.lor_0_r by lia. by apply u32_small.
Qed.

Lemma checksum_seq_loop_app n1 n2 m p lo hi :
  let q := p + 4 * Z.of_nat n1 in
  0 <= lo < 2 ^ 32 -> 0 <= hi < 2 ^ 32 ->
  checksum_seq_loop (n1 + n2) m p (q + 4 * Z.of_nat n2) lo hi =
  let c := checksum_seq_loop n1 m p q lo hi in
  checksum_seq_loop n2 m q (q + 4 * Z.of_nat n2) (u32 c) (u32 (Z.shiftr c 32)).
Proof.
  cbn zeta. revert p lo hi. induction n1 as [|n1 IH]; intros p lo hi Hlo Hhi.
  - cbn [Nat.add checksum_seq_loop]. rewrite Z.mul_0_r, Z.add_0_r.
    by rewrite pack64_lo, pack64_hi by lia.
  - cbn [Nat.add checksum_seq_loop].
    destruct (Z.ltb_spec p (p + 4 * Z.of_nat (S n1) + 4 * Z.of_nat n2)); [|lia].
    destruct (Z.ltb_spec p (p + 4 * Z.of_nat (S n1))); [|lia].
    replace (p + 4 * Z.of_nat (S n1)) with (p + 4 + 4 * Z.of_nat n1) by lia.
    apply IH; apply u32_range.
Qed.

(** The sum of the words, modulo 2^32: the low half of the checksum. *)
Fixpoint word_sum (n : nat) (m : bytes) (p : Z) : Z :=
  match n with
  | O => 0
  | S k => load32 m p + word_sum k m (p + 4)
  end.

Lemma checksum_loop_lo n m p csump lo hi :
  (forall j, 0 <= j < Z.of_nat n -> p + 4 * j <> csump) -> 0 <= lo < 2 ^ 32 -> 0 <= hi ->
  u32 (checksum_loop n m p (p + 4 * Z.of_nat n) csump (p + 4 * Z.of_nat n) lo hi)
  = u32 (lo + word_sum n m p).
Proof.
  revert p lo hi. induction n as [|n IH]; intros p lo hi Hc Hlo Hhi; cbn [checksum_loop word_sum].
  - rewrite pack64_lo, Z.add_0_r by lia. symmetry. by apply u32_small.
  - destruct (Z.ltb_spec p (p + 4 * Z.of_nat (S n))); [|lia].
    destruct (Z.eqb_spec p csump) as [E|]; [exfalso; apply (Hc 0); lia|].
    rewrite Z.geb_leb. destruct (Z.leb_spec (p + 4 * Z.of_nat (S n)) p); [lia|]. cbn [orb].
    replace (p + 4 * Z.of_nat (S n)) with (p + 4 + 4 * Z.of_nat n) by lia.
    rewrite IH by (try apply u32_range; intros; rewrite <- Z.add_assoc;
      replace (4 + 4 * j) with (4 * (j + 1)) by lia; apply Hc; lia).
    unfold u32. rewrite Zplus_mod_idemp_l. f_equal. lia.
Qed.

(** The checksum depends only on the words outside its own location. *)
Lemma checksum_loop_ext fuel m1 m2 p pend csump lo hi :
  (forall a, p <= a < pend -> ~ (csump <= a < csump + 8) -> rd m1 a = rd m2 a) ->
  (exists j, csump = p + 4 * j) -> (exists j, pend = p + 4 * j) ->
  p <= csump \/ csump + 8 <= p ->
  checksum_loop fuel m1 p pend csump pend lo hi = checksum_loop fuel m2 p pend csump pend lo hi.
Proof.
  revert p lo hi. induction fuel as [|fuel IH]; intros p lo hi Hm [jc Hc] [je He] Hp;
    cbn [checksum_loop]; [done|].
  rewrite Z.geb_leb. destruct (Z.ltb_spec p pend); [|done].
  destruct (Z.leb_spec pend p); [lia|]. rewrite orb_false_r.
  destruct (Z.eqb_spec p csump) as [E|E].
  - apply IH; [intros a Ha; apply Hm; lia|exists (jc - 2); lia|exists (je - 2); lia|lia].
  - rewrite (load32_ext m1 m2 p) by (intros b Hb; apply Hm; lia).
    apply IH; [intros a Ha; apply Hm; lia|exists (jc - 1); lia|exists (je - 1); lia|lia].
Qed.

Lemma word_sum_app n1 n2 m p :
  word_sum (n1 + n2) m p = word_sum n1 m p + word_sum n2 m (p + 4 * Z.of_nat n1).
Proof.
  revert p. induction n1 as [|n1 IH]; intros p; cbn [Nat.add word_sum].
  - by rewrite Z.mul_0_r, Z.add_0_r.
  - rewrite IH. replace (p + 4 + 4 * Z.of_nat n1) with (p + 4 * Z.of_nat (S n1)) by lia. lia.
Qed.

Lemma word_sum_ext n m1 m2 p :
  (forall a, p <= a < p + 4 * Z.of_nat n -> rd m1 a = rd m2 a) -> word_sum n m1 p = word_sum n m2 p.
Proof.
  revert p. induction n as [|n IH]; intros p H; cbn [word_sum]; [done|].
  rewrite (load32_ext m1 m2 p), (IH (p + 4)) by (intros; apply H; lia). done.
Qed.

Lemma checksum_loop_range fuel m p pend csump skip lo hi :
  0 <= lo < 2 ^ 32 -> 0 <= hi < 2 ^ 32 ->
  0 <= checksum_loop fuel m p pend csump skip lo hi < 2 ^ 64.
Proof.
  assert (Hpack : forall hi lo, 0 <= lo < 2 ^ 32 -> 0 <= hi < 2 ^ 32 -> 0 <= pack64 hi lo < 2 ^ 64)
    by (intros; unfold pack64; rewrite lor_shiftl_add by lia; lia).
  revert p lo hi. induction fuel as [|fuel IH]; intros p lo hi Hlo Hhi; cbn [checksum_loop]; [auto|].
  destruct (p <? pend); [|auto]. destruct (_ || _); apply IH; try done; apply u32_range.
Qed.

(** ** Correctness of the checksum *)

(** Inserting a checksum and verifying it afterwards succeeds: the
    location of the checksum counts as zero both times, so storing the checksum
    does not change what is summed. *)
Theorem checksum_insert_verify (m : bytes) (addr n csump : Z) :
  0 <= n -> (exists j, csump = addr + 4 * j) -> addr <= csump \/ csump + 8 <= addr ->
  exists m', util_checksum m addr (4 * n) csump 1 0 = Ret (m', 1) /\
             util_checksum m' addr (4 * n) csump 0 0 = Ret (m', 1).
Proof.
  intros Hn Hal Hpos. unfold util_checksum, util_checksum_compute, bug_on.
  assert (Hmod : 4 * n mod 4 = 0) by (rewrite Z.mul_comm; apply Z.mod_mul; lia).
  rewrite Hmod. cbn [Z.eqb negb truthy obind].
  eexists. split; [reflexivity|].
  set (c := checksum_loop _ m _ _ _ _ _ _).
  assert (E : checksum_loop (Z.to_nat (4 * n / 4)) (store64 m csump c) addr (addr + 4 * n) csump
                (addr + 4 * n) 0 0 = c).
  { unfold c at 2. apply checksum_loop_ext; [|done|exists n; lia|done].
    intros a Ha Hna. apply rd_store64_out. lia. }
  rewrite E, load64_store64, u64_small, Z.eqb_refl; [done|].
  apply checksum_loop_range; lia.
Qed.

Lemma checksum_insert_verify_witness :
  exists m', util_checksum (store64 ∅ 0 123456789) 0 (4 * 6) 16 1 0 = Ret (m', 1) /\
             util_checksum m' 0 (4 * 6) 16 0 0 = Ret (m', 1).
Proof. apply (checksum_insert_verify _ 0 6 16); [lia|exists 4; lia|lia]. Defined.

(** A change of a single 32-bit word of the data changes the checksum. *)
Theorem checksum_detects_word (m1 m2 : bytes) (addr n i csump : Z) :
  0 <= i < n -> csump < addr \/ addr + 4 * n <= csump ->
  (forall a, addr <= a < addr + 4 * n -> ~ (addr + 4 * i <= a < addr + 4 * i + 4) ->
     rd m1 a = rd m2 a) ->
  load32 m1 (addr + 4 * i) <> load32 m2 (addr + 4 * i) ->
  util_checksum_compute m1 addr (4 * n) csump 0 <> util_checksum_compute m2 addr (4 * n) csump 0.
Proof.
  intros Hi Hcs Hsame Hdiff. unfold util_checksum_compute, bug_on.
  assert (Hmod : 4 * n mod 4 = 0) by (rewrite Z.mul_comm; apply Z.mod_mul; lia).
  assert (Hdiv : 4 * n / 4 = n) by (rewrite Z.mul_comm; apply Z.div_mul; lia).
  rewrite Hmod, Hdiv. cbn [Z.eqb negb truthy]. intros [= E].
  apply (f_equal u32) in E.
  replace (addr + 4 * n) with (addr + 4 * Z.of_nat (Z.to_nat n)) in E by lia.
  rewrite !checksum_loop_lo, !Z.add_0_l in E by lia.
  replace (Z.to_nat n) with (Z.to_nat i + S (Z.to_nat (n - i - 1)))%nat in E by lia.
  rewrite !word_sum_app in E. replace (Z.of_nat (Z.to_nat i)) with i in E by lia. cbn [word_sum] in E.
  rewrite (word_sum_ext (Z.to_nat i) m1 m2) in E by (intros; apply Hsame; lia).
  rewrite (word_sum_ext (Z.to_nat (n - i - 1)) m1 m2) in E by (intros; apply Hsame; lia).
  pose proof (load32_range m1 (addr + 4 * i)). pose proof (load32_range m2 (addr + 4 * i)).
  set (x := load32 m1 _) in *. set (y := load32 m2 _) in *.
  set (A := word_sum (Z.to_nat i) m2 addr) in *. set (B := word_sum (Z.to_nat (n - i - 1)) m2 (addr + 4 * i + 4)) in *.
  clearbody x y A B.
  assert (Hz : (x - y) mod 2 ^ 32 = 0).
  { unfold u32 in E. replace (x - y) with (A + (x + B) - (A + (y + B))) by lia.
    rewrite Zminus_mod, E, Z.sub_diag. done. }
  apply Z.mod_divide in Hz as [q Hq]; [|lia]. assert (q = 0) by lia. lia.
Qed.

Lemma checksum_detects_word_witness :
  util_checksum_compute (store32 ∅ 4 7) 0 (4 * 3) 100 0
  <> util_checksum_compute (store32 ∅ 4 9) 0 (4 * 3) 100 0.
Proof.
  apply (checksum_detects_word _ _ 0 3 1 100); [lia|lia| |vm_compute; discriminate].
  intros a Ha Hna. unfold store32. rewrite !rd_store_out by lia. reflexivity.
Defined.

(** The sequential form composes: the checksum of two adjacent buffers is
    that of the second one continued from the checksum of the first. *)
Theorem checksum_seq_compose (m : bytes) (addr n1 n2 csum : Z) :
  0 <= n1 -> 0 <= n2 ->
  util_checksum_seq m addr (4 * (n1 + n2)) csum =
  obind (util_checksum_seq m addr (4 * n1) csum)
        (fun c => util_checksum_seq m (addr + 4 * n1) (4 * n2) c).
Proof.
  intros H1 H2. unfold util_checksum_seq, bug_on.
  assert (Hmod : forall n, 4 * n mod 4 = 0) by (intros; rewrite Z.mul_comm; apply Z.mod_mul; lia).
  assert (Hdiv : forall n, 4 * n / 4 = n) by (intros; rewrite Z.mul_comm; apply Z.div_mul; lia).
  rewrite !Hmod, !Hdiv. cbn [Z.eqb negb obind]. f_equal.
  replace (Z.to_nat (n1 + n2)) with (Z.to_nat n1 + Z.to_nat n2)%nat by lia.
  pose proof (checksum_seq_loop_app (Z.to_nat n1) (Z.to_nat n2) m addr (u32 csum)
    (u32 (Z.shiftr csum 32)) (u32_range _) (u32_range _)) as E. cbn zeta in E.
  rewrite !Z2Nat.id in E by lia.
  replace (addr + 4 * (n1 + n2)) with (addr + 4 * n1 + 4 * n2) by lia. exact E.
Qed.

Lemma checksum_seq_compose_witness :
  util_checksum_seq (store64 ∅ 0 99) 0 (4 * (1 + 2)) 5 =
  obind (util_checksum_seq (store64 ∅ 0 99) 0 (4 * 1) 5)
        (fun c => util_checksum_seq (store64 ∅ 0 99) (0 + 4 * 1) (4 * 2) c).
Proof. apply (checksum_seq_compose _ 0 1 2 5); lia. Defined.

(** A location outside the range plays no part. *)
Lemma checksum_loop_csump fuel m p pend c1 c2 lo hi :
  (c1 < p \/ pend <= c1) -> (c2 < p \/ pend <= c2) ->
  checksum_loop fuel m p pend c1 pend lo hi = checksum_loop fuel m p pend c2 pend lo hi.
Proof.
  revert p lo hi. induction fuel as [|fuel IH]; intros p lo hi H1 H2; cbn [checksum_loop]; [done|].
  rewrite Z.geb_leb. destruct (Z.ltb_spec p pend); [|done].
  destruct (Z.leb_spec pend p); [lia|]. rewrite !orb_false_r.
  destruct (Z.eqb_spec p c1); [lia|]. destruct (Z.eqb_spec p c2); [lia|].
  apply IH; lia.
Qed.

(** The checksum of a range without its own location in it. *)
Lemma checksum_compute_ext m1 m2 addr n c1 c2 :
  0 <= n -> (c1 < addr \/ addr + 4 * n <= c1) -> (c2 < addr \/ addr + 4 * n <= c2) ->
  (forall a, addr <= a < addr + 4 * n -> rd m1 a = rd m2 a) ->
  util_checksum_compute m1 addr (4 * n) c1 0 = util_checksum_compute m2 addr (4 * n) c2 0.
Proof.
  intros Hn H1 H2 Hm. unfold util_checksum_compute. f_equal. cbn [truthy Z.eqb negb]. f_equal.
  rewrite (checksum_loop_csump _ m1 _ _ c1 (addr + 4 * n)) by lia.
  rewrite (checksum_loop_csump _ m2 _ _ c2 (addr + 4 * n)) by lia.
  apply checksum_loop_ext; [intros a Ha _; by apply Hm|exists n; lia|exists n; lia|lia].
Qed.

Lemma checksum_compute_ret m addr n csump :
  exists c, util_checksum_compute m addr (4 * n) csump 0 = Ret c /\ 0 <= c < 2 ^ 64.
Proof.
  unfold util_checksum_compute, bug_on.
  assert (Hmod : 4 * n mod 4 = 0) by (rewrite Z.mul_comm; apply Z.mod_mul; lia).
  rewrite Hmod. cbn. eexists. split; [done|]. apply checksum_loop_range; lia.
Qed.
