(* ===== verification/Redo.v ===== *)
(** Redo-able memory updates.

    Replaying a redo log is correct when each logged update is blind: whatever
    the memory held, the update leaves the same values in the bits it touches
    and does not touch any other bit.  [Blind f T] states this of an update [f]
    with touched bits [T]; the instances derive it for the stores, string copies
    and bitmap updates that log entries perform, and for their compositions. *)
From Stdlib Require Import ZArith Lia Bool.
From stdpp Require Import base list gmap numbers.
From S2P Require Import Prelude Bitset.
Local Open Scope Z_scope.

(** A set of bits of memory: byte address and position in the byte. *)
Definition region : Type := Z -> Z -> bool.

Definition rng (a n : Z) : region := fun x _ => (a <=? x) && (x <? a + n).
Definition one_bit (b p : Z) : region := fun x k => (x =? b + p / 8) && (k =? p mod 8).
Definition runion (T1 T2 : region) : region := fun x k => T1 x k || T2 x k.
Definition rempty : region := fun _ _ => false.

Definition mbit (m : bytes) (a k : Z) : bool := Z.testbit (rd m a) k.

(** The two memories hold the same bits outside [T]. *)
Definition agree_off (T : region) (m m' : bytes) : Prop :=
  forall a k, 0 <= k < 8 -> T a k = false -> mbit m a k = mbit m' a k.

Class Blind (f : bytes -> bytes) (T : region) : Prop := {
  blind_frame : forall m, agree_off T m (f m);
  blind_fixed : forall m m' a k, 0 <= k < 8 -> T a k = true -> mbit (f m) a k = mbit (f m') a k }.

Lemma rd_bits m m' a : (forall k, 0 <= k < 8 -> mbit m a k = mbit m' a k) -> rd m a = rd m' a.
Proof.
  intros H. pose proof (rd_range m a). pose proof (rd_range m' a).
  apply Z.bits_inj'. intros k Hk. destruct (Z.lt_ge_cases k 8); [by apply H|].
  rewrite !(testbit_above _ 8) by (simpl; lia). done.
Qed.

(** Two memories that agree outside the touched bits are equal afterwards. *)
Lemma blind_converge f T m m' : Blind f T -> agree_off T m m' -> mem_eq (f m) (f m').
Proof.
  intros [Hf Hd] Ha a. apply rd_bits. intros k Hk. destruct (T a k) eqn:E.
  - by apply Hd.
  - rewrite <- (Hf m a k), <- (Hf m' a k) by done. by apply Ha.
Qed.

#[export] Instance agree_off_equiv T : Equivalence (agree_off T).
Proof.
  split.
  - by intros m a k.
  - intros m1 m2 H a k Hk Ht. symmetry. by apply H.
  - intros m1 m2 m3 H1 H2 a k Hk Ht. rewrite H1 by done. by apply H2.
Qed.

Lemma agree_off_weaken (T1 T2 : region) m m' :
  (forall a k, T1 a k = true -> T2 a k = true) -> agree_off T1 m m' -> agree_off T2 m m'.
Proof. intros HT H a k Hk E. apply H; [done|]. destruct (T1 a k) eqn:E1; [apply HT in E1; congruence|done]. Qed.

#[export] Instance blind_id : Blind (fun m => m) rempty.
Proof. split; [by intros m a k|done]. Qed.

#[export] Instance blind_compose f g T1 T2 :
  Blind f T1 -> Blind g T2 -> Blind (fun m => g (f m)) (runion T1 T2).
Proof.
  intros [Hf1 Hd1] [Hf2 Hd2]. split.
  - intros m a k Hk E. unfold runion in E. apply orb_false_iff in E as [E1 E2].
    rewrite (Hf1 m a k), (Hf2 (f m) a k) by done. done.
  - intros m m' a k Hk E. destruct (T2 a k) eqn:E2; [by apply Hd2|].
    unfold runion in E. rewrite E2, orb_false_r in E.
    rewrite <- (Hf2 (f m) a k), <- (Hf2 (f m') a k) by done. by apply Hd1.
Qed.

Lemma blind_bytes f a n :
  (forall m x, x < a \/ a + n <= x -> rd (f m) x = rd m x) ->
  (forall m m' x, a <= x < a + n -> rd (f m) x = rd (f m') x) -> Blind f (rng a n).
Proof.
  intros Hout Hin. split; intros m.
  - intros x k _ E. unfold rng, mbit in *. rewrite Hout; [done|]. zb; cbn [andb] in E; lia || done.
  - intros m' x k _ E. unfold rng, mbit in *. rewrite (Hin m m'); [done|].
    zb; cbn [andb] in E; lia || done.
Qed.

Lemma rd_store_in m m' a n v x :
  a <= x < a + Z.of_nat n -> rd (store m a n v) x = rd (store m' a n v) x.
Proof.
  revert m m' a v. induction n as [|n IH]; intros m m' a v Hx; [lia|]. cbn [store].
  destruct (Z.eq_dec x a) as [->|]; [|apply IH; lia].
  by rewrite !rd_store_out, !rd_wr_eq by lia.
Qed.

#[export] Instance blind_store a n v : Blind (fun m => store m a n v) (rng a (Z.of_nat n)).
Proof. apply blind_bytes; intros; [by apply rd_store_out|by apply rd_store_in]. Qed.

#[export] Instance blind_store64 a v : Blind (fun m => store64 m a v) (rng a 8).
Proof. apply (blind_store a 8). Qed.
#[export] Instance blind_store16 a v : Blind (fun m => store16 m a v) (rng a 2).
Proof. apply (blind_store a 2). Qed.

Lemma rd_write_bytes_out m a l x :
  x < a \/ a + Z.of_nat (length l) <= x -> rd (write_bytes m a l) x = rd m x.
Proof.
  revert m a. induction l as [|y l IH]; intros m a Hx; cbn [write_bytes]; [done|].
  cbn [length] in Hx. rewrite IH by lia. apply rd_wr_ne. lia.
Qed.

Lemma rd_write_bytes_in m m' a l x :
  a <= x < a + Z.of_nat (length l) -> rd (write_bytes m a l) x = rd (write_bytes m' a l) x.
Proof.
  revert m m' a. induction l as [|y l IH]; intros m m' a Hx; cbn [write_bytes length] in *; [lia|].
  destruct (Z.eq_dec x a) as [->|]; [|apply IH; lia].
  by rewrite !rd_write_bytes_out, !rd_wr_eq by lia.
Qed.

#[export] Instance blind_write_bytes a l :
  Blind (fun m => write_bytes m a l) (rng a (Z.of_nat (length l))).
Proof. apply blind_bytes; intros; [by apply rd_write_bytes_out|by apply rd_write_bytes_in]. Qed.

Lemma memset_write_bytes m a v n : memset m a v n = write_bytes m a (replicate n v).
Proof. revert m a. induction n as [|n IH]; intros m a; cbn; [done|apply IH]. Qed.

#[export] Instance blind_memset a v n : Blind (fun m => memset m a v n) (rng a (Z.of_nat n)).
Proof.
  apply blind_bytes; intros; rewrite !memset_write_bytes;
    [apply rd_write_bytes_out|apply rd_write_bytes_in]; by rewrite length_replicate.
Qed.

Lemma mbit_set m b p a k :
  0 <= k < 8 -> mbit (bitset_set m b p) a k = mbit m a k || one_bit b p a k.
Proof.
  intros Hk. unfold mbit, bitset_set, one_bit, CHAR_BIT. rewrite rd_wr.
  pose proof (Z.mod_pos_bound p 8 ltac:(lia)). rewrite (Z.eqb_sym a).
  destruct (Z.eqb_spec (b + p / 8) a) as [->|]; cbn [andb]; [|by rewrite orb_false_r].
  by rewrite u8_testbit, Z.lor_spec, index_mask_spec, (Z.eqb_sym k) by lia.
Qed.

Lemma mbit_clear m b p a k :
  0 <= k < 8 -> mbit (bitset_clear m b p) a k = mbit m a k && negb (one_bit b p a k).
Proof.
  intros Hk. unfold mbit, bitset_clear, one_bit, CHAR_BIT. rewrite rd_wr.
  pose proof (Z.mod_pos_bound p 8 ltac:(lia)). rewrite (Z.eqb_sym a).
  destruct (Z.eqb_spec (b + p / 8) a) as [->|]; cbn [andb negb]; [|by rewrite andb_true_r].
  by rewrite u8_testbit, Z.land_spec, not8_spec, index_mask_spec, (Z.eqb_sym k) by lia.
Qed.

#[export] Instance blind_bitset_set b p : Blind (fun m => bitset_set m b p) (one_bit b p).
Proof.
  split; intros m; [intros a k Hk E|intros m' a k Hk E]; rewrite !mbit_set by done; rewrite E;
    [by rewrite orb_false_r|by rewrite !orb_true_r].
Qed.

#[export] Instance blind_bitset_clear b p : Blind (fun m => bitset_clear m b p) (one_bit b p).
Proof.
  split; intros m; [intros a k Hk E|intros m' a k Hk E]; rewrite !mbit_clear by done; rewrite E;
    [by rewrite andb_true_r|by rewrite !andb_false_r].
Qed.

(** An update applied in a fold over a list of indices. *)
#[export] Instance blind_fold {A} (f : A -> bytes -> bytes) (T : A -> region) (l : list A) :
  (forall x, Blind (f x) (T x)) ->
  Blind (fun m => fold_left (fun m x => f x m) l m)
        (fun a k => existsb (fun x => T x a k) l).
Proof.
  intros HB. induction l as [|x l IH]; cbn [fold_left existsb]; [exact blind_id|].
  exact (blind_compose (f x) _ (T x) _ (HB x) IH).
Qed.
