(* ===== verification/BuddyTree.v ===== *)
(** The buddy allocation tree of src/src/buddy/include/buddy_alloc.h.

    A node at depth [d] of a tree of order [n] keeps its status in unary in a
    field of [n - d + 1] bits of the bitset; behind the bitset lies a table
    that memoises where each row of the tree begins.  This file has the whole
    data structure (layout, navigation, mark, release, search, resize) and the
    lemmas that turn its bit-level code into a map from node index to status. *)
From Stdlib Require Import ZArith Lia Bool.
From stdpp Require Import base list gmap numbers.
From S2P Require Import Prelude Bitset.
Local Open Scope Z_scope.

Record buddy_tree_pos := Pos { index : Z; depth : Z }.

Record buddy_tree_interval_t := Interval { iv_from : buddy_tree_pos; iv_to : buddy_tree_pos }.

Record buddy_tree_walk_state := WalkState {
  starting_pos : buddy_tree_pos;
  current_pos : buddy_tree_pos;
  going_up : Z;
  walk_done : Z }.

(** [data] is the flexible array member, byte-addressed from its start. *)
Record buddy_tree := BuddyTree {
  upper_pos_bound : Z;
  size_for_order_offset : Z;
  order : Z;
  data : bytes }.

Record internal_position := InternalPos { local_offset : Z; bitset_location : Z }.

Definition INVALID_POS : buddy_tree_pos := Pos 0 0.

(** [1u << k] *)
Definition shl1u (k : Z) : Z := u32 (Z.shiftl 1 k).

Definition set_data (t : buddy_tree) (d : bytes) : buddy_tree :=
  BuddyTree (upper_pos_bound t) (size_for_order_offset t) (order t) d.

Definition sizeof_size_t : Z := 8.
Definition sizeof_struct_buddy_tree : Z := 24.

(** ** Layout *)

(** [while (order != to)]: [order] is a [uint8_t] that is decremented, so it
    meets [to] within 255 iterations. *)
Fixpoint size_for_order_loop (fuel : nat) (order to result multi : Z) : Z :=
  match fuel with
  | O => result
  | S k =>
      if order =? to then result
      else size_for_order_loop k (u8 (order - 1)) to (u64 (result + order * multi)) (u64 (multi * 2))
  end.

Definition size_for_order (order to : Z) : Z := size_for_order_loop 256 order to 0 1.

Definition buddy_tree_depth (pos : buddy_tree_pos) : Z := depth pos.

Definition buddy_tree_index_internal (pos : buddy_tree_pos) : Z :=
  let mask := shl1u (depth pos - 1) in
  Z.land (index pos) (u64 (Z.lnot mask)).

Definition buddy_tree_index (pos : buddy_tree_pos) : Z := buddy_tree_index_internal pos.

Definition buddy_tree_internal_position_order (tree_order : Z) (pos : buddy_tree_pos)
  : internal_position :=
  let lo := u64 (tree_order - buddy_tree_depth pos + 1) in
  let total_offset := size_for_order (u8 tree_order) (u8 lo) in
  let local_index := buddy_tree_index_internal pos in
  InternalPos lo (u64 (total_offset + lo * local_index)).

Definition buddy_tree_size_for_order (t : buddy_tree) (to : Z) : Z :=
  load64 (data t) (sizeof_size_t * (size_for_order_offset t + to)).

Definition buddy_tree_internal_position_tree (t : buddy_tree) (pos : buddy_tree_pos)
  : internal_position :=
  let lo := u64 (order t - buddy_tree_depth pos + 1) in
  let total_offset := buddy_tree_size_for_order t (u8 lo) in
  let local_index := buddy_tree_index_internal pos in
  InternalPos lo (u64 (total_offset + lo * local_index)).

(** The size of the bitset as both [buddy_tree_sizeof] and
    [buddy_tree_populate_size_for_order] compute it. *)
Definition padded_bitset_size (order : Z) : Z :=
  let bitset_size := bitset_sizeof (size_for_order order 0) in
  if truthy (bitset_size mod sizeof_size_t)
  then u64 (bitset_size + bitset_size mod sizeof_size_t)
  else bitset_size.

Definition buddy_tree_sizeof (order : Z) : Z :=
  let tree_size := sizeof_struct_buddy_tree in
  let bitset_size := padded_bitset_size order in
  let size_for_order_size := (order + 2) * sizeof_size_t in
  u64 (tree_size + bitset_size + size_for_order_size).

(** [for (i = 0; i <= t->order; i++)]; [fuel] is the number of iterations left. *)
Fixpoint populate_loop (fuel : nat) (d : bytes) (off order i : Z) : bytes :=
  match fuel with
  | O => d
  | S k =>
      populate_loop k (store64 d (sizeof_size_t * (off + i)) (size_for_order order (u8 i)))
        off order (i + 1)
  end.

Definition buddy_tree_populate_size_for_order (t : buddy_tree) : buddy_tree :=
  let off := padded_bitset_size (order t) / sizeof_size_t + 1 in
  BuddyTree (upper_pos_bound t) off (order t)
    (populate_loop (Z.to_nat (order t + 1)) (data t) off (order t) 0).

(** [memset(at, 0, *size)] clears the header and the data; the data array of
    the result reads as zero before the table is filled in. *)
Definition buddy_tree_init (order : Z) : buddy_tree * Z :=
  let size := buddy_tree_sizeof order in
  let t := BuddyTree (shl1u order) 0 order ∅ in
  (buddy_tree_populate_size_for_order t, size).

(** ** Navigation *)

Definition buddy_tree_valid (t : buddy_tree) (pos : buddy_tree_pos) : bool :=
  truthy (index pos) && (index pos <? upper_pos_bound t).

Definition buddy_tree_order (t : buddy_tree) : Z := order t.

Definition buddy_tree_root : buddy_tree_pos := Pos 1 1.

Definition buddy_tree_leftmost_child_internal (tree_order : Z) : buddy_tree_pos :=
  Pos (shl1u (tree_order - 1)) tree_order.

Definition buddy_tree_leftmost_child (t : buddy_tree) : buddy_tree_pos :=
  buddy_tree_leftmost_child_internal (order t).

Definition buddy_tree_left_child (pos : buddy_tree_pos) : buddy_tree_pos :=
  Pos (u64 (index pos * 2)) (u64 (depth pos + 1)).

Definition buddy_tree_right_child (pos : buddy_tree_pos) : buddy_tree_pos :=
  Pos (u64 (index pos * 2 + 1)) (u64 (depth pos + 1)).

Definition buddy_tree_sibling (pos : buddy_tree_pos) : buddy_tree_pos :=
  Pos (Z.lxor (index pos) 1) (depth pos).

Definition buddy_tree_parent (pos : buddy_tree_pos) : buddy_tree_pos :=
  Pos (index pos / 2) (u64 (depth pos - 1)).

Definition buddy_tree_right_adjacent (pos : buddy_tree_pos) : buddy_tree_pos :=
  if Z.lxor (u64 (index pos + 1)) (index pos) >? index pos then INVALID_POS
  else Pos (u64 (index pos + 1)) (depth pos).

(** ** Status fields *)

(** The second component is the range handed to [shmem_flush_cpu_cache]. *)
Definition write_to_internal_position (bitset : bytes) (pos : internal_position) (value : Z)
  : bytes * (Z * Z) :=
  let '(m, clear_rng) :=
    bitset_clear_range bitset 0 (bitset_location pos)
      (u64 (bitset_location pos + local_offset pos - 1)) in
  let '(m, to_) :=
    if truthy value then
      let '(m, set_rng) :=
        bitset_set_range m 0 (bitset_location pos) (u64 (bitset_location pos + value - 1)) in
      (m, if to clear_rng <? to set_rng then to set_rng else to clear_rng)
    else (m, to clear_rng) in
  (m, (from clear_rng, u64 (to_ - from clear_rng + 1))).

Definition read_from_internal_position (bitset : bytes) (pos : internal_position) : Z :=
  if negb (truthy (bitset_test bitset 0 (bitset_location pos))) then 0
  else bitset_count_range bitset 0 (bitset_location pos)
         (u64 (bitset_location pos + local_offset pos - 1)).

Definition compare_with_internal_position (bitset : bytes) (pos : internal_position) (value : Z)
  : Z :=
  bitset_test bitset 0 (u64 (bitset_location pos + value - 1)).

Definition buddy_tree_status (t : buddy_tree) (pos : buddy_tree_pos) : Z :=
  read_from_internal_position (data t) (buddy_tree_internal_position_tree t pos).

Definition write_status (t : buddy_tree) (pos : internal_position) (value : Z) : buddy_tree :=
  set_data t (fst (write_to_internal_position (data t) pos value)).

(** [(size_current || size_sibling) * (min(size_current, size_sibling) + 1)] *)
Definition target_of (size_current size_sibling : Z) : Z :=
  u64 ((if truthy size_current || truthy size_sibling then 1 else 0)
       * ((if size_current <=? size_sibling then size_current else size_sibling) + 1)).

(** [while (pos.index != 1)]: the index halves at every iteration, so 64
    iterations reach the root from any 64-bit index. *)
Fixpoint update_parent_chain_loop (fuel : nat) (t : buddy_tree) (pos : buddy_tree_pos)
  (pos_internal : internal_position) (size_current : Z) : buddy_tree :=
  match fuel with
  | O => t
  | S k =>
      if index pos =? 1 then t
      else
        let sibling_internal := InternalPos (local_offset pos_internal)
          (u64 (bitset_location pos_internal + local_offset pos_internal
                - 2 * local_offset pos_internal * Z.land (index pos) 1)) in
        let size_sibling := read_from_internal_position (data t) sibling_internal in
        let pos := buddy_tree_parent pos in
        let pos_internal := buddy_tree_internal_position_tree t pos in
        let size_parent := read_from_internal_position (data t) pos_internal in
        let target_parent := target_of size_current size_sibling in
        if target_parent =? size_parent then t
        else update_parent_chain_loop k (write_status t pos_internal target_parent)
               pos pos_internal target_parent
  end.

Definition update_parent_chain (t : buddy_tree) (pos : buddy_tree_pos)
  (pos_internal : internal_position) (size_current : Z) : buddy_tree :=
  update_parent_chain_loop 64 t pos pos_internal size_current.

Definition buddy_tree_mark (t : buddy_tree) (pos : buddy_tree_pos) : buddy_tree :=
  let internal := buddy_tree_internal_position_tree t pos in
  let t := write_status t internal (local_offset internal) in
  update_parent_chain t pos internal (local_offset internal).

Definition buddy_tree_release (t : buddy_tree) (pos : buddy_tree_pos) : buddy_tree :=
  let internal := buddy_tree_internal_position_tree t pos in
  if negb (read_from_internal_position (data t) internal =? local_offset internal) then t
  else
    let t := write_status t internal 0 in
    update_parent_chain t pos internal 0.

(** One iteration of the search: the child of [current_pos] to descend into. *)
Definition find_free_step (t : buddy_tree) (current_pos : buddy_tree_pos) (target_status : Z)
  : buddy_tree_pos :=
  let left_pos := buddy_tree_left_child current_pos in
  let right_pos := buddy_tree_sibling left_pos in
  let left_internal := buddy_tree_internal_position_tree t left_pos in
  let right_internal := InternalPos (local_offset left_internal)
    (u64 (bitset_location left_internal + local_offset left_internal)) in
  if truthy (compare_with_internal_position (data t) left_internal (target_status + 1))
  then right_pos
  else if truthy (compare_with_internal_position (data t) right_internal (target_status + 1))
  then left_pos
  else
    let right_status := read_from_internal_position (data t)
      (InternalPos target_status (bitset_location right_internal)) in
    if truthy right_status then
      if truthy (compare_with_internal_position (data t) left_internal right_status)
      then left_pos else right_pos
    else left_pos.

(** [while (current_depth != target_depth)]: the target is a [uint8_t]. *)
Fixpoint find_free_loop (fuel : nat) (t : buddy_tree) (current_pos : buddy_tree_pos)
  (target_status current_depth target_depth : Z) : buddy_tree_pos :=
  match fuel with
  | O => current_pos
  | S k =>
      if current_depth =? target_depth then current_pos
      else
        let target_status := u8 (target_status - 1) in
        let current_depth := current_depth + 1 in
        find_free_loop k t (find_free_step t current_pos target_status)
          target_status current_depth target_depth
  end.

Definition buddy_tree_find_free (t : buddy_tree) (target_depth : Z) : buddy_tree_pos :=
  let current_pos := buddy_tree_root in
  let target_status := u8 (target_depth - 1) in
  let current_depth := buddy_tree_depth current_pos in
  if buddy_tree_status t current_pos >? target_status then INVALID_POS
  else find_free_loop 256 t current_pos target_status current_depth target_depth.

(** [while (buddy_tree_valid(t, pos))]: the index halves until it is 0. *)
Fixpoint is_free_loop (fuel : nat) (t : buddy_tree) (pos : buddy_tree_pos) : bool :=
  match fuel with
  | O => true
  | S k =>
      if buddy_tree_valid t pos then
        let internal := buddy_tree_internal_position_tree t pos in
        let value := read_from_internal_position (data t) internal in
        if truthy value then negb (value =? local_offset internal)
        else is_free_loop k t (buddy_tree_parent pos)
      else true
  end.

Definition buddy_tree_is_free (t : buddy_tree) (pos : buddy_tree_pos) : bool :=
  if truthy (buddy_tree_status t pos) then false
  else is_free_loop 64 t (buddy_tree_parent pos).

Definition buddy_tree_can_shrink (t : buddy_tree) : bool :=
  if negb (buddy_tree_status t (buddy_tree_right_child buddy_tree_root) =? 0) then false
  else
    let root_internal := buddy_tree_internal_position_tree t buddy_tree_root in
    let root_value := read_from_internal_position (data t) root_internal in
    if root_value =? local_offset root_internal then false else true.

(** ** Rows and fields *)

(** The closed form of [size_for_order]: the number of bits of the rows whose
    fields are wider than [k]. *)
Definition row_start (n k : Z) : Z := (k + 2) * 2 ^ (n - k) - (n + 2).

(** A node is named by its index alone: its depth is the bit length. *)
Definition pos_of (i : Z) : buddy_tree_pos := Pos i (Z.log2 i + 1).

(** Width and position of the status field of node [i] in a tree of order [n]. *)
Definition width (n i : Z) : Z := n - Z.log2 i.
Definition field (n i : Z) : Z := width n i * i + 2 ^ (Z.log2 i + 1) - n - 2.

Definition node (n i : Z) : Prop := 1 <= i < 2 ^ n.

Definition st (t : buddy_tree) (i : Z) : Z := buddy_tree_status t (pos_of i).

(** The header and the memo table are those of a tree of order [order t]. *)
Record tree_layout (t : buddy_tree) : Prop := {
  tl_order : 1 <= order t <= 31;
  tl_bound : upper_pos_bound t = 2 ^ order t;
  tl_offset : size_for_order_offset t = padded_bitset_size (order t) / 8 + 1;
  tl_table : forall k, 0 <= k <= order t ->
    buddy_tree_size_for_order t k = row_start (order t) k }.

(** Every field holds its status in unary. *)
Definition fields_unary (t : buddy_tree) : Prop :=
  forall i j, node (order t) i -> 0 <= j < width (order t) i ->
    bit (data t) 0 (field (order t) i + j) = (j <? st t i).

Record tree_wf (t : buddy_tree) : Prop := {
  wf_layout :> tree_layout t;
  wf_unary : fields_unary t }.

Lemma node_log2 n i : node n i -> 0 <= Z.log2 i < n /\ 2 ^ Z.log2 i <= i < 2 ^ (Z.log2 i + 1).
Proof.
  intros [H1 H2]. pose proof (Z.log2_spec i ltac:(lia)). pose proof (Z.log2_nonneg i).
  repeat split; try lia. apply Z.log2_lt_pow2; lia.
Qed.

Lemma pow2_pos k : 0 <= k -> 1 <= 2 ^ k.
Proof. intros. pose proof (Z.pow_pos_nonneg 2 k ltac:(lia) ltac:(lia)). lia. Qed.

Lemma pow2_succ k : 0 <= k -> 2 ^ (k + 1) = 2 * 2 ^ k.
Proof. intros. rewrite Z.add_1_r. by apply Z.pow_succ_r. Qed.

Lemma pow2_ge_lin k : 0 <= k -> k + 2 <= 2 ^ (k + 1).
Proof.
  intros. revert k H. apply natlike_ind; [simpl; lia|].
  intros x Hx IH. unfold Z.succ. rewrite (pow2_succ (x + 1)) by lia. lia.
Qed.

Lemma pow2_mono a b : 0 <= a <= b -> 2 ^ a <= 2 ^ b.
Proof. intros. apply Z.pow_le_mono_r; lia. Qed.

Lemma row_start_step n k : 1 <= k <= n -> row_start n (k - 1) = row_start n k + k * 2 ^ (n - k).
Proof.
  intros. unfold row_start. replace (n - (k - 1)) with (n - k + 1) by lia.
  rewrite pow2_succ by lia. lia.
Qed.

Lemma row_start_range n k : 0 <= k <= n -> 0 <= row_start n k < 2 ^ (n + 1).
Proof.
  intros. unfold row_start. split.
  - pose proof (pow2_ge_lin (n - k - 1)). destruct (Z.eq_dec k n) as [->|].
    + rewrite Z.sub_diag. simpl. lia.
    + replace (n - k - 1 + 1) with (n - k) in * by lia. nia.
  - pose proof (pow2_ge_lin k ltac:(lia)).
    replace (n + 1) with ((k + 1) + (n - k)) by lia. rewrite Z.pow_add_r by lia.
    pose proof (pow2_pos (n - k) ltac:(lia)). nia.
Qed.

Lemma size_for_order_loop_spec fuel n k to :
  0 <= to <= k -> k <= n -> n <= 31 -> (Z.to_nat (k - to) < fuel)%nat ->
  size_for_order_loop fuel k to (row_start n k) (2 ^ (n - k)) = row_start n to.
Proof.
  revert k. induction fuel as [|fuel IH]; intros k Hto Hk Hn Hf; [lia|].
  cbn [size_for_order_loop]. destruct (Z.eqb_spec k to) as [->|Hne]; [done|].
  pose proof (row_start_range n (k - 1) ltac:(lia)) as Hr.
  pose proof (row_start_step n k ltac:(lia)) as Hs.
  pose proof (pow2_mono (n + 1) 32 ltac:(lia)). pose proof (pow2_mono (n - k + 1) 32 ltac:(lia)).
  pose proof (pow2_pos (n - k) ltac:(lia)).
  rewrite pow2_succ in * by lia.
  rewrite u8_small, <- Hs, (u64_small (row_start n (k - 1))), u64_small by lia.
  replace (2 ^ (n - k) * 2) with (2 ^ (n - (k - 1))).
  - apply IH; lia.
  - replace (n - (k - 1)) with (n - k + 1) by lia. rewrite pow2_succ by lia. lia.
Qed.

Lemma size_for_order_eq n to :
  0 <= to <= n -> n <= 31 -> size_for_order n to = row_start n to.
Proof.
  intros. unfold size_for_order.
  rewrite <- (size_for_order_loop_spec 256 n n to) by lia.
  assert (E1 : row_start n n = 0) by (unfold row_start; rewrite Z.sub_diag; lia).
  assert (E2 : 2 ^ (n - n) = 1) by (rewrite Z.sub_diag; lia).
  by rewrite E1, E2.
Qed.

Lemma width_pos n i : node n i -> 1 <= width n i <= n.
Proof. intros H. apply node_log2 in H. unfold width. lia. Qed.

(** Fields are laid out in index order without overlap. *)
Lemma row_start_mono n a b : 0 <= a <= b -> b <= n -> row_start n b <= row_start n a.
Proof.
  intros. remember (Z.to_nat (b - a)) as m eqn:Hm. revert a H Hm.
  induction m as [|m IH]; intros a Ha Hm; [replace b with a by lia; lia|].
  transitivity (row_start n (a + 1)); [apply IH; lia|].
  replace a with (a + 1 - 1) at 2 by lia. rewrite row_start_step by lia.
  pose proof (pow2_pos (n - (a + 1)) ltac:(lia)). nia.
Qed.

Lemma field_before n i j : node n i -> node n j -> i < j -> field n i + width n i <= field n j.
Proof.
  intros Hi Hj Hlt. apply node_log2 in Hi as [Hl1 Hi], Hj as [Hl2 Hj].
  assert (Z.log2 i <= Z.log2 j) by (apply Z.log2_le_mono; lia).
  unfold field, width. destruct (Z.eq_dec (Z.log2 i) (Z.log2 j)) as [E|].
  - rewrite E in *. nia.
  - pose proof (row_start_mono n (n - Z.log2 j) (n - (Z.log2 i + 1)) ltac:(lia) ltac:(lia)) as Hr.
    unfold row_start in Hr. rewrite !Z.sub_sub_distr, !Z.sub_diag, !Z.add_0_l in Hr.
    rewrite (pow2_succ (Z.log2 j)) by lia. nia.
Qed.

Lemma field_end n i : node n i -> 0 <= field n i /\ field n i + width n i <= row_start n 0.
Proof.
  intros Hi. apply node_log2 in Hi as [Hl Hi]. unfold field, width. split.
  - rewrite pow2_succ in * by lia.
    pose proof (row_start_range n (n - Z.log2 i) ltac:(lia)) as Hr. unfold row_start in Hr.
    rewrite Z.sub_sub_distr, Z.sub_diag, Z.add_0_l in Hr. nia.
  - pose proof (row_start_mono n 0 (n - (Z.log2 i + 1)) ltac:(lia) ltac:(lia)) as Hr.
    unfold row_start in *. rewrite Z.sub_sub_distr, Z.sub_diag, Z.add_0_l in Hr. nia.
Qed.

Lemma field_disjoint n i j a b :
  node n i -> node n j -> 0 <= a < width n i -> 0 <= b < width n j ->
  field n i + a = field n j + b -> i = j.
Proof.
  intros Hi Hj Ha Hb E. destruct (Z.lt_trichotomy i j) as [H|[H|H]]; [|done|].
  - pose proof (field_before n i j Hi Hj H). lia.
  - pose proof (field_before n j i Hj Hi H). lia.
Qed.

(** ** The code on node indices *)

Lemma shl1u_eq k : 0 <= k <= 31 -> shl1u k = 2 ^ k.
Proof.
  intros. unfold shl1u. rewrite Z.shiftl_1_l. apply u32_small.
  split; [apply Z.pow_nonneg; lia|apply Z.pow_lt_mono_r; lia].
Qed.

Lemma log2_half i : 2 <= i -> Z.log2 (i / 2) = Z.log2 i - 1.
Proof.
  intros. change (i / 2) with (i / 2 ^ 1). rewrite <- Z.shiftr_div_pow2, Z.log2_shiftr by lia.
  pose proof (Z.log2_le_mono 2 i ltac:(lia)). change (Z.log2 2) with 1 in *. lia.
Qed.

Lemma index_internal_eq n i :
  n <= 31 -> node n i -> buddy_tree_index_internal (pos_of i) = i - 2 ^ Z.log2 i.
Proof.
  intros Hn Hi. apply node_log2 in Hi as [Hl Hi]. unfold buddy_tree_index_internal, pos_of.
  cbn [index depth]. set (L := Z.log2 i) in *.
  rewrite shl1u_eq by lia. replace (L + 1 - 1) with L by lia.
  transitivity (i mod 2 ^ L).
  - apply Z.bits_inj'. intros k Hk. rewrite Z.land_spec. unfold u64.
    destruct (Z.lt_ge_cases k L) as [H|H].
    + rewrite !Z.mod_pow2_bits_low, Z.lnot_spec, Z.pow2_bits_false by lia. apply andb_true_r.
    + rewrite (Z.mod_pow2_bits_high i) by lia. destruct (Z.eq_dec k L) as [->|].
      * rewrite Z.mod_pow2_bits_low, Z.lnot_spec, Z.pow2_bits_true by lia. apply andb_false_r.
      * rewrite (Z.bits_above_log2 i) by (fold L; lia). done.
  - rewrite pow2_succ in Hi by lia. symmetry. apply (Z.mod_unique _ _ 1); lia.
Qed.

Lemma internal_position_eq t i :
  tree_layout t -> node (order t) i ->
  buddy_tree_internal_position_tree t (pos_of i)
  = InternalPos (width (order t) i) (field (order t) i).
Proof.
  intros Hl Hi. pose proof (tl_order _ Hl) as Ho.
  unfold buddy_tree_internal_position_tree. rewrite (index_internal_eq (order t)) by (done || lia).
  pose proof (width_pos _ _ Hi). pose proof (node_log2 _ _ Hi) as [Hlog Hi2].
  pose proof (field_end _ _ Hi). pose proof (row_start_range (order t) 0 ltac:(lia)).
  pose proof (pow2_mono (order t + 1) 32 ltac:(lia)).
  unfold buddy_tree_depth, pos_of; cbn [depth].
  replace (order t - (Z.log2 i + 1) + 1) with (width (order t) i) by (unfold width; lia).
  rewrite (u64_small (width _ _)), u8_small by lia.
  rewrite (tl_table _ Hl) by lia.
  replace (row_start (order t) (width (order t) i) + width (order t) i * (i - 2 ^ Z.log2 i))
    with (field (order t) i).
  - rewrite u64_small by lia. done.
  - unfold field, row_start, width. rewrite pow2_succ by lia.
    replace (order t - (order t - Z.log2 i)) with (Z.log2 i) by lia. lia.
Qed.

Lemma parent_eq i : 2 <= i < 2 ^ 63 -> buddy_tree_parent (pos_of i) = pos_of (i / 2).
Proof.
  intros. unfold buddy_tree_parent, pos_of. cbn [index depth].
  rewrite log2_half by lia. pose proof (Z.log2_le_mono 2 i ltac:(lia)).
  change (Z.log2 2) with 1 in *. pose proof (Z.log2_lt_pow2 i 63 ltac:(lia)).
  rewrite u64_small by lia. f_equal; lia.
Qed.

Lemma left_child_eq i : 1 <= i < 2 ^ 62 -> buddy_tree_left_child (pos_of i) = pos_of (2 * i).
Proof.
  intros. unfold buddy_tree_left_child, pos_of. cbn [index depth].
  rewrite Z.log2_double by lia. pose proof (Z.log2_lt_pow2 i 62 ltac:(lia)).
  pose proof (Z.log2_nonneg i).
  rewrite !u64_small by lia. f_equal; lia.
Qed.

Lemma right_child_eq i : 1 <= i < 2 ^ 62 -> buddy_tree_right_child (pos_of i) = pos_of (2 * i + 1).
Proof.
  intros. unfold buddy_tree_right_child, pos_of. cbn [index depth].
  rewrite Z.log2_succ_double by lia. pose proof (Z.log2_lt_pow2 i 62 ltac:(lia)).
  pose proof (Z.log2_nonneg i).
  rewrite !u64_small by lia. f_equal; lia.
Qed.

Lemma lxor_1_even x : Z.lxor (2 * x) 1 = 2 * x + 1.
Proof.
  rewrite <- Z.add_nocarry_lxor; [done|].
  apply Z.bits_inj'. intros k Hk. rewrite Z.land_spec, Z.bits_0.
  destruct (Z.eq_dec k 0) as [->|]; [by rewrite Z.testbit_even_0|].
  rewrite (Z.bits_above_log2 1) by (simpl; lia). apply andb_false_r.
Qed.

Lemma sibling_even_eq i :
  1 <= i -> buddy_tree_sibling (pos_of (2 * i)) = pos_of (2 * i + 1).
Proof.
  intros. unfold buddy_tree_sibling, pos_of. cbn [index depth].
  by rewrite lxor_1_even, Z.log2_double, Z.log2_succ_double by lia.
Qed.

(** ** Reading and writing one field *)

Lemma count_bits_unary m l n v :
  0 <= v <= Z.of_nat n ->
  (forall j, 0 <= j < Z.of_nat n -> bit m 0 (l + j) = (j <? v)) -> count_bits m 0 l n = v.
Proof.
  revert l v. induction n as [|n IH]; intros l v Hv Hb; [simpl; lia|]. cbn [count_bits].
  pose proof (Hb 0 ltac:(lia)) as H0. rewrite Z.add_0_r in H0. rewrite H0.
  destruct (Z.ltb_spec 0 v).
  - rewrite (IH (l + 1) (v - 1)); [simpl; lia|lia|]. intros j Hj.
    rewrite <- Z.add_assoc, Hb by lia. zb; lia.
  - rewrite (IH (l + 1) 0); [simpl; lia|lia|]. intros j Hj.
    rewrite <- Z.add_assoc, Hb by lia. zb; lia.
Qed.

Lemma read_unary m l w full v :
  0 <= l -> l + full < 2 ^ 62 -> 0 <= v <= w -> w <= full -> 1 <= full ->
  (forall j, 0 <= j < full -> bit m 0 (l + j) = (j <? v)) ->
  read_from_internal_position m (InternalPos w l) = v.
Proof.
  intros Hl Hb Hv Hw Hf H. unfold read_from_internal_position. cbn [bitset_location local_offset].
  rewrite truthy_bitset_test. pose proof (H 0 ltac:(lia)) as H0.
  rewrite Z.add_0_r in H0. rewrite H0. destruct (Z.ltb_spec 0 v); cbn [negb]; [|lia].
  rewrite u64_small, bitset_count_range_count by lia.
  apply count_bits_unary; [lia|]. intros. apply H. lia.
Qed.

Lemma read_range m l w :
  0 <= l -> 1 <= w -> l + w < 2 ^ 62 -> 0 <= read_from_internal_position m (InternalPos w l) <= w.
Proof.
  intros. unfold read_from_internal_position. cbn [bitset_location local_offset].
  destruct (negb _); [lia|]. rewrite u64_small, bitset_count_range_count by lia.
  pose proof (count_bits_range m 0 l (Z.to_nat (l + w - 1 - l + 1))). lia.
Qed.

Lemma bit_write m l w v k :
  0 <= l -> 1 <= w -> l + w < 2 ^ 62 -> 0 <= v <= w -> 0 <= k ->
  bit (fst (write_to_internal_position m (InternalPos w l) v)) 0 k
  = if (l <=? k) && (k <? l + w) then k <? l + v else bit m 0 k.
Proof.
  intros. unfold write_to_internal_position. cbn [bitset_location local_offset].
  rewrite (u64_small (l + w - 1)) by lia.
  destruct (bitset_clear_range m 0 l (l + w - 1)) as [m1 r1] eqn:E1.
  assert (Hm1 : forall k, 0 <= k -> bit m1 0 k = bit m 0 k && negb ((l <=? k) && (k <=? l + w - 1))).
  { intros. rewrite <- bit_bitset_clear_range by lia. by rewrite E1. }
  unfold truthy. destruct (Z.eqb_spec v 0); cbn [negb].
  - cbn [fst]. rewrite Hm1 by lia. bool_cases.
  - rewrite u64_small by lia.
    destruct (bitset_set_range m1 0 l (l + v - 1)) as [m2 r2] eqn:E2. cbn [fst].
    replace m2 with (fst (bitset_set_range m1 0 l (l + v - 1))) by (by rewrite E2).
    rewrite bit_bitset_set_range, Hm1 by lia. bool_cases.
Qed.

Lemma rd_write_out m l w v a :
  0 <= l -> 1 <= w -> l + w < 2 ^ 62 -> 0 <= v <= w -> (l + w - 1) / 8 < a ->
  rd (fst (write_to_internal_position m (InternalPos w l) v)) a = rd m a.
Proof.
  intros. unfold write_to_internal_position. cbn [bitset_location local_offset].
  rewrite (u64_small (l + w - 1)) by lia.
  destruct (bitset_clear_range m 0 l (l + w - 1)) as [m1 r1] eqn:E1.
  assert (Hm1 : rd m1 a = rd m a).
  { rewrite <- (rd_bitset_clear_range_out m 0 l (l + w - 1) a) by lia. by rewrite E1. }
  unfold truthy. destruct (Z.eqb_spec v 0); cbn [negb fst]; [done|].
  rewrite u64_small by lia.
  destruct (bitset_set_range m1 0 l (l + v - 1)) as [m2 r2] eqn:E2. cbn [fst].
  replace m2 with (fst (bitset_set_range m1 0 l (l + v - 1))) by (by rewrite E2).
  rewrite rd_bitset_set_range_out, Hm1; [done|lia|].
  right. pose proof (Z.div_le_mono (l + v - 1) (l + w - 1) 8 ltac:(lia) ltac:(lia)). lia.
Qed.

(** ** Status map of a well-formed tree *)

Lemma node_fits n i :
  1 <= n <= 31 -> node n i ->
  1 <= width n i /\ 0 <= field n i /\ field n i + width n i <= row_start n 0 /\ row_start n 0 < 2 ^ 32.
Proof.
  intros Hn Hi. pose proof (width_pos _ _ Hi). pose proof (field_end _ _ Hi).
  pose proof (row_start_range n 0 ltac:(lia)). pose proof (pow2_mono (n + 1) 32 ltac:(lia)). lia.
Qed.

Lemma st_range t i : tree_layout t -> node (order t) i -> 0 <= st t i <= width (order t) i.
Proof.
  intros Hl Hi. unfold st, buddy_tree_status. rewrite internal_position_eq by done.
  pose proof (node_fits _ _ (tl_order _ Hl) Hi). apply read_range; lia.
Qed.

(** The last byte of the bitset lies below the memo table. *)
Lemma padded_bitset_size_ge n :
  1 <= n <= 31 -> (row_start n 0 - 1) / 8 < padded_bitset_size n < 2 ^ 33.
Proof.
  intros. unfold padded_bitset_size, bitset_sizeof, CHAR_BIT, sizeof_size_t, truthy.
  rewrite size_for_order_eq by lia.
  pose proof (row_start_range n 0 ltac:(lia)). pose proof (pow2_mono (n + 1) 32 ltac:(lia)).
  rewrite (u64_small (row_start n 0 + 8 - 1)) by lia.
  set (r := row_start n 0) in *. clearbody r.
  assert ((r - 1) / 8 < (r + 8 - 1) / 8 /\ (r + 8 - 1) / 8 < 2 ^ 32)
    by (Z.div_mod_to_equations; lia).
  set (x := (r + 8 - 1) / 8) in *. clearbody x.
  assert (0 <= (r - 1) / 8 + 1) by (Z.div_mod_to_equations; lia).
  pose proof (Z.mod_pos_bound x 8 ltac:(lia)).
  destruct (Z.eqb_spec (x mod 8) 0); cbn [negb]; [lia|]. rewrite u64_small by lia. lia.
Qed.

Lemma table_beyond t k :
  tree_layout t -> 0 <= k -> (row_start (order t) 0 - 1) / 8 < sizeof_size_t * (size_for_order_offset t + k).
Proof.
  intros Hl Hk. rewrite (tl_offset _ Hl). unfold sizeof_size_t.
  pose proof (padded_bitset_size_ge _ (tl_order _ Hl)).
  pose proof (Z.div_mod (padded_bitset_size (order t)) 8 ltac:(lia)).
  pose proof (Z.mod_pos_bound (padded_bitset_size (order t)) 8 ltac:(lia)). lia.
Qed.

(** A tree whose data agrees on the table has the layout of the original. *)
Lemma layout_frame t d :
  tree_layout t ->
  (forall a, (row_start (order t) 0 - 1) / 8 < a -> rd d a = rd (data t) a) ->
  tree_layout (set_data t d).
Proof.
  intros Hl Hd. destruct Hl as [Ho Hb Hof Ht] eqn:E. split; cbn; try done.
  intros k Hk. rewrite <- Ht by lia. unfold buddy_tree_size_for_order. cbn.
  apply load64_ext. intros b Hb2. apply Hd.
  pose proof (table_beyond t k ltac:(assumption) ltac:(lia)). lia.
Qed.

Section Write.
Context (t : buddy_tree) (Hwf : tree_wf t) (i v : Z).
Context (Hi : node (order t) i) (Hv : 0 <= v <= width (order t) i).

Let t' := write_status t (InternalPos (width (order t) i) (field (order t) i)) v.

Lemma bit_write_status k :
  0 <= k ->
  bit (data t') 0 k =
  if (field (order t) i <=? k) && (k <? field (order t) i + width (order t) i)
  then k <? field (order t) i + v else bit (data t) 0 k.
Proof.
  intros. pose proof (node_fits _ _ (tl_order _ Hwf) Hi).
  apply bit_write; lia.
Qed.

Lemma write_layout : tree_layout t'.
Proof.
  pose proof (node_fits _ _ (tl_order _ Hwf) Hi).
  apply layout_frame; [apply Hwf|]. intros a Ha. apply rd_write_out; try lia.
  pose proof (Z.div_le_mono (field (order t) i + width (order t) i - 1) (row_start (order t) 0 - 1) 8).
  lia.
Qed.

(** What the bits of field [j] spell in the written tree. *)
Lemma write_field j k :
  node (order t) j -> 0 <= k < width (order t) j ->
  bit (data t') 0 (field (order t) j + k) = (k <? (if i =? j then v else st t j)).
Proof.
  intros Hj Hk. pose proof (node_fits _ _ (tl_order _ Hwf) Hj).
  rewrite bit_write_status by lia. destruct (Z.eqb_spec i j) as [<-|Hne].
  - bool_cases.
  - rewrite <- (wf_unary _ Hwf j k) by done.
    destruct (Z.leb_spec (field (order t) i) (field (order t) j + k)); cbn [andb]; [|done].
    destruct (Z.ltb_spec (field (order t) j + k) (field (order t) i + width (order t) i)); [|done].
    exfalso. apply Hne.
    apply (field_disjoint (order t) i j (field (order t) j + k - field (order t) i) k); try done; lia.
Qed.

Lemma st_write j : node (order t) j -> st t' j = if i =? j then v else st t j.
Proof.
  intros Hj. unfold st at 1, buddy_tree_status.
  rewrite internal_position_eq by (apply write_layout || exact Hj).
  change (order t') with (order t). pose proof (node_fits _ _ (tl_order _ Hwf) Hj).
  pose proof (st_range t j (wf_layout _ Hwf) Hj).
  apply (read_unary _ _ _ (width (order t) j)); try lia.
  - destruct (Z.eqb_spec i j); subst; lia.
  - intros k Hk. by apply write_field.
Qed.

Lemma write_wf : tree_wf t'.
Proof.
  split; [apply write_layout|]. intros j k Hj Hk. change (order t') with (order t) in *.
  rewrite st_write by done. by apply write_field.
Qed.

End Write.

(** ** Initialisation *)

Lemma populate_loop_out k d off n i a :
  0 <= i -> a < 8 * (off + i) -> rd (populate_loop k d off n i) a = rd d a.
Proof.
  revert d i. induction k as [|k IH]; intros d i Hi Ha; cbn [populate_loop]; [done|].
  rewrite IH by lia. apply rd_store64_out. unfold sizeof_size_t. lia.
Qed.

Lemma populate_loop_in k d off n i j :
  0 <= i -> i <= j < i + Z.of_nat k ->
  load64 (populate_loop k d off n i) (8 * (off + j)) = u64 (size_for_order n (u8 j)).
Proof.
  revert d i. induction k as [|k IH]; intros d i Hi Hj; cbn [populate_loop]; [lia|].
  destruct (Z.eq_dec i j) as [->|]; [|apply IH; lia].
  unfold sizeof_size_t. transitivity
    (load64 (store64 d (8 * (off + j)) (size_for_order n (u8 j))) (8 * (off + j))).
  - apply load64_ext. intros b Hb. apply populate_loop_out; lia.
  - apply load64_store64.
Qed.

Lemma populate_layout n d :
  1 <= n <= 31 ->
  tree_layout (buddy_tree_populate_size_for_order (BuddyTree (shl1u n) 0 n d)).
Proof.
  intros Hn. split; cbn; try done.
  - apply shl1u_eq. lia.
  - intros k Hk. unfold buddy_tree_size_for_order, sizeof_size_t. cbn.
    rewrite populate_loop_in by lia. rewrite u8_small, size_for_order_eq by lia.
    pose proof (row_start_range n k ltac:(lia)). pose proof (pow2_mono (n + 1) 32 ltac:(lia)).
    apply u64_small. lia.
Qed.

Lemma init_bit n k :
  1 <= n <= 31 -> 0 <= k < row_start n 0 -> bit (data (fst (buddy_tree_init n))) 0 k = false.
Proof.
  intros Hn Hk. unfold bit. cbn. pose proof (padded_bitset_size_ge n Hn) as Hp.
  pose proof (Z.div_mod (padded_bitset_size n) 8 ltac:(lia)).
  pose proof (Z.mod_pos_bound (padded_bitset_size n) 8 ltac:(lia)).
  pose proof (Z.div_le_mono k (row_start n 0 - 1) 8).
  rewrite populate_loop_out by (unfold sizeof_size_t; lia).
  unfold rd. rewrite lookup_empty. cbn. apply Z.testbit_0_l.
Qed.

Lemma init_st n i : 1 <= n <= 31 -> node n i -> st (fst (buddy_tree_init n)) i = 0.
Proof.
  intros Hn Hi. unfold st, buddy_tree_status.
  rewrite internal_position_eq by (apply populate_layout || exact Hi; done).
  change (order (fst (buddy_tree_init n))) with n.
  pose proof (node_fits _ _ Hn Hi).
  apply (read_unary _ _ _ (width n i)); try lia.
  intros j Hj. rewrite init_bit by lia. by destruct (Z.ltb_spec j 0); [lia|].
Qed.

Lemma init_wf n : 1 <= n <= 31 -> tree_wf (fst (buddy_tree_init n)).
Proof.
  intros Hn. split; [by apply populate_layout|]. intros i j Hi Hj.
  change (order (fst (buddy_tree_init n))) with n in *.
  pose proof (node_fits _ _ Hn Hi).
  rewrite init_st, init_bit by (done || lia). zb; [lia|done].
Qed.
