(* ===== verification/BuddyInv.v ===== *)
(** Correctness of the buddy tree: the status invariant, the set of allocated
    nodes, and what mark, release, find_free and is_free do to them.

    Statuses are read as a map from node index to number.  A node is
    [allocated] when it is full by itself (its children are empty), and [free]
    when it is empty and no ancestor is full.  The theorems show that the
    status fields always encode the set of allocated nodes, that this set is an
    antichain, and that the operations are set insertion, removal and search. *)
From Stdlib Require Import ZArith Lia Bool.
From stdpp Require Import base list gmap numbers.
From S2P Require Import Prelude Bitset BuddyTree.
Local Open Scope Z_scope.

(** The status a parent derives from its children. *)
Definition comb (l r : Z) : Z := if (l =? 0) && (r =? 0) then 0 else Z.min l r + 1.

Definition leaf (n i : Z) : Prop := 2 ^ (n - 1) <= i.

Definition exact (s : Z -> Z) (i : Z) : Prop := s i = comb (s (2 * i)) (s (2 * i + 1)).

Definition full_alone (n : Z) (s : Z -> Z) (i : Z) : Prop :=
  s i = width n i /\ (leaf n i \/ (s (2 * i) = 0 /\ s (2 * i + 1) = 0)).

(** A leaf is empty or full; an inner node is full alone or exact. *)
Definition node_ok (n : Z) (s : Z -> Z) (i : Z) : Prop :=
  if 2 ^ (n - 1) <=? i then s i = 0 \/ s i = 1
  else full_alone n s i \/ exact s i.

Definition tree_inv (t : buddy_tree) : Prop :=
  tree_wf t /\ forall i, node (order t) i -> node_ok (order t) (st t) i.

(** Proper ancestors. *)
Inductive anc : Z -> Z -> Prop :=
| anc_parent x : 2 <= x -> anc (x / 2) x
| anc_up a x : 2 <= x -> anc a (x / 2) -> anc a x.

Definition allocated (t : buddy_tree) (i : Z) : Prop :=
  node (order t) i /\ full_alone (order t) (st t) i.

Definition free (t : buddy_tree) (i : Z) : Prop :=
  node (order t) i /\ st t i = 0 /\ forall a, anc a i -> st t a <> width (order t) a.

(** The leaves below a node, as an interval of leaf indices. *)
Definition leaves_from (n i : Z) : Z := i * 2 ^ (n - 1 - Z.log2 i).
Definition leaves_to (n i : Z) : Z := (i + 1) * 2 ^ (n - 1 - Z.log2 i).

(** ** Ancestors *)

Lemma half_range x : 2 <= x -> 1 <= x / 2 < x /\ (x = 2 * (x / 2) \/ x = 2 * (x / 2) + 1).
Proof. intros. Z.div_mod_to_equations. lia. Qed.

Lemma anc_range a x : anc a x -> 1 <= a /\ 2 * a <= x.
Proof.
  induction 1 as [x Hx|a x Hx _ IH]; pose proof (half_range x Hx); lia.
Qed.

Lemma anc_node n a x : anc a x -> node n x -> node n a /\ ~ leaf n a.
Proof.
  intros Ha [H1 H2]. pose proof (anc_range a x Ha).
  assert (0 < n) by (destruct (Z.lt_ge_cases 0 n); [done|];
    assert (2 ^ n <= 1) by (destruct (Z.eq_dec n 0) as [->|]; [done|rewrite Z.pow_neg_r; lia]); lia).
  unfold node, leaf. replace n with (n - 1 + 1) in H2 by lia. rewrite pow2_succ in H2 by lia.
  replace n with (n - 1 + 1) at 1 by lia. rewrite pow2_succ by lia. lia.
Qed.

Lemma anc_1 a : ~ anc a 1.
Proof. intros H. apply anc_range in H. lia. Qed.

Lemma anc_half a x : anc a x -> a = x / 2 \/ anc a (x / 2).
Proof. inversion 1; auto. Qed.

Lemma anc_child_cases a x : anc a x -> x = 2 * a \/ x = 2 * a + 1 \/ anc (2 * a) x \/ anc (2 * a + 1) x.
Proof.
  induction 1 as [x Hx|a x Hx Ha IH]; [pose proof (half_range x Hx); lia|].
  destruct IH as [E|[E|[E|E]]].
  - right; right; left. rewrite <- E. by constructor.
  - right; right; right. rewrite <- E. by constructor.
  - right; right; left. by constructor.
  - right; right; right. by constructor.
Qed.

Lemma anc_trans a b c : anc a b -> anc b c -> anc a c.
Proof. intros Hab Hbc. induction Hbc as [x Hx|b x Hx _ IH]; apply anc_up; auto. Qed.

Lemma anc_shift x k : 1 <= k -> 1 <= x / 2 ^ k -> anc (x / 2 ^ k) x.
Proof.
  intros Hk. revert x. pattern k. apply Zlt_lower_bound_ind with (z := 1); [|done]. clear k Hk.
  intros k IH Hk x Hx.
  assert (2 <= x). { destruct (Z.lt_ge_cases x 2); [|lia].
    pose proof (pow2_mono 1 k ltac:(lia)). change (2 ^ 1) with 2 in *.
    destruct (Z.lt_ge_cases x 0).
    - pose proof (Z.div_lt_upper_bound x (2 ^ k) 0). lia.
    - rewrite Z.div_small in Hx by lia. lia. }
  destruct (Z.eq_dec k 1) as [->|]; [by constructor|].
  assert (E : x / 2 ^ k = (x / 2) / 2 ^ (k - 1)).
  { rewrite Z.div_div by (try apply Z.pow_nonzero; lia).
    replace (2 * 2 ^ (k - 1)) with (2 ^ k); [done|]. rewrite <- pow2_succ by lia. f_equal; lia. }
  rewrite E in *. apply anc_up; [done|]. apply IH; [lia|done].
Qed.

Lemma anc_iff a x :
  anc a x <-> 1 <= a /\ Z.log2 a < Z.log2 x /\ a = x / 2 ^ (Z.log2 x - Z.log2 a).
Proof.
  split.
  - intros Ha. split; [apply (anc_range a x Ha)|].
    induction Ha as [x Hx|a x Hx Ha [IH1 IH2]]; rewrite log2_half in * by done.
    + split; [lia|]. by replace (Z.log2 x - (Z.log2 x - 1)) with 1 by lia.
    + split; [lia|]. rewrite IH2 at 1.
      rewrite Z.div_div by (try apply Z.pow_nonzero; lia). f_equal.
      rewrite <- pow2_succ by lia. f_equal; lia.
  - intros (H1 & H2 & H3). rewrite H3. apply anc_shift; lia.
Qed.

#[export] Instance anc_dec a x : Decision (anc a x).
Proof.
  refine (cast_if (decide (1 <= a /\ Z.log2 a < Z.log2 x /\ a = x / 2 ^ (Z.log2 x - Z.log2 a))));
    rewrite anc_iff; done.
Defined.
#[export] Instance leaf_dec n i : Decision (leaf n i).
Proof. unfold leaf. apply _. Defined.

Lemma sibling_field n x :
  node n x -> 2 <= x ->
  let y := if Z.even x then x + 1 else x - 1 in
  node n y /\ width n y = width n x /\
  field n y = field n x + width n x - 2 * width n x * Z.land x 1.
Proof.
  intros Hx H2. cbn zeta. pose proof (half_range x H2) as [Hr Hc].
  pose proof (node_log2 _ _ Hx) as [Hl Hb].
  assert (Hp : 2 ^ n = 2 * 2 ^ (n - 1)) by (rewrite <- pow2_succ by lia; f_equal; lia).
  assert (Hm : Z.land x 1 = x mod 2) by (apply (Z.land_ones x 1); lia). rewrite Hm. clear Hm.
  destruct Hx as [Hx1 Hx2]. set (q := x / 2) in *. clearbody q. destruct Hc as [-> | ->].
  - rewrite Z.even_mul. cbn [Z.even orb]. rewrite Z.mul_comm, Z.mod_mul, Z.mul_comm by lia.
    unfold node, field, width. rewrite Z.log2_succ_double, Z.log2_double by lia. lia.
  - rewrite Z.even_add, Z.even_mul. cbn [Z.even orb Bool.eqb].
    replace (2 * q + 1 - 1) with (2 * q) by lia.
    replace ((2 * q + 1) mod 2) with 1 by (apply (Z.mod_unique _ _ q); lia).
    unfold node, field, width. rewrite Z.log2_succ_double, Z.log2_double by lia. lia.
Qed.

(** ** The parent chain *)

Abbreviation ip n i := (InternalPos (width n i) (field n i)).

Lemma read_ip t i :
  tree_layout t -> node (order t) i -> read_from_internal_position (data t) (ip (order t) i) = st t i.
Proof. intros. unfold st, buddy_tree_status. by rewrite internal_position_eq. Qed.

Lemma comb_range l r : 0 <= l -> 0 <= r -> 0 <= comb l r <= l + 1.
Proof. intros. unfold comb. zb; cbn [andb]; lia. Qed.

Lemma comb_comm l r : comb l r = comb r l.
Proof. unfold comb. zb; cbn [andb]; lia. Qed.

Lemma target_of_comb l r : 0 <= l < 2 ^ 32 -> 0 <= r < 2 ^ 32 -> target_of l r = comb l r.
Proof.
  intros. unfold target_of, comb, truthy. zb; cbn [andb orb negb]; rewrite u64_small; lia.
Qed.

Lemma width_parent n x : node n x -> 2 <= x -> width n (x / 2) = width n x + 1.
Proof. intros. unfold width. rewrite log2_half by done. lia. Qed.

Lemma parent_node n x : node n x -> 2 <= x -> node n (x / 2).
Proof. intros Hn H. pose proof (half_range x H). unfold node in *. lia. Qed.

(** The children of the parent of [x] are [x] and its sibling. *)
Lemma comb_children (s : Z -> Z) x :
  2 <= x ->
  comb (s (2 * (x / 2))) (s (2 * (x / 2) + 1))
  = comb (s x) (s (if Z.even x then x + 1 else x - 1)).
Proof.
  intros H. pose proof (half_range x H) as [Hr Hc]. set (q := x / 2) in *. clearbody q.
  destruct Hc as [-> | ->].
  - by rewrite Z.even_mul.
  - rewrite Z.even_add, Z.even_mul. cbn [Z.even orb Bool.eqb].
    replace (2 * q + 1 - 1) with (2 * q) by lia. apply comb_comm.
Qed.

(** One iteration of the loop, on node indices. *)
Lemma update_step k t x :
  tree_wf t -> node (order t) x -> 2 <= x ->
  update_parent_chain_loop (S k) t (pos_of x) (ip (order t) x) (st t x) =
  let p := x / 2 in
  let target := comb (st t (2 * p)) (st t (2 * p + 1)) in
  if target =? st t p then t
  else update_parent_chain_loop k (write_status t (ip (order t) p) target)
         (pos_of p) (ip (order t) p) target.
Proof.
  intros Hwf Hx H2. cbn [update_parent_chain_loop local_offset bitset_location].
  change (index (pos_of x)) with x. destruct (Z.eqb_spec x 1); [lia|].
  destruct (sibling_field _ _ Hx H2) as (Hy & Hw & Hf). cbn zeta in *.
  pose proof (parent_node _ _ Hx H2) as Hp.
  pose proof (tl_order _ Hwf) as Ho.
  assert (order t <= 63) by lia.
  rewrite parent_eq by (unfold node in Hx; pose proof (pow2_mono (order t) 63 ltac:(lia)); lia).
  rewrite internal_position_eq by (apply Hwf || done).
  pose proof (node_fits _ _ Ho Hy).
  rewrite <- Hf, u64_small, <- Hw, read_ip, read_ip by (apply Hwf || done || lia).
  pose proof (st_range t x (wf_layout _ Hwf) Hx). pose proof (width_pos _ _ Hx).
  pose proof (st_range t _ (wf_layout _ Hwf) Hy).
  rewrite target_of_comb, <- comb_children by lia. done.
Qed.

Definition chain_post (t t' : buddy_tree) (x : Z) : Prop :=
  tree_wf t' /\ order t' = order t /\
  (forall j, node (order t) j -> ~ anc j x -> st t' j = st t j) /\
  ((forall a, anc a x -> a <> x / 2 -> exact (st t) a) -> forall a, anc a x -> exact (st t') a).

Lemma inner_children n a :
  1 <= n -> node n a -> ~ leaf n a -> node n (2 * a) /\ node n (2 * a + 1).
Proof.
  unfold node, leaf. intros Hn Ha Hl. replace n with (n - 1 + 1) by lia.
  rewrite pow2_succ by lia. lia.
Qed.

Lemma anc_children n a x :
  1 <= n -> node n x -> anc a x -> node n (2 * a) /\ node n (2 * a + 1).
Proof. intros Hn Hx Ha. apply inner_children; [done|apply (anc_node n a x Ha Hx)..]. Qed.

Lemma comb_fits t x :
  tree_wf t -> node (order t) x -> 2 <= x ->
  0 <= comb (st t (2 * (x / 2))) (st t (2 * (x / 2) + 1)) <= width (order t) (x / 2).
Proof.
  intros Hwf Hx H2. destruct (sibling_field _ _ Hx H2) as (Hy & _). cbn zeta in Hy.
  pose proof (st_range t x (wf_layout _ Hwf) Hx).
  pose proof (st_range t _ (wf_layout _ Hwf) Hy).
  rewrite (width_parent _ _ Hx H2), (comb_children (st t) x) by done.
  pose proof (comb_range (st t x) (st t (if Z.even x then x + 1 else x - 1))). lia.
Qed.

(** Writing a node keeps the exactness of every ancestor but its parent. *)
Lemma exact_write t p v b :
  tree_wf t -> node (order t) p -> 0 <= v <= width (order t) p ->
  anc b p -> b <> p / 2 -> exact (st t) b -> exact (st (write_status t (ip (order t) p) v)) b.
Proof.
  intros Hwf Hp Hv Hb Hne Hex. pose proof (tl_order _ Hwf).
  destruct (anc_children (order t) b p) as [Hl Hr]; [lia|done..|].
  destruct (anc_node (order t) b p Hb Hp) as [Hbn _]. apply anc_range in Hb.
  unfold exact. rewrite !(st_write t Hwf p v Hp Hv) by done.
  destruct (Z.eqb_spec p b); [lia|].
  destruct (Z.eqb_spec p (2 * b)) as [E|]; [exfalso; Z.div_mod_to_equations; lia|].
  destruct (Z.eqb_spec p (2 * b + 1)) as [E|]; [exfalso; Z.div_mod_to_equations; lia|].
  done.
Qed.

Lemma chain_post_step t x v t2 :
  tree_wf t -> node (order t) x -> 2 <= x -> 0 <= v <= width (order t) (x / 2) ->
  v = comb (st t (2 * (x / 2))) (st t (2 * (x / 2) + 1)) ->
  chain_post (write_status t (ip (order t) (x / 2)) v) t2 (x / 2) -> chain_post t t2 x.
Proof.
  intros Hwf Hx H2 Hv Ev (Hwf2 & Ho2 & Hfr2 & Hex2).
  pose proof (half_range x H2) as [Hr Hc]. pose proof (parent_node _ _ Hx H2) as Hp.
  pose proof (tl_order _ Hwf). pose proof (anc_parent x H2) as Hap.
  destruct (anc_children (order t) _ x ltac:(lia) Hx Hap) as [Hn1 Hn2].
  change (order (write_status _ _ _)) with (order t) in *.
  assert (Hfr : forall j, node (order t) j -> ~ anc j (x / 2) -> j <> x / 2 -> st t2 j = st t j).
  { intros j Hj Hna Hjp. rewrite Hfr2, st_write by done. by destruct (Z.eqb_spec (x / 2) j); [lia|]. }
  assert (Hdown : forall a, x / 2 <= a -> ~ anc a (x / 2)) by (intros a Ha Hq; apply anc_range in Hq; lia).
  split_and!; try done.
  - intros j Hj Hna. apply Hfr; [done| |].
    + intros Ha. apply Hna. by apply anc_up.
    + intros ->. by apply Hna.
  - intros Hex a Ha. destruct (anc_half _ _ Ha) as [->|Ha'].
    + unfold exact. rewrite Hfr2, st_write, Z.eqb_refl by (done || apply Hdown; lia).
      rewrite !Hfr by (done || lia || apply Hdown; lia). done.
    + apply Hex2; [|done]. intros b Hb Hne. apply exact_write; try done.
      apply Hex; [by apply anc_up|]. apply anc_range in Hb. lia.
Qed.

Lemma update_loop_post k t x :
  tree_wf t -> node (order t) x -> Z.log2 x < Z.of_nat k ->
  chain_post t (update_parent_chain_loop k t (pos_of x) (ip (order t) x) (st t x)) x.
Proof.
  revert t x. induction k as [|k IH]; intros t x Hwf Hx Hk;
    [pose proof (Z.log2_nonneg x); lia|].
  destruct (Z.eq_dec x 1) as [->|Hne].
  { split_and!; try done. intros _ a Ha. by apply anc_1 in Ha. }
  assert (H2 : 2 <= x) by (unfold node in Hx; lia).
  pose proof (parent_node _ _ Hx H2) as Hp. pose proof (log2_half x H2).
  rewrite update_step by done. cbn zeta.
  destruct (Z.eqb_spec (comb (st t (2 * (x / 2))) (st t (2 * (x / 2) + 1))) (st t (x / 2))) as [E|E].
  { split_and!; try done. intros Hex a Ha. destruct (anc_half _ _ Ha) as [->|Ha'].
    - by symmetry.
    - apply Hex; [done|]. apply anc_range in Ha'. lia. }
  pose proof (comb_fits t x Hwf Hx H2) as Ht.
  apply (chain_post_step t x _ _ Hwf Hx H2 Ht eq_refl).
  pose proof (st_write t Hwf _ _ Hp Ht _ Hp) as Hst. rewrite Z.eqb_refl in Hst.
  pose proof (IH _ (x / 2) (write_wf t Hwf _ _ Hp Ht) Hp ltac:(lia)) as HI.
  rewrite Hst in HI. exact HI.
Qed.

(** ** Mark and release *)

(** The common part: write one node, then update the chain above it. *)
Definition set_post (t t' : buddy_tree) (p v : Z) : Prop :=
  tree_wf t' /\ order t' = order t /\ st t' p = v /\
  (forall j, node (order t) j -> ~ anc j p -> j <> p -> st t' j = st t j) /\
  ((forall a, anc a p -> exact (st t) a) -> forall a, anc a p -> exact (st t') a).

Lemma write_chain_post t p v :
  tree_wf t -> node (order t) p -> 0 <= v <= width (order t) p ->
  set_post t (update_parent_chain (write_status t (ip (order t) p) v) (pos_of p) (ip (order t) p) v) p v.
Proof.
  intros Hwf Hp Hv.
  pose proof (st_write t Hwf p v Hp Hv) as Hst.
  pose proof (Hst p Hp) as Hstp. rewrite Z.eqb_refl in Hstp.
  pose proof (tl_order _ Hwf). pose proof (node_log2 _ _ Hp) as [? _].
  destruct (update_loop_post 64 _ p (write_wf t Hwf p v Hp Hv) Hp ltac:(lia))
    as (Hwf2 & Ho2 & Hfr & Hex).
  rewrite Hstp in *. change (order (write_status _ _ _)) with (order t) in *.
  unfold update_parent_chain. set (t2 := update_parent_chain_loop _ _ _ _ _) in *. clearbody t2.
  split_and!; [done|done| | |].
  - rewrite <- Hstp. apply Hfr; [done|]. intros Ha. apply anc_range in Ha. unfold node in Hp. lia.
  - intros j Hj Hna Hne. transitivity (st (write_status t (ip (order t) p) v) j).
    + by apply Hfr.
    + rewrite Hst by done. by destruct (Z.eqb_spec p j); [lia|].
  - intros He a Ha. apply Hex; [|done]. intros b Hb Hne. apply exact_write; auto.
Qed.

Lemma mark_post t p :
  tree_wf t -> node (order t) p ->
  set_post t (buddy_tree_mark t (pos_of p)) p (width (order t) p).
Proof.
  intros Hwf Hp. unfold buddy_tree_mark.
  rewrite internal_position_eq by (apply Hwf || done). cbn [local_offset].
  pose proof (width_pos _ _ Hp). apply write_chain_post; [done..|lia].
Qed.

Lemma release_post t p :
  tree_wf t -> node (order t) p -> st t p = width (order t) p ->
  set_post t (buddy_tree_release t (pos_of p)) p 0.
Proof.
  intros Hwf Hp Hfull. unfold buddy_tree_release.
  rewrite internal_position_eq by (apply Hwf || done). cbn [local_offset].
  rewrite read_ip by (apply Hwf || done). rewrite Hfull, Z.eqb_refl. cbn [negb].
  pose proof (width_pos _ _ Hp). apply write_chain_post; [done..|lia].
Qed.

Lemma release_not_full t p :
  tree_wf t -> node (order t) p -> st t p <> width (order t) p -> buddy_tree_release t (pos_of p) = t.
Proof.
  intros Hwf Hp Hne. unfold buddy_tree_release.
  rewrite internal_position_eq by (apply Hwf || done). cbn [local_offset].
  rewrite read_ip by (apply Hwf || done). by destruct (Z.eqb_spec (st t p) (width (order t) p)).
Qed.

(** ** Consequences of the invariant *)

Lemma inv_order t : tree_inv t -> 1 <= order t <= 31.
Proof. intros [Hwf _]. apply (tl_order _ Hwf). Qed.

Lemma inv_st_range t i : tree_inv t -> node (order t) i -> 0 <= st t i <= width (order t) i.
Proof. intros [Hwf _]. apply st_range, Hwf. Qed.

Lemma inv_inner t i :
  tree_inv t -> node (order t) i -> ~ leaf (order t) i ->
  full_alone (order t) (st t) i \/ exact (st t) i.
Proof.
  intros [Hwf Hinv] Hi Hl. specialize (Hinv i Hi). unfold node_ok, leaf in *.
  by destruct (Z.leb_spec (2 ^ (order t - 1)) i).
Qed.

Lemma comb_0 l r : 0 <= l -> 0 <= r -> comb l r = 0 -> l = 0 /\ r = 0.
Proof. intros. unfold comb in *. zb; cbn [andb] in *; lia. Qed.

Lemma empty_children t i :
  tree_inv t -> node (order t) i -> ~ leaf (order t) i ->
  st t i = 0 \/ full_alone (order t) (st t) i -> st t (2 * i) = 0 /\ st t (2 * i + 1) = 0.
Proof.
  intros Hinv Hi Hl. pose proof (inv_order t Hinv).
  destruct (inner_children (order t) i ltac:(lia) Hi Hl) as [Hc1 Hc2].
  intros [H0|[_ [?|?]]]; [|done..]. destruct (inv_inner t i Hinv Hi Hl) as [[? [?|?]]|Hex]; [done..|].
  unfold exact in Hex. rewrite H0 in Hex. symmetry in Hex.
  apply comb_0 in Hex; [done|by apply inv_st_range..].
Qed.

(** An empty node, or one that is full alone, has only empty nodes below it. *)
Lemma empty_below t i j :
  tree_inv t -> st t i = 0 \/ full_alone (order t) (st t) i ->
  anc i j -> node (order t) j -> st t j = 0.
Proof.
  intros Hinv Hi Ha Hj.
  assert (H : st t (j / 2) = 0 \/ full_alone (order t) (st t) (j / 2)).
  { revert Hj. induction Ha as [x Hx|a x Hx Ha IH]; intros Hj; [done|left].
    pose proof (parent_node _ _ Hj Hx) as Hp. specialize (IH Hi Hp).
    pose proof (anc_range _ _ Ha) as Hr.
    destruct (anc_node _ _ _ (anc_parent (x / 2) ltac:(lia)) Hp) as [Hn Hl].
    pose proof (empty_children t _ Hinv Hn Hl IH) as [H1 H2].
    pose proof (half_range (x / 2) ltac:(lia)) as [_ Hc].
    destruct Hc as [E|E]; rewrite E; done. }
  assert (Hj2 : 2 <= j) by (apply anc_range in Ha; lia).
  destruct (anc_node _ _ _ (anc_parent j Hj2) Hj) as [Hn Hl].
  pose proof (empty_children t _ Hinv Hn Hl H) as [H1 H2].
  pose proof (half_range j Hj2) as [_ Hc]. destruct Hc as [E|E]; rewrite E; done.
Qed.

(** Every ancestor of a used node is exact, and so is every ancestor of a free one. *)
Lemma used_anc_exact t p a :
  tree_inv t -> node (order t) p -> st t p <> 0 -> anc a p -> exact (st t) a.
Proof.
  intros Hinv Hp Hne Ha. destruct (anc_node _ _ _ Ha Hp) as [Hn Hl].
  destruct (inv_inner t a Hinv Hn Hl) as [Hf|]; [|done].
  exfalso. apply Hne. by apply (empty_below t a p Hinv (or_intror Hf)).
Qed.

Lemma free_anc_exact t p a : tree_inv t -> free t p -> anc a p -> exact (st t) a.
Proof.
  intros Hinv (Hp & _ & Hf) Ha. destruct (anc_node _ _ _ Ha Hp) as [Hn Hl].
  destruct (inv_inner t a Hinv Hn Hl) as [[Hw _]|]; [|done]. by destruct (Hf a Ha).
Qed.

Lemma used_anc_used t p a :
  tree_inv t -> node (order t) p -> st t p <> 0 -> anc a p -> st t a <> 0.
Proof.
  intros Hinv Hp Hne Ha H0. apply Hne. by apply (empty_below t a p Hinv (or_introl H0)).
Qed.

Lemma leaf_width n i : node n i -> leaf n i -> width n i = 1.
Proof.
  intros Hi Hl. pose proof (node_log2 _ _ Hi) as [H1 H2]. unfold leaf, width in *.
  assert (n - 1 <= Z.log2 i); [|lia]. apply Z.log2_le_pow2; lia.
Qed.

(** A node off the path from [p] to the root keeps its status, and so do its children. *)
Lemma off_path n p i :
  1 <= n -> node n p -> node n i -> ~ anc i p -> i <> p ->
  ~ leaf n i -> node n (2 * i) /\ node n (2 * i + 1) /\
  (~ anc (2 * i) p /\ 2 * i <> p) /\ (~ anc (2 * i + 1) p /\ 2 * i + 1 <> p).
Proof.
  intros Hn Hp Hi Hna Hne Hl. destruct (inner_children n i Hn Hi Hl) as [H1 H2].
  assert (Hi1 : 1 <= i) by (unfold node in Hi; lia).
  assert (E0 : 2 * i / 2 = i) by (Z.div_mod_to_equations; lia).
  assert (E1 : (2 * i + 1) / 2 = i) by (Z.div_mod_to_equations; lia).
  assert (A0 : anc i (2 * i)) by (rewrite <- E0 at 1; apply anc_parent; lia).
  assert (A1 : anc i (2 * i + 1)) by (rewrite <- E1 at 1; apply anc_parent; lia).
  split_and!; try done; intros H; try (subst p; done); apply Hna.
  - by apply (anc_trans i (2 * i)).
  - by apply (anc_trans i (2 * i + 1)).
Qed.

Section SetPost.
Context (t t' : buddy_tree) (p v : Z).
Context (Hinv : tree_inv t) (Hp : node (order t) p).
Context (Hpost : set_post t t' p v) (Hexact : forall a, anc a p -> exact (st t) a).
Context (Hv : v = 0 \/ v = width (order t) p).
Context (Hempty : st t p = 0 \/ full_alone (order t) (st t) p).

Lemma set_off_path i :
  node (order t) i -> ~ anc i p -> i <> p ->
  st t' i = st t i /\
  (~ leaf (order t) i -> st t' (2 * i) = st t (2 * i) /\ st t' (2 * i + 1) = st t (2 * i + 1)).
Proof using Hinv Hp Hpost.
  intros Hi Hna Hne. destruct Hpost as (_ & _ & _ & Hfr & _). split; [by apply Hfr|].
  intros Hl. pose proof (inv_order t Hinv).
  destruct (off_path (order t) p i) as (? & ? & [] & []); [lia|done..|].
  split; by apply Hfr.
Qed.

(** The children of [p] are empty before and after. *)
Lemma set_children :
  ~ leaf (order t) p -> st t' (2 * p) = 0 /\ st t' (2 * p + 1) = 0.
Proof using Hinv Hp Hpost Hempty.
  intros Hl. pose proof (empty_children t p Hinv Hp Hl Hempty) as [H1 H2].
  pose proof (inv_order t Hinv).
  destruct (inner_children (order t) p ltac:(lia) Hp Hl) as [Hn1 Hn2].
  destruct Hpost as (_ & _ & _ & Hfr & _).
  assert (1 <= p) by (unfold node in Hp; lia).
  rewrite !Hfr; try done; try lia; intros Ha; apply anc_range in Ha; lia.
Qed.

Lemma set_inv : tree_inv t'.
Proof.
  pose proof Hpost as (Hwf & Ho & Hstp & Hfr & Hex).
  split; [done|]. rewrite Ho. intros i Hi.
  destruct (Z.eq_dec i p) as [->|Hne].
  - unfold node_ok. destruct (Z.leb_spec (2 ^ (order t - 1)) p) as [Hl|Hl].
    + rewrite (leaf_width _ _ Hp Hl) in Hv. rewrite Hstp. done.
    + assert (Hnl : ~ leaf (order t) p) by (unfold leaf; lia).
      pose proof (set_children Hnl) as [H1 H2]. unfold full_alone, exact.
      rewrite Hstp, H1, H2. destruct Hv as [->|Hv']; [by right|left; auto].
  - destruct (decide (anc i p)) as [Ha|Hna].
    + unfold node_ok. destruct (anc_node _ _ _ Ha Hp) as [_ Hl]. unfold leaf in Hl.
      destruct (Z.leb_spec (2 ^ (order t - 1)) i); [lia|]. right. by apply Hex.
    + destruct (set_off_path i Hi Hna Hne) as [H1 H2].
      pose proof (proj2 Hinv i Hi) as Hok. unfold node_ok, full_alone, exact, leaf in *.
      destruct (Z.leb_spec (2 ^ (order t - 1)) i); [by rewrite H1|].
      destruct H2 as [H2 H3]; [lia|]. by rewrite H1, H2, H3.
Qed.

Lemma set_allocated_off i :
  node (order t) i -> ~ anc i p -> i <> p -> allocated t' i <-> allocated t i.
Proof using Hinv Hp Hpost.
  clear Hv Hempty. intros Hi Hna Hne. pose proof Hpost as (_ & Ho & _).
  destruct (set_off_path i Hi Hna Hne) as [H1 H2].
  unfold allocated, full_alone. rewrite Ho, H1.
  destruct (decide (leaf (order t) i)) as [Hl|Hl]; [tauto|].
  destruct (H2 Hl) as [-> ->]. done.
Qed.

End SetPost.

Lemma free_not_allocated_anc t p a : free t p -> anc a p -> ~ allocated t a.
Proof. intros (_ & _ & Hf) Ha [_ [Hw _]]. by destruct (Hf a Ha). Qed.

Lemma allocated_st t i : allocated t i -> st t i <> 0.
Proof. intros [Hi [-> _]]. pose proof (width_pos _ _ Hi). lia. Qed.

(** Nothing allocated has an allocated ancestor. *)
Lemma allocated_antichain t i j :
  tree_inv t -> allocated t i -> node (order t) j -> st t j <> 0 -> ~ anc i j.
Proof.
  intros Hinv [Hi Hf] Hj Hne Ha. apply Hne.
  by apply (empty_below t i j Hinv (or_intror Hf)).
Qed.

Lemma mark_inv t p :
  tree_inv t -> free t p -> tree_inv (buddy_tree_mark t (pos_of p)).
Proof.
  intros Hinv Hf. pose proof Hf as (Hp & H0 & _).
  apply (set_inv t _ p (width (order t) p)); auto.
  - apply mark_post; [apply Hinv|done].
  - intros a. by apply free_anc_exact.
Qed.

Lemma mark_order t p :
  tree_wf t -> node (order t) p -> order (buddy_tree_mark t (pos_of p)) = order t.
Proof. intros Hwf Hp. by destruct (mark_post t p Hwf Hp) as (_ & ? & _). Qed.

Lemma mark_allocated t p i :
  tree_inv t -> free t p ->
  allocated (buddy_tree_mark t (pos_of p)) i <-> allocated t i \/ i = p.
Proof.
  intros Hinv Hf. pose proof Hf as (Hp & H0 & _).
  pose proof (mark_post t p (proj1 Hinv) Hp) as Hpost.
  pose proof (mark_inv t p Hinv Hf) as Hinv'.
  set (t' := buddy_tree_mark t (pos_of p)) in *. clearbody t'.
  pose proof Hpost as (Hwf & Ho & Hst & _). pose proof (width_pos _ _ Hp).
  destruct (Z.eq_dec i p) as [->|Hne].
  { split; [auto|]. intros _. split; [by rewrite Ho|]. split; [by rewrite Hst, Ho|].
    rewrite Ho. destruct (decide (leaf (order t) p)) as [?|Hl]; [by left|right].
    by apply (set_children t t' p (width (order t) p) Hinv Hp Hpost (or_introl H0)). }
  destruct (decide (node (order t) i)) as [Hi|Hi];
    [|unfold allocated; rewrite Ho; split; [|intros [|]]; tauto].
  destruct (decide (anc i p)) as [Ha|Hna].
  - split; [|intros [HA|]; [by apply (free_not_allocated_anc t p i) in HA|done]].
    intros HA. exfalso. apply (allocated_antichain t' i p Hinv' HA); rewrite ?Ho; try done. lia.
  - rewrite (set_allocated_off t t' p _ Hinv Hp Hpost i) by done. tauto.
Qed.

Lemma release_inv t p :
  tree_inv t -> allocated t p -> tree_inv (buddy_tree_release t (pos_of p)).
Proof.
  intros Hinv HA. pose proof HA as (Hp & Hf).
  apply (set_inv t _ p 0); auto.
  - apply release_post; [apply Hinv|done|apply Hf].
  - intros a. apply used_anc_exact; try done. by apply allocated_st.
Qed.

Lemma release_allocated t p i :
  tree_inv t -> allocated t p ->
  allocated (buddy_tree_release t (pos_of p)) i <-> allocated t i /\ i <> p.
Proof.
  intros Hinv HA. pose proof HA as (Hp & Hf).
  pose proof (release_post t p (proj1 Hinv) Hp (proj1 Hf)) as Hpost.
  pose proof (allocated_st t p HA) as Hne0.
  set (t' := buddy_tree_release t (pos_of p)) in *. clearbody t'.
  pose proof Hpost as (Hwf & Ho & Hst & _ & Hex). pose proof (width_pos _ _ Hp).
  destruct (Z.eq_dec i p) as [->|Hne].
  { split; [|tauto]. intros [_ [Hw _]]. rewrite Hst, Ho in Hw. lia. }
  destruct (decide (node (order t) i)) as [Hi|Hi];
    [|unfold allocated; rewrite Ho; tauto].
  destruct (decide (anc i p)) as [Ha|Hna].
  - split; [|intros [HAi _]; by apply (allocated_antichain t i p) in HAi].
    intros [_ [Hw Hc]]. rewrite Ho in *. exfalso.
    assert (He : exact (st t') i).
    { apply Hex; [|done]. intros a. by apply used_anc_exact. }
    destruct Hc as [Hl|[H1 H2]]; [by apply (anc_node _ _ _ Ha Hp)|].
    unfold exact in He. rewrite H1, H2, Hw in He. pose proof (width_pos _ _ Hi).
    unfold comb in He. cbn in He. lia.
  - rewrite (set_allocated_off t t' p _ Hinv Hp Hpost i) by done. tauto.
Qed.

(** ** Blocks of leaves *)

Lemma leaves_overlap n i j x :
  node n i -> node n j -> Z.log2 i <= Z.log2 j ->
  leaves_from n i <= x < leaves_to n i -> leaves_from n j <= x < leaves_to n j ->
  i = j \/ anc i j.
Proof.
  intros Hi Hj Hl Hx1 Hx2. apply node_log2 in Hi as [Hli Hi], Hj as [Hlj Hj].
  unfold leaves_from, leaves_to in *.
  pose proof (pow2_pos (n - 1 - Z.log2 j) ltac:(lia)). pose proof (pow2_pos (Z.log2 j - Z.log2 i) ltac:(lia)).
  assert (Ei : x / 2 ^ (n - 1 - Z.log2 i) = i)
    by (symmetry; apply Z.div_unique_pos with (r := x - i * 2 ^ (n - 1 - Z.log2 i)); lia).
  assert (Ej : x / 2 ^ (n - 1 - Z.log2 j) = j)
    by (symmetry; apply Z.div_unique_pos with (r := x - j * 2 ^ (n - 1 - Z.log2 j)); lia).
  assert (E : i = j / 2 ^ (Z.log2 j - Z.log2 i)).
  { rewrite <- Ej at 1. rewrite Z.div_div, <- Z.pow_add_r by lia.
    rewrite <- Ei at 1. do 2 f_equal. lia. }
  destruct (Z.eq_dec (Z.log2 i) (Z.log2 j)) as [Eq|].
  - left. rewrite E, Eq, Z.sub_diag. apply Z.div_1_r.
  - right. pose proof (pow2_pos (Z.log2 i) ltac:(lia)). rewrite E. apply anc_shift; lia.
Qed.

Lemma leaves_disjoint n i j x :
  node n i -> node n j -> i <> j -> ~ anc i j -> ~ anc j i ->
  ~ (leaves_from n i <= x < leaves_to n i /\ leaves_from n j <= x < leaves_to n j).
Proof.
  intros Hi Hj Hne H1 H2 [Hx1 Hx2]. destruct (Z.le_ge_cases (Z.log2 i) (Z.log2 j)) as [Hl|Hl].
  - by destruct (leaves_overlap n i j x Hi Hj Hl Hx1 Hx2).
  - by destruct (leaves_overlap n j i x Hj Hi Hl Hx2 Hx1).
Qed.

Lemma allocated_leaves_disjoint t i j x :
  tree_inv t -> allocated t i -> allocated t j -> i <> j ->
  ~ (leaves_from (order t) i <= x < leaves_to (order t) i /\
     leaves_from (order t) j <= x < leaves_to (order t) j).
Proof.
  intros Hinv Hi Hj Hne. apply leaves_disjoint; try done; try apply Hi; try apply Hj.
  - apply (allocated_antichain t); try done; [apply Hj|by apply allocated_st].
  - apply (allocated_antichain t); try done; [apply Hi|by apply allocated_st].
Qed.

Lemma free_leaves_disjoint t p i x :
  tree_inv t -> free t p -> allocated t i ->
  ~ (leaves_from (order t) p <= x < leaves_to (order t) p /\
     leaves_from (order t) i <= x < leaves_to (order t) i).
Proof.
  intros Hinv Hf Hi. pose proof Hf as (Hp & H0 & Hfa).
  pose proof (allocated_st t i Hi) as Hne.
  apply leaves_disjoint; try done; [apply Hi|by intros ->| |].
  - intros Ha. apply Hne. apply (empty_below t p i Hinv); [by left|done|apply Hi].
  - intros Ha. by apply (free_not_allocated_anc t p i) in Ha.
Qed.

(** ** Searching *)

Lemma compare_ip t i v :
  tree_wf t -> node (order t) i -> 1 <= v <= width (order t) i ->
  truthy (compare_with_internal_position (data t) (ip (order t) i) v) = (v <=? st t i).
Proof.
  intros Hwf Hi Hv. unfold compare_with_internal_position. cbn [bitset_location].
  pose proof (node_fits _ _ (tl_order _ Hwf) Hi).
  rewrite truthy_bitset_test, u64_small by lia.
  replace (field (order t) i + v - 1) with (field (order t) i + (v - 1)) by lia.
  rewrite (wf_unary _ Hwf) by (done || lia). zb; lia.
Qed.

Lemma right_field n i :
  1 <= i -> field n (2 * i + 1) = field n (2 * i) + width n (2 * i)
            /\ width n (2 * i + 1) = width n (2 * i) /\ width n (2 * i) = width n i - 1.
Proof.
  intros. unfold field, width. rewrite Z.log2_succ_double, Z.log2_double by lia. lia.
Qed.

Lemma node_small n i : n <= 31 -> node n i -> 1 <= i < 2 ^ 31.
Proof.
  intros Hn Hi. unfold node in Hi. destruct (Z.lt_ge_cases n 0).
  - rewrite Z.pow_neg_r in Hi; lia.
  - pose proof (pow2_mono n 31). lia.
Qed.

Lemma find_free_step_spec t i k :
  tree_inv t -> node (order t) i -> ~ leaf (order t) i ->
  0 <= k < width (order t) (2 * i) -> st t i <= k + 1 -> st t i <> width (order t) i ->
  exists c, find_free_step t (pos_of i) k = pos_of c /\ (c = 2 * i \/ c = 2 * i + 1) /\ st t c <= k.
Proof.
  intros Hinv Hi Hl Hk Hst Hnf. pose proof (inv_order t Hinv) as Ho.
  pose proof (node_small _ _ (proj2 Ho) Hi) as Hsm.
  destruct (inner_children _ i (proj1 Ho) Hi Hl) as [Hc1 Hc2].
  pose proof (inv_st_range t _ Hinv Hc1) as Hr1. pose proof (inv_st_range t _ Hinv Hc2) as Hr2.
  destruct (right_field (order t) i (proj1 Hsm)) as (Hf & Hw & _).
  pose proof Hinv as [Hwf _]. pose proof (node_fits _ _ Ho Hc2) as Hfit.
  assert (Hmin : Z.min (st t (2 * i)) (st t (2 * i + 1)) <= k).
  { destruct (inv_inner t i Hinv Hi Hl) as [[? _]|He]; [done|].
    unfold exact, comb in He. zb; cbn [andb] in He; lia. }
  unfold find_free_step. rewrite left_child_eq, sibling_even_eq by lia.
  rewrite internal_position_eq by (apply Hwf || done). cbn [local_offset bitset_location].
  rewrite <- Hf, u64_small, compare_ip by (done || lia).
  assert (Hrc : truthy (compare_with_internal_position (data t)
    (InternalPos (width (order t) (2 * i)) (field (order t) (2 * i + 1))) (k + 1))
    = (k + 1 <=? st t (2 * i + 1))) by (rewrite <- Hw; apply compare_ip; done || lia).
  rewrite Hrc. clear Hrc.
  destruct (Z.leb_spec (k + 1) (st t (2 * i))); [exists (2 * i + 1); split_and!; auto; lia|].
  destruct (Z.leb_spec (k + 1) (st t (2 * i + 1))); [exists (2 * i); split_and!; auto; lia|].
  destruct (truthy _); [destruct (truthy _)|]; eauto with lia.
Qed.

Lemma find_free_loop_spec fuel t i d :
  tree_inv t -> node (order t) i -> Z.log2 i + 1 <= d <= order t ->
  st t i <= d - (Z.log2 i + 1) -> d - Z.log2 i <= Z.of_nat fuel ->
  (forall a, anc a i -> st t a <> width (order t) a) ->
  exists c, find_free_loop fuel t (pos_of i) (d - (Z.log2 i + 1)) (Z.log2 i + 1) d = pos_of c /\
            free t c /\ Z.log2 c + 1 = d.
Proof.
  intros Hinv. pose proof (inv_order t Hinv) as Ho.
  revert i. induction fuel as [|fuel IH]; intros i Hi Hd Hst Hf Hanc; [lia|].
  cbn [find_free_loop]. destruct (Z.eqb_spec (Z.log2 i + 1) d) as [E|E].
  { exists i. pose proof (inv_st_range t i Hinv Hi).
    split_and!; [done| |done]. split_and!; [done|lia|done]. }
  assert (Hl : ~ leaf (order t) i).
  { intros Hl. pose proof (leaf_width _ _ Hi Hl) as Hw. unfold width in Hw. lia. }
  pose proof (node_log2 _ _ Hi) as [Hlog _]. pose proof (node_small _ _ (proj2 Ho) Hi) as Hsm.
  destruct (right_field (order t) i (proj1 Hsm)) as (_ & _ & Hw).
  rewrite u8_small by lia.
  destruct (find_free_step_spec t i (d - (Z.log2 i + 1) - 1)) as (c & -> & Hc & Hsc);
    try done; try (unfold width in *; lia).
  destruct (inner_children _ i (proj1 Ho) Hi Hl) as [Hc1 Hc2].
  assert (Hcl : Z.log2 c = Z.log2 i + 1 /\ c / 2 = i /\ node (order t) c).
  { destruct Hc as [-> | ->]; rewrite ?Z.log2_double, ?Z.log2_succ_double by lia;
      split_and!; try done; Z.div_mod_to_equations; lia. }
  destruct Hcl as (Hcl & Hch & Hcn).
  replace (d - (Z.log2 i + 1) - 1) with (d - (Z.log2 c + 1)) by lia.
  replace (Z.log2 i + 1 + 1) with (Z.log2 c + 1) by lia.
  apply IH; try done; try lia.
  intros a Ha. destruct (anc_half _ _ Ha) as [->|Ha']; rewrite Hch in *; [unfold width; lia|auto].
Qed.

(** The status of an ancestor of a free node is at most their distance. *)
Lemma free_bounds_anc t p a :
  tree_inv t -> free t p -> anc a p -> st t a <= Z.log2 p - Z.log2 a.
Proof.
  intros Hinv Hf Ha. pose proof Hf as (Hp & H0 & _). revert Hf.
  assert (Hstep : forall x, free t p -> x = p \/ anc x p -> 2 <= x -> st t x <= Z.log2 p - Z.log2 x ->
    st t (x / 2) <= Z.log2 p - Z.log2 (x / 2)).
  { intros x Hf Hx H2 Hs.
    assert (Hn : node (order t) x) by (destruct Hx as [->|Hx]; [done|by apply (anc_node _ _ _ Hx Hp)]).
    assert (Hax : anc (x / 2) p) by (destruct Hx as [->|Hx]; [by apply anc_parent|];
      apply (anc_trans _ x); [by apply anc_parent|done]).
    pose proof (free_anc_exact t p _ Hinv Hf Hax) as He. unfold exact in He.
    rewrite comb_children in He by done. rewrite log2_half by done.
    destruct (sibling_field _ _ Hn H2) as (Hy & _). cbn zeta in Hy.
    pose proof (inv_st_range t x Hinv Hn). pose proof (inv_st_range t _ Hinv Hy).
    pose proof (comb_range (st t x) (st t (if Z.even x then x + 1 else x - 1))). lia. }
  intros Hf.
  cut (forall x, anc a x -> x = p \/ anc x p -> st t x <= Z.log2 p - Z.log2 x ->
    st t a <= Z.log2 p - Z.log2 a).
  { intros Hc. apply (Hc p); auto. lia. }
  clear Ha. intros x Ha. induction Ha as [x Hx|a x Hx Ha IH]; intros Hxp Hs.
  - by apply Hstep.
  - apply IH; [|by apply Hstep]. right. destruct Hxp as [->|Hxp]; [by apply anc_parent|].
    apply (anc_trans _ x); [by apply anc_parent|done].
Qed.

Lemma anc_root p : 2 <= p -> anc 1 p.
Proof.
  intros. apply anc_iff. pose proof (Z.log2_le_mono 2 p ltac:(lia)). change (Z.log2 2) with 1 in *.
  change (Z.log2 1) with 0. rewrite Z.sub_0_r. split_and!; try lia.
  pose proof (Z.log2_spec p ltac:(lia)) as [H1 H2].
  rewrite <- Z.add_1_r, pow2_succ in H2 by lia.
  apply Z.div_unique_pos with (r := p - 2 ^ Z.log2 p); lia.
Qed.

Lemma find_free_spec t d :
  tree_inv t -> 1 <= d <= order t ->
  (exists p, buddy_tree_find_free t d = pos_of p /\ free t p /\ Z.log2 p + 1 = d) \/
  (buddy_tree_find_free t d = INVALID_POS /\ forall p, free t p -> Z.log2 p + 1 <> d).
Proof.
  intros Hinv Hd. pose proof (inv_order t Hinv) as Ho. unfold buddy_tree_find_free.
  change buddy_tree_root with (pos_of 1). fold (st t 1). rewrite u8_small by lia.
  assert (H1 : node (order t) 1) by (unfold node; pose proof (pow2_mono 1 (order t)); lia).
  rewrite Z.gtb_ltb. destruct (Z.ltb_spec (d - 1) (st t 1)) as [Hlt|Hge].
  - right. split; [done|]. intros p Hf E. pose proof Hf as (Hp & H0 & _).
    destruct (Z.eq_dec p 1) as [->|]; [change (Z.log2 1) with 0 in *; lia|].
    assert (2 <= p) by (unfold node in Hp; lia).
    pose proof (free_bounds_anc t p 1 Hinv Hf (anc_root p ltac:(lia))) as Hb.
    change (Z.log2 1) with 0 in Hb. lia.
  - left. apply (find_free_loop_spec 256 t 1 d); try done; change (Z.log2 1) with 0; try lia.
    intros a Ha. by apply anc_1 in Ha.
Qed.

(** ** Testing for freedom *)

Lemma comb_full l r w : 1 <= w -> 0 <= l <= w -> 0 <= r <= w -> comb l r = w + 1 -> l = w /\ r = w.
Proof. unfold comb. intros. zb; cbn [andb] in *; lia. Qed.

(** Below a full node that is not full alone everything in use is full. *)
Lemma full_parent_full t x :
  tree_inv t -> node (order t) x -> 2 <= x -> st t x <> 0 ->
  st t (x / 2) = width (order t) (x / 2) -> st t x = width (order t) x.
Proof.
  intros Hinv Hx H2 Hne Hw.
  pose proof (used_anc_exact t x _ Hinv Hx Hne (anc_parent x H2)) as He. unfold exact in He.
  rewrite comb_children, Hw, width_parent in He by done.
  destruct (sibling_field _ _ Hx H2) as (Hy & Hwy & _). cbn zeta in *.
  pose proof (inv_st_range t x Hinv Hx). pose proof (inv_st_range t _ Hinv Hy).
  pose proof (width_pos _ _ Hx). symmetry in He. apply comb_full in He; lia.
Qed.

Lemma full_anc_full t a x :
  tree_inv t -> anc a x -> node (order t) x -> st t x <> 0 ->
  st t a = width (order t) a -> st t x = width (order t) x.
Proof.
  intros Hinv Ha. induction Ha as [x Hx|a x Hx Ha IH]; intros Hn Hne Hw.
  - by apply full_parent_full.
  - apply full_parent_full; try done. apply IH; [by apply parent_node| |done].
    apply (used_anc_used t x); try done. by apply anc_parent.
Qed.

Lemma valid_pos_of t i :
  tree_layout t -> node (order t) i -> buddy_tree_valid t (pos_of i) = true.
Proof.
  intros Hl [H1 H2]. unfold buddy_tree_valid, truthy. cbn [index pos_of].
  rewrite (tl_bound _ Hl). zb; cbn; lia.
Qed.

Lemma is_free_loop_spec fuel t x :
  tree_inv t -> node (order t) x -> Z.log2 x < Z.of_nat fuel ->
  is_free_loop fuel t (pos_of x) = true <->
  (forall a, a = x \/ anc a x -> st t a <> width (order t) a).
Proof.
  intros Hinv. revert x. induction fuel as [|fuel IH]; intros x Hx Hf;
    [pose proof (Z.log2_nonneg x); lia|].
  pose proof (inv_order t Hinv) as Ho. pose proof (node_small _ _ (proj2 Ho) Hx) as Hsm.
  pose proof (width_pos _ _ Hx).
  cbn [is_free_loop]. pose proof Hinv as [Hwf _].
  rewrite valid_pos_of, internal_position_eq, read_ip by (apply Hwf || done).
  cbn [local_offset]. unfold truthy. destruct (Z.eqb_spec (st t x) 0) as [E|E]; cbn [negb].
  - destruct (Z.eq_dec x 1) as [->|Hne].
    + assert (Hp : buddy_tree_parent (pos_of 1) = Pos 0 0) by reflexivity. rewrite Hp.
      assert (Hloop : is_free_loop fuel t (Pos 0 0) = true) by (by destruct fuel).
      rewrite Hloop. split; [|done]. intros _ a [->|Ha]; [lia|by apply anc_1 in Ha].
    + assert (H2 : 2 <= x) by lia. rewrite parent_eq by lia.
      pose proof (log2_half x H2).
      rewrite IH by (by apply parent_node || lia). split; intros Hall a Ha.
      * destruct Ha as [->|Ha]; [lia|]. apply Hall. by apply anc_half.
      * apply Hall. right. destruct Ha as [->|Ha]; [by apply anc_parent|by apply anc_up].
  - destruct (Z.eqb_spec (st t x) (width (order t) x)) as [E2|E2]; cbn [negb].
    + split; [done|]. intros Hall. by destruct (Hall x (or_introl eq_refl)).
    + split; [|done]. intros _ a [->|Ha] Hw; [done|]. by apply E2, (full_anc_full t a x).
Qed.

Lemma is_free_spec t p :
  tree_inv t -> node (order t) p -> buddy_tree_is_free t (pos_of p) = true <-> free t p.
Proof.
  intros Hinv Hp. pose proof (inv_order t Hinv) as Ho. pose proof (node_small _ _ (proj2 Ho) Hp) as Hsm.
  unfold buddy_tree_is_free. fold (st t p). unfold truthy.
  destruct (Z.eqb_spec (st t p) 0) as [E|E]; cbn [negb]; [|split; [done|by intros (_ & ? & _)]].
  destruct (Z.eq_dec p 1) as [->|Hne].
  - split; [|done]. intros _. split_and!; try done. intros a Ha. by apply anc_1 in Ha.
  - assert (H2 : 2 <= p) by lia. rewrite parent_eq by lia.
    pose proof (parent_node _ _ Hp H2) as Hpp. pose proof (node_log2 _ _ Hpp).
    rewrite is_free_loop_spec by (done || lia). split.
    + intros Hall. split_and!; try done. intros a Ha. apply Hall. by apply anc_half.
    + intros (_ & _ & Hall) a Ha. apply Hall.
      destruct Ha as [->|Ha]; [by apply anc_parent|by apply anc_up].
Qed.

(** ** Replaying an operation *)

(** Two trees that agree off the path above [p], and are exact on it, agree. *)
Lemma exact_determines t t' p :
  tree_inv t -> order t' = order t -> node (order t) p -> st t' p = st t p ->
  (forall j, node (order t) j -> ~ anc j p -> st t' j = st t j) ->
  (forall a, anc a p -> exact (st t) a) -> (forall a, anc a p -> exact (st t') a) ->
  forall j, node (order t) j -> st t' j = st t j.
Proof.
  intros Hinv Ho Hp Hstp Hoff He He' j Hj.
  destruct (decide (anc j p)) as [Ha|Hna]; [|by apply Hoff].
  cut (forall x, anc j x -> x = p \/ anc x p -> st t' x = st t x -> st t' j = st t j).
  { intros Hc. apply (Hc p); auto. }
  clear Ha Hj. intros x Ha.
  assert (Hstep : forall x, 2 <= x -> x = p \/ anc x p -> st t' x = st t x ->
    anc (x / 2) p /\ st t' (x / 2) = st t (x / 2)).
  { clear x Ha. intros x Hx Hxp Hs.
    assert (Hap : anc (x / 2) p) by (destruct Hxp as [->|Hxp]; [by apply anc_parent|];
      apply (anc_trans _ x); [by apply anc_parent|done]).
    split; [done|]. rewrite (He _ Hap), (He' _ Hap), !comb_children by done. f_equal; [done|].
    assert (Hn : node (order t) x) by (destruct Hxp as [->|Hxp]; [done|by apply (anc_node _ _ _ Hxp Hp)]).
    destruct (sibling_field _ _ Hn Hx) as (Hy & _). cbn zeta in *. apply Hoff; [done|].
    intros Hya. set (y := if Z.even x then x + 1 else x - 1) in *.
    assert (Hlog : Z.log2 y = Z.log2 x).
    { destruct (sibling_field _ _ Hn Hx) as (_ & Hw & _). cbn zeta in Hw. fold y in Hw.
      unfold width in Hw. lia. }
    apply anc_iff in Hya as (_ & Hy2 & Hy3). rewrite Hlog in *.
    assert (Hx3 : x = p / 2 ^ (Z.log2 p - Z.log2 x)).
    { destruct Hxp as [->|Hxp]; [rewrite Z.sub_diag; symmetry; apply Z.div_1_r|].
      apply anc_iff in Hxp. tauto. }
    rewrite <- Hx3 in Hy3. unfold y in Hy3. destruct (Z.even x); lia. }
  induction Ha as [x Hx|a x Hx Ha IH]; intros Hxp Hs; destruct (Hstep x Hx Hxp Hs); auto.
Qed.

Lemma mark_release_st t p i :
  tree_inv t -> free t p -> node (order t) i ->
  st (buddy_tree_release (buddy_tree_mark t (pos_of p)) (pos_of p)) i = st t i.
Proof.
  intros Hinv Hf Hi. pose proof Hf as (Hp & H0 & _).
  pose proof (mark_post t p (proj1 Hinv) Hp) as (Hwf1 & Ho1 & Hst1 & Hfr1 & Hex1).
  assert (HA : allocated (buddy_tree_mark t (pos_of p)) p) by (apply mark_allocated; auto).
  set (t1 := buddy_tree_mark t (pos_of p)) in *. clearbody t1.
  destruct HA as [Hp1 [Hw1 _]].
  pose proof (release_post t1 p Hwf1 Hp1 Hw1) as (_ & Ho2 & Hst2 & Hfr2 & Hex2).
  set (t2 := buddy_tree_release t1 (pos_of p)) in *. clearbody t2. rewrite Ho1 in *.
  pose proof (fun a => free_anc_exact t p a Hinv Hf) as He.
  apply (exact_determines t t2 p); try done; try congruence.
  - intros j Hj Hna. destruct (Z.eq_dec j p) as [->|Hne]; [congruence|].
    by rewrite Hfr2, Hfr1.
  - intros a Ha. apply Hex2; [|done]. intros b Hb. by apply Hex1.
Qed.

Lemma init_order n : order (fst (buddy_tree_init n)) = n.
Proof. done. Qed.

Lemma root_node n : 1 <= n -> node n 1.
Proof. intros. unfold node. pose proof (pow2_mono 1 n). lia. Qed.

Lemma init_inv n : 1 <= n <= 31 -> tree_inv (fst (buddy_tree_init n)).
Proof.
  intros Hn. split; [by apply init_wf|]. rewrite init_order. intros i Hi. unfold node_ok.
  destruct (Z.leb_spec (2 ^ (n - 1)) i) as [|Hl]; [left; by apply init_st|right].
  destruct (inner_children n i) as [H1 H2]; [lia|done|unfold leaf; lia|].
  unfold exact. by rewrite !init_st.
Qed.

Lemma init_free n i : 1 <= n <= 31 -> node n i -> free (fst (buddy_tree_init n)) i.
Proof.
  intros Hn Hi. split_and!; [done|by apply init_st|]. rewrite init_order. intros a Ha.
  destruct (anc_node _ _ _ Ha Hi) as [Han _]. rewrite init_st by done.
  pose proof (width_pos _ _ Han). lia.
Qed.

Lemma init_not_allocated n i : 1 <= n <= 31 -> ~ allocated (fst (buddy_tree_init n)) i.
Proof.
  intros Hn HA. pose proof HA as [Hi _]. apply allocated_st in HA. apply HA. by apply init_st.
Qed.

(** A mark interrupted after [k] parent nodes have been written, as a crash
    in the middle of [update_parent_chain] leaves the shared tree. *)
Definition mark_interrupted (k : nat) (t : buddy_tree) (pos : buddy_tree_pos) : buddy_tree :=
  let internal := buddy_tree_internal_position_tree t pos in
  let t := write_status t internal (local_offset internal) in
  update_parent_chain_loop k t pos internal (local_offset internal).

(** ** Correctness of the tree *)

(** Marking a free node keeps the tree invariant (every status agrees with
    the statuses below it) and adds exactly that node to the set of allocated
    nodes, although the code stops climbing at the first ancestor whose status
    does not change. *)
Theorem buddy_tree_mark_correct (t : buddy_tree) (p : Z) :
  tree_inv t -> free t p ->
  let t' := buddy_tree_mark t (pos_of p) in
  tree_inv t' /\ order t' = order t /\ (forall i, allocated t' i <-> allocated t i \/ i = p).
Proof.
  intros Hinv Hf. split_and!; [by apply mark_inv|apply mark_order; [apply Hinv|apply Hf]|].
  intros i. by apply mark_allocated.
Qed.

Lemma buddy_tree_mark_correct_witness :
  let t := fst (buddy_tree_init 3) in
  tree_inv t /\ free t 4 /\ allocated (buddy_tree_mark t (pos_of 4)) 4.
Proof.
  assert (Hi : tree_inv (fst (buddy_tree_init 3))) by (apply init_inv; lia).
  assert (Hf : free (fst (buddy_tree_init 3)) 4) by (apply init_free; [lia|vm_compute; split; reflexivity || discriminate]).
  split; [exact Hi|split; [exact Hf|]].
  apply (buddy_tree_mark_correct _ 4 Hi Hf). right. reflexivity.
Defined.

(** Releasing an allocated node keeps the tree invariant and removes
    exactly that node from the set of allocated nodes; releasing a node that is
    not full leaves the tree as it is. *)
Theorem buddy_tree_release_correct (t : buddy_tree) (p : Z) :
  tree_inv t -> node (order t) p ->
  let t' := buddy_tree_release t (pos_of p) in
  (allocated t p -> tree_inv t' /\ (forall i, allocated t' i <-> allocated t i /\ i <> p)) /\
  (st t p <> width (order t) p -> t' = t).
Proof.
  intros Hinv Hp. split.
  - intros HA. split; [by apply release_inv|]. intros i. by apply release_allocated.
  - intros Hne. apply release_not_full; [apply Hinv|done|done].
Qed.

Lemma buddy_tree_release_correct_witness :
  let t := buddy_tree_mark (fst (buddy_tree_init 3)) (pos_of 4) in
  tree_inv t /\ node (order t) 4 /\ ~ allocated (buddy_tree_release t (pos_of 4)) 4.
Proof.
  assert (Hi : tree_inv (fst (buddy_tree_init 3))) by (apply init_inv; lia).
  assert (Hf : free (fst (buddy_tree_init 3)) 4) by (apply init_free; [lia|vm_compute; split; reflexivity || discriminate]).
  pose proof (mark_inv _ 4 Hi Hf) as Hi'.
  assert (HA : allocated (buddy_tree_mark (fst (buddy_tree_init 3)) (pos_of 4)) 4)
    by (apply mark_allocated; auto).
  split; [exact Hi'|split; [apply HA|]].
  intros H. apply (proj1 (buddy_tree_release_correct _ 4 Hi' (proj1 HA)) HA) in H. tauto.
Defined.



(** The search is sound and complete: for every depth of the tree
    [buddy_tree_find_free] returns a free node of that depth, or the invalid
    position when the tree has no free node of that depth. *)
Theorem buddy_tree_find_free_correct (t : buddy_tree) (d : Z) :
  tree_inv t -> 1 <= d <= order t ->
  (exists p, buddy_tree_find_free t d = pos_of p /\ free t p /\ Z.log2 p + 1 = d) \/
  (buddy_tree_find_free t d = INVALID_POS /\ forall p, free t p -> Z.log2 p + 1 <> d).
Proof. apply find_free_spec. Qed.

Lemma buddy_tree_find_free_correct_witness :
  let t := buddy_tree_mark (fst (buddy_tree_init 3)) (pos_of 4) in
  tree_inv t /\ exists p, buddy_tree_find_free t 2 = pos_of p /\ free t p.
Proof.
  assert (Hi : tree_inv (fst (buddy_tree_init 3))) by (apply init_inv; lia).
  assert (Hf : free (fst (buddy_tree_init 3)) 4) by (apply init_free; [lia|vm_compute; split; reflexivity || discriminate]).
  pose proof (mark_inv _ 4 Hi Hf) as Hi'. split; [exact Hi'|].
  destruct (buddy_tree_find_free_correct _ 2 Hi') as [(p & E & Hp & _)|[E _]].
  - split; [discriminate|vm_compute; discriminate].
  - exists p. split; assumption.
  - vm_compute in E. discriminate.
Defined.

(** [buddy_tree_is_free] decides freedom: it answers yes exactly for the
    nodes that are empty and have no full ancestor. *)
Theorem buddy_tree_is_free_correct (t : buddy_tree) (p : Z) :
  tree_inv t -> node (order t) p -> buddy_tree_is_free t (pos_of p) = true <-> free t p.
Proof. apply is_free_spec. Qed.

Lemma buddy_tree_is_free_correct_witness :
  let t := buddy_tree_mark (fst (buddy_tree_init 3)) (pos_of 4) in
  tree_inv t /\ node (order t) 5 /\ free t 5.
Proof.
  assert (Hi : tree_inv (fst (buddy_tree_init 3))) by (apply init_inv; lia).
  assert (Hf : free (fst (buddy_tree_init 3)) 4) by (apply init_free; [lia|vm_compute; split; reflexivity || discriminate]).
  pose proof (mark_inv _ 4 Hi Hf) as Hi'.
  assert (Hn : node (order (buddy_tree_mark (fst (buddy_tree_init 3)) (pos_of 4))) 5)
    by (vm_compute; split; reflexivity || discriminate).
  split; [exact Hi'|split; [exact Hn|]].
  apply (buddy_tree_is_free_correct _ 5 Hi' Hn). vm_compute. reflexivity.
Defined.

(** Marking a free node and releasing it again restores every status. *)
Theorem mark_release_roundtrip (t : buddy_tree) (p : Z) :
  tree_inv t -> free t p ->
  let t' := buddy_tree_release (buddy_tree_mark t (pos_of p)) (pos_of p) in
  tree_inv t' /\ forall i, node (order t) i -> st t' i = st t i.
Proof.
  intros Hinv Hf. split.
  - apply release_inv; [by apply mark_inv|]. apply mark_allocated; auto.
  - intros i. by apply mark_release_st.
Qed.

Lemma mark_release_roundtrip_witness :
  let t := fst (buddy_tree_init 3) in
  free t 4 /\ st (buddy_tree_release (buddy_tree_mark t (pos_of 4)) (pos_of 4)) 1 = st t 1.
Proof.
  assert (Hi : tree_inv (fst (buddy_tree_init 3))) by (apply init_inv; lia).
  assert (Hf : free (fst (buddy_tree_init 3)) 4)
    by (apply init_free; [lia|vm_compute; split; reflexivity || discriminate]).
  split; [exact Hf|]. apply (mark_release_roundtrip _ 4 Hi Hf). apply (root_node 3). lia.
Defined.

(** Replaying a completed operation is harmless: marking a node again
    after it has been marked, or releasing it again after it has been released,
    changes no status.  This is what replaying a committed log relies on when
    the crash came after the tree was updated. *)
Theorem tree_replay_idempotent (t : buddy_tree) (p : Z) :
  tree_inv t ->
  (free t p -> forall i, node (order t) i ->
     st (buddy_tree_mark (buddy_tree_mark t (pos_of p)) (pos_of p)) i
     = st (buddy_tree_mark t (pos_of p)) i) /\
  (allocated t p ->
     buddy_tree_release (buddy_tree_release t (pos_of p)) (pos_of p)
     = buddy_tree_release t (pos_of p)).
Proof.
  intros Hinv. split.
  - intros Hf. pose proof Hf as (Hp & H0 & _).
    pose proof (mark_post t p (proj1 Hinv) Hp) as (Hwf1 & Ho1 & Hst1 & Hfr1 & Hex1).
    pose proof (mark_inv t p Hinv Hf) as Hinv1.
    set (t1 := buddy_tree_mark t (pos_of p)) in *. clearbody t1. rewrite <- Ho1 in *.
    pose proof (mark_post t1 p Hwf1 Hp) as (_ & Ho2 & Hst2 & Hfr2 & Hex2).
    set (t2 := buddy_tree_mark t1 (pos_of p)) in *. clearbody t2.
    assert (He : forall a, anc a p -> exact (st t1) a)
      by (intros a; apply Hex1; intros b; by apply free_anc_exact).
    apply (exact_determines t1 t2 p); try done; try congruence.
    + intros j Hj Hna. destruct (Z.eq_dec j p) as [->|Hne]; [congruence|by apply Hfr2].
    + intros a Ha. by apply Hex2.
  - intros [Hp [Hw _]].
    pose proof (release_post t p (proj1 Hinv) Hp Hw) as (Hwf1 & Ho1 & Hst1 & _).
    pose proof (width_pos _ _ Hp). apply release_not_full; [done|by rewrite Ho1|].
    rewrite Ho1, Hst1. lia.
Qed.

Lemma tree_replay_idempotent_witness :
  let t := fst (buddy_tree_init 3) in
  free t 4 /\ st (buddy_tree_mark (buddy_tree_mark t (pos_of 4)) (pos_of 4)) 2 = 1.
Proof.
  assert (Hi : tree_inv (fst (buddy_tree_init 3))) by (apply init_inv; lia).
  assert (Hf : free (fst (buddy_tree_init 3)) 4)
    by (apply init_free; [lia|vm_compute; split; reflexivity || discriminate]).
  split; [exact Hf|].
  rewrite (proj1 (tree_replay_idempotent _ 4 Hi) Hf 2 ltac:(vm_compute; split; reflexivity || discriminate)).
  vm_compute. reflexivity.
Defined.

(** Replaying an interrupted mark is not enough: when a crash stops
    [update_parent_chain] after the parent of the marked node but before the
    root, the replay finds the parent up to date and returns at once.  The root
    stays empty, and a search for the whole arena returns it although the marked
    node is in use. *)
Theorem mark_replay_after_partial_update :
  let t := fst (buddy_tree_init 3) in
  let replayed := buddy_tree_mark (mark_interrupted 1 t (pos_of 4)) (pos_of 4) in
  st (buddy_tree_mark t (pos_of 4)) 1 = 1 /\
  st replayed 1 = 0 /\ st replayed 4 = width 3 4 /\
  buddy_tree_find_free replayed 1 = buddy_tree_root.
Proof. vm_compute. repeat split. Qed.

(** The memory of a tree: every status bit lies below the memo table,
    and the table ends inside the size that [buddy_tree_sizeof] reports, for
    every order the 32-bit position bound can represent. *)
Theorem buddy_tree_layout_fits (n i j : Z) :
  1 <= n <= 31 -> node n i -> 0 <= j < width n i ->
  let t := fst (buddy_tree_init n) in
  let at_ := bitset_location (buddy_tree_internal_position_tree t (pos_of i)) + j in
  0 <= at_ /\ at_ / 8 < sizeof_size_t * size_for_order_offset t /\
  sizeof_size_t * (size_for_order_offset t + order t + 1)
    <= buddy_tree_sizeof n - sizeof_struct_buddy_tree.
Proof.
  intros Hn Hi Hj. cbn zeta. pose proof (populate_layout n ∅ Hn) as Hl.
  change (buddy_tree_populate_size_for_order _) with (fst (buddy_tree_init n)) in Hl.
  rewrite internal_position_eq by done. rewrite init_order. cbn [bitset_location].
  pose proof (node_fits n i Hn Hi) as Hf. pose proof (table_beyond _ 0 Hl ltac:(lia)) as Ht.
  rewrite init_order in Ht.
  pose proof (Z.div_le_mono (field n i + j) (row_start n 0 - 1) 8).
  split_and!; [lia|rewrite Z.add_0_r in Ht; lia|].
  rewrite (tl_offset _ Hl), init_order. unfold buddy_tree_sizeof.
  pose proof (padded_bitset_size_ge n Hn). unfold sizeof_size_t, sizeof_struct_buddy_tree.
  assert (0 <= row_start n 0) by lia.
  pose proof (Z.div_le_mono (-1) (row_start n 0 - 1) 8 ltac:(lia) ltac:(lia)) as Hm.
  change (-1 / 8) with (-1) in Hm.
  rewrite u64_small by lia.
  pose proof (Z.mul_div_le (padded_bitset_size n) 8 ltac:(lia)). lia.
Qed.

Lemma buddy_tree_layout_fits_witness :
  1 <= 5 <= 31 /\ node 5 17 /\
  sizeof_size_t * (size_for_order_offset (fst (buddy_tree_init 5)) + 5 + 1)
    <= buddy_tree_sizeof 5 - sizeof_struct_buddy_tree.
Proof.
  assert (Hn : node 5 17) by (vm_compute; split; reflexivity || discriminate).
  split; [lia|split; [exact Hn|]].
  apply (buddy_tree_layout_fits 5 17 0 ltac:(lia) Hn). vm_compute. split; [discriminate|reflexivity].
Defined.

#[global] Opaque buddy_tree_mark buddy_tree_release.
