(* ===== verification/BuddyResize.v ===== *)
(** Growing, shrinking and walking a buddy tree
    (src/src/buddy/include/buddy_alloc.h, buddy_tree_resize .. buddy_tree_walk). *)
From Stdlib Require Import ZArith Lia Bool.
From stdpp Require Import base list gmap numbers.
From S2P Require Import Prelude Bitset BuddyTree.
Local Open Scope Z_scope.

(** ** Resizing *)

(** The inner loop of [buddy_tree_grow], from the deepest row to the root. *)
Fixpoint grow_rows (fuel : nat) (torder : Z) (bits : bytes) (current_order : Z)
  (cur next : buddy_tree_pos) : bytes :=
  match fuel with
  | O => bits
  | S k =>
      if current_order =? 0 then bits
      else
        let current_internal := buddy_tree_internal_position_order torder cur in
        let next_internal := buddy_tree_internal_position_order (torder + 1) next in
        let node_count := shl1u (current_order - 1) in
        let bits := bitset_shift_right bits 0
          (bitset_location current_internal)
          (u64 (bitset_location current_internal + local_offset current_internal * node_count))
          (u64 (bitset_location next_internal - bitset_location current_internal)) in
        let bits := fst (bitset_clear_range bits 0
          (u64 (bitset_location next_internal + local_offset next_internal * node_count))
          (u64 (bitset_location next_internal + local_offset next_internal * node_count * 2 - 1))) in
        grow_rows k torder bits (current_order - 1) (buddy_tree_parent cur) (buddy_tree_parent next)
  end.

(** One order: transfer the rows, refresh the header and the memo table, then
    let the new root derive its status from the two halves. *)
Definition grow_once (t : buddy_tree) : buddy_tree :=
  let current_order := order t in
  let bits := grow_rows (Z.to_nat current_order) (order t) (data t) current_order
    (buddy_tree_leftmost_child_internal current_order)
    (buddy_tree_leftmost_child_internal (current_order + 1)) in
  let order' := u8 (order t + 1) in
  let t := buddy_tree_populate_size_for_order
    (BuddyTree (shl1u order') (size_for_order_offset t) order' bits) in
  let pos := buddy_tree_right_child buddy_tree_root in
  update_parent_chain t pos (buddy_tree_internal_position_tree t pos) 0.

Fixpoint grow_loop (fuel : nat) (t : buddy_tree) (desired_order : Z) : buddy_tree :=
  match fuel with
  | O => t
  | S k => if desired_order >? order t then grow_loop k (grow_once t) desired_order else t
  end.

(** Each iteration raises the 8-bit order by one. *)
Definition buddy_tree_grow (t : buddy_tree) (desired_order : Z) : buddy_tree :=
  grow_loop 256 t desired_order.

(** The inner loop of [buddy_tree_shrink], from the second row downwards. *)
Fixpoint shrink_rows (fuel : nat) (t : buddy_tree) (bits : bytes) (left_start : buddy_tree_pos)
  : bytes :=
  match fuel with
  | O => bits
  | S k =>
      if buddy_tree_valid t left_start then
        let current_internal := buddy_tree_internal_position_order (order t) left_start in
        let next_internal := buddy_tree_internal_position_order (order t - 1)
          (buddy_tree_parent left_start) in
        let node_count := shl1u (depth left_start - 1) in
        let bits := bitset_shift_left bits 0
          (bitset_location current_internal)
          (u64 (bitset_location current_internal + local_offset current_internal * node_count / 2))
          (u64 (bitset_location current_internal - bitset_location next_internal)) in
        shrink_rows k t bits (buddy_tree_left_child left_start)
      else bits
  end.

Definition shrink_once (t : buddy_tree) : buddy_tree :=
  let bits := shrink_rows 64 t (data t) (buddy_tree_left_child buddy_tree_root) in
  let order' := u8 (order t - 1) in
  buddy_tree_populate_size_for_order
    (BuddyTree (shl1u order') (size_for_order_offset t) order' bits).

Fixpoint shrink_loop (fuel : nat) (t : buddy_tree) (desired_order : Z) : buddy_tree :=
  match fuel with
  | O => t
  | S k =>
      if desired_order <? order t then
        if negb (buddy_tree_can_shrink t) then t
        else shrink_loop k (shrink_once t) desired_order
      else t
  end.

Definition buddy_tree_shrink (t : buddy_tree) (desired_order : Z) : buddy_tree :=
  shrink_loop 256 t desired_order.

Definition buddy_tree_resize (t : buddy_tree) (desired_order : Z) : buddy_tree :=
  if order t =? desired_order then t
  else if order t <? desired_order then buddy_tree_grow t desired_order
  else buddy_tree_shrink t desired_order.

(** ** Intervals *)

(** [while (depth != t->order)]: at most 255 levels. *)
Fixpoint interval_loop (fuel : nat) (torder depth : Z) (from to : buddy_tree_pos)
  : buddy_tree_interval_t :=
  match fuel with
  | O => Interval from to
  | S k =>
      if depth =? torder then Interval from to
      else interval_loop k torder (depth + 1) (buddy_tree_left_child from) (buddy_tree_right_child to)
  end.

Definition buddy_tree_interval (t : buddy_tree) (pos : buddy_tree_pos) : buddy_tree_interval_t :=
  interval_loop 256 (order t) (depth pos) pos pos.

Definition buddy_tree_interval_contains (outer inner : buddy_tree_interval_t) : bool :=
  (index (iv_from inner) >=? index (iv_from outer))
  && (index (iv_from inner) <=? index (iv_to outer))
  && (index (iv_to inner) >=? index (iv_from outer))
  && (index (iv_to inner) <=? index (iv_to outer)).

(** ** Walking *)

Definition buddy_tree_walk_state_root : buddy_tree_walk_state :=
  WalkState buddy_tree_root buddy_tree_root 0 0.

(** One iteration of the [do ... while (state->going_up)] loop. *)
Definition walk_step (t : buddy_tree) (s : buddy_tree_walk_state) : buddy_tree_walk_state :=
  if truthy (going_up s) then
    if index (current_pos s) =? index (starting_pos s) then
      WalkState (starting_pos s) (current_pos s) 0 1
    else if truthy (Z.land (index (current_pos s)) 1) then
      WalkState (starting_pos s) (buddy_tree_parent (current_pos s)) (going_up s) (walk_done s)
    else
      WalkState (starting_pos s) (buddy_tree_right_adjacent (current_pos s)) 0 (walk_done s)
  else if buddy_tree_valid t (buddy_tree_left_child (current_pos s)) then
    WalkState (starting_pos s) (buddy_tree_left_child (current_pos s)) (going_up s) (walk_done s)
  else WalkState (starting_pos s) (current_pos s) 1 (walk_done s).

(** The loop climbs at most from a leaf to the root: 64 levels and the turn. *)
Fixpoint walk_loop (fuel : nat) (t : buddy_tree) (s : buddy_tree_walk_state)
  : buddy_tree_walk_state :=
  match fuel with
  | O => s
  | S k => let s := walk_step t s in if truthy (going_up s) then walk_loop k t s else s
  end.

Definition buddy_tree_walk (t : buddy_tree) (s : buddy_tree_walk_state)
  : buddy_tree_walk_state * bool :=
  let s := walk_loop 130 t s in (s, negb (truthy (walk_done s))).

(** The test of one iteration of [buddy_tree_check_invariant]: whether the
    node at [pos] violates the relation between a parent and its children. *)
Definition node_violated (t : buddy_tree) (pos : buddy_tree_pos) : bool :=
  let current_internal := buddy_tree_internal_position_tree t pos in
  let current_status := read_from_internal_position (data t) current_internal in
  let left_child_status := buddy_tree_status t (buddy_tree_left_child pos) in
  let right_child_status := buddy_tree_status t (buddy_tree_right_child pos) in
  if truthy left_child_status || truthy right_child_status then
    let min := if left_child_status <=? right_child_status
               then left_child_status else right_child_status in
    negb (current_status =? u64 (min + 1))
  else (current_status >? 0) && (current_status <? local_offset current_internal).

(** The [do ... while (buddy_tree_walk(t, &state))] loop: the walk advances
    [state] but the body examines [pos].  [None] when the fuel runs out. *)
Fixpoint check_invariant_loop (fuel : nat) (t : buddy_tree) (pos : buddy_tree_pos)
  (s : buddy_tree_walk_state) (fail : bool) : option bool :=
  match fuel with
  | O => None
  | S k =>
      let fail := fail || node_violated t pos in
      let '(s, more) := buddy_tree_walk t s in
      if more then check_invariant_loop k t pos s fail else Some fail
  end.

Definition buddy_tree_check_invariant (fuel : nat) (t : buddy_tree) (pos : buddy_tree_pos)
  : option bool :=
  let s := WalkState buddy_tree_root pos 0 0 in
  check_invariant_loop fuel t pos s false.

(** ** Properties *)

Lemma check_invariant_loop_result fuel t pos s fail f :
  check_invariant_loop fuel t pos s fail = Some f -> f = fail || node_violated t pos.
Proof.
  revert s fail. induction fuel as [|fuel IH]; intros s fail; cbn [check_invariant_loop]; [done|].
  destruct (buddy_tree_walk t s) as [s' more]. destruct more.
  - intros H. rewrite (IH _ _ H). by destruct fail, (node_violated t pos).
  - congruence.
Qed.

(** [buddy_tree_check_invariant] examines only the node it is called on:
    whenever it returns, its answer is the test of that one node, whatever the
    rest of the tree looks like; on a tree of order 3 whose node 2 contradicts
    its children it reports success from the root. *)
Theorem check_invariant_examines_one_node :
  (forall fuel t pos f, buddy_tree_check_invariant fuel t pos = Some f -> f = node_violated t pos) /\
  (let t := write_status (fst (buddy_tree_init 3))
              (buddy_tree_internal_position_tree (fst (buddy_tree_init 3)) (pos_of 4)) 1 in
   node_violated t (pos_of 2) = true /\
   buddy_tree_check_invariant 20 t buddy_tree_root = Some false).
Proof.
  split; [|vm_compute; split; reflexivity].
  intros fuel t pos f H. apply check_invariant_loop_result in H. done.
Qed.

(** Shrinking corrupts the tree: with two leaves of an order-3 tree in
    use, growing to order 4 keeps their statuses, and shrinking back to order 3
    reads them as free, so the search hands out a node that is in use. *)
Theorem buddy_tree_shrink_loses_allocations :
  let t := buddy_tree_mark (buddy_tree_mark (fst (buddy_tree_init 3)) (pos_of 5)) (pos_of 6) in
  let g := buddy_tree_grow t 4 in
  let s := buddy_tree_shrink g 3 in
  st g 9 = 1 /\ st g 10 = 1 /\ order s = 3 /\ st t 5 = 1 /\ st s 5 = 0 /\
  buddy_tree_find_free (buddy_tree_mark s (pos_of 4)) 3 = pos_of 5.
Proof. vm_compute. repeat split. Qed.
