(* ===== verification/PowerOfTwo.v ===== *)
(** The bit-position helpers at the end of src/src/buddy/include/buddy_alloc.h
    (64-bit [size_t] branch): the highest set bit and rounding up to a power of
    two, with their closed forms. *)
From Stdlib Require Import ZArith Lia Bool.
From stdpp Require Import base list numbers.
From S2P Require Import Prelude BuddyTree.
Local Open Scope Z_scope.

Definition all_set : list Z := [4294967295; 65535; 255; 15; 7; 3; 1].
Definition count : list Z := [32; 16; 8; 4; 2; 1; 1].

(** The loop over the two tables, which have the same length. *)
Fixpoint highest_bit_loop (tables : list (Z * Z)) (value result : Z) : Z :=
  match tables with
  | [] => result + value
  | (s, c) :: rest =>
      if value >=? s then highest_bit_loop rest (Z.shiftr value c) (result + c)
      else highest_bit_loop rest value result
  end.

Definition highest_bit_position (value : Z) : Z :=
  highest_bit_loop (zip all_set count) value 0.

Definition ceiling_power_of_two (value : Z) : Z :=
  let value := u64 (value + (if value =? 0 then 1 else 0)) in
  u64 (Z.shiftl 1 (highest_bit_position (u64 (value + value - 1)) - 1)).

Definition is_valid_alignment (alignment : Z) : bool :=
  ceiling_power_of_two alignment =? alignment.

(** ** Closed forms *)

(** The number of bits of a value. *)
Definition bit_length (v : Z) : Z := if v =? 0 then 0 else Z.log2 v + 1.

Lemma bit_length_shift v c :
  0 <= c -> 2 ^ c - 1 <= v -> 0 <= v -> bit_length v = c + bit_length (Z.shiftr v c).
Proof.
  intros Hc Hv H0. pose proof (pow2_pos c Hc).
  rewrite Z.shiftr_div_pow2 by done. unfold bit_length.
  destruct (Z.eq_dec v (2 ^ c - 1)) as [E|Hne].
  - rewrite (Z.div_small v) by lia. cbn. subst v.
    destruct (Z.eqb_spec (2 ^ c - 1) 0) as [E|E].
    + assert (2 ^ c = 2 ^ 0) as Hp by lia. apply Z.pow_inj_r in Hp; lia.
    + assert (1 <= c) by (destruct (Z.eq_dec c 0); [subst; simpl in *; lia|lia]).
      replace (2 ^ c - 1) with (Z.pred (2 ^ c)) by lia. rewrite Z.log2_pred_pow2 by lia. lia.
  - assert (H1 : 1 <= v / 2 ^ c) by (apply Z.div_le_lower_bound; lia).
    destruct (Z.eqb_spec v 0); [lia|]. destruct (Z.eqb_spec (v / 2 ^ c) 0); [lia|].
    rewrite <- Z.shiftr_div_pow2, Z.log2_shiftr by lia.
    assert (c <= Z.log2 v) by (apply Z.log2_le_pow2; lia). lia.
Qed.

Lemma highest_bit_step s c rest v r n :
  s = 2 ^ c - 1 -> 0 <= c -> 0 <= v < 2 ^ (c + n) -> 0 <= n <= c ->
  (forall v' r', 0 <= v' < 2 ^ c -> highest_bit_loop rest v' r' = r' + bit_length v') ->
  highest_bit_loop ((s, c) :: rest) v r = r + bit_length v.
Proof.
  intros -> Hc Hv Hn Hrest. cbn [highest_bit_loop]. rewrite Z.geb_leb.
  destruct (Z.leb_spec (2 ^ c - 1) v).
  - assert (Hs : 0 <= Z.shiftr v c < 2 ^ c).
    { rewrite Z.shiftr_div_pow2 by done. rewrite Z.pow_add_r in Hv by lia.
      pose proof (pow2_mono n c ltac:(lia)). pose proof (pow2_pos c Hc).
      split; [apply Z.div_pos; lia|apply Z.div_lt_upper_bound; nia]. }
    rewrite Hrest, (bit_length_shift v c) by lia. lia.
  - apply Hrest. lia.
Qed.

Lemma highest_bit_small v r :
  0 <= v < 2 ^ 4 -> highest_bit_loop [(7, 2); (3, 1); (1, 1)] v r = r + bit_length v.
Proof.
  assert (Hr : forall l v r, highest_bit_loop l v r = r + highest_bit_loop l v 0).
  { clear. induction l as [|[s c] l IH]; intros v r; cbn [highest_bit_loop]; [lia|].
    destruct (v >=? s); [rewrite IH, (IH _ (0 + c)); lia|apply IH]. }
  assert (H : all_below 16 (fun v => highest_bit_loop [(7, 2); (3, 1); (1, 1)] v 0 =? bit_length v) = true)
    by reflexivity.
  intros Hv. rewrite Hr. below H v. apply Z.eqb_eq in H. lia.
Qed.

Lemma highest_bit_position_eq v : 0 <= v < 2 ^ 64 -> highest_bit_position v = bit_length v.
Proof.
  intros Hv. unfold highest_bit_position, all_set, count. cbn [zip zip_with].
  change (bit_length v) with (0 + bit_length v).
  apply (highest_bit_step _ _ _ _ _ 32); try done; try lia. intros v1 r1 H1.
  apply (highest_bit_step _ _ _ _ _ 16); try done; try lia. intros v2 r2 H2.
  apply (highest_bit_step _ _ _ _ _ 8); try done; try lia. intros v3 r3 H3.
  apply (highest_bit_step _ _ _ _ _ 4); try done; try lia. intros v4 r4 H4.
  by apply highest_bit_small.
Qed.

Lemma ceiling_power_of_two_eq v :
  1 <= v <= 2 ^ 63 -> ceiling_power_of_two v = 2 ^ Z.log2_up v.
Proof.
  intros Hv. unfold ceiling_power_of_two. destruct (Z.eqb_spec v 0); [lia|].
  rewrite Z.add_0_r, (u64_small v), (u64_small (v + v - 1)), highest_bit_position_eq by lia.
  unfold bit_length. destruct (Z.eqb_spec (v + v - 1) 0); [lia|].
  rewrite Z.add_simpl_r, Z.shiftl_1_l.
  assert (E : Z.log2 (v + v - 1) = Z.log2_up v).
  { destruct (Z.eq_dec v 1) as [->|]; [done|].
    rewrite Z.log2_up_eqn by lia. replace (v + v - 1) with (2 * (v - 1) + 1) by lia.
    rewrite Z.log2_succ_double by lia. unfold Z.succ. do 2 f_equal. }
  rewrite E. apply u64_small. pose proof (Z.log2_up_nonneg v).
  assert (Z.log2_up v <= 63) by (apply Z.log2_up_le_pow2; lia).
  split; [apply Z.pow_nonneg; lia|apply Z.pow_lt_mono_r; lia].
Qed.

(** [highest_bit_position] is the bit length of any 64-bit value (zero for
    zero), although its table mixes exact powers and shorter shifts. *)
Theorem highest_bit_position_correct (v : Z) :
  0 <= v < 2 ^ 64 ->
  highest_bit_position v = (if v =? 0 then 0 else Z.log2 v + 1).
Proof. apply highest_bit_position_eq. Qed.

Lemma highest_bit_position_correct_witness :
  0 <= 4294967295 < 2 ^ 64 /\ highest_bit_position 4294967295 = 32.
Proof.
  split; [lia|]. rewrite (highest_bit_position_correct 4294967295 ltac:(lia)). reflexivity.
Defined.

(** [ceiling_power_of_two] is the least power of two that is not below its
    argument, for every value up to 2^63; above that the doubling wraps. *)
Theorem ceiling_power_of_two_correct (v : Z) :
  1 <= v <= 2 ^ 63 ->
  exists k, 0 <= k /\ ceiling_power_of_two v = 2 ^ k /\ v <= 2 ^ k /\
            forall j, 0 <= j -> v <= 2 ^ j -> 2 ^ k <= 2 ^ j.
Proof.
  intros Hv. exists (Z.log2_up v). pose proof (Z.log2_up_nonneg v).
  split_and!; [done|by apply ceiling_power_of_two_eq|by apply Z.log2_up_le_pow2; lia|].
  intros j Hj Hle. apply pow2_mono. split; [done|]. by apply Z.log2_up_le_pow2; lia.
Qed.

Lemma ceiling_power_of_two_correct_witness :
  1 <= 100 <= 2 ^ 63 /\ exists k, ceiling_power_of_two 100 = 2 ^ k /\ 100 <= 2 ^ k.
Proof.
  split; [lia|].
  destruct (ceiling_power_of_two_correct 100 ltac:(lia)) as (k & _ & E & H & _).
  exists k. split; assumption.
Defined.
