(* ===== verification/BuddyAlloc.v ===== *)
(** The buddy allocator proper (src/src/buddy/include/buddy_alloc.h): sizes,
    addresses, malloc and free in one piece and in the two parts the driver
    logs between, virtual slots, reservations, resizing and walking.

    [buddy] is struct buddy with its tree; [self] is the address of the struct,
    needed in relative mode.  Every function is applied to an existing
    allocator, so the guards against a null allocator are the record itself;
    the null pointer is address 0. *)
From Stdlib Require Import ZArith Lia Bool.
From stdpp Require Import base list gmap numbers.
From S2P Require Import Prelude Bitset BuddyTree BuddyInv BuddyResize PowerOfTwo.
Local Open Scope Z_scope.

Record buddy := Buddy {
  memory_size : Z;
  alignment : Z;
  arena : Z;
  buddy_flags : Z;
  tree : buddy_tree;
  self : Z }.

Definition NULL : Z := 0.
Definition BUDDY_RELATIVE_MODE : Z := 1.
Definition BUDDY_ALLOC_ALIGN : Z := 64.
Definition sizeof_struct_buddy : Z := 32.
Definition alignof_struct_buddy : Z := 8.

Definition set_tree (b : buddy) (t : buddy_tree) : buddy :=
  Buddy (memory_size b) (alignment b) (arena b) (buddy_flags b) t (self b).

(** ** Sizes *)

Definition buddy_tree_order_for_memory (memory_size alignment : Z) : Z :=
  let blocks := memory_size / alignment in
  highest_bit_position (ceiling_power_of_two blocks).

Definition buddy_sizeof_alignment (memory_size alignment : Z) : Z :=
  if negb (is_valid_alignment alignment) then 0
  else if memory_size <? alignment then 0
  else
    let buddy_tree_order := buddy_tree_order_for_memory memory_size alignment in
    u64 (sizeof_struct_buddy + buddy_tree_sizeof (u8 buddy_tree_order)).

Definition buddy_sizeof (memory_size : Z) : Z :=
  buddy_sizeof_alignment memory_size BUDDY_ALLOC_ALIGN.

Definition buddy_relative_mode (b : buddy) : bool :=
  truthy (Z.land (buddy_flags b) BUDDY_RELATIVE_MODE).

Definition buddy_main (b : buddy) : Z :=
  if buddy_relative_mode b then self b - arena b else arena b.

Definition buddy_effective_memory_size (b : buddy) : Z := ceiling_power_of_two (memory_size b).

Definition size_for_depth (b : buddy) (depth : Z) : Z :=
  Z.shiftr (ceiling_power_of_two (memory_size b)) (depth - 1).

(** [while ((effective_memory_size / requested_size) >> 1u)]: the size halves
    at every iteration, so 64 iterations end it. *)
Fixpoint depth_for_size_loop (fuel : nat) (effective_memory_size requested_size depth : Z) : Z :=
  match fuel with
  | O => depth
  | S k =>
      if truthy (Z.shiftr (effective_memory_size / requested_size) 1)
      then depth_for_size_loop k (Z.shiftr effective_memory_size 1) requested_size (depth + 1)
      else depth
  end.

Definition depth_for_size (b : buddy) (requested_size : Z) : Z :=
  let requested_size :=
    if requested_size <? alignment b then alignment b else requested_size in
  depth_for_size_loop 64 (buddy_effective_memory_size b) requested_size 1.

Definition buddy_virtual_slots (b : buddy) : Z :=
  let effective_memory_size := buddy_effective_memory_size b in
  if effective_memory_size =? memory_size b then 0
  else (effective_memory_size - memory_size b) / alignment b.

(** ** Positions and addresses *)

Definition address_for_position (b : buddy) (pos : buddy_tree_pos) : Z :=
  let block_size := size_for_depth b (buddy_tree_depth pos) in
  let addr := u64 (block_size * buddy_tree_index pos) in
  buddy_main b + addr.

Definition deepest_position_for_offset (b : buddy) (offset : Z) : buddy_tree_pos :=
  let idx := offset / alignment b in
  let pos := buddy_tree_leftmost_child (tree b) in
  Pos (u64 (index pos + idx)) (depth pos).

(** [while (!buddy_tree_status(tree, pos))], climbing one level at a time;
    [None] when the climb leaves the tree. *)
Fixpoint position_loop (fuel : nat) (t : buddy_tree) (pos : buddy_tree_pos)
  : option buddy_tree_pos :=
  match fuel with
  | O => None
  | S k =>
      if truthy (buddy_tree_status t pos) then Some pos
      else
        let pos := buddy_tree_parent pos in
        if negb (buddy_tree_valid t pos) then None else position_loop k t pos
  end.

Definition position_for_address (b : buddy) (addr : Z) : buddy_tree_pos :=
  let offset := u64 (addr - buddy_main b) in
  if truthy (offset mod alignment b) then INVALID_POS
  else
    match position_loop 64 (tree b) (deepest_position_for_offset b offset) with
    | None => INVALID_POS
    | Some pos =>
        if negb (address_for_position b pos =? addr) then INVALID_POS else pos
    end.

(** ** Virtual slots *)

Definition toggle (state : bool) (t : buddy_tree) (pos : buddy_tree_pos) : buddy_tree :=
  if state then buddy_tree_mark t pos else buddy_tree_release t pos.

(** [while (delta)]: every iteration descends one level. *)
Fixpoint toggle_virtual_loop (fuel : nat) (b : buddy) (state : bool) (t : buddy_tree)
  (pos : buddy_tree_pos) (delta : Z) : buddy_tree :=
  match fuel with
  | O => t
  | S k =>
      if delta =? 0 then t
      else
        let current_pos_size := size_for_depth b (buddy_tree_depth pos) in
        if delta =? current_pos_size then toggle state t pos
        else if delta <=? current_pos_size / 2 then
          toggle_virtual_loop k b state t (buddy_tree_right_child pos) delta
        else
          toggle_virtual_loop k b state (toggle state t (buddy_tree_right_child pos))
            (buddy_tree_left_child pos) (delta - current_pos_size / 2)
  end.

Definition buddy_toggle_virtual_slots (b : buddy) (state : bool) : buddy :=
  let effective_memory_size := buddy_effective_memory_size b in
  if effective_memory_size =? memory_size b then b
  else
    let delta := effective_memory_size - memory_size b in
    let pos := buddy_tree_right_child buddy_tree_root in
    set_tree b (toggle_virtual_loop 64 b state (tree b) pos delta).

(** ** Creation *)

Definition buddy_init_alignment (at_ main memory_size alignment : Z) : option buddy :=
  if at_ =? NULL then None
  else if main =? NULL then None
  else if at_ =? main then None
  else if negb (is_valid_alignment alignment) then None
  else if truthy (at_ mod alignof_struct_buddy) then None
  else if truthy (main mod sizeof_size_t) then None
  else
    let memory_size :=
      if truthy (memory_size mod alignment) then memory_size - memory_size mod alignment
      else memory_size in
    let buddy_size := buddy_sizeof_alignment memory_size alignment in
    if buddy_size =? 0 then None
    else
      let buddy_tree_order := buddy_tree_order_for_memory memory_size alignment in
      let b := Buddy memory_size alignment main 0
                 (fst (buddy_tree_init (u8 buddy_tree_order))) at_ in
      Some (buddy_toggle_virtual_slots b true).

Definition buddy_init (at_ main memory_size : Z) : option buddy :=
  buddy_init_alignment at_ main memory_size BUDDY_ALLOC_ALIGN.

Record buddy_embed_check := EmbedCheck { can_fit : bool; offset : Z; buddy_size : Z }.

Definition buddy_embed_offset (memory_size alignment : Z) : buddy_embed_check :=
  let size := buddy_sizeof_alignment memory_size alignment in
  let fit := negb (size >=? memory_size) in
  let off := u64 (memory_size - size) in
  let '(size, fit, off) :=
    if negb (off mod alignof_struct_buddy =? 0) then
      let size := u64 (size + off mod alignof_struct_buddy) in
      let fit := fit && negb (size >=? memory_size) in
      (size, fit, u64 (memory_size - size))
    else (size, fit, off) in
  if fit then EmbedCheck true off size else EmbedCheck false 0 0.

Definition buddy_embed_alignment (main memory_size alignment : Z) : option buddy :=
  if main =? NULL then None
  else if negb (is_valid_alignment alignment) then None
  else
    let check_result := buddy_embed_offset memory_size alignment in
    if negb (can_fit check_result) then None
    else
      match buddy_init_alignment (main + offset check_result) main (offset check_result) alignment with
      | None => None
      | Some b =>
          Some (Buddy (BuddyAlloc.memory_size b) (BuddyAlloc.alignment b) (self b - main)
                  (Z.lor (buddy_flags b) BUDDY_RELATIVE_MODE) (tree b) (self b))
      end.

Definition buddy_embed (main memory_size : Z) : option buddy :=
  buddy_embed_alignment main memory_size BUDDY_ALLOC_ALIGN.

(** ** Allocation *)

Definition buddy_malloc_find_pos (b : buddy) (requested_size : Z) : buddy_tree_pos :=
  let requested_size := if requested_size =? 0 then 1 else requested_size in
  if requested_size >? memory_size b then INVALID_POS
  else
    let target_depth := depth_for_size b requested_size in
    let pos := buddy_tree_find_free (tree b) (u8 target_depth) in
    if negb (buddy_tree_valid (tree b) pos) then INVALID_POS else pos.

Definition buddy_malloc_apply (b : buddy) (pos : buddy_tree_pos) : buddy * Z :=
  let b := set_tree b (buddy_tree_mark (tree b) pos) in
  (b, address_for_position b pos).

Definition buddy_malloc (b : buddy) (requested_size : Z) : buddy * Z :=
  let requested_size := if requested_size =? 0 then 1 else requested_size in
  if requested_size >? memory_size b then (b, NULL)
  else
    let target_depth := depth_for_size b requested_size in
    let pos := buddy_tree_find_free (tree b) (u8 target_depth) in
    if negb (buddy_tree_valid (tree b) pos) then (b, NULL)
    else
      let b := set_tree b (buddy_tree_mark (tree b) pos) in
      (b, address_for_position b pos).

Definition buddy_free (b : buddy) (ptr : Z) : buddy :=
  if ptr =? NULL then b
  else
    let main := buddy_main b in
    if (ptr <? main) || (ptr >=? main + memory_size b) then b
    else
      let pos := position_for_address b ptr in
      if negb (buddy_tree_valid (tree b) pos) then b
      else set_tree b (buddy_tree_release (tree b) pos).

Definition buddy_free_find_pos (b : buddy) (ptr requested_size : Z) : buddy_tree_pos :=
  if ptr =? NULL then INVALID_POS
  else
    let main := buddy_main b in
    if (ptr <? main) || (ptr >=? main + memory_size b) then INVALID_POS
    else
      let pos := position_for_address b ptr in
      if negb (buddy_tree_valid (tree b) pos) then INVALID_POS
      else
        let allocated_size_for_depth := size_for_depth b (depth pos) in
        let requested_size :=
          if requested_size <? alignment b then alignment b else requested_size in
        if requested_size >? allocated_size_for_depth then INVALID_POS
        else if requested_size <=? allocated_size_for_depth / 2 then INVALID_POS
        else pos.

Definition buddy_free_apply (b : buddy) (pos : buddy_tree_pos) : buddy :=
  set_tree b (buddy_tree_release (tree b) pos).

Definition buddy_safe_free (b : buddy) (ptr requested_size : Z) : buddy :=
  if ptr =? NULL then b
  else
    let main := buddy_main b in
    if (ptr <? main) || (ptr >=? main + memory_size b) then b
    else
      let pos := position_for_address b ptr in
      if negb (buddy_tree_valid (tree b) pos) then b
      else
        let allocated_size_for_depth := size_for_depth b (depth pos) in
        let requested_size :=
          if requested_size <? alignment b then alignment b else requested_size in
        if requested_size >? allocated_size_for_depth then b
        else if requested_size <=? allocated_size_for_depth / 2 then b
        else set_tree b (buddy_tree_release (tree b) pos).

(** [memset] and [memmove] work on the memory of the arena. *)
Definition buddy_calloc (b : buddy) (m : bytes) (members_count member_size : Z)
  : buddy * bytes * Z :=
  let '(members_count, member_size) :=
    if (members_count =? 0) || (member_size =? 0) then (1, 1) else (members_count, member_size) in
  if negb (u64 (members_count * member_size) / members_count =? member_size) then (b, m, NULL)
  else
    let total_size := u64 (members_count * member_size) in
    let '(b, result) := buddy_malloc b total_size in
    if truthy result then (b, memset m result 0 (Z.to_nat total_size), result)
    else (b, m, result).

Definition buddy_realloc (b : buddy) (m : bytes) (ptr requested_size : Z) : buddy * bytes * Z :=
  if ptr =? NULL then let '(b, r) := buddy_malloc b requested_size in (b, m, r)
  else if requested_size =? 0 then (buddy_free b ptr, m, NULL)
  else if requested_size >? memory_size b then (b, m, NULL)
  else
    let origin := position_for_address b ptr in
    if negb (buddy_tree_valid (tree b) origin) then (b, m, NULL)
    else
      let current_depth := buddy_tree_depth origin in
      let target_depth := depth_for_size b requested_size in
      let t := buddy_tree_release (tree b) origin in
      let new_pos := buddy_tree_find_free t (u8 target_depth) in
      if negb (buddy_tree_valid t new_pos) then
        (set_tree b (buddy_tree_mark t origin), m, NULL)
      else if index origin =? index new_pos then
        (set_tree b (buddy_tree_mark t origin), m, ptr)
      else
        let source := address_for_position b origin in
        let destination := address_for_position b new_pos in
        let m := memmove m destination source
          (Z.to_nat (size_for_depth b (if current_depth >? target_depth then current_depth
                                       else target_depth))) in
        (set_tree b (buddy_tree_mark t new_pos), m, destination).

Definition buddy_reallocarray (b : buddy) (m : bytes) (ptr members_count member_size : Z)
  : buddy * bytes * Z :=
  if (members_count =? 0) || (member_size =? 0) then buddy_realloc b m ptr 0
  else if negb (u64 (members_count * member_size) / members_count =? member_size) then (b, m, NULL)
  else buddy_realloc b m ptr (u64 (members_count * member_size)).

(** [while (requested_size)]: one leaf per iteration. *)
Fixpoint reservation_loop (fuel : nat) (state : bool) (align : Z) (t : buddy_tree)
  (pos : buddy_tree_pos) (requested_size : Z) : buddy_tree :=
  match fuel with
  | O => t
  | S k =>
      if requested_size =? 0 then t
      else
        reservation_loop k state align (toggle state t pos) (Pos (u64 (index pos + 1)) (depth pos))
          (if requested_size <? align then 0 else requested_size - align)
  end.

Definition buddy_toggle_range_reservation (b : buddy) (ptr requested_size : Z) (state : bool)
  : buddy :=
  if ptr =? NULL then b
  else if requested_size =? 0 then b
  else
    let main := buddy_main b in
    if (ptr <? main) || (ptr + requested_size >? main + memory_size b) then b
    else
      let off := u64 (ptr - main) in
      let pos := deepest_position_for_offset b off in
      set_tree b (reservation_loop (Z.to_nat (requested_size / alignment b + 1)) state
                    (alignment b) (tree b) pos requested_size).

Definition buddy_reserve_range (b : buddy) (ptr requested_size : Z) : buddy :=
  buddy_toggle_range_reservation b ptr requested_size true.

Definition buddy_unsafe_release_range (b : buddy) (ptr requested_size : Z) : buddy :=
  buddy_toggle_range_reservation b ptr requested_size false.

(** ** Queries *)

(** The inner loop of [buddy_is_free]: climb while the parent's interval is
    inside the query range. *)
Fixpoint is_free_climb (fuel : nat) (t : buddy_tree) (query : buddy_tree_interval_t)
  (pos : buddy_tree_pos) (current parent : buddy_tree_interval_t)
  : buddy_tree_pos * buddy_tree_interval_t :=
  match fuel with
  | O => (pos, current)
  | S k =>
      if buddy_tree_interval_contains query parent then
        let pos := buddy_tree_parent pos in
        is_free_climb k t query pos parent (buddy_tree_interval t (buddy_tree_parent pos))
      else (pos, current)
  end.

Fixpoint is_free_scan (fuel : nat) (t : buddy_tree) (query : buddy_tree_interval_t)
  (pos : buddy_tree_pos) : bool :=
  match fuel with
  | O => true
  | S k =>
      if buddy_tree_valid t pos && (index pos <? index (iv_to query)) then
        let '(pos, current_test_range) :=
          is_free_climb 64 t query pos (buddy_tree_interval t pos)
            (buddy_tree_interval t (buddy_tree_parent pos)) in
        if negb (buddy_tree_is_free t pos) then false
        else is_free_scan k t query (buddy_tree_right_adjacent (iv_to current_test_range))
      else true
  end.

(** Every iteration moves the position to the right, below the query's end. *)
Definition buddy_is_free (b : buddy) (from : Z) : bool :=
  let effective_memory_size := buddy_effective_memory_size b in
  let virtual_slots := buddy_virtual_slots b in
  let to := u64 (effective_memory_size
                 - (if truthy virtual_slots then virtual_slots else 1) * alignment b) in
  let query := Interval (deepest_position_for_offset b from) (deepest_position_for_offset b to) in
  let pos := deepest_position_for_offset b from in
  is_free_scan (Z.to_nat (index (iv_to query) - index pos)) (tree b) query pos.

Definition buddy_can_shrink (b : buddy) : bool := buddy_is_free b (memory_size b / 2).

Definition buddy_is_empty (b : buddy) : bool := buddy_is_free b 0.

Definition buddy_is_full (b : buddy) : bool :=
  buddy_tree_status (tree b) buddy_tree_root =? buddy_tree_order (tree b).

Definition buddy_arena_size (b : buddy) : Z := memory_size b.

(** The do-while loop of [buddy_arena_free_size]; [None] when the fuel runs out. *)
Fixpoint free_size_loop (fuel : nat) (b : buddy) (s : buddy_tree_walk_state) (result : Z)
  : option Z :=
  match fuel with
  | O => None
  | S k =>
      let pos := current_pos s in
      let pos_status := buddy_tree_status (tree b) pos in
      let up := WalkState (starting_pos s) pos 1 (walk_done s) in
      let '(s, result) :=
        if pos_status =? u64 (buddy_tree_order (tree b) - depth pos + 1) then (up, result)
        else if pos_status =? 0 then (up, u64 (result + size_for_depth b (depth pos)))
        else (s, result) in
      let '(s, more) := buddy_tree_walk (tree b) s in
      if more then free_size_loop k b s result else Some result
  end.

Definition buddy_arena_free_size (fuel : nat) (b : buddy) : option Z :=
  free_size_loop fuel b buddy_tree_walk_state_root 0.

(** [buddy_walk] calls [fp] on every allocated slot and stops at the first
    non-null answer; [fp] threads the state [ctx] points to. *)
Section Walk.
Context {S : Type} (fp : S -> Z -> Z -> S * Z).

Fixpoint walk_slots (fuel : nat) (b : buddy) (s : buddy_tree_walk_state) (ctx : S)
  : option (S * Z) :=
  match fuel with
  | O => None
  | Datatypes.S k =>
      let pos := current_pos s in
      let pos_status := buddy_tree_status (tree b) pos in
      let next (s : buddy_tree_walk_state) (ctx : S) :=
        let '(s, more) := buddy_tree_walk (tree b) s in
        if more then walk_slots k b s ctx else Some (ctx, NULL) in
      if pos_status =? 0 then next (WalkState (starting_pos s) pos 1 (walk_done s)) ctx
      else if negb (pos_status =? u64 (buddy_tree_order (tree b) - depth pos + 1)) then next s ctx
      else
        let left := buddy_tree_left_child pos in
        if buddy_tree_valid (tree b) left && truthy (buddy_tree_status (tree b) left)
        then next s ctx
        else
          let pos_size := Z.shiftr (buddy_effective_memory_size b) (depth pos - 1) in
          let addr := address_for_position b pos in
          if u64 (addr - buddy_main b) + pos_size >? memory_size b then Some (ctx, NULL)
          else
            let '(ctx, result) := fp ctx addr pos_size in
            if truthy result then Some (ctx, result) else next s ctx
  end.

Definition buddy_walk (fuel : nat) (b : buddy) (ctx : S) : option (S * Z) :=
  walk_slots fuel b buddy_tree_walk_state_root ctx.

End Walk.

(** ** Resizing *)

Definition buddy_resize_standard (b : buddy) (new_memory_size : Z) : option buddy :=
  let new_memory_size :=
    if truthy (new_memory_size mod alignment b)
    then new_memory_size - new_memory_size mod alignment b else new_memory_size in
  if negb (buddy_is_free b new_memory_size) then None
  else
    let b := buddy_toggle_virtual_slots b false in
    let new_buddy_tree_order := buddy_tree_order_for_memory new_memory_size (alignment b) in
    let b := set_tree b (buddy_tree_resize (tree b) (u8 new_buddy_tree_order)) in
    let b := Buddy new_memory_size (alignment b) (arena b) (buddy_flags b) (tree b) (self b) in
    Some (buddy_toggle_virtual_slots b true).

(** The relocated allocator is the same structure at its new address. *)
Definition buddy_resize_embedded (b : buddy) (new_memory_size : Z) : option buddy :=
  let check_result := buddy_embed_offset new_memory_size (alignment b) in
  if negb (can_fit check_result) then None
  else
    match buddy_resize_standard b (offset check_result) with
    | None => None
    | Some r =>
        let main := buddy_main r in
        let buddy_destination := buddy_main r + offset check_result in
        Some (Buddy (memory_size r) (alignment r) (buddy_destination - main) (buddy_flags r)
                (tree r) buddy_destination)
    end.

Definition buddy_resize (b : buddy) (new_memory_size : Z) : option buddy :=
  if new_memory_size =? memory_size b then Some b
  else if buddy_relative_mode b then buddy_resize_embedded b new_memory_size
  else buddy_resize_standard b new_memory_size.
