(* ===== verification/BuddyAllocSpec.v ===== *)
(** Correctness of the buddy allocator: an allocator is well-formed when its
    sizes agree with its tree, its tree satisfies the status invariant, and the
    slots beyond the end of the memory are permanently in use.  Allocation and
    release are then insertion into and removal from a set of disjoint,
    size-aligned blocks inside the managed memory. *)
From Stdlib Require Import ZArith Lia Bool.
From stdpp Require Import base list gmap numbers.
From S2P Require Import Prelude Bitset BuddyTree BuddyInv PowerOfTwo BuddyAlloc.
Local Open Scope Z_scope.

(** The sizes: the alignment is [2^a] and the memory is [k] such slots. *)
Record geometry (b : buddy) (a k : Z) : Prop := {
  g_a : 0 <= a;
  g_k : 1 <= k;
  g_align : alignment b = 2 ^ a;
  g_size : memory_size b = k * 2 ^ a;
  g_order : order (tree b) = Z.log2_up k + 1;
  g_small : memory_size b <= 2 ^ 62;
  g_main : 0 < buddy_main b }.

(** The leaf that holds slot [x], counted from the start of the memory. *)
Definition slot_leaf (b : buddy) (x : Z) : Z := 2 ^ (order (tree b) - 1) + x.

Record buddy_wf (b : buddy) (a k : Z) : Prop := {
  bw_geometry : geometry b a k;
  bw_inv : tree_inv (tree b);
  bw_virtual : forall x, k <= x -> slot_leaf b x < 2 ^ order (tree b) ->
    exists i, allocated (tree b) i /\
      leaves_from (order (tree b)) i <= slot_leaf b x < leaves_to (order (tree b)) i;
  bw_straddle : forall i, allocated (tree b) i ->
    leaves_to (order (tree b)) i <= slot_leaf b k \/ slot_leaf b k <= leaves_from (order (tree b)) i }.

(** The bytes of a node's block, relative to the start of the memory. *)
Definition block_from (b : buddy) (i : Z) : Z :=
  (leaves_from (order (tree b)) i - 2 ^ (order (tree b) - 1)) * alignment b.
Definition block_to (b : buddy) (i : Z) : Z :=
  (leaves_to (order (tree b)) i - 2 ^ (order (tree b) - 1)) * alignment b.

(** ** Arithmetic of the geometry *)

Section Geometry.
Context (b : buddy) (a k : Z) (G : geometry b a k).
Local Abbreviation n := (order (tree b)).

Lemma geo_order : 1 <= n /\ k <= 2 ^ (n - 1) /\ 0 <= n - 1 + a <= 62.
Proof using G.
  destruct G as [Ha Hk Hal Hs Ho Hsm _]. rewrite Ho, Z.add_simpl_r.
  pose proof (Z.log2_up_nonneg k). split; [lia|]. split; [apply Z.log2_up_le_pow2; lia|].
  split; [lia|]. rewrite Z.add_comm, <- Z.log2_up_mul_pow2 by lia. rewrite <- Hs.
  apply Z.log2_up_le_pow2; [nia|done].
Qed.

Lemma geo_ceiling : ceiling_power_of_two (memory_size b) = 2 ^ (n - 1 + a).
Proof using G.
  destruct G as [Ha Hk Hal Hs Ho Hsm _].
  pose proof (pow2_pos a Ha). rewrite ceiling_power_of_two_eq by nia.
  rewrite Hs, Z.log2_up_mul_pow2, Ho by lia. f_equal; lia.
Qed.

Lemma geo_effective : buddy_effective_memory_size b = 2 ^ (n - 1 + a).
Proof using G. exact geo_ceiling. Qed.

Lemma geo_size_for_depth i : node n i -> size_for_depth b (Z.log2 i + 1) = 2 ^ (n - 1 + a - Z.log2 i).
Proof using G.
  intros Hi. apply node_log2 in Hi as [Hl _]. unfold size_for_depth.
  rewrite geo_ceiling, Z.add_simpl_r.
  pose proof (g_a _ _ _ G). rewrite Z.shiftr_div_pow2, Z.pow_sub_r by lia. done.
Qed.

Lemma leaves_from_split i :
  node n i -> leaves_from n i - 2 ^ (n - 1) = (i - 2 ^ Z.log2 i) * 2 ^ (n - 1 - Z.log2 i).
Proof using.
  intros Hi. apply node_log2 in Hi as [Hl _]. unfold leaves_from.
  rewrite Z.mul_sub_distr_r, <- Z.pow_add_r by lia. do 2 f_equal. lia.
Qed.

Lemma leaves_range i :
  node n i -> 2 ^ (n - 1) <= leaves_from n i < leaves_to n i /\ leaves_to n i <= 2 ^ n.
Proof using.
  intros Hi. pose proof (leaves_from_split i Hi) as E. apply node_log2 in Hi as [Hl Hi].
  unfold leaves_to. pose proof (pow2_pos (n - 1 - Z.log2 i) ltac:(lia)).
  unfold leaves_from in *. split; [nia|].
  replace n with (n - 1 - Z.log2 i + (Z.log2 i + 1)) at 2 by lia.
  rewrite Z.pow_add_r by lia. nia.
Qed.

Lemma geo_address i :
  n <= 31 -> node n i -> address_for_position b (pos_of i) = buddy_main b + block_from b i.
Proof using G.
  intros Hn Hi. unfold address_for_position, block_from, buddy_tree_index, buddy_tree_depth.
  change (depth (pos_of i)) with (Z.log2 i + 1).
  rewrite (index_internal_eq n), geo_size_for_depth, leaves_from_split by (done || lia).
  rewrite (g_align _ _ _ G). pose proof geo_order. pose proof (g_a _ _ _ G).
  apply node_log2 in Hi as [Hl Hi]. f_equal.
  replace (n - 1 + a - Z.log2 i) with (n - 1 - Z.log2 i + a) by lia. rewrite Z.pow_add_r by lia.
  rewrite u64_small; [lia|]. rewrite pow2_succ in Hi by lia.
  pose proof (pow2_pos (n - 1 - Z.log2 i) ltac:(lia)). pose proof (pow2_pos a ltac:(lia)).
  pose proof (pow2_mono (Z.log2 i + (n - 1 - Z.log2 i) + a) 62 ltac:(lia)) as Hm.
  rewrite !Z.pow_add_r in Hm by lia. nia.
Qed.

Lemma geo_block_size i :
  node n i -> block_to b i - block_from b i = 2 ^ (n - 1 + a - Z.log2 i).
Proof using G.
  intros Hi. apply node_log2 in Hi as [Hl _]. unfold block_to, block_from, leaves_to, leaves_from.
  rewrite (g_align _ _ _ G). pose proof (g_a _ _ _ G).
  replace (n - 1 + a - Z.log2 i) with (n - 1 - Z.log2 i + a) by lia. rewrite Z.pow_add_r by lia. lia.
Qed.

Lemma geo_deepest off :
  n <= 31 -> 0 <= off < 2 ^ (n - 1 + a) ->
  deepest_position_for_offset b off = pos_of (slot_leaf b (off / 2 ^ a)) /\
  node n (slot_leaf b (off / 2 ^ a)).
Proof using G.
  intros Hn Hoff. unfold deepest_position_for_offset, buddy_tree_leftmost_child,
    buddy_tree_leftmost_child_internal, slot_leaf. cbn [index depth].
  pose proof geo_order as (Ho & _). pose proof (g_a _ _ _ G).
  rewrite (g_align _ _ _ G), shl1u_eq by lia. rewrite Z.pow_add_r in Hoff by lia.
  pose proof (pow2_pos a ltac:(lia)). pose proof (pow2_pos (n - 1) ltac:(lia)).
  assert (0 <= off / 2 ^ a < 2 ^ (n - 1))
    by (split; [apply Z.div_pos; lia|apply Z.div_lt_upper_bound; nia]).
  assert (Hp : 2 ^ n = 2 * 2 ^ (n - 1)) by (rewrite <- pow2_succ by lia; f_equal; lia).
  pose proof (pow2_mono n 31 ltac:(lia)). rewrite u64_small by lia.
  set (x := off / 2 ^ a) in *. clearbody x. unfold pos_of, node. split; [|lia]. f_equal.
  assert (Z.log2 (2 ^ (n - 1) + x) = n - 1); [|lia].
  apply Z.log2_unique'  with (c := x); lia.
Qed.

End Geometry.

(** ** Depth of a request *)

Lemma depth_loop_spec fuel e req d :
  1 <= req <= 2 ^ e -> 0 <= e < Z.of_nat fuel ->
  exists j, 0 <= j <= e /\ depth_for_size_loop fuel (2 ^ e) req d = d + j /\
            req <= 2 ^ (e - j) < 2 * req.
Proof.
  revert e d. induction fuel as [|fuel IH]; intros e d Hreq He; [lia|].
  cbn [depth_for_size_loop]. unfold truthy. rewrite !Z.shiftr_div_pow2 by lia.
  change (2 ^ 1) with 2. rewrite Z.div_div by lia.
  destruct (Z.eqb_spec (2 ^ e / (req * 2)) 0) as [E|E]; cbn [negb].
  - exists 0. rewrite Z.add_0_r, Z.sub_0_r. split_and!; try lia.
    apply Z.div_small_iff in E; lia.
  - assert (Hge : req * 2 <= 2 ^ e).
    { destruct (Z.lt_ge_cases (2 ^ e) (req * 2)); [|done]. destruct E. apply Z.div_small. lia. }
    assert (1 <= e) by (destruct (Z.eq_dec e 0) as [->|]; [simpl in *; lia|lia]).
    assert (Hp : 2 ^ e = 2 * 2 ^ (e - 1)) by (rewrite <- pow2_succ by lia; f_equal; lia).
    replace (2 ^ e / 2) with (2 ^ (e - 1)) by (rewrite Hp, Z.mul_comm, Z.div_mul; lia).
    destruct (IH (e - 1) (d + 1)) as (j & Hj & -> & Hr); [lia..|].
    exists (j + 1). replace (e - (j + 1)) with (e - 1 - j) by lia. split_and!; lia.
Qed.

(** The size a request is rounded up to before it is placed. *)
Definition padded_request (b : buddy) (req : Z) : Z :=
  Z.max (if req =? 0 then 1 else req) (alignment b).

Lemma depth_for_size_spec b a k req :
  geometry b a k -> order (tree b) <= 31 -> 1 <= req <= memory_size b ->
  let d := depth_for_size b req in
  1 <= d <= order (tree b) /\
  Z.max req (alignment b) <= 2 ^ (order (tree b) - 1 + a - (d - 1)) < 2 * Z.max req (alignment b).
Proof.
  intros G Hn Hreq. cbn zeta. unfold depth_for_size.
  pose proof (geo_order b a k G) as (Ho & Hk & He). rewrite (geo_effective b a k G).
  pose proof (g_a _ _ _ G). pose proof (g_align _ _ _ G) as Hal.
  pose proof (pow2_pos a ltac:(lia)). pose proof (pow2_pos (order (tree b) - 1) ltac:(lia)).
  replace (if req <? alignment b then alignment b else req) with (Z.max req (alignment b)) by (zb; lia).
  set (r := Z.max req (alignment b)) in *.
  assert (Hr : 1 <= r <= 2 ^ (order (tree b) - 1 + a)).
  { rewrite Z.pow_add_r by lia. pose proof (g_size _ _ _ G). unfold r. rewrite Hal. nia. }
  destruct (depth_loop_spec 64 (order (tree b) - 1 + a) r 1) as (j & Hj & -> & Hb); [done|lia|].
  replace (1 + j - 1) with j by lia. split; [|done].
  assert (a <= order (tree b) - 1 + a - j); [|lia].
  assert (Hle : 2 ^ a < 2 ^ (order (tree b) - 1 + a - j + 1)).
  { rewrite pow2_succ by lia. assert (2 ^ a <= r) by (unfold r; lia). lia. }
  apply Z.pow_lt_mono_r_iff in Hle; lia.
Qed.

(** ** Malloc *)

Lemma invalid_not_valid t : buddy_tree_valid t INVALID_POS = false.
Proof. done. Qed.

Lemma wf_order b a k : buddy_wf b a k -> 1 <= order (tree b) <= 31.
Proof. intros W. apply inv_order, W. Qed.

Lemma find_pos_spec b a k req :
  buddy_wf b a k -> 0 <= req ->
  (exists p, buddy_malloc_find_pos b req = pos_of p /\ free (tree b) p /\
     padded_request b req <= block_to b p - block_from b p < 2 * padded_request b req) \/
  (buddy_malloc_find_pos b req = INVALID_POS /\
   (memory_size b < padded_request b req \/
    forall p, free (tree b) p ->
      ~ (padded_request b req <= block_to b p - block_from b p < 2 * padded_request b req))).
Proof.
  intros W Hreq. pose proof (bw_geometry _ _ _ W) as G. pose proof (wf_order _ _ _ W) as Hn.
  unfold buddy_malloc_find_pos, padded_request. set (r := if req =? 0 then 1 else req).
  assert (Hr : 1 <= r) by (unfold r; zb; lia). rewrite Z.gtb_ltb.
  destruct (Z.ltb_spec (memory_size b) r) as [Hlt|Hge]; [right; split; [done|lia]|].
  destruct (depth_for_size_spec b a k r G ltac:(lia) ltac:(lia)) as [Hd Hb].
  rewrite u8_small by lia.
  set (d := depth_for_size b r) in *.
  destruct (find_free_spec (tree b) d (bw_inv _ _ _ W) Hd) as [(p & -> & Hf & Hl)|[-> Hno]].
  - left. exists p. pose proof Hf as (Hp & _). rewrite valid_pos_of by (apply (bw_inv _ _ _ W) || done).
    split_and!; [done|done|..]; rewrite (geo_block_size b a k G p Hp);
      replace (d - 1) with (Z.log2 p) in Hb by lia; lia.
  - right. split; [done|right]. intros p Hf Hsz. apply (Hno p Hf).
    pose proof Hf as (Hp & _). rewrite (geo_block_size b a k G p Hp) in Hsz.
    apply node_log2 in Hp as [Hpl _]. pose proof (g_a _ _ _ G).
    destruct (Z.lt_trichotomy (Z.log2 p + 1) d) as [Hc|[Hc|Hc]]; [|done|]; exfalso.
    + pose proof (pow2_mono (order (tree b) - 1 + a - (d - 1) + 1) (order (tree b) - 1 + a - Z.log2 p) ltac:(lia)).
      rewrite pow2_succ in * by lia. lia.
    + pose proof (pow2_mono (order (tree b) - 1 + a - Z.log2 p + 1) (order (tree b) - 1 + a - (d - 1)) ltac:(lia)).
      rewrite pow2_succ in * by lia. lia.
Qed.

(** The block of a free node lies inside the memory. *)
Lemma free_in_memory b a k p :
  buddy_wf b a k -> free (tree b) p -> leaves_to (order (tree b)) p <= slot_leaf b k.
Proof.
  intros W Hf. pose proof Hf as (Hp & _). destruct (leaves_range b p Hp) as [Hr1 Hr2].
  destruct (Z.le_gt_cases (leaves_to (order (tree b)) p) (slot_leaf b k)) as [|Hgt]; [done|exfalso].
  destruct (bw_virtual _ _ _ W (leaves_to (order (tree b)) p - 1 - 2 ^ (order (tree b) - 1)))
    as (i & Hi & Hx); unfold slot_leaf in *; [lia|lia|].
  apply (free_leaves_disjoint (tree b) p i (leaves_to (order (tree b)) p - 1) (bw_inv _ _ _ W) Hf Hi).
  lia.
Qed.

Lemma mark_wf b a k p :
  buddy_wf b a k -> free (tree b) p ->
  buddy_wf (set_tree b (buddy_tree_mark (tree b) (pos_of p))) a k.
Proof.
  intros W Hf. pose proof (bw_inv _ _ _ W) as Hinv.
  pose proof (mark_order (tree b) p (proj1 Hinv) (proj1 Hf)) as Ho.
  pose proof (fun i => mark_allocated (tree b) p i Hinv Hf) as HA.
  pose proof (free_in_memory b a k p W Hf) as Hin.
  destruct W as [[Ha Hk Hal Hs Hor Hsm Hm] _ Hv Hst].
  split; unfold slot_leaf in *; cbn [tree set_tree]; rewrite ?Ho.
  - split; cbn [tree set_tree alignment memory_size]; rewrite ?Ho; done.
  - by apply mark_inv.
  - intros x Hx Hlt. destruct (Hv x Hx Hlt) as (i & Hi & Hr). exists i. rewrite HA. auto.
  - intros i Hi. apply HA in Hi as [Hi| ->]; auto.
Qed.

Lemma set_tree_block b t i :
  order t = order (tree b) ->
  block_from (set_tree b t) i = block_from b i /\ block_to (set_tree b t) i = block_to b i.
Proof. intros Ho. unfold block_from, block_to. cbn [tree set_tree alignment]. by rewrite Ho. Qed.

Lemma set_tree_address b t pos : address_for_position (set_tree b t) pos = address_for_position b pos.
Proof. done. Qed.

Lemma malloc_two_parts b req :
  buddy_malloc b req =
  if negb (buddy_tree_valid (tree b) (buddy_malloc_find_pos b req)) then (b, NULL)
  else buddy_malloc_apply b (buddy_malloc_find_pos b req).
Proof.
  unfold buddy_malloc, buddy_malloc_find_pos, buddy_malloc_apply.
  destruct ((if req =? 0 then 1 else req) >? memory_size b); [done|].
  destruct (buddy_tree_valid (tree b) (buddy_tree_find_free _ _)) eqn:E; cbn [negb]; [by rewrite E|done].
Qed.

Lemma block_range b a k p :
  buddy_wf b a k -> node (order (tree b)) p -> leaves_to (order (tree b)) p <= slot_leaf b k ->
  0 <= block_from b p /\ block_to b p <= memory_size b.
Proof.
  intros W Hp Hle. pose proof (bw_geometry _ _ _ W) as G. destruct (leaves_range b p Hp) as [Hr _].
  unfold block_from, block_to, slot_leaf in *. rewrite (g_size _ _ _ G), (g_align _ _ _ G).
  pose proof (pow2_pos a (g_a _ _ _ G)). nia.
Qed.

(** A block starts at a multiple of its own size. *)
Lemma block_aligned b a k p :
  geometry b a k -> node (order (tree b)) p ->
  block_from b p mod (block_to b p - block_from b p) = 0.
Proof.
  intros G Hp. rewrite (geo_block_size b a k G p Hp). unfold block_from.
  rewrite (leaves_from_split b p Hp), (g_align _ _ _ G). pose proof (g_a _ _ _ G).
  apply node_log2 in Hp as [Hl _].
  replace (order (tree b) - 1 + a - Z.log2 p) with (order (tree b) - 1 - Z.log2 p + a) by lia.
  rewrite Z.pow_add_r by lia. rewrite <- Z.mul_assoc. apply Z.mod_mul.
  pose proof (pow2_pos (order (tree b) - 1 - Z.log2 p) ltac:(lia)). pose proof (pow2_pos a ltac:(lia)). nia.
Qed.

(** ** Free *)

Definition on_path (q x : Z) : Prop := q = x \/ anc q x.

Lemma position_loop_spec fuel t x :
  tree_inv t -> node (order t) x -> Z.log2 x < Z.of_nat fuel ->
  (exists p, position_loop fuel t (pos_of x) = Some (pos_of p) /\ on_path p x /\ st t p <> 0 /\
     forall q, on_path q x -> anc p q -> st t q = 0) \/
  (position_loop fuel t (pos_of x) = None /\ forall q, on_path q x -> st t q = 0).
Proof.
  intros Hinv. revert x. induction fuel as [|fuel IH]; intros x Hx Hf;
    [pose proof (Z.log2_nonneg x); lia|].
  pose proof (inv_order t Hinv) as Ho. pose proof (node_small _ _ (proj2 Ho) Hx) as Hsm.
  cbn [position_loop]. fold (st t x). unfold truthy.
  destruct (Z.eqb_spec (st t x) 0) as [E|E]; cbn [negb].
  - destruct (Z.eq_dec x 1) as [->|Hne].
    + right. split; [done|]. intros q [->|Hq]; [done|by apply anc_1 in Hq].
    + assert (H2 : 2 <= x) by lia. rewrite parent_eq by lia.
      pose proof (parent_node _ _ Hx H2) as Hp. pose proof (log2_half x H2).
      rewrite valid_pos_of by (apply Hinv || done). cbn [negb].
      destruct (IH (x / 2) Hp ltac:(lia)) as [(p & -> & Hpath & Hst & Hbelow)|[-> Hall]].
      * left. exists p. split_and!; try done.
        { right. destruct Hpath as [->|Ha]; [by apply anc_parent|by apply anc_up]. }
        intros q [->|Hq] Hpq; [done|]. apply Hbelow; [by apply anc_half|done].
      * right. split; [done|]. intros q [->|Hq]; [done|]. apply Hall. by apply anc_half.
  - left. exists x. split_and!; try done; [by left|].
    intros q [->|Hq] Hxq; apply anc_range in Hxq; [lia|apply anc_range in Hq; lia].
Qed.

Lemma leaves_from_path n p :
  node n p -> on_path p (leaves_from n p).
Proof.
  intros Hp. apply node_log2 in Hp as [Hl Hp]. unfold leaves_from, on_path.
  pose proof (pow2_pos (n - 1 - Z.log2 p) ltac:(lia)). pose proof (pow2_pos (Z.log2 p) ltac:(lia)).
  destruct (Z.eq_dec (n - 1 - Z.log2 p) 0) as [E|E]; [left; rewrite E; lia|right].
  assert (Ep : p = p * 2 ^ (n - 1 - Z.log2 p) / 2 ^ (n - 1 - Z.log2 p)) by (rewrite Z.div_mul; lia).
  rewrite Ep at 1. apply anc_shift; lia.
Qed.

(** Two nodes on one path to the root are comparable. *)
Lemma on_path_total p q x : on_path p x -> on_path q x -> p = q \/ anc p q \/ anc q p.
Proof.
  intros [->|Hp] [->|Hq]; auto.
  revert q Hq. induction Hp as [x Hx|p x Hx Hp IH]; intros q Hq.
  - apply anc_half in Hq as [->|Hq]; auto.
  - apply anc_half in Hq as [->|Hq]; auto.
Qed.

Lemma block_from_leaf b a k p :
  geometry b a k -> node (order (tree b)) p ->
  block_from b p mod alignment b = 0 /\
  slot_leaf b (block_from b p / 2 ^ a) = leaves_from (order (tree b)) p.
Proof.
  intros G Hp. unfold block_from, slot_leaf. rewrite (g_align _ _ _ G).
  pose proof (pow2_pos a (g_a _ _ _ G)). rewrite Z.mod_mul, Z.div_mul by lia. lia.
Qed.

Lemma size_le_effective b a k : geometry b a k -> memory_size b <= 2 ^ (order (tree b) - 1 + a).
Proof.
  intros G. pose proof (geo_order b a k G) as (Ho & Hk & He). pose proof (g_a _ _ _ G).
  rewrite (g_size _ _ _ G), Z.pow_add_r by lia. pose proof (pow2_pos a ltac:(lia)). nia.
Qed.

Lemma position_sound b a k off :
  buddy_wf b a k -> 0 <= off < memory_size b ->
  position_for_address b (buddy_main b + off) = INVALID_POS \/
  exists p, position_for_address b (buddy_main b + off) = pos_of p /\
    node (order (tree b)) p /\ st (tree b) p <> 0 /\ off = block_from b p /\
    (leaf (order (tree b)) p \/ st (tree b) (2 * p) = 0).
Proof.
  intros W Hoff. pose proof (bw_geometry _ _ _ W) as G. pose proof (wf_order _ _ _ W) as Hn.
  pose proof (bw_inv _ _ _ W) as Hinv. pose proof (g_small _ _ _ G).
  unfold position_for_address. rewrite Z.add_simpl_l, u64_small by lia.
  destruct (truthy (off mod alignment b)); [by left|].
  pose proof (size_le_effective b a k G).
  destruct (geo_deepest b a k G off ltac:(lia) ltac:(lia)) as [-> Hx].
  set (x := slot_leaf b (off / 2 ^ a)) in *.
  destruct (position_loop_spec 64 (tree b) x Hinv Hx) as [(p & -> & Hpath & Hst & Hbelow)|[-> _]];
    [apply node_log2 in Hx; lia| |by left].
  assert (Hp : node (order (tree b)) p)
    by (destruct Hpath as [->|Ha]; [done|by apply (anc_node _ _ _ Ha Hx)]).
  rewrite (geo_address b a k G p) by (done || lia).
  destruct (Z.eqb_spec (buddy_main b + block_from b p) (buddy_main b + off)) as [E|E];
    cbn [negb]; [right|by left].
  exists p. assert (Eo : off = block_from b p) by lia. split_and!; try done.
  destruct (decide (leaf (order (tree b)) p)) as [|Hl]; [by left|right].
  destruct (inner_children _ p (proj1 Hn) Hp Hl) as [Hc _].
  assert (Hp1 : 1 <= p) by (unfold node in Hp; lia).
  assert (Hxl : x = leaves_from (order (tree b)) (2 * p)).
  { unfold x. rewrite Eo, (proj2 (block_from_leaf b a k p G Hp)). unfold leaves_from.
    apply node_log2 in Hc as [Hcl _]. rewrite Z.log2_double in * by lia.
    replace (order (tree b) - 1 - Z.log2 p) with (order (tree b) - 1 - (Z.log2 p + 1) + 1) by lia.
    rewrite pow2_succ by lia. unfold Z.succ. lia. }
  apply Hbelow; [rewrite Hxl; by apply leaves_from_path|].
  assert (E2 : 2 * p / 2 = p) by (rewrite Z.mul_comm; apply Z.div_mul; lia).
  rewrite <- E2 at 1. apply anc_parent. lia.
Qed.

Lemma position_complete b a k i :
  buddy_wf b a k -> allocated (tree b) i -> block_from b i < memory_size b ->
  position_for_address b (buddy_main b + block_from b i) = pos_of i.
Proof.
  intros W HA Hlt. pose proof (bw_geometry _ _ _ W) as G. pose proof (wf_order _ _ _ W) as Hn.
  pose proof (bw_inv _ _ _ W) as Hinv. pose proof (g_small _ _ _ G). pose proof HA as [Hi Hf].
  destruct (leaves_range b i Hi) as [Hr _].
  assert (0 <= block_from b i).
  { unfold block_from. rewrite (g_align _ _ _ G). pose proof (pow2_pos a (g_a _ _ _ G)). nia. }
  destruct (block_from_leaf b a k i G Hi) as [Hmod Hleaf].
  unfold position_for_address. rewrite Z.add_simpl_l, u64_small, Hmod by lia. cbn [truthy Z.eqb negb].
  pose proof (size_le_effective b a k G).
  destruct (geo_deepest b a k G (block_from b i) ltac:(lia) ltac:(lia)) as [-> Hx].
  rewrite Hleaf in *. pose proof (leaves_from_path _ _ Hi) as Hpi.
  set (x := leaves_from (order (tree b)) i) in *.
  pose proof (allocated_st _ _ HA) as Hne.
  destruct (position_loop_spec 64 (tree b) x Hinv Hx) as [(p & -> & Hpath & Hst & Hbelow)|[_ Hall]];
    [apply node_log2 in Hx; lia| |by destruct Hne; apply Hall].
  assert (Hp : node (order (tree b)) p)
    by (destruct Hpath as [->|Ha]; [done|by apply (anc_node _ _ _ Ha Hx)]).
  destruct (on_path_total p i x Hpath Hpi) as [->|[Ha|Ha]].
  - rewrite (geo_address b a k G i), Z.eqb_refl by (done || lia). done.
  - by destruct Hne; apply Hbelow.
  - destruct Hst. by apply (empty_below (tree b) i p Hinv (or_intror Hf)).
Qed.

Lemma set_tree_same b : set_tree b (tree b) = b.
Proof. by destruct b. Qed.

(** A full node with an empty left child is full alone. *)
Lemma full_left_empty t p :
  tree_inv t -> node (order t) p -> st t p = width (order t) p ->
  leaf (order t) p \/ st t (2 * p) = 0 -> allocated t p.
Proof.
  intros Hinv Hp Hw Hc. split; [done|]. split; [done|].
  destruct (decide (leaf (order t) p)) as [|Hl]; [by left|right].
  destruct Hc as [|H0]; [done|]. split; [done|].
  pose proof (inv_order t Hinv) as Ho. destruct (inner_children _ p (proj1 Ho) Hp Hl) as [_ Hc2].
  destruct (inv_inner t p Hinv Hp Hl) as [[_ [?|[_ ?]]]|He]; [done|done|].
  pose proof (inv_st_range t _ Hinv Hc2). pose proof (width_pos _ _ Hc2).
  assert (1 <= p) by (unfold node in Hp; lia).
  destruct (right_field (order t) p ltac:(lia)) as (_ & Hw2 & Hw3).
  unfold exact, comb in He. rewrite H0, Hw in He. cbn [Z.eqb andb] in He.
  destruct (Z.eqb_spec (st t (2 * p + 1)) 0); [done|]. lia.
Qed.

Lemma release_wf b a k i :
  buddy_wf b a k -> allocated (tree b) i -> block_from b i < memory_size b ->
  buddy_wf (set_tree b (buddy_tree_release (tree b) (pos_of i))) a k.
Proof.
  intros W HAi Hlt. pose proof (bw_inv _ _ _ W) as Hinv. pose proof HAi as [Hi Hf].
  pose proof (release_post (tree b) i (proj1 Hinv) Hi (proj1 Hf)) as (_ & Ho & _).
  pose proof (fun j => release_allocated (tree b) i j Hinv HAi) as HA.
  pose proof (release_inv (tree b) i Hinv HAi) as Hinv'.
  pose proof (bw_geometry _ _ _ W) as G.
  assert (Hbelow : leaves_to (order (tree b)) i <= slot_leaf b k).
  { destruct (bw_straddle _ _ _ W i HAi) as [|Hs]; [done|exfalso].
    unfold block_from, slot_leaf in *. rewrite (g_size _ _ _ G), (g_align _ _ _ G) in Hlt.
    pose proof (pow2_pos a (g_a _ _ _ G)). nia. }
  destruct W as [[Ha Hk Hal Hs Hor Hsm Hm] _ Hv Hst].
  split; unfold slot_leaf in *; cbn [tree set_tree]; rewrite ?Ho.
  - split; cbn [tree set_tree alignment memory_size]; rewrite ?Ho; done.
  - done.
  - intros x Hx Hx2. destruct (Hv x Hx Hx2) as (j & Hj & Hr). exists j. rewrite HA.
    split; [|done]. split; [done|]. intros ->. lia.
  - intros j Hj. apply HA in Hj as [Hj _]. auto.
Qed.

Lemma buddy_free_allocated b a k i :
  buddy_wf b a k -> allocated (tree b) i -> block_from b i < memory_size b ->
  buddy_free b (buddy_main b + block_from b i)
  = set_tree b (buddy_tree_release (tree b) (pos_of i)).
Proof.
  intros W HA Hlt. pose proof (bw_geometry _ _ _ W) as G. pose proof HA as [Hi _].
  destruct (leaves_range b i Hi) as [Hr _].
  assert (0 <= block_from b i).
  { unfold block_from. rewrite (g_align _ _ _ G). pose proof (pow2_pos a (g_a _ _ _ G)). nia. }
  pose proof (g_main _ _ _ G). unfold buddy_free, NULL.
  destruct (Z.eqb_spec (buddy_main b + block_from b i) 0); [lia|].
  rewrite Z.geb_leb. destruct (Z.ltb_spec (buddy_main b + block_from b i) (buddy_main b)); [lia|].
  destruct (Z.leb_spec (buddy_main b + memory_size b) (buddy_main b + block_from b i)); [lia|].
  cbn [orb]. rewrite (position_complete b a k i W HA Hlt).
  by rewrite valid_pos_of by (apply (bw_inv _ _ _ W) || done).
Qed.

Lemma buddy_free_other b a k ptr :
  buddy_wf b a k ->
  (forall i, allocated (tree b) i -> block_from b i < memory_size b ->
     ptr <> buddy_main b + block_from b i) ->
  buddy_free b ptr = b.
Proof.
  intros W Hno. unfold buddy_free. destruct (ptr =? NULL); [done|]. rewrite Z.geb_leb.
  destruct (Z.ltb_spec ptr (buddy_main b)); [done|].
  destruct (Z.leb_spec (buddy_main b + memory_size b) ptr); [done|]. cbn [orb].
  destruct (position_sound b a k (ptr - buddy_main b) W ltac:(lia)) as [E|(p & E & Hp & Hst & Ho & Hc)];
    replace (buddy_main b + (ptr - buddy_main b)) with ptr in E by lia; rewrite E; [done|].
  pose proof (bw_inv _ _ _ W) as Hinv. rewrite valid_pos_of by (apply Hinv || done). cbn [negb].
  destruct (Z.eq_dec (st (tree b) p) (width (order (tree b)) p)) as [Hw|Hw].
  - exfalso. apply (Hno p); [by apply full_left_empty|lia|lia].
  - rewrite release_not_full by (apply Hinv || done). apply set_tree_same.
Qed.

(** ** Initialisation *)

Lemma anc_child i : 1 <= i -> anc i (2 * i) /\ anc i (2 * i + 1).
Proof.
  intros. assert (E0 : 2 * i / 2 = i) by (Z.div_mod_to_equations; lia).
  assert (E1 : (2 * i + 1) / 2 = i) by (Z.div_mod_to_equations; lia).
  split; [rewrite <- E0 at 1|rewrite <- E1 at 1]; apply anc_parent; lia.
Qed.

Lemma anc_of_child a i c : 1 <= i -> c = 2 * i \/ c = 2 * i + 1 -> anc a c -> a = i \/ anc a i.
Proof.
  intros Hi Hc Ha. apply anc_half in Ha.
  assert (E : c / 2 = i) by (destruct Hc; subst; Z.div_mod_to_equations; lia). by rewrite E in Ha.
Qed.

Lemma free_child t i c :
  tree_inv t -> free t i -> ~ leaf (order t) i -> c = 2 * i \/ c = 2 * i + 1 -> free t c.
Proof.
  intros Hinv Hf Hl Hc. pose proof Hf as (Hi & H0 & Hanc). pose proof (inv_order t Hinv).
  destruct (inner_children (order t) i ltac:(lia) Hi Hl) as [H1 H2].
  destruct (empty_children t i Hinv Hi Hl (or_introl H0)) as [Hs1 Hs2].
  pose proof (width_pos _ _ Hi). split_and!; [by destruct Hc; subst|by destruct Hc; subst|].
  intros a Ha. apply (anc_of_child a i c) in Ha as [->|Ha]; [lia|auto|unfold node in Hi; lia|done].
Qed.

(** After the right child is marked the left one is still free. *)
Lemma set_right_left_free t t' i :
  tree_inv t -> free t i -> ~ leaf (order t) i -> tree_inv t' ->
  set_post t t' (2 * i + 1) (width (order t) (2 * i + 1)) -> free t' (2 * i).
Proof.
  intros Hinv Hf Hl Hinv' (_ & Ho & Hst & Hfrm & Hex).
  pose proof Hf as (Hi & H0 & Hanc). pose proof (inv_order t Hinv).
  assert (Hi1 : 1 <= i) by (unfold node in Hi; lia).
  destruct (inner_children (order t) i ltac:(lia) Hi Hl) as [Hc1 Hc2].
  destruct (empty_children t i Hinv Hi Hl (or_introl H0)) as [Hs1 Hs2].
  assert (Hl0 : st t' (2 * i) = 0).
  { rewrite Hfrm; [done|done| |lia]. intros Ha. apply anc_range in Ha. lia. }
  destruct (anc_child i Hi1) as [_ Ha1]. destruct (right_field (order t) i Hi1) as (_ & Hw1 & Hw2).
  pose proof (width_pos _ _ Hc2).
  assert (Hsti : st t' i = 1).
  { assert (He : exact (st t') i).
    { apply Hex; [|done]. intros a Ha. apply (free_anc_exact t (2 * i + 1)); [done| |done].
      by apply (free_child t i); auto. }
    unfold exact, comb in He. rewrite Hl0, Hst in He. cbn [Z.eqb andb] in He.
    destruct (Z.eqb_spec (width (order t) (2 * i + 1)) 0); lia. }
  split_and!; [by rewrite Ho|done|]. rewrite Ho.
  intros a Ha. apply (anc_of_child a i) in Ha as [->|Ha]; [lia| |lia|by left].
  intros Hfull. assert (Hi' : st t' i = width (order t') i).
  { apply (full_anc_full t' a i Hinv' Ha); rewrite ?Ho; try done. lia. }
  rewrite Ho in Hi'. lia.
Qed.

Lemma mark_right_left_free t i :
  tree_inv t -> free t i -> ~ leaf (order t) i ->
  free (buddy_tree_mark t (pos_of (2 * i + 1))) (2 * i).
Proof.
  intros Hinv Hf Hl.
  assert (Hfr : free t (2 * i + 1)) by (apply (free_child t i); auto).
  apply (set_right_left_free t); [done..| |].
  - by apply mark_inv.
  - apply mark_post; [apply Hinv|apply Hfr].
Qed.

Lemma leaves_children n i :
  1 <= i -> Z.log2 i + 1 <= n - 1 ->
  leaves_to n (2 * i + 1) = leaves_to n i /\ leaves_from n (2 * i) = leaves_from n i /\
  leaves_to n (2 * i) = leaves_from n (2 * i + 1) /\
  leaves_to n i - leaves_from n (2 * i + 1) = 2 ^ (n - 1 - (Z.log2 i + 1)).
Proof.
  intros Hi Hl. unfold leaves_to, leaves_from. rewrite Z.log2_succ_double, Z.log2_double by lia.
  replace (n - 1 - Z.log2 i) with (n - 1 - (Z.log2 i + 1) + 1) by lia.
  rewrite pow2_succ by (pose proof (Z.log2_nonneg i); lia). unfold Z.succ. lia.
Qed.

(** What marking the last [delta] slots below node [i] achieves. *)
Definition masked (t t' : buddy_tree) (lo hi : Z) : Prop :=
  tree_inv t' /\ order t' = order t /\
  (forall j, allocated t j -> allocated t' j) /\
  (forall j, allocated t' j -> allocated t j \/ (lo <= leaves_from (order t) j /\ leaves_to (order t) j <= hi)) /\
  (forall x, lo <= x < hi -> exists j, allocated t' j /\ leaves_from (order t) j <= x < leaves_to (order t) j).

Lemma masked_mark t i :
  tree_inv t -> free t i ->
  masked t (buddy_tree_mark t (pos_of i)) (leaves_from (order t) i) (leaves_to (order t) i).
Proof.
  intros Hinv Hf. pose proof (fun j => mark_allocated t i j Hinv Hf) as HA.
  split_and!; [by apply mark_inv|apply mark_order; [apply Hinv|apply Hf]|..].
  - intros j Hj. apply HA. by left.
  - intros j Hj. apply HA in Hj as [Hj| ->]; [by left|right; lia].
  - intros x Hx. exists i. split; [|done]. apply HA. by right.
Qed.

Lemma masked_trans t t1 t2 lo mid hi :
  masked t t1 mid hi -> masked t1 t2 lo mid -> lo <= mid <= hi -> masked t t2 lo hi.
Proof.
  intros (Hi1 & Ho1 & Hk1 & Hn1 & Hc1) (Hi2 & Ho2 & Hk2 & Hn2 & Hc2) Hle.
  rewrite Ho1 in *. split_and!; [done|congruence|auto|..].
  - intros j Hj. destruct (Hn2 j Hj) as [Hj1|?]; [destruct (Hn1 j Hj1) as [|?]|]; [by left|right; lia..].
  - intros x Hx. destruct (Z.lt_ge_cases x mid) as [Hlt|Hge]; [apply Hc2; lia|].
    destruct (Hc1 x ltac:(lia)) as (j & Hj & Hr). eauto.
Qed.

Lemma toggle_virtual_spec fuel b a k t i d :
  geometry b a k -> order t = order (tree b) -> tree_inv t -> free t i ->
  1 <= d <= 2 ^ (order t - 1 - Z.log2 i) -> order t - Z.log2 i <= Z.of_nat fuel ->
  masked t (toggle_virtual_loop fuel b true t (pos_of i) (d * 2 ^ a))
    (leaves_to (order t) i - d) (leaves_to (order t) i).
Proof.
  intros G. pose proof (g_a _ _ _ G) as Ha. pose proof (pow2_pos a Ha) as Hap.
  revert t i d. induction fuel as [|fuel IH]; intros t i d Ho Hinv Hf Hd Hfuel.
  { pose proof (node_log2 _ _ (proj1 Hf)). lia. }
  pose proof Hf as (Hi & _). pose proof (node_log2 _ _ Hi) as [Hl _].
  pose proof (inv_order t Hinv) as Hon. pose proof (node_small _ _ (proj2 Hon) Hi) as Hsm.
  cbn [toggle_virtual_loop]. change (buddy_tree_depth (pos_of i)) with (Z.log2 i + 1).
  rewrite (geo_size_for_depth b a k G i) by (by rewrite <- Ho). rewrite <- Ho.
  replace (order t - 1 + a - Z.log2 i) with (order t - 1 - Z.log2 i + a) by lia.
  rewrite Z.pow_add_r by lia.
  destruct (Z.eqb_spec (d * 2 ^ a) 0); [nia|].
  destruct (Z.eqb_spec (d * 2 ^ a) (2 ^ (order t - 1 - Z.log2 i) * 2 ^ a)) as [E|E].
  { assert (Ed : d = 2 ^ (order t - 1 - Z.log2 i)) by nia.
    replace (leaves_to (order t) i - d) with (leaves_from (order t) i)
      by (unfold leaves_to, leaves_from; lia). by apply masked_mark. }
  assert (Hll : Z.log2 i + 1 <= order t - 1).
  { destruct (Z.eq_dec (order t - 1) (Z.log2 i)) as [El|]; [|lia]. rewrite El, Z.sub_diag in *. simpl in *. nia. }
  assert (Hnl : ~ leaf (order t) i).
  { intros Hlf. pose proof (leaf_width _ _ Hi Hlf) as Hw. unfold width in Hw. lia. }
  destruct (leaves_children (order t) i ltac:(lia) Hll) as (HT & HF & HM & HS).
  assert (Hhalf : 2 ^ (order t - 1 - Z.log2 i) = 2 * 2 ^ (order t - 1 - (Z.log2 i + 1)))
    by (rewrite <- pow2_succ by lia; f_equal; lia).
  set (h := 2 ^ (order t - 1 - (Z.log2 i + 1))) in *. rewrite Hhalf in *.
  replace (2 * h * 2 ^ a / 2) with (h * 2 ^ a)
    by (replace (2 * h * 2 ^ a) with (h * 2 ^ a * 2) by lia; rewrite Z.div_mul; lia).
  rewrite right_child_eq, left_child_eq by lia. unfold toggle.
  destruct (Z.leb_spec (d * 2 ^ a) (h * 2 ^ a)) as [Hle|Hgt].
  - rewrite <- HT. apply IH; try done; rewrite ?Z.log2_succ_double by lia;
      [by apply (free_child t i); auto|fold h; nia|lia].
  - pose proof (free_child t i (2 * i + 1) Hinv Hf Hnl (or_intror eq_refl)) as Hfr.
    pose proof (masked_mark t (2 * i + 1) Hinv Hfr) as Hm1. rewrite HT in Hm1.
    pose proof (mark_right_left_free t i Hinv Hf Hnl) as Hfl.
    set (t1 := buddy_tree_mark t (pos_of (2 * i + 1))) in *. clearbody t1.
    pose proof Hm1 as (Hinv1 & Ho1 & _).
    apply (masked_trans t t1 _ _ (leaves_from (order t) (2 * i + 1))); [done| |nia].
    replace (d * 2 ^ a - h * 2 ^ a) with ((d - h) * 2 ^ a) by lia.
    replace (leaves_to (order t) i - d) with (leaves_to (order t1) (2 * i) - (d - h))
      by (rewrite Ho1, HM; lia).
    rewrite <- HM, <- Ho1.
    apply IH; rewrite ?Ho1, ?Z.log2_double by lia; try done; [fold h; nia|lia].
Qed.

Lemma order_for_memory_eq ms a :
  0 <= a -> 2 ^ a <= ms <= 2 ^ 62 ->
  buddy_tree_order_for_memory ms (2 ^ a) = Z.log2_up (ms / 2 ^ a) + 1.
Proof.
  intros Ha Hms. unfold buddy_tree_order_for_memory. pose proof (pow2_pos a Ha).
  assert (1 <= ms / 2 ^ a) by (apply Z.div_le_lower_bound; lia).
  assert (ms / 2 ^ a <= 2 ^ 62) by (apply Z.div_le_upper_bound; nia).
  rewrite ceiling_power_of_two_eq by lia.
  pose proof (Z.log2_up_nonneg (ms / 2 ^ a)).
  assert (Z.log2_up (ms / 2 ^ a) <= 62) by (apply Z.log2_up_le_pow2; lia).
  pose proof (pow2_pos (Z.log2_up (ms / 2 ^ a)) ltac:(lia)).
  pose proof (pow2_mono (Z.log2_up (ms / 2 ^ a)) 62 ltac:(lia)).
  rewrite highest_bit_position_eq by lia. unfold bit_length.
  destruct (Z.eqb_spec (2 ^ Z.log2_up (ms / 2 ^ a)) 0); [lia|].
  by rewrite Z.log2_pow2 by lia.
Qed.

Lemma virtual_slots_wf b a k :
  geometry b a k -> tree_inv (tree b) -> (forall i, ~ allocated (tree b) i) ->
  (forall i, node (order (tree b)) i -> free (tree b) i) ->
  buddy_wf (buddy_toggle_virtual_slots b true) a k /\
  forall i, allocated (tree (buddy_toggle_virtual_slots b true)) i ->
    memory_size b <= block_from (buddy_toggle_virtual_slots b true) i.
Proof.
  intros G Hinv Hna Hfree. unfold buddy_toggle_virtual_slots. rewrite (geo_effective b a k G).
  pose proof (geo_order b a k G) as (Ho & Hk & He). pose proof (g_a _ _ _ G) as Ha.
  pose proof (pow2_pos a Ha). pose proof (g_size _ _ _ G) as Hs. set (n := order (tree b)) in *.
  rewrite Hs, Z.pow_add_r by lia.
  assert (Hp : 2 ^ n = 2 * 2 ^ (n - 1)) by (rewrite <- pow2_succ by lia; f_equal; lia).
  destruct (Z.eqb_spec (2 ^ (n - 1) * 2 ^ a) (k * 2 ^ a)) as [E|E].
  { split; [|intros i Hi; by apply Hna in Hi].
    split; try done; [|intros i Hi; by apply Hna in Hi].
    unfold slot_leaf. fold n. intros x Hx Hlt. exfalso. nia. }
  assert (Hklt : k < 2 ^ (n - 1)) by nia.
  assert (Hk3 : 2 ^ (n - 2) < k /\ 2 <= n).
  { pose proof (g_order _ _ _ G) as Hor. fold n in Hor. pose proof (g_k _ _ _ G).
    destruct (Z.eq_dec k 1) as [->|]; [change (Z.log2_up 1) with 0 in Hor; rewrite Hor in Hklt; simpl in Hklt; lia|].
    pose proof (Z.log2_up_spec k ltac:(lia)) as [Hlo _].
    pose proof (Z.log2_up_pos k ltac:(lia)).
    replace (Z.pred (Z.log2_up k)) with (n - 2) in Hlo by lia. lia. }
  destruct Hk3 as [Hk3 Hn2].
  assert (Hp2 : 2 ^ (n - 1) = 2 * 2 ^ (n - 2)) by (rewrite <- pow2_succ by lia; f_equal; lia).
  assert (H3 : node n 3) by (unfold node; pose proof (pow2_mono 2 n ltac:(lia)); lia).
  change buddy_tree_root with (pos_of 1). rewrite right_child_eq by lia. change (2 * 1 + 1) with 3.
  rewrite <- Z.mul_sub_distr_r.
  pose proof (toggle_virtual_spec 64 b a k (tree b) 3 (2 ^ (n - 1) - k) G eq_refl Hinv (Hfree 3 H3)) as Hm.
  change (Z.log2 3) with 1 in Hm. fold n in Hm.
  replace (n - 1 - 1) with (n - 2) in Hm by lia. pose proof (inv_order _ Hinv). fold n in H0.
  specialize (Hm ltac:(lia) ltac:(lia)).
  set (t' := toggle_virtual_loop _ _ _ _ _ _) in *. clearbody t'.
  destruct Hm as (Hinv' & Ho' & _ & Hnew & Hcov). fold n in Ho', Hnew, Hcov.
  assert (HT3 : leaves_to n 3 = 2 ^ n).
  { unfold leaves_to. change (Z.log2 3) with 1. replace (n - 1 - 1) with (n - 2) by lia. lia. }
  rewrite HT3 in *.
  assert (Hin : forall i, allocated t' i -> 2 ^ (n - 1) + k <= leaves_from n i).
  { intros i Hi. destruct (Hnew i Hi) as [Hi'|?]; [by apply Hna in Hi'|lia]. }
  split; [split|].
  - destruct G as [? ? Hal ? Hor ? Hmain]. split; cbn [tree set_tree alignment memory_size]; try done.
    by rewrite Ho'.
  - done.
  - unfold slot_leaf. cbn [tree set_tree]. rewrite Ho'. intros x Hx Hlt. apply Hcov. lia.
  - unfold slot_leaf. cbn [tree set_tree]. rewrite Ho'. intros i Hi. right. by apply Hin.
  - unfold block_from. cbn [tree set_tree alignment]. rewrite Ho', (g_align _ _ _ G).
    intros i Hi. specialize (Hin i Hi). nia.
Qed.

Lemma buddy_sizeof_nonzero ms a :
  0 <= a <= 62 -> 2 ^ a <= ms <= 2 ^ 62 -> ms / 2 ^ a <= 2 ^ 30 ->
  is_valid_alignment (2 ^ a) = true /\ buddy_sizeof_alignment ms (2 ^ a) <> 0 /\
  1 <= Z.log2_up (ms / 2 ^ a) + 1 <= 31.
Proof.
  intros Ha Hms Hk. pose proof (pow2_pos a ltac:(lia)). pose proof (pow2_mono a 62 ltac:(lia)).
  assert (Hva : is_valid_alignment (2 ^ a) = true).
  { unfold is_valid_alignment. rewrite ceiling_power_of_two_eq, Z.log2_up_pow2 by lia. apply Z.eqb_refl. }
  assert (1 <= ms / 2 ^ a) by (apply Z.div_le_lower_bound; lia).
  assert (Ho : 1 <= Z.log2_up (ms / 2 ^ a) + 1 <= 31).
  { pose proof (Z.log2_up_nonneg (ms / 2 ^ a)).
    assert (Z.log2_up (ms / 2 ^ a) <= 30) by (apply Z.log2_up_le_pow2; lia). lia. }
  split_and!; try done; try lia. unfold buddy_sizeof_alignment. rewrite Hva. cbn [negb].
  destruct (Z.ltb_spec ms (2 ^ a)); [lia|]. rewrite order_for_memory_eq, u8_small by lia.
  set (n := Z.log2_up (ms / 2 ^ a) + 1) in *. unfold buddy_tree_sizeof.
  pose proof (padded_bitset_size_ge n ltac:(lia)).
  pose proof (row_start_range n 0 ltac:(lia)).
  pose proof (Z.div_le_mono (-1) (row_start n 0 - 1) 8 ltac:(lia) ltac:(lia)) as Hm.
  change (-1 / 8) with (-1) in Hm.
  unfold sizeof_struct_buddy, sizeof_struct_buddy_tree, sizeof_size_t.
  rewrite (u64_small (24 + _ + _)), u64_small by lia. lia.
Qed.

Lemma buddy_init_wf at_ main ms a :
  0 <= a <= 62 -> 2 ^ a <= ms <= 2 ^ 62 -> ms / 2 ^ a <= 2 ^ 30 ->
  at_ <> NULL -> 0 < main -> at_ <> main -> at_ mod 8 = 0 -> main mod 8 = 0 ->
  exists b, buddy_init_alignment at_ main ms (2 ^ a) = Some b /\ buddy_wf b a (ms / 2 ^ a) /\
    buddy_main b = main /\ forall i, allocated (tree b) i -> memory_size b <= block_from b i.
Proof.
  intros Ha Hms Hk Hat Hmain Hne Hal1 Hal2. unfold buddy_init_alignment, NULL in *.
  pose proof (pow2_pos a ltac:(lia)). 
  pose proof (Z.div_mod ms (2 ^ a) ltac:(lia)) as Hdm.
  pose proof (Z.mod_pos_bound ms (2 ^ a) ltac:(lia)) as Hmb.
  assert (1 <= ms / 2 ^ a) by (apply Z.div_le_lower_bound; lia).
  set (k := ms / 2 ^ a) in *.
  assert (Hk2 : k * 2 ^ a / 2 ^ a = k) by (apply Z.div_mul; lia).
  destruct (buddy_sizeof_nonzero (k * 2 ^ a) a) as (Hva & Hnz & Hon); [lia|nia|by rewrite Hk2|].
  rewrite Hk2 in Hon.
  destruct (Z.eqb_spec at_ 0); [lia|]. destruct (Z.eqb_spec main 0); [lia|].
  destruct (Z.eqb_spec at_ main); [lia|]. rewrite Hva. unfold alignof_struct_buddy, sizeof_size_t.
  rewrite Hal1, Hal2. cbn [truthy Z.eqb negb].
  replace (if truthy (ms mod 2 ^ a) then ms - ms mod 2 ^ a else ms) with (k * 2 ^ a)
    by (unfold truthy; destruct (Z.eqb_spec (ms mod 2 ^ a) 0); cbn [negb]; lia).
  destruct (Z.eqb_spec (buddy_sizeof_alignment (k * 2 ^ a) (2 ^ a)) 0); [done|].
  rewrite order_for_memory_eq, Hk2, u8_small by nia.
  set (b0 := Buddy _ _ _ _ _ _).
  assert (G : geometry b0 a k).
  { split; cbn; try done; lia. }
  pose proof (virtual_slots_wf b0 a k G) as Hv.
  eexists. split; [done|].
  destruct Hv as [Hwf Hall].
  - by apply init_inv.
  - intros i. by apply init_not_allocated.
  - intros i. by apply init_free.
  - split_and!; [done| |].
    + unfold buddy_toggle_virtual_slots. by destruct (_ =? _).
    + intros i Hi. replace (memory_size (buddy_toggle_virtual_slots b0 true)) with (memory_size b0)
        by (unfold buddy_toggle_virtual_slots; by destruct (_ =? _)). by apply Hall.
Qed.

(** Freeing the address that [buddy_malloc_apply] computes for a free node. *)
Lemma free_applied b a k p :
  buddy_wf b a k -> free (tree b) p -> 0 < block_to b p - block_from b p ->
  let r := buddy_malloc_apply b (pos_of p) in
  let t2 := buddy_tree_release (buddy_tree_mark (tree b) (pos_of p)) (pos_of p) in
  buddy_free (fst r) (snd r) = set_tree b t2 /\ buddy_wf (set_tree b t2) a k.
Proof.
  intros W Hf Hsz. cbn zeta. pose proof (bw_inv _ _ _ W) as Hinv.
  pose proof (bw_geometry _ _ _ W) as G. pose proof (wf_order _ _ _ W) as Hn.
  pose proof (free_in_memory b a k p W Hf) as Hle.
  destruct (block_range b a k p W (proj1 Hf) Hle) as [Hr1 Hr2].
  pose proof (mark_wf b a k p W Hf) as W1.
  pose proof (mark_order (tree b) p (proj1 Hinv) (proj1 Hf)) as Ho.
  assert (HA : allocated (buddy_tree_mark (tree b) (pos_of p)) p) by (apply mark_allocated; auto).
  unfold buddy_malloc_apply. cbn [fst snd].
  rewrite set_tree_address, (geo_address b a k G p) by (apply Hf || lia).
  generalize dependent (buddy_tree_mark (tree b) (pos_of p)). intros t1 W1 Ho HA.
  destruct (set_tree_block b t1 p Ho) as [Eb _].
  assert (Hlt : block_from (set_tree b t1) p < memory_size (set_tree b t1))
    by (rewrite Eb; cbn [memory_size set_tree]; lia).
  pose proof (buddy_free_allocated _ a k p W1 HA Hlt) as E. rewrite Eb in E.
  pose proof (release_wf _ a k p W1 HA Hlt) as W2. split; [exact E|exact W2].
Qed.

(** The allocator of the examples: 5 slots of 64 bytes, hence 3 virtual slots. *)
Lemma example_wf :
  exists b, buddy_init 4096 65536 320 = Some b /\ buddy_wf b 6 5 /\ buddy_main b = 65536 /\
    forall i, allocated (tree b) i -> memory_size b <= block_from b i.
Proof.
  apply (buddy_init_wf 4096 65536 320 6); unfold NULL; try lia; reflexivity || discriminate.
Qed.

(** C12. [buddy_malloc] on a well-formed allocator either returns null, leaves
    the allocator as it is, and no free block of the right size existed, or
    returns the address of a block that was free: at least as large as the
    request and less than twice its padded size, aligned to its own size,
    inside the managed memory and disjoint from every block in use; the
    allocator stays well-formed and exactly that block is added. *)
Theorem buddy_malloc_correct (b : buddy) (a k req : Z) :
  buddy_wf b a k -> 0 <= req ->
  let '(b', r) := buddy_malloc b req in
  (r = NULL /\ b' = b /\
   (memory_size b < padded_request b req \/
    forall p, free (tree b) p ->
      ~ (padded_request b req <= block_to b p - block_from b p < 2 * padded_request b req))) \/
  (exists p, r = buddy_main b + block_from b p /\ buddy_wf b' a k /\
     (forall i, allocated (tree b') i <-> allocated (tree b) i \/ i = p) /\
     padded_request b req <= block_to b p - block_from b p < 2 * padded_request b req /\
     block_from b p mod (block_to b p - block_from b p) = 0 /\
     0 <= block_from b p /\ block_to b p <= memory_size b /\
     (forall i x, allocated (tree b) i ->
        ~ (leaves_from (order (tree b)) p <= x < leaves_to (order (tree b)) p /\
           leaves_from (order (tree b)) i <= x < leaves_to (order (tree b)) i))).
Proof.
  intros W Hreq. rewrite malloc_two_parts. pose proof (bw_inv _ _ _ W) as Hinv.
  pose proof (bw_geometry _ _ _ W) as G. pose proof (wf_order _ _ _ W) as Hn.
  destruct (find_pos_spec b a k req W Hreq) as [(p & -> & Hf & Hsz)|[-> Hno]].
  - rewrite valid_pos_of by (apply Hinv || apply Hf). cbn [negb]. right. exists p.
    pose proof (free_in_memory b a k p W Hf) as Hle.
    destruct (block_range b a k p W (proj1 Hf) Hle) as [Hr1 Hr2]. split_and!; try done; try lia.
    + rewrite set_tree_address. apply (geo_address b a k G p); [lia|apply Hf].
    + by apply mark_wf.
    + intros i. by apply mark_allocated.
    + apply (block_aligned b a k p G). apply Hf.
    + intros i x Hi. by apply free_leaves_disjoint.
  - rewrite invalid_not_valid. cbn [negb]. left. done.
Qed.

Lemma buddy_malloc_correct_witness :
  exists b, buddy_init 4096 65536 320 = Some b /\ buddy_wf b 6 5 /\
    exists b' p, buddy_malloc b 100 = (b', buddy_main b + block_from b p) /\ buddy_wf b' 6 5.
Proof.
  destruct example_wf as (b & E & W & _ & _). exists b. split; [exact E|split; [exact W|]].
  assert (Hnn : snd (buddy_malloc b 100) <> NULL)
    by (vm_compute in E; inversion E; subst b; vm_compute; discriminate).
  pose proof (buddy_malloc_correct b 6 5 100 W ltac:(lia)) as H.
  destruct (buddy_malloc b 100) as [b' r] eqn:Em.
  destruct H as [(Hr & _)|(p & Hr & W' & _)].
  - destruct (Hnn Hr).
  - exists b', p. rewrite Hr. split; [reflexivity|exact W'].
Defined.

(** C25. [buddy_free] of the address of a block in use releases exactly that
    block and keeps the allocator well-formed; for every other pointer (null,
    outside the memory, unaligned, inside a block, or already free) it changes
    nothing at all. *)
Theorem buddy_free_correct (b : buddy) (a k : Z) :
  buddy_wf b a k ->
  (forall i, allocated (tree b) i -> block_from b i < memory_size b ->
     let b' := buddy_free b (buddy_main b + block_from b i) in
     buddy_wf b' a k /\ forall j, allocated (tree b') j <-> allocated (tree b) j /\ j <> i) /\
  (forall ptr,
     (forall i, allocated (tree b) i -> block_from b i < memory_size b ->
        ptr <> buddy_main b + block_from b i) -> buddy_free b ptr = b).
Proof.
  intros W. split.
  - intros i Hi Hlt. cbn zeta. rewrite (buddy_free_allocated b a k i W Hi Hlt).
    split; [by apply release_wf|]. intros j. apply release_allocated; [apply W|done].
  - intros ptr Hno. by apply (buddy_free_other b a k).
Qed.

Lemma buddy_free_correct_witness :
  exists b, buddy_init 4096 65536 320 = Some b /\ buddy_wf b 6 5 /\ buddy_free b 65600 = b.
Proof.
  destruct example_wf as (b & E & W & Hm & Hno). exists b. split; [exact E|split; [exact W|]].
  apply (proj2 (buddy_free_correct b 6 5 W)). intros i Hi Hlt. specialize (Hno i Hi). lia.
Defined.

(** Freeing what malloc returned restores every status of the tree. *)
Theorem malloc_free_roundtrip (b : buddy) (a k req : Z) :
  buddy_wf b a k -> 0 <= req -> snd (buddy_malloc b req) <> NULL ->
  let b'' := buddy_free (fst (buddy_malloc b req)) (snd (buddy_malloc b req)) in
  buddy_wf b'' a k /\
  forall i, node (order (tree b)) i -> st (tree b'') i = st (tree b) i.
Proof.
  intros W Hreq. rewrite malloc_two_parts. pose proof (bw_inv _ _ _ W) as Hinv.
  destruct (find_pos_spec b a k req W Hreq) as [(p & -> & Hf & Hsz)|[-> _]]; [|by intros []].
  rewrite valid_pos_of by (apply Hinv || apply Hf). intros _. cbn [negb].
  assert (Hsz' : 0 < block_to b p - block_from b p)
    by (unfold padded_request in Hsz; zb; lia).
  destruct (free_applied b a k p W Hf Hsz') as [-> W2]. split; [done|].
  intros i Hi. by apply mark_release_st.
Qed.

Lemma malloc_free_roundtrip_witness :
  exists b, buddy_init 4096 65536 320 = Some b /\ buddy_wf b 6 5 /\
    buddy_wf (buddy_free (fst (buddy_malloc b 100)) (snd (buddy_malloc b 100))) 6 5.
Proof.
  destruct example_wf as (b & E & W & _ & _). exists b. split; [exact E|split; [exact W|]].
  apply (malloc_free_roundtrip b 6 5 100 W ltac:(lia)).
  vm_compute in E. inversion E. subst b. vm_compute. discriminate.
Defined.

(** Initialisation over any memory of at most 2^30 slots yields a
    well-formed allocator in which every slot of the memory is available and
    everything beyond its end is masked. *)
Theorem buddy_init_correct (at_ main ms a : Z) :
  0 <= a <= 62 -> 2 ^ a <= ms <= 2 ^ 62 -> ms / 2 ^ a <= 2 ^ 30 ->
  at_ <> NULL -> 0 < main -> at_ <> main -> at_ mod 8 = 0 -> main mod 8 = 0 ->
  exists b, buddy_init_alignment at_ main ms (2 ^ a) = Some b /\ buddy_wf b a (ms / 2 ^ a) /\
    buddy_main b = main /\ forall i, allocated (tree b) i -> memory_size b <= block_from b i.
Proof. apply buddy_init_wf. Qed.

Lemma buddy_init_correct_witness :
  exists b, buddy_init_alignment 4096 65536 1000 (2 ^ 6) = Some b /\ buddy_wf b 6 (1000 / 2 ^ 6).
Proof.
  destruct (buddy_init_correct 4096 65536 1000 6 ltac:(lia) ltac:(lia)
    ltac:(vm_compute; discriminate) ltac:(vm_compute; discriminate) ltac:(lia) ltac:(lia)
    eq_refl eq_refl) as (b & E & W & _).
  exists b. split; assumption.
Defined.

(** [buddy_is_empty] denies that an allocator is empty when its number of
    slots is odd: the scan climbs to a node that also covers the first masked
    slot.  With an even number of slots it answers correctly. *)
Theorem buddy_is_empty_odd_slots :
  option_map buddy_is_empty (buddy_init 4096 65536 320) = Some false /\
  option_map buddy_is_empty (buddy_init 4096 65536 384) = Some true.
Proof. vm_compute. split; reflexivity. Qed.
