(* ===== verification/ShmemLog.v ===== *)
(** The redo log of the shared allocator: src/driver/src/log.c, log.h and the
    recovery scan recover_with_redolog of src/driver/src/buddy_alloc.c, with
    the records it updates (src/driver/src/obj_header.h) and the relative
    pointers of src/src/common/shmem_obj.h.

    The log is an array of ten 56-byte entries in shared memory, written field
    by field and decoded again when it is executed.  Shared memory is byte
    memory addressed by the offset from [mem_start]; the buddy allocator that
    lives behind the log is the record of BuddyAlloc. *)
From Stdlib Require Import ZArith Lia Bool.
From stdpp Require Import base list gmap numbers.
From S2P Require Import Prelude Bitset Checksum Redo BuddyTree BuddyAlloc.
Local Open Scope Z_scope.
Local Open Scope lupin_scope.

(** ** Relative pointers *)

Definition SHMEM_OPTR_NULL : Z := 0.

Definition shmem_optr_is_null (oid : Z) : bool := oid =? 0.

Definition shmem_optr_equals (optr1 optr2 : Z) : bool := optr1 =? optr2.

(** The object at a relative pointer, as an offset; [None] is the null pointer. *)
Definition shmem_optr_direct_ptr (oid : Z) : option Z := if oid =? 0 then None else Some oid.

(** From an absolute address to the relative pointer. *)
Definition shmem_optr_from_ptr (base ptr : Z) : Z := if ptr =? 0 then 0 else u64 (ptr - base).

(** ** Object records *)

Definition PROG_ID_SIZE : Z := 12.
Definition NUM_OBJ_SLOTS : Z := 340.
Definition SIZEOF_OBJ_BITSET : Z := 43.
Definition sizeof_obj_header : Z := 48.
Definition OBJ_ALLOC_RECS_SIZE : Z := 16384.

(** Offsets inside struct obj_allocation_records and struct obj_header. *)
Definition LE_NEXT_OFF : Z := 0.
Definition LE_PREV_OFF : Z := 8.
Definition SLOT_BITSET_OFF : Z := 16.
Definition AVAILABLE_SLOTS_OFF : Z := 60.
Definition OBJ_HEADERS_OFF : Z := 64.
Definition HDR_MACHINE_ID_OFF : Z := 16.
Definition HDR_SLOT_ID_OFF : Z := 18.
Definition HDR_PROG_ID_OFF : Z := 20.
Definition HDR_OBJ_OPTR_OFF : Z := 32.
Definition HDR_LENGTH_OFF : Z := 40.

Definition obj_header_at (recs slot : Z) : Z := recs + OBJ_HEADERS_OFF + slot * sizeof_obj_header.

(** [for (i = 0; i < NUM_OBJ_SLOTS; i++) records->obj_headers[i].slot_id = i] *)
Definition init_obj_allocation_records (m : bytes) (records : Z) : bytes :=
  let m := store64 m (records + LE_NEXT_OFF) 0 in
  let m := store64 m (records + LE_PREV_OFF) 0 in
  let m := memset m (records + SLOT_BITSET_OFF) 0 (Z.to_nat SIZEOF_OBJ_BITSET) in
  let m := store16 m (records + AVAILABLE_SLOTS_OFF) NUM_OBJ_SLOTS in
  fold_left (fun m i => store16 m (obj_header_at records i + HDR_SLOT_ID_OFF) i)
    (seqZ 0 NUM_OBJ_SLOTS) m.

(** ** Log entries *)

Definition REDOLOG_ENTRIES : Z := 10.
Definition sizeof_log_entry : Z := 56.

Definition INVALID : Z := 0.
Definition BUDDY_ALLOC : Z := 1.
Definition BUDDY_FREE : Z := 2.
Definition VAL : Z := 3.
Definition STR : Z := 4.
Definition OBJ_HDR_ALLOC : Z := 5.
Definition OBJ_HDR_FREE : Z := 6.
Definition TWO_VAL_LOG : Z := 7.
Definition INIT_OBJ_ALLOC_RECS : Z := 8.
Definition COMMIT : Z := 9.

Record obj_hdr_alloc := ObjHdrAlloc {
  oa_alloc_rec_ptr : Z;
  oa_obj_ptr : Z;
  oa_length : Z;
  oa_slot : Z;
  oa_available_slots : Z;
  oa_prog_id : list Z;
  oa_machine_id : Z }.

Inductive log_entry :=
| EInvalid
| EBuddyAlloc (pos : buddy_tree_pos)
| EBuddyFree (pos : buddy_tree_pos)
| EVal (off value : Z)
| EStr (off : Z) (val : list Z)
| EObjHdrAlloc (r : obj_hdr_alloc)
| EObjHdrFree (alloc_rec_ptr slot available_slots : Z)
| ETwoVal (off1 value1 off2 value2 : Z)
| EInitObjAllocRecs (new_obj_alloc_entry : Z)
| ECommit (check_sum : Z)
| EUnknown (tp : Z).

Definition entry_at (log i : Z) : Z := log + sizeof_log_entry * i.

(** The bytes of a nul-terminated string, without the terminator; [fuel] bounds
    the distance to the terminator. *)
Fixpoint cstring (fuel : nat) (m : bytes) (a : Z) : list Z :=
  match fuel with
  | O => []
  | S k => if rd m a =? 0 then [] else rd m a :: cstring k m (a + 1)
  end.

Definition read_bytes (m : bytes) (a : Z) (n : nat) : list Z :=
  map (fun k => rd m (a + Z.of_nat k)) (seq 0 n).

(** The entry as [execute_log] reads it: the tag selects the union member.  The
    program id is the [prog_id_size] bytes that are copied from the entry. *)
Definition decode (m : bytes) (log i : Z) : log_entry :=
  let e := entry_at log i in
  let p := e + 8 in
  let tp := load32 m e in
  if tp =? BUDDY_ALLOC then EBuddyAlloc (Pos (load64 m p) (load64 m (p + 8)))
  else if tp =? BUDDY_FREE then EBuddyFree (Pos (load64 m p) (load64 m (p + 8)))
  else if tp =? VAL then EVal (load64 m p) (load64 m (p + 8))
  else if tp =? TWO_VAL_LOG then
    ETwoVal (load64 m p) (load64 m (p + 8)) (load64 m (p + 16)) (load64 m (p + 24))
  else if tp =? STR then EStr (load64 m p) (cstring 4096 m (p + 8))
  else if tp =? OBJ_HDR_ALLOC then
    EObjHdrAlloc (ObjHdrAlloc (load64 m p) (load64 m (p + 8)) (load64 m (p + 16))
      (load16 m (p + 24)) (load16 m (p + 26))
      (read_bytes m (p + 28) (Z.to_nat (rd m (p + 42)))) (load16 m (p + 40)))
  else if tp =? OBJ_HDR_FREE then EObjHdrFree (load64 m p) (load16 m (p + 8)) (load16 m (p + 10))
  else if tp =? INIT_OBJ_ALLOC_RECS then EInitObjAllocRecs (load64 m p)
  else if tp =? COMMIT then ECommit (load64 m p)
  else if tp =? INVALID then EInvalid
  else EUnknown tp.

(** ** Writing the log *)

(** [entry[*redolog_pos_ptr] = EMPTY_LOG_ENTRY] when the position is in range. *)
Definition zero_next (m : bytes) (log pos : Z) : bytes :=
  if pos <? REDOLOG_ENTRIES then memset m (entry_at log pos) 0 (Z.to_nat sizeof_log_entry) else m.

Definition set_buddyop_log_entry (m : bytes) (log pos tp : Z) (bpos : buddy_tree_pos)
  : outcome (bytes * Z) :=
  bug_on (pos =? REDOLOG_ENTRIES)
    (let e := entry_at log pos in
     let m := store32 m e tp in
     let m := store64 m (e + 8) (index bpos) in
     let m := store64 m (e + 16) (depth bpos) in
     Ret (zero_next m log (pos + 1), pos + 1)).

Definition set_value_log_entry (m : bytes) (log pos off value : Z) : outcome (bytes * Z) :=
  bug_on (pos =? REDOLOG_ENTRIES)
    (let e := entry_at log pos in
     let m := store32 m e VAL in
     let m := store64 m (e + 8) off in
     let m := store64 m (e + 16) value in
     Ret (zero_next m log (pos + 1), pos + 1)).

Definition set_two_value_log_entry (m : bytes) (log pos off1 value1 off2 value2 : Z)
  : outcome (bytes * Z) :=
  bug_on (pos =? REDOLOG_ENTRIES)
    (let e := entry_at log pos in
     let m := store32 m e TWO_VAL_LOG in
     let m := store64 m (e + 8) off1 in
     let m := store64 m (e + 16) value1 in
     let m := store64 m (e + 24) off2 in
     let m := store64 m (e + 32) value2 in
     Ret (zero_next m log (pos + 1), pos + 1)).

Definition set_str_log_entry (m : bytes) (log pos off : Z) (prog_id : list Z)
  : outcome (bytes * Z) :=
  bug_on (pos =? REDOLOG_ENTRIES)
    (let e := entry_at log pos in
     let m := store32 m e STR in
     let m := store64 m (e + 8) off in
     let m := write_bytes m (e + 16) (prog_id ++ [0]) in
     Ret (zero_next m log (pos + 1), pos + 1)).

Definition set_obj_hdr_alloc_log_entry (m : bytes) (log pos alloc_rec_ptr obj_offset length : Z)
  (prog_id : list Z) (slot machine_id available_slots : Z) : outcome (bytes * Z) :=
  let prog_id_size := Z.of_nat (List.length prog_id) + 1 in
  bug_on (pos =? REDOLOG_ENTRIES)
    (let e := entry_at log pos in
     let m := store32 m e OBJ_HDR_ALLOC in
     let m := store64 m (e + 8) alloc_rec_ptr in
     let m := store16 m (e + 32) slot in
     let m := store64 m (e + 16) obj_offset in
     let m := store64 m (e + 24) length in
     let m := store16 m (e + 34) available_slots in
     let m := store8 m (e + 50) prog_id_size in
     let m := write_bytes m (e + 36) (prog_id ++ [0]) in
     let m := store16 m (e + 48) machine_id in
     Ret (zero_next m log (pos + 1), pos + 1)).

Definition set_obj_hdr_free_log_entry (m : bytes) (log pos alloc_rec_ptr slot available_slots : Z)
  : outcome (bytes * Z) :=
  bug_on (pos =? REDOLOG_ENTRIES)
    (let e := entry_at log pos in
     let m := store32 m e OBJ_HDR_FREE in
     let m := store64 m (e + 8) alloc_rec_ptr in
     let m := store16 m (e + 16) slot in
     let m := store16 m (e + 18) available_slots in
     Ret (zero_next m log (pos + 1), pos + 1)).

Definition set_init_obj_allocs_log_entry (m : bytes) (log pos init_alloc_ptr : Z)
  : outcome (bytes * Z) :=
  bug_on (pos =? REDOLOG_ENTRIES)
    (let e := entry_at log pos in
     let m := store32 m e INIT_OBJ_ALLOC_RECS in
     let m := store64 m (e + 8) init_alloc_ptr in
     Ret (zero_next m log (pos + 1), pos + 1)).

Definition set_commit_log_entry (m : bytes) (log pos : Z) : outcome (bytes * Z) :=
  bug_on (pos =? REDOLOG_ENTRIES)
    (let e := entry_at log pos in
     let m := store32 m e COMMIT in
     let! csum := util_checksum_compute m log (pos * sizeof_log_entry) 0 0 in
     let m := store64 m (e + 8) csum in
     Ret (zero_next m log (pos + 1), pos + 1)).

(** ** Executing the log *)

Record shm := Shm { mem : bytes; alloc : buddy; cur_obj_recs : Z }.

Definition set_mem (s : shm) (m : bytes) : shm := Shm m (alloc s) (cur_obj_recs s).
Definition set_alloc (s : shm) (b : buddy) : shm := Shm (mem s) b (cur_obj_recs s).

(** A pointer that must not be null. *)
Definition with_ptr (oid : Z) (k : Z -> outcome shm) : outcome shm :=
  match shmem_optr_direct_ptr oid with None => Bug | Some p => k p end.

(** One iteration of the loop of [execute_log]. *)
Definition execute_entry (e : log_entry) (s : shm) : outcome shm :=
  match e with
  | EBuddyAlloc pos => Ret (set_alloc s (fst (buddy_malloc_apply (alloc s) pos)))
  | EBuddyFree pos => Ret (set_alloc s (buddy_free_apply (alloc s) pos))
  | EVal off value => Ret (set_mem s (store64 (mem s) off value))
  | ETwoVal off1 value1 off2 value2 =>
      with_ptr off1 (fun dst =>
      let s := set_mem s (store64 (mem s) dst value1) in
      with_ptr off2 (fun dst2 => Ret (set_mem s (store64 (mem s) dst2 value2))))
  | EStr off val => Ret (set_mem s (write_bytes (mem s) off (val ++ [0])))
  | EObjHdrAlloc r =>
      with_ptr (oa_alloc_rec_ptr r) (fun recs =>
      let slot := oa_slot r in
      let hdr := obj_header_at recs slot in
      let m := bitset_set (mem s) (recs + SLOT_BITSET_OFF) slot in
      let m := store16 m (recs + AVAILABLE_SLOTS_OFF) (oa_available_slots r) in
      let m := store64 m (hdr + HDR_OBJ_OPTR_OFF) (oa_obj_ptr r) in
      let m := store64 m (hdr + HDR_LENGTH_OFF) (oa_length r) in
      let m := store16 m (hdr + HDR_MACHINE_ID_OFF) (oa_machine_id r) in
      let m := store16 m (hdr + HDR_SLOT_ID_OFF) slot in
      let m := write_bytes m (hdr + HDR_PROG_ID_OFF) (oa_prog_id r) in
      Ret (set_mem s m))
  | EObjHdrFree alloc_rec_ptr slot available_slots =>
      with_ptr alloc_rec_ptr (fun recs =>
      let m := bitset_clear (mem s) (recs + SLOT_BITSET_OFF) slot in
      let m := store16 m (recs + AVAILABLE_SLOTS_OFF) available_slots in
      Ret (set_mem s m))
  | EInitObjAllocRecs ptr =>
      with_ptr ptr (fun recs =>
      Ret (Shm (init_obj_allocation_records (mem s) recs) (alloc s) recs))
  | ECommit _ | EInvalid | EUnknown _ => Ret s
  end.

Fixpoint execute_loop (n : nat) (log i : Z) (s : shm) : outcome shm :=
  match n with
  | O => Ret s
  | S k => let! s := execute_entry (decode (mem s) log i) s in execute_loop k log (i + 1) s
  end.

Definition execute_log (log length : Z) (s : shm) : outcome shm :=
  execute_loop (Z.to_nat length) log 0 s.

(** ** Recovery *)

Definition ELOG_ERR : Z := 134.

(** [for (i = 0; i < REDOLOG_ENTRIES; i++)]: the position of a commit record
    whose checksum matches, nothing, or a malformed log. *)
Fixpoint scan_commit (n : nat) (m : bytes) (log i : Z) : outcome (option Z * bool) :=
  match n with
  | O => Ret (None, true)
  | S k =>
      let e := entry_at log i in
      if load32 m e =? COMMIT then
        let! r := util_checksum m log (sizeof_log_entry * i) (e + 8) 0 0 in
        if truthy (snd r) then Ret (Some i, true) else Ret (None, false)
      else scan_commit k m log (i + 1)
  end.

Definition recover_with_redolog (log : Z) (s : shm) : outcome (shm * Z) :=
  let! r := scan_commit (Z.to_nat REDOLOG_ENTRIES) (mem s) log 0 in
  match r with
  | (_, false) => Ret (s, ELOG_ERR)
  | (None, true) => Ret (s, 0)
  | (Some redolog_pos, true) => let! s := execute_log log redolog_pos s in Ret (s, 0)
  end.
