(* ===== verification/LogSpec.v ===== *)
(** Correctness of the redo log: entries decode to what was recorded, a
    committed log is found and executed exactly, and executing a log converges
    to the same memory from every state a crash can leave. *)
From Stdlib Require Import ZArith Lia Bool.
From stdpp Require Import base list gmap numbers.
From S2P Require Import Prelude Bitset Checksum Redo BuddyTree BuddyInv BuddyAlloc ShmemLog.
Local Open Scope Z_scope.
Local Open Scope lupin_scope.

(** ** Memory effect of an entry *)

(** The primitive updates entries are made of. *)
Inductive update :=
| UStore (a : Z) (n : nat) (v : Z)
| UBytes (a : Z) (l : list Z)
| USet (b p : Z)
| UClear (b p : Z).

Definition run_update (u : update) (m : bytes) : bytes :=
  match u with
  | UStore a n v => store m a n v
  | UBytes a l => write_bytes m a l
  | USet b p => bitset_set m b p
  | UClear b p => bitset_clear m b p
  end.

Definition update_region (u : update) : region :=
  match u with
  | UStore a n _ => rng a (Z.of_nat n)
  | UBytes a l => rng a (Z.of_nat (length l))
  | USet b p | UClear b p => one_bit b p
  end.

#[export] Instance blind_update u : Blind (run_update u) (update_region u).
Proof. destruct u; cbn; apply _. Qed.

Definition U64 (a v : Z) : update := UStore a 8 (u64 v).
Definition U16 (a v : Z) : update := UStore a 2 (u16 v).

Definition entry_updates (e : log_entry) : list update :=
  match e with
  | EVal off value => [U64 off value]
  | ETwoVal off1 value1 off2 value2 => [U64 off1 value1; U64 off2 value2]
  | EStr off val => [UBytes off (val ++ [0])]
  | EObjHdrAlloc r =>
      let recs := oa_alloc_rec_ptr r in
      let hdr := obj_header_at recs (oa_slot r) in
      [USet (recs + SLOT_BITSET_OFF) (oa_slot r);
       U16 (recs + AVAILABLE_SLOTS_OFF) (oa_available_slots r);
       U64 (hdr + HDR_OBJ_OPTR_OFF) (oa_obj_ptr r);
       U64 (hdr + HDR_LENGTH_OFF) (oa_length r);
       U16 (hdr + HDR_MACHINE_ID_OFF) (oa_machine_id r);
       U16 (hdr + HDR_SLOT_ID_OFF) (oa_slot r);
       UBytes (hdr + HDR_PROG_ID_OFF) (oa_prog_id r)]
  | EObjHdrFree recs slot available_slots =>
      [UClear (recs + SLOT_BITSET_OFF) slot; U16 (recs + AVAILABLE_SLOTS_OFF) available_slots]
  | EInitObjAllocRecs recs =>
      [U64 (recs + LE_NEXT_OFF) 0; U64 (recs + LE_PREV_OFF) 0;
       UBytes (recs + SLOT_BITSET_OFF) (replicate (Z.to_nat SIZEOF_OBJ_BITSET) 0);
       U16 (recs + AVAILABLE_SLOTS_OFF) NUM_OBJ_SLOTS]
      ++ map (fun i => U16 (obj_header_at recs i + HDR_SLOT_ID_OFF) i) (seqZ 0 NUM_OBJ_SLOTS)
  | _ => []
  end.

Definition run_updates (us : list update) (m : bytes) : bytes :=
  fold_left (fun m u => run_update u m) us m.

(** The bits of memory an entry writes. *)
Definition touched (e : log_entry) : region :=
  fun a k => existsb (fun u => update_region u a k) (entry_updates e).

(** The entries that stop the machine: a null pointer where one is required. *)
Definition entry_null (e : log_entry) : bool :=
  match e with
  | ETwoVal off1 _ off2 _ => (off1 =? 0) || (off2 =? 0)
  | EObjHdrAlloc r => oa_alloc_rec_ptr r =? 0
  | EObjHdrFree recs _ _ => recs =? 0
  | EInitObjAllocRecs recs => recs =? 0
  | _ => false
  end.

Definition entry_alloc (e : log_entry) (b : buddy) : buddy :=
  match e with
  | EBuddyAlloc pos => fst (buddy_malloc_apply b pos)
  | EBuddyFree pos => buddy_free_apply b pos
  | _ => b
  end.

Definition entry_cur (e : log_entry) (c : Z) : Z :=
  match e with EInitObjAllocRecs recs => recs | _ => c end.

Lemma fold_left_map_eq {A B C} (f : A -> C -> A) (g : B -> C) l a :
  fold_left f (map g l) a = fold_left (fun x y => f x (g y)) l a.
Proof. revert a. induction l as [|x l IH]; intros a; cbn; [done|apply IH]. Qed.

Lemma execute_entry_eq e s :
  execute_entry e s =
  if entry_null e then Bug
  else Ret (Shm (run_updates (entry_updates e) (mem s)) (entry_alloc e (alloc s))
              (entry_cur e (cur_obj_recs s))).
Proof.
  destruct e; cbn [execute_entry entry_null entry_updates entry_alloc entry_cur];
    unfold with_ptr, shmem_optr_direct_ptr; try (by destruct s).
  - destruct (oa_alloc_rec_ptr r =? 0); done.
  - destruct (alloc_rec_ptr =? 0); done.
  - destruct (off1 =? 0); [done|]. destruct (off2 =? 0); done.
  - destruct (new_obj_alloc_entry =? 0); [done|].
    assert (E : forall m, init_obj_allocation_records m new_obj_alloc_entry
                = run_updates (entry_updates (EInitObjAllocRecs new_obj_alloc_entry)) m).
    { intros m. unfold init_obj_allocation_records, run_updates. cbn [entry_updates].
      rewrite fold_left_app, fold_left_map_eq. cbn [fold_left run_update U64 U16].
      by rewrite memset_write_bytes. }
    by rewrite E.
Qed.

#[export] Instance blind_entry e : Blind (run_updates (entry_updates e)) (touched e).
Proof. apply (blind_fold run_update update_region). intros. apply _. Qed.

(** ** Executing a list of entries *)

Fixpoint run_entries (es : list log_entry) (s : shm) : outcome shm :=
  match es with
  | [] => Ret s
  | e :: rest => let! s := execute_entry e s in run_entries rest s
  end.

Definition touched_all (es : list log_entry) : region :=
  fun a k => existsb (fun e => touched e a k) es.

Definition mem_of (es : list log_entry) (m : bytes) : bytes :=
  fold_left (fun m e => run_updates (entry_updates e) m) es m.

#[export] Instance blind_entries es : Blind (mem_of es) (touched_all es).
Proof. apply (blind_fold (fun e m => run_updates (entry_updates e) m) touched). intros. apply _. Qed.

Lemma run_entries_eq es s :
  run_entries es s =
  if existsb entry_null es then Bug
  else Ret (Shm (mem_of es (mem s)) (fold_left (fun b e => entry_alloc e b) es (alloc s))
              (fold_left (fun c e => entry_cur e c) es (cur_obj_recs s))).
Proof.
  revert s. induction es as [|e es IH]; intros s; cbn [run_entries existsb fold_left mem_of].
  - by destruct s.
  - rewrite execute_entry_eq. destruct (entry_null e); cbn [obind orb]; [done|].
    rewrite IH. done.
Qed.

(** ** Recording and decoding *)

Definition is_u64 (x : Z) : Prop := 0 <= x < 2 ^ 64.
Definition is_u16 (x : Z) : Prop := 0 <= x < 2 ^ 16.
Definition is_char (x : Z) : Prop := 1 <= x < 256.

(** The entries the allocator records: fields within their widths and program
    ids that fit their array with the terminator. *)
Definition wf_entry (e : log_entry) : Prop :=
  match e with
  | EBuddyAlloc p | EBuddyFree p => is_u64 (index p) /\ is_u64 (depth p)
  | EVal off v => is_u64 off /\ is_u64 v
  | ETwoVal o1 v1 o2 v2 => is_u64 o1 /\ is_u64 v1 /\ is_u64 o2 /\ is_u64 v2
  | EStr off s => is_u64 off /\ Forall is_char s /\ Z.of_nat (length s) < PROG_ID_SIZE
  | EObjHdrAlloc r =>
      is_u64 (oa_alloc_rec_ptr r) /\ is_u64 (oa_obj_ptr r) /\ is_u64 (oa_length r) /\
      is_u16 (oa_slot r) /\ is_u16 (oa_available_slots r) /\ is_u16 (oa_machine_id r) /\
      exists s, oa_prog_id r = s ++ [0] /\ Forall is_char s /\ Z.of_nat (length s) < PROG_ID_SIZE
  | EObjHdrFree p slot av => is_u64 p /\ is_u16 slot /\ is_u16 av
  | EInitObjAllocRecs p => is_u64 p
  | EInvalid | ECommit _ | EUnknown _ => False
  end.

(** The recording function of each kind of entry. *)
Definition append_entry (e : log_entry) (m : bytes) (log pos : Z) : outcome (bytes * Z) :=
  match e with
  | EBuddyAlloc p => set_buddyop_log_entry m log pos BUDDY_ALLOC p
  | EBuddyFree p => set_buddyop_log_entry m log pos BUDDY_FREE p
  | EVal off v => set_value_log_entry m log pos off v
  | ETwoVal o1 v1 o2 v2 => set_two_value_log_entry m log pos o1 v1 o2 v2
  | EStr off s => set_str_log_entry m log pos off s
  | EObjHdrAlloc r =>
      set_obj_hdr_alloc_log_entry m log pos (oa_alloc_rec_ptr r) (oa_obj_ptr r) (oa_length r)
        (removelast (oa_prog_id r)) (oa_slot r) (oa_machine_id r) (oa_available_slots r)
  | EObjHdrFree p slot av => set_obj_hdr_free_log_entry m log pos p slot av
  | EInitObjAllocRecs p => set_init_obj_allocs_log_entry m log pos p
  | EInvalid | ECommit _ | EUnknown _ => Bug
  end.

Lemma rd_zero_next_out m log pos a :
  a < entry_at log pos \/ entry_at log pos + 56 <= a -> rd (zero_next m log pos) a = rd m a.
Proof.
  intros H. unfold zero_next. destruct (pos <? REDOLOG_ENTRIES); [|done].
  rewrite memset_write_bytes. apply rd_write_bytes_out. rewrite length_replicate.
  unfold sizeof_log_entry. lia.
Qed.

Lemma load_zero_next m log pos a n :
  a + Z.of_nat n <= entry_at log (pos + 1) -> load (zero_next m log (pos + 1)) a n = load m a n.
Proof. intros. apply load_ext. intros b Hb. apply rd_zero_next_out. lia. Qed.

Lemma load_write_bytes_out m a l b k :
  b + Z.of_nat k <= a \/ a + Z.of_nat (length l) <= b -> load (write_bytes m a l) b k = load m b k.
Proof. intros. apply load_ext. intros c Hc. apply rd_write_bytes_out. lia. Qed.

Lemma rd_write_bytes_at m a l i :
  0 <= i < Z.of_nat (length l) -> rd (write_bytes m a l) (a + i) = u8 (getZ 0 l i).
Proof.
  revert m a i. induction l as [|x l IH]; intros m a i Hi; cbn [write_bytes length] in *; [lia|].
  destruct (Z.eq_dec i 0) as [->|].
  - rewrite Z.add_0_r, rd_write_bytes_out, rd_wr_eq by lia. done.
  - replace (a + i) with (a + 1 + (i - 1)) by lia. rewrite IH by lia. unfold getZ.
    replace (Z.to_nat i) with (S (Z.to_nat (i - 1))) by lia. done.
Qed.

Lemma read_write_bytes m a l :
  Forall (fun x => 0 <= x < 256) l -> read_bytes (write_bytes m a l) a (length l) = l.
Proof.
  intros Hl. unfold read_bytes. apply list_eq. intros i. rewrite list_lookup_fmap.
  destruct (decide (i < length l)%nat) as [Hi|Hi].
  - rewrite lookup_seq_lt by done. cbn. rewrite rd_write_bytes_at by lia. unfold getZ.
    rewrite Nat2Z.id. destruct (l !! i) as [x|] eqn:E; [|apply lookup_ge_None in E; lia].
    cbn. f_equal. apply u8_small. by eapply Forall_lookup_1 in Hl.
  - rewrite lookup_seq_ge by lia. cbn. symmetry. apply lookup_ge_None. lia.
Qed.

Lemma read_bytes_ext m1 m2 a n :
  (forall b, a <= b < a + Z.of_nat n -> rd m1 b = rd m2 b) -> read_bytes m1 a n = read_bytes m2 a n.
Proof.
  intros H. unfold read_bytes. apply list_fmap_ext. intros i k Hk.
  apply lookup_seq in Hk. apply H. lia.
Qed.

Lemma cstring_write fuel m a s :
  Forall is_char s -> (length s < fuel)%nat -> cstring fuel (write_bytes m a (s ++ [0])) a = s.
Proof.
  revert fuel m a. induction s as [|x s IH]; intros fuel m a Hs Hf; destruct fuel as [|fuel]; try (cbn in Hf; lia).
  - cbn. rewrite rd_wr_eq. done.
  - cbn [app write_bytes cstring length] in *. inversion Hs as [|? ? Hx Hs']. subst. unfold is_char in Hx.
    rewrite rd_write_bytes_out, rd_wr_eq, u8_small by lia.
    destruct (Z.eqb_spec x 0); [lia|]. f_equal. apply IH; [done|lia].
Qed.

Lemma cstring_ext fuel m1 m2 a n :
  (forall b, a <= b < a + Z.of_nat n -> rd m1 b = rd m2 b) ->
  (length (cstring fuel m1 a) < n)%nat -> cstring fuel m2 a = cstring fuel m1 a.
Proof.
  revert a n. induction fuel as [|fuel IH]; intros a n Hm Hn; [done|]. cbn [cstring] in *.
  destruct n as [|n]; [lia|]. rewrite <- (Hm a) by lia.
  destruct (rd m1 a =? 0); [done|]. f_equal. cbn [length] in Hn.
  apply (IH (a + 1) n); [|lia]. intros b Hb. apply Hm. lia.
Qed.

(** An entry whose strings end inside it is decoded from its own 56 bytes. *)
Lemma decode_ext m1 m2 log i :
  (forall a, entry_at log i <= a < entry_at log i + 56 -> rd m1 a = rd m2 a) ->
  wf_entry (decode m1 log i) -> decode m2 log i = decode m1 log i.
Proof.
  intros Hm Hwf. unfold decode in *. set (e := entry_at log i) in *.
  assert (H64 : forall k, 0 <= k <= 48 -> load64 m2 (e + k) = load64 m1 (e + k))
    by (intros k Hk; symmetry; apply load64_ext; intros; apply Hm; lia).
  assert (H16 : forall k, 0 <= k <= 54 -> load16 m2 (e + k) = load16 m1 (e + k))
    by (intros k Hk; symmetry; apply load_ext; intros; apply Hm; lia).
  assert (H32 : load32 m2 e = load32 m1 e) by (symmetry; apply load32_ext; intros; apply Hm; lia).
  rewrite H32. rewrite <- !Z.add_assoc in *. cbn [Z.add Pos.add] in *.
  change (8 + 8) with 16 in *. change (8 + 16) with 24 in *. change (8 + 24) with 32 in *.
  change (8 + 26) with 34 in *. change (8 + 40) with 48 in *. change (8 + 10) with 18 in *.
  rewrite !H64, !H16 by lia.
  destruct (load32 m1 e =? BUDDY_ALLOC); [done|]. destruct (load32 m1 e =? BUDDY_FREE); [done|].
  destruct (load32 m1 e =? VAL); [done|]. destruct (load32 m1 e =? TWO_VAL_LOG); [done|].
  destruct (load32 m1 e =? STR).
  { cbn [wf_entry] in Hwf. destruct Hwf as (_ & _ & Hlen). unfold PROG_ID_SIZE in Hlen. f_equal.
    apply (cstring_ext _ _ _ _ 40); [intros; apply Hm; lia|lia]. }
  destruct (load32 m1 e =? OBJ_HDR_ALLOC); [|done].
  cbn [wf_entry oa_prog_id] in Hwf. destruct Hwf as (_ & _ & _ & _ & _ & _ & s & Es & _ & Hlen).
  unfold PROG_ID_SIZE in Hlen. apply (f_equal length) in Es.
  unfold read_bytes in Es. rewrite length_fmap, length_seq, length_app in Es. cbn in Es.
  rewrite <- (Hm (e + (8 + 42))) by lia. do 2 f_equal.
  symmetry. apply read_bytes_ext. intros b Hb. apply Hm. lia.
Qed.

Lemma entry_at_succ log pos : entry_at log (pos + 1) = entry_at log pos + 56.
Proof. unfold entry_at, sizeof_log_entry. lia. Qed.

(** Loads that see through the stores made after the field was written. *)
Ltac loads :=
  unfold load64, store64, load32, store32, load16, store16, load8, store8 in *;
  repeat first
    [ rewrite load_zero_next by (rewrite ?entry_at_succ; lia)
    | rewrite load_store_eq by (first [apply u64_range|apply u32_range|apply u16_range|apply u8_range])
    | rewrite load_store_out by lia
    | rewrite load_write_bytes_out by (rewrite ?length_app; cbn [length]; lia) ].

Lemma u64_id x : is_u64 x -> u64 x = x.
Proof. apply u64_small. Qed.
Lemma u16_id x : is_u16 x -> u16 x = x.
Proof. intros H. apply u16_small. unfold is_u16 in H. lia. Qed.

Lemma rd_zero_next_load m log pos a :
  a < entry_at log (pos + 1) -> rd (zero_next m log (pos + 1)) a = rd m a.
Proof. intros. apply rd_zero_next_out. lia. Qed.

(** The decoder, one kind at a time. *)
Lemma decode_val m log i :
  load32 m (entry_at log i) = VAL ->
  decode m log i = EVal (load64 m (entry_at log i + 8)) (load64 m (entry_at log i + 8 + 8)).
Proof. unfold decode. intros ->. reflexivity. Qed.

Lemma decode_two_val m log i :
  load32 m (entry_at log i) = TWO_VAL_LOG ->
  let p := entry_at log i + 8 in
  decode m log i = ETwoVal (load64 m p) (load64 m (p + 8)) (load64 m (p + 16)) (load64 m (p + 24)).
Proof. unfold decode. intros ->. reflexivity. Qed.

Lemma decode_str m log i :
  load32 m (entry_at log i) = STR ->
  let p := entry_at log i + 8 in
  decode m log i = EStr (load64 m p) (cstring 4096 m (p + 8)).
Proof. unfold decode. intros ->. reflexivity. Qed.

Lemma decode_obj_hdr_alloc m log i :
  load32 m (entry_at log i) = OBJ_HDR_ALLOC ->
  let p := entry_at log i + 8 in
  decode m log i = EObjHdrAlloc (ObjHdrAlloc (load64 m p) (load64 m (p + 8)) (load64 m (p + 16))
    (load16 m (p + 24)) (load16 m (p + 26))
    (read_bytes m (p + 28) (Z.to_nat (rd m (p + 42)))) (load16 m (p + 40))).
Proof. unfold decode. intros ->. reflexivity. Qed.

Lemma decode_obj_hdr_free m log i :
  load32 m (entry_at log i) = OBJ_HDR_FREE ->
  let p := entry_at log i + 8 in
  decode m log i = EObjHdrFree (load64 m p) (load16 m (p + 8)) (load16 m (p + 10)).
Proof. unfold decode. intros ->. reflexivity. Qed.

Lemma decode_init m log i :
  load32 m (entry_at log i) = INIT_OBJ_ALLOC_RECS ->
  decode m log i = EInitObjAllocRecs (load64 m (entry_at log i + 8)).
Proof. unfold decode. intros ->. reflexivity. Qed.

Lemma rd_load8 m a : load m a 1 = rd m a.
Proof. cbn [load]. lia. Qed.

(** The memory that recording an object header leaves, field by field. *)
Lemma obj_hdr_alloc_decode r m log pos :
  wf_entry (EObjHdrAlloc r) -> 0 <= pos < REDOLOG_ENTRIES ->
  exists m', append_entry (EObjHdrAlloc r) m log pos = Ret (m', pos + 1) /\
             decode m' log pos = EObjHdrAlloc r.
Proof.
  intros Hwf Hpos. cbn [append_entry]. unfold set_obj_hdr_alloc_log_entry, bug_on.
  destruct (Z.eqb_spec pos REDOLOG_ENTRIES); [lia|]. eexists. split; [reflexivity|].
  destruct r as [rp ro rl rs ra rprog rm].
  cbn [wf_entry oa_alloc_rec_ptr oa_obj_ptr oa_length oa_slot oa_available_slots oa_machine_id
       oa_prog_id] in *.
  destruct Hwf as (Hp & Ho & Hln & Hsl & Hav & Hmi & s & -> & Hs & Hl). unfold PROG_ID_SIZE in Hl.
  rewrite removelast_last. pose proof (entry_at_succ log pos) as Hsucc.
  rewrite decode_obj_hdr_alloc; cbn zeta; set (e := entry_at log pos) in *;
    rewrite <- ?Z.add_assoc; [|loads; reflexivity].
  rewrite <- rd_load8. loads. rewrite u8_small, !u64_id, !u16_id by (done || lia).
  do 2 f_equal.
  replace (Z.to_nat (Z.of_nat (length s) + 1)) with (length (s ++ [0])) by (rewrite length_app; cbn; lia).
  change (e + (8 + 28)) with (e + 36).
  rewrite <- (read_write_bytes m (e + 36) (s ++ [0])) at 3.
  - apply read_bytes_ext. intros b Hb. rewrite length_app in Hb. cbn [length] in Hb.
    rewrite rd_zero_next_load, rd_store_out by lia.
    apply rd_write_bytes_in. rewrite length_app. cbn [length]. lia.
  - apply Forall_app. split; [|repeat constructor; lia].
    eapply Forall_impl; [|exact Hs]. unfold is_char. intros x Hx. lia.
Qed.

Lemma str_decode off val m log pos :
  wf_entry (EStr off val) -> 0 <= pos < REDOLOG_ENTRIES ->
  exists m', append_entry (EStr off val) m log pos = Ret (m', pos + 1) /\
             decode m' log pos = EStr off val.
Proof.
  intros Hwf Hpos. cbn [append_entry]. unfold set_str_log_entry, bug_on.
  destruct (Z.eqb_spec pos REDOLOG_ENTRIES); [lia|]. eexists. split; [reflexivity|].
  cbn [wf_entry] in Hwf. destruct Hwf as (Ho & Hs & Hl). unfold PROG_ID_SIZE in Hl.
  pose proof (entry_at_succ log pos) as Hsucc.
  rewrite decode_str; cbn zeta; set (e := entry_at log pos) in *; rewrite <- ?Z.add_assoc;
    [|loads; reflexivity].
  loads. rewrite u64_id by done. f_equal. change (e + (8 + 8)) with (e + 16).
  set (m1 := store (store m e 4 (u32 STR)) (e + 8) 8 off).
  rewrite (cstring_ext 4096 (write_bytes m1 (e + 16) (val ++ [0])) _ _ 40).
  - apply cstring_write; [done|]. apply Nat2Z.inj_lt. change (Z.of_nat 4096) with 4096. lia.
  - intros b Hb. symmetry. apply rd_zero_next_load. lia.
  - rewrite cstring_write; [lia|done|]. apply Nat2Z.inj_lt. change (Z.of_nat 4096) with 4096. lia.
Qed.

(** The entries with scalar fields only. *)
Ltac scalar_entry dec Hwf :=
  cbn [append_entry wf_entry] in *;
  unfold set_buddyop_log_entry, set_value_log_entry, set_two_value_log_entry,
    set_obj_hdr_free_log_entry, set_init_obj_allocs_log_entry, bug_on;
  match goal with H : 0 <= ?pos < REDOLOG_ENTRIES |- context [entry_at ?log ?pos] =>
    pose proof (entry_at_succ log pos); destruct (Z.eqb_spec pos REDOLOG_ENTRIES); [lia|] end;
  eexists; split; [reflexivity|];
  rewrite dec by (loads; reflexivity); cbn zeta; rewrite <- ?Z.add_assoc; loads;
  rewrite ?u64_id, ?u16_id by apply Hwf.

Lemma decode_buddy_alloc m log i :
  load32 m (entry_at log i) = BUDDY_ALLOC ->
  decode m log i = EBuddyAlloc (Pos (load64 m (entry_at log i + 8)) (load64 m (entry_at log i + 8 + 8))).
Proof. unfold decode. intros ->. reflexivity. Qed.

Lemma decode_buddy_free m log i :
  load32 m (entry_at log i) = BUDDY_FREE ->
  decode m log i = EBuddyFree (Pos (load64 m (entry_at log i + 8)) (load64 m (entry_at log i + 8 + 8))).
Proof. unfold decode. intros ->. reflexivity. Qed.

Lemma append_decode e m log pos :
  wf_entry e -> 0 <= pos < REDOLOG_ENTRIES ->
  exists m', append_entry e m log pos = Ret (m', pos + 1) /\ decode m' log pos = e.
Proof.
  intros Hwf Hpos. destruct e as [|bp|bp|off v|off s|r|p sl av|o1 v1 o2 v2|p|c|tp].
  - destruct Hwf.
  - scalar_entry decode_buddy_alloc Hwf. by destruct bp.
  - scalar_entry decode_buddy_free Hwf. by destruct bp.
  - scalar_entry decode_val Hwf. reflexivity.
  - exact (str_decode off s m log pos Hwf Hpos).
  - exact (obj_hdr_alloc_decode r m log pos Hwf Hpos).
  - scalar_entry decode_obj_hdr_free Hwf. reflexivity.
  - scalar_entry decode_two_val Hwf. reflexivity.
  - scalar_entry decode_init Hwf. reflexivity.
  - destruct Hwf.
  - destruct Hwf.
Qed.

Lemma append_frame e m log pos m' pos' a :
  wf_entry e -> 0 <= pos < REDOLOG_ENTRIES -> append_entry e m log pos = Ret (m', pos') ->
  a < entry_at log pos \/ entry_at log REDOLOG_ENTRIES <= a -> rd m' a = rd m a.
Proof.
  intros Hwf Hpos Happ Ha. pose proof (entry_at_succ log pos) as Hsucc.
  assert (Hlast : entry_at log pos + 56 <= entry_at log REDOLOG_ENTRIES)
    by (unfold entry_at, sizeof_log_entry, REDOLOG_ENTRIES in *; lia).
  assert (Hz : forall m, rd (zero_next m log (pos + 1)) a = rd m a).
  { intros m0. destruct (Z.eq_dec (pos + 1) REDOLOG_ENTRIES) as [->|].
    - unfold zero_next. by rewrite Z.ltb_irrefl.
    - apply rd_zero_next_out. unfold entry_at, sizeof_log_entry, REDOLOG_ENTRIES in *. lia. }
  destruct e; try (by destruct Hwf); cbn [append_entry wf_entry] in *;
    unfold set_buddyop_log_entry, set_value_log_entry, set_two_value_log_entry, set_str_log_entry,
      set_obj_hdr_alloc_log_entry, set_obj_hdr_free_log_entry, set_init_obj_allocs_log_entry,
      bug_on in Happ;
    (destruct (Z.eqb_spec pos REDOLOG_ENTRIES); [lia|]); injection Happ as <- _;
    rewrite Hz; unfold store64, store32, store16, store8.
  1-3,6-8: by rewrite !rd_store_out by lia.
  - destruct Hwf as (_ & _ & Hl). unfold PROG_ID_SIZE in Hl.
    by rewrite rd_write_bytes_out, !rd_store_out by (rewrite ?length_app; cbn [length]; lia).
  - destruct Hwf as (_ & _ & _ & _ & _ & _ & s & -> & _ & Hl). unfold PROG_ID_SIZE in Hl.
    rewrite removelast_last, rd_store_out by lia.
    by rewrite rd_write_bytes_out, !rd_store_out by (rewrite ?length_app; cbn [length]; lia).
Qed.

Fixpoint append_all (es : list log_entry) (m : bytes) (log pos : Z) : outcome (bytes * Z) :=
  match es with
  | [] => Ret (m, pos)
  | e :: rest => let! r := append_entry e m log pos in append_all rest (fst r) log (snd r)
  end.

Lemma entry_at_mono log i j : i < j -> entry_at log i + 56 <= entry_at log j.
Proof. unfold entry_at, sizeof_log_entry. lia. Qed.

Definition log_holds (m : bytes) (log pos : Z) (es : list log_entry) : Prop :=
  forall i e, es !! i = Some e -> decode m log (pos + Z.of_nat i) = e.

Lemma log_holds_cons m log pos e es :
  decode m log pos = e -> log_holds m log (pos + 1) es -> log_holds m log pos (e :: es).
Proof.
  intros He Hes [|i] e' Hi; cbn in Hi.
  - injection Hi as <-. by rewrite Z.add_0_r.
  - replace (pos + Z.of_nat (S i)) with (pos + 1 + Z.of_nat i) by lia. by apply Hes.
Qed.

(** What the log holds is in its bytes. *)
Lemma log_holds_ext m1 m2 log pos es :
  Forall wf_entry es ->
  (forall a, entry_at log pos <= a < entry_at log (pos + Z.of_nat (length es)) -> rd m1 a = rd m2 a) ->
  log_holds m1 log pos es -> log_holds m2 log pos es.
Proof.
  intros Hwf Hm H i e Hi. rewrite <- (H i e Hi). apply decode_ext; [|rewrite (H i e Hi); by eapply Forall_lookup_1].
  apply lookup_lt_Some in Hi. intros a Ha. apply Hm.
  unfold entry_at, sizeof_log_entry in *. lia.
Qed.

Lemma append_all_spec es m log pos :
  Forall wf_entry es -> 0 <= pos -> pos + Z.of_nat (length es) <= REDOLOG_ENTRIES ->
  exists m', append_all es m log pos = Ret (m', pos + Z.of_nat (length es)) /\
    log_holds m' log pos es /\
    (forall a, a < entry_at log pos \/ entry_at log REDOLOG_ENTRIES <= a -> rd m' a = rd m a).
Proof.
  revert m pos. induction es as [|e es IH]; intros m pos Hwf Hpos Hlen; cbn [append_all length] in *.
  - exists m. rewrite Z.add_0_r. split; [done|]. split; [|done]. intros i e Hi. done.
  - inversion Hwf as [|? ? Hwe Hws]. subst.
    destruct (append_decode e m log pos) as (m1 & E1 & D1); [done|lia|]. rewrite E1. cbn [obind fst snd].
    destruct (IH m1 (pos + 1)) as (m' & E2 & D2 & F2); [done|lia|lia|].
    exists m'. split; [rewrite E2; do 2 f_equal; lia|].
    pose proof (entry_at_mono log pos (pos + 1)). split.
    + apply log_holds_cons; [|done]. rewrite <- D1. apply decode_ext; [|by rewrite D1].
      intros a Ha. symmetry. apply F2. lia.
    + intros a Ha. rewrite F2 by lia. eapply append_frame; [exact Hwe| |exact E1|lia]. lia.
Qed.

(** ** Committed logs *)

(** A transaction: its entries, then the commit record. *)
Definition commit_log (es : list log_entry) (m : bytes) (log : Z) : outcome (bytes * Z) :=
  let! r := append_all es m log 0 in set_commit_log_entry (fst r) log (snd r).

(** The log at [log] holds [es] and a commit record with their checksum. *)
Definition committed (m : bytes) (log : Z) (es : list log_entry) : Prop :=
  let n := Z.of_nat (length es) in
  log_holds m log 0 es /\ load32 m (entry_at log n) = COMMIT /\
  exists c, util_checksum_compute m log (4 * (14 * n)) 0 0 = Ret c /\
            load64 m (entry_at log n + 8) = c.

Lemma committed_ext m1 m2 log es :
  Forall wf_entry es -> 0 < log -> Z.of_nat (length es) < REDOLOG_ENTRIES ->
  (forall a, log <= a < entry_at log REDOLOG_ENTRIES -> rd m1 a = rd m2 a) ->
  committed m1 log es -> committed m2 log es.
Proof.
  intros Hwf Hlog Hn Hm (Hh & Ht & c & Hc & Hl).
  assert (Hat : entry_at log (Z.of_nat (length es)) + 56 <= entry_at log REDOLOG_ENTRIES)
    by (apply entry_at_mono; lia).
  unfold entry_at, sizeof_log_entry in *. repeat split.
  - apply (log_holds_ext m1); [done| |done]. unfold entry_at, sizeof_log_entry. intros a Ha. apply Hm. lia.
  - rewrite <- Ht. symmetry. apply load32_ext. unfold entry_at, sizeof_log_entry.
    intros a Ha. apply Hm. lia.
  - exists c. rewrite <- Hc, <- Hl. split.
    + apply checksum_compute_ext; try lia. intros a Ha. symmetry. apply Hm. lia.
    + symmetry. apply load64_ext. unfold entry_at, sizeof_log_entry. intros a Ha. apply Hm. lia.
Qed.

Lemma commit_log_spec es m log :
  Forall wf_entry es -> 0 < log -> Z.of_nat (length es) < REDOLOG_ENTRIES ->
  exists m', commit_log es m log = Ret (m', Z.of_nat (length es) + 1) /\ committed m' log es /\
    (forall a, a < log \/ entry_at log REDOLOG_ENTRIES <= a -> rd m' a = rd m a).
Proof.
  intros Hwf Hlog Hn. unfold commit_log.
  destruct (append_all_spec es m log 0) as (m1 & E1 & Hh & Hf); [done|lia|lia|].
  rewrite E1. cbn [obind fst snd]. rewrite !Z.add_0_l. set (n := Z.of_nat (length es)) in *.
  unfold set_commit_log_entry, bug_on. destruct (Z.eqb_spec n REDOLOG_ENTRIES); [lia|].
  replace (n * sizeof_log_entry) with (4 * (14 * n)) by (unfold sizeof_log_entry; lia).
  destruct (checksum_compute_ret (store32 m1 (entry_at log n) COMMIT) log (14 * n) 0) as (c & Hc & Hcr).
  rewrite Hc. cbn [obind]. eexists. split; [done|].
  pose proof (entry_at_succ log n) as Hsucc. pose proof (entry_at_mono log n REDOLOG_ENTRIES) as Hend.
  assert (Hen : entry_at log n = log + 4 * (14 * n)) by (unfold entry_at, sizeof_log_entry; lia).
  assert (Hlow : forall v a, a < entry_at log n ->
    rd (zero_next (store64 (store32 m1 (entry_at log n) COMMIT) (entry_at log n + 8) v) log (n + 1)) a
    = rd m1 a).
  { intros v a Ha. rewrite rd_zero_next_load by lia. unfold store64, store32. by rewrite !rd_store_out by lia. }
  split.
  - split; [|split].
    + apply (log_holds_ext m1); [done| |done]. intros a Ha. symmetry. apply Hlow. fold n in Ha. rewrite Z.add_0_l in Ha. lia.
    + fold n. loads. reflexivity.
    + fold n. exists c. split.
      * rewrite <- Hc. apply checksum_compute_ext; try lia. intros a Ha. rewrite Hlow by lia.
        unfold store32. by rewrite rd_store_out by lia.
      * loads. by apply u64_id.
  - intros a Ha. destruct (Z.lt_ge_cases a log) as [Hal|Hal].
    + rewrite Hlow by (unfold entry_at, sizeof_log_entry; lia). apply Hf. unfold entry_at. lia.
    + rewrite <- (Hf a) by (unfold entry_at in *; lia).
      assert (Hz : forall m, rd (zero_next m log (n + 1)) a = rd m a).
      { intros m0. unfold zero_next. destruct (Z.ltb_spec (n + 1) REDOLOG_ENTRIES); [|done].
        rewrite memset_write_bytes. apply rd_write_bytes_out. rewrite length_replicate.
        pose proof (entry_at_mono log (n + 1) REDOLOG_ENTRIES). unfold sizeof_log_entry. lia. }
      rewrite Hz. unfold store64, store32. by rewrite !rd_store_out by lia.
Qed.

(** The entries leave the log itself alone. *)
Definition spares_log (log : Z) (es : list log_entry) : Prop :=
  forall e a k, e ∈ es -> log <= a < entry_at log REDOLOG_ENTRIES -> touched e a k = false.

Lemma entry_spares e m log a :
  (forall a k, log <= a < entry_at log REDOLOG_ENTRIES -> touched e a k = false) ->
  log <= a < entry_at log REDOLOG_ENTRIES -> rd m a = rd (run_updates (entry_updates e) m) a.
Proof. intros H Ha. apply rd_bits. intros k Hk. apply (blind_frame (Blind := blind_entry e)); auto. Qed.

Lemma execute_loop_run log es i s :
  Forall wf_entry es -> spares_log log es -> 0 <= i -> i + Z.of_nat (length es) <= REDOLOG_ENTRIES ->
  log_holds (mem s) log i es -> execute_loop (length es) log i s = run_entries es s.
Proof.
  revert i s. induction es as [|e es IH]; intros i s Hwf Hsp Hi Hlen Hh; cbn [execute_loop run_entries length] in *; [done|].
  pose proof (Hh 0%nat e eq_refl) as H0. rewrite Z.add_0_r in H0. rewrite H0.
  rewrite execute_entry_eq. destruct (entry_null e); [done|]. cbn [obind].
  inversion Hwf as [|? ? Hwe Hws]. subst.
  apply IH; [done| |lia|lia|].
  - intros e' a k He'. apply Hsp. by right.
  - cbn [mem]. apply (log_holds_ext (mem s)); [done| |].
    + intros a Ha. apply (entry_spares _ _ log).
      * intros b k Hb. apply Hsp; [by left|done].
      * unfold entry_at, sizeof_log_entry, REDOLOG_ENTRIES in *. lia.
    + intros j e' Hj. rewrite <- (Hh (S j) e' Hj). f_equal. lia.
Qed.

Lemma decode_commit m log i :
  load32 m (entry_at log i) = COMMIT -> decode m log i = ECommit (load64 m (entry_at log i + 8)).
Proof. unfold decode. intros ->. reflexivity. Qed.

Lemma wf_not_commit m log i : wf_entry (decode m log i) -> (load32 m (entry_at log i) =? COMMIT) = false.
Proof. intros H. apply Z.eqb_neq. intros E. by rewrite decode_commit in H. Qed.

Lemma scan_commit_found k m log es i :
  Forall wf_entry es -> 0 < log -> committed m log es -> 0 <= i <= Z.of_nat (length es) ->
  Z.of_nat (length es) < i + Z.of_nat k ->
  scan_commit k m log i = Ret (Some (Z.of_nat (length es)), true).
Proof.
  intros Hwf Hlog (Hh & Ht & c & Hc & Hl). revert i.
  induction k as [|k IH]; intros i Hi Hk; [lia|]. cbn [scan_commit].
  destruct (Z.eq_dec i (Z.of_nat (length es))) as [->|Hne].
  - rewrite Ht, Z.eqb_refl. unfold util_checksum.
    replace (sizeof_log_entry * Z.of_nat (length es)) with (4 * (14 * Z.of_nat (length es)))
      by (unfold sizeof_log_entry; lia).
    rewrite (checksum_compute_ext m m _ _ _ 0), Hc by (unfold entry_at, sizeof_log_entry; lia || done).
    cbn [obind truthy Z.eqb negb]. rewrite Hl, Z.eqb_refl. done.
  - destruct (lookup_lt_is_Some_2 es (Z.to_nat i)) as [e He]; [lia|].
    pose proof (Hh _ _ He) as D. rewrite Z.add_0_l, Z2Nat.id in D by lia.
    rewrite wf_not_commit; [apply IH; lia|]. rewrite D. by eapply Forall_lookup_1.
Qed.

Lemma recover_committed log es s :
  Forall wf_entry es -> 0 < log -> Z.of_nat (length es) < REDOLOG_ENTRIES -> spares_log log es ->
  committed (mem s) log es ->
  recover_with_redolog log s = let! s' := run_entries es s in Ret (s', 0).
Proof.
  intros Hwf Hlog Hn Hsp Hc. unfold recover_with_redolog.
  rewrite (scan_commit_found _ _ _ es) by (done || (unfold REDOLOG_ENTRIES in *; lia)). cbn [obind].
  unfold execute_log. rewrite Nat2Z.id.
  rewrite (execute_loop_run log es) by (done || lia || apply Hc). done.
Qed.

Lemma spares_all log es a k :
  spares_log log es -> log <= a < entry_at log REDOLOG_ENTRIES -> touched_all es a k = false.
Proof.
  intros H Ha. unfold touched_all. apply not_true_is_false. intros E.
  apply existsb_exists in E as (e & He & Ht). apply list_elem_of_In in He.
  by rewrite (H e a k) in Ht.
Qed.

(** C40. Every kind of entry round-trips: recording an entry in a free slot of the
    log succeeds, advances the position, and executing the log later reads back
    the recorded fields; the entries before it and the memory around the log are
    untouched. *)
Theorem log_entry_roundtrip (e : log_entry) (m : bytes) (log pos : Z) :
  wf_entry e -> 0 <= pos < REDOLOG_ENTRIES ->
  exists m', append_entry e m log pos = Ret (m', pos + 1) /\ decode m' log pos = e /\
    (forall a, a < entry_at log pos \/ entry_at log REDOLOG_ENTRIES <= a -> rd m' a = rd m a).
Proof.
  intros Hwf Hpos. destruct (append_decode e m log pos Hwf Hpos) as (m' & E & D).
  exists m'. split; [done|]. split; [done|]. intros a. by eapply append_frame.
Qed.

(** C1. A committed transaction is recovered exactly: after the entries and the
    commit record have been written, recovery from any state that still holds
    the log finds the commit, validates the checksum and executes the recorded
    entries, in order, and nothing else. *)
Theorem committed_log_recovers (es : list log_entry) (m : bytes) (log : Z) :
  Forall wf_entry es -> 0 < log -> Z.of_nat (length es) < REDOLOG_ENTRIES -> spares_log log es ->
  exists m', commit_log es m log = Ret (m', Z.of_nat (length es) + 1) /\
    forall s, (forall a, log <= a < entry_at log REDOLOG_ENTRIES -> rd m' a = rd (mem s) a) ->
      recover_with_redolog log s = let! s' := run_entries es s in Ret (s', 0).
Proof.
  intros Hwf Hlog Hn Hsp. destruct (commit_log_spec es m log Hwf Hlog Hn) as (m' & E & Hc & _).
  exists m'. split; [done|]. intros s Hs. apply recover_committed; [done..|].
  by apply (committed_ext m').
Qed.


(** ** Examples *)

Definition example_entries : list log_entry := [EVal 5000 42; ETwoVal 6000 1 6008 2].

Lemma example_entries_wf : Forall wf_entry example_entries.
Proof. repeat constructor; cbn; unfold is_u64; lia. Qed.

Lemma example_entries_spare : spares_log 100 example_entries.
Proof.
  intros e a k He Ha. unfold entry_at, sizeof_log_entry, REDOLOG_ENTRIES in Ha. unfold example_entries in He.
  rewrite !elem_of_cons, elem_of_nil in He.
  destruct He as [-> |[-> |[]]]; unfold touched; cbn [entry_updates existsb U64 update_region];
    unfold rng; zb; try lia; done.
Qed.

Definition example_buddy : buddy := default (Buddy 0 0 0 0 (BuddyTree 0 0 0 ∅) 0) (buddy_init 4096 65536 320).

Definition example_log : bytes :=
  match commit_log example_entries ∅ 100 with Ret (m, _) => m | Bug => ∅ end.

Lemma log_entry_roundtrip_witness :
  exists m', append_entry (EObjHdrAlloc (ObjHdrAlloc 4096 65536 100 3 336 [107; 118; 0] 2)) ∅ 100 4
             = Ret (m', 5) /\
    decode m' 100 4 = EObjHdrAlloc (ObjHdrAlloc 4096 65536 100 3 336 [107; 118; 0] 2) /\
    (forall a, a < entry_at 100 4 \/ entry_at 100 REDOLOG_ENTRIES <= a -> rd m' a = rd ∅ a).
Proof.
  apply (log_entry_roundtrip (EObjHdrAlloc (ObjHdrAlloc 4096 65536 100 3 336 [107; 118; 0] 2)) ∅ 100 4);
    [|unfold REDOLOG_ENTRIES; lia].
  cbn. unfold is_u64, is_u16. repeat split; try lia. exists [107; 118].
  split; [reflexivity|]. split; [repeat constructor; unfold is_char; lia|reflexivity].
Defined.

Lemma committed_log_recovers_witness :
  exists m', commit_log example_entries ∅ 100 = Ret (m', 3) /\
    forall s, (forall a, 100 <= a < entry_at 100 REDOLOG_ENTRIES -> rd m' a = rd (mem s) a) ->
      recover_with_redolog 100 s = let! s' := run_entries example_entries s in Ret (s', 0).
Proof.
  apply (committed_log_recovers example_entries ∅ 100);
    [apply example_entries_wf|lia|reflexivity|apply example_entries_spare].
Defined.


(** A commit record left by an earlier transaction is not told apart from a
    damaged one: when the machine stops after the first entry of a new
    transaction has been recorded over an old three-record log, recovery
    reports a malformed log although nothing of the new transaction was
    committed. *)
Theorem stale_commit_rejected (b : buddy) (cur : Z) :
  match append_entry (EVal 7000 9) example_log 100 0 with
  | Ret (m, _) => recover_with_redolog 100 (Shm m b cur) = Ret (Shm m b cur, ELOG_ERR)
  | Bug => False
  end.
Proof. vm_compute. reflexivity. Qed.

(** Strings are reasoned about with the lemmas above; their fuel is not to be
    unfolded. *)
#[global] Opaque cstring.
