(* ===== verification/ListQueue.v ===== *)
(** The doubly linked queues of object headers and of record blocks:
    src/driver/src/list_queue.c and list_queue.h.  The operations do not change
    the queue; they record log entries that change it when the log is
    executed. *)
From Stdlib Require Import ZArith Lia Bool.
From stdpp Require Import base list gmap numbers.
From S2P Require Import Prelude Bitset Checksum Redo BuddyTree BuddyAlloc ShmemLog LogSpec.
Local Open Scope Z_scope.
Local Open Scope lupin_scope.

(** ** Operations *)

(** struct list_queue: the first and the last element. *)
Definition PE_FIRST_OFF : Z := 0.
Definition PE_TAIL_OFF : Z := 8.

Definition le_prev_optr (le_optr : Z) : Z := u64 (le_optr + LE_PREV_OFF).
Definition le_next_optr (le_optr : Z) : Z := u64 (le_optr + LE_NEXT_OFF).

(** [shmem_optr_from_ptr] of a pointer kept as an offset; [None] is null. *)
Definition optr_of (p : option Z) : Z := match p with None => 0 | Some off => u64 off end.

(** [lq] is the offset of the queue, [le] the entry to append. *)
Definition record_list_queue_append (m : bytes) (log pos lq : Z) (le : option Z)
  : outcome (bytes * Z) :=
  let le_optr := optr_of le in
  let prev_optr := le_prev_optr le_optr in
  let next_optr := le_next_optr le_optr in
  let pe_first := load64 m (lq + PE_FIRST_OFF) in
  let pe_tail := load64 m (lq + PE_TAIL_OFF) in
  let! r :=
    if shmem_optr_is_null pe_first then
      set_two_value_log_entry m log pos prev_optr 0 (lq + PE_FIRST_OFF) le_optr
    else
      set_two_value_log_entry m log pos prev_optr pe_tail (le_next_optr pe_tail) le_optr in
  let (m, pos) := r : bytes * Z in
  set_two_value_log_entry m log pos next_optr 0 (lq + PE_TAIL_OFF) le_optr.

Definition record_list_queue_remove (m : bytes) (log pos lq : Z) (le : option Z)
  : outcome (bytes * Z) :=
  match le with
  | None => Bug
  | Some p =>
      let le_optr := optr_of le in
      let pe_next := load64 m (p + LE_NEXT_OFF) in
      let pe_prev := load64 m (p + LE_PREV_OFF) in
      if shmem_optr_equals (load64 m (lq + PE_FIRST_OFF)) le_optr && shmem_optr_is_null pe_next then
        set_value_log_entry m log pos (lq + PE_FIRST_OFF) 0
      else
        let! r := set_two_value_log_entry m log pos
          (le_prev_optr pe_next) pe_prev (le_next_optr pe_prev) pe_next in
        let (m, pos) := r : bytes * Z in
        if shmem_optr_equals (load64 m (lq + PE_FIRST_OFF)) le_optr then
          set_value_log_entry m log pos (lq + PE_FIRST_OFF) (load64 m (p + LE_NEXT_OFF))
        else Ret (m, pos)
  end.

(** ** The queue as a list *)

(** [l] is linked from [prev] to the end; each element is the offset of its
    list entry. *)
Fixpoint linked (m : bytes) (prev : Z) (l : list Z) : Prop :=
  match l with
  | [] => True
  | x :: rest =>
      load64 m (x + LE_PREV_OFF) = prev /\ load64 m (x + LE_NEXT_OFF) = default 0 (head rest) /\
      linked m x rest
  end.

Definition apart (a n b k : Z) : Prop := a + n <= b \/ b + k <= a.

(** The entries are proper objects: inside the address space, not overlapping
    each other or the queue. *)
Record entries_ok (lq : Z) (l : list Z) : Prop := EntriesOk {
  eo_queue : 0 < lq /\ lq + 16 < 2 ^ 64;
  eo_range : forall x, x ∈ l -> 0 < x /\ x + 16 < 2 ^ 64;
  eo_lq : forall x, x ∈ l -> apart x 16 lq 16;
  eo_apart : forall x y, x ∈ l -> y ∈ l -> x <> y -> apart x 16 y 16;
  eo_nodup : NoDup l }.

Record queue (m : bytes) (lq : Z) (l : list Z) : Prop := Queue {
  q_first : load64 m (lq + PE_FIRST_OFF) = default 0 (head l);
  q_tail : forall x, list.last l = Some x -> load64 m (lq + PE_TAIL_OFF) = x;
  q_linked : linked m 0 l;
  q_ok : entries_ok lq l }.

(** The entries an append records. *)
Definition append_entries (lq le : Z) (l : list Z) : list log_entry :=
  [match list.last l with
   | None => ETwoVal (le + LE_PREV_OFF) 0 (lq + PE_FIRST_OFF) le
   | Some t => ETwoVal (le + LE_PREV_OFF) t (t + LE_NEXT_OFF) le
   end;
   ETwoVal (le + LE_NEXT_OFF) 0 (lq + PE_TAIL_OFF) le].

(** The entries a removal between [p] and [n] records. *)
Definition remove_entries (p n : Z) : list log_entry :=
  [ETwoVal (n + LE_PREV_OFF) p (p + LE_NEXT_OFF) n].

(** ** Lemmas *)

Lemma linked_ext m m' prev l :
  (forall x, x ∈ l -> load64 m' (x + LE_PREV_OFF) = load64 m (x + LE_PREV_OFF) /\
                      load64 m' (x + LE_NEXT_OFF) = load64 m (x + LE_NEXT_OFF)) ->
  linked m prev l -> linked m' prev l.
Proof.
  revert prev. induction l as [|x l IH]; intros prev H; cbn [linked]; [done|].
  intros (Hp & Hn & Hl). destruct (H x) as [-> ->]; [by left|]. split; [done|]. split; [done|].
  apply IH; [|done]. intros y Hy. apply H. by right.
Qed.

Lemma linked_snoc m m' prev l le :
  (forall x, x ∈ l -> load64 m' (x + LE_PREV_OFF) = load64 m (x + LE_PREV_OFF)) ->
  (forall x, x ∈ l -> list.last l <> Some x -> load64 m' (x + LE_NEXT_OFF) = load64 m (x + LE_NEXT_OFF)) ->
  (forall t, list.last l = Some t -> load64 m' (t + LE_NEXT_OFF) = le) ->
  load64 m' (le + LE_PREV_OFF) = default prev (list.last l) -> load64 m' (le + LE_NEXT_OFF) = 0 ->
  NoDup l -> linked m prev l -> linked m' prev (l ++ [le]).
Proof.
  revert prev. induction l as [|x l IH]; intros prev Hp Hn Ht Hlp Hln Hnd; cbn [linked app].
  - intros _. split; [done|]. by split.
  - intros (Hxp & Hxn & Hl). apply list.NoDup_cons in Hnd as [Hx Hnd].
    split; [rewrite Hp; [done|by left]|]. split.
    + destruct l as [|y l]; [by apply Ht|]. rewrite Hn; [done|by left|].
      rewrite last_cons_cons. intros E. apply Hx. by apply last_Some_elem_of in E.
    + assert (Hlast : forall z, list.last l = Some z -> list.last (x :: l) = Some z).
      { intros z Hz. destruct l; [done|]. by rewrite last_cons_cons. }
      apply IH; try done.
      * intros z Hz. apply Hp. by right.
      * intros z Hz Hne. apply Hn; [by right|]. destruct l; [by apply elem_of_nil in Hz|].
        by rewrite last_cons_cons.
      * intros z Hz. apply Ht. by apply Hlast.
      * rewrite Hlp. destruct l as [|y l]; [done|]. rewrite last_cons_cons.
        destruct (list.last (y :: l)) eqn:E; [done|]. by apply last_None in E.
Qed.

Lemma linked_remove m m' prev l1 p x n l2 :
  (forall y, y ∈ l1 ++ [p; n] ++ l2 -> y <> n -> load64 m' (y + LE_PREV_OFF) = load64 m (y + LE_PREV_OFF)) ->
  (forall y, y ∈ l1 ++ [p; n] ++ l2 -> y <> p -> load64 m' (y + LE_NEXT_OFF) = load64 m (y + LE_NEXT_OFF)) ->
  load64 m' (p + LE_NEXT_OFF) = n -> load64 m' (n + LE_PREV_OFF) = p ->
  NoDup (l1 ++ p :: x :: n :: l2) ->
  linked m prev (l1 ++ p :: x :: n :: l2) -> linked m' prev (l1 ++ p :: n :: l2).
Proof.
  intros Hp Hn Hpn Hnp. revert prev. induction l1 as [|y l1 IH]; intros prev Hnd; cbn [app linked].
  - intros (H1 & _ & _ & _ & H2 & H3 & H4). cbn [app] in Hnd.
    rewrite !list.NoDup_cons, !elem_of_cons in Hnd. destruct Hnd as (Hnp' & _ & Hnn & _).
    rewrite Hp by (set_solver). split; [done|]. split; [done|]. split; [done|].
    rewrite Hn by (set_solver). split; [done|].
    apply (linked_ext m); [|done]. intros z Hz.
    split; [apply Hp|apply Hn]; set_solver.
  - intros (H1 & H2 & H3). cbn [app] in Hnd. apply list.NoDup_cons in Hnd as [Hy Hnd].
    rewrite Hp, Hn by (set_solver). split; [done|]. split.
    + destruct l1; done.
    + apply IH; try done; intros z Hz; [apply Hp|apply Hn]; set_solver.
Qed.

Lemma load64_store64_apart m a b v : apart a 8 b 8 -> load64 (store64 m b v) a = load64 m a.
Proof. intros H. apply load64_store64_out. unfold apart in H. lia. Qed.

(** A queue is determined by the 16 bytes of each entry and of its own. *)
Lemma queue_ext m m' lq l :
  (forall a, (lq <= a < lq + 16 \/ exists x, x ∈ l /\ x <= a < x + 16) -> rd m' a = rd m a) ->
  queue m lq l -> queue m' lq l.
Proof.
  intros H [Hf Ht Hl Hok]. split; [..|done].
  - rewrite <- Hf. apply load64_ext. intros a Ha. apply H. unfold PE_FIRST_OFF in Ha. lia.
  - intros x Hx. rewrite <- (Ht x Hx). apply load64_ext. intros a Ha. apply H. unfold PE_TAIL_OFF in Ha. lia.
  - apply (linked_ext m); [|done]. intros x Hx. unfold LE_PREV_OFF, LE_NEXT_OFF.
    split; apply load64_ext; intros a Ha; apply H; right; exists x; (split; [done|lia]).
Qed.

Lemma last_in (l : list Z) t : list.last l = Some t -> t ∈ l.
Proof. apply last_Some_elem_of. Qed.

Lemma head_none m lq l : queue m lq l -> load64 m (lq + PE_FIRST_OFF) = 0 <-> l = [].
Proof.
  intros Q. rewrite (q_first _ _ _ Q). destruct l as [|x l]; [done|]. cbn.
  destruct (eo_range _ _ (q_ok _ _ _ Q) x); [by left|]. split; [lia|done].
Qed.

Lemma optr_of_small x : 0 <= x < 2 ^ 64 -> optr_of (Some x) = x.
Proof. apply u64_small. Qed.
Lemma le_prev_small x : 0 <= x -> x + 16 < 2 ^ 64 -> le_prev_optr x = x + LE_PREV_OFF.
Proof. intros. unfold le_prev_optr, LE_PREV_OFF. apply u64_small. lia. Qed.
Lemma le_next_small x : 0 <= x -> x + 16 < 2 ^ 64 -> le_next_optr x = x + LE_NEXT_OFF.
Proof. intros. unfold le_next_optr, LE_NEXT_OFF. apply u64_small. lia. Qed.

Lemma entries_ok_snoc lq l le x :
  entries_ok lq (l ++ [le]) -> x ∈ l ->
  apart x 16 le 16 /\ apart x 16 lq 16 /\ 0 < x /\ x + 16 < 2 ^ 64 /\ x <> le.
Proof.
  intros [_ Hr Hq Ha Hnd] Hx. apply list.NoDup_app in Hnd as (_ & Hd & _).
  assert (x <> le) by (intros ->; apply (Hd le Hx); by left).
  assert (x ∈ l ++ [le]) by (apply elem_of_app; by left).
  assert (le ∈ l ++ [le]) by (apply elem_of_app; right; by left).
  pose proof (Ha x le). pose proof (Hr x). pose proof (Hq x). naive_solver.
Qed.

Lemma entries_ok_new lq l le :
  entries_ok lq (l ++ [le]) -> apart le 16 lq 16 /\ 0 < le /\ le + 16 < 2 ^ 64 /\ 0 < lq /\ lq + 16 < 2 ^ 64.
Proof.
  intros [Hlq Hr Hq _ _]. assert (le ∈ l ++ [le]) by (apply elem_of_app; right; by left).
  pose proof (Hr le). pose proof (Hq le). naive_solver.
Qed.

(** Recording an append writes the entries that [append_entries] lists. *)
Lemma record_append_eq m log pos lq l le :
  queue m lq l -> entries_ok lq (l ++ [le]) ->
  record_list_queue_append m log pos lq (Some le) = append_all (append_entries lq le l) m log pos.
Proof.
  intros Q Hok. destruct (entries_ok_new _ _ _ Hok) as (Hle & Hle0 & Hle1 & Hlq0 & Hlq1).
  unfold record_list_queue_append. cbn [append_all append_entries].
  rewrite optr_of_small, (le_prev_small le), (le_next_small le) by lia. unfold shmem_optr_is_null.
  destruct (list.last l) as [t|] eqn:E.
  - assert (Hl : l <> []) by (intros ->; done).
    destruct (Z.eqb_spec (load64 m (lq + PE_FIRST_OFF)) 0) as [E0|_];
      [by apply (head_none _ _ _ Q) in E0|].
    rewrite (q_tail _ _ _ Q t E).
    destruct (entries_ok_snoc _ _ _ t Hok (last_in _ _ E)) as (_ & _ & H1 & H2 & _).
    rewrite le_next_small by lia. cbn [append_entry].
    destruct (set_two_value_log_entry _ _ _ _ _ _ _) as [[m1 p1]|]; [|done].
    cbn [obind fst snd]. by destruct (set_two_value_log_entry _ _ _ _ _ _ _) as [[? ?]|].
  - apply last_None in E as ->. rewrite (q_first _ _ _ Q). cbn [head default Z.eqb append_entry].
    destruct (set_two_value_log_entry _ _ _ _ _ _ _) as [[m1 p1]|]; [|done].
    cbn [obind fst snd]. by destruct (set_two_value_log_entry _ _ _ _ _ _ _) as [[? ?]|].
Qed.

Lemma mem_of_two_val o1 v1 o2 v2 es m :
  mem_of (ETwoVal o1 v1 o2 v2 :: es) m = mem_of es (store64 (store64 m o1 v1) o2 v2).
Proof. reflexivity. Qed.

Ltac off_consts := unfold LE_PREV_OFF, LE_NEXT_OFF, PE_FIRST_OFF, PE_TAIL_OFF, apart in *.

(** Loads through the four stores of an append. *)
Ltac lstore := repeat first
  [ rewrite load64_store64 | rewrite load64_store64_apart by (off_consts; lia) ].

Lemma append_effect m lq l le :
  queue m lq l -> entries_ok lq (l ++ [le]) -> queue (mem_of (append_entries lq le l) m) lq (l ++ [le]).
Proof.
  intros Q Hok. destruct (entries_ok_new _ _ _ Hok) as (Hle & Hle0 & Hle1 & Hlq0 & Hlq1).
  pose proof (fun x => entries_ok_snoc _ _ _ x Hok) as Hx. unfold append_entries.
  destruct (list.last l) as [t|] eqn:E; rewrite !mem_of_two_val; cbn [mem_of fold_left].
  - destruct (Hx t (last_in _ _ E)) as (Ht1 & Ht2 & Ht3 & Ht4 & Ht5). split; [..|done].
    + lstore. rewrite (q_first _ _ _ Q). by destruct l.
    + intros x. rewrite last_snoc. intros [= <-]. lstore. apply u64_small. lia.
    + apply (linked_snoc m); rewrite ?E; cbn [default].
      * intros x Hxl. destruct (Hx x Hxl) as (H1 & H2 & _). destruct (decide (x = t)) as [->|Hne]; lstore; [done|].
        destruct (eo_apart _ _ (q_ok _ _ _ Q) x t Hxl (last_in _ _ E) Hne); lstore; done.
      * intros x Hxl Hne. destruct (Hx x Hxl) as (H1 & H2 & _).
        assert (x <> t) by congruence.
        destruct (eo_apart _ _ (q_ok _ _ _ Q) x t Hxl (last_in _ _ E)) as [Ha|Ha]; [done|lstore; done..].
      * intros t' [= <-]. lstore. apply u64_small. lia.
      * lstore. unfold id. apply u64_small. lia.
      * by lstore.
      * apply Q.
      * apply Q.
  - apply last_None in E as ->. cbn [app]. split; [..|done].
    + lstore. cbn. apply u64_small. lia.
    + intros x [= <-]. lstore. apply u64_small. lia.
    + cbn [linked]. lstore. cbn. done.
Qed.

(** Removing an entry that has both neighbours. *)
Lemma record_remove_middle_eq m log pos lq l1 p x n l2 :
  queue m lq (l1 ++ p :: x :: n :: l2) -> 0 <= pos < REDOLOG_ENTRIES ->
  apart lq 16 log 560 ->
  record_list_queue_remove m log pos lq (Some x) = append_all (remove_entries p n) m log pos.
Proof.
  intros Q Hpos Hlog. set (l := l1 ++ p :: x :: n :: l2) in *.
  assert (Hin : p ∈ l /\ x ∈ l /\ n ∈ l) by (subst l; set_solver). destruct Hin as (Hp & Hx & Hn).
  pose proof (eo_range _ _ (q_ok _ _ _ Q)) as Hr.
  assert (Hlk : load64 m (x + LE_NEXT_OFF) = n /\ load64 m (x + LE_PREV_OFF) = p).
  { pose proof (q_linked _ _ _ Q) as L. subst l. clear -L. revert L. generalize 0.
    induction l1 as [|y l1 IH]; intros q; cbn [app linked]; [naive_solver|]. intros (_ & _ & L). by apply (IH y). }
  destruct Hlk as [Hxn Hxp].
  assert (Hne : load64 m (lq + PE_FIRST_OFF) <> x).
  { rewrite (q_first _ _ _ Q). pose proof (eo_nodup _ _ (q_ok _ _ _ Q)) as Hnd. subst l.
    destruct l1; cbn in *; rewrite list.NoDup_cons in Hnd; destruct Hnd as [Hnd _]; set_solver. }
  unfold record_list_queue_remove, shmem_optr_equals, shmem_optr_is_null.
  rewrite optr_of_small by (apply Hr in Hx; lia).
  destruct (Z.eqb_spec (load64 m (lq + PE_FIRST_OFF)) x) as [|_]; [done|]. cbn [andb].
  rewrite Hxn, Hxp. apply Hr in Hp, Hn. rewrite le_prev_small, le_next_small by lia.
  unfold remove_entries. cbn [append_all append_entry].
  assert (Hwf : wf_entry (ETwoVal (n + LE_PREV_OFF) p (p + LE_NEXT_OFF) n))
    by (cbn; unfold is_u64; off_consts; lia).
  destruct (append_decode _ m log pos Hwf Hpos) as (m1 & E1 & _).
  pose proof (fun a => append_frame _ _ _ _ _ _ a Hwf Hpos E1) as F. cbn [append_entry] in E1.
  rewrite E1. cbn [obind fst snd].
  rewrite (load64_ext m1 m) by (intros a Ha; apply F; unfold entry_at, sizeof_log_entry, REDOLOG_ENTRIES in *; off_consts; lia).
  by destruct (Z.eqb_spec (load64 m (lq + PE_FIRST_OFF)) x).
Qed.

Lemma entries_ok_sub lq l l' : l' `sublist_of` l -> entries_ok lq l -> entries_ok lq l'.
Proof.
  intros Hs [H1 H2 H3 H4 H5].
  assert (Hi : forall x, x ∈ l' -> x ∈ l) by (intros x Hx; by apply (elem_of_submseteq l' l x Hx), sublist_submseteq).
  split; eauto. by eapply sublist_NoDup.
Qed.

Lemma remove_effect m lq l1 p x n l2 :
  queue m lq (l1 ++ p :: x :: n :: l2) -> queue (mem_of (remove_entries p n) m) lq (l1 ++ p :: n :: l2).
Proof.
  intros Q. unfold remove_entries. rewrite mem_of_two_val. cbn [mem_of fold_left].
  pose proof (q_ok _ _ _ Q) as [Hlq Hr Hq Ha Hnd].
  assert (Hap : forall y z, y ∈ l1 ++ [p; n] ++ l2 -> z = p \/ z = n -> y <> z -> apart y 16 z 16)
    by (intros y z Hy Hz Hyz; apply Ha; set_solver).
  assert (Hpq : apart p 16 lq 16) by (apply Hq; set_solver).
  assert (Hnq : apart n 16 lq 16) by (apply Hq; set_solver).
  assert (Hpn : p <> n).
  { intros ->. apply list.NoDup_app in Hnd as (_ & _ & Hnd). apply list.NoDup_cons in Hnd as [Hnd _]. set_solver. }
  assert (apart p 16 n 16) by (apply Hap; set_solver).
  assert (Hrp : 0 < p /\ p + 16 < 2 ^ 64) by (apply Hr; set_solver).
  assert (Hrn : 0 < n /\ n + 16 < 2 ^ 64) by (apply Hr; set_solver).
  split.
  - lstore. rewrite (q_first _ _ _ Q). by destruct l1.
  - intros y Hy. lstore. apply (q_tail _ _ _ Q). rewrite <- Hy. by rewrite !last_app.
  - apply (linked_remove m _ 0 l1 p x n l2); [..|done|apply Q].
    + intros y Hy Hyn. destruct (decide (y = p)) as [->|Hyp]; [by lstore|].
      pose proof (Hap y n Hy). pose proof (Hap y p Hy). assert (apart y 16 n 16) by naive_solver.
      assert (apart y 16 p 16) by naive_solver. by lstore.
    + intros y Hy Hyp. destruct (decide (y = n)) as [->|Hyn]; [by lstore|].
      pose proof (Hap y n Hy). pose proof (Hap y p Hy). assert (apart y 16 n 16) by naive_solver.
      assert (apart y 16 p 16) by naive_solver. by lstore.
    + lstore. apply u64_small. lia.
    + lstore. apply u64_small. lia.
  - eapply entries_ok_sub; [|apply Q]. apply sublist_app; [done|]. apply sublist_skip, sublist_cons. done.
Qed.

(** ** Correctness *)

Lemma load64_u64 m a : is_u64 (load64 m a).
Proof. unfold is_u64. pose proof (load_range m a 8). unfold load64. lia. Qed.

Lemma append_entries_wf lq le l m :
  queue m lq l -> entries_ok lq (l ++ [le]) ->
  Forall wf_entry (append_entries lq le l) /\ existsb entry_null (append_entries lq le l) = false.
Proof.
  intros Q Hok. destruct (entries_ok_new _ _ _ Hok) as (Hle & Hle0 & Hle1 & Hlq0 & Hlq1).
  unfold append_entries. destruct (list.last l) as [t|] eqn:E.
  - destruct (entries_ok_snoc _ _ _ t Hok (last_in _ _ E)) as (_ & _ & Ht0 & Ht1 & _).
    split; [repeat constructor; cbn; unfold is_u64; off_consts; lia|].
    cbn [existsb entry_null]. off_consts. zb; lia || done.
  - split; [repeat constructor; cbn; unfold is_u64; off_consts; lia|].
    cbn [existsb entry_null]. off_consts. zb; lia || done.
Qed.

(** Appending to a queue: recording succeeds with two log entries, and
    executing them on any memory that holds the queue appends the element at
    the tail, whether the queue was empty or not. *)
Theorem list_append_correct (m : bytes) (log pos lq le : Z) (l : list Z) :
  queue m lq l -> entries_ok lq (l ++ [le]) -> 0 <= pos -> pos + 2 <= REDOLOG_ENTRIES ->
  exists m1 es, record_list_queue_append m log pos lq (Some le) = Ret (m1, pos + 2) /\
    log_holds m1 log pos es /\ existsb entry_null es = false /\
    forall m', queue m' lq l -> queue (mem_of es m') lq (l ++ [le]).
Proof.
  intros Q Hok H0 H2. rewrite (record_append_eq _ _ _ _ _ _ Q Hok).
  destruct (append_entries_wf _ _ _ _ Q Hok) as [Hwf Hn].
  destruct (append_all_spec _ m log pos Hwf H0 H2) as (m1 & E & Hh & _).
  exists m1, (append_entries lq le l). split; [done|]. split; [done|]. split; [done|].
  intros m' Q'. by apply append_effect.
Qed.

(** Removing an element that has a predecessor and a successor: one log
    entry is recorded, and executing it on any memory that holds the queue
    unlinks exactly that element. *)
Theorem list_remove_middle_correct (m : bytes) (log pos lq p x n : Z) (l1 l2 : list Z) :
  queue m lq (l1 ++ p :: x :: n :: l2) -> 0 <= pos < REDOLOG_ENTRIES -> apart lq 16 log 560 ->
  exists m1 es, record_list_queue_remove m log pos lq (Some x) = Ret (m1, pos + 1) /\
    log_holds m1 log pos es /\ existsb entry_null es = false /\
    forall m', queue m' lq (l1 ++ p :: x :: n :: l2) -> queue (mem_of es m') lq (l1 ++ p :: n :: l2).
Proof.
  intros Q Hpos Hlog. rewrite (record_remove_middle_eq _ _ _ _ _ _ _ _ _ Q Hpos Hlog).
  pose proof (eo_range _ _ (q_ok _ _ _ Q)) as Hr.
  assert (Hp : 0 < p /\ p + 16 < 2 ^ 64) by (apply Hr; set_solver).
  assert (Hn : 0 < n /\ n + 16 < 2 ^ 64) by (apply Hr; set_solver).
  assert (Hwf : Forall wf_entry (remove_entries p n))
    by (repeat constructor; cbn; unfold is_u64; off_consts; lia).
  destruct (append_all_spec _ m log pos Hwf) as (m1 & E & Hh & _); [lia|cbn; unfold REDOLOG_ENTRIES in *; lia|].
  exists m1, (remove_entries p n). split; [done|]. split; [done|]. split.
  - cbn [existsb remove_entries entry_null]. off_consts. zb; lia || done.
  - intros m'. apply remove_effect.
Qed.

(** The queue of the examples: objects at 1000, 2000 and 3000, the queue at 700. *)
Definition example_queue (l : list Z) : bytes :=
  fst (fold_left (fun st x => (mem_of (append_entries 700 x (snd st)) (fst st), snd st ++ [x])) l (∅, [])).

Lemma prefix_sublist (l k : list Z) : l `prefix_of` k -> l `sublist_of` k.
Proof. intros [r ->]. by apply sublist_inserts_r. Qed.

Lemma example_ok l : l `sublist_of` [1000; 2000; 3000; 4000] -> entries_ok 700 l.
Proof.
  intros Hs. eapply entries_ok_sub; [exact Hs|]. split.
  - lia.
  - intros x Hx. rewrite !elem_of_cons, elem_of_nil in Hx. lia.
  - intros x Hx. rewrite !elem_of_cons, elem_of_nil in Hx. unfold apart. lia.
  - intros x y Hx Hy. rewrite !elem_of_cons, elem_of_nil in Hx, Hy. unfold apart. lia.
  - apply (bool_decide_unpack _). reflexivity.
Qed.

Lemma example_queue_ok l : l `prefix_of` [1000; 2000; 3000; 4000] -> queue (example_queue l) 700 l.
Proof.
  intros Hp. unfold example_queue.
  assert (H : forall l, l `prefix_of` [1000; 2000; 3000; 4000] ->
    let st := fold_left (fun st x => (mem_of (append_entries 700 x (snd st)) (fst st), snd st ++ [x])) l (∅, []) in
    snd st = l /\ queue (fst st) 700 l); [|by apply H].
  clear l Hp. intros l. induction l as [|x l IH] using rev_ind; intros Hp; cbn zeta.
  - split; [done|]. split; [reflexivity|done|done|]. apply example_ok, sublist_nil_l.
  - rewrite fold_left_app. cbn [fold_left fst snd].
    destruct IH as [E Q]; [by eapply prefix_app_l|]. rewrite E. split; [done|].
    apply append_effect; [done|]. apply example_ok. by apply prefix_sublist.
Qed.

Lemma list_append_correct_witness :
  exists m1 es, record_list_queue_append (example_queue [1000; 2000]) 100 1 700 (Some 3000) = Ret (m1, 1 + 2) /\
    log_holds m1 100 1 es /\ existsb entry_null es = false /\
    forall m', queue m' 700 [1000; 2000] -> queue (mem_of es m') 700 ([1000; 2000] ++ [3000]).
Proof.
  apply (list_append_correct (example_queue [1000; 2000]) 100 1 700 3000 [1000; 2000]).
  - apply example_queue_ok. by exists [3000; 4000].
  - apply example_ok. apply prefix_sublist. by exists [4000].
  - lia.
  - unfold REDOLOG_ENTRIES. lia.
Defined.

Lemma list_remove_middle_correct_witness :
  exists m1 es, record_list_queue_remove (example_queue [1000; 2000; 3000]) 100 1 700 (Some 2000) = Ret (m1, 1 + 1) /\
    log_holds m1 100 1 es /\ existsb entry_null es = false /\
    forall m', queue m' 700 ([] ++ 1000 :: 2000 :: 3000 :: []) -> queue (mem_of es m') 700 ([] ++ 1000 :: 3000 :: []).
Proof.
  apply (list_remove_middle_correct (example_queue [1000; 2000; 3000]) 100 1 700 1000 2000 3000 [] []).
  - apply example_queue_ok. by exists [4000].
  - unfold REDOLOG_ENTRIES. lia.
  - unfold apart. lia.
Defined.

(** Removing the first of several elements records a log that cannot be
    executed: the write through the missing predecessor has a null target, so
    executing the entries stops the machine. *)
Theorem list_remove_first_stops (m : bytes) (log pos lq x n : Z) (l : list Z) (s : shm) :
  queue m lq (x :: n :: l) -> 0 <= pos -> pos + 2 <= REDOLOG_ENTRIES ->
  apart lq 16 log 560 -> apart x 16 log 560 ->
  exists m1 es, record_list_queue_remove m log pos lq (Some x) = Ret (m1, pos + 2) /\
    log_holds m1 log pos es /\ run_entries es s = Bug.
Proof.
  intros Q H0 H2 Hlog Hx. pose proof (eo_range _ _ (q_ok _ _ _ Q)) as Hr.
  destruct (Hr x) as [Hx0 Hx1]; [set_solver|]. destruct (Hr n) as [Hn0 Hn1]; [set_solver|].
  destruct (q_linked _ _ _ Q) as (Hxp & Hxn & _). cbn in Hxn.
  pose proof (eo_queue _ _ (q_ok _ _ _ Q)) as Hlq. unfold record_list_queue_remove, shmem_optr_equals, shmem_optr_is_null.
  rewrite (q_first _ _ _ Q), Hxn, Hxp, optr_of_small by lia. cbn [head default id].
  change (default 0 (Some x)) with x.
  rewrite Z.eqb_refl. destruct (Z.eqb_spec n 0); [lia|]. cbn [andb].
  set (es := [ETwoVal (n + LE_PREV_OFF) 0 0 n; EVal lq n]).
  assert (Hwf : Forall wf_entry es) by (repeat constructor; cbn; unfold is_u64; off_consts; lia).
  destruct (append_all_spec es m log pos Hwf H0 H2) as (m1 & E & Hh & _).
  exists m1, es. split; [|split; [done|]].
  - transitivity (append_all es m log pos); [|exact E]. subst es. cbn [append_all append_entry].
    pose proof (Forall_inv Hwf) as Hw. assert (Hp : 0 <= pos < REDOLOG_ENTRIES) by (unfold REDOLOG_ENTRIES in *; lia).
    destruct (append_decode _ m log pos Hw Hp) as (m2 & E2 & _).
    pose proof (fun a => append_frame _ _ _ _ _ _ a Hw Hp E2) as F. cbn [append_entry] in E2.
    rewrite (le_prev_small n) by lia. change (le_next_optr 0) with 0. rewrite E2. cbn [obind fst snd].
    assert (F64 : forall a, apart a 8 log 560 -> load64 m2 a = load64 m a)
      by (intros a Ha; apply load64_ext; intros b Hb; apply F; unfold entry_at, sizeof_log_entry, REDOLOG_ENTRIES in *; unfold apart in Ha; lia).
    rewrite !F64 by (off_consts; lia). rewrite (q_first _ _ _ Q), Hxn. change (default 0 (head (x :: n :: l))) with x.
    rewrite Z.eqb_refl, Z.add_0_r. by destruct (set_value_log_entry _ _ _ _ _) as [[? ?]|].
  - rewrite run_entries_eq. subst es. cbn [existsb entry_null]. by rewrite Z.eqb_refl, orb_true_r.
Qed.

Lemma list_remove_first_stops_witness :
  exists m1 es, record_list_queue_remove (example_queue [1000; 2000]) 100 1 700 (Some 1000) = Ret (m1, 1 + 2) /\
    log_holds m1 100 1 es /\ run_entries es (Shm ∅ example_buddy 0) = Bug.
Proof.
  apply (list_remove_first_stops (example_queue [1000; 2000]) 100 1 700 1000 2000 []).
  - apply example_queue_ok. by exists [3000; 4000].
  - lia.
  - unfold REDOLOG_ENTRIES. lia.
  - unfold apart. lia.
  - unfold apart. lia.
Defined.

(** Removing the last of several elements leaves the tail pointer at the
    removed element: the element appended next is linked behind the removed
    one, so walking the queue from its head does not reach it, and the eight
    bytes at offset 8 of shared memory are overwritten. *)
Theorem list_remove_last_loses_append :
  let m := example_queue [1000; 2000] in
  match record_list_queue_remove m 100 0 700 (Some 2000) with
  | Ret (m1, 1) =>
      match run_entries [decode m1 100 0] (Shm m1 example_buddy 0) with
      | Ret s2 =>
          match record_list_queue_append (mem s2) 100 0 700 (Some 3000) with
          | Ret (m3, 2) =>
              match run_entries [decode m3 100 0; decode m3 100 1] (Shm m3 example_buddy 0) with
              | Ret s4 =>
                  load64 (mem s4) 700 = 1000 /\ load64 (mem s4) (1000 + LE_NEXT_OFF) = 0 /\
                  load64 (mem s4) (700 + PE_TAIL_OFF) = 3000 /\
                  load64 (mem s4) (3000 + LE_PREV_OFF) = 2000 /\ load64 (mem s4) 8 = 1000
              | Bug => False
              end
          | _ => False
          end
      | Bug => False
      end
  | _ => False
  end.
Proof. vm_compute. repeat split. Qed.
