(* ===== verification/PersistCas.v ===== *)
(** Persistent compare-and-swap: src/src/common/persist_cas.h over the atomic
    operations of src/src/common/atomic_int_op.h.

    On memory that is written back by cache line a word carries a dirty bit, its
    most significant bit, until it has been flushed: a reader that sees the bit
    flushes the line and clears it.  The operations here act on the word alone;
    each is one execution without interference, and the interleavings of its
    atomic steps are in TatasLock. *)
From Stdlib Require Import ZArith Lia Bool.
From stdpp Require Import base numbers.
From S2P Require Import Prelude.
Local Open Scope Z_scope.

(** The build-time choice of the persistence granularity. *)
Inductive granularity := DRAM | BYTE_GRANULAR | CACHELINE_GRANULAR.

#[export] Instance granularity_eq_dec : EqDecision granularity.
Proof. solve_decision. Defined.

(** ** Atomic operations on a word of [bits] bits *)

(** The result, the word afterwards and the expected value afterwards. *)
Definition atomic_cmpxchg (word exp desire : Z) : bool * Z * Z :=
  if word =? exp then (true, desire, exp) else (false, word, word).

Section Pcas.
Context (bits : Z) (g : granularity).

Definition DIRTY : Z := Z.shiftl 1 (bits - 1).
Definition CLEAR_DIRTY : Z := Z.ldiff (Z.ones bits) DIRTY.

(** The value read and the word afterwards. *)
Definition pcas_read (word : Z) : Z * Z :=
  let val := word in
  match g with
  | DRAM | BYTE_GRANULAR => (val, word)
  | CACHELINE_GRANULAR =>
      let word :=
        if truthy (Z.land val DIRTY) then
          let exp := val in
          snd (fst (atomic_cmpxchg word exp (Z.land exp CLEAR_DIRTY)))
        else word in
      (Z.land val CLEAR_DIRTY, word)
  end.

Definition pcas_read_noflush (word : Z) : Z :=
  match g with
  | DRAM | BYTE_GRANULAR => word
  | CACHELINE_GRANULAR => Z.land word CLEAR_DIRTY
  end.

Definition persist_atomic_write (word val : Z) : Z :=
  match g with
  | DRAM | BYTE_GRANULAR => val
  | CACHELINE_GRANULAR => Z.lor val DIRTY
  end.

Definition persist_cas (word exp desire : Z) : bool * Z * Z :=
  match g with
  | DRAM | BYTE_GRANULAR => atomic_cmpxchg word exp desire
  | CACHELINE_GRANULAR =>
      let word := snd (pcas_read word) in
      atomic_cmpxchg word exp (Z.lor desire DIRTY)
  end.
End Pcas.

(** The widths the code instantiates. *)
Definition pcas_read_uint8 := pcas_read 8.
Definition pcas_read_noflush_uint8 := pcas_read_noflush 8.
Definition persist_atomic_write_uint8 := persist_atomic_write 8.
Definition persist_cas_uint8 := persist_cas 8.
Definition pcas_read_uint16 := pcas_read 16.
Definition pcas_read_noflush_uint16 := pcas_read_noflush 16.
Definition persist_atomic_write_uint16 := persist_atomic_write 16.
Definition persist_cas_uint16 := persist_cas 16.
Definition pcas_read_uint32 := pcas_read 32.
Definition pcas_read_noflush_uint32 := pcas_read_noflush 32.
Definition persist_atomic_write_uint32 := persist_atomic_write 32.
Definition persist_cas_uint32 := persist_cas 32.
Definition pcas_read_uint64 := pcas_read 64.
Definition pcas_read_noflush_uint64 := pcas_read_noflush 64.
Definition persist_atomic_write_uint64 := persist_atomic_write 64.
Definition persist_cas_uint64 := persist_cas 64.
Definition pcas_read_uint128 := pcas_read 128.
Definition pcas_read_noflush_uint128 := pcas_read_noflush 128.
Definition persist_atomic_write_uint128 := persist_atomic_write 128.
Definition persist_cas_uint128 := persist_cas 128.

(** ** An atomic register *)

(** What a lock relies on: a word whose abstract value is read, written and
    compared-and-swapped as if it were plain memory. *)
Class AtomicRegister := {
  ar_ok : Z -> Prop;
  ar_valid : Z -> Prop;
  ar_value : Z -> Z;
  ar_read : Z -> Z * Z;
  ar_write : Z -> Z -> Z;
  ar_cas : Z -> Z -> Z -> bool * Z * Z;
  ar_read_spec w : ar_ok w ->
    fst (ar_read w) = ar_value w /\ ar_value (snd (ar_read w)) = ar_value w /\ ar_ok (snd (ar_read w));
  ar_write_spec w v : ar_valid v -> ar_value (ar_write w v) = v /\ ar_ok (ar_write w v);
  ar_cas_spec w e v : ar_ok w -> ar_valid e -> ar_valid v ->
    let '(b, w', _) := ar_cas w e v in
    b = (ar_value w =? e) /\ ar_value w' = (if ar_value w =? e then v else ar_value w) /\ ar_ok w' }.

Section Lemmas.
Context (bits : Z) (Hbits : 1 < bits).

Lemma dirty_pow : DIRTY bits = 2 ^ (bits - 1).
Proof using Hbits. unfold DIRTY. rewrite Z.shiftl_mul_pow2 by lia. lia. Qed.

Lemma clear_dirty_ones : CLEAR_DIRTY bits = Z.ones (bits - 1).
Proof using Hbits.
  unfold CLEAR_DIRTY. rewrite dirty_pow. apply Z.bits_inj'. intros k Hk.
  rewrite Z.ldiff_spec, Z.pow2_bits_eqb by lia. rewrite !Z.testbit_ones by lia. zb; lia || done.
Qed.

Lemma land_clear_mod w : Z.land w (CLEAR_DIRTY bits) = w mod 2 ^ (bits - 1).
Proof using Hbits. rewrite clear_dirty_ones. apply Z.land_ones. lia. Qed.

Lemma pow_split : 2 ^ bits = 2 * 2 ^ (bits - 1).
Proof using Hbits. replace bits with (Z.succ (bits - 1)) at 1 by lia. rewrite Z.pow_succ_r by lia. done. Qed.

Lemma lor_dirty v : 0 <= v < 2 ^ (bits - 1) -> Z.lor v (DIRTY bits) = 2 ^ (bits - 1) + v.
Proof using Hbits.
  intros Hv. unfold DIRTY. rewrite Z.lor_comm, lor_shiftl_add by lia.
  lia.
Qed.

Lemma dirty_bit w : 0 <= w < 2 ^ bits -> truthy (Z.land w (DIRTY bits)) = (2 ^ (bits - 1) <=? w).
Proof using Hbits.
  intros Hw. pose proof pow_split. unfold truthy. rewrite dirty_pow, Z.land_comm.
  destruct (Z.leb_spec (2 ^ (bits - 1)) w).
  - replace w with (Z.lor (w - 2 ^ (bits - 1)) (DIRTY bits)) by (rewrite lor_dirty; lia).
    rewrite dirty_pow, Z.land_lor_distr_r, Z.land_diag.
    destruct (Z.eqb_spec (Z.lor (Z.land (2 ^ (bits - 1)) (w - 2 ^ (bits - 1))) (2 ^ (bits - 1))) 0) as [E|]; [|done].
    apply Z.lor_eq_0_iff in E as [_ E]. lia.
  - replace (Z.land (2 ^ (bits - 1)) w) with 0; [done|]. symmetry. apply Z.bits_inj'. intros k Hk.
    rewrite Z.land_spec, Z.pow2_bits_eqb, Z.bits_0 by lia.
    destruct (Z.eqb_spec (bits - 1) k) as [<-|]; [|done]. apply (testbit_above w (bits - 1)); lia.
Qed.

Lemma pcas_read_cacheline w :
  0 <= w < 2 ^ bits ->
  pcas_read bits CACHELINE_GRANULAR w = (w mod 2 ^ (bits - 1), w mod 2 ^ (bits - 1)).
Proof using Hbits.
  intros Hw. unfold pcas_read, atomic_cmpxchg. rewrite dirty_bit, land_clear_mod, Z.eqb_refl by done.
  destruct (Z.leb_spec (2 ^ (bits - 1)) w); [done|]. rewrite Z.mod_small by lia. done.
Qed.
End Lemmas.

Definition word_ok (bits w : Z) : Prop := 0 <= w < 2 ^ bits.
Definition value_ok (bits v : Z) : Prop := 0 <= v < 2 ^ (bits - 1).

Lemma load64_word m a : word_ok 64 (load64 m a).
Proof. apply (load_range m a 8). Qed.

Section Register.
Context (bits : Z) (g : granularity) (Hbits : 1 < bits).

Lemma value_word v : value_ok bits v -> word_ok bits v.
Proof using Hbits. unfold value_ok, word_ok. pose proof (pow_split bits Hbits). lia. Qed.

Lemma read_ok w :
  word_ok bits w ->
  fst (pcas_read bits g w) = pcas_read_noflush bits g w /\
  pcas_read_noflush bits g (snd (pcas_read bits g w)) = pcas_read_noflush bits g w /\
  word_ok bits (snd (pcas_read bits g w)).
Proof using Hbits.
  intros Hw. destruct g; [done|done|]. rewrite (pcas_read_cacheline bits Hbits w Hw). cbn [fst snd].
  unfold pcas_read_noflush. rewrite !(land_clear_mod bits Hbits), Zmod_mod. split; [done|]. split; [done|].
  apply value_word. apply Z.mod_pos_bound. lia.
Qed.

Lemma write_ok w v :
  value_ok bits v ->
  pcas_read_noflush bits g (persist_atomic_write bits g w v) = v /\
  word_ok bits (persist_atomic_write bits g w v).
Proof using Hbits.
  intros Hv. pose proof (pow_split bits Hbits). unfold value_ok in Hv.
  destruct g; [by split; [|apply value_word]..|]. unfold pcas_read_noflush, persist_atomic_write, word_ok.
  rewrite (land_clear_mod bits Hbits), (lor_dirty bits Hbits v Hv).
  rewrite <- (Z.mul_1_l (2 ^ (bits - 1))) at 1. rewrite Z.add_comm, Z.mod_add, Z.mod_small; lia.
Qed.

Lemma cas_ok w e v :
  word_ok bits w -> value_ok bits e -> value_ok bits v ->
  let '(b, w', _) := persist_cas bits g w e v in
  b = (pcas_read_noflush bits g w =? e) /\
  pcas_read_noflush bits g w' = (if pcas_read_noflush bits g w =? e then v else pcas_read_noflush bits g w) /\
  word_ok bits w'.
Proof using Hbits.
  intros Hw He Hv. unfold persist_cas. destruct (read_ok w Hw) as (H1 & H2 & H3).
  destruct (write_ok w v Hv) as [H4 H5].
  destruct g; cbn [pcas_read_noflush persist_atomic_write] in *.
  1, 2: unfold atomic_cmpxchg; destruct (w =? e); (split; [done|]; split; [done|]; exact H5 || exact H3).
  rewrite (pcas_read_cacheline bits Hbits w Hw) in *. cbn [fst snd] in *.
  unfold atomic_cmpxchg. rewrite <- H1. destruct (w mod 2 ^ (bits - 1) =? e); [done|].
  split; [done|]. split; [|done]. by rewrite H2.
Qed.
End Register.

(** The 64-bit words the locks and queue positions live in. *)
#[export] Instance pcas_register (g : granularity) : AtomicRegister := {|
  ar_ok := word_ok 64; ar_valid := value_ok 64; ar_value := pcas_read_noflush_uint64 g;
  ar_read := pcas_read_uint64 g; ar_write := persist_atomic_write_uint64 g; ar_cas := persist_cas_uint64 g;
  ar_read_spec := read_ok 64 g eq_refl; ar_write_spec := write_ok 64 g eq_refl;
  ar_cas_spec := cas_ok 64 g eq_refl |}.

(** C36. In every persistence granularity and width the persistent operations
    implement an atomic register on the value without its dirty bit: a read
    returns the value and leaves it unchanged, a write installs it, and a
    compare-and-swap succeeds exactly when the value is the expected one and
    installs the desired one. *)
Theorem persist_cas_register (bits w e v : Z) (g : granularity) :
  1 < bits -> word_ok bits w -> value_ok bits e -> value_ok bits v ->
  let value := pcas_read_noflush bits g in
  fst (pcas_read bits g w) = value w /\ value (snd (pcas_read bits g w)) = value w /\
  value (persist_atomic_write bits g w v) = v /\
  fst (fst (persist_cas bits g w e v)) = (value w =? e) /\
  value (snd (fst (persist_cas bits g w e v))) = if value w =? e then v else value w.
Proof.
  intros Hb Hw He Hv value. destruct (read_ok bits g Hb w Hw) as (H1 & H2 & _).
  destruct (write_ok bits g Hb w v Hv) as [H3 _]. pose proof (cas_ok bits g Hb w e v Hw He Hv) as H4.
  destruct (persist_cas bits g w e v) as [[b w'] e']. destruct H4 as (H4 & H5 & _). done.
Qed.

Lemma persist_cas_register_witness :
  let value := pcas_read_noflush 64 CACHELINE_GRANULAR in
  let w := 2 ^ 63 + 7 in
  fst (pcas_read 64 CACHELINE_GRANULAR w) = value w /\ value (snd (pcas_read 64 CACHELINE_GRANULAR w)) = value w /\
  value (persist_atomic_write 64 CACHELINE_GRANULAR w 9) = 9 /\
  fst (fst (persist_cas 64 CACHELINE_GRANULAR w 7 9)) = (value w =? 7) /\
  value (snd (fst (persist_cas 64 CACHELINE_GRANULAR w 7 9))) = if value w =? 7 then 9 else value w.
Proof.
  apply (persist_cas_register 64 (2 ^ 63 + 7) 7 9 CACHELINE_GRANULAR); unfold word_ok, value_ok; lia.
Defined.
