(* ===== verification/TatasLock.v ===== *)
(** The recoverable test-and-test-and-set lock of the shared metadata:
    src/src/common/tatas (tatas_spin.h, tatas_spinlock.h, tatas_spinlock_kern.h),
    the lock word of src/src/common/jj_ab_spin/jj_ab_cs_status.h and the process
    identifiers of src/driver/src/process_id.h.

    The first part has the operations as functions of the lock word, each
    executed without interference.  The second part is a step relation in which
    every load and compare-and-swap is a step of its own, any number of
    processors run concurrently, and machines crash, restart with a new
    generation, and recover the lock. *)
From Stdlib Require Import ZArith Lia Bool.
From stdpp Require Import base list numbers relations.
From S2P Require Import Prelude PersistCas.
Local Open Scope Z_scope.
Local Open Scope lupin_scope.

(** ** The lock word *)

Record cs_status := CsStatus { cs_b : Z; cs_s : Z }.

Definition CSST_B_SHIFT : Z := 62.
Definition CSST_B_MASK : Z := Z.shiftl 1 CSST_B_SHIFT.
Definition CSST_S_MASK : Z := Z.shiftl 1 CSST_B_SHIFT - 1.

Definition compose_cs_status (b : bool) (s : Z) : Z :=
  if b then Z.lor CSST_B_MASK s else Z.land CSST_S_MASK s.

Definition decompose_cs_status (csst : Z) : cs_status :=
  CsStatus (Z.land csst CSST_B_MASK) (Z.land csst CSST_S_MASK).

Definition UNLOCKED : Z := 0.
Definition OWNER_GEN_MASK : Z := 0xffffffff.
Definition OWNER_ID_MASK : Z := Z.shiftl 0xffff 32.
Definition GET_OWNER_GEN (x : Z) : Z := Z.land x OWNER_GEN_MASK.
Definition GET_OWNER_ID (x : Z) : Z := Z.shiftr (Z.land x OWNER_ID_MASK) 32.

Definition compose_owner_gen (proc_id gen : Z) : Z := Z.lor (Z.shiftl proc_id 32) gen.

(** The word of a lock held by [proc_id] of generation [gen]. *)
Definition lock_val (proc_id gen : Z) : Z := compose_cs_status true (compose_owner_gen proc_id gen).

(** [get_process_identifier]: [None] when the identifier does not fit. *)
Definition get_process_identifier (nr_cpu_ids cpu_id machine_id : Z) : option Z :=
  let cpu_global_id := u32 (nr_cpu_ids * u32 (machine_id - 1) + cpu_id) in
  if cpu_global_id >? 0xffff then None else Some cpu_global_id.

(** ** Operations *)

Inductive transfer_st := UNLOCK | TRANSFERED | FAILED.

Section Ops.
Context (g : granularity).

Definition ttas_init (csst : Z) : Z := persist_atomic_write_uint64 g csst UNLOCKED.

(** The outer and the inner loop; [fuel] bounds the reads of the lock word
    and [None] is a caller that still spins. *)
Fixpoint enter_loop (fuel : nat) (csst val counter : Z) (abort_signal : Z -> bool) : option (bool * Z) :=
  match fuel with
  | O => None
  | S k =>
      let (v, csst) := pcas_read_uint64 g csst in
      if negb (v =? UNLOCKED) then
        if abort_signal counter then Some (false, csst)
        else enter_loop k csst val (u32 (counter + 1)) abort_signal
      else
        match persist_cas_uint64 g csst UNLOCKED val with
        | (true, csst, _) => Some (true, csst)
        | (false, csst, _) => enter_loop k csst val counter abort_signal
        end
  end.

Definition ttas_enter_with_gen (fuel : nat) (csst proc_id gen : Z) (abort_signal : Z -> bool) :=
  enter_loop fuel csst (compose_cs_status true (compose_owner_gen proc_id gen)) 0 abort_signal.

Definition ttas_enter (fuel : nat) (csst proc_id : Z) (abort_signal : Z -> bool) :=
  enter_loop fuel csst (compose_cs_status true proc_id) 0 abort_signal.

(** The caller's identifier is not looked at. *)
Definition ttas_exit (csst proc_id : Z) : Z := persist_atomic_write_uint64 g csst UNLOCKED.

Definition ttas_try_enter (csst proc_id : Z) : bool * Z :=
  fst (persist_cas_uint64 g csst UNLOCKED (compose_cs_status true proc_id)).

Definition ttas_try_enter_with_gen (csst proc_id gen : Z) : bool * Z :=
  fst (persist_cas_uint64 g csst UNLOCKED (compose_cs_status true (compose_owner_gen proc_id gen))).

Definition ttas_recover (csst proc_id : Z) : bool * Z :=
  let (v, csst) := pcas_read_uint64 g csst in (v =? compose_cs_status true proc_id, csst).

Definition ttas_recover_with_gen (csst proc_id gen : Z) : bool * Z :=
  let (v, csst) := pcas_read_uint64 g csst in
  (v =? compose_cs_status true (compose_owner_gen proc_id gen), csst).

Definition ttas_free_if_locked (csst proc_id : Z) : Z :=
  let (locked, csst) := ttas_recover csst proc_id in
  if locked then ttas_exit csst proc_id else csst.

Definition ttas_free_wth_gen_if_locked (csst proc_id gen : Z) : Z :=
  let (locked, csst) := ttas_recover_with_gen csst proc_id gen in
  if locked then ttas_exit csst proc_id else csst.

Definition ttas_lock_transfer (csst exp_id change_id : Z) : transfer_st * Z :=
  let (lock_st, csst) := pcas_read_uint64 g csst in
  if lock_st =? UNLOCKED then (UNLOCK, csst)
  else
    let st := decompose_cs_status lock_st in
    if negb (cs_s st =? exp_id) then (FAILED, csst)
    else
      match persist_cas_uint64 g csst lock_st (compose_cs_status true change_id) with
      | (true, csst, _) => (TRANSFERED, csst)
      | (false, csst, _) => (FAILED, csst)
      end.

Definition spin_no_abort (counter : Z) : bool := false.

(** [ttas_lock], [ttas_unlock] and [ttas_trylock] of user space. *)
Definition ttas_lock (fuel : nat) (csst proc_id : Z) : option Z :=
  let (held, csst) := ttas_recover csst proc_id in
  if held then Some csst
  else match ttas_enter fuel csst proc_id spin_no_abort with
       | Some (true, csst) => Some csst
       | _ => None
       end.

Definition ttas_unlock (csst proc_id : Z) : Z := ttas_exit csst proc_id.

Definition ttas_trylock (csst proc_id : Z) : bool * Z :=
  let (held, csst) := ttas_recover csst proc_id in
  if held then (true, csst) else ttas_try_enter csst proc_id.

(** The kernel variants identify the processor first. *)
Section Kern.
Context (nr_cpu_ids cpu_id : Z).

Definition with_process_id {A} (machine_id : Z) (k : Z -> outcome A) : outcome A :=
  bug_on (machine_id <? 1)
    (match get_process_identifier nr_cpu_ids cpu_id machine_id with None => Bug | Some p => k p end).

Definition ttas_lock_kern (fuel : nat) (csst machine_id : Z) : outcome (option Z) :=
  with_process_id machine_id (fun p => Ret (ttas_lock fuel csst p)).

Definition ttas_lock_with_gen_kern (fuel : nat) (csst machine_id gen_id : Z) : outcome (option Z) :=
  with_process_id machine_id (fun p =>
    let (held, csst) := ttas_recover_with_gen csst p gen_id in
    Ret (if held then Some csst
         else match ttas_enter_with_gen fuel csst p gen_id spin_no_abort with
              | Some (true, csst) => Some csst
              | _ => None
              end)).

Definition ttas_trylock_with_gen_kern (csst machine_id gen_id : Z) : outcome (bool * Z) :=
  with_process_id machine_id (fun p =>
    let (held, csst) := ttas_recover_with_gen csst p gen_id in
    Ret (if held then (true, csst) else ttas_try_enter_with_gen csst p gen_id)).

Definition ttas_unlock_kern (csst machine_id : Z) : outcome Z :=
  with_process_id machine_id (fun p => Ret (ttas_exit csst p)).

Definition ttas_lock_recover_kern (csst old_machine_id new_machine_id newm_gen_id : Z)
  : outcome (transfer_st * Z) :=
  with_process_id new_machine_id (fun newm_process_id =>
    let owner_gen := compose_owner_gen newm_process_id newm_gen_id in
    let new_lock_val := compose_cs_status true owner_gen in
    let (lock_state, csst) := pcas_read_uint64 g csst in
    let st := decompose_cs_status lock_state in
    let old_process_id := u16 (GET_OWNER_ID (cs_s st)) in
    let old_machine_id_on_lock := u16 (old_process_id / nr_cpu_ids + 1) in
    if (old_process_id =? newm_process_id) || (lock_state =? UNLOCKED)
       || (old_machine_id_on_lock =? old_machine_id) then
      match persist_cas_uint64 g csst lock_state new_lock_val with
      | (true, csst, _) => Ret (TRANSFERED, csst)
      | (false, csst, _) => Ret (FAILED, csst)
      end
    else Ret (FAILED, csst)).

(** Releases the lock when the recovery had taken it. *)
Definition done_ttas_lock_recover (csst machine_id : Z) (st : transfer_st) : outcome Z :=
  match st with TRANSFERED => ttas_unlock_kern csst machine_id | _ => Ret csst end.
End Kern.
End Ops.

(** ** Lemmas on the lock word *)

Definition is_proc (p : Z) : Prop := 0 <= p < 2 ^ 16.
Definition is_gen (n : Z) : Prop := 0 <= n < 2 ^ 32.

Lemma owner_gen_sum p n : is_proc p -> is_gen n -> compose_owner_gen p n = p * 2 ^ 32 + n.
Proof. unfold is_proc, is_gen. intros. unfold compose_owner_gen. rewrite lor_shiftl_add by lia. lia. Qed.

Lemma cs_status_sum s : 0 <= s < 2 ^ 62 -> compose_cs_status true s = 2 ^ 62 + s.
Proof.
  intros. unfold compose_cs_status, CSST_B_MASK, CSST_B_SHIFT. rewrite lor_shiftl_add by lia. lia.
Qed.

Lemma lock_val_sum p n : is_proc p -> is_gen n -> lock_val p n = 2 ^ 62 + p * 2 ^ 32 + n.
Proof.
  intros Hp Hn. unfold lock_val. rewrite owner_gen_sum by done. unfold is_proc, is_gen in *.
  rewrite cs_status_sum by lia. lia.
Qed.

Lemma lock_val_ok p n : is_proc p -> is_gen n -> value_ok 64 (lock_val p n).
Proof. intros Hp Hn. rewrite lock_val_sum by done. unfold is_proc, is_gen, value_ok in *. lia. Qed.

Lemma lock_val_nonzero p n : is_proc p -> is_gen n -> lock_val p n <> UNLOCKED.
Proof. intros Hp Hn. rewrite lock_val_sum by done. unfold is_proc, is_gen, UNLOCKED in *. lia. Qed.

Lemma lock_val_inj p n q k :
  is_proc p -> is_gen n -> is_proc q -> is_gen k -> lock_val p n = lock_val q k -> p = q /\ n = k.
Proof. intros Hp Hn Hq Hk. rewrite !lock_val_sum by done. unfold is_proc, is_gen in *. lia. Qed.

Lemma unlocked_ok : value_ok 64 UNLOCKED.
Proof. unfold value_ok, UNLOCKED. lia. Qed.

(** The owner that recovery reads from the word of a held lock. *)
Definition owner_of (v : Z) : Z := u16 (GET_OWNER_ID (cs_s (decompose_cs_status v))).

Lemma owner_of_lock_val p n : is_proc p -> is_gen n -> owner_of (lock_val p n) = p.
Proof.
  intros Hp Hn. unfold owner_of, decompose_cs_status, GET_OWNER_ID, OWNER_ID_MASK, CSST_S_MASK, CSST_B_SHIFT.
  cbn [cs_s]. change (Z.shiftl 1 62 - 1) with (Z.ones 62). change (Z.shiftl 0xffff 32) with (Z.shiftl (Z.ones 16) 32).
  rewrite Z.land_ones, lock_val_sum by (done || lia). unfold is_proc, is_gen in *.
  replace ((2 ^ 62 + p * 2 ^ 32 + n) mod 2 ^ 62) with (Z.lor (Z.shiftl p 32) n)
    by (rewrite lor_shiftl_add by lia; apply (Z.mod_unique _ _ 1); lia).
  rewrite Z.shiftr_land, Z.shiftr_lor, !Z.shiftr_shiftl_l, !Z.shiftl_0_r by lia.
  rewrite (Z.shiftr_div_pow2 n), (Z.div_small n), Z.lor_0_r, Z.land_ones, Z.mod_small by lia.
  apply u16_small. lia.
Qed.

Lemma owner_of_unlocked : owner_of UNLOCKED = 0.
Proof. reflexivity. Qed.

(** ** The interleaved lock *)

(** Where a processor is: between calls, or between two atomic steps of a call.
    The argument of a helping state is the dirty word that was read, that of a
    recovering state the lock state to be replaced. *)
Inductive pc :=
| Dead
| Out
| RecoverHelp (v : Z)
| Spin
| SpinHelp (v : Z)
| CasRead
| CasHelp (v : Z)
| CasDo
| Critical
| RHelp (old_machine : Z) (v : Z)
| RCasRead (s : Z)
| RCasHelp (s : Z) (v : Z)
| RCas (s : Z).

Record lstate := LState { csst : Z; at_pc : Z -> pc; gen_of : Z -> Z }.

Definition upd {A} (f : Z -> A) (i : Z) (x : A) : Z -> A := fun j => if j =? i then x else f j.

Section Interleaving.
Context (g : granularity) (nr_cpu_ids : Z).

Definition machine_of (p : Z) : Z := u16 (p / nr_cpu_ids + 1).

Definition is_dirty (w : Z) : bool :=
  match g with CACHELINE_GRANULAR => truthy (Z.land w (DIRTY 64)) | _ => false end.

Definition value (w : Z) : Z := pcas_read_noflush_uint64 g w.

(** The load of [pcas_read]: a dirty word is helped first. *)
Definition after_read (w : Z) (help cont : Z -> pc) : pc :=
  if is_dirty w then help w else cont (value w).

(** The compare-and-swap of [pcas_read] that clears the dirty bit. *)
Definition help_word (w v : Z) : Z := if w =? v then Z.land v (CLEAR_DIRTY 64) else w.

Definition recover_cont (i n v : Z) : pc := if v =? lock_val i n then Critical else Spin.

(** [persist_cas] reads the word first when words can be dirty. *)
Definition cas_start : pc := match g with CACHELINE_GRANULAR => CasRead | _ => CasDo end.
Definition rcas_start (s : Z) : pc := match g with CACHELINE_GRANULAR => RCasRead s | _ => RCas s end.

Definition spin_cont (v : Z) : pc := if v =? UNLOCKED then cas_start else Spin.

(** The test of [ttas_lock_recover_kern] on the lock state it read. *)
Definition rcont (i old v : Z) : pc :=
  if (owner_of v =? i) || (v =? UNLOCKED) || (machine_of (owner_of v) =? old) then rcas_start v else Out.

Definition written (v : Z) : Z := persist_atomic_write_uint64 g 0 v.

(** One atomic step of the processor [i], from its place and the lock word. *)
Inductive pstep (i n : Z) : pc -> Z -> pc -> Z -> Prop :=
| S_lock w : pstep i n Out w (after_read w RecoverHelp (recover_cont i n)) w
| S_recover_help v w : pstep i n (RecoverHelp v) w (recover_cont i n (value v)) (help_word w v)
| S_spin w : pstep i n Spin w (after_read w SpinHelp spin_cont) w
| S_spin_help v w : pstep i n (SpinHelp v) w (spin_cont (value v)) (help_word w v)
| S_cas_read w : pstep i n CasRead w (if is_dirty w then CasHelp w else CasDo) w
| S_cas_help v w : pstep i n (CasHelp v) w CasDo (help_word w v)
| S_cas_win w : w = UNLOCKED -> pstep i n CasDo w Critical (written (lock_val i n))
| S_cas_lose w : w <> UNLOCKED -> pstep i n CasDo w Spin w
| S_unlock w : pstep i n Critical w Out (written UNLOCKED)
| S_rhelp old v w : pstep i n (RHelp old v) w (rcont i old (value v)) (help_word w v)
| S_rcas_read s w : pstep i n (RCasRead s) w (if is_dirty w then RCasHelp s w else RCas s) w
| S_rcas_help s v w : pstep i n (RCasHelp s v) w (RCas s) (help_word w v)
| S_rcas_win s w : w = s -> pstep i n (RCas s) w Critical (written (lock_val i n))
| S_rcas_lose s w : w <> s -> pstep i n (RCas s) w Out w.

(** Recovery on behalf of the machine [old] may start when none of its other
    processors is in the critical section: it crashed, or it is the caller's
    own machine coming up again. *)
Definition may_recover (st : lstate) (i old : Z) : Prop :=
  forall j, is_proc j -> j <> i -> machine_of j = old -> at_pc st j <> Critical.

Inductive step : lstate -> lstate -> Prop :=
| step_proc i st p' w' :
    is_proc i -> pstep i (gen_of st i) (at_pc st i) (csst st) p' w' ->
    step st (LState w' (upd (at_pc st) i p') (gen_of st))
| step_recover i old st :
    is_proc i -> at_pc st i = Out -> may_recover st i old ->
    step st (LState (csst st)
      (upd (at_pc st) i (after_read (csst st) (RHelp old) (rcont i old))) (gen_of st))
| step_crash m st :
    step st (LState (csst st) (fun j => if machine_of j =? m then Dead else at_pc st j) (gen_of st))
| step_restart m st :
    (forall j, is_proc j -> machine_of j = m -> at_pc st j = Dead) ->
    (forall j, is_proc j -> machine_of j = m -> is_gen (gen_of st j + 1)) ->
    step st (LState (csst st) (fun j => if machine_of j =? m then Out else at_pc st j)
      (fun j => if machine_of j =? m then gen_of st j + 1 else gen_of st j)).

Inductive reachable (gen0 : Z -> Z) : lstate -> Prop :=
| reach_init w : reachable gen0 (LState (ttas_init g w) (fun _ => Out) gen0)
| reach_step st st' : reachable gen0 st -> step st st' -> reachable gen0 st'.
End Interleaving.

(** ** Invariant *)

Section Invariant.
Context (g : granularity) (nr_cpu_ids : Z).

(** A lock state that no running processor relies on: unlocked, or owned by
    [i] itself, by an earlier generation, or by a processor that is down. *)
Definition stale (st : lstate) (i s : Z) : Prop :=
  s = UNLOCKED \/
  exists p n, is_proc p /\ is_gen n /\ s = lock_val p n /\ n <= gen_of st p /\
    (p = i \/ n < gen_of st p \/ at_pc st p = Dead).

Definition help_ok (v : Z) : Prop := g = CACHELINE_GRANULAR /\ word_ok 64 v.

Definition pc_ok (st : lstate) (i : Z) (c : pc) : Prop :=
  match c with
  | RecoverHelp v => help_ok v /\ value g v <> lock_val i (gen_of st i)
  | SpinHelp v | CasHelp v => help_ok v
  | RHelp old v =>
      help_ok v /\ (rcont g nr_cpu_ids i old (value g v) <> Out -> stale st i (value g v))
  | RCasRead s | RCas s => stale st i s
  | RCasHelp s v => help_ok v /\ stale st i s
  | _ => True
  end.

Record linv (st : lstate) : Prop := LInv {
  li_ok : word_ok 64 (csst st);
  li_gen : forall p, is_proc p -> is_gen (gen_of st p);
  li_word : value g (csst st) = UNLOCKED \/
    exists p n, is_proc p /\ is_gen n /\ n <= gen_of st p /\ value g (csst st) = lock_val p n;
  li_crit : forall i, is_proc i -> at_pc st i = Critical -> value g (csst st) = lock_val i (gen_of st i);
  li_held : forall i, is_proc i -> value g (csst st) = lock_val i (gen_of st i) ->
    at_pc st i = Critical \/ at_pc st i = Dead;
  li_pc : forall i, is_proc i -> pc_ok st i (at_pc st i) }.

Lemma upd_eq {A} (f : Z -> A) i x : upd f i x i = x.
Proof. unfold upd. by rewrite Z.eqb_refl. Qed.
Lemma upd_ne {A} (f : Z -> A) i j x : j <> i -> upd f i x j = f j.
Proof. unfold upd. intros. by destruct (Z.eqb_spec j i). Qed.

Lemma value_written v : value_ok 64 v -> value g (written g v) = v /\ word_ok 64 (written g v).
Proof. intros Hv. exact (write_ok 64 g eq_refl 0 v Hv). Qed.

Lemma value_help w v :
  word_ok 64 w -> help_ok v -> value g (help_word w v) = value g w /\ word_ok 64 (help_word w v).
Proof.
  intros Hw [-> Hv]. unfold help_word. destruct (Z.eqb_spec w v) as [->|]; [|done].
  unfold value, pcas_read_noflush_uint64, pcas_read_noflush. rewrite !(land_clear_mod 64 eq_refl).
  rewrite Zmod_mod. split; [done|]. apply (value_word 64 eq_refl). apply Z.mod_pos_bound. lia.
Qed.

Lemma dirty_help w : word_ok 64 w -> is_dirty g w = true -> help_ok w.
Proof. unfold is_dirty, help_ok. by destruct g. Qed.

Lemma clean_value w : word_ok 64 w -> is_dirty g w = false -> value g w = w.
Proof.
  unfold is_dirty, value, pcas_read_noflush_uint64, pcas_read_noflush, word_ok. destruct g; [done|done|].
  intros Hw. rewrite (dirty_bit 64 eq_refl w Hw), (land_clear_mod 64 eq_refl).
  intros E. apply Z.leb_gt in E. apply Z.mod_small. lia.
Qed.

(** What [pc_ok] needs of another processor's step. *)
Lemma stale_mono st st' i s :
  (forall p, is_proc p -> gen_of st p <= gen_of st' p) ->
  (forall p, is_proc p -> at_pc st p = Dead -> at_pc st' p = Dead \/ gen_of st p < gen_of st' p) ->
  stale st i s -> stale st' i s.
Proof.
  intros Hg Hd [->|(p & n & Hp & Hn & -> & Hle & H)]; [by left|right]. exists p, n.
  pose proof (Hg p Hp). pose proof (Hd p Hp).
  split; [done|]. split; [done|]. split; [done|]. split; [lia|].
  destruct H as [->|[H|H]]; [by left|right; left; lia|]. destruct (H1 H); [by right; right|right; left; lia].
Qed.

Lemma pc_ok_mono st st' i c :
  gen_of st' i = gen_of st i ->
  (forall p, is_proc p -> gen_of st p <= gen_of st' p) ->
  (forall p, is_proc p -> at_pc st p = Dead -> at_pc st' p = Dead \/ gen_of st p < gen_of st' p) ->
  pc_ok st i c -> pc_ok st' i c.
Proof.
  intros Hi Hg Hd. pose proof (stale_mono st st' i) as Hs.
  destruct c; cbn [pc_ok]; rewrite ?Hi; try done; naive_solver.
Qed.

(** The lock state recovery starts from is stale when the lock word says so. *)
Lemma word_stale st i old :
  linv st -> is_proc i -> at_pc st i = Out -> may_recover nr_cpu_ids st i old ->
  rcont g nr_cpu_ids i old (value g (csst st)) <> Out -> stale st i (value g (csst st)).
Proof.
  intros I Hi Hpc Hmay Hr. destruct (li_word _ I) as [E|(p & n & Hp & Hn & Hle & E)]; [by left|right].
  exists p, n. split; [done|]. split; [done|]. split; [done|]. split; [done|].
  destruct (decide (p = i)); [by left|]. right.
  destruct (decide (n = gen_of st p)) as [->|]; [|left; lia]. right.
  destruct (li_held _ I p Hp E) as [Hc|]; [|done]. exfalso.
  revert Hr. unfold rcont. rewrite E, owner_of_lock_val by done.
  destruct (Z.eqb_spec p i); [done|]. destruct (Z.eqb_spec (lock_val p (gen_of st p)) UNLOCKED) as [E0|];
    [by apply lock_val_nonzero in E0|].
  cbn [orb]. destruct (Z.eqb_spec (machine_of nr_cpu_ids p) old) as [Hm|]; [|done].
  intros _. by apply (Hmay p).
Qed.

(** A step that leaves the value of the word and enters no critical section. *)
Lemma quiet_step st i c' w' :
  linv st -> is_proc i -> at_pc st i <> Dead -> at_pc st i <> Critical -> c' <> Critical -> c' <> Dead ->
  value g w' = value g (csst st) -> word_ok 64 w' -> pc_ok st i c' ->
  linv (LState w' (upd (at_pc st) i c') (gen_of st)).
Proof.
  intros I Hi Hd Hc Hc' Hd' Hv Hw Hok. split; cbn [csst at_pc gen_of]; rewrite ?Hv; try apply I; [done| | |].
  - intros j Hj. destruct (decide (j = i)) as [->|Hne]; [by rewrite upd_eq|].
    rewrite upd_ne by done. by apply I.
  - intros j Hj E. destruct (decide (j = i)) as [->|Hne].
    + destruct (li_held _ I i Hi E); done.
    + rewrite upd_ne by done. by apply I.
  - intros j Hj. apply (pc_ok_mono st); cbn [gen_of at_pc]; [done|done| |].
    + intros p Hp Hdead. left. destruct (decide (p = i)) as [->|]; [done|]. by rewrite upd_ne.
    + destruct (decide (j = i)) as [->|]; [by rewrite upd_eq|]. rewrite upd_ne by done. by apply I.
Qed.

(** A step that writes the word, when no other processor is in the critical
    section. *)
Lemma write_step st i c' v :
  linv st -> is_proc i -> at_pc st i <> Dead ->
  (forall j, is_proc j -> j <> i -> at_pc st j <> Critical) ->
  (c' = Critical /\ v = lock_val i (gen_of st i)) \/ (c' = Out /\ v = UNLOCKED) ->
  linv (LState (written g v) (upd (at_pc st) i c') (gen_of st)).
Proof.
  intros I Hi Hd Hno Hcase. pose proof (li_gen _ I) as Hgen.
  assert (Hvok : value_ok 64 v).
  { destruct Hcase as [[_ ->]|[_ ->]]; [apply lock_val_ok; auto|apply unlocked_ok]. }
  destruct (value_written v Hvok) as [Hv Hw].
  split; cbn [csst at_pc gen_of]; rewrite ?Hv; [done|done| | | |].
  - destruct Hcase as [[_ ->]|[_ ->]]; [|by left]. right. exists i, (gen_of st i).
    split; [done|]. split; [auto|]. split; [lia|done].
  - intros j Hj. destruct (decide (j = i)) as [->|Hne]; [rewrite upd_eq; naive_solver|].
    rewrite upd_ne by done. intros Hc. by destruct (Hno j Hj Hne).
  - intros j Hj E. destruct Hcase as [[-> ->]|[_ ->]].
    + apply lock_val_inj in E as [-> _]; auto. left. by rewrite upd_eq.
    + symmetry in E. apply lock_val_nonzero in E; [done|done|auto].
  - intros j Hj. apply (pc_ok_mono st); cbn [gen_of at_pc]; [done|done| |].
    + intros p Hp Hdead. left. destruct (decide (p = i)) as [->|]; [done|]. by rewrite upd_ne.
    + destruct (decide (j = i)) as [->|]; [rewrite upd_eq; destruct Hcase as [[-> _]|[-> _]]; done|].
      rewrite upd_ne by done. by apply I.
Qed.

Lemma nobody_critical st i :
  linv st -> is_proc i -> at_pc st i <> Critical -> stale st i (value g (csst st)) ->
  forall j, is_proc j -> j <> i -> at_pc st j <> Critical.
Proof.
  intros I Hi Hc Hs j Hj Hne Hcj. apply (li_crit _ I j Hj) in Hcj as E. pose proof (li_gen _ I j Hj) as Hg.
  rewrite E in Hs. destruct Hs as [E0|(p & n & Hp & Hn & E0 & Hle & H)].
  - by apply lock_val_nonzero in E0.
  - apply lock_val_inj in E0 as [<- <-]; [|done..]. destruct H as [->|[H|H]]; [done|lia|congruence].
Qed.

Lemma recover_cont_ok st i v :
  v <> lock_val i (gen_of st i) -> recover_cont i (gen_of st i) v = Spin.
Proof. unfold recover_cont. intros H. by destruct (Z.eqb_spec v (lock_val i (gen_of st i))). Qed.

Lemma own_word st i :
  linv st -> is_proc i -> at_pc st i <> Critical -> at_pc st i <> Dead ->
  value g (csst st) <> lock_val i (gen_of st i).
Proof. intros I Hi Hc Hd E. destruct (li_held _ I i Hi E); done. Qed.

Lemma value_small v : value_ok 64 v -> value g v = v.
Proof.
  intros Hv. unfold value, pcas_read_noflush_uint64, pcas_read_noflush. destruct g; [done|done|].
  rewrite (land_clear_mod 64 eq_refl). by apply Z.mod_small.
Qed.

Lemma stale_value st i s : stale st i s -> value g s = s.
Proof.
  intros [->|(p & n & Hp & Hn & -> & _)]; apply value_small; [apply unlocked_ok|by apply lock_val_ok].
Qed.

Lemma spin_cont_ok st i v : pc_ok st i (spin_cont g v) /\ spin_cont g v <> Critical /\ spin_cont g v <> Dead.
Proof. unfold spin_cont, cas_start. destruct (v =? UNLOCKED), g; done. Qed.

Lemma rcont_ok st i old v :
  (rcont g nr_cpu_ids i old v <> Out -> stale st i v) ->
  pc_ok st i (rcont g nr_cpu_ids i old v) /\ rcont g nr_cpu_ids i old v <> Critical /\
  rcont g nr_cpu_ids i old v <> Dead.
Proof. unfold rcont, rcas_start. destruct (_ || _), g; naive_solver. Qed.

Lemma inv_pstep st i c' w' :
  linv st -> is_proc i -> pstep g nr_cpu_ids i (gen_of st i) (at_pc st i) (csst st) c' w' ->
  linv (LState w' (upd (at_pc st) i c') (gen_of st)).
Proof.
  intros I Hi H. pose proof (li_pc _ I i Hi) as Hpc. pose proof (li_ok _ I) as Hw.
  pose proof (own_word st i I Hi) as Hown.
  remember (at_pc st i) as c eqn:Ec. remember (csst st) as w eqn:Ew. symmetry in Ec.
  destruct H; cbn [pc_ok] in Hpc.
  - specialize (Hown ltac:(done) ltac:(done)). unfold after_read. destruct (is_dirty g w) eqn:Hd.
    + apply quiet_step; rewrite ?Ec; subst w; try done. split; [by apply dirty_help|done].
    + rewrite recover_cont_ok by done. apply quiet_step; rewrite ?Ec; subst w; done.
  - destruct Hpc as [Hh Hne]. destruct (value_help w v Hw Hh) as [Hv Hok].
    rewrite recover_cont_ok by done. apply quiet_step; rewrite ?Ec; subst w; done.
  - destruct (spin_cont_ok st i (value g w)) as (H1 & H2 & H3). unfold after_read.
    destruct (is_dirty g w) eqn:Hd; apply quiet_step; rewrite ?Ec; subst w; try done. by apply dirty_help.
  - destruct (value_help w v Hw Hpc) as [Hv Hok]. destruct (spin_cont_ok st i (value g v)) as (H1 & H2 & H3).
    apply quiet_step; rewrite ?Ec; subst w; done.
  - destruct (is_dirty g w) eqn:Hd; apply quiet_step; rewrite ?Ec; subst w; try done. by apply dirty_help.
  - destruct (value_help w v Hw Hpc) as [Hv Hok]. apply quiet_step; rewrite ?Ec; subst w; done.
  - apply write_step; rewrite ?Ec; try done; [|by left].
    apply nobody_critical; rewrite ?Ec; try done. left. rewrite <- Ew, H. apply value_small, unlocked_ok.
  - apply quiet_step; rewrite ?Ec; subst w; done.
  - apply write_step; rewrite ?Ec; try done; [|by right]. intros j Hj Hne Hcj.
    pose proof (li_crit _ I i Hi Ec) as E1. pose proof (li_crit _ I j Hj Hcj) as E2. rewrite E1 in E2.
    apply lock_val_inj in E2 as [-> _]; [done|done|by apply (li_gen _ I)|done|by apply (li_gen _ I)].
  - destruct Hpc as [Hh Hs]. destruct (value_help w v Hw Hh) as [Hv Hok].
    destruct (rcont_ok st i old (value g v) Hs) as (H1 & H2 & H3). clear Hs.
    revert H1 H2 H3. generalize (rcont g nr_cpu_ids i old (value g v)). intros c H1 H2 H3.
    apply quiet_step; rewrite ?Ec; subst w; done.
  - destruct (is_dirty g w) eqn:Hd; apply quiet_step; rewrite ?Ec; subst w; try done.
    split; [by apply dirty_help|done].
  - destruct Hpc as [Hh Hs]. destruct (value_help w v Hw Hh) as [Hv Hok].
    apply quiet_step; rewrite ?Ec; subst w; done.
  - apply write_step; rewrite ?Ec; try done; [|by left].
    apply nobody_critical; rewrite ?Ec; try done. rewrite <- Ew, H. by rewrite (stale_value st i).
  - apply quiet_step; rewrite ?Ec; subst w; done.
Qed.

Lemma inv_step st st' : linv st -> step g nr_cpu_ids st st' -> linv st'.
Proof.
  intros I H. destruct H as [i st p' w' Hi H|i old st Hi Hout Hmay|m st|m st Hdead Hgen].
  - by apply inv_pstep.
  - pose proof (word_stale _ _ _ I Hi Hout Hmay) as Hs.
    pose proof (rcont_ok st i old (value g (csst st)) Hs) as (H1 & H2 & H3). unfold after_read.
    revert H1 H2 H3. destruct (is_dirty g (csst st)) eqn:Hd; intros H1 H2 H3.
    2: { revert H1 H2 H3. generalize (rcont g nr_cpu_ids i old (value g (csst st))). intros c H1 H2 H3.
         apply quiet_step; rewrite ?Hout; try done; apply I. }
    clear H1 H2 H3. apply quiet_step; rewrite ?Hout; try done; try apply I.
    split; [apply dirty_help; [apply I|done]|done].
  - split; cbn [csst at_pc gen_of]; try apply I.
    + intros i Hi. destruct (_ =? m); [done|]. by apply I.
    + intros i Hi E. destruct (_ =? m); [by right|]. by apply I.
    + intros i Hi. apply (pc_ok_mono st); cbn [at_pc gen_of]; [done|done| |].
      * intros p Hp Hd. left. by destruct (_ =? m).
      * destruct (_ =? m); [done|]. by apply I.
  - split; cbn [csst at_pc gen_of]; [apply I| | | | |].
    + intros p Hp. destruct (Z.eqb_spec (machine_of nr_cpu_ids p) m); [by apply Hgen|by apply I].
    + destruct (li_word _ I) as [E|(p & n & Hp & Hn & Hle & E)]; [by left|right]. exists p, n.
      split; [done|]. split; [done|]. split; [|done]. destruct (_ =? m); lia.
    + intros i Hi. destruct (_ =? m); [done|]. by apply I.
    + intros i Hi. destruct (Z.eqb_spec (machine_of nr_cpu_ids i) m) as [Hm|]; [|by apply I].
      intros E. exfalso. pose proof (li_gen _ I i Hi). pose proof (Hgen i Hi Hm).
      destruct (li_word _ I) as [E0|(p & n & Hp & Hn & Hle & E0)]; rewrite E0 in E.
      * symmetry in E. by apply lock_val_nonzero in E.
      * apply lock_val_inj in E as [-> ->]; [lia|done..].
    + intros i Hi. destruct (Z.eqb_spec (machine_of nr_cpu_ids i) m) as [Hm|Hm]; [done|].
      apply (pc_ok_mono st); cbn [at_pc gen_of]; [by destruct (Z.eqb_spec (machine_of nr_cpu_ids i) m)| | |by apply I].
      * intros p Hp. destruct (_ =? m); lia.
      * intros p Hp Hd. destruct (_ =? m); [right; lia|by left].
Qed.

Lemma inv_reachable gen0 st :
  (forall p, is_proc p -> is_gen (gen0 p)) -> reachable g nr_cpu_ids gen0 st -> linv st.
Proof.
  intros Hg H. induction H as [w|st st' _ IH Hs]; [|by apply (inv_step st)].
  destruct (write_ok 64 g eq_refl w UNLOCKED unlocked_ok) as [Hv Hw].
  split; cbn [csst at_pc gen_of]; try done; [by left|].
  intros i Hi. change (value g (ttas_init g w)) with (pcas_read_noflush 64 g (persist_atomic_write 64 g w UNLOCKED)).
  rewrite Hv. intros E. symmetry in E. apply lock_val_nonzero in E; [done|done|auto].
Qed.
End Invariant.

(** ** Mutual exclusion and recovery *)


(** One processor takes the lock of an unlocked word, then crashes with its machine. *)
Lemma crash_state_reachable g :
  g <> CACHELINE_GRANULAR ->
  reachable g 4 (fun _ => 0) (LState (lock_val 5 0) (fun j => if machine_of 4 j =? 2 then Dead else upd (upd (upd (fun _ => Out) 5 Spin) 5 CasDo) 5 Critical j) (fun _ => 0))
  /\ reachable g 4 (fun _ => 0) (LState (lock_val 5 0) (upd (upd (upd (fun _ => Out) 5 Spin) 5 CasDo) 5 Critical) (fun _ => 0)).
Proof.
  intros Hg.
  assert (H0 : reachable g 4 (fun _ => 0) (LState 0 (fun _ => Out) (fun _ => 0)))
    by (pose proof (reach_init g 4 (fun _ => 0) 0) as H; replace (ttas_init g 0) with 0 in H by (by destruct g); exact H).
  assert (H3 : reachable g 4 (fun _ => 0) (LState (lock_val 5 0) (upd (upd (upd (fun _ => Out) 5 Spin) 5 CasDo) 5 Critical) (fun _ => 0))).
  { eapply reach_step; [eapply reach_step; [eapply reach_step; [exact H0|]|]|].
    - apply (step_proc _ _ 5 (LState 0 (fun _ => Out) (fun _ => 0)) Spin 0); [unfold is_proc; lia|].
      cbn [at_pc csst gen_of].
      replace Spin with (after_read g 0 RecoverHelp (recover_cont 5 0)) by (destruct g; done || reflexivity).
      constructor.
    - apply (step_proc _ _ 5 (LState 0 (upd (fun _ => Out) 5 Spin) (fun _ => 0)) CasDo 0); [unfold is_proc; lia|].
      cbn [at_pc csst gen_of]. rewrite upd_eq.
      replace CasDo with (after_read g 0 SpinHelp (spin_cont g)) by (destruct g; done || reflexivity). constructor.
    - apply (step_proc _ _ 5 (LState 0 (upd (upd (fun _ => Out) 5 Spin) 5 CasDo) (fun _ => 0)) Critical (lock_val 5 0));
        [unfold is_proc; lia|].
      cbn [at_pc csst gen_of]. rewrite upd_eq.
      replace (lock_val 5 0) with (written g (lock_val 5 0)) by (destruct g; done). by constructor. }
  split; [|exact H3]. eapply reach_step; [exact H3|]. apply step_crash.
Qed.


Section Liveness.
Context (g : granularity) (nr_cpu_ids : Z).

Definition steps : lstate -> lstate -> Prop := rtc (step g nr_cpu_ids).

Lemma steps_proc st i c' w' st' :
  is_proc i -> pstep g nr_cpu_ids i (gen_of st i) (at_pc st i) (csst st) c' w' ->
  steps (LState w' (upd (at_pc st) i c') (gen_of st)) st' -> steps st st'.
Proof. intros Hi H Hs. eapply rtc_l; [by apply (step_proc g nr_cpu_ids i)|done]. Qed.

Lemma rcas_wins st i s :
  is_proc i -> at_pc st i = RCas s -> csst st = s -> exists st', steps st st' /\ at_pc st' i = Critical.
Proof.
  intros Hi Hpc Hw. eexists. split.
  - eapply steps_proc; [done| |apply rtc_refl]. rewrite Hpc. by constructor.
  - apply upd_eq.
Qed.

(** From the start of its compare-and-swap a recovery that runs alone wins. *)
Lemma rcas_start_wins st i s :
  is_proc i -> word_ok 64 (csst st) -> at_pc st i = rcas_start g s -> value g (csst st) = s ->
  exists st', steps st st' /\ at_pc st' i = Critical.
Proof.
  intros Hi Hok Hpc Hv. destruct (decide (g = CACHELINE_GRANULAR)) as [Hg|Hg].
  - assert (Hpc' : at_pc st i = RCasRead s) by (by rewrite Hpc; unfold rcas_start; rewrite Hg). clear Hpc.
    destruct (is_dirty g (csst st)) eqn:Hd.
    + pose proof (S_rcas_read g nr_cpu_ids i (gen_of st i) s (csst st)) as S1. rewrite Hd in S1.
      pose proof (S_rcas_help g nr_cpu_ids i (gen_of st i) s (csst st) (csst st)) as S2.
      assert (Hh : help_word (csst st) (csst st) = s)
        by (unfold help_word; rewrite Z.eqb_refl, <- Hv, Hg; done).
      rewrite Hh in S2. rewrite <- Hpc' in S1.
      destruct (rcas_wins (LState s (upd (upd (at_pc st) i (RCasHelp s (csst st))) i (RCas s)) (gen_of st)) i s)
        as (st' & Hs & Hc); [done|apply upd_eq|done|].
      exists st'. split; [|done]. eapply steps_proc; [done|exact S1|].
      eapply steps_proc; [done| |exact Hs]. cbn [at_pc csst gen_of]. rewrite upd_eq. exact S2.
    + pose proof (S_rcas_read g nr_cpu_ids i (gen_of st i) s (csst st)) as S1. rewrite Hd, <- Hpc' in S1.
      destruct (rcas_wins (LState (csst st) (upd (at_pc st) i (RCas s)) (gen_of st)) i s)
        as (st' & Hs & Hc); [done|apply upd_eq|by rewrite <- Hv, clean_value|].
      exists st'. split; [|done]. eapply steps_proc; [done|exact S1|exact Hs].
  - apply (rcas_wins st i s); [done| |].
    + rewrite Hpc. unfold rcas_start. by destruct g.
    + rewrite <- Hv. symmetry. apply (clean_value g _ Hok). unfold is_dirty. by destruct g.
Qed.
End Liveness.



Lemma lock_recover_kern_ok (g : granularity) (nr cpu csst old_machine new_machine gen p q n : Z) :
  1 <= new_machine -> get_process_identifier nr cpu new_machine = Some p ->
  is_proc p -> is_gen gen -> word_ok 64 csst -> is_proc q -> is_gen n ->
  value g csst = UNLOCKED \/ value g csst = lock_val q n ->
  exists st csst', ttas_lock_recover_kern g nr cpu csst old_machine new_machine gen = Ret (st, csst') /\
    if (value g csst =? UNLOCKED) || (q =? p) || (machine_of nr q =? old_machine)
    then st = TRANSFERED /\ value g csst' = lock_val p gen
    else st = FAILED /\ value g csst' = value g csst.
Proof.
  intros Hm Hid Hp Hgen Hok Hq Hn Hword. unfold ttas_lock_recover_kern, with_process_id, bug_on.
  destruct (Z.ltb_spec new_machine 1); [lia|]. rewrite Hid.
  destruct (read_ok 64 g eq_refl csst Hok) as (R1 & R2 & R3). unfold pcas_read_uint64.
  destruct (pcas_read 64 g csst) as [v w] eqn:Er. cbn [fst snd] in R1, R2, R3.
  change (pcas_read_noflush 64 g csst) with (value g csst) in R1, R2.
  change (u16 (GET_OWNER_ID (cs_s (decompose_cs_status v)))) with (owner_of v).
  change (u16 (owner_of v / nr + 1)) with (machine_of nr (owner_of v)).
  change (compose_cs_status true (compose_owner_gen p gen)) with (lock_val p gen). subst v.
  assert (Hv : value_ok 64 (value g csst))
    by (destruct Hword as [-> | ->]; [apply unlocked_ok|by apply lock_val_ok]).
  pose proof (cas_ok 64 g eq_refl w (value g csst) (lock_val p gen) R3 Hv (lock_val_ok p gen Hp Hgen)) as C.
  unfold persist_cas_uint64. rewrite R2, Z.eqb_refl in C.
  destruct (persist_cas 64 g w (value g csst) (lock_val p gen)) as [[b w'] e]. destruct C as (-> & C & _).
  assert (Htest : (owner_of (value g csst) =? p) || (value g csst =? UNLOCKED)
                    || (machine_of nr (owner_of (value g csst)) =? old_machine)
                  = (value g csst =? UNLOCKED) || (q =? p) || (machine_of nr q =? old_machine)).
  { destruct Hword as [-> | ->]; [by rewrite orb_true_r|]. rewrite owner_of_lock_val by done.
    by rewrite (orb_comm (q =? p)). }
  rewrite Htest. clear Htest. destruct ((value g csst =? UNLOCKED) || (q =? p) || (machine_of nr q =? old_machine)); do 2 eexists; (split; [reflexivity|]); (split; [reflexivity|]); [exact C|exact R2].
Qed.

(** Recovering the lock, executed without interference: the caller becomes
    the owner when the lock was free, when it already was the recorded owner, or
    when the owner belongs to the crashed machine; otherwise the lock is left to
    its owner and the recovery fails. *)
Theorem ttas_lock_recover_correct (g : granularity) (nr cpu csst old_machine new_machine gen p q n : Z) :
  1 <= new_machine -> get_process_identifier nr cpu new_machine = Some p ->
  is_proc p -> is_gen gen -> word_ok 64 csst -> is_proc q -> is_gen n ->
  value g csst = UNLOCKED \/ value g csst = lock_val q n ->
  exists st csst', ttas_lock_recover_kern g nr cpu csst old_machine new_machine gen = Ret (st, csst') /\
    if (value g csst =? UNLOCKED) || (q =? p) || (machine_of nr q =? old_machine)
    then st = TRANSFERED /\ value g csst' = lock_val p gen
    else st = FAILED /\ value g csst' = value g csst.
Proof. apply lock_recover_kern_ok. Qed.

Lemma ttas_lock_recover_correct_witness :
  exists st csst', ttas_lock_recover_kern CACHELINE_GRANULAR 4 1 (written CACHELINE_GRANULAR (lock_val 5 7)) 2 1 3
                   = Ret (st, csst') /\
    if (value CACHELINE_GRANULAR (written CACHELINE_GRANULAR (lock_val 5 7)) =? UNLOCKED) || (5 =? 1)
       || (machine_of 4 5 =? 2)
    then st = TRANSFERED /\ value CACHELINE_GRANULAR csst' = lock_val 1 3
    else st = FAILED /\ value CACHELINE_GRANULAR csst' = value CACHELINE_GRANULAR (written CACHELINE_GRANULAR (lock_val 5 7)).
Proof.
  apply (ttas_lock_recover_correct CACHELINE_GRANULAR 4 1 _ 2 1 3 1 5 7);
    try (unfold is_proc, is_gen; lia); [reflexivity| |right; reflexivity].
  unfold word_ok. vm_compute. split; [discriminate|reflexivity].
Defined.

(** ** A word as a register *)

Section Register.
Context (g : granularity).

Definition reg_ok (w : Z) : Prop := word_ok 64 w /\ value_ok 64 (value g w).

(** A word stored without its dirty bit. *)
Lemma reg_plain v : value_ok 64 v -> value g v = v /\ reg_ok v.
Proof using.
  intros Hv. assert (E : value g v = v).
  { unfold value, pcas_read_noflush_uint64, pcas_read_noflush. destruct g; [done|done|]. rewrite land_clear_mod by done. by apply Z.mod_small. }
  split; [done|]. split; [|by rewrite E]. by apply value_word.
Qed.

Lemma reg_read w : reg_ok w ->
  exists w', pcas_read_uint64 g w = (value g w, w') /\ value g w' = value g w /\ reg_ok w'.
Proof using.
  intros [H1 H2]. destruct (read_ok 64 g eq_refl w H1) as (E1 & E2 & E3). unfold pcas_read_uint64, value, pcas_read_noflush_uint64 in *.
  destruct (pcas_read 64 g w) as [x w']. cbn [fst snd] in *. exists w'. subst x. split; [done|]. split; [done|].
  split; [done|]. unfold value, pcas_read_noflush_uint64. by rewrite E2.
Qed.

Lemma reg_write w v : value_ok 64 v -> value g (persist_atomic_write_uint64 g w v) = v /\ reg_ok (persist_atomic_write_uint64 g w v).
Proof using.
  intros Hv. destruct (write_ok 64 g eq_refl w v Hv) as [E1 E2]. split; [done|]. split; [done|].
  unfold value, pcas_read_noflush_uint64, persist_atomic_write_uint64. by rewrite E1.
Qed.

Lemma reg_cas w e v : reg_ok w -> value_ok 64 e -> value_ok 64 v ->
  exists b w' e', persist_cas_uint64 g w e v = (b, w', e') /\ value g w' = (if value g w =? e then v else value g w) /\ reg_ok w'.
Proof using.
  intros [H1 H2] He Hv. pose proof (cas_ok 64 g eq_refl w e v H1 He Hv) as H. unfold persist_cas_uint64, reg_ok, value, pcas_read_noflush_uint64 in *.
  destruct (persist_cas 64 g w e v) as [[b w'] e']. destruct H as (_ & E & E3). exists b, w', e'. split_and!; [done|done|done|].
  rewrite E. by case_match.
Qed.
End Register.

Lemma upd_same {A} (f : Z -> A) i x : upd f i x i = x.
Proof. unfold upd. by rewrite Z.eqb_refl. Qed.

Lemma upd_other {A} (f : Z -> A) i x j : i <> j -> upd f i x j = f j.
Proof. intros H. unfold upd. destruct (Z.eqb_spec j i); [congruence|done]. Qed.
