(* ===== verification/MetaAlloc.v ===== *)
(** Named allocations in shared memory: the object records of
    src/driver/src/obj_header.c and obj_header.h and the allocator entry points
    of src/driver/src/buddy_alloc.c.  An allocation finds a block in the buddy
    tree and a free object header, records every change in the redo log,
    commits, and executes the log; nothing is changed before the commit. *)
From Stdlib Require Import ZArith Lia Bool.
From stdpp Require Import base list gmap numbers.
From S2P Require Import Prelude Bitset Checksum Redo BuddyTree BuddyAlloc ShmemLog ListQueue PersistCas TatasLock.
Local Open Scope Z_scope.
Local Open Scope lupin_scope.

Definition EIDX_NOT_FOUND : Z := 135.

(** ** Layout *)

(** struct meta_shmem: the log, the two queues, the lock and the allocator. *)
Definition REDOLOG_OFF : Z := 0.
Definition OBJ_HEADERS_Q_OFF : Z := 560.
Definition OBJ_ALLOCS_Q_OFF : Z := 576.
Definition META_LOCK_OFF : Z := 592.
Definition BUDDY_ALLOC_OFF : Z := 600.
Definition sizeof_struct_meta_shmem : Z := 632.
Definition alignof_struct_meta_shmem : Z := 8.

(** struct meta_dram; [cur_obj_recs] is the field of that name of the state. *)
Record meta_dram := MetaDram { mem_start : Z; mem_length : Z; machine_id : Z }.

(** struct region_desc, with the program id as the string it holds. *)
Record region_desc := RegionDesc { rd_offset : Z; rd_length : Z; rd_prog_id : list Z }.

(** ** Object headers *)

(** The offset of the record block that holds a header, from its slot number. *)
Definition get_obj_allocation_records_offset (m : bytes) (obj_hdr : Z) : Z :=
  let obj_hdr_offset := obj_hdr in
  let obj_headers_offset := u64 (obj_hdr_offset - load16 m (obj_hdr + HDR_SLOT_ID_OFF) * sizeof_obj_header) in
  u64 (obj_headers_offset - OBJ_HEADERS_OFF).

Definition next_obj_header (m : bytes) (obj_hdr : Z) : option Z :=
  shmem_optr_direct_ptr (load64 m (obj_hdr + LE_NEXT_OFF)).

Definition next_obj_allocation_records (m : bytes) (recs : Z) : option Z :=
  shmem_optr_direct_ptr (load64 m (recs + LE_NEXT_OFF)).

(** [for (i = 0; i < NUM_OBJ_SLOTS; i++)]: the first clear bit, else 0. *)
Fixpoint first_clear (n : nat) (m : bytes) (bitset i : Z) : Z :=
  match n with
  | O => 0
  | S k => if negb (truthy (bitset_test m bitset i)) then i else first_clear k m bitset (i + 1)
  end.

(** [alloc_and_log_lockheld]: the memory with the log, the log position, the
    return code and the object. *)
Definition alloc_and_log_lockheld (m : bytes) (b : buddy) (d : meta_dram) (log length pos : Z)
  : outcome (bytes * Z * Z * Z) :=
  let tpos := buddy_malloc_find_pos b length in
  if negb (buddy_tree_valid (tree b) tpos) then Ret (m, pos, - ENOMEM, NULL)
  else
    let! r := set_buddyop_log_entry m log pos BUDDY_ALLOC tpos in
    let (m, pos) := r : bytes * Z in
    let obj := address_for_position b tpos in
    if obj =? NULL then Ret (m, pos, - ENOMEM, NULL)
    else if (obj <? mem_start d) || (obj >? mem_start d + mem_length d) then Ret (m, pos, - EFAULT, NULL)
    else Ret (m, pos, 0, obj).

(** [record_obj_hdr_alloc]: the header is [None] when no block for a new record
    page could be allocated. *)
Definition record_obj_hdr_alloc (m : bytes) (b : buddy) (cur_obj_recs : Z) (d : meta_dram)
  (log obj_allocs pos obj_ptr length : Z) (prog_id : list Z) : outcome (bytes * Z * option Z) :=
  bug_on (cur_obj_recs =? 0)
    (let avail := load16 m (cur_obj_recs + AVAILABLE_SLOTS_OFF) in
     let available_slots := u16 (avail - 1) in
     if avail >? 0 then
       let slot := first_clear (Z.to_nat NUM_OBJ_SLOTS) m (cur_obj_recs + SLOT_BITSET_OFF) 0 in
       let! r := set_obj_hdr_alloc_log_entry m log pos cur_obj_recs obj_ptr length prog_id slot
                   (machine_id d) available_slots in
       Ret (fst r, snd r, Some (obj_header_at cur_obj_recs slot))
     else
       let! r := alloc_and_log_lockheld m b d log OBJ_ALLOC_RECS_SIZE pos in
       let '(m, pos, ret, obj) := r : bytes * Z * Z * Z in
       if truthy ret then Ret (m, pos, None)
       else
         let recs := shmem_optr_from_ptr (mem_start d) obj in
         let! r := record_list_queue_append m log pos obj_allocs (Some recs) in
         let! r := set_init_obj_allocs_log_entry (fst r) log (snd r) recs in
         let! r := set_obj_hdr_alloc_log_entry (fst r) log (snd r) recs obj_ptr length prog_id 0
                     (machine_id d) (NUM_OBJ_SLOTS - 1) in
         Ret (fst r, snd r, Some (obj_header_at recs 0))).

Definition record_obj_hdr_free (m : bytes) (log pos obj_hdr : Z) : outcome (bytes * Z) :=
  let alloc_recs_optr := get_obj_allocation_records_offset m obj_hdr in
  match shmem_optr_direct_ptr alloc_recs_optr with
  | None => Bug
  | Some alloc_recs =>
      set_obj_hdr_free_log_entry m log pos alloc_recs_optr (load16 m (obj_hdr + HDR_SLOT_ID_OFF))
        (u16 (load16 m (alloc_recs + AVAILABLE_SLOTS_OFF) + 1))
  end.

(** ** Looking a program id up *)

Definition hdr_prog_id (m : bytes) (obj_hdr : Z) : list Z := cstring 4096 m (obj_hdr + HDR_PROG_ID_OFF).

(** [strlen(a) == strlen(b) && strncmp(a, b, strlen(b)) == 0] *)
Definition same_id (a b : list Z) : bool :=
  (length a =? length b)%nat && bool_decide (take (length b) a = take (length b) b).

Definition obj_header_head (m : bytes) (ms : Z) : option Z :=
  shmem_optr_direct_ptr (load64 m (ms + OBJ_HEADERS_Q_OFF + PE_FIRST_OFF)).

Definition obj_alloc_recs_head (m : bytes) (ms : Z) : option Z :=
  shmem_optr_direct_ptr (load64 m (ms + OBJ_ALLOCS_Q_OFF + PE_FIRST_OFF)).

(** [while (obj_hdr != NULL)]: [Some (Some h)] when found; [None] when [fuel]
    does not reach the end of the list. *)
Fixpoint find_obj_hdr (fuel : nat) (m : bytes) (obj_hdr : option Z) (prog_id : list Z) : option (option Z) :=
  match fuel, obj_hdr with
  | _, None => Some None
  | O, _ => None
  | S k, Some h =>
      if same_id (hdr_prog_id m h) prog_id then Some (Some h)
      else if shmem_optr_is_null (load64 m (h + LE_NEXT_OFF)) then Some None
      else find_obj_hdr k m (next_obj_header m h) prog_id
  end.

(** ** Allocation *)

(** [atomic_allocate_memory_lockheld]: the state, the return code and the object. *)
Definition atomic_allocate_memory_lockheld (s : shm) (d : meta_dram) (ms : Z) (alloc_desc : region_desc)
  : outcome (shm * Z * Z) :=
  let log := ms + REDOLOG_OFF in
  let! r := alloc_and_log_lockheld (mem s) (alloc s) d log (rd_length alloc_desc) 0 in
  let '(m, pos, ret, obj) := r : bytes * Z * Z * Z in
  if truthy ret then Ret (set_mem s m, ret, NULL)
  else
    let obj_optr := shmem_optr_from_ptr (mem_start d) obj in
    let! r := record_obj_hdr_alloc m (alloc s) (cur_obj_recs s) d log (ms + OBJ_ALLOCS_Q_OFF) pos obj_optr
                (rd_length alloc_desc) (rd_prog_id alloc_desc) in
    let '(m, pos, obj_header) := r : bytes * Z * option Z in
    let! r := record_list_queue_append m log pos (ms + OBJ_HEADERS_Q_OFF) obj_header in
    let! r := set_commit_log_entry (fst r) log (snd r) in
    let! s := execute_log log (snd r) (set_mem s (fst r)) in
    Ret (s, 0, obj).

(** [entry = EMPTY_LOG_ENTRY] *)
Definition clear_entry (m : bytes) (log i : Z) : bytes :=
  memset m (entry_at log i) 0 (Z.to_nat sizeof_log_entry).

(** [atomic_free_memory] between taking and releasing the lock. *)
Definition atomic_free_memory_lockheld (fuel : nat) (s : shm) (d : meta_dram) (ms : Z) (free_arg : region_desc)
  : option (outcome (shm * Z)) :=
  let log := ms + REDOLOG_OFF in
  let addr_to_free := mem_start d + rd_offset free_arg in
  match find_obj_hdr fuel (mem s) (obj_header_head (mem s) ms) (rd_prog_id free_arg) with
  | None => None
  | Some None => Some (Ret (s, 0))
  | Some (Some obj_hdr) =>
      Some (
        let pos := buddy_free_find_pos (alloc s) addr_to_free (rd_length free_arg) in
        if negb (buddy_tree_valid (tree (alloc s)) pos) then Ret (s, - EFAULT)
        else
          let m := clear_entry (mem s) log 0 in
          let! r := set_buddyop_log_entry m log 0 BUDDY_FREE pos in
          let! r := record_list_queue_remove (fst r) log (snd r) (ms + OBJ_HEADERS_Q_OFF) (Some obj_hdr) in
          let! r := record_obj_hdr_free (fst r) log (snd r) obj_hdr in
          let! r := set_commit_log_entry (fst r) log (snd r) in
          let! s := execute_log log (snd r) (set_mem s (fst r)) in
          Ret (s, 0))
  end.

Record vcxl_find_alloc := FindAlloc { fa_desc : region_desc; fa_existing : Z }.

(** [find_allocation] between taking and releasing the lock. *)
Definition find_allocation_lockheld (fuel : nat) (s : shm) (d : meta_dram) (ms : Z) (fa : vcxl_find_alloc)
  : option (outcome (shm * vcxl_find_alloc)) :=
  let desc := fa_desc fa in
  match find_obj_hdr fuel (mem s) (obj_header_head (mem s) ms) (rd_prog_id desc) with
  | None => None
  | Some (Some obj_hdr) =>
      Some (Ret (s, FindAlloc
        (RegionDesc (load64 (mem s) (obj_hdr + HDR_OBJ_OPTR_OFF)) (load64 (mem s) (obj_hdr + HDR_LENGTH_OFF))
           (rd_prog_id desc)) 1))
  | Some None =>
      Some (
        if rd_length desc >? 0 then
          let! r := atomic_allocate_memory_lockheld s d ms desc in
          let '(s, _, obj) := r : shm * Z * Z in
          Ret (s, FindAlloc (RegionDesc (u64 (obj - mem_start d)) (rd_length desc) (rd_prog_id desc)) 0)
        else Ret (s, FindAlloc desc 0))
  end.

(** [check_allocation] between taking and releasing the lock: the assertions on
    the records, the header and the buddy tree. *)
Definition check_allocation_lockheld (fuel : nat) (s : shm) (d : meta_dram) (ms : Z) (check : region_desc)
  : option (outcome (shm * Z)) :=
  let m := mem s in
  match find_obj_hdr fuel m (obj_header_head m ms) (rd_prog_id check) with
  | None => None
  | Some None => Some (Ret (s, EIDX_NOT_FOUND))
  | Some (Some obj_hdr) =>
      let obj_allocs := get_obj_allocation_records_offset m obj_hdr in
      let bitset := obj_allocs + SLOT_BITSET_OFF in
      let slot_id := load16 m (obj_hdr + HDR_SLOT_ID_OFF) in
      let calc_slot_id := u16 (u16 (obj_hdr - obj_header_at obj_allocs 0) / sizeof_obj_header) in
      let total_slots := SIZEOF_OBJ_BITSET in
      let alloced_slot := u16 (bitset_count_range m bitset 0 total_slots) in
      let pos := buddy_free_find_pos (alloc s) (mem_start d + rd_offset check) (rd_length check) in
      let pos_internal := buddy_tree_internal_position_tree (tree (alloc s)) pos in
      let pos_status := read_from_internal_position (data (tree (alloc s))) pos_internal in
      Some (
        bug_on (bitset_test m bitset calc_slot_id =? 0)
        (bug_on (negb (NUM_OBJ_SLOTS - alloced_slot =? load16 m (obj_allocs + AVAILABLE_SLOTS_OFF)))
        (bug_on (negb (obj_header_at obj_allocs slot_id =? obj_hdr))
        (bug_on (negb (calc_slot_id =? slot_id))
        (bug_on (negb (machine_id d =? load16 m (obj_hdr + HDR_MACHINE_ID_OFF)))
        (bug_on (negb (load64 m (obj_hdr + HDR_LENGTH_OFF) =? rd_length check))
        (bug_on (negb (load64 m (obj_hdr + HDR_OBJ_OPTR_OFF) =? rd_offset check))
        (bug_on (negb (same_id (hdr_prog_id m obj_hdr) (rd_prog_id check)))
        (bug_on (negb (pos_status =? local_offset pos_internal))
        (Ret (s, 0)))))))))))
  end.

(** ** The entry points, under the metadata lock *)

Section Locked.
Context (g : granularity) (nr_cpu_ids cpu_id gen_id : Z).

(** [meta_lock]: [None] while another processor holds the lock. *)
Definition meta_lock (s : shm) (d : meta_dram) (ms : Z) : outcome (option shm) :=
  let! r := ttas_lock_with_gen_kern g nr_cpu_ids cpu_id 1 (load64 (mem s) (ms + META_LOCK_OFF))
              (machine_id d) gen_id in
  Ret (match r with
       | None => None
       | Some csst => Some (set_mem s (store64 (mem s) (ms + META_LOCK_OFF) csst))
       end).

Definition meta_unlock (s : shm) (d : meta_dram) (ms : Z) : outcome shm :=
  let! csst := ttas_unlock_kern g nr_cpu_ids cpu_id (load64 (mem s) (ms + META_LOCK_OFF)) (machine_id d) in
  Ret (set_mem s (store64 (mem s) (ms + META_LOCK_OFF) csst)).

(** A handler that runs between [meta_lock] and [meta_unlock]; [Ret None] is a
    caller that waits, or a walk longer than its fuel. *)
Definition under_lock {A} (s : shm) (d : meta_dram) (ms : Z) (k : shm -> option (outcome (shm * A)))
  : outcome (option (shm * A)) :=
  let! r := meta_lock s d ms in
  match r with
  | None => Ret None
  | Some s =>
      match k s with
      | None => Ret None
      | Some o =>
          let! r := o in
          let! s := meta_unlock (fst r) d ms in
          Ret (Some (s, snd r))
      end
  end.

Definition atomic_allocate_memory (s : shm) (d : meta_dram) (ms : Z) (a : region_desc)
  : outcome (option (shm * (Z * Z))) :=
  under_lock s d ms (fun s =>
    Some (let! r := atomic_allocate_memory_lockheld s d ms a in
          let '(s, ret, obj) := r : shm * Z * Z in Ret (s, (ret, obj)))).

Definition atomic_free_memory (fuel : nat) (s : shm) (d : meta_dram) (ms : Z) (a : region_desc) :=
  under_lock s d ms (fun s => atomic_free_memory_lockheld fuel s d ms a).

Definition find_allocation (fuel : nat) (s : shm) (d : meta_dram) (ms : Z) (fa : vcxl_find_alloc) :=
  under_lock s d ms (fun s => find_allocation_lockheld fuel s d ms fa).

Definition check_allocation (fuel : nat) (s : shm) (d : meta_dram) (ms : Z) (a : region_desc) :=
  under_lock s d ms (fun s => check_allocation_lockheld fuel s d ms a).
End Locked.
