(* ===== verification/MetaSpec.v ===== *)
(** Correctness of named allocations: allocating is an atomic change of the
    buddy tree, the object records and the object list, and the objects on the
    list are found by their program id. *)
From Stdlib Require Import ZArith Lia Bool.
From stdpp Require Import base list gmap numbers.
From S2P Require Import Prelude Bitset Checksum Redo BuddyTree BuddyInv BuddyAlloc BuddyAllocSpec ShmemLog LogSpec ListQueue PersistCas TatasLock MetaAlloc.
Local Open Scope Z_scope.
Local Open Scope lupin_scope.

(** ** Executing a log together with its commit record *)

Lemma execute_loop_app n1 n2 log i s :
  execute_loop (n1 + n2) log i s =
  let! s := execute_loop n1 log i s in execute_loop n2 log (i + Z.of_nat n1) s.
Proof.
  revert i s. induction n1 as [|n1 IH]; intros i s; cbn [Nat.add execute_loop obind].
  - f_equal. lia.
  - destruct (execute_entry _ s) as [s1|]; cbn [obind]; [|done]. rewrite IH.
    destruct (execute_loop n1 log (i + 1) s1) as [s2|]; cbn [obind]; [|done]. f_equal. lia.
Qed.

Lemma run_entries_log es s s' log a :
  spares_log log es -> run_entries es s = Ret s' -> log <= a < entry_at log REDOLOG_ENTRIES ->
  rd (mem s') a = rd (mem s) a.
Proof.
  intros Hsp Hr Ha. rewrite run_entries_eq in Hr. destruct (existsb entry_null es); [done|].
  injection Hr as <-. cbn [mem]. symmetry. apply rd_bits. intros k Hk.
  apply (blind_frame (Blind := blind_entries es)); [done|]. by apply (spares_all log).
Qed.

Lemma execute_committed log es s :
  Forall wf_entry es -> Z.of_nat (length es) < REDOLOG_ENTRIES -> spares_log log es ->
  committed (mem s) log es ->
  execute_log log (Z.of_nat (length es) + 1) s = run_entries es s.
Proof.
  intros Hwf Hn Hsp (Hh & Ht & _). unfold execute_log.
  replace (Z.to_nat (Z.of_nat (length es) + 1)) with (length es + 1)%nat by lia.
  rewrite execute_loop_app, (execute_loop_run log es) by (done || lia).
  destruct (run_entries es s) as [s'|] eqn:E; cbn [obind execute_loop]; [|done].
  rewrite decode_commit; [by cbn|]. rewrite Z.add_0_l, <- Ht. apply load32_ext.
  intros a Ha. apply (run_entries_log es s s' log); [done|done|].
  unfold entry_at, sizeof_log_entry, REDOLOG_ENTRIES in *. lia.
Qed.

(** ** Memory outside the log *)

(** The recording functions change the ten entries of the log only. *)
Definition log_frame (log : Z) (m m' : bytes) : Prop :=
  forall a, a < log \/ log + 560 <= a -> rd m' a = rd m a.

Lemma log_frame_trans log m1 m2 m3 : log_frame log m1 m2 -> log_frame log m2 m3 -> log_frame log m1 m3.
Proof. intros H1 H2 a Ha. by rewrite H2, H1. Qed.

Lemma append_entry_frame e m log pos m' pos' :
  wf_entry e -> 0 <= pos < REDOLOG_ENTRIES -> append_entry e m log pos = Ret (m', pos') -> log_frame log m m'.
Proof.
  intros Hwf Hpos E a Ha. eapply append_frame; [done..|].
  unfold entry_at, sizeof_log_entry, REDOLOG_ENTRIES in *. lia.
Qed.

Lemma load_log_frame log m m' a n :
  log_frame log m m' -> apart a (Z.of_nat n) log 560 -> load m' a n = load m a n.
Proof. intros H Ha. apply load_ext. intros b Hb. apply H. unfold apart in Ha. lia. Qed.

Lemma queue_log_frame log m m' lq l :
  log_frame log m m' -> apart lq 16 log 560 -> (forall x, x ∈ l -> apart x 16 log 560) ->
  queue m lq l -> queue m' lq l.
Proof.
  intros H Hq Hl. apply queue_ext. intros a Ha. apply H. unfold apart in *.
  destruct Ha as [Ha|(x & Hx & Ha)]; [lia|]. specialize (Hl x Hx). lia.
Qed.

Lemma append_all_app es1 es2 m log pos :
  append_all (es1 ++ es2) m log pos =
  let! r := append_all es1 m log pos in append_all es2 (fst r) log (snd r).
Proof.
  revert m pos. induction es1 as [|e es1 IH]; intros m pos; cbn [app append_all obind]; [done|].
  destruct (append_entry e m log pos) as [[m1 p1]|]; cbn [obind fst snd]; [|done]. apply IH.
Qed.

Lemma first_clear_ext n m m' b i :
  (forall j, i <= j < i + Z.of_nat n -> bit m' b j = bit m b j) ->
  first_clear n m' b i = first_clear n m b i.
Proof.
  revert i. induction n as [|n IH]; intros i H; cbn [first_clear]; [done|].
  rewrite !truthy_bitset_test, H, IH by (lia || (intros; apply H; lia)). done.
Qed.

Lemma first_clear_spec n m b i :
  count_bits m b i n < Z.of_nat n ->
  let k := first_clear n m b i in
  i <= k < i + Z.of_nat n /\ bit m b k = false /\ forall j, i <= j < k -> bit m b j = true.
Proof.
  revert i. induction n as [|n IH]; intros i Hc; cbn [first_clear]; [cbn in Hc; lia|].
  rewrite truthy_bitset_test. cbn [count_bits] in Hc. destruct (bit m b i) eqn:E; cbn [negb Z.b2z] in *.
  - destruct (IH (i + 1)) as (H1 & H2 & H3); [lia|]. split; [lia|]. split; [done|].
    intros j Hj. destruct (decide (j = i)) as [->|]; [done|]. apply H3. lia.
  - split; [lia|]. split; [done|]. intros. lia.
Qed.

(** ** Writing an object header *)

Section Header.
Context (recs slot avail obj len machine : Z) (prog : list Z).
Context (Hslot : 0 <= slot < NUM_OBJ_SLOTS).

Definition hdr_rec : obj_hdr_alloc := ObjHdrAlloc recs obj len slot avail (prog ++ [0]) machine.
Definition hdr_upd (m : bytes) : bytes := run_updates (entry_updates (EObjHdrAlloc hdr_rec)) m.
Definition hdr : Z := obj_header_at recs slot.

Context (Hprog : Forall is_char prog) (Hlen : Z.of_nat (length prog) < PROG_ID_SIZE).

Lemma hdr_upd_eq m :
  hdr_upd m =
  write_bytes (store16 (store16 (store64 (store64 (store16
    (bitset_set m (recs + SLOT_BITSET_OFF) slot) (recs + AVAILABLE_SLOTS_OFF) avail)
    (hdr + HDR_OBJ_OPTR_OFF) obj) (hdr + HDR_LENGTH_OFF) len) (hdr + HDR_MACHINE_ID_OFF) machine)
    (hdr + HDR_SLOT_ID_OFF) slot) (hdr + HDR_PROG_ID_OFF) (prog ++ [0]).
Proof. reflexivity. Qed.

Ltac hdr_consts :=
  unfold hdr, obj_header_at, OBJ_HEADERS_OFF, sizeof_obj_header, SLOT_BITSET_OFF, AVAILABLE_SLOTS_OFF,
    HDR_OBJ_OPTR_OFF, HDR_LENGTH_OFF, HDR_MACHINE_ID_OFF, HDR_SLOT_ID_OFF, HDR_PROG_ID_OFF,
    NUM_OBJ_SLOTS, PROG_ID_SIZE in *.

Lemma rd_bitset_set_out m b p a : a <> b + p / 8 -> rd (bitset_set m b p) a = rd m a.
Proof. intros. unfold bitset_set, CHAR_BIT. by rewrite rd_wr_ne by lia. Qed.

Lemma slot_byte : 0 <= slot / 8 < 43.
Proof using Hslot. clear Hlen Hprog. unfold NUM_OBJ_SLOTS in Hslot. split; [apply Z.div_pos; lia|apply Z.div_lt_upper_bound; lia]. Qed.

Lemma hdr_upd_frame m a :
  a < recs + 16 \/ recs + 62 <= a -> a < hdr + 16 \/ hdr + 48 <= a -> rd (hdr_upd m) a = rd m a.
Proof using Hslot Hlen.
  clear Hprog. intros H1 H2. pose proof slot_byte. rewrite hdr_upd_eq. unfold store64, store16.
  rewrite rd_write_bytes_out by (rewrite length_app; cbn [length]; hdr_consts; lia).
  rewrite !rd_store_out by (hdr_consts; lia). apply rd_bitset_set_out. hdr_consts. lia.
Qed.

Lemma hdr_upd_bit m i :
  0 <= i < 344 -> bit (hdr_upd m) (recs + 16) i = bit m (recs + 16) i || (slot =? i).
Proof using Hslot Hlen.
  clear Hprog. intros Hi. rewrite <- (bit_bitset_set m (recs + 16) slot i) by lia. unfold bit. f_equal.
  assert (0 <= i / 8 < 43) by (split; [apply Z.div_pos; lia|apply Z.div_lt_upper_bound; lia]).
  rewrite hdr_upd_eq. unfold store64, store16.
  rewrite rd_write_bytes_out by (rewrite length_app; cbn [length]; hdr_consts; lia).
  rewrite !rd_store_out by (hdr_consts; lia). done.
Qed.

Lemma load_wb_out m a l b n : b + Z.of_nat n <= a \/ a + Z.of_nat (length l) <= b -> load (write_bytes m a l) b n = load m b n.
Proof. apply load_write_bytes_out. Qed.

Ltac hloads :=
  rewrite hdr_upd_eq; unfold store64, store16, load64, load16;
  rewrite load_wb_out by (rewrite length_app; cbn [length]; hdr_consts; lia);
  repeat first
    [ rewrite load_store_eq by (first [apply u64_range|apply u16_range])
    | rewrite load_store_out by (hdr_consts; lia) ].

Lemma hdr_upd_obj m : load64 (hdr_upd m) (hdr + HDR_OBJ_OPTR_OFF) = u64 obj.
Proof using Hslot Hlen. clear Hprog. hloads. done. Qed.
Lemma hdr_upd_len m : load64 (hdr_upd m) (hdr + HDR_LENGTH_OFF) = u64 len.
Proof using Hslot Hlen. clear Hprog. hloads. done. Qed.
Lemma hdr_upd_machine m : load16 (hdr_upd m) (hdr + HDR_MACHINE_ID_OFF) = u16 machine.
Proof using Hslot Hlen. clear Hprog. hloads. done. Qed.
Lemma hdr_upd_slot m : load16 (hdr_upd m) (hdr + HDR_SLOT_ID_OFF) = u16 slot.
Proof using Hslot Hlen. clear Hprog. hloads. done. Qed.
Lemma hdr_upd_avail m : load16 (hdr_upd m) (recs + AVAILABLE_SLOTS_OFF) = u16 avail.
Proof using Hslot Hlen. clear Hprog. hloads. done. Qed.

Lemma hdr_upd_prog m : hdr_prog_id (hdr_upd m) hdr = prog.
Proof using Hprog Hlen.
  unfold hdr_prog_id. rewrite hdr_upd_eq. apply cstring_write; [done|].
  apply Nat2Z.inj_lt. change (Z.of_nat 4096) with 4096. unfold PROG_ID_SIZE in Hlen. lia.
Qed.
End Header.

(** ** The invariant of the metadata *)

Definition hq (ms : Z) : Z := ms + OBJ_HEADERS_Q_OFF.

(** [recs] are the record blocks and [l] the headers on the object list. *)
Record meta_wf (s : shm) (d : meta_dram) (ms a k : Z) (recs l : list Z) : Prop := MetaWf {
  mw_buddy : buddy_wf (alloc s) a k;
  mw_region : 0 < mem_start d < buddy_main (alloc s) /\
    buddy_main (alloc s) + memory_size (alloc s) <= mem_start d + mem_length d < 2 ^ 64;
  mw_ms : 0 < ms /\ ms + sizeof_struct_meta_shmem < 2 ^ 64;
  mw_machine : is_u16 (machine_id d);
  mw_recs : forall r, r ∈ recs -> 0 < r /\ r + OBJ_ALLOC_RECS_SIZE < 2 ^ 64 /\
    apart r OBJ_ALLOC_RECS_SIZE ms sizeof_struct_meta_shmem;
  mw_disjoint : forall r r', r ∈ recs -> r' ∈ recs -> r <> r' -> apart r OBJ_ALLOC_RECS_SIZE r' OBJ_ALLOC_RECS_SIZE;
  mw_cur : cur_obj_recs s ∈ recs;
  mw_avail : forall r, r ∈ recs ->
    load16 (mem s) (r + AVAILABLE_SLOTS_OFF) = NUM_OBJ_SLOTS - count_bits (mem s) (r + SLOT_BITSET_OFF) 0 340;
  mw_hdr : forall h, h ∈ l -> exists r slot, r ∈ recs /\ 0 <= slot < NUM_OBJ_SLOTS /\
    h = obj_header_at r slot /\ bit (mem s) (r + SLOT_BITSET_OFF) slot = true;
  mw_ids : forall h, h ∈ l -> Z.of_nat (length (hdr_prog_id (mem s) h)) < PROG_ID_SIZE;
  mw_queue : queue (mem s) (hq ms) l }.

(** A request: a length and a program id that fit their fields. *)
Definition request_ok (a : region_desc) : Prop :=
  is_u64 (rd_length a) /\ Forall is_char (rd_prog_id a) /\ Z.of_nat (length (rd_prog_id a)) < PROG_ID_SIZE.

Ltac meta_consts :=
  unfold hq, obj_header_at, OBJ_HEADERS_OFF, sizeof_obj_header, SLOT_BITSET_OFF, AVAILABLE_SLOTS_OFF,
    NUM_OBJ_SLOTS, OBJ_ALLOC_RECS_SIZE, sizeof_struct_meta_shmem, OBJ_HEADERS_Q_OFF, REDOLOG_OFF,
    OBJ_ALLOCS_Q_OFF, apart in *.

Lemma touched_hdr recs slot avail obj len machine prog a k :
  0 <= slot < NUM_OBJ_SLOTS -> Z.of_nat (length prog) < PROG_ID_SIZE ->
  touched (EObjHdrAlloc (hdr_rec recs slot avail obj len machine prog)) a k = true ->
  recs + 16 <= a < recs + 62 \/ obj_header_at recs slot + 16 <= a < obj_header_at recs slot + 48.
Proof.
  intros Hs Hl H. pose proof (slot_byte slot Hs).
  unfold touched in H. apply existsb_exists in H as (u & Hu & Ht).
  unfold PROG_ID_SIZE in Hl. cbn [entry_updates hdr_rec oa_alloc_rec_ptr oa_slot oa_available_slots oa_obj_ptr
    oa_length oa_machine_id oa_prog_id In] in Hu.
  unfold SLOT_BITSET_OFF, AVAILABLE_SLOTS_OFF, HDR_OBJ_OPTR_OFF, HDR_LENGTH_OFF, HDR_MACHINE_ID_OFF,
    HDR_SLOT_ID_OFF, HDR_PROG_ID_OFF, U64, U16 in Hu.
  repeat destruct Hu as [<-|Hu]; [..|done]; cbn [update_region] in Ht; unfold one_bit, rng in Ht;
    apply andb_true_iff in Ht as [Ht1 Ht2]; rewrite ?length_app in Ht2; cbn [length] in Ht2; zb; lia || done.
Qed.

Lemma touched_two o1 v1 o2 v2 a k :
  touched (ETwoVal o1 v1 o2 v2) a k = true -> o1 <= a < o1 + 8 \/ o2 <= a < o2 + 8.
Proof.
  unfold touched. cbn [entry_updates existsb U64 update_region]. unfold rng. intros H. zb; lia || done.
Qed.

(** ** Frames *)

Lemma append_entries_frame lq le l m b :
  b < le \/ le + 16 <= b -> b < lq \/ lq + 16 <= b -> (forall x, x ∈ l -> b < x \/ x + 16 <= b) ->
  rd (mem_of (append_entries lq le l) m) b = rd m b.
Proof.
  intros H1 H2 H3. unfold append_entries. pose proof (last_in l) as Hl.
  destruct (list.last l) as [t|]; rewrite !mem_of_two_val; cbn [mem_of fold_left]; unfold store64;
    rewrite ?rd_store_out by (try (specialize (H3 t (Hl t eq_refl))); off_consts; lia); done.
Qed.

Lemma count_bits_set n m m' b slot i :
  (forall j, i <= j < i + Z.of_nat n -> bit m' b j = bit m b j || (slot =? j)) -> bit m b slot = false ->
  count_bits m' b i n = count_bits m b i n + (if (i <=? slot) && (slot <? i + Z.of_nat n) then 1 else 0).
Proof.
  revert i. induction n as [|n IH]; intros i Hb Hs; cbn [count_bits].
  - zb; cbn [andb]; lia.
  - rewrite IH by (done || (intros; apply Hb; lia)). rewrite (Hb i) by lia.
    destruct (Z.eqb_spec slot i) as [->|]; [rewrite Hs|rewrite orb_false_r]; cbn [orb Z.b2z]; zb; cbn [andb]; lia.
Qed.

Lemma count_bits_ext n m m' b i :
  (forall j, i <= j < i + Z.of_nat n -> bit m' b j = bit m b j) -> count_bits m' b i n = count_bits m b i n.
Proof.
  revert i. induction n as [|n IH]; intros i Hb; cbn [count_bits]; [done|].
  rewrite IH, (Hb i) by (lia || (intros; apply Hb; lia)). done.
Qed.

(** The bits of a record block are in its bytes 16 to 58. *)
Lemma bit_bytes m m' r j :
  (forall b, r + 16 <= b < r + 59 -> rd m' b = rd m b) -> 0 <= j < 344 -> bit m' (r + 16) j = bit m (r + 16) j.
Proof.
  intros H Hj. unfold bit. f_equal. apply H.
  assert (0 <= j / 8 < 43) by (split; [apply Z.div_pos; lia|apply Z.div_lt_upper_bound; lia]). lia.
Qed.

Lemma hdr_apart s d ms a k recs l x y :
  meta_wf s d ms a k recs l -> x ∈ l -> y ∈ l -> x <> y -> apart x 48 y 48.
Proof.
  intros W Hx Hy Hne. destruct (mw_hdr _ _ _ _ _ _ _ W x Hx) as (r1 & s1 & Hr1 & Hs1 & -> & _).
  destruct (mw_hdr _ _ _ _ _ _ _ W y Hy) as (r2 & s2 & Hr2 & Hs2 & -> & _).
  destruct (decide (r1 = r2)) as [->|Hr].
  - assert (s1 <> s2) by congruence. meta_consts. lia.
  - pose proof (mw_disjoint _ _ _ _ _ _ _ W r1 r2 Hr1 Hr2 Hr). meta_consts. lia.
Qed.

Lemma hdr_prog_id_ext m m' x :
  (forall b, x + 16 <= b < x + 48 -> rd m b = rd m' b) -> (length (hdr_prog_id m x) < 28)%nat ->
  hdr_prog_id m' x = hdr_prog_id m x.
Proof.
  intros H Hl. unfold hdr_prog_id in *. apply (cstring_ext _ _ _ _ 28); [|exact Hl].
  intros b Hb. apply H. unfold HDR_PROG_ID_OFF in Hb. lia.
Qed.

(** A header never overlaps the bitmap and the count of a record block. *)
Lemma hdr_bitmap_apart s d ms a k recs l x r :
  meta_wf s d ms a k recs l -> x ∈ l -> r ∈ recs -> apart x 48 (r + 16) 48.
Proof.
  intros W Hx Hr. destruct (mw_hdr _ _ _ _ _ _ _ W x Hx) as (r1 & s1 & Hr1 & Hs1 & -> & _).
  destruct (decide (r1 = r)) as [->|Hne]; [meta_consts; lia|].
  pose proof (mw_disjoint _ _ _ _ _ _ _ W r1 r Hr1 Hr Hne). meta_consts. lia.
Qed.

(** ** One allocation *)

Section Allocate.
Context (s : shm) (d : meta_dram) (ms a k : Z) (recs l : list Z) (desc : region_desc) (p : Z).
Context (W : meta_wf s d ms a k recs l) (Hreq : request_ok desc).
Context (Hpos : buddy_malloc_find_pos (alloc s) (rd_length desc) = pos_of p) (Hfree : free (tree (alloc s)) p).
Context (Hsz : 0 < block_to (alloc s) p - block_from (alloc s) p).
Context (Hav : 0 < load16 (mem s) (cur_obj_recs s + AVAILABLE_SLOTS_OFF)).

Let cur := cur_obj_recs s.
Let avail := load16 (mem s) (cur + AVAILABLE_SLOTS_OFF).
Let slot := first_clear 340 (mem s) (cur + SLOT_BITSET_OFF) 0.
Let obj := address_for_position (alloc s) (pos_of p).
Let h := obj_header_at cur slot.

Definition alloc_hdr : obj_hdr_alloc :=
  hdr_rec cur slot (avail - 1) (obj - mem_start d) (rd_length desc) (machine_id d) (rd_prog_id desc).
Definition alloc_entries : list log_entry :=
  [EBuddyAlloc (pos_of p); EObjHdrAlloc alloc_hdr] ++ append_entries (hq ms) h l.

Lemma alloc_slot_ok : 0 <= slot < NUM_OBJ_SLOTS /\ bit (mem s) (cur + SLOT_BITSET_OFF) slot = false.
Proof using All.
  pose proof (mw_avail _ _ _ _ _ _ _ W _ (mw_cur _ _ _ _ _ _ _ W)) as E. unfold slot, cur.
  unfold NUM_OBJ_SLOTS in *.
  destruct (first_clear_spec 340 (mem s) (cur_obj_recs s + SLOT_BITSET_OFF) 0) as (H1 & H2 & _);
    [change (Z.of_nat 340) with 340; lia|].
  change (Z.of_nat 340) with 340 in H1. split; [lia|done].
Qed.

Lemma alloc_obj_ok : mem_start d < obj < mem_start d + mem_length d /\ obj <> NULL.
Proof using All.
  clear Hav Hreq Hpos. pose proof (mw_buddy _ _ _ _ _ _ _ W) as B. pose proof (bw_geometry _ _ _ B) as G.
  pose proof (wf_order _ _ _ B) as Hn. pose proof (mw_region _ _ _ _ _ _ _ W) as R.
  assert (E : obj = buddy_main (alloc s) + block_from (alloc s) p)
    by (apply (geo_address _ a k G p); [lia|apply Hfree]).
  destruct (block_range _ a k p B (proj1 Hfree) (free_in_memory _ a k p B Hfree)) as [H1 H2].
  unfold NULL. clear W. clearbody obj. lia.
Qed.

Lemma alloc_hdr_in : cur < h /\ h + 48 <= cur + OBJ_ALLOC_RECS_SIZE.
Proof using All. destruct alloc_slot_ok as [Hs _]. unfold h. clearbody slot cur. meta_consts. lia. Qed.

Lemma old_hdr x :
  x ∈ l -> apart x 48 h 48 /\ apart x 48 ms 632 /\ 0 < x /\ x + 48 < 2 ^ 64 /\
  (x + 48 <= cur + 16 \/ cur + 64 <= x).
Proof using All.
  intros Hx. destruct (mw_hdr _ _ _ _ _ _ _ W x Hx) as (r & sl & Hr & Hsl & -> & Hb).
  destruct alloc_slot_ok as [Hs Hnb]. pose proof (mw_cur _ _ _ _ _ _ _ W) as Hc. fold cur in Hc.
  destruct (mw_recs _ _ _ _ _ _ _ W r Hr) as (R1 & R2 & R3).
  destruct (decide (r = cur)) as [->|Hne].
  - assert (sl <> slot) by congruence. unfold h. clear W Hav Hnb Hb. clearbody slot cur. meta_consts. lia.
  - pose proof (mw_disjoint _ _ _ _ _ _ _ W r cur Hr Hc Hne) as D. unfold h.
    clear W Hav Hnb Hb. clearbody slot cur. meta_consts. lia.
Qed.

Lemma alloc_entries_ok : entries_ok (hq ms) (l ++ [h]).
Proof using All.
  pose proof (q_ok _ _ _ (mw_queue _ _ _ _ _ _ _ W)) as [Q1 Q2 Q3 Q4 Q5].
  pose proof alloc_hdr_in as [I1 I2]. pose proof (mw_cur _ _ _ _ _ _ _ W) as Hc. fold cur in Hc.
  destruct (mw_recs _ _ _ _ _ _ _ W cur Hc) as (R1 & R2 & R3). pose proof old_hdr as Ho.
  clear W Hav. clearbody h cur. meta_consts.
  assert (Hnin : h ∉ l) by (intros Hh; destruct (Ho h Hh) as (? & _); lia).
  split; [done|..]; unfold apart.
  - intros x. rewrite elem_of_app, list_elem_of_singleton. intros [Hx| ->]; [by apply Q2|lia].
  - intros x. rewrite elem_of_app, list_elem_of_singleton. intros [Hx| ->]; [by apply Q3|lia].
  - intros x y. rewrite !elem_of_app, !list_elem_of_singleton.
    intros [Hx| ->] [Hy| ->] Hne; [by apply Q4|destruct (Ho x Hx); lia|destruct (Ho y Hy); lia|done].
  - apply list.NoDup_app. split; [done|]. split; [|apply NoDup_singleton].
    intros x Hx. rewrite list_elem_of_singleton. by intros ->.
Qed.

Lemma alloc_entries_wf : Forall wf_entry alloc_entries /\ existsb entry_null alloc_entries = false.
Proof using All.
  destruct alloc_slot_ok as [Hs _]. destruct alloc_obj_ok as [Ho _]. destruct Hreq as (Hl & Hp & Hn).
  destruct (append_entries_wf _ _ _ _ (mw_queue _ _ _ _ _ _ _ W) alloc_entries_ok) as [Hw He].
  pose proof (mw_machine _ _ _ _ _ _ _ W) as Hm. pose proof (mw_region _ _ _ _ _ _ _ W) as R.
  destruct (mw_recs _ _ _ _ _ _ _ W cur (mw_cur _ _ _ _ _ _ _ W)) as (R1 & R2 & _).
  pose proof (load_range (mem s) (cur + AVAILABLE_SLOTS_OFF) 2) as Ha.
  change (load (mem s) (cur + AVAILABLE_SLOTS_OFF) 2) with avail in Ha.
  change (0 < avail) in Hav. change (2 ^ (8 * Z.of_nat 2)) with (2 ^ 16) in Ha.
  pose proof (wf_order _ _ _ (mw_buddy _ _ _ _ _ _ _ W)) as Hord. destruct Hfree as [[N1 N2] _].
  assert (Hp2 : p < 2 ^ 31) by (eapply Z.lt_le_trans; [exact N2|apply Z.pow_le_mono_r; lia]).
  pose proof (Z.log2_nonneg p). pose proof (Z.log2_lt_pow2 p 31 ltac:(lia)).
  unfold alloc_entries. split.
  - apply Forall_app. split; [|done]. constructor; [|constructor; [|constructor]].
    + cbn [wf_entry]. unfold is_u64. cbn [index depth pos_of]. lia.
    + cbn [wf_entry alloc_hdr hdr_rec oa_alloc_rec_ptr oa_obj_ptr oa_length oa_slot oa_available_slots
        oa_machine_id oa_prog_id]. clearbody avail slot cur obj. unfold is_u64, is_u16, NUM_OBJ_SLOTS, OBJ_ALLOC_RECS_SIZE in *.
      split; [lia|]. split; [lia|]. split; [lia|]. split; [lia|]. split; [lia|]. split; [lia|].
      by exists (rd_prog_id desc).
  - rewrite existsb_app, He. cbn [existsb entry_null alloc_hdr hdr_rec oa_alloc_rec_ptr].
    clearbody cur. destruct (Z.eqb_spec cur 0); [lia|done].
Qed.

Lemma alloc_entries_spare : spares_log ms alloc_entries.
Proof using All.
  intros e x j He Hx. destruct alloc_slot_ok as [Hs _]. destruct alloc_hdr_in as [I1 I2].
  destruct Hreq as (_ & _ & Hn).
  destruct (mw_recs _ _ _ _ _ _ _ W cur (mw_cur _ _ _ _ _ _ _ W)) as (R1 & R2 & R3).
  pose proof old_hdr as Hold. pose proof (last_in l) as Hlast.
  unfold entry_at, sizeof_log_entry, REDOLOG_ENTRIES in Hx. unfold alloc_entries in He.
  destruct (touched e x j) eqn:Et; [exfalso|done].
  rewrite elem_of_app in He. destruct He as [He|He].
  - rewrite !elem_of_cons, elem_of_nil in He. destruct He as [-> |[-> |[]]]; [done|].
    apply touched_hdr in Et; [|done|done]. fold h in Et. clearbody h cur slot. meta_consts. lia.
  - unfold append_entries in He. destruct (list.last l) as [t|] eqn:El.
    + destruct (Hold t (Hlast t eq_refl)) as (_ & O2 & _). rewrite !elem_of_cons, elem_of_nil in He.
      destruct He as [-> |[-> |[]]]; apply touched_two in Et; clearbody h cur; off_consts; meta_consts; lia.
    + rewrite !elem_of_cons, elem_of_nil in He.
      destruct He as [-> |[-> |[]]]; apply touched_two in Et; clearbody h cur; off_consts; meta_consts; lia.
Qed.

(** The slot and the count are read from memory the log does not touch. *)
Lemma alloc_reads m1 :
  log_frame ms (mem s) m1 ->
  load16 m1 (cur + AVAILABLE_SLOTS_OFF) = avail /\
  first_clear (Z.to_nat NUM_OBJ_SLOTS) m1 (cur + SLOT_BITSET_OFF) 0 = slot /\ queue m1 (hq ms) l.
Proof using All.
  intros F. destruct (mw_recs _ _ _ _ _ _ _ W cur (mw_cur _ _ _ _ _ _ _ W)) as (_ & _ & R3). split; [|split].
  - apply (load_log_frame ms); [done|]. clearbody cur. meta_consts. lia.
  - change (Z.to_nat NUM_OBJ_SLOTS) with 340%nat. unfold slot. apply first_clear_ext.
    intros j Hj. unfold bit. f_equal. apply F. change (Z.of_nat 340) with 340 in Hj.
    assert (0 <= j / 8 < 43) by (split; [apply Z.div_pos; lia|apply Z.div_lt_upper_bound; lia]).
    clearbody cur. meta_consts. lia.
  - apply (queue_log_frame ms (mem s)); [done|meta_consts; lia| |apply W].
    intros x Hx. destruct (old_hdr x Hx) as (_ & H & _). meta_consts. lia.
Qed.

Lemma alloc_run :
  atomic_allocate_memory_lockheld s d ms desc =
  let! r := commit_log alloc_entries (mem s) ms in
  let! s' := execute_log ms (snd r) (set_mem s (fst r)) in Ret (s', 0, obj).
Proof using All.
  destruct alloc_entries_wf as [Hwf _]. destruct alloc_obj_ok as [Ho Hnn].
  destruct (mw_recs _ _ _ _ _ _ _ W cur (mw_cur _ _ _ _ _ _ _ W)) as (R1 & _).
  pose proof (mw_region _ _ _ _ _ _ _ W) as R.
  unfold atomic_allocate_memory_lockheld, alloc_and_log_lockheld, REDOLOG_OFF. rewrite Z.add_0_r, Hpos.
  rewrite valid_pos_of by (apply (bw_inv _ _ _ (mw_buddy _ _ _ _ _ _ _ W)) || apply Hfree). cbn [negb].
  fold obj. unfold commit_log, alloc_entries. rewrite append_all_app. cbn [append_all].
  inversion Hwf as [|? ? W1 Hwf1]. inversion Hwf1 as [|? ? W2 _]. subst.
  assert (P0 : 0 <= 0 < REDOLOG_ENTRIES) by (unfold REDOLOG_ENTRIES; lia).
  assert (P1 : 0 <= 1 < REDOLOG_ENTRIES) by (unfold REDOLOG_ENTRIES; lia).
  destruct (append_decode _ (mem s) ms 0 W1 P0) as (m1 & E1 & _).
  pose proof (append_entry_frame _ _ _ _ _ _ W1 P0 E1) as F1.
  rewrite E1. cbn [append_entry] in E1. rewrite E1. cbn [obind fst snd].
  destruct (Z.eqb_spec obj NULL); [done|]. replace ((obj <? mem_start d) || _) with false
    by (symmetry; rewrite Z.gtb_ltb; clear -Ho; clearbody obj; zb; lia || done). cbn [obind truthy Z.eqb negb].
  unfold record_obj_hdr_alloc, bug_on. fold cur. destruct (alloc_reads m1 F1) as (A1 & A2 & _).
  rewrite A1, A2. assert (Hc0 : (cur =? 0) = false) by (apply Z.eqb_neq; clear -R1; clearbody cur; lia). rewrite Hc0.
  assert (Hgt : (avail >? 0) = true) by (apply Z.gtb_lt; exact Hav). rewrite Hgt.
  destruct (append_decode _ m1 ms 1 W2 P1) as (m2 & E2 & _).
  pose proof (append_entry_frame _ _ _ _ _ _ W2 P1 E2) as F2.
  change (0 + 1) with 1. rewrite E2. cbn [append_entry alloc_hdr hdr_rec oa_alloc_rec_ptr oa_obj_ptr oa_length oa_slot
    oa_available_slots oa_machine_id oa_prog_id] in E2. rewrite removelast_last in E2.
  destruct W2 as (_ & U1 & _ & _ & U2 & _). cbn [alloc_hdr hdr_rec oa_obj_ptr oa_available_slots] in U1, U2.
  unfold shmem_optr_from_ptr. change NULL with 0 in *. destruct (Z.eqb_spec obj 0); [done|].
  rewrite (u64_id (obj - mem_start d)), (u16_id (avail - 1)), E2 by done. cbn [obind fst snd]. change (1 + 1) with 2.
  destruct (alloc_reads m2 (log_frame_trans _ _ _ _ F1 F2)) as (_ & _ & Q).
  fold h. change (ms + OBJ_HEADERS_Q_OFF) with (hq ms).
  rewrite (record_append_eq _ _ _ _ _ _ Q alloc_entries_ok). by destruct (append_all (append_entries (hq ms) h l) m2 ms 2).
Qed.

(** The memory after the log has been executed on [m1]. *)
Let after (m1 : bytes) : bytes :=
  mem_of (append_entries (hq ms) h l)
    (hdr_upd cur slot (avail - 1) (obj - mem_start d) (rd_length desc) (machine_id d) (rd_prog_id desc) m1).

Lemma after_entries m1 : mem_of alloc_entries m1 = after m1.
Proof using All. reflexivity. Qed.

Lemma after_frame m1 b :
  b < cur + 16 \/ cur + 62 <= b -> b < h \/ h + 48 <= b -> b < hq ms \/ hq ms + 16 <= b ->
  (forall x, x ∈ l -> b < x \/ x + 16 <= b) -> rd (after m1) b = rd m1 b.
Proof using All.
  intros H1 H2 H3 H4. destruct alloc_slot_ok as [Hs _]. destruct Hreq as (_ & _ & Hn). unfold after.
  rewrite append_entries_frame by (done || lia).
  apply hdr_upd_frame; [done|done|done|]. change (hdr cur slot) with h. lia.
Qed.

Lemma after_hdr m1 b :
  h + 16 <= b < h + 48 \/ cur + 16 <= b < cur + 62 -> rd (after m1) b =
  rd (hdr_upd cur slot (avail - 1) (obj - mem_start d) (rd_length desc) (machine_id d) (rd_prog_id desc) m1) b.
Proof using All.
  intros Hb. pose proof alloc_hdr_in as [I1 I2]. pose proof old_hdr as Ho. destruct alloc_slot_ok as [Hs _].
  destruct (mw_recs _ _ _ _ _ _ _ W cur (mw_cur _ _ _ _ _ _ _ W)) as (_ & _ & R3).
  assert (Hh : cur + 64 <= h) by (unfold h; clearbody slot cur; meta_consts; lia).
  unfold after. apply append_entries_frame; clear W Hpos Hfree Hav.
  - clearbody h cur. lia.
  - clearbody h cur. meta_consts. lia.
  - intros x Hx. destruct (Ho x Hx) as (O1 & _ & _ & _ & O2). clearbody h cur. unfold apart in O1. lia.
Qed.

Lemma after_queue m1 : log_frame ms (mem s) m1 -> queue (after m1) (hq ms) (l ++ [h]).
Proof using All.
  intros F. destruct (alloc_reads m1 F) as (_ & _ & Q). destruct alloc_slot_ok as [Hs _].
  destruct Hreq as (_ & _ & Hn). pose proof alloc_hdr_in as [I1 I2]. pose proof old_hdr as Ho.
  destruct (mw_recs _ _ _ _ _ _ _ W cur (mw_cur _ _ _ _ _ _ _ W)) as (_ & _ & R3).
  unfold after. apply append_effect; [|exact alloc_entries_ok]. apply (queue_ext m1); [|done].
  intros b Hb. apply hdr_upd_frame; [done|done|..]; change (hdr cur slot) with h; clear Q F W Hpos Hfree Hav;
    clearbody h cur; (destruct Hb as [Hb|(x & Hx & Hb)]; [|destruct (Ho x Hx) as (O1 & _ & _ & _ & O2)]);
    meta_consts; lia.
Qed.

(** The bitmap of the current block gains the slot; the others are as before. *)
Lemma after_bits m1 r j :
  log_frame ms (mem s) m1 -> r ∈ recs -> 0 <= j < 340 ->
  bit (after m1) (r + 16) j = if r =? cur then bit (mem s) (r + 16) j || (slot =? j) else bit (mem s) (r + 16) j.
Proof using All.
  intros F Hr Hj. destruct alloc_slot_ok as [Hs _]. destruct Hreq as (_ & _ & Hn).
  destruct (mw_recs _ _ _ _ _ _ _ W r Hr) as (_ & _ & R3).
  assert (F1 : bit m1 (r + 16) j = bit (mem s) (r + 16) j).
  { apply bit_bytes; [|lia]. intros b Hb. apply F. meta_consts. lia. }
  destruct (Z.eqb_spec r cur) as [->|Hne].
  - rewrite <- F1, <- (hdr_upd_bit cur slot (avail - 1) (obj - mem_start d) (rd_length desc) (machine_id d)
      (rd_prog_id desc) Hs Hn m1 j) by lia.
    apply bit_bytes; [|lia]. intros b Hb. apply after_hdr. clearbody h cur. lia.
  - rewrite <- F1. apply bit_bytes; [|lia]. intros b Hb. pose proof alloc_hdr_in as [I1 I2].
    pose proof (mw_disjoint _ _ _ _ _ _ _ W r cur Hr (mw_cur _ _ _ _ _ _ _ W) Hne) as D.
    pose proof (fun x Hx => hdr_bitmap_apart _ _ _ _ _ _ _ x r W Hx Hr) as Hb2.
    apply after_frame; clear W Hpos Hfree Hav F1 F; clearbody h cur; meta_consts; try lia.
    intros x Hx. specialize (Hb2 x Hx). lia.
Qed.

Lemma after_avail m1 r :
  log_frame ms (mem s) m1 -> r ∈ recs ->
  load16 (after m1) (r + AVAILABLE_SLOTS_OFF) =
  NUM_OBJ_SLOTS - count_bits (after m1) (r + SLOT_BITSET_OFF) 0 340.
Proof using All.
  intros F Hr. pose proof (mw_avail _ _ _ _ _ _ _ W r Hr) as E. destruct alloc_slot_ok as [Hs Hnb].
  pose proof (fun j Hj => after_bits m1 r j F Hr Hj) as Hbits. change SLOT_BITSET_OFF with 16 in *.
  destruct (Z.eqb_spec r cur) as [->|Hne].
  - rewrite (count_bits_set 340 (mem s) (after m1) (cur + 16) slot 0 Hbits Hnb).
    change (Z.of_nat 340) with 340. unfold NUM_OBJ_SLOTS in Hs.
    replace ((0 <=? slot) && (slot <? 0 + 340)) with true by (symmetry; clear -Hs; clearbody slot; zb; lia || done).
    transitivity (avail - 1); [|clearbody slot; unfold avail; lia].
    destruct Hreq as (_ & _ & Hn). destruct alloc_slot_ok as [Hs' _].
    rewrite <- (u16_id (avail - 1)) by (destruct alloc_entries_wf as [Hwf _]; inversion Hwf as [|? ? _ Hwf1];
      inversion Hwf1 as [|? ? W2 _]; apply W2).
    rewrite <- (hdr_upd_avail cur slot (avail - 1) (obj - mem_start d) (rd_length desc) (machine_id d)
      (rd_prog_id desc) Hs' Hn m1).
    apply load_ext. intros b Hb. apply after_hdr. change AVAILABLE_SLOTS_OFF with 60 in Hb. clearbody h cur. lia.
  - rewrite (count_bits_ext 340 (mem s) (after m1) (r + 16) 0 Hbits), <- E.
    destruct (mw_recs _ _ _ _ _ _ _ W r Hr) as (_ & _ & R3). pose proof alloc_hdr_in as [I1 I2].
    pose proof (mw_disjoint _ _ _ _ _ _ _ W r cur Hr (mw_cur _ _ _ _ _ _ _ W) Hne) as D.
    pose proof (fun x Hx => hdr_bitmap_apart _ _ _ _ _ _ _ x r W Hx Hr) as Hb2.
    apply load_ext. intros b Hb. rewrite <- (F b) by (meta_consts; lia).
    apply after_frame; clear W Hpos Hfree Hav F E Hbits; clearbody h cur; meta_consts; try lia.
    intros x Hx. specialize (Hb2 x Hx). lia.
Qed.

Lemma after_fields m1 :
  hdr_prog_id (after m1) h = rd_prog_id desc /\
  load64 (after m1) (h + HDR_OBJ_OPTR_OFF) = obj - mem_start d /\
  load64 (after m1) (h + HDR_LENGTH_OFF) = rd_length desc /\
  load16 (after m1) (h + HDR_MACHINE_ID_OFF) = machine_id d /\
  load16 (after m1) (h + HDR_SLOT_ID_OFF) = slot.
Proof using All.
  destruct alloc_slot_ok as [Hs _]. destruct Hreq as (Hl & Hp & Hn). destruct alloc_obj_ok as [Ho _].
  pose proof (mw_region _ _ _ _ _ _ _ W) as R. pose proof (mw_machine _ _ _ _ _ _ _ W) as Hm.
  set (m2 := hdr_upd cur slot (avail - 1) (obj - mem_start d) (rd_length desc) (machine_id d) (rd_prog_id desc) m1).
  assert (E64 : forall k, 16 <= k <= 40 -> load64 (after m1) (h + k) = load64 m2 (h + k)).
  { intros i Hi. apply load64_ext. intros c Hc. apply after_hdr. clearbody h. lia. }
  assert (E16 : forall k, 16 <= k <= 46 -> load16 (after m1) (h + k) = load16 m2 (h + k)).
  { intros i Hi. apply load_ext. intros c Hc. apply after_hdr. clearbody h. lia. }
  split; [|split; [|split; [|split]]].
  - pose proof (hdr_upd_prog cur slot (avail - 1) (obj - mem_start d) (rd_length desc) (machine_id d) _ Hp Hn m1) as E.
    change (hdr cur slot) with h in E. fold m2 in E. rewrite <- E. apply hdr_prog_id_ext.
    + intros b Hb. symmetry. apply after_hdr. clearbody h. lia.
    + rewrite E. unfold PROG_ID_SIZE in Hn. lia.
  - rewrite E64 by (unfold HDR_OBJ_OPTR_OFF; lia). etransitivity; [by apply hdr_upd_obj|].
    apply u64_id. unfold is_u64. clearbody obj. lia.
  - rewrite E64 by (unfold HDR_LENGTH_OFF; lia). etransitivity; [by apply hdr_upd_len|]. by apply u64_id.
  - rewrite E16 by (unfold HDR_MACHINE_ID_OFF; lia). etransitivity; [by apply hdr_upd_machine|]. by apply u16_id.
  - rewrite E16 by (unfold HDR_SLOT_ID_OFF; lia). etransitivity; [by apply hdr_upd_slot|].
    apply u16_id. unfold is_u16, NUM_OBJ_SLOTS in *. clearbody slot. lia.
Qed.

Lemma after_old m1 x b :
  log_frame ms (mem s) m1 -> x ∈ l -> x + 16 <= b < x + 48 -> rd (after m1) b = rd (mem s) b.
Proof using All.
  intros F Hx Hb. destruct (old_hdr x Hx) as (O1 & O2 & _ & _ & O3).
  pose proof (fun y Hy Hne => hdr_apart _ _ _ _ _ _ _ y x W Hy Hx Hne) as Hap.
  rewrite <- (F b) by (meta_consts; lia).
  apply after_frame; clear W Hpos Hfree Hav F; clearbody h cur; meta_consts; try lia.
  intros y Hy. destruct (decide (y = x)) as [->|Hne]; [lia|]. specialize (Hap y Hy Hne). lia.
Qed.

Lemma after_ids m1 x :
  log_frame ms (mem s) m1 -> x ∈ l -> hdr_prog_id (after m1) x = hdr_prog_id (mem s) x.
Proof using All.
  intros F Hx. apply hdr_prog_id_ext.
  - intros b Hb. symmetry. by apply (after_old m1 x).
  - pose proof (mw_ids _ _ _ _ _ _ _ W x Hx). unfold PROG_ID_SIZE in *. lia.
Qed.

Lemma alloc_entries_buddy b0 :
  fold_left (fun b e => entry_alloc e b) alloc_entries b0 = fst (buddy_malloc_apply b0 (pos_of p)).
Proof using All. unfold alloc_entries, append_entries. by destruct (list.last l). Qed.

Lemma alloc_entries_cur c : fold_left (fun c e => entry_cur e c) alloc_entries c = c.
Proof using All. unfold alloc_entries, append_entries. by destruct (list.last l). Qed.

Lemma allocate_success :
  exists s', atomic_allocate_memory_lockheld s d ms desc = Ret (s', 0, obj) /\
    alloc s' = fst (buddy_malloc_apply (alloc s) (pos_of p)) /\ cur_obj_recs s' = cur /\
    exists m1, log_frame ms (mem s) m1 /\ mem s' = after m1.
Proof using All.
  destruct alloc_entries_wf as [Hwf Hnull]. pose proof alloc_entries_spare as Hsp.
  pose proof (mw_ms _ _ _ _ _ _ _ W) as Hms.
  assert (Hlen : Z.of_nat (length alloc_entries) < REDOLOG_ENTRIES) by reflexivity.
  destruct (commit_log_spec alloc_entries (mem s) ms Hwf ltac:(lia) Hlen) as (m1 & E & Hc & F).
  rewrite alloc_run, E. cbn [obind fst snd].
  rewrite (execute_committed ms alloc_entries (set_mem s m1) Hwf Hlen Hsp Hc).
  rewrite run_entries_eq, Hnull, alloc_entries_buddy, alloc_entries_cur. cbn [obind mem alloc cur_obj_recs set_mem].
  eexists. split; [reflexivity|]. split; [reflexivity|]. split; [reflexivity|].
  exists m1. split; [|exact (after_entries m1)].
  intros b Hb. apply F. unfold entry_at, sizeof_log_entry, REDOLOG_ENTRIES. lia.
Qed.

Lemma allocate_wf s' m1 :
  alloc s' = fst (buddy_malloc_apply (alloc s) (pos_of p)) -> cur_obj_recs s' = cur ->
  log_frame ms (mem s) m1 -> mem s' = after m1 -> meta_wf s' d ms a k recs (l ++ [h]).
Proof using All.
  intros Ea Ec F Em. destruct alloc_slot_ok as [Hs _].
  destruct W as [B R Hms Hmi Hr Hd Hc Hav' Hh Hid Q]. split; rewrite ?Ea, ?Ec, ?Em; try done.
  - by apply mark_wf.
  - intros r Hin. by apply after_avail.
  - intros x. rewrite elem_of_app, list_elem_of_singleton. intros [Hx| ->].
    + destruct (Hh x Hx) as (r & sl & H1 & H2 & H3 & H4). exists r, sl. split; [done|]. split; [done|]. split; [done|].
      change SLOT_BITSET_OFF with 16 in *. rewrite after_bits by done. rewrite H4. by destruct (r =? cur).
    + exists cur, slot. split; [done|]. split; [done|]. split; [done|]. change SLOT_BITSET_OFF with 16.
      rewrite after_bits by done. by rewrite !Z.eqb_refl, orb_true_r.
  - intros x. rewrite elem_of_app, list_elem_of_singleton. intros [Hx| ->].
    + rewrite (after_ids m1 x F Hx). by apply Hid.
    + destruct (after_fields m1) as [-> _]. apply Hreq.
  - by apply after_queue.
Qed.
End Allocate.

(** ** Looking up by program id *)

Lemma same_id_spec a b : same_id a b = bool_decide (a = b).
Proof.
  unfold same_id. destruct (Nat.eqb_spec (length a) (length b)) as [E|E]; cbn [andb].
  - apply bool_decide_ext. by rewrite (firstn_all2 a), firstn_all by lia.
  - symmetry. apply bool_decide_eq_false. by intros ->.
Qed.

(** The first header of the list with the program id. *)
Definition lookup_id (m : bytes) (id : list Z) (l : list Z) : option Z :=
  List.find (fun h => same_id (hdr_prog_id m h) id) l.

Lemma find_obj_hdr_linked fuel m prev l id :
  linked m prev l -> (forall x, x ∈ l -> 0 < x) -> (length l <= fuel)%nat ->
  find_obj_hdr fuel m (head l) id = Some (lookup_id m id l).
Proof.
  revert prev l. induction fuel as [|fuel IH]; intros prev [|x l] Hl Hx Hf; try done; [cbn in Hf; lia|].
  cbn [find_obj_hdr head lookup_id List.find]. destruct (same_id (hdr_prog_id m x) id); [done|].
  destruct Hl as (_ & Hn & Hl). unfold shmem_optr_is_null, next_obj_header, shmem_optr_direct_ptr. rewrite Hn.
  destruct l as [|y l]; [done|]. change (default 0 (head (y :: l))) with y.
  assert (0 < y) by (apply Hx; right; by left). destruct (Z.eqb_spec y 0); [lia|].
  apply (IH x (y :: l)); [done|intros z Hz; apply Hx; by right|cbn in *; lia].
Qed.

Lemma find_in_queue fuel m ms l id :
  queue m (hq ms) l -> (length l <= fuel)%nat ->
  find_obj_hdr fuel m (obj_header_head m ms) id = Some (lookup_id m id l).
Proof.
  intros Q Hf. pose proof (eo_range _ _ (q_ok _ _ _ Q)) as Hr.
  assert (E : obj_header_head m ms = head l).
  { unfold obj_header_head, shmem_optr_direct_ptr. change (ms + OBJ_HEADERS_Q_OFF) with (hq ms).
    rewrite (q_first _ _ _ Q). destruct l as [|x l]; [done|]. change (default 0 (head (x :: l))) with x.
    destruct (Hr x) as [H0 _]; [by left|]. destruct (Z.eqb_spec x 0); [lia|done]. }
  rewrite E. apply (find_obj_hdr_linked fuel m 0); [apply Q| |done]. intros x Hx. by apply Hr.
Qed.

Lemma lookup_id_ext m m' id l :
  (forall x, x ∈ l -> hdr_prog_id m' x = hdr_prog_id m x) -> lookup_id m' id l = lookup_id m id l.
Proof.
  unfold lookup_id. induction l as [|x l IH]; intros H; cbn [List.find]; [done|].
  rewrite H by (by left). destruct (same_id _ id); [done|]. apply IH. intros y Hy. apply H. by right.
Qed.

Lemma lookup_id_app m id l h :
  lookup_id m id l = None -> hdr_prog_id m h = id -> lookup_id m id (l ++ [h]) = Some h.
Proof.
  intros Hn Hh. unfold lookup_id in *. induction l as [|x l IH]; cbn [app List.find] in *.
  - rewrite Hh, same_id_spec. by rewrite bool_decide_eq_true_2.
  - destruct (same_id (hdr_prog_id m x) id); [done|]. by apply IH.
Qed.

(** ** Correctness *)

(** Walking the object list finds the first object with the program id, or
    reports that there is none, for every list and with as many iterations as
    the list has objects. *)
Theorem find_obj_hdr_correct (fuel : nat) (m : bytes) (ms : Z) (l : list Z) (id : list Z) :
  queue m (hq ms) l -> (length l <= fuel)%nat ->
  match find_obj_hdr fuel m (obj_header_head m ms) id with
  | None => False
  | Some None => forall h, h ∈ l -> hdr_prog_id m h <> id
  | Some (Some h) => exists l1 l2, l = l1 ++ h :: l2 /\ hdr_prog_id m h = id /\
      forall x, x ∈ l1 -> hdr_prog_id m x <> id
  end.
Proof.
  intros Q Hf. rewrite (find_in_queue fuel m ms l id Q Hf). clear Q Hf. unfold lookup_id.
  induction l as [|x l IH]; cbn [List.find]; [by intros h ?%elem_of_nil|].
  rewrite same_id_spec. destruct (decide (hdr_prog_id m x = id)) as [E|E].
  - rewrite bool_decide_eq_true_2 by done. exists [], l. split; [done|]. split; [done|].
    by intros y ?%elem_of_nil.
  - rewrite bool_decide_eq_false_2 by done. destruct (List.find _ l) as [h|].
    + destruct IH as (l1 & l2 & -> & H1 & H2). exists (x :: l1), l2. split; [done|]. split; [done|].
      intros y. rewrite elem_of_cons. intros [->|]; [done|]. by apply H2.
    + intros y. rewrite elem_of_cons. intros [->|]; [done|]. by apply IH.
Qed.


(** The state of the examples: one record block at 20480 and an empty list. *)
Definition example_dram : meta_dram := MetaDram 4096 1000000 1.
Definition example_shm : shm := Shm (init_obj_allocation_records ∅ 20480) example_buddy 20480.
Definition example_desc (len : Z) : region_desc := RegionDesc 0 len [107; 118].

Lemma example_meta_wf : meta_wf example_shm example_dram 40000 6 5 [20480] [].
Proof.
  assert (HB : exists b, example_buddy = b /\ buddy_wf b 6 5 /\ buddy_main b = 65536 /\ memory_size b = 320).
  { destruct example_wf as (b & E & B & Hm & _). exists b. split; [unfold example_buddy; by rewrite E|].
    split; [exact B|]. split; [exact Hm|]. rewrite (g_size _ _ _ (bw_geometry _ _ _ B)). reflexivity. }
  destruct HB as (b & Eb & B & Hm & Hsz).
  split; cbn [mem alloc cur_obj_recs example_shm example_dram mem_start mem_length machine_id].
  - rewrite Eb. exact B.
  - rewrite Eb, Hm, Hsz. lia.
  - unfold sizeof_struct_meta_shmem. lia.
  - unfold is_u16. lia.
  - intros r ->%list_elem_of_singleton. meta_consts. lia.
  - intros r r' ->%list_elem_of_singleton ->%list_elem_of_singleton Hne. destruct (Hne eq_refl).
  - left.
  - intros r ->%list_elem_of_singleton. vm_compute. reflexivity.
  - intros h Hh. destruct (proj1 (elem_of_nil h) Hh).
  - intros h Hh. destruct (proj1 (elem_of_nil h) Hh).
  - split; [reflexivity|discriminate|exact I|]. split.
    + meta_consts. lia.
    + intros h Hh. destruct (proj1 (elem_of_nil h) Hh).
    + intros h Hh. destruct (proj1 (elem_of_nil h) Hh).
    + intros h h' Hh. destruct (proj1 (elem_of_nil h) Hh).
    + apply NoDup_nil_2.
Qed.

Lemma example_request_ok : request_ok (example_desc 100).
Proof.
  split; [unfold is_u64; cbn; lia|]. split; [repeat constructor; unfold is_char; lia|reflexivity].
Qed.


Lemma find_obj_hdr_correct_witness :
  match find_obj_hdr 0 (mem example_shm) (obj_header_head (mem example_shm) 40000) [107] with
  | None => False
  | Some None => forall h, h ∈ [] -> hdr_prog_id (mem example_shm) h <> [107]
  | Some (Some h) => exists l1 l2, [] = l1 ++ h :: l2 /\ hdr_prog_id (mem example_shm) h = [107] /\
      forall x, x ∈ l1 -> hdr_prog_id (mem example_shm) x <> [107]
  end.
Proof.
  apply (find_obj_hdr_correct 0 (mem example_shm) 40000 [] [107]); [apply (mw_queue _ _ _ _ _ _ _ example_meta_wf)|reflexivity].
Defined.

(** What was allocated under a new program id is found under it: a lookup
    right after the allocation reports the object as existing, with the offset
    and the length of the allocation, and changes nothing. *)
Theorem allocate_then_find (s : shm) (d : meta_dram) (ms a k : Z) (recs l : list Z) (desc : region_desc) :
  meta_wf s d ms a k recs l -> request_ok desc ->
  0 < load16 (mem s) (cur_obj_recs s + AVAILABLE_SLOTS_OFF) ->
  snd (buddy_malloc (alloc s) (rd_length desc)) <> NULL ->
  (forall h, h ∈ l -> hdr_prog_id (mem s) h <> rd_prog_id desc) ->
  exists s' obj, atomic_allocate_memory_lockheld s d ms desc = Ret (s', 0, obj) /\
    forall fuel off len ex, (length l < fuel)%nat ->
      find_allocation_lockheld fuel s' d ms (FindAlloc (RegionDesc off len (rd_prog_id desc)) ex) =
      Some (Ret (s', FindAlloc (RegionDesc (obj - mem_start d) (rd_length desc) (rd_prog_id desc)) 1)).
Proof.
  intros W Hreq Hav Hnn Hnew. pose proof (mw_buddy _ _ _ _ _ _ _ W) as B. rewrite malloc_two_parts in Hnn.
  destruct (find_pos_spec (alloc s) a k (rd_length desc) B) as [(p & Hpos & Hfree & Hsz)|[E _]];
    [apply Hreq| |by rewrite E, invalid_not_valid in Hnn].
  assert (Hsz' : 0 < block_to (alloc s) p - block_from (alloc s) p)
    by (unfold padded_request in Hsz; pose proof (proj1 Hreq) as U; unfold is_u64 in U; zb; lia).
  destruct (allocate_success s d ms a k recs l desc p W Hreq Hpos Hfree Hsz' Hav) as (s' & E & Ea & Ec & m1 & F & Em).
  pose proof (allocate_wf s d ms a k recs l desc p W Hreq Hpos Hfree Hsz' Hav s' m1 Ea Ec F Em) as W'.
  destruct (after_fields s d ms a k recs l desc p W Hreq Hpos Hfree Hsz' Hav m1) as (F1 & F2 & F3 & _).
  assert (Fid : forall x, x ∈ l -> hdr_prog_id (mem s') x = hdr_prog_id (mem s) x)
    by (intros x Hx; rewrite Em; exact (after_ids s d ms a k recs l desc p W Hreq Hpos Hfree Hsz' Hav m1 x F Hx)).
  rewrite <- Em in F1, F2, F3. eexists s', _. split; [exact E|].
  intros fuel off len ex Hf. unfold find_allocation_lockheld. cbn [fa_desc rd_prog_id].
  rewrite (find_in_queue fuel (mem s') ms _ _ (mw_queue _ _ _ _ _ _ _ W')) by (rewrite length_app; cbn [length]; lia).
  assert (Hl : lookup_id (mem s') (rd_prog_id desc) l = None).
  { rewrite (lookup_id_ext (mem s)) by exact Fid. unfold lookup_id.
    destruct (List.find _ l) as [h|] eqn:Eh; [|done]. apply List.find_some in Eh as [H1 H2].
    rewrite same_id_spec in H2. apply bool_decide_eq_true in H2. by destruct (Hnew h (proj2 (list_elem_of_In _ _) H1)). }
  rewrite (lookup_id_app _ _ _ _ Hl F1), F2, F3. done.
Qed.

Lemma allocate_then_find_witness :
  exists s' obj, atomic_allocate_memory_lockheld example_shm example_dram 40000 (example_desc 100) = Ret (s', 0, obj) /\
    forall fuel off len ex, (length (@nil Z) < fuel)%nat ->
      find_allocation_lockheld fuel s' example_dram 40000 (FindAlloc (RegionDesc off len [107; 118]) ex) =
      Some (Ret (s', FindAlloc (RegionDesc (obj - 4096) 100 [107; 118]) 1)).
Proof.
  apply (allocate_then_find example_shm example_dram 40000 6 5 [20480] [] (example_desc 100));
    [apply example_meta_wf|apply example_request_ok|vm_compute; reflexivity|vm_compute; discriminate|].
  intros h Hh. destruct (proj1 (elem_of_nil h) Hh).
Defined.



(** ** Where the code and its intent part *)

(** A state like the example whose bitmap has its first 48 slots taken. *)
Definition many_slots_shm : shm :=
  Shm (store16 (write_bytes (mem example_shm) (20480 + SLOT_BITSET_OFF) (replicate 6 255))
         (20480 + AVAILABLE_SLOTS_OFF) (NUM_OBJ_SLOTS - 48)) example_buddy 20480.

(** [check_allocation] counts the bits of the first 44 slots only, although
    a block has 340: it accepts an allocation while few slots are taken and
    stops the machine on an equally correct one when more are. *)
Theorem check_allocation_counts_44_slots :
  let check s := check_allocation_lockheld 1 s example_dram 40000 (RegionDesc (65536 - 4096) 100 [107; 118]) in
  match atomic_allocate_memory_lockheld example_shm example_dram 40000 (example_desc 100) with
  | Ret (s', ret, obj) => ret = 0 /\ obj = 65536 /\ match check s' with Some (Ret (_, r)) => r = 0 | _ => False end
  | Bug => False
  end /\
  match atomic_allocate_memory_lockheld many_slots_shm example_dram 40000 (example_desc 100) with
  | Ret (s', ret, obj) => ret = 0 /\ obj = 65536 /\
      load16 (mem s') (20480 + AVAILABLE_SLOTS_OFF) = NUM_OBJ_SLOTS - count_bits (mem s') (20480 + SLOT_BITSET_OFF) 0 340 /\
      match check s' with Some Bug => True | _ => False end
  | Bug => False
  end.
Proof. vm_compute. repeat split. Qed.

(** An allocator of sixteen 4 KiB slots and a record block without free slots. *)
Definition exhausted_shm : shm :=
  Shm (store16 (mem example_shm) (20480 + AVAILABLE_SLOTS_OFF) 0)
      (default example_buddy (buddy_init_alignment 4096 131072 65536 4096)) 20480.

(** When the record block is full the block for the new records is searched
    before the object's own block has been marked, so both are the same: the
    object that is returned to the caller overlaps the records that describe
    it. *)
Theorem exhausted_slots_share_block :
  match atomic_allocate_memory_lockheld exhausted_shm example_dram 40000 (example_desc 10000) with
  | Ret (s', ret, obj) =>
      let h := obj_header_at (cur_obj_recs s') 0 in
      ret = 0 /\ obj = mem_start example_dram + cur_obj_recs s' /\
      load64 (mem s') (40000 + OBJ_HEADERS_Q_OFF) = h /\
      load64 (mem s') (h + HDR_OBJ_OPTR_OFF) = cur_obj_recs s'
  | Bug => False
  end.
Proof. vm_compute. repeat split. Qed.
