(* ===== verification/CircularQueue.v ===== *)
(** The message queues between machines: src/driver/src/circular_queue.c and
    circular_queue.h, with the queue addresses of src/driver/src/log.h.  A queue
    is a ring of 128 words in shared memory with a read and a write position,
    guarded by a test-and-test-and-set lock; the interrupt-saving wrappers of
    the lock are those around [ttas_lock_kern] and [ttas_unlock_kern]. *)
From Stdlib Require Import ZArith Lia Bool.
From stdpp Require Import base list gmap numbers.
From S2P Require Import Prelude Bitset Redo ShmemLog ListQueue PersistCas TatasLock MetaAlloc.
Local Open Scope Z_scope.
Local Open Scope lupin_scope.

(** ** Operations *)

Definition CQUEUE_SIZE : Z := 128.
Definition RINGBUF_POS_PERSIST_BIT : Z := Z.shiftl 1 63.
Definition VCXL_MAX_SUPPORTED_MACHINES : Z := 16.
Definition FUTEX_ADDR_QUEUE_SIZE : Z := 20480.
Definition PROC_DEATH_NOTIFICATION_SIZE : Z := 20480.

(** struct circular_queue: two positions, the lock and the data. *)
Definition CQ_READ_OFF : Z := 0.
Definition CQ_WRITE_OFF : Z := 8.
Definition CQ_LOCK_OFF : Z := 16.
Definition CQ_DATA_OFF : Z := 24.
Definition circular_queue_size : Z := CQ_DATA_OFF + 8 * CQUEUE_SIZE.

Definition cq_slot (q i : Z) : Z := q + CQ_DATA_OFF + 8 * i.

(** Where the queues of a machine are; machines are numbered from 1. *)
Definition peer_vcxl_addr_queue (peer : Z) : option Z :=
  if peer <? 1 then None else Some ((peer - 1) * circular_queue_size).

Definition peer_vcxl_procdeath_queue (peer : Z) : option Z :=
  if peer <? 1 then None
  else Some (FUTEX_ADDR_QUEUE_SIZE + OBJ_ALLOC_RECS_SIZE + (peer - 1) * circular_queue_size).

Definition self_vcxl_addr_queue (d : meta_dram) : option Z :=
  if machine_id d <? 1 then None else Some ((machine_id d - 1) * circular_queue_size).

Definition self_vcxl_procdeath_queue (d : meta_dram) : option Z :=
  if machine_id d <? 1 then None
  else Some (FUTEX_ADDR_QUEUE_SIZE + OBJ_ALLOC_RECS_SIZE + (machine_id d - 1) * circular_queue_size).

Section Queue.
Context (g : granularity) (nr_cpu_ids cpu_id : Z).

Definition cq_lock_init (m : bytes) (q : Z) : bytes :=
  store64 m (q + CQ_LOCK_OFF) (ttas_init g (load64 m (q + CQ_LOCK_OFF))).

(** [Ret None] while another processor holds the lock. *)
Definition cq_lock_irqsave (m : bytes) (q machine_id : Z) : outcome (option bytes) :=
  let! r := ttas_lock_kern g nr_cpu_ids cpu_id 1 (load64 m (q + CQ_LOCK_OFF)) machine_id in
  Ret (option_map (store64 m (q + CQ_LOCK_OFF)) r).

Definition cq_unlock_irqrestore (m : bytes) (q machine_id : Z) : outcome bytes :=
  let! w := ttas_unlock_kern g nr_cpu_ids cpu_id (load64 m (q + CQ_LOCK_OFF)) machine_id in
  Ret (store64 m (q + CQ_LOCK_OFF) w).

Definition init_circular_queue (m : bytes) (q : option Z) : bytes :=
  match q with
  | None => m
  | Some q =>
      let m := store64 m (q + CQ_READ_OFF) 0 in
      let m := store64 m (q + CQ_WRITE_OFF) 0 in
      let m := cq_lock_init m q in
      memset m (cq_slot q 0) 0 (Z.to_nat (8 * CQUEUE_SIZE))
  end.

Definition circular_queue_store_position (m : bytes) (pos val : Z) : bytes :=
  match g with
  | BYTE_GRANULAR | DRAM => store64 m pos val
  | CACHELINE_GRANULAR => store64 (store64 m pos (Z.lor val RINGBUF_POS_PERSIST_BIT)) pos val
  end.

(** The read and the write position. *)
Definition circular_queue_load_position (m : bytes) (q : Z) : Z * Z :=
  let w := load64 m (q + CQ_WRITE_OFF) in
  let r := load64 m (q + CQ_READ_OFF) in
  if truthy (Z.land w RINGBUF_POS_PERSIST_BIT) || truthy (Z.land r RINGBUF_POS_PERSIST_BIT) then
    (Z.land r (Z.ldiff (Z.ones 64) RINGBUF_POS_PERSIST_BIT), Z.land w (Z.ldiff (Z.ones 64) RINGBUF_POS_PERSIST_BIT))
  else (r, w).

Definition circular_queue_enqueue (m : bytes) (q data proc_id : Z) : outcome (option (bytes * Z)) :=
  let! o := cq_lock_irqsave m q proc_id in
  match o with
  | None => Ret None
  | Some m =>
      let (r, w) := circular_queue_load_position m q in
      let next_w := (w + 1) mod CQUEUE_SIZE in
      if next_w =? r then
        let! m := cq_unlock_irqrestore m q proc_id in Ret (Some (m, -1))
      else
        let m := store64 m (cq_slot q w) data in
        let m := circular_queue_store_position m (q + CQ_WRITE_OFF) next_w in
        let! m := cq_unlock_irqrestore m q proc_id in Ret (Some (m, 0))
  end.

(** The memory, the result and the datum. *)
Definition circular_queue_dequeue (m : bytes) (q proc_id : Z) : outcome (option (bytes * Z * Z)) :=
  let! o := cq_lock_irqsave m q proc_id in
  match o with
  | None => Ret None
  | Some m =>
      let (r, w) := circular_queue_load_position m q in
      if w =? r then
        let! m := cq_unlock_irqrestore m q proc_id in Ret (Some (m, -1, 0))
      else
        let data := load64 m (cq_slot q r) in
        let m := circular_queue_store_position m (q + CQ_READ_OFF) ((r + 1) mod CQUEUE_SIZE) in
        let! m := cq_unlock_irqrestore m q proc_id in Ret (Some (m, 0, data))
  end.

(** [while (circular_queue_dequeue(...) != -1)] *)
Fixpoint drain_loop (fuel : nat) (m : bytes) (q machine_id : Z) : outcome (option bytes) :=
  match fuel with
  | O => Ret None
  | S k =>
      let! o := circular_queue_dequeue m q machine_id in
      match o with
      | None => Ret None
      | Some (m, ret, _) => if ret =? -1 then Ret (Some m) else drain_loop k m q machine_id
      end
  end.

Definition drain_circular_queue (fuel : nat) (m : bytes) (q machine_id : Z) : outcome (option bytes) :=
  let! o := cq_lock_irqsave m q machine_id in
  match o with
  | None => Ret None
  | Some m =>
      let! o := drain_loop fuel m q machine_id in
      match o with
      | None => Ret None
      | Some m => let! m := cq_unlock_irqrestore m q machine_id in Ret (Some m)
      end
  end.
End Queue.

(** ** The queue as a list *)

(** [l] is what the ring holds, oldest first. *)
Definition ring (m : bytes) (q : Z) (l : list Z) : Prop :=
  exists r, 0 <= r < CQUEUE_SIZE /\ load64 m (q + CQ_READ_OFF) = r /\
    load64 m (q + CQ_WRITE_OFF) = (r + Z.of_nat (length l)) mod CQUEUE_SIZE /\
    Z.of_nat (length l) < CQUEUE_SIZE /\
    forall i x, l !! i = Some x -> load64 m (cq_slot q ((r + Z.of_nat i) mod CQUEUE_SIZE)) = x.

(** The word of a lock that the processor [p] holds without a generation. *)
Definition own (p : Z) : Z := compose_cs_status true p.

Lemma own_ok p : is_proc p -> value_ok 64 (own p) /\ own p <> UNLOCKED.
Proof.
  intros Hp. unfold is_proc in Hp. unfold own. rewrite cs_status_sum by lia. unfold value_ok, UNLOCKED. lia.
Qed.

Section Lock.
Context (g : granularity).

(** Taking a lock that is free or already held by the caller. *)
Lemma ttas_lock_ok w p :
  is_proc p -> word_ok 64 w -> value g w = UNLOCKED \/ value g w = own p ->
  exists w', ttas_lock g 1 w p = Some w' /\ word_ok 64 w' /\ value g w' = own p.
Proof.
  intros Hp Hw Hv. destruct (own_ok p Hp) as [Hok Hne].
  destruct (read_ok 64 g eq_refl w Hw) as (R1 & R2 & R3). unfold ttas_lock, ttas_recover, pcas_read_uint64.
  destruct (pcas_read 64 g w) as [v w1]. cbn [fst snd] in *.
  change (pcas_read_noflush 64 g w) with (value g w) in *. change (pcas_read_noflush 64 g w1) with (value g w1) in *.
  fold (own p). subst v. destruct Hv as [Hv|Hv]; rewrite Hv in *.
  - destruct (Z.eqb_spec UNLOCKED (own p)); [congruence|]. unfold ttas_enter. cbn [enter_loop]. unfold pcas_read_uint64.
    destruct (read_ok 64 g eq_refl w1 R3) as (S1 & S2 & S3).
    destruct (pcas_read 64 g w1) as [v w2]. cbn [fst snd] in *.
    change (pcas_read_noflush 64 g w1) with (value g w1) in *. change (pcas_read_noflush 64 g w2) with (value g w2) in *.
    rewrite R2 in *. subst v. rewrite Z.eqb_refl. cbn [negb]. fold (own p). unfold persist_cas_uint64.
    pose proof (cas_ok 64 g eq_refl w2 UNLOCKED (own p) S3 unlocked_ok Hok) as C.
    change (pcas_read_noflush 64 g w2) with (value g w2) in C. rewrite S2, Z.eqb_refl in C.
    destruct (persist_cas 64 g w2 UNLOCKED (own p)) as [[b w3] e]. destruct C as (-> & C1 & C2).
    exists w3. split; [done|]. split; [done|exact C1].
  - rewrite Z.eqb_refl. exists w1. split; [done|]. split; [done|exact R2].
Qed.

Context (nr_cpu_ids cpu_id p machine : Z).
Context (Hmachine : 1 <= machine) (Hid : get_process_identifier nr_cpu_ids cpu_id machine = Some p) (Hp : is_proc p).

(** The caller may take the lock of the queue. *)
Definition lock_avail (m : bytes) (q : Z) : Prop :=
  value g (load64 m (q + CQ_LOCK_OFF)) = UNLOCKED \/ value g (load64 m (q + CQ_LOCK_OFF)) = own p.

Lemma with_id {A} (f : Z -> outcome A) : with_process_id nr_cpu_ids cpu_id machine f = f p.
Proof using Hmachine Hid.
  unfold with_process_id, bug_on. destruct (Z.ltb_spec machine 1); [lia|]. by rewrite Hid.
Qed.

Lemma cq_lock_ok m q :
  lock_avail m q ->
  exists w, cq_lock_irqsave g nr_cpu_ids cpu_id m q machine = Ret (Some (store64 m (q + CQ_LOCK_OFF) w)) /\
    word_ok 64 w /\ value g w = own p.
Proof using Hmachine Hid Hp.
  intros Ha. destruct (ttas_lock_ok (load64 m (q + CQ_LOCK_OFF)) p Hp (load64_word _ _) Ha) as (w & E & Hw & Hv).
  exists w. split; [|done]. unfold cq_lock_irqsave, ttas_lock_kern. rewrite with_id, E. done.
Qed.

Lemma cq_unlock_ok m q :
  exists w, cq_unlock_irqrestore g nr_cpu_ids cpu_id m q machine = Ret (store64 m (q + CQ_LOCK_OFF) w) /\
    word_ok 64 w /\ value g w = UNLOCKED.
Proof using Hmachine Hid.
  destruct (write_ok 64 g eq_refl (load64 m (q + CQ_LOCK_OFF)) UNLOCKED unlocked_ok) as [Hv Hw].
  eexists. unfold cq_unlock_irqrestore, ttas_unlock_kern. rewrite with_id. split; [done|]. split; [exact Hw|exact Hv].
Qed.
End Lock.

(** ** Positions and frames *)

Ltac cq_consts :=
  unfold cq_slot, circular_queue_size, CQ_READ_OFF, CQ_WRITE_OFF, CQ_LOCK_OFF, CQ_DATA_OFF, CQUEUE_SIZE in *.

Definition cq_frame (q : Z) (m m' : bytes) : Prop :=
  forall a, a < q \/ q + circular_queue_size <= a -> rd m' a = rd m a.

Lemma cq_frame_refl q m : cq_frame q m m.
Proof. by intros a Ha. Qed.

Lemma cq_frame_store64 q m m' a v :
  q <= a -> a + 8 <= q + circular_queue_size -> cq_frame q m m' -> cq_frame q m (store64 m' a v).
Proof. intros H1 H2 F b Hb. rewrite rd_store64_out by lia. by apply F. Qed.

(** The ring does not depend on the lock word. *)
Lemma ring_lock m q l w : ring m q l -> ring (store64 m (q + CQ_LOCK_OFF) w) q l.
Proof.
  intros (r & Hr & E1 & E2 & Hl & Hd). exists r. cq_consts.
  rewrite !load64_store64_out by lia. split; [done|]. split; [done|]. split; [done|]. split; [done|].
  intros i x Hi. pose proof (Z.mod_pos_bound (r + Z.of_nat i) 128 ltac:(lia)).
  rewrite load64_store64_out by lia. by apply Hd.
Qed.

Lemma load_position_ok m q l :
  ring m q l -> exists r, 0 <= r < CQUEUE_SIZE /\ load64 m (q + CQ_READ_OFF) = r /\
    circular_queue_load_position m q = (r, (r + Z.of_nat (length l)) mod CQUEUE_SIZE).
Proof.
  intros (r & Hr & E1 & E2 & _). exists r. split; [done|]. split; [done|]. unfold circular_queue_load_position. rewrite E1, E2.
  assert (H : forall v, 0 <= v < 128 -> truthy (Z.land v RINGBUF_POS_PERSIST_BIT) = false).
  { intros v Hv. change RINGBUF_POS_PERSIST_BIT with (DIRTY 64). rewrite dirty_bit by lia. apply Z.leb_gt. lia. }
  pose proof (Z.mod_pos_bound (r + Z.of_nat (length l)) CQUEUE_SIZE ltac:(cq_consts; lia)).
  rewrite !H by (cq_consts; lia). done.
Qed.

Lemma store_position_load g m a v b :
  0 <= v < 2 ^ 64 -> load64 (circular_queue_store_position g m a v) a = v /\
  (apart b 8 a 8 -> load64 (circular_queue_store_position g m a v) b = load64 m b).
Proof.
  intros Hv. unfold circular_queue_store_position, apart. split.
  - destruct g; rewrite load64_store64; by apply u64_small.
  - intros H. destruct g; rewrite ?load64_store64_out by lia; done.
Qed.

Lemma store_position_frame g q m m' a v :
  q <= a -> a + 8 <= q + circular_queue_size -> cq_frame q m m' -> cq_frame q m (circular_queue_store_position g m' a v).
Proof. intros H1 H2 F. unfold circular_queue_store_position. destruct g; repeat apply cq_frame_store64; done. Qed.

Lemma ring_mod r k :
  0 <= r < CQUEUE_SIZE -> 0 <= k <= CQUEUE_SIZE ->
  (r + k) mod CQUEUE_SIZE = if r + k <? CQUEUE_SIZE then r + k else r + k - CQUEUE_SIZE.
Proof.
  cq_consts. intros Hr Hk. destruct (Z.ltb_spec (r + k) 128); [by apply Z.mod_small; lia|].
  symmetry. apply (Z.mod_unique _ _ 1); lia.
Qed.

Lemma ring_succ r k :
  0 <= r < CQUEUE_SIZE -> 0 <= k < CQUEUE_SIZE ->
  ((r + k) mod CQUEUE_SIZE + 1) mod CQUEUE_SIZE = (r + (k + 1)) mod CQUEUE_SIZE.
Proof.
  intros. rewrite Z.add_mod_idemp_l by (cq_consts; lia). f_equal. lia.
Qed.

(** Storing the datum and advancing the write position appends to the ring. *)
Lemma ring_push g m q l data r :
  ring m q l -> 0 <= q -> load64 m (q + CQ_READ_OFF) = r -> Z.of_nat (length l) < 127 ->
  let w := (r + Z.of_nat (length l)) mod CQUEUE_SIZE in
  ring (circular_queue_store_position g (store64 m (cq_slot q w) data) (q + CQ_WRITE_OFF) ((w + 1) mod CQUEUE_SIZE))
    q (l ++ [u64 data]).
Proof.
  intros (r' & Hr & E1 & E2 & Hl & Hd) Hq Er Hlen w. assert (r' = r) as -> by congruence.
  set (n := Z.of_nat (length l)) in *.
  assert (Hw : w = if r + n <? 128 then r + n else r + n - 128) by (apply ring_mod; cq_consts; lia).
  assert (Hnw : (w + 1) mod CQUEUE_SIZE = (r + (n + 1)) mod CQUEUE_SIZE) by (apply ring_succ; cq_consts; lia).
  pose proof (Z.mod_pos_bound (w + 1) CQUEUE_SIZE ltac:(cq_consts; lia)) as Hb.
  pose proof (fun b => store_position_load g (store64 m (cq_slot q w) data) (q + CQ_WRITE_OFF)
    ((w + 1) mod CQUEUE_SIZE) b ltac:(cq_consts; lia)) as Hst.
  assert (Hwr : 0 <= w < 128) by (rewrite Hw; cq_consts; zb; lia). clearbody w.
  exists r. split; [done|]. split; [|split; [|split]].
  - destruct (Hst (q + CQ_READ_OFF)) as [_ ->]; [|unfold apart; cq_consts; lia].
    rewrite load64_store64_out by (cq_consts; lia). done.
  - destruct (Hst 0) as [-> _]. rewrite Hnw, length_app. cbn [length]. do 2 f_equal. lia.
  - rewrite length_app. cbn [length]. cq_consts. lia.
  - intros i x Hi. assert (Hir : 0 <= Z.of_nat i <= n).
    { apply lookup_lt_Some in Hi. rewrite length_app in Hi. cbn [length] in Hi. lia. }
    pose proof (ring_mod r (Z.of_nat i) Hr ltac:(cq_consts; lia)) as Hm.
    set (j := (r + Z.of_nat i) mod CQUEUE_SIZE) in *. assert (Hj : 0 <= j < 128) by (clearbody j; cq_consts; zb; lia).
    destruct (Hst (cq_slot q j)) as [_ ->]; [|unfold apart; cq_consts; lia].
    destruct (decide (Z.of_nat i = n)) as [En|Hne].
    + assert (j = w) as -> by (rewrite Hm, Hw, En; done). rewrite load64_store64.
      rewrite lookup_app_r in Hi by lia. replace (i - length l)%nat with 0%nat in Hi by lia. by injection Hi.
    + rewrite lookup_app_l in Hi by lia. pose proof (Hd i x Hi) as Hdi. fold j in Hdi.
      assert (j <> w) by (clearbody j; cq_consts; zb; lia).
      rewrite load64_store64_out by (cq_consts; lia). exact Hdi.
Qed.

Lemma ring_pop g m q x l r :
  ring m q (x :: l) -> 0 <= q -> load64 m (q + CQ_READ_OFF) = r ->
  load64 m (cq_slot q r) = x /\
  ring (circular_queue_store_position g m (q + CQ_READ_OFF) ((r + 1) mod CQUEUE_SIZE)) q l.
Proof.
  intros (r' & Hr & E1 & E2 & Hl & Hd) Hq Er. assert (r' = r) as -> by congruence. cbn [length] in E2, Hl.
  pose proof (Z.mod_pos_bound (r + 1) CQUEUE_SIZE ltac:(cq_consts; lia)) as Hb.
  pose proof (fun b => store_position_load g m (q + CQ_READ_OFF) ((r + 1) mod CQUEUE_SIZE) b ltac:(cq_consts; lia)) as Hst.
  split.
  - pose proof (Hd 0%nat x eq_refl) as H0. rewrite Z.add_0_r, Z.mod_small in H0 by done. exact H0.
  - exists ((r + 1) mod CQUEUE_SIZE). split; [done|]. split; [apply Hst; exact 0|]. split; [|split; [lia|]].
    + destruct (Hst (q + CQ_WRITE_OFF)) as [_ ->]; [|unfold apart; cq_consts; lia]. rewrite E2.
      rewrite Z.add_mod_idemp_l by (cq_consts; lia). f_equal. lia.
    + intros i y Hi. pose proof (Hd (S i) y Hi) as H0.
      rewrite Z.add_mod_idemp_l by (cq_consts; lia).
      replace (r + 1 + Z.of_nat i) with (r + Z.of_nat (S i)) by lia.
      pose proof (Z.mod_pos_bound (r + Z.of_nat (S i)) CQUEUE_SIZE ltac:(cq_consts; lia)).
      destruct (Hst (cq_slot q ((r + Z.of_nat (S i)) mod CQUEUE_SIZE))) as [_ ->]; [|unfold apart; cq_consts; lia].
      exact H0.
Qed.

(** ** Correctness *)

Section Spec.
Context (g : granularity) (nr_cpu_ids cpu_id p machine : Z).
Context (Hmachine : 1 <= machine) (Hid : get_process_identifier nr_cpu_ids cpu_id machine = Some p) (Hp : is_proc p).

Definition unlocked (m : bytes) (q : Z) : Prop := value g (load64 m (q + CQ_LOCK_OFF)) = UNLOCKED.

Lemma unlock_effect m q l :
  0 <= q -> ring m q l ->
  exists m', cq_unlock_irqrestore g nr_cpu_ids cpu_id m q machine = Ret m' /\ ring m' q l /\ unlocked m' q /\
    cq_frame q m m'.
Proof using Hmachine Hid.
  intros Hq R. destruct (cq_unlock_ok g nr_cpu_ids cpu_id p machine Hmachine Hid m q) as (w & E & Hw & Hv).
  eexists. split; [exact E|]. split; [by apply ring_lock|]. split.
  - unfold unlocked. rewrite load64_store64, u64_small by exact Hw. exact Hv.
  - apply cq_frame_store64; [cq_consts; lia..|apply cq_frame_refl].
Qed.

Lemma enqueue_ok m q l data :
  0 <= q -> ring m q l -> lock_avail g p m q ->
  exists m' ret, circular_queue_enqueue g nr_cpu_ids cpu_id m q data machine = Ret (Some (m', ret)) /\
    unlocked m' q /\ cq_frame q m m' /\
    if Z.of_nat (length l) =? CQUEUE_SIZE - 1 then ret = -1 /\ ring m' q l else ret = 0 /\ ring m' q (l ++ [u64 data]).
Proof using Hmachine Hid Hp.
  intros Hq R Ha. destruct (cq_lock_ok g nr_cpu_ids cpu_id p machine Hmachine Hid Hp m q Ha) as (w0 & E0 & _).
  unfold circular_queue_enqueue. rewrite E0. cbn [obind].
  apply (ring_lock _ _ _ w0) in R as R1. set (m1 := store64 m (q + CQ_LOCK_OFF) w0) in *.
  assert (F1 : cq_frame q m m1) by (apply cq_frame_store64; [cq_consts; lia..|apply cq_frame_refl]).
  destruct (load_position_ok m1 q l R1) as (r & Hr & Er & Ep). rewrite Ep.
  assert (Hn : 0 <= Z.of_nat (length l) < CQUEUE_SIZE) by (destruct R1 as (? & _ & _ & _ & ? & _); lia).
  rewrite (ring_succ r (Z.of_nat (length l)) Hr Hn).
  assert (Hfull : ((r + (Z.of_nat (length l) + 1)) mod CQUEUE_SIZE =? r) = (Z.of_nat (length l) =? CQUEUE_SIZE - 1)).
  { rewrite ring_mod by (cq_consts; lia). cq_consts. zb; lia || done. }
  rewrite Hfull. destruct (Z.eqb_spec (Z.of_nat (length l)) (CQUEUE_SIZE - 1)) as [Hf|Hf].
  - destruct (unlock_effect m1 q l Hq R1) as (m' & E & R' & U & F). rewrite E. cbn [obind].
    exists m', (-1). split; [done|]. split; [done|]. split; [|done]. intros b Hb. by rewrite F, F1.
  - pose proof (ring_push g m1 q l data r R1 Hq Er ltac:(cq_consts; lia)) as R2. cbn zeta in R2.
    rewrite (ring_succ r (Z.of_nat (length l)) Hr Hn) in R2.
    set (m2 := circular_queue_store_position _ _ _ _) in *.
    assert (F2 : cq_frame q m m2).
    { pose proof (Z.mod_pos_bound (r + Z.of_nat (length l)) CQUEUE_SIZE ltac:(cq_consts; lia)).
      apply store_position_frame; [cq_consts; lia..|]. apply cq_frame_store64; [cq_consts; lia..|done]. }
    destruct (unlock_effect m2 q _ Hq R2) as (m' & E & R' & U & F). rewrite E. cbn [obind].
    exists m', 0. split; [done|]. split; [done|]. split; [|done]. intros b Hb. by rewrite F, F2.
Qed.

Lemma dequeue_ok m q l :
  0 <= q -> ring m q l -> lock_avail g p m q ->
  exists m' ret data, circular_queue_dequeue g nr_cpu_ids cpu_id m q machine = Ret (Some (m', ret, data)) /\
    unlocked m' q /\ cq_frame q m m' /\
    match l with
    | [] => ret = -1 /\ ring m' q []
    | x :: rest => ret = 0 /\ data = x /\ ring m' q rest
    end.
Proof using Hmachine Hid Hp.
  intros Hq R Ha. destruct (cq_lock_ok g nr_cpu_ids cpu_id p machine Hmachine Hid Hp m q Ha) as (w0 & E0 & _).
  unfold circular_queue_dequeue. rewrite E0. cbn [obind].
  apply (ring_lock _ _ _ w0) in R as R1. set (m1 := store64 m (q + CQ_LOCK_OFF) w0) in *.
  assert (F1 : cq_frame q m m1) by (apply cq_frame_store64; [cq_consts; lia..|apply cq_frame_refl]).
  destruct (load_position_ok m1 q l R1) as (r & Hr & Er & Ep). rewrite Ep.
  assert (Hn : 0 <= Z.of_nat (length l) < CQUEUE_SIZE) by (destruct R1 as (? & _ & _ & _ & ? & _); lia).
  destruct l as [|x rest].
  - cbn [length]. rewrite Z.add_0_r, Z.mod_small, Z.eqb_refl by done.
    destruct (unlock_effect m1 q [] Hq R1) as (m' & E & R' & U & F). rewrite E. cbn [obind].
    exists m', (-1), 0. split; [done|]. split; [done|]. split; [|done]. intros b Hb. by rewrite F, F1.
  - assert (Hne : ((r + Z.of_nat (length (x :: rest))) mod CQUEUE_SIZE =? r) = false).
    { rewrite ring_mod by (cq_consts; lia). cbn [length] in *. cq_consts. zb; lia || done. }
    rewrite Hne. destruct (ring_pop g m1 q x rest r R1 Hq Er) as [Hx R2]. rewrite Hx.
    set (m2 := circular_queue_store_position _ _ _ _) in *.
    assert (F2 : cq_frame q m m2) by (apply store_position_frame; [cq_consts; lia..|done]).
    destruct (unlock_effect m2 q rest Hq R2) as (m' & E & R' & U & F). rewrite E. cbn [obind].
    exists m', 0, x. split; [done|]. split; [done|]. split; [|done]. intros b Hb. by rewrite F, F2.
Qed.

Lemma drain_loop_ok fuel m q l :
  0 <= q -> ring m q l -> lock_avail g p m q -> (length l < fuel)%nat ->
  exists m', drain_loop g nr_cpu_ids cpu_id fuel m q machine = Ret (Some m') /\ ring m' q [] /\ cq_frame q m m'.
Proof using Hmachine Hid Hp.
  intros Hq. revert m l. induction fuel as [|fuel IH]; intros m l R Ha Hf; [lia|]. cbn [drain_loop].
  destruct (dequeue_ok m q l Hq R Ha) as (m1 & ret & x & E & U & F & H). rewrite E. cbn [obind].
  destruct l as [|y rest].
  - destruct H as [-> R1]. exists m1. split; [done|]. split; [done|done].
  - destruct H as (-> & _ & R1). cbn [length] in Hf.
    destruct (IH m1 rest R1 (or_introl U) ltac:(lia)) as (m' & E' & R' & F'). exists m'.
    split; [exact E'|]. split; [done|]. intros b Hb. by rewrite F', F.
Qed.
End Spec.

(** An abstract bounded queue and the operations on it. *)
Inductive qop := Enq (data : Z) | Deq.

Definition fifo_step (l : list Z) (o : qop) : list Z * (Z * Z) :=
  match o with
  | Enq data => if Z.of_nat (length l) =? 127 then (l, (-1, 0)) else (l ++ [u64 data], (0, 0))
  | Deq => match l with [] => (l, (-1, 0)) | x :: rest => (rest, (0, x)) end
  end.

Fixpoint fifo_run (l : list Z) (ops : list qop) : list Z * list (Z * Z) :=
  match ops with
  | [] => (l, [])
  | o :: rest => let (l', r) := fifo_step l o in let (l'', rs) := fifo_run l' rest in (l'', r :: rs)
  end.

(** The same operations on shared memory; a result is the return value and the
    datum that was taken out. *)
Definition cq_step (g : granularity) (nr cpu : Z) (m : bytes) (q machine : Z) (o : qop) : outcome (option (bytes * (Z * Z))) :=
  match o with
  | Enq data =>
      let! r := circular_queue_enqueue g nr cpu m q data machine in
      Ret (option_map (fun x => (fst x, (snd x, 0))) r)
  | Deq =>
      let! r := circular_queue_dequeue g nr cpu m q machine in
      Ret (option_map (fun x => (fst (fst x), (snd (fst x), if snd (fst x) =? 0 then snd x else 0))) r)
  end.

Fixpoint cq_run (g : granularity) (nr cpu : Z) (m : bytes) (q machine : Z) (ops : list qop) : outcome (option (bytes * list (Z * Z))) :=
  match ops with
  | [] => Ret (Some (m, []))
  | o :: rest =>
      let! r := cq_step g nr cpu m q machine o in
      match r with
      | None => Ret None
      | Some (m, x) =>
          let! r := cq_run g nr cpu m q machine rest in
          Ret (option_map (fun y => (fst y, x :: snd y)) r)
      end
  end.

Lemma cq_step_ok g nr cpu p machine m q l o :
  1 <= machine -> get_process_identifier nr cpu machine = Some p -> is_proc p ->
  0 <= q -> ring m q l -> lock_avail g p m q ->
  exists m', cq_step g nr cpu m q machine o = Ret (Some (m', snd (fifo_step l o))) /\
    ring m' q (fst (fifo_step l o)) /\ unlocked g m' q /\ cq_frame q m m'.
Proof.
  intros Hm Hid Hp Hq R Ha. destruct o as [data|]; cbn [cq_step fifo_step].
  - destruct (enqueue_ok g nr cpu p machine Hm Hid Hp m q l data Hq R Ha) as (m' & ret & E & U & F & H). rewrite E. cbn [obind].
    exists m'. change (CQUEUE_SIZE - 1) with 127 in H. destruct (Z.of_nat (length l) =? 127); destruct H as [-> R']; done.
  - destruct (dequeue_ok g nr cpu p machine Hm Hid Hp m q l Hq R Ha) as (m' & ret & x & E & U & F & H). rewrite E. cbn [obind].
    exists m'. destruct l as [|y rest]; [destruct H as [-> R']; done|destruct H as (-> & -> & R'); done].
Qed.

(** C19. The ring buffer refines a bounded first-in first-out queue of 127
    elements: any sequence of enqueue and dequeue calls returns what the abstract
    queue returns, full and empty cases included, leaves the ring holding the
    abstract contents with its lock released, and writes no byte outside the
    queue. *)
Theorem circular_queue_refines_fifo (g : granularity) (nr cpu p machine q : Z) (ops : list qop) (m : bytes) (l : list Z) :
  1 <= machine -> get_process_identifier nr cpu machine = Some p -> is_proc p ->
  0 <= q -> ring m q l -> unlocked g m q ->
  exists m', cq_run g nr cpu m q machine ops = Ret (Some (m', snd (fifo_run l ops))) /\
    ring m' q (fst (fifo_run l ops)) /\ unlocked g m' q /\ cq_frame q m m'.
Proof.
  intros Hm Hid Hp Hq. revert m l. induction ops as [|o ops IH]; intros m l R U; cbn [cq_run fifo_run].
  - exists m. split; [done|]. split; [done|]. split; [done|apply cq_frame_refl].
  - destruct (cq_step_ok g nr cpu p machine m q l o Hm Hid Hp Hq R (or_introl U)) as (m1 & E1 & R1 & U1 & F1).
    rewrite E1. cbn [obind]. destruct (fifo_step l o) as [l1 x]. cbn [fst snd] in *.
    destruct (IH m1 l1 R1 U1) as (m' & E' & R' & U' & F'). rewrite E'. cbn [obind option_map].
    destruct (fifo_run l1 ops) as [l2 rs]. cbn [fst snd] in *. exists m'. split; [done|]. split; [done|]. split; [done|].
    intros b Hb. by rewrite F', F1.
Qed.

(** The queue an initialisation leaves is empty and unlocked. *)
Lemma init_ring g m q :
  0 <= q -> ring (init_circular_queue g m (Some q)) q [] /\ unlocked g (init_circular_queue g m (Some q)) q /\
    cq_frame q m (init_circular_queue g m (Some q)).
Proof.
  intros Hq. unfold init_circular_queue, cq_lock_init. rewrite memset_write_bytes.
  set (w := ttas_init _ _). set (m1 := store64 (store64 (store64 _ _ _) _ _) _ w).
  assert (Hld : forall a, q <= a -> a + 8 <= q + 24 ->
    load64 (write_bytes m1 (cq_slot q 0) (replicate (Z.to_nat (8 * CQUEUE_SIZE)) 0)) a = load64 m1 a).
  { intros a H1 H2. apply load64_ext. intros b Hb. apply rd_write_bytes_out. cq_consts. lia. }
  assert (Hw : word_ok 64 w /\ value g w = UNLOCKED).
  { destruct (write_ok 64 g eq_refl (load64 (store64 (store64 m (q + CQ_READ_OFF) 0) (q + CQ_WRITE_OFF) 0) (q + CQ_LOCK_OFF))
      UNLOCKED unlocked_ok) as [Hv Hok]. done. }
  destruct Hw as [Hw1 Hw2]. split; [|split].
  - exists 0. split; [cq_consts; lia|]. split; [|split; [|split; [cq_consts; cbn; lia|by intros i x Hi]]].
    + rewrite Hld by (cq_consts; lia). unfold m1. by rewrite !load64_store64_out, load64_store64 by (cq_consts; lia).
    + rewrite Hld by (cq_consts; lia). unfold m1. by rewrite load64_store64_out, load64_store64 by (cq_consts; lia).
  - unfold unlocked. rewrite Hld by (cq_consts; lia). unfold m1. by rewrite load64_store64, u64_small.
  - intros b Hb. rewrite rd_write_bytes_out by (rewrite length_replicate; cq_consts; lia).
    unfold m1. by rewrite !rd_store64_out by (cq_consts; lia).
Qed.

Lemma circular_queue_refines_fifo_witness :
  exists m', cq_run CACHELINE_GRANULAR 4 1 (init_circular_queue CACHELINE_GRANULAR ∅ (Some 1048)) 1048 2 [Enq 7; Enq 8; Deq]
             = Ret (Some (m', snd (fifo_run [] [Enq 7; Enq 8; Deq]))) /\
    ring m' 1048 (fst (fifo_run [] [Enq 7; Enq 8; Deq])) /\ unlocked CACHELINE_GRANULAR m' 1048 /\
    cq_frame 1048 (init_circular_queue CACHELINE_GRANULAR ∅ (Some 1048)) m'.
Proof.
  destruct (init_ring CACHELINE_GRANULAR ∅ 1048 ltac:(lia)) as (R & U & _).
  exact (circular_queue_refines_fifo CACHELINE_GRANULAR 4 1 5 2 1048 [Enq 7; Enq 8; Deq] _ []
    ltac:(lia) eq_refl ltac:(unfold is_proc; lia) ltac:(lia) R U).
Defined.

(** Draining a queue terminates, empties it whatever it held, and releases
    the lock, when no other processor interferes. *)
Theorem drain_empties (g : granularity) (nr cpu p machine q : Z) (fuel : nat) (m : bytes) (l : list Z) :
  1 <= machine -> get_process_identifier nr cpu machine = Some p -> is_proc p ->
  0 <= q -> ring m q l -> unlocked g m q -> (length l < fuel)%nat ->
  exists m', drain_circular_queue g nr cpu fuel m q machine = Ret (Some m') /\ ring m' q [] /\ unlocked g m' q /\
    cq_frame q m m'.
Proof.
  intros Hm Hid Hp Hq R U Hf. unfold drain_circular_queue.
  destruct (cq_lock_ok g nr cpu p machine Hm Hid Hp m q (or_introl U)) as (w & E & Hw & Hv). rewrite E. cbn [obind].
  assert (Ha : lock_avail g p (store64 m (q + CQ_LOCK_OFF) w) q).
  { right. by rewrite load64_store64, u64_small. }
  destruct (drain_loop_ok g nr cpu p machine Hm Hid Hp fuel _ q l Hq (ring_lock _ _ _ w R) Ha Hf) as (m1 & E1 & R1 & F1).
  rewrite E1. cbn [obind]. destruct (unlock_effect g nr cpu p machine Hm Hid m1 q [] Hq R1) as (m2 & E2 & R2 & U2 & F2).
  rewrite E2. cbn [obind]. exists m2. split; [done|]. split; [done|]. split; [done|].
  intros b Hb. rewrite F2, F1 by done. apply rd_store64_out. cq_consts. lia.
Qed.

Lemma drain_empties_witness :
  exists m', drain_circular_queue BYTE_GRANULAR 4 1 1 (init_circular_queue BYTE_GRANULAR ∅ (Some 1048)) 1048 2 = Ret (Some m') /\
    ring m' 1048 [] /\ unlocked BYTE_GRANULAR m' 1048 /\ cq_frame 1048 (init_circular_queue BYTE_GRANULAR ∅ (Some 1048)) m'.
Proof.
  destruct (init_ring BYTE_GRANULAR ∅ 1048 ltac:(lia)) as (R & U & _).
  exact (drain_empties BYTE_GRANULAR 4 1 5 2 1048 1 _ [] ltac:(lia) eq_refl ltac:(unfold is_proc; lia) ltac:(lia) R U ltac:(simpl; lia)).
Defined.

(** Draining gives the lock up while it still drains: the dequeue inside it
    releases the lock, another processor can take it, and the release at the end
    of the drain then frees the lock that the other processor holds. *)
Theorem drain_releases_foreign_lock :
  let g := BYTE_GRANULAR in
  let m0 := init_circular_queue g ∅ (Some 0) in
  match cq_lock_irqsave g 4 0 m0 0 1 with
  | Ret (Some m1) =>
      match circular_queue_dequeue g 4 0 m1 0 1 with
      | Ret (Some (m2, _, _)) =>
          match cq_lock_irqsave g 4 1 m2 0 1 with
          | Ret (Some m3) =>
              value g (load64 m3 CQ_LOCK_OFF) = own 1 /\
              match cq_unlock_irqrestore g 4 0 m3 0 1 with
              | Ret m4 => value g (load64 m4 CQ_LOCK_OFF) = UNLOCKED
              | Bug => False
              end
          | _ => False
          end
      | _ => False
      end
  | _ => False
  end.
Proof. vm_compute. split; reflexivity. Qed.
