(* ===== verification/Cgroup.v ===== *)
(** Groups of processes across machines and failure detection:
    src/driver/src/cxl_cgroup.c and cxl_cgroup.h, with the message layout of
    src/driver/src/uapi/cxl_cgroup_udef.h.  The table of groups, the generation
    numbers and the heartbeats of all machines are in shared memory under a
    recoverable lock; what each machine remembers of them is local. *)
From Stdlib Require Import ZArith Lia Bool.
From stdpp Require Import base list gmap numbers.
From S2P Require Import Prelude ShmemLog PersistCas TatasLock MetaAlloc.
Local Open Scope Z_scope.
Local Open Scope lupin_scope.

(** ** Message words *)

(** msg_type 63-62, os_id 61-48, proc_id 47-32, gen_id 31-0 *)
Definition MSG_TYPE_MASK : Z := Z.shiftl 0x3 62.
Definition OS_ID_MASK : Z := Z.shiftl 0x3fff 48.
Definition PROC_ID_MASK : Z := Z.shiftl 0xffff 32.
Definition GEN_ID_MASK : Z := 0xffffffff.

Definition GET_OS_ID (x : Z) : Z := u32 (Z.shiftr (Z.land x OS_ID_MASK) 48).
Definition GET_PROC_ID (x : Z) : Z := u32 (Z.shiftr (Z.land x PROC_ID_MASK) 32).
Definition GET_GEN_ID (x : Z) : Z := u32 (Z.land x GEN_ID_MASK).
Definition GET_MSG_TYPE (x : Z) : Z := u32 (Z.shiftr (Z.land x MSG_TYPE_MASK) 62).

Definition SET_OS_ID (x y : Z) : Z := u64 (Z.ldiff (u64 x) OS_ID_MASK + u64 (Z.shiftl (u64 y) 48)).
Definition SET_PROC_ID (x y : Z) : Z := u64 (Z.ldiff (u64 x) PROC_ID_MASK + u64 (Z.shiftl (u64 y) 32)).
Definition SET_GEN_ID (x y : Z) : Z := u64 (Z.ldiff (u64 x) GEN_ID_MASK + Z.land (u64 y) GEN_ID_MASK).
Definition SET_MSG_TYPE (x y : Z) : Z := u64 (Z.ldiff (u64 x) MSG_TYPE_MASK + u64 (Z.shiftl (u64 y) 62)).

Definition MSG_TYPE_OS_FAILURE : Z := 0.
Definition MSG_TYPE_LEADER_CHANGE : Z := 1.
Definition MSG_TYPE_PROC_FAILURE : Z := 2.

(** ** State *)

Definition SECRET_STR_LEN : Z := 20.
Definition MAX_PROC_PER_GROUP : Z := 16.
Definition MAX_GROUP_NUM : Z := 50.
Definition MAX_MACHINES : Z := 16.

Record global_proc_id := GlobalProcId { osii : Z; local_proc_id : Z }.

(** [tsk] is the address of the group leader, 0 for none. *)
Record member_proc := MemberProc { proc_id : global_proc_id; tsk : Z; mp_in_use : bool }.

Record cxlcg_entry := CxlcgEntry { procs : list member_proc; secret_str : list Z; ce_in_use : bool }.

Record cxlcg_meta := CxlcgMeta {
  entries : list cxlcg_entry;
  os_generation_ids : list Z;
  os_heartbeats : list Z;
  cur_leader_osii : Z;
  cg_lock : Z }.

(** The variables of the module on one machine. *)
Record cg_local := CgLocal {
  os_gen_ids_snapshot : list Z;
  heartbeats_seen : list Z;
  my_osii : Z;
  os_live : list bool;
  timeout_times : list Z }.

Record cxlcg_args := CxlcgArgs { arg_secret : list Z; arg_local_proc_id : Z }.

Definition empty_proc : member_proc := MemberProc (GlobalProcId 0 0) 0 false.
Definition empty_entry : cxlcg_entry :=
  CxlcgEntry (replicate (Z.to_nat MAX_PROC_PER_GROUP) empty_proc) (replicate (Z.to_nat SECRET_STR_LEN) 0) false.

Definition set_entries (m : cxlcg_meta) (l : list cxlcg_entry) : cxlcg_meta :=
  CxlcgMeta l (os_generation_ids m) (os_heartbeats m) (cur_leader_osii m) (cg_lock m).
Definition set_gens (m : cxlcg_meta) (l : list Z) : cxlcg_meta :=
  CxlcgMeta (entries m) l (os_heartbeats m) (cur_leader_osii m) (cg_lock m).
Definition set_beats (m : cxlcg_meta) (l : list Z) : cxlcg_meta :=
  CxlcgMeta (entries m) (os_generation_ids m) l (cur_leader_osii m) (cg_lock m).
Definition set_leader (m : cxlcg_meta) (x : Z) : cxlcg_meta :=
  CxlcgMeta (entries m) (os_generation_ids m) (os_heartbeats m) x (cg_lock m).
Definition set_cg_lock (m : cxlcg_meta) (w : Z) : cxlcg_meta :=
  CxlcgMeta (entries m) (os_generation_ids m) (os_heartbeats m) (cur_leader_osii m) w.

Definition the_entry (m : cxlcg_meta) (i : Z) : cxlcg_entry := getZ empty_entry (entries m) i.
Definition put_entry (m : cxlcg_meta) (i : Z) (e : cxlcg_entry) : cxlcg_meta := set_entries m (setZ (entries m) i e).
Definition put_proc (m : cxlcg_meta) (i j : Z) (p : member_proc) : cxlcg_meta :=
  let e := the_entry m i in put_entry m i (CxlcgEntry (setZ (procs e) j p) (secret_str e) (ce_in_use e)).

(** [hash = 31 * hash + (uint32_t)word[i]], up to the terminator that [word]
    contains; the characters are signed. *)
Fixpoint hash_loop (word : list Z) (hash : Z) : Z :=
  match word with
  | [] => hash
  | c :: rest => if c =? 0 then hash else hash_loop rest (u32 (u32 (31 * hash) + u32 c))
  end.

Definition hash_func (word : list Z) : Z := hash_loop word 0.

(** ** Generations and leader *)

Definition get_os_gen_id (m : cxlcg_meta) (machine_idx : Z) : Z := getZ 0 (os_generation_ids m) machine_idx.

Definition increment_gen_id (m : cxlcg_meta) (machine_id : Z) : cxlcg_meta :=
  set_gens m (setZ (os_generation_ids m) (machine_id - 1) (u32 (get_os_gen_id m (machine_id - 1) + 1))).

(** The metadata and the message that is sent, if any. *)
Definition do_leader_election (m : cxlcg_meta) (loc : cg_local) : cxlcg_meta * option Z :=
  let leader := cur_leader_osii m in
  let cur_leader_os_id := GET_OS_ID leader in
  let cur_leader_gen_id := GET_GEN_ID leader in
  if (leader =? 0) || negb (cur_leader_gen_id =? get_os_gen_id m (cur_leader_os_id - 1)) then
    let m := set_leader m (my_osii loc) in
    (m, Some (SET_MSG_TYPE (cur_leader_osii m) MSG_TYPE_LEADER_CHANGE))
  else (m, None).

Definition init_cxlcg_meta (g : granularity) (machine_id : Z) (loc : cg_local) : cxlcg_meta * cg_local :=
  let zeros := replicate (Z.to_nat MAX_MACHINES) 0 in
  let m := CxlcgMeta (replicate (Z.to_nat MAX_GROUP_NUM) empty_entry) zeros zeros 0 0 in
  let m := set_cg_lock m (ttas_init g (cg_lock m)) in
  let osii := SET_GEN_ID (SET_OS_ID (my_osii loc) machine_id) (get_os_gen_id m (machine_id - 1)) in
  (set_leader m osii,
   CgLocal (os_generation_ids m) zeros osii (replicate (Z.to_nat MAX_MACHINES) true) (timeout_times loc)).

(** ** Membership *)

(** The index of the first element that satisfies [f]. *)
Fixpoint index_from {A} (f : A -> bool) (l : list A) (i : Z) : option Z :=
  match l with
  | [] => None
  | x :: rest => if f x then Some i else index_from f rest (i + 1)
  end.

Definition is_member (os local_id : Z) (p : member_proc) : bool :=
  mp_in_use p && (GET_OS_ID (osii (proc_id p)) =? GET_OS_ID os)
  && (GET_GEN_ID (osii (proc_id p)) =? GET_GEN_ID os) && (local_proc_id (proc_id p) =? local_id).

(** The bucket of a secret. *)
Definition bucket (secret : list Z) : Z := hash_func secret mod MAX_GROUP_NUM.

Definition create_cxlcg (m : cxlcg_meta) (args : cxlcg_args) : cxlcg_meta * Z :=
  let hash := bucket (arg_secret args) in
  let e := the_entry m hash in
  if ce_in_use e then (m, -1)
  else (put_entry m hash (CxlcgEntry (procs e) (arg_secret args) true), 0).

Definition delete_cxlcg (m : cxlcg_meta) (args : cxlcg_args) : cxlcg_meta * Z :=
  (put_entry m (bucket (arg_secret args)) empty_entry, 0).

(** [leader] is [current->group_leader]. *)
Definition join_cxlcg (m : cxlcg_meta) (loc : cg_local) (leader : Z) (args : cxlcg_args) : cxlcg_meta * Z :=
  let hash := bucket (arg_secret args) in
  let os := my_osii loc in
  let ps := procs (the_entry m hash) in
  match index_from (is_member os (arg_local_proc_id args)) ps 0 with
  | Some _ => (m, 0)
  | None =>
      match index_from (fun p => negb (mp_in_use p)) ps 0 with
      | None => (m, -1)
      | Some i => (put_proc m hash i (MemberProc (GlobalProcId os (arg_local_proc_id args)) leader true), 0)
      end
  end.

(** [os] is the instance identifier of the arguments. *)
Definition leave_cxlcg (m : cxlcg_meta) (os : Z) (args : cxlcg_args) : cxlcg_meta * Z :=
  let hash := bucket (arg_secret args) in
  match index_from (is_member os (arg_local_proc_id args)) (procs (the_entry m hash)) 0 with
  | None => (m, 0)
  | Some i => (put_proc m hash i empty_proc, 0)
  end.

(** The scan of [notify_proc_failure]: groups in use in order, then members. *)
Fixpoint find_task (es : list cxlcg_entry) (leader i : Z) : option (Z * Z) :=
  match es with
  | [] => None
  | e :: rest =>
      if ce_in_use e then
        match index_from (fun p => mp_in_use p && (tsk p =? leader)) (procs e) 0 with
        | Some j => Some (i, j)
        | None => find_task rest leader (i + 1)
        end
      else find_task rest leader (i + 1)
  end.

Definition proc_failure (m : cxlcg_meta) (leader : Z) : cxlcg_meta * option Z :=
  match find_task (entries m) leader 0 with
  | None => (m, None)
  | Some (i, j) =>
      let p := getZ empty_proc (procs (the_entry m i)) j in
      let msg := SET_PROC_ID (osii (proc_id p)) (local_proc_id (proc_id p)) in
      (put_proc m i j (MemberProc (proc_id p) 0 false), Some (SET_MSG_TYPE msg MSG_TYPE_PROC_FAILURE))
  end.

(** The loops of [recover_cxlcg_meta] over the groups in use. *)
Definition purge_entry (machine_id : Z) (e : cxlcg_entry) : cxlcg_entry :=
  if ce_in_use e then
    CxlcgEntry (map (fun p => if mp_in_use p && (GET_OS_ID (osii (proc_id p)) =? machine_id) then empty_proc else p)
                 (procs e)) (secret_str e) (ce_in_use e)
  else e.

(** ** The entry points, under the group lock *)

Section Locked.
Context (g : granularity) (nr_cpu_ids cpu_id : Z).

(** [Ret None] while another processor holds the lock. *)
Definition recoverable_lock (m : cxlcg_meta) (machine_id : Z) : outcome (option cxlcg_meta) :=
  let! r := ttas_lock_with_gen_kern g nr_cpu_ids cpu_id 1 (cg_lock m) machine_id (get_os_gen_id m (machine_id - 1)) in
  Ret (option_map (set_cg_lock m) r).

Definition recoverable_unlock (m : cxlcg_meta) (machine_id : Z) : outcome cxlcg_meta :=
  let! w := ttas_unlock_kern g nr_cpu_ids cpu_id (cg_lock m) machine_id in Ret (set_cg_lock m w).

Definition recoverable_lock_recover (m : cxlcg_meta) (machine_id old_machine_id : Z) : outcome (transfer_st * cxlcg_meta) :=
  let! r := ttas_lock_recover_kern g nr_cpu_ids cpu_id (cg_lock m) old_machine_id machine_id
              (get_os_gen_id m (machine_id - 1)) in
  Ret (fst r, set_cg_lock m (snd r)).

Definition locked_op {A} (m : cxlcg_meta) (machine_id : Z) (f : cxlcg_meta -> cxlcg_meta * A)
  : outcome (option (cxlcg_meta * A)) :=
  let! o := recoverable_lock m machine_id in
  match o with
  | None => Ret None
  | Some m =>
      let (m, r) := f m in
      let! m := recoverable_unlock m machine_id in Ret (Some (m, r))
  end.

Definition do_create_cxlcg (m : cxlcg_meta) (machine_id : Z) (args : cxlcg_args) :=
  locked_op m machine_id (fun m => create_cxlcg m args).
Definition do_delete_cxlcg (m : cxlcg_meta) (machine_id : Z) (args : cxlcg_args) :=
  locked_op m machine_id (fun m => delete_cxlcg m args).
Definition do_join_cxlcg (m : cxlcg_meta) (loc : cg_local) (machine_id leader : Z) (args : cxlcg_args) :=
  locked_op m machine_id (fun m => join_cxlcg m loc leader args).
Definition do_leave_cxlcg (m : cxlcg_meta) (machine_id os : Z) (args : cxlcg_args) :=
  locked_op m machine_id (fun m => leave_cxlcg m os args).
Definition notify_proc_failure (m : cxlcg_meta) (machine_id leader : Z) :=
  locked_op m machine_id (fun m => proc_failure m leader).

(** [recover_cxlcg_meta]: a new generation, then the dead processes of this
    machine leave their groups. *)
Definition recover_cxlcg_meta (m : cxlcg_meta) (machine_id : Z) (loc : cg_local)
  : outcome (option (cxlcg_meta * cg_local)) :=
  let m := increment_gen_id m machine_id in
  let os := SET_GEN_ID (SET_OS_ID (my_osii loc) machine_id) (get_os_gen_id m (machine_id - 1)) in
  let loc := CgLocal (os_generation_ids m) (heartbeats_seen loc) os (replicate (Z.to_nat MAX_MACHINES) true)
               (timeout_times loc) in
  let! r := recoverable_lock_recover m machine_id machine_id in
  let! o := match r with
            | (TRANSFERED, m) => Ret (Some m)
            | (_, m) => recoverable_lock m machine_id
            end in
  match o with
  | None => Ret None
  | Some m =>
      let m := set_entries m (map (purge_entry machine_id) (entries m)) in
      let! m := recoverable_unlock m machine_id in Ret (Some (m, loc))
  end.

(** ** Failure detection *)

Definition meta_lock_recover (gen_id : Z) (s : shm) (d : meta_dram) (ms old_machine_id : Z) : outcome (transfer_st * shm) :=
  let! r := ttas_lock_recover_kern g nr_cpu_ids cpu_id (load64 (mem s) (ms + META_LOCK_OFF)) old_machine_id
              (machine_id d) gen_id in
  Ret (fst r, set_mem s (store64 (mem s) (ms + META_LOCK_OFF) (snd r))).

Definition meta_lock_done_recover (s : shm) (d : meta_dram) (ms : Z) (st : transfer_st) : outcome shm :=
  let! w := done_ttas_lock_recover g nr_cpu_ids cpu_id (load64 (mem s) (ms + META_LOCK_OFF)) (machine_id d) st in
  Ret (match st with TRANSFERED => set_mem s (store64 (mem s) (ms + META_LOCK_OFF) w) | _ => s end).

(** [lock_transfer_test]: takes over the lock of another machine on request.  A
    log that cannot be recovered returns before the lock is released. *)
Definition lock_transfer_test (gen_id : Z) (s : shm) (d : meta_dram) (ms old_machine_id : Z) : outcome (shm * Z) :=
  let! r := meta_lock_recover gen_id s d ms old_machine_id in
  match r with
  | (TRANSFERED, s) =>
      let! r := recover_with_redolog (ms + REDOLOG_OFF) s in
      let (s, ret) := r : shm * Z in
      if negb (ret =? 0) then Ret (s, - ret)
      else let! s := meta_lock_done_recover s d ms TRANSFERED in Ret (s, 0)
  | (st, s) => let! s := meta_lock_done_recover s d ms st in Ret (s, 0)
  end.

Record detector := Detector { det_meta : cxlcg_meta; det_local : cg_local; det_shm : shm; det_msg : Z; det_sent : list Z }.

(** Helping a machine that was declared dead: a new generation, a message, and
    the recovery of the metadata lock and of the log. *)
Definition help_dead (d : meta_dram) (ms i : Z) (x : detector) : outcome detector :=
  let loc := det_local x in
  let m := set_gens (det_meta x) (setZ (os_generation_ids (det_meta x)) i (u32 (get_os_gen_id (det_meta x) i + 1))) in
  let msg := SET_MSG_TYPE (SET_GEN_ID (SET_OS_ID (det_msg x) (i + 1)) (getZ 0 (os_gen_ids_snapshot loc) i)) MSG_TYPE_OS_FAILURE in
  let! r := meta_lock_recover (get_os_gen_id m (machine_id d - 1)) (det_shm x) d ms (i + 1) in
  let (st, s) := r : transfer_st * shm in
  let! s := match st with
            | TRANSFERED => let! r := recover_with_redolog (ms + REDOLOG_OFF) s in Ret (fst r)
            | _ => Ret s
            end in
  let! s := meta_lock_done_recover s d ms st in
  Ret (Detector m loc s msg (det_sent x ++ [msg])).

(** One iteration of the loop of [do_os_failure_detection]. *)
Definition detect_one (d : meta_dram) (ms i : Z) (x : detector) : outcome detector :=
  let m := det_meta x in
  let loc := det_local x in
  let beat := getZ 0 (os_heartbeats m) i in
  if negb (getZ 0 (heartbeats_seen loc) i =? beat) then
    Ret (Detector m (CgLocal (os_gen_ids_snapshot loc) (setZ (heartbeats_seen loc) i beat) (my_osii loc)
                       (setZ (os_live loc) i true) (setZ (timeout_times loc) i 0))
           (det_shm x) (det_msg x) (det_sent x))
  else
    let t := u64 (getZ 0 (timeout_times loc) i + 1) in
    let loc := CgLocal (os_gen_ids_snapshot loc) (heartbeats_seen loc) (my_osii loc) (os_live loc)
                 (setZ (timeout_times loc) i t) in
    let x := Detector m loc (det_shm x) (det_msg x) (det_sent x) in
    if t >=? 2 then
      let! x := if getZ false (os_live loc) i then help_dead d ms i x else Ret x in
      let loc := det_local x in
      Ret (Detector (det_meta x)
             (CgLocal (setZ (os_gen_ids_snapshot loc) i (get_os_gen_id (det_meta x) i)) (heartbeats_seen loc) (my_osii loc)
                (setZ (os_live loc) i false) (setZ (timeout_times loc) i 0))
             (det_shm x) (det_msg x) (det_sent x))
    else Ret x.

Fixpoint detect_loop (n : nat) (d : meta_dram) (ms i : Z) (x : detector) : outcome detector :=
  match n with
  | O => Ret x
  | S k => let! x := detect_one d ms i x in detect_loop k d ms (i + 1) x
  end.

(** [do_os_failure_detection] on a machine that sees [total_machines] machines. *)
Definition do_os_failure_detection (stop_heartbeats : bool) (total_machines : Z) (d : meta_dram) (ms : Z)
  (m : cxlcg_meta) (loc : cg_local) (s : shm) : outcome detector :=
  let os_id := GET_OS_ID (my_osii loc) in
  bug_on (os_id =? 0)
    (let m := if stop_heartbeats then m
              else set_beats m (setZ (os_heartbeats m) (os_id - 1) (u32 (getZ 0 (os_heartbeats m) (os_id - 1) + 1))) in
     detect_loop (Z.to_nat total_machines) d ms 0 (Detector m loc s 0 [])).
End Locked.
