(* ===== verification/CgroupSpec.v ===== *)
(** Correctness of the process groups: the message words, membership, recovery
    after a crash and failure detection. *)
From Stdlib Require Import ZArith Lia Bool.
From stdpp Require Import base list gmap numbers.
From S2P Require Import Prelude ShmemLog PersistCas TatasLock MetaAlloc Cgroup.
Local Open Scope Z_scope.
Local Open Scope lupin_scope.

(** ** Message words *)

(** A word with the four fields. *)
Definition word (t os p n : Z) : Z := t * 2 ^ 62 + os * 2 ^ 48 + p * 2 ^ 32 + n.

Definition fields_ok (t os p n : Z) : Prop :=
  0 <= t < 4 /\ 0 <= os < 2 ^ 14 /\ 0 <= p < 2 ^ 16 /\ 0 <= n < 2 ^ 32.

(** A field of [k] bits at position [i] of [hi * 2^(i+k) + f * 2^i + lo]. *)
Lemma field_get hi f lo i k :
  0 <= i -> 0 <= k -> 0 <= f < 2 ^ k -> 0 <= lo < 2 ^ i -> 0 <= hi ->
  Z.shiftr (Z.land (hi * 2 ^ (i + k) + f * 2 ^ i + lo) (Z.shiftl (Z.ones k) i)) i = f.
Proof.
  intros Hi Hk Hf Hlo Hhi. rewrite Z.shiftr_land, Z.shiftr_shiftl_l, Z.sub_diag, Z.shiftl_0_r by lia.
  rewrite Z.land_ones by lia. rewrite Z.shiftr_div_pow2, Z.pow_add_r by lia.
  replace (hi * (2 ^ i * 2 ^ k) + f * 2 ^ i + lo) with (lo + (hi * 2 ^ k + f) * 2 ^ i) by ring.
  rewrite Z.div_add by lia. rewrite (Z.div_small lo), Z.add_0_l by lia.
  rewrite Z.add_comm, Z.mod_add, Z.mod_small by lia. done.
Qed.

Lemma field_clear hi f lo i k :
  0 <= i -> 0 <= k -> 0 <= f < 2 ^ k -> 0 <= lo < 2 ^ i -> 0 <= hi ->
  Z.ldiff (hi * 2 ^ (i + k) + f * 2 ^ i + lo) (Z.shiftl (Z.ones k) i) = hi * 2 ^ (i + k) + lo.
Proof.
  intros Hi Hk Hf Hlo Hhi. set (x := hi * 2 ^ (i + k) + f * 2 ^ i + lo).
  assert (Hand : Z.land x (Z.shiftl (Z.ones k) i) = f * 2 ^ i).
  { pose proof (field_get hi f lo i k Hi Hk Hf Hlo Hhi) as E. fold x in E.
    rewrite <- E, Z.shiftr_div_pow2 by lia. set (y := Z.land x (Z.shiftl (Z.ones k) i)).
    assert (Hm : y mod 2 ^ i = 0).
    { rewrite <- Z.land_ones by lia. unfold y. apply Z.bits_inj'. intros b Hb.
      rewrite !Z.land_spec, Z.bits_0, Z.shiftl_spec, (Z.testbit_ones i b) by lia.
      destruct (Z.ltb_spec b i); [|by rewrite !andb_false_r].
      rewrite (Z.testbit_neg_r _ (b - i)) by lia. by rewrite andb_false_r. }
    pose proof (Z.div_mod y (2 ^ i) ltac:(lia)). lia. }
  set (y := Z.shiftl (Z.ones k) i) in *.
  assert (H0 : Z.land (Z.ldiff x y) (Z.land x y) = 0).
  { apply Z.bits_inj'. intros b Hb. rewrite !Z.land_spec, Z.ldiff_spec, Z.bits_0.
    by destruct (Z.testbit x b), (Z.testbit y b). }
  assert (Hsum : Z.ldiff x y + Z.land x y = x).
  { rewrite Z.add_nocarry_lxor, Z.lxor_lor by done. apply Z.lor_ldiff_and. }
  rewrite Hand in Hsum. unfold x in *. lia.
Qed.

Lemma word_range t os p n : fields_ok t os p n -> 0 <= word t os p n < 2 ^ 64.
Proof. unfold fields_ok, word. lia. Qed.

Lemma shl_small y k b : 0 <= y < 2 ^ b -> 0 <= k -> 0 <= b -> b + k <= 64 -> u64 (Z.shiftl (u64 y) k) = y * 2 ^ k.
Proof.
  intros Hy Hk Hb Hs. assert (H : 2 ^ b * 2 ^ k <= 2 ^ 64) by (rewrite <- Z.pow_add_r by lia; apply Z.pow_le_mono_r; lia).
  assert (0 < 2 ^ k) by lia. rewrite (u64_small y), Z.shiftl_mul_pow2 by nia. apply u64_small. nia.
Qed.

Lemma mask_os : OS_ID_MASK = Z.shiftl (Z.ones 14) 48.
Proof. reflexivity. Qed.
Lemma mask_proc : PROC_ID_MASK = Z.shiftl (Z.ones 16) 32.
Proof. reflexivity. Qed.
Lemma mask_gen : GEN_ID_MASK = Z.shiftl (Z.ones 32) 0.
Proof. reflexivity. Qed.
Lemma mask_type : MSG_TYPE_MASK = Z.shiftl (Z.ones 2) 62.
Proof. reflexivity. Qed.

(** The word as each field sees it. *)
Lemma word_os t os p n : word t os p n = t * 2 ^ (48 + 14) + os * 2 ^ 48 + (p * 2 ^ 32 + n).
Proof. unfold word. lia. Qed.
Lemma word_proc t os p n : word t os p n = (t * 2 ^ 14 + os) * 2 ^ (32 + 16) + p * 2 ^ 32 + n.
Proof. unfold word. lia. Qed.
Lemma word_gen t os p n : word t os p n = (t * 2 ^ 30 + os * 2 ^ 16 + p) * 2 ^ (0 + 32) + n * 2 ^ 0 + 0.
Proof. unfold word. lia. Qed.
Lemma word_type t os p n : word t os p n = 0 * 2 ^ (62 + 2) + t * 2 ^ 62 + (os * 2 ^ 48 + p * 2 ^ 32 + n).
Proof. unfold word. lia. Qed.

Lemma get_fields t os p n :
  fields_ok t os p n ->
  GET_OS_ID (word t os p n) = os /\ GET_PROC_ID (word t os p n) = p /\
  GET_GEN_ID (word t os p n) = n /\ GET_MSG_TYPE (word t os p n) = t.
Proof.
  intros (Ht & Ho & Hp & Hn). unfold GET_OS_ID, GET_PROC_ID, GET_GEN_ID, GET_MSG_TYPE.
  rewrite mask_os, mask_proc, mask_gen, mask_type. split; [|split; [|split]].
  - rewrite word_os, field_get by lia. apply u32_small. lia.
  - rewrite word_proc, field_get by lia. apply u32_small. lia.
  - rewrite <- (Z.shiftr_0_r (Z.land _ _)), word_gen, field_get by lia. apply u32_small. lia.
  - rewrite word_type, field_get by lia. apply u32_small. lia.
Qed.

Lemma set_fields t os p n y :
  fields_ok t os p n ->
  (0 <= y < 2 ^ 14 -> SET_OS_ID (word t os p n) y = word t y p n) /\
  (0 <= y < 2 ^ 16 -> SET_PROC_ID (word t os p n) y = word t os y n) /\
  (0 <= y < 2 ^ 32 -> SET_GEN_ID (word t os p n) y = word t os p y) /\
  (0 <= y < 4 -> SET_MSG_TYPE (word t os p n) y = word y os p n).
Proof.
  intros F. pose proof (word_range _ _ _ _ F) as Hw. destruct F as (Ht & Ho & Hp & Hn).
  unfold SET_OS_ID, SET_PROC_ID, SET_GEN_ID, SET_MSG_TYPE. rewrite (u64_small (word t os p n)) by lia.
  rewrite mask_os, mask_proc, mask_gen, mask_type. split; [|split; [|split]]; intros Hy.
  - rewrite word_os, field_clear, (shl_small y 48 14) by lia. rewrite u64_small; unfold word; lia.
  - rewrite word_proc, field_clear, (shl_small y 32 16) by lia. rewrite u64_small; unfold word; lia.
  - change (Z.shiftl (Z.ones 32) 0) with (Z.ones 32) at 2. rewrite Z.land_ones, (u64_small y), (Z.mod_small y) by lia.
    rewrite word_gen, field_clear by lia. rewrite u64_small; unfold word; lia.
  - rewrite word_type, field_clear, (shl_small y 62 2) by lia. rewrite u64_small; unfold word; lia.
Qed.

(** The accessors of instance identifiers and messages: reading returns the
    field, and writing a value that fits replaces exactly that field. *)
Theorem osii_fields_correct (t os p n y : Z) :
  fields_ok t os p n ->
  (GET_OS_ID (word t os p n) = os /\ GET_PROC_ID (word t os p n) = p /\
   GET_GEN_ID (word t os p n) = n /\ GET_MSG_TYPE (word t os p n) = t) /\
  (0 <= y < 2 ^ 14 -> SET_OS_ID (word t os p n) y = word t y p n) /\
  (0 <= y < 2 ^ 16 -> SET_PROC_ID (word t os p n) y = word t os y n) /\
  (0 <= y < 2 ^ 32 -> SET_GEN_ID (word t os p n) y = word t os p y) /\
  (0 <= y < 4 -> SET_MSG_TYPE (word t os p n) y = word y os p n).
Proof. intros F. split; [by apply get_fields|by apply set_fields]. Qed.

Lemma osii_fields_correct_witness :
  GET_OS_ID (word 2 5 77 9) = 5 /\ SET_OS_ID (word 2 5 77 9) 6 = word 2 6 77 9.
Proof.
  destruct (osii_fields_correct 2 5 77 9 6) as [[H _] [H' _]]; [unfold fields_ok; lia|].
  split; [exact H|apply H'; lia].
Defined.

(** ** Membership *)

#[local] Opaque GET_OS_ID GET_PROC_ID GET_GEN_ID GET_MSG_TYPE SET_OS_ID SET_PROC_ID SET_GEN_ID SET_MSG_TYPE.

(** A member as the code compares it: machine, generation and local identifier. *)
Definition key : Type := (Z * Z * Z)%type.
Definition key_of (os local_id : Z) : key := (GET_OS_ID os, GET_GEN_ID os, local_id).
Definition proc_key (p : member_proc) : option key :=
  if mp_in_use p then Some (key_of (osii (proc_id p)) (local_proc_id (proc_id p))) else None.
Definition keys (ps : list member_proc) : list key := omap proc_key ps.

(** The abstract state: the set of members of each group. *)
Definition members (m : cxlcg_meta) (h : Z) : gset key := list_to_set (keys (procs (the_entry m h))).

Definition entry_wf (e : cxlcg_entry) : Prop :=
  length (procs e) = Z.to_nat MAX_PROC_PER_GROUP /\ NoDup (keys (procs e)).
Definition cg_wf (m : cxlcg_meta) : Prop :=
  length (entries m) = Z.to_nat MAX_GROUP_NUM /\ Forall entry_wf (entries m).

Lemma index_from_some {A} (f : A -> bool) l i j :
  index_from f l i = Some j ->
  exists l1 x l2, l = l1 ++ x :: l2 /\ j = i + Z.of_nat (length l1) /\ f x = true.
Proof.
  revert i. induction l as [|x l IH]; intros i; simpl; [done|].
  destruct (f x) eqn:E.
  - intros [= <-]. exists [], x, l. simpl. split_and!; [done|lia|done].
  - intros (l1 & y & l2 & -> & -> & Hf)%IH. exists (x :: l1), y, l2. simpl. split_and!; [done|lia|done].
Qed.

Lemma index_from_none {A} (f : A -> bool) l i : index_from f l i = None -> Forall (fun x => f x = false) l.
Proof.
  revert i. induction l as [|x l IH]; intros i; simpl; [constructor|].
  destruct (f x) eqn:E; [done|]. intros H. constructor; [done|by eapply IH].
Qed.

Lemma setZ_middle {A} (l1 l2 : list A) x y : setZ (l1 ++ x :: l2) (0 + Z.of_nat (length l1)) y = l1 ++ y :: l2.
Proof. unfold setZ. rewrite Z.add_0_l, Nat2Z.id. by rewrite insert_app_r_alt, Nat.sub_diag by lia. Qed.

Lemma is_member_key os l p : is_member os l p = true <-> proc_key p = Some (key_of os l).
Proof.
  unfold is_member, proc_key, key_of. destruct (mp_in_use p); simpl; [|by split].
  rewrite !andb_true_iff, !Z.eqb_eq. split; [intros [[-> ->] ->]; done|intros [=]; done].
Qed.

Lemma elem_of_keys k ps : k ∈ keys ps <-> exists p, p ∈ ps /\ proc_key p = Some k.
Proof. unfold keys. by rewrite list_elem_of_omap. Qed.

Lemma not_member os l ps : Forall (fun p => is_member os l p = false) ps -> key_of os l ∉ keys ps.
Proof.
  intros H (p & Hp & Hk)%elem_of_keys. rewrite Forall_forall in H. specialize (H p (proj1 (list_elem_of_In _ _) Hp)).
  apply is_member_key in Hk. congruence.
Qed.

Lemma full_keys ps : Forall (fun p => negb (mp_in_use p) = false) ps -> length (keys ps) = length ps.
Proof.
  induction 1 as [|p ps Hp _ IH]; [done|]. unfold keys in *. cbn. unfold proc_key at 1.
  destruct (mp_in_use p); [|done]. cbn. f_equal. exact IH.
Qed.

Lemma keys_middle l1 l2 p :
  keys (l1 ++ p :: l2) = keys l1 ++ (match proc_key p with Some k => [k] | None => [] end) ++ keys l2.
Proof. unfold keys. rewrite omap_app. simpl. by destruct (proc_key p). Qed.

Lemma bucket_range s : 0 <= bucket s < MAX_GROUP_NUM.
Proof. apply Z.mod_pos_bound. reflexivity. Qed.

Lemma the_entry_put m i j e :
  cg_wf m -> 0 <= i < MAX_GROUP_NUM -> 0 <= j ->
  the_entry (put_entry m i e) j = if i =? j then e else the_entry m j.
Proof.
  intros [Hl _] Hi Hj. unfold the_entry, put_entry, set_entries, getZ, setZ; simpl.
  destruct (Z.eqb_spec i j) as [->|Hn].
  - by rewrite list_lookup_insert_eq by (rewrite Hl; lia).
  - by rewrite list_lookup_insert_ne by lia.
Qed.

Lemma the_entry_wf m i : cg_wf m -> 0 <= i < MAX_GROUP_NUM -> entry_wf (the_entry m i).
Proof.
  intros [Hl Hf] Hi. unfold the_entry, getZ.
  destruct (lookup_lt_is_Some_2 (entries m) (Z.to_nat i)) as [e He]; [rewrite Hl; lia|].
  rewrite He. simpl. by eapply Forall_lookup_1 in Hf.
Qed.

Lemma put_entry_wf m i e : cg_wf m -> entry_wf e -> cg_wf (put_entry m i e).
Proof.
  intros [Hl Hf] He. unfold put_entry, set_entries, setZ; split; simpl.
  - by rewrite length_insert.
  - by apply Forall_insert.
Qed.

Lemma the_entry_put_proc m h i p j :
  cg_wf m -> 0 <= h < MAX_GROUP_NUM -> 0 <= j ->
  procs (the_entry (put_proc m h i p) j) = if h =? j then setZ (procs (the_entry m h)) i p else procs (the_entry m j).
Proof. intros W Hh Hj. unfold put_proc. rewrite the_entry_put by done. by destruct (h =? j). Qed.

(** Writing one slot of a group. *)
Lemma put_proc_step m h l1 l2 p q :
  cg_wf m -> 0 <= h < MAX_GROUP_NUM -> procs (the_entry m h) = l1 ++ p :: l2 ->
  NoDup (keys (l1 ++ q :: l2)) ->
  let m' := put_proc m h (0 + Z.of_nat (length l1)) q in
  cg_wf m' /\
  (forall j, 0 <= j -> members m' j = if h =? j then list_to_set (keys (l1 ++ q :: l2)) else members m j).
Proof.
  intros W Hh Hp ND m'. split.
  - apply put_entry_wf; [done|]. destruct (the_entry_wf m h W Hh) as [Hl _]. rewrite Hp in *.
    split; simpl; rewrite setZ_middle; [|done]. rewrite !length_app in *. exact Hl.
  - intros j Hj. unfold members, m'. rewrite the_entry_put_proc by done.
    destruct (h =? j); [|done]. by rewrite Hp, setZ_middle.
Qed.

Lemma create_step m a :
  cg_wf m ->
  cg_wf (fst (create_cxlcg m a)) /\ (forall j, 0 <= j -> members (fst (create_cxlcg m a)) j = members m j).
Proof.
  intros W. unfold create_cxlcg. pose proof (bucket_range (arg_secret a)) as Hb.
  pose proof (the_entry_wf m _ W Hb) as We. destruct (ce_in_use _); [done|]. cbn [fst]. split.
  - by apply put_entry_wf.
  - intros j Hj. unfold members. rewrite the_entry_put by done.
    destruct (Z.eqb_spec (bucket (arg_secret a)) j) as [<-|]; done.
Qed.

Lemma empty_entry_wf : entry_wf empty_entry.
Proof. split; [done|constructor]. Qed.

Lemma delete_step m a :
  cg_wf m ->
  cg_wf (fst (delete_cxlcg m a)) /\
  (forall j, 0 <= j -> members (fst (delete_cxlcg m a)) j = if bucket (arg_secret a) =? j then ∅ else members m j).
Proof.
  intros W. unfold delete_cxlcg. pose proof (bucket_range (arg_secret a)) as Hb. cbn [fst]. split.
  - apply put_entry_wf; [done|apply empty_entry_wf].
  - intros j Hj. unfold members. rewrite the_entry_put by done. by destruct (_ =? j).
Qed.

Lemma join_step m loc leader a :
  cg_wf m ->
  let h := bucket (arg_secret a) in
  let k := key_of (my_osii loc) (arg_local_proc_id a) in
  let r := join_cxlcg m loc leader a in
  cg_wf (fst r) /\
  ((snd r = 0 /\ forall j, 0 <= j -> members (fst r) j = if h =? j then {[ k ]} ∪ members m j else members m j) \/
   (snd r = -1 /\ fst r = m /\ k ∉ members m h /\ size (members m h) = Z.to_nat MAX_PROC_PER_GROUP)).
Proof.
  intros W h k r. unfold r, join_cxlcg. fold h. pose proof (bucket_range (arg_secret a)) as Hb. fold h in Hb.
  destruct (the_entry_wf m h W Hb) as [Hl ND].
  destruct (index_from (is_member _ _) _ 0) as [i|] eqn:E1; [|destruct (index_from (fun p => negb (mp_in_use p)) _ 0) as [i|] eqn:E2]; cbn [fst snd].
  - split; [done|left]. split; [done|]. intros j Hj. destruct (Z.eqb_spec h j) as [<-|]; [|done].
    apply index_from_some in E1 as (l1 & p & l2 & Hp & _ & Hm). apply is_member_key in Hm.
    assert (k ∈ members m h); [|set_solver]. unfold members. rewrite elem_of_list_to_set, elem_of_keys, Hp.
    exists p. split; [set_solver|done].
  - apply index_from_none, not_member in E1. apply index_from_some in E2 as (l1 & p & l2 & Hp & -> & Hu).
    assert (Hk : keys (procs (the_entry m h)) = keys l1 ++ keys l2).
    { rewrite Hp, keys_middle. unfold proc_key. by destruct (mp_in_use p). }
    destruct (put_proc_step m h l1 l2 p (MemberProc (GlobalProcId (my_osii loc) (arg_local_proc_id a)) leader true))
      as [W' Hm]; [done..| |].
    { rewrite keys_middle. simpl. apply NoDup_Permutation_proper with (k :: keys l1 ++ keys l2);
        [symmetry; apply Permutation_middle|]. rewrite <- Hk. by constructor. }
    split; [exact W'|left]. split; [done|]. intros j Hj. rewrite Hm by done.
    destruct (Z.eqb_spec h j) as [<-|]; [|done]. unfold members. rewrite Hk, keys_middle. simpl.
    fold k. rewrite !list_to_set_app_L, list_to_set_cons. set_solver.
  - split; [done|right]. apply index_from_none, not_member in E1. apply index_from_none, full_keys in E2.
    split_and!; [done|done| |].
    + unfold members. by rewrite elem_of_list_to_set.
    + unfold members. by rewrite size_list_to_set, E2.
Qed.

Lemma leave_step m os a :
  cg_wf m ->
  let h := bucket (arg_secret a) in
  let k := key_of os (arg_local_proc_id a) in
  let r := leave_cxlcg m os a in
  cg_wf (fst r) /\ snd r = 0 /\
  (forall j, 0 <= j -> members (fst r) j = if h =? j then members m j ∖ {[ k ]} else members m j).
Proof.
  intros W h k r. unfold r, leave_cxlcg. fold h. pose proof (bucket_range (arg_secret a)) as Hb. fold h in Hb.
  destruct (the_entry_wf m h W Hb) as [Hl ND].
  destruct (index_from (is_member _ _) _ 0) as [i|] eqn:E1; cbn [fst snd].
  - apply index_from_some in E1 as (l1 & p & l2 & Hp & -> & Hm). apply is_member_key in Hm. fold k in Hm.
    rewrite Hp, keys_middle, Hm in ND. apply (NoDup_Permutation_proper _ (k :: keys l1 ++ keys l2)) in ND;
      [|symmetry; apply Permutation_middle]. apply list.NoDup_cons in ND as [Hn ND].
    destruct (put_proc_step m h l1 l2 p empty_proc) as [W' Hs]; [done..|by rewrite keys_middle|].
    split; [exact W'|]. split; [done|]. intros j Hj. rewrite Hs by done.
    destruct (Z.eqb_spec h j) as [<-|]; [|done]. unfold members. rewrite Hp, !keys_middle, Hm. simpl.
    rewrite !list_to_set_app_L, list_to_set_cons. set_solver.
  - split; [done|]. split; [done|]. intros j Hj. destruct (Z.eqb_spec h j) as [<-|]; [|done].
    apply index_from_none, not_member in E1. fold k in E1. unfold members. set_solver.
Qed.

(** ** The groups as sets *)

Inductive cg_op :=
| OpCreate (a : cxlcg_args)
| OpDelete (a : cxlcg_args)
| OpJoin (loc : cg_local) (leader : Z) (a : cxlcg_args)
| OpLeave (os : Z) (a : cxlcg_args).

Definition cg_exec (op : cg_op) (m : cxlcg_meta) : cxlcg_meta * Z :=
  match op with
  | OpCreate a => create_cxlcg m a
  | OpDelete a => delete_cxlcg m a
  | OpJoin loc leader a => join_cxlcg m loc leader a
  | OpLeave os a => leave_cxlcg m os a
  end.

(** The specification: which groups exist, and a set of members for each of them. *)
Record groups := Groups { used : Z -> bool; mems : Z -> gset key }.

Definition upd {A} (f : Z -> A) (h : Z) (x : A) : Z -> A := fun j => if h =? j then x else f j.

Definition spec_exec (op : cg_op) (s : groups) : groups * Z :=
  match op with
  | OpCreate a =>
      let h := bucket (arg_secret a) in
      if used s h then (s, -1) else (Groups (upd (used s) h true) (mems s), 0)
  | OpDelete a =>
      let h := bucket (arg_secret a) in (Groups (upd (used s) h false) (upd (mems s) h ∅), 0)
  | OpJoin loc _ a =>
      let h := bucket (arg_secret a) in
      let k := key_of (my_osii loc) (arg_local_proc_id a) in
      if decide (k ∉ mems s h /\ size (mems s h) = Z.to_nat MAX_PROC_PER_GROUP) then (s, -1)
      else (Groups (used s) (upd (mems s) h ({[ k ]} ∪ mems s h)), 0)
  | OpLeave os a =>
      let h := bucket (arg_secret a) in
      (Groups (used s) (upd (mems s) h (mems s h ∖ {[ key_of os (arg_local_proc_id a) ]})), 0)
  end.

Definition implements (m : cxlcg_meta) (s : groups) : Prop :=
  cg_wf m /\ forall j, 0 <= j -> used s j = ce_in_use (the_entry m j) /\ mems s j = members m j.

Lemma in_use_put m h e j :
  cg_wf m -> 0 <= h < MAX_GROUP_NUM -> 0 <= j ->
  ce_in_use (the_entry (put_entry m h e) j) = upd (fun j => ce_in_use (the_entry m j)) h (ce_in_use e) j.
Proof. intros W Hh Hj. rewrite the_entry_put by done. unfold upd. by destruct (h =? j). Qed.

Lemma in_use_put_proc m h i p j :
  cg_wf m -> 0 <= h < MAX_GROUP_NUM -> 0 <= j ->
  ce_in_use (the_entry (put_proc m h i p) j) = ce_in_use (the_entry m j).
Proof.
  intros W Hh Hj. unfold put_proc. rewrite in_use_put by done. unfold upd. simpl.
  by destruct (Z.eqb_spec h j) as [->|].
Qed.

Lemma join_in_use m loc l a j :
  cg_wf m -> 0 <= j -> ce_in_use (the_entry (fst (join_cxlcg m loc l a)) j) = ce_in_use (the_entry m j).
Proof.
  intros W Hj. pose proof (bucket_range (arg_secret a)). unfold join_cxlcg.
  repeat case_match; try done. by apply in_use_put_proc.
Qed.

Lemma leave_in_use m os a j :
  cg_wf m -> 0 <= j -> ce_in_use (the_entry (fst (leave_cxlcg m os a)) j) = ce_in_use (the_entry m j).
Proof.
  intros W Hj. pose proof (bucket_range (arg_secret a)). unfold leave_cxlcg.
  repeat case_match; try done. by apply in_use_put_proc.
Qed.

Lemma keys_length ps : (length (keys ps) <= length ps)%nat.
Proof. induction ps as [|p ps IH]; [done|]. unfold keys in *. cbn. destruct (proc_key p); cbn; lia. Qed.

Lemma members_size m h :
  cg_wf m -> 0 <= h < MAX_GROUP_NUM -> (size (members m h) <= Z.to_nat MAX_PROC_PER_GROUP)%nat.
Proof.
  intros W Hh. destruct (the_entry_wf m h W Hh) as [Hl ND]. unfold members.
  rewrite size_list_to_set by done. rewrite <- Hl. apply keys_length.
Qed.

Lemma exec_implements op m s :
  implements m s ->
  implements (fst (cg_exec op m)) (fst (spec_exec op s)) /\ snd (cg_exec op m) = snd (spec_exec op s).
Proof.
  intros [W I]. destruct op as [a|a|loc l a|os a]; simpl;
    pose proof (bucket_range (arg_secret a)) as Hb; destruct (I (bucket (arg_secret a))) as [Iu Im]; try lia.
  - destruct (create_step m a W) as [W' Hm]. rewrite Iu. unfold implements. revert W' Hm. unfold create_cxlcg.
    destruct (ce_in_use _) eqn:Eu; cbn [fst snd]; intros W' Hm; [done|]. split; [|done]. split; [done|].
    intros j Hj. rewrite Hm, in_use_put by done. destruct (I j Hj) as [Hu <-]. split; [|done].
    simpl. unfold upd. by destruct (_ =? j).
  - destruct (delete_step m a W) as [W' Hm]. split; [|done]. split; [done|]. intros j Hj. rewrite Hm by done.
    destruct (I j Hj) as [Hu Hs]. unfold delete_cxlcg. cbn [fst]. rewrite in_use_put by done. simpl. unfold upd.
    by destruct (_ =? j).
  - destruct (join_step m loc l a W) as [W' [[Hr Hm]|(Hr & He & Hk & Hsz)]]; rewrite Hr, Im.
    + rewrite decide_False.
      * split; [|done]. split; [done|]. intros j Hj. rewrite Hm, join_in_use by done. destruct (I j Hj) as [Hu Hs].
        split; [done|]. simpl. unfold upd. destruct (Z.eqb_spec (bucket (arg_secret a)) j) as [<-|]; by rewrite ?Im.
      * intros [Hk Hsz]. pose proof (members_size _ _ W' Hb) as Hle. rewrite Hm, Z.eqb_refl in Hle by lia.
        rewrite size_union, size_singleton in Hle by set_solver. lia.
    + rewrite decide_True by done. cbn [fst snd]. rewrite He. done.
  - destruct (leave_step m os a W) as [W' [Hr Hm]]. split; [|done]. split; [done|]. intros j Hj.
    rewrite Hm, leave_in_use by done. destruct (I j Hj) as [Hu Hs]. split; [done|]. simpl. unfold upd.
    destruct (Z.eqb_spec (bucket (arg_secret a)) j) as [<-|]; by rewrite ?Im.
Qed.

(** A sequence of operations and the values they return. *)
Fixpoint cg_runs (ops : list cg_op) (m : cxlcg_meta) : cxlcg_meta * list Z :=
  match ops with
  | [] => (m, [])
  | op :: rest => let (m1, r) := cg_exec op m in let (m2, rs) := cg_runs rest m1 in (m2, r :: rs)
  end.

Fixpoint spec_runs (ops : list cg_op) (s : groups) : groups * list Z :=
  match ops with
  | [] => (s, [])
  | op :: rest => let (s1, r) := spec_exec op s in let (s2, rs) := spec_runs rest s1 in (s2, r :: rs)
  end.

(** C30. The table of groups implements a family of bounded sets: any sequence of
    creations, deletions, joins and leaves returns what the sets return and
    leaves the table in a state that implements them. *)
Theorem cgroup_refines_sets (ops : list cg_op) (m : cxlcg_meta) (s : groups) :
  implements m s ->
  implements (fst (cg_runs ops m)) (fst (spec_runs ops s)) /\ snd (cg_runs ops m) = snd (spec_runs ops s).
Proof.
  revert m s. induction ops as [|op ops IH]; intros m s H; [done|]. cbn [cg_runs spec_runs].
  destruct (exec_implements op m s H) as [H1 Hr].
  destruct (cg_exec op m) as [m1 r], (spec_exec op s) as [s1 r']. cbn [fst snd] in *.
  destruct (IH m1 s1 H1) as [H2 Hrs].
  destruct (cg_runs ops m1) as [m2 rs], (spec_runs ops s1) as [s2 rs']. cbn [fst snd] in *.
  split; [done|congruence].
Qed.

Definition example_loc : cg_local := CgLocal [] [] (word 0 1 0 0) [] [].
Definition example_meta : cxlcg_meta := fst (init_cxlcg_meta DRAM 1 example_loc).
Definition no_groups : groups := Groups (fun _ => false) (fun _ => ∅).

Lemma example_implements : implements example_meta no_groups.
Proof.
  assert (H : forall j, the_entry example_meta j = empty_entry).
  { intros j. unfold the_entry, getZ. change (entries example_meta) with (replicate 50 empty_entry).
    destruct (decide (Z.to_nat j < 50)%nat); [by rewrite lookup_replicate_2|].
    by rewrite lookup_ge_None_2 by (rewrite length_replicate; lia). }
  split; [split|].
  - done.
  - change (entries example_meta) with (replicate 50 empty_entry). apply Forall_replicate, empty_entry_wf.
  - intros j _. unfold members. rewrite H. done.
Qed.

Definition example_args : cxlcg_args := CxlcgArgs [97; 98; 0] 7.
Definition example_ops : list cg_op :=
  [OpCreate example_args; OpCreate example_args; OpJoin example_loc 5 example_args; OpLeave (word 0 1 0 0) example_args].

Lemma cgroup_refines_sets_witness :
  implements (fst (cg_runs example_ops example_meta)) (fst (spec_runs example_ops no_groups)) /\
  snd (cg_runs example_ops example_meta) = [0; -1; 0; 0].
Proof.
  destruct (cgroup_refines_sets example_ops example_meta no_groups example_implements) as [H _].
  split; [exact H|]. vm_compute. reflexivity.
Defined.

(** ** Recovery of a machine *)

Definition machine_in (id : Z) (k : key) : bool := fst (fst k) =? id.

Lemma keys_cons p ps : keys (p :: ps) = match proc_key p with Some k => k :: keys ps | None => keys ps end.
Proof. done. Qed.

(** Removing the members of a machine from a list of slots. *)
Lemma keys_purge id ps :
  keys (map (fun p => if mp_in_use p && (GET_OS_ID (osii (proc_id p)) =? id) then empty_proc else p) ps)
  = filter (fun k => machine_in id k = false) (keys ps).
Proof.
  induction ps as [|p ps IH]; [done|]. cbn [map]. rewrite !keys_cons, IH. unfold proc_key.
  destruct (mp_in_use p) eqn:Ep; cbn [andb]; [|by rewrite Ep].
  rewrite filter_cons. destruct (GET_OS_ID (osii (proc_id p)) =? id) eqn:Eo.
  - rewrite decide_False; [done|]. unfold machine_in, key_of. cbn [fst]. congruence.
  - by rewrite Ep, decide_True.
Qed.

Lemma purge_wf id e : entry_wf e -> entry_wf (purge_entry id e).
Proof.
  intros [Hl ND]. unfold purge_entry. destruct (ce_in_use e); [|done]. split; cbn [procs].
  - by rewrite length_map.
  - rewrite keys_purge. by apply list.NoDup_filter.
Qed.

Definition purged (m : cxlcg_meta) (id : Z) : cxlcg_meta := set_entries m (map (purge_entry id) (entries m)).

Lemma the_entry_purged m id j : the_entry (purged m id) j = purge_entry id (the_entry m j).
Proof.
  unfold the_entry, purged, getZ. cbn [entries set_entries].
  replace (map (purge_entry id) (entries m) !! Z.to_nat j) with (purge_entry id <$> entries m !! Z.to_nat j)
    by (symmetry; exact (list_lookup_fmap (purge_entry id) (entries m) (Z.to_nat j))).
  by destruct (entries m !! Z.to_nat j).
Qed.

Lemma purged_wf m id : cg_wf m -> cg_wf (purged m id).
Proof.
  intros [Hl Hf]. split; unfold purged; cbn [entries set_entries]; [by rewrite length_map|].
  apply Forall_map. eapply Forall_impl; [|exact Hf]. intros e. apply purge_wf.
Qed.

Lemma members_purged m id j :
  members (purged m id) j =
    if ce_in_use (the_entry m j) then filter (fun k => machine_in id k = false) (members m j) else members m j.
Proof.
  unfold members. rewrite the_entry_purged. unfold purge_entry. destruct (ce_in_use _); [|done].
  cbn [procs]. rewrite keys_purge. apply set_eq. intros k.
  rewrite elem_of_filter, !elem_of_list_to_set, list_elem_of_filter. done.
Qed.

Lemma gen_after m id j :
  length (os_generation_ids m) = Z.to_nat MAX_MACHINES -> 1 <= id <= MAX_MACHINES -> 0 <= j ->
  get_os_gen_id (increment_gen_id m id) j =
    if j =? id - 1 then u32 (get_os_gen_id m (id - 1) + 1) else get_os_gen_id m j.
Proof.
  intros Hl Hid Hj. unfold increment_gen_id, set_gens, get_os_gen_id, getZ, setZ; cbn [os_generation_ids].
  destruct (Z.eqb_spec j (id - 1)) as [->|Hn].
  - by rewrite list_lookup_insert_eq by (rewrite Hl; lia).
  - by rewrite list_lookup_insert_ne by lia.
Qed.

Lemma new_identity id gen :
  0 <= id < 2 ^ 14 -> 0 <= gen < 2 ^ 32 -> SET_GEN_ID (SET_OS_ID 0 id) gen = word 0 id 0 gen.
Proof.
  intros Hid Hg. change 0 with (word 0 0 0 0) at 1.
  destruct (set_fields 0 0 0 0 id) as [H1 _]; [unfold fields_ok; lia|]. rewrite H1 by done.
  destruct (set_fields 0 id 0 0 gen) as (_ & _ & H & _); [unfold fields_ok; lia|auto].
Qed.

Lemma unlock_ok g nr cpu m id p :
  1 <= id -> get_process_identifier nr cpu id = Some p ->
  exists w, recoverable_unlock g nr cpu m id = Ret (set_cg_lock m w) /\ value g w = UNLOCKED.
Proof.
  intros Hid Hp. unfold recoverable_unlock, ttas_unlock_kern, with_process_id, bug_on.
  destruct (Z.ltb_spec id 1); [lia|]. rewrite Hp. cbn. eexists. split; [reflexivity|].
  exact (proj1 (write_ok 64 g eq_refl (cg_lock m) UNLOCKED unlocked_ok)).
Qed.

(** A machine that restarts recovers the groups: whether its previous life
    held the lock or not, the recovery returns, with the lock released, under a
    new generation and identity, and its old processes are removed from every
    group in use while all other members and generations stay. *)
Theorem recover_cxlcg_meta_correct (g : granularity) (nr cpu : Z) (m : cxlcg_meta) (id p q n : Z) (loc : cg_local) :
  cg_wf m -> length (os_generation_ids m) = Z.to_nat MAX_MACHINES -> 1 <= id <= MAX_MACHINES ->
  get_process_identifier nr cpu id = Some p -> is_proc p -> is_proc q -> is_gen n -> word_ok 64 (cg_lock m) ->
  value g (cg_lock m) = UNLOCKED \/ (value g (cg_lock m) = lock_val q n /\ machine_of nr q = id) ->
  my_osii loc = 0 ->
  exists m' loc', recover_cxlcg_meta g nr cpu m id loc = Ret (Some (m', loc')) /\
    cg_wf m' /\ value g (cg_lock m') = UNLOCKED /\
    (forall j, 0 <= j -> get_os_gen_id m' j =
       if j =? id - 1 then u32 (get_os_gen_id m (id - 1) + 1) else get_os_gen_id m j) /\
    my_osii loc' = word 0 id 0 (u32 (get_os_gen_id m (id - 1) + 1)) /\
    (forall j, members m' j =
       if ce_in_use (the_entry m j) then filter (fun k => machine_in id k = false) (members m j) else members m j).
Proof.
  intros W Hl Hid Hp Hp' Hq Hn Hok Hv Hz. unfold recover_cxlcg_meta. cbv zeta. rewrite Hz.
  pose proof (gen_after m id (id - 1) Hl Hid ltac:(lia)) as Hg. rewrite Z.eqb_refl in Hg. rewrite Hg.
  pose proof (Z.mod_pos_bound (get_os_gen_id m (id - 1) + 1) (2 ^ 32) eq_refl) as Hr.
  change (_ mod _) with (u32 (get_os_gen_id m (id - 1) + 1)) in Hr. unfold MAX_MACHINES in Hid.
  rewrite new_identity by lia. set (gen := u32 _) in *.
  unfold recoverable_lock_recover. rewrite Hg. change (cg_lock (increment_gen_id m id)) with (cg_lock m).
  destruct (lock_recover_kern_ok g nr cpu (cg_lock m) id id gen p q n) as (st & w & -> & Ht); [lia|done..|tauto|].
  replace (_ || _) with true in Ht; [destruct Ht as [-> _]|].
  2:{ destruct Hv as [-> | [_ ->]]; [done|]. by rewrite Z.eqb_refl, orb_true_r. }
  cbn [obind fst snd].
  destruct (unlock_ok g nr cpu (purged (set_cg_lock (increment_gen_id m id) w) id) id p) as (w' & Hu & Hu'); [lia|done|].
  unfold purged in Hu. rewrite Hu. cbn [obind]. do 2 eexists. split; [reflexivity|].
  split_and!; [exact (purged_wf m id W)|exact Hu'| |reflexivity|exact (members_purged m id)].
  intros j Hj. exact (gen_after m id j Hl Hid Hj).
Qed.

(** Machine 1 crashed while it held the lock in generation 0. *)
Definition crashed_meta : cxlcg_meta :=
  set_cg_lock (fst (cg_runs [OpCreate example_args; OpJoin example_loc 5 example_args] example_meta)) (lock_val 1 0).

Lemma recover_cxlcg_meta_correct_witness :
  exists m' loc', recover_cxlcg_meta BYTE_GRANULAR 4 1 crashed_meta 1 (CgLocal [] [] 0 [] []) = Ret (Some (m', loc')) /\
    my_osii loc' = word 0 1 0 1 /\ members m' (bucket [97; 98; 0]) = ∅.
Proof.
  destruct (recover_cxlcg_meta_correct BYTE_GRANULAR 4 1 crashed_meta 1 1 1 0 (CgLocal [] [] 0 [] []))
    as (m' & loc' & H & _ & _ & _ & Ho & Hm); try (unfold is_proc, is_gen, MAX_MACHINES; lia); try reflexivity.
  - destruct (proj1 (proj1 (exec_implements (OpJoin example_loc 5 example_args) _ _
      (proj1 (exec_implements (OpCreate example_args) _ _ example_implements))))) as [Hl Hf]. exact (conj Hl Hf).
  - unfold word_ok. vm_compute. split; [discriminate|reflexivity].
  - right. split; reflexivity.
  - exists m', loc'. split; [exact H|]. split; [exact Ho|]. rewrite Hm. vm_compute. reflexivity.
Defined.

(** Joining checks neither the secret nor that the group exists: a process
    that presents another secret of the same bucket becomes a member of the
    group, and a process also joins a group that nobody created. *)
Theorem join_ignores_secret :
  let m := fst (create_cxlcg example_meta (CxlcgArgs [97; 0] 0)) in
  let joined := join_cxlcg m example_loc 5 (CxlcgArgs [47; 0] 7) in
  let early := join_cxlcg example_meta example_loc 5 (CxlcgArgs [47; 0] 7) in
  snd joined = 0 /\ secret_str (the_entry (fst joined) (bucket [97; 0])) = [97; 0] /\
  size (members (fst joined) (bucket [97; 0])) = 1%nat /\
  snd early = 0 /\ ce_in_use (the_entry (fst early) (bucket [47; 0])) = false /\
  size (members (fst early) (bucket [47; 0])) = 1%nat.
Proof. vm_compute. auto 10. Qed.
