(* ===== verification/FailureDetect.v ===== *)
(** Correctness of failure detection: do_os_failure_detection of
    src/driver/src/cxl_cgroup.c.  A machine whose heartbeat stops for two passes
    is declared dead once, and the survivor that notices takes the metadata lock
    over, completes the transaction the dead machine had committed and releases
    the lock. *)
From Stdlib Require Import ZArith Lia Bool.
From stdpp Require Import base list gmap numbers.
From S2P Require Import Prelude Redo ShmemLog LogSpec PersistCas TatasLock MetaAlloc Cgroup CgroupSpec.
Local Open Scope Z_scope.
Local Open Scope lupin_scope.

#[local] Opaque GET_OS_ID GET_PROC_ID GET_GEN_ID GET_MSG_TYPE SET_OS_ID SET_PROC_ID SET_GEN_ID SET_MSG_TYPE.
#[local] Opaque lock_val load64.

Lemma blind_agree f T U m m' : Blind f T -> agree_off U m m' -> agree_off U (f m) (f m').
Proof.
  intros [Hf Hd] H a k Hk HU. destruct (T a k) eqn:E; [by apply Hd|].
  rewrite <- (Hf m a k), <- (Hf m' a k) by done. by apply H.
Qed.

(** ** Helping a dead machine *)

Section Help.
Context (g : granularity) (nr cpu ms i p q n : Z) (d : meta_dram) (es : list log_entry).

(** The metadata a machine [i + 1] leaves when it dies after the commit of a
    transaction with entries [es]: its processor [q] holds the lock. *)
Record died_committed (s : shm) : Prop := {
  dc_wf : Forall wf_entry es;
  dc_log : 0 < ms;
  dc_fits : Z.of_nat (length es) < REDOLOG_ENTRIES;
  dc_spares : spares_log ms es;
  dc_null : existsb entry_null es = false;
  dc_commit : committed (mem s) ms es;
  dc_held : value g (load64 (mem s) (ms + META_LOCK_OFF)) = lock_val q n;
  dc_owner : machine_of nr q = i + 1;
  dc_proc : is_proc q;
  dc_gen : is_gen n }.

(** The survivor runs on a processor with an identifier. *)
Definition survivor : Prop := 1 <= machine_id d /\ get_process_identifier nr cpu (machine_id d) = Some p /\ is_proc p.

(** The transaction is complete and the lock is free. *)
Definition completed (s s' : shm) : Prop :=
  exists t, run_entries es s = Ret t /\ agree_off (rng (ms + META_LOCK_OFF) 8) (mem t) (mem s') /\
    alloc s' = alloc t /\ cur_obj_recs s' = cur_obj_recs t /\
    value g (load64 (mem s') (ms + META_LOCK_OFF)) = UNLOCKED.

Lemma take_lock s gen :
  died_committed s -> survivor -> is_gen gen ->
  exists w, meta_lock_recover g nr cpu gen s d ms (i + 1)
            = Ret (TRANSFERED, set_mem s (store64 (mem s) (ms + META_LOCK_OFF) w)).
Proof.
  intros D (Hm & Hp & Hp') Hg. unfold meta_lock_recover.
  destruct (lock_recover_kern_ok g nr cpu (load64 (mem s) (ms + META_LOCK_OFF)) (i + 1) (machine_id d) gen p q n)
    as (st & w & -> & Ht); try (by destruct D); [done..|apply load64_word|right; by destruct D|].
  rewrite (dc_owner _ D), Z.eqb_refl, orb_true_r in Ht. destruct Ht as [-> _]. by exists w.
Qed.

Lemma release_lock s :
  survivor -> meta_lock_done_recover g nr cpu s d ms TRANSFERED
    = Ret (set_mem s (store64 (mem s) (ms + META_LOCK_OFF)
        (persist_atomic_write_uint64 g (load64 (mem s) (ms + META_LOCK_OFF)) UNLOCKED))).
Proof.
  intros (Hm & Hp & _). unfold meta_lock_done_recover, done_ttas_lock_recover, ttas_unlock_kern, with_process_id, bug_on.
  destruct (Z.ltb_spec (machine_id d) 1); [lia|]. by rewrite Hp.
Qed.

(** The log survives the change of owner. *)
Lemma committed_relock s w :
  died_committed s -> committed (store64 (mem s) (ms + META_LOCK_OFF) w) ms es.
Proof.
  intros D. apply (committed_ext (mem s)); try (by destruct D). intros a Ha. symmetry. apply (rd_store_out _ _ 8).
  unfold entry_at, sizeof_log_entry, REDOLOG_ENTRIES, META_LOCK_OFF in *. lia.
Qed.

Lemma help_completes s w :
  died_committed s -> survivor ->
  exists s1 s', recover_with_redolog (ms + REDOLOG_OFF) (set_mem s (store64 (mem s) (ms + META_LOCK_OFF) w)) = Ret (s1, 0) /\
    meta_lock_done_recover g nr cpu s1 d ms TRANSFERED = Ret s' /\ completed s s'.
Proof.
  intros D Hs. unfold REDOLOG_OFF. rewrite Z.add_0_r.
  rewrite (recover_committed ms es) by (try (by destruct D); by apply committed_relock).
  rewrite run_entries_eq, (dc_null _ D). cbn [obind]. do 2 eexists. split; [reflexivity|].
  split; [by apply release_lock|]. unfold completed. rewrite run_entries_eq, (dc_null _ D).
  eexists. split; [reflexivity|]. cbn [mem set_mem alloc cur_obj_recs]. split_and!; [|done|done|].
  - transitivity (mem_of es (store64 (mem s) (ms + META_LOCK_OFF) w)); [|exact (blind_frame (Blind := blind_store64 (ms + META_LOCK_OFF) _) _)].
    apply (blind_agree _ (touched_all es)); [apply _|exact (blind_frame (Blind := blind_store64 (ms + META_LOCK_OFF) w) _)].
  - rewrite load64_store64.
    pose proof (write_ok 64 g eq_refl (load64 (mem_of es (store64 (mem s) (ms + META_LOCK_OFF) w)) (ms + META_LOCK_OFF))
      UNLOCKED unlocked_ok) as [Hv Hw].
    rewrite u64_small by exact Hw. exact Hv.
Qed.
End Help.

(** ** One machine *)

Lemma getZ_setZ {A} (dft : A) l i j x :
  0 <= i < Z.of_nat (length l) -> 0 <= j -> getZ dft (setZ l i x) j = if i =? j then x else getZ dft l j.
Proof.
  intros Hi Hj. unfold getZ, setZ. destruct (Z.eqb_spec i j) as [->|Hn].
  - by rewrite list_lookup_insert_eq by lia.
  - by rewrite list_lookup_insert_ne by lia.
Qed.

(** The arrays of the detector have an element for each machine. *)
Record loc_wf (loc : cg_local) : Prop := {
  lw_snap : length (os_gen_ids_snapshot loc) = Z.to_nat MAX_MACHINES;
  lw_seen : length (heartbeats_seen loc) = Z.to_nat MAX_MACHINES;
  lw_live : length (os_live loc) = Z.to_nat MAX_MACHINES;
  lw_time : length (timeout_times loc) = Z.to_nat MAX_MACHINES }.

(** What the detector remembers of machine [i + 1]. *)
Definition view (loc : cg_local) (i : Z) : Z * Z * bool * Z :=
  (getZ 0 (os_gen_ids_snapshot loc) i, getZ 0 (heartbeats_seen loc) i, getZ false (os_live loc) i,
   getZ 0 (timeout_times loc) i).

(** [x'] differs from [x] in what it remembers of the machines of [f] only. *)
Record quiet (f : Z -> Prop) (x x' : detector) : Prop := {
  q_meta : det_meta x' = det_meta x;
  q_shm : det_shm x' = det_shm x;
  q_msg : det_msg x' = det_msg x;
  q_sent : det_sent x' = det_sent x;
  q_osii : my_osii (det_local x') = my_osii (det_local x);
  q_wf : loc_wf (det_local x');
  q_view : forall j, 0 <= j -> ~ f j -> view (det_local x') j = view (det_local x) j }.

Lemma quiet_trans (f h k : Z -> Prop) x y z :
  quiet f x y -> quiet h y z -> (forall j, f j \/ h j -> k j) -> quiet k x z.
Proof.
  intros [] [] Hk. split; try congruence; try done. intros j Hj Hn.
  rewrite q_view1, q_view0 by (done || intros ?; apply Hn, Hk; tauto). done.
Qed.

(** Updating all that is remembered of one machine. *)
Definition sets (loc : cg_local) (j a b : Z) (c : bool) (e : Z) : cg_local :=
  CgLocal (setZ (os_gen_ids_snapshot loc) j a) (setZ (heartbeats_seen loc) j b) (my_osii loc)
    (setZ (os_live loc) j c) (setZ (timeout_times loc) j e).

Lemma loc_wf_sets loc j a b c e :
  loc_wf loc -> loc_wf (sets loc j a b c e).
Proof. intros []. split; cbn; unfold setZ; by rewrite length_insert. Qed.

Lemma view_sets loc j k a b c e :
  loc_wf loc -> 0 <= j < MAX_MACHINES -> 0 <= k ->
  view (sets loc j a b c e) k = if j =? k then (a, b, c, e) else view loc k.
Proof.
  intros [L1 L2 L3 L4] Hj Hk. unfold view, MAX_MACHINES in *. cbn.
  rewrite !getZ_setZ by lia. by destruct (j =? k).
Qed.

(** Setting an element to what it is. *)
Lemma setZ_id {A} (dft : A) l j : 0 <= j < Z.of_nat (length l) -> setZ l j (getZ dft l j) = l.
Proof.
  intros Hj. unfold setZ, getZ. destruct (lookup_lt_is_Some_2 l (Z.to_nat j)) as [x Hx]; [lia|].
  rewrite Hx. by apply list_insert_id.
Qed.

Lemma setZ_setZ {A} (l : list A) j x y : setZ (setZ l j x) j y = setZ l j y.
Proof. unfold setZ. apply list_insert_insert_eq. Qed.

Definition with_local (x : detector) (loc : cg_local) : detector :=
  Detector (det_meta x) loc (det_shm x) (det_msg x) (det_sent x).

Lemma quiet_sets x j a b c e :
  loc_wf (det_local x) -> 0 <= j < MAX_MACHINES ->
  quiet (fun k => k = j) x (with_local x (sets (det_local x) j a b c e)).
Proof.
  intros L Hj. split; try done; cbn [det_local with_local]; [by apply loc_wf_sets|].
  intros k Hk Hn. rewrite view_sets by done. by destruct (Z.eqb_spec j k); [subst k|].
Qed.

Lemma quiet_weaken (f h : Z -> Prop) x y : quiet f x y -> (forall j, f j -> h j) -> quiet h x y.
Proof. intros [] Hk. split; auto. Qed.

Section Machine.
Context (g : granularity) (nr cpu ms : Z) (d : meta_dram).

(** One iteration, as an update of what is remembered of the machine. *)
Lemma detect_one_eq x j snap seen live t :
  loc_wf (det_local x) -> 0 <= j < MAX_MACHINES -> view (det_local x) j = (snap, seen, live, t) ->
  let beat := getZ 0 (os_heartbeats (det_meta x)) j in
  (seen <> beat -> detect_one g nr cpu d ms j x = Ret (with_local x (sets (det_local x) j snap beat true 0))) /\
  (seen = beat -> t = 0 -> detect_one g nr cpu d ms j x = Ret (with_local x (sets (det_local x) j snap seen live 1))) /\
  (seen = beat -> 0 < t < 2 ^ 64 - 1 -> forall x',
    (if live then help_dead g nr cpu d ms j (with_local x (sets (det_local x) j snap seen live (t + 1)))
     else Ret (with_local x (sets (det_local x) j snap seen live (t + 1)))) = Ret x' ->
    det_local x' = sets (det_local x) j snap seen live (t + 1) ->
    detect_one g nr cpu d ms j x =
      Ret (with_local x' (sets (det_local x) j (get_os_gen_id (det_meta x') j) seen false 0))).
Proof.
  intros [L1 L2 L3 L4] Hj Hv beat. injection Hv as <- <- <- <-. unfold detect_one. cbv zeta. fold beat.
  unfold MAX_MACHINES in *. unfold with_local, sets. rewrite Z.geb_leb.
  rewrite !(setZ_id 0 (os_gen_ids_snapshot (det_local x))), !(setZ_id 0 (heartbeats_seen (det_local x))),
    !(setZ_id false (os_live (det_local x))) by lia.
  split_and!; [intros Hb|intros Hb H0|intros Hb H0 x' Hx Hl].
  - by rewrite (proj2 (Z.eqb_neq _ _) Hb).
  - by rewrite Hb, Z.eqb_refl, H0.
  - rewrite (proj2 (Z.eqb_eq _ _) Hb). cbn [negb]. rewrite u64_small by lia.
    rewrite (proj2 (Z.leb_le 2 (getZ 0 (timeout_times (det_local x)) j + 1))) by lia. cbn [os_live].
    rewrite Hx. cbn [obind]. rewrite Hl. cbn [os_gen_ids_snapshot heartbeats_seen my_osii os_live timeout_times].
    by rewrite setZ_setZ.
Qed.

Lemma detect_loop_app k n lo x :
  detect_loop g nr cpu (k + n) d ms lo x =
  let! y := detect_loop g nr cpu k d ms lo x in detect_loop g nr cpu n d ms (lo + Z.of_nat k) y.
Proof.
  revert lo x. induction k as [|k IH]; intros lo x; cbn [Nat.add detect_loop]; [by rewrite Z.add_0_r|].
  destruct (detect_one g nr cpu d ms lo x) as [y|]; cbn [obind]; [|done].
  rewrite IH. by replace (lo + 1 + Z.of_nat k) with (lo + Z.of_nat (S k)) by lia.
Qed.

(** Machines that beat. *)
Definition beating (x : detector) (j : Z) : Prop :=
  getZ 0 (heartbeats_seen (det_local x)) j <> getZ 0 (os_heartbeats (det_meta x)) j.

Lemma quiet_beating (f : Z -> Prop) x y j : quiet f x y -> 0 <= j -> ~ f j -> beating x j -> beating y j.
Proof.
  intros Q Hj Hn. pose proof (q_view _ _ _ Q j Hj Hn) as [= _ Hs _ _]. unfold beating.
  by rewrite Hs, (q_meta _ _ _ Q).
Qed.

Lemma detect_beating n lo x :
  loc_wf (det_local x) -> 0 <= lo -> lo + Z.of_nat n <= MAX_MACHINES ->
  (forall j, lo <= j < lo + Z.of_nat n -> beating x j) ->
  exists x', detect_loop g nr cpu n d ms lo x = Ret x' /\ quiet (fun k => lo <= k < lo + Z.of_nat n) x x' /\
    forall j, lo <= j < lo + Z.of_nat n -> getZ false (os_live (det_local x')) j = true.
Proof.
  revert lo x. induction n as [|n IH]; intros lo x L Hlo Hn Hb.
  - exists x. split; [done|]. split; [by split|lia].
  - cbn [detect_loop]. destruct (detect_one_eq x lo _ _ _ _ L ltac:(lia) eq_refl) as [E _].
    rewrite (E (Hb lo ltac:(lia))). cbn [obind].
    set (y := with_local x _). pose proof (quiet_sets x lo (getZ 0 (os_gen_ids_snapshot (det_local x)) lo)
      (getZ 0 (os_heartbeats (det_meta x)) lo) true 0 L ltac:(lia)) as Q. fold y in Q.
    destruct (IH (lo + 1) y (q_wf _ _ _ Q)) as (x' & E' & Q' & Hl); [lia..| |].
    { intros j Hj. apply (quiet_beating _ x y j Q); [lia..|apply Hb; lia]. }
    exists x'. split; [done|]. split; [apply (quiet_trans _ _ _ _ _ _ Q Q'); intros j; lia|].
    intros j Hj. destruct (decide (j = lo)) as [->|Hne]; [|apply Hl; lia].
    assert (Hv : view (det_local x') lo = view (det_local y) lo) by (apply (q_view _ _ _ Q'); lia).
    unfold y in Hv. cbn [det_local with_local] in Hv. rewrite view_sets, Z.eqb_refl in Hv by (done || lia).
    by injection Hv.
Qed.
(** A pass in which one machine is silent. *)
Lemma detect_pass total i x (P : detector -> detector -> Prop) :
  loc_wf (det_local x) -> 0 <= i < total -> total <= MAX_MACHINES ->
  (forall j, 0 <= j < total -> j <> i -> beating x j) ->
  (forall y, quiet (fun k => 0 <= k < i) x y ->
    exists z, detect_one g nr cpu d ms i y = Ret z /\ P y z /\ loc_wf (det_local z) /\
      forall j, i < j -> beating y j -> beating z j) ->
  exists y z x', quiet (fun k => 0 <= k < i) x y /\ P y z /\ quiet (fun k => i < k) z x' /\
    detect_loop g nr cpu (Z.to_nat total) d ms 0 x = Ret x'.
Proof.
  intros L Hi Ht Hb Hz. set (k := Z.to_nat i). set (n := Z.to_nat (total - i - 1)).
  replace (Z.to_nat total) with (k + S n)%nat by lia. rewrite detect_loop_app.
  destruct (detect_beating k 0 x L) as (y & -> & Q & _); [lia..|intros j Hj; apply Hb; lia|]. cbn [obind detect_loop].
  assert (Q' : quiet (fun k => 0 <= k < i) x y) by (apply (quiet_weaken _ _ _ _ Q); intros j; lia).
  replace (0 + Z.of_nat k) with i by lia. destruct (Hz y Q') as (z & -> & HP & Lz & Hbz). cbn [obind].
  destruct (detect_beating n (i + 1) z Lz) as (x' & E & Qx & _); [lia..| |].
  { intros j Hj. apply Hbz; [lia|]. apply (quiet_beating _ x y j Q'); [lia..|apply Hb; lia]. }
  exists y, z, x'. split; [done|]. split; [done|]. split; [|done]. apply (quiet_weaken _ _ _ _ Qx). intros j. lia.
Qed.
End Machine.

(** ** A pass *)

Definition beat (m : cxlcg_meta) (loc : cg_local) : cxlcg_meta :=
  let os_id := GET_OS_ID (my_osii loc) in
  set_beats m (setZ (os_heartbeats m) (os_id - 1) (u32 (getZ 0 (os_heartbeats m) (os_id - 1) + 1))).

Definition bump_gen (m : cxlcg_meta) (i : Z) : cxlcg_meta :=
  set_gens m (setZ (os_generation_ids m) i (u32 (get_os_gen_id m i + 1))).

Definition gens_ok (m : cxlcg_meta) : Prop := Forall is_gen (os_generation_ids m).

Lemma gen_in m j : gens_ok m -> is_gen (get_os_gen_id m j).
Proof.
  intros H. unfold get_os_gen_id, getZ. destruct (os_generation_ids m !! Z.to_nat j) eqn:E; cbn.
  - by eapply Forall_lookup_1 in E.
  - unfold is_gen. lia.
Qed.

Lemma bump_ok m i : gens_ok m -> gens_ok (bump_gen m i).
Proof.
  intros H. apply Forall_insert; [exact H|]. unfold is_gen. apply Z.mod_pos_bound. lia.
Qed.

Lemma failure_message i snap :
  0 <= i < MAX_MACHINES -> is_gen snap ->
  SET_MSG_TYPE (SET_GEN_ID (SET_OS_ID 0 (i + 1)) snap) MSG_TYPE_OS_FAILURE = word 0 (i + 1) 0 snap.
Proof.
  unfold MAX_MACHINES, is_gen. intros Hi Hs. rewrite new_identity by lia.
  destruct (set_fields 0 (i + 1) 0 snap 0) as (_ & _ & _ & H); [unfold fields_ok; lia|]. apply H. lia.
Qed.

Section Pass.
Context (g : granularity) (nr cpu ms i p q n : Z) (d : meta_dram) (es : list log_entry).

Lemma help_dead_ok x :
  died_committed g nr ms i q n es (det_shm x) -> survivor nr cpu p d -> gens_ok (det_meta x) ->
  0 <= i < MAX_MACHINES -> det_msg x = 0 -> is_gen (getZ 0 (os_gen_ids_snapshot (det_local x)) i) ->
  exists s', completed g ms es (det_shm x) s' /\
    let msg := word 0 (i + 1) 0 (getZ 0 (os_gen_ids_snapshot (det_local x)) i) in
    help_dead g nr cpu d ms i x =
      Ret (Detector (bump_gen (det_meta x) i) (det_local x) s' msg (det_sent x ++ [msg])).
Proof.
  intros D Hs Hg Hi Hm Hsn. unfold help_dead. cbv zeta. rewrite Hm, failure_message by done.
  change (set_gens _ _) with (bump_gen (det_meta x) i).
  destruct (take_lock g nr cpu ms i p q n d es (det_shm x) (get_os_gen_id (bump_gen (det_meta x) i) (machine_id d - 1))
    D Hs (gen_in _ _ (bump_ok _ i Hg))) as [w ->]. cbn [obind].
  destruct (help_completes g nr cpu ms i p q n d es (det_shm x) w D Hs) as (s1 & s' & E1 & E2 & C).
  rewrite E1. cbn [obind fst]. rewrite E2. cbn [obind]. by exists s'.
Qed.

(** What a pass does with the silent machine. *)
Definition pass_result (snap seen : Z) (live : bool) (t : Z) (m : cxlcg_meta) (s : shm) (x : detector) : Prop :=
  if live && (1 <=? t) then
    det_meta x = bump_gen m i /\ completed g ms es s (det_shm x) /\
    det_sent x = [word 0 (i + 1) 0 snap] /\ view (det_local x) i = (get_os_gen_id (bump_gen m i) i, seen, false, 0)
  else
    det_meta x = m /\ det_shm x = s /\ det_sent x = [] /\
    view (det_local x) i = if t =? 0 then (snap, seen, live, 1) else (get_os_gen_id m i, seen, false, 0).

Lemma detect_silent y snap seen live t :
  loc_wf (det_local y) -> 0 <= i < MAX_MACHINES -> view (det_local y) i = (snap, seen, live, t) -> 0 <= t < 2 ^ 64 - 1 ->
  seen = getZ 0 (os_heartbeats (det_meta y)) i -> survivor nr cpu p d -> gens_ok (det_meta y) -> is_gen snap ->
  (live && (1 <=? t) = true -> died_committed g nr ms i q n es (det_shm y)) -> det_msg y = 0 -> det_sent y = [] ->
  exists z, detect_one g nr cpu d ms i y = Ret z /\
    pass_result snap seen live t (det_meta y) (det_shm y) z /\ loc_wf (det_local z) /\
    forall j, i < j -> beating y j -> beating z j.
Proof.
  intros L Hi Hv Ht Hb Hs Hg Hsn D Hm H0.
  destruct (detect_one_eq g nr cpu ms d y i snap seen live t L Hi Hv) as (_ & E2 & E3).
  assert (B : forall h a b c e, os_heartbeats (det_meta h) = os_heartbeats (det_meta y) ->
    forall j, i < j -> beating y j -> beating (with_local h (sets (det_local y) i a b c e)) j).
  { intros h a b c e Hh j Hj. unfold beating. cbn [with_local det_local det_meta]. rewrite Hh.
    pose proof (view_sets (det_local y) i j a b c e L Hi ltac:(lia)) as V.
    rewrite (proj2 (Z.eqb_neq i j)) in V by lia.
    assert (getZ 0 (heartbeats_seen (sets (det_local y) i a b c e)) j = getZ 0 (heartbeats_seen (det_local y)) j) as ->
      by (by injection V). done. }
  unfold pass_result. destruct (Z.eqb_spec t 0) as [->|Hn].
  - rewrite andb_false_r. eexists. split; [exact (E2 Hb eq_refl)|].
    split; [|split; [by apply loc_wf_sets|by apply B]].
    cbn [with_local det_meta det_shm det_sent det_local]. rewrite view_sets, Z.eqb_refl by (done || lia). done.
  - rewrite (proj2 (Z.leb_le 1 t)) in * by lia. rewrite andb_true_r in *. destruct live.
    + set (x1 := with_local y (sets (det_local y) i snap seen true (t + 1))) in *.
      assert (Hs1 : getZ 0 (os_gen_ids_snapshot (det_local x1)) i = snap).
      { pose proof (view_sets (det_local y) i i snap seen true (t + 1) L Hi ltac:(lia)) as V.
        rewrite Z.eqb_refl in V. by injection V. }
      destruct (help_dead_ok x1 (D eq_refl) Hs Hg Hi Hm) as (s' & C & Eh); [by rewrite Hs1|].
      cbv zeta in Eh. rewrite Hs1 in Eh. change (det_sent x1) with (det_sent y) in Eh. rewrite H0 in Eh.
      eexists. split; [exact (E3 Hb ltac:(lia) _ Eh eq_refl)|]. split; [|split; [by apply loc_wf_sets|by apply B]].
      cbn [with_local det_meta det_shm det_sent det_local]. rewrite view_sets, Z.eqb_refl by (done || lia). done.
    + eexists. split; [exact (E3 Hb ltac:(lia) _ eq_refl eq_refl)|]. split; [|split; [by apply loc_wf_sets|by apply B]].
      cbn [with_local det_meta det_shm det_sent det_local]. rewrite view_sets, Z.eqb_refl by (done || lia). done.
Qed.
End Pass.

(** C11. A pass of the failure detector in which all machines but [i + 1] beat:
    the first pass without a heartbeat only counts; the next one, if the machine
    was believed alive, starts a new generation for it, sends exactly one failure
    message with the generation that died, completes the transaction it had
    committed and frees the metadata lock; a machine already declared dead causes
    no message and no change of the shared state. *)
Theorem os_failure_detection_correct (g : granularity) (nr cpu ms i p q n total : Z) (d : meta_dram)
  (es : list log_entry) (m : cxlcg_meta) (loc : cg_local) (s : shm) (snap seen t : Z) (live : bool) :
  loc_wf loc -> gens_ok m -> survivor nr cpu p d -> GET_OS_ID (my_osii loc) <> 0 ->
  0 <= i < total -> total <= MAX_MACHINES ->
  view loc i = (snap, seen, live, t) -> is_gen snap -> 0 <= t < 2 ^ 64 - 1 ->
  seen = getZ 0 (os_heartbeats (beat m loc)) i ->
  (forall j, 0 <= j < total -> j <> i -> getZ 0 (heartbeats_seen loc) j <> getZ 0 (os_heartbeats (beat m loc)) j) ->
  (live && (1 <=? t) = true -> died_committed g nr ms i q n es s) ->
  exists x, do_os_failure_detection g nr cpu false total d ms m loc s = Ret x /\
    pass_result g ms i es snap seen live t (beat m loc) s x.
Proof.
  intros L Hg Hs Ho Hi Ht Hv Hsn Hr Hb Hj D. unfold do_os_failure_detection, bug_on.
  rewrite (proj2 (Z.eqb_neq _ _) Ho). cbv zeta. change (set_beats m _) with (beat m loc).
  destruct (detect_pass g nr cpu ms d total i (Detector (beat m loc) loc s 0 [])
    (fun y z => pass_result g ms i es snap seen live t (beat m loc) s z)) as (y & z & x & _ & R & Q & E); [done..| |].
  - intros y [Em Es Emsg Ese _ Ly Vy]. cbn [det_meta det_shm det_msg det_sent det_local] in *. rewrite <- Em, <- Es.
    apply (detect_silent g nr cpu ms i p q n d es y); rewrite ?Em, ?Es; try done; [lia|]. rewrite Vy by lia. exact Hv.
  - exists x. split; [exact E|]. destruct Q as [Em Es _ Ese _ _ Vx]. unfold pass_result in *.
    rewrite Em, Es, Ese, Vx by lia. exact R.
Qed.

(** ** Example: machine 2 stops with a committed transaction, machine 1 helps *)

Definition sixteen {A} (x y z : A) : list A := x :: y :: replicate 14 z.
Definition example_groups : cxlcg_meta :=
  CxlcgMeta [] (sixteen 3 8 0) (sixteen 10 20 0) (word 0 1 0 3) 0.
Definition example_watch : cg_local :=
  CgLocal (sixteen 3 8 0) (sixteen 10 20 0) (word 0 1 0 3) (sixteen true true true) (sixteen 0 1 0).
Definition held_shm : shm := Shm (store64 example_log (100 + META_LOCK_OFF) (lock_val 5 8)) example_buddy 0.

Lemma example_died : died_committed BYTE_GRANULAR 4 100 1 5 8 example_entries held_shm.
Proof.
  assert (Hn : Z.of_nat (length example_entries) < REDOLOG_ENTRIES) by reflexivity.
  split; [apply example_entries_wf|lia|exact Hn|apply example_entries_spare|reflexivity|
    |vm_compute; reflexivity|reflexivity|unfold is_proc; lia|unfold is_gen; lia].
  destruct (commit_log_spec example_entries ∅ 100 example_entries_wf ltac:(lia) Hn) as (m1 & E & Hc & _).
  assert (Hm : example_log = m1) by (unfold example_log; rewrite E; reflexivity).
  apply (committed_ext m1); [apply example_entries_wf|lia|exact Hn| |exact Hc].
  intros a Ha. unfold held_shm. cbn [mem]. rewrite Hm. symmetry. apply (rd_store_out _ _ 8).
  unfold entry_at, sizeof_log_entry, REDOLOG_ENTRIES, META_LOCK_OFF in *. lia.
Qed.

Lemma os_failure_detection_correct_witness :
  exists x, do_os_failure_detection BYTE_GRANULAR 4 1 false 2 (MetaDram 0 65536 1) 100 example_groups example_watch held_shm
            = Ret x /\
    pass_result BYTE_GRANULAR 100 1 example_entries 8 20 true 1 (beat example_groups example_watch) held_shm x.
Proof.
  apply (os_failure_detection_correct BYTE_GRANULAR 4 1 100 1 1 5 8 2 (MetaDram 0 65536 1) example_entries
    example_groups example_watch held_shm 8 20 1 true).
  - split; reflexivity.
  - repeat (constructor; [unfold is_gen; lia|]). constructor.
  - split; [cbn; lia|]. split; [reflexivity|unfold is_proc; lia].
  - vm_compute. discriminate.
  - lia.
  - unfold MAX_MACHINES. lia.
  - reflexivity.
  - unfold is_gen. lia.
  - lia.
  - vm_compute. reflexivity.
  - intros j Hj Hn. assert (j = 0) as -> by lia. vm_compute. discriminate.
  - intros _. exact example_died.
Defined.
