(* ===== verification/MetaInit.v ===== *)
(** Creating and recovering the metadata of the shared region: the
    metashmem_* functions, vcxl_init_meta_impl, recover_meta and
    assign_meta_info of src/driver/src/buddy_alloc.c.

    From its start the region holds the futex queues, the first block of object
    records, the queues of process deaths and the table of process groups; the
    rest is the arena, with struct meta_shmem embedded at its end. *)
From Stdlib Require Import ZArith Lia Bool.
From stdpp Require Import base list gmap numbers.
From S2P Require Import Prelude Bitset Checksum Redo BuddyTree BuddyInv PowerOfTwo BuddyAlloc BuddyAllocSpec ShmemLog LogSpec ListQueue PersistCas TatasLock MetaAlloc MetaSpec CircularQueue Cgroup CgroupSpec FailureDetect.
Local Open Scope Z_scope.
Local Open Scope lupin_scope.

Definition BUDDY_ALLOC_ALIGNMENT : Z := 4096.
Definition CXLCG_META_SIZE : Z := 40960.

(** ** Where the metadata goes *)

Definition metashmem_sizeof_alignment (memory_size alignment : Z) : Z :=
  if negb (is_valid_alignment alignment) then 0
  else if memory_size <? alignment then 0
  else
    let buddy_tree_order := buddy_tree_order_for_memory memory_size alignment in
    u64 (sizeof_struct_meta_shmem + buddy_tree_sizeof (u8 buddy_tree_order)).

Definition metashmem_embed_offset (memory_size alignment : Z) : buddy_embed_check :=
  let meta_size := metashmem_sizeof_alignment memory_size alignment in
  if (meta_size >=? memory_size) || (meta_size =? 0) then EmbedCheck false 0 0
  else
    let off := u64 (memory_size - meta_size) in
    let '(meta_size, fit, off) :=
      if negb (off mod alignof_struct_meta_shmem =? 0) then
        let meta_size := u64 (meta_size + off mod alignof_struct_meta_shmem) in
        (meta_size, negb (meta_size >=? memory_size), u64 (memory_size - meta_size))
      else (meta_size, true, off) in
    if fit then EmbedCheck true off meta_size else EmbedCheck false 0 0.

(** ** Creation *)

Section Init.
Context (g : granularity).

Definition meta_lock_init (m : bytes) (ms : Z) : bytes :=
  store64 m (ms + META_LOCK_OFF) (ttas_init g (load64 m (ms + META_LOCK_OFF))).

(** struct meta_shmem at the address [at_]; the memory is addressed from
    [mem_start], and struct buddy is the value returned. *)
Definition metashmem_init_alignment (m : bytes) (mem_start at_ main memory_size alignment : Z)
  : option (bytes * buddy) :=
  if at_ =? NULL then None
  else if main =? NULL then None
  else if at_ =? main then None
  else if negb (is_valid_alignment alignment) then None
  else if truthy (at_ mod alignof_struct_meta_shmem) then None
  else if truthy (main mod sizeof_size_t) then None
  else
    let memory_size :=
      if truthy (memory_size mod alignment) then memory_size - memory_size mod alignment else memory_size in
    if memory_size <? alignment then None
    else
      let buddy_tree_order := buddy_tree_order_for_memory memory_size alignment in
      let m := meta_lock_init m (at_ - mem_start) in
      let b := Buddy memory_size alignment main 0 (fst (buddy_tree_init (u8 buddy_tree_order)))
                 (at_ + BUDDY_ALLOC_OFF) in
      Some (m, buddy_toggle_virtual_slots b true).

(** The memory, the offset of struct meta_shmem and the allocator. *)
Definition metashmem_embed_alignment (m : bytes) (mem_start main memory_size alignment : Z)
  : option (bytes * Z * buddy) :=
  if main =? NULL then None
  else if negb (is_valid_alignment alignment) then None
  else
    let result := metashmem_embed_offset memory_size alignment in
    if negb (can_fit result) then None
    else
      let at_ := main + offset result in
      let ms := at_ - mem_start in
      let m := memset m ms 0 (Z.to_nat (buddy_size result)) in
      match metashmem_init_alignment m mem_start at_ main (offset result) alignment with
      | None => None
      | Some (m, b) =>
          let b := Buddy (BuddyAlloc.memory_size b) (BuddyAlloc.alignment b) (self b - main)
                     (Z.lor (buddy_flags b) BUDDY_RELATIVE_MODE) (tree b) (self b) in
          let m := store64 m (ms + OBJ_HEADERS_Q_OFF) SHMEM_OPTR_NULL in
          let m := store64 m (ms + OBJ_HEADERS_Q_OFF + 8) SHMEM_OPTR_NULL in
          let m := memset m (ms + REDOLOG_OFF) 0 (Z.to_nat (sizeof_log_entry * REDOLOG_ENTRIES)) in
          Some (m, ms, b)
      end.

(** [for (i = 0; i < VCXL_MAX_SUPPORTED_MACHINES; i++)]: both queues of each machine. *)
Definition init_queues (m : bytes) : bytes :=
  fold_left (fun m i =>
      let m := init_circular_queue g m (Some (i * circular_queue_size)) in
      init_circular_queue g m (Some (FUTEX_ADDR_QUEUE_SIZE + OBJ_ALLOC_RECS_SIZE + i * circular_queue_size)))
    (seqZ 0 VCXL_MAX_SUPPORTED_MACHINES) m.

(** The state the driver has after [vcxl_init_meta_impl]: the region, the groups
    and this machine's view of them, and where struct meta_shmem is. *)
Record region_state := RegionState { rs_shm : shm; rs_groups : cxlcg_meta; rs_local : cg_local; rs_ms : Z }.

(** The error code, or the state.  The null pointer of a failed
    [metashmem_embed_alignment] is dereferenced. *)
Definition vcxl_init_meta_impl (m : bytes) (d : meta_dram) (loc : cg_local) : outcome (Z + region_state) :=
  let total_reserved := FUTEX_ADDR_QUEUE_SIZE + OBJ_ALLOC_RECS_SIZE + PROC_DEATH_NOTIFICATION_SIZE + CXLCG_META_SIZE in
  let total_circular_queue_size := VCXL_MAX_SUPPORTED_MACHINES * circular_queue_size in
  if total_circular_queue_size >? FUTEX_ADDR_QUEUE_SIZE then Ret (inl (- EINVAL))
  else if total_circular_queue_size >? PROC_DEATH_NOTIFICATION_SIZE then Ret (inl (- EINVAL))
  else
    let m := init_queues m in
    let (groups, loc) := init_cxlcg_meta g (machine_id d) loc in
    let obj_alloc_recs := FUTEX_ADDR_QUEUE_SIZE in
    let m := init_obj_allocation_records m obj_alloc_recs in
    match metashmem_embed_alignment m (mem_start d) (mem_start d + total_reserved) (u64 (mem_length d - total_reserved))
            BUDDY_ALLOC_ALIGNMENT with
    | None => Bug
    | Some (m, ms, b) =>
        let first := shmem_optr_from_ptr (mem_start d) (mem_start d + obj_alloc_recs) in
        let m := store64 m (ms + OBJ_ALLOCS_Q_OFF) first in
        let m := store64 m (ms + OBJ_ALLOCS_Q_OFF + 8) (load64 m (ms + OBJ_ALLOCS_Q_OFF)) in
        Ret (inr (RegionState (Shm m b obj_alloc_recs) groups loc ms))
    end.
End Init.

Record meta_info := MetaInfo {
  mi_alignment : Z; mi_buddy_flags : Z; mi_buddy_struct_offset : Z; mi_mem_size : Z }.

Definition assign_meta_info (s : shm) (meta_shmem : Z) : meta_info :=
  let b := alloc s in
  MetaInfo (alignment b) (buddy_flags b) meta_shmem (memory_size b).

(** ** Recovery *)

(** [while (obj_hdr != NULL)]: the walk that prints the objects; it only matters
    that it ends. *)
Fixpoint walk_headers (fuel : nat) (m : bytes) (obj_hdr : option Z) : option unit :=
  match fuel with
  | O => None
  | S k =>
      match obj_hdr with
      | None => Some ()
      | Some h => if shmem_optr_is_null (load64 m (h + LE_NEXT_OFF)) then Some () else walk_headers k m (next_obj_header m h)
      end
  end.

Definition print_allocation (fuel : nat) (m : bytes) (ms : Z) : option unit :=
  walk_headers fuel m (obj_header_head m ms).

(** The first record block with a free slot; 0 when there is none. *)
Fixpoint find_recs (fuel : nat) (m : bytes) (recs : option Z) : option Z :=
  match fuel with
  | O => None
  | S k =>
      match recs with
      | None => Some 0
      | Some r =>
          if negb (load16 m (r + AVAILABLE_SLOTS_OFF) =? 0) then Some r
          else if shmem_optr_is_null (load64 m (r + LE_NEXT_OFF)) then Some 0
          else find_recs k m (next_obj_allocation_records m r)
      end
  end.

Section Recover.
Context (g : granularity) (nr_cpu_ids cpu_id : Z).

(** The part under the metadata lock; [None] is a walk longer than its fuel. *)
Definition recover_locked (fuel : nat) (s : shm) (d : meta_dram) (ms : Z) : option (outcome (shm * Z)) :=
  match recover_with_redolog (ms + REDOLOG_OFF) s with
  | Bug => Some Bug
  | Ret (s, ret) =>
      if negb (ret =? 0) then
        Some (let! s := meta_unlock g nr_cpu_ids cpu_id s d ms in Ret (s, - ret))
      else
        match walk_headers fuel (mem s) (obj_header_head (mem s) ms) with
        | None => None
        | Some _ =>
            match find_recs fuel (mem s) (obj_alloc_recs_head (mem s) ms) with
            | None => None
            | Some cur =>
                Some (let! s := meta_unlock g nr_cpu_ids cpu_id (Shm (mem s) (alloc s) cur) d ms in Ret (s, 0))
            end
        end
  end.

(** The error code and the state; [Ret None] while another processor holds a lock
    or when a walk exceeds its fuel. *)
Definition recover_meta (fuel : nat) (s : shm) (groups : cxlcg_meta) (loc : cg_local) (d : meta_dram)
  : outcome (option (region_state * Z)) :=
  let total_reserved := FUTEX_ADDR_QUEUE_SIZE + OBJ_ALLOC_RECS_SIZE + PROC_DEATH_NOTIFICATION_SIZE in
  let! o := recover_cxlcg_meta g nr_cpu_ids cpu_id groups (machine_id d) loc in
  match o with
  | None => Ret None
  | Some (groups, loc) =>
      let memory_size := u64 (mem_length d - total_reserved) in
      let result := metashmem_embed_offset memory_size BUDDY_ALLOC_ALIGNMENT in
      if negb (can_fit result) then Ret (Some (RegionState s groups loc 0, - EFAULT))
      else
        let ms := total_reserved + offset result in
        let gen_id := get_os_gen_id groups (machine_id d - 1) in
        let! r := meta_lock_recover g nr_cpu_ids cpu_id gen_id s d ms (machine_id d) in
        let! o := match r with
                  | (TRANSFERED, s) => Ret (Some s)
                  | (_, s) => meta_lock g nr_cpu_ids cpu_id gen_id s d ms
                  end in
        match o with
        | None => Ret None
        | Some s =>
            match recover_locked fuel s d ms with
            | None => Ret None
            | Some k => let! r := k in Ret (Some (RegionState (fst r) groups loc ms, snd r))
            end
        end
  end.
End Recover.

(** ** Bounds of the layout *)

Lemma order_for_memory_range ms a :
  0 <= a <= 62 -> 2 ^ a <= ms <= 2 ^ 62 -> ms / 2 ^ a <= 2 ^ 30 ->
  buddy_tree_order_for_memory ms (2 ^ a) = Z.log2_up (ms / 2 ^ a) + 1 /\ 1 <= Z.log2_up (ms / 2 ^ a) + 1 <= 31.
Proof.
  intros Ha Hms Hk. destruct (buddy_sizeof_nonzero ms a Ha Hms Hk) as (_ & _ & Ho).
  split; [apply order_for_memory_eq; lia|done].
Qed.

(** The tree takes about a bit and a half for every slot. *)
Lemma tree_sizeof_bound n :
  1 <= n <= 31 -> 24 <= buddy_tree_sizeof n <= 2 ^ n / 4 + 8 * n + 56.
Proof.
  intros Hn. unfold buddy_tree_sizeof, padded_bitset_size, bitset_sizeof, sizeof_struct_buddy_tree, sizeof_size_t, CHAR_BIT.
  rewrite size_for_order_eq by lia. pose proof (row_start_range n 0 ltac:(lia)) as Hr.
  assert (Hrow : row_start n 0 = 2 * 2 ^ n - (n + 2)) by (unfold row_start; rewrite Z.sub_0_r; lia).
  pose proof (pow2_mono n 31 ltac:(lia)) as Hp. change (2 ^ 31) with 2147483648 in Hp.
  set (w := 2 ^ n) in *. set (r := row_start n 0) in *. clearbody w r.
  rewrite (u64_small (r + 8 - 1)) by lia.
  assert (Hx : 0 <= (r + 8 - 1) / 8 <= w / 4 + 1) by (Z.div_mod_to_equations; lia).
  set (x := (r + 8 - 1) / 8) in *. clearbody x.
  assert (w / 4 <= 2147483648) by (Z.div_mod_to_equations; lia).
  pose proof (Z.mod_pos_bound x 8 ltac:(lia)).
  destruct (truthy (x mod 8)); rewrite ?(u64_small (x + _)) by lia; rewrite u64_small; lia.
Qed.

(** The size of the metadata with its padding: it depends on the order of the
    tree and on the length modulo 8. *)
Definition meta_room (N : Z) : Z :=
  let sz := sizeof_struct_meta_shmem + buddy_tree_sizeof (buddy_tree_order_for_memory N BUDDY_ALLOC_ALIGNMENT) in
  sz + (N - sz) mod 8.

(** Where the metadata of a region goes: at its end, behind at least one slot. *)
Lemma embed_offset_bounds N M :
  8192 <= N <= 2 ^ 42 -> M = meta_room N ->
  metashmem_embed_offset N BUDDY_ALLOC_ALIGNMENT = EmbedCheck true (N - M) M /\
    (N - M) mod 8 = 0 /\ sizeof_struct_meta_shmem <= M /\ 4096 <= N - M.
Proof.
  intros HN ->. unfold meta_room, metashmem_embed_offset, metashmem_sizeof_alignment, BUDDY_ALLOC_ALIGNMENT.
  change 4096 with (2 ^ 12). assert (HK : 2 <= N / 2 ^ 12 <= 2 ^ 30) by (Z.div_mod_to_equations; lia).
  destruct (order_for_memory_range N 12) as [Ho Hn]; [lia|lia|lia|]. rewrite Ho. rewrite u8_small by lia.
  change (is_valid_alignment (2 ^ 12)) with true. cbn [negb]. destruct (Z.ltb_spec N (2 ^ 12)); [lia|].
  set (K := N / 2 ^ 12) in *. set (n := Z.log2_up K + 1) in *.
  pose proof (tree_sizeof_bound n Hn) as Hs. set (sz := buddy_tree_sizeof n) in *. clearbody sz.
  assert (Hw : 2 ^ n <= 4 * K).
  { unfold n. rewrite Z.pow_add_r by (pose proof (Z.log2_up_nonneg K); lia).
    pose proof (Z.log2_up_spec K ltac:(lia)) as [Hlo _]. pose proof (Z.log2_up_pos K ltac:(lia)).
    rewrite <- (Z.succ_pred (Z.log2_up K)), Z.pow_succ_r by lia. lia. }
  assert (Hsz : 24 <= sz <= K + 304) by (Z.div_mod_to_equations; lia).
  assert (HNK : K * 4096 <= N) by (unfold K; Z.div_mod_to_equations; lia).
  unfold sizeof_struct_meta_shmem, alignof_struct_meta_shmem. rewrite (u64_small (632 + sz)) by lia.
  destruct (Z.geb_spec (632 + sz) N); [lia|]. destruct (Z.eqb_spec (632 + sz) 0); [lia|]. cbn [orb].
  rewrite (u64_small (N - (632 + sz))) by lia. pose proof (Z.mod_pos_bound (N - (632 + sz)) 8 ltac:(lia)) as Hmb.
  destruct (Z.eqb_spec ((N - (632 + sz)) mod 8) 0) as [E|E]; cbn [negb].
  - rewrite E, Z.add_0_r. split; [done|]. split; [done|]. lia.
  - rewrite (u64_small (632 + sz + _)) by lia. rewrite (u64_small (N - _)) by lia.
    destruct (Z.geb_spec (632 + sz + (N - (632 + sz)) mod 8) N); [lia|]. cbn [negb].
    split; [reflexivity|]. split; [|lia].
    rewrite Z.sub_add_distr, Zminus_mod_idemp_r, Z.sub_diag. reflexivity.
Qed.

(** ** Frames *)

(** [m'] differs from [m] at most in the [n] bytes from [a]. *)
Definition only (a n : Z) (m m' : bytes) : Prop := forall x, x < a \/ a + n <= x -> rd m' x = rd m x.

Lemma only_trans a n m1 m2 m3 : only a n m1 m2 -> only a n m2 m3 -> only a n m1 m3.
Proof. intros H1 H2 x Hx. rewrite H2, H1 by done. done. Qed.

Lemma only_in a n b k m m' : only a n m m' -> b <= a -> a + n <= b + k -> only b k m m'.
Proof. intros H Hb Hk x Hx. apply H. lia. Qed.

Lemma only_store64 m a v : only a 8 m (store64 m a v).
Proof. intros x Hx. apply rd_store64_out. lia. Qed.

Lemma only_store16 m a v : only a 2 m (store16 m a v).
Proof. intros x Hx. apply (rd_store_out m a 2). lia. Qed.

Lemma only_memset m a v n : only a (Z.of_nat n) m (memset m a v n).
Proof. intros x Hx. rewrite memset_write_bytes. apply rd_write_bytes_out. by rewrite length_replicate. Qed.

Lemma only_load a n m m' b k : only a n m m' -> b + Z.of_nat k <= a \/ a + n <= b -> load m' b k = load m b k.
Proof. intros H Hb. apply load_ext. intros c Hc. apply H. lia. Qed.

Lemma only_bit a n m m' b i : only a n m m' -> b + i / 8 < a \/ a + n <= b + i / 8 -> bit m' b i = bit m b i.
Proof. intros H Hi. unfold bit. by rewrite (H _ Hi). Qed.

(** A loop whose iterations stay in the region stays in it. *)
Lemma only_fold {A} (f : bytes -> A -> bytes) l a n m :
  (forall m x, x ∈ l -> only a n m (f m x)) -> only a n m (fold_left f l m).
Proof.
  revert m. induction l as [|y l IH]; intros m H; cbn [fold_left]; [by intros x Hx|].
  apply (only_trans _ _ _ (f m y)); [apply H; set_solver|]. apply IH. set_solver.
Qed.

(** ** Object records *)

Lemma rd_memset m a n x : a <= x < a + Z.of_nat n -> rd (memset m a 0 n) x = 0.
Proof.
  revert m a. induction n as [|n IH]; intros m a Hx; [lia|]. cbn [memset].
  destruct (Z.eq_dec x a) as [->|]; [|apply IH; lia].
  pose proof (only_memset (wr m a 0) (a + 1) 0 n) as H. rewrite (H a) by lia. by rewrite rd_wr_eq.
Qed.

(** The loop over the headers does not touch the first 64 bytes. *)
Lemma init_headers_only m r :
  only (r + 64) (OBJ_ALLOC_RECS_SIZE - 64) m
    (fold_left (fun m i => store16 m (obj_header_at r i + HDR_SLOT_ID_OFF) i) (seqZ 0 NUM_OBJ_SLOTS) m).
Proof.
  apply only_fold. intros m' i Hi. apply elem_of_seqZ in Hi.
  eapply only_in; [apply only_store16|..]; unfold HDR_SLOT_ID_OFF; meta_consts; lia.
Qed.

Lemma init_records_only m r : only r OBJ_ALLOC_RECS_SIZE m (init_obj_allocation_records m r).
Proof.
  unfold init_obj_allocation_records. eapply only_trans; [|eapply only_in; [apply init_headers_only|lia..]].
  repeat (eapply only_trans; [|eapply only_in; [apply only_store16 || apply only_memset || apply only_store64|..];
    unfold AVAILABLE_SLOTS_OFF, SLOT_BITSET_OFF, LE_NEXT_OFF, LE_PREV_OFF, OBJ_ALLOC_RECS_SIZE, SIZEOF_OBJ_BITSET; lia]).
  by intros x Hx.
Qed.

Lemma init_records_fields m r :
  let m' := init_obj_allocation_records m r in
  load64 m' (r + LE_NEXT_OFF) = 0 /\ load64 m' (r + LE_PREV_OFF) = 0 /\
  load16 m' (r + AVAILABLE_SLOTS_OFF) = NUM_OBJ_SLOTS /\
  forall i, 0 <= i < NUM_OBJ_SLOTS -> bit m' (r + SLOT_BITSET_OFF) i = false.
Proof.
  cbv zeta. unfold init_obj_allocation_records.
  set (m1 := store64 (store64 m _ _) _ _). set (m2 := memset m1 _ _ _). set (m3 := store16 m2 _ _).
  pose proof (init_headers_only m3 r) as H4. set (m4 := fold_left _ _ m3) in *. clearbody m4.
  pose proof (only_store16 m2 (r + AVAILABLE_SLOTS_OFF) NUM_OBJ_SLOTS) as H3. fold m3 in H3.
  pose proof (only_memset m1 (r + SLOT_BITSET_OFF) 0 (Z.to_nat SIZEOF_OBJ_BITSET)) as H2. fold m2 in H2.
  unfold LE_NEXT_OFF, LE_PREV_OFF, AVAILABLE_SLOTS_OFF, SLOT_BITSET_OFF, SIZEOF_OBJ_BITSET, load64, load16 in *.
  rewrite !(only_load _ _ _ _ _ _ H4) by lia. rewrite !(only_load _ _ _ _ _ 8 H3) by lia.
  rewrite !(only_load _ _ _ _ _ 8 H2) by lia. split_and!.
  - unfold m1. change (load ?m ?a 8) with (load64 m a). by rewrite load64_store64_out, load64_store64 by lia.
  - unfold m1. change (load ?m ?a 8) with (load64 m a). by rewrite load64_store64.
  - unfold m3. change (load ?m ?a 2) with (load16 m a). by rewrite load16_store16.
  - intros i Hi. unfold NUM_OBJ_SLOTS in Hi. assert (0 <= i / 8 < 43) by (Z.div_mod_to_equations; lia).
    rewrite (only_bit _ _ _ _ _ _ H4), (only_bit _ _ _ _ _ _ H3) by lia.
    unfold bit, m2. rewrite rd_memset by lia. apply Z.testbit_0_l.
Qed.

(** ** Queues *)

Definition empty_queue (g : granularity) (m : bytes) (q : Z) : Prop := ring m q [] /\ unlocked g m q.

Lemma empty_queue_only g a n m m' q :
  only a n m m' -> q + circular_queue_size <= a \/ a + n <= q -> empty_queue g m q -> empty_queue g m' q.
Proof.
  intros H Hq [(r & Hr & E1 & E2 & Hl & _) U]. unfold empty_queue, ring, unlocked, load64 in *. cq_consts.
  rewrite !(only_load _ _ _ _ _ _ H) by lia. split; [|exact U]. exists r. split_and!; try done; lia || by intros i x Hx.
Qed.

Definition futex_queue (i : Z) : Z := i * circular_queue_size.
Definition death_queue (i : Z) : Z := FUTEX_ADDR_QUEUE_SIZE + OBJ_ALLOC_RECS_SIZE + i * circular_queue_size.

Lemma init_queue_empty g m q : 0 <= q -> empty_queue g (init_circular_queue g m (Some q)) q.
Proof. intros Hq. destruct (init_ring g m q Hq) as (R & U & _). done. Qed.

Lemma init_queue_only g m q : 0 <= q -> only q circular_queue_size m (init_circular_queue g m (Some q)).
Proof. intros Hq. destruct (init_ring g m q Hq) as (_ & _ & F). exact F. Qed.

Ltac region_consts :=
  unfold futex_queue, death_queue, FUTEX_ADDR_QUEUE_SIZE, OBJ_ALLOC_RECS_SIZE, PROC_DEATH_NOTIFICATION_SIZE, CXLCG_META_SIZE,
    circular_queue_size, CQ_DATA_OFF, CQUEUE_SIZE, VCXL_MAX_SUPPORTED_MACHINES in *.

Lemma queues_nonneg i : 0 <= i < 16 -> 0 <= futex_queue i /\ 0 <= death_queue i.
Proof. intros Hi. region_consts. lia. Qed.

Lemma queues_apart i j :
  0 <= i < 16 -> 0 <= j < 16 ->
  (i <> j -> apart (futex_queue j) circular_queue_size (futex_queue i) circular_queue_size /\
             apart (death_queue j) circular_queue_size (death_queue i) circular_queue_size) /\
  apart (futex_queue j) circular_queue_size (death_queue i) circular_queue_size /\
  apart (death_queue j) circular_queue_size (futex_queue i) circular_queue_size.
Proof. intros Hi Hj. unfold apart. region_consts. lia. Qed.

Lemma empty_queue_apart g m q q' :
  0 <= q' -> apart q circular_queue_size q' circular_queue_size -> empty_queue g m q ->
  empty_queue g (init_circular_queue g m (Some q')) q.
Proof. intros Hq Ha H. exact (empty_queue_only _ _ _ _ _ _ (init_queue_only g m q' Hq) Ha H). Qed.

Lemma fold_left_step {A B} (f : A -> B -> A) x l a : fold_left f (x :: l) a = fold_left f l (f a x).
Proof. done. Qed.

(** A loop that initialises two families of disjoint queues. *)
Lemma init_queues_loop g (q1 q2 : Z -> Z) l m j :
  (forall i, i ∈ l -> 0 <= q1 i /\ 0 <= q2 i /\
    (i <> j -> apart (q1 j) circular_queue_size (q1 i) circular_queue_size /\
               apart (q2 j) circular_queue_size (q2 i) circular_queue_size) /\
    apart (q1 j) circular_queue_size (q2 i) circular_queue_size /\
    apart (q2 j) circular_queue_size (q1 i) circular_queue_size) ->
  j ∈ l \/ (empty_queue g m (q1 j) /\ empty_queue g m (q2 j)) ->
  let m' := fold_left (fun m i => init_circular_queue g (init_circular_queue g m (Some (q1 i))) (Some (q2 i))) l m in
  empty_queue g m' (q1 j) /\ empty_queue g m' (q2 j).
Proof.
  cbv zeta. revert m. induction l as [|i l IH]; intros m Hl H.
  { destruct H as [H|H]; [by apply elem_of_nil in H|done]. }
  rewrite fold_left_step.
  destruct (Hl i) as (P1 & P2 & A1 & A2 & A3); [by left|]. apply IH; [intros x Hx; apply Hl; by right|].
  destruct (decide (i = j)) as [->|Hn].
  - right. split; [|exact (init_queue_empty _ _ _ P2)]. exact (empty_queue_apart _ _ _ _ P2 A2 (init_queue_empty _ _ _ P1)).
  - destruct H as [H|[H1 H2]]; [left; apply elem_of_cons in H as [->|]; done|right].
    destruct (A1 Hn) as [B1 B2]. split.
    + exact (empty_queue_apart _ _ _ _ P2 A2 (empty_queue_apart _ _ _ _ P1 B1 H1)).
    + exact (empty_queue_apart _ _ _ _ P2 B2 (empty_queue_apart _ _ _ _ P1 A3 H2)).
Qed.

Lemma init_queues_empty g m j :
  0 <= j < 16 -> empty_queue g (init_queues g m) (futex_queue j) /\ empty_queue g (init_queues g m) (death_queue j).
Proof.
  intros Hj. unfold init_queues. generalize (elem_of_seqZ 0 VCXL_MAX_SUPPORTED_MACHINES).
  generalize (seqZ 0 VCXL_MAX_SUPPORTED_MACHINES). intros l Hl. change (0 + VCXL_MAX_SUPPORTED_MACHINES) with 16 in Hl.
  apply (init_queues_loop g futex_queue death_queue l); [|left; apply Hl; lia].
  intros i Hi%Hl. destruct (queues_nonneg i Hi). destruct (queues_apart i j Hi Hj) as (? & ? & ?). done.
Qed.

(** ** The embedded metadata *)

Lemma relative_wf b a k main :
  buddy_wf b a k -> 0 < main ->
  let b' := Buddy (memory_size b) (alignment b) (self b - main) (Z.lor (buddy_flags b) BUDDY_RELATIVE_MODE) (tree b) (self b) in
  buddy_main b' = main /\ buddy_wf b' a k /\ forall i, block_from b' i = block_from b i.
Proof.
  intros [[] Hi Hv Hs] Hm b'.
  assert (Hb : buddy_main b' = main).
  { unfold buddy_main, buddy_relative_mode, b', BUDDY_RELATIVE_MODE, truthy. cbn [buddy_flags self arena].
    rewrite (Z.land_ones _ 1), Zmod_odd, <- Z.bit0_odd, Z.lor_spec by lia. rewrite orb_true_r.
    cbn [Z.eqb negb]. lia. }
  split; [done|]. split; [|done]. split; [split|..]; try done. by rewrite Hb.
Qed.

Lemma metashmem_init_eq g m mem_start at_ main ms b :
  buddy_init_alignment (at_ + BUDDY_ALLOC_OFF) main ms BUDDY_ALLOC_ALIGNMENT = Some b ->
  at_ <> NULL -> at_ <> main -> at_ mod 8 = 0 -> BUDDY_ALLOC_ALIGNMENT <= ms ->
  metashmem_init_alignment g m mem_start at_ main ms BUDDY_ALLOC_ALIGNMENT = Some (meta_lock_init g m (at_ - mem_start), b).
Proof.
  intros E H0 Hne H8 Hms. unfold metashmem_init_alignment, buddy_init_alignment in *.
  rewrite (proj2 (Z.eqb_neq _ _) H0), (proj2 (Z.eqb_neq _ _) Hne). unfold alignof_struct_meta_shmem. rewrite H8.
  destruct (at_ + BUDDY_ALLOC_OFF =? NULL); [done|]. destruct (main =? NULL); [done|].
  destruct (at_ + BUDDY_ALLOC_OFF =? main); [done|]. destruct (negb (is_valid_alignment _)); [done|].
  destruct (truthy ((at_ + BUDDY_ALLOC_OFF) mod _)); [done|]. destruct (truthy (main mod _)); [done|].
  set (ms' := if truthy (ms mod _) then _ else _) in *. cbn [truthy Z.eqb negb].
  destruct (Z.ltb_spec ms' BUDDY_ALLOC_ALIGNMENT) as [Hlt|].
  { exfalso. unfold ms', BUDDY_ALLOC_ALIGNMENT, truthy in *. destruct (negb _); [|lia].
    pose proof (Z.div_mod ms 4096 ltac:(lia)). assert (1 <= ms / 4096) by (apply Z.div_le_lower_bound; lia). lia. }
  destruct (buddy_sizeof_alignment _ _ =? 0); [done|]. injection E as <-. done.
Qed.

(** A word that a lock initialisation wrote. *)
Lemma lock_init_unlocked g w : word_ok 64 (ttas_init g w) /\ value g (ttas_init g w) = UNLOCKED.
Proof. destruct (write_ok 64 g eq_refl w UNLOCKED unlocked_ok) as [Hv Hok]. done. Qed.

(** The writes of [metashmem_embed_alignment] after the memory was cleared. *)
Definition embed_writes (g : granularity) (m : bytes) (ms : Z) : bytes :=
  let m := meta_lock_init g m ms in
  let m := store64 m (ms + OBJ_HEADERS_Q_OFF) SHMEM_OPTR_NULL in
  let m := store64 m (ms + OBJ_HEADERS_Q_OFF + 8) SHMEM_OPTR_NULL in
  memset m (ms + REDOLOG_OFF) 0 (Z.to_nat (sizeof_log_entry * REDOLOG_ENTRIES)).

Lemma embed_writes_spec g m ms M :
  sizeof_struct_meta_shmem <= M ->
  let m' := embed_writes g m ms in
  only ms M m m' /\ load64 m' (ms + OBJ_HEADERS_Q_OFF) = 0 /\
  value g (load64 m' (ms + META_LOCK_OFF)) = UNLOCKED /\ (forall x, ms <= x < ms + 560 -> rd m' x = 0).
Proof.
  intros HM. cbv zeta. unfold embed_writes, meta_lock_init, sizeof_struct_meta_shmem in *.
  destruct (lock_init_unlocked g (load64 m (ms + META_LOCK_OFF))) as [Hw Hv]. set (w := ttas_init g _) in *. clearbody w.
  set (m1 := store64 (store64 (store64 m _ _) _ _) _ _).
  unfold REDOLOG_OFF, OBJ_HEADERS_Q_OFF, META_LOCK_OFF, SHMEM_OPTR_NULL in *.
  change (Z.to_nat (sizeof_log_entry * REDOLOG_ENTRIES)) with 560%nat.
  pose proof (only_memset m1 (ms + 0) 0 560) as H2. pose proof (rd_memset m1 (ms + 0) 560) as H3.
  set (m2 := memset m1 _ _ _) in *. clearbody m2. split_and!.
  - apply (only_trans _ _ _ m1); [|eapply only_in; [exact H2|lia..]].
    unfold m1. repeat (eapply only_trans; [|eapply only_in; [apply only_store64|lia..]]). by intros x Hx.
  - unfold load64. rewrite (only_load _ _ _ _ _ _ H2) by lia. change (load ?m ?a 8) with (load64 m a).
    unfold m1. by rewrite load64_store64_out, load64_store64 by lia.
  - unfold load64. rewrite (only_load _ _ _ _ _ _ H2) by lia. change (load ?m ?a 8) with (load64 m a).
    unfold m1. rewrite !load64_store64_out, load64_store64 by lia. by rewrite u64_small.
  - intros x Hx. apply H3. lia.
Qed.

(** The arena that [metashmem_embed_alignment] leaves in front of the metadata,
    and the metadata themselves. *)
Lemma embed_spec g m start main N M :
  M = meta_room N -> 8192 <= N <= 2 ^ 42 -> 0 < start <= main -> start mod 8 = 0 -> main mod 8 = 0 ->
  exists b m', let ms := main - start + (N - M) in
    metashmem_embed_alignment g m start main N BUDDY_ALLOC_ALIGNMENT = Some (m', ms, b) /\
    sizeof_struct_meta_shmem <= M /\ 4096 <= N - M /\
    buddy_wf b 12 ((N - M) / 4096) /\ buddy_main b = main /\
    (forall i, allocated (tree b) i -> memory_size b <= block_from b i) /\
    only ms M m m' /\ load64 m' (ms + OBJ_HEADERS_Q_OFF) = 0 /\
    value g (load64 m' (ms + META_LOCK_OFF)) = UNLOCKED /\ (forall x, ms <= x < ms + 560 -> rd m' x = 0).
Proof.
  intros HR HN Hs Hs8 Hm8. destruct (embed_offset_bounds N _ HN HR) as (E & H8 & HM & Hfit).
  assert (Ha8 : (main + (N - M)) mod 8 = 0) by (rewrite Z.add_mod, Hm8, H8 by lia; done).
  assert (Hb8 : (main + (N - M) + BUDDY_ALLOC_OFF) mod 8 = 0).
  { unfold BUDDY_ALLOC_OFF. rewrite Z.add_mod, Ha8 by lia. done. }
  assert (Hmle : 0 <= M) by (unfold sizeof_struct_meta_shmem in HM; lia).
  destruct (buddy_init_wf (main + (N - M) + BUDDY_ALLOC_OFF) main (N - M) 12) as (b & Eb & Wb & Mb & Vb);
    try (unfold BUDDY_ALLOC_OFF, NULL in *; Z.div_mod_to_equations; lia).
  destruct (relative_wf b 12 ((N - M) / 2 ^ 12) main Wb ltac:(lia)) as (Mb' & Wb' & _).
  set (b' := Buddy _ _ _ _ _ _) in *.
  set (ms := main - start + (N - M)). set (m0 := memset m ms 0 (Z.to_nat M)).
  exists b', (embed_writes g m0 ms). cbv zeta. fold ms.
  destruct (embed_writes_spec g m0 ms M HM) as (F & R1 & R2 & R3). split_and!; try done.
  - unfold metashmem_embed_alignment. unfold NULL. rewrite (proj2 (Z.eqb_neq main 0)) by lia.
    change (is_valid_alignment BUDDY_ALLOC_ALIGNMENT) with true. rewrite E. cbn [negb can_fit offset buddy_size].
    replace (main + (N - M) - start) with ms by lia. fold m0.
    rewrite (metashmem_init_eq g m0 start _ main (N - M) b) by
      (first [exact Eb|exact Ha8|unfold NULL, BUDDY_ALLOC_ALIGNMENT; lia]).
    replace (main + (N - M) - start) with ms by lia. done.
  - apply (only_trans _ _ _ m0); [|exact F]. pose proof (only_memset m ms 0 (Z.to_nat M)) as H.
    rewrite Z2Nat.id in H by lia. exact H.
Qed.

(** ** The initial state *)

Lemma init_queues_only g m : only 0 (death_queue 16) m (init_queues g m).
Proof.
  unfold init_queues. apply only_fold. intros m' i Hi%elem_of_seqZ.
  assert (Hi' : 0 <= i < 16) by (unfold VCXL_MAX_SUPPORTED_MACHINES in Hi; lia). destruct (queues_nonneg i Hi') as [P1 P2].
  apply (only_trans _ _ _ (init_circular_queue g m' (Some (futex_queue i)))).
  - eapply only_in; [apply (init_queue_only g m' _ P1)|..]; clear -Hi'; region_consts; lia.
  - eapply only_in; [apply (init_queue_only g _ _ P2)|..]; clear -Hi'; region_consts; lia.
Qed.

Lemma count_bits_zero m b f n :
  (forall i, f <= i < f + Z.of_nat n -> bit m b i = false) -> count_bits m b f n = 0.
Proof.
  revert f. induction n as [|n IH]; intros f H; [done|]. cbn [count_bits].
  rewrite H, IH by (intros; apply H || lia; lia). done.
Qed.

(** The record block survives what is written behind it. *)
Lemma slots_only m m' r a n :
  only a n m m' -> r + OBJ_ALLOC_RECS_SIZE <= a -> load16 m' (r + AVAILABLE_SLOTS_OFF) = load16 m (r + AVAILABLE_SLOTS_OFF).
Proof. intros H Ha. apply (only_load _ _ _ _ _ _ H). unfold OBJ_ALLOC_RECS_SIZE, AVAILABLE_SLOTS_OFF in *. lia. Qed.

Lemma fresh_records m m' r a n :
  only a n m m' -> r + OBJ_ALLOC_RECS_SIZE <= a ->
  load16 m (r + AVAILABLE_SLOTS_OFF) = NUM_OBJ_SLOTS ->
  (forall i, 0 <= i < NUM_OBJ_SLOTS -> bit m (r + SLOT_BITSET_OFF) i = false) ->
  load16 m' (r + AVAILABLE_SLOTS_OFF) = NUM_OBJ_SLOTS - count_bits m' (r + SLOT_BITSET_OFF) 0 340.
Proof.
  intros H Ha Hs Hb. unfold load16 in *.
  rewrite (only_load _ _ _ _ _ _ H), Hs by (unfold OBJ_ALLOC_RECS_SIZE, AVAILABLE_SLOTS_OFF in *; lia).
  rewrite count_bits_zero; [lia|]. intros i Hi. assert (i / 8 < 43) by (Z.div_mod_to_equations; lia).
  rewrite (only_bit _ _ _ _ _ _ H) by (unfold OBJ_ALLOC_RECS_SIZE, SLOT_BITSET_OFF in *; lia). apply Hb.
  unfold NUM_OBJ_SLOTS. lia.
Qed.

Lemma empty_list_queue m lq : 0 < lq -> lq + 16 < 2 ^ 64 -> load64 m lq = 0 -> queue m lq [].
Proof.
  intros H0 H1 H. split; [by rewrite Z.add_0_r|done|exact I|].
  split; [lia|by intros ? ?%elem_of_nil..|by intros ? ? ?%elem_of_nil|apply NoDup_nil_2].
Qed.

(** A region with an empty object list and one block of free records. *)
Lemma initial_meta_wf m b d ms k :
  let r := FUTEX_ADDR_QUEUE_SIZE in
  buddy_wf b 12 k -> 0 < mem_start d < buddy_main b ->
  buddy_main b + memory_size b <= mem_start d + mem_length d < 2 ^ 64 -> is_u16 (machine_id d) ->
  r + OBJ_ALLOC_RECS_SIZE <= ms -> ms + sizeof_struct_meta_shmem < 2 ^ 64 ->
  load16 m (r + AVAILABLE_SLOTS_OFF) = NUM_OBJ_SLOTS - count_bits m (r + SLOT_BITSET_OFF) 0 340 ->
  load64 m (ms + OBJ_HEADERS_Q_OFF) = 0 ->
  meta_wf (Shm m b r) d ms 12 k [r] [].
Proof.
  intros r W Hs Hl Hid Hms Hmx Hav Hq. unfold r, FUTEX_ADDR_QUEUE_SIZE, OBJ_ALLOC_RECS_SIZE, sizeof_struct_meta_shmem in *.
  split; cbn [mem alloc cur_obj_recs]; try done.
  - meta_consts. lia.
  - intros x ->%list_elem_of_singleton. meta_consts. lia.
  - intros x y ->%list_elem_of_singleton ->%list_elem_of_singleton Hne. destruct (Hne eq_refl).
  - by apply list_elem_of_singleton.
  - by intros x ->%list_elem_of_singleton.
  - by intros ? ?%elem_of_nil.
  - by intros ? ?%elem_of_nil.
  - apply empty_list_queue; [meta_consts; lia..|exact Hq].
Qed.

Definition total_reserved : Z := FUTEX_ADDR_QUEUE_SIZE + OBJ_ALLOC_RECS_SIZE + PROC_DEATH_NOTIFICATION_SIZE + CXLCG_META_SIZE.

(** A region large enough for the reserved parts and two slots, whose addresses
    are machine words. *)
Definition region_ok (d : meta_dram) : Prop :=
  0 < mem_start d /\ mem_start d mod 8 = 0 /\ mem_start d + mem_length d < 2 ^ 64 /\
  total_reserved + 8192 <= mem_length d <= 2 ^ 42 /\ is_u16 (machine_id d).

(** The front part of the region before the metadata are embedded. *)
Lemma prepared_region g m :
  let m2 := init_obj_allocation_records (init_queues g m) FUTEX_ADDR_QUEUE_SIZE in
  (forall i, 0 <= i < 16 -> empty_queue g m2 (futex_queue i) /\ empty_queue g m2 (death_queue i)) /\
  load16 m2 (FUTEX_ADDR_QUEUE_SIZE + AVAILABLE_SLOTS_OFF) = NUM_OBJ_SLOTS /\
  (forall i, 0 <= i < NUM_OBJ_SLOTS -> bit m2 (FUTEX_ADDR_QUEUE_SIZE + SLOT_BITSET_OFF) i = false).
Proof.
  cbv zeta. pose proof (init_queues_empty g m) as HQ. set (m1 := init_queues g m) in *. clearbody m1.
  pose proof (init_records_only m1 FUTEX_ADDR_QUEUE_SIZE) as F.
  destruct (init_records_fields m1 FUTEX_ADDR_QUEUE_SIZE) as (_ & _ & Hs & Hb). split; [|done].
  intros i Hi. destruct (HQ i Hi) as [Q1 Q2].
  split; eapply empty_queue_only; [exact F| |exact Q1|exact F| |exact Q2]; clear -Hi; region_consts; lia.
Qed.

(** The queue of record blocks with its first block. *)
Definition set_first_recs (m : bytes) (ms first : Z) : bytes :=
  let m := store64 m (ms + OBJ_ALLOCS_Q_OFF) first in
  store64 m (ms + OBJ_ALLOCS_Q_OFF + 8) (load64 m (ms + OBJ_ALLOCS_Q_OFF)).

Lemma set_first_recs_spec m ms first :
  is_u64 first -> let m' := set_first_recs m ms first in
  only (ms + OBJ_ALLOCS_Q_OFF) 16 m m' /\ load64 m' (ms + OBJ_ALLOCS_Q_OFF) = first /\
  load64 m' (ms + OBJ_ALLOCS_Q_OFF + 8) = first.
Proof.
  intros Hf m'. unfold m', set_first_recs. set (m1 := store64 m _ first).
  assert (E : load64 m1 (ms + OBJ_ALLOCS_Q_OFF) = first) by (unfold m1; by rewrite load64_store64, u64_small).
  rewrite E, load64_store64_out, E, load64_store64, u64_small by (done || lia). split; [|done].
  repeat (eapply only_trans; [|eapply only_in; [apply only_store64|lia..]]). by intros x Hx.
Qed.

(** What creation leaves, with the slots of the first block of records. *)
Lemma init_meta_ok (g : granularity) (m : bytes) (d : meta_dram) (loc : cg_local) :
  region_ok d ->
  exists rs k, vcxl_init_meta_impl g m d loc = Ret (inr rs) /\
    meta_wf (rs_shm rs) d (rs_ms rs) 12 k [FUTEX_ADDR_QUEUE_SIZE] [] /\
    rs_ms rs = mem_length d - meta_room (mem_length d - total_reserved) /\
    rs_ms rs + sizeof_struct_meta_shmem <= mem_length d /\
    (forall i, allocated (tree (alloc (rs_shm rs))) i -> memory_size (alloc (rs_shm rs)) <= block_from (alloc (rs_shm rs)) i) /\
    (forall i, 0 <= i < 16 -> empty_queue g (mem (rs_shm rs)) (futex_queue i) /\
                             empty_queue g (mem (rs_shm rs)) (death_queue i)) /\
    value g (load64 (mem (rs_shm rs)) (rs_ms rs + META_LOCK_OFF)) = UNLOCKED /\
    load64 (mem (rs_shm rs)) (rs_ms rs + OBJ_ALLOCS_Q_OFF) = FUTEX_ADDR_QUEUE_SIZE /\
    load64 (mem (rs_shm rs)) (rs_ms rs + OBJ_ALLOCS_Q_OFF + 8) = FUTEX_ADDR_QUEUE_SIZE /\
    rs_groups rs = fst (init_cxlcg_meta g (machine_id d) loc) /\
    cur_obj_recs (rs_shm rs) = FUTEX_ADDR_QUEUE_SIZE /\
    load16 (mem (rs_shm rs)) (FUTEX_ADDR_QUEUE_SIZE + AVAILABLE_SLOTS_OFF) = NUM_OBJ_SLOTS.
Proof.
  intros (H0 & H8 & Hw & Hlen & Hid). unfold vcxl_init_meta_impl.
  change (VCXL_MAX_SUPPORTED_MACHINES * circular_queue_size >? FUTEX_ADDR_QUEUE_SIZE) with false.
  change (VCXL_MAX_SUPPORTED_MACHINES * circular_queue_size >? PROC_DEATH_NOTIFICATION_SIZE) with false. cbv iota.
  fold total_reserved. destruct (init_cxlcg_meta g (machine_id d) loc) as [groups loc'].
  destruct (prepared_region g m) as (HQ & Hs & Hb).
  set (m2 := init_obj_allocation_records _ FUTEX_ADDR_QUEUE_SIZE) in *. clearbody m2.
  change total_reserved with 98304 in *. rewrite (u64_small (mem_length d - 98304)) by lia.
  destruct (embed_spec g m2 (mem_start d) (mem_start d + 98304) (mem_length d - 98304) _ eq_refl)
    as (b & m3 & E & HM & Hfit & W & Hmain & Hv & F3 & Hq & Hlk & _); [lia|lia|done| |].
  { rewrite Z.add_mod, H8 by lia. done. }
  rewrite E. clear E. unfold sizeof_struct_meta_shmem in HM. set (M := meta_room _) in *.
  replace (mem_start d + 98304 - mem_start d + (mem_length d - 98304 - M)) with (mem_length d - M) in * by lia.
  assert (Ef : shmem_optr_from_ptr (mem_start d) (mem_start d + FUTEX_ADDR_QUEUE_SIZE) = FUTEX_ADDR_QUEUE_SIZE).
  { unfold shmem_optr_from_ptr, FUTEX_ADDR_QUEUE_SIZE. rewrite (proj2 (Z.eqb_neq _ _)), u64_small by lia. lia. }
  rewrite Ef. clear Ef. set (ms := mem_length d - M) in *. fold (set_first_recs m3 ms FUTEX_ADDR_QUEUE_SIZE).
  destruct (set_first_recs_spec m3 ms FUTEX_ADDR_QUEUE_SIZE) as (F4 & A1 & A2); [unfold is_u64, FUTEX_ADDR_QUEUE_SIZE; lia|].
  set (m4 := set_first_recs m3 ms _) in *. clearbody m4.
  assert (F : only ms M m2 m4) by (eapply only_trans; [exact F3|eapply only_in; [exact F4|unfold OBJ_ALLOCS_Q_OFF; lia..]]).
  assert (Hsz : memory_size b <= mem_length d - 98304 - M).
  { rewrite (g_size _ _ _ (bw_geometry _ _ _ W)). change (2 ^ 12) with 4096. Z.div_mod_to_equations. lia. }
  exists (RegionState (Shm m4 b FUTEX_ADDR_QUEUE_SIZE) groups loc' ms), ((mem_length d - 98304 - M) / 4096).
  split; [reflexivity|]. cbn [rs_shm rs_ms rs_groups mem alloc cur_obj_recs fst].
  assert (Hqs : forall i, 0 <= i < 16 -> 0 <= futex_queue i /\ futex_queue i + circular_queue_size <= ms /\
    death_queue i + circular_queue_size <= ms) by (intros i Hi; unfold ms; clear -Hi Hlen Hfit; region_consts; lia).
  unfold load64 in *. split_and!; try done.
  - apply initial_meta_wf; rewrite ?Hmain; try done; try lia.
    + unfold ms. region_consts. lia.
    + unfold ms, sizeof_struct_meta_shmem. lia.
    + eapply fresh_records; [exact F|unfold ms; region_consts; lia|exact Hs|exact Hb].
    + unfold load64. rewrite (only_load _ _ _ _ _ _ F4) by (unfold OBJ_ALLOCS_Q_OFF, OBJ_HEADERS_Q_OFF; lia). exact Hq.
  - unfold ms, sizeof_struct_meta_shmem. lia.
  - intros i Hi. destruct (HQ i Hi), (Hqs i Hi) as (? & ? & ?). split; (eapply empty_queue_only; [exact F|by left|done]).
  - rewrite (only_load _ _ _ _ _ _ F4) by (unfold OBJ_ALLOCS_Q_OFF, META_LOCK_OFF; lia). exact Hlk.
  - rewrite (slots_only _ _ _ _ _ F); [exact Hs|unfold ms; region_consts; lia].
Qed.

(** C9. Initialising a region establishes the invariant of the allocator's
    metadata: for every region of up to 4 TiB the call succeeds, the metadata lie
    inside the region at its end, no object exists, no slot of the arena is
    taken, both queues of all 16 machines are empty and unlocked, and the
    metadata lock is free. *)
Theorem vcxl_init_meta_correct (g : granularity) (m : bytes) (d : meta_dram) (loc : cg_local) :
  region_ok d ->
  exists rs k, vcxl_init_meta_impl g m d loc = Ret (inr rs) /\
    meta_wf (rs_shm rs) d (rs_ms rs) 12 k [FUTEX_ADDR_QUEUE_SIZE] [] /\
    rs_ms rs = mem_length d - meta_room (mem_length d - total_reserved) /\
    rs_ms rs + sizeof_struct_meta_shmem <= mem_length d /\
    (forall i, allocated (tree (alloc (rs_shm rs))) i -> memory_size (alloc (rs_shm rs)) <= block_from (alloc (rs_shm rs)) i) /\
    (forall i, 0 <= i < 16 -> empty_queue g (mem (rs_shm rs)) (futex_queue i) /\
                             empty_queue g (mem (rs_shm rs)) (death_queue i)) /\
    value g (load64 (mem (rs_shm rs)) (rs_ms rs + META_LOCK_OFF)) = UNLOCKED /\
    load64 (mem (rs_shm rs)) (rs_ms rs + OBJ_ALLOCS_Q_OFF) = FUTEX_ADDR_QUEUE_SIZE /\
    load64 (mem (rs_shm rs)) (rs_ms rs + OBJ_ALLOCS_Q_OFF + 8) = FUTEX_ADDR_QUEUE_SIZE /\
    rs_groups rs = fst (init_cxlcg_meta g (machine_id d) loc).
Proof.
  intros H. destruct (init_meta_ok g m d loc H) as (rs & k & H1 & H2 & H3 & H4 & H5 & H6 & H7 & H8 & H9 & H10 & _).
  exists rs, k. by split_and!.
Qed.

(** ** Recovery after a restart *)

Lemma agree_only a n m m' : agree_off (rng a n) m m' -> only a n m m'.
Proof.
  intros H x Hx. symmetry. apply rd_bits. intros k Hk. apply (H x k Hk). unfold rng. zb; done || lia.
Qed.

Lemma head_direct m lq l : queue m lq l -> shmem_optr_direct_ptr (load64 m (lq + PE_FIRST_OFF)) = head l.
Proof.
  intros Q. rewrite (q_first _ _ _ Q). destruct l as [|x l]; [done|]. change (default 0 (head (x :: l))) with x.
  destruct (eo_range _ _ (q_ok _ _ _ Q) x) as [H0 _]; [by left|]. unfold shmem_optr_direct_ptr.
  by rewrite (proj2 (Z.eqb_neq x 0)) by lia.
Qed.

Lemma next_direct m prev x l :
  linked m prev (x :: l) -> (forall z, z ∈ x :: l -> 0 < z) ->
  shmem_optr_is_null (load64 m (x + LE_NEXT_OFF)) = match l with [] => true | _ => false end /\
  shmem_optr_direct_ptr (load64 m (x + LE_NEXT_OFF)) = head l.
Proof.
  intros (_ & Hn & _) Hp. rewrite Hn. unfold shmem_optr_is_null, shmem_optr_direct_ptr.
  destruct l as [|z l]; [done|]. change (default 0 (head (z :: l))) with z.
  rewrite (proj2 (Z.eqb_neq z 0)); [done|]. specialize (Hp z ltac:(set_solver)). lia.
Qed.

Lemma walk_ends fuel m prev l :
  linked m prev l -> (forall z, z ∈ l -> 0 < z) -> (length l < fuel)%nat -> walk_headers fuel m (head l) = Some ().
Proof.
  revert prev l. induction fuel as [|fuel IH]; intros prev l L Hp Hf; [lia|]. cbn [walk_headers].
  destruct l as [|x l]; [done|]. cbn [head]. destruct (next_direct m prev x l L Hp) as [E1 E2].
  unfold next_obj_header. rewrite E1, E2. destruct l as [|y l]; [done|].
  destruct L as (_ & _ & L). apply (IH x); [done|intros; apply Hp; by right|cbn in *; lia].
Qed.

Definition has_slots (m : bytes) (r : Z) : bool := negb (load16 m (r + AVAILABLE_SLOTS_OFF) =? 0).

Lemma find_recs_first fuel m prev l :
  linked m prev l -> (forall z, z ∈ l -> 0 < z) -> (length l < fuel)%nat ->
  find_recs fuel m (head l) = Some (default 0 (List.find (has_slots m) l)).
Proof.
  revert prev l. induction fuel as [|fuel IH]; intros prev l L Hp Hf; [lia|]. cbn [find_recs].
  destruct l as [|x l]; [done|]. cbn [head List.find]. unfold has_slots at 1.
  destruct (negb _); [done|]. destruct (next_direct m prev x l L Hp) as [E1 E2].
  unfold next_obj_allocation_records. rewrite E1, E2. destruct l as [|y l]; [done|].
  destruct L as (_ & _ & L). apply (IH x); [done|intros; apply Hp; by right|cbn in *; lia].
Qed.

Section Restart.
Context (g : granularity) (nr cpu ms p q n : Z) (d : meta_dram) (es : list log_entry) (s t : shm) (l recs : list Z).
Hypothesis Hd : died_committed g nr ms (machine_id d - 1) q n es s.
Hypothesis Hs : survivor nr cpu p d.
Hypothesis Ht : run_entries es s = Ret t.
Hypothesis Ql : queue (mem t) (hq ms) l.
Hypothesis Qr : queue (mem t) (ms + OBJ_ALLOCS_Q_OFF) recs.
Hypothesis Al : forall h, h ∈ l -> apart h 16 ms sizeof_struct_meta_shmem.
Hypothesis Ar : forall r, r ∈ recs -> apart r OBJ_ALLOC_RECS_SIZE ms sizeof_struct_meta_shmem.

(** What the walks read after the log was executed under the lock. *)
Lemma restart_walks fuel m :
  only (ms + META_LOCK_OFF) 8 (mem t) m -> (length l < fuel)%nat -> (length recs < fuel)%nat ->
  walk_headers fuel m (obj_header_head m ms) = Some () /\
  find_recs fuel m (obj_alloc_recs_head m ms) = Some (default 0 (List.find (has_slots (mem t)) recs)).
Proof using Ql Qr Al Ar.
  clear Hd Hs Ht. intros F H1 H2.
  assert (Q1 : queue m (hq ms) l).
  { apply (queue_ext (mem t)); [|done]. intros a [Ha|(x & Hx%Al & Ha)]; apply F; unfold META_LOCK_OFF; meta_consts; lia. }
  assert (Q2 : queue m (ms + OBJ_ALLOCS_Q_OFF) recs).
  { apply (queue_ext (mem t)); [|done]. intros a [Ha|(x & Hx%Ar & Ha)]; apply F; unfold META_LOCK_OFF; meta_consts; lia. }
  split.
  - unfold obj_header_head. fold (hq ms). rewrite (head_direct m (hq ms) l Q1).
    apply (walk_ends fuel m 0); [apply Q1| |done]. intros z Hz. by apply (eo_range _ _ (q_ok _ _ _ Q1)).
  - unfold obj_alloc_recs_head. rewrite (head_direct _ _ _ Q2), (find_recs_first fuel m 0 recs); [|apply Q2| |done].
    + do 2 f_equal. clear -Ar F. induction recs as [|r rs IH]; [done|]. cbn [List.find].
      assert (Hr : apart r OBJ_ALLOC_RECS_SIZE ms sizeof_struct_meta_shmem) by (apply Ar; by left).
      assert (E : has_slots m r = has_slots (mem t) r).
      { unfold has_slots, load16. rewrite (only_load _ _ _ _ _ _ F); [done|]. unfold META_LOCK_OFF. meta_consts. lia. }
      rewrite E, IH; [done|]. intros x Hx. apply Ar. by right.
    + intros z Hz. by apply (eo_range _ _ (q_ok _ _ _ Q2)).
Qed.

Lemma recover_locked_ok fuel w :
  (length l < fuel)%nat -> (length recs < fuel)%nat ->
  exists s', recover_locked g nr cpu fuel (set_mem s (store64 (mem s) (ms + META_LOCK_OFF) w)) d ms = Some (Ret (s', 0)) /\
    agree_off (rng (ms + META_LOCK_OFF) 8) (mem t) (mem s') /\ alloc s' = alloc t /\
    cur_obj_recs s' = default 0 (List.find (has_slots (mem t)) recs) /\
    value g (load64 (mem s') (ms + META_LOCK_OFF)) = UNLOCKED.
Proof.
  intros H1 H2. unfold recover_locked, REDOLOG_OFF. rewrite Z.add_0_r.
  rewrite (recover_committed ms es) by (try (by destruct Hd); by eapply committed_relock).
  rewrite run_entries_eq, (dc_null _ _ _ _ _ _ _ _ Hd) in Ht. injection Ht as Et.
  rewrite run_entries_eq, (dc_null _ _ _ _ _ _ _ _ Hd). cbn [obind Z.eqb negb mem alloc set_mem].
  set (m1 := mem_of es (store64 (mem s) (ms + META_LOCK_OFF) w)).
  assert (A : agree_off (rng (ms + META_LOCK_OFF) 8) (mem t) m1).
  { rewrite <- Et. cbn [mem]. apply (blind_agree _ (touched_all es)); [apply _|exact (blind_frame (Blind := blind_store64 (ms + META_LOCK_OFF) w) _)]. }
  destruct (restart_walks fuel m1 (agree_only _ _ _ _ A) H1 H2) as [-> ->].
  unfold meta_unlock, ttas_unlock_kern, with_process_id, bug_on. destruct Hs as (Hm & Hid & _).
  destruct (Z.ltb_spec (machine_id d) 1); [lia|]. rewrite Hid. cbn [obind mem alloc cur_obj_recs set_mem].
  pose proof (write_ok 64 g eq_refl (load64 m1 (ms + META_LOCK_OFF)) UNLOCKED unlocked_ok) as [Hv Hw].
  eexists. split; [reflexivity|]. cbn [mem alloc cur_obj_recs set_mem]. split_and!; [|by rewrite <- Et|done|].
  - transitivity m1; [exact A|exact (blind_frame (Blind := blind_store64 (ms + META_LOCK_OFF) _) _)].
  - rewrite load64_store64, u64_small by exact Hw. exact Hv.
Qed.

Definition recover_reserved : Z := FUTEX_ADDR_QUEUE_SIZE + OBJ_ALLOC_RECS_SIZE + PROC_DEATH_NOTIFICATION_SIZE.

End Restart.

(** ** Creation and recovery agree on the place of the metadata *)

(** A tree of a higher order takes at least 8 bytes more. *)
Lemma tree_sizeof_increasing n n' : 1 <= n < n' -> n' <= 31 -> buddy_tree_sizeof n + 8 <= buddy_tree_sizeof n'.
Proof.
  assert (H : all_below 32 (fun n => all_below 32 (fun n' =>
    (n <? 1) || (n' <=? n) || (buddy_tree_sizeof n + 8 <=? buddy_tree_sizeof n'))) = true) by (vm_compute; reflexivity).
  intros Hn Hn'. below H n. below H n'. apply orb_true_iff in H as [H|H]; [|lia]. apply orb_true_iff in H as [H|H]; lia.
Qed.

Lemma meta_room_order N N' :
  8192 <= N <= 2 ^ 42 -> 8192 <= N' <= 2 ^ 42 -> N mod 8 = N' mod 8 ->
  meta_room N = meta_room N' <->
  buddy_tree_order_for_memory N BUDDY_ALLOC_ALIGNMENT = buddy_tree_order_for_memory N' BUDDY_ALLOC_ALIGNMENT.
Proof.
  intros HN HN' H8. unfold meta_room.
  assert (R : forall x, 8192 <= x <= 2 ^ 42 -> 1 <= buddy_tree_order_for_memory x BUDDY_ALLOC_ALIGNMENT <= 31).
  { intros x Hx. destruct (order_for_memory_range x 12) as [E Hr]; [lia|lia|Z.div_mod_to_equations; lia|].
    unfold BUDDY_ALLOC_ALIGNMENT. change 4096 with (2 ^ 12). by rewrite E. }
  pose proof (R N HN). pose proof (R N' HN'). set (o := buddy_tree_order_for_memory N _) in *.
  set (o' := buddy_tree_order_for_memory N' _) in *. clearbody o o'. set (c := sizeof_struct_meta_shmem).
  pose proof (Z.mod_pos_bound (N - (c + buddy_tree_sizeof o)) 8 eq_refl).
  pose proof (Z.mod_pos_bound (N' - (c + buddy_tree_sizeof o')) 8 eq_refl). split.
  - intros E. destruct (Z.lt_trichotomy o o') as [Ho|[Ho|Ho]]; [|done|].
    + pose proof (tree_sizeof_increasing o o' ltac:(lia) ltac:(lia)). lia.
    + pose proof (tree_sizeof_increasing o' o ltac:(lia) ltac:(lia)). lia.
  - intros ->. rewrite Zminus_mod, H8, <- Zminus_mod. done.
Qed.

(** The metadata are found where they were put: the offset recovery computes
    from the length of the region is the one creation chose, although recovery
    does not reserve the table of process groups, whenever both sizes have a tree
    of the same order; when the orders differ the two offsets differ. *)
Theorem recover_offset_agrees (N : Z) :
  total_reserved + 8192 <= N <= 2 ^ 42 ->
  let created := metashmem_embed_offset (N - total_reserved) BUDDY_ALLOC_ALIGNMENT in
  let recovered := metashmem_embed_offset (N - recover_reserved) BUDDY_ALLOC_ALIGNMENT in
  can_fit created = true /\ can_fit recovered = true /\
  (total_reserved + offset created = recover_reserved + offset recovered <->
   buddy_tree_order_for_memory (N - total_reserved) BUDDY_ALLOC_ALIGNMENT =
   buddy_tree_order_for_memory (N - recover_reserved) BUDDY_ALLOC_ALIGNMENT).
Proof.
  intros HN. change total_reserved with 98304 in *. change recover_reserved with 57344.
  destruct (embed_offset_bounds (N - 98304) _ ltac:(lia) eq_refl) as [-> _].
  destruct (embed_offset_bounds (N - 57344) _ ltac:(lia) eq_refl) as [-> _].
  cbn [can_fit offset]. split; [done|]. split; [done|].
  rewrite <- meta_room_order; [lia..|]. rewrite !(Zminus_mod N). done.
Qed.

(** ** Example: a region of 1 MiB, and machine 1 restarting with a committed transaction *)

Definition example_region : meta_dram := MetaDram 4096 (2 ^ 20) 1.
Definition example_ms : Z := 2 ^ 20 - meta_room (2 ^ 20 - recover_reserved).
Definition example_local : cg_local := CgLocal [] [] 0 [] [].

Lemma vcxl_init_meta_correct_witness :
  exists rs k, vcxl_init_meta_impl BYTE_GRANULAR ∅ example_region example_local = Ret (inr rs) /\
    meta_wf (rs_shm rs) example_region (rs_ms rs) 12 k [FUTEX_ADDR_QUEUE_SIZE] [].
Proof.
  destruct (vcxl_init_meta_correct BYTE_GRANULAR ∅ example_region example_local) as (rs & k & H1 & H2 & _);
    [|exists rs, k; exact (conj H1 H2)].
  unfold region_ok, example_region. cbn [mem_start mem_length machine_id]. change total_reserved with 98304.
  split; [lia|]. split; [done|]. split; [lia|]. split; [lia|]. unfold is_u16. lia.
Defined.

Lemma recover_offset_agrees_witness :
  total_reserved + offset (metashmem_embed_offset (2 ^ 20 - total_reserved) BUDDY_ALLOC_ALIGNMENT) = example_ms /\
  recover_reserved + offset (metashmem_embed_offset (2 ^ 20 - recover_reserved) BUDDY_ALLOC_ALIGNMENT) = example_ms /\
  let N := 2 ^ 20 + total_reserved in
  total_reserved + offset (metashmem_embed_offset (N - total_reserved) BUDDY_ALLOC_ALIGNMENT) <>
  recover_reserved + offset (metashmem_embed_offset (N - recover_reserved) BUDDY_ALLOC_ALIGNMENT).
Proof.
  destruct (recover_offset_agrees (2 ^ 20)) as (_ & _ & H1); [change total_reserved with 98304; lia|].
  destruct (recover_offset_agrees (2 ^ 20 + total_reserved)) as (_ & _ & H2); [change total_reserved with 98304; lia|].
  assert (E : recover_reserved + offset (metashmem_embed_offset (2 ^ 20 - recover_reserved) BUDDY_ALLOC_ALIGNMENT) = example_ms)
    by (vm_compute; reflexivity).
  split; [rewrite <- E; apply H1; vm_compute; reflexivity|]. split; [exact E|]. intros N H. apply H2 in H. vm_compute in H. discriminate.
Defined.

(** Its processor 1 held the lock in generation 0; the log has [example_entries]
    and the first block of records has 7 free slots. *)
Definition crashed_mem : bytes :=
  let m := match commit_log example_entries ∅ example_ms with Ret (m, _) => m | Bug => ∅ end in
  let m := store64 m (example_ms + META_LOCK_OFF) (lock_val 1 0) in
  let m := set_first_recs m example_ms FUTEX_ADDR_QUEUE_SIZE in
  store16 m (FUTEX_ADDR_QUEUE_SIZE + AVAILABLE_SLOTS_OFF) 7.
Definition crashed_shm : shm := Shm crashed_mem example_buddy 0.

Definition restarted : cxlcg_meta * cg_local :=
  match recover_cxlcg_meta BYTE_GRANULAR 4 1 crashed_meta 1 example_local with
  | Ret (Some r) => r
  | _ => (crashed_meta, example_local)
  end.

Lemma example_ms_eq : example_ms = 1047696.
Proof. vm_compute. reflexivity. Qed.

Lemma single_list_queue m lq x :
  0 < lq -> lq + 16 < 2 ^ 64 -> 0 < x -> x + 16 < 2 ^ 64 -> apart x 16 lq 16 ->
  load64 m lq = x /\ load64 m (lq + 8) = x /\ load64 m x = 0 /\ load64 m (x + 8) = 0 -> queue m lq [x].
Proof.
  intros H1 H2 H3 H4 Ha (E1 & E2 & E3 & E4). split.
  - by rewrite Z.add_0_r.
  - intros y [= <-]. exact E2.
  - cbn. unfold LE_NEXT_OFF. by rewrite Z.add_0_r.
  - split; [lia|intros y ->%list_elem_of_singleton; done..| |apply NoDup_singleton].
    by intros y z ->%list_elem_of_singleton ->%list_elem_of_singleton.
Qed.

Lemma crashed_died : died_committed BYTE_GRANULAR 4 example_ms 0 1 0 example_entries crashed_shm.
Proof.
  assert (Hn : Z.of_nat (length example_entries) < REDOLOG_ENTRIES) by reflexivity.
  split; [apply example_entries_wf|rewrite example_ms_eq; lia|exact Hn| |reflexivity|
    |vm_compute; reflexivity|reflexivity|unfold is_proc; lia|unfold is_gen; lia].
  - intros e a k He Ha. rewrite example_ms_eq in Ha. unfold entry_at, sizeof_log_entry, REDOLOG_ENTRIES in Ha.
    unfold example_entries in He. rewrite !elem_of_cons, elem_of_nil in He.
    destruct He as [-> |[-> |[]]]; unfold touched; cbn [entry_updates existsb U64 update_region]; unfold rng; zb; try lia; done.
  - destruct (commit_log_spec example_entries ∅ example_ms example_entries_wf ltac:(rewrite example_ms_eq; lia) Hn)
      as (m1 & E & Hc & _).
    apply (committed_ext m1); [apply example_entries_wf|rewrite example_ms_eq; lia|exact Hn| |exact Hc].
    intros a Ha. unfold crashed_shm, crashed_mem. cbn [mem]. rewrite E. rewrite example_ms_eq in *.
    unfold set_first_recs, entry_at, sizeof_log_entry, REDOLOG_ENTRIES, META_LOCK_OFF, OBJ_ALLOCS_Q_OFF,
      FUTEX_ADDR_QUEUE_SIZE, AVAILABLE_SLOTS_OFF in *.
    unfold store16. rewrite (rd_store_out _ _ 2), !rd_store64_out by lia. done.
Qed.

