(* ===== verification/LinuxList.v ===== *)
(** The doubly linked lists of
    src/driver/src/user_space_kernel_def/include/linux/list.h: the operations on
    circular lists with a head and on hash chains, as updates of the pointers of
    the nodes.

    A node is its address; the two pointers of a node are two finite maps.  The
    specification is a pool of disjoint sequences, one for each head, and every
    operation of the header is an operation on these sequences. *)
From Stdlib Require Import ZArith Lia Bool.
From stdpp Require Import base list gmap numbers.
From S2P Require Import Prelude.
Local Open Scope Z_scope.

(** ** struct list_head *)

Record links := Links { l_next : gmap Z Z; l_prev : gmap Z Z }.

Definition LIST_POISON1 : Z := 0x100.
Definition LIST_POISON2 : Z := 0x200.

Definition next (m : links) (p : Z) : Z := default 0 (l_next m !! p).
Definition prev (m : links) (p : Z) : Z := default 0 (l_prev m !! p).
Definition set_next (m : links) (p v : Z) : links := Links (<[p := v]> (l_next m)) (l_prev m).
Definition set_prev (m : links) (p v : Z) : links := Links (l_next m) (<[p := v]> (l_prev m)).

Definition INIT_LIST_HEAD (m : links) (list : Z) : links :=
  let m := set_next m list list in
  set_prev m list list.

Definition __list_add (m : links) (new prev next : Z) : links :=
  let m := set_prev m next new in
  let m := set_next m new next in
  let m := set_prev m new prev in
  set_next m prev new.

Definition list_add (m : links) (new head : Z) : links := __list_add m new head (next m head).

Definition list_add_tail (m : links) (new head : Z) : links := __list_add m new (prev m head) head.

Definition __list_del (m : links) (prev next : Z) : links :=
  let m := set_prev m next prev in
  set_next m prev next.

Definition __list_del_entry (m : links) (entry : Z) : links := __list_del m (prev m entry) (next m entry).

Definition list_del (m : links) (entry : Z) : links :=
  let m := __list_del m (prev m entry) (next m entry) in
  let m := set_next m entry LIST_POISON1 in
  set_prev m entry LIST_POISON2.

Definition list_replace (m : links) (old new : Z) : links :=
  let m := set_next m new (next m old) in
  let m := set_prev m (next m new) new in
  let m := set_prev m new (prev m old) in
  set_next m (prev m new) new.

Definition list_replace_init (m : links) (old new : Z) : links :=
  let m := list_replace m old new in
  INIT_LIST_HEAD m old.

Definition list_del_init (m : links) (entry : Z) : links :=
  let m := __list_del_entry m entry in
  INIT_LIST_HEAD m entry.

Definition list_move (m : links) (list head : Z) : links :=
  let m := __list_del_entry m list in
  list_add m list head.

Definition list_move_tail (m : links) (list head : Z) : links :=
  let m := __list_del_entry m list in
  list_add_tail m list head.

Definition list_is_last (m : links) (list head : Z) : bool := next m list =? head.
Definition list_empty (m : links) (head : Z) : bool := next m head =? head.

Definition list_empty_careful (m : links) (head : Z) : bool :=
  let n := next m head in (n =? head) && (n =? prev m head).

Definition list_rotate_left (m : links) (head : Z) : links :=
  if negb (list_empty m head) then
    let first := next m head in list_move_tail m first head
  else m.

Definition list_is_singular (m : links) (head : Z) : bool :=
  negb (list_empty m head) && (next m head =? prev m head).

Definition __list_cut_position (m : links) (list head entry : Z) : links :=
  let new_first := next m entry in
  let m := set_next m list (next m head) in
  let m := set_prev m (next m list) list in
  let m := set_prev m list entry in
  let m := set_next m entry list in
  let m := set_next m head new_first in
  set_prev m new_first head.

Definition list_cut_position (m : links) (list head entry : Z) : links :=
  if list_empty m head then m
  else if list_is_singular m head && (negb (next m head =? entry) && negb (head =? entry)) then m
  else if entry =? head then INIT_LIST_HEAD m list
  else __list_cut_position m list head entry.

Definition __list_splice (m : links) (list prv nxt : Z) : links :=
  let first := next m list in
  let last := prev m list in
  let m := set_prev m first prv in
  let m := set_next m prv first in
  let m := set_next m last nxt in
  set_prev m nxt last.

Definition list_splice (m : links) (list head : Z) : links :=
  if negb (list_empty m list) then __list_splice m list head (next m head) else m.

Definition list_splice_tail (m : links) (list head : Z) : links :=
  if negb (list_empty m list) then __list_splice m list (prev m head) head else m.

Definition list_splice_init (m : links) (list head : Z) : links :=
  if negb (list_empty m list) then
    let m := __list_splice m list head (next m head) in INIT_LIST_HEAD m list
  else m.

Definition list_splice_tail_init (m : links) (list head : Z) : links :=
  if negb (list_empty m list) then
    let m := __list_splice m list (prev m head) head in INIT_LIST_HEAD m list
  else m.

Definition list_del_range (m : links) (begin end_ : Z) : links :=
  let m := set_next m (prev m begin) (next m end_) in
  set_prev m (next m end_) (prev m begin).

(** [list_for_each]: the nodes visited, [None] when [fuel] runs out. *)
Fixpoint list_walk (step : Z -> Z) (fuel : nat) (pos head : Z) : option (list Z) :=
  if pos =? head then Some []
  else match fuel with
       | O => None
       | S k => option_map (cons pos) (list_walk step k (step pos) head)
       end.

Definition list_for_each (fuel : nat) (m : links) (head : Z) : option (list Z) :=
  list_walk (next m) fuel (next m head) head.

Definition list_for_each_prev (fuel : nat) (m : links) (head : Z) : option (list Z) :=
  list_walk (prev m) fuel (prev m head) head.

Definition list_first_entry_or_null (m : links) (head : Z) : option Z :=
  if negb (list_empty m head) then Some (next m head) else None.

Definition list_last_entry_or_null (m : links) (head : Z) : option Z :=
  if negb (list_empty m head) then Some (prev m head) else None.

(** ** Rings *)

Definition link (m : links) (a b : Z) : Prop := next m a = b /\ prev m b = a.

(** The nodes of [x :: l] are linked in this order. *)
Fixpoint chain (m : links) (x : Z) (l : list Z) : Prop :=
  match l with
  | [] => True
  | a :: l => link m x a /\ chain m a l
  end.

(** ... and the last one is linked to the first. *)
Definition ring (m : links) (x : Z) (l : list Z) : Prop := chain m x l /\ link m (List.last l x) x.

(** The list with head [h] and elements [l]. *)
Definition dlist (m : links) (h : Z) (l : list Z) : Prop := NoDup (h :: l) /\ ring m h l.

Lemma next_set_next m p v x : next (set_next m p v) x = if decide (x = p) then v else next m x.
Proof. unfold next, set_next. cbn. case_decide; subst; by rewrite ?lookup_insert_eq, ?lookup_insert_ne by done. Qed.
Lemma prev_set_prev m p v x : prev (set_prev m p v) x = if decide (x = p) then v else prev m x.
Proof. unfold prev, set_prev. cbn. case_decide; subst; by rewrite ?lookup_insert_eq, ?lookup_insert_ne by done. Qed.
Lemma next_set_prev m p v x : next (set_prev m p v) x = next m x.
Proof. done. Qed.
Lemma prev_set_next m p v x : prev (set_next m p v) x = prev m x.
Proof. done. Qed.

(** Reads the pointers of an updated heap. *)
Ltac ptrs :=
  repeat first [rewrite next_set_next | rewrite prev_set_prev | rewrite next_set_prev | rewrite prev_set_next];
  repeat case_decide.

Lemma last_cons (x y : Z) l : List.last (y :: l) x = List.last l y.
Proof.
  revert x y. induction l as [|z l IH]; intros x y; [done|].
  change (List.last (z :: l) x = List.last (z :: l) y). by rewrite !IH.
Qed.

Lemma last_app (x : Z) l1 l2 : List.last (l1 ++ l2) x = List.last l2 (List.last l1 x).
Proof. revert x. induction l1 as [|y l1 IH]; intros x; [done|]. cbn [app]. by rewrite !last_cons. Qed.

Lemma ring_last_in (x : Z) l : List.last l x ∈ x :: l.
Proof.
  revert x. induction l as [|y l IH]; intros x; [by left|]. rewrite last_cons. right. apply IH.
Qed.

Lemma chain_app m x l1 l2 : chain m x (l1 ++ l2) <-> chain m x l1 /\ chain m (List.last l1 x) l2.
Proof.
  revert x. induction l1 as [|a l1 IH]; intros x; cbn [app chain]; [cbn; tauto|].
  rewrite IH, last_cons. tauto.
Qed.

(** The ring can be entered anywhere. *)
Lemma ring_rotate m x l1 y l2 : ring m x (l1 ++ y :: l2) <-> ring m y (l2 ++ x :: l1).
Proof. unfold ring. rewrite !chain_app, !last_app, !last_cons. cbn [chain]. tauto. Qed.

Lemma ring_next m x l : ring m x l -> next m x = match l with [] => x | a :: _ => a end.
Proof. destruct l as [|a l]; intros [H1 H2]; [apply H2|apply H1]. Qed.

Lemma ring_prev m x l : ring m x l -> prev m x = List.last l x.
Proof. intros [_ H]. apply H. Qed.

Lemma chain_ext m m' x l :
  NoDup (x :: l) -> (forall z, z ∈ x :: l -> z <> List.last l x -> next m' z = next m z) ->
  (forall z, z ∈ l -> prev m' z = prev m z) -> chain m x l -> chain m' x l.
Proof.
  revert x. induction l as [|a l IH]; intros x Hd Hn Hp; [done|]. cbn [chain]. intros [[H1 H2] H3].
  apply list.NoDup_cons in Hd as [Hx Hd]. rewrite last_cons in Hn. split.
  - split; [rewrite Hn; [done|by left|]|rewrite Hp; [done|by left]].
    intros E. pose proof (ring_last_in a l) as Hl. rewrite <- E in Hl. done.
  - apply IH; [done|intros z Hz; apply Hn; by right|intros z Hz; apply Hp; by right|done].
Qed.

(** A ring none of whose nodes was written. *)
Lemma ring_frame m m' x l :
  (forall z, z ∈ x :: l -> next m' z = next m z /\ prev m' z = prev m z) -> ring m x l -> ring m' x l.
Proof.
  intros H [H1 H2]. split.
  - clear H2. revert x H H1. induction l as [|a l IH]; intros x H H1; [done|]. destruct H1 as [[E1 E2] H1]. split.
    + split; [by rewrite (proj1 (H x ltac:(by left)))|by rewrite (proj2 (H a ltac:(right; by left)))].
    + apply IH; [intros z Hz; apply H; by right|done].
  - destruct H2 as [E1 E2]. split; [rewrite (proj1 (H _ (ring_last_in x l)))|rewrite (proj2 (H x ltac:(by left)))]; done.
Qed.

Lemma rotate_perm (x y : Z) l1 l2 : y :: l2 ++ x :: l1 ≡ₚ x :: l1 ++ y :: l2.
Proof. exact (Permutation_app_comm (y :: l2) (x :: l1)). Qed.

Lemma dlist_rotate m x l1 y l2 : dlist m x (l1 ++ y :: l2) <-> dlist m y (l2 ++ x :: l1).
Proof. unfold dlist. by rewrite ring_rotate, rotate_perm. Qed.

Lemma dlist_frame m m' x l :
  (forall z, z ∈ x :: l -> next m' z = next m z /\ prev m' z = prev m z) -> dlist m x l -> dlist m' x l.
Proof. intros H [Hd R]. split; [done|]. by apply (ring_frame m). Qed.

(** ** Single operations *)

(** [m'] differs from [m] in the pointers of the nodes [w] only. *)
Definition writes (w : list Z) (m m' : links) : Prop :=
  forall z, z ∉ w -> next m' z = next m z /\ prev m' z = prev m z.

Lemma writes_trans w m1 m2 m3 : writes w m1 m2 -> writes w m2 m3 -> writes w m1 m3.
Proof. intros H1 H2 z Hz. destruct (H1 z Hz) as [<- <-]. by apply H2. Qed.

Lemma writes_weaken w w' m m' : writes w m m' -> w ⊆ w' -> writes w' m m'.
Proof. intros H Hs z Hz. apply H. set_solver. Qed.

Lemma init_dlist m x : dlist (INIT_LIST_HEAD m x) x [].
Proof. split; [apply NoDup_singleton|]. unfold INIT_LIST_HEAD. split; [done|]. split; cbn [List.last]; ptrs; done. Qed.

Lemma init_writes m x : writes [x] m (INIT_LIST_HEAD m x).
Proof. intros z Hz. unfold INIT_LIST_HEAD. split; ptrs; set_solver. Qed.

(** [list_add_tail] inserts before any node of the ring. *)
Lemma add_tail_dlist m new x l :
  new ∉ x :: l -> dlist m x l -> dlist (list_add_tail m new x) x (l ++ [new]).
Proof.
  intros Hnew [Hd R]. split.
  { rewrite app_comm_cons. apply list.NoDup_app. split_and!; [done|set_solver|apply NoDup_singleton]. }
  unfold list_add_tail. rewrite (ring_prev _ _ _ R). destruct R as [Hc Hl].
  pose proof (ring_last_in x l) as Hp. set (p := List.last l x) in *.
  assert (new <> x) by set_solver. assert (new <> p) by set_solver.
  split; [apply chain_app; split|].
  - apply (chain_ext m); [done|..|done]; unfold __list_add.
    + intros z Hz Hne. ptrs; subst; done.
    + intros z Hz. ptrs; subst; [set_solver|by apply list.NoDup_cons in Hd as [? _]|done].
  - fold p. split; [|done]. unfold __list_add. split; ptrs; done.
  - rewrite last_app. cbn [List.last]. unfold __list_add. split; ptrs; congruence.
Qed.

Lemma list_add_eq m new x l : dlist m x l -> list_add m new x = list_add_tail m new (next m x).
Proof.
  intros [_ R]. unfold list_add, list_add_tail. f_equal. destruct l as [|a l]; destruct R as [H1 H2].
  - destruct H2 as [E1 E2]. cbn in *. by rewrite E1.
  - destruct H1 as [[E1 E2] _]. by rewrite E1.
Qed.

Lemma add_dlist m new x l : new ∉ x :: l -> dlist m x l -> dlist (list_add m new x) x (new :: l).
Proof.
  intros Hnew D. rewrite (list_add_eq m new x l D), (ring_next _ _ _ (proj2 D)). destruct l as [|a l].
  - exact (add_tail_dlist m new x [] Hnew D).
  - apply (dlist_rotate _ x [new] a l). apply (dlist_rotate m x [] a l) in D.
    replace (l ++ [x; new]) with ((l ++ [x]) ++ [new]) by (by rewrite <- app_assoc).
    apply add_tail_dlist; [set_solver|done].
Qed.

(** Deleting a node that is not alone leaves the ring of the others. *)
Lemma del_dlist m x a l : dlist m x (a :: l) -> dlist (__list_del_entry m x) a l.
Proof.
  intros [Hd R]. apply list.NoDup_cons in Hd as [Hx Hd]. split; [done|].
  unfold __list_del_entry. rewrite (ring_prev _ _ _ R), (ring_next _ _ _ R), last_cons.
  destruct R as [[_ Hc] _]. pose proof (ring_last_in a l) as Hp. set (p := List.last l a) in *. split.
  - apply (chain_ext m); [done|..|done]; unfold __list_del.
    + intros z Hz Hne. ptrs; subst; done.
    + intros z Hz. ptrs; subst; [by apply list.NoDup_cons in Hd as [? _]|done].
  - fold p. unfold __list_del. split; ptrs; done.
Qed.

Lemma dlist_ends m x l : dlist m x l -> next m x ∈ x :: l /\ prev m x ∈ x :: l.
Proof.
  intros [_ R]. rewrite (ring_next _ _ _ R), (ring_prev _ _ _ R). split; [|apply ring_last_in].
  destruct l; cbn; set_solver.
Qed.

Lemma add_tail_writes m new x l : dlist m x l -> writes (new :: x :: l) m (list_add_tail m new x).
Proof.
  intros D z Hz. destruct (dlist_ends m x l D) as [_ Hp]. unfold list_add_tail, __list_add.
  split; ptrs; subst; set_solver.
Qed.

Lemma del_writes m x l : dlist m x l -> writes (x :: l) m (__list_del_entry m x).
Proof.
  intros D z Hz. destruct (dlist_ends m x l D) as [Hn Hp]. unfold __list_del_entry, __list_del.
  split; ptrs; subst; set_solver.
Qed.

(** Splicing the elements of [g] in front of a node of another ring. *)
Lemma splice_dlist m n c g a l :
  dlist m n c -> dlist m g (a :: l) -> (n :: c) ## (a :: l) ->
  dlist (__list_splice m g (prev m n) n) n (c ++ a :: l).
Proof.
  intros [Hd R] [Hd2 R2] Hdis. apply list.NoDup_cons in Hd2 as [Hg Hd2]. split.
  { rewrite app_comm_cons. apply list.NoDup_app. split_and!; [done| |done]. intros z Hz Hz'. exact (Hdis z Hz Hz'). }
  unfold __list_splice. rewrite (ring_prev _ _ _ R), (ring_prev _ _ _ R2), (ring_next _ _ _ R2), last_cons.
  destruct R as [Hc _]. destruct R2 as [[_ Hc2] _].
  pose proof (ring_last_in n c) as Hp. pose proof (ring_last_in a l) as Hq. set (p := List.last c n) in *. set (q := List.last l a) in *.
  assert (Hpq : forall z, z ∈ n :: c -> z <> q /\ z <> a) by
    (intros z Hz; split; intros ->; apply (Hdis _ Hz); [done|by left]).
  assert (Hn : forall z, z ∈ a :: l -> z <> p /\ z <> n) by
    (intros z Hz; split; intros ->; [exact (Hdis _ Hp Hz)|exact (Hdis n ltac:(by left) Hz)]).
  split; [apply chain_app; split|].
  - apply (chain_ext m); [done|..|done].
    + intros z Hz Hne. destruct (Hpq z Hz). ptrs; subst; done.
    + intros z Hz. destruct (Hpq z ltac:(by right)). ptrs; subst; [by apply list.NoDup_cons in Hd as [? _]|done|done].
  - fold p. destruct (Hn a ltac:(by left)). destruct (Hpq p Hp). split; [split; ptrs; congruence|].
    apply (chain_ext m); [done|..|done].
    + intros z Hz Hne. destruct (Hn z Hz). ptrs; subst; done.
    + intros z Hz. destruct (Hn z ltac:(by right)). ptrs; subst; try done. by apply list.NoDup_cons in Hd2 as [? _].
  - rewrite last_app, last_cons. fold q. destruct (Hpq n ltac:(by left)). destruct (Hn q Hq). split; ptrs; congruence.
Qed.

Lemma splice_writes m n c g l :
  dlist m n c -> dlist m g l -> writes (n :: c ++ g :: l) m (__list_splice m g (prev m n) n).
Proof.
  intros D D2 z Hz. destruct (dlist_ends m n c D) as [_ Hp]. destruct (dlist_ends m g l D2) as [Hn2 Hp2].
  unfold __list_splice. split; ptrs; subst; set_solver.
Qed.

(** Splicing after the head is splicing in front of its successor. *)
Lemma splice_head_eq m h c g :
  dlist m h c -> __list_splice m g h (next m h) = __list_splice m g (prev m (next m h)) (next m h).
Proof.
  intros [_ R]. destruct c as [|a c]; destruct R as [H1 H2].
  - destruct H2 as [E1 E2]. cbn in E1, E2. by rewrite E1, E2.
  - destruct H1 as [[E1 E2] _]. by rewrite E1, E2.
Qed.

Lemma replace_dlist m old new l :
  new ∉ old :: l -> dlist m old l -> dlist (list_replace m old new) new l.
Proof.
  intros [Hne Hnew]%not_elem_of_cons [Hd R]. apply list.NoDup_cons in Hd as [Ho Hd].
  split; [by apply list.NoDup_cons|]. unfold list_replace. destruct l as [|a l].
  - destruct R as [_ [E1 E2]]. cbn [List.last] in E1, E2. split; [done|]. split; cbn [List.last]; ptrs; congruence.
  - pose proof (ring_prev _ _ _ R) as Ep. rewrite last_cons in Ep. pose proof (ring_next _ _ _ R) as En.
    destruct R as [[_ Hc] _]. pose proof (ring_last_in a l) as Hp. set (p := List.last l a) in *.
    assert (new <> p /\ old <> p) as [Hnp Hop] by (split; intros ->; done).
    apply not_elem_of_cons in Ho as [Hoa Ho]. apply not_elem_of_cons in Hnew as [Hna Hnew].
    rewrite (next_set_next m new), decide_True, En by done.
    rewrite prev_set_prev, decide_False, prev_set_next, Ep by done. rewrite prev_set_prev, decide_True by done.
    split; [|rewrite last_cons; fold p; split; ptrs; congruence].
    split; [split; ptrs; congruence|].
    apply (chain_ext m); [done|..|done].
    + intros z Hz Hzp. ptrs; subst; try done. by apply elem_of_cons in Hz as [].
    + intros z Hz. ptrs; subst; try done. by apply list.NoDup_cons in Hd as [? _].
Qed.

Lemma replace_writes m old new l : dlist m old l -> writes (new :: old :: l) m (list_replace m old new).
Proof.
  intros D z [Hzn [Hzo Hz]%not_elem_of_cons]%not_elem_of_cons. pose proof (ring_next _ _ _ (proj2 D)) as En.
  pose proof (ring_prev _ _ _ (proj2 D)) as Ep. pose proof (ring_last_in old l) as Hl. set (p := List.last l old) in *.
  assert (z <> p) by (intros ->; by apply elem_of_cons in Hl as []). clearbody p.
  assert (z <> next m old) by (rewrite En; destruct l; [done|]; intros ->; apply Hz; by left).
  unfold list_replace. rewrite (next_set_next m new), decide_True by done.
  set (u := prev _ old). assert (Hu : u = new \/ u = p) by (unfold u; ptrs; auto). clearbody u.
  rewrite (prev_set_prev _ new), decide_True by done. split; ptrs; destruct Hu; congruence.
Qed.

(** Cutting after the nonempty front [b :: l1], whose last node is [entry]. *)
Lemma cut_dlist m list h b l1 l2 :
  list ∉ h :: b :: l1 ++ l2 -> dlist m h (b :: l1 ++ l2) ->
  let m' := __list_cut_position m list h (List.last l1 b) in dlist m' list (b :: l1) /\ dlist m' h l2.
Proof.
  intros Hl [Hd R]. pose proof (ring_last_in b l1) as He. set (e := List.last l1 b) in *.
  destruct R as [[[E1 E2] Hc] Hlast]. rewrite last_cons, last_app in Hlast. fold e in Hlast.
  apply chain_app in Hc as [Hc1 Hc2]. fold e in Hc2.
  apply not_elem_of_cons in Hl as [Hlh Hl]. rewrite app_comm_cons, not_elem_of_app in Hl. destruct Hl as [Hl1 Hl2].
  apply list.NoDup_cons in Hd as [Hh Hd]. rewrite app_comm_cons, not_elem_of_app in Hh. destruct Hh as [Hh1 Hh2].
  rewrite app_comm_cons, list.NoDup_app in Hd. destruct Hd as (Hd1 & Hd12 & Hd2).
  set (nf := match l2 with [] => h | c :: _ => c end).
  assert (Enf : next m e = nf) by (destruct l2; [apply Hlast|apply Hc2]).
  assert (list <> e /\ h <> e) as [Hle Hhe] by (split; intros ->; done).
  assert (list <> b /\ h <> b) as [Hlb Hhb] by (split; intros ->; set_solver).
  assert (list <> nf) by (unfold nf; destruct l2; [done|intros ->; apply Hl2; by left]).
  assert (b <> nf) by (unfold nf; destruct l2; [done|intros ->; eapply Hd12; by left]).
  assert (e <> nf) by (unfold nf; destruct l2; [done|intros ->; apply (Hd12 _ He); by left]).
  unfold __list_cut_position. rewrite Enf, E1, (next_set_next m list), decide_True by done. cbv zeta.
  split; (split; [by apply list.NoDup_cons|]).
  - split; [split; [split; ptrs; congruence|]|rewrite last_cons; fold e; split; ptrs; congruence].
    apply (chain_ext m); [done|..|done].
    + intros z Hz Hze. fold e in Hze. ptrs; subst; done.
    + intros z Hz. ptrs; subst; try done.
      * unfold nf in Hz. destruct l2; [|destruct (Hd12 z ltac:(by right)); by left].
        exfalso. apply Hh1. by right.
      * exfalso. apply Hl1. by right.
      * by apply list.NoDup_cons in Hd1 as [? _].
  - destruct l2 as [|c l2]; unfold nf in *.
    + split; [done|]. cbn [List.last]. split; ptrs; congruence.
    + destruct Hc2 as [_ Hc2]. rewrite last_cons in Hlast. pose proof (ring_last_in c l2) as Hq. set (q := List.last l2 c) in *.
      assert (q <> e) by (intros ->; apply (Hd12 _ He); done). assert (q <> list) by (intros ->; done).
      assert (q <> h) by (intros ->; done). assert (h <> c) by (intros ->; apply Hh2; by left). destruct Hlast as [L1 L2].
      split; [split; [split; ptrs; congruence|]|rewrite last_cons; fold q; split; ptrs; congruence].
      apply (chain_ext m); [done|..|done].
      * intros z Hz Hzq. assert (z <> h /\ z <> e /\ z <> list) as (? & ? & ?); [|ptrs; congruence].
        split_and!; intros E; rewrite E in Hz; [done|exact (Hd12 _ He Hz)|done].
      * intros z Hz. assert (z <> c /\ z <> list /\ z <> b) as (? & ? & ?); [|ptrs; congruence].
        split_and!; intros E; rewrite E in Hz; [by apply list.NoDup_cons in Hd2 as [? _]|apply Hl2; by right|].
        apply (Hd12 b); [by left|by right].
Qed.

(** Deleting the nodes from [b] to [e], entered at [b]. *)
Lemma del_range_dlist m b c1 y c2 :
  dlist m b (c1 ++ y :: c2) -> dlist (list_del_range m b (List.last c1 b)) y c2.
Proof.
  intros [Hd R]. pose proof (ring_prev _ _ _ R) as Ep. rewrite last_app, last_cons in Ep.
  destruct R as [Hc _]. apply chain_app in Hc as [_ [[En _] Hc]].
  rewrite app_comm_cons, list.NoDup_app in Hd. destruct Hd as (_ & Hdis & Hd). split; [done|].
  pose proof (ring_last_in b c1) as He. pose proof (ring_last_in y c2) as Hq.
  set (e := List.last c1 b) in *. set (q := List.last c2 y) in *.
  assert (e <> q) by (intros E; apply (Hdis e He); by rewrite E).
  unfold list_del_range. rewrite Ep, En, (next_set_next m q), decide_False, En, prev_set_next, Ep by done. split.
  - apply (chain_ext m); [done|..|done].
    + intros z Hz Hne. ptrs; [by subst|done].
    + intros z Hz. ptrs; [|done]. subst. by apply list.NoDup_cons in Hd as [? _].
  - fold q. split; ptrs; congruence.
Qed.

(** ** What the tests and the iterators report *)

Lemma empty_dlist m h l : dlist m h l -> list_empty m h = match l with [] => true | _ => false end.
Proof.
  intros [Hd R]. unfold list_empty. rewrite (ring_next _ _ _ R). destruct l as [|a l]; [apply Z.eqb_refl|].
  apply Z.eqb_neq. intros ->. apply list.NoDup_cons in Hd as [Hh _]. apply Hh. by left.
Qed.

Lemma walk_next m h x l fuel :
  chain m x l -> next m (List.last l x) = h -> h ∉ x :: l -> (length l < fuel)%nat ->
  list_walk (next m) fuel x h = Some (x :: l).
Proof.
  revert x fuel. induction l as [|a l IH]; intros x fuel Hc Hn Hh Hf; destruct fuel as [|fuel]; try (cbn in Hf; lia).
  - cbn. cbn in Hn. rewrite Hn. rewrite (proj2 (Z.eqb_neq x h)) by set_solver.
    destruct fuel; cbn; by rewrite Z.eqb_refl.
  - cbn [list_walk]. rewrite (proj2 (Z.eqb_neq x h)) by set_solver. destruct Hc as [[-> _] Hc]. rewrite last_cons in Hn.
    rewrite (IH a fuel); [done|done|done|set_solver|cbn in Hf; lia].
Qed.

Lemma for_each_dlist m h l fuel : dlist m h l -> (length l <= fuel)%nat -> list_for_each fuel m h = Some l.
Proof.
  intros [Hd R] Hf. unfold list_for_each. rewrite (ring_next _ _ _ R). destruct l as [|a l].
  - destruct fuel; cbn; by rewrite Z.eqb_refl.
  - destruct R as [[_ Hc] [Hn _]]. rewrite last_cons in Hn. apply walk_next; [done|done|by apply list.NoDup_cons in Hd as [? _]|].
    cbn in Hf. lia.
Qed.

(** The list with the roles of the two pointers exchanged. *)
Definition mirror (m : links) : links := Links (l_prev m) (l_next m).

Lemma chain_mirror m x l y : chain m x (l ++ [y]) <-> chain (mirror m) y (rev l ++ [x]).
Proof.
  revert x y. induction l as [|a l IH]; intros x y; cbn [app rev chain].
  - unfold link. cbn. tauto.
  - rewrite (IH a y), (chain_app _ y (rev l ++ [a])), last_app. cbn [chain List.last].
    change (link (mirror m) a x) with (prev m a = x /\ next m x = a). unfold link. tauto.
Qed.

Lemma dlist_mirror m h l : dlist m h l -> dlist (mirror m) h (rev l).
Proof.
  intros [Hd [Hc Hl]]. split.
  - apply list.NoDup_cons in Hd as [Hh Hd]. apply list.NoDup_cons. rewrite <- Permutation_rev. done.
  - assert (H : chain m h (l ++ [h])) by (apply chain_app; split; [done|]; split; [exact Hl|exact I]).
    apply chain_mirror in H. rewrite chain_app in H. cbn [chain] in H. split; tauto.
Qed.

Lemma for_each_prev_dlist m h l fuel :
  dlist m h l -> (length l <= fuel)%nat -> list_for_each_prev fuel m h = Some (rev l).
Proof.
  intros D Hf. apply (for_each_dlist (mirror m) h (rev l) fuel); [by apply dlist_mirror|by rewrite length_rev].
Qed.

(** ** The pool of lists *)

(** A pool assigns to each head the sequence of its elements. *)
Notation pool := (gmap Z (list Z)).

(** [z] is the head or an element of the list of [h]. *)
Definition cell (P : pool) (z h : Z) : Prop := exists l, P !! h = Some l /\ z ∈ h :: l.

(** The heap represents the pool: every list is linked, and no node is on two lists. *)
Record rep (m : links) (P : pool) : Prop := {
  rep_dlist : forall h l, P !! h = Some l -> dlist m h l;
  rep_once : forall z h k, cell P z h -> cell P z k -> h = k }.

Definition fresh (P : pool) (z : Z) : Prop := forall h, ~ cell P z h.

Lemma cell_insert P h l z k : cell (<[h := l]> P) z k <-> (k = h /\ z ∈ h :: l) \/ (k <> h /\ cell P z k).
Proof.
  unfold cell. destruct (decide (k = h)) as [->|Hk].
  - rewrite lookup_insert_eq. split; [intros (l' & [= <-] & Hz); by left|intros [[_ Hz]|[? _]]; [by exists l|done]].
  - rewrite lookup_insert_ne by done. split; [intros H; right; split; [done|exact H]|intros [[? _]|[_ H]]; [done|exact H]].
Qed.

(** Updating one list. *)
Lemma rep_insert m m' P h l w :
  rep m P -> writes w m m' -> dlist m' h l -> (forall z k, z ∈ w \/ z ∈ h :: l -> k <> h -> ~ cell P z k) ->
  rep m' (<[h := l]> P).
Proof.
  intros [Hd Ho] Hw D Hf. split.
  - intros k lk. destruct (decide (k = h)) as [->|Hk]; [rewrite lookup_insert_eq; by intros [= <-]|].
    rewrite lookup_insert_ne by done. intros Hl. apply (dlist_frame m); [|by apply Hd]. intros z Hz. apply Hw.
    intros Hzw. apply (Hf z k); [by left|done|by exists lk].
  - intros z k1 k2. rewrite !cell_insert. intros [[-> H1]|[N1 H1]] [[-> H2]|[N2 H2]]; try done.
    + destruct (Hf z k2 (or_intror H1) N2 H2).
    + destruct (Hf z k1 (or_intror H2) N1 H1).
    + by apply (Ho z).
Qed.

(** Forgetting a list. *)
Lemma rep_delete m P h : rep m P -> rep m (delete h P).
Proof.
  intros [Hd Ho]. split.
  - intros k l Hl. apply lookup_delete_Some in Hl as [_ Hl]. by apply Hd.
  - intros z k1 k2 (l1 & H1 & Z1) (l2 & H2 & Z2). apply lookup_delete_Some in H1 as [_ H1], H2 as [_ H2].
    apply (Ho z); [by exists l1|by exists l2].
Qed.

Lemma cell_delete P h z k : cell (delete h P) z k -> k <> h /\ cell P z k.
Proof. intros (l & H & Hz). apply lookup_delete_Some in H as [Hk H]. split; [done|by exists l]. Qed.

(** The nodes of a list are on no other list. *)
Lemma rep_own m P h l z k : rep m P -> P !! h = Some l -> z ∈ h :: l -> k <> h -> ~ cell P z k.
Proof. intros R Hl Hz Hk Hc. apply Hk. apply (rep_once _ _ R z); [done|by exists l]. Qed.

(** The operations as commands, with the node or the head they are called on. *)
Inductive lop :=
  | OpInit (h : Z) | OpAdd (new h : Z) | OpAddTail (new h : Z) | OpDel (x : Z) | OpDelInit (x : Z)
  | OpReplace (old new : Z) | OpReplaceInit (old new : Z) | OpMove (x h : Z) | OpMoveTail (x h : Z) | OpRotate (h : Z)
  | OpSplice (g h : Z) | OpSpliceTail (g h : Z) | OpSpliceInit (g h : Z) | OpSpliceTailInit (g h : Z)
  | OpCut (g h entry : Z).

Definition exec (m : links) (op : lop) : links :=
  match op with
  | OpInit h => INIT_LIST_HEAD m h
  | OpAdd new h => list_add m new h
  | OpAddTail new h => list_add_tail m new h
  | OpDel x => list_del m x
  | OpDelInit x => list_del_init m x
  | OpReplace old new => list_replace m old new
  | OpReplaceInit old new => list_replace_init m old new
  | OpMove x h => list_move m x h
  | OpMoveTail x h => list_move_tail m x h
  | OpRotate h => list_rotate_left m h
  | OpSplice g h => list_splice m g h
  | OpSpliceTail g h => list_splice_tail m g h
  | OpSpliceInit g h => list_splice_init m g h
  | OpSpliceTailInit g h => list_splice_tail_init m g h
  | OpCut g h entry => list_cut_position m g h entry
  end.

(** What each operation does to the pool.  A node to insert must be on no list;
    a head whose elements were spliced away without reinitialising it is lost. *)
Inductive pool_step (P : pool) : lop -> pool -> Prop :=
  | p_init h : fresh P h -> pool_step P (OpInit h) (<[h := []]> P)
  | p_add new h l : P !! h = Some l -> fresh P new -> pool_step P (OpAdd new h) (<[h := new :: l]> P)
  | p_add_tail new h l : P !! h = Some l -> fresh P new -> pool_step P (OpAddTail new h) (<[h := l ++ [new]]> P)
  | p_del x h l1 l2 : P !! h = Some (l1 ++ x :: l2) -> pool_step P (OpDel x) (<[h := l1 ++ l2]> P)
  | p_del_init x h l1 l2 :
      P !! h = Some (l1 ++ x :: l2) -> pool_step P (OpDelInit x) (<[x := []]> (<[h := l1 ++ l2]> P))
  | p_replace old new h l1 l2 :
      P !! h = Some (l1 ++ old :: l2) -> fresh P new -> pool_step P (OpReplace old new) (<[h := l1 ++ new :: l2]> P)
  | p_replace_init old new h l1 l2 :
      P !! h = Some (l1 ++ old :: l2) -> fresh P new ->
      pool_step P (OpReplaceInit old new) (<[old := []]> (<[h := l1 ++ new :: l2]> P))
  | p_replace_head old new l :
      P !! old = Some l -> fresh P new -> pool_step P (OpReplace old new) (<[new := l]> (delete old P))
  | p_move x h k l1 l2 l :
      P !! k = Some (l1 ++ x :: l2) -> <[k := l1 ++ l2]> P !! h = Some l ->
      pool_step P (OpMove x h) (<[h := x :: l]> (<[k := l1 ++ l2]> P))
  | p_move_tail x h k l1 l2 l :
      P !! k = Some (l1 ++ x :: l2) -> <[k := l1 ++ l2]> P !! h = Some l ->
      pool_step P (OpMoveTail x h) (<[h := l ++ [x]]> (<[k := l1 ++ l2]> P))
  | p_rotate h a l : P !! h = Some (a :: l) -> pool_step P (OpRotate h) (<[h := l ++ [a]]> P)
  | p_rotate_nil h : P !! h = Some [] -> pool_step P (OpRotate h) P
  | p_splice_nil op g h :
      P !! g = Some [] -> op ∈ [OpSplice g h; OpSpliceTail g h; OpSpliceInit g h; OpSpliceTailInit g h] -> pool_step P op P
  | p_splice g h lg lh : g <> h -> P !! g = Some lg -> lg <> [] -> P !! h = Some lh ->
      pool_step P (OpSplice g h) (<[h := lg ++ lh]> (delete g P))
  | p_splice_tail g h lg lh : g <> h -> P !! g = Some lg -> lg <> [] -> P !! h = Some lh ->
      pool_step P (OpSpliceTail g h) (<[h := lh ++ lg]> (delete g P))
  | p_splice_init g h lg lh : g <> h -> P !! g = Some lg -> lg <> [] -> P !! h = Some lh ->
      pool_step P (OpSpliceInit g h) (<[g := []]> (<[h := lg ++ lh]> (delete g P)))
  | p_splice_tail_init g h lg lh : g <> h -> P !! g = Some lg -> lg <> [] -> P !! h = Some lh ->
      pool_step P (OpSpliceTailInit g h) (<[g := []]> (<[h := lh ++ lg]> (delete g P)))
  | p_cut g h entry l1 l2 : g <> h -> P !! g = Some [] -> P !! h = Some (l1 ++ l2) -> entry = List.last l1 h ->
      pool_step P (OpCut g h entry) (<[g := l1]> (<[h := l2]> P)).

(** ** Each operation on the pool *)

Lemma writes_refl w m : writes w m m.
Proof. by intros z Hz. Qed.

Lemma fresh_notin P h l z : P !! h = Some l -> fresh P z -> z ∉ h :: l.
Proof. intros Hl Hf Hz. apply (Hf h). by exists l. Qed.

(** Nodes on no list may be written. *)
Lemma rep_scratch m m' P x : rep m P -> fresh P x -> writes [x] m m' -> rep m' P.
Proof.
  intros [Hd Ho] Hf Hw. split; [|done]. intros h l Hl. apply (dlist_frame m); [|by apply Hd].
  intros z Hz. apply Hw. intros ->%list_elem_of_singleton. by apply (fresh_notin P h l x).
Qed.

Lemma rep_new m m' P x : rep m P -> fresh P x -> writes [x] m m' -> dlist m' x [] -> rep m' (<[x := []]> P).
Proof.
  intros R Hf Hw D. apply (rep_insert m m' P x [] [x] R Hw D).
  intros z k [Hz|Hz] _; apply list_elem_of_singleton in Hz as ->; apply Hf.
Qed.

(** An update of one list by nodes of its own and one node that was on none. *)
Lemma rep_grow m m' P h l l' x :
  rep m P -> P !! h = Some l -> fresh P x -> writes (x :: h :: l) m m' -> dlist m' h l' ->
  (forall z, z ∈ l' -> z ∈ x :: h :: l) -> rep m' (<[h := l']> P).
Proof.
  intros R Hl Hf Hw D Hs. apply (rep_insert m m' P h l' (x :: h :: l) R Hw D).
  assert (G : forall z k, z ∈ x :: h :: l -> k <> h -> ~ cell P z k).
  { intros z k [->|Hz]%elem_of_cons Hk; [apply Hf|by apply (rep_own m P h l)]. }
  intros z k [Hz|[->|Hz]%elem_of_cons] Hk; [by apply G|apply G; [right; by left|done]|apply G; [by apply Hs|done]].
Qed.

Lemma rep_add_tail m P new h l :
  rep m P -> P !! h = Some l -> fresh P new -> rep (list_add_tail m new h) (<[h := l ++ [new]]> P).
Proof.
  intros R Hl Hf. pose proof (rep_dlist _ _ R h l Hl) as D. apply (rep_grow m _ P h l _ new R Hl Hf).
  - by apply add_tail_writes.
  - apply add_tail_dlist; [by apply (fresh_notin P)|done].
  - intros z. rewrite elem_of_app, list_elem_of_singleton. set_solver.
Qed.

Lemma add_writes m new x l : dlist m x l -> writes (new :: x :: l) m (list_add m new x).
Proof.
  intros D z Hz. destruct (dlist_ends m x l D) as [Hn _]. unfold list_add, __list_add.
  split; ptrs; subst; set_solver.
Qed.

Lemma rep_add m P new h l :
  rep m P -> P !! h = Some l -> fresh P new -> rep (list_add m new h) (<[h := new :: l]> P).
Proof.
  intros R Hl Hf. pose proof (rep_dlist _ _ R h l Hl) as D. apply (rep_grow m _ P h l _ new R Hl Hf).
  - by apply add_writes.
  - apply add_dlist; [by apply (fresh_notin P)|done].
  - intros z. rewrite !elem_of_cons. tauto.
Qed.

Lemma unlink_dlist m h l1 x l2 : dlist m h (l1 ++ x :: l2) -> dlist (__list_del_entry m x) h (l1 ++ l2).
Proof.
  intros D%dlist_rotate. destruct l2 as [|a l2]; cbn [app] in D.
  - rewrite app_nil_r. by apply del_dlist.
  - apply dlist_rotate. by apply del_dlist.
Qed.

Lemma rep_unlink m P x h l1 l2 :
  rep m P -> P !! h = Some (l1 ++ x :: l2) ->
  rep (__list_del_entry m x) (<[h := l1 ++ l2]> P) /\ fresh (<[h := l1 ++ l2]> P) x.
Proof.
  intros R Hl. pose proof (rep_dlist _ _ R h _ Hl) as D. split.
  - apply (rep_insert m _ P h _ (x :: l2 ++ h :: l1) R).
    + apply del_writes. by apply dlist_rotate.
    + by apply unlink_dlist.
    + intros z k Hz Hk. apply (rep_own m P h _ z k R Hl); [|done]. rewrite <- rotate_perm.
      destruct Hz as [Hz|Hz]; [done|]. revert Hz. rewrite !elem_of_cons, !elem_of_app, elem_of_cons. tauto.
  - intros k. rewrite cell_insert. intros [[_ Hx]|[Hk Hx]].
    + destruct D as [Hd _]. rewrite <- Permutation_middle, Permutation_swap in Hd.
      by apply list.NoDup_cons in Hd as [Hd _].
    + apply Hk, (rep_once _ _ R x); [done|]. exists (l1 ++ x :: l2). split; [done|]. set_solver.
Qed.

Lemma rep_replace m P old new h l1 l2 :
  rep m P -> P !! h = Some (l1 ++ old :: l2) -> fresh P new ->
  rep (list_replace m old new) (<[h := l1 ++ new :: l2]> P) /\ fresh (<[h := l1 ++ new :: l2]> P) old.
Proof.
  intros R Hl Hf. pose proof (rep_dlist _ _ R h _ Hl) as D. pose proof (proj1 (dlist_rotate _ _ _ _ _) D) as D'.
  pose proof (fresh_notin P h _ new Hl Hf) as Hn. split.
  - apply (rep_grow m _ P h _ _ new R Hl Hf).
    + apply (writes_weaken (new :: old :: l2 ++ h :: l1)); [by apply replace_writes|].
      intros z. rewrite (rotate_perm h old l1 l2). done.
    + apply dlist_rotate. apply replace_dlist; [by rewrite (rotate_perm h old l1 l2)|done].
    + intros z. rewrite !elem_of_cons, !elem_of_app, !elem_of_cons. tauto.
  - intros k. rewrite cell_insert. intros [[_ Hx]|[Hk Hx]].
    + destruct D' as [Hd _]. apply list.NoDup_cons in Hd as [Hd _]. apply Hd.
      assert (old <> new) by (intros ->; apply Hn; set_solver). revert Hx. rewrite !elem_of_cons, !elem_of_app, !elem_of_cons. tauto.
    + apply Hk, (rep_once _ _ R old); [done|]. exists (l1 ++ old :: l2). split; [done|]. set_solver.
Qed.

Lemma rep_replace_head m P old new l :
  rep m P -> P !! old = Some l -> fresh P new -> rep (list_replace m old new) (<[new := l]> (delete old P)).
Proof.
  intros R Hl Hf. pose proof (rep_dlist _ _ R old _ Hl) as D. pose proof (fresh_notin P old _ new Hl Hf) as Hn.
  apply (rep_insert m _ _ new l (new :: old :: l)); [by apply rep_delete|by apply replace_writes|by apply replace_dlist|].
  intros z k Hz Hk [Ho Hc]%cell_delete. assert (z ∈ new :: old :: l) as [->|Hz']%elem_of_cons by set_solver.
  - exact (Hf k Hc).
  - exact (rep_own m P old l z k R Hl Hz' Ho Hc).
Qed.

Lemma splice_head_dlist m h c g a l :
  dlist m h c -> dlist m g (a :: l) -> (h :: c) ## (a :: l) ->
  dlist (__list_splice m g h (next m h)) h ((a :: l) ++ c).
Proof.
  intros D Dg Hdis. rewrite (splice_head_eq m h c g D), (ring_next _ _ _ (proj2 D)). destruct c as [|b c].
  - rewrite app_nil_r. exact (splice_dlist m h [] g a l D Dg Hdis).
  - apply dlist_rotate. replace (c ++ h :: a :: l) with ((c ++ [h]) ++ a :: l) by (by rewrite <- app_assoc).
    apply splice_dlist; [by apply (dlist_rotate m h [] b c)|done|]. intros z Hz. apply Hdis. set_solver.
Qed.

Lemma splice_head_writes m h c g l :
  dlist m h c -> dlist m g l -> writes (h :: c ++ g :: l) m (__list_splice m g h (next m h)).
Proof.
  intros D D2 z Hz. destruct (dlist_ends m h c D) as [Hp _]. destruct (dlist_ends m g l D2) as [Hn2 Hp2].
  unfold __list_splice. split; ptrs; subst; set_solver.
Qed.

(** Either way the elements of [g] end up on the list of [h]. *)
Lemma rep_splice m P g h a l lh m' lh' :
  rep m P -> g <> h -> P !! g = Some (a :: l) -> P !! h = Some lh ->
  m' = __list_splice m g h (next m h) /\ lh' = (a :: l) ++ lh \/ m' = __list_splice m g (prev m h) h /\ lh' = lh ++ a :: l ->
  rep m' (<[h := lh']> (delete g P)) /\ fresh (<[h := lh']> (delete g P)) g.
Proof.
  intros R Hne Hg Hh Hm. pose proof (rep_dlist _ _ R g _ Hg) as Dg. pose proof (rep_dlist _ _ R h _ Hh) as Dh.
  assert (Hdis : forall z, z ∈ h :: lh -> z ∉ g :: a :: l).
  { intros z H1 H2. apply Hne. apply (rep_once _ _ R z); [by exists (a :: l)|by exists lh]. }
  assert (Hin : forall z, z ∈ lh' -> z ∈ lh \/ z ∈ a :: l) by (intros z; destruct Hm as [[_ ->]|[_ ->]]; rewrite elem_of_app; tauto).
  split.
  - apply (rep_insert m _ _ h lh' (h :: lh ++ g :: a :: l)); [by apply rep_delete|..].
    + destruct Hm as [[-> _]|[-> _]]; [by apply splice_head_writes|by apply splice_writes].
    + destruct Hm as [[-> ->]|[-> ->]]; [apply splice_head_dlist|apply splice_dlist]; try done;
        intros z H1 H2; apply (Hdis z H1); by right.
    + intros z k Hz Hk [Hkg Hc]%cell_delete.
      assert (z ∈ h :: lh \/ z ∈ g :: a :: l) as [H1|H1].
      { revert Hz. rewrite !elem_of_cons, elem_of_app, elem_of_cons. specialize (Hin z). rewrite elem_of_cons in *. tauto. }
      * exact (rep_own m P h lh z k R Hh H1 Hk Hc).
      * exact (rep_own m P g _ z k R Hg H1 Hkg Hc).
  - intros k. rewrite cell_insert. intros [[_ [->|Hx]%elem_of_cons]|[Hk [Hg' Hx]%cell_delete]]; [done| |].
    + apply Hin in Hx as [Hx|Hx]; [apply (Hdis g); [by right|by left]|].
      destruct Dg as [Hd _]. by apply list.NoDup_cons in Hd as [? _].
    + apply Hg', (rep_once _ _ R g); [done|]. exists (a :: l). split; [done|by left].
Qed.

Lemma cut_writes m g h l e : dlist m h l -> e ∈ l -> writes (g :: h :: l) m (__list_cut_position m g h e).
Proof.
  intros D He z [Hzg Hz]%not_elem_of_cons. destruct (dlist_ends m h l D) as [Hn _].
  assert (Hz' : z <> h /\ z <> e /\ z <> next m h /\ z <> next m e).
  { split_and!; intros ->; apply Hz; [by left|by right|done|].
    apply list_elem_of_split in He as (l1 & l2 & ->). apply dlist_rotate in D.
    destruct (dlist_ends _ _ _ D) as [He _]. by rewrite <- rotate_perm. }
  destruct Hz' as (? & ? & ? & ?). unfold __list_cut_position. rewrite (next_set_next m g), decide_True by done.
  split; ptrs; congruence.
Qed.

Lemma last_self (h : Z) l : h ∉ l -> List.last l h = h -> l = [].
Proof.
  intros Hh Hl. destruct l as [|a l]; [done|]. rewrite last_cons in Hl. pose proof (ring_last_in a l) as Hi. by rewrite Hl in Hi.
Qed.

Lemma rep_cut_core m P g h b l1 l2 :
  rep m P -> g <> h -> P !! g = Some [] -> P !! h = Some (b :: l1 ++ l2) -> g ∉ h :: b :: l1 ++ l2 ->
  rep (__list_cut_position m g h (List.last l1 b)) (<[g := b :: l1]> (<[h := l2]> P)).
Proof.
  intros R Hne Hg Hh Hgn. pose proof (rep_dlist _ _ R h _ Hh) as D.
  destruct (cut_dlist m g h b l1 l2 Hgn D) as [D1 D2].
  assert (W : writes (g :: h :: b :: l1 ++ l2) m (__list_cut_position m g h (List.last l1 b))).
  { apply cut_writes; [done|]. rewrite app_comm_cons. apply elem_of_app. left. apply ring_last_in. }
  set (m' := __list_cut_position _ _ _ _) in *. clearbody m'.
  assert (O : forall z k, z ∈ g :: h :: b :: l1 ++ l2 -> k <> h -> k <> g -> ~ cell P z k).
  { intros z k [->|Hz]%elem_of_cons Hk Hk'; [apply (rep_own m P g [] g k R Hg); [by left|done]|].
    by apply (rep_own m P h _ z k R Hh). }
  assert (R1 : rep m' (<[h := l2]> (delete g P))).
  { apply (rep_insert m m' _ h l2 _ (rep_delete m P g R) W D2). intros z k Hz Hk [Hkg Hc]%cell_delete.
    apply (O z k); [|done..|done]. revert Hz. rewrite app_comm_cons, !elem_of_cons, !elem_of_app, !elem_of_cons. tauto. }
  rewrite <- (insert_delete_eq (<[h := l2]> P)), delete_insert_ne by done.
  apply (rep_insert m' m' _ g (b :: l1) [] R1 (writes_refl _ _) D1).
  intros z k [Hz|Hz] Hk; [by apply elem_of_nil in Hz|]. rewrite cell_insert. intros [[-> Hz2]|[Hkh [_ Hc]%cell_delete]].
  - destruct D as [Hd _]. apply elem_of_cons in Hz as [->|Hz].
    + apply Hgn. revert Hz2. rewrite app_comm_cons, !elem_of_cons, elem_of_app. tauto.
    + apply list.NoDup_cons in Hd as [Hh' Hd]. rewrite app_comm_cons, list.NoDup_app in Hd. destruct Hd as (_ & Hdis & _).
      apply elem_of_cons in Hz2 as [->|Hz2]; [|exact (Hdis z Hz Hz2)]. apply Hh'. rewrite app_comm_cons, elem_of_app. by left.
  - apply (O z k); [|done..|done]. revert Hz. rewrite app_comm_cons, !elem_of_cons, !elem_of_app, !elem_of_cons. tauto.
Qed.

(** On a list with the entry the test for a single other element fails. *)
Lemma cut_guard m h b l1 l2 :
  dlist m h (b :: l1 ++ l2) ->
  list_is_singular m h && (negb (next m h =? List.last l1 b) && negb (h =? List.last l1 b)) = false.
Proof.
  intros [Hd R]. unfold list_is_singular. rewrite (ring_next _ _ _ R), (ring_prev _ _ _ R), last_cons, last_app.
  destruct (Z.eqb_spec b (List.last l2 (List.last l1 b))) as [E|]; [|by rewrite andb_false_r].
  apply list.NoDup_cons in Hd as [_ Hd]. destruct l1 as [|c l1]; [cbn [List.last]; rewrite Z.eqb_refl; by rewrite andb_false_r|].
  exfalso. apply list.NoDup_cons in Hd as [Hb _]. apply Hb. rewrite last_cons in E.
  pose proof (ring_last_in (List.last l1 c) l2) as H2. rewrite <- E in H2. pose proof (ring_last_in c l1) as H1.
  apply elem_of_app. apply elem_of_cons in H2 as [->|H2]; [by left|by right].
Qed.

Lemma rep_cut m P g h l1 l2 :
  rep m P -> g <> h -> P !! g = Some [] -> P !! h = Some (l1 ++ l2) ->
  rep (list_cut_position m g h (List.last l1 h)) (<[g := l1]> (<[h := l2]> P)).
Proof.
  intros R Hne Hg Hh. pose proof (rep_dlist _ _ R h _ Hh) as D.
  assert (Hgn : g ∉ h :: l1 ++ l2) by (intros Hc; apply Hne, (rep_once _ _ R g); [exists []; split; [done|by left]|by eexists]).
  unfold list_cut_position. rewrite (empty_dlist _ _ _ D). destruct l1 as [|b l1]; cbn [app] in *.
  - cbn [List.last]. rewrite (insert_id P h) by done. rewrite insert_id by done.
    destruct l2 as [|a l2]; [done|]. rewrite Z.eqb_refl, !andb_false_r. rewrite <- (insert_id P g []) by done.
    apply (rep_insert m _ P g [] [g] R (init_writes m g) (init_dlist m g)).
    intros z k [Hz|Hz] Hk; apply list_elem_of_singleton in Hz as ->; (apply (rep_own m P g [] g k R Hg); [by left|done]).
  - rewrite last_cons, (cut_guard m h b l1 l2 D). rewrite (proj2 (Z.eqb_neq (List.last l1 b) h)); [by apply rep_cut_core|].
    intros E. pose proof (ring_last_in b l1) as Hi. rewrite E in Hi. destruct D as [Hd _]. apply list.NoDup_cons in Hd as [Hd _].
    apply Hd. rewrite app_comm_cons, elem_of_app. by left.
Qed.

(** ** Correctness *)

Lemma splice_step m P g h lg lh m' lh' :
  rep m P -> g <> h -> P !! g = Some lg -> lg <> [] -> P !! h = Some lh ->
  m' = __list_splice m g h (next m h) /\ lh' = lg ++ lh \/ m' = __list_splice m g (prev m h) h /\ lh' = lh ++ lg ->
  list_empty m g = false /\ rep m' (<[h := lh']> (delete g P)) /\ rep (INIT_LIST_HEAD m' g) (<[g := []]> (<[h := lh']> (delete g P))).
Proof.
  intros R Hne Hg Hn Hh Hm. destruct lg as [|a l]; [done|]. rewrite (empty_dlist _ _ _ (rep_dlist _ _ R _ _ Hg)).
  destruct (rep_splice m P g h a l lh m' lh' R Hne Hg Hh Hm) as [R' F]. split; [done|]. split; [done|].
  exact (rep_new m' _ _ g R' F (init_writes m' g) (init_dlist m' g)).
Qed.

(** The pointer operations of list.h implement operations on sequences: from
    a heap that represents a pool of disjoint lists, each of the operations leads
    to a heap that represents the pool with the corresponding change -- insertion
    at either end, deletion, replacement, moving, rotation, splicing and cutting --
    and with all other lists as they were. *)
Theorem list_ops_refine (m : links) (P P' : pool) (op : lop) : rep m P -> pool_step P op P' -> rep (exec m op) P'.
Proof.
  intros R S. destruct S as [h Hf|new h l Hl Hf|new h l Hl Hf|x h l1 l2 Hl|x h l1 l2 Hl|old new h l1 l2 Hl Hf|
    old new h l1 l2 Hl Hf|old new l Hl Hf|x h k l1 l2 l Hk Hl|x h k l1 l2 l Hk Hl|h a l Hl|h Hl|op g h Hg Ho|
    g h lg lh Hne Hg Hn Hh|g h lg lh Hne Hg Hn Hh|g h lg lh Hne Hg Hn Hh|g h lg lh Hne Hg Hn Hh|g h e l1 l2 Hne Hg Hh ->];
    cbn [exec].
  - exact (rep_new m _ P h R Hf (init_writes m h) (init_dlist m h)).
  - by apply rep_add.
  - by apply rep_add_tail.
  - destruct (rep_unlink m P x h l1 l2 R Hl) as [R' F]. apply (rep_scratch _ _ _ x R' F).
    intros z Hz. unfold list_del. split; ptrs; set_solver.
  - destruct (rep_unlink m P x h l1 l2 R Hl) as [R' F]. exact (rep_new _ _ _ x R' F (init_writes _ x) (init_dlist _ x)).
  - by apply rep_replace.
  - destruct (rep_replace m P old new h l1 l2 R Hl Hf) as [R' F].
    exact (rep_new _ _ _ old R' F (init_writes _ old) (init_dlist _ old)).
  - by apply rep_replace_head.
  - destruct (rep_unlink m P x k l1 l2 R Hk) as [R' F]. by apply rep_add.
  - destruct (rep_unlink m P x k l1 l2 R Hk) as [R' F]. by apply rep_add_tail.
  - pose proof (rep_dlist _ _ R _ _ Hl) as D. unfold list_rotate_left, list_move_tail.
    rewrite (empty_dlist _ _ _ D), (ring_next _ _ _ (proj2 D)). cbn [negb].
    destruct (rep_unlink m P a h [] l R Hl) as [R' F].
    pose proof (rep_add_tail _ _ a h l R' (lookup_insert_eq _ _ _) F) as H. by rewrite insert_insert_eq in H.
  - unfold list_rotate_left. by rewrite (empty_dlist _ _ _ (rep_dlist _ _ R _ _ Hl)).
  - pose proof (empty_dlist _ _ _ (rep_dlist _ _ R _ _ Hg)) as E. repeat setoid_rewrite elem_of_cons in Ho.
    rewrite elem_of_nil in Ho. destruct Ho as [-> |[-> |[-> |[-> |[]]]]]; cbn [exec];
      unfold list_splice, list_splice_tail, list_splice_init, list_splice_tail_init; by rewrite E.
  - destruct (splice_step m P g h lg lh _ _ R Hne Hg Hn Hh (or_introl (conj eq_refl eq_refl))) as (E & R' & _).
    unfold list_splice. by rewrite E.
  - destruct (splice_step m P g h lg lh _ _ R Hne Hg Hn Hh (or_intror (conj eq_refl eq_refl))) as (E & R' & _).
    unfold list_splice_tail. by rewrite E.
  - destruct (splice_step m P g h lg lh _ _ R Hne Hg Hn Hh (or_introl (conj eq_refl eq_refl))) as (E & _ & R').
    unfold list_splice_init. by rewrite E.
  - destruct (splice_step m P g h lg lh _ _ R Hne Hg Hn Hh (or_intror (conj eq_refl eq_refl))) as (E & _ & R').
    unfold list_splice_tail_init. by rewrite E.
  - by apply rep_cut.
Qed.

Lemma last_some (x : Z) l : list.last (x :: l) = Some (List.last l x).
Proof. revert x. induction l as [|y l IH]; intros x; [done|]. rewrite last_cons. exact (IH y). Qed.

Lemma is_last_dlist m h l x : dlist m h l -> x ∈ l -> list_is_last m x h = bool_decide (list.last l = Some x).
Proof.
  intros D (l1 & l2 & ->)%list_elem_of_split. pose proof (proj1 (dlist_rotate _ _ _ _ _) D) as [Hd R].
  unfold list_is_last. rewrite (ring_next _ _ _ R), list.last_app_cons, last_some.
  apply list.NoDup_cons in Hd as [Hx Hd]. destruct l2 as [|b l2]; cbn [app] in *.
  - rewrite Z.eqb_refl. symmetry. by apply bool_decide_eq_true_2.
  - rewrite last_cons, bool_decide_eq_false_2.
    + apply Z.eqb_neq. intros ->. apply list.NoDup_cons in Hd as [Hh _]. apply Hh, elem_of_app. right. by left.
    + intros [= E]. apply Hx. pose proof (ring_last_in b l2) as Hl. rewrite E in Hl. rewrite app_comm_cons, elem_of_app. by left.
Qed.

(** What the tests and the loops see: on the list with elements [l] the
    iterations over the head terminate and visit [l] forwards and backwards, the
    emptiness tests and the test for a single element agree with the length, and
    the first and the last entry are those of [l]. *)
Theorem list_observers_correct (m : links) (h : Z) (l : list Z) (fuel : nat) :
  dlist m h l -> (length l <= fuel)%nat ->
  list_for_each fuel m h = Some l /\ list_for_each_prev fuel m h = Some (rev l) /\
  list_empty m h = bool_decide (l = []) /\ list_empty_careful m h = bool_decide (l = []) /\
  list_is_singular m h = (length l =? 1)%nat /\
  list_first_entry_or_null m h = head l /\ list_last_entry_or_null m h = list.last l /\
  (forall x, x ∈ l -> list_is_last m x h = bool_decide (list.last l = Some x)).
Proof.
  intros D Hf. split; [by apply for_each_dlist|]. split; [by apply for_each_prev_dlist|].
  pose proof (empty_dlist _ _ _ D) as E. pose proof (ring_next _ _ _ (proj2 D)) as En. pose proof (ring_prev _ _ _ (proj2 D)) as Ep.
  unfold list_empty_careful, list_is_singular, list_first_entry_or_null, list_last_entry_or_null.
  split_and!; [by rewrite E; destruct l|..|intros x Hx; by apply is_last_dlist]; rewrite ?E; clear E; rewrite ?En, ?Ep.
  - destruct l as [|a l]; [cbn; by rewrite Z.eqb_refl|]. rewrite (proj2 (Z.eqb_neq a h)); [done|].
    intros ->. destruct D as [Hd _]. apply list.NoDup_cons in Hd as [Hh _]. apply Hh. by left.
  - destruct l as [|a [|b l]]; [done|cbn; by rewrite Z.eqb_refl|]. rewrite !last_cons. cbn [negb andb length].
    apply Z.eqb_neq. intros ->. destruct D as [Hd _]. apply list.NoDup_cons in Hd as [_ Hd].
    apply list.NoDup_cons in Hd as [Ha _]. apply Ha, ring_last_in.
  - by destruct l.
  - destruct l as [|a l]; [done|]. by rewrite last_some, last_cons.
Qed.

(** ** Examples *)

Definition example_links : links :=
  fold_left exec [OpInit 1; OpInit 2; OpAddTail 10 1; OpAddTail 11 1; OpAdd 12 1] (Links ∅ ∅).
Definition example_pool : pool := {[1 := [12; 10; 11]; 2 := []]}.

Lemma example_rep : rep example_links example_pool.
Proof.
  assert (D1 : dlist example_links 1 [12; 10; 11]) by (split; [apply NoDup_ListNoDup; repeat constructor; set_solver|vm_compute; tauto]).
  assert (D2 : dlist example_links 2 []) by (split; [apply NoDup_singleton|vm_compute; tauto]).
  assert (H : forall h l, example_pool !! h = Some l -> (h = 1 /\ l = [12; 10; 11]) \/ (h = 2 /\ l = [])).
  { intros h l. unfold example_pool. rewrite lookup_insert_Some, lookup_singleton_Some. intuition congruence. }
  split.
  - intros h l Hl. by apply H in Hl as [[-> ->]|[-> ->]].
  - intros z h k (l & Hl & Hz) (l' & Hl' & Hz'). apply H in Hl as [[-> ->]|[-> ->]], Hl' as [[-> ->]|[-> ->]]; set_solver by lia.
Qed.

Lemma list_ops_refine_witness :
  rep (exec example_links (OpCut 2 1 10)) (<[2 := [12; 10]]> (<[1 := [11]]> example_pool)) /\
  list_for_each 5 (exec example_links (OpCut 2 1 10)) 2 = Some [12; 10].
Proof.
  split; [|vm_compute; reflexivity].
  apply (list_ops_refine example_links example_pool); [exact example_rep|].
  exact (p_cut example_pool 2 1 10 [12; 10] [11] ltac:(lia) eq_refl eq_refl eq_refl).
Defined.

Lemma list_observers_correct_witness :
  list_for_each 3 example_links 1 = Some [12; 10; 11] /\ list_for_each_prev 3 example_links 1 = Some [11; 10; 12] /\
  list_is_singular example_links 1 = false.
Proof.
  destruct (list_observers_correct example_links 1 [12; 10; 11] 3) as (H1 & H2 & _ & _ & H3 & _).
  - exact (rep_dlist _ _ example_rep 1 [12; 10; 11] eq_refl).
  - cbn. lia.
  - split; [exact H1|]. split; [exact H2|exact H3].
Defined.
