(* ===== verification/HList.v ===== *)
(** The hash chains of
    src/driver/src/user_space_kernel_def/include/linux/list.h: lists with a
    single pointer as head, whose nodes point back to the pointer that leads to
    them.  The specification is a pool of disjoint sequences. *)
From Stdlib Require Import ZArith Lia Bool.
From stdpp Require Import base list gmap numbers.
From S2P Require Import Prelude LinuxList.
Local Open Scope Z_scope.

(** What [pprev] points to: the [first] of a head, the [next] of a node, a
    poison value or nothing. *)
Inductive slot := SNull | SFirst (h : Z) | SNext (n : Z) | SPoison.

#[global] Instance slot_eq_dec : EqDecision slot.
Proof. solve_decision. Defined.

(** struct hlist_head and struct hlist_node; the null pointer is 0. *)
Record hlinks := HLinks { h_first : gmap Z Z; h_next : gmap Z Z; h_pprev : gmap Z slot }.

Definition first (m : hlinks) (h : Z) : Z := default 0 (h_first m !! h).
Definition hnext (m : hlinks) (n : Z) : Z := default 0 (h_next m !! n).
Definition pprev (m : hlinks) (n : Z) : slot := default SNull (h_pprev m !! n).
Definition set_first (m : hlinks) (h v : Z) : hlinks := HLinks (<[h := v]> (h_first m)) (h_next m) (h_pprev m).
Definition set_hnext (m : hlinks) (n v : Z) : hlinks := HLinks (h_first m) (<[n := v]> (h_next m)) (h_pprev m).
Definition set_pprev (m : hlinks) (n : Z) (s : slot) : hlinks := HLinks (h_first m) (h_next m) (<[n := s]> (h_pprev m)).

(** Writing through [pprev]. *)
Definition set_at (m : hlinks) (s : slot) (v : Z) : hlinks :=
  match s with
  | SFirst h => set_first m h v
  | SNext n => set_hnext m n v
  | SNull | SPoison => m
  end.

Definition INIT_HLIST_HEAD (m : hlinks) (ptr : Z) : hlinks := set_first m ptr 0.

Definition INIT_HLIST_NODE (m : hlinks) (h : Z) : hlinks :=
  let m := set_hnext m h 0 in
  set_pprev m h SNull.

Definition hlist_unhashed (m : hlinks) (h : Z) : bool := bool_decide (pprev m h = SNull).
Definition hlist_empty (m : hlinks) (h : Z) : bool := first m h =? 0.

Definition __hlist_del (m : hlinks) (n : Z) : hlinks :=
  let next := hnext m n in
  let pp := pprev m n in
  let m := set_at m pp next in
  if negb (next =? 0) then set_pprev m next pp else m.

Definition hlist_del (m : hlinks) (n : Z) : hlinks :=
  let m := __hlist_del m n in
  let m := set_hnext m n LIST_POISON1 in
  set_pprev m n SPoison.

Definition hlist_del_init (m : hlinks) (n : Z) : hlinks :=
  if negb (hlist_unhashed m n) then
    let m := __hlist_del m n in INIT_HLIST_NODE m n
  else m.

Definition hlist_add_head (m : hlinks) (n h : Z) : hlinks :=
  let fst := first m h in
  let m := set_hnext m n fst in
  let m := if negb (fst =? 0) then set_pprev m fst (SNext n) else m in
  let m := set_first m h n in
  set_pprev m n (SFirst h).

Definition hlist_add_before (m : hlinks) (n next : Z) : hlinks :=
  let m := set_pprev m n (pprev m next) in
  let m := set_hnext m n next in
  let m := set_pprev m next (SNext n) in
  set_at m (pprev m n) n.

Definition hlist_add_behind (m : hlinks) (n prev : Z) : hlinks :=
  let m := set_hnext m n (hnext m prev) in
  let m := set_hnext m prev n in
  let m := set_pprev m n (SNext prev) in
  if negb (hnext m n =? 0) then set_pprev m (hnext m n) (SNext n) else m.

Definition hlist_add_fake (m : hlinks) (n : Z) : hlinks := set_pprev m n (SNext n).
Definition hlist_fake (m : hlinks) (h : Z) : bool := bool_decide (pprev m h = SNext h).

Definition hlist_move_list (m : hlinks) (old new : Z) : hlinks :=
  let m := set_first m new (first m old) in
  let m := if negb (first m new =? 0) then set_pprev m (first m new) (SFirst new) else m in
  set_first m old 0.

(** [hlist_for_each]: the nodes visited; [None] when [fuel] runs out. *)
Fixpoint hlist_walk (fuel : nat) (m : hlinks) (pos : Z) : option (list Z) :=
  if pos =? 0 then Some []
  else match fuel with
       | O => None
       | S k => option_map (cons pos) (hlist_walk k m (hnext m pos))
       end.

Definition hlist_for_each (fuel : nat) (m : hlinks) (head : Z) : option (list Z) := hlist_walk fuel m (first m head).

(** ** Chains *)

Definition get_at (m : hlinks) (s : slot) : Z :=
  match s with
  | SFirst h => first m h
  | SNext n => hnext m n
  | SNull | SPoison => 0
  end.

(** The pointer at [s] leads to the nodes [l]; the chain is open at its end. *)
Fixpoint part (m : hlinks) (s : slot) (l : list Z) : Prop :=
  match l with
  | [] => True
  | a :: l => get_at m s = a /\ pprev m a = s /\ part m (SNext a) l
  end.

(** The slot behind the nodes [l]. *)
Definition end_slot (s : slot) (l : list Z) : slot :=
  match list.last l with Some a => SNext a | None => s end.

Definition hchain (m : hlinks) (s : slot) (l : list Z) : Prop := part m s l /\ get_at m (end_slot s l) = 0.

Lemma end_slot_cons s a l : end_slot s (a :: l) = end_slot (SNext a) l.
Proof. unfold end_slot. destruct l as [|b l]; [done|]. cbn. by destruct (list.last (b :: l)) eqn:E; [|apply last_None in E]. Qed.

Lemma end_slot_app s l1 l2 : end_slot s (l1 ++ l2) = end_slot (end_slot s l1) l2.
Proof. revert s. induction l1 as [|a l1 IH]; intros s; [done|]. cbn [app]. by rewrite !end_slot_cons. Qed.

Lemma part_app m s l1 l2 : part m s (l1 ++ l2) <-> part m s l1 /\ part m (end_slot s l1) l2.
Proof.
  revert s. induction l1 as [|a l1 IH]; intros s; cbn [app part]; [by cbn; tauto|].
  rewrite IH, end_slot_cons. tauto.
Qed.

(** The slots of a chain but the last one. *)
Lemma part_ext m m' s l :
  (forall t, t ∈ s :: map SNext l -> t <> end_slot s l -> get_at m' t = get_at m t) ->
  (forall a, a ∈ l -> pprev m' a = pprev m a) -> NoDup (s :: map SNext l) -> part m s l -> part m' s l.
Proof.
  revert s. induction l as [|a l IH]; intros s Hg Hp Hd; [done|]. intros (H1 & H2 & H3). cbn [part].
  rewrite end_slot_cons in Hg. apply list.NoDup_cons in Hd as [Hs Hd]. cbn [map] in *.
  assert (He : end_slot (SNext a) l ∈ SNext a :: map SNext l).
  { unfold end_slot. destruct (list.last l) as [b|] eqn:E; [|by left]. right. apply list_elem_of_fmap. exists b.
    split; [done|]. by apply last_Some_elem_of. }
  split; [rewrite Hg; [done|by left|]; intros E; by rewrite <- E in He|]. split; [rewrite Hp; [done|by left]|].
  apply IH; [intros t Ht; apply Hg; by right|intros b Hb; apply Hp; by right|done|done].
Qed.

(** ** Reading an updated heap *)

Definition real (s : slot) : Prop := match s with SFirst _ | SNext _ => True | SNull | SPoison => False end.

Lemma get_set_at m s v t : real s -> get_at (set_at m s v) t = if decide (t = s) then v else get_at m t.
Proof.
  intros Hs. destruct s as [|h|n|], t as [|h'|n'|]; try done; cbn [set_at get_at]; unfold first, hnext; cbn;
    case_decide as E; simplify_eq; by rewrite ?lookup_insert_eq, ?lookup_insert_ne by congruence.
Qed.
Lemma get_set_pprev m n s t : get_at (set_pprev m n s) t = get_at m t.
Proof. by destruct t. Qed.
Lemma pprev_set_at m s v n : pprev (set_at m s v) n = pprev m n.
Proof. by destruct s. Qed.
Lemma pprev_set_pprev m n s z : pprev (set_pprev m n s) z = if decide (z = n) then s else pprev m z.
Proof. unfold pprev. cbn. case_decide; subst; by rewrite ?lookup_insert_eq, ?lookup_insert_ne by done. Qed.

Lemma first_at m h : first m h = get_at m (SFirst h). Proof. done. Qed.
Lemma hnext_at m n : hnext m n = get_at m (SNext n). Proof. done. Qed.
Lemma set_first_at m h v : set_first m h v = set_at m (SFirst h) v. Proof. done. Qed.
Lemma set_hnext_at m n v : set_hnext m n v = set_at m (SNext n) v. Proof. done. Qed.

Lemma real_end h l : real (end_slot (SFirst h) l).
Proof. unfold end_slot. by destruct (list.last l). Qed.

Ltac hptrs :=
  repeat first [rewrite first_at | rewrite hnext_at | rewrite set_first_at | rewrite set_hnext_at];
  repeat first [rewrite get_set_at by (done || apply real_end) | rewrite get_set_pprev | rewrite pprev_set_at
               | rewrite pprev_set_pprev];
  repeat case_decide.

Definition hd0 (l : list Z) : Z := match l with [] => 0 | a :: _ => a end.

Lemma hchain_app m s l1 l2 :
  hchain m s (l1 ++ l2) <-> part m s l1 /\ hchain m (end_slot s l1) l2.
Proof. unfold hchain. rewrite part_app, end_slot_app. tauto. Qed.

Lemma hchain_get m s l : hchain m s l -> get_at m s = hd0 l.
Proof. intros [H1 H2]. destruct l as [|a l]; [done|]. apply H1. Qed.

Lemma slots_nodup h l : NoDup l -> NoDup (SFirst h :: map SNext l).
Proof.
  intros H. apply list.NoDup_cons. split; [by intros (x & ? & ?)%list_elem_of_fmap|].
  apply NoDup_fmap_2; [intros x y; by intros [= ->]|done].
Qed.

Lemma end_slot_in l s : end_slot s l = s \/ exists a, a ∈ l /\ end_slot s l = SNext a.
Proof.
  unfold end_slot. destruct (list.last l) as [a|] eqn:E; [|by left]. right. exists a. split; [by apply last_Some_elem_of|done].
Qed.

(** The chain of nodes [b :: l] does not depend on how it is reached. *)
Lemma hchain_tail m m' b l :
  (forall a, a ∈ b :: l -> hnext m' a = hnext m a) -> (forall a, a ∈ l -> pprev m' a = pprev m a) ->
  hchain m (SNext b) l -> hchain m' (SNext b) l.
Proof.
  intros Hn Hp [H1 H2]. revert b Hn H1 H2. induction l as [|c l IH]; intros b Hn H1 H2.
  - split; [done|]. cbn in *. by rewrite Hn by (by left).
  - destruct H1 as (G & Q & H1). rewrite end_slot_cons in H2.
    destruct (IH ltac:(intros a Ha; apply Hp; by right) c) as [I1 I2]; [intros a Ha; apply Hn; by right|done..|].
    split; [|by rewrite end_slot_cons]. cbn [part get_at] in *.
    split; [by rewrite Hn by (by left)|]. split; [by rewrite Hp by (by left)|done].
Qed.

(** Inserting [n] at the slot behind [l1]. *)
Lemma hchain_insert m m' h l1 l2 n :
  NoDup (l1 ++ l2) -> n ∉ l1 ++ l2 -> hchain m (SFirst h) (l1 ++ l2) ->
  let s := end_slot (SFirst h) l1 in
  get_at m' s = n -> hnext m' n = hd0 l2 -> pprev m' n = s -> (l2 <> [] -> pprev m' (hd0 l2) = SNext n) ->
  (forall t, t <> s -> t <> SNext n -> get_at m' t = get_at m t) ->
  (forall z, z <> n -> (l2 <> [] -> z <> hd0 l2) -> pprev m' z = pprev m z) ->
  hchain m' (SFirst h) (l1 ++ n :: l2).
Proof.
  intros Hd Hn C s G1 G2 G3 G4 G5 G6. apply hchain_app in C as [Hp C]. fold s in C.
  apply list.NoDup_app in Hd as (Hd1 & Hdis & Hd2). rewrite not_elem_of_app in Hn. destruct Hn as [Hn1 Hn2].
  apply hchain_app. split.
  - apply (part_ext m); [..|by apply slots_nodup|done].
    + intros t Ht Hne. apply G5; [done|]. intros ->. apply elem_of_cons in Ht as [|(x & [= ->] & ?)%list_elem_of_fmap]; done.
    + intros a Ha. apply G6; [by intros ->|]. intros Hl ->. apply (Hdis _ Ha). destruct l2; [done|by left].
  - fold s. assert (C' : hchain m' (SNext n) l2); [|destruct C' as [C1 C2]; by split; [|rewrite end_slot_cons]].
    destruct l2 as [|b l2]; [by split|]. cbn [hd0] in *. destruct C as [(_ & _ & P2) E2]. rewrite end_slot_cons in E2.
    assert (T : hchain m' (SNext b) l2).
    { apply (hchain_tail m); [..|by split].
      - intros a Ha. apply (G5 (SNext a)); [|intros [= ->]; done]. intros E.
        destruct (end_slot_in l1 (SFirst h)) as [E'|(c & Hc & E')]; fold s in E'; [congruence|].
        apply (Hdis c Hc). by replace c with a by congruence.
      - intros a Ha. apply G6; [intros ->; apply Hn2; by right|]. intros _ ->. by apply list.NoDup_cons in Hd2 as [? _]. }
    destruct T as [T1 T2]. split; [|by rewrite end_slot_cons]. split; [done|]. split; [by apply G4|done].
Qed.

(** Removing the node behind [l1]. *)
Lemma hchain_remove m m' h l1 n l2 :
  NoDup (l1 ++ n :: l2) -> hchain m (SFirst h) (l1 ++ n :: l2) ->
  let s := end_slot (SFirst h) l1 in
  get_at m' s = hd0 l2 -> (l2 <> [] -> pprev m' (hd0 l2) = s) ->
  (forall t, t <> s -> t <> SNext n -> get_at m' t = get_at m t) ->
  (forall z, z <> n -> (l2 <> [] -> z <> hd0 l2) -> pprev m' z = pprev m z) ->
  hchain m' (SFirst h) (l1 ++ l2).
Proof.
  intros Hd C s G1 G2 G3 G4. apply hchain_app in C as [Hp C]. fold s in C.
  apply list.NoDup_app in Hd as (Hd1 & Hdis & Hd2). apply list.NoDup_cons in Hd2 as [Hn Hd2].
  assert (Hn1 : n ∉ l1) by (intros H; apply (Hdis n H); by left).
  apply hchain_app. split.
  - apply (part_ext m); [..|by apply slots_nodup|done].
    + intros t Ht Hne. apply G3; [done|]. intros ->. apply elem_of_cons in Ht as [|(x & [= ->] & ?)%list_elem_of_fmap]; done.
    + intros a Ha. apply G4; [by intros ->|]. intros Hl ->. apply (Hdis _ Ha). right. destruct l2; [done|by left].
  - fold s. destruct C as [(_ & _ & P2) E2]. rewrite end_slot_cons in E2. destruct l2 as [|b l2]; [by split|].
    cbn [hd0] in *. destruct P2 as (_ & _ & P2). rewrite end_slot_cons in E2.
    assert (T : hchain m' (SNext b) l2).
    { apply (hchain_tail m); [..|by split].
      - intros a Ha. apply (G3 (SNext a)); [|intros [= ->]; done]. intros E.
        destruct (end_slot_in l1 (SFirst h)) as [E'|(c & Hc & E')]; fold s in E'; [congruence|].
        apply (Hdis c Hc). right. by replace c with a by congruence.
      - intros a Ha. apply G4; [intros ->; apply Hn; by right|]. intros _ ->. by apply list.NoDup_cons in Hd2 as [? _]. }
    destruct T as [T1 T2]. split; [|by rewrite end_slot_cons]. split; [done|]. split; [by apply G2|done].
Qed.

(** ** The pool of chains *)

Definition on (P : pool) (z h : Z) : Prop := exists l, P !! h = Some l /\ z ∈ l.
Definition unlinked (P : pool) (z : Z) : Prop := z <> 0 /\ forall h, ~ on P z h.

Record hrep (m : hlinks) (P : pool) : Prop := {
  hr_chain : forall h l, P !! h = Some l -> hchain m (SFirst h) l;
  hr_nodup : forall h l, P !! h = Some l -> NoDup l;
  hr_null : forall h l, P !! h = Some l -> 0 ∉ l;
  hr_once : forall z h k, on P z h -> on P z k -> h = k }.

(** [m'] differs from [m] in the heads [hs] and in the nodes [ns] only. *)
Definition hwrites (hs ns : list Z) (m m' : hlinks) : Prop :=
  (forall h, h ∉ hs -> first m' h = first m h) /\ (forall n, n ∉ ns -> hnext m' n = hnext m n /\ pprev m' n = pprev m n).

Lemma on_insert P h l z k : on (<[h := l]> P) z k <-> (k = h /\ z ∈ l) \/ (k <> h /\ on P z k).
Proof.
  unfold on. destruct (decide (k = h)) as [->|Hk].
  - rewrite lookup_insert_eq. split; [intros (l' & [= <-] & Hz); by left|intros [[_ Hz]|[? _]]; [by exists l|done]].
  - rewrite lookup_insert_ne by done. split; [intros H; right; split; [done|exact H]|intros [[? _]|[_ H]]; [done|exact H]].
Qed.

Lemma hchain_frame m m' h l :
  first m' h = first m h -> (forall n, n ∈ l -> hnext m' n = hnext m n /\ pprev m' n = pprev m n) ->
  hchain m (SFirst h) l -> hchain m' (SFirst h) l.
Proof.
  intros F1 F2 C. destruct l as [|a l]; [destruct C as [_ C]; split; [done|]; cbn in *; by rewrite F1|].
  destruct C as [(G & Q & C) E]. rewrite end_slot_cons in E.
  assert (T : hchain m' (SNext a) l).
  { apply (hchain_tail m); [intros b Hb; by apply F2|intros b Hb; apply F2; by right|by split]. }
  destruct T as [T1 T2]. split; [|by rewrite end_slot_cons]. split; [cbn in *; by rewrite F1|].
  split; [by rewrite (proj2 (F2 a ltac:(by left)))|done].
Qed.

(** Updating one chain. *)
Lemma hrep_insert m m' P h l ns :
  hrep m P -> hwrites [h] ns m m' -> hchain m' (SFirst h) l -> NoDup l -> 0 ∉ l ->
  (forall z k, z ∈ ns \/ z ∈ l -> k <> h -> ~ on P z k) -> hrep m' (<[h := l]> P).
Proof.
  intros [Hc Hd H0 Ho] Hw C D N Hf. split.
  - intros k lk. destruct (decide (k = h)) as [->|Hk]; [rewrite lookup_insert_eq; by intros [= <-]|].
    rewrite lookup_insert_ne by done. intros Hl. apply (hchain_frame m m' k lk); [apply Hw; set_solver| |by apply Hc].
    intros z Hz. apply Hw. intros Hn. apply (Hf z k); [by left|done|by exists lk].
  - intros k lk Hl. apply lookup_insert_Some in Hl as [[_ <-]|[_ Hl]]; [done|by apply (Hd k)].
  - intros k lk Hl. apply lookup_insert_Some in Hl as [[_ <-]|[_ Hl]]; [done|by apply (H0 k)].
  - intros z k1 k2. rewrite !on_insert. intros [[-> H1]|[N1 H1]] [[-> H2]|[N2 H2]]; try done.
    + destruct (Hf z k2 (or_intror H1) N2 H2).
    + destruct (Hf z k1 (or_intror H2) N1 H1).
    + by apply (Ho z).
Qed.

Lemma hd0_in l : l <> [] -> hd0 l ∈ l.
Proof. destruct l; [done|]. intros _. by left. Qed.

(** What the conditions of [hchain_insert] and [hchain_remove] leave alone. *)
Lemma local_writes m m' h n l1 l2 :
  let s := end_slot (SFirst h) l1 in
  (forall t, t <> s -> t <> SNext n -> get_at m' t = get_at m t) ->
  (forall z, z <> n -> (l2 <> [] -> z <> hd0 l2) -> pprev m' z = pprev m z) ->
  hwrites [h] (n :: l1 ++ l2) m m'.
Proof.
  intros s Hg Hp. split.
  - intros k Hk. apply (Hg (SFirst k)); [|done]. intros E. destruct (end_slot_in l1 (SFirst h)) as [E'|(a & _ & E')]; fold s in E'; [|congruence].
    apply Hk. rewrite E' in E. injection E as ->. by left.
  - intros z [Hz1 [Hz2 Hz3]%not_elem_of_app]%not_elem_of_cons. split.
    + apply (Hg (SNext z)); [|congruence]. intros E. destruct (end_slot_in l1 (SFirst h)) as [E'|(a & Ha & E')]; fold s in E'; [congruence|].
      apply Hz2. by replace z with a by congruence.
    + apply Hp; [done|]. intros Hl ->. by apply Hz3, hd0_in.
Qed.

Lemma hrep_own m P h l z k : hrep m P -> P !! h = Some l -> z ∈ l -> k <> h -> ~ on P z k.
Proof. intros R Hl Hz Hk Hc. apply Hk. apply (hr_once _ _ R z); [done|by exists l]. Qed.

Lemma hrep_link m m' P h l1 l2 n :
  hrep m P -> P !! h = Some (l1 ++ l2) -> unlinked P n ->
  let s := end_slot (SFirst h) l1 in
  get_at m' s = n -> hnext m' n = hd0 l2 -> pprev m' n = s -> (l2 <> [] -> pprev m' (hd0 l2) = SNext n) ->
  (forall t, t <> s -> t <> SNext n -> get_at m' t = get_at m t) ->
  (forall z, z <> n -> (l2 <> [] -> z <> hd0 l2) -> pprev m' z = pprev m z) ->
  hrep m' (<[h := l1 ++ n :: l2]> P).
Proof.
  intros R Hl [H0 Hu] s G1 G2 G3 G4 G5 G6. pose proof (hr_nodup _ _ R _ _ Hl) as Hd.
  assert (Hn : n ∉ l1 ++ l2) by (intros Hn; apply (Hu h); by eexists).
  apply (hrep_insert m m' P h _ (n :: l1 ++ l2) R).
  - by apply local_writes.
  - by apply (hchain_insert m); [..|apply (hr_chain _ _ R)| | | | | |].
  - rewrite <- Permutation_middle. by apply list.NoDup_cons.
  - rewrite <- Permutation_middle. intros [Hz|Hz]%elem_of_cons; [by subst|]. by apply (hr_null _ _ R _ _ Hl).
  - intros z k Hz Hk. rewrite <- Permutation_middle in Hz.
    assert (z ∈ n :: l1 ++ l2) as [->|Hz']%elem_of_cons by tauto; [apply Hu|by apply (hrep_own m P h _ z k R Hl)].
Qed.

Lemma hrep_unlink m m' P h l1 n l2 :
  hrep m P -> P !! h = Some (l1 ++ n :: l2) ->
  let s := end_slot (SFirst h) l1 in
  get_at m' s = hd0 l2 -> (l2 <> [] -> pprev m' (hd0 l2) = s) ->
  (forall t, t <> s -> t <> SNext n -> get_at m' t = get_at m t) ->
  (forall z, z <> n -> (l2 <> [] -> z <> hd0 l2) -> pprev m' z = pprev m z) ->
  hrep m' (<[h := l1 ++ l2]> P).
Proof.
  intros R Hl s G1 G2 G3 G4. pose proof (hr_nodup _ _ R _ _ Hl) as Hd.
  assert (Hin : forall z, z ∈ n :: l1 ++ l2 <-> z ∈ l1 ++ n :: l2) by (intros z; by rewrite <- Permutation_middle).
  apply (hrep_insert m m' P h _ (n :: l1 ++ l2) R).
  - by apply local_writes.
  - by apply (hchain_remove m _ _ _ n); [..|apply (hr_chain _ _ R)| | | |].
  - rewrite <- Permutation_middle in Hd. by apply list.NoDup_cons in Hd as [_ Hd].
  - intros Hz. apply (hr_null _ _ R _ _ Hl), Hin. by right.
  - intros z k Hz Hk. apply (hrep_own m P h _ z k R Hl); [|done]. apply Hin. destruct Hz as [Hz|Hz]; [done|by right].
Qed.

(** Where a node of a chain points. *)
Lemma hrep_node m P h l1 n l2 :
  hrep m P -> P !! h = Some (l1 ++ n :: l2) ->
  let s := end_slot (SFirst h) l1 in
  pprev m n = s /\ hnext m n = hd0 l2 /\ get_at m s = n /\ s <> SNext n /\ n <> 0 /\ (l2 <> [] -> hd0 l2 <> 0 /\ hd0 l2 <> n) /\
  (l2 <> [] -> pprev m (hd0 l2) = SNext n).
Proof.
  intros R Hl s. pose proof (hr_nodup _ _ R _ _ Hl) as Hd. pose proof (hr_null _ _ R _ _ Hl) as H0.
  pose proof (hr_chain _ _ R _ _ Hl) as C. apply hchain_app in C as [_ [(G & Q & P2) E]]. fold s in G, Q. rewrite end_slot_cons in E.
  apply list.NoDup_app in Hd as (_ & Hdis & Hd). apply list.NoDup_cons in Hd as [Hn Hd].
  rewrite not_elem_of_app, not_elem_of_cons in H0. destruct H0 as (_ & Hn0 & H02).
  split_and!; try done.
  - exact (hchain_get m (SNext n) l2 (conj P2 E)).
  - intros Es. destruct (end_slot_in l1 (SFirst h)) as [E'|(a & Ha & E')]; fold s in E'; [congruence|].
    rewrite E' in Es. injection Es as ->. apply (Hdis n Ha). by left.
  - intros Hl2. pose proof (hd0_in l2 Hl2) as Hi. split; intros Eh; rewrite Eh in Hi; done.
  - intros Hl2. destruct l2 as [|b l2]; [done|]. apply P2.
Qed.

(** ** The operations *)

Inductive hop :=
  | HInit (h : Z) | HAddHead (n h : Z) | HAddBefore (n next : Z) | HAddBehind (n prev : Z)
  | HDel (n : Z) | HDelInit (n : Z) | HMoveList (old new : Z).

Definition hexec (m : hlinks) (op : hop) : hlinks :=
  match op with
  | HInit h => INIT_HLIST_HEAD m h
  | HAddHead n h => hlist_add_head m n h
  | HAddBefore n next => hlist_add_before m n next
  | HAddBehind n prev => hlist_add_behind m n prev
  | HDel n => hlist_del m n
  | HDelInit n => hlist_del_init m n
  | HMoveList old new => hlist_move_list m old new
  end.

Inductive hpstep (P : pool) : hop -> pool -> Prop :=
  | hp_init h : P !! h = None -> hpstep P (HInit h) (<[h := []]> P)
  | hp_add_head n h l : P !! h = Some l -> unlinked P n -> hpstep P (HAddHead n h) (<[h := n :: l]> P)
  | hp_add_before n x h l1 l2 :
      P !! h = Some (l1 ++ x :: l2) -> unlinked P n -> hpstep P (HAddBefore n x) (<[h := l1 ++ n :: x :: l2]> P)
  | hp_add_behind n x h l1 l2 :
      P !! h = Some (l1 ++ x :: l2) -> unlinked P n -> hpstep P (HAddBehind n x) (<[h := l1 ++ x :: n :: l2]> P)
  | hp_del op n h l1 l2 :
      P !! h = Some (l1 ++ n :: l2) -> op = HDel n \/ op = HDelInit n -> hpstep P op (<[h := l1 ++ l2]> P)
  | hp_move old new l :
      P !! old = Some l -> P !! new = Some [] -> old <> new -> hpstep P (HMoveList old new) (<[old := []]> (<[new := l]> P)).

Lemma add_head_hrep m P n h l :
  hrep m P -> P !! h = Some l -> unlinked P n -> hrep (hlist_add_head m n h) (<[h := n :: l]> P).
Proof.
  intros R Hl Hu. pose proof (hchain_get _ _ _ (hr_chain _ _ R _ _ Hl)) as G. cbn [get_at] in G.
  assert (Hb : l <> [] -> hd0 l <> 0 /\ hd0 l <> n).
  { intros Hn. pose proof (hd0_in l Hn) as Hi. split; intros E; rewrite E in Hi; [by apply (hr_null _ _ R _ _ Hl)|].
    apply (proj2 Hu h). by exists l. }
  apply (hrep_link m _ P h [] l n R Hl Hu); cbn [end_slot list.last]; unfold hlist_add_head; rewrite G; clear G;
    (destruct l as [|a l]; cbn [hd0] in *; [|destruct (Hb ltac:(done)) as [Ha0 Han]; rewrite (proj2 (Z.eqb_neq a 0) Ha0)]);
    cbn [Z.eqb negb]; intros; hptrs; try congruence; destruct Hu; naive_solver.
Qed.

Lemma add_before_hrep m P n x h l1 l2 :
  hrep m P -> P !! h = Some (l1 ++ x :: l2) -> unlinked P n ->
  hrep (hlist_add_before m n x) (<[h := l1 ++ n :: x :: l2]> P).
Proof.
  intros R Hl Hu. destruct (hrep_node m P h l1 x l2 R Hl) as (Q & _ & G & Hs & Hx0 & _).
  assert (Hxn : x <> n) by (intros ->; apply (proj2 Hu h); exists (l1 ++ n :: l2); split; [done|apply elem_of_app; right; by left]).
  assert (Hsn : end_slot (SFirst h) l1 <> SNext n).
  { intros E. destruct (end_slot_in l1 (SFirst h)) as [E'|(a & Ha & E')]; [congruence|]. rewrite E' in E. injection E as ->.
    apply (proj2 Hu h). eexists. split; [done|]. apply elem_of_app. by left. }
  unfold hlist_add_before. rewrite Q. set (m1 := set_pprev _ x (SNext n)).
  assert (E : pprev m1 n = end_slot (SFirst h) l1) by (unfold m1; hptrs; congruence). rewrite E. unfold m1.
  apply (hrep_link m _ P h l1 (x :: l2) n R Hl Hu); cbn [hd0]; intros; hptrs; try congruence; naive_solver.
Qed.

Lemma add_behind_hrep m P n x h l1 l2 :
  hrep m P -> P !! h = Some (l1 ++ x :: l2) -> unlinked P n ->
  hrep (hlist_add_behind m n x) (<[h := l1 ++ x :: n :: l2]> P).
Proof.
  intros R Hl Hu. destruct (hrep_node m P h l1 x l2 R Hl) as (_ & N & _ & _ & _ & Hb & _).
  assert (Hin : forall z, z ∈ x :: l2 -> z <> n).
  { intros z Hz ->. apply (proj2 Hu h). eexists. split; [done|]. apply elem_of_app. by right. }
  assert (Hxn : x <> n) by (apply Hin; by left).
  unfold hlist_add_behind. rewrite N. set (m1 := set_pprev _ n (SNext x)).
  assert (E : hnext m1 n = hd0 l2) by (unfold m1; hptrs; congruence). rewrite E. unfold m1.
  rewrite (app_assoc l1 [x] (n :: l2) : l1 ++ x :: n :: l2 = _). rewrite (app_assoc l1 [x] l2 : l1 ++ x :: l2 = _) in Hl.
  assert (Es : end_slot (SFirst h) (l1 ++ [x]) = SNext x) by (by rewrite end_slot_app).
  apply (hrep_link m _ P h (l1 ++ [x]) l2 n R Hl Hu); rewrite ?Es;
    (destruct l2 as [|b l2]; cbn [hd0] in *; [|destruct (Hb ltac:(done)) as [Hb0 Hbx]; rewrite (proj2 (Z.eqb_neq b 0) Hb0);
       pose proof (Hin b ltac:(right; by left))]);
    cbn [Z.eqb negb]; intros; hptrs; try congruence; naive_solver.
Qed.

Lemma del_hrep m P n h l1 l2 op :
  hrep m P -> P !! h = Some (l1 ++ n :: l2) -> op = HDel n \/ op = HDelInit n -> hrep (hexec m op) (<[h := l1 ++ l2]> P).
Proof.
  intros R Hl Hop. destruct (hrep_node m P h l1 n l2 R Hl) as (Q & N & _ & Hs & _ & Hb & _).
  assert (U : hlist_unhashed m n = false).
  { unfold hlist_unhashed. rewrite Q. apply bool_decide_eq_false_2. intros E. pose proof (real_end h l1) as Hr. by rewrite E in Hr. }
  assert (M : exists v s, hexec m op = set_pprev (set_hnext (__hlist_del m n) n v) n s).
  { destruct Hop as [-> | ->]; cbn [hexec]; unfold hlist_del_init, hlist_del, INIT_HLIST_NODE; rewrite ?U; eauto. }
  destruct M as (v & s & ->). unfold __hlist_del. rewrite Q, N.
  apply (hrep_unlink m _ P h l1 n l2 R Hl);
    (destruct l2 as [|b l2]; cbn [hd0] in *; [|destruct (Hb ltac:(done)) as [Hb0 Hbn]; rewrite (proj2 (Z.eqb_neq b 0) Hb0)]);
    cbn [Z.eqb negb]; intros; hptrs; try congruence; naive_solver.
Qed.

Lemma move_hrep m P old new l :
  hrep m P -> P !! old = Some l -> P !! new = Some [] -> old <> new ->
  hrep (hlist_move_list m old new) (<[old := []]> (<[new := l]> P)).
Proof.
  intros R Hl Hn Hne. pose proof (hr_chain _ _ R _ _ Hl) as C. pose proof (hr_nodup _ _ R _ _ Hl) as Hd.
  assert (Hon : forall z k, on (<[old := []]> (<[new := l]> P)) z k -> (k = new /\ z ∈ l) \/ (k <> new /\ k <> old /\ on P z k)).
  { intros z k. rewrite !on_insert. intros [[_ ?%elem_of_nil]|[Hk [[-> Hz]|[Hk' Hz]]]]; tauto. }
  assert (F : first m old = hd0 l) by exact (hchain_get _ _ _ C).
  unfold hlist_move_list. rewrite F. change (first (set_first m new (hd0 l)) new) with (get_at (set_at m (SFirst new) (hd0 l)) (SFirst new)).
  rewrite get_set_at, decide_True by done. set (m' := set_first _ old 0).
  assert (M : (forall k, first m' k = if decide (k = old) then 0 else if decide (k = new) then hd0 l else first m k) /\
    (forall z, hnext m' z = hnext m z) /\ (l <> [] -> pprev m' (hd0 l) = SFirst new) /\
    (forall z, l = [] \/ z <> hd0 l -> pprev m' z = pprev m z)).
  { unfold m'. destruct l as [|b l]; cbn [hd0 Z.eqb negb].
    - split_and!; intros; hptrs; congruence.
    - rewrite (proj2 (Z.eqb_neq b 0)) by (intros ->; apply (hr_null _ _ R _ _ Hl); by left). cbn [negb].
      split_and!; intros; hptrs; naive_solver congruence. }
  clearbody m'. destruct M as (M1 & M2 & M3 & M4). split.
  - intros k lk. rewrite lookup_insert_Some, lookup_insert_Some. intros [[<- <-]|[Hk [[<- <-]|[Hk' Hlk]]]].
    + split; [done|]. cbn. rewrite M1. by rewrite decide_True.
    + destruct l as [|b l]; [split; [done|]; cbn; rewrite M1; case_decide; [done|]; by rewrite decide_True|].
      destruct C as [(_ & _ & C1) C2]. rewrite end_slot_cons in C2.
      assert (T : hchain m' (SNext b) l).
      { apply (hchain_tail m); [done| |by split]. intros a Ha. apply M4. right. intros ->.
        by apply list.NoDup_cons in Hd as [? _]. }
      destruct T as [T1 T2]. split; [|by rewrite end_slot_cons]. split; [cbn; rewrite M1, decide_False, decide_True by done; done|].
      split; [by apply M3|done].
    + apply (hchain_frame m m' k lk); [by rewrite M1, !decide_False by done| |by apply (hr_chain _ _ R)].
      intros z Hz. split; [done|]. apply M4. destruct (decide (l = [])) as [|Hn0]; [by left|right]. intros ->.
      apply Hk. symmetry. apply (hr_once _ _ R (hd0 l)); [by exists lk|exists l; split; [done|by apply hd0_in]].
  - intros k lk. rewrite !lookup_insert_Some. intros [[_ <-]|[_ [[_ <-]|[_ H]]]]; [apply NoDup_nil_2|done|by apply (hr_nodup _ _ R k)].
  - intros k lk. rewrite !lookup_insert_Some.
    intros [[_ <-]|[_ [[_ <-]|[_ H]]]]; [apply not_elem_of_nil|by apply (hr_null _ _ R old)|by apply (hr_null _ _ R k)].
  - intros z h k [[-> H1]|(N1 & O1 & H1)]%Hon [[-> H2]|(N2 & O2 & H2)]%Hon; try done.
    + destruct O2. apply (hr_once _ _ R z); [done|by exists l].
    + destruct O1. apply (hr_once _ _ R z); [done|by exists l].
    + by apply (hr_once _ _ R z).
Qed.

Lemma walk_hchain m s l fuel :
  hchain m s l -> 0 ∉ l -> (length l <= fuel)%nat -> hlist_walk fuel m (get_at m s) = Some l.
Proof.
  revert s fuel. induction l as [|a l IH]; intros s fuel [H1 H2] H0 Hf.
  - cbn in H2. rewrite H2. by destruct fuel.
  - destruct H1 as (G & _ & H1). rewrite end_slot_cons in H2. rewrite G. apply not_elem_of_cons in H0 as [Ha H0].
    destruct fuel as [|fuel]; [cbn in Hf; lia|]. cbn [hlist_walk]. rewrite (proj2 (Z.eqb_neq a 0)) by done.
    rewrite hnext_at, (IH (SNext a) fuel); [done|by split|done|cbn in Hf; lia].
Qed.

(** The hash chains of list.h implement sequences: from a heap that
    represents a pool of disjoint chains, inserting at the head, before or behind
    a node, deleting a node and moving a whole chain to another head lead to a
    heap that represents the changed pool, in which walking each chain terminates
    and visits exactly its sequence. *)
Theorem hlist_ops_refine (m : hlinks) (P P' : pool) (op : hop) :
  hrep m P -> hpstep P op P' ->
  hrep (hexec m op) P' /\
  forall h l fuel, P' !! h = Some l -> (length l <= fuel)%nat ->
    hlist_for_each fuel (hexec m op) h = Some l /\ hlist_empty (hexec m op) h = bool_decide (l = []).
Proof.
  intros R S. assert (R' : hrep (hexec m op) P').
  { destruct S as [h Hn|n h l Hl Hu|n x h l1 l2 Hl Hu|n x h l1 l2 Hl Hu|op n h l1 l2 Hl Ho|old new l Ho Hn Hne].
    - apply (hrep_insert m _ P h [] [] R); [split; [|done]|split; [done|]|apply NoDup_nil_2|apply not_elem_of_nil|].
      + intros k Hk. cbn [hexec]. unfold INIT_HLIST_HEAD. hptrs; [|done]. destruct Hk. apply list_elem_of_singleton. congruence.
      + cbn. unfold first. cbn. by rewrite lookup_insert_eq.
      + intros z k [?%elem_of_nil|?%elem_of_nil]; done.
    - by apply add_head_hrep.
    - by apply add_before_hrep.
    - by apply add_behind_hrep.
    - by apply (del_hrep m P n).
    - by apply move_hrep. }
  split; [done|]. intros h l fuel Hl Hf. pose proof (hr_chain _ _ R' _ _ Hl) as C. pose proof (hr_null _ _ R' _ _ Hl) as H0. split.
  - exact (walk_hchain _ (SFirst h) l fuel C H0 Hf).
  - unfold hlist_empty. rewrite (hchain_get _ _ _ C : first _ h = _). destruct l as [|a l]; [done|]. cbn [hd0].
    apply Z.eqb_neq. by apply not_elem_of_cons in H0 as [? _].
Qed.

(** A chain with two nodes and an empty one. *)
(** A table of [n] empty chains. *)
Definition empty_chains (n : Z) : pool := gset_to_gmap [] (list_to_set (seqZ 0 n)).

Lemma empty_chains_nil n i l : empty_chains n !! i = Some l -> l = [].
Proof. by intros [_ <-]%lookup_gset_to_gmap_Some. Qed.

Lemma empty_chains_on n i z : ~ on (empty_chains n) z i.
Proof. intros (l & ->%empty_chains_nil & ?%not_elem_of_nil). done. Qed.

Lemma empty_chains_short n k i l : empty_chains n !! i = Some l -> (length l <= k)%nat.
Proof. intros ->%empty_chains_nil. cbn. lia. Qed.

Lemma empty_chains_dom n i : is_Some (empty_chains n !! i) <-> 0 <= i < n.
Proof. rewrite <- elem_of_dom. unfold empty_chains. rewrite dom_gset_to_gmap, elem_of_list_to_set, elem_of_seqZ. lia. Qed.

Lemma init_heads l m i : i ∈ l \/ first m i = 0 -> first (fold_left INIT_HLIST_HEAD l m) i = 0.
Proof.
  revert m. induction l as [|j l IH]; intros m Hi; cbn [fold_left]; [by destruct Hi as [?%not_elem_of_nil|?]|]. apply IH.
  destruct (decide (i = j)) as [->|Hne]; [right; unfold first, INIT_HLIST_HEAD, set_first; cbn; by rewrite lookup_insert_eq|].
  destruct Hi as [[->|?]%elem_of_cons|Hi]; [done|by left|right].
  unfold first, INIT_HLIST_HEAD, set_first in *. cbn. by rewrite lookup_insert_ne.
Qed.

(** Initialising [n] heads makes [n] empty chains. *)
Lemma init_hrep n m : hrep (fold_left INIT_HLIST_HEAD (seqZ 0 n) m) (empty_chains n).
Proof.
  split.
  - intros h l E. assert (Hh : h ∈ seqZ 0 n) by (apply elem_of_seqZ; apply mk_is_Some, empty_chains_dom in E; lia).
    rewrite (empty_chains_nil _ _ _ E). split; [done|]. apply init_heads. by left.
  - intros h l ->%empty_chains_nil. apply NoDup_nil_2.
  - intros h l ->%empty_chains_nil. apply not_elem_of_nil.
  - by intros z h k ?%empty_chains_on.
Qed.

Definition example_hlinks : hlinks := fold_left hexec [HInit 1; HInit 2; HAddHead 10 1; HAddHead 11 1] (HLinks ∅ ∅ ∅).
Definition example_hpool : pool := {[1 := [11; 10]; 2 := []]}.

Lemma example_hrep : hrep example_hlinks example_hpool.
Proof.
  assert (H : forall h l, example_hpool !! h = Some l -> (h = 1 /\ l = [11; 10]) \/ (h = 2 /\ l = [])).
  { intros h l. unfold example_hpool. rewrite lookup_insert_Some, lookup_singleton_Some. intuition congruence. }
  split.
  - intros h l Hl. apply H in Hl as [[-> ->]|[-> ->]]; vm_compute; tauto.
  - intros h l Hl. apply H in Hl as [[-> ->]|[-> ->]]; [apply NoDup_ListNoDup; repeat constructor; set_solver|apply NoDup_nil_2].
  - intros h l Hl. apply H in Hl as [[-> ->]|[-> ->]]; set_solver by lia.
  - intros z h k (l & Hl & Hz) (l' & Hl' & Hz'). apply H in Hl as [[-> ->]|[-> ->]], Hl' as [[-> ->]|[-> ->]]; set_solver by lia.
Qed.

Lemma hlist_ops_refine_witness :
  hrep (hexec example_hlinks (HMoveList 1 2)) (<[1 := []]> (<[2 := [11; 10]]> example_hpool)) /\
  hlist_for_each 2 (hexec example_hlinks (HMoveList 1 2)) 2 = Some [11; 10].
Proof.
  destruct (hlist_ops_refine example_hlinks example_hpool _ (HMoveList 1 2) example_hrep
    (hp_move example_hpool 1 2 [11; 10] eq_refl eq_refl ltac:(lia))) as [R W].
  split; [exact R|]. apply (W 2 [11; 10] 2%nat); [vm_compute; reflexivity|cbn; lia].
Defined.
