(* ===== verification/PList.v ===== *)
(** Priority lists: src/driver/src/plist.c.  The nodes are on one list sorted by
    priority; the first node of each priority is also on a second ring, which
    insertion follows to skip over the nodes of one priority.

    The inline helpers of linux/plist.h are not part of the sources; the class
    [PlistHeader] states what plist.c relies on, in terms of the lists of
    [LinuxList]. *)
From Stdlib Require Import ZArith Lia Bool.
From stdpp Require Import base list gmap numbers.
From S2P Require Import Prelude LinuxList.
Local Open Scope Z_scope.
Local Open Scope lupin_scope.

(** struct plist_node: both list heads and the priority; struct plist_head has a
    [node_list] only. *)
Record pmem := PMem { node_list : links; prio_list : links; prios : gmap Z Z }.

Definition prio (m : pmem) (n : Z) : Z := default 0 (prios m !! n).
Definition set_node_list (m : pmem) (x : links) : pmem := PMem x (prio_list m) (prios m).
Definition set_prio_list (m : pmem) (x : links) : pmem := PMem (node_list m) x (prios m).

Class PlistHeader := {
  plist_head_empty : pmem -> Z -> bool;
  plist_first : pmem -> Z -> Z;
  plist_last : pmem -> Z -> Z;
  plist_next : pmem -> Z -> Z;
  plist_node_empty : pmem -> Z -> bool;
  plist_head_init : pmem -> Z -> pmem;
  plist_node_init : pmem -> Z -> Z -> pmem;
  plist_for_each : pmem -> Z -> list Z;
  plist_for_each_continue : pmem -> Z -> Z -> list Z;
  head_empty_spec m h l : dlist (node_list m) h l -> plist_head_empty m h = bool_decide (l = []);
  first_spec m h x l : dlist (node_list m) h (x :: l) -> plist_first m h = x;
  last_spec m h l x : dlist (node_list m) h (l ++ [x]) -> plist_last m h = x;
  next_spec m h l1 x y l2 : dlist (node_list m) h (l1 ++ x :: y :: l2) -> plist_next m x = y;
  node_empty_spec m n l : dlist (node_list m) n l -> plist_node_empty m n = bool_decide (l = []);
  head_init_spec m h : let m' := plist_head_init m h in
    dlist (node_list m') h [] /\ writes [h] (node_list m) (node_list m') /\
    (forall x, next (prio_list m') x = next (prio_list m) x /\ prev (prio_list m') x = prev (prio_list m) x) /\
    forall x, prio m' x = prio m x;
  node_init_spec m n p : let m' := plist_node_init m n p in
    dlist (node_list m') n [] /\ dlist (prio_list m') n [] /\ prio m' n = p /\
    writes [n] (node_list m) (node_list m') /\ writes [n] (prio_list m) (prio_list m') /\
    forall x, x <> n -> prio m' x = prio m x;
  for_each_spec m h l : dlist (node_list m) h l -> plist_for_each m h = l;
  continue_spec m h l1 x l2 : dlist (node_list m) h (l1 ++ x :: l2) -> plist_for_each_continue m x h = l2 }.

Section PList.
Context `{PlistHeader}.

(** ** Operations *)

(** [do { ... } while (iter != first)]: the result is [iter], [prev] and
    [node_next]; [None] when [fuel] runs out. *)
Fixpoint add_loop (fuel : nat) (m : pmem) (node first iter : Z) (prv : option Z) (node_next : Z)
  : option (Z * option Z * Z) :=
  match fuel with
  | O => None
  | S k =>
      if prio m node <? prio m iter then Some (iter, prv, iter)
      else
        let prv := Some iter in
        let iter := next (prio_list m) iter in
        if negb (iter =? first) then add_loop k m node first iter prv node_next else Some (iter, prv, node_next)
  end.

Definition plist_add (fuel : nat) (m : pmem) (node head : Z) : option pmem :=
  let node_next := head in
  let ins_node m node_next := set_node_list m (list_add_tail (node_list m) node node_next) in
  if plist_head_empty m head then Some (ins_node m node_next)
  else
    let first := plist_first m head in
    match add_loop fuel m node first first None node_next with
    | None => None
    | Some (iter, prv, node_next) =>
        let m := if match prv with None => true | Some p => negb (prio m p =? prio m node) end
                 then set_prio_list m (list_add_tail (prio_list m) node iter) else m in
        Some (ins_node m node_next)
    end.

Definition plist_del (m : pmem) (node head : Z) : pmem :=
  let m :=
    if negb (list_empty (prio_list m) node) then
      let m :=
        if negb (next (node_list m) node =? head) then
          let nxt := next (node_list m) node in
          if list_empty (prio_list m) nxt then set_prio_list m (list_add (prio_list m) nxt node) else m
        else m in
      set_prio_list m (list_del_init (prio_list m) node)
    else m in
  set_node_list m (list_del_init (node_list m) node).

(** [plist_for_each_continue(iter, head)] with its early exit: the node in front
    of which [node] goes. *)
Definition requeue_next (m : pmem) (node iter head : Z) : Z :=
  match List.find (fun i => negb (prio m node =? prio m i)) (plist_for_each_continue m iter head) with
  | Some i => i
  | None => head
  end.

Definition plist_requeue (m : pmem) (node head : Z) : outcome pmem :=
  bug_on (plist_head_empty m head)
  (bug_on (plist_node_empty m node)
  (if node =? plist_last m head then Ret m
   else
     let iter := plist_next m node in
     if negb (prio m node =? prio m iter) then Ret m
     else
       let m := plist_del m node head in
       let node_next := requeue_next m node iter head in
       Ret (set_node_list m (list_add_tail (node_list m) node node_next)))).

(** ** The checks of CONFIG_DEBUG_PLIST: true is a warning *)

Definition plist_check_prev_next (m : links) (p n : Z) : bool := negb (prev m n =? p) || negb (next m p =? n).

Fixpoint check_loop (fuel : nat) (m : links) (top prv nxt : Z) : option bool :=
  match fuel with
  | O => None
  | S k =>
      if negb (nxt =? top) then
        let prv := nxt in
        let nxt := next m prv in
        option_map (orb (plist_check_prev_next m prv nxt)) (check_loop k m top prv nxt)
      else Some false
  end.

Definition plist_check_list (fuel : nat) (m : links) (top : Z) : option bool :=
  let prv := top in
  let nxt := next m top in
  option_map (orb (plist_check_prev_next m prv nxt)) (check_loop fuel m top prv nxt).

Definition plist_check_head (fuel : nat) (m : pmem) (head : Z) : option bool :=
  let w := if negb (plist_head_empty m head) then plist_check_list fuel (prio_list m) (plist_first m head) else Some false in
  match w, plist_check_list fuel (node_list m) head with
  | Some a, Some b => Some (a || b)
  | _, _ => None
  end.

(** ** The self-test *)

Fixpoint test_loop (m : pmem) (first : Z) (l : list Z) (nr_expect prio_pos : Z) : outcome (Z * Z) :=
  match l with
  | [] => Ret (nr_expect, prio_pos)
  | node_pos :: l =>
      if nr_expect <? 0 then Ret (nr_expect - 1, prio_pos)
      else
        let nr_expect := nr_expect - 1 in
        if node_pos =? first then test_loop m first l nr_expect prio_pos
        else if prio m node_pos =? prio m prio_pos then
          bug_on (negb (list_empty (prio_list m) node_pos)) (test_loop m first l nr_expect prio_pos)
        else
          bug_on (prio m prio_pos >? prio m node_pos)
          (bug_on (negb (next (prio_list m) prio_pos =? node_pos)) (test_loop m first l nr_expect node_pos))
  end.

Definition plist_test_check (m : pmem) (test_head nr_expect : Z) : outcome unit :=
  if plist_head_empty m test_head then bug_on (negb (nr_expect =? 0)) (Ret tt)
  else
    let first := plist_first m test_head in
    let! r := test_loop m first (plist_for_each m test_head) nr_expect first in
    bug_on (negb (fst r =? 0)) (bug_on (negb (next (prio_list m) (snd r) =? first)) (Ret tt)).

Definition plist_test_requeue (m : pmem) (test_head node : Z) : outcome pmem :=
  let! m := plist_requeue m node test_head in
  if negb (node =? plist_last m test_head) then bug_on (prio m node =? prio m (plist_next m node)) (Ret m) else Ret m.

Definition TEST_NODES : Z := 241.

(** One iteration of the loop of [plist_test]; the nodes are [test_node + i].
    An insertion that does not end within [fuel] steps counts as a failure. *)
Definition test_step (fuel : nat) (test_head test_node : Z) (st : pmem * Z * Z) : outcome (pmem * Z * Z) :=
  let '(m, nr_expect, r) := st in
  let r := u32 (r * 193939) mod 47629 in
  let i := r mod TEST_NODES in
  let! st :=
    if plist_node_empty m (test_node + i) then
      let r := u32 (r * 193939) mod 47629 in
      let m := PMem (node_list m) (prio_list m) (<[test_node + i := r mod 99]> (prios m)) in
      match plist_add fuel m (test_node + i) test_head with
      | Some m => Ret (m, nr_expect + 1, r)
      | None => Bug
      end
    else Ret (plist_del m (test_node + i) test_head, nr_expect - 1, r) in
  let '(m, nr_expect, r) := st in
  let! _ := plist_test_check m test_head nr_expect in
  if negb (plist_node_empty m (test_node + i)) then
    let! m := plist_test_requeue m test_head (test_node + i) in
    let! _ := plist_test_check m test_head nr_expect in
    Ret (m, nr_expect, r)
  else Ret (m, nr_expect, r).

Fixpoint repeat_step {A} (n : nat) (f : A -> outcome A) (x : A) : outcome A :=
  match n with
  | O => Ret x
  | S k => let! x := f x in repeat_step k f x
  end.

(** The loop that empties the list. *)
Fixpoint drain_test (l : list Z) (test_head : Z) (st : pmem * Z) : outcome (pmem * Z) :=
  match l with
  | [] => Ret st
  | n :: l =>
      let (m, nr_expect) := st in
      if plist_node_empty m n then drain_test l test_head st
      else
        let m := plist_del m n test_head in
        let nr_expect := nr_expect - 1 in
        let! _ := plist_test_check m test_head nr_expect in
        drain_test l test_head (m, nr_expect)
  end.

(** [clock] is what local_clock() returns. *)
Definition plist_test (fuel : nat) (m : pmem) (test_head test_node clock : Z) : outcome (pmem * Z) :=
  let nr_expect := 0 in
  let r := u32 clock in
  let m := plist_head_init m test_head in
  let nodes := map (Z.add test_node) (seqZ 0 TEST_NODES) in
  let m := fold_left (fun m n => plist_node_init m n 0) nodes m in
  let! st := repeat_step 1000 (test_step fuel test_head test_node) (m, nr_expect, r) in
  drain_test nodes test_head (fst st).
End PList.

(** ** The sorted list *)

Section Sorted.
Context (pr : Z -> Z).

(** The first node of each run of equal priorities; [p] is the priority before. *)
Fixpoint leaders (p : option Z) (l : list Z) : list Z :=
  match l with
  | [] => []
  | x :: l => if decide (p = Some (pr x)) then leaders p l else x :: leaders (Some (pr x)) l
  end.

Fixpoint sorted (l : list Z) : Prop :=
  match l with
  | [] => True
  | x :: l => Forall (fun y => pr x <= pr y) l /\ sorted l
  end.

(** [n] goes behind the nodes of its own priority. *)
Fixpoint insert_prio (n : Z) (l : list Z) : list Z :=
  match l with
  | [] => [n]
  | x :: l => if pr n <? pr x then n :: x :: l else x :: insert_prio n l
  end.

(** The priority at the end. *)
Definition last_prio (p : option Z) (l : list Z) : option Z :=
  match list.last l with Some x => Some (pr x) | None => p end.

Lemma last_prio_cons p x l : last_prio p (x :: l) = last_prio (Some (pr x)) l.
Proof. unfold last_prio. destruct l as [|y l]; [done|]. rewrite !last_some. by rewrite last_cons. Qed.

Lemma leaders_app p l1 l2 : leaders p (l1 ++ l2) = leaders p l1 ++ leaders (last_prio p l1) l2.
Proof.
  revert p. induction l1 as [|x l1 IH]; intros p; [done|]. cbn [app leaders]. rewrite last_prio_cons.
  case_decide as E; [by rewrite IH, E|]. cbn [app]. by rewrite IH.
Qed.

Lemma leaders_last p l : last_prio p (leaders p l) = last_prio p l.
Proof.
  revert p. induction l as [|x l IH]; intros p; [done|]. cbn [leaders]. rewrite (last_prio_cons p x l).
  case_decide as E; [by rewrite IH, E|]. rewrite last_prio_cons. apply IH.
Qed.

Lemma leaders_in p l x : x ∈ leaders p l -> x ∈ l.
Proof.
  revert p. induction l as [|y l IH]; intros p; cbn [leaders]; [done|]. case_decide.
  - intros Hx. right. by apply (IH p).
  - intros [->|Hx]%elem_of_cons; [by left|]. right. by apply (IH (Some (pr y))).
Qed.

Lemma leaders_nodup p l : NoDup l -> NoDup (leaders p l).
Proof.
  revert p. induction l as [|y l IH]; intros p; cbn [leaders]; [done|]. intros [Hy Hd]%list.NoDup_cons.
  case_decide; [by apply IH|]. apply list.NoDup_cons. split; [|by apply IH]. by intros ?%leaders_in.
Qed.

Lemma leaders_length p l : (length (leaders p l) <= length l)%nat.
Proof.
  revert p. induction l as [|x l IH]; intros p; cbn [leaders]; [done|]. case_decide; cbn [length].
  - specialize (IH p). lia.
  - specialize (IH (Some (pr x))). lia.
Qed.

Lemma leaders_nil l : leaders None l = [] -> l = [].
Proof. by destruct l. Qed.

Lemma leaders_head x l : leaders None (x :: l) = x :: leaders (Some (pr x)) l.
Proof. done. Qed.

Lemma sorted_app l1 l2 :
  sorted (l1 ++ l2) <-> sorted l1 /\ sorted l2 /\ forall x y, x ∈ l1 -> y ∈ l2 -> pr x <= pr y.
Proof.
  induction l1 as [|a l1 IH]; cbn [app sorted]; [set_solver|]. rewrite IH, Forall_app, !Forall_forall.
  setoid_rewrite elem_of_cons. setoid_rewrite <- list_elem_of_In. naive_solver.
Qed.

(** The place of [n]: behind everything of at most its priority. *)
Lemma split_prio n l :
  sorted l -> exists l1 l2, l = l1 ++ l2 /\ insert_prio n l = l1 ++ n :: l2 /\
    (forall x, x ∈ l1 -> pr x <= pr n) /\ (forall x, x ∈ l2 -> pr n < pr x).
Proof.
  induction l as [|x l IH]; intros Hs.
  - exists [], []. set_solver.
  - cbn [insert_prio]. destruct Hs as [Hx Hs]. destruct (Z.ltb_spec (pr n) (pr x)) as [Hlt|Hge].
    + exists [], (x :: l). split; [done|]. split; [done|]. split; [set_solver|]. rewrite Forall_forall in Hx.
      intros y [->|Hy]%elem_of_cons; [done|]. specialize (Hx y (proj1 (list_elem_of_In _ _) Hy)). lia.
    + destruct (IH Hs) as (l1 & l2 & -> & E & H1 & H2). exists (x :: l1), l2. split; [done|]. rewrite E. split; [done|].
      split; [|done]. intros y [->|Hy]%elem_of_cons; [done|by apply H1].
Qed.

Lemma sorted_insert n l1 l2 :
  sorted (l1 ++ l2) -> (forall x, x ∈ l1 -> pr x <= pr n) -> (forall x, x ∈ l2 -> pr n <= pr x) -> sorted (l1 ++ n :: l2).
Proof.
  intros (S1 & S2 & S12)%sorted_app H1 H2. apply sorted_app. split; [done|]. split.
  - split; [|done]. apply Forall_forall. intros x Hx. apply H2. by apply list_elem_of_In.
  - intros x y Hx [->|Hy]%elem_of_cons; [by apply H1|by apply S12].
Qed.

Lemma sorted_remove n l1 l2 : sorted (l1 ++ n :: l2) -> sorted (l1 ++ l2).
Proof.
  intros (S1 & [_ S2] & S12)%sorted_app. apply sorted_app. split; [done|]. split; [done|].
  intros x y Hx Hy. apply S12; [done|by right].
Qed.

(** A node is a leader when the priority changes in front of it. *)
Lemma leaders_at l1 x l2 :
  leaders None (l1 ++ x :: l2) =
  leaders None l1 ++ (if decide (last_prio None l1 = Some (pr x)) then [] else [x]) ++ leaders (Some (pr x)) l2.
Proof.
  rewrite leaders_app. cbn [leaders]. case_decide as E; [by rewrite E|done].
Qed.
End Sorted.

(** ** Rings *)

Definition ringof (m : links) (l : list Z) : Prop := match l with [] => True | x :: xs => dlist m x xs end.

Lemma ringof_rotate m l1 l2 : ringof m (l1 ++ l2) -> ringof m (l2 ++ l1).
Proof.
  destruct l1 as [|x l1], l2 as [|y l2]; cbn [app]; rewrite ?app_nil_r; try done. apply dlist_rotate.
Qed.

Lemma ringof_nodup m l : ringof m l -> NoDup l.
Proof. destruct l as [|x l]; [intros _; apply NoDup_nil_2|]. by intros [Hd _]. Qed.

Lemma ringof_next m l1 a l2 : ringof m (l1 ++ a :: l2) -> next m a = hd (hd a l1) l2.
Proof.
  intros R%ringof_rotate. cbn [app ringof] in R. destruct R as [_ R]. rewrite (ring_next _ _ _ R).
  by destruct l2; [destruct l1|].
Qed.

(** Inserting in front of the node that follows [l1]. *)
Lemma ringof_insert m n l1 l2 :
  l1 ++ l2 <> [] -> n ∉ l1 ++ l2 -> ringof m (l1 ++ l2) ->
  let x := hd (hd n l1) l2 in
  ringof (list_add_tail m n x) (l1 ++ n :: l2) /\ writes (n :: l1 ++ l2) m (list_add_tail m n x).
Proof.
  intros Hne Hn R. apply ringof_rotate in R. assert (Hn' : n ∉ l2 ++ l1) by (by rewrite Permutation_app_comm).
  assert (Hw : l2 ++ l1 <> []) by (destruct l1, l2; done).
  assert (G : forall y c, l2 ++ l1 = y :: c -> ringof (list_add_tail m n y) ((l2 ++ l1) ++ [n]) /\ writes (n :: l1 ++ l2) m (list_add_tail m n y)).
  { intros y c E. rewrite E in *. cbn [app ringof] in *. split; [by apply add_tail_dlist|].
    apply (writes_weaken (n :: y :: c)); [by apply add_tail_writes|]. rewrite <- E. intros z. by rewrite (Permutation_app_comm l2 l1). }
  destruct l2 as [|y l2]; cbn [hd app] in *.
  - rewrite app_nil_r in *. destruct l1 as [|x l1]; [done|]. by apply (G x l1).
  - destruct (G y (l2 ++ l1) eq_refl) as [G1 G2]. split; [|done].
    replace (l1 ++ n :: y :: l2) with ((l1 ++ [n]) ++ y :: l2) by (by rewrite <- app_assoc).
    apply ringof_rotate. cbn [app]. rewrite app_assoc. exact G1.
Qed.

Lemma dlist_insert m h n l1 l2 :
  n ∉ h :: l1 ++ l2 -> dlist m h (l1 ++ l2) ->
  dlist (list_add_tail m n (hd h l2)) h (l1 ++ n :: l2) /\ writes (n :: h :: l1 ++ l2) m (list_add_tail m n (hd h l2)).
Proof.
  intros Hn D. destruct (ringof_insert m n (h :: l1) l2) as [H1 H2]; [done|done|exact D|]. split; [exact H1|exact H2].
Qed.

(** Removing a node from a ring, and adding one behind a node. *)
Lemma ringof_del m l1 n l2 :
  ringof m (l1 ++ n :: l2) ->
  ringof (list_del_init m n) (l1 ++ l2) /\ dlist (list_del_init m n) n [] /\ writes (l1 ++ n :: l2) m (list_del_init m n).
Proof.
  intros R. apply ringof_rotate in R. cbn [app ringof] in R. unfold list_del_init.
  assert (Hin : forall z, z ∈ n :: l2 ++ l1 <-> z ∈ l1 ++ n :: l2).
  { intros z. by rewrite (Permutation_app_comm l1 (n :: l2)). }
  split_and!.
  - apply ringof_rotate. destruct (l2 ++ l1) as [|a c] eqn:E; [done|]. cbn [ringof].
    apply (dlist_frame (__list_del_entry m n)); [|by apply del_dlist]. intros z Hz. apply init_writes.
    intros ->%list_elem_of_singleton. destruct R as [Hd _]. by apply list.NoDup_cons in Hd as [? _].
  - apply init_dlist.
  - apply (writes_trans _ _ (__list_del_entry m n)).
    + apply (writes_weaken (n :: l2 ++ l1)); [by apply del_writes|]. intros z. apply Hin.
    + apply (writes_weaken [n]); [apply init_writes|]. intros z ->%list_elem_of_singleton. apply Hin. by left.
Qed.

Lemma ringof_add m l1 n l2 x :
  x ∉ l1 ++ n :: l2 -> ringof m (l1 ++ n :: l2) ->
  ringof (list_add m x n) (l1 ++ n :: x :: l2) /\ writes (x :: l1 ++ n :: l2) m (list_add m x n).
Proof.
  intros Hx R. apply ringof_rotate in R. cbn [app ringof] in R.
  assert (Hp : n :: l2 ++ l1 ≡ₚ l1 ++ n :: l2) by (apply (Permutation_app_comm (n :: l2) l1)). split.
  - apply ringof_rotate. cbn [app ringof]. apply add_dlist; [by rewrite Hp|done].
  - apply (writes_weaken (x :: n :: l2 ++ l1)); [by apply add_writes|]. intros z. by rewrite Hp.
Qed.

Section PListSpec.
Context `{PlistHeader}.

(** The nodes [l], in order, are the priority list of [h]. *)
Record plist (m : pmem) (h : Z) (l : list Z) : Prop := {
  pl_nodes : dlist (node_list m) h l;
  pl_sorted : sorted (prio m) l;
  pl_ring : ringof (prio_list m) (leaders (prio m) None l);
  pl_alone : forall x, x ∈ l -> x ∉ leaders (prio m) None l -> dlist (prio_list m) x [] }.

(** ** Insertion *)

Lemma add_loop_spec fuel m n x0 cs a b nn :
  ringof (prio_list m) (cs ++ a ++ b) -> hd x0 (cs ++ a ++ b) = x0 -> a ++ b <> [] ->
  (forall x, x ∈ a -> prio m x <= prio m n) -> (forall y, head b = Some y -> prio m n < prio m y) ->
  (length a < fuel)%nat ->
  add_loop fuel m n x0 (hd x0 (a ++ b)) (list.last cs) nn = Some (hd x0 b, list.last (cs ++ a), hd nn b).
Proof.
  revert cs a. induction fuel as [|fuel IH]; intros cs a R Hx Hne Ha Hb Hf; [lia|]. cbn [add_loop].
  destruct a as [|y a]; cbn [app hd] in *.
  - destruct b as [|y b]; [done|]. cbn [hd head] in *. rewrite (proj2 (Z.ltb_lt _ _) (Hb y eq_refl)). by rewrite app_nil_r.
  - assert (Hy : prio m y <= prio m n) by (apply Ha; by left). rewrite (proj2 (Z.ltb_ge _ _) Hy).
    rewrite (ringof_next _ _ _ _ R). pose proof (ringof_nodup _ _ R) as Hd.
    assert (Hfst : hd y cs = x0) by (destruct cs; [done|]; exact Hx). rewrite Hfst.
    replace (cs ++ y :: a) with ((cs ++ [y]) ++ a) by (by rewrite <- app_assoc).
    destruct (a ++ b) as [|z c] eqn:E; cbn [hd].
    + rewrite Z.eqb_refl. apply app_eq_nil in E as [-> ->]. cbn. by rewrite app_nil_r, last_snoc.
    + rewrite (proj2 (Z.eqb_neq z x0)).
      * cbn [negb]. specialize (IH (cs ++ [y]) a). rewrite E in IH. cbn [hd] in IH. rewrite last_snoc in IH.
        rewrite <- app_assoc in IH. cbn [app] in IH. apply IH; [done..| |done|cbn in Hf; lia].
        intros x Hx'. apply Ha. by right.
      * intros ->. destruct cs as [|c0 cs]; cbn [app hd] in *.
        -- subst y. apply list.NoDup_cons in Hd as [Hd _]. apply Hd. by left.
        -- subst c0. apply list.NoDup_cons in Hd as [Hd _]. apply Hd, elem_of_app. right. right. by left.
Qed.

(** The state an operation leaves: a priority list again, with the priorities
    and everything outside [w] as before. *)
Definition same_outside (w : list Z) (m m' : pmem) : Prop :=
  (forall x, prio m' x = prio m x) /\ writes w (node_list m) (node_list m') /\ writes w (prio_list m) (prio_list m').

Lemma leaders_skip pr p q l :
  (forall x, x ∈ l -> p <> Some (pr x) /\ q <> Some (pr x)) -> leaders pr p l = leaders pr q l.
Proof.
  intros Hx. destruct l as [|x l]; [done|]. cbn [leaders]. destruct (Hx x ltac:(by left)). by rewrite !decide_False.
Qed.

Lemma last_prio_le pr l1 v : (forall x, x ∈ l1 -> pr x <= v) -> forall q, last_prio pr None l1 = Some q -> q <= v.
Proof.
  intros Hx q. unfold last_prio. destruct (list.last l1) as [x|] eqn:E; [|done]. intros [= <-].
  apply Hx. by apply last_Some_elem_of.
Qed.

(** The change of the ring of leaders. *)
Lemma add_ring_ok m n l1 l2 :
  let pr := prio m in let a := leaders pr None l1 in let b := leaders pr (last_prio pr None l1) l2 in
  n ∉ l1 ++ l2 -> NoDup (l1 ++ l2) -> l1 ++ l2 <> [] -> ringof (prio_list m) (a ++ b) -> dlist (prio_list m) n [] ->
  (forall x, x ∈ l1 -> pr x <= pr n) -> (forall x, x ∈ l2 -> pr n < pr x) ->
  (forall x, x ∈ l1 ++ l2 -> x ∉ a ++ b -> dlist (prio_list m) x []) ->
  let x0 := hd n (l1 ++ l2) in
  let pl := if match list.last a with None => true | Some p => negb (pr p =? pr n) end
            then list_add_tail (prio_list m) n (hd x0 b) else prio_list m in
  ringof pl (leaders pr None (l1 ++ n :: l2)) /\ writes (n :: l1 ++ l2) (prio_list m) pl /\
  (forall x, x ∈ l1 ++ n :: l2 -> x ∉ leaders pr None (l1 ++ n :: l2) -> dlist pl x []).
Proof.
  intros pr a b Hn Hd Hne R Dn H1 H2 Hal x0 pl.
  assert (Hab : leaders pr None (l1 ++ l2) = a ++ b) by apply leaders_app.
  assert (Hb : leaders pr (Some (pr n)) l2 = b).
  { apply leaders_skip. intros x Hx. specialize (H2 x Hx). split; [intros [= ?]; lia|].
    intros E. pose proof (last_prio_le pr l1 (pr n) H1 _ E). lia. }
  rewrite leaders_at, Hb. unfold pl.
  assert (Ec : match list.last a with None => true | Some p => negb (pr p =? pr n) end
               = negb (bool_decide (last_prio pr None l1 = Some (pr n)))).
  { rewrite <- (leaders_last pr None l1). fold a. unfold last_prio. destruct (list.last a) as [p|]; [|done]. f_equal.
    destruct (Z.eqb_spec (pr p) (pr n)); [rewrite bool_decide_eq_true_2|rewrite bool_decide_eq_false_2]; congruence. }
  rewrite Ec. clear Ec pl.
  assert (Hna : n ∉ a ++ b) by (rewrite <- Hab; by intros ?%leaders_in).
  case_decide as Ed; [rewrite bool_decide_eq_true_2 by done|rewrite bool_decide_eq_false_2 by done]; cbn [negb app].
  - split; [done|]. split; [done|]. intros x Hx Hl. rewrite elem_of_app, elem_of_cons in Hx.
    destruct (decide (x = n)) as [->|Hxn]; [done|]. apply Hal; [|done]. rewrite elem_of_app. tauto.
  - assert (Hx0 : hd x0 b = hd (hd n a) b).
    { destruct b as [|y b]; [|done]. cbn [hd]. unfold x0. rewrite app_nil_r in Hab. rewrite <- Hab. by destruct (l1 ++ l2). }
    rewrite Hx0. destruct (ringof_insert (prio_list m) n a b) as [R' W']; [|done|done|].
    { rewrite <- Hab. intros E%leaders_nil. done. }
    split; [done|]. split.
    + apply (writes_weaken (n :: a ++ b)); [done|]. rewrite <- Hab. intros x [->|Hx%leaders_in]%elem_of_cons; [by left|by right].
    + intros x Hx Hl. rewrite elem_of_app, elem_of_cons in Hx, Hl. apply (dlist_frame (prio_list m)).
      * intros z ->%list_elem_of_singleton. apply W'. rewrite elem_of_cons, elem_of_app. tauto.
      * apply Hal; [rewrite elem_of_app; tauto|]. rewrite elem_of_app. tauto.
Qed.

Lemma plist_add_ok fuel m n h l :
  plist m h l -> n ∉ h :: l -> dlist (prio_list m) n [] -> (length l < fuel)%nat ->
  exists m', plist_add fuel m n h = Some m' /\ plist m' h (insert_prio (prio m) n l) /\ same_outside (n :: h :: l) m m'.
Proof.
  intros [Dn Hs R Hal] Hn Dp Hf. unfold plist_add. rewrite (head_empty_spec m h l Dn).
  destruct (split_prio (prio m) n l Hs) as (l1 & l2 & El & Ei & H1 & H2). rewrite Ei.
  destruct (dlist_insert (node_list m) h n l1 l2) as [Dn' Wn]; [by rewrite <- El|by rewrite <- El|].
  assert (Hs' : sorted (prio m) (l1 ++ n :: l2)).
  { apply sorted_insert; [by rewrite <- El|done|]. intros x Hx. specialize (H2 x Hx). lia. }
  destruct l as [|x0 l].
  - symmetry in El. apply app_eq_nil in El as [-> ->]. rewrite bool_decide_eq_true_2 by done. eexists. split; [reflexivity|].
    split; [|split; [done|]; split; [done|apply writes_refl]]. by split.
  - rewrite bool_decide_eq_false_2 by done. rewrite (first_spec m h x0 l Dn). rewrite El in *.
    set (a := leaders (prio m) None l1). set (b := leaders (prio m) (last_prio (prio m) None l1) l2).
    assert (Hab : leaders (prio m) None (l1 ++ l2) = a ++ b) by apply leaders_app. rewrite Hab in R, Hal.
    assert (Hx0 : hd x0 (a ++ b) = x0) by (rewrite <- Hab, <- El; done).
    assert (Hne : a ++ b <> []) by (rewrite <- Hab, <- El; done).
    assert (Hb : forall w, hd w b = hd w l2 /\ forall y, head b = Some y -> prio m n < prio m y).
    { unfold b. destruct l2 as [|y l2]; [done|]. intros w. cbn [leaders]. rewrite decide_False; [|].
      - split; [done|]. intros y' [= <-]. apply H2. by left.
      - intros E. pose proof (last_prio_le (prio m) l1 _ H1 _ E). specialize (H2 y ltac:(by left)). lia. }
    pose proof (add_loop_spec fuel m n x0 [] a b h) as L. cbn [app] in L. rewrite Hx0 in L. cbn [list.last] in L. rewrite L; clear L.
    2: done. 2: done. 2: done. 2:{ intros x Hx%leaders_in. by apply H1. } 2: apply (Hb h).
    2:{ pose proof (leaders_length (prio m) None l1). fold a in H0. rewrite length_app in Hf. lia. }
    destruct (add_ring_ok m n l1 l2) as (R' & W' & Hal'); fold a b; try done.
    { intros Hx. apply Hn. by right. } { by destruct Dn as [[_ ?]%list.NoDup_cons _]. } { by rewrite <- El. }
    fold a b in R', W', Hal'. rewrite <- El in R', W', Hal'. cbn [hd] in R', W', Hal'.
    rewrite (proj1 (Hb h)), El in *. eexists. split; [reflexivity|].
    assert (W2 : writes (n :: h :: l1 ++ l2) (prio_list m) (if match list.last a with None => true | Some p => negb (prio m p =? prio m n) end
      then list_add_tail (prio_list m) n (hd x0 b) else prio_list m)).
    { apply (writes_weaken _ _ _ _ W'). set_solver. }
    destruct (match list.last a with None => true | _ => _ end); (split; [by split|by split]).
Qed.

(** ** Deletion *)

(** The change of the ring of leaders when [n] goes; [y] is the next node. *)
Definition del_ring (m : pmem) (n : Z) (y : option Z) : links :=
  if negb (list_empty (prio_list m) n) then
    let pl := match y with
              | Some y => if list_empty (prio_list m) y then list_add (prio_list m) y n else prio_list m
              | None => prio_list m
              end in
    list_del_init pl n
  else prio_list m.

Lemma plist_del_eq m n h l1 l2 :
  dlist (node_list m) h (l1 ++ n :: l2) ->
  plist_del m n h = PMem (list_del_init (node_list m) n) (del_ring m n (head l2)) (prios m).
Proof.
  intros D. unfold plist_del, del_ring. rewrite (ringof_next (node_list m) (h :: l1) n l2 D). cbn [hd].
  destruct (negb (list_empty (prio_list m) n)); [|done]. destruct l2 as [|y l2]; cbn [hd head]; [by rewrite Z.eqb_refl|].
  rewrite (proj2 (Z.eqb_neq y h)); [cbn [negb]; by destruct (list_empty (prio_list m) y)|].
  intros ->. destruct D as [[Hd _]%list.NoDup_cons _]. apply Hd, elem_of_app. right. right. by left.
Qed.

Lemma ringof_empty m l1 n l2 : ringof m (l1 ++ n :: l2) -> list_empty m n = bool_decide (l1 ++ l2 = []).
Proof.
  intros R%ringof_rotate. rewrite (empty_dlist _ _ _ R). destruct l1, l2; done.
Qed.

(** What the rest of the list contributes when [n] is removed. *)
Lemma leaders_without pr p n l2 :
  p <> Some (pr n) -> (forall q, p = Some q -> q <= pr n) -> sorted pr (n :: l2) ->
  leaders pr p l2 = match l2 with y :: _ => if decide (pr y = pr n) then [y] else [] | [] => [] end
                    ++ leaders pr (Some (pr n)) l2.
Proof.
  intros Hp Hle [Hs _]. destruct l2 as [|y l2]; [done|]. apply Forall_inv in Hs. cbn [leaders].
  rewrite (decide_False (P := p = Some (pr y))).
  - destruct (decide (pr y = pr n)) as [E|E]; [rewrite decide_True by congruence; cbn; by rewrite E|].
    by rewrite decide_False by congruence.
  - intros ->. specialize (Hle _ eq_refl). assert (pr y = pr n) by lia. congruence.
Qed.

(** A leader that is not the only one leaves the ring; the next node takes its
    place when it has the same priority. *)
Lemma del_leader m n a b c l2 :
  let pr := prio m in
  c = match l2 with y :: _ => if decide (pr y = pr n) then [y] else [] | [] => [] end -> b = leaders pr (Some (pr n)) l2 ->
  a ++ b <> [] -> ringof (prio_list m) (a ++ n :: b) -> (forall y, y ∈ c -> y ∉ a ++ n :: b /\ dlist (prio_list m) y []) ->
  let pl := del_ring m n (head l2) in
  ringof pl (a ++ c ++ b) /\ dlist pl n [] /\ writes (c ++ a ++ n :: b) (prio_list m) pl.
Proof.
  intros pr Ec Eb Hne R Hc. unfold del_ring. rewrite (ringof_empty _ _ _ _ R), bool_decide_eq_false_2 by done. cbn [negb].
  destruct l2 as [|y l2]; cbn [head] in *; [subst c; cbn [app]; by apply ringof_del|].
  destruct (decide (pr y = pr n)) as [E|E]; subst c.
  - destruct (Hc y ltac:(by left)) as [Hy Dy]. rewrite (empty_dlist _ _ _ Dy).
    destruct (ringof_add (prio_list m) a n b y Hy R) as [R1 W1].
    destruct (ringof_del (list_add (prio_list m) y n) a n (y :: b) R1) as (R2 & D2 & W2).
    split; [done|]. split; [done|]. apply (writes_trans _ _ (list_add (prio_list m) y n)); [done|].
    apply (writes_weaken _ _ _ _ W2). intros z. cbn [app]. rewrite !elem_of_cons, !elem_of_app, !elem_of_cons. tauto.
  - cbn [leaders] in Eb. rewrite decide_False in Eb by congruence. subst b.
    replace (list_empty (prio_list m) y) with false; [cbn [app]; by apply ringof_del|].
    symmetry. rewrite (ringof_empty _ (a ++ [n]) y (leaders pr (Some (pr y)) l2)); [by destruct a|]. by rewrite <- app_assoc.
Qed.

Lemma del_ring_ok m n l1 l2 :
  let pr := prio m in
  NoDup (l1 ++ n :: l2) -> sorted pr (l1 ++ n :: l2) -> ringof (prio_list m) (leaders pr None (l1 ++ n :: l2)) ->
  (forall x, x ∈ l1 ++ n :: l2 -> x ∉ leaders pr None (l1 ++ n :: l2) -> dlist (prio_list m) x []) ->
  let pl := del_ring m n (head l2) in
  ringof pl (leaders pr None (l1 ++ l2)) /\ dlist pl n [] /\ writes (l1 ++ n :: l2) (prio_list m) pl /\
  (forall x, x ∈ l1 ++ l2 -> x ∉ leaders pr None (l1 ++ l2) -> dlist pl x []).
Proof.
  intros pr Hd Hs R Hal pl. rewrite leaders_at in R, Hal. set (a := leaders pr None l1) in *. set (b := leaders pr (Some (pr n)) l2) in *.
  apply sorted_app in Hs as (_ & S2 & S12). apply list.NoDup_app in Hd as (_ & Hdis & Hd2). apply list.NoDup_cons in Hd2 as [Hn2 Hd2].
  assert (Ha : forall x, x ∈ a -> x ∈ l1) by (intros x; apply leaders_in). assert (Hb : forall x, x ∈ b -> x ∈ l2) by (intros x; apply leaders_in).
  assert (Hn1 : n ∉ l1) by (intros H1; apply (Hdis n H1); by left). rewrite leaders_app. fold a.
  case_decide as Ed.
  - rewrite Ed. fold b. cbn [app] in R, Hal.
    assert (Dn : dlist (prio_list m) n []).
    { apply Hal; [apply elem_of_app; right; by left|]. rewrite elem_of_app. intros [?%Ha|?%Hb]; done. }
    unfold pl, del_ring. rewrite (empty_dlist _ _ _ Dn). cbn [negb]. split_and!; [done|done|apply writes_refl|].
    intros x Hx. apply Hal. rewrite elem_of_app in *. rewrite elem_of_cons. tauto.
  - rewrite (leaders_without pr (last_prio pr None l1) n l2 Ed) by
      (done || (intros q; apply last_prio_le; intros x Hx; apply S12; [done|by left])).
    fold b. cbn [app] in R, Hal. set (c := match l2 with [] => [] | _ => _ end).
    assert (Hc : forall y, y ∈ c -> y ∈ l2 /\ y ∉ a ++ n :: b).
    { unfold c. destruct l2 as [|y l2]; [set_solver|]. case_decide as E; [|set_solver]. intros z ->%list_elem_of_singleton.
      split; [by left|]. rewrite elem_of_app, elem_of_cons. apply list.NoDup_cons in Hd2 as [Hy _]. intros [Hz%Ha|[->|Hz]].
      - apply (Hdis y Hz). right. by left.
      - apply Hn2. by left.
      - unfold b in Hz. cbn [leaders] in Hz. rewrite decide_True in Hz by congruence. by apply leaders_in in Hz. }
    assert (Hc' : forall y, y ∈ c -> y ∉ a ++ n :: b /\ dlist (prio_list m) y []).
    { intros y Hy. destruct (Hc y Hy) as [H1 H2]. split; [done|]. apply Hal; [|done]. rewrite elem_of_app, elem_of_cons. tauto. }
    destruct (decide (a ++ b = [])) as [E|E].
    + unfold pl, del_ring. rewrite (ringof_empty _ _ _ _ R), bool_decide_eq_true_2 by done. cbn [negb].
      apply app_eq_nil in E as [-> ->]. cbn [app] in *. rewrite app_nil_r in *. split_and!; [|exact R|apply writes_refl|].
      * assert (Hc1 : c = [] \/ exists y, c = [y]) by (unfold c; destruct l2; [by left|]; case_decide; eauto).
        destruct Hc1 as [->|[y ->]]; [done|]. apply Hc'. by left.
      * intros x Hx Hxc. apply Hal; [rewrite elem_of_app, elem_of_cons in *; tauto|]. rewrite list_elem_of_singleton.
        intros ->. rewrite elem_of_app in Hx. tauto.
    + destruct (del_leader m n a b c l2 eq_refl eq_refl E R Hc') as (R' & D' & W'). fold pl in R', D', W'. split_and!; [done|done| |].
      * apply (writes_weaken _ _ _ _ W'). intros x. rewrite !elem_of_app, !elem_of_cons. intros [Hx|[Hx|[Hx|Hx]]]; auto.
        right. right. by apply Hc.
      * intros x Hx Hl. rewrite !elem_of_app in Hl. apply (dlist_frame (prio_list m)).
        -- intros z ->%list_elem_of_singleton. apply W'. rewrite !elem_of_app, elem_of_cons.
           intros [?|[?|[->|?]]]; [tauto..| |tauto]. rewrite elem_of_app in Hx. tauto.
        -- apply Hal; [rewrite elem_of_app, elem_of_cons in *; tauto|]. rewrite elem_of_app, elem_of_cons.
           intros [?|[->|?]]; [tauto| |tauto]. rewrite elem_of_app in Hx. tauto.
Qed.

Lemma plist_del_ok m n h l1 l2 :
  plist m h (l1 ++ n :: l2) ->
  let m' := plist_del m n h in
  plist m' h (l1 ++ l2) /\ dlist (node_list m') n [] /\ dlist (prio_list m') n [] /\
  same_outside (h :: l1 ++ n :: l2) m m'.
Proof.
  intros [Dn Hs R Hal]. cbv zeta. rewrite (plist_del_eq m n h l1 l2 Dn).
  destruct (ringof_del (node_list m) (h :: l1) n l2 Dn) as (Dn' & Nn & Wn).
  destruct (del_ring_ok m n l1 l2) as (R' & Np & Wp & Hal'); [by destruct Dn as [[_ ?]%list.NoDup_cons _]|done..|].
  split; [|split; [exact Nn|split; [exact Np|]]].
  - split; [exact Dn'|exact (sorted_remove (prio m) n l1 l2 Hs)|exact R'|exact Hal'].
  - split; [done|]. split; [exact Wn|]. apply (writes_weaken _ _ _ _ Wp). intros x. rewrite elem_of_cons. tauto.
Qed.

(** ** Requeueing *)

Lemma find_prio pr n l :
  sorted pr l -> (forall x, x ∈ l -> pr n <= pr x) ->
  forall h, exists l1 l2, l = l1 ++ l2 /\ (forall x, x ∈ l1 -> pr x = pr n) /\ (forall x, x ∈ l2 -> pr n < pr x) /\
    match List.find (fun i => negb (pr n =? pr i)) l with Some i => i | None => h end = hd h l2.
Proof.
  induction l as [|y l IH]; intros Hs Hle h; [exists [], []; set_solver|]. destruct Hs as [Hy Hs]. cbn [List.find].
  destruct (Z.eqb_spec (pr n) (pr y)) as [E|E]; cbn [negb].
  - destruct (IH Hs ltac:(intros; apply Hle; by right) h) as (l1 & l2 & -> & H1 & H2 & H3). exists (y :: l1), l2.
    split_and!; [done| |done|done]. intros x [->|Hx]%elem_of_cons; [done|by apply H1].
  - exists [], (y :: l). split_and!; [done|set_solver| |done]. specialize (Hle y ltac:(by left)).
    rewrite Forall_forall in Hy. intros x [->|Hx]%elem_of_cons; [lia|].
    specialize (Hy x (proj1 (list_elem_of_In _ _) Hx)). lia.
Qed.

Lemma insert_prio_at pr n l1 l2 :
  (forall x, x ∈ l1 -> pr x <= pr n) -> (forall x, x ∈ l2 -> pr n < pr x) -> insert_prio pr n (l1 ++ l2) = l1 ++ n :: l2.
Proof.
  intros H1 H2. induction l1 as [|x l1 IH]; cbn [app insert_prio].
  - destruct l2 as [|y l2]; [done|]. cbn [insert_prio]. by rewrite (proj2 (Z.ltb_lt _ _) (H2 y ltac:(by left))).
  - rewrite (proj2 (Z.ltb_ge _ _) (H1 x ltac:(by left))), IH; [done|]. intros z Hz. apply H1. by right.
Qed.

Lemma same_outside_refl w m : same_outside w m m.
Proof. split; [done|]. split; apply writes_refl. Qed.

Lemma same_outside_trans w m1 m2 m3 : same_outside w m1 m2 -> same_outside w m2 m3 -> same_outside w m1 m3.
Proof.
  intros (P1 & N1 & L1) (P2 & N2 & L2). split; [intros x; by rewrite P2, P1|].
  split; [by apply (writes_trans _ _ (node_list m2))|by apply (writes_trans _ _ (prio_list m2))].
Qed.

Lemma same_outside_weaken w w' m m' : same_outside w m m' -> w ⊆ w' -> same_outside w' m m'.
Proof.
  intros (P1 & N1 & L1) Hw. split; [done|]. split; [by apply (writes_weaken w)|by apply (writes_weaken w)].
Qed.

Lemma plist_nonempty m h l1 n l2 :
  plist m h (l1 ++ n :: l2) -> plist_head_empty m h = false /\ plist_node_empty m n = false.
Proof.
  intros [Dn _ _ _]. rewrite (head_empty_spec m h _ Dn), (node_empty_spec m n _ (proj1 (dlist_rotate _ _ _ _ _) Dn)).
  split; apply bool_decide_eq_false_2; [by destruct l1|by destruct l2].
Qed.

(** Putting a node back behind the nodes of its priority. *)
Lemma requeue_ok m n h l1 y c1 c2 :
  plist m h (l1 ++ y :: c1 ++ c2) -> n ∉ h :: l1 ++ y :: c1 ++ c2 -> dlist (prio_list m) n [] ->
  prio m y = prio m n -> (forall x, x ∈ c1 -> prio m x = prio m n) -> (forall x, x ∈ c2 -> prio m n < prio m x) ->
  let m' := set_node_list m (list_add_tail (node_list m) n (hd h c2)) in
  plist m' h (insert_prio (prio m) n (l1 ++ y :: c1 ++ c2)) /\ same_outside (n :: h :: l1 ++ y :: c1 ++ c2) m m'.
Proof.
  intros [Dn Hs R Hal] Hn Dp Hy H1 H2 m'.
  assert (Hl : forall x, x ∈ l1 ++ y :: c1 -> prio m x <= prio m n).
  { intros x. rewrite elem_of_app, elem_of_cons. intros [Hx|[->|Hx]]; [|lia|rewrite (H1 x Hx); lia].
    apply sorted_app in Hs as (_ & _ & S). rewrite <- Hy. apply S; [done|by left]. }
  assert (El : l1 ++ y :: c1 ++ c2 = (l1 ++ y :: c1) ++ c2) by (by rewrite <- app_assoc). rewrite El in *.
  rewrite insert_prio_at by done.
  destruct (dlist_insert (node_list m) h n (l1 ++ y :: c1) c2 Hn Dn) as [D' W'].
  assert (Hp : last_prio (prio m) None (l1 ++ y :: c1) = Some (prio m n)).
  { unfold last_prio. rewrite list.last_app_cons, last_some. f_equal. pose proof (ring_last_in y c1) as Hi.
    apply elem_of_cons in Hi as [->|Hi]; [done|by apply H1]. }
  assert (Elead : leaders (prio m) None ((l1 ++ y :: c1) ++ n :: c2) = leaders (prio m) None ((l1 ++ y :: c1) ++ c2)).
  { rewrite leaders_at, decide_True by done. cbn [app]. by rewrite (leaders_app _ None (l1 ++ y :: c1) c2), Hp. }
  split; [|split; [done|]; split; [done|apply writes_refl]]. split; cbn [node_list prio_list set_node_list].
  - exact D'.
  - apply sorted_insert; [done|done|]. intros x Hx. specialize (H2 x Hx). unfold m', prio in *. cbn. lia.
  - change (prio m') with (prio m). by rewrite Elead.
  - change (prio m') with (prio m). rewrite Elead. intros x Hx. rewrite elem_of_app, elem_of_cons in Hx.
    destruct (decide (x = n)) as [->|Hxn]; [done|]. apply Hal. rewrite elem_of_app. tauto.
Qed.

Lemma plist_requeue_ok m n h l1 l2 :
  plist m h (l1 ++ n :: l2) ->
  exists m', plist_requeue m n h = Ret m' /\ plist m' h (insert_prio (prio m) n (l1 ++ l2)) /\
    same_outside (h :: l1 ++ n :: l2) m m'.
Proof.
  intros P. destruct (plist_nonempty m h l1 n l2 P) as [E1 E2]. pose proof P as [Dn Hs _ _].
  unfold plist_requeue, bug_on. rewrite E1, E2.
  apply sorted_app in Hs as (S1 & S2 & S12). destruct l2 as [|y l2].
  - rewrite (last_spec m h l1 n Dn), Z.eqb_refl. exists m. split; [done|]. split; [|apply same_outside_refl].
    rewrite insert_prio_at; [done| |set_solver]. intros x Hx. apply S12; [done|by left].
  - assert (En : n =? plist_last m h = false).
    { destruct (exists_last (l := y :: l2) ltac:(done)) as (c & z & Ec). rewrite Ec in *.
      rewrite (app_comm_cons c), app_assoc in Dn. rewrite (last_spec m h _ z Dn). apply Z.eqb_neq. intros ->.
      destruct Dn as [[_ Hd]%list.NoDup_cons _]. apply list.NoDup_app in Hd as (_ & Hd & _).
      apply (Hd z); [apply elem_of_app; right; by left|by left]. }
    rewrite En, (next_spec m h l1 n y l2 Dn). destruct S2 as [F2 S2]. pose proof (Forall_inv F2) as Hny. cbn beta in Hny.
    destruct (Z.eqb_spec (prio m n) (prio m y)) as [Ey|Ey]; cbn [negb].
    + destruct (plist_del_ok m n h l1 (y :: l2) P) as (P' & _ & Dp & Ep & Wn & Wp). set (m1 := plist_del m n h) in *.
      unfold requeue_next. rewrite (continue_spec m1 h l1 y l2 (pl_nodes _ _ _ P')).
      destruct (find_prio (prio m1) n l2) with (h := h) as (c1 & c2 & -> & H1 & H2 & ->).
      { pose proof (pl_sorted _ _ _ P') as S'. apply sorted_app in S' as (_ & [_ S'] & _). done. }
      { intros x Hx. rewrite !Ep, Ey. destruct S2 as [F _]. rewrite Forall_forall in F. by apply F, list_elem_of_In. }
      destruct (requeue_ok m1 n h l1 y c1 c2) as [Q W]; try done; [|by rewrite !Ep|].
      { destruct Dn as [Hd _]. rewrite (app_comm_cons l1), <- Permutation_middle in Hd. by apply list.NoDup_cons in Hd as [? _]. }
      assert (Epr : prio m1 = prio m) by (unfold m1; by rewrite (plist_del_eq m n h l1 (y :: c1 ++ c2) Dn)).
      eexists. split; [reflexivity|]. rewrite <- Epr. split; [done|].
      apply (same_outside_trans _ _ m1); [by split|]. apply (same_outside_weaken _ _ _ _ W). intros x.
      rewrite !elem_of_cons, !elem_of_app, !elem_of_cons. tauto.
    + exists m. split; [done|]. split; [|apply same_outside_refl]. rewrite insert_prio_at; [done|..].
      * intros x Hx. apply S12; [done|by left].
      * destruct S2 as [F _]. rewrite Forall_forall in F. intros x [->|Hx]%elem_of_cons; [lia|].
        specialize (F x (proj1 (list_elem_of_In _ _) Hx)). lia.
Qed.

(** ** The checks *)

Lemma check_loop_ok fuel m top x l :
  chain m x l -> next m (List.last l x) = top -> prev m top = List.last l x -> top ∉ l -> (length l < fuel)%nat ->
  (l = [] -> True) -> check_loop fuel m top x (hd top l) = Some false.
Proof.
  revert x l. induction fuel as [|fuel IH]; intros x l Hc Hn Hp Ht Hf _; [lia|]. cbn [check_loop].
  destruct l as [|y l]; cbn [hd]; [by rewrite Z.eqb_refl|]. apply not_elem_of_cons in Ht as [Hy Ht].
  rewrite (proj2 (Z.eqb_neq y top)) by done. cbn [negb]. destruct Hc as [_ Hc]. rewrite last_cons in Hn, Hp.
  assert (E : next m y = hd top l /\ prev m (hd top l) = y).
  { destruct l as [|z l]; [split; done|]. destruct Hc as [[H1 H2] _]. split; done. }
  destruct E as [E1 E2]. rewrite E1, (IH y l) by (done || (cbn in Hf; lia)). cbn.
  unfold plist_check_prev_next. by rewrite E1, E2, !Z.eqb_refl.
Qed.

Lemma check_list_ok fuel m top l : dlist m top l -> (length l < fuel)%nat -> plist_check_list fuel m top = Some false.
Proof.
  intros [Hd R] Hf. unfold plist_check_list. rewrite (ring_next _ _ _ R). destruct R as [Hc [L1 L2]].
  apply list.NoDup_cons in Hd as [Ht _].
  replace (match l with [] => top | a :: _ => a end) with (hd top l) by (by destruct l).
  rewrite (check_loop_ok fuel m top top l) by done. cbn. unfold plist_check_prev_next.
  assert (E : next m top = hd top l /\ prev m (hd top l) = top).
  { destruct l as [|z l]; [split; done|]. destruct Hc as [[H1 H2] _]. split; done. }
  destruct E as [-> ->]. by rewrite !Z.eqb_refl.
Qed.

Lemma check_head_ok fuel m h l : plist m h l -> (length l < fuel)%nat -> plist_check_head fuel m h = Some false.
Proof.
  intros [Dn _ R _] Hf. unfold plist_check_head. rewrite (check_list_ok fuel (node_list m) h l Dn Hf).
  rewrite (head_empty_spec m h l Dn). destruct l as [|x l]; [done|]. rewrite bool_decide_eq_false_2 by done. cbn [negb].
  rewrite (first_spec m h x l Dn). rewrite leaders_head in R. cbn [ringof] in R.
  rewrite (check_list_ok fuel (prio_list m) x _ R); [done|].
  pose proof (leaders_length (prio m) (Some (prio m x)) l). cbn in Hf. lia.
Qed.

Lemma test_loop_ok m h x0 d l2 c pp :
  plist m h (d ++ l2) -> leaders (prio m) None d = c ++ [pp] -> hd x0 d = x0 -> d <> [] ->
  exists c' pp', leaders (prio m) None (d ++ l2) = c' ++ [pp'] /\
    test_loop m x0 l2 (Z.of_nat (length l2)) pp = Ret (0, pp').
Proof.
  intros P. revert d c pp P. induction l2 as [|y l2 IH]; intros d c pp P El Hx Hd.
  { rewrite app_nil_r. exists c, pp. split; [done|]. done. }
  cbn [test_loop]. destruct (Z.ltb_spec (Z.of_nat (length (y :: l2))) 0); [lia|].
  replace (Z.of_nat (length (y :: l2)) - 1) with (Z.of_nat (length l2)) by (cbn [length]; lia).
  assert (Hy : y <> x0).
  { destruct d as [|z d]; [done|]. cbn in Hx. subst z. intros ->. destruct P as [[Hnd _] _ _ _]. apply list.NoDup_cons in Hnd as [_ Hnd].
    apply list.NoDup_cons in Hnd as [Hnd _]. apply Hnd, elem_of_app. right. by left. }
  rewrite (proj2 (Z.eqb_neq y x0) Hy). replace (d ++ y :: l2) with ((d ++ [y]) ++ l2) in * by (by rewrite <- app_assoc).
  assert (Hlast : last_prio (prio m) None d = Some (prio m pp)).
  { rewrite <- leaders_last, El. unfold last_prio. by rewrite last_snoc. }
  assert (Hlead : leaders (prio m) None (d ++ [y]) = (c ++ [pp]) ++ if decide (prio m pp = prio m y) then [] else [y]).
  { rewrite leaders_at, Hlast, El. cbn [leaders]. rewrite app_nil_r. repeat case_decide; try done; congruence. }
  assert (Hx' : hd x0 (d ++ [y]) = x0) by (by destruct d).
  destruct P as [Dn Hs R Hal]. rewrite leaders_app, Hlead in R, Hal. destruct (Z.eqb_spec (prio m y) (prio m pp)) as [E|E].
  - rewrite decide_True in Hlead, R, Hal by done. rewrite app_nil_r in *.
    assert (Dy : dlist (prio_list m) y []).
    { apply Hal; [rewrite !elem_of_app; left; right; by left|]. rewrite <- El, elem_of_app. destruct Dn as [[_ Hnd]%list.NoDup_cons _].
      apply list.NoDup_app in Hnd as (H1 & H2 & _). apply list.NoDup_app in H1 as (_ & H1 & _).
      intros [Hi%leaders_in|Hi%leaders_in]; [apply (H1 y Hi); by left|]. apply (H2 y); [apply elem_of_app; right; by left|done]. }
    unfold bug_on. rewrite (empty_dlist _ _ _ Dy). cbn [negb]. apply (IH (d ++ [y]) c pp); [|done|done|by destruct d].
    split; [done..|by rewrite leaders_app, Hlead|by rewrite leaders_app, Hlead].
  - rewrite decide_False in Hlead, R, Hal by congruence.
    assert (Hle : prio m pp <= prio m y).
    { rewrite <- app_assoc in Hs. apply sorted_app in Hs as (_ & _ & Hs). apply Hs; [|by left]. apply (leaders_in (prio m) None).
      rewrite El. apply elem_of_app. right. by left. }
    assert (En : next (prio_list m) pp = y).
    { rewrite <- !app_assoc in R. cbn [app] in R. by rewrite (ringof_next _ _ _ _ R). }
    unfold bug_on. destruct (Z.gtb_spec (prio m pp) (prio m y)); [lia|]. rewrite En, Z.eqb_refl. cbn [negb].
    apply (IH (d ++ [y]) (c ++ [pp]) y); [|done|done|by destruct d].
    split; [done..|by rewrite leaders_app, Hlead|by rewrite leaders_app, Hlead].
Qed.

Lemma test_check_ok m h l : plist m h l -> plist_test_check m h (Z.of_nat (length l)) = Ret tt.
Proof.
  intros P. pose proof P as [Dn _ R _]. unfold plist_test_check. rewrite (head_empty_spec m h l Dn).
  destruct l as [|x l]; [by rewrite bool_decide_eq_true_2|]. rewrite bool_decide_eq_false_2 by done.
  rewrite (first_spec m h x l Dn), (for_each_spec m h _ Dn). cbn [test_loop].
  destruct (Z.ltb_spec (Z.of_nat (length (x :: l))) 0); [lia|]. rewrite Z.eqb_refl.
  replace (Z.of_nat (length (x :: l)) - 1) with (Z.of_nat (length l)) by (cbn [length]; lia).
  destruct (test_loop_ok m h x [x] l [] x P eq_refl eq_refl ltac:(done)) as (c & pp & El & ->).
  cbn [obind fst snd]. unfold bug_on. cbn [app] in El. rewrite El in R. rewrite (ringof_next _ _ _ _ R).
  assert (Eh : hd pp c = x) by (rewrite leaders_head in El; destruct c; cbn [app] in El; by injection El as -> _).
  cbn [hd]. by rewrite Eh, !Z.eqb_refl.
Qed.

(** ** The self-test *)

Lemma insert_prio_perm pr n l : insert_prio pr n l ≡ₚ n :: l.
Proof.
  induction l as [|x l IH]; cbn [insert_prio]; [done|]. destruct (pr n <? pr x); [done|]. rewrite IH. apply Permutation_swap.
Qed.

Lemma leaders_ext pr pr' p l : (forall x, x ∈ l -> pr x = pr' x) -> leaders pr p l = leaders pr' p l.
Proof.
  revert p. induction l as [|x l IH]; intros p Hx; [done|]. cbn [leaders]. rewrite (Hx x) by (by left).
  assert (Hl : forall q, leaders pr q l = leaders pr' q l) by (intros q; apply IH; intros y Hy; apply Hx; by right).
  by rewrite !Hl.
Qed.

Lemma sorted_ext pr pr' l : (forall x, x ∈ l -> pr x = pr' x) -> sorted pr l -> sorted pr' l.
Proof.
  induction l as [|x l IH]; intros Hx; [done|]. intros [F S]. split.
  - rewrite Forall_forall in *. intros y Hy. rewrite <- (Hx x), <- (Hx y); [by apply F|right; by apply list_elem_of_In|by left].
  - apply IH; [|done]. intros y Hy. apply Hx. by right.
Qed.

(** The priority of a node that is on no list may change. *)
Lemma plist_set_prio m h l n v :
  plist m h l -> n ∉ l -> plist (PMem (node_list m) (prio_list m) (<[n := v]> (prios m))) h l.
Proof.
  intros [Dn Hs R Hal] Hn. set (m' := PMem _ _ _).
  assert (E : forall x, x ∈ l -> prio m x = prio m' x).
  { intros x Hx. unfold prio, m'. cbn. rewrite lookup_insert_ne; [done|]. by intros <-. }
  split; [done|by apply (sorted_ext (prio m))|..]; by rewrite <- (leaders_ext (prio m) (prio m') None l E).
Qed.

Lemma test_requeue_ok m n h l1 l2 :
  plist m h (l1 ++ n :: l2) ->
  exists m', plist_test_requeue m h n = Ret m' /\ plist m' h (insert_prio (prio m) n (l1 ++ l2)) /\
    same_outside (h :: l1 ++ n :: l2) m m'.
Proof.
  intros P. destruct (plist_requeue_ok m n h l1 l2 P) as (m' & E & P' & S). exists m'. unfold plist_test_requeue. rewrite E. cbn [obind].
  split; [|done]. pose proof (sorted_remove _ _ _ _ (pl_sorted _ _ _ P)) as Hs.
  destruct (split_prio (prio m) n (l1 ++ l2) Hs) as (c1 & c2 & _ & Ei & _ & H2). rewrite Ei in P'.
  destruct (Z.eqb_spec n (plist_last m' h)) as [|Hne]; [done|]. cbn [negb]. destruct c2 as [|y c2].
  - destruct Hne. symmetry. exact (last_spec m' h c1 n (pl_nodes _ _ _ P')).
  - rewrite (next_spec m' h c1 n y c2 (pl_nodes _ _ _ P')). destruct S as [Ep _]. rewrite !Ep. unfold bug_on.
    rewrite (proj2 (Z.eqb_neq _ _)); [done|]. specialize (H2 y ltac:(by left)). lia.
Qed.

Section Test.
Context (fuel : nat) (h base : Z).
Hypothesis Hfuel : (242 <= fuel)%nat.

Definition test_node (x : Z) : Prop := base <= x < base + TEST_NODES.
Hypothesis Hh : ~ test_node h.

(** The nodes that are not on the list are initialised. *)
Record test_inv (m : pmem) (nr : Z) (l : list Z) : Prop := {
  ti_plist : plist m h l;
  ti_nr : nr = Z.of_nat (length l);
  ti_nodes : forall x, x ∈ l -> test_node x;
  ti_free : forall x, test_node x -> x ∉ l -> dlist (node_list m) x [] /\ dlist (prio_list m) x [] }.

Lemma test_length m nr l : test_inv m nr l -> (length l < fuel)%nat.
Proof using Hfuel.
  intros T. assert (Hs : l ⊆+ seqZ base TEST_NODES).
  { apply NoDup_submseteq; [by destruct (pl_nodes _ _ _ (ti_plist _ _ _ T)) as [[_ ?]%list.NoDup_cons _]|].
    intros x Hx%(ti_nodes _ _ _ T). apply elem_of_seqZ. exact Hx. }
  apply submseteq_length in Hs. rewrite length_seqZ in Hs. change (Z.to_nat TEST_NODES) with 241%nat in Hs. lia.
Qed.

Lemma test_inv_move m m' nr nr' l l' n w :
  test_inv m nr l -> plist m' h l' -> nr' = Z.of_nat (length l') -> test_node n -> (forall x, x ∈ l' -> x = n \/ x ∈ l) ->
  same_outside w m m' -> (forall x, x ∈ w -> x = n \/ x = h \/ x ∈ l) ->
  (forall x, x ∈ n :: l -> x ∉ l' -> dlist (node_list m') x [] /\ dlist (prio_list m') x []) -> test_inv m' nr' l'.
Proof using Hh.
  intros [P Hn Hin Hf] P' Hn' Ht Hl S Hw Hx. split; [done|done| |].
  - intros x Hx'. destruct (Hl x Hx') as [->|Hx'']; [done|by apply Hin].
  - intros x Hx1 Hx2. destruct (decide (x ∈ n :: l)) as [Hi|Hi]; [by apply Hx|]. destruct S as (_ & Wn & Wp).
    rewrite elem_of_cons in Hi. assert (x ∉ w) by (intros Hc%Hw; destruct Hc as [->|[->|?]]; tauto).
    destruct (Hf x Hx1 ltac:(tauto)) as [D1 D2].
    split; [apply (dlist_frame (node_list m))|apply (dlist_frame (prio_list m))]; try done;
      intros z ->%list_elem_of_singleton; [by apply Wn|by apply Wp].
Qed.

Lemma test_node_empty m nr l n : test_inv m nr l -> test_node n -> plist_node_empty m n = negb (bool_decide (n ∈ l)).
Proof using.
  intros [P _ _ Hf] Ht. destruct (decide (n ∈ l)) as [Hi|Hi].
  - rewrite bool_decide_eq_true_2 by done. apply list_elem_of_split in Hi as (l1 & l2 & ->). by apply (plist_nonempty m h l1 n l2).
  - rewrite bool_decide_eq_false_2 by done. by rewrite (node_empty_spec m n [] (proj1 (Hf n Ht Hi))).
Qed.

Lemma test_add m nr l n v :
  test_inv m nr l -> test_node n -> n ∉ l ->
  exists m' l', plist_add fuel (PMem (node_list m) (prio_list m) (<[n := v]> (prios m))) n h = Some m' /\ test_inv m' (nr + 1) l'.
Proof using Hfuel Hh.
  intros T Ht Hi. pose proof T as [P Hn Hin Hf]. set (m0 := PMem _ _ _). destruct (Hf n Ht Hi) as [Dn Dp].
  destruct (plist_add_ok fuel m0 n h l) as (m' & E & P' & S); [by apply plist_set_prio| |done|by eapply test_length|].
  { intros [->|]%elem_of_cons; done. }
  pose proof (insert_prio_perm (prio m0) n l) as Hp.
  exists m', (insert_prio (prio m0) n l). split; [done|].
  assert (T0 : test_inv m0 nr l) by (split; [by apply plist_set_prio|done..]).
  apply (test_inv_move m0 m' nr _ l _ n (n :: h :: l) T0 P'); [|done| |done| |].
  - rewrite Hp. cbn [length]. lia.
  - intros x Hx. rewrite Hp, elem_of_cons in Hx. done.
  - intros x. rewrite !elem_of_cons. tauto.
  - intros x Hx Hx'. destruct Hx'. by rewrite Hp.
Qed.

Lemma test_del m nr l1 n l2 :
  test_inv m nr (l1 ++ n :: l2) -> test_inv (plist_del m n h) (nr - 1) (l1 ++ l2).
Proof using Hfuel Hh.
  intros T. pose proof T as [P Hn Hin Hf]. destruct (plist_del_ok m n h l1 l2 P) as (P' & Dn & Dp & S).
  assert (Hnn : n ∈ l1 ++ n :: l2) by (apply elem_of_app; right; by left).
  apply (test_inv_move m _ nr _ (l1 ++ n :: l2) _ n (h :: l1 ++ n :: l2) T P'); [| | |exact S| |].
  - rewrite Hn, !length_app. cbn [length]. lia.
  - by apply Hin.
  - intros x. rewrite !elem_of_app, elem_of_cons. tauto.
  - intros x. rewrite elem_of_cons. tauto.
  - intros x Hx Hx'. assert (x = n) as ->; [|done]. rewrite elem_of_cons, !elem_of_app, elem_of_cons in *. tauto.
Qed.

Lemma test_requeue m nr l n :
  test_inv m nr l -> n ∈ l -> exists m' l', plist_test_requeue m h n = Ret m' /\ test_inv m' nr l'.
Proof using Hh.
  intros T (l1 & l2 & ->)%list_elem_of_split. pose proof T as [P Hn Hin Hf].
  destruct (test_requeue_ok m n h l1 l2 P) as (m' & E & P' & S). pose proof (insert_prio_perm (prio m) n (l1 ++ l2)) as Hp.
  assert (Hp' : insert_prio (prio m) n (l1 ++ l2) ≡ₚ l1 ++ n :: l2) by (by rewrite Hp, Permutation_middle).
  exists m', (insert_prio (prio m) n (l1 ++ l2)). split; [done|].
  apply (test_inv_move m m' nr _ (l1 ++ n :: l2) _ n (h :: l1 ++ n :: l2) T P'); [by rewrite Hp'| | |exact S| |].
  - apply Hin. apply elem_of_app. right. by left.
  - intros x. rewrite Hp'. tauto.
  - intros x. rewrite elem_of_cons. tauto.
  - intros x Hx Hx'. destruct Hx'. rewrite Hp', elem_of_app, elem_of_cons. rewrite elem_of_cons, elem_of_app, elem_of_cons in Hx. tauto.
Qed.

Lemma test_check m nr l : test_inv m nr l -> plist_test_check m h nr = Ret tt.
Proof using. intros [P -> _ _]. by apply (test_check_ok m h l). Qed.

Lemma test_step_ok m nr r l :
  test_inv m nr l -> exists m' nr' r' l', test_step fuel h base (m, nr, r) = Ret (m', nr', r') /\ test_inv m' nr' l'.
Proof using Hfuel Hh.
  intros T. unfold test_step. set (r1 := u32 (r * 193939) mod 47629). set (n := base + r1 mod TEST_NODES).
  assert (Ht : test_node n).
  { unfold test_node, n. pose proof (Z.mod_pos_bound r1 TEST_NODES eq_refl). lia. }
  assert (G : exists m1 nr1 r2 l1,
    (if plist_node_empty m n then
       match plist_add fuel (PMem (node_list m) (prio_list m) (<[n := u32 (r1 * 193939) mod 47629 mod 99]> (prios m))) n h with
       | Some m => Ret (m, nr + 1, u32 (r1 * 193939) mod 47629) | None => Bug end
     else Ret (plist_del m n h, nr - 1, r1)) = Ret (m1, nr1, r2) /\ test_inv m1 nr1 l1).
  { rewrite (test_node_empty m nr l n T Ht). destruct (decide (n ∈ l)) as [Hi|Hi].
    - rewrite bool_decide_eq_true_2 by done. cbn [negb]. apply list_elem_of_split in Hi as (l1 & l2 & ->).
      do 4 eexists. split; [reflexivity|]. by apply test_del.
    - rewrite bool_decide_eq_false_2 by done. cbn [negb].
      destruct (test_add m nr l n (u32 (r1 * 193939) mod 47629 mod 99) T Ht Hi) as (m' & l' & -> & T'). eauto 10. }
  destruct G as (m1 & nr1 & r2 & l1 & -> & T1). cbn [obind]. rewrite (test_check m1 nr1 l1 T1). cbn [obind].
  rewrite (test_node_empty m1 nr1 l1 n T1 Ht), negb_involutive. destruct (decide (n ∈ l1)) as [Hi|Hi].
  - rewrite bool_decide_eq_true_2 by done. destruct (test_requeue m1 nr1 l1 n T1 Hi) as (m2 & l2 & -> & T2). cbn [obind].
    rewrite (test_check m2 nr1 l2 T2). cbn [obind]. eauto 10.
  - rewrite bool_decide_eq_false_2 by done. eauto 10.
Qed.

Lemma repeat_ok k st l :
  test_inv (fst (fst st)) (snd (fst st)) l ->
  exists st' l', repeat_step k (test_step fuel h base) st = Ret st' /\ test_inv (fst (fst st')) (snd (fst st')) l'.
Proof using Hfuel Hh.
  revert st l. induction k as [|k IH]; intros st l T; cbn [repeat_step]; [by exists st, l|]. destruct st as [[m nr] r].
  destruct (test_step_ok m nr r l T) as (m' & nr' & r' & l' & -> & T'). cbn [obind]. by apply (IH (m', nr', r') l').
Qed.

Lemma drain_ok ns m nr l :
  test_inv m nr l -> (forall x, x ∈ ns -> test_node x) -> (forall x, x ∈ l -> x ∈ ns) ->
  exists m', drain_test ns h (m, nr) = Ret (m', 0) /\ test_inv m' 0 [].
Proof using Hfuel Hh.
  revert m nr l. induction ns as [|n ns IH]; intros m nr l T Hns Hl; cbn [drain_test].
  - assert (l = []) as -> by (destruct l as [|x l]; [done|]; exfalso; specialize (Hl x ltac:(by left)); by apply elem_of_nil in Hl).
    pose proof (ti_nr _ _ _ T) as ->. exists m. split; [done|exact T].
  - rewrite (test_node_empty m nr l n T (Hns n ltac:(by left))). destruct (decide (n ∈ l)) as [Hi|Hi].
    + rewrite bool_decide_eq_true_2 by done. cbn [negb]. pose proof Hi as (l1 & l2 & ->)%list_elem_of_split.
      pose proof (test_del m nr l1 n l2 T) as T'. rewrite (test_check _ _ _ T'). cbn [obind].
      apply (IH _ _ (l1 ++ l2) T'); [intros x Hx; apply Hns; by right|]. intros x Hx.
      assert (x ∈ n :: ns) as [->|]%elem_of_cons; [apply Hl; rewrite elem_of_app, elem_of_cons in *; tauto| |done].
      destruct (pl_nodes _ _ _ (ti_plist _ _ _ T)) as [[_ Hd]%list.NoDup_cons _]. rewrite <- Permutation_middle in Hd.
      by apply list.NoDup_cons in Hd as [? _].
    + rewrite bool_decide_eq_false_2 by done. cbn [negb]. apply (IH _ _ l T); [intros x Hx; apply Hns; by right|].
      intros x Hx. specialize (Hl x Hx). apply elem_of_cons in Hl as [->|]; done.
Qed.

Lemma init_nodes_ok ns m :
  (forall x, x ∈ ns -> x <> h) -> dlist (node_list m) h [] ->
  let m' := fold_left (fun m n => plist_node_init m n 0) ns m in
  dlist (node_list m') h [] /\
  forall x, x ∈ ns \/ (dlist (node_list m) x [] /\ dlist (prio_list m) x []) ->
    dlist (node_list m') x [] /\ dlist (prio_list m') x [].
Proof using.
  revert m. induction ns as [|n ns IH]; intros m Hns D; cbn [fold_left].
  - split; [done|]. intros x [?%elem_of_nil|?]; done.
  - destruct (node_init_spec m n 0) as (D1 & D2 & _ & W1 & W2 & _). set (m1 := plist_node_init m n 0) in *.
    assert (Hk : forall x, x <> n -> dlist (node_list m) x [] -> dlist (node_list m1) x []).
    { intros x Hx. apply dlist_frame. intros z ->%list_elem_of_singleton. apply W1. by rewrite list_elem_of_singleton. }
    assert (Hk' : forall x, x <> n -> dlist (prio_list m) x [] -> dlist (prio_list m1) x []).
    { intros x Hx. apply dlist_frame. intros z ->%list_elem_of_singleton. apply W2. by rewrite list_elem_of_singleton. }
    destruct (IH m1) as [I1 I2]; [intros x Hx; apply Hns; by right|apply Hk; [symmetry; apply Hns; by left|done]|].
    split; [done|]. intros x Hx. apply I2. destruct (decide (x = n)) as [->|Hne]; [by right|].
    destruct Hx as [[->|Hx]%elem_of_cons|[X1 X2]]; [done|by left|right; split; [by apply Hk|by apply Hk']].
Qed.

Lemma test_nodes x : x ∈ map (Z.add base) (seqZ 0 TEST_NODES) <-> test_node x.
Proof using.
  clear Hfuel Hh. unfold test_node. rewrite list_elem_of_fmap. setoid_rewrite elem_of_seqZ. split; [intros (i & -> & ?); lia|].
  intros Hx. exists (x - base). lia.
Qed.
End Test.

(** ** Correctness *)

(** A priority list keeps its nodes sorted by priority, first in first out
    within a priority: adding a node puts it behind the nodes of its own priority,
    deleting removes exactly the node and leaves it initialised, requeueing moves
    a node behind the others of its priority, and every operation keeps the second
    ring exactly on the first node of each priority. *)
Theorem plist_ops_correct (m : pmem) (h : Z) (l : list Z) :
  plist m h l ->
  (forall fuel n, n ∉ h :: l -> dlist (prio_list m) n [] -> (length l < fuel)%nat ->
     exists m', plist_add fuel m n h = Some m' /\ plist m' h (insert_prio (prio m) n l) /\ same_outside (n :: h :: l) m m') /\
  (forall l1 n l2, l = l1 ++ n :: l2 ->
     let m' := plist_del m n h in
     plist m' h (l1 ++ l2) /\ dlist (node_list m') n [] /\ dlist (prio_list m') n [] /\ same_outside (h :: l) m m') /\
  (forall l1 n l2, l = l1 ++ n :: l2 ->
     exists m', plist_requeue m n h = Ret m' /\ plist m' h (insert_prio (prio m) n (l1 ++ l2)) /\ same_outside (h :: l) m m').
Proof.
  intros P. split_and!.
  - intros fuel n Hn Dp Hf. by apply plist_add_ok.
  - intros l1 n l2 ->. by apply plist_del_ok.
  - intros l1 n l2 ->. by apply plist_requeue_ok.
Qed.

(** The self-test of the priority lists ends and finds no fault, whatever the
    clock returns: all checks of the list and of the ring of priorities pass after
    each of the thousand random insertions, deletions and requeues, and the list
    is empty at the end. *)
Theorem plist_test_passes (fuel : nat) (m : pmem) (h base clock : Z) :
  (242 <= fuel)%nat -> ~ test_node base h ->
  exists m', plist_test fuel m h base clock = Ret (m', 0) /\ plist m' h [] /\ plist_check_head fuel m' h = Some false.
Proof.
  intros Hf Hh. unfold plist_test. destruct (head_init_spec m h) as (D & _). set (m0 := plist_head_init m h) in *.
  destruct (init_nodes_ok h (map (Z.add base) (seqZ 0 TEST_NODES)) m0) as [D1 D2]; [|done|].
  { intros x Hx%test_nodes ->. done. }
  set (m1 := fold_left _ _ _) in *.
  assert (T : test_inv h base m1 0 []).
  { split; [split; [done|done|done|by intros x ?%elem_of_nil]|done|by intros x ?%elem_of_nil|].
    intros x Hx _. apply D2. left. by apply test_nodes. }
  destruct (repeat_ok fuel h base Hf Hh 1000 (m1, 0, u32 clock) [] T) as ([[m2 nr] r] & l & -> & T2). cbn [obind fst snd] in *.
  destruct (drain_ok fuel h base Hf Hh (map (Z.add base) (seqZ 0 TEST_NODES)) m2 nr l T2) as (m3 & -> & T3).
  { intros x. by rewrite test_nodes. } { intros x Hx. apply test_nodes. by apply (ti_nodes _ _ _ _ _ T2). }
  exists m3. split; [done|]. pose proof (ti_plist _ _ _ _ _ T3) as P. split; [done|]. apply (check_head_ok fuel m3 h [] P).
  cbn. lia.
Qed.
End PListSpec.

(** ** The header of the kernel as an instance *)

Lemma ring_back m x l z : ring m x l -> z ∈ x :: l -> prev m (next m z) = z.
Proof.
  intros R [->|Hz]%elem_of_cons.
  - rewrite (ring_next _ _ _ R). destruct l; destruct R as [H1 H2]; [apply H2|apply H1].
  - apply list_elem_of_split in Hz as (l1 & l2 & ->). apply ring_rotate in R. rewrite (ring_next _ _ _ R).
    destruct l2; destruct R as [H1 H2]; apply H1.
Qed.

Definition walk_fuel (m : links) : nat := S (size (dom (l_next m))).

Lemma walk_fuel_ok m h l : dlist m h l -> (length l <= walk_fuel m)%nat.
Proof.
  intros [Hd R]. assert (Hs : h :: l ⊆+ prev m 0 :: elements (dom (l_next m))).
  { apply NoDup_submseteq; [done|]. intros z Hz. rewrite elem_of_cons, elem_of_elements, elem_of_dom.
    destruct (l_next m !! z) as [v|] eqn:E; [right; by exists v|left]. pose proof (ring_back _ _ _ _ R Hz) as Hb.
    unfold next in Hb. by rewrite E in Hb. }
  apply submseteq_length in Hs. cbn [length] in Hs. unfold walk_fuel, size, set_size in *. cbn. lia.
Qed.

#[global, refine] Instance kernel_plist : PlistHeader := {
  plist_head_empty m h := list_empty (node_list m) h;
  plist_first m h := next (node_list m) h;
  plist_last m h := prev (node_list m) h;
  plist_next m n := next (node_list m) n;
  plist_node_empty m n := list_empty (node_list m) n;
  plist_head_init m h := set_node_list m (INIT_LIST_HEAD (node_list m) h);
  plist_node_init m n p := PMem (INIT_LIST_HEAD (node_list m) n) (INIT_LIST_HEAD (prio_list m) n) (<[n := p]> (prios m));
  plist_for_each m h := default [] (list_for_each (walk_fuel (node_list m)) (node_list m) h);
  plist_for_each_continue m x h :=
    default [] (list_walk (next (node_list m)) (walk_fuel (node_list m)) (next (node_list m) x) h) }.
Proof.
  - intros m h l D. rewrite (empty_dlist _ _ _ D). by destruct l.
  - intros m h x l [_ R]. by rewrite (ring_next _ _ _ R).
  - intros m h l x [_ R]. by rewrite (ring_prev _ _ _ R), last_app.
  - intros m h l1 x y l2 D. destruct (proj1 (dlist_rotate _ _ _ _ _) D) as [_ R]. by rewrite (ring_next _ _ _ R).
  - intros m n l D. rewrite (empty_dlist _ _ _ D). by destruct l.
  - intros m h. cbn. split; [apply init_dlist|]. split; [apply init_writes|]. done.
  - intros m n p. cbn. split; [apply init_dlist|]. split; [apply init_dlist|]. unfold prio. cbn. rewrite lookup_insert_eq.
    split; [done|]. split; [apply init_writes|]. split; [apply init_writes|]. intros x Hx. by rewrite lookup_insert_ne.
  - intros m h l D. by rewrite (for_each_dlist _ h l _ D (walk_fuel_ok _ _ _ D)).
  - intros m h l1 x l2 D. pose proof (walk_fuel_ok _ _ _ D) as Hf. rewrite length_app in Hf. cbn [length] in Hf.
    destruct (proj1 (dlist_rotate _ _ _ _ _) D) as [Hd R]. rewrite (ring_next _ _ _ R). destruct l2 as [|y l2]; cbn [app].
    + unfold walk_fuel. cbn. by rewrite Z.eqb_refl.
    + cbn [app] in *. destruct R as [[_ Hc] _]. apply chain_app in Hc as [Hc [[Hn _] _]].
      rewrite (walk_next _ h y l2 _ Hc Hn); [done| |cbn in Hf; lia].
      apply list.NoDup_cons in Hd as [_ Hd]. rewrite app_comm_cons, list.NoDup_app in Hd. destruct Hd as (_ & Hd & _).
      intros Hi. apply (Hd h Hi). by left.
Defined.

(** ** Examples *)

Definition example_plist : pmem :=
  let m := plist_head_init (PMem (Links ∅ ∅) (Links ∅ ∅) ∅) 1 in
  fold_left (fun m np => default m (plist_add 5 (plist_node_init m (fst np) (snd np)) (fst np) 1)) [(10, 5); (11, 3); (12, 5)] m.

Lemma example_plist_ok : plist example_plist 1 [11; 10; 12].
Proof.
  assert (E : leaders (prio example_plist) None [11; 10; 12] = [11; 10]) by (vm_compute; reflexivity).
  split; rewrite ?E; clear E.
  - split; [apply NoDup_ListNoDup; repeat constructor; set_solver|vm_compute; tauto].
  - vm_compute. repeat (split; try (repeat constructor; discriminate)).
  - split; [apply NoDup_ListNoDup; repeat constructor; set_solver|vm_compute; tauto].
  - intros x Hx Hl. assert (x = 12) as -> by set_solver. split; [apply NoDup_singleton|vm_compute; tauto].
Qed.

Lemma plist_ops_correct_witness :
  exists m', plist_requeue example_plist 10 1 = Ret m' /\ plist m' 1 [11; 12; 10].
Proof.
  destruct (plist_ops_correct example_plist 1 [11; 10; 12] example_plist_ok) as (_ & _ & H).
  destruct (H [11] 10 [12] eq_refl) as (m' & E & P & _). exists m'. split; [exact E|]. exact P.
Defined.

Lemma plist_test_passes_witness :
  exists m', plist_test 242 (PMem (Links ∅ ∅) (Links ∅ ∅) ∅) 1 1000 12345 = Ret (m', 0) /\ plist m' 1 [].
Proof.
  destruct (plist_test_passes 242 (PMem (Links ∅ ∅) (Links ∅ ∅) ∅) 1 1000 12345) as (m' & E & P & _).
  - lia.
  - unfold test_node, TEST_NODES. lia.
  - exists m'. split; [exact E|exact P].
Defined.
