(* ===== verification/Futex.v ===== *)
(** Waiting on a word of the shared memory and waking the waiters:
    src/driver/src/cxl_futex_waitwake.c, cxl_futex.h and the hash of
    user_space_kernel_def/include/linux/hash.h.

    A waiter is an entry in the hash bucket of its offset, on a priority list
    ([PList]); a waker removes entries and wakes their tasks.  The functions are
    state passing on one machine's table; [FutexSpec] proves them correct and
    interleaves their steps.  What the kernel decides -- the task that runs, its
    priority, timers -- is an argument. *)
From Stdlib Require Import ZArith Lia Bool.
From stdpp Require Import base list gmap numbers.
From S2P Require Import Prelude ShmemLog PersistCas TatasLock MetaAlloc CircularQueue MetaInit LinuxList PList.
Local Open Scope Z_scope.
Local Open Scope lupin_scope.

(** ** The hash *)

Definition GOLDEN_RATIO_32 : Z := 0x61C88647.
Definition GOLDEN_RATIO_64 : Z := 0x61C8864680B583EB.

Definition __hash_32_generic (val : Z) : Z := u32 (val * GOLDEN_RATIO_32).
Definition hash_32 (val bits : Z) : Z := Z.shiftr (__hash_32_generic val) (32 - bits).
Definition hash_64_generic (val bits : Z) : Z := u32 (Z.shiftr (u64 (val * GOLDEN_RATIO_64)) (64 - bits)).
Definition hash_long (val bits : Z) : Z := hash_64_generic val bits.
Definition hash_ptr (ptr bits : Z) : Z := hash_long ptr bits.
Definition hash32_ptr (ptr : Z) : Z := u32 (Z.lxor ptr (Z.shiftr ptr 32)).

Definition WAIT_TABLE_BITS : Z := 12.
Definition WAIT_TABLE_SIZE : Z := Z.shiftl 1 WAIT_TABLE_BITS.

(** The index of the bucket. *)
Definition cxl_proc_hashbucket (offset : Z) : Z := hash_long offset WAIT_TABLE_BITS mod WAIT_TABLE_SIZE.

(** ** The table *)

Definition EAGAIN : Z := 11.
Definition E2BIG : Z := 7.
Definition EADDRNOTAVAIL : Z := 99.
Definition ETIMEDOUT : Z := 110.
Definition EVM_ID : Z := 142.
Definition NSEC_PER_SEC : Z := 1000000000.

(** struct vcxl_futex_q without its list node; [q_lock] is the bucket whose lock
    [lock_ptr] points to. *)
Record futex_q := FutexQ { q_task : Z; q_lock : option Z; q_key : Z }.

(** The buckets of a machine, the queue entries by address, and the tasks: which
    of them are on a wake queue and how many references are held. [irqs] says
    that interrupts are enabled, [irqsave] what each bucket saved. *)
Record ftable := FTable {
  chains : pmem; waiters : gmap Z Z; qs : gmap Z futex_q; irqsave : gmap Z bool; irqs : bool;
  on_wake_q : gset Z; task_refs : gmap Z Z; woken : list Z }.

(** The list head of a bucket; queue entries have positive addresses. *)
Definition hb_chain (hb : Z) : Z := - 1 - hb.

Definition no_q : futex_q := FutexQ 0 None 0.
Definition the_q (t : ftable) (q : Z) : futex_q := default no_q (qs t !! q).
Definition the_waiters (t : ftable) (hb : Z) : Z := default 0 (waiters t !! hb).

Definition set_chains (t : ftable) (c : pmem) : ftable :=
  FTable c (waiters t) (qs t) (irqsave t) (irqs t) (on_wake_q t) (task_refs t) (woken t).
Definition set_waiters (t : ftable) (hb n : Z) : ftable :=
  FTable (chains t) (<[hb := n]> (waiters t)) (qs t) (irqsave t) (irqs t) (on_wake_q t) (task_refs t) (woken t).
Definition set_q (t : ftable) (q : Z) (x : futex_q) : ftable :=
  FTable (chains t) (waiters t) (<[q := x]> (qs t)) (irqsave t) (irqs t) (on_wake_q t) (task_refs t) (woken t).
Definition set_irq (t : ftable) (saved : gmap Z bool) (enabled : bool) : ftable :=
  FTable (chains t) (waiters t) (qs t) saved enabled (on_wake_q t) (task_refs t) (woken t).
Definition set_tasks (t : ftable) (w : gset Z) (refs : gmap Z Z) (l : list Z) : ftable :=
  FTable (chains t) (waiters t) (qs t) (irqsave t) (irqs t) w refs l.

Definition vcxl_futex_hb_waiters_inc (t : ftable) (hb : Z) : ftable := set_waiters t hb (u32 (the_waiters t hb + 1)).
Definition vcxl_futex_hb_waiters_dec (t : ftable) (hb : Z) : ftable := set_waiters t hb (u32 (the_waiters t hb - 1)).
Definition vcxl_futex_hb_waiters_pending (t : ftable) (hb : Z) : bool := truthy (the_waiters t hb).

(** [get_task_struct] and [put_task_struct] *)
Definition add_refs (t : ftable) (task n : Z) : ftable :=
  set_tasks t (on_wake_q t) (<[task := default 0 (task_refs t !! task) + n]> (task_refs t)) (woken t).

(** ** Doorbells *)

Definition CXL_IVPCI_VECTOR_HOST_WAKE_ALL : Z := 0.
Definition CXL_IVPCI_VECTOR_PROCESS_WAKE_TABLE_NEXT : Z := 1.
Definition CXL_IVPCI_VECTOR_PROCESS_WAKE_TABLE_ALL : Z := 2.
Definition CXL_IVPCI_VECTOR_PROC_DEATH_NOTIFY : Z := 3.

Definition IVSHMEM_IVPOS_SHIFT : Z := 16.
Definition IVSHMEM_VEC_SHIFT : Z := 0.
Definition IVSHMEM_IVPOS_MASK : Z := 0xffff0000.
Definition IVSHMEM_VEC_MASK : Z := 0xffff.

Record ivpos_reg := IvposReg { vec : Z; ivpos : Z }.

Definition compose_ivpos_msix_reg (vector machine_id : Z) : Z :=
  Z.lor (u32 (Z.shiftl (u32 vector) IVSHMEM_VEC_SHIFT)) (u32 (Z.shiftl (u32 machine_id) IVSHMEM_IVPOS_SHIFT)).

Definition decompose_ivpos_msix_reg (reg : Z) : ivpos_reg :=
  IvposReg (Z.shiftr (Z.land reg IVSHMEM_VEC_MASK) IVSHMEM_VEC_SHIFT)
           (u16 (Z.shiftr (Z.land reg IVSHMEM_IVPOS_MASK) IVSHMEM_IVPOS_SHIFT)).

Section Futex.
Context `{PlistHeader}.
(** MAX_RT_PRIO of linux/sched/prio.h. *)
Context (MAX_RT_PRIO : Z).

(** ** Queueing *)

(** Counts the waiter, points its entry to the lock of the bucket and takes it.
    The caller holds the lock afterwards. *)
Definition vcxl_futex_q_lock (t : ftable) (q : Z) : ftable * Z :=
  let hb := cxl_proc_hashbucket (q_key (the_q t q)) in
  let t := vcxl_futex_hb_waiters_inc t hb in
  let t := set_q t q (FutexQ (q_task (the_q t q)) (Some hb) (q_key (the_q t q))) in
  (set_irq t (<[hb := irqs t]> (irqsave t)) false, hb).

Definition vcxl_futex_q_unlock (t : ftable) (hb : Z) : ftable :=
  let t := set_irq t (irqsave t) (default false (irqsave t !! hb)) in
  vcxl_futex_hb_waiters_dec t hb.

(** [None] when the insertion does not end within [fuel]. *)
Definition __vcxl_futex_queue (fuel : nat) (t : ftable) (q hb current normal_prio : Z) : option ftable :=
  let prio := Z.min normal_prio MAX_RT_PRIO in
  let c := plist_node_init (chains t) q prio in
  match plist_add fuel c q (hb_chain hb) with
  | None => None
  | Some c =>
      let t := set_chains t c in
      Some (set_q t q (FutexQ current (q_lock (the_q t q)) (q_key (the_q t q))))
  end.

(** Releases the lock with [spin_unlock]: the saved flags stay where they are. *)
Definition vcxl_futex_queue (fuel : nat) (t : ftable) (q hb current normal_prio : Z) : option ftable :=
  __vcxl_futex_queue fuel t q hb current normal_prio.

Definition __vcxl_futex_unqueue (t : ftable) (q : Z) : ftable :=
  match q_lock (the_q t q) with
  | None => t
  | Some hb =>
      if plist_node_empty (chains t) q then t
      else
        let t := set_chains t (plist_del (chains t) q (hb_chain hb)) in
        vcxl_futex_hb_waiters_dec t hb
  end.

(** Without interference between the two reads of [lock_ptr]. *)
Definition vcxl_futex_unqueue (t : ftable) (q : Z) : ftable * Z :=
  match q_lock (the_q t q) with
  | Some _ => (__vcxl_futex_unqueue t q, 1)
  | None => (t, 0)
  end.

(** ** Waking *)

Inductive wake_types := WAKE_NEXT | WAKE_ALL.

(** The wake queue is the list of its tasks. *)
Definition __wake_q_add (t : ftable) (head : list Z) (task : Z) : ftable * list Z * bool :=
  if decide (task ∈ on_wake_q t) then (t, head, false)
  else (set_tasks t (on_wake_q t ∪ {[task]}) (task_refs t) (woken t), head ++ [task], true).

Definition vcxl_wake_q_add_safe (t : ftable) (head : list Z) (task : Z) : ftable * list Z :=
  let '(t, head, added) := __wake_q_add t head task in
  ((if added then t else add_refs t task (-1)), head).

Definition vcxl_futex_wake_mark (t : ftable) (wake_q : list Z) (q : Z) : ftable * list Z :=
  let task := q_task (the_q t q) in
  let t := add_refs t task 1 in
  let t := __vcxl_futex_unqueue t q in
  let t := set_q t q (FutexQ (q_task (the_q t q)) None (q_key (the_q t q))) in
  vcxl_wake_q_add_safe t wake_q task.

Fixpoint vcxl_wake_up_q (t : ftable) (head : list Z) : ftable :=
  match head with
  | [] => t
  | task :: head =>
      let t := set_tasks t (on_wake_q t ∖ {[task]}) (task_refs t) (woken t) in
      let t := set_tasks t (on_wake_q t) (task_refs t) (woken t ++ [task]) in
      vcxl_wake_up_q (add_refs t task (-1)) head
  end.

(** [plist_for_each_entry_safe]: the entry after [this] is read before the body,
    which only removes [this]. *)
Fixpoint wake_loop (l : list Z) (t : ftable) (wake_q : list Z) (offset : Z) (wt : wake_types) : ftable * list Z :=
  match l with
  | [] => (t, wake_q)
  | this :: l =>
      if q_key (the_q t this) =? offset then
        let (t, wake_q) := vcxl_futex_wake_mark t wake_q this in
        match wt with
        | WAKE_NEXT => (t, wake_q)
        | WAKE_ALL => wake_loop l t wake_q offset wt
        end
      else wake_loop l t wake_q offset wt
  end.

Definition wake_proc (t : ftable) (offset : Z) (wt : wake_types) : ftable :=
  let hb := cxl_proc_hashbucket offset in
  if negb (vcxl_futex_hb_waiters_pending t hb) then t
  else
    let (t, wake_q) := wake_loop (plist_for_each (chains t) (hb_chain hb)) t [] offset wt in
    vcxl_wake_up_q t wake_q.

(** ** Waiting *)

Record vcxl_cond_wait := VcxlCondWait {
  cw_offset : Z; cw_waiter_arr_offset : Z; cw_wake_time_sec : Z; cw_value : Z; cw_wake_time_nsec : Z;
  cw_wait_type : Z; cw_wakes : Z }.

Definition VCXL_WAIT_IF_EQUAL : Z := 1.
Definition VCXL_WAIT_IF_EQUAL_TIMEOUT : Z := 2.

(** The address as an offset from [mem_start]; [None] is the null pointer. *)
Definition shm_off_to_virtual_addr (d : meta_dram) (offset : Z) : option Z :=
  if offset =? 0 then None else Some (u64 (mem_start d + offset) - mem_start d).

(** The table, the result and the bucket; reading through the null pointer is a fault. *)
Definition vcxl_futex_wait_setup (t : ftable) (m : bytes) (cond : vcxl_cond_wait) (address : option Z) (q : Z)
  : outcome (ftable * Z * Z) :=
  let t := set_q t q (FutexQ (q_task (the_q t q)) (q_lock (the_q t q)) (cw_offset cond)) in
  let (t, hb) := vcxl_futex_q_lock t q in
  match address with
  | None => Bug
  | Some a =>
      let uval := load64 m a in
      if negb (uval =? cw_value cond) then Ret (vcxl_futex_q_unlock t hb, - EAGAIN, hb) else Ret (t, 0, hb)
  end.

(** While the task is off the processor: what the others do to the table and to
    the memory, whether the timer has expired and whether a signal is pending. *)
Record pause := Pause { others : ftable * bytes -> ftable * bytes; expired : bool; signalled : bool }.

(** [while (1)]; [Ret None] is a task that still waits.  A pending signal does not
    leave the loop. *)
Fixpoint cond_wait_loop (fuel : nat) (env : list pause) (t : ftable) (m : bytes) (d : meta_dram) (cond : vcxl_cond_wait)
  (address waiter_arr : option Z) (timeout : bool) (q current normal_prio : Z)
  : outcome (option (ftable * bytes * vcxl_cond_wait * Z)) :=
  let! r := vcxl_futex_wait_setup t m cond address q in
  let '(t, ret, hb) := r in
  if negb (ret =? 0) then Ret (Some (t, m, cond, ret))
  else
    match waiter_arr with
    | None => Bug
    | Some a =>
        let slot := a + 4 * (machine_id d - 1) in
        let m := store32 m slot (load32 m slot + 1) in
        match vcxl_futex_queue fuel t q hb current normal_prio, env with
        | Some t, p :: env =>
            let (t, m) := others p (t, m) in
            let (t, unqueued) := vcxl_futex_unqueue t q in
            if unqueued =? 0 then Ret (Some (t, m, cond, 0))
            else if timeout && expired p then Ret (Some (t, m, cond, - ETIMEDOUT))
            else
              let cond := VcxlCondWait (cw_offset cond) (cw_waiter_arr_offset cond) (cw_wake_time_sec cond) (cw_value cond)
                            (cw_wake_time_nsec cond) (cw_wait_type cond) (u32 (cw_wakes cond + 1)) in
              cond_wait_loop fuel env t m d cond address waiter_arr timeout q current normal_prio
        | _, _ => Ret None
        end
    end.

(** [ivpci_dev] is what the uninitialised pointer of that name refers to; the
    device of the caller is not used. *)
Definition handle_vcxl_cond_wait (fuel : nat) (env : list pause) (t : ftable) (m : bytes) (ivpci_dev : meta_dram)
  (cond : vcxl_cond_wait) (q current normal_prio : Z) : outcome (option (ftable * bytes * vcxl_cond_wait * Z)) :=
  if truthy (Z.land (cw_offset cond) 7) then Ret (Some (t, m, cond, - EADDRNOTAVAIL))
  else if u64 (cw_offset cond + 8) >? mem_length ivpci_dev then Ret (Some (t, m, cond, - E2BIG))
  else
    let address := shm_off_to_virtual_addr ivpci_dev (cw_offset cond) in
    let waiter_arr := shm_off_to_virtual_addr ivpci_dev (cw_waiter_arr_offset cond) in
    let waiting_type := Z.land (cw_wait_type cond) 0xffff in
    if negb (waiting_type =? VCXL_WAIT_IF_EQUAL) && negb (waiting_type =? VCXL_WAIT_IF_EQUAL_TIMEOUT)
    then Ret (Some (t, m, cond, - EINVAL))
    else
      let timeout := waiting_type =? VCXL_WAIT_IF_EQUAL_TIMEOUT in
      if timeout && (cw_wake_time_nsec cond >=? NSEC_PER_SEC) then Ret (Some (t, m, cond, - EINVAL))
      else cond_wait_loop fuel env t m ivpci_dev cond address waiter_arr timeout q current normal_prio.

(** [fault_in] and [fault_out]: copying from or to the user fails. *)
Definition do_vcxl_cond_wait (fuel : nat) (env : list pause) (t : ftable) (m : bytes) (ivpci_dev : meta_dram)
  (ucond : vcxl_cond_wait) (fault_in fault_out : bool) (q current normal_prio : Z)
  : outcome (option (ftable * bytes * vcxl_cond_wait * Z)) :=
  if fault_in then Ret (Some (t, m, ucond, - EFAULT))
  else
    let cond := VcxlCondWait (cw_offset ucond) (cw_waiter_arr_offset ucond) (cw_wake_time_sec ucond) (cw_value ucond)
                  (cw_wake_time_nsec ucond) (cw_wait_type ucond) 0 in
    let! o := handle_vcxl_cond_wait fuel env t m ivpci_dev cond q current normal_prio in
    Ret (match o with
         | None => None
         | Some (t, m, cond, rval) => if fault_out then Some (t, m, ucond, - EFAULT) else Some (t, m, cond, rval)
         end).

(** ** Waking other machines *)

Section Wake.
Context (g : granularity) (nr_cpu_ids cpu_id : Z).

(** The interrupt: one address from the queue of this machine. *)
Definition vcxl_futex_wake (t : ftable) (m : bytes) (d : meta_dram) (wt : wake_types) : outcome (option (ftable * bytes)) :=
  match self_vcxl_addr_queue d with
  | None => Ret (Some (t, m))
  | Some cq =>
      let! o := circular_queue_dequeue g nr_cpu_ids cpu_id m cq (machine_id d) in
      Ret (match o with
           | None => None
           | Some (m, deq_ret, offset) => if deq_ret =? -1 then Some (t, m) else Some (wake_proc t offset wt, m)
           end)
  end.

Definition vcxl_ivpci_interrupt_process_wake_table_next (t : ftable) (m : bytes) (d : meta_dram) := vcxl_futex_wake t m d WAKE_NEXT.
Definition vcxl_ivpci_interrupt_process_wake_table_all (t : ftable) (m : bytes) (d : meta_dram) := vcxl_futex_wake t m d WAKE_ALL.

(** [while (1)] until the enqueue succeeds; [Ret None] while it does not. *)
Fixpoint enqueue_loop (fuel : nat) (m : bytes) (cq offset ivposition : Z) : outcome (option bytes) :=
  match fuel with
  | O => Ret None
  | S k =>
      let! o := circular_queue_enqueue g nr_cpu_ids cpu_id m cq offset ivposition in
      match o with
      | None => Ret None
      | Some (m, enq_ret) => if enq_ret =? 0 then Ret (Some m) else enqueue_loop k m cq offset ivposition
      end
  end.

(** The table, the memory, the value written to the doorbell and the result. *)
Definition do_vcxl_wake (fuel : nat) (t : ftable) (m : bytes) (d : meta_dram) (fault : bool) (offset arg : Z)
  : outcome (option (ftable * bytes * option Z * Z)) :=
  if fault then Ret (Some (t, m, None, - EFAULT))
  else
    let vector := u16 (Z.land arg 0xffff) in
    let ivposition := u16 (Z.shiftr (Z.land arg 0xffff0000) 16) in
    let wt := if vector =? CXL_IVPCI_VECTOR_PROCESS_WAKE_TABLE_ALL then Some WAKE_ALL
              else if vector =? CXL_IVPCI_VECTOR_PROCESS_WAKE_TABLE_NEXT then Some WAKE_NEXT else None in
    match wt with
    | None => Ret (Some (t, m, None, - EINVAL))
    | Some wt =>
        if ivposition =? machine_id d then Ret (Some (wake_proc t offset wt, m, None, 0))
        else
          match peer_vcxl_addr_queue ivposition with
          | None => Ret (Some (t, m, None, - EVM_ID))
          | Some cq =>
              let! o := enqueue_loop fuel m cq offset ivposition in
              Ret (match o with
                   | None => None
                   | Some m => Some (t, m, Some (Z.land arg 0xffffffff), 0)
                   end)
          end
    end.
End Wake.
End Futex.
