(* ===== verification/FutexSpec.v ===== *)
(** Correctness of the wait queues of [Futex]: the well-formedness of a table, that
    queueing, unqueueing and waking keep it, and what a wake does.

    [L hb] lists the entries of a bucket in waking order; [P hb] counts the
    waiters that have announced themselves ([vcxl_futex_hb_waiters_inc]) but are
    not on the list. *)
From Stdlib Require Import ZArith Lia Bool.
From stdpp Require Import base list gmap numbers functions.
From S2P Require Import Prelude ShmemLog PersistCas TatasLock MetaAlloc CircularQueue MetaInit LinuxList PList Futex.
Local Open Scope Z_scope.
Local Open Scope lupin_scope.

Definition is_bucket (hb : Z) : Prop := 0 <= hb < WAIT_TABLE_SIZE.

(** The index of the hash is always within the table. *)
Lemma hashbucket_bound offset : is_bucket (cxl_proc_hashbucket offset).
Proof. unfold is_bucket, cxl_proc_hashbucket. apply Z.mod_pos_bound. reflexivity. Qed.

(** The multiplication already leaves no more than the bits of the index: the
    reduction modulo the table size changes nothing. *)
Lemma hash_bits offset : cxl_proc_hashbucket offset = hash_long offset WAIT_TABLE_BITS.
Proof.
  unfold cxl_proc_hashbucket, hash_long, hash_64_generic. apply Z.mod_small.
  assert (0 <= Z.shiftr (u64 (offset * GOLDEN_RATIO_64)) (64 - WAIT_TABLE_BITS) < WAIT_TABLE_SIZE).
  { change (64 - WAIT_TABLE_BITS) with 52. change WAIT_TABLE_SIZE with 4096. rewrite Z.shiftr_div_pow2 by lia.
    pose proof (Z.mod_pos_bound (offset * GOLDEN_RATIO_64) (2 ^ 64) ltac:(lia)). unfold u64.
    split; [apply Z.div_pos; lia|]. apply Z.div_lt_upper_bound; lia. }
  change WAIT_TABLE_SIZE with 4096 in *. unfold u32. rewrite Z.mod_small by lia. lia.
Qed.

Section Spec.
Context `{PlistHeader}.
Context (MAX_RT_PRIO : Z).

Record futex_wf (t : ftable) (L : Z -> list Z) (P : Z -> Z) : Prop := {
  fw_chain : forall hb, is_bucket hb -> plist (chains t) (hb_chain hb) (L hb);
  fw_entry : forall hb q, is_bucket hb -> q ∈ L hb ->
    0 < q /\ q_lock (the_q t q) = Some hb /\ cxl_proc_hashbucket (q_key (the_q t q)) = hb;
  fw_waiters : forall hb, is_bucket hb -> 
    0 <= P hb /\ the_waiters t hb = Z.of_nat (length (L hb)) + P hb /\ the_waiters t hb < 2 ^ 32 }.

(** ** Frames *)

Lemma plist_frame m m' h l w :
  plist m h l -> (forall x, x ∈ l -> prio m' x = prio m x) -> writes w (node_list m) (node_list m') ->
  writes w (prio_list m) (prio_list m') -> (forall x, x ∈ h :: l -> x ∉ w) -> plist m' h l.
Proof.
  intros [Dn Hs R Hal] Hp Wn Wp Hd.
  assert (E : leaders (prio m) None l = leaders (prio m') None l) by (apply leaders_ext; intros x Hx; symmetry; by apply Hp).
  assert (Hl : forall x, x ∈ leaders (prio m) None l -> x ∉ w).
  { intros x Hx. apply Hd. right. by apply (leaders_in (prio m) None). }
  split.
  - apply (dlist_frame (node_list m)); [|done]. intros z Hz. by apply Wn, Hd.
  - apply (sorted_ext (prio m)); [|done]. intros x Hx. symmetry. by apply Hp.
  - rewrite <- E. destruct (leaders (prio m) None l) as [|x xs]; [done|].
    apply (dlist_frame (prio_list m)); [|done]. intros z Hz. by apply Wp, Hl.
  - intros x Hx Hn. rewrite <- E in Hn. apply (dlist_frame (prio_list m)); [|by apply Hal].
    intros z ->%list_elem_of_singleton. apply Wp, Hd. by right.
Qed.

Lemma chain_apart hb hb' : hb <> hb' -> hb_chain hb <> hb_chain hb'.
Proof. unfold hb_chain. lia. Qed.

(** A bucket other than [hb] shares no node with it. *)
Lemma buckets_apart t L P hb hb' x :
  futex_wf t L P -> is_bucket hb -> is_bucket hb' -> hb <> hb' ->
  x ∈ hb_chain hb' :: L hb' -> x ∉ hb_chain hb :: L hb.
Proof.
  intros W B B' Hne Hx Hx'. rewrite elem_of_cons in Hx, Hx'. unfold hb_chain, is_bucket in *.
  destruct Hx as [->|Hx], Hx' as [Ex|Hx'].
  - lia.
  - destruct (fw_entry _ _ _ W hb _ B Hx'). lia.
  - subst x. destruct (fw_entry _ _ _ W hb' _ B' Hx). lia.
  - destruct (fw_entry _ _ _ W hb _ B Hx') as (_ & E & _), (fw_entry _ _ _ W hb' _ B' Hx) as (_ & E' & _). congruence.
Qed.

(** ** Fields *)

Lemma the_q_set t q x y : the_q (set_q t q x) y = if decide (q = y) then x else the_q t y.
Proof.
  unfold the_q, set_q. cbn. case_decide as E; [subst; by rewrite lookup_insert_eq|by rewrite lookup_insert_ne].
Qed.

Lemma the_waiters_set t hb n hb' : the_waiters (set_waiters t hb n) hb' = if decide (hb = hb') then n else the_waiters t hb'.
Proof.
  unfold the_waiters, set_waiters. cbn. case_decide as E; [subst; by rewrite lookup_insert_eq|by rewrite lookup_insert_ne].
Qed.

(** A table is judged by its lists, its counts and the entries on the lists. *)
Lemma futex_wf_ext t t' L P :
  futex_wf t L P -> chains t' = chains t -> (forall hb, the_waiters t' hb = the_waiters t hb) ->
  (forall hb q, is_bucket hb -> q ∈ L hb -> q_lock (the_q t' q) = q_lock (the_q t q) /\ q_key (the_q t' q) = q_key (the_q t q)) ->
  futex_wf t' L P.
Proof.
  intros [Wc We Ww] Ec Ew Eq. split.
  - rewrite Ec. exact Wc.
  - intros hb q B Hq. destruct (Eq hb q B Hq) as [-> ->]. by apply We.
  - intros hb B. rewrite Ew. by apply Ww.
Qed.

(** Counting a waiter up and down. *)
Lemma waiters_wf t L P hb n p :
  futex_wf t L P -> is_bucket hb -> 0 <= p -> n = Z.of_nat (length (L hb)) + p -> n < 2 ^ 32 ->
  futex_wf (set_waiters t hb n) L (<[hb := p]> P).
Proof.
  intros [Wc We Ww] B Hp -> Hn. split; [exact Wc|exact We|]. intros hb' B'. rewrite the_waiters_set.
  case_decide as E; [subst hb'; rewrite fn_lookup_insert; lia|]. rewrite fn_lookup_insert_ne by done. by apply Ww.
Qed.

Lemma u32_fix n : 0 <= n < 2 ^ 32 -> u32 n = n.
Proof. intros Hn. unfold u32. by apply Z.mod_small. Qed.

Lemma inc_wf t L P hb :
  futex_wf t L P -> is_bucket hb -> Z.of_nat (length (L hb)) + P hb + 1 < 2 ^ 32 ->
  futex_wf (vcxl_futex_hb_waiters_inc t hb) L (<[hb := P hb + 1]> P).
Proof.
  intros W B Hn. destruct (fw_waiters _ _ _ W hb B) as (Hp & Ew & Hw). apply waiters_wf; rewrite ?u32_fix; [done|done|lia..].
Qed.

Lemma dec_wf t L P hb :
  futex_wf t L P -> is_bucket hb -> 0 < P hb -> futex_wf (vcxl_futex_hb_waiters_dec t hb) L (<[hb := P hb - 1]> P).
Proof.
  intros W B Hn. destruct (fw_waiters _ _ _ W hb B) as (Hp & Ew & Hw). apply waiters_wf; rewrite ?u32_fix; [done|done|lia..].
Qed.

(** ** Removing an entry *)

Lemma unqueue_wf t L P hb l1 q l2 :
  futex_wf t L P -> is_bucket hb -> L hb = l1 ++ q :: l2 ->
  let t' := __vcxl_futex_unqueue t q in
  futex_wf t' (<[hb := l1 ++ l2]> L) P /\ (forall x, the_q t' x = the_q t x) /\
  on_wake_q t' = on_wake_q t /\ task_refs t' = task_refs t /\ woken t' = woken t.
Proof.
  intros W B El. pose proof W as [Wc We Ww].
  assert (Hq : q ∈ L hb) by (rewrite El; apply elem_of_app; right; by left).
  destruct (We hb q B Hq) as (_ & Elock & _). pose proof (Wc hb B) as Pl. rewrite El in Pl.
  cbv zeta. unfold __vcxl_futex_unqueue. rewrite Elock, (proj2 (plist_nonempty _ _ _ _ _ Pl)).
  destruct (plist_del_ok _ _ _ _ _ Pl) as (Pl' & _ & _ & S). set (c := plist_del _ _ _) in *. destruct S as (Sp & Sn & Sl).
  destruct (Ww hb B) as (Hp & Ew & Hw). rewrite El, length_app in Ew. cbn [length] in Ew.
  split; [|done]. split.
  - intros hb' B'. cbn. destruct (decide (hb = hb')) as [<-|Hne]; [by rewrite fn_lookup_insert|].
    rewrite fn_lookup_insert_ne by done. apply (plist_frame (chains t) _ _ _ (hb_chain hb :: l1 ++ q :: l2)); [by apply Wc|done..|].
    intros x Hx. rewrite <- El. by apply (buckets_apart t L P hb hb').
  - intros hb' q' B' Hq'. apply (We hb' q' B'). destruct (decide (hb = hb')) as [<-|Hne].
    + rewrite fn_lookup_insert in Hq'. rewrite El. rewrite elem_of_app in *. rewrite elem_of_cons. tauto.
    + by rewrite fn_lookup_insert_ne in Hq'.
  - intros hb' B'. unfold vcxl_futex_hb_waiters_dec. rewrite the_waiters_set.
    change (the_waiters (set_chains t c) ?x) with (the_waiters t x). case_decide as E.
    + subst hb'. rewrite fn_lookup_insert, length_app, u32_fix by lia. lia.
    + rewrite fn_lookup_insert_ne by done. by apply Ww.
Qed.

(** ** Adding an entry *)

Lemma insert_prio_split pr n l : exists l1 l2, l = l1 ++ l2 /\ insert_prio pr n l = l1 ++ n :: l2.
Proof.
  induction l as [|x l (l1 & l2 & -> & E)]; [by exists [], []|]. cbn [insert_prio].
  destruct (pr n <? pr x); [by exists [], (x :: l1 ++ l2)|]. exists (x :: l1), l2. by rewrite E.
Qed.

Lemma queue_wf fuel t L P q hb current normal_prio :
  futex_wf t L P -> is_bucket hb -> 0 < q -> (forall hb', is_bucket hb' -> q ∉ L hb') -> 0 < P hb ->
  q_lock (the_q t q) = Some hb -> cxl_proc_hashbucket (q_key (the_q t q)) = hb -> (length (L hb) < fuel)%nat ->
  exists t' l1 l2, __vcxl_futex_queue MAX_RT_PRIO fuel t q hb current normal_prio = Some t' /\
    L hb = l1 ++ l2 /\ futex_wf t' (<[hb := l1 ++ q :: l2]> L) (<[hb := P hb - 1]> P) /\
    prio (chains t') q = Z.min normal_prio MAX_RT_PRIO /\
    (forall x, the_q t' x = if decide (q = x) then FutexQ current (Some hb) (q_key (the_q t q)) else the_q t x) /\
    on_wake_q t' = on_wake_q t /\ task_refs t' = task_refs t /\ woken t' = woken t.
Proof.
  intros W B Hq Hin Hp Elock Ehash Hf. pose proof W as [Wc We Ww]. unfold __vcxl_futex_queue.
  destruct (node_init_spec (chains t) q (Z.min normal_prio MAX_RT_PRIO)) as (_ & Dp & Ep & Wn & Wp & Eo).
  set (c := plist_node_init _ _ _) in *.
  assert (Pc : forall hb', is_bucket hb' -> plist c (hb_chain hb') (L hb')).
  { intros hb' B'. apply (plist_frame (chains t) _ _ _ [q]); [by apply Wc| |done..|].
    - intros x Hx. apply Eo. intros ->. by apply (Hin hb').
    - intros x Hx ->%list_elem_of_singleton. apply elem_of_cons in Hx as [->|Hx]; [|by apply (Hin hb')].
      unfold hb_chain, is_bucket in *. lia. }
  destruct (plist_add_ok fuel c q (hb_chain hb) (L hb)) as (c' & E & Pl & S); [by apply Pc| |done|done|].
  { rewrite elem_of_cons. intros [->|?]; [unfold hb_chain, is_bucket in *; lia|by apply (Hin hb)]. }
  rewrite E. destruct S as (Sp & Sn & Sl). destruct (insert_prio_split (prio c) q (L hb)) as (l1 & l2 & El & Ei).
  rewrite Ei in Pl. eexists _, l1, l2. split; [reflexivity|]. split; [done|].
  assert (Eq : forall x, the_q (set_q (set_chains t c') q (FutexQ current (q_lock (the_q (set_chains t c') q))
    (q_key (the_q (set_chains t c') q)))) x = if decide (q = x) then FutexQ current (Some hb) (q_key (the_q t q)) else the_q t x).
  { intros x. rewrite the_q_set. change (the_q (set_chains t c') ?y) with (the_q t y). by rewrite Elock. }
  split; [|split; [cbn; by rewrite Sp|by split]]. split.
  - intros hb' B'. cbn. destruct (decide (hb = hb')) as [<-|Hne]; [by rewrite fn_lookup_insert|].
    rewrite fn_lookup_insert_ne by done. apply (plist_frame c _ _ _ (q :: hb_chain hb :: L hb)); [by apply Pc|done..|].
    intros x Hx. rewrite elem_of_cons. intros [->|Hx']; [|by apply (buckets_apart t L P hb hb' x W B B' Hne Hx)].
    apply elem_of_cons in Hx as [Hx|Hx]; [unfold hb_chain, is_bucket in *; lia|by apply (Hin hb')].
  - intros hb' q' B' Hq'. rewrite Eq. case_decide as E'.
    + subst q'. split; [done|]. destruct (decide (hb = hb')) as [<-|Hne]; [done|].
      rewrite fn_lookup_insert_ne in Hq' by done. by destruct (Hin hb' B').
    + apply (We hb' q' B'). destruct (decide (hb = hb')) as [<-|Hne]; [|by rewrite fn_lookup_insert_ne in Hq'].
      rewrite fn_lookup_insert in Hq'. rewrite El. rewrite elem_of_app, elem_of_cons in Hq'. rewrite elem_of_app.
      destruct Hq' as [?|[?|?]]; [tauto|by subst|tauto].
  - intros hb' B'. change (the_waiters _ hb') with (the_waiters t hb'). destruct (decide (hb = hb')) as [<-|Hne].
    + rewrite !fn_lookup_insert. destruct (Ww hb B) as (H1 & H2 & H3). rewrite El, length_app in H2.
      rewrite length_app. cbn [length]. lia.
    + rewrite !fn_lookup_insert_ne by done. by apply Ww.
Qed.

(** ** Waking *)

(** What a wake removes from a bucket. *)
Definition hits (t : ftable) (offset : Z) (wt : wake_types) (l : list Z) : list Z :=
  let m := filter (fun q => q_key (the_q t q) = offset) l in
  match wt with WAKE_ALL => m | WAKE_NEXT => take 1 m end.

(** The tasks that are woken: each once, without those that another wake queue holds. *)
Fixpoint fresh_tasks (s : gset Z) (l : list Z) : list Z :=
  match l with
  | [] => []
  | x :: l => if decide (x ∈ s) then fresh_tasks s l else x :: fresh_tasks (s ∪ {[x]}) l
  end.

Definition refs (t : ftable) (task : Z) : Z := default 0 (task_refs t !! task).

Lemma refs_add t task n x : refs (add_refs t task n) x = refs t x + (if decide (task = x) then n else 0).
Proof.
  unfold refs, add_refs. cbn. case_decide as E; [subst; by rewrite lookup_insert_eq|rewrite lookup_insert_ne by done; lia].
Qed.

Lemma wake_mark_wf t L P hb l1 q l2 wq :
  futex_wf t L P -> is_bucket hb -> L hb = l1 ++ q :: l2 -> NoDup (L hb) ->
  let '(t', wq') := vcxl_futex_wake_mark t wq q in
  let task := q_task (the_q t q) in
  let new := fresh_tasks (on_wake_q t) [task] in
  futex_wf t' (<[hb := l1 ++ l2]> L) P /\
  (forall x, the_q t' x = if decide (q = x) then FutexQ task None (q_key (the_q t q)) else the_q t x) /\
  wq' = wq ++ new /\ on_wake_q t' = on_wake_q t ∪ list_to_set new /\ woken t' = woken t /\
  (forall x, refs t' x = refs t x + (if decide (x ∈ new) then 1 else 0)).
Proof.
  intros W B El Hd. unfold vcxl_futex_wake_mark. set (task := q_task (the_q t q)).
  assert (W0 : futex_wf (add_refs t task 1) L P) by (by apply (futex_wf_ext t)).
  destruct (unqueue_wf _ _ _ _ _ _ _ W0 B El) as (W1 & Eq & Eo & Er & Ew). set (t1 := __vcxl_futex_unqueue _ _) in *.
  set (t2 := set_q t1 q _).
  assert (Hq : forall hb', is_bucket hb' -> q ∉ (<[hb := l1 ++ l2]> L) hb').
  { intros hb' B'. destruct (decide (hb = hb')) as [<-|Hne].
    - rewrite fn_lookup_insert. rewrite El in Hd. intros Hi. apply list.NoDup_app in Hd as (_ & Hd & Hd').
      apply list.NoDup_cons in Hd' as [Hd' _]. apply elem_of_app in Hi as [Hi|Hi]; [|done]. apply (Hd q Hi). by left.
    - rewrite fn_lookup_insert_ne by done. intros Hi. apply (buckets_apart t L P hb hb' q W B B' Hne); [by right|].
      right. rewrite El. apply elem_of_app. right. by left. }
  assert (W2 : futex_wf t2 (<[hb := l1 ++ l2]> L) P).
  { apply (futex_wf_ext t1); [done..|]. intros hb' x B' Hx. unfold t2. rewrite the_q_set. case_decide as E; [|done].
    subst x. by destruct (Hq hb' B'). }
  assert (Eq2 : forall x, the_q t2 x = if decide (q = x) then FutexQ task None (q_key (the_q t q)) else the_q t x).
  { intros x. unfold t2. rewrite the_q_set, Eq. case_decide; [done|by rewrite Eq]. }
  assert (Eo2 : on_wake_q t2 = on_wake_q t) by exact Eo. assert (Ew2 : woken t2 = woken t) by exact Ew.
  assert (Er2 : forall x, refs t2 x = refs t x + (if decide (task = x) then 1 else 0)).
  { intros x. rewrite <- refs_add. unfold refs. change (task_refs t2) with (task_refs t1). by rewrite Er. }
  clearbody t2. clear t1 W1 Eq Eo Er Ew W0. unfold vcxl_wake_q_add_safe, __wake_q_add. cbn [fresh_tasks]. rewrite Eo2.
  case_decide as Hin.
  - split; [by apply (futex_wf_ext t2)|]. split; [exact Eq2|]. split; [by rewrite app_nil_r|].
    split; [cbn; rewrite Eo2; set_solver|]. split; [done|]. intros x. rewrite refs_add, Er2.
    rewrite (decide_False (P := x ∈ [])) by apply not_elem_of_nil. case_decide; lia.
  - split; [by apply (futex_wf_ext t2)|]. split; [exact Eq2|]. split; [done|]. split; [cbn; set_solver|]. split; [done|].
    intros x. transitivity (refs t2 x); [done|]. rewrite Er2. f_equal.
    apply decide_ext. rewrite list_elem_of_singleton. split; congruence.
Qed.

Lemma futex_wf_lists t L L' P P' :
  futex_wf t L P -> (forall hb, is_bucket hb -> L' hb = L hb /\ P' hb = P hb) -> futex_wf t L' P'.
Proof.
  intros [Wc We Ww] E. split.
  - intros hb B. destruct (E hb B) as [-> _]. by apply Wc.
  - intros hb q B. destruct (E hb B) as [-> _]. by apply We.
  - intros hb B. destruct (E hb B) as [-> ->]. by apply Ww.
Qed.

Lemma futex_wf_nodup t L P hb : futex_wf t L P -> is_bucket hb -> NoDup (L hb).
Proof. intros W B. destruct (fw_chain _ _ _ W hb B) as [[Hd _] _ _ _]. by apply list.NoDup_cons in Hd as [_ Hd]. Qed.

Lemma fresh_tasks_cons s x l :
  fresh_tasks s (x :: l) = fresh_tasks s [x] ++ fresh_tasks (s ∪ list_to_set (fresh_tasks s [x])) l.
Proof.
  cbn [fresh_tasks]. case_decide as E; cbn [app list_to_set]; f_equal; [f_equal; set_solver|]. f_equal. f_equal. set_solver.
Qed.

Lemma fresh_tasks_fresh s l x : x ∈ fresh_tasks s l -> x ∉ s.
Proof.
  revert s. induction l as [|y l IH]; intros s; cbn [fresh_tasks]; [by intros ?%not_elem_of_nil|]. case_decide as E; [apply IH|].
  rewrite elem_of_cons. intros [->|Hx%IH]; [done|]. set_solver.
Qed.

Lemma hits_cons t offset wt q l :
  hits t offset wt (q :: l) =
    if decide (q_key (the_q t q) = offset) then q :: match wt with WAKE_NEXT => [] | WAKE_ALL => hits t offset wt l end
    else hits t offset wt l.
Proof. unfold hits. rewrite filter_cons. case_decide; [by destruct wt|done]. Qed.

Lemma hits_in t offset wt l q : q ∈ hits t offset wt l -> q ∈ l.
Proof.
  unfold hits. intros Hq. assert (q ∈ filter (fun q => q_key (the_q t q) = offset) l) as [_ ?]%list_elem_of_filter; [|done].
  destruct wt; [|done]. by apply (subseteq_take 1).
Qed.

Lemma hits_ext t t' offset wt l : (forall x, x ∈ l -> the_q t' x = the_q t x) -> hits t' offset wt l = hits t offset wt l.
Proof.
  induction l as [|x l IH]; intros E; [done|]. rewrite !hits_cons, E by (by left).
  rewrite IH; [done|]. intros y Hy. apply E. by right.
Qed.

(** The state after the entries [h] have been marked, from [t] and [wq]. *)
Record marked (t : ftable) (wq h : list Z) (t' : ftable) (wq' : list Z) : Prop := {
  mk_q : forall x, the_q t' x = if decide (x ∈ h) then FutexQ (q_task (the_q t x)) None (q_key (the_q t x)) else the_q t x;
  mk_queue : wq' = wq ++ fresh_tasks (on_wake_q t) (q_task ∘ the_q t <$> h);
  mk_on : on_wake_q t' = on_wake_q t ∪ list_to_set (fresh_tasks (on_wake_q t) (q_task ∘ the_q t <$> h));
  mk_woken : woken t' = woken t;
  mk_refs : forall x, refs t' x = refs t x + (if decide (x ∈ fresh_tasks (on_wake_q t) (q_task ∘ the_q t <$> h)) then 1 else 0) }.

Lemma marked_nil t wq : marked t wq [] t wq.
Proof.
  split; cbn; [intros x; by rewrite decide_False by apply not_elem_of_nil|by rewrite app_nil_r|set_solver|done|].
  intros x. rewrite decide_False by apply not_elem_of_nil. lia.
Qed.

Lemma marked_cons t wq q h t1 wq1 t2 wq2 :
  q ∉ h -> marked t wq [q] t1 wq1 -> marked t1 wq1 h t2 wq2 -> marked t wq (q :: h) t2 wq2.
Proof.
  intros Hq [Q1 U1 O1 K1 R1] [Q2 U2 O2 K2 R2].
  assert (E : q_task ∘ the_q t1 <$> h = q_task ∘ the_q t <$> h).
  { apply list_fmap_ext. intros i x Hx. cbn. rewrite Q1. by destruct (decide (x ∈ [q])). }
  rewrite E in *. rewrite O1 in *. set (T := q_task ∘ the_q t <$> h) in *. set (x0 := q_task (the_q t q)).
  change (q_task ∘ the_q t <$> [q]) with [x0] in *. split; try change (q_task ∘ the_q t <$> q :: h) with (x0 :: T).
  - intros x. rewrite Q2, Q1. clear - Hq.
    destruct (decide (x ∈ h)), (decide (x ∈ [q])), (decide (x ∈ q :: h)); try done; exfalso; set_solver.
  - rewrite U2, U1, (fresh_tasks_cons _ _ T), app_assoc. done.
  - rewrite O2, (fresh_tasks_cons _ _ T), list_to_set_app_L. set_solver.
  - congruence.
  - intros x. rewrite R2, R1, (fresh_tasks_cons _ _ T).
    set (a := fresh_tasks (on_wake_q t) [x0]) in *. set (b := fresh_tasks _ T) in *.
    assert (Hb : x ∈ b -> x ∉ a) by (intros Hx%fresh_tasks_fresh; set_solver).
    destruct (decide (x ∈ a)), (decide (x ∈ b)), (decide (x ∈ a ++ b)) as [Hi|Hi]; rewrite elem_of_app in Hi; try lia; tauto.
Qed.

Lemma wake_mark_marked t L P hb l1 q l2 wq t' wq' :
  futex_wf t L P -> is_bucket hb -> L hb = l1 ++ q :: l2 -> vcxl_futex_wake_mark t wq q = (t', wq') ->
  futex_wf t' (<[hb := l1 ++ l2]> L) P /\ marked t wq [q] t' wq'.
Proof.
  intros W B El E. pose proof (wake_mark_wf t L P hb l1 q l2 wq W B El (futex_wf_nodup _ _ _ _ W B)) as Hm.
  rewrite E in Hm. destruct Hm as (W' & Q & U & O & K & R). split; [exact W'|]. split; [|exact U|exact O|exact K|exact R].
  intros x. rewrite Q. destruct (decide (q = x)) as [->|Hne]; [by rewrite decide_True by (by left)|].
  rewrite decide_False; [done|]. by intros ->%list_elem_of_singleton.
Qed.

Lemma filter_skip (x : Z) (h l : list Z) : x ∉ l -> filter (fun q => q ∉ x :: h) l = filter (fun q => q ∉ h) l.
Proof.
  intros Hx. induction l as [|y l IH]; [done|]. rewrite elem_of_cons in Hx. rewrite !filter_cons, IH by tauto.
  destruct (decide (y ∉ x :: h)) as [Hy|Hy], (decide (y ∉ h)) as [Hy'|Hy']; rewrite ?elem_of_cons in Hy; try done; exfalso; [tauto|].
  apply Hy. intros [->|?]; tauto.
Qed.

Lemma wake_loop_ok l t L P hb d wq offset wt :
  futex_wf t L P -> is_bucket hb -> L hb = d ++ l ->
  let '(t', wq') := wake_loop l t wq offset wt in
  futex_wf t' (<[hb := d ++ filter (fun q => q ∉ hits t offset wt l) l]> L) P /\
  marked t wq (hits t offset wt l) t' wq'.
Proof.
  revert t L d wq. induction l as [|q l IH]; intros t L d wq W B El; cbn [wake_loop].
  { assert (hits t offset wt [] = []) as -> by (unfold hits; by destruct wt). split; [|apply marked_nil].
    apply (futex_wf_lists t L _ P); [done|]. intros hb' B'. split; [|done].
    destruct (decide (hb = hb')) as [<-|?]; [by rewrite fn_lookup_insert|by rewrite fn_lookup_insert_ne]. }
  pose proof (futex_wf_nodup _ _ _ _ W B) as Hd. rewrite El in Hd. apply list.NoDup_app in Hd as (_ & Hd & [Hq Hl]%list.NoDup_cons).
  rewrite hits_cons. destruct (Z.eqb_spec (q_key (the_q t q)) offset) as [Ek|Ek].
  - rewrite decide_True by done. destruct (vcxl_futex_wake_mark t wq q) as [t1 wq1] eqn:Em.
    destruct (wake_mark_marked _ _ _ _ _ _ _ _ _ _ W B El Em) as [W1 M1].
    rewrite filter_cons, decide_False by (intros Hn; apply Hn; by left). destruct wt.
    + rewrite filter_all; [by split|]. intros x Hx ->%list_elem_of_singleton. done.
    + specialize (IH t1 _ d wq1 W1 B ltac:(by rewrite fn_lookup_insert)).
      rewrite (hits_ext t t1) in IH.
      2:{ intros x Hx. rewrite (mk_q _ _ _ _ _ M1), decide_False; [done|]. by intros ->%list_elem_of_singleton. }
      destruct (wake_loop l t1 wq1 offset WAKE_ALL) as [t2 wq2]. destruct IH as [W2 M2]. split.
      * rewrite filter_skip by done. apply (futex_wf_lists _ _ _ P P W2). intros hb' B'. split; [|done].
        destruct (decide (hb = hb')) as [<-|?]; [by rewrite !fn_lookup_insert|by rewrite !fn_lookup_insert_ne].
      * eapply marked_cons; [|exact M1|exact M2]. by intros ?%hits_in.
  - rewrite decide_False by done. specialize (IH t L (d ++ [q]) wq W B ltac:(by rewrite <- app_assoc)).
    destruct (wake_loop l t wq offset wt) as [t2 wq2]. destruct IH as [W2 M2]. split; [|exact M2].
    rewrite filter_cons, decide_True by (by intros ?%hits_in). by rewrite <- app_assoc in W2.
Qed.

(** ** [wake_up_q] *)

Lemma wake_up_q_ok l t :
  NoDup l -> let t' := vcxl_wake_up_q t l in
  chains t' = chains t /\ waiters t' = waiters t /\ qs t' = qs t /\ on_wake_q t' = on_wake_q t ∖ list_to_set l /\
  woken t' = woken t ++ l /\ forall x, refs t' x = refs t x - (if decide (x ∈ l) then 1 else 0).
Proof.
  revert t. induction l as [|task l IH]; intros t Hd; cbn [vcxl_wake_up_q].
  - split_and!; [done..|set_solver|by rewrite app_nil_r|]. intros x. rewrite decide_False by apply not_elem_of_nil. lia.
  - apply list.NoDup_cons in Hd as [Ht Hd]. set (t1 := add_refs _ _ _). destruct (IH t1 Hd) as (Ec & Ew & Eq & Eo & Ek & Er).
    split_and!; [done..| | |].
    + rewrite Eo. cbn. set_solver.
    + rewrite Ek. cbn. by rewrite <- app_assoc.
    + intros x. rewrite Er. unfold t1. rewrite refs_add. change (refs (set_tasks _ _ _ _) x) with (refs t x).
      destruct (decide (task = x)) as [->|Hne]; [rewrite (decide_True (P := x ∈ x :: l)) by (by left); rewrite decide_False by done; lia|].
      destruct (decide (x ∈ l)) as [Hx|Hx]; [rewrite decide_True by (by right); lia|].
      rewrite decide_False; [lia|]. rewrite elem_of_cons. intros [?|?]; [by subst|done].
Qed.

Lemma fresh_tasks_nodup s l : NoDup (fresh_tasks s l).
Proof.
  revert s. induction l as [|x l IH]; intros s; cbn [fresh_tasks]; [constructor|]. case_decide as E; [apply IH|].
  apply list.NoDup_cons. split; [|apply IH]. intros Hx%fresh_tasks_fresh. set_solver.
Qed.

Lemma wake_proc_ok t L P offset wt :
  futex_wf t L P ->
  let hb := cxl_proc_hashbucket offset in
  let h := hits t offset wt (L hb) in
  let t' := wake_proc t offset wt in
  futex_wf t' (<[hb := filter (fun q => q ∉ h) (L hb)]> L) P /\
  (forall x, the_q t' x = if decide (x ∈ h) then FutexQ (q_task (the_q t x)) None (q_key (the_q t x)) else the_q t x) /\
  woken t' = woken t ++ fresh_tasks (on_wake_q t) (q_task ∘ the_q t <$> h) /\
  on_wake_q t' = on_wake_q t /\ forall x, refs t' x = refs t x.
Proof.
  intros W hb h t'. pose proof (hashbucket_bound offset) as B. fold hb in B.
  destruct (fw_waiters _ _ _ W hb B) as (Hp & Ew & _). unfold t', wake_proc. fold hb.
  pose proof (wake_loop_ok (L hb) t L P hb [] [] offset wt W B eq_refl) as Hl. fold h in Hl.
  rewrite (for_each_spec _ _ _ (pl_nodes _ _ _ (fw_chain _ _ _ W hb B))).
  unfold vcxl_futex_hb_waiters_pending, truthy. destruct (Z.eqb_spec (the_waiters t hb) 0) as [E0|E0]; cbn [negb].
  - assert (EL : L hb = []) by (destruct (L hb); [done|cbn [length] in Ew; lia]).
    assert (Eh : h = []) by (unfold h, hits; rewrite EL; by destruct wt). rewrite EL in *. rewrite Eh in *.
    destruct Hl as [W' [Mq Mu _ _ _]]. cbn [app] in W'. split; [exact W'|]. split; [exact Mq|].
    split; [cbn; by rewrite app_nil_r|]. done.
  - destruct (wake_loop _ _ _ _ _) as [t1 wq]. destruct Hl as [W' [Mq Mu Mo Mk Mr]]. cbn [app] in *.
    set (new := fresh_tasks _ _) in *.
    destruct (wake_up_q_ok wq t1) as (Ec & Ewt & Eq & Eo & Ek & Er); [rewrite Mu; apply fresh_tasks_nodup|].
    set (t2 := vcxl_wake_up_q t1 wq) in *. subst wq.
    split; [apply (futex_wf_ext t1); [done|done|by intros; unfold the_waiters; rewrite Ewt|by intros; unfold the_q; rewrite Eq]|].
    split; [intros x; unfold the_q at 1; rewrite Eq; apply Mq|]. split; [by rewrite Ek, Mk|]. split.
    + rewrite Eo, Mo. assert (list_to_set new ## on_wake_q t) by (intros x ?%elem_of_list_to_set ?; by eapply fresh_tasks_fresh).
      clearbody new. generalize dependent (on_wake_q t). clear. set_solver.
    + intros x. rewrite Er, Mr. lia.
Qed.

(** C21. A wake removes from the bucket of its offset exactly the entries it hits --
    all those that wait on the offset, or the first of them in priority and
    arrival order -- and leaves the others in their order; the removed entries
    lose their lock pointer, which tells the waiters; each of their tasks is woken
    once, in that order; the counts of waiters stay exact; and every task
    reference taken on the way is given back. *)
Theorem wake_proc_correct (t : ftable) (L : Z -> list Z) (P : Z -> Z) (offset : Z) (wt : wake_types) :
  futex_wf t L P ->
  let hb := cxl_proc_hashbucket offset in
  let h := hits t offset wt (L hb) in
  let t' := wake_proc t offset wt in
  futex_wf t' (<[hb := filter (fun q => q ∉ h) (L hb)]> L) P /\
  (forall x, the_q t' x = if decide (x ∈ h) then FutexQ (q_task (the_q t x)) None (q_key (the_q t x)) else the_q t x) /\
  woken t' = woken t ++ fresh_tasks (on_wake_q t) (q_task ∘ the_q t <$> h) /\
  on_wake_q t' = on_wake_q t /\ forall x, refs t' x = refs t x.
Proof.
  intros W. cbv zeta. pose proof (wake_proc_ok t L P offset wt W) as Hw. exact Hw.
Qed.

(** ** Waiting *)

(** The table as [t] outside the entry [q], with the task fields untouched. *)
Definition same_tasks (t t' : ftable) : Prop :=
  on_wake_q t' = on_wake_q t /\ task_refs t' = task_refs t /\ woken t' = woken t.


Lemma wait_setup_ok t L P m cond a q :
  let hb := cxl_proc_hashbucket (cw_offset cond) in
  futex_wf t L P -> (forall hb', is_bucket hb' -> q ∉ L hb') -> Z.of_nat (length (L hb)) + P hb + 1 < 2 ^ 32 ->
  exists t', vcxl_futex_wait_setup t m cond (Some a) q
             = Ret (t', if load64 m a =? cw_value cond then 0 else - EAGAIN, hb) /\
    futex_wf t' L (if load64 m a =? cw_value cond then <[hb := P hb + 1]> P else P) /\
    the_q t' q = FutexQ (q_task (the_q t q)) (Some hb) (cw_offset cond) /\
    (forall x, x <> q -> the_q t' x = the_q t x) /\ same_tasks t t'.
Proof.
  intros hb W Hq Hn. pose proof (hashbucket_bound (cw_offset cond)) as B. fold hb in B.
  unfold vcxl_futex_wait_setup. set (t0 := set_q t q _).
  assert (E0 : the_q t0 q = FutexQ (q_task (the_q t q)) (q_lock (the_q t q)) (cw_offset cond)).
  { unfold t0. by rewrite the_q_set, decide_True. }
  unfold vcxl_futex_q_lock. rewrite E0. cbn [q_key q_task q_lock]. fold hb.
  change (the_q (vcxl_futex_hb_waiters_inc t0 hb) q) with (the_q t0 q). rewrite E0. cbn [q_key q_task q_lock].
  set (t1 := set_irq _ _ _).
  assert (E1 : forall x, the_q t1 x = if decide (q = x) then FutexQ (q_task (the_q t q)) (Some hb) (cw_offset cond) else the_q t x).
  { intros x. unfold t1. change (the_q (set_irq ?u ?v ?w) x) with (the_q u x). rewrite the_q_set. case_decide as E; [done|].
    change (the_q (vcxl_futex_hb_waiters_inc t0 hb) x) with (the_q t0 x). unfold t0. by rewrite the_q_set, decide_False. }
  assert (W1 : futex_wf t1 L (<[hb := P hb + 1]> P)).
  { apply (futex_wf_ext (vcxl_futex_hb_waiters_inc t hb)); [by apply inc_wf|done|done|].
    intros hb' x B' Hx. rewrite E1, decide_False; [done|]. intros ->. by apply (Hq hb'). }
  assert (S1 : same_tasks t t1) by done. clearbody t1.
  destruct (Z.eqb_spec (load64 m a) (cw_value cond)) as [Ev|Ev]; cbn [negb].
  - exists t1. split; [done|]. split; [done|]. split; [by rewrite E1, decide_True|]. split; [|done].
    intros x Hx. by rewrite E1, decide_False.
  - exists (vcxl_futex_q_unlock t1 hb). split; [done|]. split; [|split; [|split; [|done]]].
    + pose proof (fw_waiters _ _ _ W hb B) as (? & _). unfold vcxl_futex_q_unlock. set (t2 := set_irq _ _ _).
      assert (W2 : futex_wf t2 L (<[hb := P hb + 1]> P)) by (by apply (futex_wf_ext t1)).
      apply dec_wf with (hb := hb) in W2; [|done|rewrite fn_lookup_insert; lia].
      apply (futex_wf_lists _ _ _ _ _ W2). intros hb' _. split; [done|]. destruct (decide (hb = hb')) as [<-|?].
      * rewrite !fn_lookup_insert. lia.
      * by rewrite !fn_lookup_insert_ne.
    + transitivity (the_q t1 q); [done|]. by rewrite E1, decide_True.
    + intros x Hx. transitivity (the_q t1 x); [done|]. by rewrite E1, decide_False.
Qed.

(** The memory after the waiter has counted itself for its machine. *)
Definition counted (m : bytes) (d : meta_dram) (wa : Z) : bytes :=
  let slot := wa + 4 * (machine_id d - 1) in store32 m slot (load32 m slot + 1).

(** The entry is queued: [tq] is what the others find. *)
Record queued (t : ftable) (L : Z -> list Z) (P : Z -> Z) (cond : vcxl_cond_wait) (q current : Z) (tq : ftable)
  (l1 l2 : list Z) : Prop := {
  qd_list : L (cxl_proc_hashbucket (cw_offset cond)) = l1 ++ l2;
  qd_wf : futex_wf tq (<[cxl_proc_hashbucket (cw_offset cond) := l1 ++ q :: l2]> L) P;
  qd_q : the_q tq q = FutexQ current (Some (cxl_proc_hashbucket (cw_offset cond))) (cw_offset cond);
  qd_others : forall x, x <> q -> the_q tq x = the_q t x;
  qd_tasks : same_tasks t tq }.

Lemma cond_wait_enqueues fuel t L P m d cond a wa timeout q current normal_prio :
  let hb := cxl_proc_hashbucket (cw_offset cond) in
  futex_wf t L P -> 0 < q -> (forall hb', is_bucket hb' -> q ∉ L hb') -> Z.of_nat (length (L hb)) + P hb + 1 < 2 ^ 32 ->
  (length (L hb) < fuel)%nat ->
  if load64 m a =? cw_value cond then
    exists tq l1 l2, queued t L P cond q current tq l1 l2 /\
      forall env, cond_wait_loop MAX_RT_PRIO fuel env t m d cond (Some a) (Some wa) timeout q current normal_prio
        = match env with
          | [] => Ret None
          | p :: env =>
              let (t2, m2) := others p (tq, counted m d wa) in
              match q_lock (the_q t2 q) with
              | None => Ret (Some (t2, m2, cond, 0))
              | Some _ =>
                  if timeout && expired p then Ret (Some (__vcxl_futex_unqueue t2 q, m2, cond, - ETIMEDOUT))
                  else cond_wait_loop MAX_RT_PRIO fuel env (__vcxl_futex_unqueue t2 q) m2 d
                         (VcxlCondWait (cw_offset cond) (cw_waiter_arr_offset cond) (cw_wake_time_sec cond) (cw_value cond)
                            (cw_wake_time_nsec cond) (cw_wait_type cond) (u32 (cw_wakes cond + 1)))
                         (Some a) (Some wa) timeout q current normal_prio
              end
          end
  else exists t', futex_wf t' L P /\ same_tasks t t' /\
    forall env, cond_wait_loop MAX_RT_PRIO fuel env t m d cond (Some a) (Some wa) timeout q current normal_prio
      = Ret (Some (t', m, cond, - EAGAIN)).
Proof.
  intros hb W Hq Hin Hn Hf. pose proof (hashbucket_bound (cw_offset cond)) as B. fold hb in B.
  destruct (wait_setup_ok t L P m cond a q W Hin Hn) as (t1 & E1 & W1 & Q1 & O1 & S1). fold hb in E1, W1, Q1.
  destruct (load64 m a =? cw_value cond).
  - assert (Hp : 0 <= P hb) by (by apply (fw_waiters _ _ _ W)).
    destruct (queue_wf fuel t1 L _ q hb current normal_prio W1 B Hq Hin) as (tq & l1 & l2 & E & El & Wq & _ & Qq & Sq);
      [rewrite fn_lookup_insert; lia|by rewrite Q1..|done|].
    rewrite Q1 in Qq. cbn [q_key] in Qq. exists tq, l1, l2. split.
    + split; [done| | | |].
      * apply (futex_wf_lists _ _ _ _ _ Wq). intros hb' _. split; [done|]. fold hb. destruct (decide (hb = hb')) as [<-|?].
        -- rewrite !fn_lookup_insert. lia.
        -- by rewrite !fn_lookup_insert_ne.
      * by rewrite Qq, decide_True.
      * intros x Hx. rewrite Qq, decide_False by done. by apply O1.
      * destruct S1 as (-> & -> & ->) in Sq; exact Sq.
    + intros [|p env]; cbn [cond_wait_loop]; rewrite E1; cbn [obind]; cbn [Z.eqb negb];
        unfold vcxl_futex_queue; rewrite E; [done|]. fold (counted m d wa).
      destruct (others p (tq, counted m d wa)) as [t2 m2]. unfold vcxl_futex_unqueue.
      destruct (q_lock (the_q t2 q)); done.
  - exists t1. split; [done|]. split; [done|]. intros env. destruct env; cbn [cond_wait_loop]; rewrite E1; done.
Qed.

(** A wait that passes the checks of the call. *)
Record valid_wait (d : meta_dram) (cond : vcxl_cond_wait) : Prop := {
  vw_aligned : (8 | cw_offset cond);
  vw_offset : 0 < cw_offset cond /\ cw_offset cond + 8 <= mem_length d;
  vw_arr : 0 < cw_waiter_arr_offset cond < mem_length d;
  vw_region : 0 <= mem_start d /\ mem_start d + mem_length d < 2 ^ 64;
  vw_type : cw_wait_type cond = VCXL_WAIT_IF_EQUAL \/
            cw_wait_type cond = VCXL_WAIT_IF_EQUAL_TIMEOUT /\ cw_wake_time_nsec cond < NSEC_PER_SEC }.

Lemma land_7 v : Z.land v 7 = v mod 8.
Proof. change 7 with (Z.ones 3). by rewrite Z.land_ones by lia. Qed.

Lemma off_to_addr d off :
  0 < off < mem_length d -> 0 <= mem_start d /\ mem_start d + mem_length d < 2 ^ 64 ->
  shm_off_to_virtual_addr d off = Some off.
Proof.
  intros Ho Hm. unfold shm_off_to_virtual_addr. destruct (Z.eqb_spec off 0); [lia|]. f_equal. rewrite u64_small by lia. lia.
Qed.

Lemma handle_valid fuel env t m d cond q current normal_prio :
  valid_wait d cond ->
  handle_vcxl_cond_wait MAX_RT_PRIO fuel env t m d cond q current normal_prio
  = cond_wait_loop MAX_RT_PRIO fuel env t m d cond (Some (cw_offset cond)) (Some (cw_waiter_arr_offset cond))
      (cw_wait_type cond =? VCXL_WAIT_IF_EQUAL_TIMEOUT) q current normal_prio.
Proof.
  intros [Ha Ho Hw Hr Ht]. unfold handle_vcxl_cond_wait. rewrite land_7.
  rewrite (proj2 (Z.mod_divide (cw_offset cond) 8 ltac:(lia)) Ha), u64_small by lia. cbn [truthy negb Z.eqb].
  rewrite Z.gtb_ltb. destruct (Z.ltb_spec (mem_length d) (cw_offset cond + 8)); [lia|].
  rewrite !off_to_addr by lia. destruct Ht as [Et|[Et Hn]]; rewrite Et; [done|].
  change (Z.land VCXL_WAIT_IF_EQUAL_TIMEOUT 0xffff) with 2. cbn -[cond_wait_loop NSEC_PER_SEC].
  rewrite Z.geb_leb. by destruct (Z.leb_spec NSEC_PER_SEC (cw_wake_time_nsec cond)); [lia|].
Qed.

Lemma fresh_tasks_in s l x : x ∈ l -> x ∉ s -> x ∈ fresh_tasks s l.
Proof.
  revert s. induction l as [|y l IH]; intros s Hx Hs; [by apply not_elem_of_nil in Hx|]. cbn [fresh_tasks].
  apply elem_of_cons in Hx as [->|Hx]; [rewrite decide_False by done; by left|]. case_decide as E; [by apply IH|].
  destruct (decide (x = y)) as [->|Hne]; [by left|]. right. apply IH; [done|]. set_solver.
Qed.

(** What a waker of everything on the offset does for the queued waiter. *)
Lemma wake_ends_wait t L P cond q current tq l1 l2 :
  queued t L P cond q current tq l1 l2 ->
  let t2 := wake_proc tq (cw_offset cond) WAKE_ALL in
  q_lock (the_q t2 q) = None /\ (current ∉ on_wake_q t -> current ∈ woken t2).
Proof.
  intros [El Wq Eq _ (Eo & _ & _)] t2. destruct (wake_proc_ok _ _ _ (cw_offset cond) WAKE_ALL Wq) as (_ & Q & K & _).
  rewrite fn_lookup_insert in Q, K.
  assert (Hh : q ∈ hits tq (cw_offset cond) WAKE_ALL (l1 ++ q :: l2)).
  { unfold hits. apply list_elem_of_filter. rewrite Eq. split; [done|]. apply elem_of_app. right. by left. }
  unfold t2. split; [by rewrite Q, decide_True|]. intros Hc. rewrite K, elem_of_app. right.
  apply fresh_tasks_in; [|by rewrite Eo]. apply list_elem_of_fmap. exists q. split; [cbn; by rewrite Eq|done].
Qed.


(** ** The checks of a wait *)

(** The range check of a wait refuses every word that does not end within the
    shared memory with -E2BIG, except one: [offset + 8] is computed in 64 bits,
    the offset 2^64 - 8 wraps to 0, passes, and the wait then reads the eight
    bytes in front of the shared memory. *)
Theorem wait_offset_bound (fuel : nat) (env : list pause) (t : ftable) (m : bytes) (d : meta_dram) (cond : vcxl_cond_wait)
  (q current normal_prio : Z) :
  0 <= cw_offset cond < 2 ^ 64 -> (8 | cw_offset cond) -> 8 <= mem_start d < 2 ^ 64 -> 0 <= mem_length d < 2 ^ 64 ->
  cw_wait_type cond = VCXL_WAIT_IF_EQUAL ->
  let wait := handle_vcxl_cond_wait MAX_RT_PRIO fuel env t m d cond q current normal_prio in
  let loop address := cond_wait_loop MAX_RT_PRIO fuel env t m d cond address
                        (shm_off_to_virtual_addr d (cw_waiter_arr_offset cond)) false q current normal_prio in
  wait = if cw_offset cond =? 2 ^ 64 - 8 then loop (Some (-8))
         else if cw_offset cond + 8 <=? mem_length d then loop (shm_off_to_virtual_addr d (cw_offset cond))
         else Ret (Some (t, m, cond, - E2BIG)).
Proof.
  intros Ho Ha Hm Hl Et. cbv zeta. unfold handle_vcxl_cond_wait.
  rewrite land_7, (proj2 (Z.mod_divide (cw_offset cond) 8 ltac:(lia)) Ha), Et. cbn [truthy negb Z.eqb].
  change (Z.land VCXL_WAIT_IF_EQUAL 0xffff) with 1. cbn [VCXL_WAIT_IF_EQUAL VCXL_WAIT_IF_EQUAL_TIMEOUT Z.eqb andb negb].
  rewrite Z.gtb_ltb. destruct Ha as [k Ek]. destruct (Z.eqb_spec (cw_offset cond) (2 ^ 64 - 8)) as [E|E].
  - rewrite E. change (u64 (2 ^ 64 - 8 + 8)) with 0. destruct (Z.ltb_spec (mem_length d) 0); [lia|].
    unfold shm_off_to_virtual_addr at 1. change (2 ^ 64 - 8 =? 0) with false. cbn match.
    assert (u64 (mem_start d + (2 ^ 64 - 8)) = mem_start d - 8) as ->; [|by replace (mem_start d - 8 - mem_start d) with (-8) by lia].
    unfold u64. symmetry. apply (Z.mod_unique _ _ 1); lia.
  - rewrite u64_small by lia. destruct (Z.leb_spec (cw_offset cond + 8) (mem_length d)), (Z.ltb_spec (mem_length d) (cw_offset cond + 8)); done || lia.
Qed.

(** ** Waking another machine *)

Definition wake_vector (wt : wake_types) : Z :=
  match wt with
  | WAKE_NEXT => CXL_IVPCI_VECTOR_PROCESS_WAKE_TABLE_NEXT
  | WAKE_ALL => CXL_IVPCI_VECTOR_PROCESS_WAKE_TABLE_ALL
  end.

Lemma wake_vector_bound wt : 0 <= wake_vector wt < 2 ^ 16.
Proof. by destruct wt. Qed.

Lemma reg_sum v id : 0 <= v < 2 ^ 16 -> 0 <= id < 2 ^ 16 -> compose_ivpos_msix_reg v id = id * 2 ^ 16 + v.
Proof.
  intros Hv Hi. unfold compose_ivpos_msix_reg, IVSHMEM_VEC_SHIFT, IVSHMEM_IVPOS_SHIFT.
  rewrite Z.shiftl_0_r, !(u32_fix v), (u32_fix id), (u32_fix (Z.shiftl id 16)) by (rewrite ?Z.shiftl_mul_pow2; lia).
  rewrite Z.lor_comm. by apply lor_shiftl_add.
Qed.

Lemma reg_fields v id :
  0 <= v < 2 ^ 16 -> 0 <= id < 2 ^ 16 -> let r := compose_ivpos_msix_reg v id in
  Z.land r 0xffff = v /\ Z.shiftr (Z.land r 0xffff0000) 16 = id /\ Z.land r 0xffffffff = r.
Proof.
  intros Hv Hi r. unfold r. rewrite reg_sum by done. change 0xffff0000 with (Z.ones 32 - Z.ones 16).
  change 0xffff with (Z.ones 16) at 1. change 0xffffffff with (Z.ones 32). rewrite !Z.land_ones by lia. split_and!.
  - rewrite Z.add_comm, Z.mod_add by lia. by apply Z.mod_small.
  - rewrite Z.shiftr_land. change (Z.shiftr (Z.ones 32 - Z.ones 16) 16) with (Z.ones 16).
    rewrite Z.shiftr_div_pow2, Z.div_add_l, Z.div_small, Z.add_0_r, Z.land_ones by lia. by apply Z.mod_small.
  - apply Z.mod_small. lia.
Qed.

Local Notation ring := CircularQueue.ring.

Section Remote.
Context (g : granularity) (nr cpu p peer : Z).
Hypothesis Hpeer : 1 <= peer < 2 ^ 16.
Hypothesis Hid : get_process_identifier nr cpu peer = Some p.
Hypothesis Hp : is_proc p.

(** Where the addresses to wake on the machine [peer] are queued. *)
Definition wake_queue : Z := (peer - 1) * circular_queue_size.

Lemma wake_queue_ok : 0 <= wake_queue.
Proof using Hpeer. unfold wake_queue. cq_consts. lia. Qed.

Lemma do_wake_remote fuel t m d offset wt l :
  machine_id d <> peer -> 0 <= offset < 2 ^ 64 -> ring m wake_queue l -> Z.of_nat (length l) < CQUEUE_SIZE - 1 ->
  lock_avail g p m wake_queue ->
  exists m', do_vcxl_wake g nr cpu (S fuel) t m d false offset (compose_ivpos_msix_reg (wake_vector wt) peer)
             = Ret (Some (t, m', Some (compose_ivpos_msix_reg (wake_vector wt) peer), 0)) /\
    ring m' wake_queue (l ++ [offset]) /\ unlocked g m' wake_queue /\ cq_frame wake_queue m m'.
Proof using Hpeer Hid Hp.
  intros Hm Ho R Hl A. unfold do_vcxl_wake.
  destruct (reg_fields (wake_vector wt) peer) as (E1 & E2 & E3); [apply wake_vector_bound|lia|]. rewrite E1, E2, E3.
  assert (u16 (wake_vector wt) = wake_vector wt) as -> by (by destruct wt).
  assert (u16 peer = peer) as -> by (unfold u16; apply Z.mod_small; lia).
  assert ((if wake_vector wt =? CXL_IVPCI_VECTOR_PROCESS_WAKE_TABLE_ALL then Some WAKE_ALL
           else if wake_vector wt =? CXL_IVPCI_VECTOR_PROCESS_WAKE_TABLE_NEXT then Some WAKE_NEXT else None) = Some wt)
    as -> by (by destruct wt).
  destruct (Z.eqb_spec peer (machine_id d)); [congruence|]. unfold peer_vcxl_addr_queue.
  destruct (Z.ltb_spec peer 1); [lia|]. fold wake_queue. cbn [enqueue_loop].
  destruct (enqueue_ok g nr cpu p peer ltac:(lia) Hid Hp m wake_queue l offset wake_queue_ok R A) as (m' & ret & E & U & F & Hr).
  rewrite E. destruct (Z.eqb_spec (Z.of_nat (length l)) (CQUEUE_SIZE - 1)); [lia|]. destruct Hr as [-> R'].
  rewrite u64_small in R' by lia. exists m'. by split.
Qed.

(** Waking a process on another machine.  The caller leaves the offset in the
    queue of that machine, behind what is already there, and rings its doorbell
    with the vector it was given; every interrupt there takes the oldest offset
    from the queue and wakes its waiters as a local wake would.  With an empty
    queue the two together are the wake of the offset on the peer. *)
Theorem remote_wake (fuel : nat) (t : ftable) (m : bytes) (d : meta_dram) (offset : Z) (wt : wake_types) (l : list Z) :
  machine_id d <> peer -> 0 <= offset < 2 ^ 64 -> ring m wake_queue l -> Z.of_nat (length l) < CQUEUE_SIZE - 1 ->
  unlocked g m wake_queue ->
  exists m', do_vcxl_wake g nr cpu (S fuel) t m d false offset (compose_ivpos_msix_reg (wake_vector wt) peer)
             = Ret (Some (t, m', Some (compose_ivpos_msix_reg (wake_vector wt) peer), 0)) /\
    ring m' wake_queue (l ++ [offset]) /\ cq_frame wake_queue m m' /\
    decompose_ivpos_msix_reg (compose_ivpos_msix_reg (wake_vector wt) peer) = IvposReg (wake_vector wt) peer /\
    forall cpu' p' tp dp x rest, get_process_identifier nr cpu' peer = Some p' -> is_proc p' ->
      machine_id dp = peer -> l ++ [offset] = x :: rest ->
      exists m'', vcxl_futex_wake g nr cpu' tp m' dp wt = Ret (Some (wake_proc tp x wt, m'')) /\
        ring m'' wake_queue rest /\ unlocked g m'' wake_queue /\ cq_frame wake_queue m m''.
Proof using Hpeer Hid Hp.
  intros Hm Ho R Hl U. destruct (do_wake_remote fuel t m d offset wt l Hm Ho R Hl (or_introl U)) as (m' & E & R' & U' & F').
  exists m'. split; [exact E|]. split; [exact R'|]. split; [exact F'|]. split.
  - unfold decompose_ivpos_msix_reg.
    destruct (reg_fields (wake_vector wt) peer) as (E1 & E2 & _); [apply wake_vector_bound|lia|].
    unfold IVSHMEM_VEC_MASK, IVSHMEM_IVPOS_MASK, IVSHMEM_IVPOS_SHIFT, IVSHMEM_VEC_SHIFT. rewrite E1, E2, Z.shiftr_0_r.
    f_equal. unfold u16. apply Z.mod_small. lia.
  - intros cpu' p' tp dp x rest Hid' Hp' Edp Ex. unfold vcxl_futex_wake, self_vcxl_addr_queue. rewrite Edp.
    destruct (Z.ltb_spec peer 1); [lia|]. fold wake_queue. rewrite Ex in R'.
    destruct (dequeue_ok g nr cpu' p' peer ltac:(lia) Hid' Hp' m' wake_queue _ wake_queue_ok R' (or_introl U'))
      as (m'' & ret & y & E2 & U2 & F2 & -> & -> & R2). rewrite E2. cbn [obind]. exists m''. split; [done|].
    split; [done|]. split; [done|]. intros b Hb. by rewrite F2, F'.
Qed.

(** The lock of a wake queue does not exclude machines from each other: a caller
    takes it with the identifier that its own processor number has on the peer,
    because the position of the peer is passed as the identity of the locker.
    While that processor of the peer holds the lock, a wake from any other machine
    on a processor of the same number enters the queue, and releases the lock. *)
Theorem wake_enters_held_queue (fuel : nat) (t : ftable) (m : bytes) (d : meta_dram) (offset : Z) (wt : wake_types)
  (l : list Z) :
  machine_id d <> peer -> 0 <= offset < 2 ^ 64 -> ring m wake_queue l -> Z.of_nat (length l) < CQUEUE_SIZE - 1 ->
  value g (load64 m (wake_queue + CQ_LOCK_OFF)) = own p ->
  exists m', do_vcxl_wake g nr cpu (S fuel) t m d false offset (compose_ivpos_msix_reg (wake_vector wt) peer)
             = Ret (Some (t, m', Some (compose_ivpos_msix_reg (wake_vector wt) peer), 0)) /\
    ring m' wake_queue (l ++ [offset]) /\ unlocked g m' wake_queue.
Proof using Hpeer Hid Hp.
  intros Hm Ho R Hl Hv. destruct (do_wake_remote fuel t m d offset wt l Hm Ho R Hl (or_intror Hv)) as (m' & E & R' & U' & _).
  exists m'. by split.
Qed.
End Remote.
End Spec.

(** ** Examples *)

(** A table whose buckets have been initialised. *)
Definition init_chains `{PlistHeader} (l : list Z) (c : pmem) : pmem := fold_left (fun c hb => plist_head_init c (hb_chain hb)) l c.
Definition buckets : list Z := seqZ 0 WAIT_TABLE_SIZE.
Definition empty_table : ftable :=
  FTable (init_chains buckets (PMem (Links ∅ ∅) (Links ∅ ∅) ∅)) ∅ ∅ ∅ true ∅ ∅ [].

Lemma init_chains_ok `{PlistHeader} l c hb :
  hb ∈ l \/ dlist (node_list c) (hb_chain hb) [] -> dlist (node_list (init_chains l c)) (hb_chain hb) [].
Proof.
  revert c. induction l as [|x l IH]; intros c Hh; [destruct Hh as [?%not_elem_of_nil|?]; done|]. cbn [init_chains fold_left].
  apply IH. destruct (head_init_spec c (hb_chain x)) as (D & W & _). destruct (decide (hb = x)) as [->|Hne]; [by right|].
  destruct Hh as [[->|?]%elem_of_cons|Hd]; [done|by left|right]. apply (dlist_frame (node_list c)); [|done].
  intros z ->%list_elem_of_singleton. apply W. intros ?%list_elem_of_singleton. unfold hb_chain in *. lia.
Qed.

Lemma empty_table_wf : futex_wf empty_table (fun _ => []) (fun _ => 0).
Proof.
  split.
  - intros hb B. unfold empty_table. cbn [chains]. split; [|done|done|by intros x ?%not_elem_of_nil].
    apply init_chains_ok. left. apply elem_of_seqZ. unfold is_bucket in B. lia.
  - intros hb q _ Hq. by apply not_elem_of_nil in Hq.
  - intros hb _. unfold the_waiters, empty_table. cbn [waiters]. by rewrite lookup_empty.
Qed.

Definition example_wait : vcxl_cond_wait := VcxlCondWait 64 128 0 5 0 VCXL_WAIT_IF_EQUAL_TIMEOUT 0.
Definition example_machine : meta_dram := MetaDram 4096 1048576 2.
Definition example_words : bytes := store64 ∅ 64 5.

(** Task 7, with its entry at 1000, waits on the word at 64. *)
Lemma example_queued : exists tq, queued empty_table (fun _ => []) (fun _ => 0) example_wait 1000 7 tq [] [].
Proof.
  pose proof (cond_wait_enqueues 100 1 empty_table _ _ example_words example_machine example_wait 64 128 true 1000 7 20 empty_table_wf
    ltac:(lia) (fun _ _ => not_elem_of_nil _) ltac:(cbn; lia) ltac:(cbn; lia)) as Hc.
  change (load64 example_words 64 =? cw_value example_wait) with true in Hc. cbv beta iota in Hc.
  destruct Hc as (tq & l1 & l2 & Q & _). exists tq. pose proof (qd_list _ _ _ _ _ _ _ _ _ Q) as E. cbv beta in E.
  symmetry in E. apply app_eq_nil in E as [-> ->]. exact Q.
Qed.

Lemma wake_proc_correct_witness :
  exists t L, futex_wf t L (fun _ => 0) /\ L (cxl_proc_hashbucket 64) = [1000] /\ woken (wake_proc t 64 WAKE_NEXT) = [7] /\
    q_lock (the_q (wake_proc t 64 WAKE_NEXT) 1000) = None.
Proof.
  destruct example_queued as [tq [_ W Q _ (O & _ & K)]]. cbn [app] in W. change (cw_offset example_wait) with 64 in *.
  exists tq, (<[cxl_proc_hashbucket 64 := [1000]]> (fun _ => [])). split; [exact W|]. split; [by rewrite fn_lookup_insert|].
  destruct (wake_proc_correct tq _ _ 64 WAKE_NEXT W) as (_ & Q' & K' & _). rewrite fn_lookup_insert in Q', K'.
  assert (Eh : hits tq 64 WAKE_NEXT [1000] = [1000]) by (by rewrite hits_cons, Q). rewrite Eh in Q', K'. split.
  - rewrite K', K, O. cbn. by rewrite Q.
  - by rewrite Q', decide_True by (by left).
Defined.

Lemma example_wait_valid : valid_wait example_machine example_wait.
Proof. split; [by exists 8|cbn; lia..|right; by split]. Qed.


Lemma wait_offset_bound_witness :
  handle_vcxl_cond_wait 100 1 [] empty_table ∅ example_machine (VcxlCondWait (2 ^ 64 - 8) 128 0 0 0 VCXL_WAIT_IF_EQUAL 0) 1000 7 20
  = cond_wait_loop 100 1 [] empty_table ∅ example_machine (VcxlCondWait (2 ^ 64 - 8) 128 0 0 0 VCXL_WAIT_IF_EQUAL 0) (Some (-8))
      (Some 128) false 1000 7 20.
Proof.
  rewrite (wait_offset_bound 100 1 [] empty_table ∅ example_machine (VcxlCondWait (2 ^ 64 - 8) 128 0 0 0 VCXL_WAIT_IF_EQUAL 0) 1000 7 20
    ltac:(cbn; lia) ltac:(exists (2 ^ 61 - 1); reflexivity) ltac:(cbn; lia) ltac:(cbn; lia) eq_refl). reflexivity.
Defined.

Definition example_queues : bytes := init_circular_queue CACHELINE_GRANULAR ∅ (Some 1048).

Lemma remote_wake_witness :
  exists m' m'' tq, queued empty_table (fun _ => []) (fun _ => 0) example_wait 1000 7 tq [] [] /\
    do_vcxl_wake CACHELINE_GRANULAR 4 1 1 empty_table example_queues (MetaDram 4096 1048576 1) false 64 (2 * 65536 + 2)
      = Ret (Some (empty_table, m', Some (2 * 65536 + 2), 0)) /\
    vcxl_futex_wake CACHELINE_GRANULAR 4 3 tq m' example_machine WAKE_ALL = Ret (Some (wake_proc tq 64 WAKE_ALL, m'')).
Proof.
  destruct example_queued as [tq Q]. destruct (init_ring CACHELINE_GRANULAR ∅ 1048 ltac:(lia)) as (R & U & _).
  destruct (remote_wake CACHELINE_GRANULAR 4 1 5 2 ltac:(lia) eq_refl ltac:(unfold is_proc; lia) 0 empty_table example_queues
    (MetaDram 4096 1048576 1) 64 WAKE_ALL [] ltac:(discriminate) ltac:(lia) R eq_refl U) as (m' & E & _ & _ & _ & Hw).
  destruct (Hw 3 7 tq example_machine 64 [] eq_refl ltac:(unfold is_proc; lia) eq_refl eq_refl) as (m'' & E2 & _).
  exists m', m'', tq. split; [exact Q|]. split; [exact E|exact E2].
Defined.

(** Processor 1 of machine 2 (identifier 5) is inside the queue of its machine. *)
Lemma wake_enters_held_queue_witness :
  exists m m', cq_lock_irqsave CACHELINE_GRANULAR 4 1 example_queues 1048 2 = Ret (Some m) /\
    value CACHELINE_GRANULAR (load64 m (1048 + CQ_LOCK_OFF)) = own 5 /\
    do_vcxl_wake CACHELINE_GRANULAR 4 1 1 empty_table m (MetaDram 4096 1048576 1) false 64 (2 * 65536 + 2)
      = Ret (Some (empty_table, m', Some (2 * 65536 + 2), 0)) /\ CircularQueue.ring m' 1048 [64].
Proof.
  destruct (init_ring CACHELINE_GRANULAR ∅ 1048 ltac:(lia)) as (R & U & _).
  destruct (cq_lock_ok CACHELINE_GRANULAR 4 1 5 2 ltac:(lia) eq_refl ltac:(unfold is_proc; lia) example_queues 1048 (or_introl U))
    as (w & E & Hw & Hv). set (m := store64 example_queues (1048 + CQ_LOCK_OFF) w) in *.
  assert (Hm : value CACHELINE_GRANULAR (load64 m (1048 + CQ_LOCK_OFF)) = own 5).
  { unfold m. rewrite load64_store64, u64_small by exact Hw. exact Hv. }
  destruct (wake_enters_held_queue CACHELINE_GRANULAR 4 1 5 2 ltac:(lia) eq_refl ltac:(unfold is_proc; lia) 0 empty_table m
    (MetaDram 4096 1048576 1) 64 WAKE_ALL [] ltac:(discriminate) ltac:(lia) (ring_lock _ _ _ w R) eq_refl Hm) as (m' & E' & R' & _).
  exists m, m'. split; [exact E|]. split; [exact Hm|]. split; [exact E'|exact R'].
Defined.
