(* ===== verification/FutexRace.v ===== *)
(** Waiters and wakers of one machine interleaved: src/driver/src/cxl_futex_waitwake.c
    and the serialization that cxl_futex.h promises in its first comment.

    A waiter is identified by its queue entry, a waker by a number.  A step is the
    part of [vcxl_futex_wait_setup], [vcxl_futex_queue], [vcxl_futex_unqueue] or
    [wake_proc] between two points at which other processors can interfere: taking
    a bucket's lock, reading the word, reading [waiters] or [lock_ptr], releasing
    the lock.  What is done to a list under its lock is one step.  The number of
    stores to each word is counted, to say which value a waiter has seen. *)
From Stdlib Require Import ZArith Lia Bool.
From stdpp Require Import base list gmap numbers functions relations.
From S2P Require Import Prelude ShmemLog PersistCas TatasLock MetaAlloc CircularQueue MetaInit LinuxList PList Futex FutexSpec.
Local Open Scope Z_scope.

(** Where a waiter is.  [seen] is how many stores to the word it had seen when it
    compared. *)
Inductive wpc :=
  | WIdle
  | WCounted (key value : Z)
  | WLocked (key value : Z)
  | WRead (key seen : Z)
  | WFailed (key : Z)
  | WQueued (key seen : Z)
  | WUnqueue (key seen hb : Z)
  | WUnqueueLocked (key seen hb : Z).

(** Where a waker is.  [since] is how many stores to the word there had been when it
    was called. *)
Inductive kpc :=
  | KIdle
  | KCalled (key : Z) (wt : wake_types) (since : Z)
  | KWanting (key : Z) (wt : wake_types) (since : Z)
  | KLocked (key : Z) (wt : wake_types) (since : Z)
  | KScanned (key : Z) (wt : wake_types) (since : Z) (wake_q : list Z)
  | KDone (key : Z) (wt : wake_types) (since : Z).

Inductive thread := Waiter (q : Z) | Waker (k : Z).

#[global] Instance thread_eq_dec : EqDecision thread.
Proof. solve_decision. Defined.

Record rstate := RState {
  tab : ftable; words : bytes; stores : Z -> Z; wpcs : gmap Z wpc; kpcs : gmap Z kpc; holder : Z -> option thread }.

Section Race.
Context `{PlistHeader}.
Context (MAX_RT_PRIO : Z).
(** The task and the priority of the waiter behind an entry. *)
Context (task_of prio_of : Z -> Z).

Local Notation hash := cxl_proc_hashbucket.

Definition set_wpc (s : rstate) (t : ftable) (q : Z) (pc : wpc) (h : Z -> option thread) : rstate :=
  RState t (words s) (stores s) (<[q := pc]> (wpcs s)) (kpcs s) h.
Definition set_kpc (s : rstate) (t : ftable) (k : Z) (pc : kpc) (h : Z -> option thread) : rstate :=
  RState t (words s) (stores s) (wpcs s) (<[k := pc]> (kpcs s)) h.

(** [q->key = cond->offset], then [vcxl_futex_q_lock] up to the lock. *)
Definition start_wait (t : ftable) (q key : Z) : ftable :=
  fst (vcxl_futex_q_lock (set_q t q (FutexQ (q_task (the_q t q)) (q_lock (the_q t q)) key)) q).

(** [vcxl_futex_queue]; the fuel is enough for the list. *)
Definition queue_up (t : ftable) (q hb : Z) : option ftable :=
  vcxl_futex_queue MAX_RT_PRIO (S (length (plist_for_each (chains t) (hb_chain hb)))) t q hb (task_of q) (prio_of q).

(** The scan of [wake_proc]. *)
Definition scan (t : ftable) (key : Z) (wt : wake_types) : ftable * list Z :=
  wake_loop (plist_for_each (chains t) (hb_chain (hash key))) t [] key wt.

Inductive rstep (s : rstate) : rstate -> Prop :=
  | S_store a v :
      rstep s (RState (tab s) (store64 (words s) a v) (<[a := stores s a + 1]> (stores s)) (wpcs s) (kpcs s) (holder s))
  | W_count q key value : wpcs s !! q = Some WIdle ->
      rstep s (set_wpc s (start_wait (tab s) q key) q (WCounted key value) (holder s))
  | W_lock q key value : wpcs s !! q = Some (WCounted key value) -> holder s (hash key) = None ->
      rstep s (set_wpc s (tab s) q (WLocked key value) (<[hash key := Some (Waiter q)]> (holder s)))
  | W_equal q key value : wpcs s !! q = Some (WLocked key value) -> load64 (words s) key = value ->
      rstep s (set_wpc s (tab s) q (WRead key (stores s key)) (holder s))
  | W_differs q key value : wpcs s !! q = Some (WLocked key value) -> load64 (words s) key <> value ->
      rstep s (set_wpc s (tab s) q (WFailed key) (<[hash key := None]> (holder s)))
  | W_give_up q key : wpcs s !! q = Some (WFailed key) ->
      rstep s (set_wpc s (vcxl_futex_q_unlock (tab s) (hash key)) q WIdle (holder s))
  | W_queue q key seen t' : wpcs s !! q = Some (WRead key seen) -> queue_up (tab s) q (hash key) = Some t' ->
      rstep s (set_wpc s t' q (WQueued key seen) (<[hash key := None]> (holder s)))
  | W_woken q key seen : wpcs s !! q = Some (WQueued key seen) -> q_lock (the_q (tab s) q) = None ->
      rstep s (set_wpc s (tab s) q WIdle (holder s))
  | W_unqueue q key seen hb : wpcs s !! q = Some (WQueued key seen) -> q_lock (the_q (tab s) q) = Some hb ->
      rstep s (set_wpc s (tab s) q (WUnqueue key seen hb) (holder s))
  | W_unqueue_lock q key seen hb : wpcs s !! q = Some (WUnqueue key seen hb) -> holder s hb = None ->
      rstep s (set_wpc s (tab s) q (WUnqueueLocked key seen hb) (<[hb := Some (Waiter q)]> (holder s)))
  | W_unqueued q key seen hb : wpcs s !! q = Some (WUnqueueLocked key seen hb) -> q_lock (the_q (tab s) q) = Some hb ->
      rstep s (set_wpc s (__vcxl_futex_unqueue (tab s) q) q WIdle (<[hb := None]> (holder s)))
  | W_retry q key seen hb : wpcs s !! q = Some (WUnqueueLocked key seen hb) -> q_lock (the_q (tab s) q) <> Some hb ->
      rstep s (set_wpc s (tab s) q (WQueued key seen) (<[hb := None]> (holder s)))
  | K_call k key wt : kpcs s !! k = Some KIdle ->
      rstep s (set_kpc s (tab s) k (KCalled key wt (stores s key)) (holder s))
  | K_none k key wt since : kpcs s !! k = Some (KCalled key wt since) ->
      vcxl_futex_hb_waiters_pending (tab s) (hash key) = false ->
      rstep s (set_kpc s (tab s) k (KDone key wt since) (holder s))
  | K_pending k key wt since : kpcs s !! k = Some (KCalled key wt since) ->
      vcxl_futex_hb_waiters_pending (tab s) (hash key) = true ->
      rstep s (set_kpc s (tab s) k (KWanting key wt since) (holder s))
  | K_lock k key wt since : kpcs s !! k = Some (KWanting key wt since) -> holder s (hash key) = None ->
      rstep s (set_kpc s (tab s) k (KLocked key wt since) (<[hash key := Some (Waker k)]> (holder s)))
  | K_scan k key wt since : kpcs s !! k = Some (KLocked key wt since) ->
      rstep s (set_kpc s (fst (scan (tab s) key wt)) k (KScanned key wt since (snd (scan (tab s) key wt)))
                 (<[hash key := None]> (holder s)))
  | K_wake k key wt since wq : kpcs s !! k = Some (KScanned key wt since wq) ->
      rstep s (set_kpc s (vcxl_wake_up_q (tab s) wq) k (KDone key wt since) (holder s))
  | K_return k key wt since : kpcs s !! k = Some (KDone key wt since) ->
      rstep s (set_kpc s (tab s) k KIdle (holder s)).

(** ** What the steps make up *)

(** Without interference the steps of a waiter and of a waker are the functions of
    the driver. *)
Lemma wait_setup_steps t m cond a q :
  vcxl_futex_wait_setup t m cond (Some a) q =
    let hb := hash (cw_offset cond) in
    let t1 := start_wait t q (cw_offset cond) in
    if load64 m a =? cw_value cond then Ret (t1, 0, hb) else Ret (vcxl_futex_q_unlock t1 hb, - EAGAIN, hb).
Proof.
  unfold vcxl_futex_wait_setup, start_wait, vcxl_futex_q_lock. rewrite the_q_set, decide_True by done. cbn [q_key fst].
  by destruct (load64 m a =? cw_value cond).
Qed.

Lemma wake_proc_steps t key wt :
  wake_proc t key wt =
    if vcxl_futex_hb_waiters_pending t (hash key) then vcxl_wake_up_q (fst (scan t key wt)) (snd (scan t key wt)) else t.
Proof.
  unfold wake_proc, scan. destruct (vcxl_futex_hb_waiters_pending t (hash key)); [|done]. cbn [negb].
  by destruct (wake_loop _ _ _ _ _).
Qed.

(** ** The invariant *)

(** The offset a waiter is counted for without being on a list. *)
Definition pending_key (pc : wpc) : option Z :=
  match pc with WCounted key _ | WLocked key _ | WRead key _ | WFailed key => Some key | _ => None end.
(** The offset of a waiter that has been queued. *)
Definition queued_key (pc : wpc) : option Z :=
  match pc with WQueued key _ | WUnqueue key _ _ | WUnqueueLocked key _ _ => Some key | _ => None end.
Definition seen_of (pc : wpc) : option (Z * Z) :=
  match pc with
  | WRead key seen | WQueued key seen | WUnqueue key seen _ | WUnqueueLocked key seen _ => Some (key, seen)
  | _ => None
  end.
Definition holds (pc : wpc) : option Z :=
  match pc with WLocked key _ | WRead key _ => Some (hash key) | WUnqueueLocked _ _ hb => Some hb | _ => None end.
Definition kholds (pc : kpc) : option Z := match pc with KLocked key _ _ => Some (hash key) | _ => None end.
Definition since_of (pc : kpc) : option (Z * Z) :=
  match pc with
  | KIdle => None
  | KCalled key _ since | KWanting key _ since | KLocked key _ since | KScanned key _ since _ | KDone key _ since => Some (key, since)
  end.
(** A waker of everything whose scan is over. *)
Definition swept (pc : kpc) : option (Z * Z) :=
  match pc with KScanned key WAKE_ALL since _ | KDone key WAKE_ALL since => Some (key, since) | _ => None end.

Definition pend (w : gmap Z wpc) (hb : Z) : Z := map_count (fun pc => hash <$> pending_key pc = Some hb) w.

(** The entry [x] of a waiter at [pc] agrees with it. *)
Definition entry_ok (pc : wpc) (x : futex_q) : Prop :=
  (forall key, pending_key pc = Some key -> q_key x = key /\ q_lock x = Some (hash key)) /\
  (forall key, queued_key pc = Some key -> q_key x = key /\ (q_lock x = None \/ q_lock x = Some (hash key))).

Definition on_list (pc : wpc) (x : futex_q) (hb : Z) : Prop :=
  exists key, queued_key pc = Some key /\ hash key = hb /\ q_lock x <> None.

Record inv (s : rstate) (L : Z -> list Z) : Prop := {
  iv_wf : futex_wf (tab s) L (pend (wpcs s));
  iv_list : forall hb q, is_bucket hb -> q ∈ L hb <-> exists pc, wpcs s !! q = Some pc /\ on_list pc (the_q (tab s) q) hb;
  iv_entry : forall q pc, wpcs s !! q = Some pc -> 0 < q /\ entry_ok pc (the_q (tab s) q);
  iv_holds : forall q pc hb, wpcs s !! q = Some pc -> holds pc = Some hb -> holder s hb = Some (Waiter q);
  iv_kholds : forall k pc hb, kpcs s !! k = Some pc -> kholds pc = Some hb -> holder s hb = Some (Waker k);
  iv_since : forall k pc key since, kpcs s !! k = Some pc -> since_of pc = Some (key, since) -> since <= stores s key;
  iv_swept : forall k kp key since q pc seen, kpcs s !! k = Some kp -> swept kp = Some (key, since) ->
    wpcs s !! q = Some pc -> seen_of pc = Some (key, seen) -> q_lock (the_q (tab s) q) <> None -> since <= seen;
  iv_size : Z.of_nat (size (wpcs s)) < 2 ^ 32 }.

(** ** Counting the pending waiters *)

Lemma pend_delete w q pc hb :
  w !! q = Some pc -> pend w hb = pend (delete q w) hb + (if decide (hash <$> pending_key pc = Some hb) then 1 else 0).
Proof. exact (map_count_delete (fun pc => hash <$> pending_key pc = Some hb) w q pc). Qed.

Lemma pend_insert w q pc pc' hb :
  w !! q = Some pc ->
  pend (<[q := pc']> w) hb = pend w hb - (if decide (hash <$> pending_key pc = Some hb) then 1 else 0)
                           + (if decide (hash <$> pending_key pc' = Some hb) then 1 else 0).
Proof. exact (map_count_insert (fun pc => hash <$> pending_key pc = Some hb) w q pc pc'). Qed.

Lemma pend_same w q pc pc' hb : w !! q = Some pc -> pending_key pc' = pending_key pc -> pend (<[q := pc']> w) hb = pend w hb.
Proof. intros E Ek. rewrite (pend_insert w q pc pc' hb E), Ek. lia. Qed.

(** ** Steps of a waiter *)

(** The lock changes hands only through the thread that moves. *)
Definition keeps_locks (h h' : Z -> option thread) (who : thread) : Prop :=
  forall hb, h hb <> None -> h hb <> Some who -> h' hb = h hb.

Lemma keeps_refl h who : keeps_locks h h who.
Proof. by intros hb. Qed.

Lemma keeps_take h who hb : h hb = None -> keeps_locks h (<[hb := Some who]> h) who.
Proof. intros E hb' H1 H2. rewrite fn_lookup_insert_ne; [done|]. intros <-. done. Qed.

Lemma keeps_release h who hb : h hb = Some who -> keeps_locks h (<[hb := None]> h) who.
Proof. intros E hb' H1 H2. rewrite fn_lookup_insert_ne; [done|]. intros <-. done. Qed.

Lemma inv_wstep s L t' L' q pc pc' h' :
  inv s L -> wpcs s !! q = Some pc ->
  futex_wf t' L' (pend (<[q := pc']> (wpcs s))) ->
  (forall x, x <> q -> the_q t' x = the_q (tab s) x) ->
  (forall hb x, is_bucket hb -> x <> q -> x ∈ L' hb <-> x ∈ L hb) ->
  (forall hb, is_bucket hb -> q ∈ L' hb <-> on_list pc' (the_q t' q) hb) ->
  entry_ok pc' (the_q t' q) ->
  keeps_locks (holder s) h' (Waiter q) -> (forall hb, holds pc' = Some hb -> h' hb = Some (Waiter q)) ->
  (forall k kp key since seen, kpcs s !! k = Some kp -> swept kp = Some (key, since) -> seen_of pc' = Some (key, seen) ->
     q_lock (the_q t' q) <> None -> since <= seen) ->
  inv (set_wpc s t' q pc' h') L'.
Proof.
  intros [Wf Wl We Wh Wk Ws Wm Wn] Eq Wf' Hx Hl Hq He Hk Hh Hm. split; cbn [set_wpc tab wpcs kpcs holder stores].
  - exact Wf'.
  - intros hb x B. destruct (decide (x = q)) as [->|Hne].
    + rewrite (Hq hb B), lookup_insert_eq. split; [by exists pc'|by intros (? & [= <-] & ?)].
    + by rewrite (Hl hb x B Hne), lookup_insert_ne, (Wl hb x B), (Hx x Hne) by done.
  - intros x pcx. destruct (decide (x = q)) as [->|Hne].
    + rewrite lookup_insert_eq. intros [= <-]. split; [by apply (We q pc)|done].
    + rewrite lookup_insert_ne, (Hx x Hne) by done. apply We.
  - intros x pcx hb. destruct (decide (x = q)) as [->|Hne].
    + rewrite lookup_insert_eq. intros [= <-]. apply Hh.
    + rewrite lookup_insert_ne by done. intros Ex Hhx. pose proof (Wh x pcx hb Ex Hhx) as E. rewrite Hk; [done|..]; rewrite E; congruence.
  - intros k kp hb Ek Hkx. pose proof (Wk k kp hb Ek Hkx) as E. rewrite Hk; [done|..]; rewrite E; congruence.
  - exact Ws.
  - intros k kp key since x pcx seen Ek Esw. destruct (decide (x = q)) as [->|Hne].
    + rewrite lookup_insert_eq. intros [= <-]. by apply (Hm k kp key).
    + rewrite lookup_insert_ne, (Hx x Hne) by done. by apply (Wm k kp key).
  - rewrite map_size_insert_Some; [done|by eexists].
Qed.

(** A step that leaves the table alone and does not move the waiter between idle,
    pending and queued. *)
Lemma inv_wmove s L q pc pc' h' :
  inv s L -> wpcs s !! q = Some pc -> pending_key pc' = pending_key pc -> queued_key pc' = queued_key pc ->
  keeps_locks (holder s) h' (Waiter q) -> (forall hb, holds pc' = Some hb -> h' hb = Some (Waiter q)) ->
  seen_of pc' = seen_of pc \/ (exists key, seen_of pc' = Some (key, stores s key)) \/ seen_of pc' = None ->
  inv (set_wpc s (tab s) q pc' h') L.
Proof.
  intros I Eq Ep Ekq Hk Hh Hs. apply (inv_wstep s L _ _ _ pc); [done|done| |done|done| | |done|done|].
  - apply (futex_wf_lists _ _ _ _ _ (iv_wf _ _ I)). intros hb _. split; [done|]. by apply (pend_same _ _ pc).
  - intros hb B. rewrite (iv_list _ _ I hb q B), Eq. unfold on_list. rewrite Ekq.
    split; [by intros (? & [= <-] & ?)|by exists pc].
  - destruct (iv_entry _ _ I q pc Eq) as [_ He]. unfold entry_ok. by rewrite Ep, Ekq.
  - intros k kp key since seen Ek Esw Es Hl. destruct Hs as [Hs|[[key' Hs]|Hs]].
    + rewrite Hs in Es. by apply (iv_swept _ _ I k kp key since q pc).
    + assert (key' = key /\ stores s key' = seen) as [-> <-] by (split; congruence). apply (iv_since _ _ I k kp).
      * done.
      * by destruct kp as [| | | |? []|? []].
    + congruence.
Qed.

(** Every count stays below the number of waiters. *)
Lemma waiters_bound s L q pc hb :
  inv s L -> wpcs s !! q = Some pc -> pending_key pc = None -> queued_key pc = None -> is_bucket hb ->
  Z.of_nat (length (L hb)) + pend (wpcs s) hb + 1 < 2 ^ 32.
Proof.
  intros I Eq Ep Ekq B. unfold pend, map_count. set (F := filter _ (wpcs s)).
  assert (HL : forall x, x ∈ L hb -> exists pc key, wpcs s !! x = Some pc /\ queued_key pc = Some key).
  { intros x Hx. apply (iv_list _ _ I hb x B) in Hx as (pcx & Ex & key & Ek & _). eauto. }
  assert (HF : forall x, x ∈ dom F -> exists pc key, wpcs s !! x = Some pc /\ pending_key pc = Some key).
  { intros x [pcx Hx]%elem_of_dom. apply map_lookup_filter_Some in Hx as [Ex Hp]. cbn [snd] in Hp.
    destruct (pending_key pcx) as [key|] eqn:E; [|done]. eauto. }
  assert (Hk : forall pcx key key', pending_key pcx = Some key -> queued_key pcx = Some key' -> False) by (by intros []).
  assert (Hs : size (list_to_set (L hb) ∪ dom F ∪ {[q]} : gset Z) = (length (L hb) + size F + 1)%nat).
  { rewrite size_union, size_union, size_singleton, size_list_to_set, size_dom; [done|by eapply futex_wf_nodup, B; apply I|..].
    - intros x Hx%elem_of_list_to_set Hx'. destruct (HL x Hx) as (p1 & k1 & E1 & K1), (HF x Hx') as (p2 & k2 & E2 & K2).
      assert (p1 = p2) as -> by congruence. by apply (Hk p2 k2 k1).
    - intros x [Hx%elem_of_list_to_set|Hx]%elem_of_union ->%elem_of_singleton.
      + destruct (HL q Hx) as (p1 & k1 & E1 & K1). congruence.
      + destruct (HF q Hx) as (p1 & k1 & E1 & K1). congruence. }
  assert (Hsub : list_to_set (L hb) ∪ dom F ∪ {[q]} ⊆ dom (wpcs s)).
  { intros x [[Hx%elem_of_list_to_set|Hx]%elem_of_union| ->%elem_of_singleton]%elem_of_union; apply elem_of_dom.
    - destruct (HL x Hx) as (? & ? & ? & _). eauto.
    - destruct (HF x Hx) as (? & ? & ? & _). eauto.
    - eauto. }
  apply subseteq_size in Hsub. rewrite Hs, size_dom in Hsub. pose proof (iv_size _ _ I). lia.
Qed.

Lemma off_lists s L q pc : inv s L -> wpcs s !! q = Some pc -> queued_key pc = None -> forall hb, is_bucket hb -> q ∉ L hb.
Proof. intros I Eq Ekq hb B Hq. apply (iv_list _ _ I hb q B) in Hq as (pc' & Eq' & key & Ek & _). congruence. Qed.

Lemma start_wait_ok t L P q key :
  futex_wf t L P -> (forall hb, is_bucket hb -> q ∉ L hb) -> Z.of_nat (length (L (hash key))) + P (hash key) + 1 < 2 ^ 32 ->
  let t' := start_wait t q key in
  futex_wf t' L (<[hash key := P (hash key) + 1]> P) /\ q_key (the_q t' q) = key /\ q_lock (the_q t' q) = Some (hash key) /\
  forall x, x <> q -> the_q t' x = the_q t x.
Proof.
  intros W Hq Hn. destruct (wait_setup_ok t L P ∅ (VcxlCondWait key 0 0 0 0 0 0) 0 q W Hq Hn) as (t' & E & W' & Q & O & _).
  rewrite wait_setup_steps in E. change (load64 ∅ 0 =? _) with true in E, W'. cbv zeta iota in E, W'. cbn [cw_offset] in E, W', Q.
  apply (f_equal (fun o => match o with Ret (x, _, _) => x | Bug => t end)) in E. cbv iota beta in E. subst t'. cbv zeta. split; [exact W'|]. rewrite Q. done.
Qed.

Lemma inv_count s L q key value :
  inv s L -> wpcs s !! q = Some WIdle -> inv (set_wpc s (start_wait (tab s) q key) q (WCounted key value) (holder s)) L.
Proof.
  intros I Eq. pose proof (off_lists s L q WIdle I Eq eq_refl) as Hq. pose proof (hashbucket_bound key) as B.
  destruct (start_wait_ok (tab s) L (pend (wpcs s)) q key (iv_wf _ _ I) Hq
    (waiters_bound s L q WIdle (hash key) I Eq eq_refl eq_refl B)) as (W & Ek & El & O).
  apply (inv_wstep s L _ _ _ WIdle); [done|done| |done|done| | |apply keeps_refl|done|done].
  - apply (futex_wf_lists _ _ _ _ _ W). intros hb _. split; [done|]. rewrite (pend_insert _ _ WIdle _ _ Eq). cbn [pending_key fmap option_fmap option_map].
    rewrite (decide_False (P := None = Some hb)) by done. destruct (decide (hash key = hb)) as [<-|Hne].
    + rewrite fn_lookup_insert, decide_True by done. lia.
    + rewrite fn_lookup_insert_ne, decide_False by congruence. lia.
  - intros hb B'. split; [by intros ?%Hq|]. by intros (? & ? & _).
  - split; [|done]. intros key' [= <-]. done.
Qed.

Lemma inv_give_up s L q key :
  inv s L -> wpcs s !! q = Some (WFailed key) ->
  inv (set_wpc s (vcxl_futex_q_unlock (tab s) (hash key)) q WIdle (holder s)) L.
Proof.
  intros I Eq. pose proof (hashbucket_bound key) as B. pose proof (off_lists s L q _ I Eq eq_refl) as Hq.
  apply (inv_wstep s L _ _ _ (WFailed key)); [done|done| |done|done| |done|apply keeps_refl|done|done].
  - unfold vcxl_futex_q_unlock. set (t1 := set_irq _ _ _).
    assert (W1 : futex_wf t1 L (pend (wpcs s))) by (by apply (futex_wf_ext (tab s)); [apply I|..]).
    assert (Hp : 0 < pend (wpcs s) (hash key)).
    { rewrite (pend_delete _ q (WFailed key) _ Eq). cbn [pending_key fmap option_fmap option_map].
      rewrite decide_True by done. unfold pend, map_count. lia. }
    apply (futex_wf_lists _ _ _ _ _ (dec_wf t1 L _ _ W1 B Hp)). intros hb _. split; [done|].
    rewrite (pend_insert _ _ _ _ _ Eq). cbn [pending_key fmap option_fmap option_map].
    rewrite (decide_False (P := None = Some hb)) by done. destruct (decide (hash key = hb)) as [<-|Hne].
    + rewrite fn_lookup_insert, decide_True by done. lia.
    + rewrite fn_lookup_insert_ne, decide_False by congruence. lia.
  - intros hb B'. split; [by intros ?%Hq|]. by intros (? & ? & _).
Qed.

Lemma queue_up_eq t L P q hb :
  futex_wf t L P -> is_bucket hb ->
  queue_up t q hb = __vcxl_futex_queue MAX_RT_PRIO (S (length (L hb))) t q hb (task_of q) (prio_of q).
Proof.
  intros W B. unfold queue_up. by rewrite (for_each_spec _ _ _ (pl_nodes _ _ _ (fw_chain _ _ _ W _ B))).
Qed.

Lemma inv_queue s L q key seen t' :
  inv s L -> wpcs s !! q = Some (WRead key seen) -> queue_up (tab s) q (hash key) = Some t' ->
  exists L', inv (set_wpc s t' q (WQueued key seen) (<[hash key := None]> (holder s))) L'.
Proof.
  intros I Eq E. pose proof (hashbucket_bound key) as B. pose proof (off_lists s L q _ I Eq eq_refl) as Hq.
  destruct (iv_entry _ _ I q _ Eq) as [Hpos [He _]]. destruct (He key eq_refl) as [Ek El].
  assert (Hp : pend (wpcs s) (hash key) = pend (delete q (wpcs s)) (hash key) + 1).
  { rewrite (pend_delete _ q _ _ Eq). cbn [pending_key fmap option_fmap option_map]. by rewrite decide_True by done. }
  rewrite (queue_up_eq _ L _ _ _ (iv_wf _ _ I) B) in E.
  destruct (queue_wf MAX_RT_PRIO (S (length (L (hash key)))) (tab s) L (pend (wpcs s)) q (hash key) (task_of q) (prio_of q)
    (iv_wf _ _ I) B Hpos Hq ltac:(unfold pend, map_count in *; lia) El ltac:(by rewrite Ek) ltac:(lia))
    as (t'' & l1 & l2 & E' & EL & W & _ & Q & _).
  rewrite E' in E. injection E as ->.
  exists (<[hash key := l1 ++ q :: l2]> L). apply (inv_wstep s L _ _ _ (WRead key seen)); [done|done| | | | | | |done|].
  - apply (futex_wf_lists _ _ _ _ _ W). intros hb _. split; [done|].
    rewrite (pend_insert _ _ _ _ _ Eq). cbn [pending_key fmap option_fmap option_map].
    rewrite (decide_False (P := None = Some hb)) by done. destruct (decide (hash key = hb)) as [<-|Hne].
    + rewrite fn_lookup_insert, decide_True by done. lia.
    + rewrite fn_lookup_insert_ne, decide_False by congruence. lia.
  - intros x Hx. by rewrite Q, decide_False.
  - intros hb x _ Hx. destruct (decide (hash key = hb)) as [<-|Hne]; [|by rewrite fn_lookup_insert_ne].
    rewrite fn_lookup_insert, EL. rewrite !elem_of_app, elem_of_cons. tauto.
  - intros hb B'. rewrite Q, decide_True by done. split.
    + destruct (decide (hash key = hb)) as [<-|Hne]; [intros _; by exists key|].
      rewrite fn_lookup_insert_ne by done. by intros ?%Hq.
    + intros (key' & [= <-] & <- & _). rewrite fn_lookup_insert. apply elem_of_app. right. by left.
  - rewrite Q, decide_True by done. split; [done|]. intros key' [= <-]. cbn. auto.
  - apply keeps_release. by apply (iv_holds _ _ I q (WRead key seen)).
  - intros k kp key' since seen' Hk Hs [= <- <-] _. apply (iv_swept _ _ I k kp key since q (WRead key seen)); [done..|]. by rewrite El.
Qed.

Lemma inv_woken s L q key seen :
  inv s L -> wpcs s !! q = Some (WQueued key seen) -> q_lock (the_q (tab s) q) = None ->
  inv (set_wpc s (tab s) q WIdle (holder s)) L.
Proof.
  intros I Eq El. apply (inv_wstep s L _ _ _ (WQueued key seen)); [done|done| |done|done| |done|apply keeps_refl|done|done].
  - apply (futex_wf_lists _ _ _ _ _ (iv_wf _ _ I)). intros hb _. split; [done|]. by apply (pend_same _ _ (WQueued key seen)).
  - intros hb B. rewrite (iv_list _ _ I hb q B), Eq. split; [by intros (? & _ & ? & _ & _ & ?)|by intros (? & ? & _)].
Qed.

Lemma inv_unqueued s L q key seen hb :
  inv s L -> wpcs s !! q = Some (WUnqueueLocked key seen hb) -> q_lock (the_q (tab s) q) = Some hb ->
  exists L', inv (set_wpc s (__vcxl_futex_unqueue (tab s) q) q WIdle (<[hb := None]> (holder s))) L'.
Proof.
  intros I Eq El. destruct (iv_entry _ _ I q _ Eq) as [Hpos [_ He]]. destruct (He key eq_refl) as [Ek Eh].
  assert (hash key = hb) as Ehb by (destruct Eh; congruence). pose proof (hashbucket_bound key) as B. rewrite Ehb in B.
  assert (Hq : q ∈ L hb).
  { apply (iv_list _ _ I hb q B). eexists. split; [exact Eq|]. exists key. split; [done|]. split; [done|]. by rewrite El. }
  apply list_elem_of_split in Hq as (l1 & l2 & EL).
  destruct (unqueue_wf _ _ _ _ _ _ _ (iv_wf _ _ I) B EL) as (W & Q & _). exists (<[hb := l1 ++ l2]> L).
  pose proof (futex_wf_nodup _ _ _ _ (iv_wf _ _ I) B) as Hd. rewrite EL in Hd.
  apply NoDup_ListNoDup, NoDup_remove in Hd as [_ Hd].
  apply (inv_wstep s L _ _ _ (WUnqueueLocked key seen hb)); [done|done| |done| | |done| |done|done].
  - apply (futex_wf_lists _ _ _ _ _ W). intros hb' _. split; [done|]. by apply (pend_same _ _ (WUnqueueLocked key seen hb)).
  - intros hb' x _ Hx. destruct (decide (hb = hb')) as [<-|Hne]; [|by rewrite fn_lookup_insert_ne].
    rewrite fn_lookup_insert, EL. rewrite !elem_of_app, elem_of_cons. tauto.
  - intros hb' B'. split; [|by intros (? & ? & _)]. destruct (decide (hb = hb')) as [<-|Hne].
    + rewrite fn_lookup_insert. intros Hi%list_elem_of_In. done.
    + rewrite fn_lookup_insert_ne by done. intros Hi. apply (iv_list _ _ I hb' q B') in Hi as (pc & Eq' & key' & Ek' & E' & _).
      assert (pc = WUnqueueLocked key seen hb) as -> by congruence. cbn in Ek'. congruence.
  - apply keeps_release. by apply (iv_holds _ _ I q (WUnqueueLocked key seen hb)).
Qed.

(** ** Steps of a waker *)

(** The table may only have lost entries from the lists, and a waker that is done
    sweeping leaves no old entry. *)
Lemma inv_kstep s L t' L' k kp kp' h' :
  inv s L -> kpcs s !! k = Some kp -> futex_wf t' L' (pend (wpcs s)) ->
  (forall x, the_q t' x = the_q (tab s) x \/
     (exists hb, is_bucket hb /\ x ∈ L hb) /\ q_key (the_q t' x) = q_key (the_q (tab s) x) /\ q_lock (the_q t' x) = None) ->
  (forall hb x, is_bucket hb -> x ∈ L' hb <-> x ∈ L hb /\ q_lock (the_q t' x) <> None) ->
  keeps_locks (holder s) h' (Waker k) -> (forall hb, kholds kp' = Some hb -> h' hb = Some (Waker k)) ->
  (forall key since, since_of kp' = Some (key, since) -> since <= stores s key) ->
  (forall key since q pc seen, swept kp' = Some (key, since) -> wpcs s !! q = Some pc -> seen_of pc = Some (key, seen) ->
     q_lock (the_q t' q) <> None -> since <= seen) ->
  inv (set_kpc s t' k kp' h') L'.
Proof.
  intros [Wf Wl We Wh Wk Ws Wm Wn] Eq Wf' Hx Hl Hk Hh Hs Hm.
  assert (Hlock : forall x, q_lock (the_q t' x) <> None -> the_q t' x = the_q (tab s) x).
  { intros x Hn. by destruct (Hx x) as [?|(_ & _ & ?)]. }
  split; cbn [set_kpc tab wpcs kpcs holder stores].
  - exact Wf'.
  - intros hb x B. rewrite (Hl hb x B), (Wl hb x B). unfold on_list. split.
    + intros [(pc & Ex & key & E1 & E2 & _) Hn]. exists pc. split; [done|]. by exists key.
    + intros (pc & Ex & key & E1 & E2 & Hn). split; [|done]. exists pc. split; [done|]. exists key. by rewrite <- (Hlock x Hn).
  - intros x pc Ex. destruct (We x pc Ex) as [Hpos He]. split; [done|].
    destruct (Hx x) as [->|(Hi & Ek & El)]; [done|]. destruct He as [He1 He2]. split.
    + intros key Hp. exfalso. destruct Hi as (hb & B & Hin). apply (Wl hb x B) in Hin as (pc' & Ex' & key' & E1 & _).
      assert (pc' = pc) as -> by congruence. by destruct pc.
    + intros key Hp. rewrite Ek, El. split; [by apply He2|by left].
  - intros x pcx hb Ex Hhx. pose proof (Wh x pcx hb Ex Hhx) as E. rewrite Hk; [done|..]; rewrite E; congruence.
  - intros k' pc hb. destruct (decide (k' = k)) as [->|Hne]; [rewrite lookup_insert_eq; intros [= <-]; apply Hh|].
    rewrite lookup_insert_ne by done. intros Ek Hkx. pose proof (Wk k' pc hb Ek Hkx) as E. rewrite Hk; [done|..]; rewrite E; congruence.
  - intros k' pc key since. destruct (decide (k' = k)) as [->|Hne]; [rewrite lookup_insert_eq; intros [= <-]; apply Hs|].
    rewrite lookup_insert_ne by done. apply Ws.
  - intros k' pc key since q pcq seen. destruct (decide (k' = k)) as [->|Hne]; [rewrite lookup_insert_eq; intros [= <-] ?; by apply Hm|].
    rewrite lookup_insert_ne by done. intros Ek Esw Eq' Es Hn. rewrite (Hlock q Hn) in Hn. by apply (Wm k' pc key since q pcq).
  - exact Wn.
Qed.

(** A step that leaves the table alone and finishes no sweep. *)
Lemma inv_kmove s L k kp kp' h' :
  inv s L -> kpcs s !! k = Some kp -> keeps_locks (holder s) h' (Waker k) ->
  (forall hb, kholds kp' = Some hb -> h' hb = Some (Waker k)) ->
  (since_of kp' = since_of kp \/ since_of kp' = None \/ exists key, since_of kp' = Some (key, stores s key)) ->
  (swept kp' = None \/ forall key since q pc seen, swept kp' = Some (key, since) -> wpcs s !! q = Some pc ->
     seen_of pc = Some (key, seen) -> q_lock (the_q (tab s) q) <> None -> since <= seen) ->
  inv (set_kpc s (tab s) k kp' h') L.
Proof.
  intros I Eq Hk Hh Hs Hm. apply (inv_kstep s L _ _ _ kp); [done|done|apply I|by left| |done|done| |].
  - intros hb x B. split; [|by intros [? _]]. intros Hi. split; [done|].
    by apply (iv_list _ _ I hb x B) in Hi as (? & _ & ? & _ & _ & ?).
  - intros key since E. destruct Hs as [Hs|[Hs|[key' Hs]]]; [rewrite Hs in E; by apply (iv_since _ _ I k kp)|congruence|].
    assert (key' = key /\ stores s key' = since) as [-> <-] by (split; congruence). lia.
  - intros key since q pc seen E. destruct Hm as [Hm|Hm]; [congruence|by apply Hm].
Qed.

(** A waiter that has compared is pending or on a list. *)
Lemma seen_cases s L q pc key seen :
  inv s L -> wpcs s !! q = Some pc -> seen_of pc = Some (key, seen) -> q_lock (the_q (tab s) q) <> None ->
  pc = WRead key seen \/ q ∈ L (hash key) /\ q_key (the_q (tab s) q) = key.
Proof.
  intros I Eq Es Hn. destruct (iv_entry _ _ I q pc Eq) as [_ [_ He]].
  destruct pc as [| | |k0 n0| |k0 n0|k0 n0 h0|k0 n0 h0]; try discriminate Es; injection Es as -> ->; [by left|right..].
  all: split; [|by apply He]; apply (iv_list _ _ I _ q (hashbucket_bound key)); eexists; split; [exact Eq|]; by exists key.
Qed.

Lemma no_waiters s L q pc key seen :
  inv s L -> vcxl_futex_hb_waiters_pending (tab s) (hash key) = false -> wpcs s !! q = Some pc ->
  seen_of pc = Some (key, seen) -> q_lock (the_q (tab s) q) <> None -> False.
Proof.
  intros I Hp Eq Es Hn. destruct (fw_waiters _ _ _ (iv_wf _ _ I) _ (hashbucket_bound key)) as (H1 & H2 & _).
  unfold vcxl_futex_hb_waiters_pending, truthy in Hp. destruct (Z.eqb_spec (the_waiters (tab s) (hash key)) 0) as [E0|]; [|done].
  destruct (seen_cases s L q pc key seen I Eq Es Hn) as [->|[Hi _]].
  - rewrite (pend_delete _ q _ _ Eq) in H2. cbn [pending_key fmap option_fmap option_map] in H2.
    rewrite decide_True in H2 by done. unfold pend, map_count in *. lia.
  - destruct (L (hash key)); [by apply not_elem_of_nil in Hi|]. cbn [length] in H2. lia.
Qed.

Lemma inv_scan s L k key wt since :
  inv s L -> kpcs s !! k = Some (KLocked key wt since) ->
  exists L', inv (set_kpc s (fst (scan (tab s) key wt)) k (KScanned key wt since (snd (scan (tab s) key wt)))
                    (<[hash key := None]> (holder s))) L'.
Proof.
  intros I Ek. pose proof (hashbucket_bound key) as B. pose proof (iv_kholds _ _ I k _ _ Ek eq_refl) as Hh.
  unfold scan. rewrite (for_each_spec _ _ _ (pl_nodes _ _ _ (fw_chain _ _ _ (iv_wf _ _ I) _ B))).
  pose proof (wake_loop_ok (L (hash key)) (tab s) L _ (hash key) [] [] key wt (iv_wf _ _ I) B eq_refl) as Hl.
  destruct (wake_loop _ _ _ _ _) as [t' wq]. cbn [fst snd app] in *. destruct Hl as [W M]. set (h := hits _ _ _ _) in *.
  pose proof (mk_q _ _ _ _ _ M) as Q. eexists. apply (inv_kstep s L _ _ _ (KLocked key wt since)); [done|done|exact W| | | |done| |].
  - intros x. rewrite Q. destruct (decide (x ∈ h)) as [Hx|Hx]; [right|by left]. split; [|done].
    exists (hash key). split; [done|]. by apply hits_in in Hx.
  - intros hb x B'. assert (Hin : x ∈ L hb -> q_lock (the_q (tab s) x) = Some hb) by (intros Hx; by apply (fw_entry _ _ _ (iv_wf _ _ I))).
    rewrite Q. destruct (decide (hash key = hb)) as [<-|Hne].
    + rewrite fn_lookup_insert, list_elem_of_filter. destruct (decide (x ∈ h)) as [Hx|Hx]; cbn [q_lock]; [tauto|].
      split; [intros [_ Hi]; split; [done|]; by rewrite (Hin Hi)|tauto].
    + rewrite fn_lookup_insert_ne by done.
      destruct (decide (x ∈ h)) as [Hx|Hx]; [|split; [intros Hi; split; [done|]; by rewrite (Hin Hi)|tauto]].
      cbn [q_lock]. split; [|tauto]. intros Hi. apply hits_in in Hx. destruct (fw_entry _ _ _ (iv_wf _ _ I) _ x B Hx) as (_ & E & _).
      rewrite (Hin Hi) in E. congruence.
  - by apply keeps_release.
  - intros key' since' [= <- <-]. by apply (iv_since _ _ I k (KLocked key wt since)).
  - intros key' since' q pc seen Hs Eq Es. destruct wt; [done|]. injection Hs as <- <-. rewrite Q.
    destruct (decide (q ∈ h)) as [Hi|Hi]; cbn [q_lock]; [done|]. intros Hn. exfalso.
    destruct (seen_cases s L q pc key seen I Eq Es Hn) as [->|[HL Hk]].
    + pose proof (iv_holds _ _ I q _ _ Eq eq_refl). congruence.
    + apply Hi. unfold h, hits. by apply list_elem_of_filter.
Qed.

Lemma wake_up_q_frame l t :
  let t' := vcxl_wake_up_q t l in chains t' = chains t /\ waiters t' = waiters t /\ qs t' = qs t.
Proof. revert t. induction l as [|x l IH]; intros t; [done|]. cbn [vcxl_wake_up_q]. exact (IH _). Qed.

Lemma inv_wake s L k key wt since wq :
  inv s L -> kpcs s !! k = Some (KScanned key wt since wq) ->
  inv (set_kpc s (vcxl_wake_up_q (tab s) wq) k (KDone key wt since) (holder s)) L.
Proof.
  intros I Ek. destruct (wake_up_q_frame wq (tab s)) as (Ec & Ew & Eq). set (t' := vcxl_wake_up_q _ _) in *.
  assert (Q : forall x, the_q t' x = the_q (tab s) x) by (intros x; unfold the_q; by rewrite Eq).
  apply (inv_kstep s L _ _ _ (KScanned key wt since wq)); [done|done| |intros x; left; apply Q| |apply keeps_refl|done| |].
  - apply (futex_wf_ext (tab s)); [apply I|done|by intros; unfold the_waiters; rewrite Ew|intros; by rewrite Q].
  - intros hb x B. rewrite Q. split; [|by intros [? _]]. intros Hi. split; [done|].
    by apply (iv_list _ _ I hb x B) in Hi as (? & _ & ? & _ & _ & ?).
  - intros key' since' [= <- <-]. by apply (iv_since _ _ I k (KScanned key wt since wq)).
  - intros key' since' q pc seen Hs Hq Es. rewrite Q. destruct wt; [done|]. injection Hs as <- <-.
    by apply (iv_swept _ _ I k (KScanned key WAKE_ALL since wq) key since q pc).
Qed.

Lemma inv_store s L a v :
  inv s L -> inv (RState (tab s) (store64 (words s) a v) (<[a := stores s a + 1]> (stores s)) (wpcs s) (kpcs s) (holder s)) L.
Proof.
  intros [Wf Wl We Wh Wk Ws Wm Wn]. split; cbn [tab wpcs kpcs holder stores]; try done.
  intros k pc key since Ek Es. specialize (Ws k pc key since Ek Es). destruct (decide (a = key)) as [<-|Hne].
  - rewrite fn_lookup_insert. lia.
  - by rewrite fn_lookup_insert_ne.
Qed.

Lemma race_step s s' L : inv s L -> rstep s s' -> exists L', inv s' L'.
Proof.
  intros I St. destruct St as [a v|q key value Eq|q key value Eq Hl|q key value Eq Ev|q key value Eq Ev|q key Eq
    |q key seen t' Eq E|q key seen Eq El|q key seen hb Eq El|q key seen hb Eq Hl|q key seen hb Eq El|q key seen hb Eq El
    |k key wt Ek|k key wt since Ek Hp|k key wt since Ek Hp|k key wt since Ek Hl|k key wt since Ek|k key wt since wq Ek|k key wt since Ek].
  - exists L. by apply inv_store.
  - exists L. by apply inv_count.
  - exists L. eapply inv_wmove; [done|done|done|done|by apply keeps_take| |by left].
    intros hb [= <-]. by rewrite fn_lookup_insert.
  - exists L. eapply inv_wmove; [done|done|done|done|apply keeps_refl| |right; left; by eexists].
    intros hb Hh. by apply (iv_holds _ _ I q (WLocked key value)).
  - exists L. eapply inv_wmove; [done|done|done|done| |done|by left].
    apply keeps_release. by apply (iv_holds _ _ I q (WLocked key value)).
  - exists L. by apply inv_give_up.
  - by eapply inv_queue.
  - exists L. by eapply inv_woken.
  - exists L. eapply inv_wmove; [done|done|done|done|apply keeps_refl|done|by left].
  - exists L. eapply inv_wmove; [done|done|done|done|by apply keeps_take| |by left].
    intros hb' [= <-]. by rewrite fn_lookup_insert.
  - by eapply inv_unqueued.
  - exists L. eapply inv_wmove; [done|done|done|done| |done|by left].
    apply keeps_release. by apply (iv_holds _ _ I q (WUnqueueLocked key seen hb)).
  - exists L. eapply inv_kmove; [done|done|apply keeps_refl|done|right; right; by eexists|by left].
  - exists L. eapply inv_kmove; [done|done|apply keeps_refl|done|by left|right].
    intros key' since' q pc seen Hs Eq Es Hn. exfalso. destruct wt; [done|]. injection Hs as <- _. by eapply no_waiters.
  - exists L. eapply inv_kmove; [done|done|apply keeps_refl|done|by left|by left].
  - exists L. eapply inv_kmove; [done|done|by apply keeps_take| |by left|by left].
    intros hb [= <-]. by rewrite fn_lookup_insert.
  - by eapply inv_scan.
  - exists L. by apply inv_wake.
  - exists L. eapply inv_kmove; [done|done|apply keeps_refl|done|right; by left|by left].
Qed.

(** ** Theorems *)

(** Initialised buckets, nobody inside. *)
Record initial (s : rstate) : Prop := {
  in_wf : futex_wf (tab s) (fun _ => []) (fun _ => 0);
  in_waiters : forall q pc, wpcs s !! q = Some pc -> pc = WIdle /\ 0 < q;
  in_wakers : forall k pc, kpcs s !! k = Some pc -> pc = KIdle;
  in_size : Z.of_nat (size (wpcs s)) < 2 ^ 32 }.

Lemma inv_initial s : initial s -> inv s (fun _ => []).
Proof.
  intros [Wf Hw Hk Hn]. split; try done.
  - apply (futex_wf_lists _ _ _ _ _ Wf). intros hb _. split; [done|]. unfold pend, map_count.
    assert (filter (fun x : Z * wpc => hash <$> pending_key (snd x) = Some hb) (wpcs s) = ∅) as ->; [|by rewrite map_size_empty].
    apply map_empty. intros q. apply map_lookup_filter_None. right. intros pc Eq. by destruct (Hw q pc Eq) as [-> _].
  - intros hb q B. split; [by intros ?%not_elem_of_nil|]. intros (pc & Eq & key & Ek & _). destruct (Hw q pc Eq) as [-> _]. done.
  - intros q pc Eq. by destruct (Hw q pc Eq) as [-> ?].
  - intros q pc hb Eq. by destruct (Hw q pc Eq) as [-> _].
  - intros k pc hb Ek. by rewrite (Hk k pc Ek).
  - intros k pc key since Ek. by rewrite (Hk k pc Ek).
  - intros k pc key since q pcq seen Ek. by rewrite (Hk k pc Ek).
Qed.

Lemma reachable_inv s0 s : initial s0 -> rtc rstep s0 s -> exists L, inv s L.
Proof.
  intros I R. assert (H0 : exists L, inv s0 L) by (eexists; by apply inv_initial). clear I.
  induction R as [s|s s1 s2 St R IH]; [done|]. destruct H0 as [L H0]. apply IH. by eapply race_step.
Qed.

(** In every interleaving of waiters, wakers and stores the buckets stay
    consistent: each list is a well-formed priority list that holds exactly the
    entries of the waiters that have queued and were not taken off, under the hash
    of their offset, and the count of a bucket is exactly the length of its list
    plus the waiters that have announced themselves and are not queued. *)
Theorem futex_race_invariant (s0 s : rstate) :
  initial s0 -> rtc rstep s0 s ->
  exists L, futex_wf (tab s) L (pend (wpcs s)) /\
    forall hb q, is_bucket hb -> q ∈ L hb <-> exists pc, wpcs s !! q = Some pc /\ on_list pc (the_q (tab s) q) hb.
Proof. intros I R. destruct (reachable_inv s0 s I R) as [L Hi]. exists L. split; [apply Hi|apply Hi]. Qed.

(** C3. No wake-up is lost.  Once a wake of everything on an offset has returned,
    every waiter that still sleeps on the offset compared the word after all the
    stores that came before the call: a waiter that compared before them has been
    taken off the list.  This is the guarantee that the driver derives from
    counting the waiter before it takes the lock and reads the word. *)
Theorem no_lost_wakeup (s0 s : rstate) (k q key since seen : Z) :
  initial s0 -> rtc rstep s0 s ->
  kpcs s !! k = Some (KDone key WAKE_ALL since) ->
  wpcs s !! q = Some (WQueued key seen) -> q_lock (the_q (tab s) q) <> None ->
  since <= seen.
Proof.
  intros I R Ek Eq Hn. destruct (reachable_inv s0 s I R) as [L Hi].
  exact (iv_swept _ _ Hi k _ key since q _ seen Ek eq_refl Eq eq_refl Hn).
Qed.
End Race.

(** ** Example: a store and a wake, then a waiter that sleeps on the new value *)

Definition example_race : rstate :=
  RState empty_table ∅ (fun _ => 0) {[1000 := WIdle]} {[1 := KIdle]} (fun _ => None).

Lemma example_race_initial : initial example_race.
Proof.
  split.
  - apply empty_table_wf.
  - intros q pc E. cbn [example_race wpcs kpcs] in E. apply lookup_singleton_Some in E as [<- <-]. done.
  - intros k pc E. cbn [example_race wpcs kpcs] in E. apply lookup_singleton_Some in E as [<- <-]. done.
  - unfold example_race. cbn [wpcs]. by rewrite map_size_singleton.
Qed.

Local Notation example_step := (rstep 100 (fun _ => 7) (fun _ => 20)).

Lemma example_race_run : exists s,
  rtc example_step example_race s /\ kpcs s !! 1 = Some (KDone 64 WAKE_ALL 1) /\ wpcs s !! 1000 = Some (WQueued 64 1) /\
  q_lock (the_q (tab s) 1000) <> None.
Proof.
  set (t1 := start_wait empty_table 1000 64).
  destruct (start_wait_ok empty_table _ _ 1000 64 empty_table_wf (fun _ _ => not_elem_of_nil _) ltac:(cbn; lia)) as (W & Ek & El & _).
  fold t1 in W, Ek, El.
  destruct (queue_wf 100 1 t1 _ _ 1000 (cxl_proc_hashbucket 64) 7 20 W (hashbucket_bound 64) ltac:(lia) (fun _ _ => not_elem_of_nil _)
    ltac:(rewrite fn_lookup_insert; lia) El ltac:(by rewrite Ek) ltac:(cbn; lia)) as (t2 & l1 & l2 & E & _ & _ & _ & Q & _).
  assert (EQ : queue_up 100 (fun _ => 7) (fun _ => 20) t1 1000 (cxl_proc_hashbucket 64) = Some t2).
  { exact (eq_trans (queue_up_eq 100 _ _ t1 _ _ 1000 _ W (hashbucket_bound 64)) E). }
  eexists. split.
  { eapply rtc_l; [apply (S_store _ _ _ _ 64 5)|]. eapply rtc_l; [by apply (K_call _ _ _ _ 1 64 WAKE_ALL)|].
    eapply rtc_l; [by apply (K_none _ _ _ _ 1 64 WAKE_ALL 1)|]. eapply rtc_l; [by apply (W_count _ _ _ _ 1000 64 5)|].
    eapply rtc_l; [by apply (W_lock _ _ _ _ 1000 64 5)|]. eapply rtc_l; [by apply (W_equal _ _ _ _ 1000 64 5)|].
    eapply rtc_l; [apply (W_queue _ _ _ _ 1000 64 1 t2); [done|exact EQ]|]. apply rtc_refl. }
  split; [done|]. split; [done|]. cbn [set_wpc tab]. by rewrite Q, decide_True.
Qed.

Lemma no_lost_wakeup_witness : exists s,
  rtc example_step example_race s /\ kpcs s !! 1 = Some (KDone 64 WAKE_ALL 1) /\ wpcs s !! 1000 = Some (WQueued 64 1) /\ 1 <= 1.
Proof.
  destruct example_race_run as (s & R & Ek & Eq & Hn). exists s. split; [exact R|]. split; [exact Ek|]. split; [exact Eq|].
  exact (no_lost_wakeup 100 (fun _ => 7) (fun _ => 20) example_race s 1 1000 64 1 1 example_race_initial R Ek Eq Hn).
Defined.

Lemma futex_race_invariant_witness : exists s L,
  rtc example_step example_race s /\ futex_wf (tab s) L (pend (wpcs s)) /\ 1000 ∈ L (cxl_proc_hashbucket 64).
Proof.
  destruct example_race_run as (s & R & _ & Eq & Hn).
  destruct (futex_race_invariant 100 (fun _ => 7) (fun _ => 20) example_race s example_race_initial R) as (L & W & HL).
  exists s, L. split; [exact R|]. split; [exact W|]. apply HL; [apply hashbucket_bound|].
  eexists. split; [exact Eq|]. exists 64. split; [reflexivity|]. split; [reflexivity|exact Hn].
Defined.
