(* ===== verification/ProcDeath.v ===== *)
(** The processes that use the shared memory and their deaths: src/driver/src/proc_death.c,
    uapi/vcxl_proc_death_notify.h, task_robust_def.h and the robust lists of
    cxl_futex_waitwake.c.

    A hash table maps a registered task to its node.  When the task dies its
    waiters leave the futex table, and its death is queued for every other machine
    ([CircularQueue]) and reported to the processes of this one; the other machines
    empty their queue at the interrupt and report what they find.  [newnode] is the
    address that the allocator returns, 0 when it fails; [send_genlmsg] is a list
    of the values handed to it. *)
From Stdlib Require Import ZArith Lia Bool.
From stdpp Require Import base list gmap numbers functions.
From S2P Require Import Prelude ShmemLog PersistCas TatasLock MetaAlloc CircularQueue MetaInit LinuxList HList PList Futex FutexSpec.
Local Open Scope Z_scope.
Local Open Scope lupin_scope.

(** ** Messages *)

Definition PROCDEATH_PID_SHIFT : Z := 0.
Definition PROCDEATH_PID_MASK : Z := 0xffffffff.
Definition PROCDEATH_LOGICALID_MASK : Z := 0xff00000000.
Definition PROCDEATH_LOGICALID_SHIFT : Z := 32.

Definition procdeath_get_pid (val : Z) : Z := u32 (Z.shiftr (Z.land val PROCDEATH_PID_MASK) PROCDEATH_PID_SHIFT).

Definition procdeath_get_logicalid (val : Z) : Z :=
  u16 (Z.shiftr (Z.land val PROCDEATH_LOGICALID_MASK) PROCDEATH_LOGICALID_SHIFT).

(** [pid] is signed and is extended to 64 bits. *)
Definition compose_procdeath (pid logical_id : Z) : Z :=
  Z.lor (u64 (Z.shiftl (u64 pid) PROCDEATH_PID_SHIFT)) (u64 (Z.shiftl logical_id PROCDEATH_LOGICALID_SHIFT)).

(** ** The table of tasks *)

Definition TASK_ROBURST_BITS : Z := 12.
Definition TASK_ROBURST_TAB_SIZE : Z := Z.shiftl 1 TASK_ROBURST_BITS.

Record device := Device { dram : meta_dram; total_machines : Z }.

(** struct vcxl_task_robust_node without its links; [n_rh] is the user's list head,
    0 when there is none. *)
Record robust_node := RobustNode { n_task : Z; n_rh : Z; n_dev : device; n_user_proc_id : Z }.

(** The links of the buckets and the allocated nodes by address. *)
Record robust := Robust { tlinks : hlinks; nodes : gmap Z robust_node }.

Definition no_node : robust_node := RobustNode 0 0 (Device (MetaDram 0 0 0) 0) 0.
Definition the_node (r : robust) (n : Z) : robust_node := default no_node (nodes r !! n).

Definition cxl_task_roburst_hashbucket (curr : Z) : Z := hash_ptr curr TASK_ROBURST_BITS mod TASK_ROBURST_TAB_SIZE.

Definition init_vcxl_task_robust_hashtable (r : robust) : robust :=
  Robust (fold_left INIT_HLIST_HEAD (seqZ 0 TASK_ROBURST_TAB_SIZE) (tlinks r)) (nodes r).

(** Frees the nodes of every bucket; the buckets keep their pointers. *)
Fixpoint free_buckets (fuel : nat) (l : list Z) (r : robust) : option robust :=
  match l with
  | [] => Some r
  | i :: l =>
      match hlist_for_each fuel (tlinks r) i with
      | None => None
      | Some ns => free_buckets fuel l (Robust (tlinks r) (fold_left (fun m n => delete n m) ns (nodes r)))
      end
  end.

Definition exit_vcxl_task_robust_hashtable (fuel : nat) (r : robust) : option robust :=
  free_buckets fuel (seqZ 0 TASK_ROBURST_TAB_SIZE) r.

(** The first node of the task in its bucket; the outer [None] when the walk does
    not end within [fuel]. *)
Definition find_node (fuel : nat) (r : robust) (task : Z) : option (option Z) :=
  match hlist_for_each fuel (tlinks r) (cxl_task_roburst_hashbucket task) with
  | None => None
  | Some l => Some (head (filter (fun n => n_task (the_node r n) = task) l))
  end.

Definition do_register_process (fuel : nat) (r : robust) (dev : device) (current newnode uproc_logical_id : Z)
  : outcome (option (robust * Z)) :=
  bug_on (mem_start (dram dev) =? 0)
    (let hb := cxl_task_roburst_hashbucket current in
     match find_node fuel r current with
     | None => Ret None
     | Some found =>
         let node := match found with Some cursor => cursor | None => newnode end in
         bug_on (node =? 0)
           (let ns := <[node := RobustNode current 0 dev uproc_logical_id]> (nodes r) in
            let l := match found with Some _ => tlinks r | None => hlist_add_head (tlinks r) node hb end in
            Ret (Some (Robust l ns, 0)))
     end).

Definition set_rh (x : robust_node) (rh : Z) : robust_node := RobustNode (n_task x) rh (n_dev x) (n_user_proc_id x).

(** Every node of the task in the bucket is set. *)
Fixpoint set_loop (l : list Z) (r : robust) (current uhead : Z) (found : bool) : robust * bool :=
  match l with
  | [] => (r, found)
  | cursor :: l =>
      if n_task (the_node r cursor) =? current
      then set_loop l (Robust (tlinks r) (<[cursor := set_rh (the_node r cursor) uhead]> (nodes r))) current uhead true
      else set_loop l r current uhead found
  end.

Definition do_set_robust_list (fuel : nat) (r : robust) (current uhead : Z) : option (robust * Z) :=
  match hlist_for_each fuel (tlinks r) (cxl_task_roburst_hashbucket current) with
  | None => None
  | Some l => let (r, found) := set_loop l r current uhead false in Some (r, if found then 0 else - EINVAL)
  end.

Definition remove_robust_node (r : robust) (node : Z) : robust :=
  Robust (hlist_del (tlinks r) node) (delete node (nodes r)).

(** ** Reporting a death *)

Section Notify.
Context (g : granularity) (nr_cpu_ids cpu_id : Z).

(** [while (ret == -1)]: [tries] is how many more times the queue may be tried. *)
Fixpoint enqueue_retry (tries : nat) (m : bytes) (q msg machine : Z) : outcome (option bytes) :=
  let! o := circular_queue_enqueue g nr_cpu_ids cpu_id m q msg machine in
  match o with
  | None => Ret None
  | Some (m, ret) =>
      if ret =? -1 then match tries with O => Ret (Some m) | S k => enqueue_retry k m q msg machine end
      else Ret (Some m)
  end.

(** One machine of the loop; the doorbell rings even when the queue stayed full. *)
Definition send_to (m : bytes) (dev : device) (msg i : Z) : outcome (option (bytes * list Z)) :=
  match peer_vcxl_procdeath_queue i with
  | None => Ret (Some (m, []))
  | Some q =>
      let! o := enqueue_retry 99 m q msg (machine_id (dram dev)) in
      Ret (match o with
           | None => None
           | Some m => Some (m, [compose_ivpos_msix_reg CXL_IVPCI_VECTOR_PROC_DEATH_NOTIFY (u16 i)])
           end)
  end.

(** The machines [l]: the memory, the doorbells and the values for netlink. *)
Fixpoint notify_loop (l : list Z) (m : bytes) (dev : device) (proc_ids : Z) : outcome (option (bytes * list Z * list Z)) :=
  match l with
  | [] => Ret (Some (m, [], []))
  | i :: l =>
      if negb (i =? machine_id (dram dev)) then
        let! o := send_to m dev proc_ids i in
        match o with
        | None => Ret None
        | Some (m, bells) =>
            let! o := notify_loop l m dev proc_ids in
            Ret (option_map (fun '(m, bs, gs) => (m, bells ++ bs, gs)) o)
        end
      else
        let! o := notify_loop l m dev proc_ids in
        Ret (option_map (fun '(m, bs, gs) => (m, bs, proc_ids :: gs)) o)
  end.

(** [tgid] is the thread group of the task, from the kernel.  The result is the
    memory, the doorbells, the netlink values and the node. *)
Definition notify_proc_death_to_other_machine (fuel : nat) (r : robust) (m : bytes) (tsk tgid : Z)
  : outcome (option (bytes * list Z * list Z * option Z)) :=
  match find_node fuel r tsk with
  | None => Ret None
  | Some None => Ret (Some (m, [], [], None))
  | Some (Some node) =>
      let x := the_node r node in
      let proc_ids := compose_procdeath tgid (n_user_proc_id x) in
      let! o := notify_loop (seqZ 1 (total_machines (n_dev x))) m (n_dev x) proc_ids in
      Ret (option_map (fun '(m, bs, gs) => (m, bs, gs, Some node)) o)
  end.

Fixpoint send_loop (l : list Z) (m : bytes) (dev : device) (msg : Z) : outcome (option (bytes * list Z)) :=
  match l with
  | [] => Ret (Some (m, []))
  | i :: l =>
      if negb (i =? machine_id (dram dev)) then
        let! o := send_to m dev msg i in
        match o with
        | None => Ret None
        | Some (m, bells) =>
            let! o := send_loop l m dev msg in
            Ret (option_map (fun '(m, bs) => (m, bells ++ bs)) o)
        end
      else send_loop l m dev msg
  end.

Definition send_msg_to_other_machines (m : bytes) (dev : device) (msg : Z) : outcome (option (bytes * list Z)) :=
  send_loop (seqZ 1 (total_machines dev)) m dev msg.

(** ** Receiving *)

(** The loop of [fetch_vals]: [room] is what is left of the array; [mem] says that
    the array could be allocated. *)
Fixpoint fetch_loop (room : nat) (mem : bool) (m : bytes) (q machine : Z) : outcome (option (bytes * list Z)) :=
  match room with
  | O => Ret (Some (m, []))
  | S k =>
      let! o := circular_queue_dequeue g nr_cpu_ids cpu_id m q machine in
      match o with
      | None => Ret None
      | Some (m, ret, proc_ids) =>
          if ret =? -1 then Ret (Some (m, []))
          else bug_on (negb mem)
                 (let! o := fetch_loop k mem m q machine in
                  Ret (option_map (fun '(m, vals) => (m, proc_ids :: vals)) o))
      end
  end.

(** The values; the empty list is the null pointer. *)
Definition fetch_vals (mem : bool) (m : bytes) (d : meta_dram) : outcome (option (bytes * list Z)) :=
  match self_vcxl_procdeath_queue d with
  | None => Ret (Some (m, []))
  | Some q => fetch_loop (Z.to_nat CQUEUE_SIZE) mem m q (machine_id d)
  end.

(** The memory and the values handed to [send_genlmsg], in order. *)
Definition process_proc_death (mem : bool) (m : bytes) (d : meta_dram) : outcome (option (bytes * list Z)) := fetch_vals mem m d.

Definition vcxl_ivpci_interrupt_proc_death_task_notify (mem : bool) (m : bytes) (d : meta_dram) := process_proc_death mem m d.

(** The tasklet does the same and schedules itself again. *)
Definition poll_proc_death_task (mem : bool) (m : bytes) (d : meta_dram) := fetch_vals mem m d.
End Notify.

(** ** Robust lists *)

Section RobustList.
Context `{PlistHeader}.
(** ROBUST_LIST_LIMIT of linux/futex.h. *)
Context (ROBUST_LIST_LIMIT : nat).

(** The first waiter of the task on the offset leaves the bucket. *)
Fixpoint death_loop (l : list Z) (t : ftable) (offset curr : Z) : ftable :=
  match l with
  | [] => t
  | this :: l =>
      if (q_key (the_q t this) =? offset) && (q_task (the_q t this) =? curr) then
        let t := __vcxl_futex_unqueue t this in
        set_q t this (FutexQ (q_task (the_q t this)) None (q_key (the_q t this)))
      else death_loop l t offset curr
  end.

Definition handle_futex_death (t : ftable) (offset curr : Z) : ftable * Z :=
  if negb (offset mod 8 =? 0) then (t, -1)
  else
    let hb := cxl_proc_hashbucket offset in
    if negb (vcxl_futex_hb_waiters_pending t hb) then (t, 0)
    else (death_loop (plist_for_each (chains t) (hb_chain hb)) t offset curr, 0).

(** [user] is the 64-bit word at a user address, [None] when reading it faults.
    struct robust_mutex_base has [next] at 0 and [futex_offset] at 16;
    struct robust_mutex_list has the base [list] first and [list_op_pending] at 24. *)
Definition fetch_vcxl_robust_entry (user : Z -> option Z) (head : Z) : option Z := user head.

(** The loop: [None] for the entry when the function has returned. *)
Fixpoint robust_loop (limit : nat) (user : Z -> option Z) (head pending : Z) (entry : Z) (t : ftable) (curr : Z)
  : ftable * option Z :=
  match limit with
  | O => (t, Some entry)
  | S limit =>
      if entry =? head then (t, Some entry)
      else
        let next_entry := fetch_vcxl_robust_entry user entry in
        let r := if negb (entry =? pending) then
                   match user (entry + 16) with
                   | None => None
                   | Some futex_offset => Some (fst (handle_futex_death t futex_offset curr))
                   end
                 else Some t in
        match r, next_entry with
        | None, _ => (t, None)
        | Some t, None => (t, None)
        | Some t, Some next_entry => robust_loop limit user head pending next_entry t curr
        end
  end.

Definition exit_robust_list (user : Z -> option Z) (t : ftable) (curr rh : Z) : ftable :=
  if rh =? 0 then t
  else
    match fetch_vcxl_robust_entry user rh with
    | None => t
    | Some entry =>
        match fetch_vcxl_robust_entry user (rh + 24) with
        | None => t
        | Some pending =>
            let (t, e) := robust_loop ROBUST_LIST_LIMIT user rh pending entry t curr in
            match e with
            | None => t
            | Some entry =>
                if truthy pending then
                  match user (entry + 16) with
                  | None => t
                  | Some futex_offset => fst (handle_futex_death t futex_offset curr)
                  end
                else t
            end
        end
    end.
End RobustList.
