(* ===== verification/ProcDeathSpec.v ===== *)
(** Correctness of [ProcDeath]: the table of tasks is a map from tasks to nodes, a
    death reaches every machine and is reported there once, and a dying task leaves
    the futex table. *)
From Stdlib Require Import ZArith Lia Bool.
From stdpp Require Import base list gmap numbers functions.
From S2P Require Import Prelude ShmemLog PersistCas TatasLock MetaAlloc CircularQueue MetaInit LinuxList HList PList Futex FutexSpec ProcDeath.
Local Open Scope Z_scope.
Local Open Scope lupin_scope.

(** ** Messages *)

Lemma compose_sum pid id : 0 <= pid < 2 ^ 31 -> 0 <= id < 2 ^ 16 -> compose_procdeath pid id = id * 2 ^ 32 + pid.
Proof.
  intros Hp Hi. unfold compose_procdeath, PROCDEATH_PID_SHIFT, PROCDEATH_LOGICALID_SHIFT.
  rewrite Z.shiftl_0_r, !(u64_small pid), (u64_small (Z.shiftl id 32)) by (rewrite ?Z.shiftl_mul_pow2; lia).
  rewrite Z.lor_comm. apply lor_shiftl_add; lia.
Qed.

(** The message of a death holds its process: the process number is read back as
    it was.  The logical number is not: 16 bits are written, as documented, but the
    mask to read it has only 8, so numbers from 256 on are confused with smaller
    ones. *)
Theorem procdeath_fields (pid id : Z) :
  0 <= pid < 2 ^ 31 -> 0 <= id < 2 ^ 16 ->
  procdeath_get_pid (compose_procdeath pid id) = pid /\
  procdeath_get_logicalid (compose_procdeath pid id) = id mod 256 /\
  (procdeath_get_logicalid (compose_procdeath pid id) = id <-> id < 256).
Proof.
  intros Hp Hi.
  assert (E : procdeath_get_logicalid (compose_procdeath pid id) = id mod 256).
  { unfold procdeath_get_logicalid. rewrite compose_sum by done.
    change PROCDEATH_LOGICALID_MASK with (Z.shiftl (Z.ones 8) 32). change PROCDEATH_LOGICALID_SHIFT with 32.
    rewrite Z.shiftr_land, Z.shiftr_div_pow2, Z.div_add_l, Z.div_small, Z.add_0_r by lia.
    rewrite Z.shiftr_shiftl_l by lia. change (Z.shiftl (Z.ones 8) (32 - 32)) with (Z.ones 8). rewrite Z.land_ones by lia.
    pose proof (Z.mod_pos_bound id 256 ltac:(lia)). change (2 ^ 8) with 256. unfold u16. apply Z.mod_small. lia. }
  split; [|split; [exact E|]].
  - unfold procdeath_get_pid, PROCDEATH_PID_SHIFT. rewrite compose_sum, Z.shiftr_0_r by done.
    change PROCDEATH_PID_MASK with (Z.ones 32). rewrite Z.land_ones, Z.add_comm, Z.mod_add by lia.
    rewrite (Z.mod_small pid) by lia. apply u32_fix. lia.
  - rewrite E. split; [intros <-; by apply Z.mod_pos_bound|intros ?; apply Z.mod_small; lia].
Qed.

Lemma procdeath_fields_witness : procdeath_get_logicalid (compose_procdeath 4242 258) = 2 /\ procdeath_get_pid (compose_procdeath 4242 258) = 4242.
Proof. destruct (procdeath_fields 4242 258 ltac:(lia) ltac:(lia)) as (E1 & E2 & _). split; [exact E2|exact E1]. Defined.

(** ** The table of tasks *)

Local Notation hash := cxl_task_roburst_hashbucket.

(** The heap [r] with the chains [P] holds the map [reg] from tasks to their node
    and its contents. *)
Record table (r : robust) (P : pool) (reg : gmap Z (Z * robust_node)) : Prop := {
  tb_links : hrep (tlinks r) P;
  tb_buckets : forall i, is_Some (P !! i) <-> 0 <= i < TASK_ROBURST_TAB_SIZE;
  tb_reg : forall task n x, reg !! task = Some (n, x) -> nodes r !! n = Some x /\ n_task x = task /\ on P n (hash task);
  tb_on : forall i n, on P n i -> exists task x, reg !! task = Some (n, x) /\ hash task = i }.

Lemma task_bucket r P reg task : table r P reg -> exists l, P !! hash task = Some l.
Proof. intros T. apply (tb_buckets _ _ _ T). apply Z.mod_pos_bound. reflexivity. Qed.

Lemma walk_table fuel r P reg i l :
  table r P reg -> P !! i = Some l -> (length l <= fuel)%nat -> hlist_for_each fuel (tlinks r) i = Some l.
Proof.
  intros T E Hf. apply (walk_hchain _ (SFirst i)); [by apply (hr_chain _ _ (tb_links _ _ _ T))|by apply (hr_null _ _ (tb_links _ _ _ T) i)|done].
Qed.

(** The node of a task is the only one of its bucket with that task. *)
Lemma node_of_task r P reg task l n :
  table r P reg -> P !! hash task = Some l -> n ∈ l ->
  n_task (the_node r n) = task <-> exists x, reg !! task = Some (n, x).
Proof.
  intros T El Hn. destruct (tb_on _ _ _ T (hash task) n) as (task' & x & Er & _); [by exists l|].
  destruct (tb_reg _ _ _ T _ _ _ Er) as (En & Et & _). unfold the_node. rewrite En. cbn [default]. split.
  - intros E. exists x. change (n_task x = task) in E. congruence.
  - intros [y Ey]. destruct (tb_reg _ _ _ T _ _ _ Ey) as (En' & Et' & _). change (n_task x = task). congruence.
Qed.

Lemma find_node_ok fuel r P reg task :
  table r P reg -> (forall i l, P !! i = Some l -> (length l <= fuel)%nat) ->
  find_node fuel r task = Some (fst <$> reg !! task).
Proof.
  intros T Hf. destruct (task_bucket r P reg task T) as [l El]. unfold find_node.
  rewrite (walk_table fuel r P reg _ l T El (Hf _ _ El)). f_equal. destruct (reg !! task) as [[n x]|] eqn:Er.
  - destruct (tb_reg _ _ _ T _ _ _ Er) as (_ & _ & l' & El' & Hn). assert (l' = l) as -> by congruence.
    destruct (filter (fun n => n_task (the_node r n) = task) l) as [|n' f] eqn:Ef.
    + assert (Hi : n ∈ filter (fun n => n_task (the_node r n) = task) l).
      { apply list_elem_of_filter. split; [|done]. apply (node_of_task r P reg task l n T El Hn). eauto. }
      rewrite Ef in Hi. by apply not_elem_of_nil in Hi.
    + assert (Hi : n' ∈ filter (fun n => n_task (the_node r n) = task) l) by (rewrite Ef; by left).
      apply list_elem_of_filter in Hi as [Ht Hi]. apply (node_of_task r P reg task l n' T El Hi) in Ht as [y Ey]. cbn. congruence.
  - destruct (filter (fun n => n_task (the_node r n) = task) l) as [|n' f] eqn:Ef; [done|].
    assert (Hi : n' ∈ filter (fun n => n_task (the_node r n) = task) l) by (rewrite Ef; by left).
    apply list_elem_of_filter in Hi as [Ht Hi]. apply (node_of_task r P reg task l n' T El Hi) in Ht as [y Ey]. congruence.
Qed.

(** Rewriting the contents of a registered node. *)
Lemma table_update r P reg task n x y :
  table r P reg -> reg !! task = Some (n, x) -> n_task y = task ->
  table (Robust (tlinks r) (<[n := y]> (nodes r))) P (<[task := (n, y)]> reg).
Proof.
  intros T Er Ey. destruct (tb_reg _ _ _ T _ _ _ Er) as (En & Et & Ho). split; cbn [tlinks nodes].
  - apply T.
  - apply T.
  - intros task' n' z. destruct (decide (task = task')) as [<-|Hne].
    + rewrite lookup_insert_eq. intros [= <- <-]. by rewrite lookup_insert_eq.
    + rewrite lookup_insert_ne by done. intros Ez. destruct (tb_reg _ _ _ T _ _ _ Ez) as (En' & Et' & Ho').
      rewrite lookup_insert_ne; [done|]. intros <-. congruence.
  - intros i n' Hn. destruct (tb_on _ _ _ T i n' Hn) as (task' & z & Ez & Ei). destruct (decide (task = task')) as [<-|Hne].
    + exists task, y. rewrite lookup_insert_eq. split; [congruence|done].
    + exists task', z. by rewrite lookup_insert_ne.
Qed.

Lemma table_add r P reg task n y l :
  table r P reg -> reg !! task = None -> n <> 0 -> nodes r !! n = None -> P !! hash task = Some l -> n_task y = task ->
  table (Robust (hlist_add_head (tlinks r) n (hash task)) (<[n := y]> (nodes r))) (<[hash task := n :: l]> P) (<[task := (n, y)]> reg).
Proof.
  intros T Er Hn0 Hn El Ey.
  assert (Hnew : forall i, ~ on P n i).
  { intros i Hi. destruct (tb_on _ _ _ T i n Hi) as (task' & x & E & _). destruct (tb_reg _ _ _ T _ _ _ E). congruence. }
  split; cbn [tlinks nodes].
  - apply add_head_hrep; [apply T|done|by split].
  - intros i. destruct (decide (hash task = i)) as [<-|Hne]; [rewrite lookup_insert_eq|rewrite lookup_insert_ne by done; apply T].
    rewrite <- (tb_buckets _ _ _ T). rewrite El. split; by eexists.
  - intros task' n' z. rewrite on_insert. destruct (decide (task = task')) as [<-|Hne].
    + rewrite lookup_insert_eq. intros [= <- <-]. rewrite lookup_insert_eq. split; [done|]. split; [done|]. left. split; [done|by left].
    + rewrite lookup_insert_ne by done. intros Ez. destruct (tb_reg _ _ _ T _ _ _ Ez) as (En' & Et' & Ho').
      rewrite lookup_insert_ne by congruence. split; [done|]. split; [done|]. destruct (decide (hash task' = hash task)) as [E|E].
      * left. split; [done|]. destruct Ho' as (l' & E' & Hi). rewrite E in E'. assert (l' = l) as -> by congruence. by right.
      * by right.
  - intros i n'. rewrite on_insert. intros [[-> Hi]|[Hne Hi]].
    + apply elem_of_cons in Hi as [->|Hi]; [exists task, y; by rewrite lookup_insert_eq|].
      destruct (tb_on _ _ _ T (hash task) n') as (task' & z & Ez & E); [by exists l|]. exists task', z.
      rewrite lookup_insert_ne; [done|]. congruence.
    + destruct (tb_on _ _ _ T i n' Hi) as (task' & z & Ez & E). exists task', z. rewrite lookup_insert_ne; [done|]. congruence.
Qed.

Lemma table_remove r P reg task n x :
  table r P reg -> reg !! task = Some (n, x) -> exists P', table (remove_robust_node r n) P' (delete task reg).
Proof.
  intros T Er. destruct (tb_reg _ _ _ T _ _ _ Er) as (En & Et & l & El & Hn).
  apply list_elem_of_split in Hn as (l1 & l2 & ->). exists (<[hash task := l1 ++ l2]> P).
  pose proof (hr_nodup _ _ (tb_links _ _ _ T) _ _ El) as Hd. apply NoDup_ListNoDup, NoDup_remove in Hd as [_ Hd].
  assert (Hself : forall task' z, reg !! task' = Some (n, z) -> task' = task).
  { intros task' z Ez. destruct (tb_reg _ _ _ T _ _ _ Ez) as (E & E' & _). congruence. }
  split; cbn [remove_robust_node tlinks nodes].
  - exact (del_hrep _ _ n _ _ _ (HDel n) (tb_links _ _ _ T) El (or_introl eq_refl)).
  - intros i. destruct (decide (hash task = i)) as [<-|Hne]; [rewrite lookup_insert_eq|rewrite lookup_insert_ne by done; apply T].
    rewrite <- (tb_buckets _ _ _ T). rewrite El. split; by eexists.
  - intros task' n' z [Hne Ez]%lookup_delete_Some. destruct (tb_reg _ _ _ T _ _ _ Ez) as (En' & Et' & Ho').
    assert (Hnn : n' <> n) by (intros ->; by apply Hne, eq_sym, (Hself task' z)).
    rewrite lookup_delete_ne by done. split; [done|]. split; [done|]. rewrite on_insert.
    destruct (decide (hash task' = hash task)) as [E|E]; [left|by right]. split; [done|]. destruct Ho' as (l' & E' & Hi).
    rewrite E in E'. assert (l' = l1 ++ n :: l2) as -> by congruence. rewrite elem_of_app, elem_of_cons in Hi. rewrite elem_of_app. tauto.
  - intros i n' Hi. apply on_insert in Hi as [[-> Hi]|[Hne Hi]].
    + assert (n' <> n) by (intros ->; by apply Hd, list_elem_of_In).
      destruct (tb_on _ _ _ T (hash task) n') as (task' & z & Ez & E).
      { eexists. split; [exact El|]. rewrite elem_of_app in Hi. rewrite elem_of_app, elem_of_cons. tauto. }
      exists task', z. split; [|done]. apply lookup_delete_Some. split; [|done]. intros <-. congruence.
    + destruct (tb_on _ _ _ T i n' Hi) as (task' & z & Ez & E). exists task', z. split; [|done].
      apply lookup_delete_Some. split; [|done]. congruence.
Qed.

(** The loop of [do_set_robust_list] over the rest of a bucket. *)
Lemma set_loop_none l r task uhead b :
  (forall n, n ∈ l -> n_task (the_node r n) <> task) -> set_loop l r task uhead b = (r, b).
Proof.
  induction l as [|n l IH]; intros Hl; [done|]. cbn [set_loop]. rewrite (proj2 (Z.eqb_neq _ _) (Hl n ltac:(by left))).
  apply IH. intros z Hz. apply Hl. by right.
Qed.

Lemma set_loop_some l1 n l2 r task uhead b :
  (forall z, z ∈ l1 ++ n :: l2 -> n_task (the_node r z) = task <-> z = n) -> n ∉ l1 -> n ∉ l2 ->
  set_loop (l1 ++ n :: l2) r task uhead b = (Robust (tlinks r) (<[n := set_rh (the_node r n) uhead]> (nodes r)), true).
Proof.
  intros Hl Hn1 Hn2. induction l1 as [|z l1 IH]; cbn [app set_loop].
  - rewrite (proj2 (Z.eqb_eq _ _)) by (apply Hl; [by left|done]). apply set_loop_none. intros z Hz.
    assert (z <> n) by (intros ->; done). unfold the_node. cbn [nodes]. rewrite lookup_insert_ne by done.
    intros E. assert (z = n); [|done]. apply Hl; [by right|done].
  - apply not_elem_of_cons in Hn1 as [Hz Hn1].
    rewrite (proj2 (Z.eqb_neq _ _)) by (intros E; apply Hl in E; [by subst|by left]).
    apply IH; [|done]. intros y Hy. apply Hl. by right.
Qed.

Lemma set_robust_list_ok fuel r P reg task uhead :
  table r P reg -> (forall i l, P !! i = Some l -> (length l <= fuel)%nat) ->
  match reg !! task with
  | Some (n, x) => exists r', do_set_robust_list fuel r task uhead = Some (r', 0) /\ table r' P (<[task := (n, set_rh x uhead)]> reg)
  | None => do_set_robust_list fuel r task uhead = Some (r, - EINVAL)
  end.
Proof.
  intros T Hf. destruct (task_bucket r P reg task T) as [l El]. unfold do_set_robust_list.
  rewrite (walk_table fuel r P reg _ l T El (Hf _ _ El)). destruct (reg !! task) as [[n x]|] eqn:Er.
  - destruct (tb_reg _ _ _ T _ _ _ Er) as (En & Et & l' & El' & Hn). assert (l' = l) as -> by congruence.
    apply list_elem_of_split in Hn as (l1 & l2 & ->).
    pose proof (hr_nodup _ _ (tb_links _ _ _ T) _ _ El) as Hd. apply list.NoDup_app in Hd as (_ & Hd & [Hd2 _]%list.NoDup_cons).
    rewrite (set_loop_some l1 n l2).
    + eexists. split; [reflexivity|]. unfold the_node. rewrite En. apply (table_update r P reg task n x); [done|done|]. exact Et.
    + intros z Hz. rewrite (node_of_task r P reg task _ z T El Hz). split; [intros [y Ey]; congruence|intros ->; eauto].
    + intros Hi. apply (Hd n Hi). by left.
    + done.
  - rewrite set_loop_none; [done|]. intros n Hn E. apply (node_of_task r P reg task l n T El Hn) in E as [y Ey]. congruence.
Qed.

(** The hash table of registered tasks is a map from tasks to their node.
    Registering a task that is unknown adds a node for it, registering it again
    rewrites its node and forgets its robust list; setting the robust list changes
    exactly the node of the caller and fails with -EINVAL when it is not
    registered; looking a task up finds its node and no other; removing a node
    removes exactly its task. *)
Theorem task_table_is_map (fuel : nat) (r : robust) (P : pool) (reg : gmap Z (Z * robust_node)) :
  table r P reg -> (forall i l, P !! i = Some l -> (length l <= fuel)%nat) ->
  (forall task, find_node fuel r task = Some (fst <$> reg !! task)) /\
  (forall dev current newnode id, mem_start (dram dev) <> 0 -> newnode <> 0 -> nodes r !! newnode = None -> 
     let node := match reg !! current with Some (n, _) => n | None => newnode end in
     exists r' P', do_register_process fuel r dev current newnode id = Ret (Some (r', 0)) /\
       table r' P' (<[current := (node, RobustNode current 0 dev id)]> reg)) /\
  (forall current uhead,
     match reg !! current with
     | Some (n, x) => exists r', do_set_robust_list fuel r current uhead = Some (r', 0) /\
         table r' P (<[current := (n, set_rh x uhead)]> reg)
     | None => do_set_robust_list fuel r current uhead = Some (r, - EINVAL)
     end) /\
  (forall task n x, reg !! task = Some (n, x) -> exists P', table (remove_robust_node r n) P' (delete task reg)).
Proof.
  intros T Hf. split; [|split; [|split]].
  - intros task. by apply (find_node_ok fuel r P).
  - intros dev current newnode id Hm Hn0 Hn. cbv zeta. unfold do_register_process, bug_on.
    rewrite (proj2 (Z.eqb_neq _ _) Hm), (find_node_ok fuel r P reg current T Hf).
    destruct (reg !! current) as [[n x]|] eqn:Er; cbn [fmap option_fmap option_map fst].
    + assert (n <> 0).
      { destruct (tb_reg _ _ _ T _ _ _ Er) as (_ & _ & l & El & Hi). intros ->. by apply (hr_null _ _ (tb_links _ _ _ T) _ _ El). }
      rewrite (proj2 (Z.eqb_neq _ _)) by done. eexists _, P. split; [reflexivity|]. by apply (table_update r P reg current n x).
    + rewrite (proj2 (Z.eqb_neq _ _) Hn0). destruct (task_bucket r P reg current T) as [l El].
      eexists _, _. split; [reflexivity|]. by apply (table_add r P reg current newnode _ l).
  - intros current uhead. by apply set_robust_list_ok.
  - intros task n x Er. by apply (table_remove r P reg task n x).
Qed.

(** ** Reporting *)

Local Notation ring := CircularQueue.ring.

Definition death_queue_of (i : Z) : Z := FUTEX_ADDR_QUEUE_SIZE + OBJ_ALLOC_RECS_SIZE + (i - 1) * circular_queue_size.
Definition full (l : list Z) : bool := Z.of_nat (length l) =? CQUEUE_SIZE - 1.
Definition bell (i : Z) : Z := compose_ivpos_msix_reg CXL_IVPCI_VECTOR_PROC_DEATH_NOTIFY (u16 i).

(** A queue is not affected by what happens in another. *)
Lemma queue_frame g q q' m m' l :
  cq_frame q m m' -> q' + circular_queue_size <= q \/ q + circular_queue_size <= q' -> ring m q' l -> unlocked g m q' ->
  ring m' q' l /\ unlocked g m' q'.
Proof.
  intros F Hq (r & Hr & E1 & E2 & Hl & Hd) U.
  assert (E : forall a, q' <= a -> a + 8 <= q' + circular_queue_size -> load64 m' a = load64 m a).
  { intros a H1 H2. apply load64_ext. intros b Hb. apply F. lia. }
  cq_consts. split.
  - exists r. cq_consts. rewrite !E by lia. split_and!; [lia|lia|done|done|done|]. intros i x Hi.
    pose proof (Z.mod_pos_bound (r + Z.of_nat i) 128 ltac:(lia)). rewrite E by lia. by apply Hd.
  - unfold unlocked in *. cq_consts. rewrite E by lia. exact U.
Qed.

Section Report.
Context (g : granularity) (nr cpu p : Z) (dev : device).
Hypothesis Hm : 1 <= machine_id (dram dev).
Hypothesis Hid : get_process_identifier nr cpu (machine_id (dram dev)) = Some p.
Hypothesis Hp : is_proc p.

(** A queue that stays full is given up after the last try. *)
Lemma enqueue_retry_ok tries m q l msg :
  0 <= q -> ring m q l -> unlocked g m q -> 0 <= msg < 2 ^ 64 ->
  exists m', enqueue_retry g nr cpu tries m q msg (machine_id (dram dev)) = Ret (Some m') /\
    ring m' q (if full l then l else l ++ [msg]) /\ unlocked g m' q /\ cq_frame q m m'.
Proof using Hm Hid Hp.
  intros Hq R U Hmsg. revert m R U. induction tries as [|k IH]; intros m R U; cbn [enqueue_retry];
    destruct (enqueue_ok g nr cpu p _ Hm Hid Hp m q l msg Hq R (or_introl U)) as (m1 & ret & E & U1 & F1 & Hr);
    rewrite E; cbn [obind]; unfold full in *; destruct (Z.of_nat (length l) =? CQUEUE_SIZE - 1); destruct Hr as [-> R1];
    rewrite ?(u64_small msg) in R1 by lia; cbn [Z.eqb Pos.eqb].
  - exists m1. done.
  - exists m1. done.
  - destruct (IH m1 R1 U1) as (m' & E' & R' & U' & F'). exists m'. split; [exact E'|]. split; [done|]. split; [done|].
    intros b Hb. by rewrite F', F1.
  - exists m1. done.
Qed.

(** What the machines [l] get; [Q] is what their queues held. *)
Lemma notify_loop_ok l m ids (Q : Z -> list Z) :
  NoDup l -> (forall i, i ∈ l -> 1 <= i < 2 ^ 16) -> 0 <= ids < 2 ^ 64 ->
  (forall i, i ∈ l -> i <> machine_id (dram dev) -> ring m (death_queue_of i) (Q i) /\ unlocked g m (death_queue_of i)) ->
  exists m', notify_loop g nr cpu l m dev ids
    = Ret (Some (m', bell <$> filter (fun i => i <> machine_id (dram dev)) l,
                 (fun _ => ids) <$> filter (fun i => i = machine_id (dram dev)) l)) /\
    (forall i, i ∈ l -> i <> machine_id (dram dev) ->
       ring m' (death_queue_of i) (if full (Q i) then Q i else Q i ++ [ids]) /\ unlocked g m' (death_queue_of i)) /\
    forall j k, 1 <= j -> j ∉ l -> ring m (death_queue_of j) k -> unlocked g m (death_queue_of j) ->
      ring m' (death_queue_of j) k /\ unlocked g m' (death_queue_of j).
Proof using Hm Hid Hp.
  intros Hd Hb Hids. revert m. induction l as [|i l IH]; intros m HQ.
  { exists m. split; [done|]. split; [by intros ? ?%not_elem_of_nil|done]. }
  apply list.NoDup_cons in Hd as [Hi Hd]. assert (Hb' : forall j, j ∈ l -> 1 <= j < 2 ^ 16) by (intros; apply Hb; by right).
  pose proof (Hb i ltac:(by left)) as Hbi. cbn [notify_loop]. rewrite !filter_cons.
  destruct (Z.eqb_spec i (machine_id (dram dev))) as [E|E]; cbn [negb].
  - rewrite (decide_False (P := i <> _)) by tauto. rewrite (decide_True (P := i = _)) by done.
    destruct (IH Hd Hb' m) as (m' & E' & R' & F'); [intros j Hj; apply HQ; by right|]. rewrite E'. exists m'. split; [done|]. split.
    + intros j [->|Hj]%elem_of_cons Hne; [done|by apply R'].
    + intros j k H1 [_ Hj]%not_elem_of_cons. by apply F'.
  - rewrite (decide_True (P := i <> _)) by done. rewrite (decide_False (P := i = _)) by done.
    unfold send_to, peer_vcxl_procdeath_queue. destruct (Z.ltb_spec i 1); [lia|]. fold (death_queue_of i).
    destruct (HQ i ltac:(by left) E) as [Ri Ui].
    assert (Hsep : forall j, 1 <= j -> j <> i -> death_queue_of j + circular_queue_size <= death_queue_of i \/
      death_queue_of i + circular_queue_size <= death_queue_of j) by (intros j H1 H2; unfold death_queue_of; cq_consts; lia).
    destruct (enqueue_retry_ok 99 m (death_queue_of i) (Q i) ids) as (m1 & E1 & R1 & U1 & F1);
      [unfold death_queue_of, FUTEX_ADDR_QUEUE_SIZE, OBJ_ALLOC_RECS_SIZE; cq_consts; lia|done..|]. rewrite E1. cbn [obind].
    destruct (IH Hd Hb' m1) as (m' & E' & R' & F').
    { intros j Hj Hne. destruct (HQ j ltac:(by right) Hne) as [Rj Uj]. apply (queue_frame g (death_queue_of i) _ m); [done| |done|done].
      apply Hsep; [by apply Hb'|]. by intros ->. }
    rewrite E'. exists m'. split; [done|]. split.
    + intros j [->|Hj]%elem_of_cons Hne; [|by apply R']. apply F'; [lia|done|done|done].
    + intros j k H1 [Hji Hj]%not_elem_of_cons Rk Uk. destruct (queue_frame g (death_queue_of i) (death_queue_of j) m m1 k) as [? ?];
        [done|by apply Hsep|done|done|]. by apply F'.
Qed.
End Report.

(** Emptying the queue of a machine. *)
Lemma fetch_loop_ok g nr cpu p machine room m q l :
  1 <= machine -> get_process_identifier nr cpu machine = Some p -> is_proc p ->
  0 <= q -> ring m q l -> unlocked g m q -> (length l < room)%nat ->
  exists m', fetch_loop g nr cpu room true m q machine = Ret (Some (m', l)) /\ ring m' q [] /\ unlocked g m' q /\ cq_frame q m m'.
Proof.
  intros Hm Hid Hp Hq. revert m l. induction room as [|k IH]; intros m l R U Hl; [lia|]. cbn [fetch_loop].
  destruct (dequeue_ok g nr cpu p machine Hm Hid Hp m q l Hq R (or_introl U)) as (m1 & ret & x & E & U1 & F1 & Hr). rewrite E.
  cbn [obind]. destruct l as [|y l].
  - destruct Hr as [-> R1]. exists m1. done.
  - destruct Hr as (-> & -> & R1). cbn [length] in Hl. destruct (IH m1 l R1 U1 ltac:(lia)) as (m' & E' & R' & U' & F').
    cbn [Z.eqb negb bug_on]. unfold bug_on. rewrite E'. exists m'. split; [done|]. split; [done|]. split; [done|].
    intros b Hb. by rewrite F', F1.
Qed.

Lemma filter_self (a : Z) l : NoDup l -> a ∈ l -> filter (fun i => i = a) l = [a].
Proof.
  induction l as [|x l IH]; intros Hd Ha; [by apply not_elem_of_nil in Ha|]. apply list.NoDup_cons in Hd as [Hx Hd].
  rewrite filter_cons. destruct (decide (x = a)) as [->|Hne].
  - f_equal. clear IH Hd Ha. induction l as [|y l IH]; [done|]. apply not_elem_of_cons in Hx as [Hy Hx].
    rewrite filter_cons, decide_False by congruence. by apply IH.
  - apply IH; [done|]. by apply elem_of_cons in Ha as [<-|?].
Qed.


(** ** Robust lists *)

Section RobustSpec.
Context `{PlistHeader}.
Context (ROBUST_LIST_LIMIT : nat).

(** The entry waits for the dying task on the offset. *)
Definition dying (t : ftable) (offset curr q : Z) : Prop := q_key (the_q t q) = offset /\ q_task (the_q t q) = curr.

#[local] Instance dying_dec t offset curr q : Decision (dying t offset curr q).
Proof. unfold dying. apply _. Defined.

(** A task waits at most once on an offset. *)
Definition waits_once (t : ftable) (L : Z -> list Z) (curr : Z) : Prop :=
  forall hb q q', is_bucket hb -> q ∈ L hb -> q' ∈ L hb -> q_task (the_q t q) = curr -> q_task (the_q t q') = curr ->
    q_key (the_q t q) = q_key (the_q t q') -> q = q'.

(** Entries lose at most their lock. *)
Definition same_entries (t t' : ftable) : Prop :=
  forall x, q_key (the_q t' x) = q_key (the_q t x) /\ q_task (the_q t' x) = q_task (the_q t x).

Lemma death_loop_ok l t L P hb d offset curr :
  futex_wf t L P -> is_bucket hb -> L hb = d ++ l -> waits_once t L curr ->
  let t' := death_loop l t offset curr in
  futex_wf t' (<[hb := d ++ filter (fun q => ~ dying t offset curr q) l]> L) P /\ same_entries t t' /\ same_tasks t t'.
Proof.
  revert d. induction l as [|q l IH]; intros d W B El Ho; cbn [death_loop].
  { split; [|done]. apply (futex_wf_lists t L _ P); [done|]. intros hb' B'. split; [|done].
    destruct (decide (hb = hb')) as [<-|?]; [by rewrite fn_lookup_insert|by rewrite fn_lookup_insert_ne]. }
  rewrite filter_cons. destruct ((q_key (the_q t q) =? offset) && (q_task (the_q t q) =? curr)) eqn:Ed.
  - apply andb_prop in Ed as [Ek%Z.eqb_eq Et%Z.eqb_eq]. rewrite (decide_False (P := ~ dying t offset curr q)) by (unfold dying; tauto).
    destruct (unqueue_wf t L P hb d q l W B El) as (W1 & Q1 & T1). set (t1 := __vcxl_futex_unqueue t q) in *.
    pose proof (futex_wf_nodup _ _ _ _ W B) as Hd. rewrite El in Hd. apply list.NoDup_app in Hd as (_ & Hd & [Hq Hl]%list.NoDup_cons).
    assert (Hfl : filter (fun x => ~ dying t offset curr x) l = l).
    { apply filter_all. intros x Hx [Ekx Etx]. assert (q = x); [|by subst].
      apply (Ho hb); [done|rewrite El; apply elem_of_app; right; by left| |congruence..].
      rewrite El. apply elem_of_app. right. by right. }
    rewrite Hfl. split; [|split].
    + apply (futex_wf_ext t1); [done..|]. intros hb' x B' Hx. rewrite the_q_set. case_decide as E; [|done]. subst x. exfalso.
      destruct (decide (hb = hb')) as [<-|Hne].
      * rewrite fn_lookup_insert in Hx. apply elem_of_app in Hx as [Hx|Hx]; [|done]. apply (Hd q Hx). by left.
      * rewrite fn_lookup_insert_ne in Hx by done. apply (buckets_apart t L P hb hb' q W B B' Hne); [by right|].
        right. rewrite El. apply elem_of_app. right. by left.
    + intros x. rewrite the_q_set. case_decide as E; [subst x; by rewrite !Q1|by rewrite Q1].
    + exact T1.
  - rewrite (decide_True (P := ~ dying t offset curr q)).
    2:{ intros [Ek Et]. rewrite Ek, Et, !Z.eqb_refl in Ed. done. }
    specialize (IH (d ++ [q]) W B ltac:(by rewrite <- app_assoc) Ho). by rewrite <- app_assoc in IH.
Qed.

Lemma futex_death_ok t L P offset curr :
  futex_wf t L P -> (8 | offset) -> waits_once t L curr ->
  let hb := cxl_proc_hashbucket offset in
  let t' := fst (handle_futex_death t offset curr) in
  futex_wf t' (<[hb := filter (fun q => ~ dying t offset curr q) (L hb)]> L) P /\ same_entries t t' /\ same_tasks t t'.
Proof.
  intros W Ha Ho hb t'. pose proof (hashbucket_bound offset) as B. fold hb in B. unfold t', handle_futex_death. fold hb.
  rewrite (proj2 (Z.mod_divide offset 8 ltac:(lia)) Ha). cbn [Z.eqb negb].
  pose proof (death_loop_ok (L hb) t L P hb [] offset curr W B eq_refl Ho) as Hl.
  rewrite (for_each_spec _ _ _ (pl_nodes _ _ _ (fw_chain _ _ _ W hb B))).
  unfold vcxl_futex_hb_waiters_pending, truthy. destruct (Z.eqb_spec (the_waiters t hb) 0) as [E0|E0]; cbn [negb]; [|exact Hl].
  destruct (fw_waiters _ _ _ W hb B) as (Hp & Ew & _).
  assert (EL : L hb = []) by (destruct (L hb); [done|cbn [length] in Ew; lia]). rewrite EL in *. exact Hl.
Qed.

Lemma filter_split (A B C : Z -> Prop) `{!forall x, Decision (A x), !forall x, Decision (B x), !forall x, Decision (C x)} (l : list Z) :
  (forall x, x ∈ l -> C x <-> A x /\ B x) -> filter A (filter B l) = filter C l.
Proof.
  induction l as [|x l IH]; intros Hx; [done|]. pose proof (Hx x ltac:(by left)) as E.
  rewrite !(filter_cons _ x l). destruct (decide (B x)) as [HB|HB]; [rewrite filter_cons; destruct (decide (A x)) as [HA|HA]|].
  - rewrite decide_True by tauto. rewrite IH; [done|]. intros y Hy. apply Hx. by right.
  - rewrite decide_False by tauto. apply IH. intros y Hy. apply Hx. by right.
  - rewrite decide_False by tauto. apply IH. intros y Hy. apply Hx. by right.
Qed.

Definition deaths (t : ftable) (offsets : list Z) (curr : Z) : ftable :=
  fold_left (fun t o => fst (handle_futex_death t o curr)) offsets t.

Definition left_waiting (t : ftable) (offsets : list Z) (curr q : Z) : Prop :=
  ~ (q_task (the_q t q) = curr /\ q_key (the_q t q) ∈ offsets).

#[local] Instance left_waiting_dec t offsets curr q : Decision (left_waiting t offsets curr q).
Proof. unfold left_waiting. apply _. Defined.

Lemma deaths_ok offsets t L P curr :
  futex_wf t L P -> Forall (fun o => (8 | o)) offsets -> waits_once t L curr ->
  let t' := deaths t offsets curr in
  futex_wf t' (fun hb => filter (left_waiting t offsets curr) (L hb)) P /\ same_entries t t' /\ same_tasks t t'.
Proof.
  revert t L. induction offsets as [|o os IH]; intros t L W Ha Ho; cbn [deaths fold_left].
  { split; [|done]. apply (futex_wf_lists _ _ _ _ _ W). intros hb B. split; [|done].
    apply filter_all. intros x _ [_ Hx]. by apply not_elem_of_nil in Hx. }
  apply list.Forall_cons in Ha as [Hao Ha]. destruct (futex_death_ok t L P o curr W Hao Ho) as (W1 & S1 & T1).
  set (t1 := fst (handle_futex_death t o curr)) in *. fold (deaths t1 os curr).
  set (L1 := <[cxl_proc_hashbucket o := _]> L) in W1.
  assert (E1 : forall hb, is_bucket hb -> L1 hb = filter (fun q => ~ dying t o curr q) (L hb)).
  { intros hb B. unfold L1. destruct (decide (cxl_proc_hashbucket o = hb)) as [<-|Hne]; [by rewrite fn_lookup_insert|].
    rewrite fn_lookup_insert_ne by done. symmetry. apply filter_all.
    intros x Hx [Ek _]. destruct (fw_entry _ _ _ W hb x B Hx) as (_ & _ & Eh). congruence. }
  assert (Ho1 : waits_once t1 L1 curr).
  { intros hb q q' B Hq Hq'. rewrite E1 in Hq, Hq' by done. apply list_elem_of_filter in Hq as [_ Hq], Hq' as [_ Hq'].
    destruct (S1 q) as [-> ->], (S1 q') as [-> ->]. by apply (Ho hb). }
  destruct (IH t1 L1 W1 Ha Ho1) as (W2 & S2 & T2). split; [|split].
  - apply (futex_wf_lists _ _ _ _ _ W2). intros hb B. split; [|done]. rewrite E1 by done. symmetry. apply filter_split.
    intros x _. unfold left_waiting, dying. destruct (S1 x) as [-> ->]. rewrite elem_of_cons. tauto.
  - intros x. destruct (S1 x) as [<- <-]. apply S2.
  - destruct T1 as (A1 & A2 & A3), T2 as (B1 & B2 & B3). unfold same_tasks. split_and!; congruence.
Qed.

(** The user's list from [entry]: its entries with their offsets, back to [head]. *)
Fixpoint ulist (user : Z -> option Z) (head entry : Z) (l : list (Z * Z)) : Prop :=
  match l with
  | [] => entry = head
  | (a, o) :: l => entry = a /\ a <> head /\ user (a + 16) = Some o /\ exists next, user a = Some next /\ ulist user head next l
  end.

Lemma robust_loop_ok user head pending l entry limit t curr :
  ulist user head entry l -> (length l <= limit)%nat ->
  robust_loop limit user head pending entry t curr
  = (deaths t (snd <$> filter (fun x : Z * Z => fst x <> pending) l) curr, Some head).
Proof.
  revert entry limit t. induction l as [|[a o] l IH]; intros entry limit t Hu Hl.
  - cbn in Hu. subst entry. destruct limit; cbn [robust_loop]; by rewrite ?Z.eqb_refl.
  - destruct Hu as (-> & Hne & Eo & next & En & Hu). destruct limit as [|limit]; [cbn in Hl; lia|]. cbn [robust_loop].
    rewrite (proj2 (Z.eqb_neq _ _) Hne). unfold fetch_vcxl_robust_entry. rewrite En, Eo, filter_cons. cbn [fst].
    cbn [length] in Hl. destruct (Z.eqb_spec a pending) as [E|E]; cbn [negb].
    + rewrite decide_False by tauto. apply IH; [done|lia].
    + rewrite decide_True by done. rewrite IH; [done|done|lia].
Qed.

(** What the exit of a task does to the futex table, for a well-formed robust
    list of at most ROBUST_LIST_LIMIT entries.  Without a pending operation every
    waiter of the task on the offsets of the list, and no other, leaves its bucket;
    the tables stay consistent and nobody is woken.  With a pending operation the
    word that is looked up at the end is the one in the list head, not the one of
    the pending entry: that entry is skipped in the loop and never handled. *)
Theorem exit_robust_list_correct (user : Z -> option Z) (t : ftable) (L : Z -> list Z) (P : Z -> Z)
  (curr rh entry pending : Z) (l : list (Z * Z)) :
  futex_wf t L P -> waits_once t L curr -> rh <> 0 -> user rh = Some entry -> user (rh + 24) = Some pending ->
  ulist user rh entry l -> (length l <= ROBUST_LIST_LIMIT)%nat -> Forall (fun x : Z * Z => (8 | snd x)) l ->
  let t' := deaths t (snd <$> filter (fun x : Z * Z => fst x <> pending) l) curr in
  exit_robust_list ROBUST_LIST_LIMIT user t curr rh
    = (if pending =? 0 then t'
       else match user (rh + 16) with None => t' | Some o => fst (handle_futex_death t' o curr) end) /\
  (pending = 0 -> Forall (fun x => fst x <> 0) l ->
   futex_wf (exit_robust_list ROBUST_LIST_LIMIT user t curr rh)
     (fun hb => filter (left_waiting t (snd <$> l) curr) (L hb)) P /\
   same_tasks t (exit_robust_list ROBUST_LIST_LIMIT user t curr rh)).
Proof.
  intros W Ho Hrh E1 E2 Hu Hl Ha t'.
  assert (E : exit_robust_list ROBUST_LIST_LIMIT user t curr rh = (if pending =? 0 then t'
    else match user (rh + 16) with None => t' | Some o => fst (handle_futex_death t' o curr) end)).
  { unfold exit_robust_list, fetch_vcxl_robust_entry. rewrite (proj2 (Z.eqb_neq _ _) Hrh), E1, E2.
    rewrite (robust_loop_ok user rh pending l entry _ t curr Hu Hl). unfold truthy. by destruct (pending =? 0). }
  split; [exact E|]. intros -> Hnz. rewrite E. cbn [Z.eqb]. unfold t'.
  assert (El : filter (fun x : Z * Z => fst x <> 0) l = l).
  { apply filter_all. intros x Hx. rewrite Forall_forall in Hnz. by apply Hnz, list_elem_of_In. }
  rewrite El. destruct (deaths_ok (snd <$> l) t L P curr W) as (W' & _ & T'); [|done|done].
  apply list.Forall_fmap. exact Ha.
Qed.
End RobustSpec.

(** ** Examples *)

Definition empty_robust : robust := init_vcxl_task_robust_hashtable (Robust (HLinks ∅ ∅ ∅) ∅).
Local Notation empty_pool := (empty_chains TASK_ROBURST_TAB_SIZE).

(** The initialised table is the empty map. *)
Lemma empty_robust_table : table empty_robust empty_pool ∅.
Proof.
  split.
  - apply init_hrep.
  - intros i. apply empty_chains_dom.
  - intros task n x E. by rewrite lookup_empty in E.
  - by intros i n ?%empty_chains_on.
Qed.

Definition example_device : device := Device (MetaDram 4096 1048576 1) 3.

Lemma task_table_is_map_witness :
  exists r' P', do_register_process 1 empty_robust example_device 77 5000 9 = Ret (Some (r', 0)) /\
    table r' P' {[77 := (5000, RobustNode 77 0 example_device 9)]} /\
    do_set_robust_list 1 empty_robust 78 12 = Some (empty_robust, - EINVAL).
Proof.
  destruct (task_table_is_map 1 empty_robust empty_pool ∅ empty_robust_table (fun i l => empty_chains_short _ 1 i l)) as (_ & Hr & Hs & _).
  destruct (Hr example_device 77 5000 9 ltac:(discriminate) ltac:(discriminate) eq_refl) as (r' & P' & E & T).
  exists r', P'. split; [exact E|]. split; [exact T|exact (Hs 78 12)].
Defined.

Lemma register_example :
  exists r, table r (<[cxl_task_roburst_hashbucket 77 := [5000]]> empty_pool) {[77 := (5000, RobustNode 77 0 example_device 9)]}.
Proof.
  assert (El : empty_pool !! cxl_task_roburst_hashbucket 77 = Some []).
  { destruct (proj2 (empty_chains_dom TASK_ROBURST_TAB_SIZE (cxl_task_roburst_hashbucket 77))) as [l El]; [by vm_compute|].
    by rewrite El, (empty_chains_nil _ _ _ El). }
  eexists.
  exact (table_add empty_robust empty_pool ∅ 77 5000 (RobustNode 77 0 example_device 9) [] empty_robust_table eq_refl
    ltac:(discriminate) eq_refl El eq_refl).
Qed.

Definition example_deaths : bytes :=
  init_circular_queue CACHELINE_GRANULAR (init_circular_queue CACHELINE_GRANULAR ∅ (Some (death_queue_of 2))) (Some (death_queue_of 3)).

Lemma example_deaths_ok i :
  1 <= i <= 3 -> i <> 1 ->
  ring example_deaths (death_queue_of i) [] /\ unlocked CACHELINE_GRANULAR example_deaths (death_queue_of i) /\ full [] = false.
Proof.
  intros Hi Hne. assert (Hc : i = 2 \/ i = 3) by lia. clear Hi Hne.
  destruct (init_ring CACHELINE_GRANULAR ∅ (death_queue_of 2)) as (R2 & U2 & _); [by vm_compute|].
  destruct (init_ring CACHELINE_GRANULAR (init_circular_queue CACHELINE_GRANULAR ∅ (Some (death_queue_of 2))) (death_queue_of 3))
    as (R3 & U3 & F3); [by vm_compute|].
  destruct Hc as [-> | ->]; [|exact (conj R3 (conj U3 eq_refl))].
  destruct (queue_frame CACHELINE_GRANULAR (death_queue_of 3) (death_queue_of 2) _ _ [] F3
    (or_introl (ltac:(by vm_compute) : death_queue_of 2 + circular_queue_size <= death_queue_of 3)) R2 U2) as [R U].
  exact (conj R (conj U eq_refl)).
Qed.


(** Task 7 dies while its entry waits on 64, with one robust mutex there. *)
Definition example_user (a : Z) : option Z :=
  if a =? 8000 then Some 8100 else if a =? 8024 then Some 0 else if a =? 8100 then Some 8000 else if a =? 8116 then Some 64 else None.

Lemma exit_robust_list_correct_witness :
  exists t L, futex_wf t L (fun _ => 0) /\ L (cxl_proc_hashbucket 64) = [1000] /\
    futex_wf (exit_robust_list 2048 example_user t 7 8000) (fun hb => filter (left_waiting t [64] 7) (L hb)) (fun _ => 0) /\
    filter (left_waiting t [64] 7) (L (cxl_proc_hashbucket 64)) = [].
Proof.
  destruct example_queued as [tq [_ W Q _ _]]. cbn [app] in W. change (cw_offset example_wait) with 64 in *.
  set (L := <[cxl_proc_hashbucket 64 := [1000]]> (fun _ => [])) in W.
  assert (HL : forall hb q, q ∈ L hb -> q = 1000).
  { intros hb q. unfold L. destruct (decide (cxl_proc_hashbucket 64 = hb)) as [<-|?].
    - rewrite fn_lookup_insert. by intros ->%list_elem_of_singleton.
    - rewrite fn_lookup_insert_ne by done. by intros ?%not_elem_of_nil. }
  assert (Ho : waits_once tq L 7) by (intros hb q q' _ Hq Hq' _ _ _; by rewrite (HL hb q Hq), (HL hb q' Hq')).
  assert (E : L (cxl_proc_hashbucket 64) = [1000]) by (unfold L; by rewrite fn_lookup_insert).
  exists tq, L. split; [exact W|]. split; [exact E|].
  destruct (exit_robust_list_correct 2048 example_user tq L (fun _ => 0) 7 8000 8100 0 [(8100, 64)] W Ho ltac:(discriminate) eq_refl eq_refl)
    as [_ Hw].
  - split; [reflexivity|]. split; [discriminate|]. split; [reflexivity|]. exists 8000. split; reflexivity.
  - cbn. lia.
  - constructor; [by exists 8|constructor].
  - split; [apply (Hw eq_refl); constructor; [discriminate|constructor]|]. rewrite E, filter_cons, decide_False; [done|].
    intros Hn. apply Hn. rewrite Q. split; [reflexivity|by left].
Defined.
