(* ===== verification/MpscQueue.v ===== *)
(** The queue with many producers and one consumer: src/driver/src/mpsc_queue.c.

    First the operations as state passing, then a step relation in which the
    producers and the consumer interleave at every atomic access.  A producer
    reserves room in [count], takes a ticket from [head] and writes the slot of
    its ticket; the consumer, which alone uses [tail], exchanges the slot at
    [tail] with -1. *)
From Stdlib Require Import ZArith Lia Bool.
From stdpp Require Import base list gmap numbers functions relations.
From S2P Require Import Prelude.
Local Open Scope Z_scope.

Definition MPSC_QUEUE_SIZE : Z := 32.

(** A signed 64-bit integer with its wrap-around. *)
Definition s64 (x : Z) : Z := (x + 2 ^ 63) mod 2 ^ 64 - 2 ^ 63.

Record mpscq := Mpscq { mq_buffer : Z -> Z; mq_count : Z; mq_head : Z; mq_tail : Z }.

(** [None] is the null pointer. *)
Definition init_mpscq (q : option mpscq) : option mpscq :=
  match q with
  | None => None
  | Some _ => Some (Mpscq (fun _ => -1) 0 0 0)
  end.

(** ** The atomic accesses *)

Definition fetch_add_count (q : mpscq) (n : Z) : mpscq * Z :=
  (Mpscq (mq_buffer q) (s64 (mq_count q + n)) (mq_head q) (mq_tail q), mq_count q).
Definition fetch_add_head (q : mpscq) : mpscq * Z :=
  (Mpscq (mq_buffer q) (mq_count q) (s64 (mq_head q + 1)) (mq_tail q), mq_head q).
Definition xchg_buffer (q : mpscq) (i v : Z) : mpscq * Z :=
  (Mpscq (<[i := v]> (mq_buffer q)) (mq_count q) (mq_head q) (mq_tail q), mq_buffer q i).

(** [%] on a signed integer. *)
Definition mq_slot (head : Z) : Z := Z.rem head MPSC_QUEUE_SIZE.

(** [if (++q->tail >= MPSC_QUEUE_SIZE) q->tail = 0] *)
Definition advance (q : mpscq) : mpscq :=
  let tail := mq_tail q + 1 in
  Mpscq (mq_buffer q) (mq_count q) (mq_head q) (if tail >=? MPSC_QUEUE_SIZE then 0 else tail).

(** ** The operations *)

Definition mpscq_enqueue (q : mpscq) (data : Z) : mpscq * bool :=
  let (q, count) := fetch_add_count q 1 in
  if count >=? MPSC_QUEUE_SIZE then let (q, _) := fetch_add_count q (-1) in (q, false)
  else
    let (q, head) := fetch_add_head q in
    let (q, _) := xchg_buffer q (mq_slot head) data in
    (q, true).

Definition mpscq_dequeue (q : mpscq) : mpscq * Z :=
  let (q, ret) := xchg_buffer q (mq_tail q) (-1) in
  if ret =? -1 then (q, -1)
  else
    let q := advance q in
    let (q, _) := fetch_add_count q (-1) in
    (q, ret).

Definition mpscq_count (q : mpscq) : Z := mq_count q.
Definition mpscq_capacity (q : mpscq) : Z := MPSC_QUEUE_SIZE.

(** ** Interleaving *)

Inductive ppc := PIdle | PCounted (data : Z) | PFull | PTicket (ticket data : Z).
Inductive cpc := CIdle | CTaken (ret : Z).

(** [tickets] lists the data in the order in which tickets were drawn, [got] what
    the consumer has taken. *)
Record mstate := MState { mq : mpscq; prods : gmap Z ppc; consumer : cpc; tickets : list Z; got : list Z }.

Inductive mstep (s : mstate) : mstate -> Prop :=
  | P_count p data : prods s !! p = Some PIdle -> data <> -1 ->
      mstep s (MState (fst (fetch_add_count (mq s) 1))
                 (<[p := if snd (fetch_add_count (mq s) 1) >=? MPSC_QUEUE_SIZE then PFull else PCounted data]> (prods s))
                 (consumer s) (tickets s) (got s))
  | P_undo p : prods s !! p = Some PFull ->
      mstep s (MState (fst (fetch_add_count (mq s) (-1))) (<[p := PIdle]> (prods s)) (consumer s) (tickets s) (got s))
  | P_ticket p data : prods s !! p = Some (PCounted data) ->
      mstep s (MState (fst (fetch_add_head (mq s))) (<[p := PTicket (snd (fetch_add_head (mq s))) data]> (prods s))
                 (consumer s) (tickets s ++ [data]) (got s))
  | P_write p ticket data : prods s !! p = Some (PTicket ticket data) ->
      mstep s (MState (fst (xchg_buffer (mq s) (mq_slot ticket) data)) (<[p := PIdle]> (prods s)) (consumer s) (tickets s) (got s))
  | C_take ret : consumer s = CIdle -> ret = snd (xchg_buffer (mq s) (mq_tail (mq s)) (-1)) -> ret <> -1 ->
      mstep s (MState (advance (fst (xchg_buffer (mq s) (mq_tail (mq s)) (-1)))) (prods s) (CTaken ret) (tickets s) (got s ++ [ret]))
  | C_empty : consumer s = CIdle -> snd (xchg_buffer (mq s) (mq_tail (mq s)) (-1)) = -1 ->
      mstep s (MState (fst (xchg_buffer (mq s) (mq_tail (mq s)) (-1))) (prods s) CIdle (tickets s) (got s))
  | C_done ret : consumer s = CTaken ret ->
      mstep s (MState (fst (fetch_add_count (mq s) (-1))) (prods s) CIdle (tickets s) (got s)).

(** ** The invariant *)

Definition reserved (pc : ppc) : Prop := match pc with PCounted _ => True | _ => False end.
Definition refused (pc : ppc) : Prop := match pc with PFull => True | _ => False end.
#[global] Instance reserved_dec pc : Decision (reserved pc).
Proof. destruct pc; cbn; apply _. Defined.
#[global] Instance refused_dec pc : Decision (refused pc).
Proof. destruct pc; cbn; apply _. Defined.

Definition writing (s : mstate) (i : Z) : Prop := exists p data, prods s !! p = Some (PTicket i data).
Definition taken (s : mstate) : Z := Z.of_nat (length (got s)).
Definition drawn (s : mstate) : Z := Z.of_nat (length (tickets s)).
Definition removing (s : mstate) : Z := match consumer s with CIdle => 0 | CTaken _ => 1 end.

Record minv (s : mstate) : Prop := {
  mi_head : mq_head (mq s) = drawn s;
  mi_tail : mq_tail (mq s) = taken s mod MPSC_QUEUE_SIZE;
  mi_count : mq_count (mq s) = drawn s - taken s + removing s + map_count reserved (prods s) + map_count refused (prods s);
  mi_room : drawn s - taken s + removing s + map_count reserved (prods s) <= MPSC_QUEUE_SIZE;
  mi_got : got s = take (length (got s)) (tickets s);
  mi_le : taken s <= drawn s;
  mi_data : Forall (fun d => d <> -1) (tickets s) /\ forall p data, prods s !! p = Some (PCounted data) -> data <> -1;
  mi_ticket : forall p i data, prods s !! p = Some (PTicket i data) ->
    taken s <= i < drawn s /\ tickets s !! Z.to_nat i = Some data;
  mi_once : forall p p' i data data', prods s !! p = Some (PTicket i data) -> prods s !! p' = Some (PTicket i data') -> p = p';
  mi_writing : forall i, writing s i -> mq_buffer (mq s) (i mod MPSC_QUEUE_SIZE) = -1;
  mi_written : forall i d, taken s <= i < drawn s -> ~ writing s i -> tickets s !! Z.to_nat i = Some d ->
    mq_buffer (mq s) (i mod MPSC_QUEUE_SIZE) = d;
  mi_free : forall j, 0 <= j < MPSC_QUEUE_SIZE -> (forall i, taken s <= i < drawn s -> i mod MPSC_QUEUE_SIZE <> j) ->
    mq_buffer (mq s) j = -1;
  mi_size : Z.of_nat (size (prods s)) < 2 ^ 61 }.

Lemma s64_fix x : - 2 ^ 63 <= x < 2 ^ 63 -> s64 x = x.
Proof. intros Hx. unfold s64. rewrite Z.mod_small by lia. lia. Qed.

(** Tickets that are outstanding together have different slots. *)
Lemma slot_inj s i j :
  minv s -> taken s <= i < drawn s -> taken s <= j < drawn s -> i mod MPSC_QUEUE_SIZE = j mod MPSC_QUEUE_SIZE -> i = j.
Proof.
  intros I Hi Hj E. pose proof (mi_room _ I). pose proof (map_count_nonneg reserved (prods s)).
  assert (0 <= removing s) by (unfold removing; destruct (consumer s); lia). change MPSC_QUEUE_SIZE with 32 in *.
  pose proof (Z.div_mod i 32 ltac:(lia)). pose proof (Z.div_mod j 32 ltac:(lia)). nia.
Qed.

Lemma counts_small s :
  minv s -> 0 <= map_count reserved (prods s) < 2 ^ 61 /\ 0 <= map_count refused (prods s) < 2 ^ 61 /\
  0 <= removing s <= 1 /\ - 2 ^ 62 <= mq_count (mq s) < 2 ^ 63 - 1 /\ 0 <= drawn s - taken s <= 32.
Proof.
  intros I. pose proof (mi_count _ I). pose proof (mi_room _ I). pose proof (mi_size _ I). pose proof (mi_le _ I).
  pose proof (map_count_le reserved (prods s)). pose proof (map_count_le refused (prods s)).
  pose proof (map_count_nonneg reserved (prods s)). pose proof (map_count_nonneg refused (prods s)).
  assert (0 <= removing s <= 1) by (unfold removing; destruct (consumer s); lia). change MPSC_QUEUE_SIZE with 32 in *. lia.
Qed.

(** A step that moves no ticket and leaves the buffer as it is. *)
Lemma minv_frame s q' prods' c' :
  minv s -> (forall j, mq_buffer q' j = mq_buffer (mq s) j) -> mq_head q' = mq_head (mq s) -> mq_tail q' = mq_tail (mq s) ->
  (forall p i d, prods' !! p = Some (PTicket i d) <-> prods s !! p = Some (PTicket i d)) ->
  (forall p d, prods' !! p = Some (PCounted d) -> d <> -1) -> size prods' = size (prods s) ->
  let s' := MState q' prods' c' (tickets s) (got s) in
  mq_count q' = drawn s - taken s + removing s' + map_count reserved prods' + map_count refused prods' ->
  drawn s - taken s + removing s' + map_count reserved prods' <= MPSC_QUEUE_SIZE -> minv s'.
Proof.
  intros [Ih It Ic Ir Ig Il Id Itk Io Iw Iwr If Is] Hb Hh Ht Hp Hd Hs s' Hc Hr.
  assert (Hw : forall i, writing s' i <-> writing s i).
  { intros i. unfold writing, s'. cbn [prods]. setoid_rewrite Hp. done. }
  split; unfold s' in *; cbn [mq prods consumer tickets got] in *; try done.
  - rewrite Hh. exact Ih.
  - rewrite Ht. exact It.
  - by split; [apply Id|].
  - intros p i d E%Hp. by apply (Itk p).
  - intros p p' i d d' E%Hp E'%Hp. by apply (Io p p' i d d').
  - intros i Hi%Hw. rewrite Hb. by apply Iw.
  - intros i d Hi Hn. rewrite Hb. apply Iwr; [done|]. by rewrite <- Hw.
  - intros j Hj Hn. rewrite Hb. by apply If.
  - by rewrite Hs.
Qed.

Lemma ticket_insert (m : gmap Z ppc) p pc pc' :
  m !! p = Some pc -> (forall i d, pc <> PTicket i d) -> (forall i d, pc' <> PTicket i d) ->
  forall p' i d, <[p := pc']> m !! p' = Some (PTicket i d) <-> m !! p' = Some (PTicket i d).
Proof.
  intros E H1 H2 p' i d. destruct (decide (p = p')) as [<-|Hne]; [|by rewrite lookup_insert_ne].
  rewrite lookup_insert_eq, E. split; intros [= Ed]; [by destruct (H2 i d)|by destruct (H1 i d)].
Qed.

Lemma reserved_insert s p pc' :
  minv s -> (forall d, pc' = PCounted d -> d <> -1) -> forall p' d, <[p := pc']> (prods s) !! p' = Some (PCounted d) -> d <> -1.
Proof.
  intros I Hd p' d. destruct (decide (p = p')) as [<-|Hne].
  - rewrite lookup_insert_eq. intros [= E]. by apply Hd.
  - rewrite lookup_insert_ne by done. apply (mi_data _ I).
Qed.

Lemma size_insert (m : gmap Z ppc) p pc pc' : m !! p = Some pc -> size (<[p := pc']> m) = size m.
Proof. intros E. apply map_size_insert_Some. by eexists. Qed.

(** Decides which counts a program counter is in. *)
Ltac counts := cbn [reserved refused]; repeat case_decide; try tauto; change MPSC_QUEUE_SIZE with 32 in *; lia.

Lemma minv_enter s p data :
  minv s -> prods s !! p = Some PIdle -> data <> -1 ->
  minv (MState (fst (fetch_add_count (mq s) 1))
          (<[p := if snd (fetch_add_count (mq s) 1) >=? MPSC_QUEUE_SIZE then PFull else PCounted data]> (prods s))
          (consumer s) (tickets s) (got s)).
Proof.
  intros I E Hd. cbn [snd fst fetch_add_count]. destruct (counts_small s I) as (B1 & B2 & B3 & B4 & B5).
  pose proof (mi_count _ I) as Hc. pose proof (mi_room _ I) as Hr. change MPSC_QUEUE_SIZE with 32 in *.
  rewrite Z.geb_leb. set (pc' := if 32 <=? mq_count (mq s) then PFull else PCounted data).
  assert (Hpc : forall i d, pc' <> PTicket i d) by (intros i d; unfold pc'; by destruct (32 <=? mq_count (mq s))).
  apply minv_frame; [done|done|done|done|by eapply ticket_insert| |by eapply size_insert|..].
  - apply reserved_insert; [done|]. intros d. unfold pc'. destruct (32 <=? mq_count (mq s)); congruence.
  - change (removing (MState _ _ (consumer s) _ _)) with (removing s). cbn [fst mq_count]. rewrite s64_fix by lia.
    rewrite !(map_count_insert _ _ p PIdle pc' E). unfold pc'. destruct (Z.leb_spec 32 (mq_count (mq s))); counts.
  - change (removing (MState _ _ (consumer s) _ _)) with (removing s). rewrite (map_count_insert _ _ p PIdle pc' E).
    unfold pc'. destruct (Z.leb_spec 32 (mq_count (mq s))); counts.
Qed.

Lemma minv_undo s p :
  minv s -> prods s !! p = Some PFull ->
  minv (MState (fst (fetch_add_count (mq s) (-1))) (<[p := PIdle]> (prods s)) (consumer s) (tickets s) (got s)).
Proof.
  intros I E. destruct (counts_small s I) as (B1 & B2 & B3 & B4 & B5). pose proof (mi_count _ I) as Hc. pose proof (mi_room _ I) as Hr.
  apply minv_frame; [done|done|done|done|by eapply ticket_insert|by apply reserved_insert|by eapply size_insert|..];
    change (removing (MState _ _ (consumer s) _ _)) with (removing s).
  - cbn [fst fetch_add_count mq_count]. rewrite s64_fix by lia. rewrite !(map_count_insert _ _ p PFull PIdle E). counts.
  - rewrite (map_count_insert _ _ p PFull PIdle E). counts.
Qed.

Lemma minv_done s ret :
  minv s -> consumer s = CTaken ret ->
  minv (MState (fst (fetch_add_count (mq s) (-1))) (prods s) CIdle (tickets s) (got s)).
Proof.
  intros I E. destruct (counts_small s I) as (B1 & B2 & B3 & B4 & B5). pose proof (mi_count _ I) as Hc. pose proof (mi_room _ I) as Hr.
  assert (removing s = 1) as E1 by (unfold removing; by rewrite E).
  apply minv_frame; [done|done|done|done|done|apply (mi_data _ I)|done|..]; change (removing (MState _ _ CIdle _ _)) with 0.
  - cbn [fst fetch_add_count mq_count]. rewrite s64_fix by lia. lia.
  - lia.
Qed.

Lemma minv_empty s :
  minv s -> consumer s = CIdle -> mq_buffer (mq s) (mq_tail (mq s)) = -1 ->
  minv (MState (fst (xchg_buffer (mq s) (mq_tail (mq s)) (-1))) (prods s) CIdle (tickets s) (got s)).
Proof.
  intros I E Eb. pose proof (mi_count _ I) as Hc. pose proof (mi_room _ I) as Hr.
  assert (removing s = 0) as E1 by (unfold removing; by rewrite E).
  apply minv_frame; [done| |done|done|done|apply (mi_data _ I)|done|..]; change (removing (MState _ _ CIdle _ _)) with 0; [|cbn; lia|lia].
  intros j. cbn. destruct (decide (mq_tail (mq s) = j)) as [<-|Hne]; [by rewrite fn_lookup_insert|by rewrite fn_lookup_insert_ne].
Qed.

Lemma minv_ticket s p data :
  minv s -> prods s !! p = Some (PCounted data) -> drawn s + 1 < 2 ^ 63 ->
  minv (MState (fst (fetch_add_head (mq s))) (<[p := PTicket (snd (fetch_add_head (mq s))) data]> (prods s))
          (consumer s) (tickets s ++ [data]) (got s)).
Proof.
  intros I E Hb. destruct (counts_small s I) as (B1 & B2 & B3 & B4 & B5). pose proof (mi_room _ I) as Hr.
  pose proof (map_count_delete reserved _ p _ E) as Hres. rewrite decide_True in Hres by done.
  pose proof (map_count_nonneg reserved (delete p (prods s))). change MPSC_QUEUE_SIZE with 32 in *.
  assert (Hd0 : 0 <= taken s) by (unfold taken; lia).
  destruct I as [Ih It Ic Ir Ig Il Id Itk Io Iw Iwr If Is]. cbn [fst snd fetch_add_head]. rewrite Ih. set (s' := MState _ _ _ _ _).
  assert (Ed : drawn s' = drawn s + 1) by (unfold drawn, s'; cbn [tickets]; rewrite length_app; cbn; lia).
  assert (Et : taken s' = taken s) by done. assert (Er : removing s' = removing s) by done.
  assert (Hw : forall i, writing s' i <-> i = drawn s \/ writing s i).
  { intros i. unfold writing, s'. cbn [prods]. split.
    - intros (p' & d & E'). destruct (decide (p = p')) as [<-|Hne]; [rewrite lookup_insert_eq in E'; injection E' as <- <-; by left|].
      rewrite lookup_insert_ne in E' by done. right. eauto.
    - intros [->|(p' & d & E')]; [exists p, data; by rewrite lookup_insert_eq|]. exists p', d. rewrite lookup_insert_ne; [done|]. congruence. }
  assert (Hlt : forall i d, tickets s !! Z.to_nat i = Some d -> 0 <= i -> i < drawn s).
  { intros i d Hi%lookup_lt_Some H0. unfold drawn. lia. }
  split; rewrite ?Ed, ?Et, ?Er; cbn [s' mq prods consumer tickets got mq_head mq_tail mq_count mq_buffer].
  - apply s64_fix. lia.
  - exact It.
  - rewrite !(map_count_insert _ _ p _ _ E). counts.
  - rewrite (map_count_insert _ _ p _ _ E). counts.
  - rewrite take_app_le by (unfold taken, drawn in Il; lia). exact Ig.
  - lia.
  - split; [apply Forall_app; split; [apply Id|constructor; [by eapply (proj2 Id)|constructor]]|].
    intros p' d. destruct (decide (p = p')) as [<-|Hne]; [by rewrite lookup_insert_eq|]. rewrite lookup_insert_ne by done. apply Id.
  - intros p' i d. destruct (decide (p = p')) as [<-|Hne].
    + rewrite lookup_insert_eq. intros [= <- <-]. split; [lia|]. unfold drawn. rewrite Nat2Z.id. by rewrite lookup_app_r, Nat.sub_diag by lia.
    + rewrite lookup_insert_ne by done. intros E'. destruct (Itk p' i d E') as [? ?]. split; [lia|]. by apply lookup_app_l_Some.
  - intros p1 p2 i d1 d2. destruct (decide (p = p1)) as [<-|H1], (decide (p = p2)) as [<-|H2];
      rewrite ?lookup_insert_eq, ?lookup_insert_ne by done; [done| | |by apply Io].
    + intros [= <- <-] E2. destruct (Itk p2 _ _ E2). lia.
    + intros E1 [= <- <-]. destruct (Itk p1 _ _ E1). lia.
  - intros i [->|Hi]%Hw; [|by apply Iw]. apply If; [apply Z.mod_pos_bound; lia|]. intros i Hi E'.
    change MPSC_QUEUE_SIZE with 32 in *. pose proof (Z.div_mod i 32 ltac:(lia)). pose proof (Z.div_mod (drawn s) 32 ltac:(lia)). nia.
  - intros i d Hi Hn Hd. rewrite Hw in Hn. apply Iwr; [lia|tauto|]. assert (i < drawn s) by (destruct (Z.eq_dec i (drawn s)); [tauto|lia]).
    rewrite lookup_app_l in Hd; [done|]. unfold drawn in *. lia.
  - intros j Hj Hn. apply If; [done|]. intros i Hi. apply Hn. lia.
  - rewrite (size_insert _ p _ _ E). exact Is.
Qed.

Lemma slot_mod i : 0 <= i -> mq_slot i = i mod MPSC_QUEUE_SIZE.
Proof. intros Hi. apply Z.rem_mod_nonneg; [done|reflexivity]. Qed.

Lemma minv_write s p ticket data :
  minv s -> prods s !! p = Some (PTicket ticket data) ->
  minv (MState (fst (xchg_buffer (mq s) (mq_slot ticket) data)) (<[p := PIdle]> (prods s)) (consumer s) (tickets s) (got s)).
Proof.
  intros I E. pose proof (slot_inj s) as Hinj. specialize (fun i j => Hinj i j I).
  destruct I as [Ih It Ic Ir Ig Il Id Itk Io Iw Iwr If Is]. destruct (Itk p _ _ E) as [Hti Htd].
  assert (0 <= taken s) by (unfold taken; lia). rewrite slot_mod by lia. set (s' := MState _ _ _ _ _).
  assert (Ed : drawn s' = drawn s) by done. assert (Et : taken s' = taken s) by done. assert (Er : removing s' = removing s) by done.
  assert (Hw : forall i, writing s' i <-> i <> ticket /\ writing s i).
  { intros i. unfold writing, s'. cbn [prods]. split.
    - intros (p' & d & E'). destruct (decide (p = p')) as [<-|Hne]; [by rewrite lookup_insert_eq in E'|].
      rewrite lookup_insert_ne in E' by done. split; [|eauto]. intros ->. apply Hne. by apply (Io p p' ticket data d).
    - intros (Hne & p' & d & E'). exists p', d. rewrite lookup_insert_ne; [done|]. congruence. }
  assert (Hslot : forall i, taken s <= i < drawn s -> i <> ticket ->
    (<[ticket mod MPSC_QUEUE_SIZE := data]> (mq_buffer (mq s))) (i mod MPSC_QUEUE_SIZE) = mq_buffer (mq s) (i mod MPSC_QUEUE_SIZE)).
  { intros i Hi Hne. apply fn_lookup_insert_ne. intros Es. apply Hne. by apply Hinj. }
  split; rewrite ?Ed, ?Et, ?Er; cbn [s' fst xchg_buffer mq prods consumer tickets got mq_head mq_tail mq_count mq_buffer]; try done.
  - rewrite !(map_count_insert _ _ p _ _ E). counts.
  - rewrite (map_count_insert _ _ p _ _ E). counts.
  - split; [apply Id|]. intros p' d. destruct (decide (p = p')) as [<-|Hne]; [by rewrite lookup_insert_eq|].
    rewrite lookup_insert_ne by done. apply Id.
  - intros p' i d. destruct (decide (p = p')) as [<-|Hne]; [by rewrite lookup_insert_eq|]. rewrite lookup_insert_ne by done. apply Itk.
  - intros p1 p2 i d1 d2. destruct (decide (p = p1)) as [<-|H1], (decide (p = p2)) as [<-|H2];
      rewrite ?lookup_insert_eq, ?lookup_insert_ne by done; [done|done|done|by apply Io].
  - intros i [Hne Hi]%Hw. rewrite Hslot; [by apply Iw| |done]. destruct Hi as (p' & d & E'). exact (proj1 (Itk p' i d E')).
  - intros i d Hi Hn Hd. destruct (Z.eq_dec i ticket) as [->|Hne]; [rewrite fn_lookup_insert; congruence|].
    rewrite Hslot by done. apply Iwr; [done| |done]. intros Hi'. apply Hn, Hw. done.
  - intros j Hj Hn. rewrite fn_lookup_insert_ne by (by apply Hn). by apply If.
  - rewrite (size_insert _ p _ _ E). exact Is.
Qed.

(** The consumer takes the oldest ticket, whose producer has written. *)
Lemma take_oldest s ret :
  minv s -> ret = mq_buffer (mq s) (mq_tail (mq s)) -> ret <> -1 ->
  taken s < drawn s /\ ~ writing s (taken s) /\ tickets s !! length (got s) = Some ret.
Proof.
  intros I Er Hr. rewrite (mi_tail _ I) in Er. pose proof (mi_le _ I).
  assert (Hlt : taken s < drawn s).
  { destruct (Z.eq_dec (taken s) (drawn s)) as [E|]; [|lia]. exfalso. apply Hr. rewrite Er. apply (mi_free _ I).
    - apply Z.mod_pos_bound. reflexivity.
    - intros i Hi. lia. }
  assert (Hw : ~ writing s (taken s)) by (intros Hw; apply Hr; rewrite Er; by apply (mi_writing _ I)).
  split; [done|]. split; [done|]. destruct (lookup_lt_is_Some_2 (tickets s) (length (got s))) as [d Ed]; [unfold taken, drawn in Hlt; lia|].
  rewrite Ed, Er. f_equal. symmetry. apply (mi_written _ I); [lia|done|]. unfold taken. by rewrite Nat2Z.id.
Qed.

Lemma minv_take s ret :
  minv s -> consumer s = CIdle -> ret = mq_buffer (mq s) (mq_tail (mq s)) -> ret <> -1 ->
  minv (MState (advance (fst (xchg_buffer (mq s) (mq_tail (mq s)) (-1)))) (prods s) (CTaken ret) (tickets s) (got s ++ [ret])).
Proof.
  intros I Ec Er Hr. destruct (take_oldest s ret I Er Hr) as (Hlt & Hnw & Hret). pose proof (slot_inj s) as Hinj.
  specialize (fun i j => Hinj i j I). assert (removing s = 0) as E0 by (unfold removing; by rewrite Ec).
  destruct I as [Ih It Ic Ir Ig Il Id Itk Io Iw Iwr If Is]. rewrite It. set (s' := MState _ _ _ _ _).
  assert (Ed : drawn s' = drawn s) by done. assert (Er' : removing s' = 1) by done.
  assert (Et : taken s' = taken s + 1) by (unfold taken, s'; cbn [got]; rewrite length_app; cbn; lia).
  assert (Hw : forall i, writing s' i <-> writing s i) by done.
  assert (Hslot : forall i, taken s + 1 <= i < drawn s ->
    (<[taken s mod MPSC_QUEUE_SIZE := -1]> (mq_buffer (mq s))) (i mod MPSC_QUEUE_SIZE) = mq_buffer (mq s) (i mod MPSC_QUEUE_SIZE)).
  { intros i Hi. apply fn_lookup_insert_ne. intros Es. assert (taken s = i) by (apply Hinj; [lia|lia|done]). lia. }
  split; rewrite ?Ed, ?Et, ?Er'; cbn [s' advance fst xchg_buffer mq prods consumer tickets got mq_head mq_tail mq_count mq_buffer]; try done.
  - rewrite It, Z.geb_leb. change MPSC_QUEUE_SIZE with 32. assert (0 <= taken s) by (unfold taken; lia).
    pose proof (Z.mod_pos_bound (taken s) 32 ltac:(lia)). rewrite <- (Z.add_mod_idemp_l (taken s) 1 32) by lia.
    destruct (Z.leb_spec 32 (taken s mod 32 + 1)).
    + replace (taken s mod 32 + 1) with 32 by lia. reflexivity.
    + symmetry. apply Z.mod_small. lia.
  - lia.
  - lia.
  - rewrite length_app, Nat.add_1_r, (take_S_r _ _ ret) by done. by rewrite <- Ig.
  - lia.
  - intros p i d E. destruct (Itk p i d E) as [Hi Hd]. split; [|done].
    assert (i <> taken s) by (intros ->; apply Hnw; by exists p, d). lia.
  - intros i Hi. destruct Hi as (p & d & E). destruct (Itk p i d E) as [Hi Hd].
    assert (i <> taken s) by (intros ->; apply Hnw; by exists p, d). rewrite Hslot by lia. apply Iw. by exists p, d.
  - intros i d Hi Hn Hd. rewrite Hslot by done. apply Iwr; [lia|done|done].
  - intros j Hj Hn. destruct (decide (taken s mod MPSC_QUEUE_SIZE = j)) as [<-|Hne]; [by rewrite fn_lookup_insert|].
    rewrite fn_lookup_insert_ne by done. apply If; [done|]. intros i Hi. destruct (Z.eq_dec i (taken s)) as [->|]; [done|]. apply Hn. lia.
Qed.

Lemma tickets_grow s s' : mstep s s' -> drawn s <= drawn s'.
Proof. intros St. destruct St; unfold drawn; cbn [tickets]; rewrite ?length_app; lia. Qed.

Lemma minv_step s s' : minv s -> mstep s s' -> drawn s' < 2 ^ 63 -> minv s'.
Proof.
  intros I St Hb. destruct St as [p data E Hd|p E|p data E|p ticket data E|ret E Er Hr|E Er|ret E].
  - by apply minv_enter.
  - by apply minv_undo.
  - apply minv_ticket; [done|done|]. unfold drawn in *. cbn [tickets] in Hb. rewrite length_app in Hb. cbn in Hb. lia.
  - by apply minv_write.
  - by apply minv_take.
  - by apply minv_empty.
  - by eapply minv_done.
Qed.

(** ** Theorems *)

(** An initialised queue and idle producers. *)
Record minitial (s : mstate) : Prop := {
  mn_queue : Some (mq s) = init_mpscq (Some (mq s));
  mn_prods : forall p pc, prods s !! p = Some pc -> pc = PIdle;
  mn_cons : consumer s = CIdle;
  mn_ghost : tickets s = [] /\ got s = [];
  mn_size : Z.of_nat (size (prods s)) < 2 ^ 61 }.

Lemma count_zero (P : ppc -> Prop) `{!forall x, Decision (P x)} (m : gmap Z ppc) :
  (forall p pc, m !! p = Some pc -> ~ P pc) -> map_count P m = 0.
Proof.
  intros Hm. unfold map_count. assert (filter (fun kv : Z * ppc => P (snd kv)) m = ∅) as ->; [|by rewrite map_size_empty].
  apply map_empty. intros p. apply map_lookup_filter_None. right. intros pc E. cbn [snd]. by apply (Hm p pc).
Qed.

Lemma minv_initial s : minitial s -> minv s.
Proof.
  intros [Eq Ep Ec [Et Eg] Es]. injection Eq as Eq.
  assert (Hr : map_count reserved (prods s) = 0) by (apply count_zero; intros p pc E; rewrite (Ep p pc E); cbn; tauto).
  assert (Hf : map_count refused (prods s) = 0) by (apply count_zero; intros p pc E; rewrite (Ep p pc E); cbn; tauto).
  assert (Hpt : forall p i d, prods s !! p <> Some (PTicket i d)) by (intros p i d E%Ep; done).
  split; unfold drawn, taken, removing; rewrite ?Eq, ?Ec, ?Et, ?Eg, ?Hr, ?Hf; cbn; try done.
  - split; [constructor|]. intros p d E%Ep. done.
  - intros p i d E. by destruct (Hpt p i d).
  - intros p p' i d d' E. by destruct (Hpt p i d).
Qed.

Lemma reachable_minv s0 s : minitial s0 -> rtc mstep s0 s -> drawn s < 2 ^ 63 -> minv s.
Proof.
  intros I R. apply minv_initial in I. revert I. induction R as [s|s s1 s2 St R IH]; intros I Hb; [done|].
  apply IH; [|done]. apply (minv_step s); [done|done|]. assert (drawn s1 <= drawn s2); [|lia].
  clear - R. induction R as [|s1 s' s2 St R IH]; [lia|]. apply tickets_grow in St. lia.
Qed.

(** C14. The queue loses, duplicates and reorders nothing, in every interleaving of
    its producers and its consumer (up to 2^63 elements, the range of the ticket):
    what the consumer has taken is a prefix of what the producers enqueued, in the
    order of their tickets; at most 32 elements are on their way; the slot that a
    producer is about to write is empty, so it overwrites nothing; and an element
    stays in its slot from the write until it is taken. *)
Theorem mpscq_fifo (s0 s : mstate) :
  minitial s0 -> rtc mstep s0 s -> drawn s < 2 ^ 63 ->
  got s = take (length (got s)) (tickets s) /\ taken s <= drawn s <= taken s + MPSC_QUEUE_SIZE /\
  (forall p i data, prods s !! p = Some (PTicket i data) -> mq_buffer (mq s) (mq_slot i) = -1) /\
  (forall i data, taken s <= i < drawn s -> ~ writing s i -> tickets s !! Z.to_nat i = Some data ->
     mq_buffer (mq s) (mq_slot i) = data).
Proof.
  intros I0 R Hb. pose proof (reachable_minv s0 s I0 R Hb) as I. destruct (counts_small s I) as (_ & _ & _ & _ & B).
  assert (0 <= taken s) by (unfold taken; lia). change MPSC_QUEUE_SIZE with 32. split; [apply I|]. split; [lia|]. split.
  - intros p i data E. destruct (mi_ticket _ I p i data E) as [Hi _]. rewrite slot_mod by lia. apply (mi_writing _ I). by exists p, data.
  - intros i data Hi Hn Hd. rewrite slot_mod by lia. by apply (mi_written _ I).
Qed.

(** ** One thread at a time *)

(** [q] holds the elements [l] after [n] enqueues. *)
Definition mrep (q : mpscq) (l : list Z) (n : Z) : Prop :=
  exists s, minv s /\ mq s = q /\ prods s = {[0 := PIdle]} /\ consumer s = CIdle /\ drawn s = n /\ l = drop (length (got s)) (tickets s).

Lemma idle_counts : map_count reserved {[0 := PIdle]} = 0 /\ map_count refused {[0 := PIdle]} = 0.
Proof. split; apply count_zero; intros p pc E; apply lookup_singleton_Some in E as [_ <-]; cbn; tauto. Qed.

Lemma mrep_length q l n : mrep q l n -> mq_count q = Z.of_nat (length l).
Proof.
  intros (s & I & <- & Ep & Ec & _ & ->). rewrite (mi_count _ I), Ep, (proj1 idle_counts), (proj2 idle_counts), length_drop.
  unfold removing. rewrite Ec. pose proof (mi_le _ I). unfold drawn, taken in *. lia.
Qed.

Lemma enqueue_mrep q l n data :
  mrep q l n -> data <> -1 -> n + 1 < 2 ^ 63 ->
  let (q', ok) := mpscq_enqueue q data in
  if Z.of_nat (length l) <? MPSC_QUEUE_SIZE then ok = true /\ mrep q' (l ++ [data]) (n + 1) else ok = false /\ mrep q' l n.
Proof.
  intros M Hd Hn. pose proof (mrep_length q l n M) as Hc. destruct M as (s & I & <- & Ep & Ec & En & El).
  pose proof (minv_enter s 0 data I ltac:(by rewrite Ep) Hd) as I1. unfold mpscq_enqueue. cbn [fetch_add_count fst snd] in *.
  rewrite Z.geb_leb in *. change MPSC_QUEUE_SIZE with 32 in *. rewrite Hc in *. set (s1 := MState _ _ _ _ _) in I1.
  destruct (Z.leb_spec 32 (Z.of_nat (length l))), (Z.ltb_spec (Z.of_nat (length l)) 32); try lia.
  - split; [done|]. pose proof (minv_undo s1 0 I1 ltac:(by apply lookup_insert_eq)) as I2. eexists. split; [exact I2|].
    split; [done|]. split; [cbn [prods s1]; by rewrite insert_insert_eq, Ep, insert_singleton|]. done.
  - cbn [fetch_add_head xchg_buffer fst snd]. split; [done|].
    pose proof (minv_ticket s1 0 data I1 ltac:(by apply lookup_insert_eq)) as I2.
    assert (drawn s1 = n) as E1 by exact En. specialize (I2 ltac:(lia)). set (s2 := MState _ _ _ _ _) in I2.
    pose proof (minv_write s2 0 (mq_head (mq s)) data I2 ltac:(by apply lookup_insert_eq)) as I3.
    eexists. split; [exact I3|]. split; [done|].
    split; [cbn [prods s2 s1]; by rewrite !insert_insert_eq, Ep, insert_singleton|]. split; [done|]. split.
    + unfold drawn in *. cbn [tickets s2 s1] in *. rewrite length_app. cbn. lia.
    + cbn [tickets got s2 s1]. pose proof (mi_le _ I). unfold taken, drawn in *. rewrite drop_app_le by lia. by rewrite El.
Qed.

Lemma dequeue_mrep q l n :
  mrep q l n ->
  let (q', ret) := mpscq_dequeue q in
  match l with [] => ret = -1 /\ mrep q' [] n | x :: rest => ret = x /\ mrep q' rest n end.
Proof.
  intros (s & I & <- & Ep & Ec & En & El). unfold mpscq_dequeue. cbn [xchg_buffer fst snd].
  assert (Hnw : ~ writing s (taken s)).
  { intros (p & d & E). rewrite Ep in E. apply lookup_singleton_Some in E as [_ E]. done. }
  destruct (Z.eqb_spec (mq_buffer (mq s) (mq_tail (mq s))) (-1)) as [Eb|Eb].
  - pose proof (minv_empty s I Ec Eb) as I1. destruct l as [|x rest]; [split; [done|]; eexists; split; [exact I1|done]|]. exfalso.
    assert (Hx : tickets s !! length (got s) = Some x) by (rewrite <- (Nat.add_0_r (length (got s))), <- lookup_drop, <- El; done).
    pose proof (lookup_lt_Some _ _ _ Hx) as Hlt. rewrite (mi_tail _ I) in Eb.
    rewrite (mi_written _ I (taken s) x) in Eb; [|unfold taken, drawn; lia|done|unfold taken; by rewrite Nat2Z.id].
    destruct (mi_data _ I) as [Hd _]. rewrite Forall_forall in Hd. apply (Hd x); [|done].
    exact (list_elem_of_lookup_2 _ _ _ Hx).
  - destruct (take_oldest s _ I eq_refl Eb) as (Hlt & _ & Hx).
    pose proof (minv_take s _ I Ec eq_refl Eb) as I1. pose proof (minv_done _ _ I1 eq_refl) as I2.
    rewrite (drop_S _ _ _ Hx) in El. subst l. split; [done|]. eexists. split; [exact I2|].
    split; [done|]. split; [done|]. split; [done|]. split; [done|]. cbn [tickets got]. rewrite length_app. cbn.
    by rewrite Nat.add_1_r.
Qed.

(** One call at a time the queue is a first-in-first-out queue of 32 elements:
    enqueueing appends while there is room and otherwise returns false and changes
    nothing; dequeueing returns the oldest element, or -1 when there is none. *)
Theorem mpscq_refines_fifo (q : mpscq) (l : list Z) (n : Z) :
  mrep q l n ->
  (forall data, data <> -1 -> n + 1 < 2 ^ 63 ->
     let (q', ok) := mpscq_enqueue q data in
     if Z.of_nat (length l) <? MPSC_QUEUE_SIZE then ok = true /\ mrep q' (l ++ [data]) (n + 1) else ok = false /\ mrep q' l n) /\
  (let (q', ret) := mpscq_dequeue q in
   match l with [] => ret = -1 /\ mrep q' [] n | x :: rest => ret = x /\ mrep q' rest n end) /\
  mpscq_count q = Z.of_nat (length l).
Proof.
  intros M. split; [|split].
  - intros data Hd Hn. by apply enqueue_mrep.
  - by apply dequeue_mrep.
  - exact (mrep_length q l n M).
Qed.

(** ** Example: two producers, the later one writes first *)

Definition example_mpscq : mstate := MState (Mpscq (fun _ => -1) 0 0 0) (<[0 := PIdle]> {[1 := PIdle]}) CIdle [] [].

Lemma example_minitial : minitial example_mpscq.
Proof.
  split; [done| |done|done|].
  - intros p pc E. cbn [example_mpscq prods] in E.
    apply lookup_insert_Some in E as [[_ <-]|[_ E]]; [done|]. by apply lookup_singleton_Some in E as [_ <-].
  - vm_compute. reflexivity.
Qed.

(** The steps as a function, to run examples. *)
Inductive action := ACount (p data : Z) | ATicket (p : Z) | AWrite (p : Z) | AConsume | ADone.

Definition mexec (s : mstate) (a : action) : option mstate :=
  match a with
  | ACount p data =>
      match prods s !! p with
      | Some PIdle =>
          if data =? -1 then None
          else Some (MState (fst (fetch_add_count (mq s) 1))
                       (<[p := if snd (fetch_add_count (mq s) 1) >=? MPSC_QUEUE_SIZE then PFull else PCounted data]> (prods s))
                       (consumer s) (tickets s) (got s))
      | _ => None
      end
  | ATicket p =>
      match prods s !! p with
      | Some (PCounted data) =>
          Some (MState (fst (fetch_add_head (mq s))) (<[p := PTicket (snd (fetch_add_head (mq s))) data]> (prods s))
                  (consumer s) (tickets s ++ [data]) (got s))
      | _ => None
      end
  | AWrite p =>
      match prods s !! p with
      | Some (PTicket ticket data) =>
          Some (MState (fst (xchg_buffer (mq s) (mq_slot ticket) data)) (<[p := PIdle]> (prods s)) (consumer s) (tickets s) (got s))
      | _ => None
      end
  | AConsume =>
      match consumer s with
      | CIdle =>
          let (q, ret) := xchg_buffer (mq s) (mq_tail (mq s)) (-1) in
          if ret =? -1 then Some (MState q (prods s) CIdle (tickets s) (got s))
          else Some (MState (advance q) (prods s) (CTaken ret) (tickets s) (got s ++ [ret]))
      | _ => None
      end
  | ADone =>
      match consumer s with
      | CTaken _ => Some (MState (fst (fetch_add_count (mq s) (-1))) (prods s) CIdle (tickets s) (got s))
      | _ => None
      end
  end.

Fixpoint mrun (s : mstate) (l : list action) : option mstate :=
  match l with [] => Some s | a :: l => match mexec s a with Some s => mrun s l | None => None end end.

Lemma mexec_sound s a s' : mexec s a = Some s' -> mstep s s'.
Proof.
  destruct a as [p data|p|p| |]; cbn [mexec].
  - destruct (prods s !! p) as [[| | |]|] eqn:E; try done. destruct (Z.eqb_spec data (-1)); [done|]. intros [= <-]. by apply P_count.
  - destruct (prods s !! p) as [[| | |]|] eqn:E; try done. intros [= <-]. by apply P_ticket.
  - destruct (prods s !! p) as [[| | |]|] eqn:E; try done. intros [= <-]. by apply P_write.
  - destruct (consumer s) eqn:E; [|done]. cbn [xchg_buffer].
    destruct (Z.eqb_spec (mq_buffer (mq s) (mq_tail (mq s))) (-1)); intros [= <-]; [by apply C_empty|by apply C_take].
  - destruct (consumer s) eqn:E; [done|]. intros [= <-]. by eapply C_done.
Qed.

Lemma mrun_sound l s s' : mrun s l = Some s' -> rtc mstep s s'.
Proof.
  revert s. induction l as [|a l IH]; intros s; cbn [mrun]; [by intros [= <-]; apply rtc_refl|].
  destruct (mexec s a) as [s1|] eqn:E; [|done]. intros Hr. eapply rtc_l; [by eapply mexec_sound|by apply IH].
Qed.

Definition example_actions : list action :=
  [ACount 0 7; ATicket 0; ACount 1 8; ATicket 1; AWrite 1; AConsume; AWrite 0; AConsume].
Definition example_after : mstate := default example_mpscq (mrun example_mpscq example_actions).

Lemma example_run : rtc mstep example_mpscq example_after.
Proof.
  apply (mrun_sound example_actions). unfold example_after.
  destruct (mrun example_mpscq example_actions) eqn:E; [done|]. vm_compute in E. discriminate.
Qed.

Lemma mpscq_fifo_witness :
  rtc mstep example_mpscq example_after /\ tickets example_after = [7; 8] /\ got example_after = [7] /\
  got example_after = take (length (got example_after)) (tickets example_after).
Proof.
  split; [exact example_run|]. split; [vm_compute; reflexivity|]. split; [vm_compute; reflexivity|].
  exact (proj1 (mpscq_fifo example_mpscq example_after example_minitial example_run ltac:(vm_compute; reflexivity))).
Defined.

Lemma mrep_init : mrep (Mpscq (fun _ => -1) 0 0 0) [] 0.
Proof.
  exists (MState (Mpscq (fun _ => -1) 0 0 0) {[0 := PIdle]} CIdle [] []). split; [|done]. apply minv_initial.
  split; [done| |done|done|vm_compute; reflexivity]. intros p pc E. cbn [prods] in E. by apply lookup_singleton_Some in E as [_ <-].
Qed.

Lemma mpscq_refines_fifo_witness :
  exists q1, mpscq_enqueue (Mpscq (fun _ => -1) 0 0 0) 7 = (q1, true) /\ mrep q1 [7] 1.
Proof.
  destruct (mpscq_refines_fifo _ _ _ mrep_init) as (He & _). specialize (He 7 ltac:(discriminate) ltac:(lia)).
  destruct (mpscq_enqueue (Mpscq (fun _ => -1) 0 0 0) 7) as [q1 ok]. destruct He as [-> M]. exists q1. split; [reflexivity|exact M].
Defined.
