(* ===== verification/Jhash.v ===== *)
(** Bob Jenkins' hash of src/driver/src/user_space_kernel_def/include/linux/jhash.h,
    with the rotation of bitops.h, on 32-bit words.  The mixing step is
    reversible, as its comment says, and the hash of an array of words is the hash
    of their bytes. *)
From Stdlib Require Import ZArith Lia Bool.
From stdpp Require Import base list numbers.
From S2P Require Import Prelude.
Local Open Scope Z_scope.

Definition rol32 (word shift : Z) : Z := Z.lor (u32 (Z.shiftl word shift)) (Z.shiftr word (Z.land (- shift) 31)).

Definition __jhash_mix (abc : Z * Z * Z) : Z * Z * Z :=
  let '(a, b, c) := abc in
  let a := u32 (a - c) in let a := Z.lxor a (rol32 c 4) in let c := u32 (c + b) in
  let b := u32 (b - a) in let b := Z.lxor b (rol32 a 6) in let a := u32 (a + c) in
  let c := u32 (c - b) in let c := Z.lxor c (rol32 b 8) in let b := u32 (b + a) in
  let a := u32 (a - c) in let a := Z.lxor a (rol32 c 16) in let c := u32 (c + b) in
  let b := u32 (b - a) in let b := Z.lxor b (rol32 a 19) in let a := u32 (a + c) in
  let c := u32 (c - b) in let c := Z.lxor c (rol32 b 4) in let b := u32 (b + a) in
  (a, b, c).

Definition __jhash_final (abc : Z * Z * Z) : Z * Z * Z :=
  let '(a, b, c) := abc in
  let c := Z.lxor c b in let c := u32 (c - rol32 b 14) in
  let a := Z.lxor a c in let a := u32 (a - rol32 c 11) in
  let b := Z.lxor b a in let b := u32 (b - rol32 a 25) in
  let c := Z.lxor c b in let c := u32 (c - rol32 b 16) in
  let a := Z.lxor a c in let a := u32 (a - rol32 c 4) in
  let b := Z.lxor b a in let b := u32 (b - rol32 a 14) in
  let c := Z.lxor c b in let c := u32 (c - rol32 b 24) in
  (a, b, c).

Definition JHASH_INITVAL : Z := 0xdeadbeef.

Definition nthz (k : list Z) (i : nat) : Z := nth i k 0.

(** A little-endian word. *)
Definition __get_unaligned_cpu32 (k : list Z) (i : nat) : Z :=
  nthz k i + Z.shiftl (nthz k (i + 1)) 8 + Z.shiftl (nthz k (i + 2)) 16 + Z.shiftl (nthz k (i + 3)) 24.

(** [while (length > 12)]: what is left of the key and the state. *)
Fixpoint jhash_blocks (fuel : nat) (k : list Z) (abc : Z * Z * Z) : list Z * (Z * Z * Z) :=
  match fuel with
  | O => (k, abc)
  | S fuel =>
      if (12 <? length k)%nat then
        let '(a, b, c) := abc in
        let a := u32 (a + __get_unaligned_cpu32 k 0) in
        let b := u32 (b + __get_unaligned_cpu32 k 4) in
        let c := u32 (c + __get_unaligned_cpu32 k 8) in
        jhash_blocks fuel (drop 12 k) (__jhash_mix (a, b, c))
      else (k, abc)
  end.

(** The cases of the switch fall through from [length] down to 1. *)
Definition jhash_last (k : list Z) (abc : Z * Z * Z) : Z :=
  let n := length k in
  let add (i : nat) (sh x : Z) := if (i <=? n)%nat then u32 (x + u32 (Z.shiftl (nthz k (i - 1)) sh)) else x in
  let '(a, b, c) := abc in
  let c := add 12%nat 24 c in let c := add 11%nat 16 c in let c := add 10%nat 8 c in let c := add 9%nat 0 c in
  let b := add 8%nat 24 b in let b := add 7%nat 16 b in let b := add 6%nat 8 b in let b := add 5%nat 0 b in
  let a := add 4%nat 24 a in let a := add 3%nat 16 a in let a := add 2%nat 8 a in let a := add 1%nat 0 a in
  if (1 <=? n)%nat then snd (__jhash_final (a, b, c)) else c.

(** The key is the list of its bytes. *)
Definition jhash (key : list Z) (initval : Z) : Z :=
  let i := u32 (JHASH_INITVAL + Z.of_nat (length key) + initval) in
  let (k, abc) := jhash_blocks (length key) key (i, i, i) in
  jhash_last k abc.

Fixpoint jhash2_blocks (fuel : nat) (k : list Z) (abc : Z * Z * Z) : list Z * (Z * Z * Z) :=
  match fuel with
  | O => (k, abc)
  | S fuel =>
      if (3 <? length k)%nat then
        let '(a, b, c) := abc in
        let a := u32 (a + nthz k 0) in let b := u32 (b + nthz k 1) in let c := u32 (c + nthz k 2) in
        jhash2_blocks fuel (drop 3 k) (__jhash_mix (a, b, c))
      else (k, abc)
  end.

Definition jhash2_last (k : list Z) (abc : Z * Z * Z) : Z :=
  let n := length k in
  let '(a, b, c) := abc in
  let c := if (3 <=? n)%nat then u32 (c + nthz k 2) else c in
  let b := if (2 <=? n)%nat then u32 (b + nthz k 1) else b in
  let a := if (1 <=? n)%nat then u32 (a + nthz k 0) else a in
  if (1 <=? n)%nat then snd (__jhash_final (a, b, c)) else c.

Definition jhash2 (k : list Z) (initval : Z) : Z :=
  let i := u32 (JHASH_INITVAL + Z.shiftl (Z.of_nat (length k)) 2 + initval) in
  let (k, abc) := jhash2_blocks (length k) k (i, i, i) in
  jhash2_last k abc.

Definition __jhash_nwords (a b c initval : Z) : Z :=
  snd (__jhash_final (u32 (a + initval), u32 (b + initval), u32 (c + initval))).

Definition jhash_3words (a b c initval : Z) : Z := __jhash_nwords a b c (u32 (initval + JHASH_INITVAL + Z.shiftl 3 2)).
Definition jhash_2words (a b initval : Z) : Z := __jhash_nwords a b 0 (u32 (initval + JHASH_INITVAL + Z.shiftl 2 2)).
Definition jhash_1word (a initval : Z) : Z := __jhash_nwords a 0 0 (u32 (initval + JHASH_INITVAL + Z.shiftl 1 2)).

(** ** Words *)

Definition is_u32 (x : Z) : Prop := 0 <= x < 2 ^ 32.

Lemma is_u32_u32 x : is_u32 (u32 x).
Proof. apply Z.mod_pos_bound. reflexivity. Qed.

Lemma u32_id x : is_u32 x -> u32 x = x.
Proof. intros Hx. by apply Z.mod_small. Qed.

Lemma u32_add_l x y : u32 (u32 x + y) = u32 (x + y).
Proof. apply Z.add_mod_idemp_l. discriminate. Qed.
Lemma u32_add_r x y : u32 (x + u32 y) = u32 (x + y).
Proof. apply Z.add_mod_idemp_r. discriminate. Qed.

Lemma u32_bits x : is_u32 x <-> 0 <= x /\ forall n, 32 <= n -> Z.testbit x n = false.
Proof.
  split.
  - intros Hx. split; [apply Hx|]. intros n Hn. by apply (testbit_above x 32).
  - intros [H0 Hb]. split; [done|]. destruct (Z.lt_ge_cases x (2 ^ 32)); [done|]. exfalso.
    assert (32 <= Z.log2 x) by (apply Z.log2_le_pow2; lia). pose proof (Z.bit_log2 x ltac:(lia)) as E. by rewrite Hb in E.
Qed.

Lemma lxor_u32 x y : is_u32 x -> is_u32 y -> is_u32 (Z.lxor x y).
Proof.
  intros Hx Hy. apply u32_bits in Hx as [Hx0 Hx], Hy as [Hy0 Hy]. apply u32_bits. split; [by apply Z.lxor_nonneg|].
  intros n Hn. by rewrite Z.lxor_spec, Hx, Hy.
Qed.

Lemma lor_u32 x y : is_u32 x -> is_u32 y -> is_u32 (Z.lor x y).
Proof.
  intros Hx Hy. apply u32_bits in Hx as [Hx0 Hx], Hy as [Hy0 Hy]. apply u32_bits. split; [by apply Z.lor_nonneg|].
  intros n Hn. by rewrite Z.lor_spec, Hx, Hy.
Qed.

Lemma rol32_u32 x k : is_u32 x -> is_u32 (rol32 x k).
Proof.
  intros Hx. apply lor_u32; [apply is_u32_u32|]. assert (0 <= Z.land (- k) 31) by (apply Z.land_nonneg; lia).
  unfold is_u32 in *. rewrite Z.shiftr_div_pow2 by done. split; [apply Z.div_pos; lia|].
  apply Z.div_lt_upper_bound; [lia|]. pose proof (Z.pow_pos_nonneg 2 (Z.land (- k) 31) ltac:(lia) ltac:(lia)). nia.
Qed.

(** ** The mixing step is reversible *)

(** One line of the mixing and its inverse. *)
Definition mix_line (k : Z) (x y z : Z) : Z * Z := (Z.lxor (u32 (x - z)) (rol32 z k), u32 (z + y)).
Definition unmix_line (k : Z) (x y z : Z) : Z * Z :=
  let z := u32 (z - y) in (u32 (Z.lxor x (rol32 z k) + z), z).

Lemma unmix_mix k x y z : is_u32 x -> is_u32 z -> let (x', z') := mix_line k x y z in unmix_line k x' y z' = (x, z).
Proof.
  intros Hx Hz. unfold mix_line, unmix_line. assert (E : u32 (u32 (z + y) - y) = z).
  { replace (u32 (z + y) - y) with (u32 (z + y) + - y) by lia. rewrite u32_add_l. replace (z + y + - y) with z by lia. by apply u32_id. }
  rewrite E, Z.lxor_assoc, Z.lxor_nilpotent, Z.lxor_0_r, u32_add_l. replace (x - z + z) with x by lia. by rewrite u32_id.
Qed.

Lemma mix_line_u32 k x y z : is_u32 z -> is_u32 (fst (mix_line k x y z)) /\ is_u32 (snd (mix_line k x y z)).
Proof. intros Hz. split; [apply lxor_u32; [apply is_u32_u32|by apply rol32_u32]|apply is_u32_u32]. Qed.

Lemma mix_lines abc :
  __jhash_mix abc =
    let '(a, b, c) := abc in
    let (a, c) := mix_line 4 a b c in let (b, a) := mix_line 6 b c a in let (c, b) := mix_line 8 c a b in
    let (a, c) := mix_line 16 a b c in let (b, a) := mix_line 19 b c a in let (c, b) := mix_line 4 c a b in (a, b, c).
Proof. by destruct abc as [[a b] c]. Qed.

Definition __jhash_unmix (abc : Z * Z * Z) : Z * Z * Z :=
  let '(a, b, c) := abc in
  let (c, b) := unmix_line 4 c a b in let (b, a) := unmix_line 19 b c a in let (a, c) := unmix_line 16 a b c in
  let (c, b) := unmix_line 8 c a b in let (b, a) := unmix_line 6 b c a in let (a, c) := unmix_line 4 a b c in (a, b, c).

(** Follows one line of the mixing, keeping its words in range and its inverse. *)
Ltac mix_step k x y z :=
  let Hl := fresh "Hl" in let Hu := fresh "Hu" in
  pose proof (unmix_mix k x y z ltac:(assumption) ltac:(assumption)) as Hl; pose proof (mix_line_u32 k x y z ltac:(assumption)) as Hu;
  destruct (mix_line k x y z) as [? ?]; cbn [fst snd] in Hu; destruct Hu.

(** The mixing step of the hash is reversible, as its comment says: there is a
    function that gives its three 32-bit arguments back, so that no two states are
    confused by it. *)
Theorem jhash_mix_reversible (a b c : Z) :
  is_u32 a -> is_u32 b -> is_u32 c -> __jhash_unmix (__jhash_mix (a, b, c)) = (a, b, c).
Proof.
  intros Ha Hb Hc. rewrite mix_lines. mix_step 4 a b c. mix_step 6 b z0 z. mix_step 8 z0 z2 z1. mix_step 16 z2 z4 z3.
  mix_step 19 z4 z6 z5. mix_step 4 z6 z8 z7. unfold __jhash_unmix. by rewrite Hl4, Hl3, Hl2, Hl1, Hl0, Hl.
Qed.

(** ** Words and bytes *)

Definition bytes32 (w : Z) : list Z := [w mod 256; w / 2 ^ 8 mod 256; w / 2 ^ 16 mod 256; w / 2 ^ 24].
Definition words_bytes (ws : list Z) : list Z := concat (map bytes32 ws).

Lemma words_length ws : length (words_bytes ws) = (4 * length ws)%nat.
Proof. induction ws as [|w ws IH]; [done|]. unfold words_bytes in *. cbn [map concat]. rewrite length_app, IH. cbn. lia. Qed.

Lemma word_sum w : w mod 256 + w / 2 ^ 8 mod 256 * 2 ^ 8 + w / 2 ^ 16 mod 256 * 2 ^ 16 + w / 2 ^ 24 * 2 ^ 24 = w.
Proof.
  change (2 ^ 16) with (2 ^ 8 * 2 ^ 8). change (2 ^ 24) with (2 ^ 8 * 2 ^ 8 * 2 ^ 8). rewrite <- !Z.div_div by lia.
  change (2 ^ 8) with 256. pose proof (Z.div_mod w 256 ltac:(lia)). pose proof (Z.div_mod (w / 256) 256 ltac:(lia)).
  pose proof (Z.div_mod (w / 256 / 256) 256 ltac:(lia)). lia.
Qed.

Lemma get_word ws i k0 : __get_unaligned_cpu32 (k0 ++ bytes32 i ++ ws) (length k0) = i.
Proof.
  unfold __get_unaligned_cpu32, nthz. rewrite !app_nth2_plus, !Z.shiftl_mul_pow2 by lia.
  cbn [bytes32 app nth]. rewrite nth_middle. apply word_sum.
Qed.

(** Adding the four bytes of a word is adding the word. *)
Lemma add_word x w b0 b1 b2 b3 :
  b0 + b1 * 2 ^ 8 + b2 * 2 ^ 16 + b3 * 2 ^ 24 = w ->
  u32 (u32 (u32 (u32 (x + u32 (Z.shiftl b3 24)) + u32 (Z.shiftl b2 16)) + u32 (Z.shiftl b1 8)) + u32 (Z.shiftl b0 0)) = u32 (x + w).
Proof.
  intros <-. rewrite !u32_add_r, !u32_add_l, <- Z.add_assoc, u32_add_l, !Z.shiftl_mul_pow2 by lia. f_equal. lia.
Qed.

Lemma blocks_words ws fuel fuel2 abc :
  (length ws <= fuel2)%nat -> (4 * length ws <= fuel)%nat ->
  jhash_blocks fuel (words_bytes ws) abc =
    (words_bytes (fst (jhash2_blocks fuel2 ws abc)), snd (jhash2_blocks fuel2 ws abc)) /\
  (length (fst (jhash2_blocks fuel2 ws abc)) <= 3)%nat.
Proof.
  revert ws fuel abc. induction fuel2 as [|fuel2 IH]; intros ws fuel abc H2 H1.
  { destruct ws; [|cbn in H2; lia]. destruct fuel; (split; [done|cbn; lia]). }
  destruct ws as [|w0 [|w1 [|w2 [|w3 ws]]]]; try (destruct fuel; [try (cbn in H1; lia)|]; (split; [done|cbn; lia])).
  destruct fuel as [|fuel]; [cbn in H1; lia|].
  cbn [jhash_blocks jhash2_blocks]. rewrite words_length, (proj2 (Nat.ltb_lt 12 _)), (proj2 (Nat.ltb_lt 3 _)) by (cbn [length]; lia).
  destruct abc as [[a b] c].
  assert (E : words_bytes (w0 :: w1 :: w2 :: w3 :: ws) = bytes32 w0 ++ bytes32 w1 ++ bytes32 w2 ++ words_bytes (w3 :: ws)) by done.
  set (r := words_bytes (w3 :: ws)) in E.
  assert (E0 : __get_unaligned_cpu32 (words_bytes (w0 :: w1 :: w2 :: w3 :: ws)) 0 = w0)
    by (rewrite E; exact (get_word (bytes32 w1 ++ bytes32 w2 ++ r) w0 [])).
  assert (E1 : __get_unaligned_cpu32 (words_bytes (w0 :: w1 :: w2 :: w3 :: ws)) 4 = w1)
    by (rewrite E; exact (get_word (bytes32 w2 ++ r) w1 (bytes32 w0))).
  assert (E2 : __get_unaligned_cpu32 (words_bytes (w0 :: w1 :: w2 :: w3 :: ws)) 8 = w2)
    by (rewrite E; exact (get_word r w2 (bytes32 w0 ++ bytes32 w1))).
  rewrite E0, E1, E2, E.
  change (drop 12 _) with (words_bytes (w3 :: ws)). change (drop 3 _) with (w3 :: ws).
  apply IH; cbn [length] in *; lia.
Qed.

Lemma last_words ws abc : (length ws <= 3)%nat -> jhash_last (words_bytes ws) abc = jhash2_last ws abc.
Proof.
  intros Hn. destruct abc as [[a b] c]. destruct ws as [|w0 [|w1 [|w2 [|? ?]]]]; [done| | | |cbn in Hn; lia];
    unfold jhash_last, jhash2_last; cbn [length words_bytes map concat bytes32 app Nat.leb nthz nth Nat.sub].
  all: rewrite ?(add_word _ w0), ?(add_word _ w1), ?(add_word _ w2) by apply word_sum; done.
Qed.

(** The hash of an array of words is the hash of their bytes in little-endian
    order, and the short forms for one, two and three words are the hash of the
    array of these words: the optimised routines compute the reference. *)
Theorem jhash2_is_jhash (ws : list Z) (initval : Z) :
  jhash2 ws initval = jhash (words_bytes ws) initval /\
  (forall a b c, jhash_3words a b c initval = jhash2 [a; b; c] initval) /\
  (forall a b, jhash_2words a b initval = jhash2 [a; b] initval) /\
  (forall a, jhash_1word a initval = jhash2 [a] initval).
Proof.
  split.
  - unfold jhash, jhash2. rewrite words_length. rewrite Z.shiftl_mul_pow2 by lia.
    replace (Z.of_nat (length ws) * 2 ^ 2) with (Z.of_nat (4 * length ws)) by lia. set (i := u32 _).
    destruct (blocks_words ws (4 * length ws) (length ws) (i, i, i)) as [E Hl]; [lia..|]. rewrite E.
    destruct (jhash2_blocks _ _ _) as [k abc]. symmetry. by apply last_words.
  - assert (E : forall n x, u32 (x + u32 (initval + JHASH_INITVAL + n)) = u32 (u32 (JHASH_INITVAL + n + initval) + x)).
    { intros n x. rewrite u32_add_r, u32_add_l. f_equal. lia. }
    assert (E0 : forall n, u32 (0 + u32 (initval + JHASH_INITVAL + n)) = u32 (JHASH_INITVAL + n + initval)).
    { intros n. rewrite u32_add_r. f_equal. lia. }
    unfold jhash_3words, jhash_2words, jhash_1word, __jhash_nwords, jhash2.
    cbn [length jhash2_blocks jhash2_last Nat.ltb Nat.leb nthz nth Z.of_nat Pos.of_succ_nat Pos.succ].
    split; [|split]; intros; rewrite ?E0, !E; cbn [nth]; do 2 f_equal.
Qed.

Lemma jhash_mix_reversible_witness : __jhash_unmix (__jhash_mix (1, 2 ^ 32 - 1, 0xdeadbeef)) = (1, 2 ^ 32 - 1, 0xdeadbeef).
Proof. exact (jhash_mix_reversible 1 (2 ^ 32 - 1) 0xdeadbeef ltac:(unfold is_u32; lia) ltac:(unfold is_u32; lia) ltac:(unfold is_u32; lia)). Defined.
