(* ===== verification/HashIndex.v ===== *)
(** The index from program identifiers to object headers: src/driver/src/hash_index.c
    in its build outside the kernel, on the hash chains of list.h ([HList]) and with
    the hash of jhash.h ([Jhash]).

    A key is the list of the bytes of a C string, without its terminator.  The
    addresses that [calloc] returns, whether memory is available and the random
    seed are arguments; an access through the null pointer or outside the key of a
    record is a fault. *)
From Stdlib Require Import ZArith Lia Bool.
From stdpp Require Import base list gmap numbers.
From S2P Require Import Prelude ListQueue LinuxList HList Jhash.
Local Open Scope Z_scope.
Local Open Scope lupin_scope.

Definition PROG_ID_SIZE : Z := 12.

Record shmem_alloc_record := AllocRecord { rec_key : list Z; rec_obj_hdr : Z }.

(** The buckets, their number, the seed and the records that are allocated. *)
Record shmem_index := ShmemIndex { idx_table : hlinks; idx_size : Z; hash_seed : Z; records : gmap Z shmem_alloc_record }.

Definition no_record : shmem_alloc_record := AllocRecord [] 0.
Definition the_record (idx : shmem_index) (n : Z) : shmem_alloc_record := default no_record (records idx !! n).

(** [mem] says that the table could be allocated; [random] is the result of
    [wait_and_get_random_bytes] and the seed. *)
Definition init_shmem_index (idx : shmem_index) (mem : bool) (random : Z * Z) : shmem_index * Z :=
  let num_buckets := u32 (16 * 1024 / 8) in
  if negb mem then (ShmemIndex (idx_table idx) num_buckets (hash_seed idx) (records idx), - ENOMEM)
  else
    let t := fold_left INIT_HLIST_HEAD (seqZ 0 num_buckets) (idx_table idx) in
    let (ret, seed) := random in
    (ShmemIndex t num_buckets seed (records idx), if ret <? 0 then ret else 0).

(** The records of every bucket are freed. *)
Fixpoint exit_buckets (fuel : nat) (l : list Z) (idx : shmem_index) : option shmem_index :=
  match l with
  | [] => Some idx
  | i :: l =>
      match hlist_for_each fuel (idx_table idx) i with
      | None => None
      | Some ns => exit_buckets fuel l (ShmemIndex (idx_table idx) (idx_size idx) (hash_seed idx)
                                          (fold_left (fun m n => delete n m) ns (records idx)))
      end
  end.

Definition shmem_index_exit (fuel : nat) (idx : shmem_index) : option shmem_index :=
  exit_buckets fuel (seqZ 0 (idx_size idx)) idx.

Definition key_bucket (idx : shmem_index) (key : list Z) : Z := jhash key (hash_seed idx) mod idx_size idx.

Definition shmem_index_insert (idx : shmem_index) (key : list Z) (obj_hdr rec : Z) : outcome shmem_index :=
  let hash := key_bucket idx key in
  bug_on (rec =? 0)
    (bug_on (PROG_ID_SIZE <? Z.of_nat (length key) + 1)
       (Ret (ShmemIndex (hlist_add_head (idx_table idx) rec hash) (idx_size idx) (hash_seed idx)
               (<[rec := AllocRecord key obj_hdr]> (records idx))))).

(** The first record of the bucket with the key; the outer [None] when the walk
    does not end within [fuel]. *)
Definition find_record (fuel : nat) (idx : shmem_index) (key : list Z) : option (option Z) :=
  match hlist_for_each fuel (idx_table idx) (key_bucket idx key) with
  | None => None
  | Some l => Some (head (filter (fun n => rec_key (the_record idx n) = key) l))
  end.

(** The record is unlinked, not freed. *)
Definition shmem_index_del (fuel : nat) (idx : shmem_index) (key : list Z) : option (shmem_index * bool) :=
  match find_record fuel idx key with
  | None => None
  | Some None => Some (idx, false)
  | Some (Some cursor) =>
      Some (ShmemIndex (hlist_del (idx_table idx) cursor) (idx_size idx) (hash_seed idx) (records idx), true)
  end.

Definition lookup_shmem_alloc_record (fuel : nat) (idx : shmem_index) (key : list Z) : option (option Z) :=
  match find_record fuel idx key with
  | None => None
  | Some None => Some None
  | Some (Some cursor) => Some (Some (rec_obj_hdr (the_record idx cursor)))
  end.

(** ** The index as a map to stacks *)

(** [P] are the chains of a well-formed index. *)
Record index (idx : shmem_index) (P : pool) : Prop := {
  ix_links : hrep (idx_table idx) P;
  ix_size : 0 < idx_size idx;
  ix_buckets : forall i, is_Some (P !! i) <-> 0 <= i < idx_size idx;
  ix_records : forall i n, on P n i -> exists r, records idx !! n = Some r /\ key_bucket idx (rec_key r) = i }.

(** The headers under a key, the newest first. *)
Definition headers (idx : shmem_index) (P : pool) (key : list Z) : list Z :=
  (fun n => rec_obj_hdr (the_record idx n)) <$> filter (fun n => rec_key (the_record idx n) = key) (default [] (P !! key_bucket idx key)).

Lemma index_bucket idx P key : index idx P -> exists l, P !! key_bucket idx key = Some l.
Proof. intros I. apply (ix_buckets _ _ I). apply Z.mod_pos_bound. apply I. Qed.

Lemma find_record_ok fuel idx P key l :
  index idx P -> P !! key_bucket idx key = Some l -> (length l <= fuel)%nat ->
  find_record fuel idx key = Some (head (filter (fun n => rec_key (the_record idx n) = key) l)).
Proof.
  intros I El Hf. unfold find_record, hlist_for_each.
  by rewrite (walk_hchain _ (SFirst (key_bucket idx key)) l fuel (hr_chain _ _ (ix_links _ _ I) _ _ El) (hr_null _ _ (ix_links _ _ I) _ _ El) Hf
    : hlist_walk fuel (idx_table idx) (first _ _) = _).
Qed.

Lemma headers_bucket idx P key l :
  P !! key_bucket idx key = Some l ->
  headers idx P key = (fun n => rec_obj_hdr (the_record idx n)) <$> filter (fun n => rec_key (the_record idx n) = key) l.
Proof. intros E. unfold headers. by rewrite E. Qed.

(** The first element with a property splits its list. *)
Lemma filter_head (A : Z -> Prop) `{!forall x, Decision (A x)} (l : list Z) x f :
  filter A l = x :: f -> exists l1 l2, l = l1 ++ x :: l2 /\ A x /\ (forall y, y ∈ l1 -> ~ A y) /\ filter A l2 = f.
Proof.
  induction l as [|y l IH]; [done|]. rewrite filter_cons. case_decide as D.
  - intros [= <- <-]. exists [], l. split; [done|]. split; [done|]. split; [by intros z ?%not_elem_of_nil|done].
  - intros E. destruct (IH E) as (l1 & l2 & -> & Hx & Hl & Hf). exists (y :: l1), l2. split; [done|]. split; [done|]. split; [|done].
    intros z [->|Hz]%elem_of_cons; [done|by apply Hl].
Qed.

Lemma filter_nil (A : Z -> Prop) `{!forall x, Decision (A x)} (l : list Z) : (forall y, y ∈ l -> ~ A y) -> filter A l = [].
Proof.
  induction l as [|y l IH]; intros Hl; [done|]. rewrite filter_cons, decide_False by (apply Hl; by left).
  apply IH. intros z Hz. apply Hl. by right.
Qed.

Lemma insert_index idx P key hdr rec :
  index idx P -> rec <> 0 -> records idx !! rec = None -> Z.of_nat (length key) < PROG_ID_SIZE ->
  exists idx' P', shmem_index_insert idx key hdr rec = Ret idx' /\ index idx' P' /\
    forall key', headers idx' P' key' = if decide (key' = key) then hdr :: headers idx P key else headers idx P key'.
Proof.
  intros I Hr Hn Hk. destruct (index_bucket idx P key I) as [l El]. unfold shmem_index_insert, bug_on.
  rewrite (proj2 (Z.eqb_neq _ _) Hr). destruct (Z.ltb_spec PROG_ID_SIZE (Z.of_nat (length key) + 1)); [lia|].
  set (idx' := ShmemIndex _ _ _ _). set (i := key_bucket idx key) in *. exists idx', (<[i := rec :: l]> P). split; [done|].
  assert (Hon : forall j n, on P n j -> n <> rec).
  { intros j n Hj ->. destruct (ix_records _ _ I j rec Hj) as (r & Er & _). congruence. }
  assert (Hrec : the_record idx' rec = AllocRecord key hdr) by (unfold the_record, idx'; cbn [records]; by rewrite lookup_insert_eq).
  assert (Hold : forall n, n <> rec -> the_record idx' n = the_record idx n).
  { intros n Hne. unfold the_record, idx'. cbn [records]. by rewrite lookup_insert_ne. }
  split.
  - split; cbn [idx' idx_table idx_size records].
    + apply add_head_hrep; [apply I|done|]. split; [done|]. intros h Hh. by apply (Hon h rec Hh).
    + apply I.
    + intros j. destruct (decide (i = j)) as [<-|Hne]; [|rewrite lookup_insert_ne by done; apply I].
      rewrite lookup_insert_eq, <- (ix_buckets _ _ I), El. split; by eexists.
    + intros j n. rewrite on_insert. intros Hj. destruct (decide (n = rec)) as [->|Hne].
      * exists (AllocRecord key hdr). rewrite lookup_insert_eq. split; [done|]. destruct Hj as [[-> _]|[_ Hj]]; [done|]. by destruct (Hon j rec Hj).
      * rewrite lookup_insert_ne by done. destruct Hj as [[-> Hj]|[_ Hj]]; [|by apply (ix_records _ _ I)].
        apply elem_of_cons in Hj as [->|Hj]; [done|]. apply (ix_records _ _ I). by exists l.
  - intros key'. change (key_bucket idx' key') with (key_bucket idx key'). unfold headers at 1.
    change (key_bucket idx' key') with (key_bucket idx key'). destruct (index_bucket idx P key' I) as [l' El'].
    assert (Hl' : forall n, n ∈ l' -> n <> rec) by (intros n Hi; apply (Hon (key_bucket idx key')); by exists l').
    assert (Ef : filter (fun n => rec_key (the_record idx' n) = key') l' = filter (fun n => rec_key (the_record idx n) = key') l').
    { clear - Hl' Hold. induction l' as [|n l' IH]; [done|]. rewrite !filter_cons, Hold by (apply Hl'; by left).
      rewrite IH; [done|]. intros m Hm. apply Hl'. by right. }
    assert (Eh : (fun n => rec_obj_hdr (the_record idx' n)) <$> filter (fun n => rec_key (the_record idx' n) = key') l' = headers idx P key').
    { rewrite (headers_bucket idx P key' l' El'), Ef. apply list_fmap_ext. intros j n Hn'.
      rewrite Hold; [done|]. apply Hl'. apply list_elem_of_lookup_2, list_elem_of_filter in Hn'. tauto. }
    destruct (decide (i = key_bucket idx key')) as [Ei|Ei].
    + rewrite <- Ei, lookup_insert_eq. change (default [] (Some ?x)) with x. assert (l' = l) as -> by congruence.
      rewrite filter_cons, Hrec. cbn [rec_key]. destruct (decide (key' = key)) as [->|Hne].
      * rewrite decide_True by done. cbn [fmap list_fmap]. rewrite <- Eh, Hrec. done.
      * rewrite decide_False by congruence. exact Eh.
    + rewrite lookup_insert_ne by done. rewrite El'. change (default [] (Some ?x)) with x.
      rewrite decide_False by (intros ->; done). exact Eh.
Qed.

Lemma remove_index idx P key l l1 n l2 :
  index idx P -> P !! key_bucket idx key = Some l -> l = l1 ++ n :: l2 ->
  index (ShmemIndex (hlist_del (idx_table idx) n) (idx_size idx) (hash_seed idx) (records idx)) (<[key_bucket idx key := l1 ++ l2]> P).
Proof.
  intros I El ->. split; cbn [idx_table idx_size records].
  - exact (del_hrep _ _ n _ _ _ (HDel n) (ix_links _ _ I) El (or_introl eq_refl)).
  - apply I.
  - intros j. destruct (decide (key_bucket idx key = j)) as [<-|Hne]; [|rewrite lookup_insert_ne by done; apply I].
    rewrite lookup_insert_eq, <- (ix_buckets _ _ I), El. split; by eexists.
  - intros j m. rewrite on_insert. intros [[-> Hj]|[_ Hj]]; [|by apply (ix_records _ _ I)].
    apply (ix_records _ _ I). eexists. split; [exact El|]. rewrite elem_of_app in Hj. rewrite elem_of_app, elem_of_cons. tauto.
Qed.

Lemma delete_index fuel idx P key :
  index idx P -> (forall i l, P !! i = Some l -> (length l <= fuel)%nat) ->
  exists idx' P', shmem_index_del fuel idx key = Some (idx', bool_decide (headers idx P key <> [])) /\ index idx' P' /\
    forall key', headers idx' P' key' = if decide (key' = key) then tail (headers idx P key) else headers idx P key'.
Proof.
  intros I Hf. destruct (index_bucket idx P key I) as [l El]. unfold shmem_index_del.
  rewrite (find_record_ok fuel idx P key l I El (Hf _ _ El)), (headers_bucket idx P key l El).
  destruct (filter (fun n => rec_key (the_record idx n) = key) l) as [|n f] eqn:Ef; cbn [head fmap list_fmap tail].
  - exists idx, P. rewrite bool_decide_eq_false_2 by tauto. split; [done|]. split; [done|]. intros key'. case_decide as D; [|done].
    subst key'. rewrite (headers_bucket idx P key l El), Ef. done.
  - destruct (filter_head _ _ _ _ Ef) as (l1 & l2 & -> & Hn & Hl1 & Hf2). rewrite bool_decide_eq_true_2 by done.
    eexists _, _. split; [reflexivity|]. split; [by eapply remove_index|]. intros key'. set (idx' := ShmemIndex _ _ _ _).
    destruct (index_bucket idx P key' I) as [l' El'].
    assert (Hfil : filter (fun n => rec_key (the_record idx n) = key) l1 = []) by (by apply filter_nil).
    unfold headers at 1. change (key_bucket idx' key') with (key_bucket idx key'). change (the_record idx') with (the_record idx).
    destruct (decide (key_bucket idx key = key_bucket idx key')) as [Ei|Ei].
    + rewrite <- Ei, lookup_insert_eq. change (default [] (Some ?x)) with x. destruct (decide (key' = key)) as [->|Hne].
      * by rewrite list.filter_app, Hfil, Hf2.
      * rewrite <- Ei, El in El'. injection El' as <-. rewrite (headers_bucket idx P key' _ ltac:(rewrite <- Ei; exact El)).
        rewrite !list.filter_app, (filter_cons _ n), decide_False by congruence. done.
    + rewrite lookup_insert_ne, El' by done. change (default [] (Some ?x)) with x.
      rewrite decide_False by (intros ->; done). by rewrite (headers_bucket idx P key' l' El').
Qed.

(** The index is a map from program identifiers to stacks of object headers:
    inserting pushes the header under its key, deleting pops the newest header
    of the key and says whether there was one, looking up returns the newest; every
    other key, also one that shares the bucket, is left as it was. *)
Theorem index_is_stack_map (fuel : nat) (idx : shmem_index) (P : pool) (key : list Z) :
  index idx P -> (forall i l, P !! i = Some l -> (length l <= fuel)%nat) ->
  lookup_shmem_alloc_record fuel idx key = Some (head (headers idx P key)) /\
  (forall hdr rec, rec <> 0 -> records idx !! rec = None -> Z.of_nat (length key) < PROG_ID_SIZE ->
     exists idx' P', shmem_index_insert idx key hdr rec = Ret idx' /\ index idx' P' /\
       forall key', headers idx' P' key' = if decide (key' = key) then hdr :: headers idx P key else headers idx P key') /\
  exists idx' P', shmem_index_del fuel idx key = Some (idx', bool_decide (headers idx P key <> [])) /\ index idx' P' /\
    forall key', headers idx' P' key' = if decide (key' = key) then tail (headers idx P key) else headers idx P key'.
Proof.
  intros I Hf. split; [|split; [intros hdr rec; by apply insert_index|by apply delete_index]].
  destruct (index_bucket idx P key I) as [l El]. unfold lookup_shmem_alloc_record.
  rewrite (find_record_ok fuel idx P key l I El (Hf _ _ El)), (headers_bucket idx P key l El).
  by destruct (filter (fun n => rec_key (the_record idx n) = key) l).
Qed.

(** ** Example *)

Definition example_index : shmem_index := fst (init_shmem_index (ShmemIndex (HLinks ∅ ∅ ∅) 0 0 ∅) true (0, 12345)).

Lemma example_index_ok : index example_index (empty_chains 2048).
Proof.
  split.
  - apply init_hrep.
  - reflexivity.
  - intros i. apply empty_chains_dom.
  - by intros i n ?%empty_chains_on.
Qed.

Lemma index_is_stack_map_witness :
  exists idx' P', shmem_index_insert example_index [112; 49] 640 7000 = Ret idx' /\ index idx' P' /\
    headers idx' P' [112; 49] = [640] /\ lookup_shmem_alloc_record 1 example_index [112; 49] = Some None.
Proof.
  destruct (index_is_stack_map 1 example_index _ [112; 49] example_index_ok (fun i l => empty_chains_short 2048 1 i l)) as (Hl & Hi & _).
  destruct (Hi 640 7000 ltac:(discriminate) eq_refl eq_refl) as (idx' & P' & E & I & Hh). exists idx', P'.
  assert (E0 : headers example_index (empty_chains 2048) [112; 49] = []).
  { unfold headers. destruct (empty_chains 2048 !! _) as [l|] eqn:El; [|done]. by rewrite (empty_chains_nil _ _ _ El). }
  rewrite E0 in Hl. split; [exact E|]. split; [exact I|]. split; [|exact Hl]. rewrite Hh, decide_True, E0 by done. done.
Defined.
