(* ===== verification/Device.v ===== *)
(** The life of the driver of src/driver/src/cxl_ivpci.c: loading and unloading
    the module, attaching and detaching a device, its interrupt vectors, opening
    and mapping the device file, and the hook on process exit.

    What the kernel hands out is a list of resources; the results of its
    functions are arguments. *)
From Stdlib Require Import ZArith Lia Bool.
From stdpp Require Import base list gmap numbers.
From S2P Require Import Prelude ShmemLog ListQueue PersistCas MetaAlloc CircularQueue Cgroup FailureDetect MetaInit HList Futex ProcDeath.
Local Open Scope Z_scope.
Local Open Scope lupin_scope.

(** ** Resources *)

(** The handlers of the interrupts. *)
Inductive irq_handler :=
| interrupt_host_wake_all
| interrupt_process_wake_table_next
| interrupt_process_wake_table_all
| interrupt_proc_death_task_notify
| interrupt_other.
#[export] Instance irq_handler_eq : EqDecision irq_handler.
Proof. solve_decision. Defined.

Inductive resource :=
| PciEnabled
| Regions
| Bar0
| Bar2
| Chrdev
| DeviceFile
| MsixEntries
| MsixNames
| Msix
| Irq (i : Z) (h : irq_handler).
#[export] Instance resource_eq : EqDecision resource.
Proof. solve_decision. Defined.

(** Gives back one resource of a device. *)
Fixpoint release {A} `{EqDecision A} (x : A) (l : list A) : list A :=
  match l with
  | [] => []
  | y :: l => if decide (x = y) then l else y :: release x l
  end.

(** ** The devices of the driver *)

(** The fields of struct vcxl_ivpci_device that attaching sets. *)
Record slot := Slot {
  sl_dev : option Z; sl_minor : Z; sl_start : Z; sl_length : Z; sl_machine : Z; sl_nvectors : Z }.

(** [g_ivpci_devs], [g_ivpci_count], what the devices hold and the driver data of
    each PCI device. *)
Record driver := Driver { devs : list slot; count : Z; held : list (Z * resource); drvdata : gmap Z Z }.

Definition hold (g : driver) (pdev : Z) (r : resource) : driver :=
  Driver (devs g) (count g) ((pdev, r) :: held g) (drvdata g).
Definition drop_res (g : driver) (pdev : Z) (r : resource) : driver :=
  Driver (devs g) (count g) (release (pdev, r) (held g)) (drvdata g).
Definition set_slot (g : driver) (i : Z) (x : slot) : driver :=
  Driver (setZ (devs g) i x) (count g) (held g) (drvdata g).
Definition set_drvdata (g : driver) (pdev : Z) (i : option Z) : driver :=
  Driver (devs g) (count g) (held g)
    (match i with Some i => <[pdev := i]> (drvdata g) | None => delete pdev (drvdata g) end).

Definition no_slot : slot := Slot None 0 0 0 0 0.
Definition the_slot (g : driver) (i : Z) : slot := getZ no_slot (devs g) i.

Definition with_dev (x : slot) (d : option Z) : slot :=
  Slot d (sl_minor x) (sl_start x) (sl_length x) (sl_machine x) (sl_nvectors x).
Definition with_region (x : slot) (start len : Z) : slot :=
  Slot (sl_dev x) (sl_minor x) start len (sl_machine x) (sl_nvectors x).
Definition with_machine (x : slot) (id : Z) : slot :=
  Slot (sl_dev x) (sl_minor x) (sl_start x) (sl_length x) id (sl_nvectors x).
Definition with_nvectors (x : slot) (n : Z) : slot :=
  Slot (sl_dev x) (sl_minor x) (sl_start x) (sl_length x) (sl_machine x) n.

(** The first slot from [i] on that has a property. *)
Fixpoint first_slot {A} (f : A -> bool) (l : list A) (i : Z) : option Z :=
  match l with
  | [] => None
  | x :: l => if f x then Some i else first_slot f l (i + 1)
  end.

Definition is_free (x : slot) : bool := match sl_dev x with None => true | Some _ => false end.

Definition vcxl_ivpci_get_device (g : driver) : option Z := first_slot is_free (devs g) 0.

Definition vcxl_ivpci_find_device (g : driver) (minor : Z) : option Z :=
  first_slot (fun x => negb (is_free x) && (sl_minor x =? minor)) (devs g) 0.

(** ** Interrupt vectors *)

Definition handler_of (i : Z) : irq_handler :=
  if i =? CXL_IVPCI_VECTOR_HOST_WAKE_ALL then interrupt_host_wake_all
  else if i =? CXL_IVPCI_VECTOR_PROCESS_WAKE_TABLE_NEXT then interrupt_process_wake_table_next
  else if i =? CXL_IVPCI_VECTOR_PROCESS_WAKE_TABLE_ALL then interrupt_process_wake_table_all
  else if i =? CXL_IVPCI_VECTOR_PROC_DEATH_NOTIFY then interrupt_proc_death_task_notify
  else interrupt_other.

(** What the kernel answers: whether the two allocations succeed, the result of
    [pci_enable_msix_exact] and that of each [request_irq]. *)
Record msix_env := MsixEnv { me_entries : bool; me_names : bool; me_enable : Z; me_irq : Z -> Z }.

(** [for (; i > 0; i--)] *)
Fixpoint free_irqs (i : nat) (g : driver) (pdev : Z) : driver :=
  match i with
  | O => g
  | S k => free_irqs k (drop_res g pdev (Irq (Z.of_nat k) (handler_of (Z.of_nat k)))) pdev
  end.

(** [for (i = 0; i < nvectors; i++)]: the vectors requested before the loop ends,
    and its result. *)
Fixpoint request_irqs (n : nat) (i : Z) (e : msix_env) (g : driver) (pdev : Z) : driver * Z * Z :=
  match n with
  | O => (g, i, 0)
  | S n =>
      let ret := me_irq e i in
      if truthy ret then (g, i, ret)
      else request_irqs n (i + 1) e (hold g pdev (Irq i (handler_of i))) pdev
  end.

Definition free_entries (g : driver) (pdev ret : Z) : driver * Z := (drop_res g pdev MsixEntries, ret).
Definition free_names (g : driver) (pdev ret : Z) : driver * Z := free_entries (drop_res g pdev MsixNames) pdev ret.

Definition vcxl_ivpci_request_msix_vectors (e : msix_env) (g : driver) (idx pdev n : Z) : driver * Z :=
  let g := set_slot g idx (with_nvectors (the_slot g idx) n) in
  if negb (me_entries e) then (g, - ENOMEM)
  else
    let g := hold g pdev MsixEntries in
    if negb (me_names e) then free_entries g pdev (- ENOMEM)
    else
      let g := hold g pdev MsixNames in
      let ret := me_enable e in
      if truthy ret then free_names g pdev ret
      else
        let g := hold g pdev Msix in
        let '(g, i, ret) := request_irqs (Z.to_nat n) 0 e g pdev in
        if truthy ret then free_names (drop_res (free_irqs (Z.to_nat i) g pdev) pdev Msix) pdev ret
        else (g, 0).

Definition vcxl_ivpci_free_msix_vectors (g : driver) (idx pdev : Z) : driver :=
  let g := free_irqs (Z.to_nat (sl_nvectors (the_slot g idx))) g pdev in
  drop_res (drop_res (drop_res g pdev Msix) pdev MsixNames) pdev MsixEntries.

(** ** Attaching and detaching a device *)

(** The slots, the answers of the kernel in the order of the calls and the
    registers of the device: the results of [pci_enable_device] and
    [pci_request_regions], the revision, the size of the shared region, the two
    mappings, [cdev_add], [device_create] and the position register. *)
Record probe_env := ProbeEnv {
  pe_enable : Z; pe_regions : Z; pe_revision : Z; pe_bar2_len : Z; pe_ioremap : Z; pe_memremap : Z;
  pe_cdev_add : Z; pe_device_create : Z; pe_ivposition : Z; pe_msix : msix_env }.

(** The labels, each of which falls through to the next one. *)
Definition out (g : driver) (pdev ret : Z) : driver * Z := (set_drvdata g pdev None, ret).
Definition disable_device (g : driver) (pdev ret : Z) : driver * Z := out (drop_res g pdev PciEnabled) pdev ret.
Definition release_regions (g : driver) (pdev ret : Z) : driver * Z := disable_device (drop_res g pdev Regions) pdev ret.
Definition iounmap_bar0 (g : driver) (pdev ret : Z) : driver * Z := release_regions (drop_res g pdev Bar0) pdev ret.
Definition memunmap_bar2 (g : driver) (pdev ret : Z) : driver * Z := iounmap_bar0 (drop_res g pdev Bar2) pdev ret.
Definition delete_chrdev (g : driver) (pdev ret : Z) : driver * Z := memunmap_bar2 (drop_res g pdev Chrdev) pdev ret.
Definition destroy_device (g : driver) (idx pdev ret : Z) : driver * Z :=
  let g := drop_res g pdev DeviceFile in
  delete_chrdev (set_slot g idx (with_dev (the_slot g idx) None)) pdev ret.

(** From [g_ivpci_count++] on. *)
Definition probed (g : driver) : driver * Z := (Driver (devs g) (count g + 1) (held g) (drvdata g), 0).

(** The identity of the machine and the interrupts; [ret] is the result so far. *)
Definition probe_interrupts (e : probe_env) (g : driver) (idx pdev ret : Z) : driver * Z :=
  if pe_revision e =? 1 then
    let id := u16 (pe_ivposition e) in
    let g := set_slot g idx (with_machine (the_slot g idx) id) in
    if id >? VCXL_MAX_SUPPORTED_MACHINES then destroy_device g idx pdev ret
    else if negb (id =? 0) then
      let (g, ret) := vcxl_ivpci_request_msix_vectors (pe_msix e) g idx pdev 8 in
      if truthy ret then destroy_device g idx pdev ret else probed g
    else probed g
  else probed g.

Definition vcxl_ivpci_probe (g_max_devices : Z) (e : probe_env) (g : driver) (pdev : Z) : outcome (driver * Z) :=
  if count g >=? g_max_devices then Ret (out g pdev (- 1))
  else
    let ret := pe_enable e in
    if ret <? 0 then Ret (out g pdev ret)
    else
      let g := hold g pdev PciEnabled in
      let ret := pe_regions e in
      if ret <? 0 then Ret (disable_device g pdev ret)
      else
        let g := hold g pdev Regions in
        match vcxl_ivpci_get_device g with
        | None => Bug
        | Some idx =>
            let g := set_slot g idx (with_region (the_slot g idx) (sl_start (the_slot g idx)) (pe_bar2_len e)) in
            if pe_ioremap e =? 0 then Ret (release_regions g pdev ret)
            else
              let g := hold g pdev Bar0 in
              let g := set_slot g idx (with_region (the_slot g idx) (pe_memremap e) (pe_bar2_len e)) in
              if pe_memremap e =? 0 then Ret (iounmap_bar0 g pdev ret)
              else
                let g := hold g pdev Bar2 in
                let ret := pe_cdev_add e in
                if ret <? 0 then Ret (memunmap_bar2 g pdev ret)
                else
                  let g := hold g pdev Chrdev in
                  if pe_device_create e =? 0 then Ret (delete_chrdev g pdev ret)
                  else
                    let g := hold g pdev DeviceFile in
                    let g := set_drvdata (set_slot g idx (with_dev (the_slot g idx) (Some pdev))) pdev (Some idx) in
                    Ret (probe_interrupts e g idx pdev ret)
        end.

Definition vcxl_ivpci_remove (g : driver) (pdev : Z) : outcome driver :=
  match drvdata g !! pdev with
  | None => Bug
  | Some idx =>
      let g := vcxl_ivpci_free_msix_vectors g idx pdev in
      let g := set_slot g idx (with_dev (the_slot g idx) None) in
      let g := drop_res g pdev DeviceFile in
      let g := drop_res g pdev Chrdev in
      let g := drop_res g pdev Bar2 in
      let g := drop_res g pdev Bar0 in
      let g := drop_res g pdev Regions in
      let g := drop_res g pdev PciEnabled in
      Ret (set_drvdata g pdev None)
  end.

(** ** The device file *)

(** The slot the file refers to. *)
Definition vcxl_ivpci_open (g : driver) (minor : Z) : outcome Z :=
  match vcxl_ivpci_find_device g minor with None => Bug | Some idx => Ret idx end.

Definition vcxl_ivpci_release (x : slot) : outcome Z := bug_on (sl_start x =? 0) (Ret 0).

Definition PAGE_SHIFT : Z := 12.
Definition PAGE_SIZE : Z := 4096.
Definition PAGE_ALIGN (x : Z) : Z := Z.land (u64 (x + (PAGE_SIZE - 1))) (u64 (Z.lnot (PAGE_SIZE - 1))).

(** Mapping a page of the file: [None] is a SIGBUS, else the address of the page
    in the kernel. *)
Definition vcxl_ivpci_mmap_fault (x : slot) (pgoff : Z) : outcome (option Z) :=
  bug_on (sl_start x =? 0)
    (if u64 (Z.shiftl pgoff PAGE_SHIFT) >=? sl_length x then Ret None
     else Ret (Some (u64 (sl_start x + u64 (Z.shiftl pgoff PAGE_SHIFT))))).

(** [bar2_start] is the physical start of the region. *)
Definition vcxl_ivpci_mmap (x : slot) (bar2_start vm_start vm_end vm_pgoff : Z) : outcome Z :=
  bug_on (sl_start x =? 0)
    (let vsize := u64 (vm_end - vm_start) in
     let off := u64 (Z.shiftl vm_pgoff PAGE_SHIFT) in
     let len := PAGE_ALIGN (u64 (Z.land bar2_start (PAGE_SIZE - 1) + sl_length x)) in
     if u64 (vsize + off) >? len then Ret (- EINVAL) else Ret 0).

(** ** Process exit and panic *)

(** [hook_do_exit] before it continues with the exit.  [meta] is the table of
    groups, [None] before it is created; [live] the threads of the process that
    still run; [Ret None] waits. *)
Definition hook_do_exit (g : granularity) (nr_cpu_ids cpu_id : Z) (meta : option cxlcg_meta) (machine_id : Z)
  (current group_leader live exit_code : Z) : outcome (option (option cxlcg_meta * option Z)) :=
  if current =? group_leader then
    let exit_code_prog := u32 (Z.shiftr exit_code 8) in
    if negb (exit_code_prog =? 0) then
      if live >? 1 then Ret None
      else
        match meta with
        | None => Ret (Some (None, None))
        | Some m =>
            let! o := notify_proc_failure g nr_cpu_ids cpu_id m machine_id group_leader in
            Ret (match o with None => None | Some (m, msg) => Some (Some m, msg) end)
        end
    else Ret (Some (meta, None))
  else Ret (Some (meta, None)).

(** [hook_panic] up to its endless loop. *)
Definition hook_panic (m : cxlcg_meta) (machine_id : Z) : cxlcg_meta := increment_gen_id m machine_id.

(** ** Hooks on kernel functions *)

(** What the module holds: the hooks by number, and the rest. *)
Inductive mod_resource :=
| FtraceFilter (i : Z)
| FtraceFunction (i : Z)
| ChrdevRegion
| DevArray
| DevClass
| PciDriver
| NetlinkFamily.
#[export] Instance mod_resource_eq : EqDecision mod_resource.
Proof. solve_decision. Defined.

(** The answers of the kernel for each hook: whether the symbol is known, and the
    results of [ftrace_set_filter_ip] and [register_ftrace_function]. *)
Record hook_env := HookEnv { he_found : Z -> bool; he_filter : Z -> Z; he_register : Z -> Z }.

Definition ENOENT : Z := 2.

Definition fh_resolve_hook_address (e : hook_env) (i : Z) : Z := if he_found e i then 0 else - ENOENT.

Definition fh_install_hook (e : hook_env) (h : list mod_resource) (i : Z) : list mod_resource * Z :=
  let err := fh_resolve_hook_address e i in
  if truthy err then (h, err)
  else
    let err := he_filter e i in
    if truthy err then (h, err)
    else
      let h := FtraceFilter i :: h in
      let err := he_register e i in
      if truthy err then (h, err) else (FtraceFunction i :: h, 0).

(** When the kernel gives back what it is asked to. *)
Definition fh_remove_hook (h : list mod_resource) (i : Z) : list mod_resource :=
  release (FtraceFilter i) (release (FtraceFunction i) h).

(** [while (i != 0)] *)
Fixpoint undo_hooks (i : nat) (h : list mod_resource) : list mod_resource :=
  match i with
  | O => h
  | S k => undo_hooks k (fh_remove_hook h (Z.of_nat k))
  end.

(** [for (i = 0; i < count; i++)], with [n] hooks to go. *)
Fixpoint install_from (e : hook_env) (n : nat) (i : nat) (h : list mod_resource) : list mod_resource * Z :=
  match n with
  | O => (h, 0)
  | S n =>
      let (h, err) := fh_install_hook e h (Z.of_nat i) in
      if truthy err then (undo_hooks i h, err) else install_from e n (S i) h
  end.

Definition fh_install_hooks (e : hook_env) (count : nat) (h : list mod_resource) : list mod_resource * Z :=
  install_from e count 0 h.

Definition fh_remove_hooks (count : nat) (h : list mod_resource) : list mod_resource :=
  fold_left (fun h i => fh_remove_hook h (Z.of_nat i)) (seq 0 count) h.

(** ** Loading and unloading the module *)

(** panic and do_exit *)
Definition hooks_count : nat := 2.

Record init_env := InitEnv {
  ie_chrdev : Z; ie_devs : bool; ie_class : Z; ie_register : Z; ie_netlink : Z; ie_hooks : hook_env }.

Definition unregister_chrdev (h : list mod_resource) : list mod_resource := release ChrdevRegion h.
Definition free_devs (h : list mod_resource) : list mod_resource := unregister_chrdev (release DevArray h).
Definition destroy_class (h : list mod_resource) : list mod_resource := free_devs (release DevClass h).

(** The minors of the slots. *)
Definition init_slots (g_max_devices minor : Z) : list slot :=
  map (fun i => Slot None (minor + i) 0 0 0 0) (seqZ 0 g_max_devices).

(** The resources, the slots and the task table once they are set up, and the result. *)
Definition vcxl_ivpci_init (g_max_devices minor : Z) (e : init_env) (r : robust) (h : list mod_resource)
  : list mod_resource * option (list slot * robust) * Z :=
  if ie_chrdev e <? 0 then (h, None, - 1)
  else
    let h := ChrdevRegion :: h in
    if negb (ie_devs e) then (unregister_chrdev h, None, - 1)
    else
      let h := DevArray :: h in
      let r := init_vcxl_task_robust_hashtable r in
      if ie_class e =? 0 then (free_devs h, None, - 1)
      else
        let h := DevClass :: h in
        if ie_register e <? 0 then (destroy_class h, None, - 1)
        else
          let h := PciDriver :: h in
          if truthy (ie_netlink e) then (destroy_class h, None, - 1)
          else
            let h := NetlinkFamily :: h in
            let (h, ret) := fh_install_hooks (ie_hooks e) hooks_count h in
            if truthy ret then (destroy_class h, None, - 1)
            else (h, Some (init_slots g_max_devices minor, r), 0).

(** [None] is a bucket whose walk exceeds its fuel. *)
Definition vcxl_ivpci_exit (fuel : nat) (r : robust) (h : list mod_resource) : option (list mod_resource * robust) :=
  let h := release NetlinkFamily h in
  let h := release PciDriver h in
  let h := release DevClass h in
  let h := release DevArray h in
  match exit_vcxl_task_robust_hashtable fuel r with
  | None => None
  | Some r =>
      let h := release ChrdevRegion h in
      Some (fh_remove_hooks hooks_count h, r)
  end.

(** ** What is held *)

Definition with_held (g : driver) (l : list (Z * resource)) : driver := Driver (devs g) (count g) l (drvdata g).

(** The vectors below [n], the newest first. *)
Fixpoint irqs_below (pdev : Z) (n : nat) : list (Z * resource) :=
  match n with
  | O => []
  | S k => (pdev, Irq (Z.of_nat k) (handler_of (Z.of_nat k))) :: irqs_below pdev k
  end.

Definition msix_held (pdev : Z) (n : nat) : list (Z * resource) :=
  irqs_below pdev n ++ [(pdev, Msix); (pdev, MsixNames); (pdev, MsixEntries)].

Definition base_held (pdev : Z) : list (Z * resource) :=
  map (pair pdev) [DeviceFile; Chrdev; Bar2; Bar0; Regions; PciEnabled].

(** A device of revision 1 with an identity has interrupts. *)
Definition wants_msix (e : probe_env) : bool := (pe_revision e =? 1) && negb (u16 (pe_ivposition e) =? 0).

Definition attached_held (e : probe_env) (pdev : Z) : list (Z * resource) :=
  (if wants_msix e then msix_held pdev 8 else []) ++ base_held pdev.

Lemma release_cons {A} `{EqDecision A} (x : A) l : release x (x :: l) = l.
Proof. cbn. by rewrite decide_True. Qed.

Lemma drop_hold g pdev r : drop_res (hold g pdev r) pdev r = g.
Proof. unfold drop_res, hold. cbn [devs count held drvdata]. rewrite release_cons. by destruct g. Qed.

Lemma drop_held g pdev r l : held g = (pdev, r) :: l -> drop_res g pdev r = with_held g l.
Proof. intros H. unfold drop_res. by rewrite H, release_cons. Qed.

Lemma with_held_id g l : held g = l -> with_held g l = g.
Proof. intros <-. by destruct g. Qed.

Lemma free_irqs_below n g pdev l : held g = irqs_below pdev n ++ l -> free_irqs n g pdev = with_held g l.
Proof.
  revert g. induction n as [|n IH]; intros g H; [by destruct g; cbn in *; subst|].
  cbn [free_irqs irqs_below app] in *. rewrite (drop_held _ _ _ _ H). by rewrite IH.
Qed.

Lemma request_irqs_held e n i g pdev l g' i' ret :
  held g = irqs_below pdev i ++ l -> request_irqs n (Z.of_nat i) e g pdev = (g', i', ret) ->
  exists k, i' = Z.of_nat k /\ g' = with_held g (irqs_below pdev k ++ l) /\ (ret = 0 -> k = (i + n)%nat).
Proof.
  revert i g. induction n as [|n IH]; intros i g H; cbn [request_irqs].
  - intros [= <- <- <-]. exists i. rewrite <- H, Nat.add_0_r. by destruct g.
  - destruct (truthy _) eqn:T.
    + intros [= <- <- <-]. exists i. rewrite <- H. split; [done|]. split; [by destruct g|].
      intros E. unfold truthy in T. by rewrite E in T.
    + replace (Z.of_nat i + 1) with (Z.of_nat (S i)) by lia. intros E.
      destruct (IH (S i) (hold g pdev (Irq (Z.of_nat i) (handler_of (Z.of_nat i))))) as (k & ? & -> & Hk);
        [cbn [hold held irqs_below]; by rewrite H|exact E|].
      exists k. split_and!; [done..|]. intros; rewrite Hk by done; lia.
Qed.

(** The interrupt vectors of a device are set up completely, each with the handler
    of its number, or not at all. *)
Lemma request_msix_all e g idx pdev n g' ret :
  0 <= n -> vcxl_ivpci_request_msix_vectors e g idx pdev n = (g', ret) ->
  let g0 := set_slot g idx (with_nvectors (the_slot g idx) n) in
  ret = 0 /\ g' = with_held g0 (msix_held pdev (Z.to_nat n) ++ held g) \/ ret <> 0 /\ g' = g0.
Proof.
  intros Hn. unfold vcxl_ivpci_request_msix_vectors. set (g0 := set_slot _ _ _). cbv zeta.
  assert (Eg : held g0 = held g) by done. clearbody g0.
  destruct (me_entries e); cbn [negb]; [|intros [= <- <-]; by right].
  destruct (me_names e); cbn [negb].
  2: { intros [= <- <-]. right. by rewrite drop_hold. }
  unfold free_names, free_entries. destruct (truthy (me_enable e)) eqn:T.
  { intros [= <- <-]. right. split; [intros E; by rewrite E in T|].
    by rewrite !drop_hold. }
  set (g1 := hold (hold (hold g0 _ _) _ _) _ _).
  destruct (request_irqs _ _ _ _ _) as [[g2 i] r] eqn:R.
  change 0 with (Z.of_nat 0) in R. apply (request_irqs_held _ _ _ _ _ (held g1)) in R as (k & -> & -> & Hk); [|done].
  rewrite Nat2Z.id. destruct (truthy r) eqn:T'.
  - intros [= <- <-]. right. split; [intros E; by rewrite E in T'|].
    rewrite (free_irqs_below _ _ _ (held g1)) by done. change (with_held (with_held g1 _) (held g1)) with (with_held g1 (held g1)).
    rewrite with_held_id by done. subst g1. by rewrite !drop_hold.
  - intros [= <- <-]. left. split; [done|]. rewrite Hk by (unfold truthy in T'; lia). subst g1.
    unfold with_held, msix_held. cbn [hold devs count held drvdata]. by rewrite Eg, <- app_assoc.
Qed.

(** ** Attaching a device *)

Lemma first_slot_some {A} (f : A -> bool) d l i k : first_slot f l k = Some i -> k <= i < k + Z.of_nat (length l) /\ f (getZ d l (i - k)) = true.
Proof.
  revert k. induction l as [|x l IH]; intros k; cbn [first_slot length]; [done|]. destruct (f x) eqn:E.
  - intros [= <-]. split; [lia|]. rewrite Z.sub_diag. exact E.
  - intros H. apply IH in H as [H1 H2]. split; [lia|]. revert H2. unfold getZ.
    replace (Z.to_nat (i - k)) with (S (Z.to_nat (i - (k + 1)))) by lia. done.
Qed.

(** The slot that is taken is free. *)
Lemma get_device_free g idx :
  vcxl_ivpci_get_device g = Some idx -> 0 <= idx < Z.of_nat (length (devs g)) /\ sl_dev (the_slot g idx) = None.
Proof.
  intros H. apply (first_slot_some _ no_slot) in H as [H1 H2]. rewrite Z.sub_0_r in H2. split; [lia|].
  unfold is_free, the_slot in *. by destruct (sl_dev _).
Qed.

Lemma length_setZ {A} (l : list A) i x : length (setZ l i x) = length l.
Proof. apply length_insert. Qed.

Lemma setZ_same_dev l i x :
  0 <= i < Z.of_nat (length l) -> sl_dev x = sl_dev (getZ no_slot l i) -> map sl_dev (setZ l i x) = map sl_dev l.
Proof.
  intros Hi Hx. unfold setZ. rewrite (list_fmap_insert sl_dev). apply list_insert_id. rewrite list_lookup_fmap, Hx.
  unfold getZ. destruct (lookup_lt_is_Some_2 l (Z.to_nat i)) as [y E]; [lia|]. by rewrite E.
Qed.

(** A device is refused: nothing is kept of it. *)
Definition refused (g g' : driver) (pdev : Z) : Prop :=
  held g' = held g /\ count g' = count g /\ drvdata g' = delete pdev (drvdata g) /\
  map sl_dev (devs g') = map sl_dev (devs g).

(** A device is attached in slot [idx]. *)
Definition attached (e : probe_env) (g g' : driver) (pdev idx : Z) : Prop :=
  held g' = attached_held e pdev ++ held g /\ count g' = count g + 1 /\ drvdata g' = <[pdev := idx]> (drvdata g) /\
  (exists x, devs g' = setZ (devs g) idx x /\ sl_dev x = Some pdev /\ sl_minor x = sl_minor (the_slot g idx) /\
     sl_start x = pe_memremap e /\ sl_length x = pe_bar2_len e /\
     (pe_revision e = 1 -> sl_machine x = u16 (pe_ivposition e)) /\ (wants_msix e = true -> sl_nvectors x = 8)).

(** The causes of a refusal for which the result does not say so. *)
Definition silent_cause (e : probe_env) : Prop :=
  pe_ioremap e = 0 \/ pe_memremap e = 0 \/ pe_device_create e = 0 \/ VCXL_MAX_SUPPORTED_MACHINES < u16 (pe_ivposition e).

(** What each label gives back. *)
Lemma disable_device_eq g pdev ret l :
  held g = (pdev, PciEnabled) :: l -> disable_device g pdev ret = out (with_held g l) pdev ret.
Proof. intros H. unfold disable_device. by rewrite (drop_held _ _ _ _ H). Qed.
Lemma release_regions_eq g pdev ret l :
  held g = (pdev, Regions) :: (pdev, PciEnabled) :: l -> release_regions g pdev ret = out (with_held g l) pdev ret.
Proof. intros H. unfold release_regions. rewrite (drop_held _ _ _ _ H). by rewrite (disable_device_eq _ _ _ l). Qed.
Lemma iounmap_bar0_eq g pdev ret l :
  held g = (pdev, Bar0) :: (pdev, Regions) :: (pdev, PciEnabled) :: l -> iounmap_bar0 g pdev ret = out (with_held g l) pdev ret.
Proof. intros H. unfold iounmap_bar0. rewrite (drop_held _ _ _ _ H). by rewrite (release_regions_eq _ _ _ l). Qed.
Lemma memunmap_bar2_eq g pdev ret l :
  held g = map (pair pdev) [Bar2; Bar0; Regions; PciEnabled] ++ l -> memunmap_bar2 g pdev ret = out (with_held g l) pdev ret.
Proof. intros H. unfold memunmap_bar2. rewrite (drop_held _ _ _ _ H). by rewrite (iounmap_bar0_eq _ _ _ l). Qed.
Lemma delete_chrdev_eq g pdev ret l :
  held g = map (pair pdev) [Chrdev; Bar2; Bar0; Regions; PciEnabled] ++ l ->
  delete_chrdev g pdev ret = out (with_held g l) pdev ret.
Proof. intros H. unfold delete_chrdev. rewrite (drop_held _ _ _ _ H). by rewrite (memunmap_bar2_eq _ _ _ l). Qed.
Lemma destroy_device_eq g idx pdev ret l :
  held g = base_held pdev ++ l ->
  destroy_device g idx pdev ret = out (set_slot (with_held g l) idx (with_dev (the_slot g idx) None)) pdev ret.
Proof. intros H. unfold destroy_device. rewrite (drop_held _ _ _ _ H). by rewrite (delete_chrdev_eq _ _ _ l). Qed.

Ltac fields := unfold set_slot, the_slot, with_held; cbn [devs count held drvdata fst snd].


(** The rest of the attachment, when everything but the interrupts is held. *)
Lemma probe_interrupts_ok e g0 g idx pdev ret x :
  0 <= idx < Z.of_nat (length (devs g0)) -> sl_dev (the_slot g0 idx) = None ->
  g = Driver (setZ (devs g0) idx x) (count g0) (base_held pdev ++ held g0) (<[pdev := idx]> (drvdata g0)) ->
  sl_dev x = Some pdev -> sl_minor x = sl_minor (the_slot g0 idx) ->
  sl_start x = pe_memremap e -> sl_length x = pe_bar2_len e ->
  let '(g', r) := probe_interrupts e g idx pdev ret in
  r = 0 /\ attached e g0 g' pdev idx \/ refused g0 g' pdev /\ (r <> 0 \/ silent_cause e).
Proof.
  intros Hi Hf -> Hd Hm Hs Hl.
  assert (Hback : forall y r, let '(g', r') := destroy_device
      (Driver (setZ (devs g0) idx y) (count g0) (base_held pdev ++ held g0) (<[pdev := idx]> (drvdata g0))) idx pdev r in
    r' = r /\ refused g0 g' pdev).
  { intros y r. rewrite (destroy_device_eq _ _ _ _ (held g0)) by done. unfold out, set_drvdata, refused. fields.
    rewrite delete_insert_eq, setZ_setZ. split_and!; [done..|].
    apply setZ_same_dev; [done|]. cbn [with_dev sl_dev]. done. }
  unfold probe_interrupts, attached, attached_held, wants_msix.
  destruct (Z.eqb_spec (pe_revision e) 1) as [R|R]; cbn [andb].
  2: { left. unfold probed. cbn [devs count held drvdata app]. split_and!; [done..|]. exists x. by split_and!. }
  destruct (Z.gtb_spec (u16 (pe_ivposition e)) VCXL_MAX_SUPPORTED_MACHINES) as [G|G].
  { fields. rewrite setZ_setZ. specialize (Hback (with_machine (getZ no_slot (setZ (devs g0) idx x) idx) (u16 (pe_ivposition e))) ret).
    destruct (destroy_device _ _ _ _). right. split; [apply Hback|]. right. unfold silent_cause. lia. }
  fields. rewrite setZ_setZ, getZ_setZ, Z.eqb_refl by lia.
  destruct (Z.eqb_spec (u16 (pe_ivposition e)) 0) as [Z0|Z0]; cbn [negb].
  { left. unfold probed. cbn [devs count held drvdata app]. split_and!; [done..|].
    exists (with_machine x (u16 (pe_ivposition e))). by split_and!. }
  destruct (vcxl_ivpci_request_msix_vectors _ _ _ _ _) as [g1 r1] eqn:Q.
  apply request_msix_all in Q as [[-> ->]|[Hr ->]]; [| |lia]; fields; rewrite setZ_setZ, getZ_setZ, Z.eqb_refl by lia.
  - left. change (truthy 0) with false. unfold probed. cbn [devs count held drvdata app]. rewrite app_assoc. split_and!; [done..|].
    exists (with_nvectors (with_machine x (u16 (pe_ivposition e))) 8). by split_and!.
  - assert (T : truthy r1 = true) by (unfold truthy; lia). rewrite T.
    specialize (Hback (with_nvectors (with_machine x (u16 (pe_ivposition e))) 8) r1).
    destruct (destroy_device _ _ _ _). destruct Hback as [-> Hb]. right. split; [exact Hb|]. by left.
Qed.

Lemma region_slot g idx pdev start0 start len :
  0 <= idx < Z.of_nat (length (devs g)) ->
  let g1 := hold (set_slot g idx (with_region (the_slot g idx) start0 len)) pdev Bar0 in
  set_slot g1 idx (with_region (the_slot g1 idx) start len) = hold (set_slot g idx (with_region (the_slot g idx) start len)) pdev Bar0.
Proof. intros Hi. cbv zeta. unfold hold. fields. by rewrite setZ_setZ, getZ_setZ, Z.eqb_refl by lia. Qed.


(** Two slots, and a device that gets everything it asks for. *)
Definition example_driver : driver := Driver (init_slots 2 0) 0 [] ∅.
Definition example_msix : msix_env := MsixEnv true true 0 (fun _ => 0).
Definition example_probe (position : Z) : probe_env := ProbeEnv 0 0 1 1048576 1 4096 0 1 position example_msix.


(** ** Detaching a device *)

Lemma free_msix_held g idx pdev n l :
  sl_nvectors (the_slot g idx) = Z.of_nat n -> held g = msix_held pdev n ++ l ->
  vcxl_ivpci_free_msix_vectors g idx pdev = with_held g l.
Proof.
  intros Hn Hh. unfold vcxl_ivpci_free_msix_vectors. rewrite Hn, Nat2Z.id.
  unfold msix_held in Hh. rewrite <- app_assoc in Hh. rewrite (free_irqs_below _ _ _ _ Hh). cbn [app].
  by rewrite !(drop_held (with_held _ _) _ _ _ eq_refl).
Qed.

(** Detaching undoes attaching.  A device with interrupts that was attached and
    is removed leaves every resource, the driver data and the slots as they were
    before; only the count of devices stays one higher, so that the driver refuses
    the device, with free slots, once as many devices were attached as it allows. *)
Theorem remove_undoes_probe (g_max_devices : Z) (e : probe_env) (g g' : driver) (pdev idx : Z) :
  vcxl_ivpci_get_device g = Some idx -> drvdata g !! pdev = None -> wants_msix e = true -> attached e g g' pdev idx ->
  exists g'', vcxl_ivpci_remove g' pdev = Ret g'' /\
    held g'' = held g /\ drvdata g'' = drvdata g /\ map sl_dev (devs g'') = map sl_dev (devs g) /\
    count g'' = count g + 1 /\
    (g_max_devices <= count g + 1 -> forall e, exists g3, vcxl_ivpci_probe g_max_devices e g'' pdev = Ret (g3, - 1)).
Proof.
  intros Hi Hn Hw (Hh & Hc & Hd & x & Hx & _ & _ & _ & _ & _ & H8). destruct (get_device_free g idx Hi) as [Hr Hf].
  assert (Ex : the_slot g' idx = x) by (unfold the_slot; by rewrite Hx, getZ_setZ, Z.eqb_refl by lia).
  unfold vcxl_ivpci_remove. rewrite Hd, lookup_insert_eq.
  rewrite (free_msix_held _ _ _ 8 (base_held pdev ++ held g));
    [|rewrite Ex; by apply H8|unfold attached_held in Hh; rewrite Hw in Hh; rewrite Hh; symmetry; apply app_assoc].
  set (g2 := set_slot _ _ _). assert (E2 : held g2 = base_held pdev ++ held g) by done. cbn [base_held map app] in E2.
  rewrite (drop_held g2 _ _ _ E2), !(drop_held (with_held _ _) _ _ _ eq_refl).
  eexists. split; [reflexivity|]. cbn [set_drvdata devs count held drvdata with_held]. split_and!; [done|..].
  - subst g2. cbn [set_slot drvdata with_held]. rewrite Hd, delete_insert_eq. by apply delete_id.
  - subst g2. cbn [set_slot devs with_held]. rewrite Hx, setZ_setZ. by apply setZ_same_dev.
  - done.
  - intros Hmax e'. unfold vcxl_ivpci_probe.
    replace (_ >=? g_max_devices) with true by (symmetry; apply Z.geb_le; change (g_max_devices <= count g'); lia).
    by eexists.
Qed.

Lemma remove_undoes_probe_witness :
  exists g', vcxl_ivpci_probe 1 (example_probe 1) (Driver (init_slots 1 0) 0 [] ∅) 7 = Ret (g', 0) /\
  exists g'', vcxl_ivpci_remove g' 7 = Ret g'' /\
    held g'' = [] /\ drvdata g'' = ∅ /\ map sl_dev (devs g'') = [None] /\ count g'' = 1 /\
    (1 <= 1 -> forall e, exists g3, vcxl_ivpci_probe 1 e g'' 7 = Ret (g3, - 1)).
Proof.
  eexists. split; [reflexivity|].
  apply (remove_undoes_probe 1 (example_probe 1) (Driver (init_slots 1 0) 0 [] ∅) _ 7 0); [reflexivity|reflexivity|reflexivity|].
  split_and!; [reflexivity|reflexivity|reflexivity|]. eexists. split_and!; reflexivity.
Defined.

(** ** Mapping the region *)

(** Clearing the offset within a page. *)
Lemma page_mask_down x : 0 <= x < 2 ^ 64 -> Z.land x (u64 (Z.lnot (PAGE_SIZE - 1))) = x / PAGE_SIZE * PAGE_SIZE.
Proof.
  intros Hx. unfold PAGE_SIZE. change (u64 (Z.lnot (4096 - 1))) with (Z.shiftl (Z.ones 52) 12).
  assert (E : Z.land x (Z.shiftl (Z.ones 52) 12) = Z.ldiff x (Z.ones 12)).
  { apply Z.bits_inj'. intros n Hn. rewrite Z.land_spec, Z.ldiff_spec, Z.shiftl_spec by lia.
    destruct (Z.lt_ge_cases n 64) as [L|L].
    - f_equal. rewrite (Z.testbit_ones_nonneg 12) by lia. destruct (Z.lt_ge_cases n 12).
      + rewrite Z.testbit_neg_r by lia. destruct (Z.ltb_spec n 12); [done|lia].
      + rewrite Z.testbit_ones_nonneg by lia. destruct (Z.ltb_spec n 12), (Z.ltb_spec (n - 12) 52); lia || done.
    - rewrite (testbit_above x 64) by lia. done. }
  rewrite E, Z.ldiff_ones_r by lia. by rewrite Z.shiftl_mul_pow2, Z.shiftr_div_pow2 by lia.
Qed.

Lemma page_align_up x : 0 <= x -> x + PAGE_SIZE <= 2 ^ 64 -> PAGE_ALIGN x = (x + (PAGE_SIZE - 1)) / PAGE_SIZE * PAGE_SIZE.
Proof. intros H0 H1. unfold PAGE_ALIGN. rewrite u64_small by (unfold PAGE_SIZE in *; lia). apply page_mask_down. unfold PAGE_SIZE in *. lia. Qed.

Lemma page_align_eq x : 0 <= x -> x + PAGE_SIZE <= 2 ^ 64 -> x mod PAGE_SIZE = 0 -> PAGE_ALIGN x = x.
Proof. intros H0 H1 Hm. rewrite page_align_up by lia. unfold PAGE_SIZE in *. Z.div_mod_to_equations. lia. Qed.

(** The region of a device starts and ends at a page of the address space. *)
Definition mapped (x : slot) : Prop :=
  0 < sl_start x /\ 0 <= sl_length x /\ sl_start x + sl_length x < 2 ^ 64 - PAGE_SIZE /\
  sl_start x mod PAGE_SIZE = 0 /\ sl_length x mod PAGE_SIZE = 0.

(** C38. A mapping of the device file shows the region and nothing else.  Whatever
    page a fault asks for, the page it gets lies inside the region or the fault is
    refused; a mapping that does not wrap around the address space is accepted
    exactly when it ends within the region; and each page of an accepted mapping is
    then served, at its distance from the start of the region. *)
Theorem mmap_serves_region (x : slot) (bar2_start vm_start vm_end vm_pgoff : Z) :
  mapped x -> 0 <= bar2_start -> bar2_start mod PAGE_SIZE = 0 ->
  0 <= vm_start <= vm_end -> vm_end < 2 ^ 64 -> 0 <= vm_pgoff -> vm_pgoff * PAGE_SIZE + (vm_end - vm_start) < 2 ^ 64 ->
  (forall pgoff a, vcxl_ivpci_mmap_fault x pgoff = Ret (Some a) -> sl_start x <= a /\ a + PAGE_SIZE <= sl_start x + sl_length x) /\
  (vcxl_ivpci_mmap x bar2_start vm_start vm_end vm_pgoff = Ret 0 <->
     vm_pgoff * PAGE_SIZE + (vm_end - vm_start) <= sl_length x) /\
  (vcxl_ivpci_mmap x bar2_start vm_start vm_end vm_pgoff = Ret 0 ->
   forall pgoff, vm_pgoff <= pgoff -> (pgoff - vm_pgoff) * PAGE_SIZE < vm_end - vm_start ->
     vcxl_ivpci_mmap_fault x pgoff = Ret (Some (sl_start x + pgoff * PAGE_SIZE))).
Proof.
  intros (S0 & L0 & SL & SA & LA) B0 BA V0 V1 P0 P1. unfold vcxl_ivpci_mmap_fault, vcxl_ivpci_mmap, bug_on.
  destruct (Z.eqb_spec (sl_start x) 0) as [|_]; [lia|].
  assert (E : Z.land bar2_start (PAGE_SIZE - 1) = 0)
    by (change (PAGE_SIZE - 1) with (Z.ones 12); rewrite Z.land_ones by lia; exact BA).
  unfold PAGE_SHIFT in *. rewrite E. clear E. rewrite Z.add_0_l.
  rewrite (u64_small (sl_length x)), page_align_eq by (unfold PAGE_SIZE in *; lia).
  assert (Sh : forall k, u64 (Z.shiftl k 12) = u64 (k * PAGE_SIZE)) by (intros k; rewrite Z.shiftl_mul_pow2 by lia; done).
  rewrite Sh, (u64_small (vm_end - vm_start)), (u64_small (vm_pgoff * PAGE_SIZE)) by (unfold PAGE_SIZE in *; lia).
  rewrite (u64_small (vm_end - vm_start + vm_pgoff * PAGE_SIZE)) by (unfold PAGE_SIZE in *; lia). split_and!.
  - intros k a. rewrite Sh. pose proof (Z.mod_pos_bound (k * PAGE_SIZE) (2 ^ 64) eq_refl) as Hb. fold (u64 (k * PAGE_SIZE)) in Hb.
    assert (Hm : u64 (k * PAGE_SIZE) mod PAGE_SIZE = 0).
    { unfold u64. rewrite <- (Znumtheory.Zmod_div_mod PAGE_SIZE (2 ^ 64)); [apply Z.mod_mul; done|done|done|]. by exists (2 ^ 52). }
    set (o := u64 (k * PAGE_SIZE)) in *. clearbody o. destruct (Z.geb_spec o (sl_length x)); [done|]. intros [= <-].
    unfold PAGE_SIZE in *. rewrite u64_small by lia. split; [lia|]. Z.div_mod_to_equations. lia.
  - destruct (Z.gtb_spec (vm_end - vm_start + vm_pgoff * PAGE_SIZE) (sl_length x)); split; intros Q; try lia; done.
  - destruct (Z.gtb_spec (vm_end - vm_start + vm_pgoff * PAGE_SIZE) (sl_length x)); [done|]. intros _ k K0 K1. rewrite Sh.
    rewrite (u64_small (k * PAGE_SIZE)) by (unfold PAGE_SIZE in *; lia).
    destruct (Z.geb_spec (k * PAGE_SIZE) (sl_length x)); [unfold PAGE_SIZE in *; lia|].
    rewrite u64_small by (unfold PAGE_SIZE in *; lia). done.
Qed.

Lemma mmap_serves_region_witness :
  vcxl_ivpci_mmap_fault (Slot (Some 7) 0 8192 65536 1 8) 5 = Ret (Some 28672).
Proof.
  destruct (mmap_serves_region (Slot (Some 7) 0 8192 65536 1 8) 1048576 0 12288 4) as (_ & A & B);
    [vm_compute; repeat split; discriminate || reflexivity|lia|reflexivity|lia|lia|lia|unfold PAGE_SIZE; lia|].
  refine (B _ 5 _ _); [apply A; unfold PAGE_SIZE; cbn; lia|lia|unfold PAGE_SIZE; lia].
Defined.

(** ** Hooks *)

(** The hooks from [i] on, [n] of them, the newest first. *)
Fixpoint hooks_held (i n : nat) : list mod_resource :=
  match n with
  | O => []
  | S n => FtraceFunction (Z.of_nat (i + n)) :: FtraceFilter (Z.of_nat (i + n)) :: hooks_held i n
  end.

Lemma release_app {A} `{EqDecision A} (x : A) l1 l2 : x ∉ l1 -> release x (l1 ++ x :: l2) = l1 ++ l2.
Proof.
  induction l1 as [|y l1 IH]; intros H; cbn [app]; [apply release_cons|]. cbn [release].
  apply not_elem_of_cons in H as [H1 H2]. rewrite decide_False by done. by rewrite IH.
Qed.

Lemma hooks_held_split i n : hooks_held i (S n) = hooks_held (S i) n ++ [FtraceFunction (Z.of_nat i); FtraceFilter (Z.of_nat i)].
Proof.
  induction n as [|n IH]; [cbn; by rewrite Nat.add_0_r|].
  change (hooks_held i (S (S n))) with (FtraceFunction (Z.of_nat (i + S n)) :: FtraceFilter (Z.of_nat (i + S n)) :: hooks_held i (S n)).
  rewrite IH. cbn [hooks_held app]. by rewrite Nat.add_succ_r, Nat.add_succ_l.
Qed.

Lemma hooks_held_above i n r : r ∈ hooks_held i n -> exists j, (i <= j)%nat /\ (r = FtraceFunction (Z.of_nat j) \/ r = FtraceFilter (Z.of_nat j)).
Proof.
  induction n as [|n IH]; cbn [hooks_held]; [by intros ?%elem_of_nil|].
  rewrite !elem_of_cons. intros [->|[->|H]]; [exists (i + n)%nat; split; [lia|by left]|exists (i + n)%nat; split; [lia|by right]|by apply IH].
Qed.

Lemma remove_hooks_held n i l :
  fold_left (fun h i => fh_remove_hook h (Z.of_nat i)) (seq i n) (hooks_held i n ++ l) = l.
Proof.
  revert i. induction n as [|n IH]; intros i; [done|]. rewrite hooks_held_split. cbn [seq fold_left].
  unfold fh_remove_hook at 2. rewrite <- app_assoc. cbn [app]. rewrite !release_app; [apply IH|..];
    intros (j & Hj & [E|E])%hooks_held_above; try discriminate; injection E; lia.
Qed.

(** The hooks that were installed are removed below one that failed, whose filter
    may stay. *)
Lemma undo_hooks_held n (top : list mod_resource) l :
  (forall r, r ∈ top -> exists j, (n <= j)%nat /\ r = FtraceFilter (Z.of_nat j)) ->
  undo_hooks n (top ++ hooks_held 0 n ++ l) = top ++ l.
Proof.
  induction n as [|n IH]; intros H; [done|]. cbn [undo_hooks hooks_held app]. unfold fh_remove_hook. rewrite !release_app.
  - apply IH. intros r (j & Hj & ->)%H. exists j. split; [lia|done].
  - intros (j & Hj & E)%H. injection E. lia.
  - intros (j & Hj & E)%H. done.
Qed.

Lemma truthy_spec z : truthy z = true <-> z <> 0.
Proof. unfold truthy. lia. Qed.

Lemma install_from_ok e n i l :
  let '(h, err) := install_from e n i (hooks_held 0 i ++ l) in
  err = 0 /\ h = hooks_held 0 (i + n) ++ l \/
  err <> 0 /\ (h = l \/ exists j, (j < i + n)%nat /\ he_register e (Z.of_nat j) <> 0 /\ h = FtraceFilter (Z.of_nat j) :: l).
Proof.
  revert i. induction n as [|n IH]; intros i; cbn [install_from]; [left; by rewrite Nat.add_0_r|].
  unfold fh_install_hook. destruct (truthy (fh_resolve_hook_address _ _)) eqn:T1.
  { rewrite T1. apply truthy_spec in T1. right. split; [done|]. left. apply (undo_hooks_held i []). by intros r ?%elem_of_nil. }
  destruct (truthy (he_filter _ _)) eqn:T2.
  { rewrite T2. apply truthy_spec in T2. right. split; [done|]. left. apply (undo_hooks_held i []). by intros r ?%elem_of_nil. }
  destruct (truthy (he_register _ _)) eqn:T3.
  { rewrite T3. apply truthy_spec in T3. right. split; [done|]. right. exists i. split_and!; [lia|done|].
    apply (undo_hooks_held i [FtraceFilter (Z.of_nat i)]). intros r ->%list_elem_of_singleton. by exists i. }
  change (truthy 0) with false. cbv iota.
  specialize (IH (S i)). cbn [hooks_held app] in IH. rewrite Nat.add_0_l in IH. by rewrite <- Nat.add_succ_comm.
Qed.

(** ** Loading the module *)

Definition module_held : list mod_resource := [NetlinkFamily; PciDriver; DevClass; DevArray; ChrdevRegion].

(** The steps before the driver is registered succeed. *)
Definition registers (e : init_env) : Prop := 0 <= ie_chrdev e /\ ie_devs e = true /\ ie_class e <> 0 /\ 0 <= ie_register e.

(** Loading the module either succeeds, holding each resource once, and unloading
    then gives all of them back; or it fails with -1.  A failure before the driver
    is registered keeps nothing.  After that the driver stays registered although
    the array of its devices was freed, together with the netlink family when only
    the hooks failed, and possibly the filter of a hook. *)
Theorem module_init_exit (g_max_devices minor : Z) (e : init_env) (r : robust) (h : list mod_resource) :
  let '(h', st, ret) := vcxl_ivpci_init g_max_devices minor e r h in
  (ret = 0 /\ st = Some (init_slots g_max_devices minor, init_vcxl_task_robust_hashtable r) /\
   h' = hooks_held 0 hooks_count ++ module_held ++ h /\
   forall fuel r1 r2, exit_vcxl_task_robust_hashtable fuel r1 = Some r2 -> vcxl_ivpci_exit fuel r1 h' = Some (h, r2)) \/
  (ret = - 1 /\ st = None /\ ~ registers e /\ h' = h) \/
  (ret = - 1 /\ st = None /\ registers e /\
   (ie_netlink e <> 0 /\ h' = PciDriver :: h \/
    ie_netlink e = 0 /\ exists filter, h' = filter ++ [NetlinkFamily; PciDriver] ++ h /\
      (filter = [] \/ exists j, (j < hooks_count)%nat /\ he_register (ie_hooks e) (Z.of_nat j) <> 0 /\ filter = [FtraceFilter (Z.of_nat j)]))).
Proof.
  unfold vcxl_ivpci_init, registers.
  destruct (Z.ltb_spec (ie_chrdev e) 0); [right; left; split_and!; [done..|lia|done]|].
  destruct (ie_devs e) eqn:D; cbn [negb]; [|right; left; split_and!; [done..| |]; [by intros (_ & ? & _)|apply release_cons]].
  destruct (Z.eqb_spec (ie_class e) 0).
  { right; left; split_and!; [done..|lia|]. unfold free_devs, unregister_chrdev. by rewrite !release_cons. }
  destruct (Z.ltb_spec (ie_register e) 0).
  { right; left; split_and!; [done..|lia|]. unfold destroy_class, free_devs, unregister_chrdev. by rewrite !release_cons. }
  destruct (truthy (ie_netlink e)) eqn:N.
  { apply truthy_spec in N. right; right; split_and!; [done..|]. left. split; [done|]. reflexivity. }
  assert (N0 : ie_netlink e = 0) by (unfold truthy in N; lia).
  pose proof (install_from_ok (ie_hooks e) hooks_count 0 (module_held ++ h)) as I. unfold fh_install_hooks.
  change (hooks_held 0 0 ++ module_held ++ h) with (NetlinkFamily :: PciDriver :: DevClass :: DevArray :: ChrdevRegion :: h) in I.
  destruct (install_from _ _ _ _) as [h' err]. destruct I as [[-> ->]|[He I]].
  - left. split_and!; [done..|]. intros fuel r1 r2 E. unfold vcxl_ivpci_exit. rewrite E.
    exact (f_equal (fun l => Some (l, r2)) (remove_hooks_held hooks_count 0 h)).
  - apply truthy_spec in He. rewrite He. right; right; split_and!; [done..|]. right. split; [done|].
    destruct I as [->|(j & Hj & Hr & ->)].
    + exists []. split; [reflexivity|by left].
    + exists [FtraceFilter (Z.of_nat j)]. split; [reflexivity|]. right. by exists j.
Qed.

(** ** Which deaths are reported *)

(** Which exits are reported to the groups: the exit of a group leader whose last
    thread ends with a code that is not 0 is reported as the failure of its process;
    every exit with a code below 256, that is, each normal exit with status 0 and
    each death by a signal, and the exit of a thread that is not the leader, leaves
    the groups as they are and sends nothing. *)
Theorem exit_hook_reports (g : granularity) (nr cpu : Z) (m : cxlcg_meta) (machine_id current leader live code : Z) :
  0 <= code < 2 ^ 32 ->
  (current = leader -> 256 <= code -> live <= 1 ->
   hook_do_exit g nr cpu (Some m) machine_id current leader live code =
   (let! o := notify_proc_failure g nr cpu m machine_id leader in
    Ret (match o with None => None | Some (m, msg) => Some (Some m, msg) end))) /\
  (code < 256 \/ current <> leader ->
   hook_do_exit g nr cpu (Some m) machine_id current leader live code = Ret (Some (Some m, None))).
Proof.
  intros Hc. unfold hook_do_exit. rewrite Z.shiftr_div_pow2, u32_small by (try split; Z.div_mod_to_equations; lia).
  change (2 ^ 8) with 256. split.
  - intros -> Hg Hl. rewrite Z.eqb_refl. destruct (Z.eqb_spec (code / 256) 0); [Z.div_mod_to_equations; lia|].
    destruct (Z.gtb_spec live 1); [lia|done].
  - intros H. destruct (Z.eqb_spec current leader); [|done].
    destruct (Z.eqb_spec (code / 256) 0); [done|Z.div_mod_to_equations; lia].
Qed.

Lemma exit_hook_reports_witness :
  hook_do_exit DRAM 4 0 (Some (CxlcgMeta [] [] [] 0 0)) 1 77 77 1 9 = Ret (Some (Some (CxlcgMeta [] [] [] 0 0), None)).
Proof. apply (exit_hook_reports DRAM 4 0 (CxlcgMeta [] [] [] 0 0) 1 77 77 1 9); lia. Defined.
