(* ===== verification/Driver.v ===== *)
(** The interface of the device to user programs: the requests of
    src/driver/src/cxl_alloc.c and the dispatcher [vcxl_ivpci_ioctl] of
    src/driver/src/cxl_ivpci.c, over the models of the parts they call.

    The state is that of one machine with its device and the shared region; the
    other machines act through the region only.  A request carries what it reads
    from user memory and whether each copy fails. *)
From Stdlib Require Import ZArith Lia Bool.
From stdpp Require Import base list gmap numbers.
From S2P Require Import Prelude Bitset Redo BuddyTree BuddyInv BuddyAlloc BuddyAllocSpec ShmemLog LogSpec ListQueue PersistCas TatasLock MetaAlloc MetaSpec CircularQueue Cgroup FailureDetect MetaInit LinuxList HList PList Futex ProcDeath Device.
Local Open Scope Z_scope.
Local Open Scope lupin_scope.

(** struct vcxl_ivpci_device with the region, the table of groups ([meta], [None]
    before it exists) and the robust lists.  [meta_shmem] is 0 while it is null;
    [doorbell] are the values written to the register, [sent] the messages. *)
Record cxl_device := CxlDevice {
  meta_dram_of : meta_dram; total_machines_of : Z; region : shm; meta_shmem : Z;
  groups : option cxlcg_meta; local : cg_local; futexes : ftable; tasks : robust;
  event_toggle : Z; doorbell : list Z; sent : list Z }.

Definition with_region_state (v : cxl_device) (rs : region_state) : cxl_device :=
  CxlDevice (meta_dram_of v) (total_machines_of v) (rs_shm rs) (rs_ms rs) (Some (rs_groups rs)) (rs_local rs)
    (futexes v) (tasks v) (event_toggle v) (doorbell v) (sent v).
Definition with_total (v : cxl_device) (n : Z) : cxl_device :=
  CxlDevice (meta_dram_of v) n (region v) (meta_shmem v) (groups v) (local v)
    (futexes v) (tasks v) (event_toggle v) (doorbell v) (sent v).
Definition with_shm (v : cxl_device) (s : shm) : cxl_device :=
  CxlDevice (meta_dram_of v) (total_machines_of v) s (meta_shmem v) (groups v) (local v)
    (futexes v) (tasks v) (event_toggle v) (doorbell v) (sent v).
Definition with_groups (v : cxl_device) (m : cxlcg_meta) : cxl_device :=
  CxlDevice (meta_dram_of v) (total_machines_of v) (region v) (meta_shmem v) (Some m) (local v)
    (futexes v) (tasks v) (event_toggle v) (doorbell v) (sent v).
Definition with_futexes (v : cxl_device) (t : ftable) (m : bytes) : cxl_device :=
  CxlDevice (meta_dram_of v) (total_machines_of v) (set_mem (region v) m) (meta_shmem v) (groups v) (local v)
    t (tasks v) (event_toggle v) (doorbell v) (sent v).
Definition with_tasks (v : cxl_device) (r : robust) : cxl_device :=
  CxlDevice (meta_dram_of v) (total_machines_of v) (region v) (meta_shmem v) (groups v) (local v)
    (futexes v) r (event_toggle v) (doorbell v) (sent v).
Definition with_event (v : cxl_device) (n : Z) : cxl_device :=
  CxlDevice (meta_dram_of v) (total_machines_of v) (region v) (meta_shmem v) (groups v) (local v)
    (futexes v) (tasks v) n (doorbell v) (sent v).

(** [iowrite32] to the doorbell register *)
Definition ring_doorbell (v : cxl_device) (value : Z) : cxl_device :=
  CxlDevice (meta_dram_of v) (total_machines_of v) (region v) (meta_shmem v) (groups v) (local v)
    (futexes v) (tasks v) (event_toggle v) (doorbell v ++ [u32 value]) (sent v).
Definition with_detector (v : cxl_device) (x : detector) : cxl_device :=
  CxlDevice (meta_dram_of v) (total_machines_of v) (det_shm x) (meta_shmem v) (Some (det_meta x)) (det_local x)
    (futexes v) (tasks v) (event_toggle v) (doorbell v) (sent v ++ det_sent x).

Definition with_sent (v : cxl_device) (l : list Z) : cxl_device :=
  CxlDevice (meta_dram_of v) (total_machines_of v) (region v) (meta_shmem v) (groups v) (local v)
    (futexes v) (tasks v) (event_toggle v) (doorbell v) (sent v ++ l).

(** What is copied back to the user. *)
Inductive reply :=
| NoReply
| Desc (a : region_desc)
| Found (fa : vcxl_find_alloc)
| Cond (c : vcxl_cond_wait)
| Info (i : meta_info) (total : Z)
| Position (x : Z).

(** A request returns ([Some]) or waits. *)
Notation answer := (outcome (option (cxl_device * reply * Z))).
Definition returns (v : cxl_device) (r : reply) (rval : Z) : answer := Ret (Some (v, r, rval)).

Section Requests.
Context (g : granularity) (nr_cpu_ids cpu_id : Z).

(** The generation of this machine, which its lock words carry. *)
Definition my_gen (v : cxl_device) : Z :=
  match groups v with Some m => get_os_gen_id m (machine_id (meta_dram_of v) - 1) | None => 0 end.

(** ** Creating and recovering the metadata *)

(** With [test] the number of machines comes from the user's struct.  The result of
    [vcxl_init_meta_impl] is not looked at: on an error the pointer to the metadata
    is the old one. *)
Definition do_vcxl_init_meta (v : cxl_device) (fault_in fault_out : bool) (total : Z) (test : bool) : answer :=
  let d := meta_dram_of v in
  bug_on (mem_start d =? 0)
    (if test && fault_in then returns v NoReply (- 1)
     else
       let tot_machine := u8 total in
       if machine_id d >? VCXL_MAX_SUPPORTED_MACHINES then returns v NoReply (- EINVAL)
       else if tot_machine >? VCXL_MAX_SUPPORTED_MACHINES then returns v NoReply (- EINVAL)
       else
         let! r := vcxl_init_meta_impl g (mem (region v)) d (local v) in
         let v := match r with inl _ => v | inr rs => with_region_state v rs end in
         bug_on (meta_shmem v =? 0)
           (let info := assign_meta_info (region v) (meta_shmem v) in
            let v := with_total v tot_machine in
            if test then if fault_out then returns v NoReply (- 1) else returns v (Info info total) 0
            else returns v NoReply 0)).

(** [fuel] bounds the walks over the objects and the records. *)
Definition do_vcxl_recover_meta (fuel : nat) (v : cxl_device) (m : cxlcg_meta) (fault_in fault_out : bool) (total : Z) (test : bool)
  : answer :=
  let d := meta_dram_of v in
  bug_on (mem_start d =? 0)
    (if test && fault_in then returns v NoReply (- 1)
     else
       let tot_machine := u8 total in
       if tot_machine >? VCXL_MAX_SUPPORTED_MACHINES then returns v NoReply (- EINVAL)
       else
         let! o := recover_meta g nr_cpu_ids cpu_id fuel (region v) m (local v) d in
         match o with
         | None => Ret None
         | Some (rs, rval) =>
             let ms := if rs_ms rs =? 0 then meta_shmem v else rs_ms rs in
             let v := with_region_state v (RegionState (rs_shm rs) (rs_groups rs) (rs_local rs) ms) in
             if truthy rval then returns v NoReply rval
             else
               let info := assign_meta_info (region v) (meta_shmem v) in
               let v := with_total v tot_machine in
               if test then if fault_out then returns v NoReply (- 1) else returns v (Info info total) rval
               else returns v NoReply rval
         end).

(** ** Objects *)

Definition do_vcxl_find_alloc (fuel : nat) (v : cxl_device) (arg : vcxl_find_alloc) (fault_in fault_out : bool) : answer :=
  let d := meta_dram_of v in
  bug_on (mem_start d =? 0)
    (if fault_in then returns v NoReply (- EFAULT)
     else
       bug_on (meta_shmem v =? 0)
         (let! o := find_allocation g nr_cpu_ids cpu_id (my_gen v) fuel (region v) d (meta_shmem v) arg in
          match o with
          | None => Ret None
          | Some (s, arg) =>
              let v := with_shm v s in
              if fault_out then returns v NoReply (- 1) else returns v (Found arg) 0
          end)).

Definition do_vcxl_check_alloc (fuel : nat) (v : cxl_device) (arg : region_desc) (fault_in : bool) : answer :=
  let d := meta_dram_of v in
  bug_on (mem_start d =? 0)
    (if fault_in then returns v NoReply (- EFAULT)
     else
       bug_on (meta_shmem v =? 0)
         (let! o := check_allocation g nr_cpu_ids cpu_id (my_gen v) fuel (region v) d (meta_shmem v) arg in
          match o with
          | None => Ret None
          | Some (s, rval) => returns (with_shm v s) NoReply rval
          end)).

Definition do_vcxl_alloc (v : cxl_device) (arg : region_desc) (fault_in fault_out : bool) : answer :=
  let d := meta_dram_of v in
  bug_on (mem_start d =? 0)
    (if fault_in then returns v NoReply (- EFAULT)
     else
       bug_on (meta_shmem v =? 0)
         (let! o := atomic_allocate_memory g nr_cpu_ids cpu_id (my_gen v) (region v) d (meta_shmem v) arg in
          match o with
          | None => Ret None
          | Some (s, (rval, ret)) =>
              let v := with_shm v s in
              if truthy rval then returns v NoReply rval
              else
                let arg := RegionDesc (u64 (ret - mem_start d)) (rd_length arg) (rd_prog_id arg) in
                if fault_out then returns v NoReply (- 1) else returns v (Desc arg) rval
          end)).

(** The result of [atomic_free_memory] is not looked at. *)
Definition do_vcxl_free (fuel : nat) (v : cxl_device) (arg : region_desc) (fault_in : bool) : answer :=
  let d := meta_dram_of v in
  bug_on (mem_start d =? 0)
    (if fault_in then returns v NoReply (- EFAULT)
     else
       bug_on (meta_shmem v =? 0)
         (let! o := atomic_free_memory g nr_cpu_ids cpu_id (my_gen v) fuel (region v) d (meta_shmem v) arg in
          match o with
          | None => Ret None
          | Some (s, _) => returns (with_shm v s) NoReply 0
          end)).

(** ** The dispatcher *)

(** The requests with their arguments. *)
Inductive request :=
| IOCTL_WAKE_DOMAIN (value : Z) (fault : bool)
| IOCTL_WAIT_DOMAIN
| IOCTL_WAIT (cond : vcxl_cond_wait) (fault_in fault_out : bool)
| IOCTL_WAKE (offset arg : Z) (fault : bool)
| IOCTL_IVPOSITION (fault : bool)
| IOCTL_INIT_META (arg : Z)
| IOCTL_INIT_META_TEST (total : Z) (fault_in fault_out : bool)
| IOCTL_RECOVER_META (arg : Z)
| IOCTL_RECOVER_META_TEST (total : Z) (fault_in fault_out : bool)
| IOCTL_ALLOC (arg : region_desc) (fault_in fault_out : bool)
| IOCTL_FREE (arg : region_desc) (fault : bool)
| IOCTL_FIND_ALLOC (arg : vcxl_find_alloc) (fault_in fault_out : bool)
| IOCTL_CHECK_ALLOC (arg : region_desc) (fault : bool)
| IOCTL_SET_ROBUST_LIST (uhead : Z)
| IOCTL_REGISTER_PROCESS (arg : Z)
| IOCTL_INTR_HOST (arg : Z)
| IOCTL_CREATE_CXLCG (args : cxlcg_args) (fault : bool)
| IOCTL_DELETE_CXLCG (args : cxlcg_args) (fault : bool)
| IOCTL_JOIN_CXLCG (args : cxlcg_args) (fault : bool)
| IOCTL_LEAVE_CXLCG (args : cxlcg_args) (fault : bool)
| IOCTL_CHECK_OS_FAILURE
| IOCTL_LOCK_TRANSFER_TEST (arg : Z)
| BAD_COMMAND.

Context `{PlistHeader} (MAX_RT_PRIO : Z).

(** The kernel's [wait_event_interruptible] for a condition: its result, [None]
    while it sleeps. *)
Context (wait_event_interruptible : bool -> option Z).

(** The task that calls: its address, its group leader and priority, the address of
    its queue entry, and that of a new node of the task table.  The groups that
    recovery finds in the region, and whether this machine withholds its beats. *)
Record caller := Caller {
  current : Z; group_leader : Z; normal_prio : Z; queue_entry : Z; new_node : Z; os_of_args : Z;
  stored_groups : cxlcg_meta; stop_heartbeats : bool }.

(** A request on the table of groups, whose result is not looked at. *)
Definition group_request (v : cxl_device) (fault : bool) (op : cxlcg_meta -> outcome (option (cxlcg_meta * Z))) : answer :=
  if fault then returns v NoReply (- 1)
  else
    match groups v with
    | None => Bug
    | Some m =>
        let! o := op m in
        match o with
        | None => Ret None
        | Some (m, _) => returns (with_groups v m) NoReply 0
        end
    end.

(** [fuel] bounds the walks and the retries, [env] is what happens while the caller
    sleeps on a futex. *)
Definition vcxl_ivpci_ioctl (fuel : nat) (env : list pause) (v : cxl_device) (c : caller) (cmd : request) : answer :=
  let d := meta_dram_of v in
  let id := machine_id d in
  bug_on (mem_start d =? 0)
    match cmd with
    | IOCTL_WAKE_DOMAIN value fault =>
        if fault then returns v NoReply (- 1)
        else
          let vector := Z.land value 0xffff in
          if vector =? CXL_IVPCI_VECTOR_HOST_WAKE_ALL then returns (ring_doorbell v (Z.land value 0xffffffff)) NoReply 0
          else returns v NoReply (- EINVAL)
    | IOCTL_WAIT_DOMAIN =>
        match wait_event_interruptible (event_toggle v =? 1) with
        | None => Ret None
        | Some ret => if ret =? 0 then returns (with_event v 0) NoReply 0 else returns v NoReply ret
        end
    | IOCTL_WAIT cond fault_in fault_out =>
        let! o := do_vcxl_cond_wait MAX_RT_PRIO fuel env (futexes v) (mem (region v)) d cond fault_in fault_out
                    (queue_entry c) (current c) (normal_prio c) in
        match o with
        | None => Ret None
        | Some (t, m, cond, rval) => returns (with_futexes v t m) (Cond cond) rval
        end
    | IOCTL_WAKE offset arg fault =>
        let! o := do_vcxl_wake g nr_cpu_ids cpu_id fuel (futexes v) (mem (region v)) d fault offset arg in
        match o with
        | None => Ret None
        | Some (t, m, bell, rval) =>
            let v := with_futexes v t m in
            returns (match bell with Some x => ring_doorbell v x | None => v end) NoReply rval
        end
    | IOCTL_IVPOSITION fault =>
        (* 4 bytes from the 2 of [machine_id] on: [total_machines] follows, then padding that was zeroed *)
        if fault then returns v NoReply (- 1) else returns v (Position (u16 id + 2 ^ 16 * u8 (total_machines_of v))) 0
    | IOCTL_INIT_META arg => do_vcxl_init_meta v false false arg false
    | IOCTL_INIT_META_TEST total fi fo => do_vcxl_init_meta v fi fo total true
    | IOCTL_RECOVER_META arg => do_vcxl_recover_meta fuel v (stored_groups c) false false arg false
    | IOCTL_RECOVER_META_TEST total fi fo => do_vcxl_recover_meta fuel v (stored_groups c) fi fo total true
    | IOCTL_ALLOC arg fi fo => do_vcxl_alloc v arg fi fo
    | IOCTL_FREE arg f => do_vcxl_free fuel v arg f
    | IOCTL_FIND_ALLOC arg fi fo => do_vcxl_find_alloc fuel v arg fi fo
    | IOCTL_CHECK_ALLOC arg f => do_vcxl_check_alloc fuel v arg f
    | IOCTL_SET_ROBUST_LIST uhead =>
        match do_set_robust_list fuel (tasks v) (current c) uhead with
        | None => Ret None
        | Some (r, rval) => returns (with_tasks v r) NoReply rval
        end
    | IOCTL_REGISTER_PROCESS arg =>
        let! o := do_register_process fuel (tasks v) (Device d (total_machines_of v)) (current c) (new_node c) (u16 arg) in
        match o with
        | None => Ret None
        | Some (r, rval) => returns (with_tasks v r) NoReply rval
        end
    | IOCTL_INTR_HOST arg => returns (ring_doorbell v arg) NoReply 0
    | IOCTL_CREATE_CXLCG args f => group_request v f (fun m => do_create_cxlcg g nr_cpu_ids cpu_id m id args)
    | IOCTL_DELETE_CXLCG args f => group_request v f (fun m => do_delete_cxlcg g nr_cpu_ids cpu_id m id args)
    | IOCTL_JOIN_CXLCG args f => group_request v f (fun m => do_join_cxlcg g nr_cpu_ids cpu_id m (local v) id (group_leader c) args)
    | IOCTL_LEAVE_CXLCG args f => group_request v f (fun m => do_leave_cxlcg g nr_cpu_ids cpu_id m id (os_of_args c) args)
    | IOCTL_CHECK_OS_FAILURE =>
        match groups v with
        | None => Bug
        | Some m =>
            let! x := do_os_failure_detection g nr_cpu_ids cpu_id (stop_heartbeats c) (total_machines_of v) d (meta_shmem v)
                        m (local v) (region v) in
            returns (with_detector v x) NoReply 0
        end
    | IOCTL_LOCK_TRANSFER_TEST arg =>
        bug_on (meta_shmem v =? 0)
          (let! r := lock_transfer_test g nr_cpu_ids cpu_id (my_gen v) (region v) d (meta_shmem v) (u16 arg) in
           returns (with_shm v (fst r)) NoReply (snd r))
    | BAD_COMMAND => returns v NoReply (- 1)
    end.

(** An interrupt: the device and the values sent over netlink; [Ret None] waits for
    the lock of a queue.  [kmalloc_ok]: the buffer for the values can be allocated. *)
Definition handle_interrupt (kmalloc_ok : bool) (v : cxl_device) (h : irq_handler) : outcome (option cxl_device) :=
  let m := mem (region v) in
  let wake wt :=
    let! o := vcxl_futex_wake g nr_cpu_ids cpu_id (futexes v) m (meta_dram_of v) wt in
    Ret (match o with None => None | Some (t, m) => Some (with_futexes v t m) end) in
  match h with
  | interrupt_host_wake_all => Ret (Some (with_event v 1))
  | interrupt_process_wake_table_next => wake WAKE_NEXT
  | interrupt_process_wake_table_all => wake WAKE_ALL
  | interrupt_proc_death_task_notify =>
      let! o := vcxl_ivpci_interrupt_proc_death_task_notify g nr_cpu_ids cpu_id kmalloc_ok m (meta_dram_of v) in
      Ret (match o with
           | None => None
           | Some (m, vals) => Some (with_sent (with_shm v (set_mem (region v) m)) vals)
           end)
  | interrupt_other => Ret (Some v)
  end.
End Requests.
