(* ===== verification/DriverSpec.v ===== *)
(** The requests of user programs against a catalogue of objects: what a program
    that initialises the region and then allocates and looks up objects through
    [vcxl_ivpci_ioctl] observes. *)
From Stdlib Require Import ZArith Lia Bool.
From stdpp Require Import base list gmap numbers.
From S2P Require Import Prelude Bitset Redo BuddyTree BuddyInv BuddyAlloc BuddyAllocSpec ShmemLog LogSpec ListQueue PersistCas TatasLock MetaAlloc MetaSpec CircularQueue Cgroup FailureDetect MetaInit LinuxList HList PList Futex FutexSpec ProcDeath Device Driver.
Local Open Scope Z_scope.
Local Open Scope lupin_scope.

(** ** The metadata lock *)

Section Lock.
Context (g : granularity) (nr cpu p gen : Z) (d : meta_dram) (ms : Z).
Hypothesis Hs : survivor nr cpu p d.
Hypothesis Hg : is_gen gen.

Definition lock_word (s : shm) : Z := load64 (mem s) (ms + META_LOCK_OFF).

(** A state with another lock word. *)
Definition relock (s : shm) (w : Z) : shm := set_mem s (store64 (mem s) (ms + META_LOCK_OFF) w).

Lemma meta_lock_free s : value g (lock_word s) = UNLOCKED -> exists w, meta_lock g nr cpu gen s d ms = Ret (Some (relock s w)).
Proof.
  intros Hu. destruct Hs as (Hm & Hid & Hp). unfold meta_lock, ttas_lock_with_gen_kern, with_process_id, bug_on.
  destruct (Z.ltb_spec (machine_id d) 1); [lia|]. rewrite Hid. unfold ttas_recover_with_gen, pcas_read_uint64.
  assert (Ww : word_ok 64 (lock_word s)) by apply load64_word. fold (lock_word s).
  destruct (read_ok 64 g eq_refl _ Ww) as (R1 & R2 & R3).
  destruct (pcas_read 64 g (lock_word s)) as [v w] eqn:Er. cbn [fst snd] in *.
  change (pcas_read_noflush 64 g) with (value g) in *. rewrite R1, Hu. fold (lock_val p gen).
  destruct (Z.eqb_spec UNLOCKED (lock_val p gen)) as [E|_]; [by destruct (lock_val_nonzero p gen Hp Hg)|].
  unfold ttas_enter_with_gen. cbn [enter_loop]. unfold pcas_read_uint64, persist_cas_uint64.
  destruct (read_ok 64 g eq_refl _ R3) as (Q1 & Q2 & Q3).
  destruct (pcas_read 64 g w) as [v2 w2]. cbn [fst snd] in *. change (pcas_read_noflush 64 g) with (value g) in *.
  rewrite Q1, R2, Hu, Z.eqb_refl. cbn [negb]. fold (lock_val p gen).
  pose proof (cas_ok 64 g eq_refl w2 UNLOCKED (lock_val p gen) Q3 unlocked_ok (lock_val_ok p gen Hp Hg)) as C.
  destruct (persist_cas 64 g w2 UNLOCKED (lock_val p gen)) as [[b w3] x]. destruct C as (Eb & _ & _).
  change (pcas_read_noflush 64 g) with (value g) in Eb. rewrite Q2, R2, Hu, Z.eqb_refl in Eb. subst b. by exists w3.
Qed.

Lemma meta_unlock_free s : exists w, meta_unlock g nr cpu s d ms = Ret (relock s w) /\ value g (lock_word (relock s w)) = UNLOCKED.
Proof.
  destruct Hs as (Hm & Hid & _). unfold meta_unlock, ttas_unlock_kern, with_process_id, bug_on.
  destruct (Z.ltb_spec (machine_id d) 1); [lia|]. rewrite Hid. cbn [obind].
  pose proof (write_ok 64 g eq_refl (load64 (mem s) (ms + META_LOCK_OFF)) UNLOCKED unlocked_ok) as [Hv Hw].
  eexists. split; [reflexivity|]. unfold lock_word, relock. cbn [mem set_mem]. rewrite load64_store64, u64_small by exact Hw. exact Hv.
Qed.

(** A handler under a free lock runs on the state with the lock taken, and the lock
    is free again at the end. *)
Lemma under_lock_free {A} s (k : shm -> option (outcome (shm * A))) (P : shm -> A -> Prop) :
  value g (lock_word s) = UNLOCKED ->
  (forall w, exists s' r, k (relock s w) = Some (Ret (s', r)) /\ forall w', P (relock s' w') r) ->
  exists s' r, under_lock g nr cpu gen s d ms k = Ret (Some (s', r)) /\ P s' r /\ value g (lock_word s') = UNLOCKED.
Proof.
  intros Hu Hk. destruct (meta_lock_free s Hu) as [w E]. unfold under_lock. rewrite E. cbn [obind].
  destruct (Hk w) as (s' & r & -> & HP). cbn [obind fst snd]. destruct (meta_unlock_free s') as (w' & -> & Hv). cbn [obind].
  exists (relock s' w'), r. split_and!; [done|apply HP|done].
Qed.
End Lock.

(** ** The catalogue *)

(** An object: its program id, its offset in the region and its length. *)
Record object := Obj { ob_id : list Z; ob_off : Z; ob_len : Z }.

(** What the header of an object says. *)
Definition entry (m : bytes) (h : Z) (o : object) : Prop :=
  hdr_prog_id m h = ob_id o /\ load64 m (h + HDR_OBJ_OPTR_OFF) = ob_off o /\ load64 m (h + HDR_LENGTH_OFF) = ob_len o.

(** The block of the arena that holds an object. *)
Definition holds (s : shm) (d : meta_dram) (p : Z) (o : object) : Prop :=
  allocated (tree (alloc s)) p /\ ob_off o = buddy_main (alloc s) + block_from (alloc s) p - mem_start d /\
  0 <= ob_len o <= block_to (alloc s) p - block_from (alloc s) p /\
  0 <= block_from (alloc s) p /\ block_to (alloc s) p <= memory_size (alloc s).

(** The region serves the catalogue [objs], with headers [l] and blocks [ps]. *)
Record served (s : shm) (d : meta_dram) (ms a k : Z) (recs l ps : list Z) (objs : list object) : Prop := Served {
  sv_wf : meta_wf s d ms a k recs l;
  sv_entries : Forall2 (entry (mem s)) l objs;
  sv_blocks : Forall2 (holds s d) ps objs;
  sv_distinct : NoDup ps }.

Definition free_slots (s : shm) : Z := load16 (mem s) (cur_obj_recs s + AVAILABLE_SLOTS_OFF).

(** No two objects share a byte. *)
Definition apart_objects (o o' : object) : Prop := ob_off o + ob_len o <= ob_off o' \/ ob_off o' + ob_len o' <= ob_off o.

Lemma entry_ext m m' h o :
  (forall b, h + 16 <= b < h + 48 -> rd m' b = rd m b) -> Z.of_nat (length (hdr_prog_id m h)) < PROG_ID_SIZE ->
  entry m h o -> entry m' h o.
Proof.
  intros F Hl (H1 & H2 & H3). unfold entry. unfold PROG_ID_SIZE in Hl. rewrite (hdr_prog_id_ext m m' h); [|by intros b Hb; rewrite F|lia].
  split_and!; [done|rewrite <- H2|rewrite <- H3]; apply load64_ext; intros b Hb; apply F;
    unfold HDR_OBJ_OPTR_OFF, HDR_LENGTH_OFF in *; lia.
Qed.

Lemma relock_only ms s w : only (ms + META_LOCK_OFF) 8 (mem s) (mem (relock ms s w)).
Proof. apply only_store64. Qed.

Lemma header_apart_meta s d ms a k recs l h :
  meta_wf s d ms a k recs l -> h ∈ l -> apart h 48 ms sizeof_struct_meta_shmem.
Proof.
  intros W Hh. destruct (mw_hdr _ _ _ _ _ _ _ W h Hh) as (r & sl & Hr & Hsl & -> & _).
  destruct (mw_recs _ _ _ _ _ _ _ W r Hr) as (R1 & R2 & R3). meta_consts. lia.
Qed.

(** The word of the lock does not matter to the rest. *)
Lemma relock_wf s d ms a k recs l w : meta_wf s d ms a k recs l -> meta_wf (relock ms s w) d ms a k recs l.
Proof.
  intros W. pose proof (relock_only ms s w) as F. pose proof (fun h => header_apart_meta _ _ _ _ _ _ _ h W) as Hap.
  destruct W as [B R Hms Hmi Hr Hd Hc Hav Hh Hid Q].
  assert (Hbit : forall r i, r ∈ recs -> 0 <= i < NUM_OBJ_SLOTS -> bit (mem (relock ms s w)) (r + SLOT_BITSET_OFF) i = bit (mem s) (r + SLOT_BITSET_OFF) i).
  { intros r i Hin Hi. destruct (Hr r Hin) as (R1 & R2 & R3). apply (only_bit _ _ _ _ _ _ F). unfold META_LOCK_OFF.
    assert (0 <= i / 8 < 43) by (unfold NUM_OBJ_SLOTS in Hi; Z.div_mod_to_equations; lia). meta_consts. lia. }
  split; try done.
  - intros r Hin. specialize (Hav r Hin). destruct (Hr r Hin) as (R1 & R2 & R3). unfold load16 in *.
    rewrite (only_load _ _ _ _ _ _ F) by (unfold META_LOCK_OFF; meta_consts; lia). rewrite Hav. f_equal. symmetry.
    apply count_bits_ext. intros i Hi. apply Hbit; [done|]. unfold NUM_OBJ_SLOTS. lia.
  - intros h Hin. destruct (Hh h Hin) as (r & sl & H1 & H2 & H3 & H4). exists r, sl. split_and!; try done; try apply H2. by rewrite Hbit.
  - intros h Hin. rewrite (hdr_prog_id_ext (mem s)); [by apply Hid| |].
    + intros b Hb. symmetry. apply F. specialize (Hap h Hin). unfold META_LOCK_OFF. meta_consts. lia.
    + specialize (Hid h Hin). unfold PROG_ID_SIZE in Hid. lia.
  - apply (queue_ext (mem s)); [|done]. intros b [Hb|(x & Hx & Hb)]; apply F; unfold META_LOCK_OFF; [meta_consts; lia|].
    specialize (Hap x Hx). meta_consts. lia.
Qed.

Lemma relock_served s d ms a k recs l ps objs w :
  served s d ms a k recs l ps objs -> served (relock ms s w) d ms a k recs l ps objs.
Proof.
  intros [W E B N]. split; [by apply relock_wf| |done|done].
  pose proof (fun h => header_apart_meta _ _ _ _ _ _ _ h W) as Hap. pose proof (mw_ids _ _ _ _ _ _ _ W) as Hid.
  apply Forall2_same_length_lookup. pose proof (list.Forall2_length _ _ _ E) as Hlen. split; [done|].
  intros i h o Hi Ho. pose proof (Forall2_lookup_lr _ _ _ _ _ _ E Hi Ho) as He.
  pose proof (list_elem_of_lookup_2 _ _ _ Hi) as Hin. apply (entry_ext (mem s)); [|by apply Hid|done].
  intros b Hb. apply relock_only. specialize (Hap h Hin). unfold META_LOCK_OFF. meta_consts. lia.
Qed.

Lemma relock_slots s d ms a k recs l w : meta_wf s d ms a k recs l -> free_slots (relock ms s w) = free_slots s.
Proof.
  intros W. destruct (mw_recs _ _ _ _ _ _ _ W _ (mw_cur _ _ _ _ _ _ _ W)) as (R1 & R2 & R3). unfold free_slots, load16.
  apply (only_load _ _ _ _ _ _ (relock_only ms s w)). unfold META_LOCK_OFF. cbn [cur_obj_recs relock set_mem]. meta_consts. lia.
Qed.

(** ** Allocation *)

Lemma mark_holds s s' d a k p q o :
  buddy_wf (alloc s) a k -> free (tree (alloc s)) p -> alloc s' = fst (buddy_malloc_apply (alloc s) (pos_of p)) ->
  holds s d q o -> holds s' d q o.
Proof.
  intros B Hf Ea (H1 & H2 & H3 & H4 & H5). unfold holds. rewrite Ea. cbn [buddy_malloc_apply fst].
  pose proof (bw_inv _ _ _ B) as Hinv. pose proof (mark_order _ p (proj1 Hinv) (proj1 Hf)) as Ho.
  destruct (set_tree_block (alloc s) _ q Ho) as [-> ->]. cbn [tree set_tree buddy_main memory_size].
  split_and!; try done; try apply H3. apply mark_allocated; auto.
Qed.

(** An allocation adds one object, in a block of its own, or finds no memory. *)
Lemma served_alloc s d ms a k recs l ps objs desc :
  served s d ms a k recs l ps objs -> request_ok desc -> 0 < free_slots s ->
  atomic_allocate_memory_lockheld s d ms desc = Ret (s, - ENOMEM, NULL) \/
  exists s' obj h p, atomic_allocate_memory_lockheld s d ms desc = Ret (s', 0, obj) /\
    served s' d ms a k recs (l ++ [h]) (ps ++ [p]) (objs ++ [Obj (rd_prog_id desc) (obj - mem_start d) (rd_length desc)]) /\
    free_slots s' = free_slots s - 1 /\ 0 < obj - mem_start d < mem_length d.
Proof.
  intros [W E Bl N] Hreq Hav. pose proof (mw_buddy _ _ _ _ _ _ _ W) as B.
  destruct (find_pos_spec (alloc s) a k (rd_length desc) B) as [(p & Hpos & Hfree & Hsz)|[En _]]; [apply Hreq|..].
  2: { left. unfold atomic_allocate_memory_lockheld, alloc_and_log_lockheld. rewrite En, invalid_not_valid. cbn [negb obind].
       change (truthy (- ENOMEM)) with true. by destruct s. }
  right. assert (Hlen : 0 <= rd_length desc) by (pose proof (proj1 Hreq) as U; unfold is_u64 in U; lia).
  assert (Hsz' : 0 < block_to (alloc s) p - block_from (alloc s) p) by (unfold padded_request in Hsz; zb; lia).
  assert (Hfit : rd_length desc <= block_to (alloc s) p - block_from (alloc s) p) by (unfold padded_request in Hsz; zb; lia).
  destruct (allocate_success s d ms a k recs l desc p W Hreq Hpos Hfree Hsz' Hav) as (s' & Er & Ea & Ec & m1 & F & Em).
  pose proof (allocate_wf s d ms a k recs l desc p W Hreq Hpos Hfree Hsz' Hav s' m1 Ea Ec F Em) as W'.
  destruct (after_fields s d ms a k recs l desc p W Hreq Hpos Hfree Hsz' Hav m1) as (F1 & F2 & F3 & _).
  destruct (alloc_obj_ok s d ms a k recs l desc p W Hreq Hpos Hfree Hsz' Hav) as [Ho _].
  destruct (alloc_slot_ok s d ms a k recs l desc p W Hreq Hpos Hfree Hsz' Hav) as [Hsl Hnb].
  rewrite <- Em in F1, F2, F3.
  assert (Hp : ~ allocated (tree (alloc s)) p) by (intros Hp; apply allocated_st in Hp; apply Hp; apply Hfree).
  eexists s', _, _, p. split; [exact Er|]. split; [split; [exact W'|..]|split].
  - apply Forall2_app; [|constructor; [|constructor]].
    + apply Forall2_same_length_lookup. split; [by apply (list.Forall2_length _ _ _ E)|]. intros i h o Hi Hobj.
      pose proof (list_elem_of_lookup_2 _ _ _ Hi) as Hin. apply (entry_ext (mem s)); [|by apply (mw_ids _ _ _ _ _ _ _ W)|by eapply Forall2_lookup_lr].
      intros b Hb. rewrite Em. exact (after_old s d ms a k recs l desc p W Hreq Hpos Hfree Hsz' Hav m1 h b F Hin Hb).
    + split_and!; [exact F1|exact F2|exact F3].
  - apply Forall2_app; [|constructor; [|constructor]].
    + eapply list.Forall2_impl; [exact Bl|]. intros q o. by apply (mark_holds s s' d a k p).
    + pose proof (bw_inv _ _ _ B) as Hinv. pose proof (mark_order _ p (proj1 Hinv) (proj1 Hfree)) as Hor.
      unfold holds. rewrite Ea. cbn [buddy_malloc_apply fst ob_off ob_len].
      destruct (set_tree_block (alloc s) _ p Hor) as [-> ->]. cbn [tree set_tree buddy_main memory_size].
      destruct (block_range _ a k p B (proj1 Hfree) (free_in_memory _ a k p B Hfree)) as [H1 H2].
      split_and!; try done; [apply mark_allocated; auto|].
      rewrite (geo_address _ a k (bw_geometry _ _ _ B) p); [done|pose proof (wf_order _ _ _ B); lia|apply Hfree].
  - apply list.NoDup_app. split_and!; [done| |apply NoDup_singleton]. intros q Hq ->%list_elem_of_singleton.
    apply list_elem_of_lookup in Hq as [i Hi]. destruct (Forall2_lookup_l _ _ _ _ _ Bl Hi) as (o & _ & Hh). by apply Hp, Hh.
  - pose proof (mw_cur _ _ _ _ _ _ _ W) as Hc. unfold free_slots. rewrite Ec.
    rewrite (mw_avail _ _ _ _ _ _ _ W _ Hc). pose proof (mw_avail _ _ _ _ _ _ _ W' _ Hc) as ->. rewrite Em.
    pose proof (fun j Hj => after_bits s d ms a k recs l desc p W Hreq Hpos Hfree Hsz' Hav m1 _ j F Hc Hj) as Hbits.
    change SLOT_BITSET_OFF with 16 in *. rewrite Z.eqb_refl in Hbits.
    rewrite (count_bits_set 340 (mem s) _ _ _ 0 Hbits Hnb).
    clear -Hsl. set (slot := first_clear _ _ _ _) in *. clearbody slot. unfold NUM_OBJ_SLOTS in Hsl.
    replace ((0 <=? slot) && (slot <? 0 + Z.of_nat 340)) with true by (symmetry; zb; lia || done). lia.
  - lia.
Qed.

(** ** The abstract catalogue *)

Definition lookup_object (id : list Z) (objs : list object) : option object :=
  List.find (fun o => same_id (ob_id o) id) objs.

(** A place for a new object: inside the region, apart from every object. *)
Definition placed (d : meta_dram) (objs : list object) (o : object) : Prop :=
  0 < ob_off o /\ ob_off o + ob_len o <= mem_length d /\ Forall (apart_objects o) objs.

(** What a request may answer on a catalogue, and the catalogue after it.  A lookup
    with a length creates the object if there is none; when that finds no memory the
    answer is still a success, with the offset of the null pointer. *)
Inductive cat_step (d : meta_dram) (objs : list object) : request -> reply * Z -> list object -> Prop :=
| cat_alloc off0 off len id :
    placed d objs (Obj id off len) ->
    cat_step d objs (IOCTL_ALLOC (RegionDesc off0 len id) false false) (Desc (RegionDesc off len id), 0) (objs ++ [Obj id off len])
| cat_full off0 len id :
    cat_step d objs (IOCTL_ALLOC (RegionDesc off0 len id) false false) (NoReply, - ENOMEM) objs
| cat_found off0 len0 id ex o :
    lookup_object id objs = Some o ->
    cat_step d objs (IOCTL_FIND_ALLOC (FindAlloc (RegionDesc off0 len0 id) ex) false false)
      (Found (FindAlloc (RegionDesc (ob_off o) (ob_len o) id) 1), 0) objs
| cat_absent off0 id ex :
    lookup_object id objs = None ->
    cat_step d objs (IOCTL_FIND_ALLOC (FindAlloc (RegionDesc off0 0 id) ex) false false)
      (Found (FindAlloc (RegionDesc off0 0 id) 0), 0) objs
| cat_create off0 off len id ex :
    lookup_object id objs = None -> 0 < len -> placed d objs (Obj id off len) ->
    cat_step d objs (IOCTL_FIND_ALLOC (FindAlloc (RegionDesc off0 len id) ex) false false)
      (Found (FindAlloc (RegionDesc off len id) 0), 0) (objs ++ [Obj id off len])
| cat_create_full off0 len id ex :
    lookup_object id objs = None -> 0 < len ->
    cat_step d objs (IOCTL_FIND_ALLOC (FindAlloc (RegionDesc off0 len id) ex) false false)
      (Found (FindAlloc (RegionDesc (u64 (NULL - mem_start d)) len id) 0), 0) objs.

Inductive cat_steps (d : meta_dram) : list object -> list request -> list (reply * Z) -> list object -> Prop :=
| cat_nil objs : cat_steps d objs [] [] objs
| cat_cons objs r a objs' rs l objs'' :
    cat_step d objs r a objs' -> cat_steps d objs' rs l objs'' -> cat_steps d objs (r :: rs) (a :: l) objs''.

Lemma lookup_served m id l objs :
  Forall2 (entry m) l objs ->
  match lookup_id m id l with
  | Some h => exists o, lookup_object id objs = Some o /\ entry m h o
  | None => lookup_object id objs = None
  end.
Proof.
  unfold lookup_id, lookup_object. induction 1 as [|h o l objs He _ IH]; cbn [List.find]; [done|].
  rewrite <- (proj1 He). destruct (same_id (hdr_prog_id m h) id); [by exists o|done].
Qed.

Lemma blocks_apart s d a k p q o o' :
  buddy_wf (alloc s) a k -> p <> q -> holds s d p o -> holds s d q o' -> apart_objects o o'.
Proof.
  intros B Hne (Hp & Ep & Lp & _) (Hq & Eq & Lq & _). pose proof (bw_geometry _ _ _ B) as G.
  pose proof (fun x => allocated_leaves_disjoint _ p q x (bw_inv _ _ _ B) Hp Hq Hne) as D.
  unfold apart_objects. rewrite Ep, Eq. unfold block_from, block_to in *. rewrite (g_align _ _ _ G) in *.
  destruct (leaves_range (alloc s) p (proj1 Hp)) as [P1 P2], (leaves_range (alloc s) q (proj1 Hq)) as [Q1 Q2].
  pose proof (pow2_pos a (g_a _ _ _ G)) as Ha. set (A := 2 ^ a) in *. set (T := 2 ^ (order (tree (alloc s)) - 1)) in *.
  set (pf := leaves_from _ p) in *. set (pt := leaves_to _ p) in *. set (qf := leaves_from _ q) in *. set (qt := leaves_to _ q) in *.
  pose proof (D pf). pose proof (D qf). clearbody A T pf pt qf qt. assert (pt <= qf \/ qt <= pf) as [H1|H1] by lia; [left|right]; nia.
Qed.

(** The last object of a catalogue has a place among the others. *)
Lemma served_placed s d ms a k recs l ps p objs o :
  served s d ms a k recs l (ps ++ [p]) (objs ++ [o]) -> 0 < ob_off o -> placed d objs o.
Proof.
  intros [W E Bl N] H0. apply Forall2_app_inv_r in Bl as (ps1 & ps2 & B1 & B2 & Eps).
  apply list.Forall2_cons_inv_r in B2 as (p' & ps3 & Hp & B3 & ->). apply Forall2_nil_inv_r in B3 as ->.
  apply app_inj_tail in Eps as [<- <-]. apply list.NoDup_app in N as (_ & N & _).
  pose proof (mw_region _ _ _ _ _ _ _ W) as R. pose proof Hp as (_ & Eo & Hl & Hb1 & Hb2).
  split_and!; [done|lia|]. apply list.Forall_forall. intros o' Ho'. apply list_elem_of_lookup in Ho' as [i Hi].
  destruct (Forall2_lookup_r _ _ _ _ _ B1 Hi) as (q & Hq & Hh).
  apply (blocks_apart s d a k p q); [apply W| |done|done].
  intros <-. apply (N p); [by eapply list_elem_of_lookup_2|by apply list_elem_of_singleton].
Qed.

(** ** One request *)

Section Session.
Context (g : granularity) (nr cpu p : Z).
Context `{PlistHeader} (MAX_RT_PRIO : Z) (wait_event_interruptible : bool -> option Z).

(** The device serves a catalogue, with at least [n] free slots for objects. *)
Definition serving (v : cxl_device) (n : Z) (objs : list object) : Prop :=
  survivor nr cpu p (meta_dram_of v) /\ is_gen (my_gen v) /\
  value g (lock_word (meta_shmem v) (region v)) = UNLOCKED /\
  exists a k recs l ps, served (region v) (meta_dram_of v) (meta_shmem v) a k recs l ps objs /\ n <= free_slots (region v).

(** The requests of a session. *)
Definition valid_request (r : request) : Prop :=
  match r with
  | IOCTL_ALLOC a fi fo => request_ok a /\ fi = false /\ fo = false
  | IOCTL_FIND_ALLOC fa fi fo => request_ok (fa_desc fa) /\ fi = false /\ fo = false
  | _ => False
  end.

Lemma served_pointers s d ms a k recs l ps objs :
  served s d ms a k recs l ps objs -> (mem_start d =? 0) = false /\ (ms =? 0) = false /\ 0 < mem_start d /\ mem_start d + mem_length d < 2 ^ 64.
Proof. intros [W _ _ _]. pose proof (mw_region _ _ _ _ _ _ _ W). pose proof (mw_ms _ _ _ _ _ _ _ W). split_and!; lia. Qed.

Definition request_step := vcxl_ivpci_ioctl g nr cpu MAX_RT_PRIO wait_event_interruptible.

Lemma alloc_step fuel env v c n objs desc :
  serving v n objs -> 0 < n -> request_ok desc ->
  exists v' a objs', request_step fuel env v c (IOCTL_ALLOC desc false false) = Ret (Some (v', fst a, snd a)) /\
    cat_step (meta_dram_of v) objs (IOCTL_ALLOC desc false false) a objs' /\
    meta_dram_of v' = meta_dram_of v /\ serving v' (n - 1) objs' /\ (length objs' <= S (length objs))%nat.
Proof using All.
  intros (Hs & Hg & Hu & a & k & recs & l & ps & S & Hn) Hn0 Hreq. destruct (served_pointers _ _ _ _ _ _ _ _ _ S) as (E1 & E2 & E3 & E4).
  unfold request_step, vcxl_ivpci_ioctl, do_vcxl_alloc. rewrite E1, E2. cbn [bug_on]. destruct desc as [off0 len id].
  set (d := meta_dram_of v) in *. set (ms := meta_shmem v) in *.
  destruct (under_lock_free g nr cpu p (my_gen v) d ms Hs Hg (region v)
    (fun s => Some (let! r := atomic_allocate_memory_lockheld s d ms (RegionDesc off0 len id) in
                    let '(s, ret, obj) := r : shm * Z * Z in Ret (s, (ret, obj))))
    (fun s' r => (r = (- ENOMEM, NULL) /\ served s' d ms a k recs l ps objs /\ n <= free_slots s') \/
       exists h q, fst r = 0 /\ served s' d ms a k recs (l ++ [h]) (ps ++ [q]) (objs ++ [Obj id (snd r - mem_start d) len]) /\
         n - 1 <= free_slots s' /\ 0 < snd r - mem_start d < mem_length d) Hu) as (s' & r & Er & Hr & Hu').
  - intros w. pose proof (relock_served _ _ _ _ _ _ _ _ _ w S) as Sw. pose proof (relock_slots _ _ _ _ _ _ _ w (sv_wf _ _ _ _ _ _ _ _ _ S)) as Fw.
    destruct (served_alloc _ _ _ _ _ _ _ _ _ _ Sw Hreq) as [E|(s' & obj & h & q & E & S' & Fs & Ho)]; [lia|..]; rewrite E; cbn [obind].
    + do 2 eexists. split; [reflexivity|]. intros w'. left. split; [done|]. split; [by apply relock_served|].
      rewrite (relock_slots _ _ _ _ _ _ _ w' (sv_wf _ _ _ _ _ _ _ _ _ Sw)). lia.
    + do 2 eexists. split; [reflexivity|]. intros w'. right. exists h, q. cbn [fst snd]. split; [done|]. split; [by apply relock_served|].
      rewrite (relock_slots _ _ _ _ _ _ _ w' (sv_wf _ _ _ _ _ _ _ _ _ S')). lia.
  - unfold atomic_allocate_memory. rewrite Er. cbn [obind]. destruct Hr as [(-> & S' & F')|(h & q & Er0 & S' & F' & Ho)].
    + change (truthy (- ENOMEM)) with true. cbv iota. exists (with_shm v s'), (NoReply, - ENOMEM), objs.
      split_and!; [done|constructor|done| |lia]. split_and!; [done..|]. exists a, k, recs, l, ps. split; [done|]. cbn [region with_shm]. lia.
    + destruct r as [rv obj]. cbn [fst snd] in *. subst rv. change (truthy 0) with false. cbv iota. cbn [rd_length rd_prog_id].
      rewrite u64_small by lia. pose proof (served_placed _ _ _ _ _ _ _ _ _ _ _ S') as P. cbn [ob_off] in P.
      exists (with_shm v s'), (Desc (RegionDesc (obj - mem_start d) len id), 0), (objs ++ [Obj id (obj - mem_start d) len]).
      split_and!; [done|constructor; apply P; lia|done| |rewrite length_app; cbn; lia]. split_and!; [done..|].
      exists a, k, recs, (l ++ [h]), (ps ++ [q]). split; [done|]. cbn [region with_shm]. lia.
Qed.

(** What a lookup does under the lock, by cases on the catalogue. *)
Lemma served_find fuel s d ms a k recs l ps objs off0 len id ex :
  served s d ms a k recs l ps objs -> 0 < free_slots s -> request_ok (RegionDesc off0 len id) -> (length objs < fuel)%nat ->
  exists s' fa, find_allocation_lockheld fuel s d ms (FindAlloc (RegionDesc off0 len id) ex) = Some (Ret (s', fa)) /\
  exists objs' l' ps', cat_step d objs (IOCTL_FIND_ALLOC (FindAlloc (RegionDesc off0 len id) ex) false false) (Found fa, 0) objs' /\
    served s' d ms a k recs l' ps' objs' /\ free_slots s - 1 <= free_slots s' /\ (length objs' <= S (length objs))%nat.
Proof using All.
  intros S Hn Hreq Hf. destruct (served_pointers _ _ _ _ _ _ _ _ _ S) as (_ & _ & E3 & E4). pose proof S as [W E _ _].
  pose proof (list.Forall2_length _ _ _ E) as Hlen. unfold find_allocation_lockheld. cbn [fa_desc rd_prog_id rd_length].
  rewrite (find_in_queue fuel (mem s) ms l id (mw_queue _ _ _ _ _ _ _ W)) by lia.
  pose proof (lookup_served (mem s) id l objs E) as L. destruct (lookup_id (mem s) id l) as [h|].
  - destruct L as (o & Lo & He). do 2 eexists. split; [reflexivity|]. exists objs, l, ps. destruct He as (_ & -> & ->).
    split_and!; [by constructor|done|lia|lia].
  - destruct (Z.gtb_spec len 0) as [Hpos|Hz].
    + destruct (served_alloc _ _ _ _ _ _ _ _ _ _ S Hreq Hn) as [En|(s' & obj & h & q & En & S' & Fs & Ho)]; rewrite En; cbn [obind].
      * do 2 eexists. split; [reflexivity|]. exists objs, l, ps. split_and!; [by constructor|done|lia|lia].
      * do 2 eexists. split; [reflexivity|]. cbn [rd_length rd_prog_id] in *. rewrite u64_small by lia.
        pose proof (served_placed _ _ _ _ _ _ _ _ _ _ _ S') as P. cbn [ob_off] in P.
        exists (objs ++ [Obj id (obj - mem_start d) len]), (l ++ [h]), (ps ++ [q]).
        split_and!; [constructor; [done|lia|apply P; lia]|done|lia|rewrite length_app; cbn; lia].
    + assert (len = 0) as -> by (pose proof (proj1 Hreq) as U; unfold is_u64 in U; cbn in U; lia).
      do 2 eexists. split; [reflexivity|]. exists objs, l, ps. split_and!; [by constructor|done|lia|lia].
Qed.

Lemma find_step fuel env v c n objs fa :
  serving v n objs -> 0 < n -> request_ok (fa_desc fa) -> (length objs < fuel)%nat ->
  exists v' a objs', request_step fuel env v c (IOCTL_FIND_ALLOC fa false false) = Ret (Some (v', fst a, snd a)) /\
    cat_step (meta_dram_of v) objs (IOCTL_FIND_ALLOC fa false false) a objs' /\
    meta_dram_of v' = meta_dram_of v /\ serving v' (n - 1) objs' /\ (length objs' <= S (length objs))%nat.
Proof using All.
  intros (Hs & Hg & Hu & a & k & recs & l & ps & Sv & Hn) Hn0 Hreq Hf. destruct (served_pointers _ _ _ _ _ _ _ _ _ Sv) as (E1 & E2 & _).
  unfold request_step, vcxl_ivpci_ioctl, do_vcxl_find_alloc. rewrite E1, E2. cbn [bug_on]. destruct fa as [[off0 len id] ex].
  set (d := meta_dram_of v) in *. set (ms := meta_shmem v) in *.
  destruct (under_lock_free g nr cpu p (my_gen v) d ms Hs Hg (region v)
    (fun s => find_allocation_lockheld fuel s d ms (FindAlloc (RegionDesc off0 len id) ex))
    (fun s' fa => exists objs' l' ps',
       cat_step d objs (IOCTL_FIND_ALLOC (FindAlloc (RegionDesc off0 len id) ex) false false) (Found fa, 0) objs' /\
       served s' d ms a k recs l' ps' objs' /\ n - 1 <= free_slots s' /\ (length objs' <= S (length objs))%nat) Hu)
    as (s' & fa & Er & (objs' & l' & ps' & C & S' & F' & L') & Hu').
  - intros w. pose proof (relock_served _ _ _ _ _ _ _ _ _ w Sv) as Sw. pose proof (relock_slots _ _ _ _ _ _ _ w (sv_wf _ _ _ _ _ _ _ _ _ Sv)) as Fw.
    destruct (served_find fuel _ _ _ _ _ _ _ _ _ off0 len id ex Sw ltac:(lia) Hreq Hf) as (s' & fa & Ef & objs' & l' & ps' & C & S' & F' & L').
    exists s', fa. split; [exact Ef|]. intros w'. exists objs', l', ps'. split; [done|]. split; [by apply relock_served|]. split; [|done].
    rewrite (relock_slots _ _ _ _ _ _ _ w' (sv_wf _ _ _ _ _ _ _ _ _ S')). lia.
  - unfold find_allocation. rewrite Er. cbn [obind]. exists (with_shm v s'), (Found fa, 0), objs'.
    split_and!; [done..| |done]. split_and!; [done..|]. by exists a, k, recs, l', ps'.
Qed.

(** ** A session *)

(** The requests one after the other, and what each returns. *)
Fixpoint run_requests (fuel : nat) (env : list pause) (c : caller) (v : cxl_device) (rs : list request)
  : outcome (option (cxl_device * list (reply * Z))) :=
  match rs with
  | [] => Ret (Some (v, []))
  | r :: rs =>
      let! o := request_step fuel env v c r in
      match o with
      | None => Ret None
      | Some (v, rep, rval) =>
          let! o := run_requests fuel env c v rs in
          Ret (match o with None => None | Some (v, l) => Some (v, (rep, rval) :: l) end)
      end
  end.

Lemma session_refines fuel env c v n objs rs :
  serving v n objs -> Forall valid_request rs -> Z.of_nat (length rs) <= n -> (length objs + length rs <= fuel)%nat ->
  exists v' l objs', run_requests fuel env c v rs = Ret (Some (v', l)) /\
    cat_steps (meta_dram_of v) objs rs l objs' /\ serving v' (n - Z.of_nat (length rs)) objs'.
Proof using All.
  revert v n objs. induction rs as [|r rs IH]; intros v n objs Hv Hr Hn Hf; cbn [run_requests].
  - exists v, [], objs. split_and!; [done|constructor|]. cbn. by rewrite Z.sub_0_r.
  - apply list.Forall_cons in Hr as [Hr Hrs]. cbn [length] in Hn, Hf.
    assert (St : exists v' a objs', request_step fuel env v c r = Ret (Some (v', fst a, snd a)) /\
      cat_step (meta_dram_of v) objs r a objs' /\ meta_dram_of v' = meta_dram_of v /\ serving v' (n - 1) objs' /\ (length objs' <= S (length objs))%nat).
    { destruct r; try done; destruct Hr as (Hr & -> & ->); [apply alloc_step|apply find_step]; done || lia. }
    destruct St as (v1 & [rep rv] & objs1 & -> & C & Ed & Hv1 & L1). cbn [obind fst snd].
    destruct (IH v1 (n - 1) objs1 Hv1 Hrs) as (v2 & l & objs2 & -> & Cs & Hv2); [lia|lia|]. cbn [obind].
    exists v2, ((rep, rv) :: l), objs2. split_and!; [done|by econstructor; [exact C|rewrite <- Ed]|].
    replace (n - Z.of_nat (length (r :: rs))) with (n - 1 - Z.of_nat (length rs)) by (cbn [length]; lia). done.
Qed.
End Session.

Lemma init_serves g nr cpu p v total :
  region_ok (meta_dram_of v) -> survivor nr cpu p (meta_dram_of v) ->
  machine_id (meta_dram_of v) <= VCXL_MAX_SUPPORTED_MACHINES -> 0 <= total <= VCXL_MAX_SUPPORTED_MACHINES ->
  exists v', do_vcxl_init_meta g v false false total false = Ret (Some (v', NoReply, 0)) /\
    meta_dram_of v' = meta_dram_of v /\ total_machines_of v' = total /\ serving g nr cpu p v' NUM_OBJ_SLOTS [].
Proof.
  intros Hr Hs Hid Ht. destruct (init_meta_ok g (mem (region v)) (meta_dram_of v) (local v) Hr)
    as (rs & k & E & W & _ & _ & _ & _ & Hu & _ & _ & Hgr & Hc & Hav).
  unfold VCXL_MAX_SUPPORTED_MACHINES in *. unfold do_vcxl_init_meta, VCXL_MAX_SUPPORTED_MACHINES, bug_on.
  pose proof Hr as (H0 & _). pose proof (mw_ms _ _ _ _ _ _ _ W) as [Hms _]. rewrite (u8_small total) by lia.
  destruct (Z.eqb_spec (mem_start (meta_dram_of v)) 0); [lia|]. cbn [andb].
  destruct (Z.gtb_spec (machine_id (meta_dram_of v)) 16); [lia|]. destruct (Z.gtb_spec total 16); [lia|].
  rewrite E. cbn [obind with_region_state meta_shmem]. destruct (Z.eqb_spec (rs_ms rs) 0); [lia|].
  eexists. split; [reflexivity|]. split_and!; [done..|]. split_and!; [done| |exact Hu|].
  - unfold my_gen. cbn [groups with_total with_region_state meta_dram_of]. rewrite Hgr. unfold is_gen.
    unfold init_cxlcg_meta, get_os_gen_id, getZ. cbn [fst os_generation_ids set_leader set_cg_lock].
    destruct (_ !! _) eqn:Q; [|cbn; lia]. apply lookup_replicate in Q as [-> _]. cbn. lia.
  - exists 12, k, [FUTEX_ADDR_QUEUE_SIZE], [], []. split; [split; [exact W|constructor|constructor|constructor]|].
    cbn [region with_total with_region_state]. unfold free_slots. rewrite Hc, Hav. lia.
Qed.

(** C2. A program that initialises the region and then allocates and looks up objects
    through the device observes a catalogue.  For a region of up to 4 TiB and up to
    340 requests, every request returns; an allocation answers a place inside the
    region that shares no byte with any other object, or that there is no memory;
    a lookup answers the first object with its program id, and otherwise creates
    it if it has a length.  No request stops on an assertion or waits. *)
Theorem ioctl_session (g : granularity) (nr cpu p : Z) `{PlistHeader} (MAX_RT_PRIO : Z)
  (wait_event_interruptible : bool -> option Z) (fuel : nat) (env : list pause) (c : caller) (v : cxl_device)
  (total : Z) (rs : list request) :
  region_ok (meta_dram_of v) -> survivor nr cpu p (meta_dram_of v) ->
  machine_id (meta_dram_of v) <= VCXL_MAX_SUPPORTED_MACHINES -> 0 <= total <= VCXL_MAX_SUPPORTED_MACHINES ->
  Forall valid_request rs -> (length rs <= 340)%nat -> (length rs <= fuel)%nat ->
  exists v1 v2 l objs,
    vcxl_ivpci_ioctl g nr cpu MAX_RT_PRIO wait_event_interruptible fuel env v c (IOCTL_INIT_META total) = Ret (Some (v1, NoReply, 0)) /\
    run_requests g nr cpu MAX_RT_PRIO wait_event_interruptible fuel env c v1 rs = Ret (Some (v2, l)) /\
    cat_steps (meta_dram_of v) [] rs l objs.
Proof.
  intros Hr Hs Hid Ht Hrs Hn Hf. destruct (init_serves g nr cpu p v total Hr Hs Hid Ht) as (v1 & E1 & Ed & _ & Sv).
  destruct (session_refines g nr cpu p MAX_RT_PRIO wait_event_interruptible fuel env c v1 NUM_OBJ_SLOTS [] rs Sv Hrs)
    as (v2 & l & objs & E2 & C & _); [unfold NUM_OBJ_SLOTS; lia|cbn; lia|].
  exists v1, v2, l, objs. rewrite Ed in C. split; [|done]. unfold vcxl_ivpci_ioctl. rewrite E1. unfold bug_on.
  destruct (Z.eqb_spec (mem_start (meta_dram_of v)) 0) as [E0|]; [|done]. destruct Hr. lia.
Qed.

Definition example_caller : caller := Caller 1000 1000 120 2000 3000 0 (CxlcgMeta [] [] [] 0 0) false.
Definition example_device : cxl_device :=
  CxlDevice example_region 0 (Shm ∅ example_buddy 0) 0 None example_local empty_table (Robust (HLinks ∅ ∅ ∅) ∅) 0 [] [].
Definition example_wait (ready : bool) : option Z := if ready then Some 0 else None.
Definition example_requests : list request :=
  [IOCTL_ALLOC (RegionDesc 0 100 [107]) false false; IOCTL_FIND_ALLOC (FindAlloc (RegionDesc 0 0 [107]) 0) false false].

Lemma ioctl_session_witness :
  exists v1 v2 l objs,
    vcxl_ivpci_ioctl BYTE_GRANULAR 4 1 100 example_wait 2 [] example_device example_caller (IOCTL_INIT_META 2) = Ret (Some (v1, NoReply, 0)) /\
    run_requests BYTE_GRANULAR 4 1 100 example_wait 2 [] example_caller v1 example_requests = Ret (Some (v2, l)) /\
    cat_steps example_region [] example_requests l objs.
Proof.
  apply (ioctl_session BYTE_GRANULAR 4 1 1 100 example_wait 2 [] example_caller example_device 2 example_requests).
  - unfold region_ok, example_device, example_region. cbn [mem_start mem_length machine_id meta_dram_of]. change total_reserved with 98304.
    split; [lia|]. split; [done|]. split; [lia|]. split; [lia|]. unfold is_u16. lia.
  - split; [cbn; lia|]. split; [reflexivity|]. unfold is_proc. lia.
  - cbn. unfold VCXL_MAX_SUPPORTED_MACHINES. lia.
  - unfold VCXL_MAX_SUPPORTED_MACHINES. lia.
  - repeat constructor; cbn; lia.
  - cbn. lia.
  - cbn. lia.
Defined.

(** C24. A request whose argument cannot be read from the user's memory has no effect:
    it returns an error and leaves the device as it was. *)
Theorem faulty_request_has_no_effect (g : granularity) (nr cpu : Z) `{PlistHeader} (MAX_RT_PRIO : Z)
  (wait_event_interruptible : bool -> option Z) (fuel : nat) (env : list pause) (c : caller) (v : cxl_device) (cmd : request) :
  mem_start (meta_dram_of v) <> 0 ->
  match cmd with
  | IOCTL_WAKE_DOMAIN _ f | IOCTL_WAIT _ f _ | IOCTL_WAKE _ _ f | IOCTL_INIT_META_TEST _ f _ | IOCTL_RECOVER_META_TEST _ f _
  | IOCTL_ALLOC _ f _ | IOCTL_FREE _ f | IOCTL_FIND_ALLOC _ f _ | IOCTL_CHECK_ALLOC _ f | IOCTL_CREATE_CXLCG _ f
  | IOCTL_DELETE_CXLCG _ f | IOCTL_JOIN_CXLCG _ f | IOCTL_LEAVE_CXLCG _ f => f = true
  | _ => False
  end ->
  exists rep rval, vcxl_ivpci_ioctl g nr cpu MAX_RT_PRIO wait_event_interruptible fuel env v c cmd = Ret (Some (v, rep, rval)) /\ rval < 0.
Proof.
  intros H0 Hf. unfold vcxl_ivpci_ioctl, bug_on. destruct (Z.eqb_spec (mem_start (meta_dram_of v)) 0) as [|_]; [done|].
  assert (Ev : with_futexes v (futexes v) (mem (region v)) = v) by (by destruct v as [? ? []]).
  unfold do_vcxl_init_meta, do_vcxl_recover_meta, do_vcxl_alloc, do_vcxl_free, do_vcxl_find_alloc, do_vcxl_check_alloc, bug_on.
  destruct cmd; try done; subst; cbn [andb]; rewrite ?(proj2 (Z.eqb_neq _ _) H0); cbn [do_vcxl_cond_wait do_vcxl_wake obind];
    rewrite ?Ev; do 2 eexists; (split; [reflexivity|]); unfold EFAULT; lia.
Qed.

Lemma faulty_request_has_no_effect_witness :
  exists rep rval, vcxl_ivpci_ioctl BYTE_GRANULAR 4 1 100 example_wait 2 [] example_device example_caller
    (IOCTL_FREE (RegionDesc 0 8 []) true) = Ret (Some (example_device, rep, rval)) /\ rval < 0.
Proof.
  apply (faulty_request_has_no_effect BYTE_GRANULAR 4 1 100 example_wait 2 [] example_caller example_device (IOCTL_FREE (RegionDesc 0 8 []) true));
    [cbn; lia|reflexivity].
Defined.
