(* ===== verification/AtomicBitset.v ===== *)
(** Bits of an atomic word: src/src/common/atomic_bitset.h, for the widths 8, 16, 32
    and 64.  A bit is set with an atomic addition and cleared with an atomic
    subtraction, each after a separate load. *)
From Stdlib Require Import ZArith Lia Bool.
From stdpp Require Import base list numbers.
From S2P Require Import Prelude.
Local Open Scope Z_scope.

(** [wsize] is the width of the word. *)
Definition mask (wsize k : Z) : Z := Z.shiftl 1 k mod 2 ^ wsize.

(** The load: whether the update is needed. *)
Definition bit_is_set (wsize active k : Z) : bool := truthy (Z.land active (mask wsize k)).

(** [atomic_fetch_add] and [atomic_fetch_sub] *)
Definition add_mask (wsize active k : Z) : Z := (active + mask wsize k) mod 2 ^ wsize.
Definition sub_mask (wsize active k : Z) : Z := (active - mask wsize k) mod 2 ^ wsize.

Definition set_bit (wsize active k : Z) : Z := if negb (bit_is_set wsize active k) then add_mask wsize active k else active.
Definition unset_bit (wsize active k : Z) : Z := if bit_is_set wsize active k then sub_mask wsize active k else active.

(** [while (true)]: [None] after [fuel] rounds. *)
Fixpoint next_bit_loop (fuel : nat) (wsize active pos : Z) : option Z :=
  match fuel with
  | O => None
  | S fuel => if bit_is_set wsize active pos then Some pos else next_bit_loop fuel wsize active (u8 ((pos + 1) mod wsize))
  end.

(** The first set bit after [k], around the word. *)
Definition next_bit (fuel : nat) (wsize active k : Z) : option Z :=
  next_bit_loop fuel wsize active (u8 ((k + 1) mod wsize)).

(** The operations at each width. *)
Definition set_bit_uint8 := set_bit 8.
Definition unset_bit_uint8 := unset_bit 8.
Definition next_bit_uint8 := next_bit 8 8.
Definition set_bit_uint16 := set_bit 16.
Definition unset_bit_uint16 := unset_bit 16.
Definition next_bit_uint16 := next_bit 16 16.
Definition set_bit_uint32 := set_bit 32.
Definition unset_bit_uint32 := unset_bit 32.
Definition next_bit_uint32 := next_bit 32 32.
Definition set_bit_uint64 := set_bit 64.
Definition unset_bit_uint64 := unset_bit 64.
Definition next_bit_uint64 := next_bit 64 64.

(** ** Bits *)

Section Bits.
Context (wsize : Z) (Hw : 0 < wsize <= 64).

Lemma mask_eq k : 0 <= k < wsize -> mask wsize k = 2 ^ k.
Proof using Hw.
  intros Hk. unfold mask. rewrite Z.shiftl_mul_pow2, Z.mul_1_l by lia. apply Z.mod_small.
  pose proof (Z.pow_pos_nonneg 2 k). pose proof (Z.pow_lt_mono_r 2 k wsize). lia.
Qed.

Lemma bit_is_set_eq active k : 0 <= k < wsize -> bit_is_set wsize active k = Z.testbit active k.
Proof using Hw.
  intros Hk. unfold bit_is_set, truthy. rewrite mask_eq by done. destruct (Z.testbit active k) eqn:E.
  - destruct (Z.eqb_spec (Z.land active (2 ^ k)) 0) as [Z0|]; [|done].
    apply (f_equal (fun x => Z.testbit x k)) in Z0. rewrite Z.land_spec, E, Z.pow2_bits_true, Z.bits_0 in Z0 by lia. done.
  - assert (Z.land active (2 ^ k) = 0) as ->; [|done]. apply Z.bits_inj'. intros n Hn. rewrite Z.land_spec, Z.bits_0.
    destruct (Z.eq_dec n k) as [->|Hne]; [by rewrite E|]. rewrite Z.pow2_bits_false by lia. apply andb_false_r.
Qed.

Lemma in_range active : 0 <= active < 2 ^ wsize <-> 0 <= active /\ forall n, wsize <= n -> Z.testbit active n = false.
Proof using Hw.
  split; intros [H1 H2]; split; try done.
  - intros n Hn. apply (testbit_above active wsize n); lia.
  - destruct (Z.eq_dec active 0) as [->|Hne]; [apply Z.pow_pos_nonneg; lia|].
    apply Z.log2_lt_pow2; [lia|]. destruct (Z.lt_ge_cases (Z.log2 active) wsize) as [|Hge]; [done|].
    specialize (H2 _ Hge). rewrite Z.bit_log2 in H2 by lia. done.
Qed.

(** Adding a mask to a clear bit sets it, subtracting one from a set bit clears it. *)
Lemma add_mask_eq active k : 0 <= active < 2 ^ wsize -> 0 <= k < wsize -> Z.testbit active k = false -> add_mask wsize active k = Z.setbit active k.
Proof using Hw.
  intros Ha Hk E. unfold add_mask. rewrite mask_eq by done. unfold Z.setbit. rewrite Z.shiftl_1_l.
  rewrite Z.add_nocarry_lxor.
  - rewrite Z.lxor_lor; [|apply Z.bits_inj'; intros n Hn; rewrite Z.land_spec, Z.bits_0;
      destruct (Z.eq_dec n k) as [->|Hne]; [by rewrite E|rewrite Z.pow2_bits_false by lia; apply andb_false_r]].
    apply Z.mod_small. apply in_range. split; [apply Z.lor_nonneg; split; [lia|apply Z.pow_nonneg; lia]|].
    intros n Hn. rewrite Z.lor_spec, Z.pow2_bits_false by lia. rewrite (testbit_above active wsize n) by lia. done.
  - apply Z.bits_inj'. intros n Hn. rewrite Z.land_spec, Z.bits_0.
    destruct (Z.eq_dec n k) as [->|Hne]; [by rewrite E|]. rewrite Z.pow2_bits_false by lia. apply andb_false_r.
Qed.

Lemma sub_mask_eq active k : 0 <= active < 2 ^ wsize -> 0 <= k < wsize -> Z.testbit active k = true -> sub_mask wsize active k = Z.clearbit active k.
Proof using Hw.
  intros Ha Hk E. unfold sub_mask. rewrite mask_eq by done. unfold Z.clearbit. rewrite Z.shiftl_1_l.
  rewrite Z.sub_nocarry_ldiff.
  - apply Z.mod_small. apply in_range. split; [apply Z.ldiff_nonneg; left; lia|].
    intros n Hn. rewrite Z.ldiff_spec, (testbit_above active wsize n) by lia. done.
  - apply Z.bits_inj'. intros n Hn. rewrite Z.ldiff_spec, Z.bits_0.
    destruct (Z.eq_dec n k) as [->|Hne]; [rewrite E; apply andb_false_r|]. by rewrite Z.pow2_bits_false by lia.
Qed.

(** The bits after an update. *)
Lemma set_bit_spec active k n :
  0 <= active < 2 ^ wsize -> 0 <= k < wsize -> 0 <= n ->
  0 <= set_bit wsize active k < 2 ^ wsize /\ Z.testbit (set_bit wsize active k) n = (n =? k) || Z.testbit active n.
Proof using Hw.
  intros Ha Hk Hn. unfold set_bit. rewrite bit_is_set_eq by done. destruct (Z.testbit active k) eqn:E; cbn [negb].
  - split; [done|]. destruct (Z.eqb_spec n k) as [->|]; [by rewrite E|done].
  - rewrite add_mask_eq by done. split.
    + apply in_range. split; [unfold Z.setbit; apply Z.lor_nonneg; split; [lia|rewrite Z.shiftl_1_l; apply Z.pow_nonneg; lia]|].
      intros i Hi. rewrite Z.setbit_eqb by lia. rewrite (testbit_above active wsize i) by lia. destruct (Z.eqb_spec k i); [lia|done].
    + rewrite Z.setbit_eqb by lia. by rewrite (Z.eqb_sym k n).
Qed.

Lemma unset_bit_spec active k n :
  0 <= active < 2 ^ wsize -> 0 <= k < wsize -> 0 <= n ->
  0 <= unset_bit wsize active k < 2 ^ wsize /\ Z.testbit (unset_bit wsize active k) n = negb (n =? k) && Z.testbit active n.
Proof using Hw.
  intros Ha Hk Hn. unfold unset_bit. rewrite bit_is_set_eq by done. destruct (Z.testbit active k) eqn:E.
  - rewrite sub_mask_eq by done. split.
    + apply in_range. split; [unfold Z.clearbit; apply Z.ldiff_nonneg; left; lia|].
      intros i Hi. rewrite Z.clearbit_eqb. rewrite (testbit_above active wsize i) by lia. done.
    + rewrite Z.clearbit_eqb, (Z.eqb_sym k n). apply andb_comm.
  - split; [done|]. destruct (Z.eqb_spec n k) as [->|]; [by rewrite E|done].
Qed.

Lemma nonzero_bit active : 0 <= active < 2 ^ wsize -> active <> 0 -> exists j, 0 <= j < wsize /\ Z.testbit active j = true.
Proof using Hw.
  intros Ha Hne. exists (Z.log2 active). split; [|apply Z.bit_log2; lia]. split; [apply Z.log2_nonneg|]. apply Z.log2_lt_pow2; lia.
Qed.
End Bits.

(** ** The next bit *)

Lemma next_loop wsize active k d fuel i :
  0 < wsize <= 64 -> 0 <= k -> (i <= d)%nat -> (d < i + fuel)%nat ->
  Z.testbit active ((k + Z.of_nat d) mod wsize) = true ->
  (forall e, (i <= e < d)%nat -> Z.testbit active ((k + Z.of_nat e) mod wsize) = false) ->
  next_bit_loop fuel wsize active ((k + Z.of_nat i) mod wsize) = Some ((k + Z.of_nat d) mod wsize).
Proof.
  intros Hw Hk. revert i. induction fuel as [|fuel IH]; intros i Hi Hd Ht Hf; [lia|]. cbn [next_bit_loop].
  pose proof (Z.mod_pos_bound (k + Z.of_nat i) wsize ltac:(lia)).
  rewrite bit_is_set_eq by lia. destruct (decide (i = d)) as [->|Hne]; [by rewrite Ht|].
  rewrite Hf by lia. pose proof (Z.mod_pos_bound ((k + Z.of_nat i) mod wsize + 1) wsize ltac:(lia)).
  rewrite u8_small by lia. rewrite Zplus_mod_idemp_l.
  replace (k + Z.of_nat i + 1) with (k + Z.of_nat (S i)) by lia. apply IH; [lia|lia|done|]. intros e He. apply Hf. lia.
Qed.

(** The distance to the nearest set bit. *)
Lemma nearest_bit (f : nat -> bool) n :
  (exists d, (d < n)%nat /\ f d = true) -> exists d, (d < n)%nat /\ f d = true /\ forall e, (e < d)%nat -> f e = false.
Proof.
  induction n as [|n IH]; intros (d & Hd & Hf); [lia|].
  destruct (existsb f (seq 0 n)) eqn:E.
  - apply existsb_exists in E as (e & He & Hfe). apply in_seq in He.
    destruct IH as (x & Hx & Hfx & Hmin); [exists e; split; [lia|done]|]. exists x. split_and!; [lia|done|done].
  - assert (Hall : forall e, (e < n)%nat -> f e = false).
    { intros e He. destruct (f e) eqn:Fe; [|done]. exfalso. assert (existsb f (seq 0 n) = true); [|congruence].
      apply existsb_exists. exists e. split; [apply in_seq; lia|done]. }
    destruct (decide (d = n)) as [->|]; [|rewrite Hall in Hf by lia; done]. by exists n.
Qed.

Lemma next_bit_first (wsize active k : Z) :
  0 < wsize <= 64 -> 0 <= k < wsize -> 0 <= active < 2 ^ wsize -> active <> 0 ->
  exists d, 1 <= d <= wsize /\ next_bit (Z.to_nat wsize) wsize active k = Some ((k + d) mod wsize) /\
    Z.testbit active ((k + d) mod wsize) = true /\
    forall e, 1 <= e < d -> Z.testbit active ((k + e) mod wsize) = false.
Proof.
  intros Hw Hk Ha Hne. destruct (nonzero_bit wsize Hw active Ha Hne) as (j & Hj & Hb).
  destruct (nearest_bit (fun d => Z.testbit active ((k + 1 + Z.of_nat d) mod wsize)) (Z.to_nat wsize)) as (d & Hd & Ht & Hmin).
  { exists (Z.to_nat ((j - k - 1) mod wsize)). pose proof (Z.mod_pos_bound (j - k - 1) wsize ltac:(lia)). split; [lia|].
    rewrite Z2Nat.id by lia. rewrite Zplus_mod_idemp_r. replace (k + 1 + (j - k - 1)) with j by lia. by rewrite Z.mod_small. }
  exists (1 + Z.of_nat d). split; [lia|]. rewrite Z.add_assoc. split; [|split; [done|]].
  - unfold next_bit. rewrite u8_small by (pose proof (Z.mod_pos_bound (k + 1) wsize); lia).
    replace ((k + 1) mod wsize) with ((k + 1 + Z.of_nat 0) mod wsize) by (f_equal; lia).
    apply next_loop; [done|lia|lia|lia|done|]. intros e He. apply Hmin. lia.
  - intros e He. specialize (Hmin (Z.to_nat (e - 1))). rewrite Z2Nat.id in Hmin by lia.
    replace (k + 1 + (e - 1)) with (k + e) in Hmin by lia. apply Hmin. lia.
Qed.

(** The next port is chosen round-robin: in a word with any bit set, [next_bit]
    ends within as many rounds as the word has bits and answers the first set bit
    after [k], counting around the word, [k] itself being the last. *)
Theorem next_bit_correct (wsize active k : Z) :
  0 < wsize <= 64 -> 0 <= k < wsize -> 0 <= active < 2 ^ wsize -> active <> 0 ->
  exists d, 1 <= d <= wsize /\ next_bit (Z.to_nat wsize) wsize active k = Some ((k + d) mod wsize) /\
    Z.testbit active ((k + d) mod wsize) = true /\
    forall e, 1 <= e < d -> Z.testbit active ((k + e) mod wsize) = false.
Proof. apply next_bit_first. Qed.

Lemma next_bit_correct_witness :
  exists d, 1 <= d <= 16 /\ next_bit 16 16 37 5 = Some ((5 + d) mod 16) /\
    Z.testbit 37 ((5 + d) mod 16) = true /\ forall e, 1 <= e < d -> Z.testbit 37 ((5 + e) mod 16) = false.
Proof. apply (next_bit_correct 16 37 5); lia. Defined.
