(* ===== verification/WportLock.v ===== *)
(** The abortable recoverable lock with one port per processor:
    src/src/common/jj_ab_spin (jj_ab_wport_css_status.h, jj_ab_wport_spin.h,
    jj_ab_wport_spinlock.h, jj_ab_wport_spinlock_kern.h).

    The first part has the lock word and the operations, each executed without
    interference.  The second part is the lock as a program: every load, store,
    addition and compare-and-swap is a step of its own, the ports run
    concurrently, give up waiting at any time, and crash at any point; a port
    that comes back recovers. *)
From Stdlib Require Import ZArith Lia Bool.
From stdpp Require Import base list numbers relations.
From S2P Require Import Prelude PersistCas AtomicBitset TatasLock.
Local Open Scope Z_scope.
Local Open Scope lupin_scope.

(** ** The lock word *)

Record wport_csst := WportCsst { wc_b : bool; wc_owner : Z; wc_s : Z }.

Definition WPORT_CSST_B_SHIFT : Z := 62.
Definition WPORT_CSST_B_MASK : Z := Z.shiftl 1 WPORT_CSST_B_SHIFT.
Definition WPORT_CSST_PORTID_SHIFT : Z := 56.
Definition WPORT_CSST_PORTID_MASK : Z := Z.shiftl 0x3f WPORT_CSST_PORTID_SHIFT.
Definition WPORT_CSST_S_SHIFT : Z := 0.
Definition WPORT_CSST_S_MASK : Z := Z.shiftl 1 WPORT_CSST_PORTID_SHIFT - 1.
Definition WPORT_CSST_S_MAX : Z := WPORT_CSST_S_MASK.

(** A sequence number that does not fit becomes 0. *)
Definition compose_wport_csst (b : bool) (s port : Z) : outcome Z :=
  bug_on (port >? 63)
    (let s := if s >? WPORT_CSST_S_MAX then 0 else s in
     let taken := if b then WPORT_CSST_B_MASK else 0 in
     Ret (Z.lor (Z.lor taken (Z.shiftl s WPORT_CSST_S_SHIFT)) (Z.shiftl port WPORT_CSST_PORTID_SHIFT))).

Definition decompose_wport_csst (csst : Z) : wport_csst :=
  WportCsst (Z.land csst WPORT_CSST_B_MASK >? 0)
    (u8 (Z.shiftr (Z.land csst WPORT_CSST_PORTID_MASK) WPORT_CSST_PORTID_SHIFT))
    (Z.shiftr (Z.land csst WPORT_CSST_S_MASK) WPORT_CSST_S_SHIFT).

(** ** Operations *)

Record wlock := WLock { wl_csst : Z; wl_seq : Z; wl_active : Z }.

Definition set_csst (l : wlock) (w : Z) : wlock := WLock w (wl_seq l) (wl_active l).
Definition set_seq (l : wlock) (w : Z) : wlock := WLock (wl_csst l) w (wl_active l).
Definition set_active (l : wlock) (a : Z) : wlock := WLock (wl_csst l) (wl_seq l) a.

(** The lock is taken, by the port [i]. *)
Definition own (c : wport_csst) (i : Z) : bool := wc_b c && (wc_s c =? i).

Section Ops.
Context (g : granularity) (wsize : Z).

Definition read_decompose_wport_csst (l : wlock) : wport_csst * wlock :=
  let (v, w) := pcas_read_uint64 g (wl_csst l) in (decompose_wport_csst v, set_csst l w).

(** The compare-and-swap of [promote], on the status that was read. *)
Definition promote_cas (l : wlock) (css_status : wport_csst) (peer : Z) : outcome wlock :=
  let! exp := compose_wport_csst false (wc_s css_status) (wc_owner css_status) in
  let! desire := compose_wport_csst true peer (u8 peer) in
  let '(_, w, _) := persist_cas_uint64 g (wl_csst l) exp desire in Ret (set_csst l w).

(** [Ret None]: [next_bit] does not come to an end. *)
Definition jj_wport_promote (l : wlock) (process_id : Z) (flag : bool) : outcome (option wlock) :=
  let (css_status, l) := read_decompose_wport_csst l in
  if wc_b css_status then Ret (Some l)
  else if negb (wl_active l =? 0) then
    match next_bit (Z.to_nat wsize) wsize (wl_active l) (wc_owner css_status) with
    | None => Ret None
    | Some peer => let! l := promote_cas l css_status peer in Ret (Some l)
    end
  else if negb flag then Ret (Some l)
  else let! l := promote_cas l css_status process_id in Ret (Some l).

Definition jj_wport_abort (l : wlock) (process_id : Z) : outcome (option (bool * wlock)) :=
  let l := set_active l (unset_bit wsize (wl_active l) process_id) in
  let! r := jj_wport_promote l process_id true in
  match r with
  | None => Ret None
  | Some l => let (cs, l) := read_decompose_wport_csst l in Ret (Some (negb (own cs process_id), l))
  end.

Definition jj_wport_tryenter (l : wlock) (process_id : Z) : outcome (option (bool * wlock)) :=
  let (css_status, l) := read_decompose_wport_csst l in
  if own css_status process_id then Ret (Some (true, l))
  else
    let l := set_active l (set_bit wsize (wl_active l) process_id) in
    let! r := jj_wport_promote l process_id false in
    match r with
    | None => Ret None
    | Some l => let (css_status, l) := read_decompose_wport_csst l in Ret (Some (own css_status process_id, l))
    end.

(** The waiting loop: [None] is a caller that still spins after [fuel] rounds. *)
Fixpoint wait_loop (fuel : nat) (l : wlock) (process_id counter : Z) (abort_signal : Z -> bool) : option wlock :=
  match fuel with
  | O => None
  | S k =>
      let (cs_st, l) := read_decompose_wport_csst l in
      if own cs_st process_id || abort_signal counter then Some l
      else wait_loop k l process_id (u32 (counter + 1)) abort_signal
  end.

Definition jj_wport_enter (fuel : nat) (l : wlock) (process_id : Z) (abort_signal : Z -> bool)
  : outcome (option (bool * wlock)) :=
  let! r := jj_wport_tryenter l process_id in
  match r with
  | None => Ret None
  | Some (got_lock, l) =>
      match (if got_lock then Some l else wait_loop fuel l process_id 0 abort_signal) with
      | None => Ret None
      | Some l =>
          let (cs_st, l) := read_decompose_wport_csst l in
          if own cs_st process_id then Ret (Some (true, l))
          else
            let! r := jj_wport_abort l process_id in
            match r with None => Ret None | Some (aborted, l) => Ret (Some (negb aborted, l)) end
      end
  end.

Definition jj_wport_exit (l : wlock) (process_id : Z) : outcome (option wlock) :=
  let (css, l) := read_decompose_wport_csst l in
  let l := set_active l (unset_bit wsize (wl_active l) process_id) in
  let (s, w) := pcas_read_uint64 g (wl_seq l) in
  let l := set_seq l (persist_atomic_write_uint64 g w (u64 (s + 1))) in
  let! v := compose_wport_csst false (u64 (s + 1)) (wc_owner css) in
  let l := set_csst l (persist_atomic_write_uint64 g (wl_csst l) v) in
  jj_wport_promote l process_id false.

Definition jj_wport_init (l : wlock) : outcome wlock :=
  let! v := compose_wport_csst false 1 0 in Ret (WLock v 1 0).

Definition jj_wport_recover (l : wlock) (process_id : Z) : outcome (option wlock) :=
  let (csst, l) := read_decompose_wport_csst l in
  if own csst process_id then
    let! r := jj_wport_abort l process_id in
    match r with None => Ret None | Some (_, l) => Ret (Some l) end
  else Ret (Some l).

(** [jj_wport_spin_lock] of user space; the kernel variants identify the processor first. *)
Definition jj_wport_lock (fuel : nat) (l : wlock) (process_id : Z) : outcome (option wlock) :=
  let! r := jj_wport_recover l (u8 process_id) in
  match r with
  | None => Ret None
  | Some l =>
      let! r := jj_wport_enter fuel l (u8 process_id) spin_no_abort in
      match r with None => Ret None | Some (ret, l) => bug_on (negb ret) (Ret (Some l)) end
  end.

Definition jj_wport_unlock (l : wlock) (process_id : Z) : outcome (option wlock) := jj_wport_exit l (u8 process_id).

Section Kern.
Context (nr_cpu_ids cpu_id : Z).

Definition with_port {A} (machine_id : Z) (k : Z -> outcome A) : outcome A :=
  with_process_id nr_cpu_ids cpu_id machine_id (fun process_id => bug_on (process_id >=? wsize) (k process_id)).

Definition jj_wport_lock_kern (fuel : nat) (l : wlock) (machine_id : Z) : outcome (option wlock) :=
  with_port machine_id (fun process_id => jj_wport_lock fuel l process_id).

Definition jj_wport_unlock_kern (l : wlock) (machine_id : Z) : outcome (option wlock) :=
  with_port machine_id (fun process_id => jj_wport_exit l (u8 process_id)).
End Kern.
End Ops.

(** ** The interleaved lock *)

(** What calls [promote] or [unset_bit]: [tryenter], [abort] (from [recover] or from
    [enter]), or [exit] with the owner it read. *)
Inductive within := InTry | InAbort (recovering : bool) | InExit (owner : Z).

(** Where a port is: between calls, down after a crash, or before an atomic step of a call. *)
Inductive wpc :=
| WIdle
| WDown
| RecRead
| TryRead
| SetLoad
| SetAdd
| UnsetLoad (c : within)
| UnsetSub (c : within)
| PRead (c : within)
| PActive (c : within) (st : wport_csst)
| PCas (c : within) (st : wport_csst) (peer : Z)
| TryDone
| SpinRead
| EnterRead
| AbortRead (recovering : bool)
| WCritical
| ExitRead
| ExitSeq (owner : Z)
| ExitWriteSeq (owner s : Z)
| ExitWriteCsst (owner s : Z).

(** Where [promote] and [unset_bit] return to, and [promote]'s [flag]. *)
Definition promoted (c : within) : wpc :=
  match c with InTry => TryDone | InAbort r => AbortRead r | InExit _ => WIdle end.
Definition unset_done (c : within) : wpc := match c with InExit o => ExitSeq o | _ => PRead c end.
Definition flag_of (c : within) : bool := match c with InAbort _ => true | _ => false end.

Section Interleaving.
Context (g : granularity) (wsize : Z).

(** The next atomic step of the port [i].  [choice] is what the code does not
    decide: whether a call starts with [recover], and the abort signal. *)
Definition wstep (i : Z) (choice : bool) (p : wpc) (l : wlock) : outcome (wpc * wlock) :=
  let test (k : wport_csst -> wpc) := let (c, l) := read_decompose_wport_csst g l in Ret (k c, l) in
  match p with
  | WIdle => Ret (if choice then RecRead else TryRead, l)
  | WDown => Ret (RecRead, l)
  | RecRead => test (fun c => if own c i then UnsetLoad (InAbort true) else TryRead)
  | TryRead => test (fun c => if own c i then EnterRead else SetLoad)
  | SetLoad => Ret (if bit_is_set wsize (wl_active l) i then PRead InTry else SetAdd, l)
  | SetAdd => Ret (PRead InTry, set_active l (add_mask wsize (wl_active l) i))
  | UnsetLoad c => Ret (if bit_is_set wsize (wl_active l) i then UnsetSub c else unset_done c, l)
  | UnsetSub c => Ret (unset_done c, set_active l (sub_mask wsize (wl_active l) i))
  | PRead c => test (fun st => if wc_b st then promoted c else PActive c st)
  | PActive c st =>
      if negb (wl_active l =? 0) then
        match next_bit (Z.to_nat wsize) wsize (wl_active l) (wc_owner st) with
        | None => Bug
        | Some peer => Ret (PCas c st peer, l)
        end
      else Ret (if flag_of c then PCas c st i else promoted c, l)
  | PCas c st peer => let! l := promote_cas g l st peer in Ret (promoted c, l)
  | TryDone => test (fun c => if own c i then EnterRead else SpinRead)
  | SpinRead => test (fun c => if own c i || choice then EnterRead else SpinRead)
  | EnterRead => test (fun c => if own c i then WCritical else UnsetLoad (InAbort false))
  | AbortRead recovering => test (fun c => if recovering then TryRead else if own c i then WCritical else WIdle)
  | WCritical => Ret (ExitRead, l)
  | ExitRead => test (fun c => UnsetLoad (InExit (wc_owner c)))
  | ExitSeq o => let (s, w) := pcas_read_uint64 g (wl_seq l) in Ret (ExitWriteSeq o s, set_seq l w)
  | ExitWriteSeq o s =>
      Ret (ExitWriteCsst o s, set_seq l (persist_atomic_write_uint64 g (wl_seq l) (u64 (s + 1))))
  | ExitWriteCsst o s =>
      let! v := compose_wport_csst false (u64 (s + 1)) o in
      Ret (PRead (InExit o), set_csst l (persist_atomic_write_uint64 g (wl_csst l) v))
  end.

Record wsys := WSys { ws_lock : wlock; ws_pc : Z -> wpc }.

Definition is_port (i : Z) : Prop := 0 <= i < wsize.

Inductive sys_step : wsys -> wsys -> Prop :=
| sys_proc i choice st p' l' :
    is_port i -> wstep i choice (ws_pc st i) (ws_lock st) = Ret (p', l') ->
    sys_step st (WSys l' (upd (ws_pc st) i p'))
| sys_crash i st : is_port i -> sys_step st (WSys (ws_lock st) (upd (ws_pc st) i WDown)).

(** Runs from an initialised lock in which the sequence number has not run over. *)
Inductive sys_reachable : wsys -> Prop :=
| sys_init l0 l : jj_wport_init l0 = Ret l -> sys_reachable (WSys l (fun _ => WIdle))
| sys_next st st' :
    sys_reachable st -> sys_step st st' -> value g (wl_seq (ws_lock st')) <= WPORT_CSST_S_MAX -> sys_reachable st'.
End Interleaving.
