(* ===== verification/WportSpec.v ===== *)
(** The correctness of the abortable lock of [WportLock]: mutual exclusion, no lost
    grant, hand-over to waiting ports, and recovery after a crash. *)
From Stdlib Require Import ZArith Lia Bool.
From stdpp Require Import base list numbers relations.
From S2P Require Import Prelude PersistCas AtomicBitset TatasLock WportLock.
Local Open Scope Z_scope.
Local Open Scope lupin_scope.

(** ** The lock word *)

Definition valid_csst (c : wport_csst) : Prop := 0 <= wc_owner c <= 63 /\ 0 <= wc_s c <= WPORT_CSST_S_MAX.

(** The word of a status. *)
Definition enc (c : wport_csst) : Z := (if wc_b c then 2 ^ 62 else 0) + wc_owner c * 2 ^ 56 + wc_s c.

Lemma s_max : WPORT_CSST_S_MAX = 2 ^ 56 - 1.
Proof. reflexivity. Qed.

Lemma enc_ok c : valid_csst c -> value_ok 64 (enc c).
Proof. intros [H1 H2]. rewrite s_max in H2. unfold value_ok, enc. destruct (wc_b c); lia. Qed.

Lemma compose_enc b s port : valid_csst (WportCsst b port s) -> compose_wport_csst b s port = Ret (enc (WportCsst b port s)).
Proof.
  intros [H1 H2]. cbn [wc_owner wc_s] in *. unfold compose_wport_csst, bug_on.
  destruct (Z.gtb_spec port 63); [lia|]. destruct (Z.gtb_spec s WPORT_CSST_S_MAX); [lia|]. rewrite s_max in H2. f_equal.
  unfold enc, WPORT_CSST_B_MASK, WPORT_CSST_B_SHIFT, WPORT_CSST_S_SHIFT, WPORT_CSST_PORTID_SHIFT. cbn [wc_b wc_owner wc_s].
  rewrite Z.shiftl_0_r. rewrite <-Z.lor_assoc, (Z.lor_comm s), (lor_shiftl_add port s 56) by lia.
  destruct b; [rewrite lor_shiftl_add by lia; lia|rewrite Z.lor_0_l; lia].
Qed.

Lemma decompose_eq w : value_ok 64 w ->
  decompose_wport_csst w = WportCsst (2 ^ 62 <=? w) ((w / 2 ^ 56) mod 2 ^ 6) (w mod 2 ^ 56).
Proof.
  unfold value_ok. intros Hw. unfold decompose_wport_csst, WPORT_CSST_B_MASK, WPORT_CSST_B_SHIFT,
    WPORT_CSST_PORTID_MASK, WPORT_CSST_S_MASK, WPORT_CSST_PORTID_SHIFT, WPORT_CSST_S_SHIFT.
  change (Z.shiftl 1 56 - 1) with (Z.ones 56). change (Z.shiftl 0x3f 56) with (Z.shiftl (Z.ones 6) 56).
  rewrite Z.shiftr_0_r, Z.land_ones by lia.
  rewrite Z.shiftr_land, (Z.shiftr_shiftl_l (Z.ones 6)), Z.shiftl_0_r, Z.land_ones, Z.shiftr_div_pow2 by lia.
  rewrite u8_small by (pose proof (Z.mod_pos_bound (w / 2 ^ 56) (2 ^ 6)); lia). f_equal.
  pose proof (dirty_bit 63 ltac:(lia) w ltac:(lia)) as D. unfold DIRTY, truthy in D. cbn [Z.sub] in D.
  change (63 - 1) with 62 in D. rewrite <-D.
  assert (0 <= Z.land w (Z.shiftl 1 62)) by (apply Z.land_nonneg; lia).
  destruct (Z.gtb_spec (Z.land w (Z.shiftl 1 62)) 0), (Z.eqb_spec (Z.land w (Z.shiftl 1 62)) 0); cbn [negb]; lia || done.
Qed.

Lemma decompose_enc c : valid_csst c -> decompose_wport_csst (enc c) = c.
Proof.
  intros Hv. rewrite decompose_eq by (by apply enc_ok). destruct Hv as [H1 H2]. rewrite s_max in H2.
  destruct c as [b o s]. unfold enc in *. cbn [wc_b wc_owner wc_s] in *.
  assert (E1 : ((if b then 2 ^ 62 else 0) + o * 2 ^ 56 + s) / 2 ^ 56 = (if b then 2 ^ 6 else 0) + o)
    by (symmetry; apply (Z.div_unique _ _ _ s); destruct b; lia).
  assert (E2 : ((if b then 2 ^ 62 else 0) + o * 2 ^ 56 + s) mod 2 ^ 56 = s)
    by (symmetry; apply (Z.mod_unique _ _ ((if b then 2 ^ 6 else 0) + o)); destruct b; lia).
  rewrite E1, E2. f_equal.
  - destruct b; [apply Z.leb_le|apply Z.leb_gt]; lia.
  - symmetry. apply (Z.mod_unique _ _ (if b then 1 else 0)); destruct b; lia.
Qed.

Lemma enc_decompose w : value_ok 64 w -> valid_csst (decompose_wport_csst w) /\ enc (decompose_wport_csst w) = w.
Proof.
  intros Hw. rewrite decompose_eq by done. unfold value_ok in Hw. unfold valid_csst, enc. rewrite s_max. cbn [wc_b wc_owner wc_s].
  pose proof (Z.mod_pos_bound (w / 2 ^ 56) (2 ^ 6)). pose proof (Z.mod_pos_bound w (2 ^ 56)).
  pose proof (Z.div_mod w (2 ^ 56)). pose proof (Z.div_mod (w / 2 ^ 56) (2 ^ 6)). split; [lia|].
  assert (w / 2 ^ 56 / 2 ^ 6 = if 2 ^ 62 <=? w then 1 else 0); [|destruct (2 ^ 62 <=? w); lia].
  rewrite Z.div_div by lia. destruct (Z.leb_spec (2 ^ 62) w).
  - symmetry. apply (Z.div_unique _ _ _ (w - 2 ^ 62)); lia.
  - apply Z.div_small. lia.
Qed.

(** The lock word keeps its three fields apart: what [compose_wport_csst] packs,
    [decompose_wport_csst] reads back, for every port and every sequence number that
    fits; the packed word leaves the dirty bit clear. *)
Theorem wport_csst_roundtrip (b : bool) (s port : Z) :
  0 <= port <= 63 -> 0 <= s <= WPORT_CSST_S_MAX ->
  exists w, compose_wport_csst b s port = Ret w /\ Z.testbit w 63 = false /\ decompose_wport_csst w = WportCsst b port s.
Proof.
  intros Hp Hs. pose proof (conj Hp Hs : valid_csst (WportCsst b port s)) as Hv. exists (enc (WportCsst b port s)).
  split; [by apply compose_enc|]. split; [|by apply decompose_enc].
  apply enc_ok in Hv. unfold value_ok in Hv. apply (testbit_above _ 63 63); lia.
Qed.

Lemma wport_csst_roundtrip_witness :
  exists w, compose_wport_csst true 41 41 = Ret w /\ Z.testbit w 63 = false /\ decompose_wport_csst w = WportCsst true 41 41.
Proof. apply (wport_csst_roundtrip true 41 41); [lia|rewrite s_max; lia]. Defined.

(** ** What a step does to the lock *)

#[export] Instance wport_csst_dec : EqDecision wport_csst.
Proof. solve_decision. Defined.

(** The lock without its encoding. *)
Record view := View { v_c : wport_csst; v_seq : Z; v_active : Z }.

Section View.
Context (g : granularity) (wsize : Z) (Hw : 0 < wsize <= 64).

Definition view_of (l : wlock) : view := View (decompose_wport_csst (value g (wl_csst l))) (value g (wl_seq l)) (wl_active l).

Definition lock_ok (l : wlock) : Prop := reg_ok g (wl_csst l) /\ reg_ok g (wl_seq l) /\ 0 <= wl_active l < 2 ^ wsize.

(** The step of a port on the view. *)
Definition vstep (i : Z) (choice : bool) (p : wpc) (v : view) : wpc * view :=
  let cs := v_c v in
  match p with
  | WIdle => (if choice then RecRead else TryRead, v)
  | WDown => (RecRead, v)
  | RecRead => (if own cs i then UnsetLoad (InAbort true) else TryRead, v)
  | TryRead => (if own cs i then EnterRead else SetLoad, v)
  | SetLoad => (if Z.testbit (v_active v) i then PRead InTry else SetAdd, v)
  | SetAdd => (PRead InTry, View cs (v_seq v) (Z.setbit (v_active v) i))
  | UnsetLoad c => (if Z.testbit (v_active v) i then UnsetSub c else unset_done c, v)
  | UnsetSub c => (unset_done c, View cs (v_seq v) (Z.clearbit (v_active v) i))
  | PRead c => (if wc_b cs then promoted c else PActive c cs, v)
  | PActive c st =>
      (if negb (v_active v =? 0) then PCas c st (default i (next_bit (Z.to_nat wsize) wsize (v_active v) (wc_owner st)))
       else if flag_of c then PCas c st i else promoted c, v)
  | PCas c st peer => (promoted c, if decide (cs = st) then View (WportCsst true peer peer) (v_seq v) (v_active v) else v)
  | TryDone => (if own cs i then EnterRead else SpinRead, v)
  | SpinRead => (if own cs i || choice then EnterRead else SpinRead, v)
  | EnterRead => (if own cs i then WCritical else UnsetLoad (InAbort false), v)
  | AbortRead recovering => (if recovering then TryRead else if own cs i then WCritical else WIdle, v)
  | WCritical => (ExitRead, v)
  | ExitRead => (UnsetLoad (InExit (wc_owner cs)), v)
  | ExitSeq o => (ExitWriteSeq o (v_seq v), v)
  | ExitWriteSeq o s => (ExitWriteCsst o s, View cs (s + 1) (v_active v))
  | ExitWriteCsst o s => (PRead (InExit o), View (WportCsst false o (s + 1)) (v_seq v) (v_active v))
  end.

(** A free status that was read, to be replaced. *)
Definition exp_ok (st : wport_csst) : Prop := wc_b st = false /\ is_port wsize (wc_owner st) /\ 0 <= wc_s st <= WPORT_CSST_S_MAX.

(** The local variables of a call. *)
Definition locals_ok (i : Z) (p : wpc) (v : view) : Prop :=
  match p with
  | SetAdd => Z.testbit (v_active v) i = false
  | UnsetSub _ => Z.testbit (v_active v) i = true
  | PActive _ st => exp_ok st
  | PCas _ st peer => exp_ok st /\ is_port wsize peer
  | ExitWriteSeq o s => 0 <= s <= WPORT_CSST_S_MAX
  | ExitWriteCsst o s => is_port wsize o /\ 0 <= s /\ s + 1 <= WPORT_CSST_S_MAX
  | _ => True
  end.

Lemma read_view l : lock_ok l ->
  exists l', read_decompose_wport_csst g l = (v_c (view_of l), l') /\ view_of l' = view_of l /\ lock_ok l'.
Proof using.
  intros (H1 & H2 & H3). destruct (reg_read g _ H1) as (w' & E1 & E2 & E3). unfold read_decompose_wport_csst. rewrite E1.
  eexists. split; [done|]. unfold view_of, lock_ok, set_csst. cbn [wl_csst wl_seq wl_active]. by rewrite E2.
Qed.

(** The compare-and-swap succeeds exactly on the status that was read. *)
Lemma cas_view l st peer : lock_ok l -> exp_ok st -> is_port wsize peer ->
  exists l', promote_cas g l st peer = Ret l' /\ lock_ok l' /\
    view_of l' = if decide (v_c (view_of l) = st) then View (WportCsst true peer peer) (v_seq (view_of l)) (v_active (view_of l)) else view_of l.
Proof using Hw.
  intros (H1 & H2 & H3) (Hb & Ho & Hs) Hp. unfold is_port in *. destruct st as [b o s]. cbn [wc_b wc_owner wc_s] in *. subst b.
  assert (V1 : valid_csst (WportCsst false o s)) by (split; cbn; lia).
  assert (V2 : valid_csst (WportCsst true peer peer)) by (split; cbn [wc_owner wc_s]; rewrite ?s_max; lia).
  unfold promote_cas. cbn [wc_s wc_owner]. rewrite (u8_small peer) by lia. rewrite !compose_enc by done. cbn [obind].
  destruct (reg_cas g (wl_csst l) _ _ H1 (enc_ok _ V1) (enc_ok _ V2)) as (b & w' & e' & -> & E & Hok).
  eexists. split; [done|]. split; [done|]. unfold view_of, set_csst. cbn [wl_csst wl_seq wl_active v_c v_seq v_active]. rewrite E.
  destruct H1 as [_ H1]. destruct (enc_decompose _ H1) as [Hv He].
  destruct (Z.eqb_spec (value g (wl_csst l)) (enc (WportCsst false o s))) as [X|X]; destruct (decide _) as [Y|Y]; [| | |done].
  - by rewrite decompose_enc.
  - exfalso. apply Y. rewrite X. by apply decompose_enc.
  - exfalso. apply X. by rewrite <-He, Y.
Qed.

Lemma set_view l a : lock_ok l -> 0 <= a < 2 ^ wsize ->
  lock_ok (set_active l a) /\ view_of (set_active l a) = View (v_c (view_of l)) (v_seq (view_of l)) a.
Proof using. intros (H1 & H2 & H3) Ha. done. Qed.

Lemma setbit_range a i : 0 <= a < 2 ^ wsize -> is_port wsize i -> 0 <= Z.setbit a i < 2 ^ wsize.
Proof using Hw.
  intros Ha Hi. destruct (Z.testbit a i) eqn:E.
  - assert (Z.setbit a i = a) as ->; [|done]. apply Z.bits_inj'. intros n Hn. rewrite Z.setbit_eqb by (destruct Hi; lia).
    destruct (Z.eqb_spec i n); subst; done.
  - rewrite <-(add_mask_eq wsize Hw) by done. apply Z.mod_pos_bound. apply Z.pow_pos_nonneg; lia.
Qed.

Lemma clearbit_range a i : 0 <= a < 2 ^ wsize -> is_port wsize i -> 0 <= Z.clearbit a i < 2 ^ wsize.
Proof using Hw.
  intros Ha Hi. destruct (Z.testbit a i) eqn:E.
  - rewrite <-(sub_mask_eq wsize Hw) by done. apply Z.mod_pos_bound. apply Z.pow_pos_nonneg; lia.
  - assert (Z.clearbit a i = a) as ->; [|done]. apply Z.bits_inj'. intros n Hn. rewrite Z.clearbit_eqb.
    destruct (Z.eqb_spec i n); subst; rewrite ?E; cbn [negb]; [done|apply andb_true_r].
Qed.

Lemma next_port a k : 0 <= a < 2 ^ wsize -> a <> 0 -> is_port wsize k ->
  exists peer, next_bit (Z.to_nat wsize) wsize a k = Some peer /\ is_port wsize peer /\ Z.testbit a peer = true.
Proof using Hw.
  intros Ha Hne Hk. destruct (next_bit_first wsize a k Hw Hk Ha Hne) as (d & Hd & E & Ht & _).
  exists ((k + d) mod wsize). split_and!; [done|apply Z.mod_pos_bound; lia|done].
Qed.

Local Ltac by_read H :=
  let l' := fresh "l" in let E := fresh "E" in let Ev := fresh "Ev" in
  destruct (read_view _ H) as (l' & E & Ev & ?); rewrite E; exists l'; split; [done|]; split; done.

(** Every step has an effect, and it is that of [vstep]. *)
Lemma wstep_view i choice p l :
  is_port wsize i -> lock_ok l -> locals_ok i p (view_of l) ->
  exists l', wstep g wsize i choice p l = Ret (fst (vstep i choice p (view_of l)), l') /\
    view_of l' = snd (vstep i choice p (view_of l)) /\ lock_ok l'.
Proof using Hw.
  intros Hi Hl Hp. pose proof Hl as (H1 & H2 & H3). destruct p; cbn [locals_ok] in Hp; cbn [wstep vstep fst snd]; try by_read Hl; try (by exists l).
  - rewrite bit_is_set_eq by done. by exists l.
  - rewrite add_mask_eq by done. eexists. split; [done|]. apply and_comm. apply set_view; [done|by apply setbit_range].
  - rewrite bit_is_set_eq by done. by exists l.
  - rewrite sub_mask_eq by done. eexists. split; [done|]. apply and_comm. apply set_view; [done|by apply clearbit_range].
  - cbn [view_of v_active]. destruct (Z.eqb_spec (wl_active l) 0) as [E|E]; cbn [negb]; [by exists l|].
    destruct (next_port _ (wc_owner st) H3 E) as (peer & -> & _); [apply Hp|]. by exists l.
  - destruct Hp as [He Hpeer]. destruct (cas_view l st peer Hl He Hpeer) as (l' & -> & Hok & Ev). by exists l'.
  - destruct (reg_read g _ H2) as (w' & -> & E2 & E3). eexists. split; [done|]. unfold view_of, lock_ok, set_seq.
    cbn [wl_csst wl_seq wl_active]. by rewrite E2.
  - rewrite s_max in Hp. assert (Hv : value_ok 64 (s + 1)) by (unfold value_ok; lia). rewrite u64_small by lia.
    destruct (reg_write g (wl_seq l) _ Hv) as [E1 E2]. eexists. split; [done|]. unfold view_of, lock_ok, set_seq.
    cbn [wl_csst wl_seq wl_active]. by rewrite E1.
  - destruct Hp as (Ho & Hs1 & Hs2). unfold is_port in Ho. assert (Hv : valid_csst (WportCsst false owner (s + 1))) by (split; cbn [wc_owner wc_s]; lia).
    rewrite s_max in Hs2. rewrite u64_small by lia. rewrite compose_enc by done. cbn [obind].
    destruct (reg_write g (wl_csst l) _ (enc_ok _ Hv)) as [E1 E2]. eexists. split; [done|]. unfold view_of, lock_ok, set_csst.
    cbn [wl_csst wl_seq wl_active]. by rewrite E1, decompose_enc.
Qed.
End View.

(** ** The invariant *)

(** From the entry to the critical section to the write that frees the lock. *)
Definition holding (p : wpc) : bool :=
  match p with
  | WCritical | ExitRead | UnsetLoad (InExit _) | UnsetSub (InExit _) | ExitSeq _ | ExitWriteSeq _ _ | ExitWriteCsst _ _ => true
  | _ => false
  end.

(** The port may still be registered in [active]. *)
Definition may_set (p : wpc) : bool :=
  match p with
  | WIdle | SetAdd | AbortRead _ | ExitSeq _ | ExitWriteSeq _ _ | ExitWriteCsst _ _ => false
  | PRead c | PActive c _ | PCas c _ _ => match c with InTry => true | _ => false end
  | _ => true
  end.

(** The port will look at the lock word, or try to promote, before it leaves. *)
Definition attentive (p : wpc) : bool :=
  match p with
  | WDown | RecRead | TryRead | SetLoad | SetAdd | TryDone | SpinRead | EnterRead => true
  | UnsetLoad c | UnsetSub c | PRead c => match c with InExit _ => false | _ => true end
  | PActive c _ | PCas c _ _ => match c with InTry => true | _ => false end
  | _ => false
  end.

(** The port has given up the lock, or never asked for it. *)
Definition leaving (p : wpc) : bool :=
  match p with
  | WIdle | PRead (InExit _) | PActive (InExit _) _ | PCas (InExit _) _ _ => true
  | _ => false
  end.

(** The port aborts, and is about to replace [st]. *)
Definition aborting (p : wpc) (st : wport_csst) : Prop :=
  match p with PActive (InAbort _) st' | PCas (InAbort _) st' _ => st' = st | _ => False end.

(** The status a port is about to replace. *)
Definition exp_of (p : wpc) : option wport_csst :=
  match p with PActive _ st | PCas _ st _ => Some st | _ => None end.

(** The lock has moved on from the free status [st]. *)
Definition gone (st : wport_csst) (v : view) : Prop := wc_b (v_c v) = true \/ wc_s st < wc_s (v_c v).

(** The port will promote a registered port if the lock is free with status [c]. *)
Definition responsible (p : wpc) (c : wport_csst) : Prop :=
  match p with
  | WDown | RecRead | TryRead | SetLoad | SetAdd | EnterRead | PRead _ => True
  | UnsetLoad (InAbort _) | UnsetSub (InAbort _) => True
  | PActive _ st | PCas _ st _ => st = c
  | _ => False
  end.

Lemma own_inj c i j : own c i = true -> own c j = true -> i = j.
Proof. unfold own. rewrite !andb_true_iff, !Z.eqb_eq. intros [_ ?] [_ ?]. congruence. Qed.

Lemma own_b c i : own c i = true -> wc_b c = true /\ wc_s c = i.
Proof. unfold own. rewrite andb_true_iff, Z.eqb_eq. done. Qed.

Section Invariant.
Context (wsize : Z) (Hw : 0 < wsize <= 64).

Record view_ok (v : view) : Prop := {
  vo_seq : 0 <= v_seq v <= WPORT_CSST_S_MAX;
  vo_active : 0 <= v_active v < 2 ^ wsize;
  vo_owner : is_port wsize (wc_owner (v_c v));
  vo_taken : wc_b (v_c v) = true -> wc_s (v_c v) = wc_owner (v_c v);
  vo_free : wc_b (v_c v) = false -> wc_s (v_c v) = v_seq v }.

(** What the place of one port says. *)
Record port_ok (i : Z) (p : wpc) (v : view) : Prop := {
  po_hold : holding p = true -> own (v_c v) i = true;
  po_clear : may_set p = false -> Z.testbit (v_active v) i = false;
  po_exp st : exp_of p = Some st ->
    exp_ok wsize st /\ wc_s st <= v_seq v /\ (wc_b (v_c v) = false -> wc_s st = wc_s (v_c v) -> st = v_c v);
  po_own : own (v_c v) i = true -> leaving p = false;
  po_locals :
    match p with
    | UnsetLoad c => c = InExit i \/ exists r, c = InAbort r
    | UnsetSub c => (c = InExit i \/ exists r, c = InAbort r) /\ Z.testbit (v_active v) i = true
    | PCas _ _ peer => is_port wsize peer
    | ExitSeq o => o = i
    | ExitWriteSeq o s => o = i /\ s = v_seq v
    | ExitWriteCsst o s => o = i /\ v_seq v = s + 1 /\ 0 <= s
    | _ => True
    end }.

(** What the places of two ports say: the status that [q] is about to replace is older
    than the one that [p] is about to write; the peer [p] that [q] is about to promote
    will notice. *)
Definition older (p q : wpc) : Prop :=
  match p, exp_of q with ExitWriteCsst _ s, Some st => wc_s st <= s | _, _ => True end.
Definition noticed (q p : wpc) (v : view) : Prop :=
  match q with PCas _ st _ => attentive p = true \/ gone st v \/ aborting p st | _ => True end.
Definition peer_of (q : wpc) : Z := match q with PCas _ _ peer => peer | _ => 0 end.

Record ainv (v : view) (pcs : Z -> wpc) : Prop := {
  ai_view : view_ok v;
  ai_port i : is_port wsize i -> port_ok i (pcs i) v;
  ai_older i j : is_port wsize i -> is_port wsize j -> older (pcs i) (pcs j);
  ai_noticed i : is_port wsize i -> noticed (pcs i) (pcs (peer_of (pcs i))) v;
  ai_resp : wc_b (v_c v) = false -> v_active v <> 0 -> exists q, is_port wsize q /\ responsible (pcs q) (v_c v) }.

(** A free status that differs from the present one is gone. *)
Lemma not_gone i p v st : view_ok v -> port_ok i p v -> exp_of p = Some st -> v_c v <> st -> gone st v.
Proof using Hw.
  intros [] P E Hne. destruct (po_exp _ _ _ P st E) as (_ & Hle & Heq). unfold gone.
  destruct (wc_b (v_c v)) eqn:B; [by left|right]. specialize (vo_free0 eq_refl).
  destruct (Z.eq_dec (wc_s st) (wc_s (v_c v))) as [X|X]; [|lia]. exfalso. apply Hne. symmetry. by apply Heq.
Qed.

(** How the lock changes under a step of [i]. *)
Inductive effect (i : Z) (p : wpc) (v : view) : view -> Prop :=
| E_bits a : (forall j, 0 <= j -> j <> i -> Z.testbit a j = Z.testbit (v_active v) j) ->
    effect i p v (View (v_c v) (v_seq v) a)
| E_grant c st peer : p = PCas c st peer -> v_c v = st ->
    effect i p v (View (WportCsst true peer peer) (v_seq v) (v_active v))
| E_seq o s : p = ExitWriteSeq o s -> effect i p v (View (v_c v) (s + 1) (v_active v))
| E_free o s : p = ExitWriteCsst o s -> effect i p v (View (WportCsst false o (s + 1)) (v_seq v) (v_active v)).

Lemma vstep_effect i choice p v : is_port wsize i -> effect i p v (snd (vstep wsize i choice p v)).
Proof using Hw.
  intros Hi. assert (effect i p v v) by (destruct v; by apply E_bits).
  destruct p; cbn [vstep snd]; try done.
  - apply E_bits. intros j Hj Hne. destruct Hi. rewrite Z.setbit_eqb by lia. destruct (Z.eqb_spec i j); [lia|done].
  - apply E_bits. intros j Hj Hne. destruct Hi. rewrite Z.clearbit_eqb. destruct (Z.eqb_spec i j); [lia|]. apply andb_true_r.
  - case_decide; [by eapply E_grant|done].
  - by eapply E_seq.
  - by eapply E_free.
Qed.

(** *** One port *)

Lemma view_step i choice p v :
  is_port wsize i -> view_ok v -> port_ok i p v -> v_seq (snd (vstep wsize i choice p v)) <= WPORT_CSST_S_MAX ->
  view_ok (snd (vstep wsize i choice p v)).
Proof using Hw.
  intros Hi V P Hmax. pose proof V as [V1 V2 V3 V4 V5]. pose proof (po_locals _ _ _ P) as L. pose proof (po_hold _ _ _ P) as Hh.
  destruct p; cbn [vstep snd v_seq] in *; try done.
  - constructor; cbn [v_c v_seq v_active]; try done. by apply setbit_range.
  - constructor; cbn [v_c v_seq v_active]; try done. by apply clearbit_range.
  - case_decide; [|done]. constructor; done.
  - constructor; cbn [v_c v_seq v_active]; try done; [lia|]. intros E. apply own_b in Hh as [B _]; [|done]. congruence.
  - destruct L as (-> & L & _). constructor; cbn [v_c v_seq v_active wc_b wc_owner wc_s]; done || lia.
Qed.

Lemma port_other i p j q v v' :
  is_port wsize j -> i <> j -> view_ok v -> port_ok i p v -> port_ok j q v -> older p q ->
  (peer_of p = j -> noticed p q v) -> effect i p v v' -> port_ok j q v'.
Proof using Hw.
  intros Hj Hne V Pi Pj Ho Hn [a Ha|c st peer -> Hst|o s ->|o s ->]; destruct Pj as [P1 P2 P3 P4 P5].
  - assert (Ej : Z.testbit a j = Z.testbit (v_active v) j) by (apply Ha; [apply Hj|done]).
    constructor; cbn [v_c v_seq v_active]; rewrite ?Ej; done.
  - destruct (po_exp _ _ _ Pi st eq_refl) as ((B & _) & _). subst st.
    assert (Hnh : holding q = true -> False) by (intros X; apply P1, own_b in X as [X _]; congruence).
    constructor; cbn [v_c v_seq v_active]; try done.
    + intros st X. destruct (P3 st X) as (X1 & X2 & X3). split_and!; done.
    + intros X. apply own_b in X as [_ X]. cbn [wc_s] in X. cbn [peer_of noticed] in Hn.
      destruct (Hn X) as [Hat|[[G|G]|Hab]]; [|congruence|lia|]; destruct q as [| | | | | |[]|[]|[]|[]|[]| | | | | | | | |]; done.
  - assert (Hnh : holding q = true -> False).
    { intros X. apply Hne. eapply own_inj; [by apply (po_hold _ _ _ Pi)|by apply P1]. }
    destruct (po_locals _ _ _ Pi) as [-> ->].
    constructor; cbn [v_c v_seq v_active]; try done.
    + intros st X. destruct (P3 st X) as (X1 & X2 & X3). split_and!; [done|lia|done].
    + destruct q; try done; by destruct Hnh.
  - assert (Hnh : holding q = true -> False).
    { intros X. apply Hne. eapply own_inj; [by apply (po_hold _ _ _ Pi)|by apply P1]. }
    constructor; cbn [v_c v_seq v_active]; try done.
    + intros st X. destruct (P3 st X) as (X1 & X2 & X3). unfold older in Ho. rewrite X in Ho. cbn [wc_b wc_s]. split_and!; [done|done|]. intros _ ?. lia.
Qed.

Lemma port_read i c v :
  view_ok v -> wc_b (v_c v) = false -> (may_set (PRead c) = false -> Z.testbit (v_active v) i = false) ->
  port_ok i (PActive c (v_c v)) v.
Proof using Hw.
  intros [V1 V2 V3 V4 V5] B Hc. constructor; try done.
  - intros st [= <-]. rewrite V5 by done. split; [|done]. split; [done|]. by rewrite V5.
  - intros X. apply own_b in X as [X _]. congruence.
Qed.

Lemma port_next i c st v :
  view_ok v -> v_active v <> 0 -> port_ok i (PActive c st) v ->
  port_ok i (PCas c st (default i (next_bit (Z.to_nat wsize) wsize (v_active v) (wc_owner st)))) v.
Proof using Hw.
  intros V Hne [P1 P2 P3 P4 P5]. destruct (P3 st eq_refl) as ((_ & Ho & _) & _).
  destruct (next_port wsize Hw _ _ (vo_active _ V) Hne Ho) as (peer & -> & Hp & _). by constructor.
Qed.

Lemma port_self i choice p v :
  is_port wsize i -> view_ok v -> port_ok i p v -> (peer_of p = i -> noticed p p v) ->
  port_ok i (fst (vstep wsize i choice p v)) (snd (vstep wsize i choice p v)).
Proof using Hw.
  intros Hi V P Hn. pose proof V as [V1 V2 V3 V4 V5]. destruct P as [P1 P2 P3 P4 P5].
  destruct p as [| | | | | |[]|[]|[]|[]|[]| | | | | | | | |]; cbn [vstep fst snd] in *; repeat case_match; try (by constructor).
  - constructor; try done. right. by eexists.
  - destruct P5 as [[= ->]|[r [=]]]. by constructor.
  - constructor; try done. intros _. apply Z.clearbit_eq.
  - destruct P5 as [[[= ->]|[r [=]]] _]. constructor; try done. intros _. apply Z.clearbit_eq.
  - by apply port_read.
  - by apply port_read.
  - by apply port_read.
  - apply port_next; try done. by apply Z.eqb_neq, negb_true_iff.
  - apply port_next; try done. by apply Z.eqb_neq, negb_true_iff.
  - apply port_next; try done. by apply Z.eqb_neq, negb_true_iff.
  - destruct (P3 _ eq_refl) as ((B & _) & _). constructor; try done. intros X. apply own_b in X as [_ X].
    destruct (Hn X) as [?|[[?|?]|?]]; try done; [congruence|subst st; lia].
  - constructor; try done. right. by eexists.
  - constructor; try done. congruence.
  - pose proof (P1 eq_refl) as Ho. apply own_b in Ho as [B S1]. rewrite V4 in S1 by done. rewrite S1. constructor; try done. by left.
  - destruct P5 as [-> ->]. constructor; try done. cbn [v_seq]. lia.
Qed.

(** *** Two ports *)

Lemma older_new i j choice p q v : port_ok i p v -> port_ok j q v -> older (fst (vstep wsize i choice p v)) q.
Proof using Hw.
  intros Pi Pj. destruct p as [| | | | | |[]|[]|[]|[]|[]| | | | | | | | |]; cbn [vstep fst]; repeat case_match; try done.
  destruct (po_locals _ _ _ Pi) as [-> ->]. unfold older. destruct (exp_of q) eqn:E; [|done]. by apply (po_exp _ _ _ Pj).
Qed.

Lemma older_old i j choice p q v : port_ok j q v -> older q p -> older q (fst (vstep wsize i choice p v)).
Proof using Hw.
  intros Pj Ho. destruct q; try done. assert (B : wc_b (v_c v) = true) by (eapply own_b, (po_hold _ _ _ Pj eq_refl)).
  destruct p as [| | | | | |[]|[]|[]|[]|[]| | | | | | | | |]; cbn [vstep fst]; repeat case_match; try done; congruence.
Qed.

Lemma gone_step i p v v' j q st :
  port_ok i p v -> older p q -> port_ok j q v -> exp_of q = Some st -> gone st v -> effect i p v v' -> gone st v'.
Proof using Hw.
  intros Pi Ho Pj E G [a Ha|c st' peer -> Hst|o s ->|o s ->]; [done|by left|done|].
  right. unfold older in Ho. rewrite E in Ho. cbn [v_c wc_s]. lia.
Qed.

(** The peer of a promotion moves, and still notices. *)
Lemma noticed_move i p j q st choice v :
  is_port wsize i -> view_ok v -> port_ok i p v -> port_ok j q v -> exp_of q = Some st ->
  attentive p = true \/ aborting p st ->
  let '(p', v') := vstep wsize i choice p v in attentive p' = true \/ gone st v' \/ aborting p' st.
Proof using Hw.
  intros Hi V Pi Pj E H. pose proof (not_gone j q v st V Pj E) as G. pose proof (po_locals _ _ _ Pi) as L.
  destruct p as [| | | | | |[]|[]|[]|[]|[]| | | | | | | | |]; cbn [vstep attentive aborting] in *; repeat case_match; try (by auto);
    try (by destruct H).
  - right; left. by left.
  - destruct (decide (v_c v = st)); auto.
  - destruct H as [|H]; auto.
  - destruct H as [|H]; auto.
  - right; left. by left.
  - destruct H as [|H]; [done|]. subst. right; left. by apply G.
  - right; left. left. by eapply own_b.
Qed.

Lemma may_set_notices j q v st : port_ok j q v -> Z.testbit (v_active v) j = true -> attentive q = true \/ gone st v.
Proof using Hw.
  intros P Hb. pose proof (po_clear _ _ _ P) as Hc. rewrite Hb in Hc. destruct (holding q) eqn:Hh.
  - right. left. by eapply own_b, (po_hold _ _ _ P).
  - left. destruct q as [| | | | | |[]|[]|[]|[]|[]| | | | | | | | |]; try done; by specialize (Hc eq_refl).
Qed.

Lemma noticed_new i choice p v pcs :
  is_port wsize i -> ainv v pcs -> pcs i = p ->
  let '(p', v') := vstep wsize i choice p v in noticed p' (upd pcs i p' (peer_of p')) v'.
Proof using Hw.
  intros Hi A Hp. pose proof (ai_port _ _ A i Hi) as P. rewrite Hp in P. pose proof (ai_view _ _ A) as V.
  destruct p as [| | | | | |[]|[]|[]|c st|[]| | | | | | | | |]; cbn [vstep]; repeat case_match; try done.
  - destruct (po_exp _ _ _ P st eq_refl) as ((_ & Ho & _) & _). apply negb_true_iff, Z.eqb_neq in H.
    destruct (next_port wsize Hw _ _ (vo_active _ V) H Ho) as (peer & -> & Hpeer & Hb). cbn [default from_option id noticed peer_of]. unfold upd, id.
    destruct (Z.eqb_spec peer i) as [->|Hne].
    + left. destruct c; [done| |]; pose proof (po_clear _ _ _ P eq_refl); cbn in *; congruence.
    + destruct (may_set_notices peer (pcs peer) v st (ai_port _ _ A peer Hpeer) Hb); auto.
  - cbn [noticed peer_of]. unfold upd. rewrite Z.eqb_refl. right; right. by destruct c.
  - by destruct c.
Qed.

Lemma responsible_step i choice p v :
  is_port wsize i -> view_ok v -> port_ok i p v -> wc_b (v_c v) = false -> responsible p (v_c v) ->
  let '(p', v') := vstep wsize i choice p v in
  wc_b (v_c v') = true \/ v_active v' = 0 \/ responsible p' (v_c v').
Proof using Hw.
  intros Hi V P B R. destruct p as [| | | | | |[]|[]|[]|c st|c st| | | | | | | | |]; cbn [vstep responsible] in *; repeat case_match; try (by auto).
  1-3: by right; right.
  - right; left. by apply Z.eqb_eq, negb_false_iff.
  - exfalso. match goal with E : own _ _ = true |- _ => apply own_b in E as [E _] end. congruence.
Qed.

(** A lock that becomes free, or a port that registers: the port that did it promotes. *)
Lemma enabler i choice p v :
  let '(p', v') := vstep wsize i choice p v in
  wc_b (v_c v') = false -> v_active v' <> 0 ->
  responsible p' (v_c v') \/ (wc_b (v_c v) = false /\ v_active v <> 0).
Proof using Hw.
  destruct p as [| | | | | |c|c|c|c st|c st peer| | | | | | | | |]; cbn [vstep]; repeat case_match; try (by auto); try (by left).
  intros B Ha. right. split; [done|]. intros Z0. apply Ha. cbn [v_active]. rewrite Z0. apply Z.ldiff_0_l.
Qed.

(** *** The system *)

(** The ports that do not move. *)
Lemma noticed_other i j p' v v' pcs :
  is_port wsize i -> is_port wsize j -> i <> j -> ainv v pcs -> effect i (pcs i) v v' ->
  (forall st, exp_of (pcs j) = Some st -> attentive (pcs i) = true \/ aborting (pcs i) st ->
     attentive p' = true \/ gone st v' \/ aborting p' st) ->
  noticed (pcs j) (upd pcs i p' (peer_of (pcs j))) v'.
Proof using Hw.
  intros Hi Hj Hne A Ef Hm. pose proof (ai_noticed _ _ A j Hj) as N. destruct (pcs j) as [| | | | | | | | | |c st peer| | | | | | | | |] eqn:Ej; try done.
  cbn [noticed peer_of] in *.
  assert (G : gone st v -> gone st v').
  { intros G. eapply (gone_step i (pcs i) v v' j (pcs j)); [by apply A|by apply A|by apply A|by rewrite Ej|done|done]. }
  destruct (Z.eq_dec i peer) as [->|Hp].
  - rewrite upd_same. destruct N as [N|[N|N]]; [by apply (Hm st); auto|by auto|by apply (Hm st); auto].
  - rewrite upd_other by done. destruct N as [N|[N|N]]; auto.
Qed.

Lemma ainv_step i choice v pcs :
  is_port wsize i -> ainv v pcs -> v_seq (snd (vstep wsize i choice (pcs i) v)) <= WPORT_CSST_S_MAX ->
  ainv (snd (vstep wsize i choice (pcs i) v)) (upd pcs i (fst (vstep wsize i choice (pcs i) v))).
Proof using Hw.
  intros Hi A Hmax. pose proof A as [V P O N R]. pose proof (vstep_effect i choice (pcs i) v Hi) as Ef.
  pose proof (fun j q st => noticed_move i (pcs i) j q st choice v Hi V (P i Hi)) as Nm.
  pose proof (noticed_new i choice (pcs i) v pcs Hi A eq_refl) as Nn.
  pose proof (responsible_step i choice (pcs i) v Hi V (P i Hi)) as Rm.
  pose proof (view_step i choice (pcs i) v Hi V (P i Hi) Hmax) as V'.
  pose proof (port_self i choice (pcs i) v Hi V (P i Hi)) as Ps.
  pose proof (fun j q Pj => older_new i j choice (pcs i) q v (P i Hi) Pj) as On.
  pose proof (fun j q => older_old i j choice (pcs i) q v) as Oo.
  pose proof (enabler i choice (pcs i) v) as En.
  destruct (vstep wsize i choice (pcs i) v) as [p' v'] eqn:Es. cbn [fst snd] in *. constructor.
  - done.
  - intros j Hj. destruct (Z.eq_dec i j) as [<-|Hne].
    + rewrite upd_same. apply Ps. intros X. specialize (N i Hi). by rewrite X in N.
    + rewrite upd_other by done. apply (port_other i (pcs i) j (pcs j) v); try done; [by apply P|by apply P|by apply O|].
      intros <-. by apply N.
  - intros j k Hj Hk. destruct (Z.eq_dec i j) as [<-|Hj'], (Z.eq_dec i k) as [<-|Hk']; rewrite ?upd_same, ?upd_other by done.
    + destruct p'; done.
    + apply (On k). by apply P.
    + apply (Oo j); [by apply P|by apply O].
    + by apply O.
  - intros j Hj. destruct (Z.eq_dec i j) as [<-|Hne]; [by rewrite upd_same|]. rewrite upd_other by done.
    apply (noticed_other i j p' v v'); try done. intros st Est. by apply (Nm j (pcs j)); [apply P|].
  - intros B Ha. destruct (En B Ha) as [X|[B0 Ha0]]; [exists i; by rewrite upd_same|].
    destruct (R B0 Ha0) as (q & Hq & Rq). destruct (Z.eq_dec i q) as [<-|Hne].
    + exists i. split; [done|]. rewrite upd_same. destruct (Rm B0 Rq) as [X|[X|X]]; [congruence|done|done].
    + exists q. split; [done|]. rewrite upd_other by done. destruct Ef as [a _|c st peer _ _|o s _|o s Ep]; try done.
      pose proof (po_hold _ _ _ (P i Hi)) as Hh. rewrite Ep in Hh. apply own_b in Hh as [Hh _]; [|done]. congruence.
Qed.

Lemma ainv_crash i v pcs : is_port wsize i -> ainv v pcs -> ainv v (upd pcs i WDown).
Proof using Hw.
  intros Hi [V P O N R]. assert (Pd : port_ok i WDown v) by (by constructor). constructor; [done| | | |].
  - intros j Hj. destruct (Z.eq_dec i j) as [<-|Hne]; [by rewrite upd_same|rewrite upd_other by done; by apply P].
  - intros j k Hj Hk. destruct (Z.eq_dec i j) as [<-|Hj'], (Z.eq_dec i k) as [<-|Hk']; rewrite ?upd_same, ?upd_other by done; try done.
    + by destruct (pcs j).
    + by apply O.
  - intros j Hj. destruct (Z.eq_dec i j) as [<-|Hne]; [by rewrite upd_same|]. rewrite upd_other by done. specialize (N j Hj).
    destruct (pcs j) as [| | | | | | | | | |c st peer| | | | | | | | |] eqn:Ej; try done. cbn [noticed peer_of] in *.
    destruct (Z.eq_dec i peer) as [->|Hp]; [rewrite upd_same; by left|by rewrite upd_other].
  - intros B Ha. exists i. by rewrite upd_same.
Qed.

Lemma ainv_init : ainv (View (WportCsst false 0 1) 1 0) (fun _ => WIdle).
Proof using Hw.
  constructor; try done.
  - constructor; cbn [v_c v_seq v_active wc_b wc_owner wc_s]; try done; [split; [lia|apply Z.pow_pos_nonneg; lia]|].
    unfold is_port. lia.
  - intros i Hi. constructor; try done. intros _. apply Z.bits_0.
Qed.

Lemma port_locals i p v : is_port wsize i -> view_ok v -> port_ok i p v -> locals_ok wsize i p v.
Proof using Hw.
  intros Hi V [P1 P2 P3 P4 P5]. destruct V as [V1 V2 V3 V4 V5]. destruct p; cbn [locals_ok]; try done.
  - by apply P2.
  - apply P5.
  - by apply P3.
  - split; [by apply P3|done].
  - by destruct P5 as [_ ->].
  - destruct P5 as (-> & P5 & P6). split_and!; [done|done|lia].
Qed.
End Invariant.

(** ** The system *)

(** The port [i] runs alone, with these choices. *)
Fixpoint run_port (g : granularity) (wsize i : Z) (choices : list bool) (st : wsys) : outcome wsys :=
  match choices with
  | [] => Ret st
  | choice :: rest =>
      let! r := wstep g wsize i choice (ws_pc st i) (ws_lock st) in
      let (p', l') := r in run_port g wsize i rest (WSys l' (upd (ws_pc st) i p'))
  end.

(** How many steps a port that was granted the lock is from its critical section. *)
Definition to_enter (p : wpc) : nat :=
  match p with
  | WDown => 8 | RecRead => 7 | SetLoad => 5 | SetAdd => 4 | TryRead | TryDone | SpinRead => 2 | EnterRead => 1
  | UnsetLoad (InAbort r) => if r then 6 else 4
  | UnsetSub (InAbort r) => if r then 5 else 3
  | PRead InTry | PCas InTry _ _ => 3
  | PRead (InAbort r) | PCas (InAbort r) _ _ => if r then 4 else 2
  | PActive InTry _ => 4
  | PActive (InAbort r) _ => if r then 5 else 3
  | AbortRead r => if r then 3 else 1
  | _ => 0
  end.

(** How many steps a responsible port is from its promotion. *)
Definition to_grant (p : wpc) : nat :=
  match p with
  | WDown => 8 | RecRead => 7 | TryRead | EnterRead => 6 | SetLoad | UnsetLoad _ => 5 | SetAdd | UnsetSub _ => 4
  | PRead _ => 3 | PActive _ _ => 2 | PCas _ _ _ => 1
  | _ => 0
  end.

Definition in_abort (p : wpc) : bool :=
  match p with
  | UnsetLoad (InAbort _) | UnsetSub (InAbort _) | PRead (InAbort _) | PActive (InAbort _) _ | PCas (InAbort _) _ _ => true
  | _ => false
  end.

Section System.
Context (g : granularity) (wsize : Z) (Hw : 0 < wsize <= 64).

Definition sys_inv (st : wsys) : Prop :=
  lock_ok g wsize (ws_lock st) /\ ainv wsize (view_of g (ws_lock st)) (ws_pc st).

(** The status that the lock word holds. *)
Definition status (st : wsys) : wport_csst := v_c (view_of g (ws_lock st)).

Lemma sys_wstep i choice st :
  is_port wsize i -> sys_inv st ->
  exists l', wstep g wsize i choice (ws_pc st i) (ws_lock st) =
      Ret (fst (vstep wsize i choice (ws_pc st i) (view_of g (ws_lock st))), l') /\
    view_of g l' = snd (vstep wsize i choice (ws_pc st i) (view_of g (ws_lock st))) /\ lock_ok g wsize l'.
Proof using Hw.
  intros Hi [Hl A]. apply wstep_view; [done..|]. apply port_locals; [done|done|by eapply ai_view|by apply A].
Qed.

Lemma sys_inv_step st st' :
  sys_inv st -> sys_step g wsize st st' -> v_seq (view_of g (ws_lock st')) <= WPORT_CSST_S_MAX -> sys_inv st'.
Proof using Hw.
  intros I Hs. pose proof I as [Hl A]. destruct Hs as [i choice st p' l' Hi Es|i st Hi]; intros Hmax.
  - destruct (sys_wstep i choice st Hi I) as (l & E1 & E2 & E3). rewrite E1 in Es. injection Es as <- <-.
    split; [done|]. cbn [ws_lock ws_pc] in *. rewrite E2 in *. by apply ainv_step.
  - split; [done|]. by apply ainv_crash.
Qed.

Lemma wport_init_inv l0 l : jj_wport_init l0 = Ret l -> sys_inv (WSys l (fun _ => WIdle)).
Proof using Hw.
  assert (Hv : valid_csst (WportCsst false 0 1)) by (by split).
  unfold jj_wport_init. rewrite (compose_enc false 1 0 Hv). cbn [obind]. intros [= <-].
  destruct (reg_plain g _ (enc_ok _ Hv)) as [E1 O1]. destruct (reg_plain g 1) as [E2 O2]; [by split|].
  split; cbn [ws_lock ws_pc].
  - split; [done|]. split; [done|]. cbn. split; [lia|apply Z.pow_pos_nonneg; lia].
  - unfold view_of. cbn [wl_csst wl_seq wl_active]. rewrite E1, E2, decompose_enc by done. by apply ainv_init.
Qed.

Lemma wport_reachable_inv st : sys_reachable g wsize st -> sys_inv st.
Proof using Hw. induction 1; [by eapply wport_init_inv|]. by eapply sys_inv_step. Qed.

Lemma enter_step i choice p v :
  port_ok wsize i p v -> own (v_c v) i = true -> holding p = false ->
  exists p' a, vstep wsize i choice p v = (p', View (v_c v) (v_seq v) a) /\
    (p' = WCritical /\ (0 < to_enter p)%nat \/ holding p' = false /\ (to_enter p' < to_enter p)%nat).
Proof using Hw.
  intros P Ho Hh. pose proof (po_own _ _ _ _ P Ho) as Hl. pose proof (po_locals _ _ _ _ P) as L.
  pose proof (own_b _ _ Ho) as [B _]. pose proof (po_exp _ _ _ _ P) as X.
  destruct p as [| | | | | |[|[]|]|[|[]|]|[|[]|]|[|[]|]|[|[]|]| | |[]|[]| | | | |]; try done; cbn [vstep]; rewrite ?Ho, ?B;
    destruct v as [c s a]; cbn [v_c v_seq v_active orb] in *; repeat case_match;
    try (eexists _, _; split; [done|]; (left; split; [done|cbn; lia]) || (right; split; [done|cbn; lia])).
  1-3: exfalso; naive_solver.
  - exfalso. destruct (X _ eq_refl) as ((E & _) & _). congruence.
  - exfalso. destruct (X _ eq_refl) as ((E & _) & _). congruence.
  - exfalso. destruct (X _ eq_refl) as ((E & _) & _). congruence.
Qed.

Lemma grant_step i choice p v :
  is_port wsize i -> view_ok wsize v -> port_ok wsize i p v -> wc_b (v_c v) = false -> responsible p (v_c v) ->
  v_active v <> 0 \/ in_abort p = true ->
  let '(p', v') := vstep wsize i choice p v in
  v_seq v' = v_seq v /\
  (wc_b (v_c v') = true \/
   wc_b (v_c v') = false /\ responsible p' (v_c v') /\ (v_active v' <> 0 \/ in_abort p' = true) /\ (to_grant p' < to_grant p)%nat).
Proof using Hw.
  intros Hi V P B R Ha. assert (No : own (v_c v) i = false) by (unfold own; by rewrite B).
  pose proof (po_locals _ _ _ _ P) as L.
  destruct p as [| | | | | |[]|[]|[]|[]|[]| | |[]|[]| | | | |]; try done; cbn [vstep]; rewrite ?No, ?B; cbn [responsible] in R; repeat case_match;
    try (split; [done|]; (by left) || (right; split_and!; [done|done|tauto || (by right)|cbn; lia])).
  - split; [done|]. right. split_and!; [done|done| |cbn; lia]. left. cbn [v_active]. intros Z0.
    pose proof (Z.setbit_eq (v_active v) i (proj1 Hi)) as T. rewrite Z0, Z.bits_0 in T. done.
  - exfalso. destruct Ha as [Ha|Ha]; [|done]. by apply Ha, Z.eqb_eq, negb_false_iff.
  - exfalso. destruct Ha as [Ha|Ha]; [|done]. by apply Ha, Z.eqb_eq, negb_false_iff.
  - by subst st.
  - by subst st.
  - by subst st.
Qed.

(** A step of [i] alone, which does not write the sequence number. *)
Lemma run_cons i choice st :
  is_port wsize i -> sys_inv st ->
  let '(p', v') := vstep wsize i choice (ws_pc st i) (view_of g (ws_lock st)) in
  v_seq v' = v_seq (view_of g (ws_lock st)) ->
  exists l', (forall rest, run_port g wsize i (choice :: rest) st = run_port g wsize i rest (WSys l' (upd (ws_pc st) i p'))) /\
    view_of g l' = v' /\ sys_inv (WSys l' (upd (ws_pc st) i p')).
Proof using Hw.
  intros Hi I. destruct (sys_wstep i choice st Hi I) as (l' & E1 & E2 & E3).
  pose proof (sys_inv_step st _ I (sys_proc g wsize i choice st _ l' Hi E1)) as I'.
  pose proof (vo_seq _ _ (ai_view _ _ _ (proj2 I))) as M.
  destruct (vstep wsize i choice (ws_pc st i) (view_of g (ws_lock st))) as [p' v'] eqn:Ev. cbn [fst snd ws_lock] in *. intros Es.
  exists l'. split; [intros rest; cbn [run_port]; by rewrite E1|]. split; [done|]. apply I'. rewrite E2, Es. lia.
Qed.

Lemma enters i n choices st :
  is_port wsize i -> sys_inv st -> own (status st) i = true -> holding (ws_pc st i) = false ->
  (to_enter (ws_pc st i) <= n)%nat -> length choices = n ->
  exists k st', (k <= n)%nat /\ run_port g wsize i (take k choices) st = Ret st' /\ ws_pc st' i = WCritical /\ status st' = status st.
Proof using Hw.
  intros Hi. revert choices st. induction n as [|n IH]; intros choices st I Ho Hh Hn Hlen.
  all: pose proof (ai_port _ _ _ (proj2 I) i Hi) as P.
  { exfalso. destruct (enter_step i true _ _ P Ho Hh) as (p' & a & Ev & [[_ ?]|[_ ?]]); lia. }
  destruct choices as [|choice rest]; [done|]. injection Hlen as Hlen.
  destruct (enter_step i choice _ _ P Ho Hh) as (p' & a & Ev & Hp).
  pose proof (run_cons i choice st Hi I) as Hr. rewrite Ev in Hr. destruct (Hr eq_refl) as (l' & E1 & E2 & I').
  set (st1 := WSys l' (upd (ws_pc st) i p')) in *.
  assert (Hs : status st1 = status st) by (unfold status; cbn [st1 ws_lock]; by rewrite E2).
  assert (Hp1 : ws_pc st1 i = p') by apply upd_same.
  destruct Hp as [[-> _]|[Hh' Hlt]].
  - exists 1%nat, st1. cbn [take]. rewrite take_0, E1. split_and!; done || lia.
  - destruct (IH rest st1) as (k & st' & Hk & Er & Ec & Es); try done; rewrite ?Hs, ?Hp1; try done; [lia|].
    exists (S k), st'. cbn [take]. rewrite E1. split_and!; [lia|done|done|congruence].
Qed.

Lemma grants i n choices st :
  is_port wsize i -> sys_inv st -> wc_b (status st) = false -> responsible (ws_pc st i) (status st) ->
  v_active (view_of g (ws_lock st)) <> 0 \/ in_abort (ws_pc st i) = true ->
  (to_grant (ws_pc st i) <= n)%nat -> length choices = n ->
  exists k st', (k <= n)%nat /\ run_port g wsize i (take k choices) st = Ret st' /\ wc_b (status st') = true.
Proof using Hw.
  intros Hi. revert choices st. induction n as [|n IH]; intros choices st I B R Ha Hn Hlen.
  all: pose proof (ai_port _ _ _ (proj2 I) i Hi) as P.
  { exfalso. destruct (ws_pc st i) as [| | | | | |[]|[]|[]|[]|[]| | |[]|[]| | | | |]; cbn in Hn; lia || done. }
  destruct choices as [|choice rest]; [done|]. injection Hlen as Hlen.
  pose proof (grant_step i choice _ _ Hi (ai_view _ _ _ (proj2 I)) P B R Ha) as Hg.
  pose proof (run_cons i choice st Hi I) as Hr.
  destruct (vstep wsize i choice (ws_pc st i) (view_of g (ws_lock st))) as [p' v']. destruct Hg as [Hq Hg].
  destruct (Hr Hq) as (l' & E1 & E2 & I'). set (st1 := WSys l' (upd (ws_pc st) i p')) in *.
  assert (Hs : status st1 = v_c v') by (unfold status; cbn [st1 ws_lock]; by rewrite E2).
  assert (Hp1 : ws_pc st1 i = p') by apply upd_same.
  destruct Hg as [Hg|(B' & R' & Ha' & Hlt)].
  - exists 1%nat, st1. cbn [take]. rewrite take_0, E1, Hs. split_and!; done || lia.
  - destruct (IH rest st1) as (k & st' & Hk & Er & Et); try done; rewrite ?Hs, ?Hp1; try done; [by rewrite <-E2 in Ha'|lia|].
    exists (S k), st'. cbn [take]. rewrite E1. split_and!; [lia|done|done].
Qed.
End System.

(** ** Theorems *)

(** A schedule: which port steps next, and its choice; [None] when the sequence number runs over. *)
Fixpoint sched (g : granularity) (wsize : Z) (events : list (Z * bool)) (st : wsys) : option wsys :=
  match events with
  | [] => Some st
  | (i, choice) :: rest =>
      match wstep g wsize i choice (ws_pc st i) (ws_lock st) with
      | Ret (p', l') =>
          if (0 <=? i) && (i <? wsize) && (value g (wl_seq l') <=? WPORT_CSST_S_MAX)
          then sched g wsize rest (WSys l' (upd (ws_pc st) i p')) else None
      | Bug => None
      end
  end.

Lemma sched_reachable g wsize events st st' :
  sys_reachable g wsize st -> sched g wsize events st = Some st' -> sys_reachable g wsize st'.
Proof.
  revert st. induction events as [|[i choice] rest IH]; intros st R; cbn [sched]; [by intros [= <-]|].
  destruct (wstep g wsize i choice (ws_pc st i) (ws_lock st)) as [[p' l']|] eqn:E; [|done]. case_match eqn:C; [|done].
  rewrite !andb_true_iff, !Z.leb_le, Z.ltb_lt in C. destruct C as [[]]. apply IH.
  eapply sys_next; [done|by eapply sys_proc|done].
Qed.

(** C6. Mutual exclusion.  In every run of the abortable lock, with ports that race,
    give up waiting and crash at any step, at most one port is between its entry to
    the critical section and the write that frees the lock, and the lock word names it. *)
Theorem wport_mutual_exclusion (g : granularity) (wsize i : Z) (st : wsys) :
  0 < wsize <= 64 -> sys_reachable g wsize st -> is_port wsize i -> holding (ws_pc st i) = true ->
  own (status g st) i = true /\ forall j, is_port wsize j -> holding (ws_pc st j) = true -> j = i.
Proof.
  intros Hw R Hi Hh. apply (wport_reachable_inv g wsize Hw) in R as [_ A]. pose proof (po_hold _ _ _ _ (ai_port _ _ _ A i Hi) Hh) as Ho.
  split; [done|]. intros j Hj Hh'. eapply own_inj; [|exact Ho]. by apply (po_hold _ _ _ _ (ai_port _ _ _ A j Hj)).
Qed.

(** C5. A grant is not lost.  A port that the lock word names holds the lock, or enters
    its critical section within eight steps of its own, whatever its abort signal
    says and wherever it is: waiting, giving up, or coming back after a crash. *)
Theorem wport_grant_not_lost (g : granularity) (wsize i : Z) (st : wsys) :
  0 < wsize <= 64 -> sys_reachable g wsize st -> own (status g st) i = true ->
  is_port wsize i /\
  (holding (ws_pc st i) = true \/
   forall choices, length choices = 8%nat ->
     exists k st', (k <= 8)%nat /\ run_port g wsize i (take k choices) st = Ret st' /\ ws_pc st' i = WCritical).
Proof.
  intros Hw R Ho. apply (wport_reachable_inv g wsize Hw) in R as I. pose proof I as [_ A].
  assert (Hi : is_port wsize i).
  { destruct (own_b _ _ Ho) as [B <-]. destruct (ai_view _ _ _ A) as [? ? V3 V4 ?]. unfold status. rewrite V4; done. }
  split; [done|]. destruct (holding (ws_pc st i)) eqn:Hh; [by left|right]. intros choices Hlen.
  destruct (enters g wsize Hw i 8 choices st Hi I Ho Hh) as (k & st' & Hk & Er & Ec & _); [|done|by exists k, st'].
  destruct (ws_pc st i) as [| | | | | |[|[]|]|[|[]|]|[|[]|]|[|[]|]|[|[]|]| | |[]|[]| | | | |]; cbn; lia.
Qed.

(** C13. The lock is handed over.  When it is free and some port is registered, there is
    a port inside a call which, running alone for at most eight steps, has it taken: no registered
    port waits on a lock that nobody will give away, unless the port that is to give
    it away is down. *)
Theorem wport_hand_over (g : granularity) (wsize : Z) (st : wsys) :
  0 < wsize <= 64 -> sys_reachable g wsize st -> wc_b (status g st) = false -> wl_active (ws_lock st) <> 0 ->
  exists q, is_port wsize q /\ ws_pc st q <> WIdle /\
    forall choices, length choices = 8%nat ->
      exists k st', (k <= 8)%nat /\ run_port g wsize q (take k choices) st = Ret st' /\ wc_b (status g st') = true.
Proof.
  intros Hw R B Ha. apply (wport_reachable_inv g wsize Hw) in R as I. pose proof I as [_ A].
  destruct (ai_resp _ _ _ A B Ha) as (q & Hq & Rq). exists q. split; [done|].
  split; [intros X; by rewrite X in Rq|]. intros choices Hlen.
  apply (grants g wsize Hw q 8 choices st Hq I B Rq); [by left| |done].
  destruct (ws_pc st q); cbn; lia.
Qed.

(** No step of the abortable lock fails: in every run each port can take its next
    step, no [BUG_ON] of the lock word's encoding fires and the search for the next
    port comes to an end. *)
Theorem wport_never_stuck (g : granularity) (wsize i : Z) (choice : bool) (st : wsys) :
  0 < wsize <= 64 -> sys_reachable g wsize st -> is_port wsize i ->
  exists p' l', wstep g wsize i choice (ws_pc st i) (ws_lock st) = Ret (p', l').
Proof.
  intros Hw R Hi. apply (wport_reachable_inv g wsize Hw) in R. destruct (sys_wstep g wsize Hw i choice st Hi R) as (l' & E & _). eauto.
Qed.

(** A run of 32 ports: port 3 takes the lock, port 5 waits. *)
Definition example_start : wsys :=
  match jj_wport_init (WLock 0 0 0) with Ret l => WSys l (fun _ => WIdle) | Bug => WSys (WLock 0 0 0) (fun _ => WIdle) end.
Definition example_locked : wsys :=
  default example_start (sched CACHELINE_GRANULAR 32 (repeat (3, false) 9 ++ repeat (5, true) 8) example_start).
(** Port 3 frees the lock, and has not looked for a successor. *)
Definition example_freed : wsys :=
  default example_start (sched CACHELINE_GRANULAR 32 (repeat (3, false) 7) example_locked).
(** Port 3 promotes port 5, which had already decided to give up. *)
Definition example_granted : wsys :=
  default example_start (sched CACHELINE_GRANULAR 32 (repeat (5, true) 1 ++ repeat (3, false) 3) example_freed).

Lemma example_reachable events st st' :
  sys_reachable CACHELINE_GRANULAR 32 st -> default example_start (sched CACHELINE_GRANULAR 32 events st) = st' ->
  sys_reachable CACHELINE_GRANULAR 32 st'.
Proof.
  intros R <-. destruct (sched _ _ _ _) eqn:E; cbn [default]; [by eapply sched_reachable|]. by apply (sys_init _ _ (WLock 0 0 0)).
Qed.

Lemma locked_reachable : sys_reachable CACHELINE_GRANULAR 32 example_locked.
Proof. eapply example_reachable; [by apply (sys_init _ _ (WLock 0 0 0))|done]. Qed.

Lemma freed_reachable : sys_reachable CACHELINE_GRANULAR 32 example_freed.
Proof. eapply example_reachable; [apply locked_reachable|done]. Qed.

Lemma granted_reachable : sys_reachable CACHELINE_GRANULAR 32 example_granted.
Proof. eapply example_reachable; [apply freed_reachable|done]. Qed.

Lemma wport_mutual_exclusion_witness :
  own (status CACHELINE_GRANULAR example_locked) 3 = true /\
  forall j, is_port 32 j -> holding (ws_pc example_locked j) = true -> j = 3.
Proof. apply (wport_mutual_exclusion CACHELINE_GRANULAR 32 3 example_locked); [done|apply locked_reachable|done|by vm_compute]. Defined.

Lemma wport_grant_not_lost_witness :
  is_port 32 5 /\
  (holding (ws_pc example_granted 5) = true \/
   forall choices, length choices = 8%nat ->
     exists k st', (k <= 8)%nat /\ run_port CACHELINE_GRANULAR 32 5 (take k choices) example_granted = Ret st' /\ ws_pc st' 5 = WCritical).
Proof. apply (wport_grant_not_lost CACHELINE_GRANULAR 32 5 example_granted); [done|apply granted_reachable|by vm_compute]. Defined.

Lemma wport_hand_over_witness :
  exists q, is_port 32 q /\ ws_pc example_freed q <> WIdle /\
    forall choices, length choices = 8%nat ->
      exists k st', (k <= 8)%nat /\ run_port CACHELINE_GRANULAR 32 q (take k choices) example_freed = Ret st' /\
        wc_b (status CACHELINE_GRANULAR st') = true.
Proof. apply (wport_hand_over CACHELINE_GRANULAR 32 example_freed); [done|apply freed_reachable|by vm_compute|by vm_compute]. Defined.

Lemma wport_never_stuck_witness :
  exists p' l', wstep CACHELINE_GRANULAR 32 5 true (ws_pc example_granted 5) (ws_lock example_granted) = Ret (p', l').
Proof. apply (wport_never_stuck CACHELINE_GRANULAR 32 5 true example_granted); [done|apply granted_reachable|done]. Defined.

(** ** The calls are runs of the step program *)

Section Calls.
Context (g : granularity) (wsize i : Z).

Fixpoint run_pc (choices : list bool) (p : wpc) (l : wlock) : outcome (wpc * wlock) :=
  match choices with
  | [] => Ret (p, l)
  | choice :: rest => let! r := wstep g wsize i choice p l in let (p', l') := r in run_pc rest p' l'
  end.

(** The port gets from one place to another, with nobody else running. *)
Definition gets (p : wpc) (l : wlock) (p' : wpc) (l' : wlock) : Prop := exists choices, run_pc choices p l = Ret (p', l').

Lemma gets_refl p l : gets p l p l.
Proof using. by exists []. Qed.

Lemma gets_step choice p l p1 l1 p' l' : wstep g wsize i choice p l = Ret (p1, l1) -> gets p1 l1 p' l' -> gets p l p' l'.
Proof using. intros E [cs H]. exists (choice :: cs). cbn [run_pc]. by rewrite E. Qed.

Lemma gets_trans p l p1 l1 p' l' : gets p l p1 l1 -> gets p1 l1 p' l' -> gets p l p' l'.
Proof using.
  intros [cs H]. revert p l H. induction cs as [|c cs IH]; intros p l H G; cbn [run_pc] in H; [by injection H as -> ->|].
  destruct (wstep g wsize i c p l) as [[p2 l2]|] eqn:E; [|done]. cbn [obind] in H. eapply gets_step; [done|]. by apply IH.
Qed.

Lemma gets_set l : gets SetLoad l (PRead InTry) (set_active l (set_bit wsize (wl_active l) i)).
Proof using.
  unfold set_bit. destruct (bit_is_set wsize (wl_active l) i) eqn:E; cbn [negb].
  - eapply (gets_step true); [cbn [wstep]; by rewrite E|]. destruct l. apply gets_refl.
  - eapply (gets_step true); [cbn [wstep]; by rewrite E|]. eapply (gets_step true); [done|]. apply gets_refl.
Qed.

Lemma gets_unset c l : gets (UnsetLoad c) l (unset_done c) (set_active l (unset_bit wsize (wl_active l) i)).
Proof using.
  unfold unset_bit. destruct (bit_is_set wsize (wl_active l) i) eqn:E.
  - eapply (gets_step true); [cbn [wstep]; by rewrite E|]. eapply (gets_step true); [done|]. apply gets_refl.
  - eapply (gets_step true); [cbn [wstep]; by rewrite E|]. destruct l. apply gets_refl.
Qed.

Lemma gets_promote c l l' : jj_wport_promote g wsize l i (flag_of c) = Ret (Some l') -> gets (PRead c) l (promoted c) l'.
Proof using.
  unfold jj_wport_promote. destruct (read_decompose_wport_csst g l) as [st l1] eqn:E. intros H.
  eapply (gets_step true); [cbn [wstep]; by rewrite E|]. destruct (wc_b st); [injection H as <-; apply gets_refl|].
  destruct (negb (wl_active l1 =? 0)) eqn:Ea.
  - destruct (next_bit _ _ _ _) as [peer|] eqn:En; [|done]. destruct (promote_cas g l1 st peer) as [l2|] eqn:Ec; [|done].
    injection H as <-. eapply (gets_step true); [cbn [wstep]; by rewrite Ea, En|].
    eapply (gets_step true); [cbn [wstep]; by rewrite Ec|]. apply gets_refl.
  - eapply (gets_step true); [cbn [wstep]; by rewrite Ea|]. destruct (flag_of c); cbn [negb] in H.
    + destruct (promote_cas g l1 st i) as [l2|] eqn:Ec; [|done]. injection H as <-.
      eapply (gets_step true); [cbn [wstep]; by rewrite Ec|]. apply gets_refl.
    + injection H as <-. apply gets_refl.
Qed.

Lemma gets_abort r l b l' : jj_wport_abort g wsize l i = Ret (Some (b, l')) ->
  gets (UnsetLoad (InAbort r)) l (if r then TryRead else if b then WIdle else WCritical) l'.
Proof using.
  unfold jj_wport_abort. intros H. eapply gets_trans; [apply gets_unset|].
  destruct (jj_wport_promote _ _ _ _ _) as [[l1|]|] eqn:Ep; try done. cbn [obind] in H.
  eapply gets_trans; [by apply (gets_promote (InAbort r))|]. destruct (read_decompose_wport_csst g l1) as [c l2] eqn:E.
  injection H as <- <-. cbn [promoted]. eapply (gets_step true); [cbn [wstep]; by rewrite E|].
  destruct r, (own c i); apply gets_refl.
Qed.

Lemma gets_tryenter l b l' : jj_wport_tryenter g wsize l i = Ret (Some (b, l')) ->
  gets TryRead l (if b then EnterRead else SpinRead) l'.
Proof using.
  unfold jj_wport_tryenter. destruct (read_decompose_wport_csst g l) as [c l1] eqn:E. intros H.
  eapply (gets_step true); [cbn [wstep]; by rewrite E|]. destruct (own c i); [injection H as <- <-; apply gets_refl|].
  eapply gets_trans; [by apply gets_set|]. destruct (jj_wport_promote _ _ _ _ _) as [[l2|]|] eqn:Ep; try done. cbn [obind] in H.
  eapply gets_trans; [by apply (gets_promote InTry)|]. destruct (read_decompose_wport_csst g l2) as [c2 l3] eqn:E2.
  injection H as <- <-. cbn [promoted]. eapply (gets_step true); [cbn [wstep]; by rewrite E2|]. apply gets_refl.
Qed.

Lemma gets_wait fuel l counter abort_signal l' : wait_loop g fuel l i counter abort_signal = Some l' -> gets SpinRead l EnterRead l'.
Proof using.
  revert l counter. induction fuel as [|fuel IH]; intros l counter; cbn [wait_loop]; [done|].
  destruct (read_decompose_wport_csst g l) as [c l1] eqn:E. intros H.
  eapply (gets_step (abort_signal counter)); [cbn [wstep]; by rewrite E|].
  destruct (own c i || abort_signal counter); [injection H as <-; apply gets_refl|by eapply IH].
Qed.

Lemma gets_enter fuel l abort_signal b l' : jj_wport_enter g wsize fuel l i abort_signal = Ret (Some (b, l')) ->
  gets TryRead l (if b then WCritical else WIdle) l'.
Proof using.
  unfold jj_wport_enter. destruct (jj_wport_tryenter g wsize l i) as [[[got l1]|]|] eqn:Et; try done. cbn [obind]. intros H.
  eapply gets_trans; [by apply gets_tryenter|].
  assert (exists l2, (if got then Some l1 else wait_loop g fuel l1 i 0 abort_signal) = Some l2) as [l2 E2]
    by (destruct (if got then _ else _); [eauto|done]).
  rewrite E2 in H. eapply (gets_trans _ _ EnterRead l2).
  { destruct got; [injection E2 as ->; apply gets_refl|by eapply gets_wait]. }
  destruct (read_decompose_wport_csst g l2) as [c l3] eqn:E. eapply (gets_step true); [cbn [wstep]; by rewrite E|].
  destruct (own c i); [injection H as <- <-; apply gets_refl|].
  destruct (jj_wport_abort g wsize l3 i) as [[[a l4]|]|] eqn:Ea; try done. injection H as <- <-.
  apply (gets_abort false) in Ea. by destruct a.
Qed.

Lemma gets_exit l l' : jj_wport_exit g wsize l i = Ret (Some l') -> gets ExitRead l WIdle l'.
Proof using.
  unfold jj_wport_exit. destruct (read_decompose_wport_csst g l) as [c l1] eqn:E.
  set (l2 := set_active l1 (unset_bit wsize (wl_active l1) i)). destruct (pcas_read_uint64 g (wl_seq l2)) as [s w] eqn:Es.
  destruct (compose_wport_csst false (u64 (s + 1)) (wc_owner c)) as [v|] eqn:Ec; [|done]. cbn [obind]. intros H.
  eapply (gets_step true); [cbn [wstep]; by rewrite E|]. eapply gets_trans; [apply gets_unset|]. fold l2. cbn [unset_done].
  eapply (gets_step true); [cbn [wstep]; by rewrite Es|]. eapply (gets_step true); [done|].
  eapply (gets_step true); [cbn [wstep]; by rewrite Ec|]. by apply (gets_promote (InExit (wc_owner c))).
Qed.

Lemma gets_recover l l' : jj_wport_recover g wsize l i = Ret (Some l') -> gets RecRead l TryRead l'.
Proof using.
  unfold jj_wport_recover. destruct (read_decompose_wport_csst g l) as [c l1] eqn:E. intros H.
  eapply (gets_step true); [cbn [wstep]; by rewrite E|]. destruct (own c i); [|injection H as <-; apply gets_refl].
  destruct (jj_wport_abort g wsize l1 i) as [[[a l2]|]|] eqn:Ea; try done. injection H as <-. by apply (gets_abort true) in Ea.
Qed.
End Calls.

(** The calls of the abortable lock are runs of its step program: a [lock] that
    returns takes the port, through the steps of the program, from the start of
    recovery to the critical section, an [enter] takes it there or, when it reports
    an abort, back to idle, and an [unlock] takes it from the critical section to
    idle, each with the same effect on the lock. *)
Theorem wport_calls_are_runs (g : granularity) (wsize i : Z) (fuel : nat) (abort_signal : Z -> bool) (l l' : wlock) (b : bool) :
  0 <= i < wsize -> wsize <= 64 ->
  (jj_wport_lock g wsize fuel l i = Ret (Some l') -> exists choices, run_pc g wsize i choices RecRead l = Ret (WCritical, l')) /\
  (jj_wport_enter g wsize fuel l i abort_signal = Ret (Some (b, l')) ->
     exists choices, run_pc g wsize i choices TryRead l = Ret (if b then WCritical else WIdle, l')) /\
  (jj_wport_unlock g wsize l i = Ret (Some l') -> exists choices, run_pc g wsize i choices WCritical l = Ret (WIdle, l')).
Proof.
  intros Hi Hw. split; [|split; [apply gets_enter|]].
  - unfold jj_wport_lock. rewrite u8_small by lia. destruct (jj_wport_recover g wsize l i) as [[l1|]|] eqn:Er; try done. cbn [obind].
    destruct (jj_wport_enter g wsize fuel l1 i spin_no_abort) as [[[ret l2]|]|] eqn:Ee; try done. cbn [obind bug_on]. destruct ret; [|done].
    intros [= <-]. eapply gets_trans; [by apply gets_recover|]. apply gets_enter in Ee. done.
  - unfold jj_wport_unlock. rewrite u8_small by lia. intros H. eapply (gets_step _ _ _ true); [done|]. by apply gets_exit.
Qed.

Lemma wport_calls_are_runs_witness :
  let l := ws_lock example_freed in
  (jj_wport_lock CACHELINE_GRANULAR 32 4 l 5 = Ret (Some l) ->
     exists choices, run_pc CACHELINE_GRANULAR 32 5 choices RecRead l = Ret (WCritical, l)) /\
  (jj_wport_enter CACHELINE_GRANULAR 32 4 l 5 (fun n => 2 <? n) = Ret (Some (true, l)) ->
     exists choices, run_pc CACHELINE_GRANULAR 32 5 choices TryRead l = Ret (WCritical, l)) /\
  (jj_wport_unlock CACHELINE_GRANULAR 32 l 5 = Ret (Some l) ->
     exists choices, run_pc CACHELINE_GRANULAR 32 5 choices WCritical l = Ret (WIdle, l)).
Proof. intros l. apply (wport_calls_are_runs CACHELINE_GRANULAR 32 5 4 (fun n => 2 <? n) l l true); lia. Defined.

(** ** The calls without interference *)

Section Sequential.
Context (g : granularity) (wsize : Z) (Hw : 0 < wsize <= 64).

(** The successor that [promote] chooses among the registered ports. *)
Definition chosen (a k peer : Z) : Prop :=
  exists d, 1 <= d <= wsize /\ peer = (k + d) mod wsize /\ Z.testbit a peer = true /\
    forall e, 1 <= e < d -> Z.testbit a ((k + e) mod wsize) = false.

(** A free lock stays free when nobody is registered, and is given to the next registered port otherwise. *)
Lemma promote_free i l :
  is_port wsize i -> lock_ok g wsize l -> exp_ok wsize (v_c (view_of g l)) ->
  exists l', jj_wport_promote g wsize l i false = Ret (Some l') /\ lock_ok g wsize l' /\
    v_seq (view_of g l') = v_seq (view_of g l) /\ wl_active l' = wl_active l /\
    (wl_active l = 0 -> v_c (view_of g l') = v_c (view_of g l)) /\
    (wl_active l <> 0 -> exists peer, chosen (wl_active l) (wc_owner (v_c (view_of g l))) peer /\
       v_c (view_of g l') = WportCsst true peer peer).
Proof using Hw.
  intros Hi Hl He. destruct (read_view g wsize l Hl) as (l1 & E1 & E2 & H1). unfold jj_wport_promote. rewrite E1.
  assert (Ea : wl_active l1 = wl_active l) by exact (f_equal v_active E2). pose proof He as (B & Ho & _). rewrite B, Ea.
  destruct (Z.eqb_spec (wl_active l) 0) as [Z0|Z0]; cbn [negb].
  { exists l1. rewrite E2. split_and!; done. }
  destruct (next_bit_first wsize (wl_active l) (wc_owner (v_c (view_of g l))) Hw Ho ltac:(apply Hl) Z0) as (d & Hd & -> & Ht & Hf).
  set (peer := (wc_owner (v_c (view_of g l)) + d) mod wsize) in *.
  destruct (cas_view g wsize Hw l1 (v_c (view_of g l)) peer H1 He) as (l2 & -> & H2 & E3); [apply Z.mod_pos_bound; lia|].
  rewrite E2, decide_True in E3 by done. exists l2. pose proof (f_equal v_active E3) as Ea2. cbn [v_active view_of] in Ea2.
  rewrite E3. split_and!; try done. intros _. exists peer. split; [|done]. exists d. done.
Qed.

Lemma unset_view i l : is_port wsize i -> lock_ok g wsize l ->
  let l' := set_active l (unset_bit wsize (wl_active l) i) in
  lock_ok g wsize l' /\ view_of g l' = View (v_c (view_of g l)) (v_seq (view_of g l)) (unset_bit wsize (wl_active l) i).
Proof using Hw.
  intros Hi Hl l'. apply set_view; [done|]. by apply (unset_bit_spec wsize Hw (wl_active l) i 0); [apply Hl|done|].
Qed.

Lemma exit_view i l :
  is_port wsize i -> lock_ok g wsize l -> v_c (view_of g l) = WportCsst true i i -> v_seq (view_of g l) < WPORT_CSST_S_MAX ->
  exists l1, lock_ok g wsize l1 /\
    view_of g l1 = View (WportCsst false i (v_seq (view_of g l) + 1)) (v_seq (view_of g l) + 1) (unset_bit wsize (wl_active l) i) /\
    jj_wport_exit g wsize l i = jj_wport_promote g wsize l1 i false.
Proof using Hw.
  intros Hi Hl Hc Hq. destruct (read_view g wsize l Hl) as (l1 & E1 & E2 & H1). unfold jj_wport_exit. rewrite E1, Hc. cbn [wc_owner].
  destruct (unset_view i l1 Hi H1) as [H2 E3]. set (l2 := set_active l1 _) in *. rewrite E2 in E3.
  assert (Ea : wl_active l1 = wl_active l) by exact (f_equal v_active E2). rewrite Ea in E3.
  pose proof H2 as (_ & R2 & A2). destruct (reg_read g _ R2) as (w & -> & _ & _).
  assert (Es : value g (wl_seq l2) = v_seq (view_of g l)) by exact (f_equal v_seq E3). rewrite Es.
  assert (Hp : 0 <= v_seq (view_of g l)) by (destruct Hl as (_ & [_ [? _]] & _); done). pose proof Hq as Hq'. rewrite s_max in Hq'.
  set (s := v_seq (view_of g l)) in *. rewrite u64_small by lia.
  assert (Hv : valid_csst (WportCsst false i (s + 1))) by (unfold is_port in Hi; split; cbn [wc_owner wc_s]; lia).
  rewrite (compose_enc _ _ _ Hv). cbn [obind].
  destruct (reg_write g w (s + 1)) as [W1 O1]; [unfold value_ok; lia|].
  destruct (reg_write g (wl_csst (set_seq l2 (persist_atomic_write_uint64 g w (s + 1)))) _ (enc_ok _ Hv)) as [W2 O2].
  eexists. split; [|split; [|done]].
  - by split.
  - unfold view_of at 1. cbn [set_csst set_seq wl_csst wl_seq wl_active] in *. rewrite W1, W2, decompose_enc by done.
    f_equal. exact (f_equal v_active E3).
Qed.

(** A read that does not change what the lock says. *)
Lemma read_step l : lock_ok g wsize l ->
  exists l1, read_decompose_wport_csst g l = (v_c (view_of g l), l1) /\ view_of g l1 = view_of g l /\ lock_ok g wsize l1 /\ wl_active l1 = wl_active l.
Proof using Hw.
  intros Hl. destruct (read_view g wsize l Hl) as (l1 & E1 & E2 & H1). exists l1. split_and!; try done. exact (f_equal v_active E2).
Qed.

Lemma tryenter_free i l :
  is_port wsize i -> lock_ok g wsize l -> exp_ok wsize (v_c (view_of g l)) -> wl_active l = 0 ->
  exists l', jj_wport_tryenter g wsize l i = Ret (Some (true, l')) /\ lock_ok g wsize l' /\
    view_of g l' = View (WportCsst true i i) (v_seq (view_of g l)) (set_bit wsize 0 i).
Proof using Hw.
  intros Hi Hl He Ha. destruct (read_step l Hl) as (l1 & E1 & E2 & H1 & A1). unfold jj_wport_tryenter. rewrite E1.
  assert (own (v_c (view_of g l)) i = false) as -> by (unfold own; by rewrite (proj1 He)). rewrite A1, Ha.
  pose proof (set_bit_spec wsize Hw 0 i) as Sb. assert (P0 : 0 <= 0 < 2 ^ wsize) by (split; [lia|apply Z.pow_pos_nonneg; lia]).
  destruct (set_view g wsize l1 (set_bit wsize 0 i) H1) as [H2 E3]; [by apply (Sb 0)|]. rewrite E2 in E3.
  destruct (promote_free i (set_active l1 (set_bit wsize 0 i)) Hi H2) as (l2 & -> & H3 & F1 & F2 & _ & F4); [by rewrite E3|]. cbn [obind].
  destruct (read_step l2 H3) as (l3 & -> & E5 & H4 & A3). rewrite E3 in F1, F4. cbn [v_c v_seq] in F1, F4.
  destruct F4 as (peer & (d & Hd & Ep & Ht & _) & Ec).
  { intros Z0. destruct (Sb i P0 Hi) as [_ T]; [apply Hi|]. cbn [set_active wl_active] in Z0. rewrite Z0, Z.bits_0, Z.eqb_refl in T. done. }
  assert (Hpp : 0 <= peer < wsize) by (subst peer; apply Z.mod_pos_bound; lia).
  assert (peer = i) as ->.
  { destruct (Sb peer P0 Hi) as [_ T]; [lia|]. cbn [set_active wl_active] in Ht. rewrite T, Z.bits_0, orb_false_r in Ht. by apply Z.eqb_eq. }
  exists l3. unfold own. rewrite Ec. cbn [wc_b wc_s andb]. rewrite Z.eqb_refl. split; [done|]. split; [done|]. rewrite E5.
  unfold view_of in *. cbn [v_c v_seq] in *. by rewrite Ec, F1, F2.
Qed.

Lemma enter_got fuel i l l1 abort_signal :
  jj_wport_tryenter g wsize l i = Ret (Some (true, l1)) -> lock_ok g wsize l1 -> own (v_c (view_of g l1)) i = true ->
  exists l', jj_wport_enter g wsize fuel l i abort_signal = Ret (Some (true, l')) /\ lock_ok g wsize l' /\ view_of g l' = view_of g l1.
Proof using Hw.
  intros E H1 Ho. unfold jj_wport_enter. rewrite E. cbn [obind]. destruct (read_step l1 H1) as (l2 & -> & E2 & H2 & _). rewrite Ho. by exists l2.
Qed.

Lemma recover_free i l :
  lock_ok g wsize l -> own (v_c (view_of g l)) i = false ->
  exists l', jj_wport_recover g wsize l i = Ret (Some l') /\ lock_ok g wsize l' /\ view_of g l' = view_of g l.
Proof using Hw.
  intros Hl Ho. unfold jj_wport_recover. destruct (read_step l Hl) as (l1 & -> & E2 & H2 & _). rewrite Ho. by exists l1.
Qed.

Lemma recover_own i l :
  is_port wsize i -> lock_ok g wsize l -> own (v_c (view_of g l)) i = true ->
  exists l', jj_wport_recover g wsize l i = Ret (Some l') /\ lock_ok g wsize l' /\
    view_of g l' = View (v_c (view_of g l)) (v_seq (view_of g l)) (unset_bit wsize (wl_active l) i).
Proof using Hw.
  intros Hi Hl Ho. unfold jj_wport_recover. destruct (read_step l Hl) as (l1 & -> & E1 & H1 & A1). rewrite Ho.
  unfold jj_wport_abort. destruct (unset_view i l1 Hi H1) as [H2 E2]. set (l2 := set_active l1 _) in *. rewrite E1, A1 in E2.
  destruct (read_step l2 H2) as (l3 & E3 & E4 & H3 & A3). unfold jj_wport_promote. rewrite E3, E2. cbn [v_c].
  rewrite (proj1 (own_b _ _ Ho)). cbn [obind]. destruct (read_step l3 H3) as (l4 & -> & E5 & H4 & _). exists l4. split; [done|]. split; [done|]. congruence.
Qed.
End Sequential.

(** Unlocking is a round-robin hand-over: [unlock] by the holder always returns; it
    deregisters the caller, advances the sequence number, and leaves the lock free
    when no other port is registered; otherwise the lock is taken by the first
    registered port after the caller, counting around the ports. *)
Theorem wport_unlock_hands_over (g : granularity) (wsize i : Z) (l : wlock) :
  0 < wsize <= 64 -> is_port wsize i -> lock_ok g wsize l ->
  v_c (view_of g l) = WportCsst true i i -> v_seq (view_of g l) < WPORT_CSST_S_MAX ->
  let rest := unset_bit wsize (wl_active l) i in
  exists l', jj_wport_unlock g wsize l i = Ret (Some l') /\ lock_ok g wsize l' /\
    v_seq (view_of g l') = v_seq (view_of g l) + 1 /\ wl_active l' = rest /\
    (rest = 0 -> v_c (view_of g l') = WportCsst false i (v_seq (view_of g l) + 1)) /\
    (rest <> 0 -> exists peer, chosen wsize rest i peer /\ v_c (view_of g l') = WportCsst true peer peer).
Proof.
  intros Hw Hi Hl Hc Hq rest. unfold jj_wport_unlock. pose proof Hi as Hi'. unfold is_port in Hi'. rewrite u8_small by lia.
  destruct (exit_view g wsize Hw i l Hi Hl Hc Hq) as (l1 & H1 & E1 & ->).
  assert (0 <= v_seq (view_of g l)) by (destruct Hl as (_ & [_ [? _]] & _); done).
  destruct (promote_free g wsize Hw i l1 Hi H1) as (l2 & -> & H2 & F1 & F2 & F3 & F4).
  { rewrite E1. cbn [v_c]. split; [done|]. split; [done|]. cbn [wc_s]. lia. }
  assert (A1 : wl_active l1 = rest) by exact (f_equal v_active E1). rewrite E1, A1 in *. by exists l2.
Qed.

(** Locking without competition: on a free lock where nobody is registered, [lock]
    returns with the caller registered and named in the lock word; on a lock that the
    caller held when it crashed, [lock] returns with the caller still its holder, no
    longer registered, and nothing else changed. *)
Theorem wport_lock_uncontended (g : granularity) (wsize i : Z) (fuel : nat) (l : wlock) :
  0 < wsize <= 64 -> is_port wsize i -> lock_ok g wsize l ->
  (exp_ok wsize (v_c (view_of g l)) -> wl_active l = 0 ->
     exists l', jj_wport_lock g wsize fuel l i = Ret (Some l') /\
       view_of g l' = View (WportCsst true i i) (v_seq (view_of g l)) (set_bit wsize 0 i)) /\
  (own (v_c (view_of g l)) i = true ->
     exists l', jj_wport_lock g wsize fuel l i = Ret (Some l') /\
       view_of g l' = View (v_c (view_of g l)) (v_seq (view_of g l)) (unset_bit wsize (wl_active l) i)).
Proof.
  intros Hw Hi Hl. pose proof Hi as Hi'. unfold is_port in Hi'. unfold jj_wport_lock. rewrite u8_small by lia. split.
  - intros He Ha. destruct (recover_free g wsize Hw i l Hl) as (l1 & -> & H1 & E1); [unfold own; by rewrite (proj1 He)|]. cbn [obind].
    destruct (tryenter_free g wsize Hw i l1 Hi H1) as (l2 & T & H2 & E2); [by rewrite E1|exact (eq_trans (f_equal v_active E1) Ha)|].
    destruct (enter_got g wsize Hw fuel i l1 l2 spin_no_abort T H2) as (l3 & -> & H3 & E3);
      [rewrite E2; unfold own; cbn [v_c wc_b wc_s andb]; apply Z.eqb_refl|]. exists l3. split; [done|]. congruence.
  - intros Ho. destruct (recover_own g wsize Hw i l Hi Hl Ho) as (l1 & -> & H1 & E1). cbn [obind].
    destruct (read_step g wsize Hw l1 H1) as (l2 & E2 & E3 & H2 & _).
    destruct (enter_got g wsize Hw fuel i l1 l2 spin_no_abort) as (l3 & -> & H3 & E4); [|done|by rewrite E3, E1|exists l3; split; [done|congruence]].
    unfold jj_wport_tryenter. rewrite E2, E1. cbn [v_c]. by rewrite Ho.
Qed.

Lemma wport_unlock_hands_over_witness :
  let l := ws_lock example_locked in let rest := unset_bit 32 (wl_active l) 3 in
  exists l', jj_wport_unlock CACHELINE_GRANULAR 32 l 3 = Ret (Some l') /\ lock_ok CACHELINE_GRANULAR 32 l' /\
    v_seq (view_of CACHELINE_GRANULAR l') = v_seq (view_of CACHELINE_GRANULAR l) + 1 /\ wl_active l' = rest /\
    (rest = 0 -> v_c (view_of CACHELINE_GRANULAR l') = WportCsst false 3 (v_seq (view_of CACHELINE_GRANULAR l) + 1)) /\
    (rest <> 0 -> exists peer, chosen 32 rest 3 peer /\ v_c (view_of CACHELINE_GRANULAR l') = WportCsst true peer peer).
Proof.
  apply (wport_unlock_hands_over CACHELINE_GRANULAR 32 3 (ws_lock example_locked)); [done|done| |by vm_compute|by vm_compute].
  by vm_compute.
Defined.

Lemma wport_lock_uncontended_witness :
  (exp_ok 32 (v_c (view_of CACHELINE_GRANULAR (ws_lock example_start))) -> wl_active (ws_lock example_start) = 0 ->
     exists l', jj_wport_lock CACHELINE_GRANULAR 32 1 (ws_lock example_start) 3 = Ret (Some l') /\
       view_of CACHELINE_GRANULAR l' = View (WportCsst true 3 3) (v_seq (view_of CACHELINE_GRANULAR (ws_lock example_start))) (set_bit 32 0 3)) /\
  (own (v_c (view_of CACHELINE_GRANULAR (ws_lock example_start))) 3 = true ->
     exists l', jj_wport_lock CACHELINE_GRANULAR 32 1 (ws_lock example_start) 3 = Ret (Some l') /\
       view_of CACHELINE_GRANULAR l' = View (v_c (view_of CACHELINE_GRANULAR (ws_lock example_start)))
         (v_seq (view_of CACHELINE_GRANULAR (ws_lock example_start))) (unset_bit 32 (wl_active (ws_lock example_start)) 3)).
Proof. apply (wport_lock_uncontended CACHELINE_GRANULAR 32 3 1 (ws_lock example_start)); [done|done|by vm_compute]. Defined.
