(* ===== verification/MinArray.v ===== *)
(** The minimum array of the abortable lock: src/src/common/min_array
    (binary_tree_array.h, min_array.h, process_state.h).

    A perfect binary tree in an array, with the state of a process in each leaf;
    every inner node is to hold the smaller of its two children, so that the root
    is the process with the smallest token. *)
From Stdlib Require Import ZArith Lia Bool.
From stdpp Require Import base list numbers.
From S2P Require Import Prelude PersistCas TatasLock.
Local Open Scope Z_scope.

(** ** Process states *)

Definition COUNTER_MASK : Z := Z.shiftl (Z.shiftl 1 47 - 1) 16.
Definition COUNTER_INF : Z := Z.shiftl 1 47 - 1.
Definition PROCESS_ID_MASK : Z := 0xffff.

Definition default_process_state (process_id : Z) : Z := Z.lor COUNTER_MASK process_id.
Definition compose_process_state (token process_id : Z) : Z := Z.lor (u64 (Z.shiftl token 16)) (u16 process_id).
Definition get_counter (state : Z) : Z := Z.shiftr (Z.land state COUNTER_MASK) 16.
Definition get_process_id (state : Z) : Z := u16 (Z.land state PROCESS_ID_MASK).

(** ** Positions *)

Record tree_pos := TreePos { tp_index : Z; tp_depth : Z }.

Definition INVALID_TREE_POS : tree_pos := TreePos 0 0.
Definition binary_tree_root : tree_pos := TreePos 1 1.
Definition tree_pos_is_root (pos : tree_pos) : bool := (tp_depth pos =? 1) && (tp_index pos =? 1).
Definition tree_left_child (pos : tree_pos) : tree_pos := TreePos (u64 (tp_index pos * 2)) (u64 (tp_depth pos + 1)).
Definition get_tree_left_child (pos : tree_pos) : tree_pos := TreePos (u64 (tp_index pos * 2)) (u64 (tp_depth pos + 1)).
Definition tree_right_child (pos : tree_pos) : tree_pos := TreePos (u64 (u64 (tp_index pos * 2) + 1)) (u64 (tp_depth pos + 1)).
Definition get_tree_right_child (pos : tree_pos) : tree_pos := TreePos (u64 (u64 (tp_index pos * 2) + 1)) (u64 (tp_depth pos + 1)).
Definition tree_sibling (pos : tree_pos) : tree_pos := TreePos (Z.lxor (tp_index pos) 1) (tp_depth pos).
Definition tree_parent (pos : tree_pos) : tree_pos := TreePos (tp_index pos / 2) (u64 (tp_depth pos - 1)).
Definition update_tree_parent (pos : tree_pos) : tree_pos := TreePos (tp_index pos / 2) (u64 (tp_depth pos - 1)).
Definition tree_right_adjacent (pos : tree_pos) : tree_pos :=
  if Z.lxor (u64 (tp_index pos + 1)) (tp_index pos) >? tp_index pos then INVALID_TREE_POS
  else TreePos (u64 (tp_index pos + 1)) (tp_depth pos).

(** ** The array *)

(** The words from the first node on; the nodes of the tree are the first [NUM_ARR_NODES]. *)
Definition nodes := Z -> Z.

Section MinArray.
Context (g : granularity) (MAX_PROCESS_SHIFT : Z).

Definition MAX_NUM_PROCESSES : Z := Z.shiftl 1 MAX_PROCESS_SHIFT.
Definition NUM_ARR_NODES : Z := Z.shiftl 1 (MAX_PROCESS_SHIFT + 1) - 1.

(** The root, with its dirty bit. *)
Definition find_min (t : nodes) : Z := t 0.

Definition leaf_index (process_id : Z) : Z := NUM_ARR_NODES - MAX_NUM_PROCESSES + process_id.
Definition set_leaf (t : nodes) (process_id set_to : Z) : nodes := upd t (leaf_index process_id) set_to.
Definition get_leaf_tree_pos (process_id : Z) : tree_pos :=
  TreePos (process_id + NUM_ARR_NODES - MAX_NUM_PROCESSES + 1) (MAX_PROCESS_SHIFT + 1).

Definition get_process_state (t : nodes) (i : Z) : Z * nodes :=
  let (v, w) := pcas_read_uint64 g (t i) in (v, upd t i w).
Definition atomic_cmpxchg_process_state (t : nodes) (i expect set_to : Z) : nodes :=
  let '(_, w, _) := persist_cas_uint64 g (t i) expect set_to in upd t i w.

Definition refresh (t : nodes) (pos : tree_pos) : nodes :=
  let left_child_pos := get_tree_left_child pos in
  let right_child_pos := get_tree_right_child pos in
  let (cur_val, t) := get_process_state t (tp_index pos - 1) in
  let (left_child_val, t) := get_process_state t (tp_index left_child_pos - 1) in
  let (right_child_val, t) := get_process_state t (tp_index right_child_pos - 1) in
  let min_val := if left_child_val <? right_child_val then left_child_val else right_child_val in
  atomic_cmpxchg_process_state t (tp_index pos - 1) cur_val min_val.

(** [while (!tree_pos_is_root(&pos))]: [None] after [fuel] rounds. *)
Fixpoint update_loop (fuel : nat) (t : nodes) (pos : tree_pos) : option nodes :=
  if tree_pos_is_root pos then Some t
  else
    match fuel with
    | O => None
    | S fuel =>
        let pos := update_tree_parent pos in
        update_loop fuel (refresh (refresh t pos) pos) pos
    end.

Definition min_arr_update (fuel : nat) (t : nodes) (process_id state : Z) : option nodes :=
  update_loop fuel (set_leaf t process_id state) (get_leaf_tree_pos process_id).

(** [i] runs from [i] while it is below [(uint16_t)MAX_NUM_PROCESSES], for [n] rounds. *)
Fixpoint init_from (n : nat) (fuel : nat) (t : nodes) (i : Z) : option nodes :=
  match n with
  | O => Some t
  | S n =>
      match min_arr_update fuel t i (default_process_state i) with
      | None => None
      | Some t => init_from n fuel t (u16 (i + 1))
      end
  end.

Definition init_min_array (fuel : nat) (t : nodes) : option nodes := init_from (Z.to_nat (u16 MAX_NUM_PROCESSES)) fuel t 0.
End MinArray.

(** ** Process states as numbers *)

Definition is_token (t : Z) : Prop := 0 <= t <= COUNTER_INF.

Lemma counter_inf : COUNTER_INF = 2 ^ 47 - 1.
Proof. reflexivity. Qed.

Lemma process_state_sum t p : is_token t -> is_proc p -> compose_process_state t p = t * 2 ^ 16 + p.
Proof.
  unfold is_token, is_proc. rewrite counter_inf. intros Ht Hp. unfold compose_process_state.
  rewrite u16_small, u64_small by (rewrite ?Z.shiftl_mul_pow2 by lia; lia). rewrite lor_shiftl_add by lia. lia.
Qed.

Lemma default_is_inf p : is_proc p -> default_process_state p = compose_process_state COUNTER_INF p.
Proof.
  unfold is_proc. intros Hp. unfold compose_process_state, default_process_state. rewrite u16_small by lia. reflexivity.
Qed.

Lemma state_parts t p : is_token t -> is_proc p ->
  get_counter (compose_process_state t p) = t /\ get_process_id (compose_process_state t p) = p.
Proof.
  intros Ht Hp. rewrite process_state_sum by done. unfold is_token, is_proc in *. rewrite counter_inf in Ht.
  unfold get_counter, get_process_id, COUNTER_MASK, PROCESS_ID_MASK.
  change (Z.shiftl 1 47 - 1) with (Z.ones 47). change 0xffff with (Z.ones 16). split.
  - rewrite Z.shiftr_land, Z.shiftr_shiftl_l, Z.shiftl_0_r, Z.land_ones, Z.shiftr_div_pow2 by lia.
    assert ((t * 2 ^ 16 + p) / 2 ^ 16 = t) as -> by (symmetry; apply (Z.div_unique _ _ _ p); lia). apply Z.mod_small. lia.
  - rewrite Z.land_ones by lia. rewrite Z.add_comm, Z.mod_add, Z.mod_small by lia. apply u16_small. lia.
Qed.

Lemma state_ok t p : is_token t -> is_proc p -> value_ok 64 (compose_process_state t p).
Proof. intros Ht Hp. rewrite process_state_sum by done. unfold is_token, is_proc, value_ok in *. rewrite counter_inf in Ht. lia. Qed.

(** ** The tree *)

Section Tree.
Context (g : granularity) (k : Z) (Hk : 0 <= k <= 15).

(** The value of the node with the index [p], counted from 1. *)
Definition node (t : nodes) (p : Z) : Z := value g (t (p - 1)).
Definition words_ok (t : nodes) : Prop := forall i, 0 <= i < NUM_ARR_NODES k -> reg_ok g (t i).
Definition min_of_children (t : nodes) (p : Z) : Prop := node t p = Z.min (node t (2 * p)) (node t (2 * p + 1)).

Lemma num_processes : MAX_NUM_PROCESSES k = 2 ^ k.
Proof using Hk. unfold MAX_NUM_PROCESSES. apply Z.shiftl_1_l. Qed.

Lemma num_nodes : NUM_ARR_NODES k = 2 * 2 ^ k - 1.
Proof using Hk. unfold NUM_ARR_NODES. rewrite Z.shiftl_1_l, Z.pow_add_r by lia. lia. Qed.

Lemma pow_bound : 1 <= 2 ^ k <= 2 ^ 15.
Proof using Hk. split; [change 1 with (2 ^ 0)|]; apply Z.pow_le_mono_r; lia. Qed.

Lemma get_state_spec t i : words_ok t -> 0 <= i < NUM_ARR_NODES k ->
  exists t', get_process_state g t i = (value g (t i), t') /\ words_ok t' /\ forall j, value g (t' j) = value g (t j).
Proof using.
  intros Ht Hi. destruct (reg_read g _ (Ht i Hi)) as (w & E1 & E2 & E3). unfold get_process_state. rewrite E1. eexists. split; [done|].
  split; intros j; [intros Hj|]; unfold upd; destruct (Z.eqb_spec j i) as [->|]; auto.
Qed.

Lemma cas_state_spec t i e v : words_ok t -> 0 <= i < NUM_ARR_NODES k -> value_ok 64 e -> value_ok 64 v ->
  let t' := atomic_cmpxchg_process_state g t i e v in
  words_ok t' /\ (forall j, j <> i -> t' j = t j) /\ value g (t' i) = if value g (t i) =? e then v else value g (t i).
Proof using.
  intros Ht Hi He Hv. destruct (reg_cas g _ e v (Ht i Hi) He Hv) as (b & w & e' & E1 & E2 & E3).
  unfold atomic_cmpxchg_process_state. rewrite E1. split_and!.
  - intros j Hj. unfold upd. destruct (Z.eqb_spec j i) as [->|]; auto.
  - intros j Hj. by apply upd_other.
  - by rewrite upd_same.
Qed.

Lemma refresh_spec t p d : words_ok t -> 1 <= p < 2 ^ k ->
  let t' := refresh g t (TreePos p d) in
  words_ok t' /\ min_of_children t' p /\ forall q, q <> p -> node t' q = node t q.
Proof using Hk.
  intros Ht Hp. pose proof pow_bound. pose proof num_nodes as Hn. unfold refresh, get_tree_left_child, get_tree_right_child. cbn [tp_index].
  rewrite (u64_small (p * 2)), (u64_small (p * 2 + 1)) by lia.
  destruct (get_state_spec t (p - 1) Ht) as (t1 & -> & H1 & V1); [lia|].
  destruct (get_state_spec t1 (p * 2 - 1) H1) as (t2 & -> & H2 & V2); [lia|].
  destruct (get_state_spec t2 (p * 2 + 1 - 1) H2) as (t3 & -> & H3 & V3); [lia|].
  set (l := value g (t1 (p * 2 - 1))). set (r := value g (t2 (p * 2 + 1 - 1))).
  assert (Em : (if l <? r then l else r) = Z.min l r) by (destruct (Z.ltb_spec l r); lia). rewrite Em.
  assert (Hm : value_ok 64 (Z.min l r)).
  { destruct (Z.min_spec l r) as [[_ ->]|[_ ->]]; [apply (H1 (p * 2 - 1))|apply (H2 (p * 2 + 1 - 1))]; lia. }
  destruct (cas_state_spec t3 (p - 1) (value g (t (p - 1))) (Z.min l r) H3) as (H4 & V4 & V5); [lia|apply Ht; lia|done|].
  rewrite V3, V2, V1, Z.eqb_refl in V5. split; [done|].
  assert (V : forall q, q <> p -> node (atomic_cmpxchg_process_state g t3 (p - 1) (value g (t (p - 1))) (Z.min l r)) q = node t q).
  { intros q Hq. unfold node. rewrite V4 by lia. by rewrite V3, V2, V1. }
  split; [|done]. unfold min_of_children. rewrite (V (2 * p)), (V (2 * p + 1)) by lia. unfold node. rewrite V5. unfold l, r. rewrite V2, !V1.
  f_equal; f_equal; f_equal; lia.
Qed.

(** [q] is a proper ancestor of [p]. *)
Definition ancestor (q p : Z) : Prop := exists j, 1 <= j /\ q = p / 2 ^ j.

Lemma ancestor_parent q p : 0 <= p -> ancestor q p <-> q = p / 2 \/ ancestor q (p / 2).
Proof using.
  intros Hp. split.
  - intros (j & Hj & ->). destruct (Z.eq_dec j 1) as [->|Hne]; [by left|right]. exists (j - 1). split; [lia|].
    rewrite Z.div_div by (try apply Z.pow_pos_nonneg; lia). f_equal. rewrite <-Z.pow_succ_r by lia. f_equal. lia.
  - intros [->|(j & Hj & ->)]; [by exists 1|]. exists (j + 1). split; [lia|].
    rewrite Z.div_div by (try apply Z.pow_pos_nonneg; lia). f_equal. rewrite Z.pow_add_r by lia. lia.
Qed.

Lemma update_loop_spec fuel t p d :
  words_ok t -> 1 <= d <= k + 1 -> 2 ^ (d - 1) <= p < 2 ^ d -> d - 1 <= Z.of_nat fuel ->
  exists t', update_loop g fuel t (TreePos p d) = Some t' /\ words_ok t' /\
    (forall q, 1 <= q -> ~ ancestor q p -> node t' q = node t q) /\
    (forall q, 1 <= q < 2 ^ k -> min_of_children t q \/ ancestor q p -> min_of_children t' q).
Proof using Hk.
  revert t p d. induction fuel as [|fuel IH]; intros t p d Ht Hd Hp Hf.
  all: destruct (Z.eq_dec d 1) as [->|Hne].
  1,3: cbn in Hp; assert (p = 1) as -> by lia; exists t; split_and!; try done; intros q Hq [?|(j & Hj & ->)]; [done|];
    exfalso; rewrite Z.div_small in Hq; [lia|]; split; [lia|]; apply Z.pow_gt_1; lia.
  - lia.
  - cbn [update_loop]. unfold tree_pos_is_root. cbn [tp_depth tp_index]. destruct (Z.eqb_spec d 1); [lia|]. cbn [andb].
    unfold update_tree_parent. cbn [tp_index tp_depth]. rewrite (u64_small (d - 1)) by lia.
    assert (Hp2 : 2 ^ (d - 1 - 1) <= p / 2 < 2 ^ (d - 1)).
    { replace d with (Z.succ (d - 1)) in Hp at 2 by lia. replace (d - 1) with (Z.succ (d - 1 - 1)) in Hp at 1 by lia.
      rewrite !Z.pow_succ_r in Hp by lia. split; [apply Z.div_le_lower_bound; lia|apply Z.div_lt_upper_bound; lia]. }
    assert (Hpos : 1 <= 2 ^ (d - 1 - 1)) by (pose proof (Z.pow_pos_nonneg 2 (d - 1 - 1)); lia).
    assert (Hle : 2 ^ (d - 1) <= 2 ^ k) by (apply Z.pow_le_mono_r; lia).
    assert (Hi : 1 <= p / 2 < 2 ^ k) by lia.
    destruct (refresh_spec t (p / 2) (d - 1) Ht Hi) as (H1 & M1 & V1).
    destruct (refresh_spec _ (p / 2) (d - 1) H1 Hi) as (H2 & M2 & V2). set (t2 := refresh g (refresh g t _) _) in *.
    destruct (IH t2 (p / 2) (d - 1)) as (t' & E & H3 & V3 & M3); [done|lia|done|lia|]. exists t'. split_and!; [done|done| |].
    + intros q Hq Ha. rewrite ancestor_parent in Ha by (pose proof (Z.pow_pos_nonneg 2 (d - 1)); lia).
      rewrite V3 by (try done; tauto). rewrite V2, V1; tauto.
    + intros q Hq Hm. apply M3; [done|]. destruct (Z.eq_dec q (p / 2)) as [->|Hqp]; [by left|].
      destruct Hm as [Hm|Ha]; [|right; rewrite ancestor_parent in Ha by (pose proof (Z.pow_pos_nonneg 2 (d - 1)); lia); tauto].
      destruct (Z.eq_dec q (p / 2 / 2)) as [->|Hqq]; [right; exists 1; by rewrite Z.pow_1_r|left].
      assert (N1 : 2 * q <> p / 2) by (intros X; apply Hqq; rewrite <-X; apply (Z.div_unique _ _ _ 0); lia).
      assert (N2 : 2 * q + 1 <> p / 2) by (intros X; apply Hqq; rewrite <-X; apply (Z.div_unique _ _ _ 1); lia).
      unfold min_of_children in *. by rewrite !V2, !V1.
Qed.

(** The state of the process [j]. *)
Definition leaf (t : nodes) (j : Z) : Z := node t (2 ^ k + j).
Definition min_tree (t : nodes) : Prop := forall p, 1 <= p < 2 ^ k -> min_of_children t p.

Lemma leaf_not_ancestor j p : 0 <= j < 2 ^ k -> 0 <= p < 2 ^ (k + 1) -> ~ ancestor (2 ^ k + j) p.
Proof using Hk.
  intros Hj Hp (n & Hn & E). assert (p / 2 ^ n < 2 ^ k); [|lia]. rewrite Z.pow_add_r in Hp by lia.
  apply Z.div_lt_upper_bound; [apply Z.pow_pos_nonneg; lia|]. pose proof pow_bound.
  assert (2 ^ 1 <= 2 ^ n) by (apply Z.pow_le_mono_r; lia). nia.
Qed.

Lemma update_spec fuel t j state :
  words_ok t -> 0 <= j < 2 ^ k -> value_ok 64 state -> k <= Z.of_nat fuel ->
  exists t', min_arr_update g k fuel t j state = Some t' /\ words_ok t' /\ leaf t' j = state /\
    (forall i, 0 <= i < 2 ^ k -> i <> j -> leaf t' i = leaf t i) /\
    (forall q, 1 <= q < 2 ^ k -> min_of_children t q \/ ancestor q (2 ^ k + j) -> min_of_children t' q).
Proof using Hk.
  intros Ht Hj Hs Hf. pose proof pow_bound as Hb. pose proof num_nodes as Hn. pose proof num_processes as Hm.
  unfold min_arr_update, set_leaf, leaf_index, get_leaf_tree_pos. rewrite Hn, Hm.
  replace (j + (2 * 2 ^ k - 1) - 2 ^ k + 1) with (2 ^ k + j) by lia. set (i := 2 * 2 ^ k - 1 - 2 ^ k + j).
  destruct (reg_plain g state Hs) as [E1 O1].
  assert (Ht1 : words_ok (upd t i state)).
  { intros n Hn'. unfold upd. destruct (n =? i); [done|by apply Ht]. }
  assert (V1 : forall q, q <> 2 ^ k + j -> node (upd t i state) q = node t q) by (intros q Hq; unfold node; rewrite upd_other; [done|lia]).
  assert (Pk : 2 ^ (k + 1) = 2 * 2 ^ k) by (rewrite Z.pow_add_r by lia; lia).
  destruct (update_loop_spec fuel (upd t i state) (2 ^ k + j) (k + 1) Ht1) as (t' & E & H' & V' & M'); [lia|rewrite Z.add_simpl_r; lia|lia|].
  exists t'. split_and!; [done|done| | |].
  - unfold leaf. rewrite V' by (try lia; apply leaf_not_ancestor; lia). unfold node. replace (2 ^ k + j - 1) with i by lia. by rewrite upd_same.
  - intros n Hn' Hne. unfold leaf. rewrite V' by (try lia; apply leaf_not_ancestor; lia). apply V1. lia.
  - intros q Hq Hmin. apply M'; [done|]. destruct Hmin as [Hmin|Ha]; [|by right].
    destruct (Z.eq_dec q ((2 ^ k + j) / 2)) as [->|Hne]; [right; exists 1; by rewrite Z.pow_1_r|left].
    assert (N1 : 2 * q <> 2 ^ k + j) by (intros X; apply Hne; rewrite <-X; apply (Z.div_unique _ _ _ 0); lia).
    assert (N2 : 2 * q + 1 <> 2 ^ k + j) by (intros X; apply Hne; rewrite <-X; apply (Z.div_unique _ _ _ 1); lia).
    unfold min_of_children in *. rewrite !V1 by (done || lia). done.
Qed.

(** In a tree where every inner node is the smaller of its children the root is the smallest leaf. *)
Lemma root_least t p : min_tree t -> 1 <= p < 2 * 2 ^ k -> node t 1 <= node t p.
Proof using Hk.
  intros M Hp. remember (Z.to_nat p) as n eqn:En. revert p Hp En. induction (lt_wf n) as [n _ IH]. intros p Hp ->.
  destruct (Z.eq_dec p 1) as [->|Hne]; [lia|].
  assert (Hh : 1 <= p / 2 < p) by (split; [apply Z.div_le_lower_bound; lia|apply Z.div_lt; lia]).
  assert (Hk' : p / 2 < 2 ^ k) by (apply Z.div_lt_upper_bound; lia).
  specialize (IH (Z.to_nat (p / 2)) ltac:(lia) (p / 2) ltac:(lia) eq_refl). specialize (M (p / 2) ltac:(lia)). unfold min_of_children in M.
  assert (p = 2 * (p / 2) \/ p = 2 * (p / 2) + 1) as [E|E] by (pose proof (Z.div_mod p 2); pose proof (Z.mod_pos_bound p 2); lia);
    rewrite E at 1; lia.
Qed.

Lemma node_is_leaf t p : min_tree t -> 1 <= p < 2 * 2 ^ k -> exists j, 0 <= j < 2 ^ k /\ node t p = leaf t j.
Proof using Hk.
  intros M Hp. remember (Z.to_nat (2 * 2 ^ k - p)) as n eqn:En. revert p Hp En. induction (lt_wf n) as [n _ IH]. intros p Hp ->.
  destruct (Z.lt_ge_cases p (2 ^ k)) as [Hlt|Hge].
  - specialize (M p ltac:(lia)). unfold min_of_children in M.
    destruct (Z.min_spec (node t (2 * p)) (node t (2 * p + 1))) as [[_ E]|[_ E]]; rewrite M, E; eapply IH; try done; lia.
  - exists (p - 2 ^ k). split; [lia|]. unfold leaf. f_equal. lia.
Qed.

Lemma root_is_min t : min_tree t ->
  (forall i, 0 <= i < 2 ^ k -> value g (find_min t) <= leaf t i) /\ exists i, 0 <= i < 2 ^ k /\ value g (find_min t) = leaf t i.
Proof using Hk.
  intros M. pose proof pow_bound. change (value g (find_min t)) with (node t 1). split.
  - intros i Hi. apply root_least; [done|lia].
  - apply node_is_leaf; [done|lia].
Qed.

(** Every inner node is above a leaf. *)
Lemma above_leaf q : 1 <= q < 2 ^ k -> exists j, 0 <= j < 2 ^ k /\ ancestor q (2 ^ k + j).
Proof using Hk.
  intros Hq. set (l := Z.log2 q). assert (Hl : 2 ^ l <= q < 2 ^ (l + 1)) by (apply Z.log2_spec; lia).
  assert (Hl0 : 0 <= l) by apply Z.log2_nonneg. assert (Hlk : l < k) by (apply Z.log2_lt_pow2; lia).
  assert (E : 2 ^ k = 2 ^ l * 2 ^ (k - l)) by (rewrite <-Z.pow_add_r by lia; f_equal; lia).
  assert (P : 0 < 2 ^ (k - l)) by (apply Z.pow_pos_nonneg; lia). rewrite Z.pow_add_r, Z.pow_1_r in Hl by lia.
  exists (q * 2 ^ (k - l) - 2 ^ k). split; [nia|]. exists (k - l). split; [lia|].
  replace (2 ^ k + (q * 2 ^ (k - l) - 2 ^ k)) with (q * 2 ^ (k - l)) by lia. by rewrite Z.div_mul by lia.
Qed.

Lemma default_ok j : 0 <= j < 2 ^ k -> value_ok 64 (default_process_state j).
Proof using Hk.
  intros Hj. pose proof pow_bound. assert (is_proc j) by (unfold is_proc; lia). rewrite default_is_inf by done.
  apply state_ok; [|done]. unfold is_token. rewrite counter_inf. lia.
Qed.

Lemma init_from_spec n fuel t i :
  words_ok t -> 0 <= i -> i + Z.of_nat n = 2 ^ k -> k <= Z.of_nat fuel ->
  (forall j, 0 <= j < i -> leaf t j = default_process_state j) ->
  (forall q j, 1 <= q < 2 ^ k -> 0 <= j < i -> ancestor q (2 ^ k + j) -> min_of_children t q) ->
  exists t', init_from g k n fuel t i = Some t' /\ words_ok t' /\
    (forall j, 0 <= j < 2 ^ k -> leaf t' j = default_process_state j) /\
    (forall q j, 1 <= q < 2 ^ k -> 0 <= j < 2 ^ k -> ancestor q (2 ^ k + j) -> min_of_children t' q).
Proof using Hk.
  revert t i. induction n as [|n IH]; intros t i Ht Hi Hn Hf Hl Hq; cbn [init_from].
  { exists t. split_and!; try done; intros; [apply Hl|eapply Hq]; try done; lia. }
  pose proof pow_bound. assert (Hi' : 0 <= i < 2 ^ k) by lia.
  destruct (update_spec fuel t i _ Ht Hi' (default_ok i Hi') Hf) as (t1 & -> & H1 & L1 & L2 & M1). rewrite u16_small by lia.
  apply IH; [done|lia|lia|done| |].
  - intros j Hj. destruct (Z.eq_dec j i) as [->|Hne]; [done|]. rewrite L2 by lia. apply Hl. lia.
  - intros q j Hq' Hj Ha. apply M1; [done|]. destruct (Z.eq_dec j i) as [->|Hne]; [by right|left]. apply (Hq q j); [done|lia|done].
Qed.
End Tree.

(** The minimum array: an update of one process always ends; it changes that
    process's leaf only, keeps every inner node the smaller of its children, and
    leaves in the root the least state of all processes, that is, the process with
    the smallest token. *)
Theorem min_arr_update_correct (g : granularity) (k : Z) (fuel : nat) (t : nodes) (j state : Z) :
  0 <= k <= 15 -> words_ok g k t -> min_tree g k t -> 0 <= j < 2 ^ k -> value_ok 64 state -> k <= Z.of_nat fuel ->
  exists t', min_arr_update g k fuel t j state = Some t' /\ words_ok g k t' /\ min_tree g k t' /\
    leaf g k t' j = state /\ (forall i, 0 <= i < 2 ^ k -> i <> j -> leaf g k t' i = leaf g k t i) /\
    (forall i, 0 <= i < 2 ^ k -> value g (find_min t') <= leaf g k t' i) /\
    exists i, 0 <= i < 2 ^ k /\ value g (find_min t') = leaf g k t' i.
Proof.
  intros Hk Ht Hm Hj Hs Hf. destruct (update_spec g k Hk fuel t j state Ht Hj Hs Hf) as (t' & E & H' & L1 & L2 & M).
  assert (Hm' : min_tree g k t') by (intros q Hq; apply M; [done|left; by apply Hm]).
  exists t'. split_and!; try done; by apply root_is_min.
Qed.

Lemma init_spec g k fuel t :
  0 <= k <= 15 -> words_ok g k t -> k <= Z.of_nat fuel ->
  exists t', init_min_array g k fuel t = Some t' /\ words_ok g k t' /\ min_tree g k t' /\
    forall j, 0 <= j < 2 ^ k -> leaf g k t' j = default_process_state j.
Proof.
  intros Hk Ht Hf. pose proof (pow_bound k Hk). unfold init_min_array. rewrite (num_processes k Hk). rewrite u16_small by lia.
  destruct (init_from_spec g k Hk (Z.to_nat (2 ^ k)) fuel t 0) as (t' & E & H' & L & M); try done; try lia.
  exists t'. split_and!; try done. intros q Hq. destruct (above_leaf k Hk q Hq) as (j & Hj & Ha). by apply (M q j).
Qed.

(** Whatever the memory held before, the initialised minimum array is a correct
    tree in which no process waits: every leaf has the infinite token and the root is
    the least of them. *)
Theorem init_min_array_correct (g : granularity) (k : Z) (fuel : nat) (t : nodes) :
  0 <= k <= 15 -> words_ok g k t -> k <= Z.of_nat fuel ->
  exists t', init_min_array g k fuel t = Some t' /\ words_ok g k t' /\ min_tree g k t' /\
    (forall j, 0 <= j < 2 ^ k -> leaf g k t' j = default_process_state j) /\
    get_counter (value g (find_min t')) = COUNTER_INF.
Proof.
  intros Hk Ht Hf. destruct (init_spec g k fuel t Hk Ht Hf) as (t' & E & H' & M & L). exists t'. split_and!; try done.
  destruct (root_is_min g k Hk t' M) as [_ (j & Hj & ->)]. rewrite L by done. pose proof (pow_bound k Hk).
  assert (is_proc j) by (unfold is_proc; lia). rewrite default_is_inf by done. apply state_parts; [|done].
  unfold is_token. rewrite counter_inf. lia.
Qed.

Lemma min_arr_update_correct_witness :
  let t := fun _ : Z => default_process_state 0 in
  exists t', min_arr_update CACHELINE_GRANULAR 2 2 t 3 (compose_process_state 9 3) = Some t' /\
    words_ok CACHELINE_GRANULAR 2 t' /\ min_tree CACHELINE_GRANULAR 2 t' /\
    leaf CACHELINE_GRANULAR 2 t' 3 = compose_process_state 9 3 /\
    (forall i, 0 <= i < 2 ^ 2 -> i <> 3 -> leaf CACHELINE_GRANULAR 2 t' i = leaf CACHELINE_GRANULAR 2 t i) /\
    (forall i, 0 <= i < 2 ^ 2 -> value CACHELINE_GRANULAR (find_min t') <= leaf CACHELINE_GRANULAR 2 t' i) /\
    exists i, 0 <= i < 2 ^ 2 /\ value CACHELINE_GRANULAR (find_min t') = leaf CACHELINE_GRANULAR 2 t' i.
Proof.
  intros t. apply (min_arr_update_correct CACHELINE_GRANULAR 2 2 t 3 (compose_process_state 9 3)); [lia| | |lia|by vm_compute|lia].
  - intros i _. by vm_compute.
  - intros p _. unfold min_of_children. by vm_compute.
Defined.

Lemma init_min_array_correct_witness :
  exists t', init_min_array DRAM 4 4 (fun i => 7 * i + 1) = Some t' /\ words_ok DRAM 4 t' /\ min_tree DRAM 4 t' /\
    (forall j, 0 <= j < 2 ^ 4 -> leaf DRAM 4 t' j = default_process_state j) /\
    get_counter (value DRAM (find_min t')) = COUNTER_INF.
Proof.
  apply (init_min_array_correct DRAM 4 4); [lia| |lia]. intros i Hi. rewrite num_nodes in Hi by lia.
  apply (reg_plain DRAM). unfold value_ok. lia.
Defined.
