(* ===== verification/JjLock.v ===== *)
(** The abortable recoverable lock over the minimum array:
    src/src/common/jj_ab_spin (jj_ab_cs_status.h, jj_abortable_spin.h,
    jj_abortable_spinlock.h, jj_abortable_spinlock_kern.h), built without
    ORIG_JJ_LOCK.

    As for the other locks, the first part has the calls without interference and the
    second part the steps: every access to the lock word, the token, the sequence
    number and the nodes of the array is a step of its own. *)
From Stdlib Require Import ZArith Lia Bool.
From stdpp Require Import base list numbers.
From S2P Require Import Prelude PersistCas TatasLock MinArray.
Local Open Scope Z_scope.
Local Open Scope lupin_scope.

Record jj_lock := JjLock { cs_status_w : Z; token_w : Z; seq_w : Z; min_arr : nodes }.

Definition set_cs (l : jj_lock) (w : Z) : jj_lock := JjLock w (token_w l) (seq_w l) (min_arr l).
Definition set_token (l : jj_lock) (w : Z) : jj_lock := JjLock (cs_status_w l) w (seq_w l) (min_arr l).
Definition set_seqno (l : jj_lock) (w : Z) : jj_lock := JjLock (cs_status_w l) (token_w l) w (min_arr l).
Definition set_arr (l : jj_lock) (t : nodes) : jj_lock := JjLock (cs_status_w l) (token_w l) (seq_w l) t.

(** The lock is taken, by the process [i]. *)
Definition owned (c : cs_status) (i : Z) : bool := truthy (cs_b c) && (cs_s c =? i).

Section Ops.
Context (g : granularity) (k : Z).

Definition read_decompose_cs_status (l : jj_lock) : cs_status * jj_lock :=
  let (v, w) := pcas_read_uint64 g (cs_status_w l) in (decompose_cs_status v, set_cs l w).

(** [min_arr_update]; the array has [k] levels above the leaves. *)
Definition update_arr (l : jj_lock) (process_id state : Z) : option jj_lock :=
  match min_arr_update g k (Z.to_nat k) (min_arr l) process_id state with
  | None => None
  | Some t => Some (set_arr l t)
  end.

(** The peer that [promote] chooses: [None] when nobody waits and [flag] is unset. *)
Definition choose_peer (m process_id : Z) (flag : bool) : option Z :=
  let token := get_counter m in
  if (token =? COUNTER_INF) && negb flag then None
  else Some (if token =? COUNTER_INF then process_id else get_process_id m).

(** The result, and what is written to [peer_out]: [None] when it is left alone. *)
Definition jj_promote (l : jj_lock) (process_id : Z) (flag : bool) : bool * option Z * jj_lock :=
  let (c, l) := read_decompose_cs_status l in
  if truthy (cs_b c) then (false, None, l)
  else
    match choose_peer (find_min (min_arr l)) process_id flag with
    | None => (false, Some 0, l)
    | Some peer =>
        match persist_cas_uint64 g (cs_status_w l) (compose_cs_status false (cs_s c)) (compose_cs_status true peer) with
        | (true, w, _) => (true, Some peer, set_cs l w)
        | (false, w, _) => (false, Some 0, set_cs l w)
        end
    end.

Definition jj_abort (l : jj_lock) (process_id : Z) : option (bool * jj_lock) :=
  match update_arr l process_id (default_process_state process_id) with
  | None => None
  | Some l =>
      let '(_, _, l) := jj_promote l process_id true in
      let (cs, l) := read_decompose_cs_status l in Some (negb (owned cs process_id), l)
  end.

Definition jj_tryenter (l : jj_lock) (process_id : Z) : option (bool * jj_lock) :=
  let (c, l) := read_decompose_cs_status l in
  if owned c process_id then Some (true, l)
  else
    let (token, w) := pcas_read_uint64 g (token_w l) in
    let '(_, w, _) := persist_cas_uint64 g w token (u64 (token + 1)) in
    match update_arr (set_token l w) process_id (compose_process_state token process_id) with
    | None => None
    | Some l =>
        let '(_, _, l) := jj_promote l process_id false in
        let (c, l) := read_decompose_cs_status l in Some (owned c process_id, l)
    end.

(** The waiting loop: [None] is a caller that still spins after [fuel] rounds. *)
Fixpoint jj_wait (fuel : nat) (l : jj_lock) (process_id counter : Z) (abort_signal : Z -> bool) : option jj_lock :=
  match fuel with
  | O => None
  | S n =>
      let (c, l) := read_decompose_cs_status l in
      if owned c process_id || abort_signal counter then Some l
      else jj_wait n l process_id (u32 (counter + 1)) abort_signal
  end.

Definition jj_enter (fuel : nat) (l : jj_lock) (process_id : Z) (abort_signal : Z -> bool) : option (bool * jj_lock) :=
  match jj_tryenter l process_id with
  | None => None
  | Some (got_lock, l) =>
      match (if got_lock then Some l else jj_wait fuel l process_id 0 abort_signal) with
      | None => None
      | Some l =>
          let (c, l) := read_decompose_cs_status l in
          if owned c process_id then Some (true, l)
          else match jj_abort l process_id with None => None | Some (aborted, l) => Some (negb aborted, l) end
      end
  end.

Definition jj_exit (l : jj_lock) (process_id : Z) : option (bool * option Z * jj_lock) :=
  match update_arr l process_id (default_process_state process_id) with
  | None => None
  | Some l =>
      let (s, w) := pcas_read_uint64 g (seq_w l) in
      let l := set_seqno l (persist_atomic_write_uint64 g w (u64 (s + 1))) in
      let l := set_cs l (persist_atomic_write_uint64 g (cs_status_w l) (compose_cs_status false (u64 (s + 1)))) in
      Some (jj_promote l process_id false)
  end.

Definition jj_init (l : jj_lock) : option jj_lock :=
  match init_min_array g k (Z.to_nat k) (min_arr l) with
  | None => None
  | Some t => Some (JjLock (compose_cs_status false 1) 1 1 t)
  end.

Definition jj_recover (l : jj_lock) (process_id : Z) : option jj_lock :=
  let (c, l) := read_decompose_cs_status l in
  if owned c process_id then match jj_abort l process_id with None => None | Some (_, l) => Some l end
  else Some l.

(** The calls of user space: [assert (ret)] on the way out of [lock]. *)
Definition jj_spin_lock (fuel : nat) (l : jj_lock) (process_id : Z) : outcome (option jj_lock) :=
  match jj_recover l process_id with
  | None => Ret None
  | Some l =>
      match jj_enter fuel l process_id spin_no_abort with
      | None => Ret None
      | Some (ret, l) => bug_on (negb ret) (Ret (Some l))
      end
  end.

Definition jj_spin_unlock (l : jj_lock) (process_id : Z) : option jj_lock :=
  match jj_exit l process_id with None => None | Some (_, _, l) => Some l end.

Definition jj_spin_trylock (l : jj_lock) (process_id : Z) : option (bool * jj_lock) :=
  match jj_recover l process_id with None => None | Some l => jj_tryenter l process_id end.

(** The kernel variants identify the processor; unlike those of the other abortable
    lock they do not compare it with the number of processes the array holds. *)
Section Kern.
Context (nr_cpu_ids cpu_id : Z).

Definition jj_lock_kern (fuel : nat) (l : jj_lock) (machine_id : Z) : outcome (option jj_lock) :=
  with_process_id nr_cpu_ids cpu_id machine_id (fun process_id => jj_spin_lock fuel l process_id).

Definition jj_unlock_kern (l : jj_lock) (machine_id : Z) : outcome (option jj_lock) :=
  with_process_id nr_cpu_ids cpu_id machine_id (fun process_id => Ret (jj_spin_unlock l process_id)).
End Kern.
End Ops.

(** ** The interleaved lock *)

(** What calls [promote] and [min_arr_update]. *)
Inductive caller_of := JTry | JAbort (recovering : bool) | JExit.

(** Where a process is.  [second] tells the two [refresh]es of a node apart. *)
Inductive jpc :=
| JIdle
| JDown
| JRecRead
| JTryRead
| JTokRead
| JTokCas (token : Z)
| JLeaf (c : caller_of) (state : Z)
| JCur (c : caller_of) (pos : tree_pos) (second : bool)
| JLeft (c : caller_of) (pos : tree_pos) (second : bool) (cur : Z)
| JRight (c : caller_of) (pos : tree_pos) (second : bool) (cur lval : Z)
| JNode (c : caller_of) (pos : tree_pos) (second : bool) (cur min : Z)
| JPRead (c : caller_of)
| JMin (c : caller_of) (s : Z)
| JPCas (c : caller_of) (s peer : Z)
| JTryDone
| JSpin
| JEnterRead
| JAbortRead (recovering : bool)
| JCritical
| JSeqRead
| JSeqWrite (s : Z)
| JCsWrite (s : Z).

Definition jflag (c : caller_of) : bool := match c with JAbort _ => true | _ => false end.
Definition jpromoted (c : caller_of) : jpc := match c with JTry => JTryDone | JAbort r => JAbortRead r | JExit => JIdle end.
Definition jupdated (c : caller_of) : jpc := match c with JExit => JSeqRead | _ => JPRead c end.
(** The loop of [min_arr_update], after the node [pos]. *)
Definition jclimb (c : caller_of) (pos : tree_pos) : jpc :=
  if tree_pos_is_root pos then jupdated c else JCur c (update_tree_parent pos) false.

Section Interleaving.
Context (g : granularity) (k : Z).

(** The next step of the process [i].  [choice] is the abort signal in the waiting
    loop, and otherwise which call it is: [lock] or [enter] of an idle process, and
    [trylock], which returns, or [enter], which waits, after a failed [tryenter]. *)
Definition jstep (i : Z) (choice : bool) (p : jpc) (l : jj_lock) : jpc * jj_lock :=
  let test (f : cs_status -> jpc) := let (c, l) := read_decompose_cs_status g l in (f c, l) in
  let node (n : Z) (f : Z -> jpc) := let (v, t) := get_process_state g (min_arr l) n in (f v, set_arr l t) in
  match p with
  | JIdle => (if choice then JRecRead else JTryRead, l)
  | JDown => (JRecRead, l)
  | JRecRead => test (fun c => if owned c i then JLeaf (JAbort true) (default_process_state i) else JTryRead)
  | JTryRead => test (fun c => if owned c i then JEnterRead else JTokRead)
  | JTokRead => let (token, w) := pcas_read_uint64 g (token_w l) in (JTokCas token, set_token l w)
  | JTokCas token =>
      let '(_, w, _) := persist_cas_uint64 g (token_w l) token (u64 (token + 1)) in
      (JLeaf JTry (compose_process_state token i), set_token l w)
  | JLeaf c state => (jclimb c (get_leaf_tree_pos k i), set_arr l (set_leaf k (min_arr l) i state))
  | JCur c pos second => node (tp_index pos - 1) (JLeft c pos second)
  | JLeft c pos second cur => node (tp_index (get_tree_left_child pos) - 1) (JRight c pos second cur)
  | JRight c pos second cur lval =>
      node (tp_index (get_tree_right_child pos) - 1)
        (fun rval => JNode c pos second cur (if lval <? rval then lval else rval))
  | JNode c pos second cur min =>
      (if second then jclimb c pos else JCur c pos true,
       set_arr l (atomic_cmpxchg_process_state g (min_arr l) (tp_index pos - 1) cur min))
  | JPRead c => test (fun st => if truthy (cs_b st) then jpromoted c else JMin c (cs_s st))
  | JMin c s =>
      (match choose_peer (find_min (min_arr l)) i (jflag c) with None => jpromoted c | Some peer => JPCas c s peer end, l)
  | JPCas c s peer =>
      let '(_, w, _) := persist_cas_uint64 g (cs_status_w l) (compose_cs_status false s) (compose_cs_status true peer) in
      (jpromoted c, set_cs l w)
  | JTryDone => test (fun c => if owned c i then JEnterRead else if choice then JIdle else JSpin)
  | JSpin => test (fun c => if owned c i || choice then JEnterRead else JSpin)
  | JEnterRead => test (fun c => if owned c i then JCritical else JLeaf (JAbort false) (default_process_state i))
  | JAbortRead recovering => test (fun c => if recovering then JTryRead else if owned c i then JCritical else JIdle)
  | JCritical => (JLeaf JExit (default_process_state i), l)
  | JSeqRead => let (s, w) := pcas_read_uint64 g (seq_w l) in (JSeqWrite s, set_seqno l w)
  | JSeqWrite s => (JCsWrite s, set_seqno l (persist_atomic_write_uint64 g (seq_w l) (u64 (s + 1))))
  | JCsWrite s =>
      (JPRead JExit, set_cs l (persist_atomic_write_uint64 g (cs_status_w l) (compose_cs_status false (u64 (s + 1)))))
  end.

Record jsys := JSys { js_lock : jj_lock; js_pc : Z -> jpc }.

Definition is_process (i : Z) : Prop := 0 <= i < 2 ^ k.

Inductive jsys_step : jsys -> jsys -> Prop :=
| jsys_proc i choice st :
    is_process i ->
    jsys_step st (JSys (snd (jstep i choice (js_pc st i) (js_lock st))) (upd (js_pc st) i (fst (jstep i choice (js_pc st i) (js_lock st)))))
| jsys_crash i st : is_process i -> jsys_step st (JSys (js_lock st) (upd (js_pc st) i JDown)).

Inductive jsys_reachable : jsys -> Prop :=
| jsys_init l0 l : words_ok g k (min_arr l0) -> jj_init g k l0 = Some l -> jsys_reachable (JSys l (fun _ => JIdle))
| jsys_next st st' : jsys_reachable st -> jsys_step st st' -> jsys_reachable st'.
End Interleaving.

(** ** Mutual exclusion *)

(** From the entry to the critical section to the write that frees the lock. *)
Definition jholding (p : jpc) : bool :=
  match p with
  | JCritical | JLeaf JExit _ | JCur JExit _ _ | JLeft JExit _ _ _ | JRight JExit _ _ _ _ | JNode JExit _ _ _ _
  | JSeqRead | JSeqWrite _ | JCsWrite _ => true
  | _ => false
  end.

Section Exclusion.
Context (g : granularity) (k : Z) (Hk : 0 <= k <= 15).

Definition jstatus (l : jj_lock) : cs_status := decompose_cs_status (value g (cs_status_w l)).

Record jinv (st : jsys) : Prop := {
  ji_word : reg_ok g (cs_status_w (js_lock st));
  ji_hold i : is_process k i -> jholding (js_pc st i) = true -> owned (jstatus (js_lock st)) i = true;
  ji_peer i c s peer : is_process k i -> js_pc st i = JPCas c s peer -> is_proc peer }.

Lemma owned_inj c i j : owned c i = true -> owned c j = true -> i = j.
Proof using. unfold owned. rewrite !andb_true_iff, !Z.eqb_eq. intros [_ ?] [_ ?]. congruence. Qed.

Lemma free_word_ok s : value_ok 64 (compose_cs_status false s).
Proof using.
  unfold compose_cs_status, CSST_S_MASK, CSST_B_SHIFT. change (Z.shiftl 1 62 - 1) with (Z.ones 62).
  rewrite Z.land_comm, Z.land_ones by lia. pose proof (Z.mod_pos_bound s (2 ^ 62)). unfold value_ok. lia.
Qed.

Lemma free_not_owned s i : owned (decompose_cs_status (compose_cs_status false s)) i = false.
Proof using.
  unfold owned, decompose_cs_status, compose_cs_status. cbn [cs_b].
  assert (Z.land (Z.land CSST_S_MASK s) CSST_B_MASK = 0) as ->; [|done].
  rewrite <-Z.land_assoc, (Z.land_comm s), Z.land_assoc. change (Z.land CSST_S_MASK CSST_B_MASK) with 0. apply Z.land_0_l.
Qed.

Lemma taken_word_ok p : is_proc p -> value_ok 64 (compose_cs_status true p).
Proof using. unfold is_proc. intros Hp. rewrite cs_status_sum by lia. unfold value_ok. lia. Qed.

Lemma read_jstatus l : reg_ok g (cs_status_w l) ->
  exists l', read_decompose_cs_status g l = (jstatus l, l') /\ jstatus l' = jstatus l /\ reg_ok g (cs_status_w l').
Proof using.
  intros H. destruct (reg_read g _ H) as (w & E1 & E2 & E3). unfold read_decompose_cs_status. rewrite E1. eexists. split; [done|].
  unfold jstatus. cbn [set_cs cs_status_w]. by rewrite E2.
Qed.

Lemma choose_peer_proc m i flag peer : is_proc i -> choose_peer m i flag = Some peer -> is_proc peer.
Proof using.
  unfold choose_peer. intros Hi. case_match; [done|]. intros E. apply (inj Some) in E as <-. case_match; [done|]. unfold get_process_id, is_proc.
  pose proof (Z.mod_pos_bound (Z.land m PROCESS_ID_MASK) (2 ^ 16)). unfold u16. lia.
Qed.

(** What one step of [i] keeps. *)
Definition step_ok (i : Z) (p : jpc) (l : jj_lock) (r : jpc * jj_lock) : Prop :=
  reg_ok g (cs_status_w (snd r)) /\ (jholding (fst r) = true -> owned (jstatus (snd r)) i = true) /\
  (forall c s peer, fst r = JPCas c s peer -> is_proc peer) /\
  (jstatus (snd r) = jstatus l \/ (forall j, owned (jstatus l) j = false) \/ jholding p = true).

(** A step that does not touch the lock word. *)
Lemma step_same i p l p' l' :
  reg_ok g (cs_status_w l) -> (jholding p = true -> owned (jstatus l) i = true) ->
  cs_status_w l' = cs_status_w l -> (jholding p' = true -> jholding p = true) ->
  (forall c s peer, p' = JPCas c s peer -> is_proc peer) -> step_ok i p l (p', l').
Proof using.
  intros H Hh E Hp Hc. unfold step_ok, jstatus. cbn [fst snd]. rewrite E. split_and!; [done|auto|done|by left].
Qed.

(** A step that reads it. *)
Lemma step_read i p l f :
  reg_ok g (cs_status_w l) -> (jholding p = true -> owned (jstatus l) i = true) ->
  (jholding (f (jstatus l)) = true -> jholding p = true \/ owned (jstatus l) i = true) ->
  (forall c s peer, f (jstatus l) <> JPCas c s peer) ->
  step_ok i p l (let (c, l) := read_decompose_cs_status g l in (f c, l)).
Proof using.
  intros H Hh Hp Hc. destruct (read_jstatus l H) as (l' & -> & E & H'). unfold step_ok. cbn [fst snd]. rewrite E.
  split_and!; [done| |intros c s peer X; by apply Hc in X|by left]. intros X. destruct (Hp X); auto.
Qed.

Lemma climb_holding c pos : jholding (jclimb c pos) = true -> c = JExit.
Proof using. unfold jclimb. case_match; by destruct c. Qed.

Lemma climb_not_cas c pos c' s peer : jclimb c pos <> JPCas c' s peer.
Proof using. unfold jclimb. case_match; by destruct c. Qed.

Lemma jstep_ok i choice p l :
  is_process k i -> reg_ok g (cs_status_w l) -> (jholding p = true -> owned (jstatus l) i = true) ->
  (forall c s peer, p = JPCas c s peer -> is_proc peer) ->
  step_ok i p l (jstep g k i choice p l).
Proof using Hk.
  intros Hi H Hh Hp. assert (Hproc : is_proc i) by (pose proof (pow_bound k Hk); unfold is_process, is_proc in *; lia).
  destruct p; cbn [jstep].
  all: try (apply step_read; try done; intros; repeat case_match; by auto).
  all: try (unfold get_process_state; destruct (pcas_read_uint64 g _); apply step_same; try done; by destruct c).
  all: try (apply step_same; try done; by case_match).
  - destruct (persist_cas_uint64 g (token_w l) token (u64 (token + 1))) as [[]]. by apply step_same.
  - apply step_same; try done; [intros X; apply climb_holding in X; by subst c|]. intros c' s peer X. by apply climb_not_cas in X.
  - apply step_same; try done.
    + destruct second; [|by destruct c]. intros X. apply climb_holding in X. by subst c.
    + intros c' s peer X. destruct second; [by apply climb_not_cas in X|done].
  - apply step_read; try done; [|intros; repeat case_match; by destruct c]. case_match; by destruct c.
  - destruct (choose_peer (find_min (min_arr l)) i (jflag c)) as [peer|] eqn:E; apply step_same; try done.
    + intros c' s' peer' [= <- <- <-]. by eapply choose_peer_proc.
    + by destruct c.
    + by destruct c.
  - destruct (reg_cas g _ _ _ H (free_word_ok s) (taken_word_ok peer (Hp _ _ _ eq_refl))) as (b & w & e & -> & E & Hw).
    unfold step_ok, jstatus. cbn [fst snd set_cs cs_status_w]. rewrite E. split_and!; [done|by destruct c|by destruct c|].
    destruct (Z.eqb_spec (value g (cs_status_w l)) (compose_cs_status false s)) as [X|]; [|by left].
    right; left. intros j. rewrite X. apply free_not_owned.
  - destruct (reg_write g (cs_status_w l) _ (free_word_ok (u64 (s + 1)))) as [E Hw].
    unfold step_ok. cbn [fst snd set_cs cs_status_w]. split_and!; [done|done|done|by right; right].
Qed.

Lemma jinv_step st st' : jinv st -> jsys_step g k st st' -> jinv st'.
Proof using Hk.
  intros J Hs. destruct Hs as [i choice st Hi|i st Hi]; destruct J as [J1 J2 J3].
  - pose proof (jstep_ok i choice (js_pc st i) (js_lock st) Hi J1 (J2 i Hi) (fun c s peer => J3 i c s peer Hi)) as (S1 & S2 & S3 & S4).
    destruct (jstep g k i choice (js_pc st i) (js_lock st)) as [p' l']. cbn [fst snd] in *. constructor; cbn [js_lock js_pc].
    + done.
    + intros j Hj. destruct (Z.eq_dec i j) as [<-|Hne]; [by rewrite upd_same|]. rewrite upd_other by done. intros Hh.
      pose proof (J2 j Hj Hh) as Ho. destruct S4 as [->|[S4|S4]]; [done|by rewrite S4 in Ho|].
      exfalso. apply Hne. eapply owned_inj; [by apply J2|done].
    + intros j c s peer Hj. destruct (Z.eq_dec i j) as [<-|Hne]; [rewrite upd_same; apply S3|]. rewrite upd_other by done. by apply J3.
  - constructor; cbn [js_lock js_pc]; [done| |].
    + intros j Hj. destruct (Z.eq_dec i j) as [<-|Hne]; [by rewrite upd_same|]. rewrite upd_other by done. by apply J2.
    + intros j c s' peer Hj. destruct (Z.eq_dec i j) as [<-|Hne]; [by rewrite upd_same|]. rewrite upd_other by done. by apply J3.
Qed.

Lemma jreachable_inv st : jsys_reachable g k st -> jinv st.
Proof using Hk.
  induction 1 as [l0 l Hw E|st st' _ IH Hs]; [|by eapply jinv_step]. unfold jj_init in E. destruct (init_min_array _ _ _ _); [|done].
  injection E as <-. constructor; try done. apply reg_plain. by apply free_word_ok.
Qed.
End Exclusion.

(** C29. Mutual exclusion of the abortable lock over the minimum array.  Whatever the
    interleaving, and whatever the array holds, with processes that give up, fail a
    [trylock] and crash at any step, at most one process is between its entry to the
    critical section and the write that frees the lock, and the lock word names it. *)
Theorem jj_mutual_exclusion (g : granularity) (k i : Z) (st : jsys) :
  0 <= k <= 15 -> jsys_reachable g k st -> is_process k i -> jholding (js_pc st i) = true ->
  owned (jstatus g (js_lock st)) i = true /\ forall j, is_process k j -> jholding (js_pc st j) = true -> j = i.
Proof.
  intros Hk R Hi Hh. apply (jreachable_inv g k Hk) in R as [_ J _]. split; [by apply J|].
  intros j Hj Hh'. eapply owned_inj; [by apply J|by apply J].
Qed.

(** ** Schedules *)

Fixpoint jsched (g : granularity) (k : Z) (events : list (Z * bool)) (st : jsys) : jsys :=
  match events with
  | [] => st
  | (i, choice) :: rest =>
      let (p', l') := jstep g k i choice (js_pc st i) (js_lock st) in jsched g k rest (JSys l' (upd (js_pc st) i p'))
  end.

(** Two processes.  1 takes the lock and, while releasing it, reads the root of the
    array; 0 asks for the lock and stores its leaf; 1 reads the leaves; 0 completes its
    request, gives up and leaves, and the root is again what 1 had read; 1 stores the
    request of 0 in the root, frees the lock and promotes 0; 1 asks for the lock again. *)
Definition stale_request : list (Z * bool) :=
  repeat (1, false) 25 ++ repeat (0, false) 5 ++ repeat (1, false) 2 ++
  repeat (0, false) 10 ++ [(0, true)] ++ repeat (0, false) 12 ++ repeat (1, false) 22.
Definition jstart (k : Z) : jsys :=
  match jj_init DRAM k (JjLock 0 0 0 (fun _ => 0)) with
  | Some l => JSys l (fun _ => JIdle)
  | None => JSys (JjLock 0 0 0 (fun _ => 0)) (fun _ => JIdle)
  end.

Lemma jsched_reachable g k events st :
  0 <= k -> Forall (fun e => 0 <= e.1 < 2 ^ k) events -> jsys_reachable g k st -> jsys_reachable g k (jsched g k events st).
Proof.
  intros Hk. revert st. induction events as [|[i choice] rest IH]; intros st Hf R; cbn [jsched]; [done|].
  apply list.Forall_cons in Hf as [Hi Hf]. pose proof (jsys_next g k st _ R (jsys_proc g k i choice st Hi)) as R'.
  destruct (jstep g k i choice (js_pc st i) (js_lock st)) as [p' l']. by apply IH.
Qed.

Lemma jstart_reachable : jsys_reachable DRAM 1 (jstart 1).
Proof. apply (jsys_init DRAM 1 (JjLock 0 0 0 (fun _ => 0))); [|done]. intros i _. by vm_compute. Qed.

(** A process that waits on a word that does not name it goes on waiting. *)
Lemma spins n k i st :
  js_pc st i = JSpin -> owned (jstatus DRAM (js_lock st)) i = false ->
  js_pc (jsched DRAM k (repeat (i, false) n) st) i = JSpin.
Proof.
  revert st. induction n as [|n IH]; intros st Hp Ho; cbn [repeat jsched]; [done|]. rewrite Hp. cbn [jstep].
  unfold read_decompose_cs_status, pcas_read_uint64, pcas_read. fold (pcas_read_noflush_uint64 DRAM (cs_status_w (js_lock st))).
  change (decompose_cs_status (cs_status_w (js_lock st))) with (jstatus DRAM (js_lock st)). rewrite Ho. cbn [orb].
  apply IH; cbn [js_pc js_lock]; [by apply upd_same|done].
Qed.

(** The minimum array of the abortable lock is not safe against aborts: its nodes are
    replaced by compare-and-swap on values that recur.  In the run [stale_request] of
    two processes, without a crash, 0 gives up and leaves, and is then granted the
    lock by 1 on the strength of a request that 1 had read before and put back into the root;
    0 is idle, and 1, which asks for the lock again, waits for ever. *)
Theorem jj_stale_request_granted :
  let st := jsched DRAM 1 stale_request (jstart 1) in
  jsys_reachable DRAM 1 st /\ owned (jstatus DRAM (js_lock st)) 0 = true /\ js_pc st 0 = JIdle /\ js_pc st 1 = JSpin /\
  forall n, js_pc (jsched DRAM 1 (repeat (1, false) n) st) 1 = JSpin.
Proof.
  intros st. split; [|split; [|split; [|split]]]; [| by vm_compute .. |].
  - apply jsched_reachable; [lia| |apply jstart_reachable]. unfold stale_request.
    repeat (apply Forall_app_2 || apply list.Forall_cons_2 || apply list.Forall_nil || (apply Forall_repeat; cbn; lia) || (cbn; lia)).
  - intros n. apply spins; by vm_compute.
Qed.

Lemma jj_mutual_exclusion_witness :
  let st := jsched DRAM 1 (repeat (1, false) 18) (jstart 1) in
  owned (jstatus DRAM (js_lock st)) 1 = true /\ forall j, is_process 1 j -> jholding (js_pc st j) = true -> j = 1.
Proof.
  intros st. apply (jj_mutual_exclusion DRAM 1 1 st); [lia| |unfold is_process; lia|by vm_compute].
  apply jsched_reachable; [lia| |apply jstart_reachable]. by repeat constructor.
Defined.

(** ** The calls without interference *)

Section Sequential.
Context (g : granularity) (k : Z) (Hk : 0 <= k <= 15).

(** The states of the processes: a token, or the infinite token, with the process's own number. *)
Definition states_ok (l : jj_lock) : Prop :=
  forall j, 0 <= j < 2 ^ k -> exists t, is_token t /\ leaf g k (min_arr l) j = compose_process_state t j.
Definition waiting (l : jj_lock) (j : Z) : Prop := get_counter (leaf g k (min_arr l) j) <> COUNTER_INF.

Record jj_ok (l : jj_lock) : Prop := {
  jo_cs : reg_ok g (cs_status_w l);
  jo_token : reg_ok g (token_w l);
  jo_seq : reg_ok g (seq_w l);
  jo_words : words_ok g k (min_arr l);
  jo_tree : min_tree g k (min_arr l);
  jo_states : states_ok l }.

(** The token and the process of a word do not depend on its dirty bit. *)
Lemma state_dirty w : get_counter (value g w) = get_counter w /\ get_process_id (value g w) = get_process_id w.
Proof using.
  unfold value, pcas_read_noflush_uint64, pcas_read_noflush, get_counter, get_process_id. destruct g; [done|done|].
  rewrite <-!Z.land_assoc. done.
Qed.

Lemma read_ok_l l : jj_ok l ->
  exists l', read_decompose_cs_status g l = (jstatus g l, l') /\ value g (cs_status_w l') = value g (cs_status_w l) /\ jj_ok l' /\ min_arr l' = min_arr l /\ token_w l' = token_w l /\ seq_w l' = seq_w l.
Proof using.
  intros [J1 J2 J3 J4 J5 J6]. destruct (reg_read g _ J1) as (w & E1 & E2 & E3). unfold read_decompose_cs_status. rewrite E1. eexists. split; [done|].
  split; [done|]. by split.
Qed.

(** The answer of the compare-and-swap. *)
Lemma cas_answer w e v : reg_ok g w -> value_ok 64 e -> value_ok 64 v -> (persist_cas_uint64 g w e v).1.1 = (value g w =? e).
Proof using.
  intros [H1 H2] He Hv. pose proof (cas_ok 64 g eq_refl w e v H1 He Hv) as H. unfold persist_cas_uint64.
  destruct (persist_cas 64 g w e v) as [[b w'] e']. by destruct H as (-> & _).
Qed.

Lemma proc_of j : 0 <= j < 2 ^ k -> is_proc j.
Proof using Hk. intros Hj. pose proof (pow_bound k Hk). unfold is_proc. lia. Qed.

Lemma update_arr_spec l j t :
  jj_ok l -> 0 <= j < 2 ^ k -> is_token t ->
  exists a, update_arr g k l j (compose_process_state t j) = Some (set_arr l a) /\ jj_ok (set_arr l a) /\
    leaf g k a j = compose_process_state t j /\ forall i, 0 <= i < 2 ^ k -> i <> j -> leaf g k a i = leaf g k (min_arr l) i.
Proof using Hk.
  intros [J1 J2 J3 J4 J5 J6] Hj Ht. pose proof (proc_of j Hj) as Hp. unfold update_arr.
  destruct (update_spec g k Hk (Z.to_nat k) (min_arr l) j _ J4 Hj (state_ok t j Ht Hp)) as (a & -> & W & L1 & L2 & M); [lia|].
  exists a. split; [done|]. split; [|done]. constructor; try done.
  - intros q Hq. apply M; [done|]. left. by apply J5.
  - intros i Hi. cbn [set_arr min_arr]. destruct (Z.eq_dec i j) as [->|Hne]; [by exists t|]. rewrite L2 by done. by apply J6.
Qed.

(** The root of the array: the process with the least token. *)
Lemma root_state l : jj_ok l ->
  exists j t, 0 <= j < 2 ^ k /\ is_token t /\ leaf g k (min_arr l) j = compose_process_state t j /\
    get_counter (find_min (min_arr l)) = t /\ get_process_id (find_min (min_arr l)) = j /\
    forall i, 0 <= i < 2 ^ k -> compose_process_state t j <= leaf g k (min_arr l) i.
Proof using Hk.
  intros [J1 J2 J3 J4 J5 J6]. destruct (root_is_min g k Hk _ J5) as [R1 (j & Hj & R2)]. destruct (J6 j Hj) as (t & Ht & E).
  exists j, t. split; [done|]. split; [done|]. split; [done|]. destruct (state_dirty (find_min (min_arr l))) as [<- <-].
  destruct (state_parts t j Ht (proc_of j Hj)) as [P1 P2]. rewrite R2, E. split; [done|]. split; [done|].
  intros i Hi. rewrite <-E, <-R2. by apply R1.
Qed.

(** The free word is read back as it was written. *)
Lemma free_again s : compose_cs_status false (cs_s (decompose_cs_status (compose_cs_status false s))) = compose_cs_status false s.
Proof using.
  unfold compose_cs_status, decompose_cs_status. cbn [cs_s]. rewrite (Z.land_comm CSST_S_MASK s), <-Z.land_assoc, Z.land_diag.
  rewrite Z.land_comm, <-Z.land_assoc, Z.land_diag. done.
Qed.

Lemma taken_owned p i : is_proc p -> owned (decompose_cs_status (compose_cs_status true p)) i = (p =? i).
Proof using.
  intros Hp. unfold is_proc in Hp. rewrite cs_status_sum by lia. unfold owned, decompose_cs_status, CSST_S_MASK, CSST_B_MASK, CSST_B_SHIFT. cbn [cs_b cs_s].
  change (Z.shiftl 1 62 - 1) with (Z.ones 62). rewrite Z.land_ones by lia.
  assert ((2 ^ 62 + p) mod 2 ^ 62 = p) as -> by (symmetry; apply (Z.mod_unique _ _ 1); lia).
  pose proof (dirty_bit 63 ltac:(lia) (2 ^ 62 + p) ltac:(lia)) as D. unfold DIRTY in D. change (63 - 1) with 62 in D. rewrite D.
  destruct (Z.leb_spec (2 ^ 62) (2 ^ 62 + p)); [done|lia].
Qed.

(** The process that is next: the one with the least token, and the least number among equals. *)
Definition oldest (l : jj_lock) (j : Z) : Prop :=
  0 <= j < 2 ^ k /\ waiting l j /\ forall i, 0 <= i < 2 ^ k -> leaf g k (min_arr l) j <= leaf g k (min_arr l) i.

(** [promote] on a free lock. *)
Lemma promote_free_spec l i s :
  jj_ok l -> value g (cs_status_w l) = compose_cs_status false s ->
  exists b peer l', jj_promote g l i false = (b, peer, l') /\ min_arr l' = min_arr l /\ seq_w l' = seq_w l /\
    ((forall j, 0 <= j < 2 ^ k -> ~ waiting l j) -> b = false /\ value g (cs_status_w l') = compose_cs_status false s) /\
    ((exists j, 0 <= j < 2 ^ k /\ waiting l j) ->
       exists j, oldest l j /\ b = true /\ peer = Some j /\ forall i, owned (jstatus g l') i = (j =? i)).
Proof using Hk.
  intros J Hv. destruct (read_ok_l l J) as (l1 & E1 & E2 & J1 & E3 & _ & E4). unfold jj_promote. rewrite E1.
  assert (truthy (cs_b (jstatus g l)) = false) as ->.
  { pose proof (free_not_owned s (cs_s (jstatus g l))) as F. unfold jstatus in *. rewrite Hv in *. unfold owned in F.
    by rewrite Z.eqb_refl, andb_true_r in F. }
  destruct (root_state l1 J1) as (j & t & Hj & Ht & Ej & Ec & Ep & Hleast). unfold choose_peer. rewrite Ec, Ep. rewrite E3 in *.
  destruct (state_parts t j Ht (proc_of j Hj)) as [P1 P2]. cbn [negb]. rewrite andb_true_r.
  destruct (Z.eqb_spec t COUNTER_INF) as [Hinf|Hfin].
  - eexists _, _, l1. split; [done|]. split; [done|]. split; [done|]. split.
    + intros _. split; [done|]. congruence.
    + intros (i' & Hi' & Hwait). exfalso. destruct (jo_states _ J i' Hi') as (t' & Ht' & Ei'). apply Hwait. rewrite Ei'.
      destruct (state_parts t' i' Ht' (proc_of i' Hi')) as [-> _]. specialize (Hleast i' Hi'). rewrite Ei' in Hleast.
      rewrite !process_state_sum in Hleast by (done || by apply proc_of). pose proof (proc_of i' Hi') as X. unfold is_proc, is_token in *. lia.
  - assert (Hw : waiting l j) by (unfold waiting; by rewrite Ej, P1).
    assert (Hx : value g (cs_status_w l1) = compose_cs_status false (cs_s (jstatus g l))) by (unfold jstatus; rewrite Hv, free_again; congruence).
    pose proof (free_word_ok (cs_s (jstatus g l))) as F1. pose proof (taken_word_ok j (proc_of j Hj)) as F2.
    pose proof (cas_answer _ _ _ (jo_cs _ J1) F1 F2) as Hb. destruct (reg_cas g _ _ _ (jo_cs _ J1) F1 F2) as (b & w & e & E & V & _).
    rewrite E in *. cbn [fst] in Hb. rewrite Hx, Z.eqb_refl in *. subst b. eexists _, _, _. split; [done|]. split; [done|]. split; [done|]. split.
    + intros Hn. by destruct (Hn j Hj).
    + intros _. exists j. split; [split; [done|split; [done|]]|]; [intros i' Hi'; rewrite Ej; by apply Hleast|].
      split; [done|]. split; [done|]. intros i'. unfold jstatus. cbn [set_cs cs_status_w]. rewrite V. apply taken_owned. by apply proc_of.
Qed.

Lemma default_eq j : 0 <= j < 2 ^ k -> default_process_state j = compose_process_state COUNTER_INF j.
Proof using Hk. intros Hj. apply default_is_inf. by apply proc_of. Qed.

Lemma inf_token : is_token COUNTER_INF.
Proof using. unfold is_token. rewrite counter_inf. lia. Qed.

(** The lock after [exit] has deregistered the caller, before it promotes. *)
Lemma exit_spec l h :
  jj_ok l -> 0 <= h < 2 ^ k -> value g (seq_w l) + 1 < 2 ^ 62 ->
  exists l1, jj_exit g k l h = Some (jj_promote g l1 h false) /\ jj_ok l1 /\
    value g (cs_status_w l1) = compose_cs_status false (value g (seq_w l) + 1) /\ value g (seq_w l1) = value g (seq_w l) + 1 /\
    ~ waiting l1 h /\ forall i, 0 <= i < 2 ^ k -> i <> h -> leaf g k (min_arr l1) i = leaf g k (min_arr l) i.
Proof using Hk.
  intros J Hh Hs. unfold jj_exit. rewrite default_eq by done.
  destruct (update_arr_spec l h COUNTER_INF J Hh inf_token) as (a & -> & [J1 J2 J3 J4 J5 J6] & L1 & L2).
  destruct (reg_read g _ J3) as (w & -> & _ & _). cbn [set_arr seq_w] in *.
  assert (0 <= value g (seq_w l)) by (destruct J as [_ _ [_ [? _]] _ _ _]; done). rewrite u64_small by lia.
  destruct (reg_write g w (value g (seq_w l) + 1)) as [W1 O1]; [unfold value_ok; lia|].
  match goal with |- context [persist_atomic_write_uint64 g (cs_status_w ?x) ?v] => destruct (reg_write g (cs_status_w x) v (free_word_ok _)) as [W2 O2] end.
  eexists. split; [done|]. split; [by constructor|]. split; [done|]. split; [done|]. split; [|done].
  unfold waiting. cbn [set_cs set_seqno set_arr min_arr]. rewrite L1. destruct (state_parts COUNTER_INF h inf_token (proc_of h Hh)) as [-> _]. auto.
Qed.

Lemma unlock_spec l h :
  jj_ok l -> 0 <= h < 2 ^ k -> value g (seq_w l) + 1 < 2 ^ 62 ->
  exists l', jj_spin_unlock g k l h = Some l' /\ value g (seq_w l') = value g (seq_w l) + 1 /\ ~ waiting l' h /\
    (forall i, 0 <= i < 2 ^ k -> i <> h -> leaf g k (min_arr l') i = leaf g k (min_arr l) i) /\
    ((forall j, 0 <= j < 2 ^ k -> j <> h -> ~ waiting l j) ->
       value g (cs_status_w l') = compose_cs_status false (value g (seq_w l) + 1)) /\
    ((exists j, 0 <= j < 2 ^ k /\ j <> h /\ waiting l j) -> exists j, oldest l' j /\ forall i, owned (jstatus g l') i = (j =? i)).
Proof using Hk.
  intros J Hh Hs. destruct (exit_spec l h J Hh Hs) as (l1 & E & J1 & V1 & Q1 & N1 & L1).
  destruct (promote_free_spec l1 h _ J1 V1) as (b & peer & l' & Ep & A & Q & F1 & F2).
  assert (Hw : forall j, 0 <= j < 2 ^ k -> j <> h -> waiting l1 j <-> waiting l j) by (intros j Hj Hne; unfold waiting; by rewrite L1).
  exists l'. unfold jj_spin_unlock. rewrite E, Ep. unfold waiting. rewrite A, Q. split_and!; [done|done|done|done| |].
  - intros Hn. apply F1. intros j Hj Hwait. destruct (Z.eq_dec j h) as [->|Hne]; [done|]. exact (Hn j Hj Hne (proj1 (Hw j Hj Hne) Hwait)).
  - intros (j & Hj & Hne & Hwait). destruct F2 as (j' & Ho & _ & _ & Hown); [exists j; split; [done|exact (proj2 (Hw j Hj Hne) Hwait)]|].
    exists j'. split; [|done]. unfold oldest, waiting in *. by rewrite A.
Qed.

(** [tryenter] while another process has the lock. *)
Lemma tryenter_fails l i :
  jj_ok l -> 0 <= i < 2 ^ k -> truthy (cs_b (jstatus g l)) = true -> owned (jstatus g l) i = false -> value g (token_w l) < COUNTER_INF ->
  exists l1, jj_tryenter g k l i = Some (false, l1) /\ jj_ok l1 /\ jstatus g l1 = jstatus g l /\ seq_w l1 = seq_w l /\ waiting l1 i /\
    forall j, 0 <= j < 2 ^ k -> j <> i -> leaf g k (min_arr l1) j = leaf g k (min_arr l) j.
Proof using Hk.
  intros J Hi Hb Ho Ht. unfold jj_tryenter. destruct (read_ok_l l J) as (l1 & -> & V1 & J1 & A1 & T1 & Q1). rewrite Ho, T1.
  destruct (reg_read g _ (jo_token _ J)) as (w & -> & E2 & E3). set (tok := value g (token_w l)) in *.
  assert (Htok : is_token tok) by (destruct (jo_token _ J) as [_ [? _]]; split; [done|lia]). assert (Hlt := proj1 Htok). rewrite counter_inf in Ht.
  rewrite u64_small by lia. destruct (reg_cas g w tok (tok + 1) E3) as (b & w' & e & -> & _ & O'); [unfold value_ok; lia|unfold value_ok; lia|].
  assert (J2 : jj_ok (set_token l1 w')) by (destruct J1; by constructor).
  destruct (update_arr_spec (set_token l1 w') i tok J2 Hi Htok) as (a & -> & J3 & L1 & L2). cbn [set_token min_arr] in L2. rewrite A1 in L2.
  set (l3 := set_arr (set_token l1 w') a) in *. destruct (read_ok_l l3 J3) as (l4 & E4 & V4 & J4 & A4 & _ & Q4).
  assert (S3 : jstatus g l3 = jstatus g l) by (unfold jstatus; cbn [l3 set_arr set_token cs_status_w]; by rewrite V1).
  assert (S4 : jstatus g l4 = jstatus g l) by (rewrite <-S3; unfold jstatus; by rewrite V4).
  unfold jj_promote. rewrite E4, S3, Hb. destruct (read_ok_l l4 J4) as (l5 & -> & V5 & J5 & A5 & _ & Q5). rewrite S4, Ho.
  exists l5. split; [done|]. split; [done|]. split; [rewrite <-S4; unfold jstatus; by rewrite V5|].
  split; [rewrite Q5, Q4; exact Q1|]. unfold waiting. rewrite A5, A4. cbn [l3 set_arr min_arr]. split; [|done].
  rewrite L1. destruct (state_parts tok i Htok (proc_of i Hi)) as [-> _]. rewrite counter_inf. lia.
Qed.
End Sequential.

(** Unlocking serves the processes in the order of their tokens: [unlock] always
    returns; it withdraws the caller's request and no other, advances the sequence
    number, and leaves the lock free when nobody else waits; otherwise the lock then
    belongs to the waiting process with the smallest token, the smallest number among
    equal tokens. *)
Theorem jj_unlock_grants_oldest (g : granularity) (k h : Z) (l : jj_lock) :
  0 <= k <= 15 -> jj_ok g k l -> 0 <= h < 2 ^ k -> value g (seq_w l) + 1 < 2 ^ 62 ->
  exists l', jj_spin_unlock g k l h = Some l' /\ value g (seq_w l') = value g (seq_w l) + 1 /\ ~ waiting g k l' h /\
    (forall i, 0 <= i < 2 ^ k -> i <> h -> leaf g k (min_arr l') i = leaf g k (min_arr l) i) /\
    ((forall j, 0 <= j < 2 ^ k -> j <> h -> ~ waiting g k l j) ->
       value g (cs_status_w l') = compose_cs_status false (value g (seq_w l) + 1)) /\
    ((exists j, 0 <= j < 2 ^ k /\ j <> h /\ waiting g k l j) ->
       exists j, oldest g k l' j /\ forall i, owned (jstatus g l') i = (j =? i)).
Proof. intros Hk. by apply unlock_spec. Qed.

(** A failed [trylock] leaves its request behind: while [h] has the lock a [trylock] of
    [i] returns false, the request stays in the array, and when nobody else waits the
    next [unlock] gives the lock to [i], which is not waiting for it. *)
Theorem jj_trylock_leaves_request (g : granularity) (k h i : Z) (l : jj_lock) :
  0 <= k <= 15 -> jj_ok g k l -> 0 <= h < 2 ^ k -> 0 <= i < 2 ^ k -> i <> h ->
  owned (jstatus g l) h = true -> value g (token_w l) < COUNTER_INF -> value g (seq_w l) + 1 < 2 ^ 62 ->
  (forall j, 0 <= j < 2 ^ k -> j <> h -> ~ waiting g k l j) ->
  exists l1 l2, jj_spin_trylock g k l i = Some (false, l1) /\ waiting g k l1 i /\
    jj_spin_unlock g k l1 h = Some l2 /\ owned (jstatus g l2) i = true.
Proof.
  intros Hk J Hh Hi Hne Ho Ht Hs Hn. assert (No : owned (jstatus g l) i = false).
  { destruct (owned (jstatus g l) i) eqn:X; [|done]. destruct Hne. by eapply owned_inj. }
  assert (Hb : truthy (cs_b (jstatus g l)) = true) by (unfold owned in Ho; by apply andb_true_iff in Ho as [? _]).
  unfold jj_spin_trylock, jj_recover. destruct (read_ok_l g k l J) as (l0 & -> & V0 & J0 & A0 & T0 & Q0). rewrite No.
  assert (S0 : jstatus g l0 = jstatus g l) by (unfold jstatus; by rewrite V0).
  destruct (tryenter_fails g k Hk l0 i J0 Hi) as (l1 & E1 & J1 & S1 & Q1 & W1 & L1); [by rewrite S0|by rewrite S0|by rewrite T0|].
  destruct (unlock_spec g k Hk l1 h J1 Hh) as (l2 & E2 & _ & N2 & L2 & _ & F2); [by rewrite Q1, Q0|].
  destruct F2 as (j & (Hj & Hw & _) & Hown); [by exists i|]. exists l1, l2. split; [done|]. split; [done|]. split; [done|].
  rewrite Hown. apply Z.eqb_eq. destruct (Z.eq_dec j i) as [|Hji]; [done|exfalso].
  destruct (Z.eq_dec j h) as [->|Hjh]; [done|]. apply (Hn j Hj Hjh). unfold waiting in *. rewrite L2, L1, A0 in Hw by done. done.
Qed.

(** A lock of two processes that 0 holds. *)
Definition example_held : jj_lock :=
  JjLock (compose_cs_status true 0) 2 1 (fun n => if n =? 2 then default_process_state 1 else compose_process_state 1 0).

Lemma example_held_ok : jj_ok DRAM 1 example_held.
Proof.
  constructor; [by vm_compute|by vm_compute|by vm_compute| | |].
  - intros n _. cbn [example_held min_arr]. destruct (n =? 2); by vm_compute.
  - intros p Hp. assert (p = 1) as -> by (cbn in Hp; lia). unfold min_of_children. by vm_compute.
  - intros j Hj. assert (j = 0 \/ j = 1) as [-> | ->] by (cbn in Hj; lia).
    + exists 1. split; [unfold is_token; rewrite counter_inf; lia|by vm_compute].
    + exists COUNTER_INF. split; [apply inf_token|by vm_compute].
Qed.

Lemma jj_unlock_grants_oldest_witness :
  exists l', jj_spin_unlock DRAM 1 example_held 0 = Some l' /\
    value DRAM (seq_w l') = value DRAM (seq_w example_held) + 1 /\ ~ waiting DRAM 1 l' 0 /\
    (forall i, 0 <= i < 2 ^ 1 -> i <> 0 -> leaf DRAM 1 (min_arr l') i = leaf DRAM 1 (min_arr example_held) i) /\
    ((forall j, 0 <= j < 2 ^ 1 -> j <> 0 -> ~ waiting DRAM 1 example_held j) ->
       value DRAM (cs_status_w l') = compose_cs_status false (value DRAM (seq_w example_held) + 1)) /\
    ((exists j, 0 <= j < 2 ^ 1 /\ j <> 0 /\ waiting DRAM 1 example_held j) ->
       exists j, oldest DRAM 1 l' j /\ forall i, owned (jstatus DRAM l') i = (j =? i)).
Proof. apply (jj_unlock_grants_oldest DRAM 1 0 example_held); [lia|apply example_held_ok|lia|by vm_compute]. Defined.

Lemma jj_trylock_leaves_request_witness :
  exists l1 l2, jj_spin_trylock DRAM 1 example_held 1 = Some (false, l1) /\ waiting DRAM 1 l1 1 /\
    jj_spin_unlock DRAM 1 l1 0 = Some l2 /\ owned (jstatus DRAM l2) 1 = true.
Proof.
  apply (jj_trylock_leaves_request DRAM 1 0 1 example_held); [lia|apply example_held_ok|lia|lia|lia|by vm_compute|by vm_compute|by vm_compute|].
  intros j Hj Hne. assert (j = 1) as -> by (cbn in Hj; lia). unfold waiting. vm_compute. auto.
Defined.
