(* ===== verification/Ivshmem.v ===== *)
(** The server that gives virtual machines the shared memory and each other's
    doorbells, and its client: src/ivshmem/ivshmem-host/src (server.rs, client.rs,
    cmsg.rs, event_notifier.rs).

    The messages of a Unix socket, the file descriptors and the events that the
    operating system delivers are arguments. *)
From Stdlib Require Import ZArith Lia Bool.
From stdpp Require Import base list numbers.
From S2P Require Import Prelude.
Local Open Scope Z_scope.

Definition IVSHMEM_PROTOCOL_VERSION : Z := 0.

(** ** Messages *)

(** A message: the number of a peer, and a file descriptor. *)
Definition msg : Type := option Z * option Z.

Definition to_le_bytes (x : Z) : list Z := map (fun i => (x / 2 ^ (8 * i)) mod 2 ^ 8) [0; 1; 2; 3; 4; 5; 6; 7].
Definition from_le_bytes (b : list Z) : Z := s64 (foldr (fun x acc => x + 2 ^ 8 * acc) 0 b).

(** What [send] hands to [sendmsg]: the bytes, and the descriptor of the control message. *)
Definition send (m : msg) : list Z * option Z :=
  (to_le_bytes (match fst m with Some peer_id => peer_id | None => -1 end), snd m).

(** [recv] after [recvmsg] returned [ret]; [None] is an error. *)
Definition recv (ret : Z) (buffer : list Z) (fd : option Z) : option msg :=
  if u64 ret <? 8 then None
  else if ret =? 0 then None
  else
    let id := from_le_bytes buffer in
    if id =? -1 then Some (None, fd)
    else if (0 <=? id) && (id <? 2 ^ 16) then Some (Some id, fd)
    else None.

(** ** Event notifiers *)

Inductive EventNotifier := Event (fd : Z) | Pipe (read write : Z).
Definition rfd (e : EventNotifier) : Z := match e with Event fd => fd | Pipe r _ => r end.
Definition wfd (e : EventNotifier) : Z := match e with Event fd => fd | Pipe _ w => w end.

(** ** The server *)

(** A call returns, returns an error, which ends the server, or panics. *)
Inductive answer (A : Type) := Done (a : A) | Failed | Panicked.
#[global] Arguments Done {A} a.
#[global] Arguments Failed {A}.
#[global] Arguments Panicked {A}.

Definition abind {A B} (x : answer A) (f : A -> answer B) : answer B :=
  match x with Done a => f a | Failed => Failed | Panicked => Panicked end.

(** A slot per virtual machine: the vectors of the connected peer. *)
Record Server := MkServer { memory : Z; peers : list (option (list EventNotifier)); vector_count : nat; vm_offset : bool }.

(** The messages sent, in order, each with the slot of the receiver. *)
Definition sent : Type := list (nat * msg).

Definition set_peer (s : Server) (index : nat) (p : option (list EventNotifier)) : Server :=
  MkServer (memory s) (<[index := p]> (peers s)) (vector_count s) (vm_offset s).

Definition server_new (fd : Z) (vector_count vm_count : nat) (vm_offset : bool) : Server :=
  MkServer fd (repeat None vm_count) vector_count vm_offset.

Definition offset (s : Server) : Z := if vm_offset s then 1 else 0.
Definition id_of (s : Server) (index : nat) : Z := u16 (u16 (Z.of_nat index) + offset s).

(** [Server::peers]: the connected peers with their numbers, and their slots. *)
Definition connected (s : Server) : list (nat * list EventNotifier) :=
  omap (fun '(i, p) => match p with Some v => Some (i, v) | None => None end) (imap pair (peers s)).
Definition other_id (i : nat) : Z := u16 (Z.of_nat i).

Section Server.
(** Whether a message can be sent to the peer of a slot. *)
Context (can_send : nat -> bool).

Fixpoint send_all (ms : sent) : answer unit :=
  match ms with
  | [] => Done ()
  | (i, _) :: rest => if can_send i then send_all rest else Failed
  end.

Definition hello (s : Server) (index : nat) : sent :=
  [(index, (Some IVSHMEM_PROTOCOL_VERSION, None)); (index, (Some (id_of s index), None)); (index, (None, Some (memory s)))].
Definition advertise_new (s : Server) (index : nat) (vectors : list EventNotifier) : sent :=
  flat_map (fun '(i, _) => map (fun v => (i, (Some (id_of s index), Some (wfd v)))) vectors) (connected s).
(** [other.vectors[i]] panics past the end. *)
Definition advertise_other (index : nat) (count : nat) (i : nat) (other : list EventNotifier) : answer sent :=
  if (length other <? count)%nat then Panicked
  else Done (map (fun v => (index, (Some (other_id i), Some (wfd v)))) (take count other)).
Fixpoint advertise_others (index : nat) (count : nat) (l : list (nat * list EventNotifier)) : answer sent :=
  match l with
  | [] => Done []
  | (i, other) :: rest =>
      abind (advertise_other index count i other) (fun a => abind (advertise_others index count rest) (fun b => Done (a ++ b)))
  end.
Definition advertise_self (s : Server) (index : nat) (vectors : list EventNotifier) : sent :=
  map (fun v => (index, (Some (id_of s index), Some (rfd v)))) vectors.

(** [vectors]: the event notifiers that were created; [None] when the connection was not
    accepted or one could not be created.  [registry_ok]: whether the poll registry
    takes the socket, or lets go of it. *)
Definition handle_new_conn (s : Server) (index : nat) (vectors : option (list EventNotifier)) (registry_ok : bool)
  : answer (Server * sent) :=
  match peers s !! index with
  | None => Panicked
  | Some old =>
      match vectors with
      | None => Failed
      | Some vectors =>
          abind (send_all (hello s index)) (fun _ =>
          abind (send_all (advertise_new s index vectors)) (fun _ =>
          abind (advertise_others index (length vectors) (connected s)) (fun others =>
          abind (send_all (others ++ advertise_self s index vectors)) (fun _ =>
          if negb registry_ok then Failed
          else
          match old with
          | None => Done (set_peer s index (Some vectors),
                          hello s index ++ advertise_new s index vectors ++ others ++ advertise_self s index vectors)
          | Some _ => Panicked
          end))))
      end
  end.

(** The branch of [poll_events] for a peer that closed its connection. *)
Definition handle_close (s : Server) (index : nat) (read_closed write_closed registry_ok : bool) : answer (Server * sent) :=
  if negb read_closed || negb write_closed then Panicked
  else
    match peers s !! index with
    | Some (Some _) =>
        let id := id_of s index in
        let s := set_peer s index None in
        if negb registry_ok then Failed
        else
        let deletions := map (fun '(i, _) => (i, (Some id, None))) (connected s) in
        abind (send_all deletions) (fun _ => Done (s, deletions))
    | _ => Panicked
    end.

(** One event of [poll_events]: a token below the number of slots is a listener. *)
Definition poll_event (s : Server) (token : nat) (read_closed write_closed registry_ok : bool) (vectors : option (list EventNotifier))
  : answer (Server * sent) :=
  if (token <? length (peers s))%nat then handle_new_conn s token vectors registry_ok
  else handle_close s (token - length (peers s)) read_closed write_closed registry_ok.
End Server.

(** ** The client *)

Record Peer := MkPeer { peer_id : Z; vectors : list Z }.
Record Client := MkClient { peer_list : list Peer; local : Peer }.

(** The three messages of the handshake, and the rest. *)
Definition client_new (ms : list msg) : option (Client * list msg) :=
  match ms with
  | (Some protocol, None) :: (Some id, None) :: (None, Some shm_fd) :: rest =>
      if protocol =? IVSHMEM_PROTOCOL_VERSION then Some (MkClient [] (MkPeer id []), rest) else None
  | _ => None
  end.

Definition push_vector (fd : Z) (p : Peer) : Peer := MkPeer (peer_id p) (vectors p ++ [fd]).

(** The position of a peer in the list. *)
Fixpoint position (id : Z) (l : list Peer) : option nat :=
  match l with
  | [] => None
  | p :: l => if peer_id p =? id then Some O else option_map S (position id l)
  end.

Definition handle_server_msg (c : Client) (m : msg) : option Client :=
  match fst m with
  | None => None
  | Some id =>
      let peer_index := position id (peer_list c) in
      match snd m, peer_index with
      | Some fd, Some index => Some (MkClient (alter (push_vector fd) index (peer_list c)) (local c))
      | Some fd, None =>
          if id =? peer_id (local c) then Some (MkClient (peer_list c) (push_vector fd (local c)))
          else Some (MkClient (peer_list c ++ [MkPeer id [fd]]) (local c))
      | None, None => None
      | None, Some index => Some (MkClient (delete index (peer_list c)) (local c))
      end
  end.

(** The messages that follow the handshake, one after the other. *)
Fixpoint handle_msgs (c : Client) (ms : list msg) : option Client :=
  match ms with
  | [] => Some c
  | m :: rest => match handle_server_msg c m with None => None | Some c => handle_msgs c rest end
  end.

Definition run_client (ms : list msg) : option Client :=
  match client_new ms with None => None | Some (c, rest) => handle_msgs c rest end.

(** [notify]: the descriptor that is written, [None] for an invalid vector;
    [can_write] tells whether the eight bytes are taken. *)
Definition notify (can_write : Z -> bool) (p : Peer) (vector : Z) : option Z :=
  if vector >=? Z.of_nat (length (vectors p)) then None
  else
    match vectors p !! Z.to_nat vector with
    | Some fd => if can_write fd then Some fd else None
    | None => None
    end.

Fixpoint notify_from (can_write : Z -> bool) (p : Peer) (n : nat) (vector : nat) : option (list Z) :=
  match n with
  | O => Some []
  | S n =>
      match notify can_write p (u16 (Z.of_nat vector)) with
      | None => None
      | Some fd => match notify_from can_write p n (S vector) with None => None | Some l => Some (fd :: l) end
      end
  end.
Definition notify_all_vects (can_write : Z -> bool) (p : Peer) : option (list Z) := notify_from can_write p (length (vectors p)) 0.

Fixpoint notify_peers (can_write : Z -> bool) (l : list Peer) : option (list Z) :=
  match l with
  | [] => Some []
  | p :: l =>
      match notify_all_vects can_write p with
      | None => None
      | Some a => match notify_peers can_write l with None => None | Some b => Some (a ++ b) end
      end
  end.
Definition notify_broadcast (can_write : Z -> bool) (c : Client) : option (list Z) := notify_peers can_write (peer_list c).

(** ** Messages round-trip *)

Lemma le_bytes_roundtrip x : - 2 ^ 63 <= x < 2 ^ 63 -> from_le_bytes (to_le_bytes x) = x.
Proof.
  intros Hx. unfold from_le_bytes, to_le_bytes. cbn [map foldr].
  assert (E : forall n m, 0 <= n -> m = n + 8 -> x / 2 ^ n = (x / 2 ^ n) mod 2 ^ 8 + 2 ^ 8 * (x / 2 ^ m)).
  { intros n m Hn ->. rewrite Z.pow_add_r, <-Z.div_div by (try apply Z.pow_pos_nonneg; lia). pose proof (Z.div_mod (x / 2 ^ n) (2 ^ 8)). lia. }
  match goal with |- s64 ?y = x => assert (Ey : y = x - 2 ^ 64 * (x / 2 ^ 64)); [|rewrite Ey; clear Ey E] end.
  { pose proof (E 0 8) as E0. pose proof (E 8 16). pose proof (E 16 24). pose proof (E 24 32). pose proof (E 32 40).
    pose proof (E 40 48). pose proof (E 48 56). pose proof (E 56 64). clear E. rewrite Z.pow_0_r, Z.div_1_r in E0.
    change (8 * 0) with 0. change (8 * 1) with 8. change (8 * 2) with 16. change (8 * 3) with 24. change (8 * 4) with 32.
    change (8 * 5) with 40. change (8 * 6) with 48. change (8 * 7) with 56. rewrite Z.pow_0_r, Z.div_1_r. lia. }
  unfold s64, u64. rewrite Z.mul_comm, <-Z.add_opp_r, <-Z.mul_opp_l, Z.mod_add by lia.
  destruct (Z.lt_ge_cases x 0).
  - rewrite <-(Z.mod_add x 1), Z.mod_small by lia. destruct (Z.ltb_spec (x + 1 * 2 ^ 64) (2 ^ 63)); lia.
  - rewrite Z.mod_small by lia. destruct (Z.ltb_spec x (2 ^ 63)); lia.
Qed.

(** A message arrives as it was sent: with a peer number or without, with a
    descriptor or without. *)
Theorem message_roundtrip (m : msg) :
  (forall id, fst m = Some id -> 0 <= id < 2 ^ 16) -> recv 8 (fst (send m)) (snd (send m)) = Some m.
Proof.
  intros Hid. destruct m as [[id|] fd]; unfold recv, send; cbn [fst snd] in *; change (u64 8 <? 8) with false; cbn [Z.eqb].
  - specialize (Hid id eq_refl). rewrite le_bytes_roundtrip by lia. destruct (Z.eqb_spec id (-1)); [lia|].
    destruct (Z.leb_spec 0 id), (Z.ltb_spec id (2 ^ 16)); done || lia.
  - done.
Qed.

Lemma message_roundtrip_witness : recv 8 (fst (send (Some 41, Some 7))) (snd (send (Some 41, Some 7))) = Some (Some 41, Some 7).
Proof. apply (message_roundtrip (Some 41, Some 7)). intros id H. injection H as <-. lia. Defined.

(** ** The connected peers *)

Lemma elem_of_connected s i v : (i, v) ∈ connected s <-> peers s !! i = Some (Some v).
Proof.
  unfold connected. rewrite list_elem_of_omap. split.
  - intros ([j p] & Hj & E). apply elem_of_lookup_imap in Hj as (k & q & [= <- <-] & Hl). destruct p; [|done]. by injection E as <- <-.
  - intros Hl. exists (i, Some v). split; [|done]. apply elem_of_lookup_imap. by exists i, (Some v).
Qed.

Lemma connected_nodup s : NoDup (connected s).*1.
Proof.
  unfold connected. generalize (peers s). intros l.
  assert (H : forall n, NoDup (omap (fun '(i, p) => match p with Some v => Some (i, v) | None => None end) (imap (fun i (p : option (list EventNotifier)) => ((n + i)%nat, p)) l)).*1
     /\ forall i v, (i, v) ∈ omap (fun '(i, p) => match p with Some v => Some (i, v) | None => None end) (imap (fun i (p : option (list EventNotifier)) => ((n + i)%nat, p)) l) -> (n <= i)%nat).
  { induction l as [|p l IH]; intros n; [split; [constructor|intros i v []%not_elem_of_nil]|].
    rewrite imap_cons. rewrite (imap_ext _ (fun i p => ((S n + i)%nat, p))) by (intros; cbn; f_equal; lia).
    destruct (IH (S n)) as [H1 H2]. destruct p as [v|]; cbn [omap list_omap]; rewrite ?Nat.add_0_r.
    - split.
      + cbn. apply list.NoDup_cons. split; [|done]. intros Hin. apply list_elem_of_fmap in Hin as ([i w] & E & Hin). cbn in E. subst. apply H2 in Hin. lia.
      + intros i w Hin. apply list.elem_of_cons in Hin as [[= -> ->]|Hin]; [lia|]. apply H2 in Hin. lia.
    - split; [done|]. intros i w Hin. apply H2 in Hin. lia. }
  apply (H O).
Qed.

(** ** What one client receives *)

Definition inbox (i : nat) (ms : list (nat * msg)) : list msg := map snd (filter (fun m : nat * msg => m.1 = i) ms).

Lemma inbox_app i (a b : list (nat * msg)) : inbox i (a ++ b) = inbox i a ++ inbox i b.
Proof. unfold inbox. by rewrite list.filter_app, map_app. Qed.

Lemma inbox_same {A} i (f : A -> msg) l : inbox i (map (fun x => (i, f x)) l) = map f l.
Proof. unfold inbox. induction l as [|x l IH]; [done|]. cbn [map]. rewrite filter_cons_True by done. cbn [map snd]. by rewrite IH. Qed.

Lemma inbox_other {A} i j (f : A -> msg) l : i <> j -> inbox i (map (fun x => (j, f x)) l) = [].
Proof. intros Hne. unfold inbox. induction l as [|x l IH]; [done|]. cbn [map]. by rewrite filter_cons_False. Qed.

Definition adverts (id : Z) (fds : list Z) : list msg := map (fun fd => (Some id, Some fd)) fds.

(** A broadcast to the peers of a list reaches each of them once. *)
Lemma inbox_broadcast {B} i (ms : list msg) (l : list (nat * B)) :
  NoDup l.*1 -> inbox i (flat_map (fun '(j, _) => map (fun m => (j, m)) ms) l) = if decide (i ∈ l.*1) then ms else [].
Proof.
  induction l as [|[j v] l IH]; intros Hn; [done|]. cbn [flat_map fmap list_fmap fst] in *. apply list.NoDup_cons in Hn as [Hj Hn].
  rewrite inbox_app, IH by done. destruct (decide (i = j)) as [->|Hne].
  - rewrite inbox_same, map_id. rewrite (decide_False (P := j ∈ l.*1)) by done. rewrite decide_True by (by left). apply app_nil_r.
  - rewrite inbox_other by done. cbn [app]. destruct (decide (i ∈ l.*1)) as [Hi|Hi].
    + rewrite decide_True by (by right). done.
    + rewrite decide_False; [done|]. intros [|]%list.elem_of_cons; done.
Qed.

(** ** What a client makes of it *)

Lemma position_none id l : id ∉ map peer_id l -> position id l = None.
Proof.
  induction l as [|p l IH]; intros H; [done|]. cbn [position map] in *. apply not_elem_of_cons in H as [H1 H2].
  destruct (Z.eqb_spec (peer_id p) id); [congruence|]. by rewrite IH.
Qed.

Lemma position_at id l1 p l2 : id ∉ map peer_id l1 -> peer_id p = id -> position id (l1 ++ p :: l2) = Some (length l1).
Proof.
  intros H E. induction l1 as [|q l IH]; cbn [position app map length] in *; [by rewrite E, Z.eqb_refl|].
  apply not_elem_of_cons in H as [H1 H2]. destruct (Z.eqb_spec (peer_id q) id); [congruence|]. by rewrite IH.
Qed.

Lemma handle_msgs_app c a b : handle_msgs c (a ++ b) = match handle_msgs c a with None => None | Some c => handle_msgs c b end.
Proof. revert c. induction a as [|m a IH]; intros c; cbn [handle_msgs app]; [done|]. destruct (handle_server_msg c m); [apply IH|done]. Qed.

Lemma more_vectors l id fds more loc :
  id ∉ map peer_id l -> handle_msgs (MkClient (l ++ [MkPeer id fds]) loc) (adverts id more) = Some (MkClient (l ++ [MkPeer id (fds ++ more)]) loc).
Proof.
  intros H. revert fds. induction more as [|fd more IH]; intros fds; [by rewrite app_nil_r|].
  cbn [adverts map handle_msgs]. unfold handle_server_msg. cbn [fst snd peer_list local]. rewrite (position_at id l _ []) by done.
  replace (length l) with (length l + 0)%nat by lia. rewrite alter_app_r. cbn [alter list_alter]. unfold push_vector. cbn [peer_id vectors].
  rewrite IH, <-app_assoc. done.
Qed.

(** A new peer is added with all its vectors. *)
Lemma new_peer l id fds loc :
  id ∉ map peer_id l -> id <> peer_id loc -> fds <> [] ->
  handle_msgs (MkClient l loc) (adverts id fds) = Some (MkClient (l ++ [MkPeer id fds]) loc).
Proof.
  intros H Hne Hf. destruct fds as [|fd fds]; [done|]. cbn [adverts map handle_msgs]. unfold handle_server_msg. cbn [fst snd peer_list local].
  rewrite position_none by done. destruct (Z.eqb_spec id (peer_id loc)); [done|]. by apply (more_vectors l id [fd]).
Qed.

Lemma own_vectors l loc fds : peer_id loc ∉ map peer_id l ->
  handle_msgs (MkClient l loc) (adverts (peer_id loc) fds) = Some (MkClient l (MkPeer (peer_id loc) (vectors loc ++ fds))).
Proof.
  intros H. revert loc H. induction fds as [|fd fds IH]; intros loc H; [destruct loc; cbn; by rewrite app_nil_r|].
  cbn [adverts map handle_msgs]. unfold handle_server_msg. cbn [fst snd peer_list local]. rewrite position_none, Z.eqb_refl by done.
  change (peer_id loc) with (peer_id (push_vector fd loc)) at 1. fold (adverts (peer_id (push_vector fd loc)) fds). rewrite IH by done.
  cbn [push_vector peer_id vectors]. by rewrite <-app_assoc.
Qed.

(** ** The server and all its clients *)

(** The server, and what each connected client has received since it connected. *)
Record net := Net { srv : Server; boxes : nat -> list msg }.

Definition slot_of (s : Server) (token : nat) : nat :=
  if (token <? length (peers s))%nat then token else (token - length (peers s))%nat.

Inductive net_step : net -> net -> Prop :=
| net_event can_send token rc wc ok vs n s' ms :
    (forall v, vs = Some v -> length v = vector_count (srv n)) ->
    poll_event can_send (srv n) token rc wc ok vs = Done (s', ms) ->
    net_step n (Net s' (fun i => (if decide (i = slot_of (srv n) token) then [] else boxes n i) ++ inbox i ms)).

Inductive net_reachable (fd : Z) (vector_count vm_count : nat) (vm_offset : bool) : net -> Prop :=
| net_init : net_reachable fd vector_count vm_count vm_offset (Net (server_new fd vector_count vm_count vm_offset) (fun _ => []))
| net_next n n' : net_reachable fd vector_count vm_count vm_offset n -> net_step n n' -> net_reachable fd vector_count vm_count vm_offset n'.

(** What others know of a peer, and what it knows of itself. *)
Definition seen (i : nat) (v : list EventNotifier) : Peer := MkPeer (Z.of_nat i) (map wfd v).
Definition self (i : nat) (v : list EventNotifier) : Peer := MkPeer (Z.of_nat i) (map rfd v).

(** The client of the slot [i] knows itself and exactly the other connected peers. *)
Definition view_ok (s : Server) (i : nat) (v : list EventNotifier) (c : Client) : Prop :=
  local c = self i v /\ NoDup (map peer_id (peer_list c)) /\
  forall p, p ∈ peer_list c <-> exists j w, j <> i /\ peers s !! j = Some (Some w) /\ p = seen j w.

Record net_ok (n : net) : Prop := {
  no_offset : vm_offset (srv n) = false;
  no_slots : Z.of_nat (length (peers (srv n))) <= 2 ^ 16;
  no_vectors : (0 < vector_count (srv n))%nat;
  no_counts i v : peers (srv n) !! i = Some (Some v) -> length v = vector_count (srv n);
  no_views i v : peers (srv n) !! i = Some (Some v) -> exists c, run_client (boxes n i) = Some c /\ view_ok (srv n) i v c }.

Lemma ids s i : vm_offset s = false -> Z.of_nat (length (peers s)) <= 2 ^ 16 -> (i < length (peers s))%nat ->
  id_of s i = Z.of_nat i /\ other_id i = Z.of_nat i.
Proof.
  intros Ho Hl Hi. unfold id_of, other_id, offset. rewrite Ho, Z.add_0_r. rewrite (u16_small (Z.of_nat i)) by lia. split; [|done]. apply u16_small. lia.
Qed.

Lemma advertise_others_spec index count l :
  (forall i v, (i, v) ∈ l -> length v = count) ->
  exists ms, advertise_others index count l = Done ms /\
    inbox index ms = flat_map (fun '(i, v) => adverts (other_id i) (map wfd v)) l /\ (forall i, i <> index -> inbox i ms = []).
Proof.
  induction l as [|[i v] l IH]; intros H; [by exists []|]. cbn [advertise_others flat_map].
  destruct IH as (ms & -> & E1 & E2); [intros j w Hj; by apply (H j w), list.elem_of_cons; right|].
  assert (Hv : length v = count) by (apply (H i); by left). unfold advertise_other. destruct (Nat.ltb_spec (length v) count); [lia|].
  cbn [abind]. eexists. split; [done|]. rewrite take_ge by lia. split.
  - rewrite inbox_app, inbox_same, E1. unfold adverts. by rewrite map_map.
  - intros j Hj. rewrite inbox_app, inbox_other, E2 by done. done.
Qed.

(** A list of new peers is added in order. *)
Lemma new_peers l acc loc :
  NoDup (map peer_id (acc ++ map (uncurry seen) l)) -> peer_id loc ∉ map peer_id (map (uncurry seen) l) ->
  (forall i v, (i, v) ∈ l -> v <> [] /\ other_id i = Z.of_nat i) ->
  handle_msgs (MkClient acc loc) (flat_map (fun '(i, v) => adverts (other_id i) (map wfd v)) l) = Some (MkClient (acc ++ map (uncurry seen) l) loc).
Proof.
  revert acc. induction l as [|[i v] l IH]; intros acc Hn Hl Hv; [by rewrite app_nil_r|].
  cbn [flat_map map uncurry] in *. rewrite handle_msgs_app. destruct (Hv i v) as [Hne ->]; [by left|].
  apply not_elem_of_cons in Hl as [Hl1 Hl2]. rewrite map_app in Hn.
  rewrite new_peer; [|apply list.NoDup_app in Hn as (_ & Hn & _); intros X; apply (Hn _ X); by left|done|by destruct v].
  change (acc ++ seen i v :: map (uncurry seen) l) with (acc ++ [seen i v] ++ map (uncurry seen) l). rewrite app_assoc. apply IH.
  - rewrite <-app_assoc. by rewrite map_app.
  - done.
  - intros j w Hj. apply Hv. by right.
Qed.

Lemma seen_ids l : map peer_id (map (uncurry seen) l) = Z.of_nat <$> l.*1.
Proof. induction l as [|[i v] l IH]; [done|]. cbn. by rewrite <-IH. Qed.

Lemma run_client_app a b c : run_client a = Some c -> run_client (a ++ b) = handle_msgs c b.
Proof.
  unfold run_client. destruct (client_new a) as [[c0 rest]|] eqn:E; [|done]. intros H.
  assert (client_new (a ++ b) = Some (c0, rest ++ b)) as ->; [|by rewrite handle_msgs_app, H].
  unfold client_new in *. destruct a as [|[[p|] [|]] [|[[id|] [|]] [|[[|] [fd|]] a]]]; try done. cbn [app]. case_match; [|done].
  by injection E as <- <-.
Qed.

Lemma new_conn_inv cs s index vs ok s' ms :
  handle_new_conn cs s index vs ok = Done (s', ms) ->
  exists v others, vs = Some v /\ peers s !! index = Some None /\ advertise_others index (length v) (connected s) = Done others /\
    s' = set_peer s index (Some v) /\ ms = hello s index ++ advertise_new s index v ++ others ++ advertise_self s index v.
Proof.
  unfold handle_new_conn. destruct (peers s !! index) as [old|] eqn:Ep; [|done]. destruct vs as [v|]; [|done].
  destruct (send_all cs (hello s index)); [|done..]. destruct (send_all cs (advertise_new s index v)); [|done..]. cbn [abind].
  destruct (advertise_others index (length v) (connected s)) as [others| |] eqn:Eo; [|done..]. cbn [abind].
  destruct (send_all cs _); [|done..]. cbn [abind]. destruct ok; [|done]. destruct old; [done|]. cbn [negb]. intros [= <- <-]. by exists v, others.
Qed.

Lemma close_inv cs s index rc wc ok s' ms :
  handle_close cs s index rc wc ok = Done (s', ms) ->
  exists v, peers s !! index = Some (Some v) /\ s' = set_peer s index None /\
    ms = flat_map (fun '(i, _) => map (fun m => (i, m)) [(Some (id_of s index), None)]) (connected s').
Proof.
  unfold handle_close. case_match; [done|]. destruct (peers s !! index) as [[v|]|] eqn:Ep; try done. destruct ok; [|done]. cbn [negb].
  destruct (send_all cs _); [|done..]. cbn [abind]. intros [= <- <-]. exists v. split_and!; [done|done|].
  induction (connected (set_peer s index None)) as [|[i w] l IH]; [done|]. cbn [map flat_map app]. by f_equal.
Qed.

Section Views.
Context (s : Server) (index : nat) (Ho : vm_offset s = false) (Hl : Z.of_nat (length (peers s)) <= 2 ^ 16).

Lemma slot_bound i p : peers s !! i = Some p -> (i < length (peers s))%nat.
Proof using. apply lookup_lt_Some. Qed.

Lemma set_peer_lookup q j w : (index < length (peers s))%nat ->
  peers (set_peer s index q) !! j = Some (Some w) <-> (j = index /\ q = Some w) \/ (j <> index /\ peers s !! j = Some (Some w)).
Proof using.
  intros Hi. cbn [set_peer peers]. destruct (decide (j = index)) as [->|Hne].
  - rewrite list_lookup_insert_eq by done. naive_solver.
  - rewrite list_lookup_insert_ne by done. naive_solver.
Qed.

(** The new client learns of itself and of the connected peers. *)
Lemma view_new v others :
  (forall i w, peers s !! i = Some (Some w) -> length w = length v) -> v <> [] ->
  peers s !! index = Some None -> advertise_others index (length v) (connected s) = Done others ->
  exists c, run_client (inbox index (hello s index ++ advertise_new s index v ++ others ++ advertise_self s index v)) = Some c /\
    view_ok (set_peer s index (Some v)) index v c.
Proof using Ho Hl.
  intros Hc Hv Hn Eo. pose proof (slot_bound _ _ Hn) as Hi. destruct (ids s index Ho Hl Hi) as [Eid _].
  destruct (advertise_others_spec index (length v) (connected s)) as (ms & Em & E1 & _).
  { intros i w Hin. apply elem_of_connected in Hin. by apply (Hc i). }
  rewrite Eo in Em. injection Em as <-.
  assert (Hni : index ∉ (connected s).*1).
  { intros X. apply list_elem_of_fmap in X as ([i w] & -> & X). apply elem_of_connected in X. cbn in Hn. congruence. }
  rewrite !inbox_app. unfold advertise_new.
  rewrite (flat_map_ext _ (fun '(i, _) => map (fun m => (i, m)) (adverts (id_of s index) (map wfd v))))
    by (intros [i w]; unfold adverts; by rewrite !map_map).
  rewrite inbox_broadcast, decide_False by (done || apply connected_nodup). rewrite E1. unfold advertise_self. rewrite inbox_same, Eid.
  unfold hello, inbox. rewrite !filter_cons_True by done. rewrite filter_nil, Eid. cbn [map snd app].
  unfold run_client. cbn [client_new]. cbn [Z.eqb IVSHMEM_PROTOCOL_VERSION]. rewrite handle_msgs_app, new_peers.
  - cbn [app]. set (l := map (uncurry seen) (connected s)). replace (map _ v) with (adverts (Z.of_nat index) (map rfd v)) by (unfold adverts; by rewrite map_map).
    pose proof (own_vectors l (MkPeer (Z.of_nat index) []) (map rfd v)) as Hown. cbn [peer_id vectors app] in Hown. rewrite Hown.
    + eexists. split; [done|]. split; [done|]. cbn [peer_list]. unfold l. rewrite seen_ids. split; [apply (NoDup_fmap_2 _), connected_nodup|].
      intros p. rewrite list_elem_of_fmap. split.
      * intros ([j w] & -> & Hin). apply elem_of_connected in Hin. exists j, w. split; [congruence|]. split; [|done]. apply set_peer_lookup; [done|]. right. split; [congruence|done].
      * intros (j & w & Hj & Hin & ->). exists (j, w). split; [done|]. apply elem_of_connected. apply set_peer_lookup in Hin as [[? _]|[_ ?]]; done.
    + unfold l. rewrite seen_ids. intros X. apply list_elem_of_fmap in X as (j & ->%Nat2Z.inj & X). done.
  - cbn [app]. rewrite seen_ids. apply (NoDup_fmap_2 _), connected_nodup.
  - rewrite seen_ids. cbn [peer_id]. intros X. apply list_elem_of_fmap in X as (j & ->%Nat2Z.inj & X). done.
  - intros i w Hin. apply elem_of_connected in Hin. split.
    + intros ->. apply Hc in Hin. by destruct v.
    + apply (ids s i Ho Hl). by eapply slot_bound.
Qed.

(** What a connected client receives when another one connects. *)
Lemma inbox_of_new v others i w :
  (forall j u, peers s !! j = Some (Some u) -> length u = length v) ->
  i <> index -> peers s !! i = Some (Some w) -> advertise_others index (length v) (connected s) = Done others ->
  inbox i (hello s index ++ advertise_new s index v ++ others ++ advertise_self s index v) = adverts (id_of s index) (map wfd v).
Proof using.
  intros Hc Hne Hi Eo. destruct (advertise_others_spec index (length v) (connected s)) as (ms & Em & _ & E2).
  { intros j u Hin. apply elem_of_connected in Hin. by apply (Hc j). }
  rewrite Eo in Em. injection Em as <-. rewrite !inbox_app. unfold advertise_new.
  rewrite (flat_map_ext _ (fun '(i, _) => map (fun m => (i, m)) (adverts (id_of s index) (map wfd v))))
    by (intros [j u]; unfold adverts; by rewrite !map_map).
  rewrite inbox_broadcast by apply connected_nodup. rewrite decide_True by (apply list_elem_of_fmap; exists (i, w); split; [done|by apply elem_of_connected]).
  rewrite E2 by done. unfold advertise_self. rewrite inbox_other by done. unfold hello, inbox at 1. rewrite !filter_cons_False by (cbn; congruence).
  cbn [map app]. by rewrite !app_nil_r.
Qed.

Lemma view_more v i w c :
  v <> [] -> i <> index -> peers s !! i = Some (Some w) -> peers s !! index = Some None -> view_ok s i w c ->
  exists c', handle_msgs c (adverts (id_of s index) (map wfd v)) = Some c' /\ view_ok (set_peer s index (Some v)) i w c'.
Proof using Ho Hl.
  intros Hv Hne Hi Hn (Ec & Hd & Hp). pose proof (slot_bound _ _ Hn) as Hb. destruct (ids s index Ho Hl Hb) as [-> _].
  destruct c as [l loc]. cbn [local peer_list] in *. subst loc.
  assert (Hnew : Z.of_nat index ∉ map peer_id l).
  { intros X. apply list_elem_of_fmap in X as (p & E & X). apply Hp in X as (j & u & _ & Hj & ->). cbn in E. apply Nat2Z.inj in E. subst j. congruence. }
  rewrite new_peer; [|done|cbn; lia|by destruct v]. eexists. split; [done|]. split; [done|]. cbn [peer_list]. split.
  - rewrite map_app. apply list.NoDup_app. split; [done|]. split; [intros x X Y; apply list_elem_of_singleton in Y; by subst x|apply NoDup_singleton].
  - intros p. rewrite list.elem_of_app, list_elem_of_singleton, Hp. setoid_rewrite set_peer_lookup; [|done]. split.
    + intros [(j & u & Hj & Hu & ->)| ->]; [|by exists index, v; auto]. exists j, u. split; [done|]. split; [|done]. right. split; [congruence|done].
    + intros (j & u & Hj & [[-> [= <-]]|[Hj' Hu]] & ->); [by right|left; by exists j, u].
Qed.

(** A peer that leaves is taken off the list. *)
Lemma delete_peer l id loc : NoDup (map peer_id l) -> id ∈ map peer_id l ->
  exists l', handle_msgs (MkClient l loc) [(Some id, None)] = Some (MkClient l' loc) /\ NoDup (map peer_id l') /\
    forall p, p ∈ l' <-> p ∈ l /\ peer_id p <> id.
Proof using.
  intros Hd Hin. apply list_elem_of_fmap in Hin as (p & Ep & Hin). apply list_elem_of_split in Hin as (l1 & l2 & ->).
  rewrite map_app in Hd. cbn [map] in Hd. apply list.NoDup_app in Hd as (D1 & D2 & D3). apply list.NoDup_cons in D3 as [D3 D4].
  assert (N1 : id ∉ map peer_id l1) by (intros X; apply (D2 _ X); rewrite Ep; by left).
  exists (l1 ++ l2). cbn [handle_msgs]. unfold handle_server_msg. cbn [fst snd peer_list local]. rewrite (position_at id l1 p l2) by done.
  rewrite delete_middle. split; [done|]. split.
  - rewrite map_app. apply list.NoDup_app. split; [done|]. split; [|done]. intros x X Y. apply (D2 x X). by right.
  - intros q. rewrite !list.elem_of_app, list.elem_of_cons. split.
    + intros [X|X]; (split; [by auto|]); intros E; [apply N1; rewrite <-E|apply D3; rewrite <-Ep, <-E]; by apply list_elem_of_fmap_2.
    + intros [[X|[->|X]] E]; [by left|congruence|by right].
Qed.

Lemma view_less u i w c :
  i <> index -> peers s !! i = Some (Some w) -> peers s !! index = Some (Some u) -> view_ok s i w c ->
  exists c', handle_msgs c [(Some (id_of s index), None)] = Some c' /\ view_ok (set_peer s index None) i w c'.
Proof using Ho Hl.
  intros Hne Hi Hn (Ec & Hd & Hp). pose proof (slot_bound _ _ Hn) as Hb. destruct (ids s index Ho Hl Hb) as [-> _].
  destruct c as [l loc]. cbn [local peer_list] in *. subst loc.
  destruct (delete_peer l (Z.of_nat index) (self i w) Hd) as (l' & -> & Hd' & Hp').
  { apply list_elem_of_fmap. exists (seen index u). split; [done|]. apply Hp. by exists index, u. }
  eexists. split; [done|]. split; [done|]. split; [done|]. intros p. cbn [peer_list]. rewrite Hp', Hp. setoid_rewrite set_peer_lookup; [|done]. split.
  - intros [(j & x & Hj & Hx & ->) Hid]. cbn in Hid. exists j, x. split; [done|]. split; [|done]. right. split; [lia|done].
  - intros (j & x & Hj & [[_ [=]]|[Hj' Hx]] & ->). split; [by exists j, x|]. cbn. lia.
Qed.
End Views.

Lemma net_ok_step n n' : net_ok n -> net_step n n' -> net_ok n'.
Proof.
  intros [N1 N2 N3 N4 N5] Hs. destruct Hs as [cs token rc wc ok vs n s' ms Hvs E]. unfold poll_event in E. unfold slot_of.
  destruct (Nat.ltb_spec token (length (peers (srv n)))) as [Ht|Ht].
  - destruct (new_conn_inv _ _ _ _ _ _ _ E) as (v & others & -> & Hn & Eo & -> & ->). specialize (Hvs v eq_refl).
    assert (Hc : forall i w, peers (srv n) !! i = Some (Some w) -> length w = length v) by (intros i w Hi; rewrite Hvs; by apply (N4 i)).
    assert (Hv : v <> []) by (intros ->; cbn in Hvs; lia).
    constructor; cbn [srv boxes]; [done|by cbn; rewrite length_insert|done| |].
    + intros i w [[_ [= <-]]|[_ Hi]]%set_peer_lookup; [done|by apply (N4 i)|done].
    + intros i w [[-> [= <-]]|[Hne Hi]]%set_peer_lookup; [| |done].
      * rewrite decide_True by done. by apply view_new.
      * rewrite decide_False by done. destruct (N5 i w Hi) as (c & Hc' & Hview). rewrite (inbox_of_new _ _ v others i w) by done.
        rewrite (run_client_app _ _ c) by done. by apply view_more.
  - destruct (close_inv _ _ _ _ _ _ _ _ E) as (v & Hn & -> & ->). set (index := (token - length (peers (srv n)))%nat) in *.
    pose proof (slot_bound _ _ _ Hn) as Hb. constructor; cbn [srv boxes]; [done|by cbn; rewrite length_insert|done| |].
    + intros i w [[_ [=]]|[_ Hi]]%set_peer_lookup; [by apply (N4 i)|done].
    + intros i w Hi'. pose proof Hi' as [[_ [=]]|[Hne Hi]]%set_peer_lookup; [|done]. rewrite decide_False by done.
      rewrite inbox_broadcast by apply connected_nodup.
      rewrite decide_True by (apply list_elem_of_fmap; exists (i, w); split; [done|by apply elem_of_connected]).
      destruct (N5 i w Hi) as (c & Hc' & Hview). rewrite (run_client_app _ _ c) by done. by apply (view_less _ _ N1 N2 v).
Qed.

Lemma net_ok_init fd vector_count vm_count :
  (0 < vector_count)%nat -> Z.of_nat vm_count <= 2 ^ 16 -> net_ok (Net (server_new fd vector_count vm_count false) (fun _ => [])).
Proof.
  intros Hv Hm. assert (Hn : forall i v, peers (server_new fd vector_count vm_count false) !! i <> Some (Some v)).
  { intros i v H. cbn in H. apply list_elem_of_lookup_2, list_elem_of_In, repeat_spec in H. done. }
  constructor; cbn [srv]; try done; [cbn; by rewrite repeat_length|..]; intros i v H; by destruct (Hn i v).
Qed.


(** A run of events, all messages going out. *)
Fixpoint net_run (events : list (nat * list EventNotifier)) (n : net) : option net :=
  match events with
  | [] => Some n
  | (token, v) :: rest =>
      match poll_event (fun _ => true) (srv n) token true true true (Some v) with
      | Done (s', ms) => net_run rest (Net s' (fun i => (if decide (i = slot_of (srv n) token) then [] else boxes n i) ++ inbox i ms))
      | _ => None
      end
  end.

Lemma net_run_reachable fd vc vms off events n n' :
  net_reachable fd vc vms off n -> Forall (fun e => length e.2 = vector_count (srv n)) events -> net_run events n = Some n' ->
  net_reachable fd vc vms off n'.
Proof.
  revert n. induction events as [|[token v] rest IH]; intros n R Hf; cbn [net_run]; [by intros [= <-]|].
  apply list.Forall_cons in Hf as [Hv Hf]. destruct (poll_event _ _ _ _ _ _ _) as [[s' ms]| |] eqn:E; [|done..].
  assert (Hvc : vector_count s' = vector_count (srv n)).
  { unfold poll_event in E. destruct (_ <? _)%nat.
    - by destruct (new_conn_inv _ _ _ _ _ _ _ E) as (? & ? & _ & _ & _ & -> & _).
    - by destruct (close_inv _ _ _ _ _ _ _ _ E) as (? & _ & -> & _). }
  apply IH; cbn [srv]; [|by rewrite Hvc]. eapply net_next; [done|]. eapply net_event; [|done]. by intros ? [= <-].
Qed.

(** Three machines: 0 and 2 connect, then 1, then 0 leaves. *)
Definition example_events : list (nat * list EventNotifier) :=
  [(0%nat, [Event 10]); (2%nat, [Event 12]); (1%nat, [Event 11]); (3%nat, [Event 0])].
Definition example_net (vm_offset : bool) (events : list (nat * list EventNotifier)) : net :=
  let n := Net (server_new 5 1 3 vm_offset) (fun _ => []) in default n (net_run events n).

Lemma example_net_reachable off : net_reachable 5 1 3 off (example_net off example_events).
Proof.
  unfold example_net. destruct (net_run _ _) as [n|] eqn:E; cbn [default from_option]; [|apply net_init].
  eapply net_run_reachable; [apply net_init| |apply E]. by repeat constructor.
Qed.


(** With an offset of the numbers the server gives a peer two names: it is told its
    own number with the offset, and newcomers are told the number without.  With three
    machines, 0 and 2 connect first; 1 then takes the doorbell of 2 for its own, and
    when 0 leaves 1 is told to remove a peer that it does not know, an error that
    ends the client. *)
Theorem offset_misnames_peers :
  let before := example_net true (take 3 example_events) in
  let after := example_net true example_events in
  (exists c, run_client (boxes before 1) = Some c /\ local c = MkPeer 2 [12; 11] /\ peer_list c = [MkPeer 0 [10]]) /\
  peers (srv after) !! 1%nat = Some (Some [Event 11]) /\ run_client (boxes after 1) = None.
Proof. split; [|split]; [eexists; split; [by vm_compute|done]|by vm_compute|by vm_compute]. Qed.

(** What the server does with a connection: on a free slot it is accepted, when the
    messages go out; a second connection on an occupied slot ends the server with a
    panic, after the other peers have been told of it. *)
Theorem new_conn_accepted_or_panics (can_send : nat -> bool) (s : Server) (index : nat) (v : list EventNotifier) (old : option (list EventNotifier)) :
  (forall i, can_send i = true) -> (forall i w, peers s !! i = Some (Some w) -> length w = length v) -> peers s !! index = Some old ->
  match old with
  | None => exists ms, handle_new_conn can_send s index (Some v) true = Done (set_peer s index (Some v), ms)
  | Some _ => handle_new_conn can_send s index (Some v) true = Panicked
  end.
Proof.
  intros Hs Hc Hi. assert (Hall : forall ms, send_all can_send ms = Done ()).
  { induction ms as [|[i m] ms IH]; [done|]. cbn [send_all]. by rewrite Hs. }
  destruct (advertise_others_spec index (length v) (connected s)) as (others & Eo & _).
  { intros i w Hin. apply elem_of_connected in Hin. by apply (Hc i). }
  unfold handle_new_conn. rewrite Hi, !Hall. cbn [abind]. rewrite Eo. cbn [abind]. rewrite Hall. cbn [abind negb]. destruct old; [done|]. by eexists.
Qed.

Lemma new_conn_accepted_or_panics_witness :
  handle_new_conn (fun _ => true) (srv (example_net false example_events)) 2 (Some [Event 20]) true = Panicked.
Proof.
  apply (new_conn_accepted_or_panics (fun _ => true) (srv (example_net false example_events)) 2 [Event 20] (Some [Event 12])); [done| |done].
  intros [|[|[|i]]] w H; vm_compute in H; try done; by injection H as <-.
Defined.

(** ** Notifications *)

Lemma notify_from_spec cw p n k :
  (forall fd, cw fd = true) -> (k + n = length (vectors p))%nat -> Z.of_nat (length (vectors p)) <= 2 ^ 16 ->
  notify_from cw p n k = Some (drop k (vectors p)).
Proof.
  intros Hcw. revert k. induction n as [|n IH]; intros k Hk Hl; cbn [notify_from]; [by rewrite drop_ge by lia|].
  unfold notify. rewrite u16_small by lia. destruct (Z.geb_spec (Z.of_nat k) (Z.of_nat (length (vectors p)))); [lia|].
  rewrite Nat2Z.id. destruct (vectors p !! k) as [fd|] eqn:E; [|apply lookup_ge_None in E; lia].
  rewrite Hcw, IH by lia. f_equal. symmetry. by apply drop_S.
Qed.

(** A broadcast rings every vector of every other peer once, in order, and leaves the
    caller's own vectors alone. *)
Theorem broadcast_rings_all (can_write : Z -> bool) (c : Client) :
  (forall fd, can_write fd = true) -> (forall p, p ∈ peer_list c -> Z.of_nat (length (vectors p)) <= 2 ^ 16) ->
  notify_broadcast can_write c = Some (flat_map vectors (peer_list c)).
Proof.
  intros Hcw. unfold notify_broadcast. induction (peer_list c) as [|p l IH]; intros Hl; [done|]. cbn [notify_peers flat_map].
  unfold notify_all_vects. rewrite notify_from_spec; [|done|lia|apply Hl; by left]. rewrite IH by (intros q Hq; apply Hl; by right). done.
Qed.

Lemma broadcast_rings_all_witness :
  notify_broadcast (fun _ => true) (MkClient [MkPeer 0 [10; 11]; MkPeer 2 [12]] (MkPeer 1 [9])) = Some [10; 11; 12].
Proof.
  apply (broadcast_rings_all (fun _ => true) (MkClient [MkPeer 0 [10; 11]; MkPeer 2 [12]] (MkPeer 1 [9]))); [done|].
  intros p [->|[->| []%not_elem_of_nil]%list.elem_of_cons]%list.elem_of_cons; cbn; lia.
Defined.
