(* ===== verification/PageTable.v ===== *)
(** The address arithmetic of the persistent page tables: src/driver/src/page_table
    (addr.h, page_table.h). *)
From Stdlib Require Import ZArith Lia Bool.
From stdpp Require Import base numbers.
From S2P Require Import Prelude.
Local Open Scope Z_scope.

(** ** Alignment *)

(** The complement of a 64-bit word. *)
Definition not64 (x : Z) : Z := 2 ^ 64 - 1 - x.

(** [alignment != 0 && !(alignment & (alignment - 1))]: the machine stops. *)
Definition bad_alignment (alignment : Z) : bool :=
  negb (alignment =? 0) && negb (truthy (Z.land alignment (u64 (alignment - 1)))).

Definition align_down (addr alignment : Z) : outcome Z :=
  bug_on (bad_alignment alignment) (Ret (Z.land addr (not64 (u64 (alignment - 1))))).

(** [addr & mask == 0] is [addr & (mask == 0)]. *)
Definition align_up (addr alignment : Z) : outcome Z :=
  bug_on (bad_alignment alignment)
    (let mask := u64 (alignment - 1) in
     if truthy (Z.land addr (if mask =? 0 then 1 else 0)) then Ret addr
     else
       let tmp := Z.lor addr mask in
       bug_on (tmp + 1 >=? 2 ^ 64) (Ret (u64 (tmp + 1)))).

(** ** Indices and levels *)

Definition PAGE_TABLE_ENTRY_COUNT : Z := 512.
Definition page_table_index_from (index : Z) : Z := Z.land index 0x1ff.
Definition page_offset_from (offset : Z) : Z := Z.land offset 0xfff.

Inductive PageTableLevel := NoLevel | One | Two | Three | Four.

Definition level_value (level : PageTableLevel) : Z :=
  match level with NoLevel => 0 | One => 1 | Two => 2 | Three => 3 | Four => 4 end.

Definition nextLowerLevel (level : PageTableLevel) : PageTableLevel :=
  match level with Four => Three | Three => Two | Two => One | One => NoLevel | NoLevel => NoLevel end.
Definition nextHigherLevel (level : PageTableLevel) : PageTableLevel :=
  match level with One => Two | Two => Three | Three => Four | Four => NoLevel | NoLevel => NoLevel end.

Definition table_address_space_alignment (level : PageTableLevel) : Z := u64 (Z.shiftl 1 (12 + 9 * level_value level)).
Definition entry_address_space_alignment (level : PageTableLevel) : Z := u64 (Z.shiftl 1 (12 + 9 * (level_value level - 1))).

(** ** Theorems *)

Lemma pow2_pred_disjoint k : 0 <= k -> Z.land (2 ^ k) (2 ^ k - 1) = 0.
Proof.
  intros Hk. rewrite Z.sub_1_r, <-Z.ones_equiv, Z.land_ones by done. apply Z.mod_same. pose proof (Z.pow_pos_nonneg 2 k). lia.
Qed.

Lemma bad_power k : 0 <= k < 64 -> bad_alignment (2 ^ k) = true.
Proof.
  intros Hk. assert (1 <= 2 ^ k < 2 ^ 64) by (split; [pose proof (Z.pow_pos_nonneg 2 k); lia|apply Z.pow_lt_mono_r; lia]).
  unfold bad_alignment. destruct (Z.eqb_spec (2 ^ k) 0); [lia|]. by rewrite u64_small, pow2_pred_disjoint by lia.
Qed.

(** The check of an alignment is inverted: every power of two stops the machine, in
    [align_down] as in [align_up], and so does the alignment of every level of the
    page tables. *)
Theorem align_rejects_powers_of_two (addr k : Z) (level : PageTableLevel) :
  0 <= k < 64 ->
  align_down addr (2 ^ k) = Bug /\ align_up addr (2 ^ k) = Bug /\
  align_down addr (table_address_space_alignment level) = Bug /\ align_up addr (entry_address_space_alignment level) = Bug.
Proof. intros Hk. unfold align_down, align_up. rewrite bad_power by done. split; [done|]. split; [done|]. by destruct level. Qed.

Lemma align_rejects_powers_of_two_witness :
  align_down 8191 (2 ^ 12) = Bug /\ align_up 8191 (2 ^ 12) = Bug /\
  align_down 8191 (table_address_space_alignment One) = Bug /\ align_up 8191 (entry_address_space_alignment One) = Bug.
Proof. apply (align_rejects_powers_of_two 8191 12 One). lia. Defined.

(** The geometry of the tables: a table of any of the four levels covers 512 times
    what one of its entries covers, an entry covers what a table of the next lower
    level covers, down to a page of 4096 bytes, going down and up again is the
    identity below the top level, and the indices and offsets taken from any
    sixteen-bit number are within a table and within a page. *)
Theorem page_table_geometry (level : PageTableLevel) (n : Z) :
  level <> NoLevel ->
  table_address_space_alignment level = PAGE_TABLE_ENTRY_COUNT * entry_address_space_alignment level /\
  entry_address_space_alignment level = table_address_space_alignment (nextLowerLevel level) /\
  (level <> One -> nextHigherLevel (nextLowerLevel level) = level) /\
  (nextHigherLevel level <> NoLevel -> nextLowerLevel (nextHigherLevel level) = level) /\
  table_address_space_alignment NoLevel = 4096 /\
  0 <= page_table_index_from n < PAGE_TABLE_ENTRY_COUNT /\ 0 <= page_offset_from n < 4096.
Proof.
  intros Hl. unfold page_table_index_from, page_offset_from, PAGE_TABLE_ENTRY_COUNT. change 0x1ff with (Z.ones 9). change 0xfff with (Z.ones 12).
  rewrite !Z.land_ones by lia. pose proof (Z.mod_pos_bound n (2 ^ 9)). pose proof (Z.mod_pos_bound n (2 ^ 12)).
  split_and!; try lia; by destruct level.
Qed.

Lemma page_table_geometry_witness :
  table_address_space_alignment Four = PAGE_TABLE_ENTRY_COUNT * entry_address_space_alignment Four /\
  entry_address_space_alignment Four = table_address_space_alignment (nextLowerLevel Four) /\
  (Four <> One -> nextHigherLevel (nextLowerLevel Four) = Four) /\
  (nextHigherLevel Four <> NoLevel -> nextLowerLevel (nextHigherLevel Four) = Four) /\
  table_address_space_alignment NoLevel = 4096 /\
  0 <= page_table_index_from 65535 < PAGE_TABLE_ENTRY_COUNT /\ 0 <= page_offset_from 65535 < 4096.
Proof. apply (page_table_geometry Four 65535). done. Defined.
