(* ===== verification/McsQueue.v ===== *)
(** Queues of waiting nodes that link themselves behind their predecessors, as the
    queue locks of src/lupin_lock_benchmark build them: every node but the first is
    about to be linked, or is linked and waits. *)
From Stdlib Require Import ZArith Lia Bool.
From stdpp Require Import base list numbers.
From S2P Require Import Prelude TatasLock.
Local Open Scope Z_scope.

(** What the thread of a node does to the queue. *)
Inductive qrole := Linking (pred : Z) | Waiting | Other.

#[export] Instance qrole_eq : EqDecision qrole.
Proof. solve_decision. Defined.

(** [b] follows [a]: it is about to link itself, or it has.  [next] are the links and
    [owned] the nodes that were told to go on. *)
Definition qfollows (next : Z -> option Z) (owned : Z -> bool) (role : Z -> qrole) (a b : Z) : Prop :=
  owned b = false /\ (role b = Linking a /\ next a = None \/ role b = Waiting /\ next a = Some b).

Fixpoint qchain (next : Z -> option Z) (owned : Z -> bool) (role : Z -> qrole) (a : Z) (l : list Z) : Prop :=
  match l with
  | [] => next a = None
  | b :: l => qfollows next owned role a b /\ qchain next owned role b l
  end.

Lemma qchain_ext next next' owned owned' role role' a l :
  (forall x, x = a \/ x ∈ l -> next' x = next x) -> (forall b, b ∈ l -> owned' b = owned b) -> (forall b, b ∈ l -> role' b = role b) ->
  qchain next owned role a l -> qchain next' owned' role' a l.
Proof.
  revert a. induction l as [|b l IH]; intros a Hn Ho Hr; cbn [qchain]; [rewrite Hn by auto; done|]. intros [F C]. split.
  - unfold qfollows in *. rewrite Ho, Hr by (by left). rewrite Hn by auto. done.
  - apply IH; [|intros x Hx; apply Ho; by right|intros x Hx; apply Hr; by right|done].
    intros x [->|Hx]; apply Hn; right; [by left|by right].
Qed.

(** Every node but the first is linking itself or waiting. *)
Lemma qchain_member next owned role a l b :
  qchain next owned role a l -> b ∈ l -> owned b = false /\ role b <> Other.
Proof.
  revert a. induction l as [|x l IH]; intros a; [intros _ []%not_elem_of_nil|]. intros [[F1 F2] C] [->|Hb]%list.elem_of_cons; [|by eapply IH].
  split; [done|]. destruct F2 as [[-> _]|[-> _]]; done.
Qed.

(** A node joins at the end. *)
Lemma qchain_snoc next owned role a l z i :
  qchain next owned role a l -> list.last (a :: l) = Some z -> next i = None -> owned i = false -> role i = Linking z ->
  qchain next owned role a (l ++ [i]).
Proof.
  revert a. induction l as [|b l IH]; intros a C Hz Hn Hl Hp; cbn [qchain app] in *.
  - injection Hz as ->. split; [split; [done|by left]|done].
  - destruct C as [F C]. split; [done|]. by apply IH.
Qed.

(** The predecessor that a node is about to link to is in the queue, without a successor. *)
Lemma qchain_pred next owned role a l i p :
  qchain next owned role a l -> i ∈ l -> role i = Linking p -> p ∈ a :: l /\ next p = None.
Proof.
  revert a. induction l as [|b l IH]; intros a; [intros _ []%not_elem_of_nil|]. intros [[F1 F2] C] [->|Hi]%list.elem_of_cons Hp.
  - destruct F2 as [[E F2]|[F2 _]]; [|congruence]. rewrite Hp in E. injection E as ->. split; [by left|done].
  - destruct (IH b C Hi Hp) as [H1 H2]. split; [by right|done].
Qed.

(** A node links itself and waits from then on. *)
Lemma qchain_link next owned role a l i p :
  qchain next owned role a l -> NoDup (a :: l) -> i ∈ l -> role i = Linking p ->
  qchain (upd next p (Some i)) owned (upd role i Waiting) a l.
Proof.
  revert a. induction l as [|b l IH]; intros a C Hd Hi Hp; [by apply not_elem_of_nil in Hi|].
  pose proof C as [[F1 F2] C']. apply list.NoDup_cons in Hd as [Ha Hd]. pose proof Hd as [Hb _]%list.NoDup_cons. cbn [qchain].
  destruct (Z.eq_dec i b) as [<-|Hne].
  - destruct F2 as [[E F2]|[F2 _]]; [|congruence]. rewrite Hp in E. injection E as ->. split.
    + unfold qfollows. rewrite !upd_same. split; [done|]. by right.
    + eapply qchain_ext; [..|exact C'].
      * intros x Hx. apply upd_other. intros ->. apply Ha. apply list.elem_of_cons. tauto.
      * done.
      * intros x Hx. apply upd_other. by intros ->.
  - apply list.elem_of_cons in Hi as [->|Hi]; [done|]. split; [|by apply IH].
    destruct (qchain_pred _ _ _ _ _ _ _ C' Hi Hp) as [Hpin _]. assert (p <> a) by (intros ->; done).
    unfold qfollows. rewrite !upd_other by done. done.
Qed.

(** The successor that the first node sees is the second node, which waits. *)
Lemma qchain_succ next owned role a l n :
  qchain next owned role a l -> next a = Some n -> exists r, l = n :: r /\ owned n = false /\ role n = Waiting /\ qchain next owned role n r.
Proof.
  destruct l as [|b r]; cbn [qchain]; [congruence|]. intros [[F1 [[_ F2]|[F2 F3]]] C] Hn; [congruence|].
  rewrite Hn in F3. injection F3 as ->. by exists r.
Qed.
