(* ===== verification/Rmcs.v ===== *)
(** The queue lock of the lock benchmark: src/lupin_lock_benchmark/rmcs.hpp, as a
    program of memory accesses that any number of threads run concurrently.

    The fields of the nodes are plain variables in the source; each access is taken
    to happen once, in program order, as the fences around them ask for.  The
    cleaning of the queue is not implemented in the source: nothing writes
    [clean_cnt] or [clean_in_prog]. *)
From Stdlib Require Import ZArith Lia Bool.
From stdpp Require Import base list numbers.
From S2P Require Import Prelude TatasLock McsQueue.
Local Open Scope Z_scope.

Inductive LockStatus := WAITING | OWNED | RELEASED.

#[export] Instance lock_status_dec : EqDecision LockStatus.
Proof. solve_decision. Defined.

(** The lock, and the fields of the nodes; the node of a thread is named by its number. *)
Record rmem := RMem {
  r_tail : option Z; clean_cnt : Z; clean_in_prog : bool;
  r_next : Z -> option Z; r_locked : Z -> LockStatus; r_wants : Z -> bool; r_vol : Z -> bool }.

Definition set_tail (m : rmem) x := RMem x (clean_cnt m) (clean_in_prog m) (r_next m) (r_locked m) (r_wants m) (r_vol m).
Definition set_next (m : rmem) i x := RMem (r_tail m) (clean_cnt m) (clean_in_prog m) (upd (r_next m) i x) (r_locked m) (r_wants m) (r_vol m).
Definition set_lstatus (m : rmem) i x := RMem (r_tail m) (clean_cnt m) (clean_in_prog m) (r_next m) (upd (r_locked m) i x) (r_wants m) (r_vol m).
Definition set_wants (m : rmem) i x := RMem (r_tail m) (clean_cnt m) (clean_in_prog m) (r_next m) (r_locked m) (upd (r_wants m) i x) (r_vol m).
Definition set_vol (m : rmem) i x := RMem (r_tail m) (clean_cnt m) (clean_in_prog m) (r_next m) (r_locked m) (r_wants m) (upd (r_vol m) i x).

(** Where a thread is: before the access that the name tells. *)
Inductive rpc :=
| RIdle
| LNext | LVol | LWants | LClean | LWait | LXchg
| LLink (pred : Z) | LVol0 | LSpin
| LOwn | LVol1
| RCritical
| UVol | UClean | URel | UNext | UCas
| UCnt | UVol0 (cc : Z) | USpin (cc : Z) | UVol1 (cc : Z) | UCheck (cc : Z)
| UGive | UOwn (n : Z)
| UVolEnd | UWantsEnd.

(** The next access of the thread [i], in [rmcs_lock], its critical section or
    [rmcs_unlock].  A failed [assert] or a null dereference is [Bug]. *)
Definition rmcs_step (i : Z) (p : rpc) (m : rmem) : outcome (rpc * rmem) :=
  match p with
  | RIdle => Ret (LNext, m)
  | LNext => Ret (LVol, set_next m i None)
  | LVol => Ret (LWants, set_vol m i true)
  | LWants => Ret (LClean, set_wants m i true)
  | LClean => bug_on (clean_in_prog m) (Ret (LWait, m))
  | LWait => Ret (LXchg, set_lstatus m i WAITING)
  | LXchg => Ret (match r_tail m with Some pred => LLink pred | None => LOwn end, set_tail m (Some i))
  | LLink pred => Ret (LVol0, set_next m pred (Some i))
  | LVol0 => Ret (LSpin, set_vol m i false)
  | LSpin => Ret (if decide (r_locked m i = OWNED) then RCritical else LSpin, m)
  | LOwn => Ret (LVol1, set_lstatus m i OWNED)
  | LVol1 => Ret (RCritical, set_vol m i false)
  | RCritical => Ret (UVol, m)
  | UVol => Ret (UClean, set_vol m i true)
  | UClean => bug_on (clean_in_prog m) (Ret (URel, m))
  | URel => Ret (UNext, set_lstatus m i RELEASED)
  | UNext => Ret (match r_next m i with None => UCas | Some _ => UGive end, m)
  | UCas => if decide (r_tail m = Some i) then Ret (UVolEnd, set_tail m None) else Ret (UCnt, m)
  | UCnt => Ret (UVol0 (clean_cnt m), m)
  | UVol0 cc => Ret (USpin cc, set_vol m i false)
  | USpin cc =>
      Ret (if bool_decide (r_next m i = None) && (cc =? clean_cnt m) && negb (clean_in_prog m) then USpin cc else UVol1 cc, m)
  | UVol1 cc => Ret (UCheck cc, set_vol m i true)
  | UCheck cc => bug_on (clean_in_prog m || negb (cc =? clean_cnt m)) (Ret (UGive, m))
  | UGive => match r_next m i with None => Bug | Some n => Ret (UOwn n, m) end
  | UOwn n => Ret (UVolEnd, set_lstatus m n OWNED)
  | UVolEnd => Ret (UWantsEnd, set_vol m i false)
  | UWantsEnd => Ret (RIdle, set_wants m i false)
  end.

(** The system, with the threads in the order of their exchanges and of their entries. *)
Record rsys := RSys { rs_mem : rmem; rs_pc : Z -> rpc; arrivals : list Z; entries : list Z }.

Definition arrives (p : rpc) : bool := match p with LXchg => true | _ => false end.
Definition enters (p p' : rpc) : bool := match p, p' with RCritical, _ => false | _, RCritical => true | _, _ => false end.

Inductive rsys_step : rsys -> rsys -> Prop :=
| rsys_thread i st p' m' :
    rmcs_step i (rs_pc st i) (rs_mem st) = Ret (p', m') ->
    rsys_step st (RSys m' (upd (rs_pc st) i p')
      (arrivals st ++ if arrives (rs_pc st i) then [i] else []) (entries st ++ if enters (rs_pc st i) p' then [i] else [])).

(** A lock with no tail and no cleaning; the nodes may hold anything. *)
Inductive rsys_reachable : rsys -> Prop :=
| rsys_init m : r_tail m = None -> clean_in_prog m = false -> rsys_reachable (RSys m (fun _ => RIdle) [] [])
| rsys_next st st' : rsys_reachable st -> rsys_step st st' -> rsys_reachable st'.

(** ** The queue *)

Definition in_queue (p : rpc) : bool :=
  match p with RIdle | LNext | LVol | LWants | LClean | LWait | LXchg | UVolEnd | UWantsEnd => false | _ => true end.
Definition spinning (p : rpc) : bool := match p with LVol0 | LSpin => true | _ => false end.
Definition linking (p : rpc) : bool := match p with LLink _ => true | _ => false end.
(** From the entry to the critical section on. *)
Definition inside (p : rpc) : bool :=
  match p with
  | RCritical | UVol | UClean | URel | UNext | UCas | UCnt | UVol0 _ | USpin _ | UVol1 _ | UCheck _ | UGive | UOwn _ => true
  | _ => false
  end.

Definition role_of (p : rpc) : qrole := match p with LLink a => Linking a | LVol0 | LSpin => Waiting | _ => Other end.
Definition r_owned (m : rmem) (b : Z) : bool := bool_decide (r_locked m b = OWNED).
Definition chain (m : rmem) (pcs : Z -> rpc) (a : Z) (l : list Z) : Prop := qchain (r_next m) (r_owned m) (fun b => role_of (pcs b)) a l.

Definition granted (m : rmem) (pcs : Z -> rpc) (h : Z) : Prop :=
  linking (pcs h) = false /\ (spinning (pcs h) = true -> r_locked m h = OWNED).

(** What the place of a thread says. *)
Definition place_ok (m : rmem) (q : list Z) (i : Z) (p : rpc) : Prop :=
  match p with
  | LVol | LWants | LClean | LWait => r_next m i = None
  | LXchg => r_next m i = None /\ r_locked m i <> OWNED
  | UCnt => exists b r, q = i :: b :: r
  | UVol0 cc | USpin cc => cc = clean_cnt m /\ exists b r, q = i :: b :: r
  | UVol1 cc | UCheck cc => cc = clean_cnt m /\ r_next m i <> None
  | UGive => r_next m i <> None
  | UOwn n => r_next m i = Some n
  | _ => True
  end.

Record rinv (st : rsys) (served q : list Z) : Prop := {
  ri_clean : clean_in_prog (rs_mem st) = false;
  ri_nodup : NoDup q;
  ri_tail : r_tail (rs_mem st) = list.last q;
  ri_queue i : i ∈ q <-> in_queue (rs_pc st i) = true;
  ri_chain h l : q = h :: l -> granted (rs_mem st) (rs_pc st) h /\ chain (rs_mem st) (rs_pc st) h l;
  ri_place i : place_ok (rs_mem st) q i (rs_pc st i);
  ri_arrivals : arrivals st = served ++ q;
  ri_entries : entries st = served ++ match q with h :: _ => if inside (rs_pc st h) then [h] else [] | [] => [] end }.

Lemma rchain_ext m m' pcs pcs' a l :
  (forall x, x = a \/ x ∈ l -> r_next m' x = r_next m x) -> (forall b, b ∈ l -> r_locked m' b = r_locked m b) ->
  (forall b, b ∈ l -> pcs' b = pcs b \/ (spinning (pcs b) = true /\ spinning (pcs' b) = true)) ->
  chain m pcs a l -> chain m' pcs' a l.
Proof.
  intros Hn Hl Hp. apply qchain_ext; [done|intros b Hb; unfold r_owned; by rewrite Hl|].
  intros b Hb. destruct (Hp b Hb) as [->|[X Y]]; [done|]. by destruct (pcs b), (pcs' b).
Qed.

(** Every thread of the queue but the first is linking itself or spinning, not owning. *)
Lemma chain_member m pcs a l b : chain m pcs a l -> b ∈ l -> r_locked m b <> OWNED /\ (linking (pcs b) = true \/ spinning (pcs b) = true).
Proof.
  intros C Hb. destruct (qchain_member _ _ _ _ _ _ C Hb) as [H1 H2]. split; [by apply bool_decide_eq_false in H1|].
  destruct (pcs b); cbn in *; auto.
Qed.

Lemma place_app m q j p l : place_ok m q j p -> place_ok m (q ++ l) j p.
Proof.
  destruct p; cbn [place_ok]; try done; [intros (b & r & ->)|intros (E & b & r & ->)|intros (E & b & r & ->)];
    try (split; [done|]); by exists b, (r ++ l).
Qed.

Lemma place_same m m' q j p :
  clean_cnt m' = clean_cnt m -> r_next m' j = r_next m j -> r_locked m' j = r_locked m j -> place_ok m q j p -> place_ok m' q j p.
Proof. intros E1 E2 E3. destruct p; cbn [place_ok]; rewrite ?E1, ?E2, ?E3; done. Qed.

Section Steps.
Context (st : rsys) (served q : list Z) (I : rinv st served q).

Lemma head_of i : in_queue (rs_pc st i) = true -> linking (rs_pc st i) = false ->
  spinning (rs_pc st i) = false \/ r_locked (rs_mem st) i = OWNED -> exists l, q = i :: l.
Proof using I.
  intros Hi Hl Hs. apply (ri_queue _ _ _ I) in Hi. destruct q as [|h l] eqn:Eq; [by apply not_elem_of_nil in Hi|].
  destruct (ri_chain _ _ _ I h l eq_refl) as [_ C]. apply list.elem_of_cons in Hi as [->|Hi]; [by exists l|].
  destruct (chain_member _ _ _ _ _ C Hi) as [F1 [F2|F2]]; [congruence|]. destruct Hs; congruence.
Qed.

Lemma inside_head i : inside (rs_pc st i) = true -> exists l, q = i :: l.
Proof using I. intros H. apply head_of; [..|left]; by destruct (rs_pc st i). Qed.

(** A step of [i] that leaves the queue as it is. *)
Record frame (i : Z) (p' : rpc) (m' : rmem) : Prop := {
  fr_tail : r_tail m' = r_tail (rs_mem st);
  fr_clean : clean_in_prog m' = clean_in_prog (rs_mem st) /\ clean_cnt m' = clean_cnt (rs_mem st);
  fr_next j : j <> i \/ i ∈ q -> r_next m' j = r_next (rs_mem st) j;
  fr_locked j : j <> i -> r_locked m' j = r_locked (rs_mem st) j;
  fr_queue : in_queue p' = in_queue (rs_pc st i);
  fr_role : i ∈ q ->
    (spinning (rs_pc st i) = true /\ spinning p' = true /\ r_locked m' i = r_locked (rs_mem st) i) \/
    ((exists l, q = i :: l) /\ linking p' = false /\ (spinning p' = true -> r_locked m' i = OWNED));
  fr_place : place_ok m' q i p';
  fr_inside : (inside (rs_pc st i) = true -> inside p' = true) /\ enters (rs_pc st i) p' = inside p' && negb (inside (rs_pc st i));
  fr_arrives : arrives (rs_pc st i) = false }.

Lemma frame_inv i p' m' :
  frame i p' m' ->
  rinv (RSys m' (upd (rs_pc st) i p') (arrivals st ++ if arrives (rs_pc st i) then [i] else [])
    (entries st ++ if enters (rs_pc st i) p' then [i] else [])) served q.
Proof using I.
  intros [F1 [F2 F2'] F3 F4 F5 F6 F7 [F8 F9] F10]. destruct I as [I1 I2 I3 I4 I5 I6 I7 I8].
  assert (Hin : inside p' = true -> i ∈ q) by (intros X; apply I4; rewrite <-F5; by destruct p').
  constructor; cbn [rs_mem rs_pc arrivals entries].
  - congruence.
  - done.
  - congruence.
  - intros j. destruct (Z.eq_dec i j) as [<-|Hne]; [rewrite upd_same, F5; apply I4|rewrite upd_other by done; apply I4].
  - intros h l Eq. destruct (I5 h l Eq) as [[G1 G2] C]. assert (Hh : h ∉ l) by (rewrite Eq in I2; by apply list.NoDup_cons in I2 as [? _]). split.
    + unfold granted. destruct (Z.eq_dec i h) as [<-|Hne]; [rewrite upd_same|rewrite upd_other, F4 by done; done].
      destruct F6 as [(S1 & S2 & S3)|(_ & S2 & S3)]; [rewrite Eq; by left| |done]. split; [by destruct p'|]. intros _. rewrite S3. by apply G2.
    + eapply rchain_ext; [..|exact C].
      * intros x Hx. apply F3. destruct (Z.eq_dec x i) as [->|]; [right|by left]. rewrite Eq. apply list.elem_of_cons. tauto.
      * intros b Hb. destruct (Z.eq_dec b i) as [->|]; [|by apply F4].
        destruct F6 as [(_ & _ & S3)|([l' Eq'] & _)]; [rewrite Eq; by right|done|]. rewrite Eq' in Eq. injection Eq as -> ->. done.
      * intros b Hb. destruct (Z.eq_dec i b) as [<-|]; [|left; by apply upd_other]. rewrite upd_same.
        destruct F6 as [(S1 & S2 & _)|([l' Eq'] & _)]; [rewrite Eq; by right|by right|]. rewrite Eq' in Eq. injection Eq as -> ->. done.
  - intros j. destruct (Z.eq_dec i j) as [<-|Hne]; [by rewrite upd_same|]. rewrite upd_other by done.
    apply (place_same (rs_mem st)); [done|by apply F3; auto|by apply F4|apply I6].
  - rewrite F10, app_nil_r. done.
  - rewrite I8, F9. destruct q as [|h l] eqn:Eq.
    + destruct (inside p') eqn:X; [by specialize (Hin eq_refl); apply not_elem_of_nil in Hin|]. by rewrite app_nil_r.
    + destruct (Z.eq_dec i h) as [<-|Hne].
      * rewrite upd_same. destruct (inside (rs_pc st i)) eqn:X; [rewrite (F8 eq_refl); cbn; by rewrite app_nil_r|]. rewrite app_nil_r. by rewrite andb_true_r.
      * rewrite upd_other by done. destruct (inside p') eqn:X; [|by rewrite app_nil_r]. exfalso.
        destruct (F6 (Hin eq_refl)) as [(_ & S2 & _)|([l' [= ->]] & _)]; [by destruct p'|done].
Qed.

(** *** Joining the queue *)

Lemma xchg_inv i :
  rs_pc st i = LXchg ->
  rinv (RSys (set_tail (rs_mem st) (Some i)) (upd (rs_pc st) i (match r_tail (rs_mem st) with Some pred => LLink pred | None => LOwn end))
    (arrivals st ++ [i]) (entries st)) served (q ++ [i]).
Proof using I.
  intros Hp. destruct I as [I1 I2 I3 I4 I5 I6 I7 I8]. pose proof (I6 i) as P. rewrite Hp in P. destruct P as [P1 P2].
  assert (Hi : i ∉ q) by (rewrite I4, Hp; done). set (p' := match r_tail (rs_mem st) with Some pred => LLink pred | None => LOwn end).
  assert (Hout : forall j, j ∈ q -> i <> j) by (intros j Hj ->; done).
  constructor; cbn [rs_mem rs_pc arrivals entries set_tail r_tail clean_in_prog].
  - done.
  - apply list.NoDup_app. split; [done|]. split; [intros x Hx ->%list_elem_of_singleton; done|apply NoDup_singleton].
  - by rewrite last_snoc.
  - intros j. rewrite list.elem_of_app, list_elem_of_singleton. destruct (Z.eq_dec i j) as [<-|Hne].
    + rewrite upd_same. unfold p'. destruct (r_tail (rs_mem st)); tauto.
    + rewrite upd_other by done. rewrite I4. naive_solver.
  - intros h l Eq. destruct q as [|h' l'] eqn:Eq'.
    + injection Eq as <- <-. unfold granted. rewrite upd_same. unfold p'. rewrite I3. cbn [list.last chain]. by split.
    + injection Eq as <- <-. destruct (I5 h' l' eq_refl) as [[G1 G2] C]. assert (i <> h') by (apply Hout; by left). split.
      * unfold granted. by rewrite upd_other.
      * destruct (list.last (h' :: l')) as [z|] eqn:Ez; [|by apply last_None in Ez]. apply (qchain_snoc _ _ _ _ _ z); try done.
        -- eapply rchain_ext; [..|exact C]; [done|done|]. intros b Hb. left. apply upd_other. apply Hout. by right.
        -- by apply bool_decide_eq_false.
        -- rewrite upd_same. unfold p'. by rewrite I3.
  - intros j. destruct (Z.eq_dec i j) as [<-|Hne]; [rewrite upd_same; unfold p'; by destruct (r_tail (rs_mem st))|]. rewrite upd_other by done.
    apply place_app. apply (place_same (rs_mem st)); [done|done|done|apply I6].
  - by rewrite I7, app_assoc.
  - rewrite I8. destruct q as [|h l]; cbn [app]; [rewrite upd_same; unfold p'; by destruct (r_tail (rs_mem st))|].
    rewrite upd_other by (apply Hout; by left). done.
Qed.

(** *** Linking *)

Lemma chain_pred m pcs a l i p : chain m pcs a l -> i ∈ l -> pcs i = LLink p -> p ∈ a :: l /\ r_next m p = None.
Proof using. intros C Hi Hp. apply (qchain_pred _ _ _ _ _ _ _ C Hi). by rewrite Hp. Qed.

Lemma chain_link m pcs a l i p :
  chain m pcs a l -> NoDup (a :: l) -> i ∈ l -> pcs i = LLink p -> chain (set_next m p (Some i)) (upd pcs i LVol0) a l.
Proof using.
  intros C Hd Hi Hp. assert (Hr : role_of (pcs i) = Linking p) by (by rewrite Hp).
  eapply qchain_ext; [..|exact (qchain_link _ _ _ _ _ _ _ C Hd Hi Hr)]; [done|done|].
  intros b Hb. unfold upd. by destruct (b =? i).
Qed.

Lemma link_inv i p :
  rs_pc st i = LLink p ->
  rinv (RSys (set_next (rs_mem st) p (Some i)) (upd (rs_pc st) i LVol0) (arrivals st) (entries st)) served q.
Proof using I.
  intros Hp. destruct I as [I1 I2 I3 I4 I5 I6 I7 I8]. assert (Hi : i ∈ q) by (apply I4; by rewrite Hp).
  destruct q as [|h l] eqn:Eq; [by apply not_elem_of_nil in Hi|]. destruct (I5 h l eq_refl) as [[G1 G2] C].
  assert (Hne : i <> h) by (intros ->; by rewrite Hp in G1). apply list.elem_of_cons in Hi as [->|Hi]; [done|].
  destruct (chain_pred _ _ _ _ _ _ C Hi Hp) as [Hpin Hpn].
  constructor; cbn [rs_mem rs_pc arrivals entries set_next r_tail clean_in_prog]; try done.
  - intros j. destruct (Z.eq_dec i j) as [<-|]; [rewrite upd_same|rewrite upd_other by done; apply I4]. split; [done|]. intros _. by right.
  - intros h' l' [= <- <-]. split; [unfold granted; by rewrite upd_other|by apply chain_link].
  - intros j. destruct (Z.eq_dec i j) as [<-|Hij]; [by rewrite upd_same|]. rewrite upd_other by done. specialize (I6 j).
    destruct (Z.eq_dec p j) as [<-|Hpj]; [|apply (place_same (rs_mem st)); [done|cbn [set_next r_next]; by apply upd_other|done|done]].
    apply I4 in Hpin. destruct (rs_pc st p); cbn [place_ok in_queue set_next r_next clean_cnt] in *; rewrite ?upd_same; try done; naive_solver congruence.
  - rewrite upd_other by done. done.
Qed.

(** *** Leaving the queue *)

Lemma cas_inv i :
  rs_pc st i = UCas -> r_tail (rs_mem st) = Some i ->
  rinv (RSys (set_tail (rs_mem st) None) (upd (rs_pc st) i UVolEnd) (arrivals st) (entries st)) (served ++ [i]) [].
Proof using I.
  intros Hp Ht. destruct (inside_head i) as [l Eq]; [by rewrite Hp|]. destruct I as [I1 I2 I3 I4 I5 I6 I7 I8]. rewrite Eq in *.
  assert (l = []) as ->.
  { destruct l as [|b l]; [done|exfalso]. rewrite Ht in I3. change (list.last (i :: b :: l)) with (list.last (b :: l)) in I3.
    symmetry in I3. apply last_Some_elem_of in I3. by apply list.NoDup_cons in I2 as [? _]. }
  assert (Hout : forall j, j <> i -> in_queue (rs_pc st j) = false).
  { intros j Hj. destruct (in_queue (rs_pc st j)) eqn:X; [|done]. apply I4 in X. by apply list_elem_of_singleton in X. }
  constructor; cbn [rs_mem rs_pc arrivals entries set_tail r_tail clean_in_prog]; try done.
  - constructor.
  - intros j. destruct (Z.eq_dec i j) as [<-|]; [rewrite upd_same|rewrite upd_other, Hout by done]; (split; [intros []%not_elem_of_nil|done]).
  - intros j. destruct (Z.eq_dec i j) as [<-|Hne]; [by rewrite upd_same|]. rewrite upd_other by done. specialize (Hout j ltac:(done)). specialize (I6 j).
    destruct (rs_pc st j); done.
  - by rewrite I7, app_nil_r.
  - rewrite I8, Hp. by rewrite app_nil_r.
Qed.

Lemma give_inv i n :
  rs_pc st i = UOwn n ->
  exists r, q = i :: n :: r /\
    rinv (RSys (set_lstatus (rs_mem st) n OWNED) (upd (rs_pc st) i UVolEnd) (arrivals st) (entries st)) (served ++ [i]) (n :: r).
Proof using I.
  intros Hp. destruct (inside_head i) as [l Eq]; [by rewrite Hp|]. destruct I as [I1 I2 I3 I4 I5 I6 I7 I8]. rewrite Eq in *.
  pose proof (I6 i) as Hn. rewrite Hp in Hn. cbn [place_ok] in Hn. destruct (I5 i l eq_refl) as [_ C].
  destruct (qchain_succ _ _ _ _ _ _ C Hn) as (r & -> & F1 & F2 & C'). clear C. rename C' into C, n into b. exists r. split; [done|].
  pose proof I2 as [D1 D2]%list.NoDup_cons. pose proof D2 as [D3 D4]%list.NoDup_cons. assert (Hib : i <> b) by (intros ->; apply D1; by left).
  constructor; cbn [rs_mem rs_pc arrivals entries set_lstatus r_tail clean_in_prog]; try done.
  - intros j. destruct (Z.eq_dec i j) as [<-|]; [rewrite upd_same|rewrite upd_other by done]; [by split|].
    rewrite <-I4, (list.elem_of_cons (b :: r)). naive_solver.
  - intros h l [= <- <-]. split.
    + unfold granted. rewrite upd_other by done. cbn [set_lstatus r_locked]. rewrite upd_same. split; [by destruct (rs_pc st b)|done].
    + eapply rchain_ext; [..|exact C]; cbn [set_lstatus r_next r_locked]; [done| |].
      * intros x Hx. apply upd_other. by intros ->.
      * intros x Hx. left. apply upd_other. intros ->. apply D1. by right.
  - intros j. destruct (Z.eq_dec i j) as [<-|Hne]; [by rewrite upd_same|]. rewrite upd_other by done. specialize (I6 j).
    destruct (Z.eq_dec b j) as [<-|Hbj]; [by destruct (rs_pc st b)|].
    destruct (rs_pc st j); cbn [place_ok set_lstatus r_next r_locked clean_cnt] in *; try done; [by rewrite upd_other|naive_solver..].
  - by rewrite I7, <-app_assoc.
  - rewrite I8, Hp, upd_other by done. cbn [inside]. assert (inside (rs_pc st b) = false) as -> by (by destruct (rs_pc st b)). by rewrite app_nil_r.
Qed.

(** *** The other steps *)

(** The steps that change the queue. *)
Definition structural (p : rpc) : bool := match p with LXchg | LLink _ | UCas | UOwn _ => true | _ => false end.

(** Accesses of the thread's own node, and of what it does not share. *)
Definition own_access (i : Z) (m' : rmem) : Prop :=
  r_tail m' = r_tail (rs_mem st) /\ clean_in_prog m' = clean_in_prog (rs_mem st) /\ clean_cnt m' = clean_cnt (rs_mem st) /\
  (forall j, j <> i -> r_next m' j = r_next (rs_mem st) j) /\ (forall j, j <> i -> r_locked m' j = r_locked (rs_mem st) j).

Lemma frame_out i p' m' :
  own_access i m' -> in_queue (rs_pc st i) = false -> in_queue p' = false -> arrives (rs_pc st i) = false -> place_ok m' q i p' -> frame i p' m'.
Proof using I.
  intros (A1 & A2 & A3 & A4 & A5) H1 H2 H3 H4. assert (Hi : i ∉ q) by (rewrite (ri_queue _ _ _ I), H1; done).
  constructor; try done; [intros j [|]; [by apply A4|done]|by rewrite H1|].
  split; [by destruct (rs_pc st i)|]. by destruct (rs_pc st i), p'.
Qed.

Lemma frame_head i p' m' :
  own_access i m' -> r_next m' i = r_next (rs_mem st) i -> in_queue (rs_pc st i) = true -> in_queue p' = true -> (exists l, q = i :: l) ->
  linking p' = false -> spinning p' = false -> (inside (rs_pc st i) = true -> inside p' = true) ->
  enters (rs_pc st i) p' = inside p' && negb (inside (rs_pc st i)) -> place_ok m' q i p' -> frame i p' m'.
Proof using.
  intros (A1 & A2 & A3 & A4 & A5) Hn H1 H2 H3 H4 H5 H6 H7 H8.
  constructor; try done; [intros j _; destruct (Z.eq_dec j i) as [->|]; auto|by rewrite H1|intros _; right; split_and!; [done|done|congruence]|by destruct (rs_pc st i)].
Qed.

(** A thread that goes on waiting. *)
Lemma frame_spin i p' m' :
  own_access i m' -> r_next m' i = r_next (rs_mem st) i -> r_locked m' i = r_locked (rs_mem st) i ->
  spinning (rs_pc st i) = true -> spinning p' = true -> frame i p' m'.
Proof using.
  intros (A1 & A2 & A3 & A4 & A5) Hn Hl H1 H2. constructor; try done.
  - intros j _. destruct (Z.eq_dec j i) as [->|]; auto.
  - by destruct (rs_pc st i), p'.
  - intros _. by left.
  - by destruct p'.
  - by destruct (rs_pc st i), p'.
  - by destruct (rs_pc st i).
Qed.

Lemma own_set_vol i b : own_access i (set_vol (rs_mem st) i b).
Proof using. by split_and!. Qed.
Lemma own_set_wants i b : own_access i (set_wants (rs_mem st) i b).
Proof using. by split_and!. Qed.
Lemma own_set_lstatus i b : own_access i (set_lstatus (rs_mem st) i b).
Proof using. split_and!; try done. intros j Hj. cbn. apply upd_other. congruence. Qed.
Lemma own_set_next i b : own_access i (set_next (rs_mem st) i b).
Proof using. split_and!; try done. intros j Hj. cbn. apply upd_other. congruence. Qed.
Lemma own_none i : own_access i (rs_mem st).
Proof using. by split_and!. Qed.
Local Hint Resolve own_set_vol own_set_wants own_set_lstatus own_set_next own_none : core.

(** The successor of a head whose tail is another node. *)
Lemma head_succ i l : q = i :: l -> r_tail (rs_mem st) <> Some i -> exists b r, q = i :: b :: r.
Proof using I. intros Eq Ht. rewrite (ri_tail _ _ _ I), Eq in Ht. destruct l as [|b r]; [done|]. by exists b, r. Qed.

(** A step that does not change the queue happens, and keeps everything. *)
Lemma plain_step i : structural (rs_pc st i) = false -> exists p' m', rmcs_step i (rs_pc st i) (rs_mem st) = Ret (p', m') /\ frame i p' m'.
Proof using I.
  intros Hs. pose proof (ri_place _ _ _ I i) as P. pose proof (ri_clean _ _ _ I) as Hc. pose proof (inside_head i) as Hh.
  pose proof (head_of i) as Ho.
  destruct (rs_pc st i) as [| | | | | | |pr| | | | | | | | | | | |cc|cc|cc|cc| |n| |] eqn:Ep; try done; cbn [rmcs_step place_ok] in *; rewrite ?Hc; cbn [bug_on orb].
  all: try (eexists _, _; split; [done|]; apply frame_out; rewrite ?Ep; cbn; auto; fail).
  all: try (eexists _, _; split; [done|]; apply frame_head; rewrite ?Ep; cbn; auto; fail).
  - eexists _, _. split; [done|]. apply frame_out; rewrite ?Ep; auto. apply upd_same.
  - eexists _, _. split; [done|]. apply frame_out; rewrite ?Ep; auto. cbn. by rewrite upd_same.
  - eexists _, _. split; [done|]. apply frame_spin; rewrite ?Ep; auto.
  - eexists _, _. split; [done|]. destruct (decide (r_locked (rs_mem st) i = OWNED)); [|apply frame_spin; rewrite ?Ep; auto].
    apply frame_head; rewrite ?Ep; cbn; auto.
  - eexists _, _. split; [done|]. destruct (r_next (rs_mem st) i) eqn:En; apply frame_head; rewrite ?Ep; cbn; auto. congruence.
  - eexists _, _. split; [done|]. destruct P as [-> (b & r & Eq)]. rewrite Z.eqb_refl, andb_true_r.
    destruct (bool_decide_reflect (r_next (rs_mem st) i = None)) as [E|E]; cbn [andb negb]; apply frame_head; rewrite ?Ep; cbn; auto. split; [done|]. by exists b, r.
  - destruct P as [-> P]. rewrite Z.eqb_refl. cbn [negb]. eexists _, _. split; [done|]. apply frame_head; rewrite ?Ep; cbn; auto.
  - destruct (r_next (rs_mem st) i) eqn:En; [|done]. eexists _, _. split; [done|]. apply frame_head; rewrite ?Ep; cbn; auto.
Qed.
End Steps.

(** Every thread can take its next step, and a step keeps the invariant for some queue. *)
Lemma any_step st served q i : rinv st served q ->
  exists p' m', rmcs_step i (rs_pc st i) (rs_mem st) = Ret (p', m') /\
    exists served' q', rinv (RSys m' (upd (rs_pc st) i p') (arrivals st ++ if arrives (rs_pc st i) then [i] else [])
      (entries st ++ if enters (rs_pc st i) p' then [i] else [])) served' q'.
Proof.
  intros I. destruct (structural (rs_pc st i)) eqn:Hs.
  2:{ destruct (plain_step st served q I i Hs) as (p' & m' & E & F). exists p', m'. split; [done|]. exists served, q. by apply frame_inv. }
  destruct (rs_pc st i) as [| | | | | | |pr| | | | | | | | | | | |cc|cc|cc|cc| |n| |] eqn:Ep; try done; cbn [rmcs_step arrives].
  - eexists _, _. split; [done|]. exists served, (q ++ [i]). pose proof (xchg_inv st served q I i Ep) as X.
    destruct (r_tail (rs_mem st)); cbn [enters]; by rewrite app_nil_r.
  - eexists _, _. split; [done|]. exists served, q. cbn [enters]. rewrite !app_nil_r. by apply link_inv.
  - destruct (decide (r_tail (rs_mem st) = Some i)) as [Ht|Ht].
    + eexists _, _. split; [done|]. exists (served ++ [i]), []. cbn [enters]. rewrite !app_nil_r. by apply (cas_inv st served q).
    + eexists _, _. split; [done|]. exists served, q. cbn [enters]. rewrite <-(app_nil_r (arrivals st)), <-(app_nil_r (entries st)).
      pose proof (frame_inv st served q I i UCnt (rs_mem st)) as F. rewrite Ep in F. cbn [arrives enters] in F. rewrite !app_nil_r in *. apply F.
      destruct (inside_head st served q I i) as [l Eq]; [by rewrite Ep|]. apply frame_head; rewrite ?Ep; cbn; auto; [by split_and!|by exists l|].
      by eapply (head_succ st served q).
  - eexists _, _. split; [done|]. destruct (give_inv st served q I i n Ep) as (r & _ & X). exists (served ++ [i]), (n :: r). cbn [enters]. by rewrite !app_nil_r.
Qed.

Lemma rreachable_inv st : rsys_reachable st -> exists served q, rinv st served q.
Proof.
  induction 1 as [m Ht Hc|st st' _ (served & q & IH) Hs].
  - exists [], []. constructor; cbn; try done; [constructor|]. intros i. split; [intros []%not_elem_of_nil|done].
  - destruct Hs as [i st p' m' E]. destruct (any_step st served q i IH) as (p1 & m1 & E1 & served' & q' & X). rewrite E in E1.
    injection E1 as <- <-. by exists served', q'.
Qed.

(** Mutual exclusion of the queue lock: at most one thread is between its entry to
    the critical section and the hand-over of the lock. *)
Theorem rmcs_mutual_exclusion (st : rsys) (i : Z) :
  rsys_reachable st -> inside (rs_pc st i) = true -> forall j, inside (rs_pc st j) = true -> j = i.
Proof.
  intros R Hi j Hj. apply rreachable_inv in R as (served & q & I). destruct (inside_head _ _ _ I i Hi) as [l E]. destruct (inside_head _ _ _ I j Hj) as [l' E'].
  congruence.
Qed.

(** C32. The queue lock is first come, first served: the threads enter the critical section
    in the order of their exchanges on the tail; the entries are a prefix of the arrivals. *)
Theorem rmcs_fifo (st : rsys) : rsys_reachable st -> entries st `prefix_of` arrivals st.
Proof.
  intros R. apply rreachable_inv in R as (served & q & I). rewrite (ri_arrivals _ _ _ I), (ri_entries _ _ _ I).
  apply prefix_app. destruct q as [|h l]; [done|]. case_match; [by exists l|by exists (h :: l)].
Qed.

(** The queue lock does not get stuck: no step fails, neither an assertion nor a null
    dereference, and while any thread is in the queue some thread of the queue can
    take a step that is not a round of waiting. *)
Theorem rmcs_progress (st : rsys) (i : Z) :
  rsys_reachable st ->
  (exists p' m', rmcs_step i (rs_pc st i) (rs_mem st) = Ret (p', m')) /\
  (in_queue (rs_pc st i) = true ->
     exists j p' m', in_queue (rs_pc st j) = true /\ rmcs_step j (rs_pc st j) (rs_mem st) = Ret (p', m') /\ p' <> rs_pc st j).
Proof.
  intros R. apply rreachable_inv in R as (served & q & I). split; [destruct (any_step st served q i I) as (p' & m' & E & _); eauto|].
  intros Hi. apply (ri_queue _ _ _ I) in Hi. destruct q as [|h l]; [by apply not_elem_of_nil in Hi|].
  destruct (ri_chain _ _ _ I h l eq_refl) as [[G1 G2] C].
  assert (Hh : in_queue (rs_pc st h) = true) by (apply (ri_queue _ _ _ I); by left).
  assert (Hstuck : (exists cc, rs_pc st h = USpin cc /\ r_next (rs_mem st) h = None) \/
    forall p' m', rmcs_step h (rs_pc st h) (rs_mem st) = Ret (p', m') -> p' <> rs_pc st h).
  { destruct (rs_pc st h) as [| | | | | | |pr| | | | | | | | | | | |cc|cc|cc|cc| |n| |] eqn:Ep; cbn [rmcs_step] in *; unfold bug_on; try done.
    all: try (right; intros p' m' E; repeat case_match; by injection E as <- _ || congruence).
    - right. intros p' m' E. rewrite decide_True in E by (by apply G2). by injection E as <- _.
    - destruct (r_next (rs_mem st) h) eqn:En; [right|left; by exists cc]. intros p' m' E. rewrite bool_decide_false in E by done. by injection E as <- _. }
  destruct Hstuck as [(cc & Ep & En)|Hm].
  - pose proof (ri_place _ _ _ I h) as P. rewrite Ep in P. destruct P as [_ (b & r & [= ->])]. destruct C as [[_ [[F _]|[_ F]]] _]; [|congruence].
    assert (E : rs_pc st b = LLink h) by (destruct (rs_pc st b); cbn in F; congruence).
    exists b, LVol0, (set_next (rs_mem st) h (Some b)). by rewrite E.
  - destruct (any_step st served (h :: l) h I) as (p' & m' & E & _). exists h, p', m'. split; [done|]. split; [done|]. by apply (Hm p' m').
Qed.

(** ** A run of two threads *)

Fixpoint rrun (threads : list Z) (st : rsys) : option rsys :=
  match threads with
  | [] => Some st
  | i :: rest =>
      match rmcs_step i (rs_pc st i) (rs_mem st) with
      | Ret (p', m') =>
          rrun rest (RSys m' (upd (rs_pc st) i p') (arrivals st ++ if arrives (rs_pc st i) then [i] else [])
            (entries st ++ if enters (rs_pc st i) p' then [i] else []))
      | Bug => None
      end
  end.

Lemma rrun_reachable threads st st' : rsys_reachable st -> rrun threads st = Some st' -> rsys_reachable st'.
Proof.
  revert st. induction threads as [|i rest IH]; intros st R; cbn [rrun]; [by intros [= <-]|].
  destruct (rmcs_step i (rs_pc st i) (rs_mem st)) as [[p' m']|] eqn:E; [|done]. apply IH. eapply rsys_next; [done|by apply rsys_thread].
Qed.

(** 0 takes the lock; 1 exchanges the tail and has not linked itself; 0 waits for it in [rmcs_unlock]. *)
Definition rstart : rsys := RSys (RMem None 0 false (fun _ => Some 7) (fun _ => OWNED) (fun _ => false) (fun _ => false)) (fun _ => RIdle) [] [].
Definition rexample : rsys := default rstart (rrun (repeat 0 9 ++ repeat 1 7 ++ repeat 0 8) rstart).

Lemma rexample_reachable : rsys_reachable rexample.
Proof.
  unfold rexample. destruct (rrun _ _) as [st|] eqn:E; cbn [default from_option]; [|by apply rsys_init]. by eapply rrun_reachable; [apply rsys_init|apply E].
Qed.

Lemma rmcs_mutual_exclusion_witness :
  inside (rs_pc rexample 0) = true /\ forall j, inside (rs_pc rexample j) = true -> j = 0.
Proof. split; [by vm_compute|]. apply (rmcs_mutual_exclusion rexample 0); [apply rexample_reachable|by vm_compute]. Defined.

Lemma rmcs_fifo_witness : entries rexample `prefix_of` arrivals rexample.
Proof. apply (rmcs_fifo rexample). apply rexample_reachable. Defined.

Lemma rmcs_progress_witness :
  (exists p' m', rmcs_step 0 (rs_pc rexample 0) (rs_mem rexample) = Ret (p', m')) /\
  (in_queue (rs_pc rexample 0) = true ->
     exists j p' m', in_queue (rs_pc rexample j) = true /\ rmcs_step j (rs_pc rexample j) (rs_mem rexample) = Ret (p', m') /\ p' <> rs_pc rexample j).
Proof. apply (rmcs_progress rexample 0). apply rexample_reachable. Defined.
