(* ===== verification/QSpinlock.v ===== *)
(** The queued spinlock of the lock benchmark,
    src/lupin_lock_benchmark/linux/queued_spinlock.h: the encoding of the lock word and
    of the tail, and the lock as a program of memory accesses that any number of
    threads run concurrently.

    The build is the one for CONFIG_NR_CPUS of 64, with a whole byte for the pending
    bit.  Each access happens once and in program order; the nodes are numbered as in
    [mcs_pool], four for each thread. *)
From Stdlib Require Import ZArith Lia Bool.
From stdpp Require Import base list numbers.
From S2P Require Import Prelude TatasLock McsQueue.
Local Open Scope Z_scope.

(** ** The lock word *)

Definition _Q_LOCKED_OFFSET : Z := 0.
Definition _Q_LOCKED_BITS : Z := 8.
Definition _Q_PENDING_OFFSET : Z := _Q_LOCKED_OFFSET + _Q_LOCKED_BITS.
Definition _Q_PENDING_BITS : Z := 8.
Definition _Q_TAIL_IDX_OFFSET : Z := _Q_PENDING_OFFSET + _Q_PENDING_BITS.
Definition _Q_TAIL_IDX_BITS : Z := 2.
Definition _Q_TAIL_CPU_OFFSET : Z := _Q_TAIL_IDX_OFFSET + _Q_TAIL_IDX_BITS.
Definition _Q_TAIL_CPU_BITS : Z := 32 - _Q_TAIL_CPU_OFFSET.
Definition _Q_TAIL_OFFSET : Z := _Q_TAIL_IDX_OFFSET.

Definition _Q_SET_MASK (bits offset : Z) : Z := u32 (Z.shiftl (u32 (Z.shiftl 1 bits) - 1) offset).
Definition _Q_LOCKED_MASK : Z := _Q_SET_MASK _Q_LOCKED_BITS _Q_LOCKED_OFFSET.
Definition _Q_PENDING_MASK : Z := _Q_SET_MASK _Q_PENDING_BITS _Q_PENDING_OFFSET.
Definition _Q_TAIL_IDX_MASK : Z := _Q_SET_MASK _Q_TAIL_IDX_BITS _Q_TAIL_IDX_OFFSET.
Definition _Q_TAIL_CPU_MASK : Z := _Q_SET_MASK _Q_TAIL_CPU_BITS _Q_TAIL_CPU_OFFSET.
Definition _Q_TAIL_MASK : Z := Z.lor _Q_TAIL_IDX_MASK _Q_TAIL_CPU_MASK.
Definition _Q_LOCKED_PENDING_MASK : Z := Z.lor _Q_LOCKED_MASK _Q_PENDING_MASK.
Definition _Q_LOCKED_VAL : Z := Z.shiftl 1 _Q_LOCKED_OFFSET.
Definition _Q_PENDING_VAL : Z := Z.shiftl 1 _Q_PENDING_OFFSET.

Definition encode_tail (cpu idx : Z) : Z :=
  let tail := u32 (Z.shiftl (cpu + 1) _Q_TAIL_CPU_OFFSET) in
  Z.lor tail (u32 (Z.shiftl idx _Q_TAIL_IDX_OFFSET)).

(** The number of the node in [mcs_pool]. *)
Definition decode_tail (tail : Z) : Z :=
  let cpu := Z.shiftr tail _Q_TAIL_CPU_OFFSET - 1 in
  let idx := Z.shiftr (Z.land tail _Q_TAIL_IDX_MASK) _Q_TAIL_IDX_OFFSET in
  4 * cpu + idx.

(** Stores to parts of the word: the byte [locked], and the halfwords
    [locked_pending] and [tail]. *)
Definition set_locked (val : Z) : Z := Z.lor (Z.land val (u32 (Z.lnot 255))) _Q_LOCKED_VAL.
Definition clear_pending_set_locked (val : Z) : Z := Z.lor (Z.land val (u32 (Z.lnot 65535))) _Q_LOCKED_VAL.
Definition clear_locked (val : Z) : Z := Z.land val (u32 (Z.lnot 255)).

(** The new word, and the previous tail. *)
Definition xchg_tail (val tail : Z) : Z * Z :=
  (Z.lor (Z.land val 65535) (u32 (Z.shiftl (u16 (Z.shiftr tail _Q_TAIL_OFFSET)) 16)),
   u32 (Z.shiftl (u16 (Z.shiftr val 16)) _Q_TAIL_OFFSET)).

(** ** The lock *)

(** The lock word and the nodes. *)
Record qmem := QMem { q_val : Z; q_next : Z -> option Z; q_locked : Z -> Z; q_count : Z -> Z }.

Definition set_qval (m : qmem) v := QMem v (q_next m) (q_locked m) (q_count m).
Definition set_qnext (m : qmem) n x := QMem (q_val m) (upd (q_next m) n x) (q_locked m) (q_count m).
Definition set_qlocked (m : qmem) n x := QMem (q_val m) (q_next m) (upd (q_locked m) n x) (q_count m).
Definition set_qcount (m : qmem) n x := QMem (q_val m) (q_next m) (q_locked m) (upd (q_count m) n x).

(** Where a thread is: before the access that the name tells.  [node] is the node
    that it queues with, [next] what it knows of the successor. *)
Inductive qpc :=
| QIdle
| QFast | QSpinPending | QTry (val : Z)
| QPending | QTake
| QCountUp | QInitLocked (idx : Z) | QInitNext (idx : Z) | QTryRead (idx : Z) | QTryCas (idx : Z) | QXchg (idx : Z)
| QLink (idx prev : Z) | QWait (idx : Z) | QReadNext (idx : Z)
| QHead (idx : Z) (next : option Z) | QClaim (idx : Z) (next : option Z) (val : Z)
| QNextSpin (idx : Z) | QHand (next : Z)
| QRelease
| QCritical.

(** From the value of the word on: contention is queued. *)
Definition try_or_queue (val : Z) : qpc := if truthy (Z.land val (u32 (Z.lnot _Q_LOCKED_MASK))) then QCountUp else QTry val.

(** The entry of [queued_spin_lock_slowpath]. *)
Definition slowpath (val : Z) : qpc := if val =? _Q_PENDING_VAL then QSpinPending else try_or_queue val.

(** The next access of the thread [i], in [lock_acquire], its critical section or
    [lock_release]. *)
Definition qstep (i : Z) (p : qpc) (m : qmem) : qpc * qmem :=
  let val := q_val m in
  match p with
  | QIdle => (QFast, m)
  | QFast => if val =? 0 then (QCritical, set_qval m _Q_LOCKED_VAL) else (slowpath val, m)
  | QSpinPending => (if val =? _Q_PENDING_VAL then QSpinPending else try_or_queue val, m)
  | QTry v =>
      let new_val := if v =? _Q_LOCKED_VAL then Z.lor _Q_LOCKED_VAL _Q_PENDING_VAL else _Q_LOCKED_VAL in
      if val =? v then (if new_val =? _Q_LOCKED_VAL then QCritical else QPending, set_qval m new_val)
      else (try_or_queue val, m)
  | QPending => (if truthy (Z.land val _Q_LOCKED_MASK) then QPending else QTake, m)
  | QTake => (QCritical, set_qval m (clear_pending_set_locked val))
  | QCountUp => (QInitLocked (q_count m (4 * i)), set_qcount m (4 * i) (q_count m (4 * i) + 1))
  | QInitLocked idx => (QInitNext idx, set_qlocked m (4 * i + idx) 0)
  | QInitNext idx => (QTryRead idx, set_qnext m (4 * i + idx) None)
  | QTryRead idx => (if truthy val then QXchg idx else QTryCas idx, m)
  | QTryCas idx => if val =? 0 then (QRelease, set_qval m _Q_LOCKED_VAL) else (QXchg idx, m)
  | QXchg idx =>
      let (new, old) := xchg_tail val (encode_tail i idx) in
      (if truthy (Z.land old _Q_TAIL_MASK) then QLink idx (decode_tail old) else QHead idx None, set_qval m new)
  | QLink idx prev => (QWait idx, set_qnext m prev (Some (4 * i + idx)))
  | QWait idx => (if truthy (q_locked m (4 * i + idx)) then QReadNext idx else QWait idx, m)
  | QReadNext idx => (QHead idx (q_next m (4 * i + idx)), m)
  | QHead idx next => (if truthy (Z.land val _Q_LOCKED_PENDING_MASK) then QHead idx next else QClaim idx next val, m)
  | QClaim idx next v =>
      if negb (Z.land v _Q_TAIL_MASK =? encode_tail i idx)
      then (match next with Some n => QHand n | None => QNextSpin idx end, set_qval m (set_locked val))
      else if val =? v then (QRelease, set_qval m _Q_LOCKED_VAL) else (QClaim idx next val, m)
  | QNextSpin idx => (match q_next m (4 * i + idx) with Some n => QHand n | None => QNextSpin idx end, m)
  | QHand n => (QRelease, set_qlocked m n 1)
  | QRelease => (QCritical, set_qcount m (4 * i) (q_count m (4 * i) - 1))
  | QCritical => (QIdle, set_qval m (clear_locked val))
  end.

Record qsys := QSys { qs_mem : qmem; qs_pc : Z -> qpc }.

(** The numbers of the threads fit the field of the tail. *)
Definition thread_ok (i : Z) : Prop := 0 <= i < 2 ^ 14 - 1.

Inductive qsys_step : qsys -> qsys -> Prop :=
| qsys_thread i st : thread_ok i ->
    qsys_step st (QSys (snd (qstep i (qs_pc st i) (qs_mem st))) (upd (qs_pc st) i (fst (qstep i (qs_pc st i) (qs_mem st))))).

(** [mcs_init_locks] clears the nodes. *)
Definition qinit : qsys := QSys (QMem 0 (fun _ => None) (fun _ => 0) (fun _ => 0)) (fun _ => QIdle).

Inductive qsys_reachable : qsys -> Prop :=
| qsys_init : qsys_reachable qinit
| qsys_next st st' : qsys_reachable st -> qsys_step st st' -> qsys_reachable st'.

(** ** Fields of the word *)

(** A word with the tail code [t], the pending byte [p] and the locked byte [l]. *)
Definition word (t p l : Z) : Z := t * 65536 + p * 256 + l.
Definition fields_ok (t p l : Z) : Prop := 0 <= t < 65536 /\ 0 <= p < 256 /\ 0 <= l < 256.

Lemma clear_low n v : 0 <= n -> 0 <= v < 2 ^ 32 -> Z.land v (u32 (Z.lnot (Z.ones n))) = v / 2 ^ n * 2 ^ n.
Proof.
  intros Hn Hv. transitivity (Z.ldiff v (Z.ones n)).
  - apply Z.bits_inj'. intros k Hk. rewrite Z.land_spec, Z.ldiff_spec. unfold u32.
    destruct (Z.lt_ge_cases k 32); [by rewrite Z.mod_pow2_bits_low, Z.lnot_spec by lia|].
    by rewrite (testbit_above v 32 k) by lia.
  - rewrite Z.ldiff_ones_r by lia. by rewrite Z.shiftl_mul_pow2, Z.shiftr_div_pow2 by lia.
Qed.

Lemma qword_range t p l : fields_ok t p l -> 0 <= word t p l < 2 ^ 32.
Proof. unfold fields_ok, word. lia. Qed.

Lemma word_locked t p l : fields_ok t p l -> Z.land (word t p l) _Q_LOCKED_MASK = l.
Proof.
  intros H. change _Q_LOCKED_MASK with (Z.ones 8). rewrite Z.land_ones by lia. unfold word, fields_ok in *. change (2 ^ 8) with 256.
  Z.div_mod_to_equations. lia.
Qed.

Lemma word_locked_pending t p l : fields_ok t p l -> Z.land (word t p l) _Q_LOCKED_PENDING_MASK = p * 256 + l.
Proof.
  intros H. change _Q_LOCKED_PENDING_MASK with (Z.ones 16). rewrite Z.land_ones by lia. unfold word, fields_ok in *. change (2 ^ 16) with 65536.
  Z.div_mod_to_equations. lia.
Qed.

Lemma word_unlocked t p l : fields_ok t p l -> Z.land (word t p l) (u32 (Z.lnot _Q_LOCKED_MASK)) = t * 65536 + p * 256.
Proof.
  intros H. change _Q_LOCKED_MASK with (Z.ones 8). rewrite clear_low by (try apply qword_range; done || lia).
  unfold word, fields_ok in *. change (2 ^ 8) with 256. Z.div_mod_to_equations. lia.
Qed.

Lemma word_tail t p l : fields_ok t p l -> Z.land (word t p l) _Q_TAIL_MASK = t * 65536.
Proof.
  intros H. change _Q_TAIL_MASK with (u32 (Z.lnot (Z.ones 16))). rewrite clear_low by (try apply qword_range; done || lia).
  unfold word, fields_ok in *. change (2 ^ 16) with 65536. Z.div_mod_to_equations. lia.
Qed.

Lemma word_clear_locked t p l : fields_ok t p l -> clear_locked (word t p l) = word t p 0.
Proof. intros H. unfold clear_locked. change 255 with _Q_LOCKED_MASK. rewrite word_unlocked by done. unfold word. lia. Qed.

Lemma word_set_locked t p l : fields_ok t p l -> set_locked (word t p l) = word t p 1.
Proof.
  intros H. unfold set_locked. change 255 with _Q_LOCKED_MASK. rewrite word_unlocked by done. change _Q_LOCKED_VAL with 1.
  replace (t * 65536 + p * 256) with (Z.shiftl (t * 256 + p) 8) by (rewrite Z.shiftl_mul_pow2 by lia; lia).
  rewrite lor_shiftl_add by lia. unfold word. lia.
Qed.

Lemma word_take t p l : fields_ok t p l -> clear_pending_set_locked (word t p l) = word t 0 1.
Proof.
  intros H. unfold clear_pending_set_locked. change 65535 with (Z.ones 16). rewrite clear_low by (try apply qword_range; done || lia).
  change _Q_LOCKED_VAL with 1. replace (_ / _ * _) with (Z.shiftl t 16).
  - rewrite lor_shiftl_add by lia. unfold word. lia.
  - rewrite Z.shiftl_mul_pow2 by lia. f_equal. unfold word, fields_ok in *. change (2 ^ 16) with 65536. Z.div_mod_to_equations. lia.
Qed.

Lemma word_xchg t p l t' : fields_ok t p l -> 0 <= t' < 65536 -> xchg_tail (word t p l) (t' * 65536) = (word t' p l, t * 65536).
Proof.
  intros H Ht. pose proof (qword_range t p l H) as W. unfold xchg_tail. change _Q_TAIL_OFFSET with 16. f_equal.
  - rewrite Z.shiftr_div_pow2 by lia. change (2 ^ 16) with 65536. rewrite Z.div_mul, u16_small by lia.
    rewrite u32_small by (rewrite Z.shiftl_mul_pow2 by lia; lia). change 65535 with (Z.ones 16). rewrite Z.land_ones by lia.
    change (2 ^ 16) with 65536. rewrite Z.lor_comm, lor_shiftl_add by (try apply Z.mod_pos_bound; lia).
    unfold word, fields_ok in *. Z.div_mod_to_equations. lia.
  - rewrite Z.shiftr_div_pow2 by lia. change (2 ^ 16) with 65536.
    assert (E : word t p l / 65536 = t) by (unfold word, fields_ok in *; Z.div_mod_to_equations; lia). rewrite E.
    rewrite u16_small, Z.shiftl_mul_pow2 by (unfold fields_ok in *; lia). apply u32_small. unfold fields_ok in *. lia.
Qed.

(** The code of a node in the tail. *)
Lemma encode_tail_eq cpu idx : 0 <= cpu < 2 ^ 14 - 1 -> 0 <= idx < 4 -> encode_tail cpu idx = (4 * cpu + idx + 4) * 65536.
Proof.
  intros Hc Hi. unfold encode_tail. change _Q_TAIL_CPU_OFFSET with 18. change _Q_TAIL_IDX_OFFSET with 16.
  rewrite !u32_small by (rewrite Z.shiftl_mul_pow2 by lia; lia).
  replace (Z.shiftl idx 16) with (idx * 65536) by (rewrite Z.shiftl_mul_pow2 by lia; lia).
  rewrite lor_shiftl_add by lia. lia.
Qed.

Lemma decode_tail_eq n : 0 <= n < 65532 -> decode_tail ((n + 4) * 65536) = n.
Proof.
  intros Hn. unfold decode_tail. change _Q_TAIL_CPU_OFFSET with 18. change _Q_TAIL_IDX_OFFSET with 16.
  change _Q_TAIL_IDX_MASK with (Z.shiftl (Z.ones 2) 16).
  replace (Z.land _ _) with (Z.shiftl (Z.land (n + 4) (Z.ones 2)) 16) by (rewrite Z.shiftl_land, !Z.shiftl_mul_pow2 by lia; done).
  rewrite Z.shiftr_shiftl_l, Z.shiftl_0_r, Z.land_ones, Z.shiftr_div_pow2 by lia. change (2 ^ 18) with 262144. change (2 ^ 2) with 4.
  Z.div_mod_to_equations. lia.
Qed.

(** The tail of the queue is encoded without loss.  For every thread whose number
    fits the field and each of its four nodes, decoding the code of the tail gives the
    node; the code leaves the locked and the pending byte alone and is not 0, so that
    it differs from the code of an empty queue. *)
Theorem tail_roundtrip (cpu idx : Z) :
  0 <= cpu < 2 ^ 14 - 1 -> 0 <= idx < 4 ->
  decode_tail (encode_tail cpu idx) = 4 * cpu + idx /\ Z.land (encode_tail cpu idx) _Q_TAIL_MASK = encode_tail cpu idx /\ encode_tail cpu idx <> 0.
Proof.
  intros Hc Hi. rewrite encode_tail_eq by done. split; [apply decode_tail_eq; lia|]. split; [|lia].
  replace ((4 * cpu + idx + 4) * 65536) with (word (4 * cpu + idx + 4) 0 0) by (unfold word; lia).
  rewrite word_tail by (unfold fields_ok; lia). unfold word. lia.
Qed.

Lemma tail_roundtrip_witness : decode_tail (encode_tail 63 3) = 4 * 63 + 3 /\ Z.land (encode_tail 63 3) _Q_TAIL_MASK = encode_tail 63 3 /\ encode_tail 63 3 <> 0.
Proof. apply (tail_roundtrip 63 3); lia. Defined.

(** ** The invariant *)

(** From the exchange of the tail until the next node is told to go on. *)
Definition in_mcs (p : qpc) : bool :=
  match p with QLink _ _ | QWait _ | QReadNext _ | QHead _ _ | QClaim _ _ _ | QNextSpin _ | QHand _ => true | _ => false end.
(** From taking the locked byte until it is cleared. *)
Definition holds (p : qpc) : bool := match p with QNextSpin _ | QHand _ | QRelease | QCritical => true | _ => false end.
Definition pends (p : qpc) : bool := match p with QPending | QTake => true | _ => false end.

Definition idx_of (p : qpc) : option Z :=
  match p with
  | QInitLocked idx | QInitNext idx | QTryRead idx | QTryCas idx | QXchg idx | QLink idx _ | QWait idx | QReadNext idx
  | QHead idx _ | QClaim idx _ _ | QNextSpin idx => Some idx
  | QHand _ | QRelease => Some 0
  | _ => None
  end.

Definition qrole_of (p : qpc) : qrole := match p with QLink _ prev => Linking prev | QWait _ => Waiting | _ => Other end.

Definition flag (o : option Z) : Z := match o with Some _ => 1 | None => 0 end.
Definition tail_code (q : list Z) : Z := match list.last q with Some n => n + 4 | None => 0 end.
Definition q_owned (m : qmem) (n : Z) : bool := truthy (q_locked m n).
Definition node_role (pcs : Z -> qpc) (n : Z) : qrole := qrole_of (pcs (n / 4)).

(** A known successor is the linked one. *)
Definition known_next (m : qmem) (i : Z) (next : option Z) : Prop := forall n, next = Some n -> q_next m (4 * i) = Some n.

Definition qplace_ok (m : qmem) (q : list Z) (hold pend : option Z) (i : Z) (p : qpc) : Prop :=
  match p with
  | QTry v => v = 0 \/ v = 1
  | QTake => hold = None
  | QInitNext _ => q_locked m (4 * i) = 0
  | QTryRead _ | QTryCas _ | QXchg _ => q_locked m (4 * i) = 0 /\ q_next m (4 * i) = None
  | QHead _ next => known_next m i next
  | QClaim _ next v =>
      known_next m i next /\ hold = None /\ pend = None /\
      exists t, fields_ok t 0 0 /\ v = word t 0 0 /\ (t = 4 * i + 4 \/ t <> 4 * i + 4 /\ exists b r, q = 4 * i :: b :: r)
  | QNextSpin _ => exists b r, q = 4 * i :: b :: r
  | QHand n => q_next m (4 * i) = Some n
  | _ => True
  end.

(** [q] is the queue of nodes, [hold] the thread that has the locked byte and [pend]
    the one that has the pending byte. *)
Record qinv (m : qmem) (pcs : Z -> qpc) (q : list Z) (hold pend : option Z) : Prop := {
  qi_word : q_val m = word (tail_code q) (flag pend) (flag hold);
  qi_nodup : NoDup q;
  qi_threads i : pcs i <> QIdle -> thread_ok i;
  qi_nodes n : n ∈ q -> exists i, n = 4 * i;
  qi_queue i : 4 * i ∈ q <-> in_mcs (pcs i) = true;
  qi_hold i : holds (pcs i) = true <-> hold = Some i;
  qi_pend i : pends (pcs i) = true <-> pend = Some i;
  qi_chain h l : q = h :: l ->
    (forall p, node_role pcs h <> Linking p) /\ (node_role pcs h = Waiting -> q_owned m h = true) /\
    qchain (q_next m) (q_owned m) (node_role pcs) h l;
  qi_count i : q_count m (4 * i) = match idx_of (pcs i) with Some _ => 1 | None => 0 end /\ (forall idx, idx_of (pcs i) = Some idx -> idx = 0);
  qi_place i : qplace_ok m q hold pend i (pcs i) }.

Lemma node_div i : 4 * i / 4 = i.
Proof. rewrite Z.mul_comm. by apply Z.div_mul. Qed.

Lemma node_role_upd pcs i p n : n <> 4 * i \/ qrole_of p = qrole_of (pcs i) -> (exists j, n = 4 * j) -> node_role (upd pcs i p) n = node_role pcs n.
Proof.
  intros H [j ->]. unfold node_role. rewrite node_div. destruct (Z.eq_dec i j) as [<-|Hne]; [|by rewrite upd_other].
  rewrite upd_same. destruct H; [done|congruence].
Qed.

Lemma qplace_app m q hold pend j p l : qplace_ok m q hold pend j p -> qplace_ok m (q ++ l) hold pend j p.
Proof.
  destruct p; cbn [qplace_ok]; try done.
  - intros (A1 & A2 & A3 & t & A4 & A5 & A6). split_and!; try done. exists t. split_and!; try done.
    destruct A6 as [?|[? (b & r & ->)]]; [by left|right]. split; [done|]. by exists b, (r ++ l).
  - intros (b & r & ->). by exists b, (r ++ l).
Qed.

Lemma tail_code_snoc q n : tail_code (q ++ [n]) = n + 4.
Proof. unfold tail_code. by rewrite last_snoc. Qed.

Section Inv.
Context (m : qmem) (pcs : Z -> qpc) (q : list Z) (hold pend : option Z) (I : qinv m pcs q hold pend).

Lemma inv_fields : fields_ok (tail_code q) (flag pend) (flag hold).
Proof using I.
  unfold fields_ok. assert (0 <= tail_code q < 65536); [|unfold flag; destruct pend, hold; lia].
  unfold tail_code. destruct (list.last q) as [n|] eqn:E; [|lia]. apply last_Some_elem_of in E. destruct (qi_nodes _ _ _ _ _ I n E) as [i ->].
  apply (qi_queue _ _ _ _ _ I) in E. pose proof (qi_threads _ _ _ _ _ I i) as T. unfold thread_ok in T. assert (pcs i <> QIdle) by (by intros X; rewrite X in E).
  specialize (T H). lia.
Qed.

(** A thread of the queue that is not linking itself and not waiting is the first. *)
Lemma q_head_of i : in_mcs (pcs i) = true -> (forall p, qrole_of (pcs i) <> Linking p) ->
  qrole_of (pcs i) = Other \/ q_owned m (4 * i) = true -> exists l, q = 4 * i :: l.
Proof using I.
  intros Hi Hl Hs. apply (qi_queue _ _ _ _ _ I) in Hi. destruct q as [|h l] eqn:Eq; [by apply not_elem_of_nil in Hi|].
  destruct (qi_chain _ _ _ _ _ I h l eq_refl) as (_ & _ & C). apply list.elem_of_cons in Hi as [->|Hi]; [by exists l|].
  destruct (qchain_member _ _ _ _ _ _ C Hi) as [F1 F2]. unfold node_role in F2. rewrite node_div in F2. destruct Hs; congruence.
Qed.

(** A step of [i] that leaves the queue as it is. *)
Record qframe (i : Z) (p' : qpc) (m' : qmem) (hold' pend' : option Z) : Prop := {
  qf_thread : thread_ok i;
  qf_word : q_val m' = word (tail_code q) (flag pend') (flag hold');
  qf_next n : n <> 4 * i \/ 4 * i ∈ q -> q_next m' n = q_next m n;
  qf_locked n : n <> 4 * i \/ 4 * i ∈ q -> q_locked m' n = q_locked m n;
  qf_count n : n <> 4 * i -> q_count m' n = q_count m n;
  qf_queue : in_mcs p' = in_mcs (pcs i);
  qf_role : qrole_of p' = qrole_of (pcs i) \/ qrole_of p' = Other /\ exists l, q = 4 * i :: l;
  qf_hold : (holds p' = true <-> hold' = Some i) /\ forall j, j <> i -> hold' = Some j <-> hold = Some j;
  qf_pend : (pends p' = true <-> pend' = Some i) /\ forall j, j <> i -> pend' = Some j <-> pend = Some j;
  qf_own : q_count m' (4 * i) = match idx_of p' with Some _ => 1 | None => 0 end /\ (forall idx, idx_of p' = Some idx -> idx = 0);
  qf_place : qplace_ok m' q hold' pend' i p';
  qf_take j : j <> i -> pcs j = QTake -> hold = None -> hold' = None;
  qf_claim j idx next v : j <> i -> pcs j = QClaim idx next v -> hold = None -> pend = None -> hold' = None /\ pend' = None }.

Lemma qframe_inv i p' m' hold' pend' : qframe i p' m' hold' pend' -> qinv m' (upd pcs i p') q hold' pend'.
Proof using I.
  intros [F0 F1 F2 F3 F4 F5 F6 [F7 F7'] [F8 F8'] F9 F10 F11 F12]. destruct I as [I1 I2 I3 I4 I5 I6 I7 I8 I9 I10].
  assert (Hown : forall n, n ∈ q -> q_next m' n = q_next m n /\ q_locked m' n = q_locked m n).
  { intros n Hn. destruct (Z.eq_dec n (4 * i)) as [->|]; split; (apply F2 || apply F3); auto. }
  constructor; try done.
  - intros j. destruct (Z.eq_dec i j) as [<-|Hne]; [done|]. rewrite upd_other by done. apply I3.
  - intros j. destruct (Z.eq_dec i j) as [<-|Hne]; [rewrite upd_same, F5; apply I5|rewrite upd_other by done; apply I5].
  - intros j. destruct (Z.eq_dec i j) as [<-|Hne]; [by rewrite upd_same|rewrite upd_other, F7' by done; apply I6].
  - intros j. destruct (Z.eq_dec i j) as [<-|Hne]; [by rewrite upd_same|rewrite upd_other, F8' by done; apply I7].
  - intros h l Eq. destruct (I8 h l Eq) as (G1 & G2 & C). assert (Hnode : exists j, h = 4 * j) by (apply I4; rewrite Eq; by left).
    assert (Hh : h ∉ l) by (rewrite Eq in I2; by apply list.NoDup_cons in I2 as [? _]).
    assert (Hr : node_role (upd pcs i p') h = node_role pcs h \/ node_role (upd pcs i p') h = Other).
    { destruct F6 as [F6|[F6 _]]; [left; apply node_role_upd; auto|]. destruct (Z.eq_dec h (4 * i)) as [->|]; [right|left; apply node_role_upd; auto].
      unfold node_role. by rewrite node_div, upd_same. }
    split_and!.
    + intros p. destruct Hr as [->| ->]; [apply G1|done].
    + unfold q_owned. intros E. rewrite (proj2 (Hown h ltac:(rewrite Eq; by left))). apply G2. destruct Hr; congruence.
    + eapply qchain_ext; [..|exact C].
      * intros x Hx. apply Hown. rewrite Eq. apply list.elem_of_cons. tauto.
      * intros b Hb. unfold q_owned. by rewrite (proj2 (Hown b ltac:(rewrite Eq; by right))).
      * intros b Hb. apply node_role_upd; [|apply I4; rewrite Eq; by right]. destruct F6 as [F6|[_ [l' F6]]]; [by right|left].
        rewrite Eq in F6. injection F6 as -> _. by intros ->.
  - intros j. destruct (Z.eq_dec i j) as [<-|Hne]; [by rewrite upd_same|]. rewrite upd_other, F4 by (done || lia). apply I9.
  - intros j. destruct (Z.eq_dec i j) as [<-|Hne]; [by rewrite upd_same|]. rewrite upd_other by done. specialize (I10 j).
    destruct (pcs j) eqn:Ej; cbn [qplace_ok] in *; unfold known_next in *; rewrite ?F2, ?F3 by (left; lia); try done; [by eapply F11|].
    destruct I10 as (A1 & A2 & A3 & A4). destruct (F12 j _ _ _ ltac:(done) Ej A2 A3) as [-> ->]. done.
Qed.

(** *** Joining the queue *)

Lemma qxchg_inv i :
  pcs i = QXchg 0 ->
  qinv (set_qval m (word (4 * i + 4) (flag pend) (flag hold)))
    (upd pcs i (match list.last q with Some n => QLink 0 n | None => QHead 0 None end)) (q ++ [4 * i]) hold pend.
Proof using I.
  intros Hp. destruct I as [I1 I2 I3 I4 I5 I6 I7 I8 I9 I10]. pose proof (I10 i) as P. rewrite Hp in P. destruct P as [P1 P2].
  assert (Hi : 4 * i ∉ q) by (rewrite I5, Hp; done). set (p' := match list.last q with Some n => QLink 0 n | None => QHead 0 None end).
  assert (Hp' : p' <> QIdle /\ in_mcs p' = true /\ holds p' = false /\ pends p' = false /\ idx_of p' = Some 0) by (unfold p'; by destruct (list.last q)).
  destruct Hp' as (E0 & E1 & E2 & E3 & E4).
  assert (Hrole : forall n, n ∈ q -> node_role (upd pcs i p') n = node_role pcs n)
    by (intros n Hn; apply node_role_upd; [left; by intros ->|by apply I4]).
  constructor; cbn [set_qval q_val q_next q_locked q_count].
  - by rewrite tail_code_snoc.
  - apply list.NoDup_app. split; [done|]. split; [intros x Hx ->%list_elem_of_singleton; done|apply NoDup_singleton].
  - intros j. destruct (Z.eq_dec i j) as [<-|Hne]; [intros _; apply I3; by rewrite Hp|rewrite upd_other by done; apply I3].
  - intros n [Hn| ->%list_elem_of_singleton]%list.elem_of_app; [by apply I4|by exists i].
  - intros j. rewrite list.elem_of_app, list_elem_of_singleton, I5. destruct (Z.eq_dec i j) as [<-|Hne]; [rewrite upd_same; tauto|].
    rewrite upd_other by done. split; [|by left]. intros [?|?]; [done|lia].
  - intros j. rewrite <- I6. destruct (Z.eq_dec i j) as [<-|Hne]; [by rewrite upd_same, Hp, E2|by rewrite upd_other].
  - intros j. rewrite <- I7. destruct (Z.eq_dec i j) as [<-|Hne]; [by rewrite upd_same, Hp, E3|by rewrite upd_other].
  - intros h l Eq. destruct q as [|h' l'] eqn:Eq'; injection Eq as <- <-.
    + unfold node_role. rewrite node_div, upd_same. by split_and!.
    + destruct (I8 h' l' eq_refl) as (G1 & G2 & C). rewrite Hrole by (by left). split_and!; [done|done|].
      destruct (list.last (h' :: l')) as [z|] eqn:Ez; [|by apply last_None in Ez]. apply (qchain_snoc _ _ _ _ _ z); try done.
      * eapply qchain_ext; [..|exact C]; [done|done|]. intros b Hb. apply Hrole. by right.
      * unfold q_owned, truthy. cbn [set_qval q_locked]. by rewrite P1.
      * unfold node_role. by rewrite node_div, upd_same.
  - intros j. destruct (Z.eq_dec i j) as [<-|Hne]; [rewrite upd_same, E4|rewrite upd_other by done; apply I9].
    split; [destruct (I9 i) as [X _]; by rewrite Hp in X|by intros idx [= <-]].
  - intros j. destruct (Z.eq_dec i j) as [<-|Hne]; [rewrite upd_same; unfold p'; destruct (list.last q); [done|by intros n]|].
    rewrite upd_other by done. apply qplace_app. exact (I10 j).
Qed.

(** *** Linking *)

Lemma qlink_inv i prev : pcs i = QLink 0 prev -> qinv (set_qnext m prev (Some (4 * i))) (upd pcs i (QWait 0)) q hold pend.
Proof using I.
  intros Hp. destruct I as [I1 I2 I3 I4 I5 I6 I7 I8 I9 I10]. assert (Hi : 4 * i ∈ q) by (apply I5; by rewrite Hp).
  destruct q as [|h l] eqn:Eq; [by apply not_elem_of_nil in Hi|]. destruct (I8 h l eq_refl) as (G1 & G2 & C).
  assert (Hrole : node_role pcs (4 * i) = Linking prev) by (unfold node_role; by rewrite node_div, Hp).
  assert (Hne : 4 * i <> h) by (intros <-; by apply (G1 prev)). apply list.elem_of_cons in Hi as [Hi|Hi]; [done|].
  destruct (qchain_pred _ _ _ _ _ _ _ C Hi Hrole) as [Hpin Hpn].
  constructor; cbn [set_qnext q_val q_next q_locked q_count]; try done.
  - intros j. destruct (Z.eq_dec i j) as [<-|]; [intros _; apply I3; by rewrite Hp|rewrite upd_other by done; apply I3].
  - intros j. destruct (Z.eq_dec i j) as [<-|]; [rewrite upd_same|rewrite upd_other by done; apply I5]. split; [done|]. intros _. by right.
  - intros j. rewrite <- I6. destruct (Z.eq_dec i j) as [<-|]; [by rewrite upd_same, Hp|by rewrite upd_other].
  - intros j. rewrite <- I7. destruct (Z.eq_dec i j) as [<-|]; [by rewrite upd_same, Hp|by rewrite upd_other].
  - intros h' l' [= <- <-]. rewrite node_role_upd by (auto || (apply I4; by left)). split_and!; [done|done|].
    eapply qchain_ext; [..|exact (qchain_link _ _ _ _ _ _ _ C I2 Hi Hrole)]; [done|done|].
    intros b Hb. destruct (Z.eq_dec (4 * i) b) as [<-|Hb']; [unfold node_role; by rewrite upd_same, node_div, upd_same|].
    rewrite (upd_other (node_role pcs)) by done. apply node_role_upd; [auto|]. apply I4. by right.
  - intros j. destruct (Z.eq_dec i j) as [<-|Hij]; [rewrite upd_same|rewrite upd_other by done; apply I9].
    destruct (I9 i) as [X Y]. rewrite Hp in X, Y. split; [done|exact Y].
  - intros j. destruct (Z.eq_dec i j) as [<-|Hij]; [by rewrite upd_same|]. rewrite upd_other by done. specialize (I10 j).
    destruct (Z.eq_dec prev (4 * j)) as [E|Hpj].
    + subst prev. apply I5 in Hpin. destruct (pcs j); cbn [qplace_ok in_mcs] in *; try done; unfold known_next in *; cbn [set_qnext q_next]; rewrite ?upd_same; naive_solver congruence.
    + destruct (pcs j); cbn [qplace_ok] in *; unfold known_next in *; cbn [set_qnext q_next q_locked]; rewrite ?upd_other by done; done.
Qed.

(** *** Leaving the queue *)

Lemma qclaim_inv i next v :
  pcs i = QClaim 0 next v -> q_val m = v -> Z.land v _Q_TAIL_MASK = encode_tail i 0 -> qinv (set_qval m (word 0 0 1)) (upd pcs i QRelease) [] (Some i) None.
Proof using I.
  intros Hp Hv Ht. destruct (q_head_of i) as [l Eq]; [by rewrite Hp|by rewrite Hp|left; by rewrite Hp|].
  pose proof inv_fields as Hf. destruct I as [I1 I2 I3 I4 I5 I6 I7 I8 I9 I10]. assert (Hi : thread_ok i) by (apply I3; by rewrite Hp).
  rewrite <- Hv, I1, word_tail in Ht by done. rewrite encode_tail_eq in Ht by (done || lia).
  pose proof (I10 i) as P. rewrite Hp in P. destruct P as (_ & -> & -> & _).
  assert (l = []) as ->.
  { destruct l as [|b l]; [done|exfalso]. rewrite Eq in *. unfold tail_code in Ht. change (list.last (4 * i :: b :: l)) with (list.last (b :: l)) in Ht.
    destruct (list.last (b :: l)) as [z|] eqn:Ez; [|by apply last_None in Ez]. apply last_Some_elem_of in Ez.
    apply list.NoDup_cons in I2 as [X _]. apply X. replace (4 * i) with z by lia. done. }
  assert (Hout : forall j, i <> j -> in_mcs (pcs j) = false).
  { intros j Hj. destruct (in_mcs (pcs j)) eqn:X; [|done]. apply I5 in X. rewrite Eq in X. apply list_elem_of_singleton in X. lia. }
  constructor; cbn [set_qval q_val q_next q_locked q_count]; try done.
  - constructor.
  - intros j. destruct (Z.eq_dec i j) as [<-|]; [done|rewrite upd_other by done; apply I3].
  - intros n Hn. by apply not_elem_of_nil in Hn.
  - intros j. destruct (Z.eq_dec i j) as [<-|]; [rewrite upd_same|rewrite upd_other, Hout by done]; (split; [intros []%not_elem_of_nil|done]).
  - intros j. destruct (Z.eq_dec i j) as [<-|]; [by rewrite upd_same|rewrite upd_other, I6 by done]. split; [done|congruence].
  - intros j. destruct (Z.eq_dec i j) as [<-|]; [by rewrite upd_same|rewrite upd_other, I7 by done]. done.
  - intros j. destruct (Z.eq_dec i j) as [<-|]; [rewrite upd_same|rewrite upd_other by done; apply I9].
    split; [destruct (I9 i) as [X _]; by rewrite Hp in X|by intros idx [= <-]].
  - intros j. destruct (Z.eq_dec i j) as [<-|]; [by rewrite upd_same|]. rewrite upd_other by done. specialize (I10 j). specialize (Hout j ltac:(done)).
    pose proof (I7 j) as Hj. destruct (pcs j); cbn [qplace_ok in_mcs pends] in *; try done. discriminate (proj1 Hj eq_refl).
Qed.

Lemma qhand_inv i n :
  pcs i = QHand n -> exists r, q = 4 * i :: n :: r /\ qinv (set_qlocked m n 1) (upd pcs i QRelease) (n :: r) hold pend.
Proof using I.
  intros Hp. destruct (q_head_of i) as [l Eq]; [by rewrite Hp|by rewrite Hp|left; by rewrite Hp|].
  destruct I as [I1 I2 I3 I4 I5 I6 I7 I8 I9 I10]. rewrite Eq in *.
  pose proof (I10 i) as Hn. rewrite Hp in Hn. cbn [qplace_ok] in Hn. destruct (I8 _ _ eq_refl) as (_ & _ & C).
  destruct (qchain_succ _ _ _ _ _ _ C Hn) as (r & -> & F1 & F2 & C'). exists r. split; [done|].
  pose proof I2 as [D1 D2]%list.NoDup_cons. pose proof D2 as [D3 D4]%list.NoDup_cons.
  assert (Hh : hold = Some i) by (apply I6; by rewrite Hp).
  constructor; cbn [set_qlocked q_val q_next q_locked q_count]; try done.
  - intros j. destruct (Z.eq_dec i j) as [<-|]; [intros _; apply I3; by rewrite Hp|rewrite upd_other by done; apply I3].
  - intros k Hk. apply I4. by right.
  - intros j. destruct (Z.eq_dec i j) as [<-|Hij]; [rewrite upd_same|rewrite upd_other by done]; [by split|].
    rewrite <- I5, (list.elem_of_cons (n :: r)). split; [by right|]. intros [?|?]; [lia|done].
  - intros j. rewrite <- I6. destruct (Z.eq_dec i j) as [<-|]; [by rewrite upd_same, Hp|by rewrite upd_other].
  - intros j. rewrite <- I7. destruct (Z.eq_dec i j) as [<-|]; [by rewrite upd_same, Hp|by rewrite upd_other].
  - intros h l [= <- <-]. assert (Hne : forall b, b ∈ n :: r -> node_role (upd pcs i QRelease) b = node_role pcs b).
    { intros b Hb. apply node_role_upd; [left; by intros ->|apply I4; by right]. }
    rewrite Hne by (by left). split_and!; [by rewrite F2|intros _; unfold q_owned; cbn [set_qlocked q_locked]; by rewrite upd_same|].
    eapply qchain_ext; [..|exact C']; [done| |].
    + intros b Hb. unfold q_owned. cbn [set_qlocked q_locked]. rewrite upd_other; [done|by intros ->].
    + intros b Hb. apply Hne. by right.
  - intros j. destruct (Z.eq_dec i j) as [<-|]; [rewrite upd_same|rewrite upd_other by done; apply I9].
    destruct (I9 i) as [X Y]. rewrite Hp in X, Y. split; [done|exact Y].
  - intros j. destruct (Z.eq_dec i j) as [<-|Hij]; [by rewrite upd_same|]. rewrite upd_other by done. specialize (I10 j).
    pose proof (I6 j) as Hj. rewrite Hh in Hj. assert (Hnj : in_mcs (pcs j) = false -> n <> 4 * j).
    { intros X ->. assert (Y : 4 * j ∈ 4 * i :: 4 * j :: r) by (right; by left). apply I5 in Y. congruence. }
    destruct (pcs j); cbn [qplace_ok in_mcs holds set_qlocked q_locked q_next] in *; unfold known_next in *; try done;
      rewrite ?upd_other by auto; try done; [naive_solver|].
    pose proof (proj1 Hj eq_refl). congruence.
Qed.

(** *** The other steps *)

Lemma tail_zero : tail_code q = 0 -> q = [].
Proof using I.
  unfold tail_code. destruct (list.last q) as [n|] eqn:E; [|intros _; by apply last_None in E]. intros Hn. exfalso.
  apply last_Some_elem_of in E. destruct (qi_nodes _ _ _ _ _ I n E) as [i ->]. apply (qi_queue _ _ _ _ _ I) in E.
  pose proof (qi_threads _ _ _ _ _ I i) as T. unfold thread_ok in T. assert (pcs i <> QIdle) by (by intros X; rewrite X in E). specialize (T H). lia.
Qed.

(** A word without tail and pending byte: nobody is queued or pending. *)
Lemma word_small v : q_val m = v -> v = 0 \/ v = 1 -> q = [] /\ pend = None /\ flag hold = v.
Proof using I.
  intros Hv Hs. pose proof inv_fields as F. rewrite (qi_word _ _ _ _ _ I) in Hv. unfold word, fields_ok in *.
  assert (E : tail_code q = 0 /\ flag pend = 0 /\ flag hold = v) by lia. destruct E as (E1 & E2 & E3).
  split_and!; [by apply tail_zero|by destruct pend|done].
Qed.

Definition own_node (i : Z) (m' : qmem) : Prop :=
  forall n, n <> 4 * i -> q_next m' n = q_next m n /\ q_locked m' n = q_locked m n /\ q_count m' n = q_count m n.

(** A step that takes and gives back nothing. *)
Lemma qframe_plain i p' m' :
  thread_ok i -> q_val m' = q_val m -> own_node i m' ->
  (in_mcs (pcs i) = true -> q_next m' (4 * i) = q_next m (4 * i) /\ q_locked m' (4 * i) = q_locked m (4 * i)) ->
  in_mcs p' = in_mcs (pcs i) -> (qrole_of p' = qrole_of (pcs i) \/ qrole_of p' = Other /\ exists l, q = 4 * i :: l) ->
  holds p' = holds (pcs i) -> pends p' = pends (pcs i) ->
  q_count m' (4 * i) = match idx_of p' with Some _ => 1 | None => 0 end -> (forall idx, idx_of p' = Some idx -> idx = 0) ->
  qplace_ok m' q hold pend i p' -> qframe i p' m' hold pend.
Proof using I.
  intros H1 H2 H3 H4 H5 H6 H7 H8 H9 H10 H11.
  assert (Hq : 4 * i ∈ q -> in_mcs (pcs i) = true) by apply (qi_queue _ _ _ _ _ I).
  constructor; try done.
  - rewrite H2. apply (qi_word _ _ _ _ _ I).
  - intros n Hn. destruct (Z.eq_dec n (4 * i)) as [->|]; [apply H4, Hq; tauto|by apply H3].
  - intros n Hn. destruct (Z.eq_dec n (4 * i)) as [->|]; [apply H4, Hq; tauto|by apply H3].
  - intros n Hn. by apply H3.
  - rewrite H7. split; [apply (qi_hold _ _ _ _ _ I)|done].
  - rewrite H8. split; [apply (qi_pend _ _ _ _ _ I)|done].
Qed.

(** Taking a lock that is free, without queueing. *)
Lemma qframe_acquire i p' :
  thread_ok i -> q_val m = 0 -> in_mcs (pcs i) = false -> holds p' = true -> in_mcs p' = false -> pends p' = false -> qrole_of p' = qrole_of (pcs i) ->
  idx_of p' = idx_of (pcs i) -> (forall m' q' h' pe, qplace_ok m' q' h' pe i p') ->
  qframe i p' (set_qval m (word 0 0 1)) (Some i) None.
Proof using I.
  intros H1 H2 H3 H4 H5 H6 H7 H8 H9. destruct (word_small 0 H2 ltac:(by left)) as (Eq & Ep & Eh). destruct hold as [|] eqn:Eho; [done|].
  constructor; cbn [set_qval q_val q_next q_locked q_count]; try done.
  - by rewrite Eq.
  - congruence.
  - by left.
  - rewrite H4. split; [done|]. intros j Hj. split; congruence.
  - rewrite H6. split; [done|]. intros j Hj. by rewrite Ep.
  - rewrite H8. apply (qi_count _ _ _ _ _ I).
  - intros j Hj Ej _. assert (X : pend = Some j) by (apply (qi_pend _ _ _ _ _ I); by rewrite Ej). congruence.
  - intros j idx next v Hj Ej. assert (X : 4 * j ∈ q) by (apply (qi_queue _ _ _ _ _ I); by rewrite Ej). rewrite Eq in X. by apply not_elem_of_nil in X.
Qed.

Lemma try_or_queue_ok i : let p' := try_or_queue (q_val m) in
  in_mcs p' = false /\ holds p' = false /\ pends p' = false /\ qrole_of p' = Other /\ idx_of p' = None /\ p' <> QIdle /\ qplace_ok m q hold pend i p'.
Proof using I.
  cbv zeta. unfold try_or_queue. rewrite (qi_word _ _ _ _ _ I), word_unlocked by apply inv_fields.
  pose proof inv_fields as F. unfold truthy. destruct (Z.eqb_spec (tail_code q * 65536 + flag pend * 256) 0) as [E|E]; cbn [negb]; split_and!; try done.
  cbn [qplace_ok]. unfold word, fields_ok in *. destruct hold; cbn [flag] in *; lia.
Qed.

Lemma own_node_same i : own_node i m.
Proof using. done. Qed.
Lemma own_node_locked i x : own_node i (set_qlocked m (4 * i) x).
Proof using. intros n Hn. cbn. rewrite upd_other by done. done. Qed.
Lemma own_node_next i x : own_node i (set_qnext m (4 * i) x).
Proof using. intros n Hn. cbn. rewrite upd_other by done. done. Qed.
Lemma own_node_count i x : own_node i (set_qcount m (4 * i) x).
Proof using. intros n Hn. cbn. rewrite upd_other by done. done. Qed.
Local Hint Resolve own_node_same own_node_locked own_node_next own_node_count : core.

(** After a read of the word by a thread that neither queues nor holds. *)
Lemma qframe_read i :
  thread_ok i -> in_mcs (pcs i) = false -> holds (pcs i) = false -> pends (pcs i) = false -> qrole_of (pcs i) = Other -> idx_of (pcs i) = None ->
  qframe i (try_or_queue (q_val m)) m hold pend.
Proof using I.
  intros Ht H1 H2 H3 H4 H5. destruct (try_or_queue_ok i) as (E1 & E2 & E3 & E4 & E5 & _ & E6).
  pose proof (qi_count _ _ _ _ _ I i) as [Hc _]. rewrite H5 in Hc.
  apply qframe_plain; rewrite ?E1, ?E2, ?E3, ?E4, ?E5, ?H1, ?H2, ?H3, ?H4; auto; done.
Qed.

(** The pending byte is taken while the lock is held and nobody waits. *)
Lemma qframe_pend i v : thread_ok i -> pcs i = QTry v -> q_val m = 1 -> qframe i QPending (set_qval m (word 0 1 1)) hold (Some i).
Proof using I.
  intros Ht Hp Hv. destruct (word_small 1 Hv ltac:(by right)) as (Eq & Ep & Eh).
  pose proof (qi_hold _ _ _ _ _ I i) as Hh. rewrite Hp in Hh.
  constructor; cbn [set_qval q_val q_next q_locked q_count]; rewrite ?Hp; try done.
  - rewrite Eq, Eh. done.
  - by left.
  - split; [done|]. intros j Hj. rewrite Ep. split; congruence.
  - pose proof (qi_count _ _ _ _ _ I i) as X. by rewrite Hp in X.
  - intros j idx next w Hj Ej. assert (X : 4 * j ∈ q) by (apply (qi_queue _ _ _ _ _ I); by rewrite Ej). rewrite Eq in X. by apply not_elem_of_nil in X.
Qed.

(** The thread with the pending byte takes the lock. *)
Lemma qframe_take i : thread_ok i -> pcs i = QTake -> qframe i QCritical (set_qval m (clear_pending_set_locked (q_val m))) (Some i) None.
Proof using I.
  intros Ht Hp. pose proof (qi_place _ _ _ _ _ I i) as P. rewrite Hp in P. cbn [qplace_ok] in P.
  assert (Ep : pend = Some i) by (apply (qi_pend _ _ _ _ _ I); by rewrite Hp).
  constructor; cbn [set_qval q_val q_next q_locked q_count]; rewrite ?Hp; try done.
  - rewrite (qi_word _ _ _ _ _ I). by rewrite word_take by apply inv_fields.
  - by left.
  - split; [done|]. intros j Hj. rewrite P. split; congruence.
  - split; [done|]. intros j Hj. rewrite Ep. split; congruence.
  - pose proof (qi_count _ _ _ _ _ I i) as X. by rewrite Hp in X.
  - intros j Hj Ej. assert (X : pend = Some j) by (apply (qi_pend _ _ _ _ _ I); by rewrite Ej). congruence.
  - intros j idx next v Hj Ej _. congruence.
Qed.

(** The first of the queue takes the lock and keeps its successors. *)
Lemma qframe_claim i next v :
  thread_ok i -> pcs i = QClaim 0 next v -> Z.land v _Q_TAIL_MASK <> encode_tail i 0 ->
  qframe i (match next with Some n => QHand n | None => QNextSpin 0 end) (set_qval m (set_locked (q_val m))) (Some i) None.
Proof using I.
  intros Ht Hp Hv. pose proof (qi_place _ _ _ _ _ I i) as P. rewrite Hp in P. destruct P as (P1 & P2 & P3 & t & Hf & -> & P4).
  rewrite word_tail, encode_tail_eq in Hv by (done || lia). destruct P4 as [->|[P4 (b & r & Eq)]]; [lia|].
  set (p' := match next with Some n => QHand n | None => QNextSpin 0 end).
  assert (E : in_mcs p' = true /\ qrole_of p' = Other /\ holds p' = true /\ pends p' = false /\ idx_of p' = Some 0) by (unfold p'; by destruct next).
  destruct E as (E1 & E2 & E3 & E4 & E5).
  constructor; cbn [set_qval q_val q_next q_locked q_count]; rewrite ?E1, ?E2, ?E3, ?E4, ?E5, ?Hp; try done.
  - rewrite (qi_word _ _ _ _ _ I), word_set_locked by apply inv_fields. by rewrite P3.
  - by left.
  - split; [done|]. intros j Hj. rewrite P2. split; congruence.
  - split; [done|]. intros j Hj. by rewrite P3.
  - pose proof (qi_count _ _ _ _ _ I i) as X. rewrite Hp in X. split; [apply X|by intros idx [= <-]].
  - unfold p'. destruct next as [n|]; cbn [qplace_ok]; [by apply P1|by exists b, r].
  - intros j Hj Ej. assert (X : pend = Some j) by (apply (qi_pend _ _ _ _ _ I); by rewrite Ej). congruence.
  - intros j idx nx w Hj Ej. destruct (q_head_of j) as [l' E']; [by rewrite Ej|by rewrite Ej|left; by rewrite Ej|].
    rewrite Eq in E'. injection E'. lia.
Qed.

Lemma qframe_unlock i : thread_ok i -> pcs i = QCritical -> qframe i QIdle (set_qval m (clear_locked (q_val m))) None pend.
Proof using I.
  intros Ht Hp. assert (Eh : hold = Some i) by (apply (qi_hold _ _ _ _ _ I); by rewrite Hp).
  pose proof (qi_pend _ _ _ _ _ I i) as Hpe. rewrite Hp in Hpe.
  constructor; cbn [set_qval q_val q_next q_locked q_count]; rewrite ?Hp; try done.
  - rewrite (qi_word _ _ _ _ _ I). by rewrite word_clear_locked by apply inv_fields.
  - by left.
  - split; [done|]. intros j Hj. rewrite Eh. split; congruence.
  - pose proof (qi_count _ _ _ _ _ I i) as X. by rewrite Hp in X.
Qed.

(** The queue behind a thread that is first. *)
Lemma head_tail i l : q = 4 * i :: l -> tail_code q = 4 * i + 4 \/ tail_code q <> 4 * i + 4 /\ exists b r, q = 4 * i :: b :: r.
Proof using I.
  intros Eq. pose proof (qi_nodup _ _ _ _ _ I) as D. rewrite Eq in *. destruct l as [|b r]; [by left|right]. split; [|by exists b, r].
  unfold tail_code. change (list.last (4 * i :: b :: r)) with (list.last (b :: r)).
  destruct (list.last (b :: r)) as [z|] eqn:E; [|by apply last_None in E]. apply last_Some_elem_of in E.
  intros X. apply list.NoDup_cons in D as [D _]. apply D. by replace (4 * i) with z by lia.
Qed.
End Inv.

Lemma qstep_xchg m pcs q hold pend i :
  qinv m pcs q hold pend -> thread_ok i -> pcs i = QXchg 0 ->
  qinv (snd (qstep i (QXchg 0) m)) (upd pcs i (fst (qstep i (QXchg 0) m))) (q ++ [4 * i]) hold pend.
Proof.
  intros I Ht Ep. pose proof (inv_fields _ _ _ _ _ I) as Hf. pose proof (qi_word _ _ _ _ _ I) as Hw. cbn [qstep].
  rewrite Hw, encode_tail_eq, Z.add_0_r, word_xchg by (unfold thread_ok in *; done || lia). cbn [fst snd].
  pose proof (qxchg_inv _ _ _ _ _ I i Ep) as X. replace (tail_code q * 65536) with (word (tail_code q) 0 0) by (unfold word; lia).
  rewrite word_tail by (unfold fields_ok in *; lia). destruct (list.last q) as [z|] eqn:El.
  - assert (Et : tail_code q = z + 4) by (unfold tail_code; by rewrite El). rewrite Et.
    assert (Hz : 0 <= z < 65532).
    { apply last_Some_elem_of in El. destruct (qi_nodes _ _ _ _ _ I z El) as [j ->]. apply (qi_queue _ _ _ _ _ I) in El.
      assert (T : thread_ok j) by (apply (qi_threads _ _ _ _ _ I); by intros E; rewrite E in El). unfold thread_ok in T. lia. }
    replace (truthy _) with true by (unfold truthy; lia). unfold word. rewrite !Z.add_0_r, decode_tail_eq by done. exact X.
  - assert (Et : tail_code q = 0) by (unfold tail_code; by rewrite El). rewrite Et. exact X.
Qed.

(** The cases of [qframe_plain] that evaluation decides. *)
Ltac q_plain Ep :=
  cbn [fst snd]; apply qframe_plain; rewrite ?Ep; auto using own_node_locked, own_node_next, own_node_count; try done;
  try (by intros ? [= <-]); try (cbn; by rewrite ?upd_same).

(** A step that leaves the queue as it is, or one that changes it, keeps the invariant. *)
Lemma qstep_inv m pcs q hold pend i :
  qinv m pcs q hold pend -> thread_ok i ->
  exists q' hold' pend', qinv (snd (qstep i (pcs i) m)) (upd pcs i (fst (qstep i (pcs i) m))) q' hold' pend'.
Proof.
  intros I Ht. pose proof (qi_place _ _ _ _ _ I i) as P. pose proof (qi_count _ _ _ _ _ I i) as [Hc Hidx].
  pose proof (inv_fields _ _ _ _ _ I) as Hf. pose proof (qi_word _ _ _ _ _ I) as Hw.
  pose proof (own_node_same m i) as Hos. pose proof (q_head_of _ _ _ _ _ I i) as Hhead.
  destruct (pcs i) as [| | |v| | | |idx|idx|idx|idx|idx|idx prev|idx|idx|idx nx|idx nx v|idx|n| |] eqn:Ep; cbn [qstep idx_of qplace_ok in_mcs qrole_of] in *;
    try (specialize (Hidx _ eq_refl); subst idx); rewrite ?Z.add_0_r in *.
  - exists q, hold, pend. apply (qframe_inv _ _ _ _ _ I). q_plain Ep.
  - destruct (Z.eqb_spec (q_val m) 0) as [E|E].
    + exists q, (Some i), None. apply (qframe_inv _ _ _ _ _ I). by apply (qframe_acquire m pcs q hold pend I i QCritical); rewrite ?Ep.
    + exists q, hold, pend. apply (qframe_inv _ _ _ _ _ I). unfold slowpath. cbn [fst snd]. destruct (_ =? _); [q_plain Ep|].
      by apply qframe_read; rewrite ?Ep.
  - exists q, hold, pend. apply (qframe_inv _ _ _ _ _ I). cbn [fst snd]. destruct (_ =? _); [q_plain Ep|].
    by apply qframe_read; rewrite ?Ep.
  - destruct (Z.eqb_spec (q_val m) v) as [E|E].
    + destruct P as [->| ->]; cbn [Z.eqb Pos.eqb].
      * exists q, (Some i), None. apply (qframe_inv _ _ _ _ _ I). by apply (qframe_acquire m pcs q hold pend I i QCritical); rewrite ?Ep.
      * exists q, hold, (Some i). apply (qframe_inv _ _ _ _ _ I). by apply (qframe_pend m pcs q hold pend I i 1).
    + exists q, hold, pend. apply (qframe_inv _ _ _ _ _ I). by apply qframe_read; rewrite ?Ep.
  - exists q, hold, pend. apply (qframe_inv _ _ _ _ _ I). rewrite Hw, word_locked by done. cbn [fst snd].
    destruct hold as [h|] eqn:Eh; cbn [flag truthy Z.eqb negb]; q_plain Ep.
  - exists q, (Some i), None. apply (qframe_inv _ _ _ _ _ I). by apply qframe_take.
  - rewrite Hc. exists q, hold, pend. apply (qframe_inv _ _ _ _ _ I). cbn [fst snd].
    q_plain Ep.
  - exists q, hold, pend. apply (qframe_inv _ _ _ _ _ I). q_plain Ep.
  - exists q, hold, pend. apply (qframe_inv _ _ _ _ _ I). q_plain Ep.
  - exists q, hold, pend. apply (qframe_inv _ _ _ _ _ I). cbn [fst snd]. destruct (truthy _); q_plain Ep.
  - destruct (Z.eqb_spec (q_val m) 0) as [E|E].
    + exists q, (Some i), None. apply (qframe_inv _ _ _ _ _ I). by apply (qframe_acquire m pcs q hold pend I i QRelease); rewrite ?Ep.
    + exists q, hold, pend. apply (qframe_inv _ _ _ _ _ I). q_plain Ep.
  - exists (q ++ [4 * i]), hold, pend. by apply qstep_xchg.
  - exists q, hold, pend. by apply qlink_inv.
  - exists q, hold, pend. apply (qframe_inv _ _ _ _ _ I). cbn [fst snd]. fold (q_owned m (4 * i)).
    destruct (q_owned m (4 * i)) eqn:El; q_plain Ep.
  - exists q, hold, pend. apply (qframe_inv _ _ _ _ _ I). q_plain Ep.
  - exists q, hold, pend. apply (qframe_inv _ _ _ _ _ I). cbn [fst snd]. rewrite Hw, word_locked_pending by done.
    destruct (truthy _) eqn:T; q_plain Ep.
    destruct Hhead as [l Eq]; [done|done|by left|]. assert (E : pend = None /\ hold = None) by (by destruct pend, hold). destruct E as [-> ->].
    split_and!; try done. exists (tail_code q). split_and!; [done|done|]. by apply (head_tail _ _ _ _ _ I i l).
  - destruct (Z.eqb_spec (Z.land v _Q_TAIL_MASK) (encode_tail i 0)) as [Et|Et]; cbn [negb].
    2: { exists q, (Some i), None. apply (qframe_inv _ _ _ _ _ I). by apply (qframe_claim m pcs q hold pend I i nx v). }
    destruct (Z.eqb_spec (q_val m) v) as [E|E]; [exists [], (Some i), None; by apply (qclaim_inv m pcs q hold pend I i nx v)|].
    exists q, hold, pend. apply (qframe_inv _ _ _ _ _ I). q_plain Ep.
    destruct P as (P1 & -> & -> & t & Ht0 & -> & P4). destruct Hhead as [l Eq]; [done|done|by left|]. split_and!; try done.
    exists (tail_code q). split_and!; [done|done|]. by apply (head_tail _ _ _ _ _ I i l).
  - exists q, hold, pend. apply (qframe_inv _ _ _ _ _ I). cbn [fst snd]. destruct (q_next m (4 * i)) eqn:En; q_plain Ep.
  - destruct (qhand_inv _ _ _ _ _ I i n Ep) as (r & _ & X). by exists (n :: r), hold, pend.
  - exists q, hold, pend. apply (qframe_inv _ _ _ _ _ I). q_plain Ep. cbn. by rewrite upd_same, Hc.
  - exists q, None, pend. apply (qframe_inv _ _ _ _ _ I). by apply qframe_unlock.
Qed.

Lemma qreachable_inv st : qsys_reachable st -> exists q hold pend, qinv (qs_mem st) (qs_pc st) q hold pend.
Proof.
  induction 1 as [|st st' _ (q & hold & pend & IH) Hs].
  - exists [], None, None. constructor; cbn; try done; [constructor|intros n []%not_elem_of_nil|]. intros i. split; [intros []%not_elem_of_nil|done].
  - destruct Hs as [i st Ht]. by apply (qstep_inv _ _ q hold pend).
Qed.

(** Mutual exclusion of the queued spinlock.  Under every interleaving at most one
    thread is between taking the locked byte, whether on the fast path, with the
    pending byte or as the first of the queue, and clearing it. *)
Theorem qspin_mutual_exclusion (st : qsys) (i j : Z) :
  qsys_reachable st -> holds (qs_pc st i) = true -> holds (qs_pc st j) = true -> j = i.
Proof.
  intros R Hi Hj. apply qreachable_inv in R as (q & hold & pend & I).
  apply (qi_hold _ _ _ _ _ I) in Hi, Hj. congruence.
Qed.

(** C17. The lock word is exactly the state of the lock.  In every reachable state its
    locked byte says whether a thread holds the lock, its pending byte whether one
    waits for the holder alone, and its tail names the node that joined the queue last;
    the queue has no repetitions and consists of the queued threads.  So a lock that
    nobody holds, awaits or queues for is the word 0 again. *)
Theorem qspin_word_refines (st : qsys) :
  qsys_reachable st ->
  exists q hold pend,
    q_val (qs_mem st) = word (tail_code q) (flag pend) (flag hold) /\ NoDup q /\
    (forall i, 4 * i ∈ q <-> in_mcs (qs_pc st i) = true) /\ (forall i, holds (qs_pc st i) = true <-> hold = Some i) /\
    (forall i, pends (qs_pc st i) = true <-> pend = Some i) /\
    ((forall i, in_mcs (qs_pc st i) = false /\ holds (qs_pc st i) = false /\ pends (qs_pc st i) = false) -> q_val (qs_mem st) = 0).
Proof.
  intros R. apply qreachable_inv in R as (q & hold & pend & I). exists q, hold, pend. pose proof I as [I1 I2 I3 I4 I5 I6 I7 I8 I9 I10].
  split_and!; try done. intros H. rewrite I1. destruct q as [|n q'].
  - destruct hold as [h|]; [destruct (H h) as (_ & X & _); rewrite (proj2 (I6 h) eq_refl) in X; done|].
    destruct pend as [h|]; [destruct (H h) as (_ & _ & X); rewrite (proj2 (I7 h) eq_refl) in X; done|]. done.
  - destruct (I4 n) as [i ->]; [by left|]. destruct (H i) as (X & _). rewrite (proj1 (I5 i)) in X by (by left). done.
Qed.

(** Threads whose next access changes where they are. *)
Definition moves (st : qsys) (j : Z) : Prop := fst (qstep j (qs_pc st j) (qs_mem st)) <> qs_pc st j.

(** Whoever holds the lock goes on, or waits for a thread that is about to link itself. *)
Lemma holder_moves m pcs q hold pend j :
  qinv m pcs q hold pend -> holds (pcs j) = true -> exists k, pcs k <> QIdle /\ moves (QSys m pcs) k.
Proof.
  intros I Hj. pose proof (qi_place _ _ _ _ _ I j) as P. pose proof (qi_count _ _ _ _ _ I j) as [_ Hidx]. unfold moves. cbn [qs_pc qs_mem].
  destruct (pcs j) as [| | |v| | | |idx|idx|idx|idx|idx|idx prev|idx|idx|idx nx|idx nx v|idx|n| |] eqn:Ep; try done;
    try (exists j; by rewrite Ep). cbn [idx_of] in Hidx. specialize (Hidx _ eq_refl) as ->.
  destruct (q_next m (4 * j)) as [n|] eqn:En; [exists j; rewrite Ep; cbn; by rewrite Z.add_0_r, En|].
  destruct P as (b & r & Eq). destruct (qi_chain _ _ _ _ _ I _ _ Eq) as (_ & _ & C).
  destruct C as [[_ [[F _]|[_ F]]] _]; [|congruence]. unfold node_role in F. exists (b / 4).
  destruct (pcs (b / 4)); done.
Qed.

(** Without a holder, the thread with the pending byte goes on. *)
Lemma pender_moves m pcs q pend j :
  qinv m pcs q None pend -> pends (pcs j) = true -> exists k, pcs k <> QIdle /\ moves (QSys m pcs) k.
Proof.
  intros I Hj. exists j. unfold moves. cbn [qs_pc qs_mem]. destruct (pcs j) eqn:Ep; try done. split; [done|]. cbn [qstep fst].
  rewrite (qi_word _ _ _ _ _ I), word_locked by apply (inv_fields _ _ _ _ _ I). done.
Qed.

(** Without either, the first of the queue goes on. *)
Lemma first_moves m pcs h l :
  qinv m pcs (h :: l) None None -> exists k, pcs k <> QIdle /\ moves (QSys m pcs) k.
Proof.
  intros I. destruct (qi_nodes _ _ _ _ _ I h) as [j ->]; [by left|]. destruct (qi_chain _ _ _ _ _ I _ _ eq_refl) as (G1 & G2 & _).
  assert (Hq : in_mcs (pcs j) = true) by (apply (qi_queue _ _ _ _ _ I); by left). unfold node_role in G1, G2. rewrite node_div in G1, G2.
  pose proof (qi_count _ _ _ _ _ I j) as [_ Hidx]. pose proof (qi_hold _ _ _ _ _ I j) as Hh. exists j. unfold moves. cbn [qs_pc qs_mem].
  destruct (pcs j) as [| | |v| | | |idx|idx|idx|idx|idx|idx prev|idx|idx|idx nx|idx nx v|idx|n| |] eqn:Ep; try done; (split; [done|]);
    cbn [qstep idx_of qrole_of fst holds] in *; try (specialize (Hidx _ eq_refl) as ->); rewrite ?Z.add_0_r.
  - unfold q_owned in G2. by rewrite (G2 eq_refl).
  - rewrite (qi_word _ _ _ _ _ I), word_locked_pending by apply (inv_fields _ _ _ _ _ I). done.
  - destruct (negb _); [by destruct nx|]. destruct (Z.eqb_spec (q_val m) v); [done|]. cbn. congruence.
  - discriminate (proj1 Hh eq_refl).
Qed.

(** The queued spinlock does not get stuck: while any thread is acquiring or releasing
    the lock, some such thread can take a step that is not a round of waiting. *)
Theorem qspin_progress (st : qsys) (i : Z) :
  qsys_reachable st -> qs_pc st i <> QIdle -> exists j, qs_pc st j <> QIdle /\ moves st j.
Proof.
  intros R Hi. apply qreachable_inv in R as (q & hold & pend & I). destruct st as [m pcs]. cbn [qs_mem qs_pc] in *.
  destruct hold as [h|]; [apply (holder_moves m pcs q (Some h) pend h I); by apply (qi_hold _ _ _ _ _ I)|].
  destruct pend as [h|]; [apply (pender_moves m pcs q (Some h) h I); by apply (qi_pend _ _ _ _ _ I)|].
  destruct q as [|h l]; [|by apply (first_moves m pcs h l)]. exists i. split; [done|]. unfold moves. cbn [qs_pc qs_mem].
  pose proof (qi_queue _ _ _ _ _ I i) as Q. pose proof (qi_hold _ _ _ _ _ I i) as H. pose proof (qi_pend _ _ _ _ _ I i) as P.
  pose proof (qi_word _ _ _ _ _ I) as Hw. change (q_val m = 0) in Hw.
  assert (Hnq : in_mcs (pcs i) = false) by (destruct (in_mcs (pcs i)); [destruct (not_elem_of_nil (4 * i)); by apply Q|done]).
  destruct (pcs i) as [| | |v| | | |idx|idx|idx|idx|idx|idx prev|idx|idx|idx nx|idx nx v|idx|n| |] eqn:Ep; try done; cbn [qstep fst];
    rewrite ?Hw; try done. destruct (Z.eqb_spec 0 v) as [<-|N]; [done|]. intros [= X]. done.
Qed.

(** ** A run of four threads *)

Fixpoint qrun (threads : list Z) (st : qsys) : qsys :=
  match threads with
  | [] => st
  | i :: rest => qrun rest (QSys (snd (qstep i (qs_pc st i) (qs_mem st))) (upd (qs_pc st) i (fst (qstep i (qs_pc st i) (qs_mem st)))))
  end.

Lemma qrun_reachable threads st : Forall thread_ok threads -> qsys_reachable st -> qsys_reachable (qrun threads st).
Proof.
  revert st. induction threads as [|i rest IH]; intros st F R; [done|]. apply list.Forall_cons in F as [Fi F]. apply IH; [done|].
  eapply qsys_next; [done|by apply qsys_thread].
Qed.

(** 0 takes the lock, 1 the pending byte, 2 is the first of the queue and 3 is about to
    link itself behind it. *)
Definition qexample : qsys := qrun (repeat 0 2 ++ repeat 1 3 ++ repeat 2 7 ++ repeat 3 7) qinit.

Lemma qexample_reachable : qsys_reachable qexample.
Proof. apply qrun_reachable; [|constructor]. repeat (apply list.Forall_cons; split; [unfold thread_ok; lia|]). constructor. Qed.

Lemma qspin_mutual_exclusion_witness :
  map (qs_pc qexample) [0; 1; 2; 3] = [QCritical; QPending; QHead 0 None; QLink 0 8] /\
  forall j, holds (qs_pc qexample j) = true -> j = 0.
Proof.
  split; [by vm_compute|]. intros j Hj. apply (qspin_mutual_exclusion qexample 0 j); [apply qexample_reachable|by vm_compute|exact Hj].
Defined.

Lemma qspin_word_refines_witness :
  exists q hold pend,
    q_val (qs_mem qexample) = word (tail_code q) (flag pend) (flag hold) /\ NoDup q /\
    (forall i, 4 * i ∈ q <-> in_mcs (qs_pc qexample i) = true) /\ (forall i, holds (qs_pc qexample i) = true <-> hold = Some i) /\
    (forall i, pends (qs_pc qexample i) = true <-> pend = Some i) /\
    ((forall i, in_mcs (qs_pc qexample i) = false /\ holds (qs_pc qexample i) = false /\ pends (qs_pc qexample i) = false) -> q_val (qs_mem qexample) = 0).
Proof. apply (qspin_word_refines qexample). apply qexample_reachable. Defined.

Lemma qspin_progress_witness : exists j, qs_pc qexample j <> QIdle /\ moves qexample j.
Proof. apply (qspin_progress qexample 1); [apply qexample_reachable|by vm_compute]. Defined.
