(* ===== verification/OsqLock.v ===== *)
(** The optimistic spin queue of the lock benchmark,
    src/lupin_lock_benchmark/linux/osq_lock.h, as a program of memory accesses that any
    number of threads run concurrently: a queue lock whose waiters may give up and take
    their nodes out of the middle of the queue.

    Each access happens once and in program order.  The nodes are named by the numbers
    of their threads, and [None] is the null pointer. *)
From Stdlib Require Import ZArith Lia Bool.
From stdpp Require Import base list numbers.
From S2P Require Import Prelude TatasLock.
Local Open Scope Z_scope.

Definition OSQ_UNLOCKED_VAL : Z := 0.
Definition encode_cpu (cpu_nr : Z) : Z := cpu_nr + 1.
Definition cpu_to_node (encoded_cpu_val : Z) : Z := encoded_cpu_val - 1.

(** struct optimistic_spin_queue and struct optimistic_spin_node *)
Record omem := OMem { o_tail : Z; o_next : Z -> option Z; o_prev : Z -> option Z; o_locked : Z -> Z; o_cpu : Z -> Z }.

Definition set_otail (m : omem) x := OMem x (o_next m) (o_prev m) (o_locked m) (o_cpu m).
Definition set_onext (m : omem) i x := OMem (o_tail m) (upd (o_next m) i x) (o_prev m) (o_locked m) (o_cpu m).
Definition set_oprev (m : omem) i x := OMem (o_tail m) (o_next m) (upd (o_prev m) i x) (o_locked m) (o_cpu m).
Definition set_olocked (m : omem) i x := OMem (o_tail m) (o_next m) (o_prev m) (upd (o_locked m) i x) (o_cpu m).
Definition set_ocpu (m : omem) i x := OMem (o_tail m) (o_next m) (o_prev m) (o_locked m) (upd (o_cpu m) i x).

Definition osq_is_locked (m : omem) : bool := negb (o_tail m =? OSQ_UNLOCKED_VAL).

(** Where a thread is: before the access that the name tells.  [OWait] are the accesses
    of [osq_wait_next], with the arguments [prev] and the value [old] for the tail. *)
Inductive wait_at := WTail | WCas | WNext | WXchg.

Inductive opc :=
| OIdle
| OLocked0 | ONext0 | OCpu | OXchg
| OPrev (prev : Z) | OLink (prev : Z)
| OSpin (prev back_off : Z)
| OACheck (prev : Z) | OACas (prev : Z) | OALocked (prev : Z) | OAPrev
| OBCpu (prev : Z) | OWait (prev : option Z) (old : Z) (at_ : wait_at)
| OC1 (prev next : Z) | OC2 (prev next : Z)
| OFail
| OCritical
| OUCas | OUXchg | OUSet (next : Z).

(** What follows [osq_wait_next]: [osq_unlock] calls it without [prev], the unqueueing of
    [osq_lock] with it. *)
Definition wait_done (prev : option Z) (next : option Z) : opc :=
  match prev, next with
  | None, None => OIdle
  | None, Some n => OUSet n
  | Some _, None => OFail
  | Some p, Some n => OC1 p n
  end.

Section Osq.
Context (unqueue_retry : Z).

Definition osq_wait_next (i : Z) (prev : option Z) (old : Z) (w : wait_at) (m : omem) : opc * omem :=
  let curr := encode_cpu i in
  match w with
  | WTail => (OWait prev old (if o_tail m =? curr then WCas else WNext), m)
  | WCas => if o_tail m =? curr then (wait_done prev None, set_otail m old) else (OWait prev old WNext, m)
  | WNext => (OWait prev old (match o_next m i with Some _ => WXchg | None => WTail end), m)
  | WXchg =>
      (match o_next m i with Some n => wait_done prev (Some n) | None => OWait prev old WTail end, set_onext m i None)
  end.

(** The next access of the thread [i]: [lock_acquire] calls [osq_lock] until it
    succeeds, [lock_release] is [osq_unlock]. *)
Definition ostep (i : Z) (p : opc) (m : omem) : outcome (opc * omem) :=
  let curr := encode_cpu i in
  match p with
  | OIdle => Ret (OLocked0, m)
  | OLocked0 => Ret (ONext0, set_olocked m i 0)
  | ONext0 => Ret (OCpu, set_onext m i None)
  | OCpu => Ret (OXchg, set_ocpu m i curr)
  | OXchg => Ret (if o_tail m =? OSQ_UNLOCKED_VAL then OCritical else OPrev (cpu_to_node (o_tail m)), set_otail m curr)
  | OPrev prev => Ret (OLink prev, set_oprev m i (Some prev))
  | OLink prev => Ret (OSpin prev 0, set_onext m prev (Some i))
  | OSpin prev back_off =>
      Ret (if truthy (o_locked m i) then OCritical
           else if back_off + 1 >? unqueue_retry then OACheck prev else OSpin prev (back_off + 1), m)
  | OACheck prev => Ret (if bool_decide (o_next m prev = Some i) then OACas prev else OALocked prev, m)
  | OACas prev => if bool_decide (o_next m prev = Some i) then Ret (OBCpu prev, set_onext m prev None) else Ret (OALocked prev, m)
  | OALocked prev => Ret (if truthy (o_locked m i) then OCritical else OAPrev, m)
  | OAPrev => match o_prev m i with Some prev => Ret (OACheck prev, m) | None => Bug end
  | OBCpu prev => Ret (OWait (Some prev) (o_cpu m prev) WTail, m)
  | OWait prev old w => Ret (osq_wait_next i prev old w m)
  | OC1 prev next => Ret (OC2 prev next, set_oprev m next (Some prev))
  | OC2 prev next => Ret (OFail, set_onext m prev (Some next))
  | OFail => Ret (OLocked0, m)
  | OCritical => Ret (OUCas, m)
  | OUCas => if o_tail m =? curr then Ret (OIdle, set_otail m OSQ_UNLOCKED_VAL) else Ret (OUXchg, m)
  | OUXchg => Ret (match o_next m i with Some n => OUSet n | None => OWait None OSQ_UNLOCKED_VAL WTail end, set_onext m i None)
  | OUSet next => Ret (OIdle, set_olocked m next 1)
  end.

Record osys := OSys { os_mem : omem; os_pc : Z -> opc }.

(** Numbers of threads are ints. *)
Definition cpu_ok (i : Z) : Prop := 0 <= i < 2 ^ 31 - 1.

Inductive osys_step : osys -> osys -> Prop :=
| osys_thread i st p' m' : cpu_ok i -> ostep i (os_pc st i) (os_mem st) = Ret (p', m') -> osys_step st (OSys m' (upd (os_pc st) i p')).

(** [osq_lock_init] clears the nodes and the tail. *)
Definition osq_lock_init : osys :=
  OSys (OMem OSQ_UNLOCKED_VAL (fun _ => None) (fun _ => None) (fun _ => 0) (fun _ => 0)) (fun _ => OIdle).

Inductive osys_reachable : osys -> Prop :=
| osys_init : osys_reachable osq_lock_init
| osys_next st st' : osys_reachable st -> osys_step st st' -> osys_reachable st'.
End Osq.

(** ** Successors in a queue *)

Fixpoint osucc (q : list Z) (a : Z) : option Z :=
  match q with
  | [] => None
  | x :: q => if x =? a then head q else osucc q a
  end.

(** The queue without [i]. *)
Definition without (i : Z) (q : list Z) : list Z := filter (fun x => x <> i) q.

Lemma osucc_in q a b : osucc q a = Some b -> a ∈ q /\ b ∈ q.
Proof.
  induction q as [|x q IH]; cbn [osucc]; [done|]. destruct (Z.eqb_spec x a) as [->|].
  - destruct q as [|y q]; [done|]. intros [= ->]. split; [by left|right; by left].
  - intros H. destruct (IH H). split; by right.
Qed.

Lemma osucc_notin q a : a ∉ q -> osucc q a = None.
Proof. intros H. destruct (osucc q a) as [b|] eqn:E; [|done]. by apply osucc_in in E as [? _]. Qed.

Lemma osucc_head h l a : NoDup (h :: l) -> osucc (h :: l) a <> Some h.
Proof.
  intros [Hh Hd]%list.NoDup_cons E. cbn [osucc] in E. destruct (Z.eqb_spec h a) as [->|].
  - destruct l as [|y l]; [done|]. injection E as ->. apply Hh. by left.
  - by apply osucc_in in E as [_ ?].
Qed.

Lemma osucc_inj q a a' b : NoDup q -> osucc q a = Some b -> osucc q a' = Some b -> a = a'.
Proof.
  induction q as [|x q IH]; intros Hd; [done|]. pose proof Hd as [Hx Hq]%list.NoDup_cons. cbn [osucc].
  destruct (Z.eqb_spec x a) as [<-|N], (Z.eqb_spec x a') as [<-|N']; [done| | |by apply IH].
  - destruct q as [|y q]; [done|]. intros [= ->] E. by apply osucc_head in E.
  - intros E. destruct q as [|y q]; [done|]. intros [= ->]. by apply osucc_head in E.
Qed.

Lemma osucc_snoc q i a : NoDup q -> i ∉ q -> osucc (q ++ [i]) a = if decide (list.last q = Some a) then Some i else osucc q a.
Proof.
  induction q as [|x q IH]; intros Hd Hi; [cbn; by case_match|]. pose proof Hd as [Hx Hq]%list.NoDup_cons.
  assert (Hiq : i ∉ q) by (intros X; apply Hi; by right). cbn [app osucc]. rewrite IH by done. destruct q as [|y q].
  - destruct (Z.eqb_spec x a) as [->|]; cbn; repeat case_decide; congruence.
  - change (list.last (x :: y :: q)) with (list.last (y :: q)). destruct (Z.eqb_spec x a) as [->|]; [|done].
    rewrite decide_False; [done|]. intros E. apply last_Some_elem_of in E. done.
Qed.

Lemma osucc_last q a : a ∈ q -> osucc q a = None -> NoDup q -> list.last q = Some a.
Proof.
  induction q as [|x q IH]; [by intros []%not_elem_of_nil|]. intros Ha E Hd. pose proof Hd as [Hx Hq]%list.NoDup_cons. cbn [osucc] in E.
  destruct (Z.eqb_spec x a) as [->|N]; [by destruct q|]. apply list.elem_of_cons in Ha as [->|Ha]; [done|]. destruct q as [|y q]; [by apply not_elem_of_nil in Ha|].
  by apply IH.
Qed.

Lemma last_osucc q a : NoDup q -> list.last q = Some a -> osucc q a = None.
Proof.
  induction q as [|x q IH]; [done|]. intros Hd E. pose proof Hd as [Hx Hq]%list.NoDup_cons. cbn [osucc]. destruct q as [|y q]; [by destruct (_ =? _)|].
  change (list.last (x :: y :: q)) with (list.last (y :: q)) in E.
  destruct (Z.eqb_spec x a) as [->|]; [|by apply IH]. apply last_Some_elem_of in E. done.
Qed.

Lemma osucc_split l1 a l2 : NoDup (l1 ++ a :: l2) -> osucc (l1 ++ a :: l2) a = head l2.
Proof.
  induction l1 as [|x l1 IH]; cbn [app osucc]; [by rewrite Z.eqb_refl|]. intros [Hx Hd]%list.NoDup_cons.
  destruct (Z.eqb_spec x a) as [->|]; [|by apply IH]. destruct Hx. apply list.elem_of_app. right. by left.
Qed.

Lemma osucc_pred h l b : b ∈ l -> NoDup (h :: l) -> exists a, osucc (h :: l) a = Some b.
Proof.
  revert h. induction l as [|y l IH]; intros h; [by intros []%not_elem_of_nil|]. intros Hb Hd. pose proof Hd as [Hh Hq]%list.NoDup_cons.
  apply list.elem_of_cons in Hb as [->|Hb]; [exists h; cbn; by rewrite Z.eqb_refl|]. destruct (IH y Hb Hq) as [a Ha]. exists a.
  change (osucc (h :: y :: l) a) with (if h =? a then Some y else osucc (y :: l) a).
  destruct (Z.eqb_spec h a) as [->|]; [|done]. exfalso. apply Hh. by apply osucc_in in Ha as [? _].
Qed.

Lemma without_notin i q : i ∉ q -> without i q = q.
Proof. intros H. apply filter_all. intros x Hx ->. done. Qed.

Lemma without_cons i x q : without i (x :: q) = if decide (x = i) then without i q else x :: without i q.
Proof. unfold without. rewrite filter_cons. by destruct (decide (x <> i)), (decide (x = i)). Qed.

Lemma without_first i h l : h <> i -> without i (h :: l) = h :: without i l.
Proof. intros N. by rewrite without_cons, decide_False. Qed.

Lemma elem_of_without i x q : x ∈ without i q <-> x <> i /\ x ∈ q.
Proof. unfold without. by rewrite list_elem_of_filter. Qed.

Lemma NoDup_without i q : NoDup q -> NoDup (without i q).
Proof. apply list.NoDup_filter. Qed.

(** Taking [i] out joins its neighbours. *)
Lemma osucc_without q i a : NoDup q ->
  osucc (without i q) a = if decide (a = i) then None else if decide (osucc q a = Some i) then osucc q i else osucc q a.
Proof.
  induction q as [|x q IH]; intros Hd; [cbn; by repeat case_decide|]. pose proof Hd as [Hx Hq]%list.NoDup_cons. specialize (IH Hq).
  rewrite without_cons. cbn [osucc]. destruct (decide (x = i)) as [->|Nx].
  - rewrite Z.eqb_refl, without_notin by done. destruct (decide (a = i)) as [->|Na]; [by apply osucc_notin|].
    destruct (Z.eqb_spec i a); [congruence|]. rewrite decide_False; [done|]. intros E. by apply osucc_in in E as [_ ?].
  - cbn [osucc]. destruct (Z.eqb_spec x a) as [->|Na].
    + rewrite decide_False by done. destruct q as [|y q]; [cbn; by rewrite decide_False|]. rewrite without_cons. cbn [head].
      destruct (decide (y = i)) as [->|Ny].
      * rewrite decide_True by done. cbn [osucc]. destruct (Z.eqb_spec a i); [congruence|]. rewrite Z.eqb_refl.
        rewrite without_notin; [done|]. by apply list.NoDup_cons in Hq as [? _].
      * rewrite decide_False by congruence. done.
    + rewrite IH. destruct (Z.eqb_spec x i); [congruence|]. done.
Qed.

Lemma last_without q i z : list.last q = Some z -> z <> i -> list.last (without i q) = Some z.
Proof.
  induction q as [|x q IH]; [done|]. intros E Nz. rewrite without_cons. destruct q as [|y q].
  - injection E as ->. by rewrite decide_False.
  - specialize (IH E Nz). destruct (decide (x = i)); [done|]. by rewrite last_cons, IH.
Qed.

Lemma last_without_pred q i a : NoDup q -> list.last q = Some i -> osucc q a = Some i -> list.last (without i q) = Some a.
Proof.
  intros Hd Hl Ha. pose proof (osucc_without q i a Hd) as E. apply osucc_in in Ha as Hin. destruct Hin as [Hin _].
  assert (Na : a <> i) by (intros ->; rewrite (last_osucc q i Hd Hl) in Ha; done).
  rewrite decide_False, decide_True in E by done. rewrite (last_osucc q i Hd Hl) in E.
  apply osucc_last; [by apply elem_of_without|done|by apply NoDup_without].
Qed.

(** ** The invariant *)

(** From the entry to the critical section until the thread leaves the queue. *)
Definition oinside (p : opc) : bool := match p with OCritical | OUCas | OUXchg | OWait None _ _ => true | _ => false end.
(** Linked, and waiting to be told to go on or trying to undo the link. *)
Definition owaiting (p : opc) : bool :=
  match p with OSpin _ _ | OACheck _ | OACas _ | OALocked _ | OAPrev => true | _ => false end.
(** About to link behind a node, or unlinked from it and leaving. *)
Definition linkto (p : opc) : option Z := match p with OPrev a | OLink a => Some a | _ => None end.
Definition leaving (p : opc) : option Z := match p with OBCpu a | OWait (Some a) _ _ => Some a | _ => None end.
Definition queued (p : opc) : bool :=
  oinside p || owaiting p || bool_decide (is_Some (linkto p)) || bool_decide (is_Some (leaving p)).
(** Joining the two neighbours of a node that left. *)
Definition relinks (p : opc) (a b : Z) : Prop := p = OC1 a b \/ p = OC2 a b.

(** The pair of neighbours [a] and [b]. *)
Definition link_ok (m : omem) (pcs : Z -> opc) (a b : Z) : Prop :=
  linkto (pcs b) = Some a /\ o_next m a = None \/
  owaiting (pcs b) = true /\ o_next m a = Some b \/
  leaving (pcs b) = Some a /\ o_next m a = None \/
  owaiting (pcs b) = true /\ o_next m a = None /\ exists r, relinks (pcs r) a b.

(** The first of the queue has the lock, was told so, or is about to be told. *)
Definition first_ok (m : omem) (pcs : Z -> opc) (h : Z) : Prop :=
  oinside (pcs h) = true \/ owaiting (pcs h) = true /\ (o_locked m h <> 0 \/ exists u, pcs u = OUSet h).

Definition has_prev (p : opc) : bool :=
  match p with OLink _ | OSpin _ _ | OACheck _ | OACas _ | OALocked _ | OAPrev => true | _ => false end.

Definition oplace (m : omem) (i : Z) (p : opc) : Prop :=
  (queued p = true \/ p = OXchg -> o_cpu m i = encode_cpu i) /\ (has_prev p = true -> o_prev m i <> None) /\
  match p with
  | ONext0 | OCpu | OXchg => o_locked m i = 0
  | OWait prev old _ => old = match prev with Some a => encode_cpu a | None => 0 end
  | _ => True
  end.

Record oinv (m : omem) (pcs : Z -> opc) (q : list Z) : Prop := {
  oi_tail : o_tail m = match list.last q with Some x => encode_cpu x | None => 0 end;
  oi_nodup : NoDup q;
  oi_threads i : pcs i <> OIdle -> cpu_ok i;
  oi_queue i : i ∈ q <-> queued (pcs i) = true;
  oi_pair a b : osucc q a = Some b -> o_locked m b = 0 /\ link_ok m pcs a b;
  oi_none a : osucc q a = None -> o_next m a = None;
  oi_first h l : q = h :: l -> first_ok m pcs h;
  oi_relink r a b : relinks (pcs r) a b ->
    osucc q a = Some b /\ owaiting (pcs b) = true /\ o_next m a = None /\ forall r', relinks (pcs r') a b -> r' = r;
  oi_set u n : pcs u = OUSet n ->
    (exists l, q = n :: l) /\ owaiting (pcs n) = true /\ o_locked m n = 0 /\ forall u', pcs u' = OUSet n -> u' = u;
  oi_place i : oplace m i (pcs i) }.

Section OInv.
Context (m : omem) (pcs : Z -> opc) (q : list Z) (I : oinv m pcs q).

(** A thread of the queue that does not have the lock and has not been told follows another one. *)
Lemma follower i : i ∈ q -> first_ok m pcs i \/ exists a, osucc q a = Some i /\ o_locked m i = 0 /\ link_ok m pcs a i.
Proof using I.
  intros Hi. destruct q as [|h l] eqn:Eq; [by apply not_elem_of_nil in Hi|]. apply list.elem_of_cons in Hi as [->|Hi]; [left; by apply (oi_first _ _ _ I h l)|].
  right. destruct (osucc_pred h l i Hi (oi_nodup _ _ _ I)) as [a Ha]. exists a. split; [done|]. by apply (oi_pair _ _ _ I).
Qed.

(** The roles exclude each other. *)
Lemma roles p : (oinside p = true -> owaiting p = false /\ linkto p = None /\ leaving p = None) /\
  (owaiting p = true -> oinside p = false /\ linkto p = None /\ leaving p = None) /\
  (linkto p <> None -> oinside p = false /\ owaiting p = false /\ leaving p = None) /\
  (leaving p <> None -> oinside p = false /\ owaiting p = false /\ linkto p = None).
Proof using. destruct p as [| | | | | | | | | | | | |[]| | | | | | |]; cbn; split_and!; try done. Qed.

(** A thread that has the lock is the first of the queue. *)
Lemma inside_first i : oinside (pcs i) = true -> exists l, q = i :: l.
Proof using I.
  intros Hi. pose proof (proj1 (roles (pcs i)) Hi) as (R1 & R2 & R3).
  assert (Hq : i ∈ q) by (apply (oi_queue _ _ _ I); unfold queued; by rewrite Hi).
  destruct q as [|h l] eqn:Eq; [by apply not_elem_of_nil in Hq|]. apply list.elem_of_cons in Hq as [->|Hq]; [by exists l|exfalso].
  destruct (osucc_pred h l i Hq (oi_nodup _ _ _ I)) as [a Ha]. destruct (oi_pair _ _ _ I a i Ha) as [_ L].
  unfold link_ok in L. rewrite R1, R2, R3 in L. naive_solver.
Qed.

(** A thread that is told to go on is the first of the queue. *)
Lemma told_first i : owaiting (pcs i) = true -> o_locked m i <> 0 -> exists l, q = i :: l.
Proof using I.
  intros Hi Hl. assert (Hq : i ∈ q) by (apply (oi_queue _ _ _ I); unfold queued; rewrite Hi; by destruct (oinside _)).
  destruct q as [|h l] eqn:Eq; [by apply not_elem_of_nil in Hq|]. apply list.elem_of_cons in Hq as [->|Hq]; [by exists l|exfalso].
  destruct (osucc_pred h l i Hq (oi_nodup _ _ _ I)) as [a Ha]. by destruct (oi_pair _ _ _ I a i Ha) as [? _].
Qed.

(** Who a thread links to, and from whom it is leaving. *)
Lemma linkto_pred i a : linkto (pcs i) = Some a -> osucc q a = Some i /\ o_next m a = None.
Proof using I.
  intros Hl. destruct (proj1 (proj2 (proj2 (roles (pcs i)))) ltac:(congruence)) as (R1 & R2 & R3).
  assert (Hq : i ∈ q) by (apply (oi_queue _ _ _ I); unfold queued; rewrite Hl; cbn; by rewrite orb_true_r).
  destruct (follower i Hq) as [[F|[F _]]|(a' & Ha & _ & L)]; [congruence|congruence|].
  unfold link_ok in L. rewrite R2, R3, Hl in L. naive_solver.
Qed.

Lemma leaving_pred i a : leaving (pcs i) = Some a -> osucc q a = Some i /\ o_next m a = None.
Proof using I.
  intros Hl. destruct (proj2 (proj2 (proj2 (roles (pcs i)))) ltac:(congruence)) as (R1 & R2 & R3).
  assert (Hq : i ∈ q) by (apply (oi_queue _ _ _ I); unfold queued; rewrite Hl; cbn; by rewrite !orb_true_r).
  destruct (follower i Hq) as [[F|[F _]]|(a' & Ha & _ & L)]; [congruence|congruence|].
  unfold link_ok in L. rewrite R2, R3, Hl in L. naive_solver.
Qed.

(** A link leads to the successor, which waits. *)
Lemma next_succ a b : o_next m a = Some b -> osucc q a = Some b /\ owaiting (pcs b) = true /\ o_locked m b = 0.
Proof using I.
  intros Hn. destruct (osucc q a) as [b'|] eqn:E; [|by rewrite (oi_none _ _ _ I a E) in Hn].
  destruct (oi_pair _ _ _ I a b' E) as [Hl L]. unfold link_ok in L. rewrite Hn in L. naive_solver.
Qed.

(** A step of [i] that leaves the queue and its links as they are. *)
Record oframe (i : Z) (p' : opc) (m' : omem) : Prop := {
  of_thread : cpu_ok i;
  of_tail : o_tail m' = o_tail m;
  of_next x : o_next m' x = o_next m x;
  of_locked x : x <> i \/ i ∈ q -> o_locked m' x = o_locked m x;
  of_cpu x : x <> i -> o_cpu m' x = o_cpu m x;
  of_prev x : x <> i -> o_prev m x <> None -> o_prev m' x <> None;
  of_role : oinside p' = oinside (pcs i) /\ owaiting p' = owaiting (pcs i) /\ linkto p' = linkto (pcs i) /\ leaving p' = leaving (pcs i);
  of_relink a b : relinks p' a b <-> relinks (pcs i) a b;
  of_set n : p' = OUSet n <-> pcs i = OUSet n;
  of_place : oplace m' i p' }.

Lemma upd_iff (P : opc -> Prop) i p' r : (P p' <-> P (pcs i)) -> P (upd pcs i p' r) <-> P (pcs r).
Proof using. intros H. destruct (Z.eq_dec i r) as [<-|]; [by rewrite upd_same|by rewrite upd_other]. Qed.

Lemma queued_role p p' : oinside p' = oinside p -> owaiting p' = owaiting p -> linkto p' = linkto p -> leaving p' = leaving p -> queued p' = queued p.
Proof using. unfold queued. by intros -> -> -> ->. Qed.

Lemma place_keep i j p' m' :
  i <> j -> o_locked m' j = o_locked m j -> o_cpu m' j = o_cpu m j -> (o_prev m j <> None -> o_prev m' j <> None) -> oplace m' j (upd pcs i p' j).
Proof using I.
  intros N E1 E2 E3. rewrite upd_other by done. destruct (oi_place _ _ _ I j) as (P1 & P2 & P3). unfold oplace. rewrite E1, E2. split_and!; auto.
Qed.

Lemma oframe_inv i p' m' : oframe i p' m' -> oinv m' (upd pcs i p') q.
Proof using I.
  intros [F1 F2 F3 F4 F5 F6 (R1 & R2 & R3 & R4) F8 F9 F10]. pose proof I as [I1 I2 I3 I4 I5 I6 I7 I8 I9 I10].
  assert (Hq : forall x, x ∈ q -> o_locked m' x = o_locked m x).
  { intros x Hx. apply F4. destruct (Z.eq_dec x i) as [->|]; auto. }
  assert (Hw : forall x, owaiting (upd pcs i p' x) = owaiting (pcs x) /\ oinside (upd pcs i p' x) = oinside (pcs x) /\
                linkto (upd pcs i p' x) = linkto (pcs x) /\ leaving (upd pcs i p' x) = leaving (pcs x))
    by (intros x; destruct (Z.eq_dec i x) as [<-|]; [by rewrite upd_same|by rewrite upd_other]).
  assert (Hr : forall a b r, relinks (upd pcs i p' r) a b <-> relinks (pcs r) a b) by (intros; by apply (upd_iff (fun p => relinks p a b))).
  assert (Hs : forall n u, upd pcs i p' u = OUSet n <-> pcs u = OUSet n) by (intros; by apply (upd_iff (fun p => p = OUSet n))).
  constructor.
  - congruence.
  - done.
  - intros j. destruct (Z.eq_dec i j) as [<-|]; [done|]. rewrite upd_other by done. apply I3.
  - intros j. destruct (Hw j) as (W1 & W2 & W3 & W4). rewrite (queued_role (pcs j) (upd pcs i p' j)) by done. apply I4.
  - intros a b Hab. destruct (I5 a b Hab) as [L1 L2]. apply osucc_in in Hab as [_ Hb]. rewrite Hq by done. split; [done|].
    destruct (Hw b) as (W1 & W2 & W3 & W4). unfold link_ok. rewrite W1, W3, W4, F3. setoid_rewrite Hr. done.
  - intros a Ha. rewrite F3. by apply I6.
  - intros h l Eq. destruct (Hw h) as (W1 & W2 & W3 & W4). unfold first_ok. rewrite W1, W2, Hq by (rewrite Eq; by left). setoid_rewrite Hs. by apply (I7 h l).
  - intros r a b. rewrite Hr. intros X. destruct (I8 r a b X) as (X1 & X2 & X3 & X4). rewrite F3. destruct (Hw b) as (-> & _). split_and!; try done.
    intros r'. rewrite Hr. apply X4.
  - intros u n. rewrite Hs. intros X. destruct (I9 u n X) as ([l X1] & X2 & X3 & X4). destruct (Hw n) as (-> & _). rewrite Hq by (rewrite X1; by left).
    split_and!; try done; [by exists l|]. intros u'. rewrite Hs. apply X4.
  - intros j. destruct (Z.eq_dec i j) as [<-|]; [by rewrite upd_same|]. apply place_keep; auto.
Qed.

(** The first of the queue has been told, and goes on. *)
Lemma oframe_enter i p' : cpu_ok i -> owaiting (pcs i) = true -> o_locked m i <> 0 -> p' = OCritical -> oinv m (upd pcs i p') q.
Proof using I.
  intros Ht Hw Hl ->. destruct (told_first i Hw Hl) as [l0 Eq]. pose proof I as [I1 I2 I3 I4 I5 I6 I7 I8 I9 I10].
  assert (Hno : forall a, osucc q a <> Some i) by (intros a; rewrite Eq; apply osucc_head; by rewrite <- Eq).
  assert (Hr : forall a b r, relinks (upd pcs i OCritical r) a b <-> relinks (pcs r) a b).
  { intros. apply (upd_iff (fun p => relinks p a b)). unfold relinks. destruct (pcs i); cbn in Hw; naive_solver. }
  assert (Hs : forall n u, upd pcs i OCritical u = OUSet n <-> pcs u = OUSet n).
  { intros. apply (upd_iff (fun p => p = OUSet n)). destruct (pcs i); cbn in Hw; naive_solver. }
  constructor; try done.
  - intros j. destruct (Z.eq_dec i j) as [<-|]; [done|]. rewrite upd_other by done. apply I3.
  - intros j. destruct (Z.eq_dec i j) as [<-|]; [rewrite upd_same|rewrite upd_other by done; apply I4]. split; [done|]. intros _. rewrite Eq. by left.
  - intros a b Hab. destruct (I5 a b Hab) as [L1 L2]. split; [done|]. unfold link_ok in *. setoid_rewrite Hr.
    rewrite upd_other by (intros <-; by apply Hno in Hab). done.
  - intros h l Eq'. rewrite Eq in Eq'. injection Eq' as <- <-. left. by rewrite upd_same.
  - intros r a b. rewrite Hr. intros X. destruct (I8 r a b X) as (X1 & X2 & X3 & X4). rewrite upd_other by (intros <-; by apply Hno in X1).
    split_and!; try done. intros r'. rewrite Hr. apply X4.
  - intros u n. rewrite Hs. intros X. destruct (I9 u n X) as (X1 & X2 & X3 & X4). rewrite upd_other by (intros <-; done).
    split_and!; try done. intros u'. rewrite Hs. apply X4.
  - intros j. destruct (Z.eq_dec i j) as [<-|]; [|by apply place_keep]. rewrite upd_same. destruct (I10 i) as (P1 & _). split_and!; try done.
    intros _. apply P1. left. unfold queued. rewrite Hw. by destruct (oinside _).
Qed.

(** *** Steps that change the queue or its links *)

Lemma other_thread i p' j : cpu_ok i -> upd pcs i p' j <> OIdle -> cpu_ok j.
Proof using I. intros Ht. destruct (Z.eq_dec i j) as [<-|]; [done|]. rewrite upd_other by done. apply (oi_threads _ _ _ I). Qed.

Lemma no_relink i p' a b r : (forall a b, ~ relinks (pcs i) a b) -> (forall a b, ~ relinks p' a b) -> relinks (upd pcs i p' r) a b <-> relinks (pcs r) a b.
Proof using. intros H1 H2. apply (upd_iff (fun p => relinks p a b)). specialize (H1 a b). specialize (H2 a b). tauto. Qed.

Lemma no_set i p' n u : (forall n, pcs i <> OUSet n) -> (forall n, p' <> OUSet n) -> upd pcs i p' u = OUSet n <-> pcs u = OUSet n.
Proof using. intros H1 H2. apply (upd_iff (fun p => p = OUSet n)). specialize (H1 n). specialize (H2 n). tauto. Qed.

(** A thread joins at the end. *)
Lemma ojoin_inv i :
  cpu_ok i -> pcs i = OXchg ->
  oinv (set_otail m (encode_cpu i)) (upd pcs i (match list.last q with Some z => OPrev z | None => OCritical end)) (q ++ [i]).
Proof using I.
  intros Ht Hp. pose proof I as [I1 I2 I3 I4 I5 I6 I7 I8 I9 I10]. destruct (I10 i) as (P1 & _ & P3). rewrite Hp in P1, P3.
  assert (Hi : i ∉ q) by (rewrite I4, Hp; done). set (p' := match list.last q with Some z => OPrev z | None => OCritical end).
  assert (Hr : forall a b r, relinks (upd pcs i p' r) a b <-> relinks (pcs r) a b).
  { intros. apply no_relink; intros a' b' X; unfold p', relinks in X; [rewrite Hp in X|destruct (list.last q)]; naive_solver. }
  assert (Hs : forall n u, upd pcs i p' u = OUSet n <-> pcs u = OUSet n).
  { intros. apply no_set; intros n' X; [congruence|]. unfold p' in X. by destruct (list.last q). }
  assert (Hout : forall x, x ∈ q -> i <> x) by (intros x Hx ->; done).
  constructor; cbn [set_otail o_tail o_next o_prev o_locked o_cpu].
  - by rewrite last_snoc.
  - apply list.NoDup_app. split; [done|]. split; [intros x Hx ->%list_elem_of_singleton; done|apply NoDup_singleton].
  - intros j. by apply other_thread.
  - intros j. rewrite list.elem_of_app, list_elem_of_singleton, I4. destruct (Z.eq_dec i j) as [<-|N]; [rewrite upd_same|rewrite upd_other by done].
    + split; [intros _; unfold p'; by destruct (list.last q)|by right].
    + split; [intros [?|?]; [done|congruence]|by left].
  - intros a b. rewrite osucc_snoc by done. destruct (decide _) as [El|El].
    + intros [= <-]. split; [done|]. left. rewrite upd_same. unfold p'. rewrite El. split; [done|]. apply I6. by apply last_osucc.
    + intros Hab. destruct (I5 a b Hab) as [L1 L2]. split; [done|]. unfold link_ok in *. setoid_rewrite Hr.
      rewrite upd_other by (apply Hout; by apply osucc_in in Hab as [_ ?]). done.
  - intros a. rewrite osucc_snoc by done. destruct (decide _); [done|]. apply I6.
  - intros h l Eq. unfold first_ok. setoid_rewrite Hs. destruct q as [|h' l'] eqn:Eq'.
    + injection Eq as <- <-. rewrite upd_same. by left.
    + injection Eq as <- <-. rewrite upd_other by (apply Hout; by left). by apply (I7 h' l').
  - intros r a b. rewrite Hr. intros X. destruct (I8 r a b X) as (X1 & X2 & X3 & X4). apply osucc_in in X1 as X5. split_and!; try done.
    + rewrite osucc_snoc by done. rewrite decide_False; [done|]. intros El. by rewrite (last_osucc q a I2 El) in X1.
    + rewrite upd_other by (apply Hout, X5). done.
    + intros r'. rewrite Hr. apply X4.
  - intros u n. rewrite Hs. intros X. destruct (I9 u n X) as ([l X1] & X2 & X3 & X4). split_and!; try done.
    + exists (l ++ [i]). by rewrite X1.
    + rewrite upd_other by (apply Hout; rewrite X1; by left). done.
    + intros u'. rewrite Hs. apply X4.
  - intros j. destruct (Z.eq_dec i j) as [<-|N]; [|by apply place_keep]. rewrite upd_same. split_and!; [intros _; apply P1; by right|..];
      unfold p'; by destruct (list.last q).
Qed.

(** A thread links itself behind its predecessor. *)
Lemma olink_inv i a : cpu_ok i -> pcs i = OLink a -> oinv (set_onext m a (Some i)) (upd pcs i (OSpin a 0)) q.
Proof using I.
  intros Ht Hp. destruct (linkto_pred i a) as [Ha Hna]; [by rewrite Hp|]. pose proof I as [I1 I2 I3 I4 I5 I6 I7 I8 I9 I10].
  assert (Hr : forall a' b r, relinks (upd pcs i (OSpin a 0) r) a' b <-> relinks (pcs r) a' b).
  { intros. apply no_relink; intros a2 b' X; [rewrite Hp in X|]; destruct X; congruence. }
  assert (Hs : forall n u, upd pcs i (OSpin a 0) u = OUSet n <-> pcs u = OUSet n) by (intros; apply no_set; intros n'; congruence).
  assert (Hne : forall x, owaiting (pcs x) = true -> i <> x) by (intros x Hx ->; by rewrite Hp in Hx).
  constructor; cbn [set_onext o_tail o_next o_prev o_locked o_cpu]; try done.
  - intros j. by apply other_thread.
  - intros j. destruct (Z.eq_dec i j) as [<-|]; [rewrite upd_same|rewrite upd_other by done; apply I4]. rewrite I4, Hp. done.
  - intros a' b Hab. destruct (I5 a' b Hab) as [L1 L2]. split; [done|]. unfold link_ok in *. cbn [set_onext o_next]. setoid_rewrite Hr.
    destruct (Z.eq_dec a a') as [<-|N].
    + rewrite Ha in Hab. injection Hab as <-. rewrite !upd_same. right. by left.
    + rewrite (upd_other (o_next m)) by done. rewrite upd_other; [done|]. intros <-. apply N. by apply (osucc_inj q a a' i).
  - intros a' Ha'. rewrite upd_other by (intros <-; congruence). by apply I6.
  - intros h l Eq. unfold first_ok. setoid_rewrite Hs. rewrite upd_other by (intros <-; rewrite Eq in Ha, I2; by apply osucc_head in Ha). by apply (I7 h l).
  - intros r a' b. rewrite Hr. intros X. destruct (I8 r a' b X) as (X1 & X2 & X3 & X4). rewrite upd_other by (by apply Hne). split_and!; try done.
    + cbn [set_onext o_next]. rewrite upd_other; [done|]. intros <-. rewrite Ha in X1. injection X1 as <-. by apply (Hne i).
    + intros r'. rewrite Hr. apply X4.
  - intros u n. rewrite Hs. intros X. destruct (I9 u n X) as (X1 & X2 & X3 & X4). rewrite upd_other by (by apply Hne). split_and!; try done.
    intros u'. rewrite Hs. apply X4.
  - intros j. destruct (Z.eq_dec i j) as [<-|N]; [|by apply place_keep]. rewrite upd_same. destruct (I10 i) as (P1 & P2 & _). rewrite Hp in P1, P2.
    split_and!; try done. intros _. apply P1. by left.
Qed.

(** A waiting thread undoes the link of its predecessor. *)
Lemma odetach_inv i a : cpu_ok i -> pcs i = OACas a -> o_next m a = Some i -> oinv (set_onext m a None) (upd pcs i (OBCpu a)) q.
Proof using I.
  intros Ht Hp Hn. destruct (next_succ a i Hn) as (Ha & Hw & Hl). pose proof I as [I1 I2 I3 I4 I5 I6 I7 I8 I9 I10].
  assert (Hr : forall a' b r, relinks (upd pcs i (OBCpu a) r) a' b <-> relinks (pcs r) a' b).
  { intros. apply no_relink; intros a2 b' X; [rewrite Hp in X|]; destruct X; congruence. }
  assert (Hs : forall n u, upd pcs i (OBCpu a) u = OUSet n <-> pcs u = OUSet n) by (intros; apply no_set; intros n'; congruence).
  assert (Hh : forall l, q <> i :: l) by (intros l E; rewrite E in Ha, I2; by apply osucc_head in Ha).
  constructor; cbn [set_onext o_tail o_next o_prev o_locked o_cpu]; try done.
  - intros j. by apply other_thread.
  - intros j. destruct (Z.eq_dec i j) as [<-|]; [rewrite upd_same|rewrite upd_other by done; apply I4]. rewrite I4, Hp. done.
  - intros a' b Hab. destruct (I5 a' b Hab) as [L1 L2]. split; [done|]. unfold link_ok in *. cbn [set_onext o_next]. setoid_rewrite Hr.
    destruct (Z.eq_dec a a') as [<-|N].
    + rewrite Ha in Hab. injection Hab as <-. rewrite !upd_same. right; right. by left.
    + rewrite (upd_other (o_next m)) by done. rewrite upd_other; [done|]. intros <-. apply N. by apply (osucc_inj q a a' i).
  - intros a' Ha'. rewrite upd_other by (intros <-; congruence). by apply I6.
  - intros h l Eq. unfold first_ok. setoid_rewrite Hs. rewrite upd_other by (intros <-; by apply (Hh l)). by apply (I7 h l).
  - intros r a' b. rewrite Hr. intros X. destruct (I8 r a' b X) as (X1 & X2 & X3 & X4). assert (N : a <> a') by (intros <-; congruence).
    cbn [set_onext o_next]. rewrite (upd_other (o_next m)) by done. rewrite upd_other by (intros <-; apply N; by apply (osucc_inj q a a' i)).
    split_and!; try done. intros r'. rewrite Hr. apply X4.
  - intros u n. rewrite Hs. intros X. destruct (I9 u n X) as ([l X1] & X2 & X3 & X4). rewrite upd_other by (intros <-; by apply (Hh l)). split_and!; try done; [by exists l|].
    intros u'. rewrite Hs. apply X4.
  - intros j. destruct (Z.eq_dec i j) as [<-|N]; [|by apply place_keep]. rewrite upd_same. destruct (I10 i) as (P1 & P2 & _). rewrite Hp in P1, P2.
    split_and!; try done. intros _. apply P1. by left.
Qed.

(** The thread that has the lock leaves an otherwise empty queue. *)
Lemma oleave_alone_inv i : cpu_ok i -> oinside (pcs i) = true -> list.last q = Some i -> oinv (set_otail m 0) (upd pcs i OIdle) [].
Proof using I.
  intros Ht Hin Hl. destruct (inside_first i Hin) as [l Eq]. pose proof I as [I1 I2 I3 I4 I5 I6 I7 I8 I9 I10].
  assert (l = []) as ->.
  { destruct l as [|b l]; [done|]. rewrite Eq in Hl, I2. change (list.last (i :: b :: l)) with (list.last (b :: l)) in Hl.
    apply last_Some_elem_of in Hl. by apply list.NoDup_cons in I2 as [? _]. }
  assert (Hno : forall a, osucc q a = None) by (intros a; rewrite Eq; cbn; by destruct (_ =? _)).
  pose proof (proj1 (proj1 (roles (pcs i)) Hin)) as Hw.
  constructor; cbn [set_otail o_tail o_next o_prev o_locked o_cpu]; try done.
  - constructor.
  - intros j. by apply other_thread.
  - intros j. split; [by intros []%not_elem_of_nil|]. destruct (Z.eq_dec i j) as [<-|N]; [by rewrite upd_same|]. rewrite upd_other by done.
    intros X. apply I4 in X. rewrite Eq in X. apply list_elem_of_singleton in X. congruence.
  - intros a _. by apply I6.
  - intros r a b. destruct (Z.eq_dec i r) as [<-|N]; [rewrite upd_same; by intros [?|?]|]. rewrite upd_other by done. intros X.
    destruct (I8 r a b X) as [X1 _]. by rewrite Hno in X1.
  - intros u n. destruct (Z.eq_dec i u) as [<-|N]; [by rewrite upd_same|]. rewrite upd_other by done. intros X.
    destruct (I9 u n X) as ([l' X1] & X2 & _). rewrite Eq in X1. injection X1 as <- _. congruence.
  - intros j. destruct (Z.eq_dec i j) as [<-|N]; [|by apply place_keep]. rewrite upd_same. split_and!; try done. intros [?|?]; done.
Qed.

(** A thread that has undone its link leaves the end of the queue. *)
Lemma oleave_last_inv i a :
  cpu_ok i -> leaving (pcs i) = Some a -> list.last q = Some i -> oinv (set_otail m (encode_cpu a)) (upd pcs i OFail) (without i q).
Proof using I.
  intros Ht Hle Hl. destruct (leaving_pred i a Hle) as [Ha Hna]. pose proof I as [I1 I2 I3 I4 I5 I6 I7 I8 I9 I10].
  destruct (proj2 (proj2 (proj2 (roles (pcs i)))) ltac:(congruence)) as (R1 & R2 & R3).
  assert (Hr : forall a' b r, relinks (upd pcs i OFail r) a' b <-> relinks (pcs r) a' b).
  { intros. apply no_relink; intros a2 b' [X|X]; rewrite ?X in Hle; done. }
  assert (Hs : forall n u, upd pcs i OFail u = OUSet n <-> pcs u = OUSet n) by (intros; apply no_set; intros n' X; rewrite ?X in Hle; done).
  assert (Hne : forall x, owaiting (pcs x) = true -> i <> x) by (intros x Hx ->; congruence).
  assert (Hh : forall l, q <> i :: l) by (intros l E; rewrite E in Ha, I2; by apply osucc_head in Ha).
  assert (Hsame : forall a' b, osucc q a' = Some b -> b <> i -> osucc (without i q) a' = Some b).
  { intros a' b E N. rewrite osucc_without by done. rewrite decide_False, decide_False by congruence || (intros ->; by rewrite (last_osucc q i I2 Hl) in E). done. }
  constructor; cbn [set_otail o_tail o_next o_prev o_locked o_cpu]; try done.
  - by rewrite (last_without_pred q i a).
  - by apply NoDup_without.
  - intros j. by apply other_thread.
  - intros j. rewrite elem_of_without. destruct (Z.eq_dec i j) as [<-|N]; [rewrite upd_same|rewrite upd_other by done]; [naive_solver|]. rewrite I4. naive_solver.
  - intros a' b. rewrite osucc_without by done. destruct (decide (a' = i)); [done|]. destruct (decide _) as [E|E]; [by rewrite (last_osucc q i I2 Hl)|].
    intros Hab. destruct (I5 a' b Hab) as [L1 L2]. split; [done|]. unfold link_ok in *. setoid_rewrite Hr. by rewrite upd_other by congruence.
  - intros a'. rewrite osucc_without by done. destruct (decide (a' = i)) as [->|N]; [intros _; apply I6; by apply last_osucc|].
    destruct (decide _) as [E|E]; [|apply I6]. intros _. by rewrite (osucc_inj q a' a i).
  - intros h l Eq. unfold first_ok. setoid_rewrite Hs. destruct q as [|h' l'] eqn:Eq'; [done|].
    assert (N : h' <> i) by (intros ->; by apply (Hh l')). rewrite without_cons, decide_False in Eq by done. injection Eq as <- <-.
    rewrite upd_other by done. by apply (I7 h' l').
  - intros r a' b. rewrite Hr. intros X. destruct (I8 r a' b X) as (X1 & X2 & X3 & X4). pose proof (Hne b X2) as N. rewrite upd_other by done.
    split_and!; try done; [by apply Hsame|]. intros r'. rewrite Hr. apply X4.
  - intros u n. rewrite Hs. intros X. destruct (I9 u n X) as ([l X1] & X2 & X3 & X4). pose proof (Hne n X2) as N. rewrite upd_other by done.
    split_and!; try done; [|intros u'; rewrite Hs; apply X4]. exists (without i l). rewrite X1. by apply without_first.
  - intros j. destruct (Z.eq_dec i j) as [<-|N]; [|by apply place_keep]. rewrite upd_same. split_and!; try done. intros [?|?]; done.
Qed.

(** The thread that has the lock leaves it to its successor. *)
Lemma ohand_inv i n : cpu_ok i -> oinside (pcs i) = true -> o_next m i = Some n -> oinv (set_onext m i None) (upd pcs i (OUSet n)) (without i q).
Proof using I.
  intros Ht Hin Hn. destruct (inside_first i Hin) as [l0 Eq]. destruct (next_succ i n Hn) as (Hi & Hw & Hl). pose proof I as [I1 I2 I3 I4 I5 I6 I7 I8 I9 I10].
  destruct (proj1 (roles (pcs i)) Hin) as (R1 & R2 & R3).
  assert (Eq2 : exists l, q = i :: n :: l).
  { rewrite Eq in Hi. cbn [osucc] in Hi. rewrite Z.eqb_refl in Hi. destruct l0 as [|y l]; [done|]. injection Hi as ->. by exists l. }
  destruct Eq2 as [l Eq2]. clear l0 Eq. assert (Nin : i <> n) by (intros ->; congruence).
  assert (Ew : without i q = n :: l).
  { rewrite Eq2, without_cons, decide_True by done. apply without_notin. rewrite Eq2 in I2. by apply list.NoDup_cons in I2 as [? _]. }
  assert (Hno : forall a, osucc q a <> Some i) by (intros a; rewrite Eq2; apply osucc_head; by rewrite <- Eq2).
  assert (Hr : forall a' b r, relinks (upd pcs i (OUSet n) r) a' b <-> relinks (pcs r) a' b).
  { intros. apply no_relink; intros a2 b' [X|X]; rewrite ?X in Hin; done. }
  assert (Hset : forall u x, u <> i -> pcs u <> OUSet x).
  { intros u x N X. destruct (I9 u x X) as ([l' X1] & X2 & _). rewrite Eq2 in X1. injection X1 as <- _. congruence. }
  constructor; cbn [set_onext o_tail o_next o_prev o_locked o_cpu]; try done.
  - rewrite I1, Ew, Eq2. done.
  - by apply NoDup_without.
  - intros j. by apply other_thread.
  - intros j. rewrite elem_of_without. destruct (Z.eq_dec i j) as [<-|N]; [rewrite upd_same|rewrite upd_other by done]; [naive_solver|]. rewrite I4. naive_solver.
  - intros a b. rewrite osucc_without by done. destruct (decide (a = i)) as [->|N]; [done|]. rewrite decide_False by apply Hno.
    intros Hab. destruct (I5 a b Hab) as [L1 L2]. split; [done|]. unfold link_ok in *. cbn [set_onext o_next]. setoid_rewrite Hr.
    rewrite (upd_other (o_next m)) by done. rewrite upd_other by (intros <-; by apply Hno in Hab). done.
  - intros a. rewrite osucc_without by done. destruct (decide (a = i)) as [->|N]; [intros _; apply upd_same|]. rewrite decide_False by apply Hno.
    rewrite upd_other by done. apply I6.
  - intros h l' E. rewrite Ew in E. injection E as <- <-. right. rewrite upd_other by done. split; [done|]. right. exists i. apply upd_same.
  - intros r a b. rewrite Hr. intros X. destruct (I8 r a b X) as (X1 & X2 & X3 & X4). assert (N : i <> a) by (intros <-; congruence).
    cbn [set_onext o_next]. rewrite (upd_other (o_next m)) by done. rewrite upd_other by (intros <-; by apply Hno in X1). split_and!; try done.
    + rewrite osucc_without by done. rewrite decide_False by done. by rewrite decide_False by apply Hno.
    + intros r'. rewrite Hr. apply X4.
  - intros u x. destruct (Z.eq_dec i u) as [<-|N]; [rewrite upd_same|rewrite upd_other by done; intros X; by apply Hset in X].
    intros [= <-]. rewrite upd_other by done. split_and!; try done; [by exists l|]. intros u'. destruct (Z.eq_dec i u') as [<-|N]; [done|].
    rewrite upd_other by done. intros X. by apply Hset in X.
  - intros j. destruct (Z.eq_dec i j) as [<-|N]; [|by apply place_keep]. rewrite upd_same. split_and!; try done. intros [?|?]; done.
Qed.

(** A thread leaves the middle of the queue, and will join its neighbours. *)
Lemma oleave_middle_inv i a n :
  cpu_ok i -> leaving (pcs i) = Some a -> o_next m i = Some n -> oinv (set_onext m i None) (upd pcs i (OC1 a n)) (without i q).
Proof using I.
  intros Ht Hle Hn. destruct (leaving_pred i a Hle) as [Ha Hna]. destruct (next_succ i n Hn) as (Hi & Hw & Hl). pose proof I as [I1 I2 I3 I4 I5 I6 I7 I8 I9 I10].
  destruct (proj2 (proj2 (proj2 (roles (pcs i)))) ltac:(congruence)) as (R1 & R2 & R3).
  assert (Nin : i <> n) by (intros ->; congruence). assert (Nai : i <> a) by (intros <-; congruence).
  assert (Hh : forall l, q <> i :: l) by (intros l E; rewrite E in Ha, I2; by apply osucc_head in Ha).
  assert (Hs : forall x u, upd pcs i (OC1 a n) u = OUSet x <-> pcs u = OUSet x) by (intros; apply no_set; intros n' X; rewrite ?X in Hle; done).
  assert (Hold : forall r a' b, relinks (pcs r) a' b -> a' <> i /\ a' <> a /\ b <> i).
  { intros r a' b X. destruct (I8 r a' b X) as (X1 & X2 & X3 & _). split_and!; intros ->; congruence. }
  assert (Hr : forall r a' b, relinks (upd pcs i (OC1 a n) r) a' b -> r = i /\ a' = a /\ b = n \/ r <> i /\ relinks (pcs r) a' b).
  { intros r a' b. destruct (Z.eq_dec i r) as [<-|N]; [rewrite upd_same; intros [[= <- <-]|?]; [by left|done]|rewrite upd_other by done; by right]. }
  assert (Hkeep : forall r a' b, relinks (pcs r) a' b -> relinks (upd pcs i (OC1 a n) r) a' b).
  { intros r a' b X. rewrite upd_other; [done|]. intros <-. destruct X as [X|X]; rewrite X in Hle; done. }
  constructor; cbn [set_onext o_tail o_next o_prev o_locked o_cpu]; try done.
  - rewrite I1. destruct (list.last q) as [z|] eqn:El.
    + rewrite (last_without q i z); [done|done|]. intros ->. by rewrite (last_osucc q i I2 El) in Hi.
    + apply last_None in El. by rewrite El in Ha.
  - by apply NoDup_without.
  - intros j. by apply other_thread.
  - intros j. rewrite elem_of_without. destruct (Z.eq_dec i j) as [<-|N]; [rewrite upd_same|rewrite upd_other by done]; [naive_solver|]. rewrite I4. naive_solver.
  - intros a' b. rewrite osucc_without by done. destruct (decide (a' = i)) as [->|N]; [done|]. unfold link_ok. cbn [set_onext o_next]. rewrite (upd_other (o_next m)) by done.
    destruct (decide _) as [E|E].
    + rewrite Hi. intros [= <-]. rewrite (osucc_inj q a' a i) by done. split; [done|]. right; right; right. rewrite upd_other by done.
      split_and!; try done. exists i. rewrite upd_same. by left.
    + intros Hab. destruct (I5 a' b Hab) as [L1 L2]. split; [done|]. rewrite upd_other by congruence.
      destruct L2 as [?|[?|[?|(L2 & L3 & r & L4)]]]; [by left|right; by left|right; right; by left|]. right; right; right. split_and!; try done. exists r. by apply Hkeep.
  - intros a'. rewrite osucc_without by done. destruct (decide (a' = i)) as [->|N]; [intros _; apply upd_same|]. rewrite upd_other by done.
    destruct (decide _); [by rewrite Hi|apply I6].
  - intros h l Eq. unfold first_ok. setoid_rewrite Hs. destruct q as [|h' l'] eqn:Eq'; [done|].
    assert (N : h' <> i) by (intros ->; by apply (Hh l')). rewrite without_first in Eq by done. injection Eq as <- <-. rewrite upd_other by done. by apply (I7 h' l').
  - intros r a' b X. apply Hr in X as [(-> & -> & ->)|[N X]].
    + rewrite osucc_without, decide_False, decide_True by done. rewrite (upd_other pcs), (upd_other (o_next m)) by done. split_and!; try done.
      intros r' X. apply Hr in X as [(-> & _)|[_ X]]; [done|]. destruct (Hold _ _ _ X) as (_ & ? & _). done.
    + destruct (I8 r a' b X) as (X1 & X2 & X3 & X4). destruct (Hold _ _ _ X) as (N1 & N2 & N3).
      rewrite osucc_without, decide_False, decide_False by congruence. rewrite (upd_other pcs), (upd_other (o_next m)) by done. split_and!; try done.
      intros r' X'. apply Hr in X' as [(_ & -> & _)|[_ X']]; [done|by apply X4].
  - intros u x. rewrite Hs. intros X. destruct (I9 u x X) as ([l X1] & X2 & X3 & X4). assert (N : x <> i) by (intros ->; congruence). rewrite upd_other by done.
    split_and!; try done; [|intros u'; rewrite Hs; apply X4]. exists (without i l). rewrite X1. by apply without_first.
  - intros j. destruct (Z.eq_dec i j) as [<-|N]; [|by apply place_keep]. rewrite upd_same. split_and!; try done. intros [?|?]; done.
Qed.

(** The neighbours of a node that left are joined. *)
Lemma orelink_inv i a b : cpu_ok i -> pcs i = OC2 a b -> oinv (set_onext m a (Some b)) (upd pcs i OFail) q.
Proof using I.
  intros Ht Hp. pose proof I as [I1 I2 I3 I4 I5 I6 I7 I8 I9 I10]. destruct (I8 i a b) as (Ha & Hw & Hna & Hu); [rewrite Hp; by right|].
  assert (Hi : i ∉ q) by (rewrite I4, Hp; done). assert (Hout : forall x, x ∈ q -> i <> x) by (intros x Hx ->; done).
  assert (Hs : forall x u, upd pcs i OFail u = OUSet x <-> pcs u = OUSet x) by (intros; apply no_set; intros n' X; congruence).
  assert (Hr : forall r a' b', relinks (upd pcs i OFail r) a' b' <-> relinks (pcs r) a' b' /\ r <> i).
  { intros r a' b'. destruct (Z.eq_dec i r) as [<-|N]; [rewrite upd_same; unfold relinks; naive_solver|rewrite upd_other by done; naive_solver]. }
  constructor; cbn [set_onext o_tail o_next o_prev o_locked o_cpu]; try done.
  - intros j. by apply other_thread.
  - intros j. destruct (Z.eq_dec i j) as [<-|]; [rewrite upd_same|rewrite upd_other by done; apply I4]. split; [done|]. by intros.
  - intros a' b' Hab. destruct (I5 a' b' Hab) as [L1 L2]. split; [done|]. apply osucc_in in Hab as Hin. unfold link_ok. cbn [set_onext o_next].
    rewrite (upd_other pcs) by (apply Hout, Hin). destruct (Z.eq_dec a a') as [<-|N].
    + rewrite Ha in Hab. injection Hab as <-. rewrite upd_same. right. by left.
    + rewrite upd_other by done. destruct L2 as [?|[?|[?|(L2 & L3 & r & L4)]]]; [by left|right; by left|right; right; by left|].
      right; right; right. split_and!; try done. exists r. apply Hr. split; [done|]. intros ->. rewrite Hp in L4. destruct L4; congruence.
  - intros a' Ha'. rewrite upd_other by (intros <-; congruence). by apply I6.
  - intros h l Eq. unfold first_ok. setoid_rewrite Hs. rewrite upd_other by (apply Hout; rewrite Eq; by left). by apply (I7 h l).
  - intros r a' b'. rewrite Hr. intros [X N]. destruct (I8 r a' b' X) as (X1 & X2 & X3 & X4). apply osucc_in in X1 as Hin. rewrite (upd_other pcs) by (apply Hout, Hin).
    assert (Na : a <> a') by (intros <-; rewrite Ha in X1; injection X1 as <-; apply N; by apply Hu).
    cbn [set_onext o_next]. rewrite upd_other by done. split_and!; try done. intros r'. rewrite Hr. intros [X' _]. by apply X4.
  - intros u x. rewrite Hs. intros X. destruct (I9 u x X) as ([l X1] & X2 & X3 & X4). rewrite upd_other by (apply Hout; rewrite X1; by left).
    split_and!; try done; [by exists l|]. intros u'. rewrite Hs. apply X4.
  - intros j. destruct (Z.eq_dec i j) as [<-|N]; [|by apply place_keep]. rewrite upd_same. split_and!; try done. intros [?|?]; done.
Qed.

(** The first of the queue is told to go on. *)
Lemma ogrant_inv i n : cpu_ok i -> pcs i = OUSet n -> oinv (set_olocked m n 1) (upd pcs i OIdle) q.
Proof using I.
  intros Ht Hp. pose proof I as [I1 I2 I3 I4 I5 I6 I7 I8 I9 I10]. destruct (I9 i n Hp) as ([l Eq] & Hw & Hl & Hu).
  assert (Hi : i ∉ q) by (rewrite I4, Hp; done). assert (Hout : forall x, x ∈ q -> i <> x) by (intros x Hx ->; done).
  assert (Hno : forall a, osucc q a <> Some n) by (intros a; rewrite Eq; apply osucc_head; by rewrite <- Eq).
  assert (Hr : forall a' b r, relinks (upd pcs i OIdle r) a' b <-> relinks (pcs r) a' b) by (intros; apply no_relink; intros a2 b' [X|X]; congruence).
  constructor; cbn [set_olocked o_tail o_next o_prev o_locked o_cpu]; try done.
  - intros j. by apply other_thread.
  - intros j. destruct (Z.eq_dec i j) as [<-|]; [rewrite upd_same|rewrite upd_other by done; apply I4]. split; [done|]. by intros.
  - intros a b Hab. destruct (I5 a b Hab) as [L1 L2]. apply osucc_in in Hab as Hin. rewrite upd_other by (intros <-; by apply Hno in Hab). split; [done|].
    unfold link_ok in *. cbn [set_olocked o_next]. setoid_rewrite Hr. rewrite upd_other by (apply Hout, Hin). done.
  - intros h l' Eq'. rewrite Eq in Eq'. injection Eq' as <- <-. right. rewrite (upd_other pcs) by (apply Hout; rewrite Eq; by left). split; [done|]. left.
    cbn [set_olocked o_locked]. by rewrite upd_same.
  - intros r a b. rewrite Hr. intros X. destruct (I8 r a b X) as (X1 & X2 & X3 & X4). apply osucc_in in X1 as Hin. rewrite upd_other by (apply Hout, Hin).
    split_and!; try done. intros r'. rewrite Hr. apply X4.
  - intros u x. destruct (Z.eq_dec i u) as [<-|N]; [by rewrite upd_same|]. rewrite upd_other by done. intros X.
    destruct (I9 u x X) as ([l' X1] & _). rewrite Eq in X1. injection X1 as <- _. destruct N. symmetry. by apply Hu.
  - intros j. destruct (Z.eq_dec i j) as [<-|N]; [rewrite upd_same; split_and!; try done; intros [?|?]; done|].
    destruct (Z.eq_dec n j) as [<-|Nj]; [|apply place_keep; try done; cbn [set_olocked o_locked]; by rewrite upd_other].
    rewrite upd_other by done. destruct (I10 n) as (P1 & P2 & P3). split_and!; try done. by destruct (pcs n).
Qed.
End OInv.

(** The role of a thread, as far as the other threads depend on it. *)
Definition relink_of (p : opc) : option (Z * Z) := match p with OC1 a b | OC2 a b => Some (a, b) | _ => None end.
Definition set_of (p : opc) : option Z := match p with OUSet n => Some n | _ => None end.
Definition okind (p : opc) := (oinside p, owaiting p, linkto p, leaving p, relink_of p, set_of p).

Lemma oplain m pcs q i p' m' :
  oinv m pcs q -> cpu_ok i -> okind p' = okind (pcs i) -> o_tail m' = o_tail m -> (forall x, o_next m' x = o_next m x) ->
  (forall x, x <> i \/ i ∈ q -> o_locked m' x = o_locked m x) -> (forall x, x <> i -> o_cpu m' x = o_cpu m x) ->
  (forall x, x <> i -> o_prev m x <> None -> o_prev m' x <> None) -> oplace m' i p' -> oinv m' (upd pcs i p') q.
Proof.
  intros I Ht Hk H1 H2 H3 H4 H5 H6. injection Hk as K1 K2 K3 K4 K5 K6. apply (oframe_inv m pcs q I). constructor; try done.
  - intros a b. assert (E : forall p, relinks p a b <-> relink_of p = Some (a, b)) by (intros []; unfold relinks; cbn; naive_solver).
    by rewrite !E, K5.
  - intros n. assert (E : forall p, p = OUSet n <-> set_of p = Some n) by (intros []; cbn; naive_solver). by rewrite !E, K6.
Qed.

Lemma oplain_same m pcs q i p' :
  oinv m pcs q -> cpu_ok i -> okind p' = okind (pcs i) -> oplace m i p' -> oinv m (upd pcs i p') q.
Proof. intros I Ht Hk Hp. by apply (oplain m pcs q). Qed.

Section OStep.
Context (unqueue_retry : Z).

Lemma next_none m pcs q i x : oinv m pcs q -> queued (pcs i) = false -> upd (o_next m) i None x = o_next m x.
Proof using.
  intros I Hq. destruct (Z.eq_dec i x) as [<-|]; [|by rewrite upd_other]. rewrite upd_same. symmetry. apply (oi_none _ _ _ I). apply osucc_notin.
  rewrite (oi_queue _ _ _ I), Hq. done.
Qed.

(** The tail is the thread, so it is the last of the queue. *)
Lemma tail_last m pcs q i : oinv m pcs q -> cpu_ok i -> o_tail m = encode_cpu i -> list.last q = Some i.
Proof using.
  intros I Ht. rewrite (oi_tail _ _ _ I). unfold cpu_ok in Ht. destruct (list.last q) as [z|]; unfold encode_cpu; [|lia]. intros. f_equal. lia.
Qed.

Lemma wait_step_inv m pcs q i prev old w :
  oinv m pcs q -> cpu_ok i -> pcs i = OWait prev old w ->
  exists q', oinv (snd (osq_wait_next i prev old w m)) (upd pcs i (fst (osq_wait_next i prev old w m))) q'.
Proof using.
  intros I Ht Ep. destruct (oi_place _ _ _ I i) as (P1 & P2 & P3). rewrite Ep in P1, P2, P3.
  assert (Hplace : forall w', oplace m i (OWait prev old w')) by (intros w'; split_and!; [intros _; apply P1; by left; destruct prev|done|done]).
  assert (Hstay : forall w', oinv m (upd pcs i (OWait prev old w')) q).
  { intros w'. apply oplain_same; [done|done|by rewrite Ep|apply Hplace]. }
  destruct w; cbn [osq_wait_next fst snd].
  - exists q. apply Hstay.
  - destruct (Z.eqb_spec (o_tail m) (encode_cpu i)) as [E|E]; cbn [fst snd]; [|exists q; apply Hstay].
    apply (tail_last m pcs q i I Ht) in E. subst old. destruct prev as [a|]; cbn [wait_done].
    + exists (without i q). apply oleave_last_inv; try done. by rewrite Ep.
    + exists []. apply (oleave_alone_inv m pcs q); try done. by rewrite Ep.
  - exists q. apply Hstay.
  - destruct (o_next m i) as [n|] eqn:En.
    + exists (without i q). destruct prev as [a|]; cbn [wait_done]; [apply oleave_middle_inv|apply ohand_inv]; try done; by rewrite Ep.
    + exists q. apply (oplain m pcs q); try done; [by rewrite Ep| |apply (Hplace WTail)].
      intros x. cbn. unfold upd. destruct (Z.eqb_spec x i) as [->|]; congruence.
Qed.

(** The accesses of a thread before it joins the queue. *)
Lemma outside_step m pcs q i p' m' :
  oinv m pcs q -> cpu_ok i -> queued (pcs i) = false -> okind p' = okind (pcs i) -> oplace m' i p' -> o_tail m' = o_tail m ->
  (forall x, o_next m' x = o_next m x) -> (forall x, x <> i -> o_locked m' x = o_locked m x /\ o_cpu m' x = o_cpu m x /\ o_prev m' x = o_prev m x) ->
  oinv m' (upd pcs i p') q.
Proof using.
  intros I Ht Hq Hk Hp E1 E2 E3. apply (oplain m pcs q); try done.
  - intros x [Hx|Hx]; [by apply E3|]. rewrite (oi_queue _ _ _ I), Hq in Hx. done.
  - intros x Hx. by apply E3.
  - intros x Hx. destruct (E3 x Hx) as (_ & _ & ->). done.
Qed.

Lemma ostep_inv m pcs q i :
  oinv m pcs q -> cpu_ok i ->
  exists p' m', ostep unqueue_retry i (pcs i) m = Ret (p', m') /\ exists q', oinv m' (upd pcs i p') q'.
Proof using.
  intros I Ht. destruct (oi_place _ _ _ I i) as (P1 & P2 & P3).
  destruct (pcs i) as [| | | | |pr|pr|pr k|pr|pr|pr| |pr|pv old w|pr n|pr n| | | | |n] eqn:Ep; cbn [ostep].
  - do 2 eexists. split; [reflexivity|]. exists q. apply oplain_same; [done|done|by rewrite Ep|by split_and!; [intros [|]|..]].
  - do 2 eexists. split; [reflexivity|]. exists q. apply (outside_step m); rewrite ?Ep; try done; [|intros x Hx; cbn; by rewrite upd_other by congruence].
    split_and!; [by intros [|]|done|]. cbn. apply upd_same.
  - do 2 eexists. split; [reflexivity|]. exists q. apply (outside_step m); rewrite ?Ep; try done; [split_and!; [by intros [|]|done|exact P3]|].
    intros x. apply (next_none m pcs q i x I). by rewrite Ep.
  - do 2 eexists. split; [reflexivity|]. exists q. apply (outside_step m); rewrite ?Ep; try done; [|intros x Hx; cbn; by rewrite upd_other by congruence].
    split_and!; [intros _; cbn; apply upd_same|done|exact P3].
  - do 2 eexists. split; [reflexivity|]. exists (q ++ [i]). pose proof (ojoin_inv m pcs q I i Ht Ep) as J. rewrite (oi_tail _ _ _ I).
    destruct (list.last q) as [z|] eqn:El; [|done]. replace (encode_cpu z =? OSQ_UNLOCKED_VAL) with false.
    + by replace (cpu_to_node (encode_cpu z)) with z by (unfold cpu_to_node, encode_cpu; lia).
    + symmetry. apply Z.eqb_neq. apply last_Some_elem_of in El. apply (oi_queue _ _ _ I) in El.
      assert (T : cpu_ok z) by (apply (oi_threads _ _ _ I); intros X; by rewrite X in El). unfold cpu_ok, encode_cpu, OSQ_UNLOCKED_VAL in *. lia.
  - do 2 eexists. split; [reflexivity|]. exists q. apply (oplain m pcs q); rewrite ?Ep; try done; [intros x Hx; cbn; by rewrite upd_other by congruence|].
    split_and!; [intros _; apply P1; by left|intros _; cbn; by rewrite upd_same|done].
  - do 2 eexists. split; [reflexivity|]. exists q. by apply olink_inv.
  - do 2 eexists. split; [reflexivity|]. exists q. unfold truthy. destruct (Z.eqb_spec (o_locked m i) 0) as [El|El]; cbn [negb].
    + apply oplain_same; [done|done|by rewrite Ep; destruct (_ >? _)|]. destruct (_ >? _); by split_and!; [intros _; apply P1; by left|..].
    + apply (oframe_enter m pcs q I); rewrite ?Ep; done.
  - do 2 eexists. split; [reflexivity|]. exists q. apply oplain_same; [done|done|by rewrite Ep; destruct (bool_decide _)|].
    destruct (bool_decide _); by split_and!; [intros _; apply P1; by left|..].
  - destruct (bool_decide_reflect (o_next m pr = Some i)) as [En|En]; do 2 eexists; (split; [reflexivity|]); exists q; [by apply odetach_inv|].
    apply oplain_same; [done|done|by rewrite Ep|]. by split_and!; [intros _; apply P1; by left|..].
  - do 2 eexists. split; [reflexivity|]. exists q. unfold truthy. destruct (Z.eqb_spec (o_locked m i) 0) as [El|El]; cbn [negb].
    + apply oplain_same; [done|done|by rewrite Ep|]. by split_and!; [intros _; apply P1; by left|..].
    + apply (oframe_enter m pcs q I); rewrite ?Ep; done.
  - destruct (o_prev m i) as [pr|] eqn:Epr; [|by specialize (P2 eq_refl)]. do 2 eexists. split; [reflexivity|]. exists q.
    apply oplain_same; [done|done|by rewrite Ep|]. by split_and!; [intros _; apply P1; by left|rewrite Epr|..].
  - do 2 eexists. split; [reflexivity|]. exists q. apply oplain_same; [done|done|by rewrite Ep|]. split_and!; [intros _; apply P1; by left|done|].
    destruct (leaving_pred m pcs q I i pr) as [Ha _]; [by rewrite Ep|]. apply osucc_in in Ha as [Ha _]. apply (oi_queue _ _ _ I) in Ha.
    destruct (oi_place _ _ _ I pr) as (Q1 & _). apply Q1. by left.
  - do 2 eexists. split; [by rewrite (surjective_pairing (osq_wait_next i pv old w m))|]. by apply (wait_step_inv m pcs q).
  - do 2 eexists. split; [reflexivity|]. exists q. apply (oplain m pcs q); rewrite ?Ep; try done; [|by split_and!; [intros [|]|..]].
    intros x Hx Hpx. cbn. unfold upd. by destruct (_ =? _).
  - do 2 eexists. split; [reflexivity|]. exists q. by apply (orelink_inv m pcs q I i).
  - do 2 eexists. split; [reflexivity|]. exists q. apply oplain_same; [done|done|by rewrite Ep|by split_and!; [intros [|]|..]].
  - do 2 eexists. split; [reflexivity|]. exists q. apply oplain_same; [done|done|by rewrite Ep|]. by split_and!; [intros _; apply P1; by left|..].
  - destruct (Z.eqb_spec (o_tail m) (encode_cpu i)) as [E|E]; do 2 eexists; (split; [reflexivity|]).
    + exists []. apply (tail_last m pcs q i I Ht) in E. apply (oleave_alone_inv m pcs q); rewrite ?Ep; done.
    + exists q. apply oplain_same; [done|done|by rewrite Ep|]. by split_and!; [intros _; apply P1; by left|..].
  - destruct (o_next m i) as [n|] eqn:En; do 2 eexists; (split; [reflexivity|]).
    + exists (without i q). apply ohand_inv; rewrite ?Ep; done.
    + exists q. apply (oplain m pcs q); rewrite ?Ep; try done; [|by split_and!; [intros _; apply P1; by left|..]].
      intros x. cbn. unfold upd. destruct (Z.eqb_spec x i) as [->|]; congruence.
  - do 2 eexists. split; [reflexivity|]. exists q. by apply (ogrant_inv m pcs q I i).
Qed.
End OStep.

Lemma oreachable_inv unqueue_retry st : osys_reachable unqueue_retry st -> exists q, oinv (os_mem st) (os_pc st) q.
Proof.
  induction 1 as [|st st' _ [q IH] Hs].
  - exists []. constructor; cbn; try done; [constructor| | |].
    + intros i. split; [by intros []%not_elem_of_nil|done].
    + intros r a b [?|?]; done.
    + intros i. split_and!; try done. by intros [?|?].
  - destruct Hs as [i st p' m' Ht E]. destruct (ostep_inv unqueue_retry _ _ _ i IH Ht) as (p1 & m1 & E1 & X). rewrite E in E1.
    injection E1 as <- <-. exact X.
Qed.

(** C15. Mutual exclusion of the optimistic spin queue.  Under every interleaving, with
    waiters that give up at any time, at most one thread is between its entry to the
    critical section and the moment it leaves the queue in [osq_unlock]. *)
Theorem osq_mutual_exclusion (unqueue_retry : Z) (st : osys) (i j : Z) :
  osys_reachable unqueue_retry st -> oinside (os_pc st i) = true -> oinside (os_pc st j) = true -> j = i.
Proof.
  intros R Hi Hj. apply oreachable_inv in R as [q I]. destruct (inside_first _ _ _ I i Hi) as [l E]. destruct (inside_first _ _ _ I j Hj) as [l' E'].
  congruence.
Qed.

(** Giving up leaves no dangling links.  In every reachable state there is a queue
    without repetitions of exactly the threads that hold the lock, wait for it or are
    joining or leaving; the tail is the code of its last thread, and 0 when it is
    empty; and every link that is set leads from a thread of the queue to its
    successor, which waits there.  So a node that has been taken out is not linked by
    any other, and can be used again. *)
Theorem osq_links_live (unqueue_retry : Z) (st : osys) :
  osys_reachable unqueue_retry st ->
  exists q, NoDup q /\ (forall i, i ∈ q <-> queued (os_pc st i) = true) /\
    o_tail (os_mem st) = match list.last q with Some x => encode_cpu x | None => OSQ_UNLOCKED_VAL end /\
    (forall a b, o_next (os_mem st) a = Some b -> osucc q a = Some b /\ owaiting (os_pc st b) = true) /\
    (forall i, queued (os_pc st i) = false -> o_next (os_mem st) i = None /\ forall a, o_next (os_mem st) a <> Some i).
Proof.
  intros R. apply oreachable_inv in R as [q I]. exists q. split_and!; [apply (oi_nodup _ _ _ I)|apply (oi_queue _ _ _ I)|apply (oi_tail _ _ _ I)|..].
  - intros a b H. destruct (next_succ _ _ _ I a b H) as (H1 & H2 & _). done.
  - intros i Hi. assert (Hq : i ∉ q) by (rewrite (oi_queue _ _ _ I), Hi; done). split; [apply (oi_none _ _ _ I); by apply osucc_notin|].
    intros a H. destruct (next_succ _ _ _ I a i H) as (H1 & _). by apply osucc_in in H1 as [_ ?].
Qed.

(** ** Progress *)

(** Steps that are not a round of waiting: a waiting thread enters, a thread that leaves
    has left, and any other access. *)
Definition osq_advance (p p' : opc) : bool :=
  match p with
  | OIdle => false
  | OSpin _ _ | OACheck _ | OACas _ | OALocked _ | OAPrev => match p' with OCritical => true | _ => false end
  | OWait _ _ _ => match p' with OWait _ _ _ => false | _ => true end
  | _ => true
  end.

(** The thread [j] alone takes [n] steps. *)
Fixpoint solo (retry : Z) (n : nat) (j : Z) (p : opc) (m : omem) : outcome (opc * omem) :=
  match n with
  | O => Ret (p, m)
  | S n => match ostep retry j p m with Ret (p', m') => solo retry n j p' m' | Bug => Bug end
  end.

(** Within four steps of its own the thread [j] advances. *)
Definition can_advance (retry : Z) (st : osys) (j : Z) : Prop :=
  exists n p m p' m', (n < 4)%nat /\ solo retry n j (os_pc st j) (os_mem st) = Ret (p, m) /\ ostep retry j p m = Ret (p', m') /\ osq_advance p p' = true.

Section Progress.
Context (retry : Z) (m : omem) (pcs : Z -> opc) (q : list Z) (I : oinv m pcs q).

(** Outside the waiting loops every step advances. *)
Lemma advance_now j : pcs j <> OIdle -> owaiting (pcs j) = false -> (forall a b w, pcs j <> OWait a b w) -> can_advance retry (OSys m pcs) j.
Proof using I.
  intros H1 H2 H3. destruct (ostep_inv retry m pcs q j I) as (p' & m' & E & _); [by apply (oi_threads _ _ _ I)|].
  exists 0%nat, (pcs j), m, p', m'. split_and!; [lia|done|done|]. destruct (pcs j) as [| | | | | | | | | | | | |a b w| | | | | | |]; try done. by destruct (H3 a b w).
Qed.

(** A thread that has been told to go on enters. *)
Lemma advance_told j : owaiting (pcs j) = true -> o_locked m j <> 0 -> can_advance retry (OSys m pcs) j.
Proof using I.
  intros Hw Hl. destruct (told_first m pcs q I j Hw Hl) as [l Eq].
  assert (Hn : forall a, bool_decide (o_next m a = Some j) = false).
  { intros a. apply bool_decide_eq_false. intros X. destruct (next_succ m pcs q I a j X) as [Y _].
    pose proof (oi_nodup _ _ _ I) as D. rewrite Eq in Y, D. by apply osucc_head in Y. }
  assert (Ht : truthy (o_locked m j) = true) by (unfold truthy; lia).
  pose proof (proj1 (proj2 (oi_place _ _ _ I j))) as Hp. unfold can_advance. cbn [os_pc os_mem].
  destruct (pcs j) as [| | | | | | |pr k|pr|pr|pr| | | | | | | | | |] eqn:Ep; try done.
  - exists 0%nat. do 4 eexists. split_and!; [lia|reflexivity|cbn [ostep]; rewrite Ht; reflexivity|done].
  - exists 1%nat. do 4 eexists. cbn [solo ostep]. rewrite Hn. split_and!; [lia|reflexivity|cbn [ostep]; rewrite Ht; reflexivity|done].
  - exists 1%nat. do 4 eexists. cbn [solo ostep]. rewrite Hn. split_and!; [lia|reflexivity|cbn [ostep]; rewrite Ht; reflexivity|done].
  - exists 0%nat. do 4 eexists. split_and!; [lia|reflexivity|cbn [ostep]; rewrite Ht; reflexivity|done].
  - cbn [has_prev] in Hp. destruct (o_prev m j) as [pr|] eqn:Epr; [|by specialize (Hp eq_refl)].
    exists 2%nat. do 4 eexists. cbn [solo ostep]. rewrite Epr. cbn [ostep]. rewrite Hn. split_and!; [lia|reflexivity|cbn [ostep]; rewrite Ht; reflexivity|done].
Qed.

(** A thread that leaves and is the last, or has a linked successor, has soon left. *)
Lemma advance_leave j a b w :
  pcs j = OWait a b w -> list.last q = Some j \/ o_next m j <> None -> can_advance retry (OSys m pcs) j.
Proof using I.
  intros Ep Hj. unfold can_advance. cbn [os_pc os_mem]. rewrite Ep.
  assert (Hdone : forall n, osq_advance (OWait a b WCas) (wait_done a n) = true) by (by destruct a, n).
  assert (Hc : list.last q = Some j /\ o_tail m = encode_cpu j /\ o_next m j = None \/ o_tail m <> encode_cpu j /\ exists n, o_next m j = Some n).
  { destruct Hj as [El|En].
    - left. rewrite (oi_tail _ _ _ I), El. split_and!; try done. apply (oi_none _ _ _ I). apply last_osucc; [apply (oi_nodup _ _ _ I)|done].
    - right. destruct (o_next m j) as [n|] eqn:En'; [|done]. split; [|by exists n]. intros E.
      assert (T : cpu_ok j) by (apply (oi_threads _ _ _ I); by rewrite Ep). apply (tail_last m pcs q j I T) in E.
      rewrite (oi_none _ _ _ I j) in En'; [done|]. apply last_osucc; [apply (oi_nodup _ _ _ I)|done]. }
  assert (Hn2 : forall m', o_next (set_onext m' j None) j = None) by (intros; cbn; apply upd_same).
  destruct Hc as [(_ & Et & En)|[Et [n En]]].
  - apply Z.eqb_eq in Et. destruct w.
    + exists 1%nat. do 4 eexists. cbn. rewrite Et. split_and!; [lia|reflexivity|cbn; rewrite Et; reflexivity|apply Hdone].
    + exists 0%nat. do 4 eexists. split_and!; [lia|reflexivity|cbn; rewrite Et; reflexivity|apply Hdone].
    + exists 2%nat. do 4 eexists. cbn. rewrite En. cbn. rewrite Et. split_and!; [lia|reflexivity|cbn; rewrite Et; reflexivity|apply Hdone].
    + exists 2%nat. do 4 eexists. cbn. rewrite En. cbn. rewrite Et. split_and!; [lia|reflexivity|cbn; rewrite Et; reflexivity|apply Hdone].
  - apply Z.eqb_neq in Et. destruct w.
    + exists 2%nat. do 4 eexists. cbn. rewrite Et. cbn. rewrite En. split_and!; [lia|reflexivity|cbn; rewrite En; reflexivity|apply Hdone].
    + exists 2%nat. do 4 eexists. cbn. rewrite Et. cbn. rewrite En. split_and!; [lia|reflexivity|cbn; rewrite En; reflexivity|apply Hdone].
    + exists 1%nat. do 4 eexists. cbn. rewrite En. split_and!; [lia|reflexivity|cbn; rewrite En; reflexivity|apply Hdone].
    + exists 0%nat. do 4 eexists. split_and!; [lia|reflexivity|cbn; rewrite En; reflexivity|apply Hdone].
Qed.

Lemma nonidle j : queued (pcs j) = true -> pcs j <> OIdle.
Proof using. by intros H E; rewrite E in H. Qed.

(** Behind a thread that is leaving, someone advances. *)
Lemma advance_behind l2 : forall l1 j a b w,
  q = l1 ++ j :: l2 -> pcs j = OWait a b w -> exists k, pcs k <> OIdle /\ can_advance retry (OSys m pcs) k.
Proof using I.
  induction l2 as [|c l2 IH]; intros l1 j a b w Eq Ep; pose proof (oi_nodup _ _ _ I) as D.
  - exists j. split; [by rewrite Ep|]. apply (advance_leave j a b w Ep). left. by rewrite Eq, last_snoc.
  - assert (Hc : osucc q j = Some c) by (rewrite Eq in *; by apply osucc_split). apply osucc_in in Hc as Hin. destruct Hin as [_ Hin].
    apply (oi_queue _ _ _ I), nonidle in Hin. destruct (oi_pair _ _ _ I j c Hc) as [_ [[L _]|[[L Ln]|[[L _]|(L & _ & r & Lr)]]]].
    + exists c. split; [done|]. destruct (proj1 (proj2 (proj2 (roles (pcs c)))) ltac:(congruence)) as (R1 & R2 & R3).
      apply advance_now; try done. intros a' b' w' X. by rewrite X in L.
    + exists j. split; [by rewrite Ep|]. apply (advance_leave j a b w Ep). right. congruence.
    + destruct (pcs c) as [| | | | | | | | | | | |pr|pv old w'| | | | | | |] eqn:Epc; try done.
      * exists c. split; [congruence|]. apply advance_now; rewrite Epc; done.
      * apply (IH (l1 ++ [j]) c pv old w'); [by rewrite <- app_assoc|done].
    + exists r. assert (Hr : pcs r = OC1 j c \/ pcs r = OC2 j c) by exact Lr. split; [by destruct Hr as [-> | ->]|].
      apply advance_now; by destruct Hr as [-> | ->].
Qed.
End Progress.

(** The optimistic spin queue does not get stuck.  No access goes through a null
    pointer, and while any thread is acquiring or releasing the lock, some such thread
    reaches, within four steps of its own, one that is not a round of waiting: it enters
    the critical section, has left the queue, or changes what another one waits for. *)
Theorem osq_progress (unqueue_retry : Z) (st : osys) (i : Z) :
  osys_reachable unqueue_retry st -> cpu_ok i ->
  (exists p' m', ostep unqueue_retry i (os_pc st i) (os_mem st) = Ret (p', m')) /\
  (os_pc st i <> OIdle -> exists j, os_pc st j <> OIdle /\ can_advance unqueue_retry st j).
Proof.
  intros R Ht. apply oreachable_inv in R as [q I]. destruct st as [m pcs]. cbn [os_mem os_pc] in *.
  split; [destruct (ostep_inv unqueue_retry m pcs q i I Ht) as (p' & m' & E & _); by exists p', m'|]. intros Hi.
  destruct (queued (pcs i)) eqn:Hq.
  2: { exists i. split; [done|]. apply (advance_now _ _ _ q I); [done|by destruct (pcs i)|]. intros a b w X. rewrite X in Hq. by destruct a. }
  apply (oi_queue _ _ _ I) in Hq. destruct q as [|h l] eqn:Eq; [by apply not_elem_of_nil in Hq|].
  assert (Hh : pcs h <> OIdle) by (apply nonidle; apply (oi_queue _ _ _ I); by left).
  destruct (oi_first _ _ _ I h l eq_refl) as [Hin|[Hw [Hl|[u Hu]]]].
  - destruct (pcs h) as [| | | | | | | | | | | | |a b w| | | | | | |] eqn:Ep; try done;
      try (exists h; split; [congruence|]; apply (advance_now _ _ _ (h :: l) I); by rewrite Ep).
    by apply (advance_behind unqueue_retry m pcs (h :: l) I l [] h a b w).
  - exists h. split; [done|]. by apply (advance_told _ _ _ (h :: l) I).
  - exists u. split; [congruence|]. apply (advance_now _ _ _ (h :: l) I); by rewrite Hu.
Qed.

(** ** A run with a waiter that gives up *)

Fixpoint orun (retry : Z) (threads : list Z) (st : osys) : option osys :=
  match threads with
  | [] => Some st
  | i :: rest =>
      match ostep retry i (os_pc st i) (os_mem st) with
      | Ret (p', m') => orun retry rest (OSys m' (upd (os_pc st) i p'))
      | Bug => None
      end
  end.

Lemma orun_reachable retry threads st st' :
  Forall cpu_ok threads -> osys_reachable retry st -> orun retry threads st = Some st' -> osys_reachable retry st'.
Proof.
  revert st. induction threads as [|i rest IH]; intros st F R; cbn [orun]; [by intros [= <-]|]. apply list.Forall_cons in F as [Fi F].
  destruct (ostep retry i (os_pc st i) (os_mem st)) as [[p' m']|] eqn:E; [|done]. apply IH; [done|]. eapply osys_next; [done|by apply osys_thread].
Qed.

(** 0 has the lock, 1 and 2 queue behind it; 1 gives up after one round and has taken
    its node out, before it joins 0 and 2. *)
Definition oexample : osys := default osq_lock_init (orun 0 (repeat 0 5 ++ repeat 1 7 ++ repeat 2 7 ++ repeat 1 7) osq_lock_init).

Lemma oexample_reachable : osys_reachable 0 oexample.
Proof.
  unfold oexample. destruct (orun _ _ _) as [st|] eqn:E; cbn [default from_option]; [|apply osys_init].
  eapply orun_reachable; [|apply osys_init|exact E]. repeat (apply list.Forall_cons; split; [unfold cpu_ok; lia|]). constructor.
Qed.

Lemma osq_mutual_exclusion_witness :
  map (os_pc oexample) [0; 1; 2] = [OCritical; OC1 0 2; OSpin 1 0] /\ forall j, oinside (os_pc oexample j) = true -> j = 0.
Proof.
  split; [by vm_compute|]. intros j Hj. apply (osq_mutual_exclusion 0 oexample 0 j); [apply oexample_reachable|by vm_compute|exact Hj].
Defined.

Lemma osq_links_live_witness :
  exists q, NoDup q /\ (forall i, i ∈ q <-> queued (os_pc oexample i) = true) /\
    o_tail (os_mem oexample) = match list.last q with Some x => encode_cpu x | None => OSQ_UNLOCKED_VAL end /\
    (forall a b, o_next (os_mem oexample) a = Some b -> osucc q a = Some b /\ owaiting (os_pc oexample b) = true) /\
    (forall i, queued (os_pc oexample i) = false -> o_next (os_mem oexample) i = None /\ forall a, o_next (os_mem oexample) a <> Some i).
Proof. apply (osq_links_live 0 oexample). apply oexample_reachable. Defined.

Lemma osq_progress_witness :
  (exists p' m', ostep 0 2 (os_pc oexample 2) (os_mem oexample) = Ret (p', m')) /\
  (os_pc oexample 2 <> OIdle -> exists j, os_pc oexample j <> OIdle /\ can_advance 0 oexample j).
Proof. apply (osq_progress 0 oexample 2); [apply oexample_reachable|unfold cpu_ok; lia]. Defined.
