(* ===== verification/GuestDriver.v ===== *)
(** The driver of the guests of ivshmem, src/ivshmem/ivshmem-kernel/ivshmem_driver.c:
    loading the module, attaching and detaching devices, their interrupts, and the
    operations of the device file.

    What the kernel hands out is a multiset of resources, each named by the value
    that it is given back with; giving back what is not held, or reading memory that
    is not held, is a bug.  The answers of the kernel are arguments. *)
From Stdlib Require Import ZArith Lia Bool.
From stdpp Require Import base list gmap gmultiset numbers.
From S2P Require Import Prelude FailureDetect Device.
Local Open Scope Z_scope.
Local Open Scope lupin_scope.

Definition IVPOSITION_OFF : Z := 8.
Definition DOORBELL_OFF : Z := 12.

(** ** Resources *)

Inductive gres :=
| PciOn (pdev : Z)
| PciRegions (pdev : Z)
| Iomap (va : Z)
| CdevOf (idx : Z)
| DevNode (major minor : Z)
| Block (ptr : Z)
| MsixOn (pdev : Z)
| IrqLine (vector idx : Z).
#[export] Instance gres_eq : EqDecision gres.
Proof. solve_decision. Defined.

Definition gres_code (r : gres) : Z * Z * Z :=
  match r with
  | PciOn p => (0, p, 0) | PciRegions p => (1, p, 0) | Iomap a => (2, a, 0) | CdevOf i => (3, i, 0)
  | DevNode a b => (4, a, b) | Block p => (5, p, 0) | MsixOn p => (6, p, 0) | IrqLine v i => (7, v, i)
  end.
Definition gres_decode (x : Z * Z * Z) : gres :=
  let '(k, a, b) := x in
  if k =? 0 then PciOn a else if k =? 1 then PciRegions a else if k =? 2 then Iomap a else if k =? 3 then CdevOf a
  else if k =? 4 then DevNode a b else if k =? 5 then Block a else if k =? 6 then MsixOn a else IrqLine a b.
#[export] Instance gres_countable : Countable gres.
Proof. apply (inj_countable' gres_code gres_decode). by intros []. Defined.

(** struct ivpci_private, without the character device, which is named by its slot. *)
Record ivpci_private := Private {
  p_dev : option Z; p_minor : Z; p_revision : Z; p_ivposition : Z; p_base_addr : Z; p_regs_addr : Z;
  p_bar0 : Z * Z; p_bar1 : Z * Z; p_bar2 : Z * Z; p_names : Z; p_entries : Z; p_nvectors : Z }.

Definition no_private : ivpci_private := Private None 0 0 0 0 0 (0, 0) (0, 0) (0, 0) 0 0 0.

(** The variables of the driver; [cells] are the arrays of interrupt entries, each
    with its number and its vector, by address; [doorbells] are the words written
    to registers, the newest first. *)
Record guest := Guest {
  g_ivpci_devs : list ivpci_private; g_ivpci_count : Z; gheld : gmultiset gres; cells : gmap Z (list (Z * Z));
  gdata : gmap Z Z; event_toggle : Z; doorbells : list (Z * Z) }.

Definition with_devs (g : guest) l := Guest l (g_ivpci_count g) (gheld g) (cells g) (gdata g) (event_toggle g) (doorbells g).
Definition with_gheld (g : guest) h := Guest (g_ivpci_devs g) (g_ivpci_count g) h (cells g) (gdata g) (event_toggle g) (doorbells g).
Definition with_cells (g : guest) c := Guest (g_ivpci_devs g) (g_ivpci_count g) (gheld g) c (gdata g) (event_toggle g) (doorbells g).
Definition with_toggle (g : guest) t := Guest (g_ivpci_devs g) (g_ivpci_count g) (gheld g) (cells g) (gdata g) t (doorbells g).

Definition obtain (g : guest) (r : gres) : guest := with_gheld g ({[+ r +]} ⊎ gheld g).
Definition give (g : guest) (r : gres) : outcome guest :=
  if decide (r ∈ gheld g) then Ret (with_gheld g (gheld g ∖ {[+ r +]})) else Bug.

Definition private_at (g : guest) (i : Z) : ivpci_private := getZ no_private (g_ivpci_devs g) i.
Definition set_private (g : guest) (i : Z) (x : ivpci_private) : guest := with_devs g (setZ (g_ivpci_devs g) i x).

Definition gset_drvdata (g : guest) (pdev : Z) (i : option Z) : guest :=
  Guest (g_ivpci_devs g) (g_ivpci_count g) (gheld g) (cells g)
    (match i with Some i => <[pdev := i]> (gdata g) | None => delete pdev (gdata g) end) (event_toggle g) (doorbells g).

(** Assignments to the fields of a slot. *)
Definition with_pdev (x : ivpci_private) d := Private d (p_minor x) (p_revision x) (p_ivposition x) (p_base_addr x) (p_regs_addr x) (p_bar0 x) (p_bar1 x) (p_bar2 x) (p_names x) (p_entries x) (p_nvectors x).
Definition with_bars (x : ivpci_private) rev b0 b1 b2 := Private (p_dev x) (p_minor x) rev (p_ivposition x) (p_base_addr x) (p_regs_addr x) b0 b1 b2 (p_names x) (p_entries x) (p_nvectors x).
Definition with_regs (x : ivpci_private) a := Private (p_dev x) (p_minor x) (p_revision x) (p_ivposition x) (p_base_addr x) a (p_bar0 x) (p_bar1 x) (p_bar2 x) (p_names x) (p_entries x) (p_nvectors x).
Definition with_base (x : ivpci_private) a := Private (p_dev x) (p_minor x) (p_revision x) (p_ivposition x) a (p_regs_addr x) (p_bar0 x) (p_bar1 x) (p_bar2 x) (p_names x) (p_entries x) (p_nvectors x).
Definition with_position (x : ivpci_private) v := Private (p_dev x) (p_minor x) (p_revision x) v (p_base_addr x) (p_regs_addr x) (p_bar0 x) (p_bar1 x) (p_bar2 x) (p_names x) (p_entries x) (p_nvectors x).
Definition with_vectors (x : ivpci_private) names entries n := Private (p_dev x) (p_minor x) (p_revision x) (p_ivposition x) (p_base_addr x) (p_regs_addr x) (p_bar0 x) (p_bar1 x) (p_bar2 x) names entries n.

(** ** Slots *)

Definition no_dev (x : ivpci_private) : bool := match p_dev x with None => true | Some _ => false end.

Definition ivpci_get_private (g : guest) : option Z := first_slot no_dev (g_ivpci_devs g) 0.

Definition ivpci_find_private (g : guest) (minor : Z) : option Z :=
  first_slot (fun x => negb (no_dev x) && (p_minor x =? minor)) (g_ivpci_devs g) 0.

Section Guest.
(** [kmalloc]: the address of the block that is handed out when the held ones are
    [h]; documented to be the address of a block that is not in use. *)
Context (kmalloc_addr : gmultiset gres -> Z).

(** ** Interrupt vectors *)

(** The answers of the kernel: whether the two allocations succeed, the result of
    [pci_enable_msix_exact], the vectors that it assigns and the results of
    [request_irq]. *)
Record gmsix_env := GMsixEnv { ge_entries : bool; ge_names : bool; ge_enable : Z; ge_vector : Z -> Z; ge_irq : Z -> Z }.

Definition kfree (g : guest) (ptr : Z) : outcome guest := if ptr =? 0 then Ret g else give g (Block ptr).

(** Does nothing when the interrupts are not enabled. *)
Definition pci_disable_msix (g : guest) (pdev : Z) : outcome guest :=
  if decide (MsixOn pdev ∈ gheld g) then give g (MsixOn pdev) else Ret g.

(** [msix_entries[i].vector] *)
Definition vector_at (g : guest) (entries i : Z) : outcome Z :=
  bug_on (bool_decide (Block entries ∉ gheld g)) (Ret (snd (getZ (0, 0) (default [] (cells g !! entries)) i))).

(** [for (; i > 0; i--) free_irq(msix_entries[i - 1].vector)] *)
Fixpoint gfree_irqs (i : nat) (g : guest) (idx entries : Z) : outcome guest :=
  match i with
  | O => Ret g
  | S k =>
      let! v := vector_at g entries (Z.of_nat k) in
      let! g := give g (IrqLine v idx) in
      gfree_irqs k g idx entries
  end.

(** [for (i = 0; i < nvectors; i++)]: the vectors requested before the loop ends,
    and its result. *)
Fixpoint grequest_irqs (n : nat) (i : Z) (e : gmsix_env) (g : guest) (idx entries : Z) : outcome (guest * Z * Z) :=
  match n with
  | O => Ret (g, i, 0)
  | S n =>
      let! v := vector_at g entries i in
      let ret := ge_irq e i in
      if truthy ret then Ret (g, i, ret)
      else grequest_irqs n (i + 1) e (obtain g (IrqLine v idx)) idx entries
  end.

Definition gfree_entries (g : guest) (entries ret : Z) : outcome (guest * Z) :=
  let! g := kfree g entries in Ret (g, ret).
Definition gfree_names (g : guest) (names entries ret : Z) : outcome (guest * Z) :=
  let! g := kfree g names in gfree_entries g entries ret.

Definition set_vectors (g : guest) (idx names entries n : Z) : guest :=
  set_private g idx (with_vectors (private_at g idx) names entries n).
Definition set_entries (g : guest) (entries : Z) (l : list (Z * Z)) : guest := with_cells g (<[entries := l]> (cells g)).

Definition ivpci_request_msix_vectors (e : gmsix_env) (g : guest) (idx pdev n : Z) : outcome (guest * Z) :=
  let entries := if ge_entries e then kmalloc_addr (gheld g) else 0 in
  let old_names := p_names (private_at g idx) in
  let g := set_vectors g idx old_names entries n in
  if entries =? 0 then Ret (g, - ENOMEM)
  else
    let g := obtain g (Block entries) in
    let names := if ge_names e then kmalloc_addr (gheld g) else 0 in
    let g := set_vectors g idx names entries n in
    if names =? 0 then gfree_entries g entries (- ENOMEM)
    else
      let g := obtain g (Block names) in
      let g := set_entries g entries (map (fun i => (i, 0)) (seqZ 0 n)) in
      let ret := ge_enable e in
      if truthy ret then gfree_names g names entries ret
      else
        let g := obtain g (MsixOn pdev) in
        let g := set_entries g entries (map (fun i => (i, ge_vector e i)) (seqZ 0 n)) in
        let! '(g, i, ret) := grequest_irqs (Z.to_nat n) 0 e g idx entries in
        if truthy ret then
          let! g := gfree_irqs (Z.to_nat i) g idx entries in
          let! g := pci_disable_msix g pdev in
          gfree_names g names entries ret
        else Ret (g, 0).

Definition ivpci_free_msix_vectors (g : guest) (idx : Z) : outcome guest :=
  let x := private_at g idx in
  let! g := gfree_irqs (Z.to_nat (p_nvectors x)) g idx (p_entries x) in
  match p_dev x with
  | None => Bug
  | Some pdev =>
      let! g := pci_disable_msix g pdev in
      let! g := kfree g (p_names x) in
      kfree g (p_entries x)
  end.

(** ** Attaching and detaching a device *)

(** The answers of the kernel in the order of the calls, and what the device says:
    its revision, its regions and its position register. *)
Record gprobe_env := GProbeEnv {
  gp_enable : Z; gp_regions : Z; gp_revision : Z; gp_bar0 : Z * Z; gp_bar1 : Z * Z; gp_bar2 : Z * Z;
  gp_ioremap0 : Z; gp_ioremap2 : Z; gp_cdev_add : Z; gp_device_create : Z; gp_ivposition : Z; gp_msix : gmsix_env }.

(** The labels, each of which falls through to the next one. *)
Definition gout (g : guest) (pdev ret : Z) : outcome (guest * Z) := Ret (gset_drvdata g pdev None, ret).
Definition gdisable_device (g : guest) (pdev ret : Z) : outcome (guest * Z) :=
  let! g := give g (PciOn pdev) in gout g pdev ret.
Definition grelease_regions (g : guest) (pdev ret : Z) : outcome (guest * Z) :=
  let! g := give g (PciRegions pdev) in gdisable_device g pdev ret.
Definition giounmap_bar0 (g : guest) (idx pdev ret : Z) : outcome (guest * Z) :=
  let! g := give g (Iomap (p_regs_addr (private_at g idx))) in grelease_regions g pdev ret.
Definition giounmap_bar2 (g : guest) (idx pdev ret : Z) : outcome (guest * Z) :=
  let! g := give g (Iomap (p_base_addr (private_at g idx))) in giounmap_bar0 g idx pdev ret.
Definition gdelete_chrdev (g : guest) (idx pdev ret : Z) : outcome (guest * Z) :=
  let! g := give g (CdevOf idx) in giounmap_bar2 g idx pdev ret.
Definition gdestroy_device (g_ivpci_major : Z) (g : guest) (idx pdev ret : Z) : outcome (guest * Z) :=
  let! g := give g (DevNode g_ivpci_major (p_minor (private_at g idx))) in
  gdelete_chrdev (set_private g idx (with_pdev (private_at g idx) None)) idx pdev ret.

(** [g_ivpci_count++] *)
Definition gprobed (g : guest) : outcome (guest * Z) :=
  Ret (Guest (g_ivpci_devs g) (g_ivpci_count g + 1) (gheld g) (cells g) (gdata g) (event_toggle g) (doorbells g), 0).

Definition gprobe_interrupts (g_ivpci_major : Z) (e : gprobe_env) (g : guest) (idx pdev : Z) : outcome (guest * Z) :=
  if p_revision (private_at g idx) =? 1 then
    let g := set_private g idx (with_position (private_at g idx) (gp_ivposition e)) in
    let! '(g, ret) := ivpci_request_msix_vectors (gp_msix e) g idx pdev 1 in
    if truthy ret then gdestroy_device g_ivpci_major g idx pdev ret else gprobed g
  else gprobed g.

Definition ivpci_probe (g_ivpci_major g_max_devices : Z) (e : gprobe_env) (g : guest) (pdev : Z) : outcome (guest * Z) :=
  if g_ivpci_count g >=? g_max_devices then gout g pdev (- 1)
  else
    let ret := gp_enable e in
    if ret <? 0 then gout g pdev ret
    else
      let g := obtain g (PciOn pdev) in
      let ret := gp_regions e in
      if ret <? 0 then gdisable_device g pdev ret
      else
        let g := obtain g (PciRegions pdev) in
        match ivpci_get_private g with
        | None => Bug
        | Some idx =>
            let g := set_private g idx (with_bars (private_at g idx) (gp_revision e) (gp_bar0 e) (gp_bar1 e) (gp_bar2 e)) in
            let g := set_private g idx (with_regs (private_at g idx) (gp_ioremap0 e)) in
            if gp_ioremap0 e =? 0 then grelease_regions g pdev ret
            else
              let g := obtain g (Iomap (gp_ioremap0 e)) in
              let g := set_private g idx (with_base (private_at g idx) (gp_ioremap2 e)) in
              if gp_ioremap2 e =? 0 then giounmap_bar0 g idx pdev ret
              else
                let g := obtain g (Iomap (gp_ioremap2 e)) in
                let ret := gp_cdev_add e in
                if ret <? 0 then giounmap_bar2 g idx pdev ret
                else
                  let g := obtain g (CdevOf idx) in
                  if gp_device_create e =? 0 then gdelete_chrdev g idx pdev ret
                  else
                    let g := obtain g (DevNode g_ivpci_major (p_minor (private_at g idx))) in
                    let g := gset_drvdata (set_private g idx (with_pdev (private_at g idx) (Some pdev))) pdev (Some idx) in
                    gprobe_interrupts g_ivpci_major e g idx pdev
        end.

Definition ivpci_remove (g_ivpci_major : Z) (g : guest) (pdev : Z) : outcome guest :=
  match gdata g !! pdev with
  | None => Bug
  | Some idx =>
      let! g := ivpci_free_msix_vectors g idx in
      let g := set_private g idx (with_pdev (private_at g idx) None) in
      let! g := give g (DevNode g_ivpci_major (p_minor (private_at g idx))) in
      let! g := give g (CdevOf idx) in
      let! g := give g (Iomap (p_base_addr (private_at g idx))) in
      let! g := give g (Iomap (p_regs_addr (private_at g idx))) in
      let! g := give g (PciRegions pdev) in
      let! g := give g (PciOn pdev) in
      Ret (gset_drvdata g pdev None)
  end.

(** ** The device file *)

(** The handler of every vector; [dev_id] is the slot it was requested for. *)
Definition IRQ_NONE : Z := 0.
Definition IRQ_HANDLED : Z := 1.
Definition ivpci_interrupt (g : guest) (dev_id : option Z) : guest * Z :=
  match dev_id with None => (g, IRQ_NONE) | Some _ => (with_toggle g 1, IRQ_HANDLED) end.

(** The slot that the file refers to from then on. *)
Definition ivpci_open (g : guest) (minor : Z) : outcome Z :=
  match ivpci_find_private g minor with None => Bug | Some idx => Ret idx end.

Definition PAGE_MASK : Z := u64 (Z.lnot (PAGE_SIZE - 1)).

(** The result, and the range of page frames that is mapped at [vm_start]: its
    first frame and its size.  [remap] is the result of [io_remap_pfn_range]. *)
Definition ivpci_mmap (x : ivpci_private) (vm_start vm_end vm_pgoff remap : Z) : outcome (Z * option (Z * Z)) :=
  bug_on (p_base_addr x =? 0)
    (let vsize := u64 (vm_end - vm_start) in
     let off := u64 (Z.shiftl vm_pgoff PAGE_SHIFT) in
     let start := fst (p_bar2 x) in
     let len := PAGE_ALIGN (u64 (Z.land start (u64 (Z.lnot PAGE_MASK)) + snd (p_bar2 x))) in
     let start := Z.land start PAGE_MASK in
     if u64 (vsize + off) >? len then Ret (- EINVAL, None)
     else
       let physical := u64 (off + start) in
       if truthy remap then Ret (- ENXIO, None) else Ret (0, Some (Z.shiftr physical PAGE_SHIFT, vsize))).

Definition ERESTARTSYS : Z := 512.

(** [wait_event_interruptible]: [None] sleeps. *)
Definition wait_event_interruptible (cond signal : bool) : option Z :=
  if cond then Some 0 else if signal then Some (- ERESTARTSYS) else None.

Definition ivpci_read (x : ivpci_private) (g : guest) (signal : bool) : outcome (option (guest * Z)) :=
  bug_on (p_base_addr x =? 0)
    (match wait_event_interruptible (event_toggle g =? 1) signal with
     | None => Ret None
     | Some ret => if ret =? 0 then Ret (Some (with_toggle g 0, 0)) else Ret (Some (g, ret))
     end).

(** A register can be written while its region is mapped. *)
Definition writel (g : guest) (base off v : Z) : outcome guest :=
  if decide (Iomap base ∈ gheld g)
  then Ret (Guest (g_ivpci_devs g) (g_ivpci_count g) (gheld g) (cells g) (gdata g) (event_toggle g) ((base + off, u32 v) :: doorbells g))
  else Bug.

(** [buffer] is what is read from user space, [None] when that fails. *)
Definition ivpci_write (g : guest) (idx len poffset : Z) (buffer : option Z) : outcome (guest * Z) :=
  let vector := u16 poffset in
  if negb (len =? 2) then Ret (g, - EINVAL)
  else
    match buffer with
    | None => Ret (g, - EFAULT)
    | Some v =>
        let ivposition := u16 v in
        let! g := writel g (p_regs_addr (private_at g idx)) DOORBELL_OFF
                    (Z.lor (u32 (Z.shiftl ivposition 16)) (Z.land vector 65535)) in
        Ret (g, 2)
    end.

Definition ivpci_release (x : ivpci_private) : outcome Z := bug_on (p_base_addr x =? 0) (Ret 0).

(** ** Loading and unloading the module *)

(** The results of [alloc_chrdev_region], whether [kzalloc] succeeds, and the
    results of [class_create] and [pci_register_driver]. *)
Record ginit_env := GInitEnv { gi_chrdev : Z; gi_devs : bool; gi_class : Z; gi_register : Z }.

Definition init_privates (g_max_devices minor : Z) : list ivpci_private :=
  map (fun i => Private None (minor + i) 0 0 0 0 (0, 0) (0, 0) (0, 0) 0 0 0) (seqZ 0 g_max_devices).

Definition ivpci_init (g_max_devices minor : Z) (e : ginit_env) (h : list mod_resource)
  : list mod_resource * option guest * Z :=
  if gi_chrdev e <? 0 then (h, None, - 1)
  else
    let h := ChrdevRegion :: h in
    if negb (gi_devs e) then (release ChrdevRegion h, None, - 1)
    else
      let h := DevArray :: h in
      let g := Guest (init_privates g_max_devices minor) 0 ∅ ∅ ∅ 0 [] in
      if gi_class e =? 0 then (release ChrdevRegion (release DevArray h), None, - 1)
      else
        let h := DevClass :: h in
        if gi_register e <? 0 then (release ChrdevRegion (release DevArray (release DevClass h)), None, - 1)
        else (PciDriver :: h, Some g, 0).

Definition ivpci_exit (h : list mod_resource) : list mod_resource :=
  release ChrdevRegion (release DevArray (release DevClass (release PciDriver h))).

End Guest.

(** ** What the devices hold *)

Section Held.
Context (g_ivpci_major : Z).

Definition vector_of (c : gmap Z (list (Z * Z))) (entries : Z) : Z := snd (getZ (0, 0) (default [] (c !! entries)) 0).

(** What an attached device holds, the newest first, on top of [h]. *)
Definition slot_holds (c : gmap Z (list (Z * Z))) (i : Z) (x : ivpci_private) (h : gmultiset gres) : gmultiset gres :=
  match p_dev x with
  | None => h
  | Some pdev =>
      {[+ IrqLine (vector_of c (p_entries x)) i +]} ⊎ ({[+ MsixOn pdev +]} ⊎ ({[+ Block (p_names x) +]} ⊎
      ({[+ Block (p_entries x) +]} ⊎ ({[+ DevNode g_ivpci_major (p_minor x) +]} ⊎ ({[+ CdevOf i +]} ⊎
      ({[+ Iomap (p_base_addr x) +]} ⊎ ({[+ Iomap (p_regs_addr x) +]} ⊎ ({[+ PciRegions pdev +]} ⊎ ({[+ PciOn pdev +]} ⊎ h)))))))))
  end.

Fixpoint slots_hold (c : gmap Z (list (Z * Z))) (i : Z) (l : list ivpci_private) : gmultiset gres :=
  match l with
  | [] => ∅
  | x :: l => slot_holds c i x (slots_hold c (i + 1) l)
  end.

Lemma slot_holds_eq c i x h : slot_holds c i x h = slot_holds c i x ∅ ⊎ h.
Proof using. unfold slot_holds. destruct (p_dev x); multiset_solver. Qed.

Lemma slot_holds_comm c i x j y h : slot_holds c i x (slot_holds c j y h) = slot_holds c j y (slot_holds c i x h).
Proof using.
  rewrite (slot_holds_eq c i x (slot_holds c j y h)), (slot_holds_eq c j y h), (slot_holds_eq c j y (slot_holds c i x h)), (slot_holds_eq c i x h).
  multiset_solver.
Qed.

Lemma slots_hold_insert c l k i x y :
  l !! k = Some y -> p_dev y = None -> slots_hold c i (<[k := x]> l) = slot_holds c (i + Z.of_nat k) x (slots_hold c i l).
Proof using.
  revert i k. induction l as [|z l IH]; intros i [|k] Hk Hy; try done; cbn [list_insert insert slots_hold].
  - injection Hk as ->. cbn. unfold slot_holds at 3. rewrite Hy. by replace (i + Z.of_nat 0) with i by lia.
  - change (slot_holds c i z (slots_hold c (i + 1) (<[k:=x]> l)) = slot_holds c (i + Z.of_nat (S k)) x (slot_holds c i z (slots_hold c (i + 1) l))).
    rewrite (IH (i + 1) k) by done. replace (i + 1 + Z.of_nat k) with (i + Z.of_nat (S k)) by lia.
    apply slot_holds_comm.
Qed.

Lemma slots_hold_take c l k i x y :
  l !! k = Some x -> p_dev y = None -> slots_hold c i l = slot_holds c (i + Z.of_nat k) x (slots_hold c i (<[k := y]> l)).
Proof using.
  intros Hk Hy. rewrite <- (slots_hold_insert c (<[k:=y]> l) k i x y); [|apply list_lookup_insert_eq; by eapply lookup_lt_Some|done].
  rewrite list_insert_insert_eq. by rewrite list_insert_id.
Qed.

(** What is held tells which slot it is for. *)
Lemma slots_hold_elem c l i r :
  r ∈ slots_hold c i l -> exists k x, l !! k = Some x /\ p_dev x <> None /\ r ∈ slot_holds c (i + Z.of_nat k) x ∅.
Proof using.
  revert i. induction l as [|x l IH]; intros i; cbn [slots_hold]; [multiset_solver|].
  rewrite slot_holds_eq, gmultiset_elem_of_disj_union. intros [H|H].
  - exists 0%nat, x. replace (i + Z.of_nat 0) with i by lia. split_and!; [done|intros E; unfold slot_holds in H; rewrite E in H; multiset_solver|done].
  - apply IH in H as (k & y & Hk & Hy & H). exists (S k), y. by replace (i + Z.of_nat (S k)) with (i + 1 + Z.of_nat k) by lia.
Qed.

Lemma slot_node c i x minor : DevNode g_ivpci_major minor ∈ slot_holds c i x ∅ -> p_minor x = minor.
Proof using. unfold slot_holds. destruct (p_dev x); multiset_solver. Qed.

Lemma slots_hold_ext c c' l i :
  (forall q, Block q ∈ slots_hold c i l -> c' !! q = c !! q) -> slots_hold c' i l = slots_hold c i l.
Proof using.
  revert i. induction l as [|x l IH]; intros i H; cbn [slots_hold] in *; [done|].
  rewrite IH by (intros q Hq; apply H; rewrite slot_holds_eq; multiset_solver).
  unfold slot_holds in *. destruct (p_dev x); [|done].
  unfold vector_of. rewrite H by multiset_solver. done.
Qed.
End Held.

Lemma held_newest (r : gres) (h : gmultiset gres) : r ∈ {[+ r +]} ⊎ h.
Proof. multiset_solver. Qed.
Lemma held_older (r a : gres) (h : gmultiset gres) : r ∈ h -> r ∈ {[+ a +]} ⊎ h.
Proof. multiset_solver. Qed.

Lemma give_head g r h : gheld g = {[+ r +]} ⊎ h -> give g r = Ret (with_gheld g h).
Proof.
  intros E. unfold give. rewrite E. rewrite decide_True by multiset_solver. repeat f_equal. multiset_solver.
Qed.

Lemma give_newest g r h : give (with_gheld g ({[+ r +]} ⊎ h)) r = Ret (with_gheld g h).
Proof. by rewrite (give_head _ _ h). Qed.

Lemma give_obtain g r : give (obtain g r) r = Ret g.
Proof. rewrite (give_head _ _ (gheld g)) by done. by destruct g. Qed.

Lemma gfree_names_ok g names entries h ret :
  names <> 0 -> entries <> 0 -> gheld g = {[+ Block names +]} ⊎ ({[+ Block entries +]} ⊎ h) ->
  gfree_names g names entries ret = Ret (with_gheld g h, ret).
Proof.
  intros Hn He Hh. unfold gfree_names, gfree_entries, kfree.
  destruct (Z.eqb_spec names 0); [done|]. rewrite (give_head _ _ _ Hh). cbn [obind].
  destruct (Z.eqb_spec entries 0); [done|]. by rewrite (give_head _ _ h).
Qed.

Lemma vector_at_ok g entries : Block entries ∈ gheld g -> vector_at g entries 0 = Ret (vector_of (cells g) entries).
Proof. intros H. unfold vector_at. by rewrite bool_decide_eq_false_2 by tauto. Qed.

(** ** The life of the driver *)

Section Life.
Context (kmalloc_addr : gmultiset gres -> Z).
Context (kmalloc_fresh : forall h, Block (kmalloc_addr h) ∉ h /\ kmalloc_addr h <> 0).
Context (g_ivpci_major g_max_devices : Z).

(** What happens to the driver: the bus finds a device, or takes one away; an
    interrupt arrives; a process opens a device file. *)
Inductive gevent :=
| EProbe (pdev : Z) (e : gprobe_env)
| ERemove (pdev : Z)
| EIrq (vector idx : Z)
| EOpen (minor : Z).

(** The bus offers devices that are not bound; a device is bound when probing does
    not return an error, and only bound devices are removed. *)
Definition gstep (st : guest * gset Z) (ev : gevent) : outcome (guest * gset Z) :=
  let (g, bound) := st in
  match ev with
  | EProbe pdev e =>
      if decide (pdev ∈ bound) then Ret st
      else let! '(g, ret) := ivpci_probe kmalloc_addr g_ivpci_major g_max_devices e g pdev in
           Ret (g, if 0 <=? ret then {[pdev]} ∪ bound else bound)
  | ERemove pdev =>
      if decide (pdev ∈ bound) then let! g := ivpci_remove g_ivpci_major g pdev in Ret (g, bound ∖ {[pdev]}) else Ret st
  | EIrq vector idx =>
      if decide (IrqLine vector idx ∈ gheld g) then Ret (fst (ivpci_interrupt g (Some idx)), bound) else Ret st
  | EOpen minor =>
      if decide (DevNode g_ivpci_major minor ∈ gheld g) then let! _ := ivpci_open g minor in Ret st else Ret st
  end.

Fixpoint gevents (st : guest * gset Z) (l : list gevent) : outcome (guest * gset Z) :=
  match l with
  | [] => Ret st
  | ev :: l => let! st := gstep st ev in gevents st l
  end.


(** The kernel answers as documented: results are 0 or an error, and mapping a
    region or creating the device file succeeds. *)
Definition honest_msix (e : gmsix_env) : Prop := ge_enable e <= 0 /\ forall i, ge_irq e i <= 0.
Definition honest (e : gprobe_env) : Prop :=
  gp_revision e = 1 /\ gp_ioremap0 e <> 0 /\ gp_ioremap2 e <> 0 /\ gp_device_create e <> 0 /\ honest_msix (gp_msix e).

(** Interrupts are set up completely or not at all; the array of entries is the
    only memory that is written. *)
Lemma request_vectors_ok e g idx pdev :
  0 <= idx < Z.of_nat (length (g_ivpci_devs g)) -> honest_msix e ->
  exists c names entries ret h,
    ivpci_request_msix_vectors kmalloc_addr e g idx pdev 1 =
      Ret (Guest (setZ (g_ivpci_devs g) idx (with_vectors (private_at g idx) names entries 1)) (g_ivpci_count g) h c
             (gdata g) (event_toggle g) (doorbells g), ret) /\
    (forall q, Block q ∈ gheld g -> c !! q = cells g !! q) /\
    (ret = 0 /\ names <> 0 /\ entries <> 0 /\
       h = {[+ IrqLine (vector_of c entries) idx +]} ⊎ ({[+ MsixOn pdev +]} ⊎ ({[+ Block names +]} ⊎ ({[+ Block entries +]} ⊎ gheld g)))
     \/ ret < 0 /\ h = gheld g).
Proof using kmalloc_fresh.
  intros Hi [Hen Hirq]. unfold ivpci_request_msix_vectors. destruct (kmalloc_fresh (gheld g)) as [Hf Hn0].
  set (en := kmalloc_addr (gheld g)) in *. set (x := private_at g idx). set (d := g_ivpci_devs g).
  destruct (ge_entries e); cbn [Z.eqb].
  2: { exists (cells g), (p_names x), 0, (- ENOMEM), (gheld g). split_and!; [done|done|]. right. unfold ENOMEM. split; [lia|done]. }
  destruct (Z.eqb_spec en 0) as [?|_]; [done|].
  set (g1 := obtain (set_vectors g idx (p_names x) en 1) (Block en)). cbv zeta.
  assert (E1 : forall nm, set_vectors g1 idx nm en 1 =
    Guest (setZ d idx (with_vectors x nm en 1)) (g_ivpci_count g) ({[+ Block en +]} ⊎ gheld g) (cells g) (gdata g) (event_toggle g) (doorbells g)).
  { intros nm. unfold set_vectors, set_private, private_at, with_devs. subst g1. cbn.
    unfold private_at, x, d. by rewrite setZ_setZ, getZ_setZ, Z.eqb_refl by lia. }
  destruct (ge_names e).
  2: { cbn [Z.eqb]. rewrite E1. unfold gfree_entries, kfree. destruct (Z.eqb_spec en 0) as [?|_]; [done|].
       rewrite (give_head _ _ (gheld g)) by done. cbn [obind]. do 5 eexists. split; [reflexivity|]. split; [done|]. right. unfold ENOMEM. split; [lia|done]. }
  destruct (kmalloc_fresh (gheld g1)) as [Hg Hm0]. set (nm := kmalloc_addr (gheld g1)) in *.
  destruct (Z.eqb_spec nm 0) as [?|_]; [done|]. rewrite E1.
  assert (Hc : forall l1 q, Block q ∈ gheld g -> <[en := l1]> (cells g) !! q = cells g !! q)
    by (intros l1 q Hq; apply lookup_insert_ne; intros ->; done).
  destruct (truthy (ge_enable e)) eqn:T.
  { rewrite (gfree_names_ok _ _ _ (gheld g)) by done. do 5 eexists. split; [reflexivity|]. split; [apply Hc|].
    right. unfold truthy in T. split; [lia|done]. }
  set (G := set_entries _ _ _). assert (HB : Block en ∈ gheld G) by (apply held_older, held_older, held_newest).
  change (Z.to_nat 1) with 1%nat. cbn [grequest_irqs]. rewrite vector_at_ok by done. cbn [obind].
  assert (Hc2 : forall q, Block q ∈ gheld g -> cells G !! q = cells g !! q)
    by (intros q Hq; subst G; cbn [cells set_entries with_cells obtain with_gheld]; rewrite lookup_insert_ne by (intros ->; done); by apply Hc).
  destruct (truthy (ge_irq e 0)) eqn:T2.
  - cbn [obind]. rewrite T2. change (Z.to_nat 0) with 0%nat. cbn [gfree_irqs obind]. unfold pci_disable_msix.
    rewrite decide_True by apply held_newest. rewrite (give_head _ _ ({[+ Block nm +]} ⊎ ({[+ Block en +]} ⊎ gheld g))) by done.
    cbn [obind]. rewrite (gfree_names_ok _ _ _ (gheld g)) by done. do 5 eexists. split; [reflexivity|]. split; [apply Hc2|].
    right. unfold truthy in T2. specialize (Hirq 0). split; [lia|done].
  - cbn [obind]. change (truthy 0) with false. cbv iota. do 5 eexists. split; [reflexivity|]. split; [apply Hc2|]. by left.
Qed.
(** The driver with another slot [idx], other resources and other driver data. *)
Definition state_at (g : guest) (idx : Z) (x : ivpci_private) (h : gmultiset gres) (m : gmap Z Z) : guest :=
  Guest (setZ (g_ivpci_devs g) idx x) (g_ivpci_count g) h (cells g) m (event_toggle g) (doorbells g).

Lemma state_set g idx x h m y : set_private (state_at g idx x h m) idx y = state_at g idx y h m.
Proof using. unfold set_private, with_devs, state_at. cbn [g_ivpci_devs g_ivpci_count gheld cells gdata event_toggle doorbells]. by rewrite setZ_setZ. Qed.
Lemma state_private g idx x h m : 0 <= idx < Z.of_nat (length (g_ivpci_devs g)) -> private_at (state_at g idx x h m) idx = x.
Proof using. intros Hi. unfold private_at, state_at. cbn [g_ivpci_devs]. by rewrite getZ_setZ, Z.eqb_refl by lia. Qed.
Lemma state_obtain g idx x h m r : obtain (state_at g idx x h m) r = state_at g idx x ({[+ r +]} ⊎ h) m.
Proof using. done. Qed.
Lemma state_give g idx x h m r : give (state_at g idx x ({[+ r +]} ⊎ h) m) r = Ret (state_at g idx x h m).
Proof using. by rewrite (give_head _ _ h). Qed.
Lemma state_init g idx : 0 <= idx < Z.of_nat (length (g_ivpci_devs g)) -> g = state_at g idx (private_at g idx) (gheld g) (gdata g).
Proof using.
  intros Hi. unfold state_at, private_at, setZ, getZ. destruct g as [d c h ce da t b]; cbn in *. f_equal.
  symmetry. apply list_insert_id. destruct (lookup_lt_is_Some_2 d (Z.to_nat idx)) as [y E]; [lia|]. by rewrite E.
Qed.

Lemma get_private_free g idx :
  ivpci_get_private g = Some idx -> 0 <= idx < Z.of_nat (length (g_ivpci_devs g)) /\ p_dev (private_at g idx) = None.
Proof using.
  intros H. apply (first_slot_some _ no_private) in H as [H1 H2]. rewrite Z.sub_0_r in H2. split; [lia|].
  unfold no_dev, private_at in *. by destruct (p_dev _).
Qed.

(** A device is attached in slot [idx], or refused and nothing is kept of it. *)
Definition gattached (e : gprobe_env) (g g' : guest) (pdev idx : Z) : Prop :=
  exists x, p_dev x = Some pdev /\ p_minor x = p_minor (private_at g idx) /\ p_nvectors x = 1 /\ p_entries x <> 0 /\
    p_names x <> 0 /\ p_base_addr x = gp_ioremap2 e /\ p_regs_addr x = gp_ioremap0 e /\ p_bar2 x = gp_bar2 e /\
    g_ivpci_devs g' = setZ (g_ivpci_devs g) idx x /\ g_ivpci_count g' = g_ivpci_count g + 1 /\
    gheld g' = slot_holds g_ivpci_major (cells g') idx x (gheld g) /\ gdata g' = <[pdev := idx]> (gdata g).
Definition grefused (g g' : guest) (pdev idx : Z) : Prop :=
  exists x, p_dev x = None /\ p_minor x = p_minor (private_at g idx) /\
    g_ivpci_devs g' = setZ (g_ivpci_devs g) idx x /\ g_ivpci_count g' = g_ivpci_count g /\
    gheld g' = gheld g /\ gdata g' = delete pdev (gdata g).

Lemma giounmap_bar2_ok g idx pdev ret x h m :
  0 <= idx < Z.of_nat (length (g_ivpci_devs g)) ->
  giounmap_bar2 (state_at g idx x ({[+ Iomap (p_base_addr x) +]} ⊎ ({[+ Iomap (p_regs_addr x) +]} ⊎
     ({[+ PciRegions pdev +]} ⊎ ({[+ PciOn pdev +]} ⊎ h)))) m) idx pdev ret = Ret (state_at g idx x h (delete pdev m), ret).
Proof using.
  intros Hi. unfold giounmap_bar2, giounmap_bar0, grelease_regions, gdisable_device, gout.
  rewrite state_private, state_give by done. cbn [obind]. rewrite state_private, state_give by done. cbn [obind].
  rewrite state_give. cbn [obind]. by rewrite state_give.
Qed.

Lemma gdestroy_ok g idx pdev ret x h m :
  0 <= idx < Z.of_nat (length (g_ivpci_devs g)) ->
  gdestroy_device g_ivpci_major (state_at g idx x ({[+ DevNode g_ivpci_major (p_minor x) +]} ⊎ ({[+ CdevOf idx +]} ⊎
      ({[+ Iomap (p_base_addr x) +]} ⊎ ({[+ Iomap (p_regs_addr x) +]} ⊎ ({[+ PciRegions pdev +]} ⊎ ({[+ PciOn pdev +]} ⊎ h)))))) m) idx pdev ret =
  Ret (state_at g idx (with_pdev x None) h (delete pdev m), ret).
Proof using.
  intros Hi. unfold gdestroy_device, gdelete_chrdev.
  rewrite state_private, state_give by done. cbn [obind]. rewrite state_set, state_private, state_give by done. cbn [obind].
  by rewrite <- (giounmap_bar2_ok g idx pdev ret (with_pdev x None) h m).
Qed.

(** What a device holds before its interrupts. *)
Definition base_holds (idx pdev : Z) (x : ivpci_private) (h : gmultiset gres) : gmultiset gres :=
  {[+ DevNode g_ivpci_major (p_minor x) +]} ⊎ ({[+ CdevOf idx +]} ⊎ ({[+ Iomap (p_base_addr x) +]} ⊎
  ({[+ Iomap (p_regs_addr x) +]} ⊎ ({[+ PciRegions pdev +]} ⊎ ({[+ PciOn pdev +]} ⊎ h))))).

Lemma guest_interrupts_ok e g idx pdev x :
  0 <= idx < Z.of_nat (length (g_ivpci_devs g)) -> honest_msix (gp_msix e) -> p_revision x = 1 -> p_dev x = Some pdev ->
  p_minor x = p_minor (private_at g idx) -> p_base_addr x = gp_ioremap2 e -> p_regs_addr x = gp_ioremap0 e -> p_bar2 x = gp_bar2 e ->
  exists g' ret, gprobe_interrupts kmalloc_addr g_ivpci_major e
      (state_at g idx x (base_holds idx pdev x (gheld g)) (<[pdev := idx]> (gdata g))) idx pdev = Ret (g', ret) /\
    (forall q, Block q ∈ gheld g -> cells g' !! q = cells g !! q) /\
    (ret = 0 /\ gattached e g g' pdev idx \/ ret < 0 /\ grefused g g' pdev idx).
Proof using kmalloc_fresh.
  intros Hr Hms Hrev Hx Hmin Hb Hre Hb2. unfold gprobe_interrupts. rewrite state_private, Hrev, Z.eqb_refl, state_set by done.
  set (y := with_position _ _). set (H6 := base_holds _ _ _ _). set (G := state_at g idx y H6 _).
  destruct (request_vectors_ok (gp_msix e) G idx pdev) as (c & nm & en & ret & h & -> & Hc & Hcase);
    [subst G; cbn [state_at g_ivpci_devs]; by rewrite length_setZ|done|].
  assert (Hcell : forall q, Block q ∈ gheld g -> c !! q = cells g !! q).
  { intros q Hq. rewrite Hc; [done|]. subst G H6. cbn [gheld state_at]. by repeat apply held_older. }
  cbn [obind]. replace (private_at G idx) with y by (symmetry; by apply state_private).
  subst G. cbn [g_ivpci_devs g_ivpci_count gdata event_toggle doorbells state_at gheld] in *. rewrite setZ_setZ.
  destruct Hcase as [(-> & Hnm & Hen & ->)|[Hneg ->]].
  - change (truthy 0) with false. cbv iota. do 2 eexists. split; [reflexivity|]. split; [done|]. left. split; [done|].
    exists (with_vectors y nm en 1). split_and!; try done. unfold slot_holds. cbn [with_vectors y with_position p_dev]. by rewrite Hx.
  - replace (truthy ret) with true by (unfold truthy; lia).
    change (Guest (setZ _ idx ?z) _ H6 c ?m _ _) with (state_at (with_cells g c) idx z (base_holds idx pdev z (gheld g)) m).
    unfold base_holds. rewrite gdestroy_ok by done.
    do 2 eexists. split; [reflexivity|]. split; [done|]. right. split; [done|].
    exists (with_pdev (with_vectors y nm en 1) None). split_and!; [done..|]. apply delete_insert_eq.
Qed.

(** With honest answers, probing attaches the device or refuses it with an error. *)
Lemma probe_ok e g pdev idx :
  ivpci_get_private g = Some idx -> honest e ->
  exists g' ret, ivpci_probe kmalloc_addr g_ivpci_major g_max_devices e g pdev = Ret (g', ret) /\
    (forall q, Block q ∈ gheld g -> cells g' !! q = cells g !! q) /\
    (ret = 0 /\ gattached e g g' pdev idx \/ ret < 0 /\ grefused g g' pdev idx).
Proof using kmalloc_fresh.
  intros Hi (Hrev & H0 & H2 & Hdc & Hms). destruct (get_private_free g idx Hi) as [Hr Hf].
  pose proof (state_init g idx Hr) as Eg. set (x0 := private_at g idx) in *.
  assert (Hrefuse : forall x ret, ret < 0 -> p_dev x = None -> p_minor x = p_minor x0 ->
    exists g' r, Ret (gset_drvdata (state_at g idx x (gheld g) (gdata g)) pdev None, ret) = Ret (g', r) /\
    (forall q, Block q ∈ gheld g -> cells g' !! q = cells g !! q) /\ (r = 0 /\ gattached e g g' pdev idx \/ r < 0 /\ grefused g g' pdev idx)).
  { intros x ret Hneg Hx Hxm. do 2 eexists. split; [reflexivity|]. split; [done|]. right. split; [done|]. by exists x. }
  cut (forall G, G = state_at g idx x0 (gheld g) (gdata g) -> exists g' ret,
    ivpci_probe kmalloc_addr g_ivpci_major g_max_devices e G pdev = Ret (g', ret) /\
    (forall q, Block q ∈ gheld g -> cells g' !! q = cells g !! q) /\
    (ret = 0 /\ gattached e g g' pdev idx \/ ret < 0 /\ grefused g g' pdev idx)); [intros C; by apply (C g)|].
  assert (HiG : ivpci_get_private (state_at g idx x0 (gheld g) (gdata g)) = Some idx) by (rewrite <- Eg; done).
  clear Eg. intros G ->. unfold ivpci_probe. destruct (_ >=? _); [by apply Hrefuse|].
  destruct (Z.ltb_spec (gp_enable e) 0); [by apply Hrefuse|]. cbv zeta.
  destruct (Z.ltb_spec (gp_regions e) 0).
  { unfold gdisable_device. rewrite give_obtain. by apply Hrefuse. }
  change (ivpci_get_private _) with (ivpci_get_private (state_at g idx x0 (gheld g) (gdata g))). rewrite HiG.
  destruct (Z.eqb_spec (gp_ioremap0 e) 0) as [?|_]; [done|]. destruct (Z.eqb_spec (gp_ioremap2 e) 0) as [?|_]; [done|].
  destruct (Z.eqb_spec (gp_device_create e) 0) as [?|_]; [done|].
  repeat first [rewrite state_obtain|rewrite state_set|rewrite state_private by done].
  set (x := with_base _ _).
  destruct (Z.ltb_spec (gp_cdev_add e) 0).
  { change (gp_ioremap2 e) with (p_base_addr x) at 1. change (gp_ioremap0 e) with (p_regs_addr x) at 1.
    rewrite giounmap_bar2_ok by done. by apply (Hrefuse x). }
  change (gset_drvdata _ pdev (Some idx)) with (state_at g idx (with_pdev x (Some pdev)) (base_holds idx pdev (with_pdev x (Some pdev)) (gheld g)) (<[pdev := idx]> (gdata g))).
  by apply guest_interrupts_ok.
Qed.
(** Removing an attached device gives back everything it holds. *)
Lemma remove_ok g pdev idx x h :
  0 <= idx < Z.of_nat (length (g_ivpci_devs g)) -> private_at g idx = x -> p_dev x = Some pdev -> p_nvectors x = 1 ->
  p_entries x <> 0 -> p_names x <> 0 -> gdata g !! pdev = Some idx -> gheld g = slot_holds g_ivpci_major (cells g) idx x h ->
  ivpci_remove g_ivpci_major g pdev = Ret (state_at g idx (with_pdev x None) h (delete pdev (gdata g))).
Proof using.
  intros Hi Hx Hd Hn He Hm Hdata Hh. unfold ivpci_remove, ivpci_free_msix_vectors. rewrite Hdata, Hx, Hn, Hd.
  unfold slot_holds in Hh. rewrite Hd in Hh. change (Z.to_nat 1) with 1%nat. cbn [gfree_irqs].
  rewrite vector_at_ok by (rewrite Hh; by do 3 apply held_older; apply held_newest). cbn [obind].
  rewrite (give_head _ _ _ Hh). cbn [obind]. unfold pci_disable_msix. rewrite decide_True by apply held_newest.
  rewrite give_newest. cbn [obind]. unfold kfree. destruct (Z.eqb_spec (p_names x) 0); [done|].
  rewrite give_newest. cbn [obind]. destruct (Z.eqb_spec (p_entries x) 0); [done|].
  rewrite give_newest. cbn [obind].
  set (G := with_gheld _ _). replace (private_at G idx) with x by (subst; done).
  replace (set_private G idx (with_pdev x None)) with (state_at g idx (with_pdev x None) (gheld G) (gdata g)) by done. subst G.
  cbn [with_gheld gheld]. rewrite state_private by done. cbn [with_pdev p_minor].
  rewrite state_give. cbn [obind]. rewrite state_give. cbn [obind]. rewrite state_private by done. cbn [with_pdev p_base_addr].
  rewrite state_give. cbn [obind]. rewrite state_private by done. cbn [with_pdev p_regs_addr].
  rewrite state_give. cbn [obind]. rewrite state_give. cbn [obind]. by rewrite state_give.
Qed.
(** ** The invariant *)

Definition attached_count (l : list ivpci_private) : Z := Z.of_nat (length (filter (fun x => no_dev x = false) l)).

Context (first_minor : Z).

(** What is held is what the attached devices hold; a device is bound when it is
    attached, and its driver data names its slot. *)
Record glive (st : guest * gset Z) : Prop := GLive {
  gl_held : gheld (fst st) = slots_hold g_ivpci_major (cells (fst st)) 0 (g_ivpci_devs (fst st));
  gl_len : Z.of_nat (length (g_ivpci_devs (fst st))) = g_max_devices;
  gl_count : attached_count (g_ivpci_devs (fst st)) <= g_ivpci_count (fst st);
  gl_minor : forall k x, g_ivpci_devs (fst st) !! k = Some x -> p_minor x = first_minor + Z.of_nat k;
  gl_slot : forall k x pdev, g_ivpci_devs (fst st) !! k = Some x -> p_dev x = Some pdev ->
    gdata (fst st) !! pdev = Some (Z.of_nat k) /\ p_nvectors x = 1 /\ p_entries x <> 0 /\ p_names x <> 0;
  gl_bound : forall pdev, pdev ∈ snd st <-> exists k x, g_ivpci_devs (fst st) !! k = Some x /\ p_dev x = Some pdev }.

Lemma attached_count_insert l k x y :
  l !! k = Some y ->
  attached_count (<[k := x]> l) = attached_count l + (if no_dev x then 0 else 1) - (if no_dev y then 0 else 1).
Proof using.
  intros Hk. unfold attached_count. rewrite <- (take_drop_middle l k y Hk) at 2.
  rewrite insert_take_drop by (by eapply lookup_lt_Some). rewrite !list.filter_app, !length_app, !filter_cons.
  destruct (no_dev x), (no_dev y); cbn [length decide]; repeat destruct (decide _); try done; cbn [length]; lia.
Qed.

Lemma first_slot_none {A} (f : A -> bool) l k : first_slot f l k = None -> forall x, x ∈ l -> f x = false.
Proof using.
  revert k. induction l as [|y l IH]; intros k H x Hx; [by apply not_elem_of_nil in Hx|]. cbn in H.
  destruct (f y) eqn:E; [done|]. apply elem_of_cons in Hx as [->|Hx]; [done|]. by eapply IH.
Qed.

(** As long as the count allows another device, there is a slot for it. *)
Lemma live_free_slot g b : glive (g, b) -> g_ivpci_count g < g_max_devices -> exists idx, ivpci_get_private g = Some idx.
Proof using.
  intros [_ Hl Hc _ _ _] Hlt. cbn [fst] in *. destruct (ivpci_get_private g) as [i|] eqn:E; [by exists i|].
  pose proof (first_slot_none _ _ _ E) as Hn. unfold attached_count in Hc. rewrite filter_all in Hc by exact Hn. lia.
Qed.

Lemma lookup_private g k x : g_ivpci_devs g !! k = Some x -> private_at g (Z.of_nat k) = x.
Proof using. intros H. unfold private_at, getZ. by rewrite Nat2Z.id, H. Qed.

Lemma free_slot g idx :
  ivpci_get_private g = Some idx -> exists k y, idx = Z.of_nat k /\ g_ivpci_devs g !! k = Some y /\ p_dev y = None.
Proof using.
  intros H. destruct (get_private_free g idx H) as [Hr Hf]. destruct (lookup_lt_is_Some_2 (g_ivpci_devs g) (Z.to_nat idx)) as [y E]; [lia|].
  exists (Z.to_nat idx), y. split_and!; [lia|done|]. unfold private_at, getZ in Hf. by rewrite E in Hf.
Qed.

Lemma lookup_set (l : list ivpci_private) k k' x y z :
  l !! k = Some y -> setZ l (Z.of_nat k) x !! k' = Some z -> k' = k /\ z = x \/ k' <> k /\ l !! k' = Some z.
Proof using.
  intros Hk. unfold setZ. rewrite Nat2Z.id. destruct (decide (k' = k)) as [->|N].
  - rewrite list_lookup_insert_eq by (by eapply lookup_lt_Some). intros [= ->]. by left.
  - rewrite list_lookup_insert_ne by done. by right.
Qed.

Lemma lookup_set_other (l : list ivpci_private) k k' x : k' <> k -> setZ l (Z.of_nat k) x !! k' = l !! k'.
Proof using. intros N. unfold setZ. rewrite Nat2Z.id. by apply list_lookup_insert_ne. Qed.

(** A refused device leaves the invariant. *)
Lemma live_refused g b g' pdev idx :
  glive (g, b) -> pdev ∉ b -> ivpci_get_private g = Some idx -> (forall q, Block q ∈ gheld g -> cells g' !! q = cells g !! q) ->
  grefused g g' pdev idx -> glive (g', b).
Proof using.
  intros [Hh Hl Hc Hm Hs Hb] Hp Hi Hcell (x & Hx & Hxm & Ed & Ec & Eh & Em). cbn [fst snd] in *.
  destruct (free_slot g idx Hi) as (k & y & -> & Hk & Hy). rewrite (lookup_private _ _ _ Hk) in Hxm.
  split; cbn [fst snd]; rewrite ?Ed, ?Ec, ?Eh, ?Em.
  - unfold setZ. rewrite Nat2Z.id, (slots_hold_insert _ _ _ _ _ _ y) by done. unfold slot_holds. rewrite Hx, Hh.
    symmetry. apply slots_hold_ext. intros q Hq. apply Hcell. by rewrite Hh.
  - by rewrite length_setZ.
  - unfold setZ. rewrite Nat2Z.id, (attached_count_insert _ _ _ y) by done. unfold no_dev. rewrite Hx, Hy. lia.
  - intros k' z Hz. apply (lookup_set _ _ _ _ y) in Hz as [[-> ->]|[_ Hz]]; [rewrite Hxm; by apply Hm|by apply Hm|done].
  - intros k' z pd Hz Hd. apply (lookup_set _ _ _ _ y) in Hz as [[-> ->]|[_ Hz]]; [by rewrite Hx in Hd| |done].
    destruct (Hs k' z pd Hz Hd) as (E & ? & ? & ?). split_and!; try done. rewrite lookup_delete_ne; [done|].
    intros <-. apply Hp. apply Hb. by exists k', z.
  - intros pd. rewrite Hb. split; intros (k' & z & Hz & Hd).
    + destruct (decide (k' = k)) as [->|N]; [rewrite Hk in Hz; injection Hz as <-; by rewrite Hy in Hd|].
      exists k', z. by rewrite lookup_set_other.
    + apply (lookup_set _ _ _ _ y) in Hz as [[-> ->]|[_ Hz]]; [by rewrite Hx in Hd|by exists k', z|done].
Qed.

(** An attached device is bound. *)
Lemma live_attached e g b g' pdev idx :
  glive (g, b) -> pdev ∉ b -> ivpci_get_private g = Some idx -> (forall q, Block q ∈ gheld g -> cells g' !! q = cells g !! q) ->
  gattached e g g' pdev idx -> glive (g', {[pdev]} ∪ b).
Proof using.
  intros [Hh Hl Hc Hm Hs Hb] Hp Hi Hcell (x & Hx & Hxm & Hn & He & Hna & _ & _ & _ & Ed & Ec & Eh & Em). cbn [fst snd] in *.
  destruct (free_slot g idx Hi) as (k & y & -> & Hk & Hy). rewrite (lookup_private _ _ _ Hk) in Hxm.
  split; cbn [fst snd]; rewrite ?Ed, ?Ec, ?Eh, ?Em.
  - unfold setZ. rewrite Nat2Z.id, (slots_hold_insert _ _ _ _ _ _ y) by done. f_equal. rewrite Hh.
    symmetry. apply slots_hold_ext. intros q Hq. apply Hcell. by rewrite Hh.
  - by rewrite length_setZ.
  - unfold setZ. rewrite Nat2Z.id, (attached_count_insert _ _ _ y) by done. unfold no_dev. rewrite Hx, Hy. lia.
  - intros k' z Hz. apply (lookup_set _ _ _ _ y) in Hz as [[-> ->]|[_ Hz]]; [rewrite Hxm; by apply Hm|by apply Hm|done].
  - intros k' z pd Hz Hd. apply (lookup_set _ _ _ _ y) in Hz as [[-> ->]|[_ Hz]]; [| |done].
    + rewrite Hx in Hd. injection Hd as <-. by rewrite lookup_insert_eq.
    + destruct (Hs k' z pd Hz Hd) as (E & ? & ? & ?). split_and!; try done. rewrite lookup_insert_ne; [done|].
      intros <-. apply Hp. apply Hb. by exists k', z.
  - intros pd. rewrite elem_of_union, elem_of_singleton, Hb. split.
    + intros [->|(k' & z & Hz & Hd)].
      * exists k, x. unfold setZ. rewrite Nat2Z.id. split; [|done]. apply list_lookup_insert_eq. by eapply lookup_lt_Some.
      * destruct (decide (k' = k)) as [->|N]; [rewrite Hk in Hz; injection Hz as <-; by rewrite Hy in Hd|].
        exists k', z. by rewrite lookup_set_other.
    + intros (k' & z & Hz & Hd). apply (lookup_set _ _ _ _ y) in Hz as [[-> ->]|[_ Hz]]; [left; congruence|right; by exists k', z|done].
Qed.

(** Removing a bound device succeeds, and leaves what the others hold. *)
Lemma live_removed g b pdev :
  glive (g, b) -> pdev ∈ b -> exists g', ivpci_remove g_ivpci_major g pdev = Ret g' /\ glive (g', b ∖ {[pdev]}).
Proof using.
  intros [Hh Hl Hc Hm Hs Hb] Hp. cbn [fst snd] in *. destruct (proj1 (Hb pdev) Hp) as (k & x & Hk & Hd).
  destruct (Hs k x pdev Hk Hd) as (Hdata & Hn & He & Hna). pose proof (lookup_lt_Some _ _ _ Hk) as Hlt.
  assert (Huniq : forall k' z, g_ivpci_devs g !! k' = Some z -> p_dev z = Some pdev -> k' = k).
  { intros k' z Hz Hdz. destruct (Hs k' z pdev Hz Hdz) as [E _]. rewrite Hdata in E. injection E. lia. }
  set (rest := slots_hold g_ivpci_major (cells g) 0 (<[k := with_pdev x None]> (g_ivpci_devs g))).
  assert (E : gheld g = slot_holds g_ivpci_major (cells g) (Z.of_nat k) x rest)
    by (rewrite Hh; exact (slots_hold_take _ _ _ k 0 x (with_pdev x None) Hk eq_refl)).
  rewrite (remove_ok g pdev (Z.of_nat k) x rest ltac:(lia) (lookup_private _ _ _ Hk) Hd Hn He Hna Hdata E). subst rest.
  eexists. split; [reflexivity|]. split; cbn [fst snd state_at g_ivpci_devs gheld cells g_ivpci_count gdata].
  - unfold setZ. by rewrite Nat2Z.id.
  - by rewrite length_setZ.
  - unfold setZ. rewrite Nat2Z.id, (attached_count_insert _ _ _ x) by done. unfold no_dev. rewrite Hd. cbn. lia.
  - intros k' z Hz. apply (lookup_set _ _ _ _ x) in Hz as [[-> ->]|[_ Hz]]; [exact (Hm k x Hk)|by apply Hm|done].
  - intros k' z pd Hz Hdz. apply (lookup_set _ _ _ _ x) in Hz as [[-> ->]|[N Hz]]; [done| |done].
    destruct (Hs k' z pd Hz Hdz) as (Ek & ? & ? & ?). split_and!; try done. rewrite lookup_delete_ne; [done|].
    intros <-. apply N. by eapply Huniq.
  - intros pd. rewrite elem_of_difference, elem_of_singleton, Hb. split.
    + intros [(k' & z & Hz & Hdz) Hne]. exists k', z. rewrite lookup_set_other; [done|]. intros ->. rewrite Hk in Hz. congruence.
    + intros (k' & z & Hz & Hdz). apply (lookup_set _ _ _ _ x) in Hz as [[-> ->]|[N Hz]]; [done| |done].
      split; [by exists k', z|]. intros ->. apply N. by eapply Huniq.
Qed.
(** The file of a device leads to its slot. *)
Lemma live_open g b minor :
  glive (g, b) -> DevNode g_ivpci_major minor ∈ gheld g -> ivpci_open g minor = Ret (minor - first_minor).
Proof using.
  intros [Hh Hl Hc Hm Hs Hb] Hn. cbn [fst snd] in *. rewrite Hh in Hn. apply slots_hold_elem in Hn as (k & x & Hk & Hd & Hn).
  apply slot_node in Hn as Ex.
  unfold ivpci_open. destruct (ivpci_find_private g minor) as [i|] eqn:E.
  - apply (first_slot_some _ no_private) in E as [Hi E]. rewrite Z.sub_0_r in E. apply andb_prop in E as [_ E].
    destruct (lookup_lt_is_Some_2 (g_ivpci_devs g) (Z.to_nat i)) as [y Hy]; [lia|]. unfold getZ in E. rewrite Hy in E. cbn in E.
    specialize (Hm _ _ Hy). f_equal. lia.
  - pose proof (first_slot_none _ _ _ E x ltac:(by eapply list_elem_of_lookup_2)) as F. cbn in F.
    unfold no_dev in F. destruct (p_dev x); [|done]. cbn in F. lia.
Qed.

Definition honest_event (ev : gevent) : Prop := match ev with EProbe _ e => honest e | _ => True end.

Lemma gstep_live st ev : glive st -> honest_event ev -> exists st', gstep st ev = Ret st' /\ glive st'.
Proof using kmalloc_fresh.
  destruct st as [g b]. intros L Hev. destruct ev as [pdev e|pdev|v idx|minor]; cbn [gstep].
  - destruct (decide (pdev ∈ b)) as [|Hp]; [by eexists|].
    destruct (Z.lt_ge_cases (g_ivpci_count g) g_max_devices) as [Hlt|Hge].
    + destruct (live_free_slot g b L Hlt) as [idx Hi].
      destruct (probe_ok e g pdev idx Hi Hev) as (g' & ret & -> & Hcell & Hcase). cbn [obind]. eexists. split; [reflexivity|].
      destruct Hcase as [[-> Ha]|[Hneg Hr]]; [by eapply live_attached|].
      destruct (Z.leb_spec 0 ret); [lia|]. by eapply live_refused.
    + unfold ivpci_probe. destruct (Z.geb_spec (g_ivpci_count g) g_max_devices); [|lia]. cbn [gout obind]. eexists. split; [reflexivity|].
      destruct L as [Hh Hl Hc Hm Hs Hb]. split; try done. cbn [fst snd gset_drvdata gdata g_ivpci_devs] in *.
      intros k x pd Hk Hd. destruct (Hs k x pd Hk Hd) as (E & ?). split; [|done]. rewrite lookup_delete_ne; [done|].
      intros <-. apply Hp. apply Hb. by exists k, x.
  - destruct (decide (pdev ∈ b)) as [Hp|]; [|by eexists]. destruct (live_removed g b pdev L Hp) as (g' & -> & L'). by eexists.
  - destruct (decide _); [|by eexists]. eexists. split; [reflexivity|]. by destruct L as [Hh Hl Hc Hm Hs Hb].
  - destruct (decide _) as [Hn|]; [|by eexists]. rewrite (live_open g b minor L Hn). by eexists.
Qed.

Lemma gevents_live l st : glive st -> Forall honest_event l -> exists st', gevents st l = Ret st' /\ glive st'.
Proof using kmalloc_fresh.
  revert st. induction l as [|ev l IH]; intros st L H; cbn [gevents]; [by eexists|].
  apply list.Forall_cons in H as [Hev H]. destruct (gstep_live st ev L Hev) as (st' & -> & L'). by apply IH.
Qed.
End Life.

Lemma init_slots_nth g_max_devices minor k x :
  init_privates g_max_devices minor !! k = Some x -> p_dev x = None /\ p_minor x = minor + Z.of_nat k.
Proof.
  unfold init_privates. intros H. change (map ?f ?l) with (f <$> l) in H. rewrite list_lookup_fmap in H.
  destruct (seqZ 0 g_max_devices !! k) as [i|] eqn:E; [|done]. apply lookup_seqZ in E as [-> _]. injection H as <-. split; [done|]. cbn. lia.
Qed.

Lemma slots_hold_none major c i l : (forall x, x ∈ l -> p_dev x = None) -> slots_hold major c i l = ∅.
Proof.
  revert i. induction l as [|x l IH]; intros i H; [done|]. cbn [slots_hold]. unfold slot_holds.
  rewrite (H x) by left. apply IH. intros y Hy. apply H. by right.
Qed.

(** The driver once it is loaded. *)
Lemma init_live major g_max_devices minor :
  0 <= g_max_devices -> glive major g_max_devices minor (Guest (init_privates g_max_devices minor) 0 ∅ ∅ ∅ 0 [], ∅).
Proof.
  intros Hm. split; cbn [fst snd gheld cells g_ivpci_devs g_ivpci_count gdata].
  - symmetry. apply slots_hold_none. intros x Hx. apply list_elem_of_lookup_1 in Hx as [k Hx]. by apply init_slots_nth in Hx as [? _].
  - unfold init_privates. rewrite length_map, length_seqZ. lia.
  - unfold attached_count. assert (E : filter (fun x => no_dev x = false) (init_privates g_max_devices minor) = []); [|by rewrite E].
    unfold init_privates. induction (seqZ 0 g_max_devices) as [|i l IH]; [done|]. cbn [map]. by rewrite filter_cons_False.
  - intros k x Hx. by apply init_slots_nth in Hx as [_ ?].
  - intros k x pdev Hx Hd. apply init_slots_nth in Hx as [E _]. congruence.
  - intros pdev. split; [set_solver|]. intros (k & x & Hx & Hd). apply init_slots_nth in Hx as [E _]. congruence.
Qed.


(** An allocator: one more than every address in use. *)
Definition block_addr (r : gres) : Z := match r with Block p => Z.abs p | _ => 0 end.
Definition next_addr (h : gmultiset gres) : Z := 1 + foldr Z.max 0 (map block_addr (elements h)).

Lemma next_addr_fresh h : Block (next_addr h) ∉ h /\ next_addr h <> 0.
Proof.
  unfold next_addr. split.
  - intros H. apply gmultiset_elem_of_elements in H. set (n := foldr Z.max 0 (map block_addr (elements h))) in *.
    assert (Hle : forall l r, r ∈ l -> block_addr r <= foldr Z.max 0 (map block_addr l)).
    { induction l as [|y l IH]; intros r Hr; [by apply not_elem_of_nil in Hr|]. cbn. apply elem_of_cons in Hr as [->|Hr]; [lia|].
      specialize (IH r Hr). lia. }
    specialize (Hle _ _ H). fold n in Hle. cbn [block_addr] in Hle. lia.
  - assert (0 <= foldr Z.max 0 (map block_addr (elements h))); [|lia].
    induction (elements h) as [|y l IH]; cbn; [lia|]. lia.
Qed.

Definition example_guest_probe (rev map0 : Z) : gprobe_env :=
  GProbeEnv 0 0 rev (4096, 256) (8192, 256) (65536, 8192) map0 200 0 1 3 (GMsixEnv true true 0 (fun i => 40 + i) (fun _ => 0)).


(** ** Where it fails *)

(** The result of such an attachment is not an error. *)
Lemma silent_probe (kmalloc_addr : gmultiset gres -> Z) major g_max_devices e g pdev idx :
  g_ivpci_count g < g_max_devices -> ivpci_get_private g = Some idx ->
  0 <= gp_enable e -> 0 <= gp_regions e -> 0 <= gp_cdev_add e ->
  gp_ioremap0 e = 0 \/ gp_ioremap2 e = 0 \/ gp_device_create e = 0 ->
  exists x ret, 0 <= ret /\ ivpci_probe kmalloc_addr major g_max_devices e g pdev =
    Ret (state_at g idx x (gheld g) (delete pdev (gdata g)), ret).
Proof.
  intros Hc Hi H1 H2 H3 Hbad. destruct (get_private_free g idx Hi) as [Hr Hf]. pose proof (state_init g idx Hr) as Eg.
  set (x0 := private_at g idx) in *.
  assert (HiG : ivpci_get_private (state_at g idx x0 (gheld g) (gdata g)) = Some idx) by (rewrite <- Eg; done).
  assert (Hc' : g_ivpci_count (state_at g idx x0 (gheld g) (gdata g)) < g_max_devices) by done.
  cut (forall G, G = state_at g idx x0 (gheld g) (gdata g) -> exists x ret, 0 <= ret /\ ivpci_probe kmalloc_addr major g_max_devices e G pdev =
    Ret (state_at g idx x (gheld g) (delete pdev (gdata g)), ret)); [intros C; by apply (C g)|].
  clear Eg. intros G ->. unfold ivpci_probe.
  destruct (Z.geb_spec (g_ivpci_count (state_at g idx x0 (gheld g) (gdata g))) g_max_devices); [lia|].
  destruct (Z.ltb_spec (gp_enable e) 0); [lia|]. destruct (Z.ltb_spec (gp_regions e) 0); [lia|]. cbv zeta.
  change (ivpci_get_private _) with (ivpci_get_private (state_at g idx x0 (gheld g) (gdata g))). rewrite HiG.
  repeat first [rewrite state_obtain|rewrite state_set|rewrite state_private by done].
  destruct (Z.eqb_spec (gp_ioremap0 e) 0).
  { unfold grelease_regions, gdisable_device. do 2 (rewrite state_give; cbn [obind]). by do 2 eexists. }
  destruct (Z.eqb_spec (gp_ioremap2 e) 0).
  { unfold giounmap_bar0, grelease_regions, gdisable_device. rewrite state_private by done. cbn [with_base with_regs p_regs_addr].
    do 3 (rewrite state_give; cbn [obind]). by do 2 eexists. }
  destruct (Z.ltb_spec (gp_cdev_add e) 0); [lia|]. destruct (Z.eqb_spec (gp_device_create e) 0); [|lia].
  unfold gdelete_chrdev. rewrite state_give. cbn [obind]. set (x := with_base _ _). exists x, (gp_cdev_add e). split; [done|].
  exact (giounmap_bar2_ok g idx pdev (gp_cdev_add e) x (gheld g) (gdata g) Hr).
Qed.

(** An attachment that fails on a mapping or on the device file is reported as a
    success.  When one of the two regions cannot be mapped, or the file cannot be
    created, everything is given back but the result is that of an earlier call,
    which succeeded: the bus binds the device, whose driver data is empty, and
    taking it away stops the machine. *)
Theorem failed_attachment_is_bound (kmalloc_addr : gmultiset gres -> Z) (major g_max_devices : Z) (e : gprobe_env)
    (g : guest) (bound : gset Z) (pdev idx : Z) :
  pdev ∉ bound -> g_ivpci_count g < g_max_devices -> ivpci_get_private g = Some idx ->
  0 <= gp_enable e -> 0 <= gp_regions e -> 0 <= gp_cdev_add e ->
  gp_ioremap0 e = 0 \/ gp_ioremap2 e = 0 \/ gp_device_create e = 0 ->
  (exists g' ret, ivpci_probe kmalloc_addr major g_max_devices e g pdev = Ret (g', ret) /\ 0 <= ret /\
     gheld g' = gheld g /\ g_ivpci_count g' = g_ivpci_count g) /\
  gevents kmalloc_addr major g_max_devices (g, bound) [EProbe pdev e; ERemove pdev] = Bug.
Proof.
  intros Hp Hc Hi H1 H2 H3 Hbad.
  destruct (silent_probe kmalloc_addr major g_max_devices e g pdev idx Hc Hi H1 H2 H3 Hbad) as (x & ret & Hret & P). split; [by do 2 eexists|].
  cbn [gevents gstep]. rewrite decide_False by done. rewrite P. cbn [obind]. destruct (Z.leb_spec 0 ret); [|lia].
  cbn [gevents gstep].  rewrite decide_True by set_solver. unfold ivpci_remove. cbn [state_at gdata]. by rewrite lookup_delete_eq.
Qed.

Lemma failed_attachment_is_bound_witness :
  exists g, snd (fst (ivpci_init 2 0 (GInitEnv 0 true 1 0) [])) = Some g /\
  (exists g' ret, ivpci_probe next_addr 240 2 (example_guest_probe 1 0) g 7 = Ret (g', ret) /\ 0 <= ret /\
     gheld g' = gheld g /\ g_ivpci_count g' = g_ivpci_count g) /\
  gevents next_addr 240 2 (g, ∅) [EProbe 7 (example_guest_probe 1 0); ERemove 7] = Bug.
Proof.
  eexists. split; [reflexivity|].
  apply (failed_attachment_is_bound next_addr 240 2 (example_guest_probe 1 0) _ ∅ 7 0);
    [set_solver|reflexivity|reflexivity|cbn; lia|cbn; lia|cbn; lia|by left].
Defined.

(** The interrupt vectors of a removed device stay in its slot.  A device without
    interrupts that gets the slot after one with interrupts cannot be taken away: its
    removal reads the array of vectors that the removal before it has freed. *)
Theorem stale_vectors_read :
  exists g g1 b1,
    ivpci_init 2 0 (GInitEnv 0 true 1 0) [] = ([PciDriver; DevClass; DevArray; ChrdevRegion], Some g, 0) /\
    gevents next_addr 240 2 (g, ∅) [EProbe 7 (example_guest_probe 1 100); ERemove 7; EProbe 8 (example_guest_probe 0 100)] = Ret (g1, b1) /\
    8 ∈ b1 /\ gevents next_addr 240 2 (g1, b1) [ERemove 8] = Bug.
Proof.
  do 3 eexists. split; [reflexivity|]. split; [vm_compute; reflexivity|]. split; [|vm_compute; reflexivity].
  vm_compute. reflexivity.
Qed.

(** ** The operations of the file *)

(** Writing to the file rings the doorbell of a peer.  On the file of a mapped device,
    a write of two bytes stores one word in the doorbell register: the number that
    was written in the upper half and the position of the file in the lower half; any
    other length and an unreadable buffer are refused without effect.  Once the
    region is unmapped, a file that is still open writes to unmapped memory. *)
Theorem write_rings_doorbell (g : guest) (idx len poffset : Z) (buffer : option Z) :
  (Iomap (p_regs_addr (private_at g idx)) ∈ gheld g ->
   exists g' ret, ivpci_write g idx len poffset buffer = Ret (g', ret) /\
     gheld g' = gheld g /\ g_ivpci_devs g' = g_ivpci_devs g /\
     match buffer with
     | Some v =>
         if len =? 2 then
           ret = 2 /\ exists w, doorbells g' = (p_regs_addr (private_at g idx) + DOORBELL_OFF, w) :: doorbells g /\
             0 <= w < 2 ^ 32 /\ Z.shiftr w 16 = v mod 2 ^ 16 /\ Z.land w 65535 = poffset mod 2 ^ 16
         else ret = - EINVAL /\ doorbells g' = doorbells g
     | None => (ret = - EINVAL \/ ret = - EFAULT) /\ doorbells g' = doorbells g
     end) /\
  (Iomap (p_regs_addr (private_at g idx)) ∉ gheld g -> len = 2 -> forall v, ivpci_write g idx len poffset (Some v) = Bug).
Proof.
  unfold ivpci_write, writel. split; intros H.
  - destruct (Z.eqb_spec len 2) as [E|E]; cbn [negb].
    2: { do 2 eexists. split; [reflexivity|]. do 2 (split; [done|]). destruct buffer; [done|]. by split; [left|]. }
    destruct buffer as [v|].
    2: { do 2 eexists. split; [reflexivity|]. do 2 (split; [done|]). by split; [right|]. }
    rewrite decide_True by done. cbn [obind]. do 2 eexists. split; [reflexivity|]. do 2 (split; [done|]). split; [done|].
    eexists. split; [reflexivity|].
    assert (Hv : 0 <= u16 v < 65536) by apply (u16_range v). assert (Hp : 0 <= u16 poffset < 65536) by apply (u16_range poffset).
    change 65535 with (Z.ones 16). rewrite (Z.land_ones (u16 poffset)), (Z.mod_small (u16 poffset)) by lia.
    rewrite (u32_small (Z.shiftl _ _)) by (rewrite Z.shiftl_mul_pow2 by lia; lia).
    rewrite lor_shiftl_add by lia. rewrite u32_small by lia. split; [lia|].
    rewrite Z.shiftr_div_pow2, Z.land_ones by lia. unfold u16 in *. change (2 ^ 16) with 65536 in *. split; Z.div_mod_to_equations; lia.
  - intros -> v. cbn [negb Z.eqb Pos.eqb]. by rewrite decide_False.
Qed.

Definition example_private : ivpci_private := Private (Some 7) 0 1 0 200 100 (4096, 256) (8192, 256) (65536, 8192) 2 1 1.

Lemma write_rings_doorbell_witness :
  let g := Guest [example_private] 1 {[+ Iomap 100 +]} ∅ ∅ 0 [] in
  exists g' ret, ivpci_write g 0 2 1 (Some 5) = Ret (g', ret) /\
     gheld g' = gheld g /\ g_ivpci_devs g' = g_ivpci_devs g /\
     ret = 2 /\ exists w, doorbells g' = (112, w) :: doorbells g /\
             0 <= w < 2 ^ 32 /\ Z.shiftr w 16 = 5 mod 2 ^ 16 /\ Z.land w 65535 = 1 mod 2 ^ 16.
Proof.
  intros g. apply (write_rings_doorbell g 0 2 1 (Some 5)). change (Iomap 100 ∈ ({[+ Iomap 100 +]} : gmultiset gres)). multiset_solver.
Defined.

(** A mapping of the file shows the shared region and nothing else.  When the
    mapping does not wrap around the address space, it is accepted exactly when it
    ends within the pages of the region, and the page frames that are mapped then lie
    within these pages, at the offset that was asked for. *)
Theorem guest_mmap_within_region (x : ivpci_private) (vm_start vm_end vm_pgoff remap start len : Z) :
  p_base_addr x <> 0 -> p_bar2 x = (start, len) -> 0 <= start -> 0 <= len -> start + len + 2 * PAGE_SIZE <= 2 ^ 64 ->
  0 <= vm_start <= vm_end -> vm_end < 2 ^ 64 -> 0 <= vm_pgoff -> vm_pgoff * PAGE_SIZE + (vm_end - vm_start) + start < 2 ^ 64 ->
  let first := start / PAGE_SIZE in
  let pages := (start + len + (PAGE_SIZE - 1)) / PAGE_SIZE - first in
  ivpci_mmap x vm_start vm_end vm_pgoff remap =
    Ret (if vm_pgoff * PAGE_SIZE + (vm_end - vm_start) <=? pages * PAGE_SIZE
         then if remap =? 0 then (0, Some (first + vm_pgoff, vm_end - vm_start)) else (- ENXIO, None)
         else (- EINVAL, None)).
Proof.
  intros Hb Hbar Hs Hl Hsl Hv He Hp Hw first pages. unfold ivpci_mmap, bug_on. destruct (Z.eqb_spec (p_base_addr x) 0); [done|].
  rewrite Hbar. cbn [fst snd]. unfold PAGE_SHIFT, PAGE_MASK. rewrite Z.shiftl_mul_pow2 by lia. change (2 ^ 12) with PAGE_SIZE.
  rewrite (page_mask_down start) by (unfold PAGE_SIZE in *; lia).
  change (u64 (Z.lnot (u64 (Z.lnot (PAGE_SIZE - 1))))) with (Z.ones 12). rewrite Z.land_ones by lia. change (2 ^ 12) with PAGE_SIZE.
  rewrite (u64_small (vm_end - vm_start)), (u64_small (vm_pgoff * PAGE_SIZE)) by (unfold PAGE_SIZE in *; lia).
  pose proof (Z.mod_pos_bound start PAGE_SIZE ltac:(unfold PAGE_SIZE; lia)) as Hmod.
  rewrite (u64_small (start mod PAGE_SIZE + len)) by (unfold PAGE_SIZE in *; lia).
  rewrite page_align_up by (unfold PAGE_SIZE in *; lia).
  rewrite (u64_small (vm_end - vm_start + _)) by (unfold PAGE_SIZE in *; lia).
  assert (Ep : (start mod PAGE_SIZE + len + (PAGE_SIZE - 1)) / PAGE_SIZE = pages).
  { unfold pages, first, PAGE_SIZE in *. Z.div_mod_to_equations. lia. }
  rewrite Ep. rewrite (u64_small (_ + start / PAGE_SIZE * PAGE_SIZE)) by (unfold PAGE_SIZE in *; Z.div_mod_to_equations; lia).
  assert (Ef : Z.shiftr (vm_pgoff * PAGE_SIZE + start / PAGE_SIZE * PAGE_SIZE) 12 = first + vm_pgoff).
  { rewrite Z.shiftr_div_pow2 by lia. change (2 ^ 12) with PAGE_SIZE. rewrite <- Z.mul_add_distr_r, Z.div_mul by (unfold PAGE_SIZE; lia).
    unfold first. lia. }
  rewrite Ef. unfold truthy. destruct (Z.gtb_spec (vm_end - vm_start + vm_pgoff * PAGE_SIZE) (pages * PAGE_SIZE)),
    (Z.leb_spec (vm_pgoff * PAGE_SIZE + (vm_end - vm_start)) (pages * PAGE_SIZE)); try lia; [done|].
  by destruct (remap =? 0).
Qed.

Lemma guest_mmap_within_region_witness :
  ivpci_mmap example_private 4096 8192 1 0 = Ret (0, Some (17, 4096)) /\
  ivpci_mmap example_private 4096 12288 1 0 = Ret (- EINVAL, None).
Proof.
  split.
  - apply (guest_mmap_within_region example_private 4096 8192 1 0 65536 8192);
      cbn; unfold PAGE_SIZE; lia || reflexivity.
  - apply (guest_mmap_within_region example_private 4096 12288 1 0 65536 8192);
      cbn; unfold PAGE_SIZE; lia || reflexivity.
Defined.

(** The sum of offset and size is not checked for overflow: two pages at the last
    offset of the address space are accepted, and start one page before the region. *)
Theorem guest_mmap_wraps :
  ivpci_mmap example_private 4096 12288 (2 ^ 52 - 1) 0 = Ret (0, Some (15, 8192)).
Proof. vm_compute. reflexivity. Qed.

(** An interrupt lets one reader through.  An interrupt handled for a device lets the
    next read return; a read without one sleeps or is interrupted by a signal; and
    however many interrupts come before it, a read consumes all of them, whatever
    device they were for. *)
Theorem read_consumes_interrupts (x : ivpci_private) (g : guest) (ids : list (option Z)) (signal : bool) :
  p_base_addr x <> 0 -> event_toggle g = 0 ->
  let g' := fold_left (fun g i => fst (ivpci_interrupt g i)) ids g in
  if existsb (fun i => match i with Some _ => true | None => false end) ids
  then exists g2, ivpci_read x g' signal = Ret (Some (g2, 0)) /\ g2 = g
  else g' = g /\ ivpci_read x g' signal = Ret (if signal then Some (g, - ERESTARTSYS) else None).
Proof.
  intros Hb Ht g'. assert (E : g' = if existsb (fun i => match i with Some _ => true | None => false end) ids then with_toggle g 1 else g).
  { subst g'. assert (E2 : forall l, fold_left (fun g i => fst (ivpci_interrupt g i)) l (with_toggle g 1) = with_toggle g 1).
    { induction l as [|[i|] l IH]; [done|exact IH|exact IH]. }
    induction ids as [|[i|] l IH]; [done| |exact IH]. exact (E2 l). }
  unfold ivpci_read, bug_on. destruct (Z.eqb_spec (p_base_addr x) 0); [done|]. rewrite E. destruct (existsb _ _).
  - eexists. split; [reflexivity|]. destruct g; cbn in *. by subst.
  - rewrite Ht. cbn. by destruct signal.
Qed.

Lemma read_consumes_interrupts_witness :
  let x := example_private in
  let g := Guest [x] 1 ∅ ∅ ∅ 0 [] in
  exists g2, ivpci_read x (fst (ivpci_interrupt (fst (ivpci_interrupt g (Some 0))) (Some 0))) false = Ret (Some (g2, 0)) /\ g2 = g.
Proof.
  exact (read_consumes_interrupts example_private
    (Guest [example_private] 1 ∅ ∅ ∅ 0 []) [Some 0; Some 0] false ltac:(cbn; lia) eq_refl).
Defined.

(** Loading takes everything or nothing, and unloading gives everything back. *)
Theorem guest_init_exit (g_max_devices minor : Z) (ie : ginit_env) (h : list mod_resource) :
  let '(h', og, ret) := ivpci_init g_max_devices minor ie h in
  ret = 0 /\ ivpci_exit h' = h /\ (exists g, og = Some g /\ gheld g = ∅ /\ Z.of_nat (length (g_ivpci_devs g)) = Z.max 0 g_max_devices) \/
  ret = - 1 /\ og = None /\ h' = h.
Proof.
  unfold ivpci_init, ivpci_exit. destruct (_ <? 0); [by right|]. destruct (gi_devs ie); cbn [negb]; [|right; by rewrite release_cons].
  destruct (_ =? 0); [right; by rewrite !release_cons|]. destruct (_ <? 0); [right; by rewrite !release_cons|].
  left. rewrite !release_cons. split_and!; [done..|]. eexists. split; [reflexivity|]. split; [done|].
  cbn [g_ivpci_devs]. unfold init_privates. rewrite length_map, length_seqZ. lia.
Qed.
