(* ===== verification/Atomics.v ===== *)
(** The atomic operations of the lock benchmark:
    src/lupin_lock_benchmark/atomics.h.

    Every function of the header has one body per architecture, selected by the
    preprocessor: a locked instruction of x86, an instruction of the large system
    extensions of aarch64, a loop of exclusive loads and stores, or a builtin of the
    compiler.  The bodies are translated to lists of instructions, which any number of
    processors run concurrently, one instruction at a time.  The accesses are
    sequentially consistent; the ordering an instruction asks for is part of its name
    and has no further effect. *)
From Stdlib Require Import ZArith Lia Bool.
From stdpp Require Import base list numbers.
From S2P Require Import Prelude TatasLock.
Local Open Scope Z_scope.

Inductive variant := X86 | Lse | Exclusive | Builtin.

(** The operands of the inline assembly, by the names they have there. *)
Inductive reg := rval | rexp | rold | rnewval | rtmp.
Record regs := Regs { x_val : Z; x_exp : Z; x_old : Z; x_newval : Z; x_tmp : Z }.

Definition getr (r : regs) (k : reg) : Z :=
  match k with rval => x_val r | rexp => x_exp r | rold => x_old r | rnewval => x_newval r | rtmp => x_tmp r end.
Definition setr (r : regs) (k : reg) (x : Z) : regs :=
  match k with
  | rval => Regs x (x_exp r) (x_old r) (x_newval r) (x_tmp r)
  | rexp => Regs (x_val r) x (x_old r) (x_newval r) (x_tmp r)
  | rold => Regs (x_val r) (x_exp r) x (x_newval r) (x_tmp r)
  | rnewval => Regs (x_val r) (x_exp r) (x_old r) x (x_tmp r)
  | rtmp => Regs (x_val r) (x_exp r) (x_old r) (x_newval r) x
  end.

(** The instructions; [a] and [l] are the acquire and release forms of aarch64.  The
    last four are the builtins of the compiler. *)
Inductive insn :=
| XADDQ | XCHGQ | CMPXCHGQ
| LDADD (a l : bool) | SWP (a l : bool) | CAS (a l : bool)
| LDXR (a : bool) | STXR (l : bool) (src : reg) | ADD | SUB | EOR | CBNZ (target : nat)
| MOV (dst src : reg) | NEG
| FETCH_ADD (a l : bool) | FETCH_SUB (a l : bool) | EXCHANGE (a l : bool) | COMPARE_EXCHANGE_WEAK (a l : bool).

Definition fetchadd64_acquire_release (v : variant) : list insn :=
  match v with
  | X86 => [XADDQ]
  | Lse => [LDADD true true; MOV rval rold]
  | Exclusive => [LDXR true; ADD; STXR true rnewval; CBNZ 0; MOV rval rold]
  | Builtin => [FETCH_ADD true true]
  end.

Definition fetchadd64_acquire (v : variant) : list insn :=
  match v with
  | X86 => [XADDQ]
  | Lse => [LDADD true false; MOV rval rold]
  | Exclusive => [LDXR true; ADD; STXR false rnewval; CBNZ 0; MOV rval rold]
  | Builtin => [FETCH_ADD true false]
  end.

Definition fetchadd64_release (v : variant) : list insn :=
  match v with
  | X86 => [XADDQ]
  | Lse => [LDADD false true; MOV rval rold]
  | Exclusive => [LDXR false; ADD; STXR true rnewval; CBNZ 0; MOV rval rold]
  | Builtin => [FETCH_ADD false true]
  end.

Definition fetchadd64 (v : variant) : list insn :=
  match v with
  | X86 => [XADDQ]
  | Lse => [LDADD false false; MOV rval rold]
  | Exclusive => [LDXR false; ADD; STXR false rnewval; CBNZ 0; MOV rval rold]
  | Builtin => [FETCH_ADD false false]
  end.

Definition fetchsub64 (v : variant) : list insn :=
  match v with
  | X86 => [NEG; XADDQ]
  | Lse => [NEG; LDADD false false; MOV rval rold]
  | Exclusive => [LDXR false; SUB; STXR false rnewval; CBNZ 0; MOV rval rold]
  | Builtin => [FETCH_SUB false false]
  end.

Definition swap64 (v : variant) : list insn :=
  match v with
  | X86 => [XCHGQ]
  | Lse => [SWP true true; MOV rval rold]
  | Exclusive => [LDXR true; STXR true rval; CBNZ 0; MOV rval rold]
  | Builtin => [EXCHANGE true true]
  end.

(** The operand "0"(exp) of the x86 body puts the expected value into the register of
    [old]. *)
Definition cas64 (v : variant) : list insn :=
  match v with
  | X86 => [MOV rold rexp; CMPXCHGQ]
  | Lse => [MOV rold rexp; CAS false false]
  | Exclusive => [LDXR false; EOR; CBNZ 5; STXR false rval; CBNZ 0]
  | Builtin => [MOV rold rexp; COMPARE_EXCHANGE_WEAK false false]
  end.

Definition cas64_acquire (v : variant) : list insn :=
  match v with
  | X86 => [MOV rold rexp; CMPXCHGQ]
  | Lse => [MOV rold rexp; CAS true false]
  | Exclusive => [LDXR true; EOR; CBNZ 5; STXR false rval; CBNZ 0]
  | Builtin => [MOV rold rexp; COMPARE_EXCHANGE_WEAK true false]
  end.

Definition cas64_release (v : variant) : list insn :=
  match v with
  | X86 => [MOV rold rexp; CMPXCHGQ]
  | Lse => [MOV rold rexp; CAS false true]
  | Exclusive => [LDXR false; EOR; CBNZ 5; STXR true rval; CBNZ 0]
  | Builtin => [MOV rold rexp; COMPARE_EXCHANGE_WEAK false true]
  end.

Definition cas64_acquire_release (v : variant) : list insn :=
  match v with
  | X86 => [MOV rold rexp; CMPXCHGQ]
  | Lse => [MOV rold rexp; CAS true true]
  | Exclusive => [LDXR true; EOR; CBNZ 5; STXR true rval; CBNZ 0]
  | Builtin => [MOV rold rexp; COMPARE_EXCHANGE_WEAK true true]
  end.

(** ** The machine *)

(** The words of the memory, and the address each processor has marked with its last
    exclusive load. *)
Record amem := AMem { a_word : Z -> Z; a_monitor : Z -> option Z }.

(** A store takes the marks of its address away. *)
Definition store (m : amem) (p x : Z) : amem :=
  AMem (upd (a_word m) p x) (fun j => if decide (a_monitor m j = Some p) then None else a_monitor m j).
Definition mark (m : amem) (i : Z) (x : option Z) : amem := AMem (a_word m) (upd (a_monitor m) i x).

Inductive fn := Fetchadd (a l : bool) | Fetchsub | Swap | Cas64 (a l : bool).
Record call := Call { c_fn : fn; c_ptr : Z; c_val : Z; c_exp : Z }.

Definition code (v : variant) (f : fn) : list insn :=
  match f with
  | Fetchadd true true => fetchadd64_acquire_release v
  | Fetchadd true false => fetchadd64_acquire v
  | Fetchadd false true => fetchadd64_release v
  | Fetchadd false false => fetchadd64 v
  | Fetchsub => fetchsub64 v
  | Swap => swap64 v
  | Cas64 false false => cas64 v
  | Cas64 true false => cas64_acquire v
  | Cas64 false true => cas64_release v
  | Cas64 true true => cas64_acquire_release v
  end.

(** What the functions return. *)
Definition result (f : fn) (r : regs) : Z := match f with Cas64 _ _ => x_old r | _ => x_val r end.

(** One instruction of the processor [i] on the word at [p].  An exclusive store
    without a mark fails, and may fail with one; so may the weak builtin. *)
Definition exec (i p : Z) (ok : bool) (ins : insn) (pc : nat) (r : regs) (m : amem) : nat * regs * amem :=
  let w := a_word m p in
  match ins with
  | XADDQ | FETCH_ADD _ _ => (S pc, setr r rval w, store m p (u64 (w + x_val r)))
  | FETCH_SUB _ _ => (S pc, setr r rval w, store m p (u64 (w - x_val r)))
  | XCHGQ | EXCHANGE _ _ => (S pc, setr r rval w, store m p (x_val r))
  | CMPXCHGQ | CAS _ _ => (S pc, setr r rold w, if w =? x_old r then store m p (x_val r) else m)
  | COMPARE_EXCHANGE_WEAK _ _ => (S pc, setr r rold w, if (w =? x_old r) && ok then store m p (x_val r) else m)
  | LDADD _ _ => (S pc, setr r rold w, store m p (u64 (w + x_val r)))
  | SWP _ _ => (S pc, setr r rold w, store m p (x_val r))
  | LDXR _ => (S pc, setr r rold w, mark m i (Some p))
  | STXR _ src =>
      if bool_decide (a_monitor m i = Some p) && ok then (S pc, setr r rtmp 0, mark (store m p (getr r src)) i None)
      else (S pc, setr r rtmp 1, mark m i None)
  | ADD => (S pc, setr r rnewval (u64 (x_old r + x_val r)), m)
  | SUB => (S pc, setr r rnewval (u64 (x_old r - x_val r)), m)
  | EOR => (S pc, setr r rtmp (Z.lxor (x_old r) (x_exp r)), m)
  | CBNZ target => (if x_tmp r =? 0 then S pc else target, r, m)
  | MOV dst src => (S pc, setr r dst (getr r src), m)
  | NEG => (S pc, setr r rval (u64 (- x_val r)), m)
  end.

Inductive acpu := AIdle | ARun (c : call) (pc : nat) (r : regs).
Record asys := ASys { as_mem : amem; as_cpu : Z -> acpu }.

Inductive aevent := ECall (i : Z) (c : call) | EReturn (i x : Z).

(** A processor calls a function with registers of any content, runs an instruction,
    or returns. *)
Inductive astep (v : variant) : asys -> list aevent -> asys -> Prop :=
| astep_call i c o n t st :
    as_cpu st i = AIdle ->
    astep v st [ECall i c] (ASys (as_mem st) (upd (as_cpu st) i (ARun c 0 (Regs (c_val c) (c_exp c) o n t))))
| astep_exec i ok c pc r ins pc' r' m' st :
    as_cpu st i = ARun c pc r -> code v (c_fn c) !! pc = Some ins ->
    exec i (c_ptr c) ok ins pc r (as_mem st) = (pc', r', m') ->
    astep v st [] (ASys m' (upd (as_cpu st) i (ARun c pc' r')))
| astep_return i c pc r st :
    as_cpu st i = ARun c pc r -> code v (c_fn c) !! pc = None ->
    astep v st [EReturn i (result (c_fn c) r)] (ASys (as_mem st) (upd (as_cpu st) i AIdle)).

(** The runs from a memory of any content, with their calls and returns. *)
Inductive aruns (v : variant) (w : Z -> Z) : list aevent -> asys -> Prop :=
| aruns_init marks : aruns v w [] (ASys (AMem w marks) (fun _ => AIdle))
| aruns_next t st e st' : aruns v w t st -> astep v st e st' -> aruns v w (t ++ e) st'.

(** ** The contract: the functions happen at once *)

Definition effect (c : call) (old : Z) : Z :=
  match c_fn c with
  | Fetchadd _ _ => u64 (old + c_val c)
  | Fetchsub => u64 (old - c_val c)
  | Swap => c_val c
  | Cas64 _ _ => if old =? c_exp c then c_val c else old
  end.

Inductive spc := SIdle | SCalled (c : call) | SDone (c : call) (old : Z).
Record ssys := SSys { ss_word : Z -> Z; ss_pc : Z -> spc }.

(** Between its call and its return a function takes effect once, and it returns the
    value that the word had then. *)
Inductive sstep : ssys -> list aevent -> ssys -> Prop :=
| sstep_call i c st : ss_pc st i = SIdle -> sstep st [ECall i c] (SSys (ss_word st) (upd (ss_pc st) i (SCalled c)))
| sstep_effect i c st :
    ss_pc st i = SCalled c ->
    sstep st [] (SSys (upd (ss_word st) (c_ptr c) (effect c (ss_word st (c_ptr c)))) (upd (ss_pc st) i (SDone c (ss_word st (c_ptr c)))))
| sstep_return i c old st : ss_pc st i = SDone c old -> sstep st [EReturn i old] (SSys (ss_word st) (upd (ss_pc st) i SIdle)).

Inductive sruns (w : Z -> Z) : list aevent -> ssys -> Prop :=
| sruns_init : sruns w [] (SSys w (fun _ => SIdle))
| sruns_next t st e st' : sruns w t st -> sstep st e st' -> sruns w (t ++ e) st'.

(** ** Where a function is before and after its effect *)

(** While its mark stands, a processor has read what the word still holds. *)
Definition held (m : amem) (i : Z) (c : call) (r : regs) : Prop :=
  a_monitor m i = Some (c_ptr c) -> x_old r = a_word m (c_ptr c).

Definition before (v : variant) (m : amem) (i : Z) (c : call) (pc : nat) (r : regs) : Prop :=
  x_exp r = c_exp c /\
  match v, c_fn c, pc with
  | X86, Fetchsub, 1%nat | Lse, Fetchsub, 1%nat => x_val r = u64 (- c_val c)
  | _, _, 0%nat => x_val r = c_val c
  | Exclusive, Fetchadd _ _, 1%nat | Exclusive, Fetchsub, 1%nat | Exclusive, Swap, 1%nat => x_val r = c_val c /\ held m i c r
  | Exclusive, Fetchadd _ _, 2%nat | Exclusive, Fetchsub, 2%nat =>
      x_val r = c_val c /\ held m i c r /\ x_newval r = effect c (x_old r)
  | Exclusive, Fetchadd _ _, 3%nat | Exclusive, Fetchsub, 3%nat | Exclusive, Swap, 2%nat | Exclusive, Cas64 _ _, 4%nat =>
      x_val r = c_val c /\ x_tmp r = 1
  | Exclusive, Cas64 _ _, 1%nat | Exclusive, Cas64 _ _, 3%nat => x_val r = c_val c /\ held m i c r /\ x_old r = c_exp c
  | Exclusive, Cas64 _ _, 2%nat => x_val r = c_val c /\ held m i c r /\ x_old r = c_exp c /\ x_tmp r = 0
  | X86, Cas64 _ _, 1%nat | Lse, Cas64 _ _, 1%nat => x_val r = c_val c /\ x_old r = c_exp c
  | _, _, _ => False
  end.

Definition after (v : variant) (c : call) (pc : nat) (r : regs) (old : Z) : Prop :=
  match v, c_fn c, pc with
  | X86, Fetchadd _ _, 1%nat | X86, Swap, 1%nat | X86, Fetchsub, 2%nat => x_val r = old
  | Builtin, Fetchadd _ _, 1%nat | Builtin, Swap, 1%nat | Builtin, Fetchsub, 1%nat => x_val r = old
  | Lse, Fetchadd _ _, 1%nat | Lse, Swap, 1%nat | Lse, Fetchsub, 2%nat => x_old r = old
  | Lse, Fetchadd _ _, 2%nat | Lse, Swap, 2%nat | Lse, Fetchsub, 3%nat => x_val r = old
  | X86, Cas64 _ _, 2%nat | Lse, Cas64 _ _, 2%nat => x_old r = old
  | Exclusive, Fetchadd _ _, 3%nat | Exclusive, Fetchsub, 3%nat | Exclusive, Swap, 2%nat => x_old r = old /\ x_tmp r = 0
  | Exclusive, Fetchadd _ _, 4%nat | Exclusive, Fetchsub, 4%nat | Exclusive, Swap, 3%nat => x_old r = old
  | Exclusive, Fetchadd _ _, 5%nat | Exclusive, Fetchsub, 5%nat | Exclusive, Swap, 4%nat => x_val r = old
  | Exclusive, Cas64 _ _, 1%nat => x_old r = old /\ x_exp r = c_exp c /\ old <> c_exp c
  | Exclusive, Cas64 _ _, 2%nat => x_old r = old /\ x_tmp r <> 0
  | Exclusive, Cas64 _ _, 4%nat => x_old r = old /\ x_tmp r = 0
  | Exclusive, Cas64 _ _, 5%nat => x_old r = old
  | _, _, _ => False
  end.

(** The weak builtin does not keep the contract. *)
Definition strong (v : variant) (f : fn) : bool := match v, f with Builtin, Cas64 _ _ => false | _, _ => true end.

Definition cpu_rel (v : variant) (m : amem) (i : Z) (a : acpu) (s : spc) : Prop :=
  match a, s with
  | AIdle, SIdle => True
  | ARun c pc r, SCalled c' => c' = c /\ strong v (c_fn c) = true /\ before v m i c pc r
  | ARun c pc r, SDone c' old => c' = c /\ strong v (c_fn c) = true /\ after v c pc r old
  | _, _ => False
  end.

(** What another processor may do to a mark: take it away, but not change the word
    under it. *)
Lemma exec_others i p ok ins pc r m pc' r' m' j q :
  exec i p ok ins pc r m = (pc', r', m') -> j <> i -> a_monitor m' j = Some q -> a_monitor m j = Some q /\ a_word m' q = a_word m q.
Proof.
  intros E Hj H.
  assert (S : forall x, a_monitor (store m p x) j = Some q -> a_monitor m j = Some q /\ a_word (store m p x) q = a_word m q).
  { intros x. cbn. case_decide as D; [done|]. intros E'. split; [done|]. rewrite upd_other; [done|]. congruence. }
  assert (M : forall m0 x, a_monitor (mark m0 i x) j = a_monitor m0 j) by (intros; cbn; by rewrite upd_other).
  destruct ins; cbn [exec] in E; repeat case_match; simplify_eq; rewrite ?M in H; try done; by apply S in H.
Qed.

Lemma before_frame v m m' j c pc r :
  (forall q, a_monitor m' j = Some q -> a_monitor m j = Some q /\ a_word m' q = a_word m q) ->
  before v m j c pc r -> before v m' j c pc r.
Proof.
  intros F. assert (Hh : held m j c r -> held m' j c r) by (intros H [? E]%F; rewrite E; by apply H).
  unfold before. intros [He H]. split; [done|]. repeat case_match; naive_solver.
Qed.

Lemma neg_add old x : u64 (old + u64 (- x)) = u64 (old - x).
Proof. unfold u64. rewrite Zplus_mod_idemp_r. f_equal. Qed.

Lemma word_same (w : Z -> Z) p q x : x = w p -> w q = upd w p x q.
Proof. intros ->. unfold upd. by destruct (Z.eqb_spec q p) as [->|]. Qed.

(** Runs the instruction at a known place and splits on its tests. *)
Ltac at_insn :=
  repeat match goal with
  | H : _ !! _ = Some _ |- _ => progress cbn in H; injection H as <-
  | H : exec _ _ _ _ _ _ _ = _ |- _ => progress cbn in H
  | H : context [bool_decide ?P && ?b] |- _ => destruct (bool_decide_reflect P), b; cbn [andb] in H
  | H : context [if ?x =? ?y then _ else _] |- _ => destruct (Z.eqb_spec x y)
  | H : (_, _, _) = (_, _, _) |- _ => injection H as <- <- <-
  end.

(** An instruction before the effect has none on the memory, or is the effect. *)
Lemma exec_before v i ok c pc r ins m pc' r' m' :
  strong v (c_fn c) = true -> code v (c_fn c) !! pc = Some ins -> exec i (c_ptr c) ok ins pc r m = (pc', r', m') ->
  before v m i c pc r ->
  (before v m' i c pc' r' /\ forall q, a_word m' q = a_word m q) \/
  (after v c pc' r' (a_word m (c_ptr c)) /\ forall q, a_word m' q = upd (a_word m) (c_ptr c) (effect c (a_word m (c_ptr c))) q).
Proof.
  intros Hs Hc He [Hx H]. destruct c as [f p vl ex]. unfold before, after, held, effect in *. cbn [c_fn c_ptr c_val c_exp] in *.
  destruct v, f as [[] []| | |[] []], pc as [|[|[|[|[|pc]]]]]; cbn in Hs, H; try done; at_insn; cbn in *; destruct_and?; subst.
  all: try match goal with H : x_val _ = u64 _ |- _ => rewrite H, neg_add end.
  all: repeat match goal with
    | H : ?P -> _, e : ?P |- _ => specialize (H e)
    | |- context [if ?x =? ?y then _ else _] => destruct (Z.eqb_spec x y)
    end; try congruence.
  all: try (left; split_and!; (done || (intros; congruence) || (intros; by apply Z.lxor_eq_0_iff))).
  all: try (right; split_and!; (done || congruence || (intros q; (apply word_same; congruence) || (f_equal; congruence)))).
Qed.

(** An instruction after the effect leaves the memory alone. *)
Lemma exec_after v i ok c pc r ins m pc' r' m' old :
  code v (c_fn c) !! pc = Some ins -> exec i (c_ptr c) ok ins pc r m = (pc', r', m') ->
  after v c pc r old -> after v c pc' r' old /\ forall q, a_word m' q = a_word m q.
Proof.
  intros Hc He H. destruct c as [f p vl ex]. unfold after in *. cbn [c_fn c_ptr c_val c_exp] in *.
  destruct v, f as [[] []| | |[] []], pc as [|[|[|[|[|[|pc]]]]]]; cbn in H; try done; try (cbn in Hc; congruence);
    at_insn; cbn in *; destruct_and?; subst; try done.
  all: rewrite Z.lxor_eq_0_iff; split; [|done]; split; [done|congruence].
Qed.

(** No function returns before its effect, and it returns what it found. *)
Lemma return_after v m i c pc r s :
  code v (c_fn c) !! pc = None -> cpu_rel v m i (ARun c pc r) s -> s = SDone c (result (c_fn c) r).
Proof.
  intros Hc H. destruct c as [f p vl ex]. destruct s as [|c' |c' old]; [done|exfalso|]; destruct H as (-> & Hs & H).
  - destruct H as [_ H]. cbn [c_fn c_ptr c_val c_exp] in *.
    destruct v, f as [[] []| | |[] []], pc as [|[|[|[|[|pc]]]]]; cbn in Hs, H, Hc; try done.
  - f_equal. unfold after in H. cbn [c_fn c_ptr c_val c_exp] in *.
    destruct v, f as [[] []| | |[] []], pc as [|[|[|[|[|[|pc]]]]]]; cbn in H, Hc; try done; cbn; naive_solver.
Qed.

Definition sim (v : variant) (st : asys) (s : ssys) : Prop :=
  (forall q, ss_word s q = a_word (as_mem st) q) /\ forall i, cpu_rel v (as_mem st) i (as_cpu st i) (ss_pc s i).

Lemma cpu_rel_others v i p ok ins pc r m pc' r' m' j a s :
  exec i p ok ins pc r m = (pc', r', m') -> j <> i -> cpu_rel v m j a s -> cpu_rel v m' j a s.
Proof.
  intros He Hj. destruct a, s; try done. intros (E & Hs & H). split_and!; [done..|].
  eapply before_frame; [|exact H]. intros q. by apply (exec_others _ _ _ _ _ _ _ _ _ _ _ _ He).
Qed.

(** The calls of the weak builtin are the ones that are left out. *)
Definition strong_event (v : variant) (e : aevent) : Prop := match e with ECall _ c => strong v (c_fn c) = true | _ => True end.

(** Every step of the machine is at most one step of the contract. *)
Lemma astep_sim v st e st' s :
  astep v st e st' -> Forall (strong_event v) e -> sim v st s ->
  (e = [] /\ sim v st' s) \/ exists s', sstep s e s' /\ sim v st' s'.
Proof.
  intros Hstep Hev [Hw Hc]. destruct Hstep as [i c o n t st Hi|i ok c pc r ins pc' r' m' st Hi Hins He|i c pc r st Hi Hins].
  - right. specialize (Hc i) as Hci. rewrite Hi in Hci. destruct (ss_pc s i) eqn:Es; [|done..]. eexists. split; [by apply sstep_call|].
    split; [done|]. intros j. cbn. destruct (decide (j = i)) as [->|N]; [|rewrite !upd_other by done; apply Hc]. rewrite !upd_same.
    apply list.Forall_cons in Hev as [Hev _]. split_and!; [done..|]. split; [done|]. by destruct v, (c_fn c).
  - specialize (Hc i) as Hci. rewrite Hi in Hci.
    assert (Ho : forall s', (forall j, j <> i -> ss_pc s' j = ss_pc s j) -> (forall q, ss_word s' q = a_word m' q) ->
      cpu_rel v m' i (ARun c pc' r') (ss_pc s' i) -> sim v (ASys m' (upd (as_cpu st) i (ARun c pc' r'))) s').
    { intros s' E1 E2 E3. split; [done|]. intros j. cbn. destruct (decide (j = i)) as [->|N]; [by rewrite upd_same|].
      rewrite upd_other, E1 by done. by apply (cpu_rel_others v _ _ _ _ _ _ _ _ _ _ j _ _ He N). }
    destruct (ss_pc s i) as [|c'|c' old] eqn:Es; [done|..]; destruct Hci as (-> & Hs & H).
    + destruct (exec_before _ _ _ _ _ _ _ _ _ _ _ Hs Hins He H) as [[B E]|[A E]]; [left|right].
      * split; [done|]. apply Ho; [done|intros q; by rewrite E, Hw|]. by rewrite Es.
      * eexists. split; [by apply (sstep_effect i c)|]. apply Ho; cbn; [intros; by rewrite upd_other| |rewrite upd_same, Hw; done].
        intros q. rewrite E, Hw. unfold upd. case_match; [done|apply Hw].
    + left. split; [done|]. destruct (exec_after _ _ _ _ _ _ _ _ _ _ _ _ Hins He H) as [A E].
      apply Ho; [done|intros q; by rewrite E, Hw|]. by rewrite Es.
  - right. specialize (Hc i) as Hci. rewrite Hi in Hci. eexists. split; [apply (sstep_return i c); by eapply return_after|].
    split; [done|]. intros j. cbn. destruct (decide (j = i)) as [->|N]; [by rewrite !upd_same|]. rewrite !upd_other by done. apply Hc.
Qed.


(** ** Runs that are computed *)

Inductive action := ACall (i : Z) (c : call) | AExec (i : Z) (ok : bool) | AReturn (i : Z).

Definition act (v : variant) (a : action) (st : asys) : option (list aevent * asys) :=
  match a with
  | ACall i c =>
      match as_cpu st i with
      | AIdle => Some ([ECall i c], ASys (as_mem st) (upd (as_cpu st) i (ARun c 0 (Regs (c_val c) (c_exp c) 0 0 0))))
      | _ => None
      end
  | AExec i ok =>
      match as_cpu st i with
      | ARun c pc r =>
          match code v (c_fn c) !! pc with
          | Some ins => let '(pc', r', m') := exec i (c_ptr c) ok ins pc r (as_mem st) in Some ([], ASys m' (upd (as_cpu st) i (ARun c pc' r')))
          | None => None
          end
      | AIdle => None
      end
  | AReturn i =>
      match as_cpu st i with
      | ARun c pc r =>
          match code v (c_fn c) !! pc with
          | None => Some ([EReturn i (result (c_fn c) r)], ASys (as_mem st) (upd (as_cpu st) i AIdle))
          | Some _ => None
          end
      | AIdle => None
      end
  end.

Fixpoint acts (v : variant) (l : list action) (t : list aevent) (st : asys) : option (list aevent * asys) :=
  match l with
  | [] => Some (t, st)
  | a :: l => match act v a st with Some (e, st') => acts v l (t ++ e) st' | None => None end
  end.

Lemma act_step v a st e st' : act v a st = Some (e, st') -> astep v st e st'.
Proof. destruct a; cbn; repeat case_match; intros; simplify_eq; by econstructor. Qed.

Lemma acts_run v w l t st t' st' : acts v l t st = Some (t', st') -> aruns v w t st -> aruns v w t' st'.
Proof.
  revert t st. induction l as [|a l IH]; cbn; intros t st E R; [by simplify_eq|]. destruct (act v a st) as [[e s]|] eqn:Ea; [|done].
  eapply IH; [exact E|]. econstructor; [exact R|]. by apply (act_step _ a).
Qed.

Definition start (x : Z) : asys := ASys (AMem (fun _ => x) (fun _ => None)) (fun _ => AIdle).

(** Two processors add to the same word; the exclusive store of the first comes after
    the one of the second and fails. *)
Definition contended : list action :=
  [ACall 0 (Call (Fetchadd true true) 8 2 0); ACall 1 (Call (Fetchadd false false) 8 5 0); AExec 0 true] ++ repeat (AExec 1 true) 5 ++
  [AReturn 1] ++ repeat (AExec 0 true) 8 ++ [AReturn 0].

Definition contended_trace : list aevent :=
  [ECall 0 (Call (Fetchadd true true) 8 2 0); ECall 1 (Call (Fetchadd false false) 8 5 0); EReturn 1 10; EReturn 0 15].

(** A computed run is a run. *)
Lemma acts_runs v x l t q y :
  option_map (fun r => (fst r, a_word (as_mem (snd r)) q)) (acts v l [] (start x)) = Some (t, y) ->
  exists st, aruns v (fun _ => x) t st /\ a_word (as_mem st) q = y.
Proof.
  destruct (acts v l [] (start x)) as [[t' st]|] eqn:E; [|done]. intros [= <- <-]. exists st. split; [|done].
  eapply acts_run; [exact E|apply aruns_init].
Qed.


(** ** The compare and swap of the compiler *)

(** The runs of the contract with one call of the processor 0 at most. *)
Definition one_call (w : Z -> Z) (c : call) (t : list aevent) (s : ssys) : Prop :=
  match t with
  | [] => (forall i, ss_pc s i = SIdle) /\ ss_word s (c_ptr c) = w (c_ptr c)
  | [ECall 0 c'] =>
      c' = c -> (forall i, i <> 0 -> ss_pc s i = SIdle) /\
      (ss_pc s 0 = SCalled c /\ ss_word s (c_ptr c) = w (c_ptr c) \/
       ss_pc s 0 = SDone c (w (c_ptr c)) /\ ss_word s (c_ptr c) = effect c (w (c_ptr c)))
  | [ECall 0 c'; EReturn 0 _] => c' = c -> (forall i, ss_pc s i = SIdle) /\ ss_word s (c_ptr c) = effect c (w (c_ptr c))
  | _ => True
  end.

Lemma one_call_runs w c t s : sruns w t s -> one_call w c t s.
Proof.
  induction 1 as [|t st e st' R IH Hs]; [done|].
  destruct Hs as [i c' st Hi|i c' st Hi|i c' old st Hi].
  - destruct t as [|e1 [|e2 [|e3 t]]]; cbn in *; [|by repeat case_match..].
    destruct i; [|done..]. intros ->. destruct IH as [IH1 IH2]. split; [intros j Hj; rewrite upd_other by done; apply IH1|].
    left. by rewrite upd_same.
  - rewrite app_nil_r. destruct t as [|[[] c1|] [|[|[]] [|]]]; cbn in *; try done; [destruct IH as [IH _]; by rewrite IH in Hi|..]; intros ->;
      destruct (IH eq_refl) as [IH1 IH2]; [|by rewrite IH1 in Hi].
    destruct (decide (i = 0)) as [->|N]; [|by rewrite IH1 in Hi]. split; [intros j Hj; rewrite upd_other by done; by apply IH1|].
    destruct IH2 as [[E1 E2]|[E1 _]]; rewrite E1 in Hi; [|done]. injection Hi as <-. right. rewrite !upd_same, E2. done.
  - destruct t as [|[[] c1|] [|e2 t]]; cbn in *; try done; [|by destruct e2 as [|[] ?], t].
    destruct i; try done. intros ->. destruct (IH eq_refl) as [IH1 [[IH2 _]|[_ IH2]]]; [congruence|]. split; [|done].
    intros j. destruct (decide (j = 0)) as [->|N]; [by rewrite upd_same|]. rewrite upd_other by done. by apply IH1.
Qed.

(** The compare and swap of the compiler reports a failure as a success.  The builtin
    is called in its weak form, which may fail when the word is the expected one: the
    function returns the expected value, and the word has not changed.  No run of the
    contract has this outcome. *)
Theorem weak_cas_hides_failure :
  let t := [ECall 0 (Call (Cas64 true true) 8 7 5); EReturn 0 5] in
  (exists st, aruns Builtin (fun _ => 5) t st /\ a_word (as_mem st) 8 = 5) /\
  (forall s, sruns (fun _ => 5) t s -> ss_word s 8 = 7).
Proof.
  intros t. split.
  - apply (acts_runs Builtin 5 [ACall 0 (Call (Cas64 true true) 8 7 5); AExec 0 true; AExec 0 false; AReturn 0]). vm_compute. reflexivity.
  - intros s R. by apply (one_call_runs _ (Call (Cas64 true true) 8 7 5)) in R as [_ R].
Qed.

(** ** Progress *)

(** The processor [i] goes on alone, and its exclusive stores fail only without a mark. *)
Fixpoint solo (v : variant) (i : Z) (c : call) (n : nat) (pc : nat) (r : regs) (m : amem) : option (regs * amem) :=
  match code v (c_fn c) !! pc with
  | None => Some (r, m)
  | Some ins =>
      match n with
      | O => None
      | S n => let '(pc, r, m) := exec i (c_ptr c) true ins pc r m in solo v i c n pc r m
      end
  end.

Lemma solo_end v i c n pc r m : code v (c_fn c) !! pc = None -> exists x, solo v i c n pc r m = Some x.
Proof. intros E. exists (r, m). by destruct n; cbn; rewrite E. Qed.

Lemma solo_step v i c n pc r m ins :
  code v (c_fn c) !! pc = Some ins ->
  solo v i c (S n) pc r m = let '(pc, r, m) := exec i (c_ptr c) true ins pc r m in solo v i c n pc r m.
Proof. intros E. cbn. by rewrite E. Qed.

(** The next instructions, on every way through the tests. *)
Ltac run_solo :=
  repeat first
  [ by apply solo_end
  | erewrite solo_step by reflexivity; cbn [exec c_ptr getr setr x_tmp mark store a_monitor]
  | match goal with
    | |- context [bool_decide ?P && true] => first [rewrite (bool_decide_eq_true_2 P) by apply upd_same|destruct (bool_decide P)]; cbn [andb x_tmp]
    | |- context [if ?x =? 0 then _ else _] => destruct (x =? 0)
    end ].

(** From the start no store fails. *)
Lemma solo_start v i c n r m : (5 <= n)%nat -> exists x, solo v i c n 0 r m = Some x.
Proof.
  intros Hn. replace n with (S (S (S (S (S (n - 5)))))) by lia. generalize (n - 5)%nat as k. intros k.
  destruct c as [f p vl ex]. destruct v, f as [[] []| | |[] []]; run_solo.
Qed.

(** A function that is left alone returns.  From wherever the others have left it,
    with or without its mark, it does at most nine more instructions. *)
Theorem atomics_return (v : variant) (i : Z) (c : call) (pc : nat) (r : regs) (m : amem) :
  exists r' m', solo v i c 9 pc r m = Some (r', m').
Proof.
  enough (exists x, solo v i c 9 pc r m = Some x) as [[r' m'] E] by by exists r', m'.
  destruct pc as [|pc]; [apply solo_start; lia|]. destruct c as [f p vl ex].
  destruct v, f as [[] []| | |[] []], pc as [|[|[|[|pc]]]]; run_solo; apply solo_start; lia.
Qed.
