(* ===== verification/SenseBarrier.v ===== *)
(** The barrier of the lock benchmark: [synchronize_threads] of
    src/lupin_lock_benchmark/atomics.h, as a program of accesses to the barrier's word
    that a fixed number of threads run again and again.  The word counts the threads
    that have arrived, in steps of two, below the bit that tells the rounds apart. *)
From Stdlib Require Import ZArith Lia Bool.
From stdpp Require Import base list numbers.
From S2P Require Import Prelude TatasLock Atomics.
Local Open Scope Z_scope.

Definition SENSE_BIT_MASK : Z := 0x1000000000000000.

(** Where a thread is: outside, before the addition, before the store that opens the
    barrier, or in [wait32]. *)
Inductive bpc := BIdle | BArrive (global_sense : Z) | BOpen (tmp_sense : Z) | BWait (local_sense : Z).

Definition tmp_sense (global_sense : Z) : Z := Z.land (u64 (Z.lnot global_sense)) SENSE_BIT_MASK.
Definition local_sense (tmp_sense : Z) : Z := u32 (Z.shiftr tmp_sense 32).

(** One look of [wait32] at the upper half of the word. *)
Definition wait32 (word val : Z) : bool := u32 (Z.shiftr word 32) =? val.

(** The addition of [fetchadd64_acquire], by the contract of that function. *)
Definition fetchadd (word val : Z) : Z := effect (Call (Fetchadd true false) 0 val 0) word.

Definition synchronize_threads (nthrds : Z) (p : bpc) (barrier : Z) : bpc * Z :=
  match p with
  | BIdle => (BArrive (Z.land barrier SENSE_BIT_MASK), barrier)
  | BArrive gs =>
      (if barrier =? Z.lor (u64 (u64 (nthrds - 1) * 2)) gs then BOpen (tmp_sense gs) else BWait (local_sense (tmp_sense gs)),
       fetchadd barrier 2)
  | BOpen ts => (BIdle, ts)
  | BWait ls => (if wait32 barrier ls then BIdle else BWait ls, barrier)
  end.

Section Barrier.
Context (n : Z).

(** The system, with the number of rounds each thread has been through. *)
Record bsys := BSys { b_word : Z; b_pc : Z -> bpc; b_round : Z -> Z }.

Definition leaves (p p' : bpc) : bool := match p, p' with BOpen _, BIdle | BWait _, BIdle => true | _, _ => false end.

Definition bthread (i : Z) (st : bsys) : bsys :=
  let '(p', w') := synchronize_threads n (b_pc st i) (b_word st) in
  BSys w' (upd (b_pc st) i p') (upd (b_round st) i (b_round st i + if leaves (b_pc st i) p' then 1 else 0)).

Inductive breachable : bsys -> Prop :=
| breachable_init : breachable (BSys 0 (fun _ => BIdle) (fun _ => 0))
| breachable_step i st : breachable st -> 0 <= i < n -> breachable (bthread i st).
End Barrier.

(** ** Counting threads *)

Fixpoint count (f : Z -> bool) (n : nat) : Z :=
  match n with O => 0 | S n => count f n + if f (Z.of_nat n) then 1 else 0 end.

Lemma count_ext f g n : (forall i, 0 <= i < Z.of_nat n -> f i = g i) -> count f n = count g n.
Proof.
  induction n as [|n IH]; cbn [count]; intros H; [done|]. rewrite IH by (intros; apply H; lia). by rewrite (H (Z.of_nat n)) by lia.
Qed.

Lemma count_upd f n i : 0 <= i < Z.of_nat n -> f i = false -> count (upd f i true) n = count f n + 1.
Proof.
  induction n as [|n IH]; [lia|]. intros Hi Hf. cbn [count]. destruct (decide (i = Z.of_nat n)) as [->|N].
  - rewrite upd_same, Hf. rewrite (count_ext _ f); [lia|]. intros j Hj. apply upd_other. lia.
  - rewrite IH by (done || lia). rewrite upd_other by lia. lia.
Qed.

Lemma count_range f n : 0 <= count f n <= Z.of_nat n.
Proof. induction n; cbn [count]; [lia|]. case_match; lia. Qed.

Lemma count_all f n : count f n = Z.of_nat n <-> forall i, 0 <= i < Z.of_nat n -> f i = true.
Proof.
  induction n as [|n IH]; cbn [count]; [split; [lia|done]|]. pose proof (count_range f n) as R. destruct (f (Z.of_nat n)) eqn:E; split.
  - intros H i Hi. destruct (decide (i = Z.of_nat n)) as [->|N]; [done|]. apply IH; lia.
  - intros H. rewrite (proj2 IH); [lia|]. intros i Hi. apply H. lia.
  - lia.
  - intros H. rewrite H in E by lia. done.
Qed.

Lemma count_none f n : (forall i, 0 <= i < Z.of_nat n -> f i = false) -> count f n = 0.
Proof. induction n as [|n IH]; cbn [count]; intros H; [done|]. rewrite IH, H; [done|lia|]. intros i Hi. apply H. lia. Qed.

Lemma not_all_arrived n f : count f n <> Z.of_nat n -> exists i, 0 <= i < Z.of_nat n /\ f i = false.
Proof.
  intros H. destruct (decide (Forall (fun i => f i = true) (seqZ 0 (Z.of_nat n)))) as [D|D].
  - exfalso. apply H, count_all. intros i Hi. rewrite list.Forall_forall in D. apply D, elem_of_seqZ. lia.
  - apply not_Forall_Exists, list.Exists_exists in D as (i & Hi & E); [|apply _]. apply elem_of_seqZ in Hi. exists i. split; [lia|].
    by apply not_true_is_false.
Qed.

(** ** The word *)

Definition sense (e : Z) : Z := if Z.odd e then SENSE_BIT_MASK else 0.

Lemma sense_next e : tmp_sense (sense e) = sense (e + 1).
Proof. unfold sense. rewrite Z.add_1_r, Z.odd_succ, <- Z.negb_odd. by destruct (Z.odd e). Qed.

Lemma sense_lor e k : 0 <= k < 2 ^ 32 -> Z.lor k (sense e) = k + sense e.
Proof.
  intros H. unfold sense. destruct (Z.odd e); [|by rewrite Z.lor_0_r, Z.add_0_r].
  change SENSE_BIT_MASK with (Z.shiftl 1 60). rewrite Z.lor_comm, lor_shiftl_add by lia. rewrite Z.shiftl_mul_pow2; lia.
Qed.

Lemma sense_land e k : 0 <= k < 2 ^ 32 -> Z.land (k + sense e) SENSE_BIT_MASK = sense e.
Proof.
  intros H. rewrite <- sense_lor by done. rewrite Z.land_lor_distr_l.
  replace (Z.land k SENSE_BIT_MASK) with 0; [by unfold sense; destruct (Z.odd e)|]. symmetry. apply Z.bits_inj_0. intros j. rewrite Z.land_spec.
  change SENSE_BIT_MASK with (2 ^ 60). destruct (Z.ltb_spec j 0) as [Hj|Hj]; [by rewrite Z.testbit_neg_r|].
  rewrite Z.pow2_bits_eqb by lia. destruct (Z.eqb_spec 60 j) as [<-|]; [|by rewrite andb_false_r]. by rewrite (testbit_above k 32).
Qed.

Lemma sense_high e k : 0 <= k < 2 ^ 32 -> u32 (Z.shiftr (k + sense e) 32) = local_sense (sense e).
Proof.
  intros H. unfold local_sense. rewrite !Z.shiftr_div_pow2 by lia. unfold sense. destruct (Z.odd e); [|by rewrite Z.add_0_r, Z.div_small].
  replace SENSE_BIT_MASK with (2 ^ 28 * 2 ^ 32) by done. rewrite Z.div_add, Z.div_mul, (Z.div_small k) by lia. done.
Qed.

Lemma wait_sense e e' k : 0 <= k < 2 ^ 32 -> wait32 (k + sense e) (local_sense (sense e')) = Bool.eqb (Z.odd e) (Z.odd e').
Proof. intros H. unfold wait32. rewrite sense_high by done. unfold sense. by destruct (Z.odd e), (Z.odd e'). Qed.

Lemma sense_range e : 0 <= sense e <= 2 ^ 60.
Proof. unfold sense. by destruct (Z.odd e). Qed.

(** ** The rounds *)

Section Rounds.
Context (n : nat).
Hypothesis threads : 1 <= Z.of_nat n < 2 ^ 31.

Definition inside_barrier (p : bpc) : bool := match p with BOpen _ | BWait _ => true | _ => false end.
Definition arrived (st : bsys) (e i : Z) : bool := (b_round st i =? e) && inside_barrier (b_pc st i).

(** What the place of a thread says in the round [e]. *)
Definition bplace_ok (st : bsys) (e i : Z) : Prop :=
  match b_pc st i with
  | BIdle => b_round st i = e
  | BArrive gs => b_round st i = e /\ gs = sense e
  | BOpen ts => b_round st i = e /\ ts = sense (e + 1) /\ count (arrived st e) n = Z.of_nat n
  | BWait ls => (b_round st i = e /\ ls = local_sense (sense (e + 1))) \/ (b_round st i = e - 1 /\ ls = local_sense (sense e))
  end.

Definition opens (p : bpc) : bool := match p with BOpen _ => true | _ => false end.

Record binv (st : bsys) (e : Z) : Prop := {
  bi_word : b_word st = 2 * count (arrived st e) n + sense e;
  bi_place i : 0 <= i < Z.of_nat n -> bplace_ok st e i;
  bi_unique i j : 0 <= i < Z.of_nat n -> 0 <= j < Z.of_nat n -> opens (b_pc st i) = true -> opens (b_pc st j) = true -> j = i;
  bi_open : count (arrived st e) n = Z.of_nat n -> exists j, 0 <= j < Z.of_nat n /\ opens (b_pc st j) = true }.

Lemma binv_init : binv (BSys 0 (fun _ => BIdle) (fun _ => 0)) 0.
Proof using threads.
  assert (C : count (arrived (BSys 0 (fun _ => BIdle) (fun _ => 0)) 0) n = 0) by by apply count_none.
  constructor; [by rewrite C|done|done|rewrite C; lia].
Qed.

(** A step that neither arrives nor opens. *)
Lemma binv_keep st st' e i :
  binv st e -> b_word st' = b_word st -> (forall j, j <> i -> b_pc st' j = b_pc st j /\ b_round st' j = b_round st j) ->
  arrived st' e i = arrived st e i -> opens (b_pc st' i) = false -> opens (b_pc st i) = false -> bplace_ok st' e i -> binv st' e.
Proof using.
  intros I Hw Ho Ha Hn1 Hn2 Hi.
  assert (A : forall j, arrived st' e j = arrived st e j).
  { intros j. destruct (decide (j = i)) as [->|N]; [done|]. unfold arrived. destruct (Ho j N) as [-> ->]. done. }
  assert (C : count (arrived st' e) n = count (arrived st e) n) by (apply count_ext; intros; apply A).
  assert (P : forall j, opens (b_pc st' j) = opens (b_pc st j)).
  { intros j. destruct (decide (j = i)) as [->|N]; [congruence|]. by destruct (Ho j N) as [-> _]. }
  constructor.
  - rewrite Hw, C. apply (bi_word _ _ I).
  - intros j Hj. destruct (decide (j = i)) as [->|N]; [done|]. pose proof (bi_place _ _ I j Hj) as Q. unfold bplace_ok in *.
    destruct (Ho j N) as [-> ->]. rewrite C. done.
  - intros j k Hj Hk. rewrite !P. by apply (bi_unique _ _ I).
  - rewrite C. intros H. destruct (bi_open _ _ I H) as (j & Hj & E). exists j. by rewrite P.
Qed.

Section Step.
Context (st : bsys) (e i : Z).
Hypothesis I : binv st e.
Hypothesis Hi : 0 <= i < Z.of_nat n.

Lemma count_word : 0 <= 2 * count (arrived st e) n < 2 ^ 32.
Proof using threads. pose proof (count_range (arrived st e) n). lia. Qed.

Lemma count_below : inside_barrier (b_pc st i) = false -> count (arrived st e) n < Z.of_nat n.
Proof using Hi.
  intros H. pose proof (count_range (arrived st e) n). enough (count (arrived st e) n <> Z.of_nat n) by lia. rewrite count_all. intros A.
  specialize (A i Hi). unfold arrived in A. rewrite H, andb_false_r in A. done.
Qed.

(** The thread that arrives last opens the barrier, and it alone. *)
Lemma binv_arrive gs : b_pc st i = BArrive gs -> binv (bthread (Z.of_nat n) i st) e.
Proof using I Hi threads.
  intros E. pose proof count_word as R. pose proof (bi_place _ _ I i Hi) as P. unfold bplace_ok in P. rewrite E in P. destruct P as [Hr ->].
  assert (K : count (arrived st e) n < Z.of_nat n) by (apply count_below; by rewrite E).
  assert (N : forall j, 0 <= j < Z.of_nat n -> opens (b_pc st j) = false).
  { intros j Hj. pose proof (bi_place _ _ I j Hj) as P. unfold bplace_ok in P. destruct (b_pc st j); try done. lia. }
  unfold bthread, synchronize_threads. rewrite E, (bi_word _ _ I), sense_next, (u64_small (_ - 1)), (u64_small (_ * 2)), sense_lor by lia.
  pose proof (sense_range e) as Sr.
  assert (Ew : fetchadd (2 * count (arrived st e) n + sense e) 2 = 2 * (count (arrived st e) n + 1) + sense e).
  { unfold fetchadd, effect. cbn [c_fn c_val]. rewrite u64_small; lia. }
  rewrite Ew. set (p := if _ =? _ then _ else _).
  assert (Hp : inside_barrier p = true /\ leaves (BArrive (sense e)) p = false) by (unfold p; by destruct (_ =? _)). destruct Hp as [Hp1 Hp2].
  set (st' := BSys _ _ _).
  assert (C : count (arrived st' e) n = count (arrived st e) n + 1).
  { rewrite <- (count_upd _ n i Hi); [|unfold arrived; by rewrite E, andb_false_r]. apply count_ext. intros j Hj. unfold arrived, st'. cbn.
    destruct (decide (j = i)) as [->|Nj]; [|by rewrite !upd_other]. rewrite !upd_same, Hr, Hp1. by rewrite Z.add_0_r, Z.eqb_refl. }
  assert (O : forall j, 0 <= j < Z.of_nat n -> opens (b_pc st' j) = true -> j = i /\ count (arrived st e) n + 1 = Z.of_nat n).
  { intros j Hj. cbn. destruct (decide (j = i)) as [->|Nj]; [|rewrite upd_other by done; by rewrite N]. rewrite upd_same.
    unfold p. destruct (Z.eqb_spec (2 * count (arrived st e) n + sense e) ((Z.of_nat n - 1) * 2 + sense e)); [|done]. intros _. split; [done|lia]. }
  constructor.
  - rewrite C. done.
  - intros j Hj. unfold bplace_ok. rewrite C. cbn. destruct (decide (j = i)) as [->|Nj].
    + rewrite !upd_same. unfold p. destruct (Z.eqb_spec (2 * count (arrived st e) n + sense e) ((Z.of_nat n - 1) * 2 + sense e)); cbn [leaves].
      * split_and!; [lia|done|lia].
      * left. split; [lia|done].
    + rewrite !upd_other by done. pose proof (bi_place _ _ I j Hj) as P. unfold bplace_ok in P. specialize (N j Hj). by destruct (b_pc st j).
  - intros j k Hj Hk Oj Ok. destruct (O j Hj Oj), (O k Hk Ok). congruence.
  - rewrite C. intros Hn. exists i. split; [done|]. cbn. rewrite upd_same. unfold p. by rewrite (proj2 (Z.eqb_eq _ _)) by lia.
Qed.

(** The store starts the next round; the others have still to notice. *)
Lemma binv_opened ts : b_pc st i = BOpen ts -> binv (bthread (Z.of_nat n) i st) (e + 1).
Proof using I Hi threads.
  intros E. pose proof (bi_place _ _ I i Hi) as P. unfold bplace_ok in P. rewrite E in P. destruct P as (Hr & -> & Hall).
  unfold bthread, synchronize_threads. rewrite E. cbn [leaves]. set (st' := BSys _ _ _).
  assert (A : forall j, 0 <= j < Z.of_nat n -> j <> i -> b_round st j = e /\ b_pc st j = BWait (local_sense (sense (e + 1)))).
  { intros j Hj Nj. pose proof (proj1 (count_all _ _) Hall j Hj) as Aj. unfold arrived in Aj. apply andb_prop in Aj as [Rj Aj].
    apply Z.eqb_eq in Rj. split; [done|]. pose proof (bi_place _ _ I j Hj) as P. unfold bplace_ok in P.
    destruct (b_pc st j) eqn:Ej; try done; [|destruct P as [[_ ->]|[? _]]; [done|lia]].
    exfalso. apply Nj. apply (bi_unique _ _ I i j Hi Hj); [by rewrite E|by rewrite Ej]. }
  assert (C : count (arrived st' (e + 1)) n = 0).
  { apply count_none. intros j Hj. unfold arrived. cbn. destruct (decide (j = i)) as [->|Nj]; [by rewrite !upd_same, andb_false_r|].
    rewrite !upd_other by done. destruct (A j Hj Nj) as [-> _]. by rewrite (proj2 (Z.eqb_neq _ _)) by lia. }
  constructor; [by rewrite C| | |rewrite C; lia].
  - intros j Hj. unfold bplace_ok. cbn. destruct (decide (j = i)) as [->|Nj]; [rewrite !upd_same; lia|].
    rewrite !upd_other by done. destruct (A j Hj Nj) as [-> ->]. right. split; [lia|done].
  - intros j k Hj Hk. cbn. destruct (decide (j = i)) as [->|Nj]; [by rewrite upd_same|]. rewrite upd_other by done.
    by destruct (A j Hj Nj) as [_ ->].
Qed.

Lemma binv_step : exists e', binv (bthread (Z.of_nat n) i st) e'.
Proof using I Hi threads.
  pose proof count_word as R. pose proof (bi_place _ _ I i Hi) as P. destruct (b_pc st i) as [|gs|ts|ls] eqn:E.
  2: { exists e. by apply (binv_arrive gs). }
  2: { exists (e + 1). by apply (binv_opened ts). }
  all: exists e; apply (binv_keep st _ e i I); unfold bplace_ok in *; rewrite E in P; unfold bthread, synchronize_threads; rewrite E; cbn;
    [done|intros j Nj; rewrite !upd_other by congruence; split; reflexivity|..]; rewrite ?upd_same, ?(bi_word _ _ I).
  - unfold arrived. cbn. by rewrite !upd_same, E, !andb_false_r.
  - reflexivity.
  - reflexivity.
  - rewrite sense_land by exact R. split; [lia|reflexivity].
  - unfold arrived. cbn. rewrite !upd_same, E. destruct P as [[Hr ->]|[Hr ->]]; rewrite wait_sense by exact R; cbn.
    + rewrite Z.add_1_r, Z.odd_succ, <- Z.negb_odd. destruct (Z.odd e); cbn; by rewrite Z.add_0_r.
    + rewrite Bool.eqb_reflx. cbn. rewrite andb_false_r, Hr, (proj2 (Z.eqb_neq _ _)) by lia. done.
  - by destruct (wait32 _ _).
  - reflexivity.
  - destruct P as [[Hr ->]|[Hr ->]]; rewrite wait_sense by exact R.
    + rewrite Z.add_1_r, Z.odd_succ, <- Z.negb_odd. destruct (Z.odd e); cbn; left; (split; [lia|reflexivity]).
    + rewrite Bool.eqb_reflx. cbn. lia.
Qed.
End Step.

Lemma breachable_inv st : breachable (Z.of_nat n) st -> exists e, binv st e.
Proof using threads. induction 1 as [|i st _ [e IH] Hi]; [exists 0; apply binv_init|]. by apply (binv_step st e). Qed.
End Rounds.

(** No thread leaves a round of the barrier before every thread has arrived in it.  A
    thread that has been through more rounds than another is ahead by one, and the
    other one is inside the barrier, from which its next look lets it go: a thread that
    runs through the barrier again cannot make it miss the opening. *)
Theorem barrier_separates_rounds (nthrds : Z) (st : bsys) (i j : Z) :
  1 <= nthrds < 2 ^ 31 -> breachable nthrds st -> 0 <= i < nthrds -> 0 <= j < nthrds -> b_round st j < b_round st i ->
  b_round st i = b_round st j + 1 /\ inside_barrier (b_pc st j) = true /\
  fst (synchronize_threads nthrds (b_pc st j) (b_word st)) = BIdle.
Proof.
  intros Hn R Hi Hj Hlt. replace nthrds with (Z.of_nat (Z.to_nat nthrds)) in * by lia. set (n := Z.to_nat nthrds) in *.
  destruct (breachable_inv n Hn st R) as [e I]. pose proof (bi_place _ _ _ I i Hi) as Pi. pose proof (bi_place _ _ _ I j Hj) as Pj.
  assert (Ei : b_round st i <= e) by (unfold bplace_ok in Pi; destruct (b_pc st i); lia).
  unfold bplace_ok in Pj. destruct (b_pc st j); try lia. destruct Pj as [[? _]|[Ej ->]]; [lia|]. split_and!; [|done|].
  - unfold bplace_ok in Pi. destruct (b_pc st i); lia.
  - cbn. rewrite (bi_word _ _ _ I), wait_sense by (by apply count_word). by rewrite Bool.eqb_reflx.
Qed.

(** The barrier does not get stuck: when all threads have called it, some thread does
    more than wait. *)
Theorem barrier_progress (nthrds : Z) (st : bsys) :
  1 <= nthrds < 2 ^ 31 -> breachable nthrds st -> (forall i, 0 <= i < nthrds -> b_pc st i <> BIdle) ->
  exists i, 0 <= i < nthrds /\ fst (synchronize_threads nthrds (b_pc st i) (b_word st)) <> b_pc st i.
Proof.
  intros Hn R Hall. replace nthrds with (Z.of_nat (Z.to_nat nthrds)) in * by lia. set (n := Z.to_nat nthrds) in *.
  destruct (breachable_inv n Hn st R) as [e I]. destruct (decide (count (arrived st e) n = Z.of_nat n)) as [E|E].
  - destruct (bi_open _ _ _ I E) as (j & Hj & O). exists j. split; [done|]. by destruct (b_pc st j).
  - destruct (not_all_arrived n (arrived st e) E) as (j & Hj & Aj). exists j. split; [done|]. specialize (Hall j Hj).
    pose proof (bi_place _ _ _ I j Hj) as P. unfold bplace_ok in P. unfold arrived in Aj. destruct (b_pc st j) as [| |ts|ls] eqn:Ej; try done.
    + cbn. by case_match.
    + destruct P as [[Hr _]|[_ ->]]; [by rewrite Hr, Z.eqb_refl in Aj|].
      cbn. rewrite (bi_word _ _ _ I), wait_sense by (by apply count_word). by rewrite Bool.eqb_reflx.
Qed.

Fixpoint brun (n : Z) (l : list Z) (st : bsys) : bsys := match l with [] => st | i :: l => brun n l (bthread n i st) end.

Lemma brun_reachable n l st : breachable n st -> Forall (fun i => 0 <= i < n) l -> breachable n (brun n l st).
Proof.
  revert st. induction l as [|i l IH]; intros st R F; [done|]. apply list.Forall_cons in F as [Hi F]. apply IH; [by constructor|done].
Qed.

(** Two threads: 0 arrives and waits, 1 opens, and arrives for the next round before 0
    has noticed. *)
Definition bexample : bsys := brun 2 [0; 0; 1; 1; 1; 1; 1] (BSys 0 (fun _ => BIdle) (fun _ => 0)).

Lemma bexample_reachable : breachable 2 bexample.
Proof. apply brun_reachable; [constructor|]. repeat (apply list.Forall_cons; split; [lia|]). constructor. Qed.

Lemma barrier_separates_rounds_witness :
  b_pc bexample 1 = BWait 0 /\ b_round bexample 0 < b_round bexample 1 /\
  b_round bexample 1 = b_round bexample 0 + 1 /\ inside_barrier (b_pc bexample 0) = true /\
  fst (synchronize_threads 2 (b_pc bexample 0) (b_word bexample)) = BIdle.
Proof.
  split; [by vm_compute|]. split; [by vm_compute|].
  apply (barrier_separates_rounds 2 bexample 1 0); [lia|apply bexample_reachable|lia|lia|by vm_compute].
Defined.

Lemma barrier_progress_witness :
  exists i, 0 <= i < 2 /\ fst (synchronize_threads 2 (b_pc bexample i) (b_word bexample)) <> b_pc bexample i.
Proof.
  apply (barrier_progress 2 bexample); [lia|apply bexample_reachable|].
  intros i Hi. assert (H : i = 0 \/ i = 1) by lia. destruct H as [-> | ->]; vm_compute; discriminate.
Defined.
