(* ===== verification/Python.v ===== *)
(** What the scripts of src/vm_lib use of Python: exceptions, and the methods of
    strings.  Strings are sequences of ASCII characters. *)
From Stdlib Require Import ZArith Lia Bool Ascii String.
From stdpp Require Import base list strings pretty.
From S2P Require Import Prelude.
Local Open Scope string_scope.

(** ** Exceptions *)

Inductive exn :=
| IndexError | ValueError | AttributeError | TypeError | KeyError | UnboundLocalError | ZeroDivisionError
| RecursionError | RuntimeError | StopIteration | DoesNotExist | SystemExit.

#[export] Instance exn_dec : EqDecision exn.
Proof. solve_decision. Defined.

Inductive py (A : Type) := Ok (a : A) | Raise (e : exn).
Arguments Ok {A} a.
Arguments Raise {A} e.

Definition pbind {A B} (x : py A) (f : A -> py B) : py B := match x with Ok a => f a | Raise e => Raise e end.

Declare Scope py_scope.
Delimit Scope py_scope with py.
Notation "'let^' x := e 'in' f" := (pbind e (fun x => f)) (at level 200, x binder, f at level 200) : py_scope.
Local Open Scope py_scope.

(** [l[i]] for an index that is not negative. *)
Definition nth_py {A} (l : list A) (i : nat) : py A := match l !! i with Some x => Ok x | None => Raise IndexError end.

Fixpoint map_py {A B} (f : A -> py B) (l : list A) : py (list B) :=
  match l with
  | [] => Ok []
  | x :: l => let^ y := f x in let^ r := map_py f l in Ok (y :: r)
  end.

(** [ [x for x in l if f(x)] ] *)
Fixpoint filter_py {A} (f : A -> py bool) (l : list A) : py (list A) :=
  match l with
  | [] => Ok []
  | x :: l => let^ b := f x in let^ r := filter_py f l in Ok (if b : bool then x :: r else r)
  end.

(** ** Strings *)

#[global] Arguments String.append !_ _ / : simpl nomatch.

Definition snoc (s : string) (c : ascii) : string := s +:+ String c "".

(** [s.split(sep)], for a separator that is not empty; [skip] characters of a
    separator that was found are still to be passed over. *)
Fixpoint split_from (sep : string) (skip : nat) (cur s : string) : list string :=
  match s with
  | "" => [cur]
  | String c s' =>
      match skip with
      | S k => split_from sep k cur s'
      | O => if String.prefix sep s then cur :: split_from sep (String.length sep - 1) "" s' else split_from sep 0 (snoc cur c) s'
      end
  end.
Definition split (sep s : string) : list string := split_from sep 0 "" s.

(** [sep.join(l)] *)
Fixpoint join (sep : string) (l : list string) : string :=
  match l with [] => "" | [s] => s | s :: l => s +:+ sep +:+ join sep l end.

(** [s.replace(old, new)] *)
Definition replace (old new s : string) : string := join new (split old s).

(** [sub in s] *)
Fixpoint contains (sub s : string) : bool :=
  String.prefix sub s || match s with "" => false | String _ s' => contains sub s' end.

Definition startswith (p s : string) : bool := String.prefix p s.

Fixpoint smap (f : ascii -> ascii) (s : string) : string := match s with "" => "" | String c s => String (f c) (smap f s) end.

Definition code_of (c : ascii) : nat := nat_of_ascii c.
Definition in_range (a b : nat) (c : ascii) : bool := (a <=? code_of c)%nat && (code_of c <=? b)%nat.
Definition upper_char (c : ascii) : ascii := if in_range 97 122 c then ascii_of_nat (code_of c - 32) else c.
Definition lower_char (c : ascii) : ascii := if in_range 65 90 c then ascii_of_nat (code_of c + 32) else c.
Definition upper (s : string) : string := smap upper_char s.
Definition lower (s : string) : string := smap lower_char s.

(** White space: the space, the controls 9 to 13 and the separators 28 to 31. *)
Definition isspace (c : ascii) : bool := in_range 32 32 c || in_range 9 13 c || in_range 28 31 c.
Definition isdigit (c : ascii) : bool := in_range 48 57 c.

Fixpoint lstrip (s : string) : string :=
  match s with "" => "" | String c s' => if isspace c then lstrip s' else s end.
Fixpoint rstrip (s : string) : string :=
  match s with
  | "" => ""
  | String c s' => match rstrip s' with "" => if isspace c then "" else String c "" | r => String c r end
  end.
Definition strip (s : string) : string := lstrip (rstrip s).

(** [s.split()] *)
Fixpoint words_from (cur s : string) : list string :=
  match s with
  | "" => if decide (cur = "") then [] else [cur]
  | String c s => if isspace c then (if decide (cur = "") then words_from "" s else cur :: words_from "" s) else words_from (snoc cur c) s
  end.
Definition words (s : string) : list string := words_from "" s.

(** [int(s)]: digits, with single underscores between them. *)
Fixpoint digits (seen : bool) (acc : Z) (s : string) : py Z :=
  match s with
  | "" => if seen then Ok acc else Raise ValueError
  | String c s =>
      if isdigit c then digits true (acc * 10 + Z.of_nat (code_of c - 48))%Z s
      else if Ascii.eqb c "_" && seen then digits false acc s else Raise ValueError
  end.
Definition to_int (s : string) : py Z :=
  match strip s with
  | String "-" s => let^ z := digits false 0 s in Ok (- z)%Z
  | String "+" s => digits false 0 s
  | s => digits false 0 s
  end.

Definition str (z : Z) : string := pretty z.

(** ** Lemmas *)

Fixpoint mem_char (c : ascii) (s : string) : bool := match s with "" => false | String d s => Ascii.eqb c d || mem_char c s end.

Lemma sapp_assoc (a b c : string) : (a +:+ b) +:+ c = a +:+ (b +:+ c).
Proof. induction a as [|x a IH]; [done|]. cbn. by rewrite IH. Qed.
Lemma sapp_nil_r (a : string) : a +:+ "" = a.
Proof. induction a as [|x a IH]; [done|]. cbn. by rewrite IH. Qed.
Lemma snoc_app a c b : snoc a c +:+ b = a +:+ String c b.
Proof. unfold snoc. by rewrite sapp_assoc. Qed.
Lemma mem_char_app c a b : mem_char c (a +:+ b) = mem_char c a || mem_char c b.
Proof. induction a as [|x a IH]; [done|]. cbn. by rewrite IH, orb_assoc. Qed.

Fixpoint sdrop (n : nat) (s : string) : string := match n, s with O, _ => s | S n, String _ s => sdrop n s | S _, "" => "" end.

Lemma split_from_nonempty sep k cur s : split_from sep k cur s <> [].
Proof.
  revert k cur. induction s as [|c s IH]; intros k cur; [done|]. cbn [split_from]. destruct k; [|apply IH]. by destruct (String.prefix _ _).
Qed.

Lemma split_from_skip sep k cur s : split_from sep k cur s = split_from sep 0 cur (sdrop k s).
Proof. revert k. induction s as [|c s IH]; intros [|k]; cbn [split_from sdrop]; done. Qed.

Lemma prefix_split p s : String.prefix p s = true -> s = p +:+ sdrop (String.length p) s.
Proof.
  revert s. induction p as [|c p IH]; intros s H; [done|]. destruct s as [|d s]; [done|]. cbn in *. destruct (ascii_dec c d) as [->|]; [|done].
  by rewrite <- IH.
Qed.

Lemma prefix_app p s : String.prefix p (p +:+ s) = true.
Proof. induction p as [|c p IH]; [by destruct s|]. cbn. by destruct (ascii_dec c c). Qed.

Lemma join_cons sep s l : l <> [] -> join sep (s :: l) = s +:+ sep +:+ join sep l.
Proof. by destruct l. Qed.

(** Splitting a string and joining the pieces gives the string again. *)
Lemma join_split sep s : sep <> "" -> join sep (split sep s) = s.
Proof.
  intros Hs. unfold split. enough (H : forall n cur s, (String.length s <= n)%nat -> join sep (split_from sep 0 cur s) = cur +:+ s) by by rewrite (H (String.length s)).
  clear s. induction n as [|n IH]; intros cur s Hn; (destruct s as [|c s]; [by rewrite sapp_nil_r|]); cbn in Hn; [lia|].
  cbn [split_from]. destruct (String.prefix sep (String c s)) eqn:E.
  - rewrite join_cons by apply split_from_nonempty. f_equal. rewrite split_from_skip. apply prefix_split in E.
    destruct sep as [|d sep]; [done|]. cbn in E. injection E as -> E. cbn. rewrite Nat.sub_0_r. rewrite IH; [cbn; by rewrite <- E|].
    rewrite E in Hn. clear -Hn. revert Hn. generalize (sdrop (String.length sep) s). intros s'. induction sep; cbn; lia.
  - rewrite IH by lia. apply snoc_app.
Qed.

Lemma split_from_char c cur a s : mem_char c a = false -> split_from (String c "") 0 cur (a +:+ s) = split_from (String c "") 0 (cur +:+ a) s.
Proof.
  revert cur. induction a as [|d a IH]; intros cur H; [by rewrite sapp_nil_r|]. cbn in H. apply orb_false_elim in H as [H1 H2].
  cbn. destruct (ascii_dec c d) as [->|N]; [by rewrite Ascii.eqb_refl in H1|]. rewrite IH by done. by rewrite snoc_app.
Qed.

Lemma split_from_sep c cur s : split_from (String c "") 0 cur (String c s) = cur :: split_from (String c "") 0 "" s.
Proof. cbn. destruct (ascii_dec c c); [|done]. by destruct s. Qed.

(** Joining pieces that do not contain the separator and splitting gives the pieces. *)
Lemma split_join c l : l <> [] -> Forall (fun s => mem_char c s = false) l -> split (String c "") (join (String c "") l) = l.
Proof.
  intros Hn F. unfold split. induction F as [|s l Hs F IH]; [done|]. destruct l as [|t l].
  - cbn [join]. rewrite <- (sapp_nil_r s) at 1. by rewrite split_from_char.
  - rewrite join_cons by done. rewrite split_from_char by done. cbn [String.append]. rewrite split_from_sep. f_equal. by apply IH.
Qed.

Lemma str_inj a b : str a = str b -> a = b.
Proof. apply (inj pretty). Qed.

Lemma startswith_char c d s : startswith (String c "") (String d s) = Ascii.eqb c d.
Proof. cbn. destruct (ascii_dec c d) as [->|N]; [rewrite Ascii.eqb_refl; by destruct s|]. symmetry. by apply Ascii.eqb_neq. Qed.

Lemma sapp_inj_l a b c : a +:+ b = a +:+ c -> b = c.
Proof. induction a as [|x a IH]; cbn; [done|]. intros [= H]. by apply IH. Qed.

Lemma slength_app a b : String.length (a +:+ b) = (String.length a + String.length b)%nat.
Proof. induction a as [|x a IH]; cbn; [done|]. by rewrite IH. Qed.

Lemma sapp_inj_r a b c : a +:+ c = b +:+ c -> a = b.
Proof.
  revert b. induction a as [|x a IH]; intros [|y b] H; [done|..].
  - apply (f_equal String.length) in H. rewrite !slength_app in H. cbn in H. lia.
  - apply (f_equal String.length) in H. rewrite !slength_app in H. cbn in H. lia.
  - cbn in H. injection H as -> H. f_equal. by apply IH.
Qed.

(** ** Paths and sequences of commands *)

Fixpoint last_char (s : string) : option ascii := match s with "" => None | String c "" => Some c | String _ s => last_char s end.

(** [os.path.join(a, b)] *)
Definition path_join (a b : string) : string :=
  if startswith "/" b then b
  else if decide (a = "") then b
  else if decide (last_char a = Some "/"%char) then a +:+ b
  else a +:+ "/" +:+ b.

(** A script: it runs commands, and returns or raises. *)
Definition script (A : Type) : Type := list (list string) -> py A * list (list string).
Definition sret {A} (a : A) : script A := fun t => (Ok a, t).
Definition sraise {A} (e : exn) : script A := fun t => (Raise e, t).
Definition sbind {A B} (x : script A) (f : A -> script B) : script B :=
  fun t => match x t with (Ok a, t) => f a t | (Raise e, t) => (Raise e, t) end.
Definition lift {A} (x : py A) : script A := fun t => (x, t).

Notation "'do^' x := e 'in' f" := (sbind e (fun x => f)) (at level 200, x binder, f at level 200) : py_scope.
Notation "e ;; f" := (sbind e (fun _ => f)) (at level 100, f at level 200, right associativity) : py_scope.

Fixpoint for_each {A} (l : list A) (f : A -> script unit) : script unit :=
  match l with [] => sret tt | x :: l => f x ;; for_each l f end.

(** [range(n)] *)
Definition range (n : Z) : list Z := seqZ 0 n.
