(* ===== verification/PciParser.v ===== *)
(** The reader of the output of lspci: src/vm_lib/pci_parser.py. *)
From Stdlib Require Import ZArith Lia Bool Ascii String.
From stdpp Require Import base list strings pretty.
From S2P Require Import Prelude Python.
Local Open Scope string_scope.
Local Open Scope py_scope.

(** ** The parts of a device *)

Record PCIBus := Bus { primary : option string; secondary : option string; subordinate : option string; sec_latency : option string }.

(** One round of the loop of [PCIBus.__init__]. *)
Definition bus_entry (b : PCIBus) (entry : string) : py PCIBus :=
  let parts := split "=" entry in
  let^ head := nth_py parts 0 in
  let name := strip head in
  let value := let^ v := nth_py parts 1 in Ok (upper (strip v)) in
  if decide (name = "primary") then let^ v := value in Ok (Bus (Some v) (secondary b) (subordinate b) (sec_latency b))
  else if decide (name = "secondary") then let^ v := value in Ok (Bus (primary b) (Some v) (subordinate b) (sec_latency b))
  else if decide (name = "subordinate") then let^ v := value in Ok (Bus (primary b) (secondary b) (Some v) (sec_latency b))
  else if decide (name = "sec-latency") then let^ v := value in Ok (Bus (primary b) (secondary b) (subordinate b) (Some v))
  else Ok b.

Fixpoint bus_entries (b : PCIBus) (l : list string) : py PCIBus :=
  match l with [] => Ok b | entry :: l => let^ b := bus_entry b entry in bus_entries b l end.

Definition new_PCIBus (data : string) : py PCIBus := bus_entries (Bus None None None None) (split "," data).

Record PCILink := Link { port : Z; max_speed : string; max_width : string; speed : string; width : string }.

(** [s.split(",")[i].split(sep)[j]] *)
Definition piece (s : string) (i : nat) (sep : string) (j : nat) : py string :=
  let^ p := nth_py (split "," s) i in nth_py (split sep p) j.

Definition new_PCILink (lnkcap lnksta : string) : py PCILink :=
  let^ p := piece lnkcap 0 "#" 1 in
  let^ port := to_int p in
  let^ max_speed := piece lnkcap 1 " " 2 in
  let^ max_width := piece lnkcap 2 " " 2 in
  let^ speed := piece lnksta 0 " " 1 in
  let^ width := piece lnksta 1 " " 2 in
  Ok (Link port max_speed max_width speed width).

Definition link_str (l : PCILink) : string :=
  "[" +:+ width l +:+ "/" +:+ max_width l +:+ "][" +:+ speed l +:+ "/" +:+ max_speed l +:+ "]".

Record PCIAddress := Address { address : string; dom : string; bus : string; num : string; fun_ : string }.

Definition new_PCIAddress (address : string) : py PCIAddress :=
  let parts := split ":" address in
  let^ d := nth_py parts 0 in
  let^ b := nth_py parts 1 in
  let^ n := let^ p := nth_py parts 2 in nth_py (split "." p) 0 in
  let^ f := let^ p := nth_py parts 2 in nth_py (split "." p) 1 in
  Ok (Address address (upper d) (upper b) (upper n) (upper f)).

Definition address_eq (a b : PCIAddress) : bool := bool_decide (upper (address a) = upper (address b)).

(** ** Devices *)

(** The values that attributes have. *)
Inductive pyval := VNone | VStr (s : string) | VBool (b : bool) | VLines (l : list string) | VAddress (a : PCIAddress) | VLink (l : PCILink) | VBus (b : PCIBus).

(** A device; [attrs] are the attributes that are [None] at first, in the order in
    which they are set, with the ones that entries without an attribute add. *)
Record PCIDevice := Device {
  d_data : list string; pci_address : PCIAddress; d_type : string; d_name : string; capabilities : list string;
  attrs : list (string * pyval) }.

Definition fields : list string :=
  ["pci_link"; "pci_bus"; "control"; "status"; "latency"; "numa_node"; "bus"; "io_behind_bridge"; "memory_behind_bridge";
   "prefetchable_memory_behind_bridge"; "secondary_status"; "bridge_ctl"; "flags"; "devcap"; "devcap2"; "devctl"; "devctl2"; "devsta";
   "lnkcap"; "lnkctl"; "lnkctl2"; "lnksta"; "lnksta2"; "rootctl"; "rootcap"; "rootsta"; "atomic_ops_cap"; "atomic_ops_ctl";
   "transmit_margin"; "compliance_deemphasis"; "uesta"; "uemsk"; "uesvrt"; "cesta"; "cemsk"; "aercap"; "header_log"; "root_cmd";
   "error_src"; "interrupt"; "address"; "kernel_driver_in_use"].

Fixpoint get (k : string) (l : list (string * pyval)) : option pyval :=
  match l with [] => None | (k', v) :: l => if decide (k' = k) then Some v else get k l end.

Fixpoint set (k : string) (v : pyval) (l : list (string * pyval)) : list (string * pyval) :=
  match l with [] => [(k, v)] | (k', v') :: l => if decide (k' = k) then (k, v) :: l else (k', v') :: set k v l end.

Definition is_none (v : pyval) : bool := match v with VNone => true | _ => false end.

(** The name of an entry, without spaces and punctuation. *)
Definition entry_name (entry : string) : py string :=
  let^ head := nth_py (split ":" entry) 0 in
  Ok (lower (replace "-" "" (replace "]" "" (replace "[" "" (replace "/" "" (replace " " "" head)))))).

Definition entry_content (entry : string) : py string :=
  let^ head := nth_py (split ":" entry) 0 in Ok (strip (replace (head +:+ ":") "" entry)).

Definition squash (field : string) : string := replace "_" "" field.
Definition takes (name : string) (x : string * pyval) : bool := bool_decide (squash (fst x) = name) && is_none (snd x).

(** The attributes of the name that are still [None] get the content; without any, a
    new one does. *)
Definition assign (name content : string) (l : list (string * pyval)) : list (string * pyval) :=
  if existsb (takes name) l then map (fun x => if takes name x then (fst x, VStr content) else x) l
  else set ("aux_" +:+ name) (VStr content) l.

Definition device_entry (d : PCIDevice) (entry : string) : py PCIDevice :=
  let^ name := entry_name entry in
  let^ content := entry_content entry in
  if decide (name <> "capabilities") then Ok (Device (d_data d) (pci_address d) (d_type d) (d_name d) (capabilities d) (assign name content (attrs d)))
  else Ok (Device (d_data d) (pci_address d) (d_type d) (d_name d) (capabilities d ++ [content]) (attrs d)).

Fixpoint device_entries (d : PCIDevice) (l : list string) : py PCIDevice :=
  match l with [] => Ok d | entry :: l => let^ d := device_entry d entry in device_entries d l end.

Definition with_attr (d : PCIDevice) (k : string) (v : pyval) : PCIDevice :=
  Device (d_data d) (pci_address d) (d_type d) (d_name d) (capabilities d) (set k v (attrs d)).

(** The end of the constructor: the link and the bus. *)
Definition device_link (d : PCIDevice) : py PCIDevice :=
  match get "lnkcap" (attrs d), get "lnksta" (attrs d) with
  | Some (VStr cap), Some (VStr sta) => let^ l := new_PCILink cap sta in Ok (with_attr d "pci_link" (VLink l))
  | _, _ => Ok d
  end.
Definition device_bus (d : PCIDevice) : py PCIDevice :=
  match get "bus" (attrs d) with
  | Some (VStr b) => let^ b := new_PCIBus b in Ok (with_attr d "pci_bus" (VBus b))
  | _ => Ok d
  end.

Definition new_PCIDevice (data : list string) : py PCIDevice :=
  let^ line := nth_py data 0 in
  let^ head := nth_py (split " " line) 0 in
  let^ addr := new_PCIAddress (strip head) in
  let rest := split ":" (replace (address addr) "" line) in
  let^ type := nth_py rest 0 in
  let^ name := nth_py rest 1 in
  let^ d := device_entries (Device data addr (strip type) (strip name) [] (map (fun f => (f, VNone)) fields)) (drop 3 data) in
  let^ d := device_link d in
  device_bus d.

(** ** Properties of a device *)

Definition _check_capabilities (d : PCIDevice) (value : string) : bool := existsb (contains value) (capabilities d).

(** What follows the last occurrence of the key in the last line that has it. *)
Definition after_key (key : string) (d : PCIDevice) : option string :=
  foldl (fun result line => if contains key line then Some (strip (List.last (split key line) "")) else result) None (capabilities d).
Definition device_serial_number (d : PCIDevice) : option string := after_key "Device Serial Number" d.
Definition subsystem (d : PCIDevice) : option string := after_key "Subsystem:" d.

Definition is_host_bridge (d : PCIDevice) : bool := bool_decide (d_type d = "Host bridge").
Definition is_root_port (d : PCIDevice) : bool := _check_capabilities d "Root Port".
Definition is_downstream (d : PCIDevice) : bool := _check_capabilities d "Downstream Port" && bool_decide (d_type d = "PCI bridge").
Definition is_upstream (d : PCIDevice) : bool := _check_capabilities d "Upstream Port" && bool_decide (d_type d = "PCI bridge").
Definition is_endpoint (d : PCIDevice) : bool :=
  negb (is_host_bridge d) && negb (is_root_port d) && negb (is_upstream d) && negb (is_downstream d).

Definition opt_val (o : option string) : pyval := match o with Some s => VStr s | None => VNone end.

(** [getattr(self, key)], for the attributes and the properties. *)
Definition getattr (d : PCIDevice) (key : string) : option pyval :=
  if decide (key = "data") then Some (VLines (d_data d))
  else if decide (key = "pci_address") then Some (VAddress (pci_address d))
  else if decide (key = "type") then Some (VStr (d_type d))
  else if decide (key = "name") then Some (VStr (d_name d))
  else if decide (key = "capabilities") then Some (VLines (capabilities d))
  else if decide (key = "device_serial_number") then Some (opt_val (device_serial_number d))
  else if decide (key = "subsystem") then Some (opt_val (subsystem d))
  else if decide (key = "is_host_bridge") then Some (VBool (is_host_bridge d))
  else if decide (key = "is_root_port") then Some (VBool (is_root_port d))
  else if decide (key = "is_downstream") then Some (VBool (is_downstream d))
  else if decide (key = "is_upstream") then Some (VBool (is_upstream d))
  else if decide (key = "is_endpoint") then Some (VBool (is_endpoint d))
  else if decide (key = "addr_dom") then Some (VStr (dom (pci_address d)))
  else if decide (key = "addr_bus") then Some (VStr (bus (pci_address d)))
  else if decide (key = "addr_num") then Some (VStr (num (pci_address d)))
  else if decide (key = "addr_fun") then Some (VStr (fun_ (pci_address d)))
  else get key (attrs d).

(** The values that are searched for. *)
Inductive pyarg := AStr (s : string) | ABool (b : bool) | ANone.

(** [value == getattr(self, key)] *)
Definition arg_eq (value : pyarg) (v : pyval) : bool :=
  match value, v with
  | AStr s, VStr s' => bool_decide (s = s')
  | AStr s, VAddress a => bool_decide (upper (address a) = upper s)
  | ABool b, VBool b' => Bool.eqb b b'
  | ANone, VNone => true
  | _, _ => false
  end.

(** One pair of the search: a string that starts with a star is looked for in a
    string, in either case; everything else is compared. *)
Definition fits (value : pyarg) (v : pyval) : bool :=
  match value, v with
  | AStr s, VStr a => if startswith "*" s then contains (upper (replace "*" "" s)) (upper a) else arg_eq value v
  | _, _ => arg_eq value v
  end.

Definition match_device (d : PCIDevice) (kwargs : list (string * pyarg)) : bool :=
  foldl (fun (result : bool) kv =>
    match getattr d (fst kv) with
    | Some v => if result then fits (snd kv) v else false
    | None => false
    end) true kwargs.

(** [__eq__] and [__ne__]; [address] is the entry of that name, not the address. *)
Definition address_attr (d : PCIDevice) : option string := match get "address" (attrs d) with Some (VStr s) => Some s | _ => None end.
Definition device_eq (d e : PCIDevice) : bool :=
  bool_decide (address_attr d = address_attr e) && bool_decide (d_type d = d_type e) && bool_decide (d_name d = d_name e).
Definition device_ne (d e : PCIDevice) : bool :=
  bool_decide (address_attr d <> address_attr e) || bool_decide (d_type d <> d_type e) || bool_decide (d_name d <> d_name e).

Definition device_str (d : PCIDevice) : string :=
  let link := match get "pci_link" (attrs d) with Some (VLink l) => link_str l | Some (VStr s) => s | _ => "" end in
  address (pci_address d) +:+ " " +:+ d_type d +:+ " " +:+ d_name d +:+ " " +:+ link.

(** ** The parser *)

(** Python's [l[a:b] = new] for [a] and [b] within the list or one before it; a start
    of -1 is the last element. *)
Definition slice_start (len : nat) (a : Z) : nat := if (a <? 0)%Z then Z.to_nat (Z.max 0 (Z.of_nat len + a)) else Nat.min len (Z.to_nat a).
Definition slice (l : list string) (a b : Z) : list string :=
  let i := slice_start (length l) a in take (slice_start (length l) b - i) (drop i l).
Definition set_slice (l : list string) (a b : Z) (new : list string) : list string :=
  let i := slice_start (length l) a in take i l ++ new ++ drop (Nat.max i (slice_start (length l) b)) l.

Definition clean (line : string) : string :=
  replace (String "010" "") "" (replace (String "013" "") "" (replace (String "009" "") "" line)).
Definition keeps (line : string) : bool := (4 <? String.length line)%nat && negb (contains "pcilib:" line).
Definition starts_entry (line : string) : bool := contains ":" line || contains "lspci" line.

(** A line without a colon continues the line before it. *)
Definition parse_line (st : list string * Z) (line : string) : list string * Z :=
  let '(temp_list, line_counter) := st in
  let line := clean line in
  if keeps line then
    let temp_list := (temp_list ++ [line])%list in
    if starts_entry line then (temp_list, line_counter + 1)%Z
    else (set_slice temp_list (line_counter - 1) (line_counter + 1) [join " " (slice temp_list (line_counter - 1) (line_counter + 1))], line_counter)
  else (temp_list, line_counter).

Definition parce_single_device (data : option (list string)) : option (list string) :=
  match data with
  | None => None
  | Some lines => match fst (foldl parse_line ([], 0%Z) lines) with [] => None | l => Some l end
  end.

Fixpoint process_data (data : list (option (list string))) : py (list PCIDevice) :=
  match data with
  | [] => Ok []
  | entry :: data =>
      match parce_single_device entry with
      | Some l => let^ d := new_PCIDevice l in let^ r := process_data data in Ok (d :: r)
      | None => process_data data
      end
  end.

(** ** Addresses *)

Lemma split_two c a b : mem_char c a = false -> mem_char c b = false -> split (String c "") (a +:+ String c b) = [a; b].
Proof. intros Ha Hb. apply (split_join c [a; b]); [done|]. repeat constructor; done. Qed.

Lemma smap_app f a b : smap f (a +:+ b) = smap f a +:+ smap f b.
Proof. induction a as [|c a IH]; [done|]. cbn. by rewrite IH. Qed.

(** The parts of an address are read back.  An address of the form the tools print,
    [domain:bus:device.function], gives its four parts in capitals, and these make up
    the address again. *)
Theorem address_roundtrip (d b n f : string) :
  forallb (fun s => negb (mem_char ":" s)) [d; b; n; f] = true -> forallb (fun s => negb (mem_char "." s)) [n; f] = true ->
  exists a, new_PCIAddress (d +:+ ":" +:+ b +:+ ":" +:+ n +:+ "." +:+ f) = Ok a /\
    dom a = upper d /\ bus a = upper b /\ num a = upper n /\ fun_ a = upper f /\
    dom a +:+ ":" +:+ bus a +:+ ":" +:+ num a +:+ "." +:+ fun_ a = upper (address a).
Proof.
  cbn [forallb]. rewrite !andb_true_r, !andb_true_iff, !negb_true_iff. intros (Hd & Hb & Hn & Hf) (Hn' & Hf').
  eexists. unfold new_PCIAddress.
  assert (E : split ":" (d +:+ ":" +:+ b +:+ ":" +:+ n +:+ "." +:+ f) = [d; b; n +:+ "." +:+ f]).
  { apply (split_join ":" [d; b; n +:+ "." +:+ f]); [done|]. repeat constructor; try done. rewrite !mem_char_app, Hn, Hf. done. }
  rewrite E. cbn [nth_py lookup list_lookup pbind]. change (n +:+ "." +:+ f) with (n +:+ String "." f). rewrite split_two by done. cbn.
  split; [reflexivity|]. split_and!; try done. cbn. unfold upper. rewrite smap_app. cbn. rewrite smap_app. cbn. by rewrite smap_app.
Qed.

Lemma address_roundtrip_witness :
  exists a, new_PCIAddress "0000:3b:00.1" = Ok a /\ dom a = "0000" /\ bus a = "3B" /\ num a = "00" /\ fun_ a = "1" /\
    dom a +:+ ":" +:+ bus a +:+ ":" +:+ num a +:+ "." +:+ fun_ a = upper (address a).
Proof. apply (address_roundtrip "0000" "3b" "00" "1"); reflexivity. Defined.

(** ** Lines *)

(** The reference: a line that starts no entry is added to the entry before it. *)
Definition add_line (l : list string) (line : string) : list string :=
  if starts_entry line then (l ++ [line])%list
  else (take (length l - 1) l ++ [join " " [List.last l ""; line]])%list.

Lemma last_split {A} (l : list A) d : l <> [] -> l = (take (length l - 1) l ++ [List.last l d])%list.
Proof.
  intros H. destruct (exists_last H) as (l' & x & ->). rewrite List.last_last, length_app. cbn.
  rewrite (Nat.add_sub (length l') 1). by rewrite take_app_length.
Qed.

Lemma parse_line_spec l line :
  l <> [] -> parse_line (l, Z.of_nat (length l)) line =
  let l' := if keeps (clean line) then add_line l (clean line) else l in (l', Z.of_nat (length l')).
Proof.
  intros Hl. unfold parse_line, add_line. destruct (keeps (clean line)); [|done]. set (x := clean line).
  destruct (starts_entry x); cbn zeta; [rewrite length_app; cbn; f_equal; lia|].
  assert (Hn : (0 < length l)%nat) by (destruct l; [done|cbn; lia]).
  assert (S1 : slice_start (length (l ++ [x])) (Z.of_nat (length l) - 1) = (length l - 1)%nat).
  { unfold slice_start. rewrite length_app. cbn [length]. destruct (Z.ltb_spec (Z.of_nat (length l) - 1) 0); lia. }
  assert (S2 : slice_start (length (l ++ [x])) (Z.of_nat (length l) + 1) = (length l + 1)%nat).
  { unfold slice_start. rewrite length_app. cbn [length]. destruct (Z.ltb_spec (Z.of_nat (length l) + 1) 0); lia. }
  assert (E : (l ++ [x] = take (length l - 1) l ++ [List.last l ""; x])%list) by (rewrite (last_split l "") at 1 by done; by rewrite <- app_assoc).
  assert (Ht : length (take (length l - 1) l) = (length l - 1)%nat) by (rewrite length_take; lia).
  unfold slice, set_slice. rewrite S1, S2. f_equal; [|rewrite length_app, Ht; cbn; lia].
  rewrite E. rewrite take_app_length' by done. f_equal. rewrite drop_app_length' by done.
  replace (length l + 1 - (length l - 1))%nat with 2%nat by lia.
  rewrite (drop_ge (take _ _ ++ _)) by (rewrite length_app, Ht; cbn; lia). by rewrite app_nil_r.
Qed.

Lemma add_line_nonempty l line : add_line l line <> [].
Proof. unfold add_line. case_match; by intros [_ ?]%app_nil. Qed.

Lemma parse_lines_spec lines l :
  l <> [] -> fst (foldl parse_line (l, Z.of_nat (length l)) lines) = foldl add_line l (filter (fun s => keeps s = true) (map clean lines)).
Proof.
  revert l. induction lines as [|x lines IH]; intros l Hl; [done|]. cbn [foldl map]. rewrite parse_line_spec by done. cbn zeta.
  destruct (keeps (clean x)) eqn:K.
  - rewrite filter_cons_True by done. cbn [foldl]. apply IH, add_line_nonempty.
  - rewrite filter_cons_False by congruence. by apply IH.
Qed.

Lemma join_app sep l1 l2 : l1 <> [] -> l2 <> [] -> join sep (l1 ++ l2) = join sep l1 +:+ sep +:+ join sep l2.
Proof.
  intros H1 H2. induction l1 as [|x l1 IH]; [done|]. destruct l1 as [|y l1]; [by rewrite <- join_cons|].
  rewrite <- app_comm_cons, !join_cons by done. rewrite IH by done. by rewrite !sapp_assoc.
Qed.

Lemma add_line_text l line : l <> [] -> join " " (add_line l line) = join " " l +:+ " " +:+ line.
Proof.
  intros Hl. unfold add_line. destruct (starts_entry line); [by apply join_app|].
  rewrite (last_split l "") at 4 by done. destruct (take (length l - 1) l) as [|x t]; [done|].
  rewrite !join_app by done. cbn [join]. by rewrite !sapp_assoc.
Qed.

Lemma prefix_weaken p s t : String.prefix p s = true -> String.prefix p (s +:+ t) = true.
Proof. intros E. rewrite (prefix_split p s E) at 1. rewrite sapp_assoc. apply prefix_app. Qed.

Lemma contains_weaken p s t : contains p s = true -> contains p (s +:+ t) = true.
Proof.
  induction s as [|c s IH]; cbn -[String.prefix]; [rewrite orb_false_r|]; intros H.
  - assert (E : String.prefix p t = true) by (destruct p; [by destruct t|done]). destruct t; cbn -[String.prefix]; by rewrite E.
  - apply orb_true_iff in H as [H|H]; apply orb_true_iff; [left; by apply (prefix_weaken p (String c s))|right; by apply IH].
Qed.

Lemma starts_weaken s t : starts_entry s = true -> starts_entry (s +:+ t) = true.
Proof. unfold starts_entry. rewrite !orb_true_iff. intros [H|H]; [left|right]; by apply contains_weaken. Qed.

Lemma add_line_starts l line : l <> [] -> Forall (fun s => starts_entry s = true) l -> Forall (fun s => starts_entry s = true) (add_line l line).
Proof.
  intros Hl F. unfold add_line. destruct (starts_entry line) eqn:E; [apply list.Forall_app; split; [done|by repeat constructor]|].
  rewrite (last_split l "") in F by done. apply list.Forall_app in F as [F1 F2]. apply list.Forall_cons in F2 as [F2 _].
  apply list.Forall_app. split; [done|]. constructor; [|done]. by apply (starts_weaken (List.last l "")).
Qed.

(** The lines of a device are put together as they should be.  When the first line
    that is kept starts an entry, the result is the lines that are kept with every
    continuation added to the entry before it: every element starts an entry, and no
    text is lost. *)
Theorem lines_joined (lines : list string) (first : string) (rest : list string) :
  filter (fun s => keeps s = true) (map clean lines) = first :: rest -> starts_entry first = true ->
  exists l, parce_single_device (Some lines) = Some l /\ l = foldl add_line [first] rest /\
    Forall (fun s => starts_entry s = true) l /\ join " " l = join " " (first :: rest).
Proof.
  intros E Hs. exists (foldl add_line [first] rest).
  assert (P : fst (foldl parse_line ([], 0%Z) lines) = foldl add_line [first] rest).
  { induction lines as [|x lines IH]; [done|]. cbn [map] in E. cbn [foldl]. unfold parse_line at 2. destruct (keeps (clean x)) eqn:K.
    - rewrite filter_cons_True in E by done. injection E as <- <-. rewrite Hs. by apply (parse_lines_spec lines [clean x]).
    - rewrite filter_cons_False in E by congruence. by apply IH. }
  assert (G : forall l, l <> [] -> Forall (fun s => starts_entry s = true) l ->
    foldl add_line l rest <> [] /\ Forall (fun s => starts_entry s = true) (foldl add_line l rest) /\ join " " (foldl add_line l rest) = join " " (l ++ rest)).
  { clear. induction rest as [|x rest IH]; intros l Hl F; [by rewrite app_nil_r|]. cbn [foldl].
    destruct (IH (add_line l x)) as (G1 & G2 & G3); [apply add_line_nonempty|by apply add_line_starts|]. split_and!; [done..|]. rewrite G3.
    destruct rest as [|y rest]; [rewrite app_nil_r, add_line_text, join_app by done; done|].
    rewrite !join_app by (try done; apply add_line_nonempty). rewrite add_line_text, (join_cons " " x) by done. by rewrite !sapp_assoc. }
  destruct (G [first]) as (G1 & G2 & G3); [done|by repeat constructor|].
  split_and!; [|done..]. unfold parce_single_device. rewrite P. by destruct (foldl add_line [first] rest).
Qed.

Lemma lines_joined_witness :
  exists l, parce_single_device (Some ["0000:00:04.0 RAM memory: Red Hat, Inc. Inter-VM shared"; "memory (rev 01)"; "pcilib: skipped"; "Control: I/O+ Mem+"]) = Some l /\
    l = ["0000:00:04.0 RAM memory: Red Hat, Inc. Inter-VM shared memory (rev 01)"; "Control: I/O+ Mem+"].
Proof.
  destruct (lines_joined ["0000:00:04.0 RAM memory: Red Hat, Inc. Inter-VM shared"; "memory (rev 01)"; "pcilib: skipped"; "Control: I/O+ Mem+"]
    "0000:00:04.0 RAM memory: Red Hat, Inc. Inter-VM shared" ["memory (rev 01)"; "Control: I/O+ Mem+"]) as (l & E & El & _);
    [vm_compute; reflexivity|vm_compute; reflexivity|]. exists l. split; [exact E|]. rewrite El. vm_compute. reflexivity.
Defined.

(** A continuation before the first entry goes wrong.  The counter of entries does not
    count it, and from then on a continuation is added to an entry too early: here the
    second entry is added to the first, and the continuation stands alone. *)
Theorem leading_line_shifts :
  parce_single_device (Some ["no entry yet"; "Control: I/O+"; "Status: Cap+"; "continued"]) =
    Some ["no entry yet"; "Control: I/O+ Status: Cap+"; "continued"].
Proof. vm_compute. reflexivity. Qed.

(** ** Fields *)

(** The content of the first entry of a name. *)
Fixpoint first_entry (name : string) (l : list string) : option string :=
  match l with
  | [] => None
  | entry :: l =>
      match entry_name entry, entry_content entry with
      | Ok n, Ok c => if decide (n = name) then Some c else first_entry name l
      | _, _ => None
      end
  end.

Lemma fields_distinct f g : f ∈ fields -> g ∈ fields -> squash f = squash g -> f = g.
Proof.
  assert (H : forallb (fun f => forallb (fun g => implb (bool_decide (squash f = squash g)) (bool_decide (f = g))) fields) fields = true) by (vm_compute; reflexivity).
  intros Hf Hg E. rewrite forallb_forall in H. specialize (H f). rewrite <- list_elem_of_In in H. specialize (H Hf).
  rewrite forallb_forall in H. specialize (H g). rewrite <- list_elem_of_In in H. specialize (H Hg).
  rewrite (bool_decide_eq_true_2 _ E) in H. by apply bool_decide_eq_true in H.
Qed.

Lemma fields_not_aux f name : f ∈ fields -> f <> "aux_" +:+ name.
Proof.
  assert (H : forallb (fun f => negb (String.prefix "aux_" f)) fields = true) by (vm_compute; reflexivity).
  rewrite forallb_forall in H. intros Hf ->. specialize (H ("aux_" +:+ name)). rewrite <- list_elem_of_In in H. specialize (H Hf).
  by rewrite prefix_app in H.
Qed.

Lemma get_set k k' v l : get k (set k' v l) = if decide (k' = k) then Some v else get k l.
Proof. induction l as [|[k0 v0] l IH]; cbn; [done|]. repeat (case_decide; cbn; simplify_eq; try done). Qed.

Lemma get_in k v l : get k l = Some v -> (k, v) ∈ l.
Proof.
  induction l as [|[k0 v0] l IH]; cbn; [done|]. case_decide as D; [intros [= ->]; subst; by left|]. intros H. right. by apply IH.
Qed.

Lemma get_assign f name content l :
  f ∈ fields ->
  get f (assign name content l) =
    match get f l with
    | Some VNone => Some (if decide (squash f = name) then VStr content else VNone)
    | o => o
    end.
Proof.
  intros Hf. unfold assign. destruct (existsb (takes name) l) eqn:E.
  - assert (G : get f (map (fun x => if takes name x then (fst x, VStr content) else x) l) =
      match get f l with Some v => Some (if takes name (f, v) then VStr content else v) | None => None end).
    { clear E. induction l as [|[k v] l IH]; [done|]. cbn. destruct (takes name (k, v)) eqn:T; cbn; case_decide; subst; rewrite ?T; done. }
    rewrite G. destruct (get f l) as [[]|]; try done; unfold takes; cbn; rewrite ?andb_false_r; try done. rewrite andb_true_r.
    destruct (decide (squash f = name)) as [D|D]; [by rewrite bool_decide_eq_true_2|by rewrite bool_decide_eq_false_2].
  - rewrite get_set, decide_False by (intros D; by apply (fields_not_aux f name Hf)). destruct (get f l) as [[]|] eqn:G; try done.
    rewrite decide_False; [done|]. intros D. apply get_in in G. apply not_true_iff_false in E. apply E, existsb_exists.
    exists (f, VNone). split; [by apply list_elem_of_In|]. unfold takes. cbn. by rewrite bool_decide_eq_true_2.
Qed.

Lemma fields_not_capabilities f : f ∈ fields -> squash f <> "capabilities".
Proof.
  assert (H : forallb (fun f => bool_decide (squash f <> "capabilities")) fields = true) by (vm_compute; reflexivity).
  intros Hf. rewrite forallb_forall in H. specialize (H f). rewrite <- list_elem_of_In in H. specialize (H Hf). by apply bool_decide_eq_true in H.
Qed.

(** An attribute that is set stays. *)
Lemma get_entries_set f d entries d' s :
  f ∈ fields -> device_entries d entries = Ok d' -> get f (attrs d) = Some (VStr s) -> get f (attrs d') = Some (VStr s).
Proof.
  intros Hf. revert d. induction entries as [|x entries IH]; cbn; intros d H G; [by simplify_eq|]. unfold device_entry in H.
  destruct (entry_name x) as [n|]; [|done]. destruct (entry_content x) as [c|]; [|done]. cbn in H.
  case_decide; cbn in H; (eapply IH; [exact H|]); cbn; [|done]. by rewrite get_assign, G by done.
Qed.

Lemma get_entries f d entries d' :
  f ∈ fields -> device_entries d entries = Ok d' -> get f (attrs d) = Some VNone -> get f (attrs d') = Some (opt_val (first_entry (squash f) entries)).
Proof.
  intros Hf. revert d. induction entries as [|x entries IH]; cbn; intros d H G; [by simplify_eq|]. unfold device_entry in H.
  destruct (entry_name x) as [n|]; [|done]. destruct (entry_content x) as [c|]; [|done]. cbn in H. pose proof (fields_not_capabilities f Hf) as Nc.
  case_decide as D1; cbn in H; [|rewrite decide_False by congruence; by apply (IH _ H)].
  assert (A : get f (assign n c (attrs d)) = Some (if decide (squash f = n) then VStr c else VNone)) by (rewrite get_assign, G by done; done).
  destruct (decide (n = squash f)) as [->|N].
  - rewrite decide_True in A by done. by apply (get_entries_set f _ entries d' c Hf H).
  - rewrite decide_False in A by congruence. by apply (IH _ H).
Qed.

Lemma get_with_attr f k v d : f <> k -> get f (attrs (with_attr d k v)) = get f (attrs d).
Proof. intros N. cbn. by rewrite get_set, decide_False by congruence. Qed.

Lemma get_initial f l : f ∈ l -> get f (map (fun f => (f, VNone)) l) = Some VNone.
Proof.
  induction l as [|g l IH]; [by intros ?%not_elem_of_nil|]. cbn. case_decide as D; [done|].
  intros [?|?]%list.elem_of_cons; [congruence|]. by apply IH.
Qed.

(** The fields of a device are what its entries say.  Every field is the content of the
    first entry of its name, from the fourth line on, and [None] when there is none:
    a later entry of the same name does not overwrite it. *)
Theorem device_fields (data : list string) (d : PCIDevice) (f : string) :
  new_PCIDevice data = Ok d -> f ∈ fields -> f <> "pci_link" -> f <> "pci_bus" ->
  get f (attrs d) = Some (opt_val (first_entry (squash f) (drop 3 data))).
Proof.
  intros H Hf N1 N2. unfold new_PCIDevice in H. destruct (nth_py data 0) as [line|]; [|done]. cbn [pbind] in H.
  destruct (nth_py (split " " line) 0) as [head|]; [|done]. cbn [pbind] in H. destruct (new_PCIAddress (strip head)) as [addr|]; [|done]. cbn [pbind] in H.
  destruct (nth_py (split ":" (replace (address addr) "" line)) 0) as [ty|]; [|done]. cbn [pbind] in H.
  destruct (nth_py (split ":" (replace (address addr) "" line)) 1) as [nm|]; [|done]. cbn [pbind] in H.
  destruct (device_entries _ _) as [d1|] eqn:E1 in H; [|done]. cbn [pbind] in H. apply (get_entries f) in E1; [|done|by apply get_initial].
  destruct (device_link d1) as [d2|] eqn:E2; [|done]. cbn [pbind] in H. rewrite <- E1.
  assert (L : get f (attrs d2) = get f (attrs d1)).
  { unfold device_link in E2. repeat case_match; simplify_eq; try done. destruct (new_PCILink _ _); simplify_eq/=. by apply get_with_attr. }
  rewrite <- L. unfold device_bus in H. repeat case_match; simplify_eq; try done. destruct (new_PCIBus _); simplify_eq/=. by apply get_with_attr.
Qed.

Definition example_lines : list string :=
  ["0000:3a:00.0 PCI bridge: Intel Corporation Root Port"; "Subsystem: Intel"; "Control: I/O+"; "Bus: primary=3a, secondary=3b, subordinate=3b, sec-latency=0";
   "NUMA node: 1"; "Bus: primary=00, secondary=00"; "Capabilities: [90] Express (v2) Root Port (Slot+), MSI 00"; "LnkCap: Port #5, Speed 16GT/s, Width x16, ASPM L1";
   "LnkSta: Speed 16GT/s, Width x8"].

Lemma device_fields_witness :
  match new_PCIDevice example_lines with
  | Ok d => get "numa_node" (attrs d) = Some (VStr "1") /\ get "bus" (attrs d) = Some (VStr "primary=3a, secondary=3b, subordinate=3b, sec-latency=0")
  | Raise _ => False
  end.
Proof.
  destruct (new_PCIDevice example_lines) as [d|e] eqn:E.
  - split; [rewrite (device_fields example_lines d "numa_node" E)|rewrite (device_fields example_lines d "bus" E)];
      [vm_compute; reflexivity|apply (bool_decide_unpack _); vm_compute; exact I|discriminate|discriminate|
       vm_compute; reflexivity|apply (bool_decide_unpack _); vm_compute; exact I|discriminate|discriminate].
  - assert (X : match new_PCIDevice example_lines with Ok _ => True | Raise _ => False end) by (vm_compute; exact I). rewrite E in X. exact X.
Defined.

(** A root port with its link and its bus. *)
Lemma example_device_read :
  match new_PCIDevice example_lines with
  | Ok d => get "pci_bus" (attrs d) = Some (VBus (Bus (Some "3A") (Some "3B") (Some "3B") (Some "0"))) /\
            get "pci_link" (attrs d) = Some (VLink (Link 5 "16GT/s" "x16" "16GT/s" "x8")) /\ is_root_port d = true /\ is_endpoint d = false
  | Raise _ => False
  end.
Proof. vm_compute. done. Qed.
