(* ===== verification/PciScanner.v ===== *)
(** The search for devices of a virtual machine: src/vm_lib/pci_scanner.py, with the
    remote shell of src/vm_lib/run_command.py.

    The remote machine is a parameter: [shell] gives, for a command line, the exit
    code and the lines of output. *)
From Stdlib Require Import ZArith Lia Bool Ascii String.
From stdpp Require Import base list strings pretty relations.
From S2P Require Import Prelude Python PciParser.
Local Open Scope string_scope.
Local Open Scope py_scope.

(** ** Selections *)

Record PCISelect := Select { _devices : list PCIDevice; _index : nat }.

Definition __next__ (s : PCISelect) : py PCIDevice * PCISelect :=
  if (length (_devices s) <=? _index s)%nat then (Raise StopIteration, Select (_devices s) 0)
  else (nth_py (_devices s) (_index s), Select (_devices s) (S (_index s))).

Definition count (s : PCISelect) : nat := length (_devices s).

(** A for loop over a selection: the devices it sees, and the selection afterwards. *)
Fixpoint iterate (fuel : nat) (s : PCISelect) : option (list PCIDevice * PCISelect) :=
  match fuel with
  | O => None
  | S fuel =>
      match __next__ s with
      | (Ok d, s) => match iterate fuel s with Some (l, s) => Some (d :: l, s) | None => None end
      | (Raise _, s) => Some ([], s)
      end
  end.
Definition seen (s : PCISelect) : list PCIDevice := match iterate (S (count s)) s with Some (l, _) => l | None => [] end.

Definition select_from (s : PCISelect) (kwargs : list (string * pyarg)) : PCISelect :=
  match kwargs with
  | [] => Select (_devices s) 0
  | _ => Select (List.filter (fun d => match_device d kwargs) (_devices s)) 0
  end.

Definition get_from (s : PCISelect) (kwargs : list (string * pyarg)) : py PCIDevice :=
  let result := select_from s kwargs in
  if (count result =? 0)%nat then Raise DoesNotExist else fst (__next__ result).

(** ** The scanner *)

Record ScannerPCI := Scanner { ip : string; username : string; _parser : option (list PCIDevice) }.

Section Scanner.
Context (shell : string -> Z * list string).

Definition run_remote_shell_cmd (ssh_str cmd : string) (port : Z) : py (list string) :=
  let '(returncode, stdout) := shell ("ssh -q -oStrictHostKeyChecking=no -p " +:+ str port +:+ " " +:+ ssh_str +:+ " -- " +:+ cmd) in
  if (returncode =? 0)%Z then Ok stdout else Raise RuntimeError.

(** The pattern of the password prompt: "[sudo]", anything, a colon. *)
Definition is_prompt (line : string) : bool := startswith "[sudo]" line && contains ":" (sdrop 6 line).

Definition _run_command (st : ScannerPCI) (command : string) : py (list string) :=
  let command := if decide (username st <> "root") then "sudo " +:+ command else command in
  let^ out := run_remote_shell_cmd (username st +:+ "@" +:+ ip st) command 22 in
  Ok (List.filter (fun l => negb (is_prompt l)) out).

Definition ishex (c : ascii) : bool := isdigit c || in_range 97 102 c || in_range 65 70 c.

(** The pattern of an address at the start of a line; its dot is any character. *)
Fixpoint fits_pattern (p : list (ascii -> bool)) (s : string) : bool :=
  match p, s with
  | [], _ => true
  | f :: p, String c s => f c && fits_pattern p s
  | _, "" => false
  end.
Definition is_address (line : string) : bool :=
  fits_pattern ([ishex; ishex; ishex; ishex; Ascii.eqb ":"; ishex; ishex; Ascii.eqb ":"; ishex; ishex; (fun _ => true); ishex]) line.

Definition list_command : string :=
  "lspci -D | grep -o -e '[0-9A-Za-z]\{4\}:[0-9A-Za-z]\{2\}:[0-9A-Za-z]\{2\}.[0-9A-Za-z]\{1\}' | sed $'s/[^[:print:]]//g'".

Definition _get_pci_addresses (st : ScannerPCI) : list string :=
  match _run_command st list_command with Ok reply => List.filter is_address reply | Raise _ => [] end.

Definition _scan_single_pci_device (st : ScannerPCI) (address : string) : option (list string) :=
  match _run_command st ("lspci -s " +:+ address +:+ " -D -vv") with Ok l => Some l | Raise _ => None end.

(** The devices are read once, and again when that is asked for. *)
Definition _get_pci (st : ScannerPCI) (force_rescan : bool) : py (ScannerPCI * list PCIDevice) :=
  let rescan :=
    let^ devices := process_data (map (_scan_single_pci_device st) (_get_pci_addresses st)) in
    Ok (Scanner (ip st) (username st) (Some devices), devices) in
  match _parser st with
  | None => rescan
  | Some devices => if force_rescan then rescan else Ok (st, devices)
  end.

Definition select (st : ScannerPCI) (force_rescan : bool) (kwargs : list (string * pyarg)) : py (ScannerPCI * PCISelect) :=
  let^ r := _get_pci st force_rescan in Ok (fst r, select_from (Select (snd r) 0) kwargs).

Definition scanner_get (st : ScannerPCI) (force_rescan : bool) (kwargs : list (string * pyarg)) : py (ScannerPCI * PCIDevice) :=
  let^ r := select st force_rescan [] in let^ d := get_from (snd r) kwargs in Ok (fst r, d).

(** [d.pci_bus.primary] and [d.pci_bus.secondary] *)
Definition bus_attr (d : PCIDevice) (field : PCIBus -> option string) : py (option string) :=
  match PciParser.get "pci_bus" (attrs d) with Some (VBus b) => Ok (field b) | _ => Raise AttributeError end.

Definition arg_of (o : option string) : pyarg := match o with Some s => AStr s | None => ANone end.

Definition get_connected (st : ScannerPCI) (parent : PCIDevice) (force_rescan : bool) : py (ScannerPCI * PCISelect) :=
  let dom_arg := ("addr_dom", AStr (dom (pci_address parent))) in
  if is_host_bridge parent then
    let^ r := select st force_rescan [dom_arg; ("addr_bus", AStr (bus (pci_address parent)))] in
    Ok (fst r, Select (List.filter (fun d => device_ne d parent) (seen (snd r))) 0)
  else if is_root_port parent || is_downstream parent then
    let^ s := bus_attr parent secondary in
    let^ r := select st force_rescan [dom_arg; ("addr_bus", arg_of s)] in
    Ok (fst r, Select (seen (snd r)) 0)
  else if is_upstream parent then
    let^ r := select st force_rescan [dom_arg; ("is_downstream", ABool true)] in
    let^ l := filter_py (fun d => let^ p := bus_attr d primary in let^ s := bus_attr parent secondary in Ok (bool_decide (p = s))) (seen (snd r)) in
    Ok (fst r, Select l 0)
  else Ok (st, Select [] 0).

(** The loop of [get_all_connected_devices], with the call it makes. *)
Fixpoint extend (call : ScannerPCI -> PCIDevice -> py (ScannerPCI * list PCIDevice)) (st : ScannerPCI) (connected l : list PCIDevice) :
    py (ScannerPCI * list PCIDevice) :=
  match l with
  | [] => Ok (st, connected)
  | d :: l => let^ r := call st d in extend call (fst r) (connected ++ snd r)%list l
  end.

(** The recursion; [depth] calls are left before Python's limit. *)
Fixpoint get_all_connected_devices (depth : nat) (st : ScannerPCI) (parent : PCIDevice) (force_rescan : bool) : py (ScannerPCI * list PCIDevice) :=
  match depth with
  | O => Raise RecursionError
  | S depth =>
      let^ r := get_connected st parent force_rescan in
      extend (fun st d => get_all_connected_devices depth st d false) (fst r) [parent] (seen (snd r))
  end.
End Scanner.

(** ** Selections see every device once *)

Lemma iterate_S fuel s :
  iterate (S fuel) s =
    match __next__ s with
    | (Ok d, s) => match iterate fuel s with Some (l, s) => Some (d :: l, s) | None => None end
    | (Raise _, s) => Some ([], s)
    end.
Proof. done. Qed.

Lemma iterate_from l i : (i <= length l)%nat -> iterate (S (length l - i)) (Select l i) = Some (drop i l, Select l 0).
Proof.
  intros Hi. remember (length l - i)%nat as n eqn:En. revert i Hi En. induction n as [|n IH]; intros i Hi En; rewrite iterate_S; unfold __next__; cbn [_devices _index].
  - rewrite (proj2 (Nat.leb_le _ _)) by lia. by rewrite drop_ge by lia.
  - rewrite (proj2 (Nat.leb_gt _ _)) by lia. destruct (lookup_lt_is_Some_2 l i) as [d Hd]; [lia|]. unfold nth_py. rewrite Hd.
    rewrite IH by lia. by rewrite (drop_S l d i Hd).
Qed.

Lemma seen_all l : seen (Select l 0) = l.
Proof. unfold seen, count. cbn [_devices]. pose proof (iterate_from l 0) as H. rewrite Nat.sub_0_r in H. rewrite H by lia. done. Qed.

(** A loop over a selection sees its devices in order, each once, and leaves the
    selection ready for the next loop. *)
Theorem selection_iterates (l : list PCIDevice) : iterate (S (count (Select l 0))) (Select l 0) = Some (l, Select l 0).
Proof. unfold count. cbn [_devices]. pose proof (iterate_from l 0) as H. rewrite Nat.sub_0_r in H. by apply H; lia. Qed.

Lemma select_cached shell st devs kwargs :
  _parser st = Some devs -> select shell st false kwargs = Ok (st, select_from (Select devs 0) kwargs).
Proof. intros E. unfold select, _get_pci. by rewrite E. Qed.

Lemma selected devs kwargs d : d ∈ seen (select_from (Select devs 0) kwargs) <-> d ∈ devs /\ match_device d kwargs = true.
Proof.
  destruct kwargs as [|kv kwargs]; cbn [select_from _devices]; rewrite seen_all; [cbn; tauto|].
  rewrite !list_elem_of_In, filter_In. tauto.
Qed.

(** A search finds the first device that fits.  On the devices of an earlier scan, the
    selection for a set of conditions has exactly the devices that meet them, and
    getting one device gives the first of these, or fails when there is none. *)
Theorem search_correct (shell : string -> Z * list string) (st : ScannerPCI) (devs : list PCIDevice) (kwargs : list (string * pyarg)) :
  _parser st = Some devs -> kwargs <> [] ->
  exists s, select shell st false kwargs = Ok (st, s) /\ _devices s = List.filter (fun d => match_device d kwargs) devs /\
    scanner_get shell st false kwargs = match List.find (fun d => match_device d kwargs) devs with Some d => Ok (st, d) | None => Raise DoesNotExist end.
Proof.
  intros E Hk. eexists. split; [by apply select_cached|]. destruct kwargs as [|kv kwargs]; [done|]. split; [done|].
  unfold scanner_get. rewrite (select_cached shell st devs []) by done. cbn [pbind fst snd]. unfold get_from. cbn [select_from _devices].
  set (f := fun d => match_device d (kv :: kwargs)). unfold count. cbn [_devices]. clearbody f.
  assert (H : forall l, List.find f l = head (List.filter f l)).
  { induction l as [|x l IH]; [done|]. cbn. by destruct (f x). }
  rewrite H. destruct (List.filter f devs) as [|d l]; done.
Qed.

(** ** Walking the buses *)

(** The devices connected to a device, among those of a scan. *)
Definition children (devs : list PCIDevice) (parent : PCIDevice) : py (list PCIDevice) :=
  let^ r := get_connected (fun _ => (0%Z, [])) (Scanner "" "" (Some devs)) parent false in Ok (seen (snd r)).

Lemma get_connected_cached shell st devs parent :
  _parser st = Some devs ->
  get_connected shell st parent false = let^ l := children devs parent in Ok (st, Select l 0).
Proof.
  intros E. unfold children, get_connected. rewrite !(select_cached _ (Scanner _ _ _) devs) by done. rewrite !(select_cached shell st devs) by done.
  cbn [pbind fst snd]. destruct (is_host_bridge parent); [cbn [pbind snd fst]; by rewrite (seen_all (List.filter _ _))|].
  destruct (is_root_port parent || is_downstream parent).
  - destruct (bus_attr parent secondary) as [s|]; [|done]. cbn [pbind fst snd].
    rewrite !(select_cached _ (Scanner _ _ _) devs), !(select_cached shell st devs) by done. cbn [pbind fst snd]. by rewrite (seen_all (seen _)).
  - destruct (is_upstream parent); [|cbn [pbind fst snd]; by rewrite seen_all].
    destruct (filter_py _ _) as [l|]; [|done]. cbn [pbind fst snd]. by rewrite seen_all.
Qed.

Definition child (devs : list PCIDevice) (a b : PCIDevice) : Prop := exists cs, children devs a = Ok cs /\ b ∈ cs.

Lemma filter_py_sub {A} (f : A -> py bool) l r : filter_py f l = Ok r -> forall x, x ∈ r -> x ∈ l.
Proof.
  revert r. induction l as [|y l IH]; cbn; intros r H x Hx; [by simplify_eq|]. destruct (f y) as [b|]; [|done]. cbn in H.
  destruct (filter_py f l) as [r'|]; [|done]. cbn in H. injection H as <-. destruct b; [apply list.elem_of_cons in Hx as [->|Hx]; [by left|]|]; right; by apply (IH r').
Qed.

Lemma children_sub devs d cs : children devs d = Ok cs -> forall c, c ∈ cs -> c ∈ devs.
Proof.
  unfold children, get_connected. intros H c Hc. rewrite !(select_cached _ (Scanner _ _ _) devs) in H by done. cbn [pbind fst snd] in H.
  destruct (is_host_bridge d).
  { cbn [pbind fst snd] in H. rewrite seen_all in H. injection H as <-. rewrite list_elem_of_In, filter_In, <- list_elem_of_In in Hc. destruct Hc as [Hc _]. by apply (selected devs [_; _]) in Hc as [? _]. }
  destruct (is_root_port d || is_downstream d).
  { destruct (bus_attr d secondary) as [s|]; [|done]. cbn [pbind fst snd] in H. rewrite !(select_cached _ (Scanner _ _ _) devs) in H by done. cbn [pbind fst snd] in H.
    rewrite seen_all in H. injection H as <-. by apply (selected devs [_; _]) in Hc as [? _]. }
  destruct (is_upstream d); [|cbn [pbind fst snd] in H; rewrite seen_all in H; injection H as <-; by apply not_elem_of_nil in Hc].
  destruct (filter_py _ _) as [l|] eqn:F in H; [|done]. cbn [pbind fst snd] in H. rewrite seen_all in H. injection H as <-.
  apply (filter_py_sub _ _ _ F) in Hc. by apply (selected devs [_; _]) in Hc as [? _].
Qed.

(** Every device shows what is connected to it, and that is of lower rank. *)
Definition is_tree (rank : PCIDevice -> nat) (devs : list PCIDevice) : bool :=
  forallb (fun a => match children devs a with Ok cs => forallb (fun b => rank b <? rank a)%nat cs | Raise _ => false end) devs.

Lemma is_tree_children rank devs a :
  is_tree rank devs = true -> a ∈ devs -> exists cs, children devs a = Ok cs /\ forall b, b ∈ cs -> (rank b < rank a)%nat.
Proof.
  unfold is_tree. rewrite forallb_forall. intros H Ha. specialize (H a). rewrite <- list_elem_of_In in H. specialize (H Ha).
  destruct (children devs a) as [cs|]; [|done]. exists cs. split; [done|]. intros b Hb. rewrite forallb_forall in H. specialize (H b).
  rewrite <- list_elem_of_In in H. apply Nat.ltb_lt. by apply H.
Qed.


(** ** Examples *)

Definition read_devices (data : list (list string)) : list PCIDevice := match process_data (map Some data) with Ok l => l | Raise _ => [] end.

(** A host bridge and a root port, behind which the shared memory is. *)
Definition example_tree : list PCIDevice := read_devices
  [["0000:00:00.0 Host bridge: Intel Corporation"; "Subsystem: Intel"; "Control: I/O+"];
   ["0000:00:03.0 PCI bridge: Red Hat, Inc."; "Subsystem: Red Hat"; "Control: I/O+"; "Bus: primary=00, secondary=01, subordinate=01, sec-latency=0";
    "Capabilities: [54] Express (v2) Root Port (Slot+), MSI 00"];
   ["0000:01:00.0 RAM memory: Red Hat, Inc. Inter-VM shared memory"; "Subsystem: Red Hat"; "Control: I/O+"]].

Definition example_rank (d : PCIDevice) : nat := if is_host_bridge d then 2 else if is_root_port d then 1 else 0.

Lemma search_correct_witness :
  exists s, select (fun _ => (0%Z, [])) (Scanner "10.0.0.2" "root" (Some example_tree)) false [("name", AStr "*Inter-VM*")] =
      Ok (Scanner "10.0.0.2" "root" (Some example_tree), s) /\ map (fun d => address (pci_address d)) (_devices s) = ["0000:01:00.0"].
Proof.
  destruct (search_correct (fun _ => (0%Z, [])) (Scanner "10.0.0.2" "root" (Some example_tree)) example_tree [("name", AStr "*Inter-VM*")])
    as (s & E & D & _); [reflexivity|discriminate|]. exists s. split; [exact E|]. rewrite D. vm_compute. reflexivity.
Defined.


(** ** Host bridges *)

Definition addr_bus_equal (a b : PCIDevice) : bool :=
  bool_decide (dom (pci_address a) = dom (pci_address b)) && bool_decide (bus (pci_address a) = bus (pci_address b)).

(** Two host bridges of one bus. *)
Definition bridges (name1 name2 : string) : list PCIDevice := read_devices
  [["0000:00:00.0 Host bridge: " +:+ name1; "Subsystem: x"; "Control: I/O+"]; ["0000:00:01.0 Host bridge: " +:+ name2; "Subsystem: x"; "Control: I/O+"]].

(** With two different host bridges on a bus, as many processors show them, the search
    from one of them does not end: each is connected to the other, and the recursion
    fails at any limit. *)
Theorem host_bridges_recur (shell : string -> Z * list string) (depth : nat) (d : PCIDevice) :
  d ∈ bridges "Root Complex" "PCIe Dummy Host Bridge" ->
  get_all_connected_devices shell depth (Scanner "" "root" (Some (bridges "Root Complex" "PCIe Dummy Host Bridge"))) d false = Raise RecursionError.
Proof.
  set (devs := bridges _ _).
  assert (L : forallb (fun a => match children devs a with Ok (b :: _) => existsb (fun c => bool_decide (address (pci_address b) = address (pci_address c))) devs | _ => false end) devs = true)
    by (vm_compute; reflexivity).
  revert d. induction depth as [|depth IH]; intros d Hd; [done|]. cbn [get_all_connected_devices].
  rewrite (get_connected_cached shell _ devs) by done. rewrite forallb_forall in L. specialize (L d). rewrite <- list_elem_of_In in L. specialize (L Hd).
  destruct (children devs d) as [[|b cs]|] eqn:E; [done| |done]. cbn [pbind fst snd]. rewrite seen_all. cbn [extend]. rewrite IH; [done|].
  apply (children_sub devs d _ E). by left.
Qed.

(** Devices are told apart by type and name.  The comparison of two devices uses the
    entry "Address", which a bridge does not have, in place of the address: a second host
    bridge of the same model counts as the first one, and is not among the devices
    connected to it. *)
Theorem equal_bridges_dropped :
  match bridges "Root Complex" "Root Complex" with
  | [a; b] => device_eq a b = true /\ address_eq (pci_address a) (pci_address b) = false /\
      addr_bus_equal a b = true /\ children [a; b] a = Ok []
  | _ => False
  end.
Proof. vm_compute. done. Qed.
