(* ===== verification/StartVm.v ===== *)
(** The start of the virtual machines: src/vm_lib/start_vm.py, with the helpers of
    run_command.py, cpu.py, cpupin.py, gpu.py, ivshmem.py and network.py.

    The host is a parameter: what commands answer, which files exist, what the netlink
    library finds and the random numbers drawn.  A script is a sequence of the commands
    it runs; requests to netlink, which are taken to succeed, and files written are
    recorded among them. *)
From Stdlib Require Import ZArith Lia Bool Ascii String.
From stdpp Require Import base list strings pretty numbers sorting.
From S2P Require Import Prelude Python.
Local Open Scope Z_scope.
Local Open Scope string_scope.
Local Open Scope py_scope.

Inductive CPUKind := Intel | AMD_EPYC.
Inductive GPUKind := NVIDIA | AMD | NONE.

#[export] Instance cpu_kind_dec : EqDecision CPUKind.
Proof. solve_decision. Defined.
#[export] Instance gpu_kind_dec : EqDecision GPUKind.
Proof. solve_decision. Defined.

(** The option [--mem_local_percent] has no type: its default is a number, and what is
    given on the command line a string. *)
Inductive percent := PInt (z : Z) | PStr (s : string).

Record Args := {
  qemu_bin : string; kernel : option string; initrd : option string; drive : string; vmdir : string; num_vms : Z; num_cpus : Z; mem_size_mb : Z;
  add_user_ssh : bool; shmem_dir : option string; shmem_size_mb : Z; shmem_dir_numa : list Z; vm_numa_node : list Z; msi_vectors : Z;
  use_ivshmem_doorbell : bool; mem_local_percent : percent; arg_pass_gpu : bool; use_mlnx_ib : bool; use_mlnx_ether : bool;
  num_ether_per_vm : Z; num_ib_per_vm : Z; host_id : Z; shared_dir : option string; restart_vm : option Z; use_ovmf : bool }.

(** An optional string as a condition. *)
Definition given (o : option string) : option string := match o with Some "" => None | o => o end.

Definition hex_digit (z : Z) : ascii := match String.get (Z.to_nat z) "0123456789ABCDEF" with Some c => c | None => "?"%char end.
(** [{z:02X}] *)
Definition hex2 (z : Z) : string := String (hex_digit (z / 16)) (String (hex_digit (z mod 16)) "").
Definition get_rand_macaddr (rand : Z * Z) : string := "DE:AD:BE:EF:" +:+ hex2 (fst rand) +:+ ":" +:+ hex2 (snd rand).

(** ** The command line of a machine *)

Definition construct_blk_cmd (qemu_cmd : list string) (numcpus : Z) (vmdrive_file : string) : list string :=
  qemu_cmd ++
  ["-device"; "virtio-blk-pci,packed=on,num-queues=" +:+ str numcpus +:+ ",drive=drive0,id=virblk0";
   "-drive"; "if=none,file=" +:+ vmdrive_file +:+ ",format=raw,media=disk,id=drive0"].

Definition construct_tap_net_cmd (qemu_cmd : list string) (rand_mac : string) (vm_id : Z) : list string :=
  qemu_cmd ++
  ["-device"; "virtio-net-pci,mq=on,packed=on,netdev=network" +:+ str vm_id +:+ ",mac=" +:+ rand_mac +:+ ",romfile=";
   "-netdev"; "tap,id=network" +:+ str vm_id +:+ ",vhost=on,ifname=tap" +:+ str vm_id +:+ ",script=no,downscript=no"].

(** The virtual functions of a machine; the index does not become negative. *)
Fixpoint sriov_loop (qemu_cmd : list string) (vm_id : Z) (vf_devs : list (string * string)) (num_vfs_per_vm : Z) (l : list Z) : py (list string) :=
  match l with
  | [] => Ok qemu_cmd
  | i :: l =>
      let^ vf_dev := nth_py vf_devs (Z.to_nat (vm_id * num_vfs_per_vm + i)) in
      sriov_loop (qemu_cmd ++ ["-device"; "vfio-pci,host=" +:+ fst vf_dev; "-nic"; "none"])%list vm_id vf_devs num_vfs_per_vm l
  end.
Definition construct_sriov_vfio_net_cmd (qemu_cmd : list string) (vm_id : Z) (vf_devs : list (string * string)) (num_vfs_per_vm : Z) : py (list string) :=
  sriov_loop qemu_cmd vm_id vf_devs num_vfs_per_vm (range num_vfs_per_vm).

Definition construct_user_net_cmd (qemu_cmd : list string) (vm_id : Z) : list string :=
  let ssh_port := 10022 + vm_id in
  qemu_cmd ++
  ["-device"; "virtio-net-pci,netdev=netssh" +:+ str vm_id;
   "-netdev"; "user,id=netssh" +:+ str vm_id +:+ ",hostfwd=tcp::" +:+ str ssh_port +:+ "-:22"].

Definition construct_shared_mem (qemu_cmd : list string) (vm_id : Z) (shmem_path : string) (shmem_size_mb msi_vectors : Z) (use_ivshmem_doorbell : bool) : list string :=
  if use_ivshmem_doorbell then
    qemu_cmd ++
    ["-device"; "ivshmem-doorbell,vectors=" +:+ str msi_vectors +:+ ",chardev=ivshmem-server";
     "-chardev"; "socket,path=" +:+ shmem_path +:+ "." +:+ str (vm_id + 1) +:+ ",id=ivshmem-server"]
  else
    qemu_cmd ++
    ["-device"; "ivshmem-plain,memdev=ivshmem";
     "-object"; "memory-backend-file,size=" +:+ str shmem_size_mb +:+ "M,share=on,mem-path=" +:+ shmem_path +:+ ",id=ivshmem"].

Definition construct_shared_dir (qemu_cmd : list string) (shared_dir : string) : list string :=
  qemu_cmd ++ ["-virtfs"; "local,path=" +:+ shared_dir +:+ ",mount_tag=host,security_model=none"].

Definition construct_vnode_single (qemu_cmd : list string) (mem_size_mb : Z) : list string :=
  qemu_cmd ++
  ["-object"; "memory-backend-ram,id=mem0,size=" +:+ str mem_size_mb +:+ "M,prealloc=on,host-nodes=0,policy=bind,merge=off";
   "-numa"; "node,nodeid=0,memdev=mem0"; "-numa"; "cpu,node-id=0,socket-id=0"; "-numa"; "dist,src=0,dst=0,val=10"].

(** The dollar signs are in the source. *)
Definition construct_vnode (qemu_cmd : list string) (numcpus vnodeid hnodeid mem_size_mb : Z) (vcpus : string) : list string :=
  let ram_backend := "memory-backend-ram,size=$" +:+ str mem_size_mb +:+ "M,policy=bind,host-nodes=" +:+ str hnodeid +:+ "," +:+
    "id=ram-node" +:+ str vnodeid +:+ ",prealloc=on,prealloc-threads=" +:+ str numcpus in
  let numa_node_config := "node,nodeid=${vnodeid}," in
  let numa_node_config := if decide (vcpus <> "") then numa_node_config +:+ "cpus=" +:+ vcpus +:+ "," else numa_node_config in
  let numa_node_config := numa_node_config +:+ "memdev=ram-node" +:+ str vnodeid in
  qemu_cmd ++ ["-object"; ram_backend; "-numa"; numa_node_config].

(** [int(a * p / 100.0)] for numbers a float holds exactly. *)
Definition percent_of (a p : Z) : Z := Z.quot (a * p) 100.

(** The memory of a machine.  A number times a string is a string, which cannot be
    divided. *)
Definition construct_memory (qemu_cmd : list string) (args : Args) : py (list string) :=
  let cpus := "0-" +:+ str (num_cpus args - 1) in
  match mem_local_percent args with
  | PStr _ => Raise TypeError
  | PInt p =>
      if p =? 100 then Ok (construct_vnode qemu_cmd (num_cpus args) 0 0 (mem_size_mb args) cpus)
      else if p =? 0 then Ok (construct_vnode qemu_cmd (num_cpus args) 0 1 (mem_size_mb args) "")
      else if negb (p =? -1) then
        let vnode0 := percent_of (mem_size_mb args) p in
        let vnode1 := mem_size_mb args - vnode0 in
        Ok (construct_vnode (construct_vnode qemu_cmd (num_cpus args) 0 0 vnode0 cpus) (num_cpus args) 1 1 vnode1 "")
      else Ok (construct_vnode_single qemu_cmd (mem_size_mb args))
  end%Z.

(** ** Files of a machine *)

(** The network files of a machine and the address written to each; a file without an
    address gets its own by DHCP. *)
Definition create_static_ip_addr_network_config (per_vmdir ip_addr : string) (network_card_id : Z) : string * option string :=
  (path_join per_vmdir (str (2 + network_card_id) +:+ "0-wired.network"), Some ip_addr).
Definition create_static_ip_addr_ib_config (per_vmdir ip_addr : string) : string * option string :=
  (path_join per_vmdir "40-wired.network", Some ip_addr).
Definition create_dhcp_network_config_for_userssh (per_vmdir : string) (network_cards : Z) : string * option string :=
  (path_join per_vmdir (str (2 + network_cards) +:+ "0-wired.network"), None).

Definition first_ip (vm_id ether_card_per_vm ib_card_per_vm num_vms host_id : Z) : Z :=
  let num_ip_required := num_vms * (ether_card_per_vm + ib_card_per_vm) in
  2 + (vm_id * ether_card_per_vm + vm_id * ib_card_per_vm) + host_id * num_ip_required.

Definition ip_addr_of (ip : Z) : string := "192.168.100." +:+ str ip.

(** The two loops over the cards, which count [ip] up: the files, the last address and
    the next one. *)
Definition ether_loop (per_vmdir : string) (ip : Z) (cards : Z) : list (string * option string) :=
  map (fun i => create_static_ip_addr_network_config per_vmdir (ip_addr_of (ip + i)) i) (range cards).
Definition ib_loop (per_vmdir : string) (ip : Z) (cards : Z) : list (string * option string) :=
  map (fun i => create_static_ip_addr_ib_config per_vmdir (ip_addr_of (ip + i))) (range cards).

Definition network_files (per_vmdir : string) (ether_card_per_vm ib_card_per_vm : Z) (user_ssh : bool) (ip : Z) : list (string * option string) :=
  ether_loop per_vmdir ip ether_card_per_vm ++ ib_loop per_vmdir (ip + Z.max 0 ether_card_per_vm) ib_card_per_vm ++
  (if user_ssh then [create_dhcp_network_config_for_userssh per_vmdir (ether_card_per_vm + ib_card_per_vm)] else []).

(** [ip_addr] after the loops; it is not bound when there is no card. *)
Definition last_ip (ether_card_per_vm ib_card_per_vm ip : Z) : py string :=
  let n := Z.max 0 ether_card_per_vm + Z.max 0 ib_card_per_vm in
  if (n =? 0)%Z then Raise UnboundLocalError else Ok (ip_addr_of (ip + n - 1)).

(** ** Processors *)

Record CpuLine := { cpu : Z; core : Z; socket : Z; node : Z }.

(** The order of the lines: by core, then by the fields in their order. *)
Definition cpu_key (c : CpuLine) : list Z := [core c; cpu c; core c; socket c; node c].
Fixpoint lex_le (a b : list Z) : bool :=
  match a, b with
  | [], _ => true
  | _, [] => false
  | x :: a, y :: b => (x <? y)%Z || ((x =? y)%Z && lex_le a b)
  end.
Definition cpu_le (a b : CpuLine) : Prop := lex_le (cpu_key a) (cpu_key b) = true.
#[export] Instance cpu_le_dec : RelDecision cpu_le.
Proof. intros a b. unfold cpu_le. apply _. Defined.

Definition parse_cpuline (line : string) : py CpuLine :=
  let^ ns := map_py to_int (take 4 (split "," line)) in
  match ns with [a; b; c; d] => Ok {| cpu := a; core := b; socket := c; node := d |} | _ => Raise ValueError end.

Fixpoint cpulines (node_num : Z) (lines : list string) : py (list CpuLine) :=
  match lines with
  | [] => Ok []
  | line :: lines =>
      if startswith "#" line then cpulines node_num lines
      else
        let^ c := parse_cpuline line in
        let^ r := cpulines node_num lines in
        Ok (if (socket c =? node_num)%Z then c :: r else r)
  end.

(** The processor for a virtual one: [cpulist[cpuidx % cpulist_len].cpu]. *)
Definition cpu_to_pin (cpulist : list CpuLine) (cpuidx : Z) : py Z :=
  if decide (cpulist = []) then Raise ZeroDivisionError
  else let^ c := nth_py cpulist (Z.to_nat (cpuidx mod Z.of_nat (length cpulist))) in Ok (cpu c).

(** ** The host *)

Section Host.
(** The answer of a command after the commands before it: its exit code and its output. *)
Context (answer : list (list string) -> list string -> Z * list string).
Context (path_exists : list (list string) -> string -> bool) (ismount : list (list string) -> string -> bool).
Context (link_lookup : list (list string) -> string -> list Z) (uid : Z) (rand : Z -> Z * Z).
(** What the monitor of a machine says of its processors: thread and index. *)
Context (query_cpus : list (list string) -> Z -> list (Z * Z)).
(** The type and the name of an interface, from the output of the ip command. *)
Context (json_iface : list string -> string * string).
Context (SCRIPT_DIR : string).

Definition LINUX_VM_BUILD_DIR : string := path_join (path_join (path_join SCRIPT_DIR "..") "linux_qemu") "setup_vm".

Definition run_local_command (cmd : list string) (allow_fail : bool) : script (Z * list string) :=
  fun t => let '(returncode, out) := answer t cmd in
    (if negb allow_fail && negb (returncode =? 0)%Z then Raise RuntimeError else Ok (returncode, out), t ++ [cmd])%list.
Definition run (cmd : list string) : script unit := run_local_command cmd false ;; sret tt.
Definition record (cmd : list string) : script unit := fun t => (Ok tt, t ++ [cmd])%list.
Definition ask {A} (f : list (list string) -> A) : script A := fun t => (Ok (f t), t).

(** [line.split(":", 1)]: the part behind the first colon. *)
Fixpoint behind (c : ascii) (s : string) : py string :=
  match s with "" => Raise ValueError | String d s => if Ascii.eqb c d then Ok s else behind c s end.

Fixpoint cpu_model_of (lines : list string) : py (option CPUKind) :=
  match lines with
  | [] => Ok None
  | line :: lines =>
      let model_name :=
        if contains "Model name" line then
          let^ model := behind ":" line in if contains "EPYC" (strip model) then Ok (Some AMD_EPYC) else cpu_model_of lines
        else cpu_model_of lines in
      if contains "Vendor ID" line then
        let^ vendor := behind ":" line in
        if contains "AMD" (strip vendor) then cpu_model_of lines
        else if contains "Intel" (strip vendor) then Ok (Some Intel) else model_name
      else model_name
  end.
Definition get_cpu_model : script (option CPUKind) := do^ r := run_local_command ["lscpu"] false in lift (cpu_model_of (snd r)).

Definition construct_basic_qemu_cmd (args : Args) (vm_id : Z) : script (list string) :=
  let qemu_monitor_path := path_join (vmdir args) (str vm_id +:+ "/qemu-monitor.sock") in
  do^ cpukind := get_cpu_model in
  let cpu_model := if decide (cpukind = Some AMD_EPYC) then "EPYC,topoext" else "host" in
  do^ traced := ask (fun t => path_exists t "/tmp/events") in
  let trace := if traced : bool then ["--trace"; "events=/tmp/events"] else [] in
  let numa_cpu := join "," (map str (vm_numa_node args)) in
  let gdb_port := 1234 + vm_id in
  let qemu_cmd := (["numactl"; "--cpunodebind=" +:+ numa_cpu; "--"; qemu_bin args] ++ trace ++
    ["-machine"; "q35,accel=kvm,mem-merge=off"; "-cpu"; cpu_model; "-D"; "./qemu_log" +:+ str vm_id +:+ ".txt";
     "-m"; str (mem_size_mb args) +:+ "M,maxmem=" +:+ str (mem_size_mb args) +:+ "M"; "--overcommit"; "mem-lock=on";
     "--overcommit"; "cpu-pm=on";
     "-smp"; str (num_cpus args) +:+ ",maxcpus=" +:+ str (num_cpus args) +:+ ",sockets=1,cores=" +:+ str (num_cpus args);
     "-enable-kvm"; "-display"; "none"; "-daemonize"; "-device"; "virtio-rng-pci";
     "-qmp"; "unix:" +:+ qemu_monitor_path +:+ ",server,nowait"; "-gdb"; "tcp::" +:+ str gdb_port;
     "-pidfile"; vmdir args +:+ "/" +:+ str vm_id +:+ "/pid"])%list in
  let qemu_cmd := if use_ovmf args then
    (qemu_cmd ++ ["-drive"; "if=pflash,format=raw,file=" +:+ vmdir args +:+ "/OVMF_CODE.fd,readonly=on";
                  "-drive"; "if=pflash,format=raw,file=" +:+ vmdir args +:+ "/" +:+ str vm_id +:+ "/OVMF_VARS.fd"])%list else qemu_cmd in
  sret (match given (kernel args), given (initrd args) with
        | Some k, Some i => (qemu_cmd ++ ["-kernel"; k; "-initrd"; i; "-append"; "selinux=0 audit=0 console=ttyS0 root=/dev/vda2 ignore_loglevel rw"])%list
        | _, _ => qemu_cmd
        end).

Definition setup_bridge_tap_network (vmdir : string) (num_vms : Z) : script unit :=
  run ["sudo"; "modprobe"; "tun"; "tap"] ;;
  run ["sudo"; "iptables-save"] ;;
  record ["write"; path_join vmdir "iptables.rules.old"] ;;
  run ["sudo"; "sysctl"; "-w"; "net.ipv4.ip_forward=1"] ;;
  do^ br_arr := ask (fun t => link_lookup t "br0") in
  (if decide (br_arr = []) then record ["link"; "add"; "br0"; "kind=bridge"] else sret tt) ;;
  do^ found := ask (fun t => link_lookup t "br0") in
  do^ br := lift (nth_py found 0) in
  record ["link"; "set"; str br; "state=down"] ;;
  record ["addr"; "add"; "192.168.100.1"; str br] ;;
  for_each (range num_vms) (fun i =>
    let tap_name := "tap" +:+ str i in
    do^ tap := ask (fun t => link_lookup t tap_name) in
    (if decide (tap = []) then record ["link"; "add"; tap_name; "kind=tuntap"; "mode=tap"; "uid=" +:+ str uid] else sret tt) ;;
    do^ found := ask (fun t => link_lookup t tap_name) in
    do^ tap := lift (nth_py found 0) in
    do^ found := ask (fun t => link_lookup t "br0") in
    do^ br := lift (nth_py found 0) in
    record ["link"; "set"; str tap; "state=up"] ;;
    record ["link"; "set"; str tap; "master=" +:+ str br]) ;;
  record ["link"; "set"; str br; "state=up"].

(** ** Shared memory and disks *)

Definition setup_cxl_host (cxl_host_dir : string) (cxl_host_dir_size_mb : Z) (shmem_dir_numa : list Z) : script unit :=
  run (words ("sudo mkdir -p " +:+ cxl_host_dir)) ;;
  let numa := join "," (map str shmem_dir_numa) in
  do^ mounted := ask (fun t => ismount t cxl_host_dir) in
  (if mounted : bool then run (words ("sudo umount " +:+ cxl_host_dir)) else sret tt) ;;
  do^ mounted := ask (fun t => ismount t cxl_host_dir) in
  if mounted : bool then sret tt
  else run (words ("sudo mount -t tmpfs -o size=" +:+ str cxl_host_dir_size_mb +:+ "M -o mpol=bind:" +:+ numa +:+ " -o rw,nosuid,nodev tmpfs " +:+ cxl_host_dir)).

(** The file is made longer to as many KiB as the size has MiB. *)
Definition start_ivshmem (vmdir : string) (num_vms : Z) (shmem_dir : string) (shmem_size_mb msi_vectors : Z) : script string :=
  let rust_ivshmem := path_join SCRIPT_DIR "../ivshmem/ivshmem-host" in
  let ivshmem_server_path := path_join (path_join rust_ivshmem "target/release/") "ivshmem-server" in
  do^ built := ask (fun t => path_exists t ivshmem_server_path) in
  (if built : bool then sret tt else run ["sh"; "cd " +:+ rust_ivshmem +:+ " && cargo build --release"]) ;;
  let ivshmem_server_sock := path_join vmdir "ivshmem_sock" in
  let cxl_path := path_join shmem_dir "mem_1" in
  do^ there := ask (fun t => path_exists t cxl_path) in
  (if there : bool then sret tt else record ["truncate"; cxl_path; str (shmem_size_mb * 1024)]) ;;
  record [ivshmem_server_path; "--socket-path"; ivshmem_server_sock; "--memory-path"; cxl_path; "--memory-size"; str shmem_size_mb +:+ "M";
          "--vector-count"; str msi_vectors; "--vm-count"; str num_vms; "--vm-offset"] ;;
  sret ivshmem_server_sock.

Definition setup_shared_mem (vmdir : string) (num_vms : Z) (shmem_dir : string) (shmem_dir_numa : list Z) (shmem_size_mb msi_vectors : Z)
    (use_ivshmem_doorbell : bool) : script string :=
  let cxl_dir_size := shmem_size_mb + 512 in
  setup_cxl_host shmem_dir cxl_dir_size shmem_dir_numa ;;
  if use_ivshmem_doorbell then start_ivshmem vmdir num_vms shmem_dir shmem_size_mb msi_vectors
  else
    let shmem_path := path_join shmem_dir "mem_1" in
    run ["truncate"; "-s"; str shmem_size_mb +:+ "M"; shmem_path] ;; sret shmem_path.

(** The commands run side by side; one that fails raises when all have started. *)
Definition run_local_command_parallel (cmds : list (list string)) : script unit :=
  fun t => (if existsb (fun cmd => negb (fst (answer t cmd) =? 0)%Z) cmds then Raise RuntimeError else Ok tt, t ++ cmds)%list.

Definition dd_cmd (drive per_vm_drive : string) : list string :=
  ["dd"; "if=" +:+ drive; "of=" +:+ per_vm_drive; "iflag=direct"; "oflag=direct"; "bs=64K"; "conv=sparse"].

Fixpoint missing_disks (top_vmdir drive drive_file_name : string) (l : list Z) : script (list (list string)) :=
  match l with
  | [] => sret []
  | vm_id :: l =>
      let per_vmdir := path_join top_vmdir (str vm_id) in
      record ["makedirs"; per_vmdir] ;;
      let per_vm_drive := path_join per_vmdir drive_file_name in
      do^ there := ask (fun t => path_exists t per_vm_drive) in
      do^ r := missing_disks top_vmdir drive drive_file_name l in
      sret (if there : bool then r else dd_cmd drive per_vm_drive :: r)
  end.
Definition copy_vm_disk (top_vmdir : string) (num_vms : Z) (drive drive_file_name : string) : script unit :=
  do^ copy_cmds := missing_disks top_vmdir drive drive_file_name (range num_vms) in run_local_command_parallel copy_cmds.

Definition prepare_vmdir (top_vmdir drive : string) (vm_id : Z) (drive_file_name : string) (ether_card_per_vm ib_card_per_vm : Z) (user_ssh : bool)
    (num_vms host_id : Z) : script unit :=
  let per_vmdir := path_join top_vmdir (str vm_id) in
  record ["makedirs"; per_vmdir] ;;
  let mount_dir := path_join per_vmdir "mnt" in
  let etc_dir := path_join mount_dir "etc" in
  let network_dir := path_join (path_join etc_dir "systemd") "network" in
  record ["makedirs"; mount_dir] ;;
  let vmdrive_file := path_join per_vmdir drive_file_name in
  record ["copy"; "/usr/share/OVMF/OVMF_VARS.fd"; per_vmdir] ;;
  do^ there := ask (fun t => path_exists t vmdrive_file) in
  (if there : bool then sret tt else run (dd_cmd drive vmdrive_file)) ;;
  let ip := first_ip vm_id ether_card_per_vm ib_card_per_vm num_vms host_id in
  let files := network_files per_vmdir ether_card_per_vm ib_card_per_vm user_ssh ip in
  for_each files (fun f => record ["write"; fst f; default "dhcp" (snd f)]) ;;
  do^ ip_addr := lift (last_ip ether_card_per_vm ib_card_per_vm ip) in
  let etchosts_file := path_join per_vmdir "hosts" in
  record ["write"; etchosts_file; ip_addr] ;;
  run ["sudo"; "guestmount"; "-i"; "-a"; vmdrive_file; mount_dir] ;;
  for_each files (fun f => run ["sudo"; "mv"; fst f; network_dir]) ;;
  run ["sudo"; "mv"; etchosts_file; etc_dir] ;;
  run ["sudo"; "cp"; path_join LINUX_VM_BUILD_DIR "gai.conf"; etc_dir] ;;
  run ["sudo"; "umount"; mount_dir] ;;
  run ["sync"].

Definition parse_lscpu_node (node_num : Z) : script (list CpuLine) :=
  do^ r := run_local_command ["lscpu"; "-p"] false in
  do^ l := lift (cpulines node_num (snd r)) in sret (merge_sort cpu_le l).

Fixpoint cpus_of_nodes (l : list Z) : script (list CpuLine) :=
  match l with
  | [] => sret []
  | n :: l => do^ a := parse_lscpu_node n in do^ b := cpus_of_nodes l in sret (a ++ b)%list
  end.

Definition pin_vm_threads (args : Args) (vms : list Z) : script unit :=
  do^ cpulist := cpus_of_nodes (vm_numa_node args) in
  for_each vms (fun vm_id =>
    do^ vcpus := ask (fun t => query_cpus t vm_id) in
    for_each vcpus (fun v =>
      let cpuidx := snd v + vm_id * num_cpus args in
      do^ p := lift (cpu_to_pin cpulist cpuidx) in
      run ["taskset"; "-pc"; str p; str (fst v)])).

(** ** Devices passed through *)

Fixpoint gpu_lines (kind : GPUKind) (lines : list string) : py (list string * GPUKind) :=
  match lines with
  | [] => Ok ([], kind)
  | line :: lines =>
      let add k :=
        let^ name := nth_py (words line) 0 in
        let^ r := gpu_lines (if decide (kind = NONE) then k else kind) lines in Ok (name :: fst r, snd r) in
      if contains "[03" line then
        if contains "nvidia" (lower line) then add NVIDIA
        else if contains "amd" (lower line) then add AMD else gpu_lines kind lines
      else gpu_lines kind lines
  end.
Definition find_gpu : script (list string * GPUKind) :=
  do^ r := run_local_command ["lspci"; "-Dmnn"] false in lift (gpu_lines NONE (snd r)).

Definition modprobe_r (module : string) (allow_fail : bool) : script unit := run_local_command ["sudo"; "modprobe"; "-r"; module] allow_fail ;; sret tt.
Definition unload_nvidia_module : script unit :=
  modprobe_r "nvidia_uvm" true ;; modprobe_r "nvidia_drm" true ;; modprobe_r "nvidia_modeset" true ;; modprobe_r "nvidia" true.
Definition unload_amdgpu_module : script unit := modprobe_r "amdgpu" false.
Definition load_vfio_module : script unit :=
  run ["sudo"; "modprobe"; "vfio"] ;; run ["sudo"; "modprobe"; "vfio_pci"] ;; run ["sudo"; "modprobe"; "vfio_iommu_type1"].
Definition vfio_bind_dev (pci_dev : string) : script unit := run ["sudo"; "driverctl"; "--nosave"; "set-override"; pci_dev; "vfio-pci"].

Definition pass_gpu (qemu_cmd : list string) (vm_id : Z) (pci_devs : list string) (kind : GPUKind) : script (list string) :=
  if decide (pci_devs <> [] /\ (kind = NVIDIA \/ kind = AMD)) then
    (if (Z.of_nat (length pci_devs) <=? vm_id)%Z then sraise ValueError else sret tt) ;;
    (if decide (kind = NVIDIA) then
       run_local_command ["sudo"; "systemctl"; "stop"; "nvidia-persistenced.service"] true ;; unload_nvidia_module
     else sret tt) ;;
    (if decide (kind = AMD) then unload_amdgpu_module else sret tt) ;;
    load_vfio_module ;;
    do^ pci_dev := lift (nth_py pci_devs (Z.to_nat vm_id)) in
    vfio_bind_dev pci_dev ;;
    sret (qemu_cmd ++ ["-device"; "vfio-pci,host=" +:+ pci_dev])%list
  else sret qemu_cmd.

(** The devices of the output of lshw: the PCI address and the name. *)
Definition lshw_device (line : string) : py (string * string) :=
  let arr := words line in
  let^ a := nth_py arr 0 in let^ pci := nth_py (split "@" a) 1 in let^ ether := nth_py arr 1 in Ok (pci, ether).
Definition is_mlnx (line : string) : bool := contains "connectx" (lower line).
Definition is_vf (line : string) : bool := contains "virtual function" (lower line).

Fixpoint pf_lines (lines : list string) : script (list string * list (string * string)) :=
  match lines with
  | [] => sret ([], [])
  | line :: lines =>
      if is_mlnx line && negb (is_vf line) then
        do^ d := lift (lshw_device line) in
        do^ r := run_local_command ["ip"; "-j"; "address"; "show"; snd d] false in
        let iface := json_iface (snd r) in
        do^ rest := pf_lines lines in
        sret (if decide (fst iface = "ether") then (snd iface :: fst rest, snd rest)
              else if decide (fst iface = "infiniband") then (fst rest, d :: snd rest) else rest)
      else pf_lines lines
  end.
Definition find_mlnx_pf : script (list string * list (string * string)) :=
  do^ r := run_local_command ["sudo"; "lshw"; "-c"; "network"; "-businfo"] false in pf_lines (snd r).

Fixpoint all_digits (s : string) : bool := match s with "" => true | String c s => isdigit c && all_digits s end.

(** What is left of a name without the suffix "v" and digits. *)
Fixpoint ether_stem (s : string) : string :=
  match s with
  | "" => ""
  | String c s' => if Ascii.eqb c "v" && all_digits s' then "" else String c (ether_stem s')
  end.

Fixpoint vf_lines (pf_dev : string) (lines : list string) : py (list (string * string)) :=
  match lines with
  | [] => Ok []
  | line :: lines =>
      if is_mlnx line && is_vf line then
        let^ d := lshw_device line in
        let^ r := vf_lines pf_dev lines in
        Ok (if contains (ether_stem (snd d)) pf_dev then d :: r else r)
      else vf_lines pf_dev lines
  end.
Definition find_mlnx_vf (pf_dev : string) : script (list (string * string)) :=
  do^ r := run_local_command ["sudo"; "lshw"; "-c"; "network"; "-businfo"] false in lift (vf_lines pf_dev (snd r)).

Definition newline : string := String "010" "".

(** The number of virtual functions in the file [path], which is set when it is 0. *)
Definition set_vfs (path : string) (num_vms : Z) : script unit :=
  do^ r := run_local_command ["sh"; "sudo cat " +:+ path] false in
  do^ num_vfs := lift (to_int (join newline (snd r))) in
  if (num_vfs =? 0)%Z then run ["sh"; "echo 16 | sudo tee " +:+ path]
  else if (num_vfs <? num_vms)%Z then sraise RuntimeError else sret tt.

(** The physical function: the name of an interface, or for InfiniBand a pair. *)
Definition pf_dev := (string + string * string)%type.
Definition pf_str (d : pf_dev) : string := match d with inl s => s | inr (a, b) => "('" +:+ a +:+ "', '" +:+ b +:+ "')" end.

Definition create_mlnx_vf (pf_devs : list string * list (string * string)) (num_vms : Z) (useIB : bool) : script pf_dev :=
  if useIB then
    match snd pf_devs with
    | [] => sraise RuntimeError
    | ib_dev :: _ => set_vfs ("/sys/class/infiniband/" +:+ pf_str (inr ib_dev) +:+ "/device/mlx5_num_vfs") num_vms ;; sret (inr ib_dev)
    end
  else
    match fst pf_devs with
    | [] => sraise RuntimeError
    | ether_dev :: _ => set_vfs ("/sys/class/net/" +:+ ether_dev +:+ "/device/sriov_numvfs") num_vms ;; sret (inl ether_dev)
    end.

(** A command with an element that is no string raises before it runs. *)
Definition setup_mlnx_network (vmdir : string) (num_vms num_vfs_per_vm : Z) (useIB : bool) : script (list (string * string)) :=
  do^ mlnx_pf_devs := find_mlnx_pf in
  do^ pf := create_mlnx_vf mlnx_pf_devs num_vms useIB in
  match pf with
  | inr _ => sraise TypeError
  | inl pf =>
      run ["sudo"; "ip"; "link"; "set"; pf; "up"] ;;
      do^ vf_devs := find_mlnx_vf pf in
      run ["sudo"; "iptables-save"] ;;
      record ["write"; path_join vmdir "iptables.rules.old"] ;;
      run ["sudo"; "sysctl"; "-w"; "net.ipv4.ip_forward=1"] ;;
      load_vfio_module ;;
      for_each (range (num_vms * num_vfs_per_vm)) (fun i =>
        run ["sudo"; "ip"; "link"; "set"; pf; "vf"; str i; "state"; "enable"] ;;
        do^ vf_dev := lift (nth_py vf_devs (Z.to_nat i)) in
        run_local_command ["sh"; "echo " +:+ fst vf_dev +:+ " | sudo tee /sys/bus/pci/drivers/mlx5_core/unbind"] true ;;
        vfio_bind_dev (fst vf_dev)) ;;
      sret vf_devs
  end.

Definition unset_driver_overrides : script unit :=
  do^ r := run_local_command ["driverctl"; "list-overrides"] true in
  do^ overrides := lift (map_py (fun l => nth_py (words l) 0) (snd r)) in
  for_each overrides (fun pci_dev =>
    run ["sudo"; "driverctl"; "unset-override"; pci_dev] ;;
    do^ r := run_local_command ["lspci"; "-s"; pci_dev] false in
    if contains "connectx" (lower (strip (join newline (snd r)))) then run ["sudo"; "driverctl"; "--nosave"; "set-override"; pci_dev; "mlx5_core"] else sret tt).

(** ** The whole script *)

(** The variables that the global setup binds. *)
Record locals := {
  l_vf_devs : list (string * string); l_num_ether : Z; l_num_ib : Z; l_drive_file_name : string; l_pci_devs : list string; l_kind : GPUKind;
  l_shmem_path : option string }.

Definition basename (path : string) : string := List.last (split "/" path) "".

Definition global_setup (args : Args) (drive : string) : script locals :=
  do^ r := run_local_command ["pgrep"; "qemu-system"] true in
  (if (fst r =? 0)%Z then sraise SystemExit else sret tt) ;;
  record ["makedirs"; vmdir args] ;;
  (if arg_pass_gpu args || use_mlnx_ib args || use_mlnx_ether args then unset_driver_overrides else sret tt) ;;
  do^ net := (if use_mlnx_ib args then
      do^ vfs := setup_mlnx_network (vmdir args) (num_vms args) (num_ib_per_vm args) true in sret (vfs, 1, num_ib_per_vm args)
    else if use_mlnx_ether args then
      do^ vfs := setup_mlnx_network (vmdir args) (num_vms args) (num_ether_per_vm args) false in sret (vfs, num_ether_per_vm args, 0)
    else setup_bridge_tap_network (vmdir args) (num_vms args) ;; sret ([], 1, 0)) in
  record ["copy"; "/usr/share/OVMF/OVMF_CODE.fd"; vmdir args] ;;
  do^ gpu := (if arg_pass_gpu args then find_gpu else sret ([], NONE)) in
  do^ shmem_path := (match given (shmem_dir args) with
    | Some dir => do^ p := setup_shared_mem (vmdir args) (num_vms args) dir (shmem_dir_numa args) (shmem_size_mb args) (msi_vectors args) (use_ivshmem_doorbell args) in sret (Some p)
    | None => sret None
    end) in
  sret {| l_vf_devs := fst (fst net); l_num_ether := snd (fst net); l_num_ib := snd net; l_drive_file_name := basename drive;
          l_pci_devs := fst gpu; l_kind := snd gpu; l_shmem_path := shmem_path |}.

(** A variable of the global setup. *)
Definition bound {A} (l : option locals) (f : locals -> A) : script A := match l with Some l => sret (f l) | None => sraise UnboundLocalError end.

Definition start_vm (args : Args) (drive : string) (l : option locals) (vm_id : Z) : script unit :=
  (if decide (restart_vm args = None) then
     do^ l := bound l id in
     copy_vm_disk (vmdir args) (num_vms args) drive (l_drive_file_name l) ;;
     prepare_vmdir (vmdir args) drive vm_id (l_drive_file_name l) (l_num_ether l) (l_num_ib l) (add_user_ssh args) (num_vms args) (host_id args)
   else sret tt) ;;
  do^ drive_file_name := bound l l_drive_file_name in
  let vmdrive_file := path_join (path_join (vmdir args) (str vm_id)) drive_file_name in
  do^ qemu_cmd := construct_basic_qemu_cmd args vm_id in
  let qemu_cmd := construct_blk_cmd qemu_cmd (num_cpus args) vmdrive_file in
  do^ qemu_cmd := (if use_mlnx_ib args then
      do^ vfs := bound l l_vf_devs in lift (construct_sriov_vfio_net_cmd qemu_cmd vm_id vfs (num_ib_per_vm args))
    else if use_mlnx_ether args then
      do^ vfs := bound l l_vf_devs in lift (construct_sriov_vfio_net_cmd qemu_cmd vm_id vfs (num_ether_per_vm args))
    else sret (construct_tap_net_cmd qemu_cmd (get_rand_macaddr (rand vm_id)) vm_id)) in
  let qemu_cmd := if add_user_ssh args then construct_user_net_cmd qemu_cmd vm_id else qemu_cmd in
  do^ qemu_cmd := (match given (shmem_dir args) with
    | Some _ =>
        do^ p := bound l l_shmem_path in
        match p with
        | Some p => sret (construct_shared_mem qemu_cmd vm_id p (shmem_size_mb args) (msi_vectors args) (use_ivshmem_doorbell args))
        | None => sraise UnboundLocalError
        end
    | None => sret qemu_cmd
    end) in
  let qemu_cmd := match given (shared_dir args) with Some d => construct_shared_dir qemu_cmd d | None => qemu_cmd end in
  do^ qemu_cmd := lift (construct_memory qemu_cmd args) in
  do^ qemu_cmd := (if arg_pass_gpu args then
      do^ g := bound l (fun l => (l_pci_devs l, l_kind l)) in pass_gpu qemu_cmd vm_id (fst g) (snd g)
    else sret qemu_cmd) in
  run qemu_cmd.

Definition start_vms (args : Args) : script unit :=
  let qbuild := path_join (path_join LINUX_VM_BUILD_DIR "qbuild") "root.img" in
  let qbuild_ovmf := path_join (path_join LINUX_VM_BUILD_DIR "qbuild_ovmf") "root.img" in
  let drive := if decide (drive args = qbuild) then (if use_ovmf args then qbuild_ovmf else drive args) else drive args in
  do^ l := (match restart_vm args with None => do^ l := global_setup args drive in sret (Some l) | Some _ => sret None end) in
  let vms := match restart_vm args with None => range (num_vms args) | Some vm => [vm] end in
  for_each vms (start_vm args drive l) ;;
  pin_vm_threads args vms.
End Host.

(** ** Numbers and paths *)

Lemma digits_go c x s : isdigit c = false -> mem_char c (pretty_N_go x s) = mem_char c s.
Proof.
  intros Hc. revert s. induction (N.lt_wf_0 x) as [x _ IH]. intros s. destruct (decide (0 < x)%N) as [Hx|Hx].
  - rewrite pretty_N_go_step by done. rewrite IH by (apply N.div_lt; lia). cbn.
    assert (E : Ascii.eqb c (pretty_N_char (x `mod` 10)) = false); [|by rewrite E].
    apply Ascii.eqb_neq. intros ->. revert Hc. unfold pretty_N_char. by repeat case_match.
  - replace x with 0%N by lia. by rewrite pretty_N_go_0.
Qed.

(** A number that is not negative is written with digits. *)
Lemma str_digits c z : 0 <= z -> isdigit c = false -> mem_char c (str z) = false.
Proof.
  intros Hz Hc. unfold str, pretty, pretty_Z. destruct z as [|p|p]; [|unfold pretty, pretty_positive, pretty, pretty_N|lia].
  - cbn. apply orb_false_intro; [|done]. apply Ascii.eqb_neq. by intros ->.
  - case_decide; [done|]. by rewrite digits_go.
Qed.

Lemma path_join_inj a b c : startswith "/" b = false -> startswith "/" c = false -> path_join a b = path_join a c -> b = c.
Proof.
  unfold path_join. intros -> ->. repeat case_decide; try done; intros E%sapp_inj_l; [done|]. by apply sapp_inj_l in E.
Qed.

Lemma pretty_go_length x s : (String.length s <= String.length (pretty_N_go x s))%nat.
Proof.
  revert s. induction (N.lt_wf_0 x) as [x _ IH]. intros s. destruct (decide (0 < x)%N) as [Hx|Hx].
  - rewrite pretty_N_go_step by done. assert (L : (x / 10 < x)%N) by (apply N.div_lt; lia). specialize (IH _ L (String (pretty_N_char (x `mod` 10)) s)).
    cbn [String.length] in IH. lia.
  - replace x with 0%N by lia. by rewrite pretty_N_go_0.
Qed.

Lemma str_nonempty z : 0 <= z -> str z <> "".
Proof.
  intros Hz. unfold str, pretty, pretty_Z. destruct z as [|p|p]; [done|unfold pretty, pretty_positive, pretty, pretty_N|lia].
  case_decide; [done|]. rewrite pretty_N_go_step by lia. set (c := pretty_N_char _). pose proof (pretty_go_length (N.pos p / 10) (String c "")) as L.
  intros E. rewrite E in L. cbn in L. lia.
Qed.

Lemma path_join_number a z z' s : 0 <= z -> 0 <= z' -> path_join a (str z +:+ s) = path_join a (str z' +:+ s) -> z = z'.
Proof.
  intros Hz Hz' H. apply str_inj. apply (sapp_inj_r _ _ s). revert H.
  assert (G : forall z, 0 <= z -> startswith "/" (str z +:+ s) = false).
  { intros y Hy. pose proof (str_digits "/" y Hy eq_refl) as M. pose proof (str_nonempty y Hy) as Ne. destruct (str y) as [|d t]; [done|].
    cbn [mem_char] in M. apply orb_false_elim in M as [M _]. cbn [String.append]. by rewrite startswith_char. }
  apply path_join_inj; by apply G.
Qed.

(** ** Addresses *)

(** The addresses a machine gets. *)
Definition addresses (ether ib n host vm : Z) : list string :=
  omap snd (network_files "" ether ib false (first_ip vm ether ib n host)).

Lemma seqZ_shift (f : Z -> string) a b : 0 <= a -> 0 <= b -> (map f (range a) ++ map (fun i => f (a + i)) (range b))%list = map f (range (a + b)).
Proof.
  intros Ha Hb. unfold range. rewrite seqZ_app, map_app by done. f_equal. replace (0 + a) with (a + 0) by lia. rewrite <- fmap_add_seqZ.
  by rewrite list_fmap_compose || (rewrite map_map; done).
Qed.

Lemma omap_addresses (f g : Z -> string) l : omap snd (map (fun i => (f i, Some (g i))) l) = map g l.
Proof. induction l as [|x l IH]; [done|]. cbn. f_equal. exact IH. Qed.

Lemma addresses_range ether ib n host vm :
  0 <= ether -> 0 <= ib -> addresses ether ib n host vm = map (fun k => ip_addr_of (first_ip vm ether ib n host + k)) (range (ether + ib)).
Proof.
  intros He Hi. unfold addresses, network_files. rewrite !omap_app. cbn [omap list_omap]. rewrite app_nil_r, Z.max_r by done.
  rewrite <- seqZ_shift by done. unfold ether_loop, ib_loop, create_static_ip_addr_network_config, create_static_ip_addr_ib_config.
  rewrite !omap_addresses. f_equal. apply map_ext. intros k. by rewrite Z.add_assoc.
Qed.

(** Blocks of the same length do not overlap. *)
Lemma block_unique m a b x y : 0 <= x < m -> 0 <= y < m -> a * m + x = b * m + y -> a = b.
Proof. intros Hx Hy E. assert (a = (a * m + x) / m) by (rewrite Z.div_add_l, Z.div_small; lia). rewrite E, Z.div_add_l, Z.div_small in *; lia. Qed.

(** No two machines get the same address.  On all hosts that start the same number of
    machines with the same cards, the addresses of a machine are as many as it has
    cards, they are different, they are no other machine's, and none is the address of
    the bridge. *)
Theorem vm_addresses_distinct (ether ib n host1 vm1 host2 vm2 : Z) (a : string) :
  0 <= ether -> 0 <= ib -> 0 <= vm1 < n -> 0 <= vm2 < n -> 0 <= host1 -> 0 <= host2 ->
  Z.of_nat (length (addresses ether ib n host1 vm1)) = ether + ib /\ NoDup (addresses ether ib n host1 vm1) /\
  "192.168.100.1" ∉ addresses ether ib n host1 vm1 /\
  (a ∈ addresses ether ib n host1 vm1 -> a ∈ addresses ether ib n host2 vm2 -> host1 = host2 /\ vm1 = vm2).
Proof.
  intros He Hi H1 H2 Hh1 Hh2. rewrite !addresses_range by done.
  assert (F : forall h v, first_ip v ether ib n h = 2 + (v + h * n) * (ether + ib)) by (intros; unfold first_ip; lia).
  assert (Inj : forall x y, ip_addr_of x = ip_addr_of y -> x = y) by (intros x y E; unfold ip_addr_of in E; apply sapp_inj_l in E; by apply str_inj).
  rewrite !F. split_and!.
  - rewrite length_map. unfold range. rewrite length_seqZ. lia.
  - apply NoDup_fmap_2_strong; [|apply NoDup_seqZ]. intros x y _ _ E%Inj. lia.
  - intros (k & E & Hk)%list_elem_of_fmap. apply (Inj 1) in E. apply elem_of_seqZ in Hk.
    assert (0 <= host1 * n) by (apply Z.mul_nonneg_nonneg; lia).
    assert (0 <= (vm1 + host1 * n) * (ether + ib)) by (apply Z.mul_nonneg_nonneg; lia). lia.
  - intros (k & -> & Hk)%list_elem_of_fmap (k' & E & Hk')%list_elem_of_fmap. apply Inj in E. apply elem_of_seqZ in Hk, Hk'.
    assert (Eq : vm1 + host1 * n = vm2 + host2 * n) by (apply (block_unique (ether + ib) _ _ k k'); lia).
    assert (host1 = host2) by (apply (block_unique n host1 host2 vm1 vm2); lia). split; [done|]. subst. lia.
Qed.

Lemma vm_addresses_distinct_witness :
  addresses 2 1 4 1 3 = ["192.168.100.23"; "192.168.100.24"; "192.168.100.25"] /\
  (forall a, a ∈ addresses 2 1 4 1 3 -> a ∈ addresses 2 1 4 1 2 -> 3 = 2).
Proof.
  split; [vm_compute; reflexivity|]. intros a H1 H2.
  apply (vm_addresses_distinct 2 1 4 1 3 1 2 a); [lia..|exact H1|exact H2].
Defined.

(** ** Network files *)

(** Without InfiniBand the network files of a machine have different names, the one
    for the forwarded port included. *)
Theorem network_files_distinct (per_vmdir : string) (ether ip : Z) (user_ssh : bool) :
  0 <= ether -> NoDup (map fst (network_files per_vmdir ether 0 user_ssh ip)).
Proof.
  intros He. set (name := fun k => path_join per_vmdir (str (2 + k) +:+ "0-wired.network")).
  assert (E : map fst (network_files per_vmdir ether 0 user_ssh ip) = map name (range ether ++ (if user_ssh then [ether] else []))).
  { unfold network_files, ib_loop. cbn [range seqZ seq Z.to_nat fmap list_fmap map app]. rewrite !map_app. f_equal.
    - unfold ether_loop. by rewrite map_map.
    - destruct user_ssh; [|done]. cbn. by rewrite Z.add_0_r. }
  rewrite E. apply NoDup_fmap_2_strong.
  - intros x y Hx Hy H. assert (G : forall z, z ∈ (range ether ++ (if user_ssh then [ether] else []))%list -> 0 <= z).
    { intros z [Hz|Hz]%list.elem_of_app; [apply elem_of_seqZ in Hz; lia|]. destruct user_ssh; [|by apply not_elem_of_nil in Hz].
      apply list_elem_of_singleton in Hz. lia. }
    apply path_join_number in H; [lia|apply G in Hx; lia|apply G in Hy; lia].
  - apply list.NoDup_app. split_and!; [apply NoDup_seqZ| |destruct user_ssh; repeat constructor; by intros ?%not_elem_of_nil].
    intros z Hz H. apply elem_of_seqZ in Hz. destruct user_ssh; [|by apply not_elem_of_nil in H]. apply list_elem_of_singleton in H. lia.
Qed.

Lemma network_files_distinct_witness : NoDup (map fst (network_files "/vms/0" 2 0 true 2)) /\ length (network_files "/vms/0" 2 0 true 2) = 3%nat.
Proof. split; [apply (network_files_distinct "/vms/0" 2 2 true); lia|reflexivity]. Defined.

(** With InfiniBand they have not.  The file of a second card overwrites the one of the
    first, and with one card the file for the forwarded port does; the same file is
    moved into the disk twice. *)
Theorem ib_files_collide (per_vmdir : string) (ip : Z) :
  map fst (network_files per_vmdir 1 1 true ip) = map (path_join per_vmdir) ["20-wired.network"; "40-wired.network"; "40-wired.network"] /\
  map fst (network_files per_vmdir 1 2 false ip) = map (path_join per_vmdir) ["20-wired.network"; "40-wired.network"; "40-wired.network"].
Proof. split; reflexivity. Qed.

(** ** Virtual functions *)

Definition vf_args (d : string * string) : list string := ["-device"; "vfio-pci,host=" +:+ fst d; "-nic"; "none"].

Lemma sriov_loop_spec qemu_cmd vm k vfs a m :
  0 <= vm * k + a -> sriov_loop qemu_cmd vm vfs k (seqZ a (Z.of_nat m)) =
  if decide (m <= length (drop (Z.to_nat (vm * k + a)) vfs))%nat
  then Ok (qemu_cmd ++ concat (map vf_args (take m (drop (Z.to_nat (vm * k + a)) vfs))))%list else Raise IndexError.
Proof.
  revert qemu_cmd a. induction m as [|m IH]; intros qemu_cmd a Ha; [rewrite decide_True by lia; cbn; by rewrite app_nil_r|].
  rewrite seqZ_cons by lia. cbn [sriov_loop]. unfold nth_py. set (i := Z.to_nat (vm * k + a)).
  replace (Z.pred (Z.of_nat (S m))) with (Z.of_nat m) by lia. destruct (vfs !! i) as [d|] eqn:Ed; cbn [pbind].
  - rewrite IH by lia. replace (Z.to_nat (vm * k + Z.succ a)) with (S i) by lia. rewrite (drop_S vfs d i Ed). cbn [length take map concat].
    repeat case_decide; try lia; [|done]. by rewrite <- app_assoc.
  - apply lookup_ge_None in Ed. rewrite decide_False; [done|]. rewrite length_drop. lia.
Qed.

(** The virtual functions are dealt out in order.  Each machine gets the functions of
    its own block of the list, and the command line is refused when the list is too
    short for it. *)
Theorem vfs_dealt_out (qemu_cmd : list string) (vm_id num_vfs_per_vm : Z) (vf_devs : list (string * string)) :
  0 <= vm_id -> 0 <= num_vfs_per_vm ->
  construct_sriov_vfio_net_cmd qemu_cmd vm_id vf_devs num_vfs_per_vm =
  let own := drop (Z.to_nat (vm_id * num_vfs_per_vm)) vf_devs in
  if decide (num_vfs_per_vm <= Z.of_nat (length own)) then Ok (qemu_cmd ++ concat (map vf_args (take (Z.to_nat num_vfs_per_vm) own)))%list
  else Raise IndexError.
Proof.
  intros Hv Hn. unfold construct_sriov_vfio_net_cmd, range. replace num_vfs_per_vm with (Z.of_nat (Z.to_nat num_vfs_per_vm)) at 2 by lia.
  rewrite sriov_loop_spec by nia. rewrite Z.add_0_r. cbn zeta. repeat case_decide; try lia; done.
Qed.

Lemma vfs_dealt_out_witness :
  construct_sriov_vfio_net_cmd [] 1 [("a", "x"); ("b", "x"); ("c", "x"); ("d", "x")] 2 = Ok ["-device"; "vfio-pci,host=c"; "-nic"; "none"; "-device"; "vfio-pci,host=d"; "-nic"; "none"] /\
  construct_sriov_vfio_net_cmd [] 2 [("a", "x"); ("b", "x"); ("c", "x"); ("d", "x")] 2 = Raise IndexError.
Proof. split; (rewrite vfs_dealt_out by lia; vm_compute; reflexivity). Defined.

(** ** Processors *)

(** The processors of a node are its lines in the order of the cores. *)
Lemma cpu_le_total a b : cpu_le a b \/ cpu_le b a.
Proof.
  unfold cpu_le. generalize (cpu_key a) (cpu_key b). induction l as [|x l IH]; intros [|y l']; cbn; auto.
  destruct (Z.ltb_spec x y), (Z.ltb_spec y x), (Z.eqb_spec x y), (Z.eqb_spec y x); cbn; auto; lia.
Qed.

(** Every virtual processor gets a processor of its own.  While the machines together
    have no more virtual processors than the nodes have processors, no two are pinned
    to the same one. *)
Theorem pinned_cpus_distinct (cpulist : list CpuLine) (num_cpus n vm1 i1 vm2 i2 p : Z) :
  NoDup (map cpu cpulist) -> n * num_cpus <= Z.of_nat (length cpulist) -> 0 <= vm1 < n -> 0 <= vm2 < n -> 0 <= i1 < num_cpus -> 0 <= i2 < num_cpus ->
  cpu_to_pin cpulist (i1 + vm1 * num_cpus) = Ok p -> cpu_to_pin cpulist (i2 + vm2 * num_cpus) = Ok p -> vm1 = vm2 /\ i1 = i2.
Proof.
  intros Hd Hn H1 H2 Hi1 Hi2. unfold cpu_to_pin. case_decide; [done|]. rewrite !Z.mod_small by nia. unfold nth_py.
  destruct (cpulist !! Z.to_nat (i1 + vm1 * num_cpus)) as [c1|] eqn:E1; [|done]. destruct (cpulist !! Z.to_nat (i2 + vm2 * num_cpus)) as [c2|] eqn:E2; [|done].
  cbn. intros [= Ec1] [= Ec2].
  assert (E : Z.to_nat (i1 + vm1 * num_cpus) = Z.to_nat (i2 + vm2 * num_cpus)).
  { apply (NoDup_lookup (cpu <$> cpulist) _ _ p Hd); rewrite list_lookup_fmap; [rewrite E1|rewrite E2]; cbn; congruence. }
  assert (Eq : vm1 * num_cpus + i1 = vm2 * num_cpus + i2) by nia. pose proof (block_unique num_cpus vm1 vm2 i1 i2 Hi1 Hi2 Eq) as ->. lia.
Qed.

Definition example_cpus : list CpuLine := map (fun k => {| cpu := 2 * k + 1; core := k; socket := 1; node := 1 |}) (range 8).

Lemma pinned_cpus_distinct_witness :
  cpu_to_pin example_cpus (2 + 1 * 4) = Ok 13 /\ (forall vm i, 0 <= vm < 2 -> 0 <= i < 4 -> cpu_to_pin example_cpus (i + vm * 4) = Ok 13 -> 1 = vm /\ 2 = i).
Proof.
  split; [vm_compute; reflexivity|]. intros vm i Hv Hi E.
  apply (pinned_cpus_distinct example_cpus 4 2 1 2 vm i 13); [|vm_compute; discriminate|lia|lia|lia|lia|vm_compute; reflexivity|exact E].
  apply (bool_decide_unpack _). vm_compute. exact I.
Defined.

(** The processors of a node are the lines of its socket, ordered by core. *)
Theorem node_cpus_sorted (answer : list (list string) -> list string -> Z * list string) (node_num : Z) (t t' : list (list string)) (l : list CpuLine) :
  parse_lscpu_node answer node_num t = (Ok l, t') ->
  Sorted cpu_le l /\ exists l0, cpulines node_num (snd (answer t ["lscpu"; "-p"])) = Ok l0 /\ l ≡ₚ l0 /\ Forall (fun c => socket c = node_num) l0.
Proof.
  unfold parse_lscpu_node, sbind, run_local_command, lift, sret. destruct (answer t _) as [rc out] eqn:Ea. cbn [snd].
  destruct (negb false && negb (rc =? 0)%Z); [done|]. cbn [snd]. destruct (cpulines node_num out) as [l0|] eqn:E; [|done]. intros [= <- <-].
  split; [apply Sorted_merge_sort; intros a b; apply cpu_le_total|]. exists l0. split; [done|]. split; [apply merge_sort_Permutation|].
  clear Ea. revert l0 E. induction out as [|x out IH]; cbn; intros l0 E; [simplify_eq; constructor|]. destruct (startswith "#" x); [by apply IH|].
  destruct (parse_cpuline x) as [c|]; [|done]. cbn in E. destruct (cpulines node_num out) as [r|]; [|done]. cbn in E. injection E as <-.
  destruct (Z.eqb_spec (socket c) node_num); [constructor; [done|]|]; by apply IH.
Qed.

Lemma node_cpus_sorted_witness :
  let answer := fun _ _ => (0, ["# CPU,Core,Socket,Node"; "2,1,0,0"; "1,9,1,1"; "0,0,0,0"]) in
  exists l, fst (parse_lscpu_node answer 0 []) = Ok l /\ map cpu l = [0; 2] /\ Sorted cpu_le l.
Proof.
  intros answer. destruct (parse_lscpu_node answer 0 []) as [[l|e] t'] eqn:E; [|vm_compute in E; discriminate E]. exists l.
  destruct (node_cpus_sorted answer 0 [] t' l E) as [S _]. split; [reflexivity|]. split; [|exact S].
  vm_compute in E. injection E as <- _. reflexivity.
Defined.
