(* ===== verification/StartVmSpec.v ===== *)
(** What the start of the virtual machines does as a whole: which options of
    src/vm_lib/start_vm.py cannot work, and that otherwise, on a host that answers as
    expected, every machine is started once and on resources of its own. *)
From Stdlib Require Import ZArith Lia Bool Ascii String.
From stdpp Require Import base list strings pretty numbers.
From S2P Require Import Prelude Python StartVm.
Local Open Scope Z_scope.
Local Open Scope string_scope.
Local Open Scope py_scope.

(** ** Scripts that cannot succeed *)

Definition fails {A} (x : script A) : Prop := forall t, exists e t', x t = (Raise e, t').

Lemma fails_bind {A B} (x : script A) (f : A -> script B) : fails x \/ (forall a, fails (f a)) -> fails (sbind x f).
Proof.
  intros [H|H] t; unfold sbind.
  - destruct (H t) as (e & t' & ->). by exists e, t'.
  - destruct (x t) as [[a|e] t']; [apply H|by exists e, t'].
Qed.

Lemma fails_raise {A} e : fails (@sraise A e).
Proof. intros t. by exists e, t. Qed.

(** Looks for the part that fails. *)
Ltac fail_right := apply fails_bind; right; intros.
Ltac fail_left := apply fails_bind; left.

Lemma sbind_ret {A B} (a : A) (f : A -> script B) t : sbind (sret a) f t = f a t.
Proof. reflexivity. Qed.
Lemma sbind_raised {A B} (x : script A) (f : A -> script B) e t t' : x t = (Raise e, t') -> sbind x f t = (Raise e, t').
Proof. unfold sbind. by intros ->. Qed.

Section Options.
Context (answer : list (list string) -> list string -> Z * list string) (path_exists ismount : list (list string) -> string -> bool).
Context (link_lookup : list (list string) -> string -> list Z) (uid : Z) (rand : Z -> Z * Z).
Context (query_cpus : list (list string) -> Z -> list (Z * Z)) (json_iface : list string -> string * string) (SCRIPT_DIR : string).

Lemma create_ib_pair pf_devs n t d t' : create_mlnx_vf answer pf_devs n true t = (Ok d, t') -> exists p, d = inr p.
Proof.
  unfold create_mlnx_vf. destruct (snd pf_devs) as [|ib l]; [done|]. unfold sbind, sret. destruct (set_vfs _ _ _ _) as [[u|e] t1]; [|done].
  intros [= <- _]. by exists ib.
Qed.

Lemma mlnx_ib_fails dir n k : fails (setup_mlnx_network answer json_iface dir n k true).
Proof.
  unfold setup_mlnx_network. fail_right. intros t. unfold sbind. destruct (create_mlnx_vf _ _ _ _ _) as [[d|e] t'] eqn:E; [|by exists e, t'].
  apply create_ib_pair in E as [p ->]. by exists TypeError, t'.
Qed.

Lemma percent_fails args drive l vm s : mem_local_percent args = PStr s -> fails (start_vm answer path_exists rand SCRIPT_DIR args drive l vm).
Proof.
  intros H. unfold start_vm. do 5 fail_right. cbv zeta. fail_left. unfold construct_memory, lift. rewrite H. intros t. by exists TypeError, t.
Qed.

Lemma restart_unbound args drive vm v t :
  restart_vm args = Some v -> start_vm answer path_exists rand SCRIPT_DIR args drive None vm t = (Raise UnboundLocalError, t).
Proof. intros H. unfold start_vm. rewrite H, decide_False by done. rewrite sbind_ret. by apply sbind_raised. Qed.
End Options.

(** Three options cannot work.  Restarting a machine raises before anything is done,
    because the variables of the setup are not bound; with a share of local memory, a
    string where a number is expected, no machine is started; and the virtual functions
    of InfiniBand are looked up under the name of a pair.  Whatever the host answers. *)
Theorem options_cannot_work (answer : list (list string) -> list string -> Z * list string) (path_exists ismount : list (list string) -> string -> bool)
    (link_lookup : list (list string) -> string -> list Z) (uid : Z) (rand : Z -> Z * Z) (query_cpus : list (list string) -> Z -> list (Z * Z))
    (json_iface : list string -> string * string) (SCRIPT_DIR : string) (args : Args) (t : list (list string)) :
  (forall vm, restart_vm args = Some vm ->
     start_vms answer path_exists ismount link_lookup uid rand query_cpus json_iface SCRIPT_DIR args t = (Raise UnboundLocalError, t)) /\
  ((exists s, mem_local_percent args = PStr s) \/ use_mlnx_ib args = true -> restart_vm args = None -> 1 <= num_vms args ->
     exists e t', start_vms answer path_exists ismount link_lookup uid rand query_cpus json_iface SCRIPT_DIR args t = (Raise e, t')).
Proof.
  split.
  - intros vm H. unfold start_vms. rewrite H. rewrite sbind_ret. cbv zeta. apply sbind_raised. cbn [for_each]. apply sbind_raised.
    by apply (restart_unbound _ _ _ _ _ _ _ vm).
  - intros Hbad H Hn. revert t. change (fails (start_vms answer path_exists ismount link_lookup uid rand query_cpus json_iface SCRIPT_DIR args)).
    unfold start_vms. rewrite H. destruct Hbad as [[s Hs]|Hib].
    + fail_right. fail_left. unfold range. rewrite seqZ_cons by lia. cbn [for_each]. fail_left. by apply (percent_fails _ _ _ _ _ _ _ _ s).
    + fail_left. fail_left. unfold global_setup. do 4 fail_right. fail_left. rewrite Hib. fail_left. apply mlnx_ib_fails.
Qed.

(** ** Scripts that succeed *)

(** How many machines a sequence of commands starts. *)
Definition starts (t : list (list string)) : nat := length (filter (fun c => head c = Some "numactl") t).

Lemma starts_app t t' : starts (t ++ t') = (starts t + starts t')%nat.
Proof. unfold starts. by rewrite list.filter_app, length_app. Qed.

(** The script succeeds with a value that has the property, and starts [k] machines. *)
Definition yields {A} (x : script A) (P : A -> Prop) (k : nat) : Prop :=
  forall t, exists a t', x t = (Ok a, t') /\ P a /\ starts t' = (starts t + k)%nat.

Lemma yields_bind {A B} (x : script A) (f : A -> script B) P Q j k :
  yields x P j -> (forall a, P a -> yields (f a) Q k) -> yields (sbind x f) Q (j + k).
Proof.
  intros Hx Hf t. destruct (Hx t) as (a & t1 & E1 & Ha & S1). destruct (Hf a Ha t1) as (b & t2 & E2 & Hb & S2). exists b, t2.
  unfold sbind. rewrite E1, E2. split_and!; [done..|lia].
Qed.

Lemma yields_ret {A} (a : A) (P : A -> Prop) : P a -> yields (sret a) P 0.
Proof. intros H t. exists a, t. split_and!; [done..|lia]. Qed.

Lemma yields_lift {A} (x : py A) a (P : A -> Prop) : x = Ok a -> P a -> yields (lift x) P 0.
Proof. intros -> H t. exists a, t. split_and!; [done..|lia]. Qed.

Lemma yields_ask {A} (f : list (list string) -> A) (P : A -> Prop) : (forall t, P (f t)) -> yields (ask f) P 0.
Proof. intros H t. exists (f t), t. split_and!; [done..|lia]. Qed.

Lemma yields_record cmd : head cmd <> Some "numactl" -> yields (record cmd) (fun _ => True) 0.
Proof. intros H t. exists tt, (t ++ [cmd])%list. split_and!; [done..|]. rewrite starts_app. unfold starts at 2. by rewrite filter_cons_False. Qed.

Lemma yields_for_each {A} (l : list A) (f : A -> script unit) k : (forall x, yields (f x) (fun _ => True) k) -> yields (for_each l f) (fun _ => True) (length l * k).
Proof.
  intros H. induction l as [|x l IH]; [by apply yields_ret|]. cbn [for_each length Nat.mul]. eapply yields_bind; [apply H|]. intros _ _. apply IH.
Qed.

Lemma yields_for_each0 {A} (l : list A) (f : A -> script unit) : (forall x, yields (f x) (fun _ => True) 0) -> yields (for_each l f) (fun _ => True) 0.
Proof. intros H. pose proof (yields_for_each l f 0 H) as Y. by rewrite Nat.mul_0_r in Y. Qed.

Lemma yields_weaken {A} (x : script A) (P Q : A -> Prop) k : yields x P k -> (forall a, P a -> Q a) -> yields x Q k.
Proof. intros H HQ t. destruct (H t) as (a & t' & E & Ha & S). exists a, t'. split_and!; auto. Qed.

Section Success.
Context (answer : list (list string) -> list string -> Z * list string) (path_exists ismount : list (list string) -> string -> bool).
Context (link_lookup : list (list string) -> string -> list Z) (uid : Z) (rand : Z -> Z * Z).
Context (query_cpus : list (list string) -> Z -> list (Z * Z)) (json_iface : list string -> string * string) (SCRIPT_DIR : string).

(** The host answers as expected: no machine runs yet, every other command succeeds,
    lscpu prints lines that can be read, with processors on every node, and the links
    that were added are found. *)
Record host_ok (nodes : list Z) : Prop := {
  ok_pgrep t : fst (answer t ["pgrep"; "qemu-system"]) <> 0;
  ok_answer t cmd : cmd <> ["pgrep"; "qemu-system"] -> fst (answer t cmd) = 0;
  ok_cpu_model t : exists k, cpu_model_of (snd (answer t ["lscpu"])) = Ok k;
  ok_cpus t n : n ∈ nodes -> exists l, cpulines n (snd (answer t ["lscpu"; "-p"])) = Ok l /\ l <> [];
  ok_links t name : link_lookup t name <> [] }.
Context (nodes : list Z).
Hypothesis ok : host_ok nodes.

Lemma yields_command cmd allow_fail (P : Z * list string -> Prop) :
  head cmd <> Some "numactl" -> cmd <> ["pgrep"; "qemu-system"] -> (forall t, P (answer t cmd)) -> yields (run_local_command answer cmd allow_fail) P 0.
Proof using ok.
  intros Hh Hp HP t. unfold run_local_command. specialize (HP t). pose proof (ok_answer nodes ok t cmd Hp) as E. destruct (answer t cmd) as [rc out].
  cbn in E. subst rc. exists (0, out), (t ++ [cmd])%list. rewrite andb_false_r. split_and!; [done..|]. rewrite starts_app. unfold starts at 2. by rewrite filter_cons_False.
Qed.

Lemma yields_run cmd : head cmd <> Some "numactl" -> cmd <> ["pgrep"; "qemu-system"] -> yields (run answer cmd) (fun _ => True) 0.
Proof using ok.
  intros Hh Hp. change 0%nat with (0 + 0)%nat. eapply (yields_bind _ _ (fun _ => True)); [by apply yields_command|]. intros _ _. by apply yields_ret.
Qed.

Lemma yields_start cmd : head cmd = Some "numactl" -> yields (run answer cmd) (fun _ => True) 1.
Proof using ok.
  intros Hh t. unfold run, run_local_command, sbind. assert (Hp : cmd <> ["pgrep"; "qemu-system"]) by (intros ->; done).
  pose proof (ok_answer nodes ok t cmd Hp) as E. destruct (answer t cmd) as [rc out]. cbn in E. subst rc.
  exists tt, (t ++ [cmd])%list. split_and!; [done..|]. rewrite starts_app. unfold starts at 2. by rewrite filter_cons_True.
Qed.

Lemma yields_parallel cmds : Forall (fun c => head c = Some "dd") cmds -> yields (run_local_command_parallel answer cmds) (fun _ => True) 0.
Proof using ok.
  intros F t. exists tt, (t ++ cmds)%list. unfold run_local_command_parallel.
  assert (E : existsb (fun cmd => negb (fst (answer t cmd) =? 0)%Z) cmds = false).
  { induction F as [|c l Hc F IH]; [done|]. cbn. rewrite (ok_answer nodes ok t c) by (intros ->; done). cbn. apply IH. }
  rewrite E. split_and!; [done..|]. rewrite starts_app. replace (starts cmds) with 0%nat; [done|].
  clear E. induction F as [|c l Hc F IH]; [done|]. unfold starts. rewrite filter_cons_False by congruence. apply IH.
Qed.

Lemma yields_bind0 {A B} (x : script A) (f : A -> script B) P Q k : yields x P 0 -> (forall a, P a -> yields (f a) Q k) -> yields (sbind x f) Q k.
Proof using. apply (yields_bind x f P Q 0 k). Qed.

(** A command, a note or a question, and then the rest. *)
Ltac step_run := eapply yields_bind0; [apply yields_run; discriminate|intros _ _].
Ltac step_record := eapply yields_bind0; [apply yields_record; discriminate|intros _ _].
Ltac step_ask := eapply (yields_bind0 _ _ (fun _ => True)); [by apply yields_ask|intros ? _].

Lemma yields_if {A} (b : bool) (x y : script A) P k : yields x P k -> yields y P k -> yields (if b then x else y) P k.
Proof using. by destruct b. Qed.

Lemma yields_done : yields (sret tt) (fun _ => True) 0.
Proof using. by apply yields_ret. Qed.

Lemma yields_link name : yields (ask (fun t => link_lookup t name)) (fun l => l <> []) 0.
Proof using ok. apply yields_ask. intros t. apply (ok_links nodes ok). Qed.

Lemma yields_first {A} (l : list A) : l <> [] -> yields (lift (nth_py l 0)) (fun _ => True) 0.
Proof using. intros H. destruct l as [|x l]; [done|]. by apply (yields_lift _ x). Qed.

Lemma cpu_model_yields : yields (get_cpu_model answer) (fun _ => True) 0.
Proof using ok.
  unfold get_cpu_model. eapply (yields_bind0 _ _ (fun r => exists k, cpu_model_of (snd r) = Ok k)).
  - apply yields_command; [done|done|]. intros t. apply (ok_cpu_model nodes ok).
  - intros r [k E]. by apply (yields_lift _ k).
Qed.

Lemma basic_yields args vm : yields (construct_basic_qemu_cmd answer path_exists args vm) (fun c => head c = Some "numactl") 0.
Proof using ok.
  unfold construct_basic_qemu_cmd. cbv zeta. eapply yields_bind0; [apply cpu_model_yields|intros k _]. step_ask. apply yields_ret.
  destruct (use_ovmf args), (given (kernel args)), (given (initrd args)); reflexivity.
Qed.

Lemma bridge_yields dir n : yields (setup_bridge_tap_network answer link_lookup uid dir n) (fun _ => True) 0.
Proof using ok.
  unfold setup_bridge_tap_network. step_run. step_run. step_record. step_run.
  eapply yields_bind0; [apply yields_link|intros l0 _]. eapply (yields_bind0 _ _ (fun _ => True)); [case_decide; [by apply yields_record|apply yields_done]|intros _ _].
  eapply yields_bind0; [apply yields_link|intros l1 H1]. eapply yields_bind0; [by apply yields_first|intros br _]. step_record. step_record.
  eapply (yields_bind0 _ _ (fun _ => True)); [|intros _ _; by apply yields_record].
  apply yields_for_each0. intros i.
  eapply yields_bind0; [apply yields_link|intros l2 _]. eapply (yields_bind0 _ _ (fun _ => True)); [case_decide; [by apply yields_record|apply yields_done]|intros _ _].
  eapply yields_bind0; [apply yields_link|intros l3 H3]. eapply yields_bind0; [by apply yields_first|intros tap _].
  eapply yields_bind0; [apply yields_link|intros l4 H4]. eapply yields_bind0; [by apply yields_first|intros br' _]. step_record. by apply yields_record.
Qed.

Lemma last_char_app a c b : last_char (a +:+ String c b) = last_char (String c b).
Proof using.
  induction a as [|x a IH]; [done|]. rewrite <- IH. destruct a as [|y a]; reflexivity.
Qed.

Lemma path_join_last a c b : last_char (path_join a (String c b)) = last_char (String c b).
Proof using.
  unfold path_join. destruct (startswith "/" (String c b)); [done|]. repeat case_decide; [done|apply last_char_app|].
  exact (eq_trans (last_char_app a "/" (String c b)) (last_char_app "/" c b)).
Qed.

Lemma cxl_host_yields dir size numa : yields (setup_cxl_host answer ismount dir size numa) (fun _ => True) 0.
Proof using ok.
  unfold setup_cxl_host. step_run. cbv zeta. step_ask. eapply (yields_bind0 _ _ (fun _ => True)); [apply yields_if; [by apply yields_run|apply yields_done]|intros _ _].
  step_ask. apply yields_if; [apply yields_done|by apply yields_run].
Qed.

Lemma ivshmem_yields dir n sdir size vectors : yields (start_ivshmem answer path_exists SCRIPT_DIR dir n sdir size vectors) (fun _ => True) 0.
Proof using ok.
  unfold start_ivshmem. cbv zeta. step_ask. eapply (yields_bind0 _ _ (fun _ => True)); [apply yields_if; [apply yields_done|by apply yields_run]|intros _ _].
  step_ask. eapply (yields_bind0 _ _ (fun _ => True)); [apply yields_if; [apply yields_done|by apply yields_record]|intros _ _].
  eapply yields_bind0; [apply yields_record|intros _ _; by apply yields_ret].
  cbn [head]. intros [= E]. apply (f_equal last_char) in E. rewrite path_join_last in E. discriminate E.
Qed.

Lemma shared_mem_yields dir n sdir numa size vectors bell :
  yields (setup_shared_mem answer path_exists ismount SCRIPT_DIR dir n sdir numa size vectors bell) (fun _ => True) 0.
Proof using ok.
  unfold setup_shared_mem. cbv zeta. eapply yields_bind0; [apply cxl_host_yields|intros _ _]. apply yields_if; [apply ivshmem_yields|].
  step_run. by apply yields_ret.
Qed.

Lemma disks_yields dir drv name l : yields (missing_disks path_exists dir drv name l) (Forall (fun c => head c = Some "dd")) 0.
Proof using.
  induction l as [|vm l IH]; [by apply yields_ret|]. cbn [missing_disks]. step_record. cbv zeta. step_ask.
  eapply yields_bind0; [exact IH|intros r Hr]. apply yields_ret. case_match; [done|by constructor].
Qed.

Lemma copy_yields dir n drv name : yields (copy_vm_disk answer path_exists dir n drv name) (fun _ => True) 0.
Proof using ok. unfold copy_vm_disk. eapply yields_bind0; [apply disks_yields|]. intros cmds F. by apply yields_parallel. Qed.

Lemma prepare_yields dir drv vm name ssh n host : yields (prepare_vmdir answer path_exists SCRIPT_DIR dir drv vm name 1 0 ssh n host) (fun _ => True) 0.
Proof using ok.
  unfold prepare_vmdir. cbv zeta. step_record. step_record. step_record. step_ask.
  eapply (yields_bind0 _ _ (fun _ => True)); [apply yields_if; [apply yields_done|by apply yields_run]|intros _ _].
  eapply yields_bind0; [apply yields_for_each0; intros f; by apply yields_record|intros _ _].
  eapply (yields_bind0 _ _ (fun _ => True)); [by eapply yields_lift|intros addr _]. step_record. step_run.
  eapply yields_bind0; [apply yields_for_each0; intros f; by apply yields_run|intros _ _]. step_run. step_run. step_run. by apply yields_run.
Qed.

Lemma node_yields n : n ∈ nodes -> yields (parse_lscpu_node answer n) (fun l => l <> []) 0.
Proof using ok.
  intros Hn. unfold parse_lscpu_node. eapply (yields_bind0 _ _ (fun r => exists l, cpulines n (snd r) = Ok l /\ l <> [])).
  - apply yields_command; [done|done|]. intros t. by apply (ok_cpus nodes ok).
  - intros r (l & E & Hl). eapply (yields_bind0 _ _ (fun l => l <> [])); [by apply (yields_lift _ l)|]. intros l' Hl'. apply yields_ret.
    pose proof (sorting.merge_sort_Permutation cpu_le l') as P. intros E'. rewrite E' in P. by apply Permutation_nil in P.
Qed.

Lemma cpu_to_pin_ok l i : l <> [] -> exists p, cpu_to_pin l i = Ok p.
Proof using.
  intros H. unfold cpu_to_pin. rewrite decide_False by done. destruct l as [|c l']; [done|]. set (l := c :: l'). unfold nth_py.
  assert (R : 0 <= i mod Z.of_nat (length l) < Z.of_nat (length l)) by (apply Z.mod_pos_bound; cbn; lia).
  destruct (lookup_lt_is_Some_2 l (Z.to_nat (i mod Z.of_nat (length l)))) as [x ->]; [lia|]. by exists (cpu x).
Qed.

Lemma pin_yields args vms : vm_numa_node args = nodes -> nodes <> [] -> yields (pin_vm_threads answer query_cpus args vms) (fun _ => True) 0.
Proof using ok.
  intros En Hn. unfold pin_vm_threads. rewrite En. eapply (yields_bind0 _ _ (fun l => l <> [])).
  - assert (G : forall ns, (forall n, n ∈ ns -> n ∈ nodes) -> yields (cpus_of_nodes answer ns) (fun l => ns <> [] -> l <> []) 0).
    { induction ns as [|n ns IH]; intros Hs; [by apply yields_ret|]. cbn [cpus_of_nodes].
      eapply yields_bind0; [apply node_yields, Hs; by left|]. intros a Ha. eapply yields_bind0; [apply IH; intros m Hm; apply Hs; by right|].
      intros b _. apply yields_ret. by intros _ [? _]%app_nil. }
    eapply yields_weaken; [by apply G|]. intros l Hl. by apply Hl.
  - intros l Hl. apply yields_for_each0. intros vm. step_ask. apply yields_for_each0. intros v. cbv zeta.
    destruct (cpu_to_pin_ok l (snd v + vm * num_cpus args) Hl) as [p E]. eapply (yields_bind0 _ _ (fun _ => True)); [by apply (yields_lift _ p)|].
    intros p' _. by apply yields_run.
Qed.

(** No devices are passed through, nothing is restarted, and the share of local memory
    is a number. *)
Definition plain_args (args : Args) : Prop :=
  use_mlnx_ib args = false /\ use_mlnx_ether args = false /\ arg_pass_gpu args = false /\ restart_vm args = None /\
  (exists z, mem_local_percent args = PInt z) /\ vm_numa_node args <> [].

Definition locals_ok (args : Args) (l : locals) : Prop :=
  l_num_ether l = 1 /\ l_num_ib l = 0 /\ (given (shmem_dir args) <> None -> exists p, l_shmem_path l = Some p).

Lemma setup_yields args drv :
  plain_args args -> yields (global_setup answer path_exists ismount link_lookup uid json_iface SCRIPT_DIR args drv) (locals_ok args) 0.
Proof using ok.
  intros (Hib & He & Hg & Hr & _). unfold global_setup. rewrite Hib, He, Hg. cbn [orb].
  eapply (yields_bind0 _ _ (fun r => fst r <> 0)).
  { intros t. unfold run_local_command. pose proof (ok_pgrep nodes ok t) as Hp. destruct (answer t _) as [rc out]. eexists _, _.
    split; [reflexivity|]. split; [exact Hp|]. rewrite starts_app. reflexivity. }
  intros r Hrc. eapply (yields_bind0 _ _ (fun _ => True)); [rewrite (proj2 (Z.eqb_neq _ _) Hrc); apply yields_done|intros _ _].
  step_record. eapply yields_bind0; [apply yields_done|intros _ _].
  eapply (yields_bind0 _ _ (fun net => snd (fst net) = 1 /\ snd net = 0)).
  { eapply yields_bind0; [apply bridge_yields|intros _ _]. by apply yields_ret. }
  intros net [E1 E2]. step_record. eapply (yields_bind0 _ _ (fun _ => True)); [by apply yields_ret|intros gpu _].
  eapply (yields_bind0 _ _ (fun o => given (shmem_dir args) <> None -> exists p, o = Some p)).
  { destruct (given (shmem_dir args)) as [d|]; [|by apply yields_ret].
    eapply yields_bind0; [apply shared_mem_yields|intros path _]. apply yields_ret. by exists path. }
  intros o Ho. by apply yields_ret.
Qed.

Lemma memory_ok cmd args : (exists z, mem_local_percent args = PInt z) -> head cmd = Some "numactl" -> exists c, construct_memory cmd args = Ok c /\ head c = Some "numactl".
Proof using.
  intros [z Hz] Hh. unfold construct_memory. rewrite Hz. destruct cmd as [|x cmd]; [done|]. cbn in Hh.
  repeat case_match; (eexists; split; [reflexivity|exact Hh]).
Qed.

Lemma head_app {A} (l l' : list A) x : head l = Some x -> head (l ++ l') = Some x.
Proof using. by destruct l. Qed.

Lemma start_vm_yields args drv l vm :
  plain_args args -> locals_ok args l -> yields (start_vm answer path_exists rand SCRIPT_DIR args drv (Some l) vm) (fun _ => True) 1.
Proof using ok.
  intros (Hib & He & Hg & Hr & Hm & _) (L1 & L2 & L3). unfold start_vm. rewrite Hib, He, Hg, Hr, decide_True by done. unfold bound.
  eapply (yields_bind0 _ _ (fun _ => True)).
  { eapply (yields_bind0 _ _ (fun l' => l' = l)); [by apply yields_ret|]. intros l' ->. eapply yields_bind0; [apply copy_yields|intros _ _].
    unfold id. rewrite L1, L2. apply prepare_yields. }
  intros _ _. eapply (yields_bind0 _ _ (fun _ => True)); [by apply yields_ret|intros name _]. cbv zeta.
  eapply yields_bind0; [apply basic_yields|intros c1 H1].
  eapply (yields_bind0 _ _ (fun c => head c = Some "numactl")); [apply yields_ret; unfold construct_tap_net_cmd, construct_blk_cmd; by do 2 apply head_app|intros c2 H2].
  eapply (yields_bind0 _ _ (fun c => head c = Some "numactl")).
  { set (c3 := if add_user_ssh args then _ else _). assert (H3 : head c3 = Some "numactl") by (unfold c3; case_match; [by apply head_app|done]).
    destruct (given (shmem_dir args)) as [d|] eqn:Ed; [|by apply yields_ret]. destruct L3 as [path Hp]; [done|].
    eapply (yields_bind0 _ _ (fun o => o = Some path)); [by apply yields_ret|]. intros o ->. apply yields_ret.
    unfold construct_shared_mem. case_match; by apply head_app. }
  intros c4 H4. set (c5 := match given (shared_dir args) with Some d => _ | None => _ end).
  assert (H5 : head c5 = Some "numactl") by (unfold c5; case_match; [by apply head_app|done]).
  destruct (memory_ok c5 args Hm H5) as (c6 & E6 & H6). eapply (yields_bind0 _ _ (fun c => head c = Some "numactl")); [by apply (yields_lift _ c6)|intros c7 H7].
  eapply (yields_bind0 _ _ (fun c => head c = Some "numactl")); [by apply yields_ret|]. intros c8 H8. by apply yields_start.
Qed.

Lemma start_vms_yields args :
  plain_args args -> vm_numa_node args = nodes -> yields (start_vms answer path_exists ismount link_lookup uid rand query_cpus json_iface SCRIPT_DIR args) (fun _ => True) (Z.to_nat (num_vms args)).
Proof using ok.
  intros P En. pose proof P as (_ & _ & _ & Hr & _ & Hn). rewrite En in Hn. unfold start_vms. rewrite Hr. cbv zeta.
  eapply (yields_bind0 _ _ (fun l => exists l', l = Some l' /\ locals_ok args l')).
  - eapply yields_bind0; [by apply setup_yields|]. intros l Hl. apply yields_ret. by exists l.
  - intros o (l & -> & Hl). rewrite <- (Nat.add_0_r (Z.to_nat (num_vms args))). eapply (yields_bind _ _ (fun _ => True)).
    + replace (Z.to_nat (num_vms args)) with (length (range (num_vms args)) * 1)%nat by (unfold range; rewrite length_seqZ; lia).
      apply yields_for_each. intros vm. by apply start_vm_yields.
    + intros _ _. by apply pin_yields.
Qed.
End Success.


(** A host with one socket, and two machines with shared memory. *)
Definition example_answer (t : list (list string)) (cmd : list string) : Z * list string :=
  if decide (cmd = ["pgrep"; "qemu-system"]) then (1, [])
  else if decide (cmd = ["lscpu"]) then (0, ["Vendor ID: GenuineIntel"])
  else if decide (cmd = ["lscpu"; "-p"]) then (0, ["# CPU,Core,Socket,Node"; "0,0,0,0"; "1,1,0,0"])
  else (0, []).

Definition example_args (restart : option Z) : Args := {|
  qemu_bin := "qemu-system-x86_64"; kernel := None; initrd := None; drive := "/img/root.img"; vmdir := "/vms"; num_vms := 2; num_cpus := 1;
  mem_size_mb := 4096; add_user_ssh := true; shmem_dir := Some "/mnt/cxl"; shmem_size_mb := 4096; shmem_dir_numa := [1]; vm_numa_node := [0];
  msi_vectors := 8; use_ivshmem_doorbell := true; mem_local_percent := PInt (-1); arg_pass_gpu := false; use_mlnx_ib := false;
  use_mlnx_ether := false; num_ether_per_vm := 1; num_ib_per_vm := 0; host_id := 0; shared_dir := None; restart_vm := restart; use_ovmf := false |}.


Lemma example_host : host_ok example_answer (fun _ _ => [3]) [0].
Proof.
  constructor.
  - intros t. done.
  - intros t cmd H. unfold example_answer. by rewrite decide_False by done; repeat case_decide.
  - intros t. by eexists.
  - intros t n ->%list_elem_of_singleton. eexists. split; [vm_compute; reflexivity|done].
  - done.
Qed.


Lemma options_cannot_work_witness :
  start_vms example_answer (fun _ _ => true) (fun _ _ => false) (fun _ _ => [3]) 1000 (fun _ => (17, 254)) (fun _ vm => [(100 + vm, 0)])
      (fun _ => ("ether", "eth0")) "/lupin/vm_lib" (example_args (Some 1)) [] = (Raise UnboundLocalError, []).
Proof.
  apply (options_cannot_work example_answer (fun _ _ => true) (fun _ _ => false) (fun _ _ => [3]) 1000 (fun _ => (17, 254)) (fun _ vm => [(100 + vm, 0)])
    (fun _ => ("ether", "eth0")) "/lupin/vm_lib" (example_args (Some 1)) []) with (vm := 1). reflexivity.
Defined.

(** ** Resources *)

(** The sockets and files of a machine on its command line. *)
Definition own_args (args : Args) (vm : Z) : list string :=
  ["-qmp"; "unix:" +:+ path_join (vmdir args) (str vm +:+ "/qemu-monitor.sock") +:+ ",server,nowait"; "-gdb"; "tcp::" +:+ str (1234 + vm);
   "-pidfile"; vmdir args +:+ "/" +:+ str vm +:+ "/pid"].

Lemma basic_cmd_has answer path_exists args vm t c t' :
  construct_basic_qemu_cmd answer path_exists args vm t = (Ok c, t') -> exists pre post, c = (pre ++ own_args args vm ++ post)%list.
Proof.
  unfold construct_basic_qemu_cmd, sbind. destruct (get_cpu_model answer t) as [[k|] t1]; [|done]. cbv zeta. unfold ask, sret.
  intros [= <- _].
  destruct (path_exists t1 "/tmp/events"), (use_ovmf args), (given (kernel args)), (given (initrd args));
    match goal with |- exists pre post, ?c = _ => first [exists (take 24 c), (drop 30 c); reflexivity|exists (take 26 c), (drop 32 c); reflexivity] end.
Qed.

(** No two machines share a socket or a file.  The monitor, the port of the debugger and
    the file with the process number differ, and so do the tap device, the forwarded
    port and the socket of the doorbell. *)
Theorem machines_own_resources (answer : list (list string) -> list string -> Z * list string) (path_exists : list (list string) -> string -> bool)
    (args : Args) (vm1 vm2 : Z) (t1 t2 t1' t2' : list (list string)) (c1 c2 : list string) :
  0 <= vm1 -> 0 <= vm2 -> vm1 <> vm2 ->
  construct_basic_qemu_cmd answer path_exists args vm1 t1 = (Ok c1, t1') -> construct_basic_qemu_cmd answer path_exists args vm2 t2 = (Ok c2, t2') ->
  (exists pre1 post1 q1 g1 p1 pre2 post2 q2 g2 p2,
     c1 = (pre1 ++ ["-qmp"; q1; "-gdb"; g1; "-pidfile"; p1] ++ post1)%list /\ c2 = (pre2 ++ ["-qmp"; q2; "-gdb"; g2; "-pidfile"; p2] ++ post2)%list /\
     q1 <> q2 /\ g1 <> g2 /\ p1 <> p2) /\
  (forall c mac, construct_tap_net_cmd c mac vm1 <> construct_tap_net_cmd c mac vm2) /\
  (forall c, construct_user_net_cmd c vm1 <> construct_user_net_cmd c vm2) /\
  (forall c path size vectors, construct_shared_mem c vm1 path size vectors true <> construct_shared_mem c vm2 path size vectors true).
Proof.
  intros H1 H2 N E1 E2. apply basic_cmd_has in E1 as (pre1 & post1 & ->), E2 as (pre2 & post2 & ->). split_and!.
  - do 10 eexists. split; [reflexivity|]. split; [reflexivity|]. split_and!; intros E; apply N.
    + apply sapp_inj_l, sapp_inj_r in E. by apply path_join_number in E.
    + apply sapp_inj_l, str_inj in E. lia.
    + apply sapp_inj_l, sapp_inj_l, sapp_inj_r, str_inj in E. done.
  - intros c mac E. apply app_inv_head in E. injection E as E _. apply sapp_inj_r, str_inj in E. done.
  - intros c E. apply app_inv_head in E. injection E as E _. by apply str_inj in E.
  - intros c path size vectors E. apply app_inv_head in E. injection E as E. apply sapp_inj_l in E. injection E as E. apply sapp_inj_r, str_inj in E. lia.
Qed.

Lemma machines_own_resources_witness :
  (forall c, construct_user_net_cmd c 0 <> construct_user_net_cmd c 1) /\
  exists c1 c2 t1 t2, construct_basic_qemu_cmd example_answer (fun _ _ => true) (example_args None) 0 [] = (Ok c1, t1) /\
    construct_basic_qemu_cmd example_answer (fun _ _ => true) (example_args None) 1 [] = (Ok c2, t2).
Proof.
  destruct (machines_own_resources example_answer (fun _ _ => true) (example_args None) 0 1 [] [] [["lscpu"]] [["lscpu"]]
    (match fst (construct_basic_qemu_cmd example_answer (fun _ _ => true) (example_args None) 0 []) with Ok c => c | Raise _ => [] end)
    (match fst (construct_basic_qemu_cmd example_answer (fun _ _ => true) (example_args None) 1 []) with Ok c => c | Raise _ => [] end)) as (_ & _ & H & _);
    [lia|lia|lia|vm_compute; reflexivity|vm_compute; reflexivity|].
  split; [exact H|]. do 4 eexists. split; vm_compute; reflexivity.
Defined.
