(* ===== verification/Qmp.v ===== *)
(** The client of the monitor of QEMU: src/vm_lib/qmp.py.

    A message is a dictionary; the client looks at its keys only and hands the rest
    through.  The connection is the messages that are still to come; behind the last one
    it is closed. *)
From Stdlib Require Import ZArith Lia Bool Ascii String.
From stdpp Require Import base list strings.
From S2P Require Import Prelude Python.
Local Open Scope string_scope.

Inductive qmp_exn := QMPConnectError | QMPCapabilitiesError | CommandError | ReplyTypeError | ReplyKeyError.

Section Monitor.
Context {A : Type}.

Record message := Message { m_keys : list string; m_body : A }.
Definition has (key : string) (m : message) : bool := bool_decide (key ∈ m_keys m).
Definition is_event (m : message) : bool := has "event" m.

(** The client: the cached events, the messages to come, and the commands sent. *)
Record monitor := Monitor { events : list message; incoming : list message; sent : list string }.

(** The events are put aside; [only_event] returns the first message of any kind. *)
Fixpoint json_read (only_event : bool) (cache l : list message) : option message * list message * list message :=
  match l with
  | [] => (None, cache, [])
  | resp :: l =>
      if is_event resp then
        if only_event then (Some resp, (cache ++ [resp])%list, l) else json_read only_event (cache ++ [resp])%list l
      else (Some resp, cache, l)
  end.

(** [cmd] sends and reads the reply. *)
Definition cmd (st : monitor) (name : string) : option message * monitor :=
  let '(resp, cache, rest) := json_read false (events st) (incoming st) in
  (resp, Monitor cache rest (sent st ++ [name])%list).

(** [command]: a reply that is missing is no dictionary to look into. *)
Definition command (st : monitor) (name : string) : (message + qmp_exn) * monitor :=
  let '(ret, st) := cmd st name in
  match ret with
  | None => (inr ReplyTypeError, st)
  | Some ret => if has "error" ret then (inr CommandError, st) else if has "return" ret then (inl ret, st) else (inr ReplyKeyError, st)
  end.

Definition negotiate_capabilities (st : monitor) : (message + qmp_exn) * monitor :=
  let '(greeting, cache, rest) := json_read false (events st) (incoming st) in
  let st := Monitor cache rest (sent st) in
  match greeting with
  | None => (inr QMPConnectError, st)
  | Some greeting =>
      if has "QMP" greeting then
        match cmd st "qmp_capabilities" with
        | (None, st) => (inr ReplyTypeError, st)
        | (Some resp, st) => if has "return" resp then (inl greeting, st) else (inr QMPCapabilitiesError, st)
        end
      else (inr QMPConnectError, st)
  end.

Definition clear_events (st : monitor) : monitor := Monitor [] (incoming st) (sent st).

(** Commands one after the other; the first one without a result ends them. *)
Fixpoint commands (st : monitor) (names : list string) : (list message + qmp_exn) * monitor :=
  match names with
  | [] => (inl [], st)
  | n :: names =>
      match command st n with
      | (inr e, st) => (inr e, st)
      | (inl r, st) => match commands st names with (inl l, st) => (inl (r :: l), st) | (inr e, st) => (inr e, st) end
      end
  end.

Lemma json_read_spec cache l :
  exists evs, Forall (fun m => is_event m = true) evs /\
  (json_read false cache l = (None, (cache ++ evs)%list, []) /\ l = evs \/
   exists m rest, json_read false cache l = (Some m, (cache ++ evs)%list, rest) /\ l = (evs ++ m :: rest)%list /\ is_event m = false).
Proof.
  revert cache. induction l as [|m l IH]; intros cache; [exists []; split; [constructor|left; by rewrite app_nil_r]|]. cbn. destruct (is_event m) eqn:E.
  - destruct (IH (cache ++ [m])%list) as (evs & F & H). exists (m :: evs). split; [by constructor|]. rewrite <- app_assoc in H. cbn in H.
    destruct H as [[-> ->]|(m' & rest & -> & -> & Hm)]; [by left|]. right. by exists m', rest.
  - exists []. split; [constructor|]. right. exists m, l. by rewrite app_nil_r.
Qed.

End Monitor.
Arguments message : clear implicits.
Arguments monitor : clear implicits.

(** Replies and events are kept apart.  Whatever events come in between, a sequence of
    commands that succeeds has returned, in order, exactly the messages up to its last
    reply that are no events, one per command, and has cached exactly the events, in
    order; nothing is lost, and what has not been read is still to come. *)
Theorem replies_and_events (A : Type) (st st' : monitor A) (names : list string) (replies : list (message A)) :
  commands st names = (inl replies, st') ->
  exists seen, incoming st = (seen ++ incoming st')%list /\ replies = filter (fun m => is_event m = false) seen /\
    events st' = (events st ++ filter (fun m => is_event m = true) seen)%list /\ sent st' = (sent st ++ names)%list /\ length replies = length names.
Proof.
  revert st replies. induction names as [|n names IH]; cbn; intros st replies H.
  - injection H as <- <-. exists []. rewrite !filter_nil, !app_nil_r. done.
  - unfold command, cmd in H. destruct (json_read_spec (events st) (incoming st)) as (evs & F & [[E Hl]|(m & rest & E & Hl & Hm)]); rewrite E in H; [done|].
    cbn in H. destruct (has "error" m); [done|]. destruct (has "return" m); [|done]. set (st1 := Monitor _ _ _) in H.
    destruct (commands st1 names) as [[l|e] st2] eqn:Ec; [|done]. injection H as <- <-.
    destruct (IH st1 l Ec) as (seen & H1 & H2 & H3 & H4 & H5). exists (evs ++ m :: seen)%list. cbn in H1, H3, H4.
    assert (F0 : filter (fun m => is_event m = false) evs = []) by (clear -F; induction F as [|x l Hx F IH]; [done|]; rewrite filter_cons_False by congruence; done).
    assert (F1 : filter (fun m => is_event m = true) evs = evs) by (clear -F; induction F as [|x l Hx F IH]; [done|]; rewrite filter_cons_True by done; by rewrite IH).
    rewrite !list.filter_app, F0, F1. rewrite filter_cons_True, filter_cons_False by congruence. split_and!.
    + by rewrite Hl, H1, <- app_assoc.
    + by rewrite H2.
    + by rewrite H3, <- app_assoc.
    + by rewrite H4, <- app_assoc.
    + cbn. by rewrite H5.
Qed.

Definition example_monitor : monitor Z :=
  Monitor [] [Message ["event"; "data"] 1%Z; Message ["return"] 2%Z; Message ["event"] 3%Z; Message ["event"] 4%Z; Message ["return"; "id"] 5%Z; Message ["event"] 6%Z] [].

Lemma replies_and_events_witness :
  exists replies st', commands example_monitor ["query-cpus-fast"; "query-status"] = (inl replies, st') /\ map m_body replies = [2; 5]%Z /\
    map m_body (events st') = [1; 3; 4]%Z /\ exists seen, incoming example_monitor = (seen ++ incoming st')%list.
Proof.
  do 2 eexists. split; [vm_compute; reflexivity|]. split; [reflexivity|]. split; [reflexivity|].
  destruct (replies_and_events Z example_monitor _ ["query-cpus-fast"; "query-status"] _ ltac:(vm_compute; reflexivity)) as (seen & E & _).
  exists seen. exact E.
Defined.
