(* ===== verification/KernelBits.v ===== *)
(** The bit operations of the kernel headers for user space, under
    src/driver/src/user_space_kernel_def/include: the searches for the first and the
    last set bit, the logarithms and powers of two of linux/log2.h, the masks of
    linux/bits.h, the bitmaps of asm-generic/bitops/non-atomic.h and atomic.h, the
    population count of const_hweight.h and the rounding of linux/math.h, for 64-bit
    long words. *)
From Stdlib Require Import ZArith Lia Bool.
From stdpp Require Import base list numbers.
From S2P Require Import Prelude TatasLock Bitset.
Local Open Scope Z_scope.

Definition BITS_PER_LONG : Z := 64.
Definition ALL_ONES : Z := u64 (Z.lnot 0).

(** ** Searches *)

(** The steps of [__ffs]: when the low bits are clear they are passed over. *)
Definition ffs_step (s : Z) (st : Z * Z) : Z * Z :=
  let '(num, word) := st in if Z.land word (Z.ones s) =? 0 then (num + s, Z.shiftr word s) else (num, word).
Definition __ffs (word : Z) : Z :=
  let '(num, word) := ffs_step 2 (ffs_step 4 (ffs_step 8 (ffs_step 16 (ffs_step 32 (0, word))))) in
  if Z.land word 1 =? 0 then num + 1 else num.
Definition ffz (x : Z) : Z := __ffs (u64 (Z.lnot x)).

(** The steps of [__fls]: when the high bits are clear the rest moves up. *)
Definition fls_step (s : Z) (st : Z * Z) : Z * Z :=
  let '(num, word) := st in
  if Z.land word (u64 (Z.shiftl ALL_ONES (BITS_PER_LONG - s))) =? 0 then (num - s, u64 (Z.shiftl word s)) else (num, word).
Definition __fls (word : Z) : Z :=
  let '(num, word) := fls_step 2 (fls_step 4 (fls_step 8 (fls_step 16 (fls_step 32 (BITS_PER_LONG - 1, word))))) in
  if Z.land word (u64 (Z.shiftl ALL_ONES (BITS_PER_LONG - 1))) =? 0 then num - 1 else num.

Definition fls32_step (mask s : Z) (st : Z * Z) : Z * Z :=
  let '(r, x) := st in if Z.land x mask =? 0 then (r - s, u32 (Z.shiftl x s)) else (r, x).
Definition fls (x : Z) : Z :=
  if x =? 0 then 0
  else fst (fls32_step 0x80000000 1 (fls32_step 0xc0000000 2 (fls32_step 0xf0000000 4 (fls32_step 0xff000000 8 (fls32_step 0xffff0000 16 (32, x)))))).

Definition fls64 (x : Z) : Z := if x =? 0 then 0 else __fls x + 1.
Definition fls_long (l : Z) : Z := fls64 l.

(** ** Logarithms *)

Definition __ilog2_u32 (n : Z) : Z := fls n - 1.
Definition __ilog2_u64 (n : Z) : Z := fls64 n - 1.
Definition is_power_of_2 (n : Z) : bool := negb (n =? 0) && (Z.land n (u64 (n - 1)) =? 0).
Definition __roundup_pow_of_two (n : Z) : Z := u64 (Z.shiftl 1 (fls_long (u64 (n - 1)))).
Definition __rounddown_pow_of_two (n : Z) : Z := u64 (Z.shiftl 1 (fls_long n - 1)).

(** The conditional of [ilog2] for constants, from bit [k + 1] down to bit 2. *)
Fixpoint ilog2_from (n : Z) (k : nat) : Z :=
  match k with
  | O => 1
  | S k' => let b := Z.of_nat (S k') + 1 in if negb (Z.land n (Z.shiftl 1 b) =? 0) then b else ilog2_from n k'
  end.
Definition ilog2_const (n : Z) : Z := if n <? 2 then 0 else ilog2_from n 62.
Definition ilog2 (constant : bool) (size n : Z) : Z := if constant then ilog2_const n else if size <=? 4 then __ilog2_u32 n else __ilog2_u64 n.

Definition roundup_pow_of_two (constant : bool) (n : Z) : Z :=
  if constant then (if n =? 1 then 1 else u64 (Z.shiftl 1 (ilog2_const (u64 (n - 1)) + 1))) else __roundup_pow_of_two n.
Definition rounddown_pow_of_two (constant : bool) (n : Z) : Z :=
  if constant then u64 (Z.shiftl 1 (ilog2_const n)) else __rounddown_pow_of_two n.

(** ** Masks and rounding *)

Definition BIT_MASK (nr : Z) : Z := u64 (Z.shiftl 1 (nr mod BITS_PER_LONG)).
Definition BIT_WORD (nr : Z) : Z := nr / BITS_PER_LONG.
Definition __GENMASK (h l : Z) : Z := Z.land (u64 (ALL_ONES - u64 (Z.shiftl 1 l) + 1)) (Z.shiftr ALL_ONES (BITS_PER_LONG - 1 - h)).

Definition round_up (x y : Z) : Z := u64 (Z.lor (u64 (x - 1)) (u64 (y - 1)) + 1).
Definition round_down (x y : Z) : Z := Z.land x (u64 (Z.lnot (u64 (y - 1)))).
Definition DIV_ROUND_UP (n d : Z) : Z := u64 (u64 (n + d) - 1) / d.

(** ** Population count *)

Definition bit_at (w k : Z) : Z := if Z.land w (Z.shiftl 1 k) =? 0 then 0 else 1.
Definition __const_hweight8 (w : Z) : Z :=
  bit_at w 0 + bit_at w 1 + bit_at w 2 + bit_at w 3 + bit_at w 4 + bit_at w 5 + bit_at w 6 + bit_at w 7.
Definition __const_hweight16 (w : Z) : Z := __const_hweight8 w + __const_hweight8 (Z.shiftr w 8).
Definition __const_hweight32 (w : Z) : Z := __const_hweight16 w + __const_hweight16 (Z.shiftr w 16).
Definition __const_hweight64 (w : Z) : Z := __const_hweight32 w + __const_hweight32 (Z.shiftr w 32).

(** ** Bitmaps: an array of words by index *)

Definition bitmap := Z -> Z.
Definition ___set_bit (nr : Z) (addr : bitmap) : bitmap := upd addr (BIT_WORD nr) (Z.lor (addr (BIT_WORD nr)) (BIT_MASK nr)).
Definition ___clear_bit (nr : Z) (addr : bitmap) : bitmap := upd addr (BIT_WORD nr) (Z.land (addr (BIT_WORD nr)) (u64 (Z.lnot (BIT_MASK nr)))).
Definition ___change_bit (nr : Z) (addr : bitmap) : bitmap := upd addr (BIT_WORD nr) (Z.lxor (addr (BIT_WORD nr)) (BIT_MASK nr)).
Definition ___test_and_set_bit (nr : Z) (addr : bitmap) : bitmap * bool :=
  let old := addr (BIT_WORD nr) in (upd addr (BIT_WORD nr) (Z.lor old (BIT_MASK nr)), negb (Z.land old (BIT_MASK nr) =? 0)).
Definition ___test_and_clear_bit (nr : Z) (addr : bitmap) : bitmap * bool :=
  let old := addr (BIT_WORD nr) in (upd addr (BIT_WORD nr) (Z.land old (u64 (Z.lnot (BIT_MASK nr)))), negb (Z.land old (BIT_MASK nr) =? 0)).
Definition ___test_and_change_bit (nr : Z) (addr : bitmap) : bitmap * bool :=
  let old := addr (BIT_WORD nr) in (upd addr (BIT_WORD nr) (Z.lxor old (BIT_MASK nr)), negb (Z.land old (BIT_MASK nr) =? 0)).
Definition _test_bit (nr : Z) (addr : bitmap) : bool :=
  truthy (Z.land 1 (Z.shiftr (addr (BIT_WORD nr)) (Z.land nr (BITS_PER_LONG - 1)))).

(** The operations of asm-generic/bitops/atomic.h. *)
Definition atomic_set_bit (nr : Z) (addr : bitmap) : bitmap :=
  upd addr (Z.quot nr BITS_PER_LONG) (Z.lor (addr (Z.quot nr BITS_PER_LONG)) (u64 (Z.shiftl 1 (Z.rem nr BITS_PER_LONG)))).
Definition atomic_clear_bit (nr : Z) (addr : bitmap) : bitmap :=
  upd addr (Z.quot nr BITS_PER_LONG) (Z.land (addr (Z.quot nr BITS_PER_LONG)) (u64 (Z.lnot (u64 (Z.shiftl 1 (Z.rem nr BITS_PER_LONG)))))).

(** ** The last set bit *)

Lemma pow_split_at N k : 0 <= k <= N -> 2 ^ N = 2 ^ (N - k) * 2 ^ k.
Proof. intros H. rewrite <- Z.pow_add_r by lia. f_equal. lia. Qed.

Lemma high_mask N k w : 0 <= k <= N -> 0 <= w < 2 ^ N -> (Z.land w (2 ^ N - 2 ^ k) =? 0) = (w <? 2 ^ k).
Proof.
  intros Hk Hw. assert (E : Z.land w (2 ^ N - 2 ^ k) = Z.shiftl (Z.shiftr w k) k).
  { replace (2 ^ N - 2 ^ k) with (Z.shiftl (Z.ones (N - k)) k).
    2: { rewrite Z.shiftl_mul_pow2, Z.ones_equiv by lia. rewrite (pow_split_at N k) by lia. lia. }
    apply Z.bits_inj'. intros j Hj. rewrite Z.land_spec, !Z.shiftl_spec by done. destruct (Z.ltb_spec j k) as [L|L].
    - rewrite !(Z.testbit_neg_r _ (j - k)) by lia. apply andb_false_r.
    - rewrite Z.shiftr_spec by lia. replace (j - k + k) with j by lia. destruct (Z.ltb_spec j N) as [M|M].
      + rewrite Z.ones_spec_low by lia. apply andb_true_r.
      + by rewrite (testbit_above w N j) by lia. }
  rewrite E, Z.shiftl_mul_pow2, Z.shiftr_div_pow2 by lia. assert (0 < 2 ^ k) by (apply Z.pow_pos_nonneg; lia).
  destruct (Z.ltb_spec w (2 ^ k)) as [L|L]; [by rewrite Z.div_small by lia|]. apply Z.eqb_neq. pose proof (Z.div_str_pos w (2 ^ k)). nia.
Qed.

(** A step of the search in words of [N] bits, and what holds before it: the search has
    moved the word up by what is missing from [num], and its top [s] bits are not clear. *)
Definition gstep (N s : Z) (st : Z * Z) : Z * Z := let '(num, w) := st in if w <? 2 ^ (N - s) then (num - s, w * 2 ^ s) else (num, w).
Definition fls_inv (N top s w0 : Z) (st : Z * Z) : Prop :=
  let '(num, w) := st in 0 < w < 2 ^ N /\ top - num = Z.log2 w - Z.log2 w0 /\ N - s <= Z.log2 w.

Lemma gstep_inv N top s w0 st : 0 < s -> 2 * s <= N -> fls_inv N top (2 * s) w0 st -> fls_inv N top s w0 (gstep N s st).
Proof.
  intros Hs HN. destruct st as [num w]. cbn. intros (Hw & He & Hl). destruct (Z.ltb_spec w (2 ^ (N - s))) as [L|L]; cbn.
  - rewrite Z.log2_mul_pow2 by lia. split; [|lia]. split; [apply Z.mul_pos_pos; [lia|apply Z.pow_pos_nonneg; lia]|].
    rewrite (pow_split_at N s) by lia. apply Z.mul_lt_mono_pos_r; [apply Z.pow_pos_nonneg; lia|done].
  - split_and!; [lia..|]. apply Z.log2_le_pow2; lia.
Qed.

Lemma fls_step_gen s st : 0 < s < 64 -> 0 <= snd st < 2 ^ 64 -> fls_step s st = gstep 64 s st.
Proof.
  destruct st as [num w]. cbn [snd]. intros Hs Hw. unfold fls_step, gstep. change BITS_PER_LONG with 64.
  replace (u64 (Z.shiftl ALL_ONES (64 - s))) with (2 ^ 64 - 2 ^ (64 - s)).
  2: { change ALL_ONES with (2 ^ 64 - 1). rewrite Z.shiftl_mul_pow2 by lia. unfold u64. assert (0 < 2 ^ (64 - s) < 2 ^ 64) by (split; [apply Z.pow_pos_nonneg; lia|apply Z.pow_lt_mono_r; lia]).
       apply (Z.mod_unique_pos _ _ (2 ^ (64 - s) - 1)); lia. }
  rewrite high_mask by lia. destruct (Z.ltb_spec w (2 ^ (64 - s))) as [L|L]; [|done]. f_equal. rewrite Z.shiftl_mul_pow2 by lia. apply u64_small.
  split; [apply Z.mul_nonneg_nonneg; [lia|apply Z.pow_nonneg; lia]|]. rewrite (pow_split_at 64 s) by lia.
  apply Z.mul_lt_mono_pos_r; [apply Z.pow_pos_nonneg; lia|done].
Qed.

Lemma fls32_step_gen mask s st : 0 < s < 32 -> mask = 2 ^ 32 - 2 ^ (32 - s) -> 0 <= snd st < 2 ^ 32 -> fls32_step mask s st = gstep 32 s st.
Proof.
  destruct st as [num w]. cbn [snd]. intros Hs -> Hw. unfold fls32_step, gstep.
  rewrite high_mask by lia. destruct (Z.ltb_spec w (2 ^ (32 - s))) as [L|L]; [|done]. f_equal. rewrite Z.shiftl_mul_pow2 by lia. apply u32_small.
  split; [apply Z.mul_nonneg_nonneg; [lia|apply Z.pow_nonneg; lia]|]. rewrite (pow_split_at 32 s) by lia.
  apply Z.mul_lt_mono_pos_r; [apply Z.pow_pos_nonneg; lia|done].
Qed.

Lemma fls_inv_range N top s w0 st : fls_inv N top s w0 st -> 0 <= snd st < 2 ^ N.
Proof. destruct st. cbn. lia. Qed.

(** One step of either search. *)
Ltac fls_next H s := rewrite (fls_step_gen s) by (lia || exact (fls_inv_range _ _ _ _ _ H)); apply (gstep_inv 64 _ s) in H; [|lia..].
Ltac fls32_next H s := rewrite (fls32_step_gen _ s) by (lia || reflexivity || exact (fls_inv_range _ _ _ _ _ H)); apply (gstep_inv 32 _ s) in H; [|lia..].

Lemma __fls_log2 x : 0 < x < 2 ^ 64 -> __fls x = Z.log2 x.
Proof.
  intros Hx. assert (I : fls_inv 64 63 (2 * 32) x (BITS_PER_LONG - 1, x)) by (unfold fls_inv, BITS_PER_LONG; pose proof (Z.log2_nonneg x); lia).
  unfold __fls. fls_next I 32. fls_next I 16. fls_next I 8. fls_next I 4. fls_next I 2. destruct (gstep 64 2 _) as [num w]. destruct I as (Hw & He & Hl).
  change (u64 (Z.shiftl ALL_ONES (BITS_PER_LONG - 1))) with (2 ^ 64 - 2 ^ 63). rewrite high_mask by lia.
  assert (Z.log2 w < 64) by (apply Z.log2_lt_pow2; lia). destruct (Z.ltb_spec w (2 ^ 63)) as [L|L].
  - assert (Z.log2 w < 63) by (apply Z.log2_lt_pow2; lia). lia.
  - assert (63 <= Z.log2 w) by (apply Z.log2_le_pow2; lia). lia.
Qed.

Lemma fls_log2 x : 0 < x < 2 ^ 32 -> fls x = Z.log2 x + 1.
Proof.
  intros Hx. assert (I : fls_inv 32 32 (2 * 16) x (32, x)) by (unfold fls_inv, BITS_PER_LONG; pose proof (Z.log2_nonneg x); lia).
  unfold fls. rewrite (proj2 (Z.eqb_neq _ _)) by lia. fls32_next I 16. fls32_next I 8. fls32_next I 4. fls32_next I 2. fls32_next I 1.
  destruct (gstep 32 1 _) as [num w]. destruct I as (Hw & He & Hl). assert (Z.log2 w < 32) by (apply Z.log2_lt_pow2; lia). cbn. lia.
Qed.

(** ** The first set bit *)

(** The search has passed over [num] clear bits, and the low [s] bits of the rest are
    not clear. *)
Definition ffs_inv (s w0 : Z) (st : Z * Z) : Prop :=
  let '(num, w) := st in 0 < w /\ 0 <= num /\ w0 = w * 2 ^ num /\ w mod 2 ^ s <> 0.

Lemma ffs_step_inv s w0 st : 0 < s -> ffs_inv (2 * s) w0 st -> ffs_inv s w0 (ffs_step s st).
Proof.
  intros Hs. destruct st as [num w]. cbn. intros (Hw & Hn & E & M). rewrite Z.land_ones by lia. assert (P : 0 < 2 ^ s) by (apply Z.pow_pos_nonneg; lia).
  destruct (Z.eqb_spec (w mod 2 ^ s) 0) as [Z0|N0]; cbn; [|done]. rewrite Z.shiftr_div_pow2 by lia.
  pose proof (Z.div_mod w (2 ^ s) ltac:(lia)) as D. rewrite Z0, Z.add_0_r in D. set (q := w / 2 ^ s) in *. split_and!; [nia|lia| |].
  - rewrite Z.pow_add_r by lia. lia.
  - intros Q. apply M. rewrite D. replace (2 * s) with (s + s) by lia. rewrite Z.pow_add_r, Z.mul_mod_distr_l by lia. by rewrite Q, Z.mul_0_r.
Qed.

Lemma __ffs_odd x : 0 < x < 2 ^ 64 -> exists q, x = (2 * q + 1) * 2 ^ __ffs x /\ 0 <= __ffs x.
Proof.
  intros Hx. assert (I : ffs_inv (2 * 32) x (0, x)).
  { unfold ffs_inv. rewrite Z.mul_1_r. split_and!; [lia..|]. change (2 * 32) with 64. rewrite Z.mod_small; lia. }
  apply (ffs_step_inv 32), (ffs_step_inv 16), (ffs_step_inv 8), (ffs_step_inv 4), (ffs_step_inv 2) in I; [|lia..].
  unfold __ffs. destruct (ffs_step 2 _) as [num w]. destruct I as (Hw & Hn & E & M). change 1 with (Z.ones 1) at 2 4. rewrite !Z.land_ones by lia. change (2 ^ 1) with 2.
  pose proof (Z.div_mod w 2 ltac:(lia)) as D. destruct (Z.eqb_spec (w mod 2) 0) as [Z0|N0].
  - rewrite Z0 in D. exists (w / 2 / 2). split; [|lia]. rewrite Z.pow_add_r by lia. pose proof (Z.div_mod (w / 2) 2 ltac:(lia)) as D2.
    assert ((w / 2) mod 2 = 1).
    { pose proof (Z.mod_pos_bound (w / 2) 2 ltac:(lia)). destruct (Z.eq_dec ((w / 2) mod 2) 0) as [Q|]; [|lia]. exfalso. apply M.
      change (2 ^ 2) with 4. apply Z.mod_divide; [lia|]. exists (w / 2 / 2). lia. }
    rewrite E. change (2 ^ 1) with 2. nia.
  - exists (w / 2). split; [|lia]. pose proof (Z.mod_pos_bound w 2 ltac:(lia)). rewrite E. f_equal. lia.
Qed.

Lemma odd_low_bits q r k : 0 <= r -> 0 <= k <= r -> Z.testbit ((2 * q + 1) * 2 ^ r) k = (k =? r).
Proof.
  intros Hr Hk. destruct (Z.eqb_spec k r) as [->|N].
  - rewrite Z.mul_pow2_bits by lia. rewrite Z.sub_diag. by rewrite Z.testbit_odd_0.
  - apply Z.mul_pow2_bits_low. lia.
Qed.

Lemma land_bit n b : 0 <= b -> (Z.land n (Z.shiftl 1 b) =? 0) = negb (Z.testbit n b).
Proof.
  intros Hb. rewrite Z.shiftl_1_l. destruct (Z.testbit n b) eqn:E; cbn.
  - apply Z.eqb_neq. intros Z0. apply (f_equal (fun x => Z.testbit x b)) in Z0. rewrite Z.land_spec, E, Z.pow2_bits_true, Z.bits_0 in Z0 by done. done.
  - apply Z.eqb_eq, Z.bits_inj_0. intros j. rewrite Z.land_spec. destruct (Z.eq_dec j b) as [->|N]; [by rewrite E|].
    rewrite Z.pow2_bits_false by congruence. apply andb_false_r.
Qed.

Lemma top_bit n b : 0 <= b -> 0 <= n < 2 ^ (b + 1) -> Z.testbit n b = (2 ^ b <=? n).
Proof.
  intros Hb Hn. destruct (Z.leb_spec (2 ^ b) n) as [L|L]; [|apply (testbit_above n b); lia].
  assert (E : Z.log2 n = b) by (apply Z.log2_unique; lia). rewrite <- E. apply Z.bit_log2. assert (0 < 2 ^ b) by (apply Z.pow_pos_nonneg; lia). lia.
Qed.

Lemma ilog2_from_log2 n k : 2 <= n < 2 ^ (Z.of_nat k + 2) -> ilog2_from n k = Z.log2 n.
Proof.
  induction k as [|k IH]; intros Hn; cbn [ilog2_from].
  - symmetry. apply Z.log2_unique; cbn in *; lia.
  - set (b := Z.of_nat (S k) + 1). rewrite land_bit, top_bit by (unfold b; try split; try lia; replace (Z.of_nat (S k) + 1 + 1) with (Z.of_nat (S k) + 2) by lia; lia).
    rewrite negb_involutive. destruct (Z.leb_spec (2 ^ b) n) as [L|L].
    + symmetry. apply Z.log2_unique; [unfold b; lia|]. unfold b in *. replace (Z.succ (Z.of_nat (S k) + 1)) with (Z.of_nat (S k) + 2) by lia. lia.
    + apply IH. unfold b in L. replace (Z.of_nat k + 2) with (Z.of_nat (S k) + 1) by lia. lia.
Qed.

Lemma ilog2_const_log2 n : 1 <= n < 2 ^ 64 -> ilog2_const n = Z.log2 n.
Proof.
  intros Hn. unfold ilog2_const. destruct (Z.ltb_spec n 2); [by replace n with 1 by lia|]. apply ilog2_from_log2. cbn; lia.
Qed.

(** ** What the headers promise *)

(** The searches are right: for a word that is not zero, __ffs returns the position of
    its lowest set bit and __fls of its highest, and fls and fls64 the latter plus one,
    counting zero as having none. *)
Theorem bit_searches_correct (x : Z) (Hx : 0 < x < 2 ^ 64) :
  Z.testbit x (__ffs x) = true /\ (forall k, 0 <= k < __ffs x -> Z.testbit x k = false) /\
  Z.testbit x (__fls x) = true /\ (forall k, __fls x < k -> Z.testbit x k = false) /\
  fls64 x = __fls x + 1 /\ fls64 0 = 0 /\ fls 0 = 0 /\ (x < 2 ^ 32 -> fls x = __fls x + 1).
Proof.
  destruct (__ffs_odd x Hx) as (q & E & Hr). rewrite (__fls_log2 x Hx). split_and!; [| | | | |done|done|].
  - rewrite E at 1. rewrite odd_low_bits by lia. apply Z.eqb_refl.
  - intros k Hk. rewrite E at 1. rewrite odd_low_bits by lia. apply Z.eqb_neq. lia.
  - apply Z.bit_log2. lia.
  - intros k Hk. apply Z.bits_above_log2; lia.
  - unfold fls64. rewrite (proj2 (Z.eqb_neq _ _)), __fls_log2 by lia. done.
  - intros H. apply fls_log2. lia.
Qed.

Lemma bit_searches_correct_witness : __ffs 40 = 3 /\ __fls 40 = 5 /\ Z.testbit 40 (__ffs 40) = true.
Proof. split; [reflexivity|]. split; [reflexivity|]. exact (proj1 (bit_searches_correct 40 ltac:(lia))). Defined.

Lemma fls64_log2 n : 0 < n < 2 ^ 64 -> fls64 n = Z.log2 n + 1.
Proof. intros H. unfold fls64. rewrite (proj2 (Z.eqb_neq _ _)), __fls_log2 by lia. done. Qed.

(** C39. The forms of ilog2 agree: the chain of 62 tests the compiler folds for a constant,
    the 32-bit search and the 64-bit search give the same logarithm, which is the
    largest r with 2^r not above the argument. At zero they differ: 0 for a constant,
    -1 at run time. *)
Theorem ilog2_forms_agree (constant : bool) (size n : Z) (Hs : size = 4 \/ size = 8) (Hn : 1 <= n < 2 ^ (8 * size)) :
  ilog2 constant size n = ilog2_const n /\ 2 ^ ilog2 constant size n <= n < 2 * 2 ^ ilog2 constant size n /\
  ilog2 true size 0 = 0 /\ ilog2 false size 0 = -1.
Proof.
  assert (B : n < 2 ^ 64) by (destruct Hs; subst size; cbn in *; lia).
  assert (E : ilog2 constant size n = Z.log2 n).
  { unfold ilog2. destruct constant; [apply ilog2_const_log2; lia|]. destruct Hs; subst size; cbn -[Z.log2 fls fls64].
    - unfold __ilog2_u32. rewrite fls_log2 by (cbn in *; lia). lia.
    - unfold __ilog2_u64. rewrite fls64_log2 by lia. lia. }
  rewrite E, ilog2_const_log2 by lia. split; [done|]. split.
  - pose proof (Z.log2_spec n ltac:(lia)) as L. rewrite Z.pow_succ_r in L by apply Z.log2_nonneg. lia.
  - destruct Hs; subst size; by split.
Qed.

Lemma ilog2_forms_agree_witness : ilog2 false 4 1000 = ilog2_const 1000 /\ ilog2_const 1000 = 9.
Proof. split; [|reflexivity]. exact (proj1 (ilog2_forms_agree false 4 1000 (or_introl eq_refl) ltac:(cbn; lia))). Defined.

(** The power just above [n - 1]. *)
Lemma next_power n : 2 <= n <= 2 ^ 63 -> let r := Z.log2 (n - 1) + 1 in 0 <= r <= 63 /\ n <= 2 ^ r < 2 * n.
Proof.
  intros Hn r. pose proof (Z.log2_spec (n - 1) ltac:(lia)) as L. pose proof (Z.log2_nonneg (n - 1)). change (Z.succ (Z.log2 (n - 1))) with r in L.
  assert (Z.log2 (n - 1) < 63) by (apply Z.log2_lt_pow2; lia). split; [unfold r; lia|]. unfold r in *. rewrite Z.pow_add_r in * by lia. cbn [Z.pow Z.pow_pos Pos.iter] in *. lia.
Qed.

Lemma shl_pow r : 0 <= r <= 63 -> u64 (Z.shiftl 1 r) = 2 ^ r.
Proof.
  intros H. rewrite Z.shiftl_1_l. apply u64_small. split; [apply Z.pow_nonneg; lia|]. apply Z.pow_lt_mono_r; lia.
Qed.

(** Both forms of rounding to a power of two are right: for 1 to 2^63 the rounded-up
    value is the least power of two not below the argument and the rounded-down value
    the greatest not above it, whether or not the argument is a compile-time constant. *)
Theorem pow_of_two_rounding (constant : bool) (n : Z) (Hn : 1 <= n <= 2 ^ 63) :
  (exists r, 0 <= r <= 63 /\ roundup_pow_of_two constant n = 2 ^ r /\ n <= 2 ^ r < 2 * n) /\
  (exists r, 0 <= r <= 63 /\ rounddown_pow_of_two constant n = 2 ^ r /\ 2 ^ r <= n < 2 * 2 ^ r).
Proof.
  split.
  - destruct (Z.eq_dec n 1) as [->|N]; [exists 0; destruct constant; split_and!; done || lia|].
    pose proof (next_power n ltac:(lia)) as (R & P). exists (Z.log2 (n - 1) + 1). split; [done|]. split; [|done].
    unfold roundup_pow_of_two, __roundup_pow_of_two, fls_long. rewrite (proj2 (Z.eqb_neq _ _)) by done. rewrite !(u64_small (n - 1)) by lia.
    rewrite ilog2_const_log2, fls64_log2 by lia. destruct constant; by apply shl_pow.
  - assert (R : 0 <= Z.log2 n <= 63) by (split; [apply Z.log2_nonneg|]; assert (Z.log2 n < 64) by (apply Z.log2_lt_pow2; lia); lia).
    exists (Z.log2 n). split; [done|]. split.
    + unfold rounddown_pow_of_two, __rounddown_pow_of_two, fls_long. rewrite ilog2_const_log2, fls64_log2, Z.add_simpl_r by lia. destruct constant; by apply shl_pow.
    + pose proof (Z.log2_spec n ltac:(lia)) as L. rewrite Z.pow_succ_r in L by lia. lia.
Qed.

Lemma pow_of_two_rounding_witness : roundup_pow_of_two false 1000 = 1024 /\ exists r, 0 <= r <= 63 /\ roundup_pow_of_two true 1000 = 2 ^ r /\ 1000 <= 2 ^ r < 2 * 1000.
Proof. split; [reflexivity|]. exact (proj1 (pow_of_two_rounding true 1000 ltac:(lia))). Defined.

(** Is_power_of_2 accepts exactly the powers of two among the 64-bit words. *)
Theorem is_power_of_2_correct (n : Z) (Hn : 0 <= n < 2 ^ 64) : is_power_of_2 n = true <-> exists k, 0 <= k /\ n = 2 ^ k.
Proof.
  unfold is_power_of_2. rewrite andb_true_iff, negb_true_iff, Z.eqb_neq, Z.eqb_eq. split.
  - intros [N E]. rewrite u64_small in E by lia. exists (Z.log2 n). split; [apply Z.log2_nonneg|].
    pose proof (Z.log2_spec n ltac:(lia)) as L. destruct (Z.eq_dec n (2 ^ Z.log2 n)) as [|D]; [done|]. exfalso.
    assert (E1 : Z.log2 (n - 1) = Z.log2 n) by (apply Z.log2_unique; [apply Z.log2_nonneg|lia]).
    apply (f_equal (fun x => Z.testbit x (Z.log2 n))) in E. rewrite Z.land_spec, Z.bits_0, Z.bit_log2 in E by lia.
    rewrite <- E1 in E. rewrite Z.bit_log2 in E; [done|]. pose proof (Z.pow_pos_nonneg 2 (Z.log2 n) ltac:(lia) (Z.log2_nonneg n)). lia.
  - intros (k & Hk & ->). pose proof (Z.pow_pos_nonneg 2 k ltac:(lia) Hk). split; [lia|]. rewrite u64_small by lia.
    replace (2 ^ k - 1) with (Z.ones k) by (rewrite Z.ones_equiv; lia). rewrite Z.land_ones by done. apply Z.mod_same. lia.
Qed.

Lemma is_power_of_2_correct_witness : is_power_of_2 64 = true /\ exists k, 0 <= k /\ 64 = 2 ^ k.
Proof. split; [reflexivity|]. apply (proj1 (is_power_of_2_correct 64 ltac:(lia))). reflexivity. Defined.

(** ** Masks *)

Lemma BIT_MASK_pow nr : BIT_MASK nr = 2 ^ (nr mod 64).
Proof. apply shl_pow. pose proof (Z.mod_pos_bound nr 64). unfold BITS_PER_LONG. lia. Qed.

Lemma not_mask_bits m j : 0 <= j < 64 -> Z.testbit (u64 (Z.lnot m)) j = negb (Z.testbit m j).
Proof. intros Hj. unfold u64. rewrite Z.mod_pow2_bits_low by lia. apply Z.lnot_spec. lia. Qed.

(** A mask of the bits from l to h has exactly those bits set, for any l and h with
    l at most h and h below 64. *)
Theorem genmask_bits (h l k : Z) (Hl : 0 <= l <= h) (Hh : h < 64) (Hk : 0 <= k) :
  Z.testbit (__GENMASK h l) k = (l <=? k) && (k <=? h).
Proof.
  unfold __GENMASK. rewrite (shl_pow l) by lia. change ALL_ONES with (Z.ones 64). change BITS_PER_LONG with 64.
  assert (P : 2 ^ 64 = 2 ^ (64 - l) * 2 ^ l) by (apply pow_split_at; lia). assert (0 < 2 ^ l) by (apply Z.pow_pos_nonneg; lia).
  assert (E : u64 (Z.ones 64 - 2 ^ l + 1) = Z.shiftl (Z.ones (64 - l)) l).
  { rewrite Z.shiftl_mul_pow2, !Z.ones_equiv by lia. rewrite u64_small; [lia|].
    assert (2 ^ l <= 2 ^ 63) by (apply Z.pow_le_mono_r; lia). lia. }
  rewrite E, Z.land_spec, Z.shiftl_spec, Z.shiftr_spec by done.
  rewrite !Z.testbit_ones by lia. repeat (destruct (Z.leb_spec _ _) || destruct (Z.ltb_spec _ _)); cbn; lia || done.
Qed.

Lemma genmask_bits_witness : __GENMASK 7 4 = 240 /\ Z.testbit (__GENMASK 7 4) 5 = true.
Proof. split; [reflexivity|]. rewrite (genmask_bits 7 4 5 ltac:(lia) ltac:(lia) ltac:(lia)). reflexivity. Defined.

(** ** Bitmaps *)

(** The bit of the bitmap at position [nr]. *)
Definition bit (addr : bitmap) (nr : Z) : bool := Z.testbit (addr (nr / 64)) (nr mod 64).

Lemma test_bit_spec nr addr : _test_bit nr addr = bit addr nr.
Proof.
  unfold _test_bit, bit, BIT_WORD, BITS_PER_LONG. change (64 - 1) with (Z.ones 6). rewrite Z.land_ones by lia. change (2 ^ 6) with 64.
  pose proof (Z.mod_pos_bound nr 64 ltac:(lia)). set (r := nr mod 64) in *. rewrite Z.land_comm. change 1 with (Z.shiftl 1 0) at 1.
  unfold truthy. rewrite land_bit, negb_involutive, Z.shiftr_spec by lia. done.
Qed.

Lemma same_position a b : a mod 64 = b mod 64 -> a / 64 = b / 64 -> a = b.
Proof. intros M D. rewrite (Z.div_mod a 64), (Z.div_mod b 64), M, D by lia. done. Qed.

(** A word-wise operation that acts on bit [nr mod 64] of word [nr / 64] by [f]. *)
Lemma bit_upd addr nr v k f :
  (forall j, 0 <= j < 64 -> Z.testbit v j = if j =? nr mod 64 then f (Z.testbit (addr (nr / 64)) j) else Z.testbit (addr (nr / 64)) j) ->
  bit (upd addr (BIT_WORD nr) v) k = if k =? nr then f (bit addr nr) else bit addr k.
Proof.
  intros H. unfold bit, BIT_WORD, BITS_PER_LONG. pose proof (Z.mod_pos_bound k 64 ltac:(lia)) as B. destruct (Z.eq_dec (k / 64) (nr / 64)) as [D|D].
  - rewrite D, upd_same, H by done. destruct (Z.eqb_spec (k mod 64) (nr mod 64)) as [M|M].
    + rewrite (same_position k nr M D), Z.eqb_refl. done.
    + destruct (Z.eqb_spec k nr); [congruence|done].
  - rewrite upd_other by congruence. destruct (Z.eqb_spec k nr); [congruence|done].
Qed.

Lemma mask_test nr w : (Z.land w (BIT_MASK nr) =? 0) = negb (Z.testbit w (nr mod 64)).
Proof.
  pose proof (Z.mod_pos_bound nr 64 ltac:(lia)). rewrite BIT_MASK_pow, <- Z.shiftl_1_l. apply land_bit. lia.
Qed.

Lemma mask_bit nr j : Z.testbit (BIT_MASK nr) j = (j =? nr mod 64).
Proof.
  pose proof (Z.mod_pos_bound nr 64 ltac:(lia)). rewrite BIT_MASK_pow, Z.pow2_bits_eqb by lia. apply Z.eqb_sym.
Qed.

Lemma set_word nr w j : Z.testbit (Z.lor w (BIT_MASK nr)) j = if j =? nr mod 64 then true else Z.testbit w j.
Proof. rewrite Z.lor_spec, mask_bit. destruct (j =? _), (Z.testbit w j); done. Qed.
Lemma clear_word nr w j : 0 <= j < 64 -> Z.testbit (Z.land w (u64 (Z.lnot (BIT_MASK nr)))) j = if j =? nr mod 64 then false else Z.testbit w j.
Proof. intros H. rewrite Z.land_spec, not_mask_bits, mask_bit by done. destruct (j =? _), (Z.testbit w j); done. Qed.
Lemma change_word nr w j : Z.testbit (Z.lxor w (BIT_MASK nr)) j = if j =? nr mod 64 then negb (Z.testbit w j) else Z.testbit w j.
Proof. rewrite Z.lxor_spec, mask_bit. destruct (j =? _), (Z.testbit w j); done. Qed.

(** The bitmaps are sets of positions: setting, clearing and changing bit nr do so to
    that bit and leave every other bit of the array as it is, the test-and-modify
    operations make the same change and report the bit as it was, test_bit reads it,
    and set_bit and clear_bit of atomic.h, which find the word by C's division, do the
    same. *)
Theorem bitmap_refines_set (addr : bitmap) (nr k : Z) (Hnr : 0 <= nr) :
  _test_bit k (___set_bit nr addr) = (k =? nr) || _test_bit k addr /\
  _test_bit k (___clear_bit nr addr) = negb (k =? nr) && _test_bit k addr /\
  _test_bit k (___change_bit nr addr) = xorb (k =? nr) (_test_bit k addr) /\
  ___test_and_set_bit nr addr = (___set_bit nr addr, _test_bit nr addr) /\
  ___test_and_clear_bit nr addr = (___clear_bit nr addr, _test_bit nr addr) /\
  ___test_and_change_bit nr addr = (___change_bit nr addr, _test_bit nr addr) /\
  atomic_set_bit nr addr = ___set_bit nr addr /\ atomic_clear_bit nr addr = ___clear_bit nr addr.
Proof.
  rewrite !test_bit_spec. split_and!.
  - unfold ___set_bit. rewrite (bit_upd addr nr _ k (fun _ => true)) by (intros; apply set_word). destruct (Z.eqb_spec k nr); done.
  - unfold ___clear_bit. rewrite (bit_upd addr nr _ k (fun _ => false)) by (intros; by apply clear_word). destruct (Z.eqb_spec k nr); done.
  - unfold ___change_bit. rewrite (bit_upd addr nr _ k negb) by (intros; apply change_word). destruct (Z.eqb_spec k nr); subst; destruct (bit _ _); done.
  - unfold ___test_and_set_bit. rewrite mask_test, negb_involutive. done.
  - unfold ___test_and_clear_bit. rewrite mask_test, negb_involutive. done.
  - unfold ___test_and_change_bit. rewrite mask_test, negb_involutive. done.
  - unfold atomic_set_bit, BITS_PER_LONG. rewrite Z.quot_div_nonneg, Z.rem_mod_nonneg by lia. done.
  - unfold atomic_clear_bit, BITS_PER_LONG. rewrite Z.quot_div_nonneg, Z.rem_mod_nonneg by lia. done.
Qed.

Lemma bitmap_refines_set_witness : _test_bit 70 (___set_bit 70 (fun _ => 0)) = true /\ ___set_bit 70 (fun _ => 0) 1 = 64.
Proof. split; [|reflexivity]. rewrite (proj1 (bitmap_refines_set (fun _ => 0) 70 70 ltac:(lia))). reflexivity. Defined.

(** ** Rounding and counting *)

Lemma lor_low x k : 0 <= k -> Z.lor x (2 ^ k - 1) = x / 2 ^ k * 2 ^ k + (2 ^ k - 1).
Proof.
  intros Hk. pose proof (Z.pow_pos_nonneg 2 k ltac:(lia) Hk). replace (2 ^ k - 1) with (Z.ones k) by (rewrite Z.ones_equiv; lia).
  rewrite <- Z.shiftr_div_pow2, <- Z.shiftl_mul_pow2 by done. rewrite Z.add_nocarry_lxor, Z.lxor_lor.
  2,3: apply Z.bits_inj'; intros j Hj; rewrite Z.land_spec, Z.bits_0, Z.shiftl_spec, Z.testbit_ones by done;
    destruct (Z.ltb_spec j k); [rewrite Z.testbit_neg_r by lia; done|rewrite !andb_false_r; done].
  apply Z.bits_inj'. intros j Hj. rewrite !Z.lor_spec, Z.shiftl_spec, Z.testbit_ones by done. destruct (Z.ltb_spec j k) as [L|L].
  - rewrite (proj2 (Z.leb_le 0 j)) by done. by rewrite !orb_true_r.
  - rewrite andb_false_r, !orb_false_r, Z.shiftr_spec by lia. f_equal. lia.
Qed.

Lemma land_high x k : 0 <= k < 64 -> 0 <= x < 2 ^ 64 -> Z.land x (u64 (Z.lnot (2 ^ k - 1))) = x / 2 ^ k * 2 ^ k.
Proof.
  intros Hk Hx. rewrite <- Z.shiftr_div_pow2, <- Z.shiftl_mul_pow2 by lia. apply Z.bits_inj'. intros j Hj. rewrite Z.land_spec, Z.shiftl_spec by done.
  replace (2 ^ k - 1) with (Z.ones k) by (rewrite Z.ones_equiv; lia). destruct (Z.ltb_spec j 64) as [M|M].
  - rewrite not_mask_bits, Z.testbit_ones by lia. rewrite (proj2 (Z.leb_le 0 j)) by done. destruct (Z.ltb_spec j k).
    + rewrite (Z.testbit_neg_r _ (j - k)) by lia. apply andb_false_r.
    + rewrite andb_true_r, Z.shiftr_spec by lia. f_equal. lia.
  - rewrite (testbit_above x 64 j), Z.shiftr_spec by lia. rewrite Z.sub_add. by rewrite (testbit_above x 64 j) by lia.
Qed.

(** Rounding to a multiple of a power of two: round_down gives the greatest multiple
    not above the argument and round_up the least multiple not below it, as long as
    that multiple fits the word; a round_up past the word is zero. *)
Theorem rounding_correct (x k : Z) (Hx : 0 <= x < 2 ^ 64) (Hk : 0 <= k < 64) :
  let y := 2 ^ k in
  round_down x y = x / y * y /\ round_up x y = u64 ((x + y - 1) / y * y) /\
  (x <= 2 ^ 64 - y -> round_up x y = u64 (DIV_ROUND_UP x y * y)) /\ (2 ^ 64 - y < x -> round_up x y = 0).
Proof.
  intros y. assert (P : 0 < y) by (apply Z.pow_pos_nonneg; lia). assert (B : y < 2 ^ 64) by (apply Z.pow_lt_mono_r; lia).
  assert (F : 2 ^ 64 = 2 ^ (64 - k) * y) by (apply pow_split_at; lia).
  assert (U : round_up x y = u64 ((x + y - 1) / y * y)).
  { unfold round_up. rewrite (u64_small (y - 1)) by lia. unfold y at 1. rewrite lor_low by lia. fold y.
    replace (x + y - 1) with (x - 1 + 1 * y) by lia. rewrite Z.div_add by lia. destruct (Z.eq_dec x 0) as [->|N].
    - change (0 - 1) with (-1). assert (E1 : -1 / y = -1) by (symmetry; apply (Z.div_unique_pos _ _ _ (y - 1)); lia). rewrite E1.
      assert (E2 : u64 (-1) / y = 2 ^ (64 - k) - 1) by (symmetry; apply (Z.div_unique_pos _ _ _ (y - 1)); [lia|]; change (u64 (-1)) with (2 ^ 64 - 1); lia).
      rewrite E2. replace ((2 ^ (64 - k) - 1) * y + (y - 1) + 1) with (2 ^ 64) by lia. done.
    - rewrite (u64_small (x - 1)) by lia. f_equal. lia. }
  rewrite U. split_and!; [unfold round_down; rewrite (u64_small (y - 1)) by lia; by apply land_high|done| |].
  - intros L. unfold DIV_ROUND_UP. do 3 f_equal. destruct (Z.eq_dec x (2 ^ 64 - y)) as [->|N].
    + replace (2 ^ 64 - y + y) with (2 ^ 64) by lia. change (u64 (2 ^ 64)) with 0. change (0 - 1) with (-1). change (u64 (-1)) with (2 ^ 64 - 1). lia.
    + rewrite (u64_small (x + y)), u64_small by lia. lia.
  - intros L. assert (E : (x + y - 1) / y = 2 ^ (64 - k)) by (symmetry; apply (Z.div_unique_pos _ _ _ (x + y - 1 - 2 ^ 64)); lia). rewrite E, <- F. done.
Qed.

Lemma rounding_correct_witness : round_down 1000 64 = 960 /\ round_up 1000 64 = 1024 /\ round_down 1000 (2 ^ 6) = 1000 / 2 ^ 6 * 2 ^ 6.
Proof. split; [reflexivity|]. split; [reflexivity|]. exact (proj1 (rounding_correct 1000 6 ltac:(lia) ltac:(lia))). Defined.

Lemma sum_bits_app v i n m : sum_bits v i (n + m) = sum_bits v i n + sum_bits v (i + Z.of_nat n) m.
Proof.
  revert i. induction n as [|n IH]; intros i; cbn [sum_bits Nat.add]; [by rewrite Z.add_0_r, Z.add_0_l|]. rewrite IH. replace (i + 1 + Z.of_nat n) with (i + Z.of_nat (S n)) by lia. lia.
Qed.

Lemma hweight8_sum w s : 0 <= s -> __const_hweight8 (Z.shiftr w s) = sum_bits w s 8.
Proof.
  intros Hs. assert (B : forall k, 0 <= k -> bit_at (Z.shiftr w s) k = Z.b2z (Z.testbit w (s + k))).
  { intros k Hk. unfold bit_at. rewrite land_bit, Z.shiftr_spec by done. rewrite (Z.add_comm k). by destruct (Z.testbit w (s + k)). }
  unfold __const_hweight8. rewrite !B by lia. cbn [sum_bits].
  replace (s + 1 + 1) with (s + 2) by lia. replace (s + 2 + 1) with (s + 3) by lia. replace (s + 3 + 1) with (s + 4) by lia. replace (s + 4 + 1) with (s + 5) by lia.
  replace (s + 5 + 1) with (s + 6) by lia. replace (s + 6 + 1) with (s + 7) by lia. rewrite (Z.add_0_r s). lia.
Qed.

(** The population count of a constant is the number of its bits that are set, for
    each of the four widths. *)
Theorem const_hweight_counts (w : Z) :
  __const_hweight8 w = sum_bits w 0 8 /\ __const_hweight16 w = sum_bits w 0 16 /\
  __const_hweight32 w = sum_bits w 0 32 /\ __const_hweight64 w = sum_bits w 0 64.
Proof.
  assert (H16 : forall s, 0 <= s -> __const_hweight16 (Z.shiftr w s) = sum_bits w s 16).
  { intros s Hs. unfold __const_hweight16. rewrite Z.shiftr_shiftr, !hweight8_sum by lia. symmetry. exact (sum_bits_app w s 8 8). }
  assert (H32 : forall s, 0 <= s -> __const_hweight32 (Z.shiftr w s) = sum_bits w s 32).
  { intros s Hs. unfold __const_hweight32. rewrite Z.shiftr_shiftr, !H16 by lia. symmetry. exact (sum_bits_app w s 16 16). }
  pose proof (hweight8_sum w 0 ltac:(lia)) as E8. pose proof (H16 0 ltac:(lia)) as E16. pose proof (H32 0 ltac:(lia)) as E32. rewrite Z.shiftr_0_r in E8, E16, E32.
  split_and!; [done..|]. unfold __const_hweight64. rewrite E32, H32 by lia. symmetry. exact (sum_bits_app w 0 32 32).
Qed.
