(* ===== verification/LockClient.v ===== *)
(** What the lock benchmarks of src/lupin_lock_benchmark expect of a lock: the interface
    between a lock as a program of memory accesses and a client that calls its acquire
    and its release in turn. *)
From Stdlib Require Import ZArith Lia Bool.
From stdpp Require Import base list numbers.
From S2P Require Import Prelude TatasLock.
Local Open Scope Z_scope.

(** A lock: its memory after initialisation, the place of a thread that is in no call, the
    place between the return of the acquire and the call of the release, the places from
    there to the return of the release, and the next access of a thread. *)
Record lock := Lock {
  lmem : Type;
  lpc : Type;
  linit : lmem -> Prop;
  lidle : lpc;
  lcritical : lpc;
  at_idle : lpc -> bool;
  at_critical : lpc -> bool;
  releasing : lpc -> bool;
  lnext : Z -> lpc -> lmem -> outcome (lpc * lmem) }.

(** The lock used by any of the threads below [N], with the number of acquires that
    have returned. *)
Inductive lreach (L : lock) (N : Z) : lmem L -> (Z -> lpc L) -> Z -> Prop :=
| lreach_init m : linit L m -> lreach L N m (fun _ => lidle L) 0
| lreach_next m pcs n i p' m' :
    lreach L N m pcs n -> 0 <= i < N -> lnext L i (pcs i) m = Ret (p', m') ->
    lreach L N m' (upd pcs i p') (if at_critical L p' then n + 1 else n).

(** The promise, for [N] threads and up to [limit] acquires: a thread always has a next
    access that does not fail, an acquire returns with the lock and a release returns, and
    no two threads are between the two. *)
Class SpinLock (L : lock) (N limit : Z) : Prop := {
  lock_places : at_idle L (lidle L) = true /\ releasing L (lidle L) = false /\ at_critical L (lidle L) = false /\ (forall p, at_idle L p = true -> p = lidle L) /\
    (forall p, at_critical L p = true -> p = lcritical L /\ releasing L p = true);
  lock_step m pcs n i :
    lreach L N m pcs n -> n <= limit -> 0 <= i < N ->
    exists p' m', lnext L i (pcs i) m = Ret (p', m') /\
      if releasing L (pcs i) then at_critical L p' = false /\ (releasing L p' = true \/ at_idle L p' = true)
      else at_idle L p' = false /\ (releasing L p' = true -> at_critical L p' = true);
  lock_exclusive m pcs n i j :
    lreach L N m pcs n -> n <= limit -> 0 <= i < N -> 0 <= j < N ->
    at_critical L (pcs i) = true -> at_critical L (pcs j) = true -> i = j }.

(** A lock whose runs are runs of another description of it. *)
Lemma lreach_ind_inv (L : lock) (N limit : Z) (I : lmem L -> (Z -> lpc L) -> Z -> Prop) :
  (forall m, linit L m -> I m (fun _ => lidle L) 0) ->
  (forall m pcs n i p' m', I m pcs n -> n <= limit -> 0 <= i < N -> lnext L i (pcs i) m = Ret (p', m') ->
     I m' (upd pcs i p') (if at_critical L p' then n + 1 else n)) ->
  forall m pcs n, lreach L N m pcs n -> n <= limit -> I m pcs n.
Proof.
  intros Hi Hs m pcs n R. induction R as [m H|m pcs n i p' m' R IH Hr E]; intros Hn; [by apply Hi|].
  eapply Hs; try done; [apply IH|]; destruct (at_critical L p'); lia.
Qed.
