(* ===== verification/BenchTtas.v ===== *)
(** The two test-and-test-and-set locks of the benchmark as programs of memory accesses:
    the byte lock of src/lupin_lock_benchmark/ttas.h, and the lock with a persistent word
    of src/lupin_lock_benchmark/tatas_align, which differs from src/src/common/tatas in the
    layout of the structure only, as its user-space calls use it. *)
From Stdlib Require Import ZArith Lia Bool.
From stdpp Require Import base list numbers.
From S2P Require Import Prelude PersistCas TatasLock LockClient.
Local Open Scope Z_scope.

(** ** The byte lock *)

Definition TTAS_UNLOCKED : Z := 1.

(** [xchgb] of 0xff: the old byte and the new one. *)
Definition l_tas_uint8 (w : Z) : Z * Z := (w, 0xff).

(** Before the read of the inner loop, before the exchange, holding the lock, and before
    the store of the release. *)
Inductive tpc := TIdle | TRead | TXchg | TCritical | TStore.

(** [ttas_mutex_lock] up to the critical section and [ttas_mutex_unlock] from there. *)
Definition ttas_mutex_step (p : tpc) (w : Z) : tpc * Z :=
  match p with
  | TIdle => (TRead, w)
  | TRead => (if w =? TTAS_UNLOCKED then TXchg else TRead, w)
  | TXchg => let (old, w) := l_tas_uint8 w in (if old =? TTAS_UNLOCKED then TCritical else TRead, w)
  | TCritical => (TStore, w)
  | TStore => (TIdle, TTAS_UNLOCKED)
  end.

Definition tpc_idle (p : tpc) : bool := match p with TIdle => true | _ => false end.
Definition tpc_critical (p : tpc) : bool := match p with TCritical => true | _ => false end.
Definition tpc_holds (p : tpc) : bool := match p with TCritical | TStore => true | _ => false end.

Definition ttas_mutex : lock :=
  Lock Z tpc (fun w => w = TTAS_UNLOCKED) TIdle TCritical tpc_idle tpc_critical tpc_holds (fun _ p w => Ret (ttas_mutex_step p w)).

(** A thread holds the lock exactly when the byte is not UNLOCKED, and only one does. *)
Definition tinv (N : Z) (w : Z) (pcs : Z -> tpc) : Prop :=
  (w = TTAS_UNLOCKED -> forall i, 0 <= i < N -> tpc_holds (pcs i) = false) /\
  (forall i j, 0 <= i < N -> 0 <= j < N -> tpc_holds (pcs i) = true -> tpc_holds (pcs j) = true -> i = j).

Lemma tinv_step N w pcs i :
  0 <= i < N -> tinv N w pcs -> tinv N (snd (ttas_mutex_step (pcs i) w)) (upd pcs i (fst (ttas_mutex_step (pcs i) w))).
Proof.
  intros Hi [I1 I2]. assert (K : forall p w', tpc_holds p = tpc_holds (pcs i) -> (w' = TTAS_UNLOCKED -> w = TTAS_UNLOCKED) -> tinv N w' (upd pcs i p)).
  { intros p w' Hp Hw'. assert (E : forall j, tpc_holds (upd pcs i p j) = tpc_holds (pcs j)) by
      (intros j; destruct (Z.eq_dec j i) as [->|?]; [by rewrite upd_same|by rewrite upd_other]).
    split; [intros X j Hj; rewrite E; auto|]. intros j k Hj Hk. rewrite !E. auto. }
  destruct (pcs i) eqn:E; cbn [ttas_mutex_step l_tas_uint8 fst snd].
  - by apply K.
  - apply K; [by case_match|done].
  - destruct (Z.eqb_spec w TTAS_UNLOCKED) as [->|]; [|by apply K]. split; [done|]. intros j k Hj Hk.
    destruct (Z.eq_dec j i) as [->|Hne]; [|rewrite (upd_other _ _ _ j), (I1 eq_refl j Hj) by congruence; done].
    destruct (Z.eq_dec k i) as [->|Hne]; [done|]. rewrite (upd_other _ _ _ k), (I1 eq_refl k Hk) by congruence. done.
  - by apply K.
  - assert (Z0 : forall j, 0 <= j < N -> tpc_holds (upd pcs i TIdle j) = false).
    { intros j Hj. destruct (Z.eq_dec j i) as [->|Hne]; [by rewrite upd_same|]. rewrite upd_other by congruence.
      destruct (tpc_holds (pcs j)) eqn:H; [|done]. exfalso. apply Hne. apply I2; [done|done|done|by rewrite E]. }
    split; [intros _; apply Z0|]. intros j k Hj Hk H. by rewrite Z0 in H.
Qed.

#[global] Instance ttas_mutex_lock_ok N limit : SpinLock ttas_mutex N limit.
Proof.
  assert (R : forall m pcs n, lreach ttas_mutex N m pcs n -> tinv N m pcs).
  { induction 1 as [m H|m pcs n i p' m' R IH Hr E]; [done|]. cbn [ttas_mutex lnext lpc lmem] in *.
    pose proof (tinv_step N m pcs i Hr IH) as S. destruct (ttas_mutex_step (pcs i) m). by injection E as <- <-. }
  constructor.
  - split_and!; try done; intros []; done.
  - intros m pcs n i H _ Hi. cbn [ttas_mutex lnext lpc lmem releasing at_critical at_idle] in *.
    exists (fst (ttas_mutex_step (pcs i) m)), (snd (ttas_mutex_step (pcs i) m)). split; [by destruct (ttas_mutex_step (pcs i) m)|].
    destruct (pcs i); cbn; repeat case_match; auto.
  - intros m pcs n i j H _ Hi Hj. cbn. intros Ei Ej. apply (R _ _ _ H); [done|done|by destruct (pcs i)|by destruct (pcs j)].
Qed.

(** ** The lock with a persistent word *)

Section Persistent.
Context (g : granularity).

(** The word of a lock that the thread [i] holds. *)
Definition user_val (i : Z) : Z := compose_cs_status true i.

(** What follows the read of [ttas_recover]. *)
Definition user_cont (i v : Z) : pc := if v =? user_val i then Critical else Spin.

(** [ttas_lock] up to the critical section and [ttas_unlock] from there; the places and the
    accesses to the word are those of TatasLock. *)
Definition ttas_user_step (i : Z) (p : pc) (w : Z) : outcome (pc * Z) :=
  match p with
  | Out => Ret (after_read g w RecoverHelp (user_cont i), w)
  | RecoverHelp v => Ret (user_cont i (value g v), help_word w v)
  | Spin => Ret (after_read g w SpinHelp (spin_cont g), w)
  | SpinHelp v => Ret (spin_cont g (value g v), help_word w v)
  | CasRead => Ret (if is_dirty g w then CasHelp w else CasDo, w)
  | CasHelp v => Ret (CasDo, help_word w v)
  | CasDo => if w =? UNLOCKED then Ret (Critical, written g (user_val i)) else Ret (Spin, w)
  | Critical => Ret (Out, written g UNLOCKED)
  | _ => Bug
  end.

Definition pc_out (p : pc) : bool := match p with Out => true | _ => false end.
Definition pc_critical (p : pc) : bool := match p with Critical => true | _ => false end.

Definition ttas_user : lock :=
  Lock Z pc (fun w => w = UNLOCKED) Out Critical pc_out pc_critical pc_critical ttas_user_step.

Context (N : Z) (HN : N <= 2 ^ 16).

Lemma user_val_sum i : 0 <= i < N -> user_val i = 2 ^ 62 + i.
Proof using HN. intros. apply cs_status_sum. lia. Qed.

Lemma user_val_ok i : 0 <= i < N -> value_ok 64 (user_val i).
Proof using HN. intros. rewrite user_val_sum by done. unfold value_ok. lia. Qed.

Lemma user_val_nonzero i : 0 <= i < N -> user_val i <> UNLOCKED.
Proof using HN. intros. rewrite user_val_sum by done. unfold UNLOCKED. lia. Qed.

Lemma user_val_inj i j : 0 <= i < N -> 0 <= j < N -> user_val i = user_val j -> i = j.
Proof using HN. intros. rewrite !user_val_sum in * by done. lia. Qed.

(** A place of a call without a crash. *)
Definition user_pc (i : Z) (p : pc) : Prop :=
  match p with
  | Out | Spin | CasRead | CasDo | Critical => True
  | RecoverHelp v => help_ok g v /\ value g v <> user_val i
  | SpinHelp v | CasHelp v => help_ok g v
  | _ => False
  end.

(** The value of the word is the name of the thread in the critical section, or none. *)
Record uinv (w : Z) (pcs : Z -> pc) : Prop := {
  ui_word : word_ok 64 w;
  ui_held i : 0 <= i < N -> value g w = user_val i <-> pcs i = Critical;
  ui_free : value g w = UNLOCKED \/ exists i, 0 <= i < N /\ value g w = user_val i;
  ui_pc i : 0 <= i < N -> user_pc i (pcs i) }.

(** A step that leaves the value of the word outside the critical section. *)
Lemma uinv_quiet w pcs i p' w' :
  uinv w pcs -> 0 <= i < N -> pcs i <> Critical -> p' <> Critical -> user_pc i p' -> value g w' = value g w -> word_ok 64 w' ->
  uinv w' (upd pcs i p').
Proof using.
  intros I Hi Hc Hc' Hp Hv Hw. split; rewrite ?Hv; [done| |apply I|].
  - intros j Hj. destruct (Z.eq_dec j i) as [->|Hne]; [|rewrite upd_other by congruence; by apply I].
    rewrite upd_same, (ui_held _ _ I i Hi). done.
  - intros j Hj. destruct (Z.eq_dec j i) as [->|Hne]; [by rewrite upd_same|]. rewrite upd_other by congruence. by apply I.
Qed.

(** A step that writes the word. *)
Lemma uinv_write w pcs i p' v :
  uinv w pcs -> 0 <= i < N -> (forall j, 0 <= j < N -> j <> i -> pcs j <> Critical) ->
  (p' = Critical /\ v = user_val i) \/ (p' = Out /\ v = UNLOCKED) -> uinv (written g v) (upd pcs i p').
Proof using HN.
  intros I Hi Hno Hcase. assert (Hv : value_ok 64 v) by (destruct Hcase as [[_ ->]|[_ ->]]; [by apply user_val_ok|apply unlocked_ok]).
  destruct (value_written g v Hv) as [Ev Hw]. split; rewrite ?Ev; [done| | |].
  - intros j Hj. destruct (Z.eq_dec j i) as [->|Hne].
    + rewrite upd_same. destruct Hcase as [[-> ->]|[-> ->]]; [done|]. split; [intros E; symmetry in E; by apply user_val_nonzero in E|done].
    + rewrite upd_other by congruence. split; [|intros E; by apply (Hno j Hj Hne) in E]. intros E. exfalso. destruct Hcase as [[_ ->]|[_ ->]].
      * apply user_val_inj in E; [by apply Hne|done|done].
      * symmetry in E. by apply user_val_nonzero in E.
  - destruct Hcase as [[_ ->]|[_ ->]]; [right; by exists i|by left].
  - intros j Hj. destruct (Z.eq_dec j i) as [->|Hne]; [rewrite upd_same; by destruct Hcase as [[-> _]|[-> _]]|].
    rewrite upd_other by congruence. by apply I.
Qed.

Lemma user_cont_other i v : v <> user_val i -> user_cont i v = Spin.
Proof using. intros H. unfold user_cont. by destruct (Z.eqb_spec v (user_val i)). Qed.
Lemma spin_cont_pc i v : user_pc i (spin_cont g v) /\ spin_cont g v <> Critical /\ spin_cont g v <> Out.
Proof using. unfold spin_cont, cas_start. repeat case_match; done. Qed.

Lemma uinv_step w pcs i :
  uinv w pcs -> 0 <= i < N -> exists p' w', ttas_user_step i (pcs i) w = Ret (p', w') /\ uinv w' (upd pcs i p') /\ (p' = Out <-> pcs i = Critical).
Proof using HN.
  intros I Hi. pose proof (ui_pc _ _ I i Hi) as Hp. pose proof (ui_word _ _ I) as Hw. pose proof (ui_held _ _ I i Hi) as Hh.
  destruct (pcs i) eqn:E; try done; cbn [ttas_user_step user_pc] in *.
  - eexists _, _. split; [done|]. unfold after_read. destruct (is_dirty g w) eqn:D.
    + split; [|done]. apply uinv_quiet with w; try done; [by rewrite E|]. split; [by apply dirty_help|]. intros X. by apply Hh in X.
    + rewrite user_cont_other by (intros X; by apply Hh in X). split; [|done]. apply uinv_quiet with w; try done. by rewrite E.
  - destruct Hp as [H1 H2]. rewrite user_cont_other by done. destruct (value_help g w v Hw H1). eexists _, _. split; [done|]. split; [|done].
    apply uinv_quiet with w; try done. by rewrite E.
  - eexists _, _. split; [done|]. unfold after_read. destruct (is_dirty g w) eqn:D.
    + split; [|done]. apply uinv_quiet with w; try done; [by rewrite E|]. by apply dirty_help.
    + destruct (spin_cont_pc i (value g w)) as (S1 & S2 & S3). split; [|done]. apply uinv_quiet with w; try done. by rewrite E.
  - destruct (value_help g w v Hw Hp). destruct (spin_cont_pc i (value g v)) as (S1 & S2 & S3). eexists _, _. split; [done|]. split; [|done].
    apply uinv_quiet with w; try done. by rewrite E.
  - eexists _, _. split; [done|]. destruct (is_dirty g w) eqn:D; (split; [|done]); apply uinv_quiet with w; try done; try (by rewrite E).
    by apply dirty_help.
  - destruct (value_help g w v Hw Hp). eexists _, _. split; [done|]. split; [|done]. apply uinv_quiet with w; try done. by rewrite E.
  - destruct (Z.eqb_spec w UNLOCKED) as [->|Hne]; eexists _, _; (split; [done|]); (split; [|done]).
    + apply uinv_write with UNLOCKED; [done|done| |by left]. intros j Hj _ X. apply (ui_held _ _ I j Hj) in X.
      assert (V : value g UNLOCKED = UNLOCKED) by (by destruct g). rewrite V in X. symmetry in X. by apply user_val_nonzero in X.
    + apply uinv_quiet with w; try done. by rewrite E.
  - eexists _, _. split; [done|]. split; [|done]. apply uinv_write with w; [done|done| |by right]. intros j Hj Hne X.
    apply (ui_held _ _ I j Hj) in X. apply Hne. apply user_val_inj; [done|done|]. rewrite <- X. by apply Hh.
Qed.

#[global] Instance ttas_user_ok limit : SpinLock ttas_user N limit.
Proof using HN.
  assert (R : forall m pcs n, lreach ttas_user N m pcs n -> uinv m pcs).
  { induction 1 as [m H|m pcs n i p' m' R IH Hr E]; cbn [ttas_user lnext lpc lmem linit lidle] in *.
    - subst m. split; [done| |left; by destruct g|done]. intros i Hi. split; [|done]. intros X.
      assert (V : value g UNLOCKED = UNLOCKED) by (by destruct g). rewrite V in X. symmetry in X. by apply user_val_nonzero in X.
    - destruct (uinv_step m pcs i IH Hr) as (p & w & E' & I & _). rewrite E' in E. by injection E as <- <-. }
  constructor.
  - split_and!; try done; intros []; done.
  - intros m pcs n i H _ Hi. apply R in H. destruct (uinv_step m pcs i H Hi) as (p & w & E & _ & S). exists p, w. split; [done|].
    cbn. destruct (pcs i) eqn:Ep; cbn; try (split; [destruct p; try done; by pose proof (proj1 S eq_refl)|done]).
    pose proof (proj2 S eq_refl) as ->. by split; [|right].
  - intros m pcs n i j H _ Hi Hj. cbn. intros Ei Ej. apply R in H. apply user_val_inj; [done|done|].
    rewrite <- (proj2 (ui_held _ _ H i Hi)) by (by destruct (pcs i)). apply (ui_held _ _ H j Hj). by destruct (pcs j).
Qed.
End Persistent.
