(* ===== verification/BenchLocks.v ===== *)
(** The locks that the benchmark measures, as implementations of the interface of
    LockClient: the queue lock of rmcs.hpp, the queued spinlock and the optimistic spin
    queue of linux/, and the two abortable locks of src/src/common/jj_ab_spin, as the calls
    that do not give up use them. *)
From Stdlib Require Import ZArith Lia Bool.
From stdpp Require Import base list numbers.
From S2P Require Import Prelude PersistCas TatasLock LockClient WportLock WportSpec MinArray JjLock Rmcs QSpinlock OsqLock.
Local Open Scope Z_scope.

(** ** The queue lock *)

Definition rpc_idle (p : rpc) : bool := match p with RIdle => true | _ => false end.
Definition rpc_critical (p : rpc) : bool := match p with RCritical => true | _ => false end.
Definition rpc_releasing (p : rpc) : bool :=
  match p with
  | RIdle | LNext | LVol | LWants | LClean | LWait | LXchg | LLink _ | LVol0 | LSpin | LOwn | LVol1 => false
  | _ => true
  end.

Definition rmcs : lock :=
  Lock rmem rpc (fun m => r_tail m = None /\ clean_in_prog m = false) RIdle RCritical rpc_idle rpc_critical rpc_releasing rmcs_step.

Lemma rmcs_runs N m pcs n : lreach rmcs N m pcs n -> exists a e, rsys_reachable (RSys m pcs a e).
Proof.
  induction 1 as [m [H1 H2]|m pcs n i p' m' _ (a & e & IH) Hi E]; [exists [], []; by apply rsys_init|].
  eexists _, _. eapply rsys_next; [exact IH|]. by apply rsys_thread.
Qed.

#[global] Instance rmcs_ok N limit : SpinLock rmcs N limit.
Proof.
  constructor.
  - split_and!; try done; intros []; done.
  - intros m pcs n i H _ Hi. apply rmcs_runs in H as (a & e & H). apply rreachable_inv in H as (served & q & I).
    destruct (any_step _ served q i I) as (p' & m' & E & _). cbn [rs_mem rs_pc] in E. exists p', m'. split; [done|].
    cbn [rmcs lpc releasing at_critical at_idle] in *. destruct (pcs i); cbn [rmcs_step] in E; unfold bug_on in E; repeat case_match; simplify_eq; cbn; auto.
  - intros m pcs n i j H _ Hi Hj. cbn. intros Ei Ej. apply rmcs_runs in H as (a & e & H). apply rreachable_inv in H as (served & q & I).
    destruct (inside_head _ _ _ I i) as [l E]; [cbn; by destruct (pcs i)|]. destruct (inside_head _ _ _ I j) as [l' E']; [cbn; by destruct (pcs j)|]. congruence.
Qed.

(** ** The queued spinlock *)

Definition qpc_idle (p : qpc) : bool := match p with QIdle => true | _ => false end.
Definition qpc_critical (p : qpc) : bool := match p with QCritical => true | _ => false end.

Definition qspin : lock :=
  Lock qmem qpc (fun m => m = qs_mem qinit) QIdle QCritical qpc_idle qpc_critical qpc_critical (fun i p m => Ret (qstep i p m)).

Lemma qspin_runs N m pcs n : N <= 2 ^ 14 - 1 -> lreach qspin N m pcs n -> qsys_reachable (QSys m pcs).
Proof.
  intros HN. induction 1 as [m H|m pcs n i p' m' _ IH Hi E]; cbn [qspin lnext lpc lmem linit lidle] in *; [subst m; apply qsys_init|].
  assert (T : thread_ok i) by (unfold thread_ok; lia). pose proof (qsys_next _ _ IH (qsys_thread i _ T)) as Q. cbn [qs_mem qs_pc] in Q.
  destruct (qstep i (pcs i) m). by injection E as <- <-.
Qed.

Lemma qspin_ok N limit : N <= 2 ^ 14 - 1 -> SpinLock qspin N limit.
Proof.
  intros HN. constructor.
  - split_and!; try done; intros []; done.
  - intros m pcs n i H _ Hi. cbn [qspin lnext lpc lmem releasing at_critical at_idle] in *. exists (fst (qstep i (pcs i) m)), (snd (qstep i (pcs i) m)).
    split; [by destruct (qstep i (pcs i) m)|]. destruct (pcs i); cbn [qstep]; unfold slowpath, try_or_queue, xchg_tail; repeat case_match; cbn; auto.
  - intros m pcs n i j H _ Hi Hj. cbn. intros Ei Ej. apply (qspin_runs N) in H; [|done]. apply qreachable_inv in H as (q & hold & pend & I).
    assert (Hhi : holds (pcs i) = true) by (by destruct (pcs i)). assert (Hhj : holds (pcs j) = true) by (by destruct (pcs j)).
    apply (qi_hold _ _ _ _ _ I) in Hhi, Hhj. congruence.
Qed.

(** ** The optimistic spin queue *)

Definition opc_idle (p : opc) : bool := match p with OIdle => true | _ => false end.
Definition opc_critical (p : opc) : bool := match p with OCritical => true | _ => false end.
Definition opc_releasing (p : opc) : bool :=
  match p with OCritical | OUCas | OUXchg | OUSet _ | OWait None _ _ => true | _ => false end.

Definition osq (unqueue_retry : Z) : lock :=
  Lock omem opc (fun m => m = os_mem osq_lock_init) OIdle OCritical opc_idle opc_critical opc_releasing (ostep unqueue_retry).

Lemma osq_runs retry N m pcs n : N <= 2 ^ 31 - 1 -> lreach (osq retry) N m pcs n -> osys_reachable retry (OSys m pcs).
Proof.
  intros HN. induction 1 as [m H|m pcs n i p' m' _ IH Hi E]; cbn [osq lnext lpc lmem linit lidle] in *; [subst m; apply osys_init|].
  eapply (osys_next retry); [exact IH|]. apply (osys_thread retry i (OSys m pcs)); [unfold cpu_ok; lia|done].
Qed.

Lemma osq_ok retry N limit : N <= 2 ^ 31 - 1 -> SpinLock (osq retry) N limit.
Proof.
  intros HN. constructor.
  - split_and!; try done; intros []; done.
  - intros m pcs n i H _ Hi. apply (osq_runs retry N) in H; [|done]. apply oreachable_inv in H as [q I].
    destruct (ostep_inv retry _ _ q i I) as (p' & m' & E & _); [unfold cpu_ok; lia|]. cbn [os_mem os_pc] in E. exists p', m'. split; [done|].
    cbn [osq lpc releasing at_critical at_idle] in *. destruct (pcs i) as [| | | | | | | | | | | | |[] ? []| | | | | | |]; cbn [ostep osq_wait_next wait_done] in E; repeat case_match; simplify_eq; cbn; auto.
  - intros m pcs n i j H _ Hi Hj. cbn. intros Ei Ej. apply (osq_runs retry N) in H; [|done]. apply oreachable_inv in H as [q I].
    destruct (inside_first _ _ _ I i) as [l E]; [cbn; by destruct (pcs i)|]. destruct (inside_first _ _ _ I j) as [l' E']; [cbn; by destruct (pcs j)|]. congruence.
Qed.

(** ** The abortable lock over the minimum array *)

Definition jpc_idle (p : jpc) : bool := match p with JIdle => true | _ => false end.
Definition jpc_critical (p : jpc) : bool := match p with JCritical => true | _ => false end.
Definition jpc_releasing (p : jpc) : bool :=
  jholding p || match p with JPRead JExit | JMin JExit _ | JPCas JExit _ _ => true | _ => false end.
(** Giving up, or down. *)
Definition jpc_quits (p : jpc) : bool :=
  match p with
  | JLeaf (JAbort false) _ | JCur (JAbort false) _ _ | JLeft (JAbort false) _ _ _ | JRight (JAbort false) _ _ _ _
  | JNode (JAbort false) _ _ _ _ | JPRead (JAbort false) | JMin (JAbort false) _ | JPCas (JAbort false) _ _ | JAbortRead false | JDown => true
  | _ => false
  end.

(** [jj_spin_lock] recovers first, and its signal never asks it to give up. *)
Definition jj_spin (g : granularity) (k : Z) : lock :=
  Lock jj_lock jpc (fun l => exists l0, words_ok g k (min_arr l0) /\ jj_init g k l0 = Some l) JIdle JCritical jpc_idle jpc_critical jpc_releasing
    (fun i p l => Ret (jstep g k i (jpc_idle p) p l)).

Section Jj.
Context (g : granularity) (k N : Z) (Hk : 0 <= k <= 15) (HN : N <= 2 ^ k).

Lemma jpc_climb c pos :
  (jpc_quits (jclimb c pos) = match c with JAbort false => true | _ => false end) /\ jclimb c pos <> JEnterRead /\
  jpc_idle (jclimb c pos) = false /\ jpc_critical (jclimb c pos) = false /\ jpc_releasing (jclimb c pos) = match c with JExit => true | _ => false end.
Proof using. unfold jclimb, jupdated. case_match; destruct c as [|[]|]; done. Qed.

(** What a step of a thread that does not give up leads to. *)
Definition jj_goes (i : Z) (p : jpc) (r : jpc * jj_lock) : Prop :=
  jpc_quits (fst r) = false /\ (fst r = JEnterRead -> owned (jstatus g (snd r)) i = true) /\
  if jpc_releasing p then jpc_critical (fst r) = false /\ (jpc_releasing (fst r) = true \/ jpc_idle (fst r) = true)
  else jpc_idle (fst r) = false /\ (jpc_releasing (fst r) = true -> jpc_critical (fst r) = true).

(** A step to a known place. *)
Ltac jgo := cbn; split; [reflexivity|]; split; [first [by intros [=]|done]|]; split; [reflexivity|]; auto.
Ltac jclimbs := match goal with |- context[jclimb ?c ?q] => destruct (jpc_climb c q) as (C0 & C1 & C2 & C3 & C4); rewrite ?C0, ?C2, ?C3, ?C4; cbn; split; [reflexivity|]; split; [done|]; split; [reflexivity|]; auto end.

Lemma jj_goes_on i p l :
  reg_ok g (cs_status_w l) -> jpc_quits p = false -> (p = JEnterRead -> owned (jstatus g l) i = true) -> jj_goes i p (jstep g k i (jpc_idle p) p l).
Proof using.
  intros H Hq He. pose proof (read_jstatus g l H) as (l' & Er & Es & _). unfold jj_goes.
  destruct p as [| | | | | |c st|c pos sec|c pos sec cur|c pos sec cur lv|c pos sec cur mn|c|c s|c s peer| | | |[]| | | |]; try discriminate Hq; cbn [jstep jpc_idle].
  all: try (rewrite Er; cbn [fst snd]; rewrite Es; try rewrite He by reflexivity; repeat case_match; subst; jgo).
  all: unfold get_process_state; repeat match goal with |- context[pcas_read_uint64 g ?x] => destruct (pcas_read_uint64 g x) end;
    repeat match goal with |- context[persist_cas_uint64 g ?x ?y ?z] => destruct (persist_cas_uint64 g x y z) as [[]] end; cbn [fst snd].
  all: try (by destruct c as [|[]|]; try discriminate Hq; jgo).
  all: try (by destruct c as [|[]|]; try discriminate Hq; jclimbs).
  all: try jgo.
  - destruct sec; [by destruct c as [|[]|]; try discriminate Hq; jclimbs|by destruct c as [|[]|]; try discriminate Hq; jgo].
  - rewrite Er. cbn [fst snd]. rewrite Es. by destruct c as [|[]|]; try discriminate Hq; case_match; jgo.
  - by destruct c as [|[]|]; try discriminate Hq; case_match; jgo.
  - rewrite Er. cbn [fst snd]. rewrite Es. destruct (owned (jstatus g l) i) eqn:Eo; cbn [orb]; jgo.
  - rewrite Er. cbn [fst snd]. rewrite He by done. jgo.
Qed.

Record juinv (l : jj_lock) (pcs : Z -> jpc) : Prop := {
  ju_inv : jinv g k (JSys l pcs);
  ju_stays i : 0 <= i < N -> jpc_quits (pcs i) = false /\ (pcs i = JEnterRead -> owned (jstatus g l) i = true) }.

Lemma juinv_step l pcs i :
  juinv l pcs -> 0 <= i < N ->
  jj_goes i (pcs i) (jstep g k i (jpc_idle (pcs i)) (pcs i) l) /\
  juinv (snd (jstep g k i (jpc_idle (pcs i)) (pcs i) l)) (upd pcs i (fst (jstep g k i (jpc_idle (pcs i)) (pcs i) l))).
Proof using Hk HN.
  intros [J S] Hi. assert (Hp : is_process k i) by (unfold is_process; lia). destruct (S i Hi) as [S1 S2].
  pose proof (jj_goes_on i (pcs i) l (ji_word _ _ _ J) S1 S2) as G. split; [done|]. constructor.
  - exact (jinv_step g k Hk _ _ J (jsys_proc g k i (jpc_idle (pcs i)) (JSys l pcs) Hp)).
  - intros j Hj. destruct (Z.eq_dec j i) as [->|Hne]; [rewrite upd_same; split; apply G|]. rewrite upd_other by congruence.
    destruct (S j Hj) as [S3 S4]. split; [done|]. intros E. specialize (S4 E).
    pose proof (jstep_ok g k Hk i (jpc_idle (pcs i)) (pcs i) l Hp (ji_word _ _ _ J) (ji_hold _ _ _ J i Hp) (fun c s peer => ji_peer _ _ _ J i c s peer Hp)) as (_ & _ & _ & [->|[X|X]]); [done| |].
    + by rewrite X in S4.
    + exfalso. apply Hne. eapply owned_inj; [exact S4|]. by apply (ji_hold _ _ _ J).
Qed.

Lemma jj_spin_ok limit : SpinLock (jj_spin g k) N limit.
Proof using Hk HN.
  assert (R : forall m pcs n, lreach (jj_spin g k) N m pcs n -> juinv m pcs).
  { induction 1 as [m (l0 & H1 & H2)|m pcs n i p' m' R IH Hr E]; cbn [jj_spin lnext lpc lmem linit lidle] in *.
    - constructor; [|done]. apply (jreachable_inv g k Hk). by apply (jsys_init g k l0).
    - destruct (juinv_step m pcs i IH Hr) as [_ I]. destruct (jstep g k i _ (pcs i) m). by injection E as <- <-. }
  constructor.
  - split_and!; try done; intros []; done.
  - intros m pcs n i H _ Hi. apply R in H. destruct (juinv_step m pcs i H Hi) as [(_ & _ & G) _]. cbn [jj_spin lnext lpc lmem releasing at_critical at_idle] in *.
    exists (fst (jstep g k i (jpc_idle (pcs i)) (pcs i) m)), (snd (jstep g k i (jpc_idle (pcs i)) (pcs i) m)). split; [by destruct (jstep g k i _ (pcs i) m)|done].
  - intros m pcs n i j H _ Hi Hj. cbn. intros Ei Ej. apply R in H as [J _].
    assert (Pi : is_process k i) by (unfold is_process; lia). assert (Pj : is_process k j) by (unfold is_process; lia).
    eapply owned_inj; apply (ji_hold _ _ _ J); cbn; [done|by destruct (pcs i)|done|by destruct (pcs j)].
Qed.
End Jj.

(** ** The abortable lock with a port per thread *)

Definition wpc_idle (p : wpc) : bool := match p with WIdle => true | _ => false end.
Definition wpc_critical (p : wpc) : bool := match p with WCritical => true | _ => false end.
Definition wpc_releasing (p : wpc) : bool :=
  holding p || match p with PRead (InExit _) | PActive (InExit _) _ | PCas (InExit _) _ _ => true | _ => false end.
(** Giving up, or down. *)
Definition wpc_quits (p : wpc) : bool :=
  match p with
  | UnsetLoad (InAbort false) | UnsetSub (InAbort false) | PRead (InAbort false) | PActive (InAbort false) _ | PCas (InAbort false) _ _
  | AbortRead false | WDown => true
  | _ => false
  end.
(** Has entered and not yet counted the passage in [seq]. *)
Definition uncounted (p : wpc) : bool := holding p && match p with ExitWriteCsst _ _ => false | _ => true end.

(** [jj_wport_spin_lock] recovers first, and its signal never asks it to give up. *)
Definition jj_wport (g : granularity) (wsize : Z) : lock :=
  Lock wlock wpc (fun l => exists l0, jj_wport_init l0 = Ret l) WIdle WCritical wpc_idle wpc_critical wpc_releasing
    (fun i p l => wstep g wsize i (wpc_idle p) p l).

Section Wport.
Context (g : granularity) (wsize N limit : Z) (Hw : 0 < wsize <= 64) (HN : N <= wsize) (Hlim : limit < WPORT_CSST_S_MAX).

(** What a step of a port that does not give up leads to. *)
Definition wport_goes (i : Z) (p : wpc) (r : wpc * view) : Prop :=
  wpc_quits (fst r) = false /\ (fst r = EnterRead -> own (v_c (snd r)) i = true) /\
  if wpc_releasing p then wpc_critical (fst r) = false /\ (wpc_releasing (fst r) = true \/ wpc_idle (fst r) = true)
  else wpc_idle (fst r) = false /\ (wpc_releasing (fst r) = true -> wpc_critical (fst r) = true).

Ltac wgo := cbn; split; [reflexivity|]; split; [first [by intros [=]|done]|]; split; [reflexivity|]; auto.

Lemma wport_goes_on i p v :
  port_ok wsize i p v -> wpc_quits p = false -> (p = EnterRead -> own (v_c v) i = true) -> wport_goes i p (vstep wsize i (wpc_idle p) p v).
Proof using Hw.
  intros P Hq He. pose proof (po_locals _ _ _ _ P) as Hl. unfold wport_goes.
  destruct p as [| | | | | |[|[]|]|[|[]|]|[|[]|]|[|[]|]|[|[]|]| | | |[]| | | | |]; try discriminate Hq; cbn [vstep wpc_idle fst snd unset_done promoted flag_of] in *;
    try rewrite He by reflexivity; rewrite ?orb_false_r; repeat case_match; try wgo.
  all: naive_solver.
Qed.

(** How the counted passages change. *)
Lemma wport_counts i p v :
  port_ok wsize i p v -> wpc_quits p = false ->
  let r := vstep wsize i (wpc_idle p) p v in
  (v_seq (snd r) = v_seq v /\ (uncounted (fst r) = true -> uncounted p = true \/ wpc_critical (fst r) = true)) \/
  (v_seq (snd r) = v_seq v + 1 /\ uncounted p = true /\ uncounted (fst r) = false).
Proof using Hw.
  intros P Hq. pose proof (po_locals _ _ _ _ P) as Hl.
  destruct p as [| | | | | |[|[]|]|[|[]|]|[|[]|]|[|[]|]|[|[]|]| | | |[]| | | | |]; try discriminate Hq; cbn [vstep wpc_idle fst snd unset_done promoted flag_of v_seq] in *;
    try (left; split; [by repeat case_match|]; repeat case_match; by auto).
  right. destruct Hl as [_ ->]. split_and!; done.
Qed.

Lemma own_kept i j p v :
  view_ok wsize v -> port_ok wsize i p v -> is_port wsize i -> j <> i -> own (v_c v) j = true -> forall choice, own (v_c (snd (vstep wsize i choice p v))) j = true.
Proof using Hw.
  intros V P Hi Hne Ho choice. destruct (vstep_effect wsize Hw i choice p v Hi) as [a Ha|c st peer Ep Hst|o s Ep|o s Ep]; cbn [v_c]; try done.
  - exfalso. subst p. destruct (po_exp _ _ _ _ P st eq_refl) as ((B & _) & _). apply own_b in Ho as [Ho _]. congruence.
  - exfalso. apply Hne. eapply own_inj; [exact Ho|]. apply (po_hold _ _ _ _ P). by subst p.
Qed.

Record wuinv (l : wlock) (pcs : Z -> wpc) (n : Z) : Prop := {
  wu_inv : sys_inv g wsize (WSys l pcs);
  wu_stays i : 0 <= i < N -> wpc_quits (pcs i) = false /\ (pcs i = EnterRead -> own (v_c (view_of g l)) i = true);
  wu_seq : v_seq (view_of g l) <= n + 1;
  wu_uncounted i : 0 <= i < N -> uncounted (pcs i) = true -> v_seq (view_of g l) <= n }.

Lemma wuinv_step l pcs n i :
  wuinv l pcs n -> n <= limit -> 0 <= i < N ->
  exists p' l', wstep g wsize i (wpc_idle (pcs i)) (pcs i) l = Ret (p', l') /\ wport_goes i (pcs i) (p', view_of g l') /\
    wuinv l' (upd pcs i p') (if wpc_critical p' then n + 1 else n).
Proof using Hw HN Hlim.
  intros [I S Q U] Hn Hi. pose proof I as [Hl A]. assert (Hp : is_port wsize i) by (unfold is_port; lia). destruct (S i Hi) as [S1 S2].
  pose proof (ai_port _ _ _ A i Hp) as P. cbn [ws_pc ws_lock] in *.
  destruct (sys_wstep g wsize Hw i (wpc_idle (pcs i)) (WSys l pcs) Hp I) as (l' & E & Ev & _). cbn [ws_pc ws_lock] in *.
  pose proof (wport_goes_on i (pcs i) (view_of g l) P S1 S2) as G. pose proof (wport_counts i (pcs i) (view_of g l) P S1) as C.
  pose proof (own_kept i) as K. specialize (K) with (p := pcs i) (v := view_of g l).
  destruct (vstep wsize i (wpc_idle (pcs i)) (pcs i) (view_of g l)) as [p' v'] eqn:Es. cbn [fst snd] in *. exists p', l'. rewrite Ev.
  split; [done|]. split; [done|]. set (n' := if wpc_critical p' then n + 1 else n). assert (Hn' : n <= n') by (unfold n'; case_match; lia).
  assert (Hs : v_seq v' <= n + 1) by (destruct C as [[-> _]|(-> & C1 & _)]; [done|pose proof (U i Hi C1); lia]).
  constructor; rewrite ?Ev.
  - apply (sys_inv_step g wsize Hw (WSys l pcs)); [done| |cbn [ws_lock]; rewrite Ev; lia]. by apply (sys_proc g wsize i (wpc_idle (pcs i)) (WSys l pcs)).
  - intros j Hj. destruct (Z.eq_dec j i) as [->|Hne]; [rewrite upd_same; split; apply G|]. rewrite upd_other by congruence.
    destruct (S j Hj) as [S3 S4]. split; [done|]. intros X. specialize (K j (ai_view _ _ _ A) P Hp Hne (S4 X) (wpc_idle (pcs i))). by rewrite Es in K.
  - lia.
  - intros j Hj. destruct (Z.eq_dec j i) as [->|Hne].
    + rewrite upd_same. intros X. destruct C as [[-> C]|(_ & _ & C)]; [|congruence]. destruct (C X) as [Y|Y]; [pose proof (U i Hi Y); lia|]. unfold n'. rewrite Y. lia.
    + rewrite upd_other by congruence. intros X. destruct C as [[-> _]|(_ & C & _)]; [pose proof (U j Hj X); lia|]. exfalso. apply Hne.
      assert (Pj : is_port wsize j) by (unfold is_port; lia). unfold uncounted in X, C. apply andb_true_iff in X as [X _], C as [C _].
      eapply own_inj; [exact (po_hold _ _ _ _ (ai_port _ _ _ A j Pj) X)|exact (po_hold _ _ _ _ P C)].
Qed.

Lemma jj_wport_ok : SpinLock (jj_wport g wsize) N limit.
Proof using Hw HN Hlim.
  assert (R : forall m pcs n, lreach (jj_wport g wsize) N m pcs n -> n <= limit -> wuinv m pcs n).
  { apply (lreach_ind_inv (jj_wport g wsize)); cbn [jj_wport lnext lpc lmem linit lidle at_critical].
    - intros m (l0 & H). pose proof (wport_init_inv g wsize Hw l0 m H) as I. constructor; [done|done| |done].
      unfold jj_wport_init in H. rewrite (compose_enc false 1 0) in H by (by split). cbn [obind] in H. injection H as <-.
      destruct (reg_plain g 1) as [E2 O2]; [by split|]. unfold view_of. cbn [wl_seq v_seq]. rewrite E2. lia.
    - intros m pcs n i p' m' I Hn Hi E. destruct (wuinv_step m pcs n i I Hn Hi) as (p & l & E' & _ & I'). rewrite E' in E. by injection E as <- <-. }
  constructor.
  - split_and!; try done; intros []; done.
  - intros m pcs n i H Hn Hi. apply R in H; [|done]. destruct (wuinv_step m pcs n i H Hn Hi) as (p & l & E & (_ & _ & G) & _). by exists p, l.
  - intros m pcs n i j H Hn Hi Hj. cbn. intros Ei Ej. apply R in H as [[_ A] _ _ _]; [|done].
    assert (Pi : is_port wsize i) by (unfold is_port; lia). assert (Pj : is_port wsize j) by (unfold is_port; lia).
    eapply own_inj; [exact (po_hold _ _ _ _ (ai_port _ _ _ A i Pi) ltac:(cbn; by destruct (pcs i)))|exact (po_hold _ _ _ _ (ai_port _ _ _ A j Pj) ltac:(cbn; by destruct (pcs j)))].
Qed.
End Wport.
