(* ===== verification/Bench.v ===== *)
(** The lock benchmarks of src/lupin_lock_benchmark (cxl_test_*.cpp and dram_test_*.cpp)
    over the interface of LockClient: each program as the statements of its main function
    and of the function of its threads, and the runs of the main thread and the workers
    over a lock, a global count, a barrier and the memory that they allocate.  What the
    calls of the allocators, of the thread library and of the scheduler do is their
    documented behaviour, and they succeed. *)
From Stdlib Require Import ZArith Lia Bool Ascii String.
From stdpp Require Import base list numbers.
From S2P Require Import Prelude PersistCas TatasLock LockClient.
Local Open Scope Z_scope.

(** ** Programs *)

(** Statements of the function of a thread.  [BarrierPass] is the return of
    pthread_barrier_wait. *)
Inductive wop :=
| CxlallocInit | PinThread | ClearNode
| BarrierWait | BarrierPass
| LockCall | CountPassage | CountGlobal | UnlockCall | CpuPause.

(** The function of a thread: what it does before the loop, and the body of the loop with
    the global count and without. *)
Record worker := Worker { prologue : list wop; counted_body : list wop; plain_body : list wop }.

(** Statements of main. *)
Inductive mop :=
| RunGlobalCount | MCxlallocInit | AllocLock | AllocNodes | ClearNodes | ClearLock | InitOsqParam | InitLock | AllocCount | ZeroCount
| AttrInit | SetAttr | BarrierInit (n : Z)
| Create (i : Z) | MainWait | MainPass | Join (i : Z)
| BarrierDestroy | AttrDestroy | FreeCount | FreeLock.

(** A benchmark for [N] threads; [static_lock] tells a lock that is a static variable. *)
Record bench := Bench { the_worker : worker; static_lock : bool; the_main : list mop }.

Definition THREADS_NUM : Z := 32.
Definition LOCK_NUM : Z := 50000.

(** [run_global_count]: the variable GCOUNT starts with 1. *)
Definition run_global_count (GCOUNT : option string) : bool :=
  match GCOUNT with Some (String c _) => Ascii.eqb c "1" | _ => false end.

Definition set_pthread_attr : list mop := [SetAttr].
Definition create_all (N : Z) : list mop := map Create (seqZ 0 N).
Definition join_all (N : Z) : list mop := map Join (seqZ 0 N).

Section Programs.
Context (N : Z).

Definition cxl_measure_rmcs : worker :=
  Worker [CxlallocInit; PinThread; BarrierWait] [LockCall; CountPassage; CountGlobal; UnlockCall] [LockCall; CountPassage; UnlockCall].
Definition cxl_test_rmcs : bench := Bench cxl_measure_rmcs false
  ([RunGlobalCount; MCxlallocInit; AllocLock; AllocNodes; ClearNodes; InitLock; AllocCount; ZeroCount; AttrInit] ++ set_pthread_attr ++ [BarrierInit (N + 1)] ++
   create_all N ++ [MainWait] ++ join_all N ++ [BarrierDestroy; AttrDestroy; FreeCount; FreeLock]).

Definition cxl_measure_jjwport : worker :=
  Worker [CxlallocInit; PinThread; BarrierWait] [LockCall; CountPassage; CountGlobal; UnlockCall] [LockCall; CountPassage; UnlockCall].
Definition cxl_test_jj_32port : bench := Bench cxl_measure_jjwport false
  ([RunGlobalCount; MCxlallocInit; AllocLock; ClearLock; InitLock; AllocCount; ZeroCount; AttrInit] ++ set_pthread_attr ++ [BarrierInit (N + 1)] ++
   create_all N ++ [MainWait] ++ join_all N ++ [BarrierDestroy; AttrDestroy; FreeCount; FreeLock]).

Definition cxl_measure_jj : worker :=
  Worker [CxlallocInit; PinThread; BarrierWait] [LockCall; CountPassage; CountGlobal; UnlockCall] [LockCall; CountPassage; UnlockCall].
Definition cxl_test_jj : bench := Bench cxl_measure_jj false
  ([RunGlobalCount; MCxlallocInit; AllocLock; InitLock; AllocCount; ZeroCount; AttrInit] ++ set_pthread_attr ++ [BarrierInit (N + 1)] ++
   create_all N ++ [MainWait] ++ join_all N ++ [BarrierDestroy; AttrDestroy; FreeCount; FreeLock]).

Definition cxl_measure_lpttas : worker :=
  Worker [CxlallocInit; PinThread; BarrierWait] [LockCall; CountPassage; CountGlobal; UnlockCall; CpuPause] [LockCall; CountPassage; UnlockCall].
Definition cxl_test_lpttas : bench := Bench cxl_measure_lpttas false
  ([RunGlobalCount; MCxlallocInit; AllocLock; InitLock; AllocCount; ZeroCount; AttrInit] ++ set_pthread_attr ++ [BarrierInit (N + 1)] ++
   create_all N ++ [MainWait] ++ join_all N ++ [BarrierDestroy; AttrDestroy; FreeCount; FreeLock]).

Definition cxl_measure_ttas : worker :=
  Worker [CxlallocInit; PinThread; BarrierWait] [LockCall; CountPassage; CountGlobal; UnlockCall; CpuPause] [LockCall; CountPassage; UnlockCall].
Definition cxl_test_ttas : bench := Bench cxl_measure_ttas false
  ([RunGlobalCount; MCxlallocInit; AllocLock; InitLock; AllocCount; ZeroCount; AttrInit] ++ set_pthread_attr ++ [BarrierInit (N + 1)] ++
   create_all N ++ [MainWait] ++ join_all N ++ [BarrierDestroy; AttrDestroy; FreeCount; FreeLock]).

Definition cxl_measure_qspin : worker :=
  Worker [CxlallocInit; PinThread; BarrierWait] [LockCall; CountPassage; CountGlobal; UnlockCall] [LockCall; CountPassage; UnlockCall].
Definition cxl_test_qspin : bench := Bench cxl_measure_qspin true
  ([RunGlobalCount; MCxlallocInit; InitLock; AllocCount; ZeroCount; AttrInit] ++ set_pthread_attr ++ [BarrierInit (N + 1)] ++
   create_all N ++ [MainWait] ++ join_all N ++ [BarrierDestroy; AttrDestroy; FreeCount]).

Definition dram_measure_osq : worker :=
  Worker [PinThread; BarrierWait] [LockCall; CountPassage; CountGlobal; UnlockCall] [LockCall; CountPassage; UnlockCall].
Definition dram_test_osq : bench := Bench dram_measure_osq true
  ([RunGlobalCount; InitOsqParam; AllocCount; ZeroCount; InitLock; AttrInit] ++ set_pthread_attr ++ [BarrierInit (N + 1)] ++
   create_all N ++ [MainWait] ++ join_all N ++ [BarrierDestroy; AttrDestroy]).

Definition dram_measure_qspin : worker :=
  Worker [PinThread; BarrierWait] [LockCall; CountPassage; CountGlobal; UnlockCall] [LockCall; CountPassage; UnlockCall].
Definition dram_test_qspin : bench := Bench dram_measure_qspin true
  ([RunGlobalCount; InitLock; AllocCount; ZeroCount; AttrInit] ++ set_pthread_attr ++ [BarrierInit (N + 1)] ++
   create_all N ++ [MainWait] ++ join_all N ++ [BarrierDestroy; AttrDestroy; FreeCount]).

Definition dram_measure_ttas : worker :=
  Worker [PinThread; BarrierWait] [LockCall; CountPassage; CountGlobal; UnlockCall] [LockCall; CountPassage; UnlockCall].
Definition dram_test_ttas : bench := Bench dram_measure_ttas false
  ([RunGlobalCount; AllocLock; ClearLock; InitLock; AllocCount; ZeroCount; AttrInit] ++ set_pthread_attr ++ [BarrierInit (N + 1)] ++
   create_all N ++ [MainWait] ++ join_all N ++ [BarrierDestroy; AttrDestroy; FreeCount; FreeLock]).

Definition dram_measure_lpttas : worker :=
  Worker [PinThread; BarrierWait] [LockCall; CountPassage; CountGlobal; UnlockCall; CpuPause] [LockCall; CountPassage; UnlockCall].
Definition dram_test_lpttas : bench := Bench dram_measure_lpttas false
  ([RunGlobalCount; AllocLock; ClearLock; InitLock; AllocCount; ZeroCount; AttrInit] ++ set_pthread_attr ++ [BarrierInit (N + 1)] ++
   create_all N ++ [MainWait] ++ join_all N ++ [BarrierDestroy; AttrDestroy; FreeLock; FreeCount]).

(** The queue node is a local variable of the thread, cleared by it. *)
Definition dram_measure_rmcs : worker :=
  Worker [ClearNode; PinThread; BarrierWait] [LockCall; CountPassage; CountGlobal; UnlockCall] [LockCall; CountPassage; UnlockCall].
Definition dram_test_rmcs : bench := Bench dram_measure_rmcs false
  ([AllocCount; ZeroCount; AllocLock; InitLock; RunGlobalCount; AttrInit] ++ set_pthread_attr ++ [BarrierInit (N + 1)] ++
   create_all N ++ [MainWait] ++ join_all N ++ [BarrierDestroy; AttrDestroy]).

Definition dram_measure_jj : worker :=
  Worker [PinThread; BarrierWait] [LockCall; CountPassage; CountGlobal; UnlockCall] [LockCall; CountPassage; UnlockCall].
Definition dram_test_jj : bench := Bench dram_measure_jj false
  ([RunGlobalCount; AllocLock; ClearLock; InitLock; AllocCount; ZeroCount; AttrInit] ++ set_pthread_attr ++ [BarrierInit (N + 1)] ++
   create_all N ++ [MainWait] ++ join_all N ++ [BarrierDestroy; AttrDestroy; FreeCount; FreeLock]).

Definition dram_measure_jj_wport : worker :=
  Worker [PinThread; BarrierWait] [LockCall; CountPassage; CountGlobal; UnlockCall] [LockCall; CountPassage; UnlockCall].
Definition dram_test_jj_32port : bench := Bench dram_measure_jj_wport false
  ([RunGlobalCount; AllocLock; ClearLock; InitLock; AllocCount; ZeroCount; AttrInit] ++ set_pthread_attr ++ [BarrierInit (N + 1)] ++
   create_all N ++ [MainWait] ++ join_all N ++ [BarrierDestroy; AttrDestroy; FreeCount; FreeLock]).
End Programs.

(** ** Runs *)

(** A piece of memory: not allocated, allocated, or holding a value. *)
Inductive cell (A : Type) := Absent | Raw | Val (a : A).
Arguments Absent {A}.
Arguments Raw {A}.
Arguments Val {A} a.

(** A worker: not created, with the statements to come and the passages so far, or
    returned. *)
Inductive wstate := NotCreated | Running (todo : list wop) (lock_acquired : Z) | Finished (lock_acquired : Z).

Section Run.
Context (L : lock) (N M : Z) (gcount : bool) (m0 : lmem L) (b : bench).

(** [b_barrier] is the size of the barrier and how many threads have arrived. *)
Record bstate := BState {
  b_lock : cell (lmem L);
  b_pcs : Z -> lpc L;
  b_count : cell Z;
  b_barrier : option (Z * Z);
  b_flag : bool;
  b_workers : Z -> wstate;
  b_main : list mop }.

Definition with_main (st : bstate) (l : list mop) : bstate := BState (b_lock st) (b_pcs st) (b_count st) (b_barrier st) (b_flag st) (b_workers st) l.
Definition with_worker (st : bstate) (i : Z) (w : wstate) : bstate :=
  BState (b_lock st) (b_pcs st) (b_count st) (b_barrier st) (b_flag st) (upd (b_workers st) i w) (b_main st).
Definition with_lock (st : bstate) (c : cell (lmem L)) : bstate := BState c (b_pcs st) (b_count st) (b_barrier st) (b_flag st) (b_workers st) (b_main st).
Definition with_call (st : bstate) (i : Z) (p : lpc L) (m : lmem L) : bstate :=
  BState (Val m) (upd (b_pcs st) i p) (b_count st) (b_barrier st) (b_flag st) (b_workers st) (b_main st).
Definition with_count (st : bstate) (c : cell Z) : bstate := BState (b_lock st) (b_pcs st) c (b_barrier st) (b_flag st) (b_workers st) (b_main st).
Definition with_barrier (st : bstate) (x : option (Z * Z)) : bstate := BState (b_lock st) (b_pcs st) (b_count st) x (b_flag st) (b_workers st) (b_main st).
Definition with_flag (st : bstate) (x : bool) : bstate := BState (b_lock st) (b_pcs st) (b_count st) (b_barrier st) x (b_workers st) (b_main st).

(** pthread_barrier_wait arrives, and returns when all have; [None] is a caller that waits. *)
Definition arrive (st : bstate) : outcome bstate :=
  match b_barrier st with None => Bug | Some (n, a) => Ret (with_barrier st (Some (n, a + 1))) end.
Definition may_pass (st : bstate) : outcome bool := match b_barrier st with None => Bug | Some (n, a) => Ret (a =? n) end.

(** The next statement of main: [Bug] is an access to memory that is not there, and [None]
    a call that waits. *)
Definition main_step (st : bstate) : outcome (option bstate) :=
  match b_main st with
  | [] => Ret None
  | op :: rest =>
      let go st := Ret (Some (with_main st rest)) in
      match op with
      | RunGlobalCount => go (with_flag st gcount)
      | AllocLock => go (with_lock st Raw)
      | InitLock => match b_lock st with Absent => Bug | _ => go (with_lock st (Val m0)) end
      | ClearLock => match b_lock st with Absent => Bug | _ => go (with_lock st Raw) end
      | AllocCount => go (with_count st Raw)
      | ZeroCount => match b_count st with Absent => Bug | _ => go (with_count st (Val 0)) end
      | BarrierInit n => go (with_barrier st (Some (n, 0)))
      | Create i => match b_workers st i with NotCreated => go (with_worker st i (Running (prologue (the_worker b)) 0)) | _ => Bug end
      | MainWait => match arrive st with Bug => Bug | Ret st => Ret (Some (with_main st (MainPass :: rest))) end
      | MainPass => match may_pass st with Bug => Bug | Ret true => go st | Ret false => Ret None end
      | Join i => match b_workers st i with NotCreated => Bug | Running _ _ => Ret None | Finished _ => go st end
      | BarrierDestroy => match b_barrier st with None => Bug | Some _ => go (with_barrier st None) end
      | FreeCount => match b_count st with Absent => Bug | _ => go (with_count st Absent) end
      | FreeLock => match b_lock st with Absent => Bug | _ => go (with_lock st Absent) end
      | MCxlallocInit | AllocNodes | ClearNodes | InitOsqParam | AttrInit | SetAttr | AttrDestroy => go st
      end
  end.

Definition body (flag : bool) : list wop := if flag then counted_body (the_worker b) else plain_body (the_worker b).

(** The next step of the worker [i].  A call of the lock takes the accesses of the lock;
    an acquire that returns without it fails its assertion. *)
Definition worker_step (i : Z) (st : bstate) : outcome (option bstate) :=
  match b_workers st i with
  | NotCreated | Finished _ => Ret None
  | Running [] acq => Ret (Some (with_worker st i (if acq <? M then Running (body (b_flag st)) acq else Finished acq)))
  | Running (op :: rest) acq =>
      let go st := Ret (Some (with_worker st i (Running rest acq))) in
      match op with
      | BarrierWait => match arrive st with Bug => Bug | Ret st => Ret (Some (with_worker st i (Running (BarrierPass :: rest) acq))) end
      | BarrierPass => match may_pass st with Bug => Bug | Ret true => go st | Ret false => Ret None end
      | LockCall =>
          match b_lock st with
          | Val m =>
              match lnext L i (b_pcs st i) m with
              | Bug => Bug
              | Ret (p, m) => if at_idle L p then Bug else if at_critical L p then go (with_call st i p m) else Ret (Some (with_call st i p m))
              end
          | _ => Bug
          end
      | CountPassage => Ret (Some (with_worker st i (Running rest (u64 (acq + 1)))))
      | CountGlobal => match b_count st with Val v => go (with_count st (Val (u64 (v + 1)))) | _ => Bug end
      | UnlockCall =>
          match b_lock st with
          | Val m =>
              match lnext L i (b_pcs st i) m with
              | Bug => Bug
              | Ret (p, m) => if at_idle L p then go (with_call st i p m) else Ret (Some (with_call st i p m))
              end
          | _ => Bug
          end
      | CxlallocInit | PinThread | ClearNode | CpuPause => go st
      end
  end.

Definition bench_start : bstate :=
  BState (if static_lock b then Raw else Absent) (fun _ => lidle L) Absent None false (fun _ => NotCreated) (the_main b).

Inductive bench_step (st : bstate) : bstate -> Prop :=
| step_main st' : main_step st = Ret (Some st') -> bench_step st st'
| step_worker i st' : 0 <= i < N -> worker_step i st = Ret (Some st') -> bench_step st st'.

Inductive bench_reachable : bstate -> Prop :=
| bench_init : bench_reachable bench_start
| bench_next st st' : bench_reachable st -> bench_step st st' -> bench_reachable st'.
End Run.
