(* ===== verification/BenchSpec.v ===== *)
(** What the lock benchmarks do, whatever the interleaving of their threads: they use their
    memory and their barrier as they may, exclude each other, count every passage and
    never get stuck.  The theorems are proved against the interface of LockClient, and hold
    of the thirteen programs with the locks that BenchTtas and BenchLocks verify. *)
From Stdlib Require Import ZArith Lia Bool String.
From stdpp Require Import base list numbers.
From S2P Require Import Prelude PersistCas TatasLock LockClient BenchTtas WportLock WportSpec MinArray JjLock Rmcs QSpinlock OsqLock BenchLocks Bench.
Local Open Scope Z_scope.

(** ** Sums over the threads *)

Definition sum_over (l : list Z) (f : Z -> Z) : Z := foldr (fun i s => f i + s) 0 l.
Definition total (N : Z) (f : Z -> Z) : Z := sum_over (seqZ 0 N) f.

Lemma sum_cons x l f : sum_over (x :: l) f = f x + sum_over l f.
Proof. done. Qed.

Lemma sum_ext l f g : (forall i, i ∈ l -> f i = g i) -> sum_over l f = sum_over l g.
Proof.
  induction l as [|x l IH]; intros H; [done|]. rewrite !sum_cons, (H x) by (by left). f_equal. apply IH. intros i Hi. apply H. by right.
Qed.

Lemma sum_change l f g i : NoDup l -> i ∈ l -> (forall j, j <> i -> g j = f j) -> sum_over l g = sum_over l f - f i + g i.
Proof.
  induction l as [|x l IH]; intros Hd Hi H; [by apply not_elem_of_nil in Hi|]. apply list.NoDup_cons in Hd as [Hx Hd]. rewrite !sum_cons.
  destruct (Z.eq_dec x i) as [->|Hne].
  - rewrite (sum_ext l g f) by (intros j Hj; apply H; congruence). lia.
  - apply list.elem_of_cons in Hi as [Hi|Hi]; [congruence|]. rewrite (H x), (IH Hd Hi H) by done. lia.
Qed.

Lemma sum_le l f c : (forall i, i ∈ l -> f i <= c) -> sum_over l f <= Z.of_nat (length l) * c.
Proof.
  induction l as [|x l IH]; intros H; [done|]. rewrite sum_cons. cbn [length]. pose proof (H x ltac:(by left)).
  specialize (IH (fun i Hi => H i ltac:(by right))). lia.
Qed.

Lemma sum_full l f c : (forall i, i ∈ l -> f i <= c) -> sum_over l f = Z.of_nat (length l) * c -> forall i, i ∈ l -> f i = c.
Proof.
  induction l as [|x l IH]; intros H E i Hi; [by apply not_elem_of_nil in Hi|]. rewrite sum_cons in E. cbn [length] in E.
  pose proof (H x ltac:(by left)) as Hx. pose proof (sum_le l f c (fun i Hi => H i ltac:(by right))) as Hl.
  apply list.elem_of_cons in Hi as [->|Hi]; [lia|]. apply IH; [intros j Hj; apply H; by right|lia|done].
Qed.

Section Totals.
Context (N : Z) (HN : 0 <= N).

Lemma thread_range i : i ∈ seqZ 0 N <-> 0 <= i < N.
Proof using. rewrite elem_of_seqZ. lia. Qed.
Lemma range_length : Z.of_nat (length (seqZ 0 N)) = N.
Proof using HN. rewrite length_seqZ. lia. Qed.

Lemma total_change f g i : 0 <= i < N -> (forall j, j <> i -> g j = f j) -> total N g = total N f - f i + g i.
Proof using. intros Hi. apply sum_change; [apply NoDup_seqZ|by apply thread_range]. Qed.
Lemma total_le f c : (forall i, 0 <= i < N -> f i <= c) -> total N f <= N * c.
Proof using HN. intros H. rewrite <- range_length at 2. apply sum_le. intros i Hi. by apply H, thread_range. Qed.
Lemma total_full f c : (forall i, 0 <= i < N -> f i <= c) -> total N f = N * c -> forall i, 0 <= i < N -> f i = c.
Proof using HN.
  intros H E i Hi. apply (sum_full (seqZ 0 N) f c); [intros j Hj; by apply H, thread_range|rewrite range_length; exact E|by apply thread_range].
Qed.
Lemma total_const f c : (forall i, 0 <= i < N -> f i = c) -> total N f = N * c.
Proof using HN.
  intros H. unfold total. rewrite (sum_ext _ f (fun _ => c)) by (intros i Hi; by apply H, thread_range). rewrite <- range_length at 2.
  generalize (seqZ 0 N) as l. induction l as [|x l IH]; [done|]. rewrite sum_cons. cbn [length]. lia.
Qed.
End Totals.

(** ** The shape of the programs *)

Definition quiet (op : wop) : bool := match op with CxlallocInit | PinThread | ClearNode | CpuPause => true | _ => false end.

(** A worker waits at the barrier before its loop and counts between the calls of the lock. *)
Definition worker_shape (w : worker) : Prop :=
  exists q1 q2 q3, forallb quiet q1 = true /\ forallb quiet q2 = true /\ forallb quiet q3 = true /\
    prologue w = q1 ++ [BarrierWait] /\ counted_body w = [LockCall; CountPassage; CountGlobal; UnlockCall] ++ q2 /\
    plain_body w = [LockCall; CountPassage; UnlockCall] ++ q3.

(** What is known of the memory while main runs alone. *)
Inductive kind := KAbsent | KRaw | KVal.
Definition kind_of {A} (c : cell A) : kind := match c with Absent => KAbsent | Raw => KRaw | Val _ => KVal end.
Record abs := Abs { a_lock : kind; a_count : kind; a_barrier : option Z; a_flag : bool }.

Definition abs_step (op : mop) (a : abs) : option abs :=
  match op with
  | RunGlobalCount => Some (Abs (a_lock a) (a_count a) (a_barrier a) true)
  | AllocLock => Some (Abs KRaw (a_count a) (a_barrier a) (a_flag a))
  | ClearLock => match a_lock a with KAbsent => None | _ => Some (Abs KRaw (a_count a) (a_barrier a) (a_flag a)) end
  | InitLock => match a_lock a with KAbsent => None | _ => Some (Abs KVal (a_count a) (a_barrier a) (a_flag a)) end
  | AllocCount => Some (Abs (a_lock a) KRaw (a_barrier a) (a_flag a))
  | ZeroCount => match a_count a with KAbsent => None | _ => Some (Abs (a_lock a) KVal (a_barrier a) (a_flag a)) end
  | BarrierInit n => Some (Abs (a_lock a) (a_count a) (Some n) (a_flag a))
  | BarrierDestroy => match a_barrier a with None => None | Some _ => Some (Abs (a_lock a) (a_count a) None (a_flag a)) end
  | FreeCount => match a_count a with KAbsent => None | _ => Some (Abs (a_lock a) KAbsent (a_barrier a) (a_flag a)) end
  | FreeLock => match a_lock a with KAbsent => None | _ => Some (Abs KAbsent (a_count a) (a_barrier a) (a_flag a)) end
  | MCxlallocInit | AllocNodes | ClearNodes | InitOsqParam | AttrInit | SetAttr | AttrDestroy => Some a
  | Create _ | MainWait | MainPass | Join _ => None
  end.
Fixpoint abs_run (l : list mop) (a : abs) : option abs :=
  match l with [] => Some a | op :: l => match abs_step op a with Some a => abs_run l a | None => None end end.

(** main sets everything up, creates the threads, waits, joins them and cleans up.  The
    clean-up does not touch what is not there, and does not write the count. *)
Definition writes_count (op : mop) : bool := match op with AllocCount | ZeroCount => true | _ => false end.
Definition main_shape (N : Z) (b : bench) (pre post : list mop) : Prop :=
  the_main b = pre ++ create_all N ++ [MainWait] ++ join_all N ++ post /\
  abs_run pre (Abs (if static_lock b then KRaw else KAbsent) KAbsent None false) = Some (Abs KVal KVal (Some (N + 1)) true) /\
  existsb writes_count post = false /\
  exists a, abs_run post (Abs KVal KVal (Some (N + 1)) true) = Some a.

(** ** Places of a worker *)

Inductive place := PBefore | PAt | PRest | PLock | PIn | PCnt | PUn.

Fixpoint place_of (todo : list wop) : place :=
  match todo with
  | [] => PRest
  | BarrierWait :: _ => PBefore
  | BarrierPass :: _ => PAt
  | LockCall :: _ => PLock
  | CountPassage :: _ => PIn
  | CountGlobal :: _ => PCnt
  | UnlockCall :: _ => PUn
  | _ :: todo => place_of todo
  end.

Definition arrived (w : wstate) : Z :=
  match w with NotCreated => 0 | Finished _ => 1 | Running todo _ => match place_of todo with PBefore => 0 | _ => 1 end end.
Definition passed (w : wstate) : bool :=
  match w with NotCreated => false | Finished _ => true | Running todo _ => match place_of todo with PBefore | PAt => false | _ => true end end.
(** The acquires that have returned, and the passages that the global count has. *)
Definition entered (w : wstate) : Z :=
  match w with NotCreated => 0 | Finished acq => acq | Running todo acq => match place_of todo with PIn => acq + 1 | _ => acq end end.
Definition counted (w : wstate) : Z :=
  match w with NotCreated => 0 | Finished acq => acq | Running todo acq => match place_of todo with PCnt => acq - 1 | _ => acq end end.
Definition created (w : wstate) : bool := match w with NotCreated => false | _ => true end.
Definition finished (w : wstate) : bool := match w with Finished _ => true | _ => false end.

(** Between the return of the acquire and the call of the release. *)
Definition in_section (L : lock) (w : wstate) (p : lpc L) : bool :=
  match w with Running todo _ => match place_of todo with PIn | PCnt => true | PUn => at_critical L p | _ => false end | _ => false end.

(** The statements that can be left, in the loop with the global count or without. *)
Definition shape (gcount : bool) (todo : list wop) : Prop :=
  exists q, forallb quiet q = true /\
    let rest := (if gcount then [CountGlobal; UnlockCall] else [UnlockCall]) ++ q in
    (todo = q ++ [BarrierWait] \/ todo = [BarrierPass] \/ todo = q \/ todo = LockCall :: CountPassage :: rest \/
     todo = CountPassage :: rest \/ (gcount = true /\ todo = rest) \/ todo = UnlockCall :: q).

Lemma place_quiet q l : forallb quiet q = true -> place_of (q ++ l) = place_of l.
Proof. induction q as [|x q IH]; [done|]. cbn. intros H. apply andb_true_iff in H as [H1 H2]. destruct x; try done; by apply IH. Qed.
Lemma place_rest q : forallb quiet q = true -> place_of q = PRest.
Proof. intros H. rewrite <- (app_nil_r q). by rewrite place_quiet. Qed.

(** ** The invariant *)

Section Runs.
Context (L : lock) (N M : Z) (gcount : bool) (m0 : lmem L) (b : bench) (pre post : list mop).
Context (HN : 0 <= N) (HM : 0 <= M) (Hsize : N * M < 2 ^ 64) (HM64 : M < 2 ^ 64).
Context {Hlock : SpinLock L N (N * M)} (Hm0 : linit L m0).
Context (Hworker : worker_shape (the_worker b)) (Hmain : main_shape N b pre post).

Notation bstate := (bstate L).

(** What the place of a worker says of its place in the lock. *)
Definition wok (w : wstate) (p : lpc L) : Prop :=
  match w with
  | NotCreated => at_idle L p = true
  | Finished acq => acq = M /\ at_idle L p = true
  | Running todo acq =>
      shape gcount todo /\ 0 <= acq <= M /\
      match place_of todo with
      | PBefore | PAt => acq = 0 /\ at_idle L p = true
      | PRest => at_idle L p = true
      | PLock => acq < M /\ releasing L p = false
      | PIn => acq < M /\ at_critical L p = true
      | PCnt => 1 <= acq /\ at_critical L p = true
      | PUn => releasing L p = true
      end
  end.

Inductive phase := PhCreate (j : Z) | PhPass | PhJoin (j : Z).
Definition main_of (ph : phase) : list mop :=
  match ph with
  | PhCreate j => map Create (seqZ j (N - j)) ++ [MainWait] ++ join_all N ++ post
  | PhPass => MainPass :: join_all N ++ post
  | PhJoin j => map Join (seqZ j (N - j)) ++ post
  end.
Definition main_arrived (ph : phase) : Z := match ph with PhCreate _ => 0 | _ => 1 end.
Definition main_passed (ph : phase) : bool := match ph with PhJoin _ => true | _ => false end.
Definition phase_ok (ph : phase) (i : Z) (w : wstate) : Prop :=
  match ph with
  | PhCreate j => created w = (i <? j)
  | PhPass => created w = true
  | PhJoin j => created w = true /\ (i < j -> finished w = true)
  end.

Record running (ph : phase) (m : lmem L) (v a n : Z) (st : bstate) : Prop := {
  ru_lock : b_lock L st = Val m;
  ru_count : b_count L st = Val v;
  ru_barrier : b_barrier L st = Some (N + 1, a);
  ru_flag : b_flag L st = gcount;
  ru_reach : lreach L N m (b_pcs L st) n;
  ru_entered : n = total N (fun i => entered (b_workers L st i));
  ru_counted : v = if gcount then total N (fun i => counted (b_workers L st i)) else 0;
  ru_arrived : a = total N (fun i => arrived (b_workers L st i)) + main_arrived ph;
  ru_main_passed : main_passed ph = true -> a = N + 1;
  ru_passed i : 0 <= i < N -> passed (b_workers L st i) = true -> a = N + 1;
  ru_worker i : 0 <= i < N -> wok (b_workers L st i) (b_pcs L st i);
  ru_phase i : 0 <= i < N -> phase_ok ph i (b_workers L st i);
  ru_main : b_main L st = main_of ph }.

(** While main runs alone: [fresh] before the threads. *)
Record agrees (fresh : bool) (st : bstate) (x : abs) : Prop := {
  ag_lock : kind_of (b_lock L st) = a_lock x;
  ag_count : kind_of (b_count L st) = a_count x;
  ag_barrier : match a_barrier x with None => b_barrier L st = None | Some n => exists a, b_barrier L st = Some (n, a) /\ (fresh = true -> a = 0) end;
  ag_flag : fresh = true -> a_flag x = true -> b_flag L st = gcount;
  ag_m0 m : fresh = true -> b_lock L st = Val m -> m = m0;
  ag_zero v : fresh = true -> b_count L st = Val v -> v = 0 }.

Definition setup (l : list mop) (st : bstate) : Prop :=
  b_main L st = l ++ create_all N ++ [MainWait] ++ join_all N ++ post /\
  (exists x, agrees true st x /\ abs_run l x = Some (Abs KVal KVal (Some (N + 1)) true)) /\
  (forall i, b_workers L st i = NotCreated) /\ b_pcs L st = (fun _ => lidle L).

Definition posted (l : list mop) (st : bstate) : Prop :=
  b_main L st = l /\ existsb writes_count l = false /\ (exists x y, agrees false st x /\ abs_run l x = Some y) /\
  (forall i, 0 <= i < N -> b_workers L st i = Finished M) /\
  (forall v, b_count L st = Val v -> v = if gcount then N * M else 0).

Definition binv (st : bstate) : Prop :=
  (exists op l, setup (op :: l) st) \/
  (exists ph m v a n, running ph m v a n st /\ match ph with PhCreate j => 0 <= j <= N | PhPass => True | PhJoin j => 0 <= j < N end) \/
  (exists l, posted l st).

(** *** main alone *)

Ltac fields := cbn [b_lock b_pcs b_count b_barrier b_flag b_workers b_main with_main with_worker with_lock with_call with_count with_barrier with_flag] in *.

Lemma agrees_step fresh op rest st x x' :
  b_main L st = op :: rest -> agrees fresh st x -> abs_step op x = Some x' ->
  exists st', main_step L gcount m0 b st = Ret (Some st') /\ agrees fresh st' x' /\ b_main L st' = rest /\
    b_workers L st' = b_workers L st /\ b_pcs L st' = b_pcs L st /\
    (writes_count op = false -> forall v, b_count L st' = Val v -> b_count L st = Val v).
Proof using.
  intros E [A1 A2 A3 A4 A5 A6] S. unfold main_step. rewrite E. destruct st as [lk pcs ct ba fl ws mn]. fields.
  destruct op; cbn [abs_step] in S; try discriminate S.
  all: destruct lk, ct, ba; cbn [kind_of] in *; rewrite <- ?A1, <- ?A2 in S; cbn in S; try discriminate S.
  all: destruct x as [xl xc xb xf]; cbn [a_lock a_count a_barrier a_flag] in *; try (destruct xb; try discriminate S); try (injection S as <-).
  all: try (exfalso; by destruct A3 as (? & ? & ?)).
  all: eexists; split; [reflexivity|]; split; [constructor; fields; cbn [a_lock a_count a_barrier a_flag kind_of]; try done; try congruence; naive_solver|].
  all: split_and!; done || (intros _ v0 X; done).
Qed.

Lemma setup_done st : setup [] st -> running (PhCreate 0) m0 0 0 0 st.
Proof using HN Hm0 Hlock.
  intros (E & (x & [A1 A2 A3 A4 A5 A6] & R) & W & P). cbn in R. injection R as ->. cbn [a_lock a_count a_barrier a_flag] in *.
  destruct A3 as (a & B & A3). rewrite (A3 eq_refl) in B.
  assert (T : forall f, (forall w, w = NotCreated -> f w = 0) -> total N (fun i => f (b_workers L st i)) = 0).
  { intros f Hf. rewrite (total_const N HN _ 0); [lia|]. intros i _. apply Hf, W. }
  destruct (b_lock L st) as [| |m] eqn:El; try done. rewrite (A5 m eq_refl eq_refl) in El. destruct (b_count L st) as [| |v] eqn:Ec; try done. rewrite (A6 v eq_refl eq_refl) in Ec.
  constructor; try done.
  - by apply A4.
  - rewrite P. by constructor.
  - rewrite (T entered); [done|]. by intros w ->.
  - rewrite (T counted) by (by intros w ->). by destruct gcount.
  - rewrite (T arrived) by (by intros w ->). done.
  - intros i _. by rewrite W.
  - intros i _. rewrite W, P. cbn. apply lock_places.
  - intros i Hi. rewrite W. cbn. symmetry. apply Z.ltb_ge. lia.
  - rewrite E. unfold main_of, create_all. by rewrite Z.sub_0_r.
Qed.

Lemma joined m v a n st : running (PhJoin N) m v a n st -> posted post st.
Proof using HN Hmain.
  intros R. destruct Hmain as (_ & _ & Hw & y & Hy). assert (F : forall i, 0 <= i < N -> b_workers L st i = Finished M).
  { intros i Hi. destruct (ru_phase _ _ _ _ _ _ R i Hi) as [_ F]. pose proof (ru_worker _ _ _ _ _ _ R i Hi) as K.
    destruct (b_workers L st i); try (by specialize (F ltac:(lia))). by destruct K as [-> _]. }
  split; [|split; [done|split; [|split; [done|]]]].
  - rewrite (ru_main _ _ _ _ _ _ R). unfold main_of. by rewrite Z.sub_diag.
  - eexists _, y. split; [|exact Hy]. constructor; cbn; try done.
    + by rewrite (ru_lock _ _ _ _ _ _ R).
    + by rewrite (ru_count _ _ _ _ _ _ R).
    + exists a. by split; [apply (ru_barrier _ _ _ _ _ _ R)|].
  - intros v' E. rewrite (ru_count _ _ _ _ _ _ R) in E. injection E as <-. rewrite (ru_counted _ _ _ _ _ _ R). destruct gcount; [|done].
    apply total_const; [done|]. intros i Hi. by rewrite F.
Qed.

Lemma running_binv ph m v a n st :
  running ph m v a n st -> match ph with PhCreate j => 0 <= j <= N | PhPass => True | PhJoin j => 0 <= j <= N end -> binv st.
Proof using HN Hmain.
  intros R Hj. destruct ph as [j| |j].
  - right; left. by exists (PhCreate j), m, v, a, n.
  - right; left. by exists PhPass, m, v, a, n.
  - destruct (Z.eq_dec j N) as [->|]; [right; right; exists post; by eapply joined|]. right; left. exists (PhJoin j), m, v, a, n. split; [done|lia].
Qed.

(** *** A worker *)

Lemma wok_bounds w p : wok w p -> 0 <= entered w <= M /\ 0 <= counted w <= M /\ 0 <= arrived w <= 1.
Proof using HM.
  destruct w as [|todo acq|acq]; cbn; [lia| |lia]. intros (_ & H & K). destruct (place_of todo); lia.
Qed.

Lemma running_bounds ph m v a n st : running ph m v a n st -> n <= N * M /\ (gcount = true -> 0 <= v <= N * M) /\ a <= N + 1.
Proof using HN HM.
  intros R. assert (B : forall i, 0 <= i < N -> _) by (intros i Hi; exact (wok_bounds _ _ (ru_worker _ _ _ _ _ _ R i Hi))). split_and!.
  - rewrite (ru_entered _ _ _ _ _ _ R). apply total_le; [done|]. intros i Hi. by apply B.
  - intros G. rewrite (ru_counted _ _ _ _ _ _ R), G. split; [|apply total_le; [done|]; intros i Hi; by apply B].
    assert (0 <= N * 0 <= total N (fun i => counted (b_workers L st i))) as [_ X]; [|lia]. split; [lia|].
    pose proof (total_le N HN (fun i => - counted (b_workers L st i)) 0) as T.
    assert (E : total N (fun i => - counted (b_workers L st i)) = - total N (fun i => counted (b_workers L st i))).
    { unfold total. generalize (seqZ 0 N) as l. induction l as [|x l IH]; [done|]. rewrite !sum_cons, IH. lia. }
    specialize (T (fun i Hi => ltac:(pose proof (B i Hi); lia))). lia.
  - rewrite (ru_arrived _ _ _ _ _ _ R). pose proof (total_le N HN (fun i => arrived (b_workers L st i)) 1 (fun i Hi => proj2 (proj2 (proj2 (B i Hi))))).
    destruct ph; cbn [main_arrived]; lia.
Qed.

(** One worker moves, and with it what is counted of it. *)
Lemma running_moves ph m v a n st i m' pcs' ws' v' a' n' :
  running ph m v a n st -> 0 <= i < N -> created (b_workers L st i) = true -> finished (b_workers L st i) = false -> created (ws' i) = true ->
  (forall j, j <> i -> pcs' j = b_pcs L st j) -> (forall j, j <> i -> ws' j = b_workers L st j) -> lreach L N m' pcs' n' -> wok (ws' i) (pcs' i) ->
  n' = n + (entered (ws' i) - entered (b_workers L st i)) ->
  v' = (if gcount then v + (counted (ws' i) - counted (b_workers L st i)) else 0) ->
  a' = a + (arrived (ws' i) - arrived (b_workers L st i)) -> a <= a' -> (passed (ws' i) = true -> a' = N + 1) ->
  running ph m' v' a' n' (BState L (Val m') pcs' (Val v') (Some (N + 1, a')) (b_flag L st) ws' (b_main L st)).
Proof using HN HM.
  intros R Hi C F C' Hp Hws Hr Hw En Ev Ea La Hpass. pose proof (running_bounds _ _ _ _ _ _ R) as (_ & _ & Ba).
  assert (T : forall f, total N (fun j => f (ws' j)) = total N (fun j => f (b_workers L st j)) - f (b_workers L st i) + f (ws' i)).
  { intros f. apply (total_change N (fun j => f (b_workers L st j)) (fun j => f (ws' j)) i Hi). intros j Hne. by rewrite Hws. }
  assert (W : forall j, 0 <= j < N -> wok (ws' j) (pcs' j)).
  { intros j Hj. destruct (Z.eq_dec j i) as [->|Hne]; [done|]. rewrite Hws, Hp by done. by apply (ru_worker _ _ _ _ _ _ R). }
  assert (Eq : a' = total N (fun j => arrived (ws' j)) + main_arrived ph) by (rewrite T, Ea, (ru_arrived _ _ _ _ _ _ R); lia).
  assert (Ba' : a' <= N + 1).
  { rewrite Eq. pose proof (total_le N HN (fun j => arrived (ws' j)) 1 (fun j Hj => proj2 (proj2 (proj2 (wok_bounds _ _ (W j Hj)))))).
    destruct ph; cbn [main_arrived]; lia. }
  constructor; fields; try done.
  - apply (ru_flag _ _ _ _ _ _ R).
  - rewrite T, En, (ru_entered _ _ _ _ _ _ R). lia.
  - rewrite Ev, (ru_counted _ _ _ _ _ _ R). destruct gcount; [|done]. rewrite T. lia.
  - intros X. pose proof (ru_main_passed _ _ _ _ _ _ R X). lia.
  - intros j Hj. destruct (Z.eq_dec j i) as [->|Hne]; [apply Hpass|]. rewrite Hws by done. intros X.
    pose proof (ru_passed _ _ _ _ _ _ R j Hj X). lia.
  - intros j Hj. destruct (Z.eq_dec j i) as [->|Hne]; [|rewrite Hws by done; by apply (ru_phase _ _ _ _ _ _ R)].
    pose proof (ru_phase _ _ _ _ _ _ R i Hi) as X. destruct ph; cbn [phase_ok] in *; [congruence|congruence|]. split; [done|].
    intros Y. destruct X as [_ X]. specialize (X Y). congruence.
  - apply (ru_main _ _ _ _ _ _ R).
Qed.

Lemma running_worker ph m v a n st i w' m' pcs' v' a' n' :
  running ph m v a n st -> 0 <= i < N -> created (b_workers L st i) = true -> finished (b_workers L st i) = false -> created w' = true ->
  (forall j, j <> i -> pcs' j = b_pcs L st j) -> lreach L N m' pcs' n' -> wok w' (pcs' i) ->
  n' = n + (entered w' - entered (b_workers L st i)) ->
  v' = (if gcount then v + (counted w' - counted (b_workers L st i)) else 0) ->
  a' = a + (arrived w' - arrived (b_workers L st i)) -> a <= a' -> (passed w' = true -> a' = N + 1) ->
  running ph m' v' a' n' (BState L (Val m') pcs' (Val v') (Some (N + 1, a')) (b_flag L st) (upd (b_workers L st) i w') (b_main L st)).
Proof using HN HM.
  intros. apply (running_moves ph m v a n st i); rewrite ?upd_same; try done. intros j Hne. by rewrite upd_other.
Qed.

Definition goes_on (ph : phase) (o : option bstate) : Prop := forall st', o = Some st' -> exists m v a n, running ph m v a n st'.

Section Step.
Context (ph : phase) (m : lmem L) (v a n : Z) (st : bstate) (i : Z).
Context (R : running ph m v a n st) (Hi : 0 <= i < N).

Lemma the_state : st = BState L (Val m) (b_pcs L st) (Val v) (Some (N + 1, a)) gcount (b_workers L st) (b_main L st).
Proof using R. destruct R as [E1 E2 E3 E4 _ _ _ _ _ _ _ _ _]. destruct st. fields. by subst. Qed.

(** A step that leaves the memory alone. *)
Lemma worker_moves todo acq w' :
  b_workers L st i = Running todo acq -> created w' = true -> wok w' (b_pcs L st i) -> entered w' = entered (Running todo acq) -> (gcount = true -> counted w' = counted (Running todo acq)) ->
  arrived w' = arrived (Running todo acq) -> (passed w' = true -> a = N + 1) -> running ph m v a n (with_worker L st i w').
Proof using HN HM R Hi.
  intros Ew C K En Ec Ea Hp. rewrite the_state. unfold with_worker. fields. rewrite <- (ru_flag _ _ _ _ _ _ R).
  apply (running_worker ph m v a n st i w' m (b_pcs L st) v a n); rewrite ?Ew, ?En, ?Ea; try done; try lia; [apply (ru_reach _ _ _ _ _ _ R)|].
  pose proof (ru_counted _ _ _ _ _ _ R) as X. destruct gcount; [rewrite Ec by done; lia|done].
Qed.

Lemma worker_here todo acq : b_workers L st i = Running todo acq -> wok (Running todo acq) (b_pcs L st i).
Proof using R Hi. intros <-. by apply (ru_worker _ _ _ _ _ _ R). Qed.

Lemma step_quiet op rest acq :
  b_workers L st i = Running (op :: rest) acq -> quiet op = true -> shape gcount rest -> exists o, worker_step L M b i st = Ret (Some o) /\ goes_on ph (Some o).
Proof using HN HM R Hi.
  intros Ew Hq Hs. unfold worker_step. rewrite Ew. assert (Hp : place_of (op :: rest) = place_of rest) by (by destruct op). pose proof (worker_here _ _ Ew) as (K1 & K2 & K3).
  exists (with_worker L st i (Running rest acq)). split; [by destruct op|]. intros st' [= <-]. exists m, v, a, n. rewrite Hp in K3.
  apply (worker_moves _ _ _ Ew); unfold wok, entered, counted, arrived, passed; rewrite ?Hp; try done. intros X. apply (ru_passed _ _ _ _ _ _ R i Hi). rewrite Ew. unfold passed. by rewrite Hp.
Qed.

Lemma step_wait acq : b_workers L st i = Running [BarrierWait] acq -> exists o, worker_step L M b i st = Ret (Some o) /\ goes_on ph (Some o).
Proof using HN HM R Hi.
  intros Ew. unfold worker_step, arrive. rewrite Ew, (ru_barrier _ _ _ _ _ _ R). eexists. split; [reflexivity|]. intros st' [= <-]. pose proof (worker_here _ _ Ew) as (K1 & K2 & K3).
  exists m, v, (a + 1), n. rewrite the_state. unfold with_worker, with_barrier. fields. rewrite <- (ru_flag _ _ _ _ _ _ R).
  apply (running_worker ph m v a n st i (Running [BarrierPass] acq) m (b_pcs L st) v (a + 1) n); rewrite ?Ew; try done; cbn; try lia.
  - apply (ru_reach _ _ _ _ _ _ R).
  - split; [|done]. exists []. cbn. auto.
  - pose proof (ru_counted _ _ _ _ _ _ R) as X. destruct gcount; [lia|done].
Qed.

Lemma step_pass acq : b_workers L st i = Running [BarrierPass] acq ->
  exists o, worker_step L M b i st = Ret o /\ goes_on ph o /\ (a = N + 1 -> o <> None).
Proof using HN HM R Hi.
  intros Ew. unfold worker_step, may_pass. rewrite Ew, (ru_barrier _ _ _ _ _ _ R). pose proof (worker_here _ _ Ew) as (K1 & K2 & K3 & K4).
  destruct (Z.eqb_spec a (N + 1)) as [Ea|Ea]; eexists; (split; [reflexivity|]); (split; [|done]); [|done].
  intros st' [= <-]. exists m, v, a, n. apply (worker_moves _ _ _ Ew); try done. cbn. split; [|done]. exists []. cbn. auto.
Qed.

Lemma body_shape : shape gcount (body b gcount) /\ place_of (body b gcount) = PLock.
Proof using Hworker.
  destruct Hworker as (q1 & q2 & q3 & Q1 & Q2 & Q3 & E1 & E2 & E3). unfold body. destruct gcount; [rewrite E2|rewrite E3].
  - split; [|done]. exists q2. split; [done|]. cbn. auto.
  - split; [|done]. exists q3. split; [done|]. cbn. auto.
Qed.

Lemma step_test acq : b_workers L st i = Running [] acq -> exists o, worker_step L M b i st = Ret (Some o) /\ goes_on ph (Some o).
Proof using HN HM R Hi Hworker Hlock.
  intros Ew. unfold worker_step. rewrite Ew, (ru_flag _ _ _ _ _ _ R). pose proof (worker_here _ _ Ew) as (K1 & K2 & K3). cbn in K3. destruct body_shape as [B1 B2].
  eexists. split; [reflexivity|]. intros st' [= <-]. exists m, v, a, n.
  assert (Hp : a = N + 1) by (apply (ru_passed _ _ _ _ _ _ R i Hi); by rewrite Ew).
  destruct (Z.ltb_spec acq M); apply (worker_moves _ _ _ Ew); unfold wok, entered, counted, arrived, passed; rewrite ?B2; try done.
  - split; [done|]. split; [done|]. split; [done|]. destruct (lock_places (L := L)) as (P1 & P2 & P3 & P4 & P5). by rewrite (P4 _ K3).
  - split; [lia|done].
Qed.

(** A step into the lock. *)
Lemma worker_calls todo acq p' m' ws' w' :
  b_workers L st i = Running todo acq -> lnext L i (b_pcs L st i) m = Ret (p', m') -> ws' i = w' -> (forall j, j <> i -> ws' j = b_workers L st j) ->
  created w' = true -> wok w' p' ->
  entered w' = entered (Running todo acq) + (if at_critical L p' then 1 else 0) -> (gcount = true -> counted w' = counted (Running todo acq)) ->
  arrived w' = arrived (Running todo acq) -> passed (Running todo acq) = true ->
  exists n', running ph m' v a n' (BState L (Val m') (upd (b_pcs L st) i p') (b_count L st) (b_barrier L st) (b_flag L st) ws' (b_main L st)).
Proof using HN HM R Hi.
  intros Ew En <- Hws C K Ee Ec Ea Hp. exists (if at_critical L p' then n + 1 else n). rewrite (ru_count _ _ _ _ _ _ R), (ru_barrier _ _ _ _ _ _ R).
  apply (running_moves ph m v a n st i m' (upd (b_pcs L st) i p') ws' v a _); rewrite ?Ew, ?upd_same, ?Ee, ?Ea; try done; try lia.
  - intros j Hne. by rewrite upd_other.
  - apply (lreach_next L N m); [apply (ru_reach _ _ _ _ _ _ R)|done|done].
  - destruct (at_critical L p'); lia.
  - pose proof (ru_counted _ _ _ _ _ _ R) as X. destruct gcount; [rewrite Ec by done; lia|done].
  - intros _. apply (ru_passed _ _ _ _ _ _ R i Hi). by rewrite Ew.
Qed.

Lemma step_lock rest acq :
  b_workers L st i = Running (LockCall :: CountPassage :: rest) acq -> shape gcount (CountPassage :: rest) ->
  exists o, worker_step L M b i st = Ret (Some o) /\ goes_on ph (Some o).
Proof using HN HM R Hi Hlock.
  intros Ew Hs. pose proof (worker_here _ _ Ew) as (K1 & K2 & K3 & K4). pose proof (running_bounds _ _ _ _ _ _ R) as (Bn & _ & _).
  destruct (lock_step _ _ _ i (ru_reach _ _ _ _ _ _ R) Bn Hi) as (p' & m' & En & Hl). rewrite K4 in Hl. destruct Hl as [Hl1 Hl2].
  unfold worker_step. rewrite Ew, (ru_lock _ _ _ _ _ _ R), En, Hl1. destruct (at_critical L p') eqn:Ec; eexists; (split; [reflexivity|]); intros st' [= <-].
  - destruct (worker_calls _ _ p' m' (upd (b_workers L st) i (Running (CountPassage :: rest) acq)) _ Ew En (upd_same _ _ _)) as [n' Rn]; try done.
    + intros j Hne. by rewrite upd_other.
    + cbn. by rewrite Ec.
    + by exists m', v, a, n'.
  - destruct (worker_calls _ _ p' m' (b_workers L st) _ Ew En eq_refl) as [n' Rn]; rewrite ?Ew; try done.
    + split; [done|]. split; [done|]. split; [done|]. destruct (releasing L p'); [by specialize (Hl2 eq_refl)|done].
    + cbn. rewrite Ec. lia.
    + by exists m', v, a, n'.
Qed.

Lemma step_unlock rest acq :
  b_workers L st i = Running (UnlockCall :: rest) acq -> forallb quiet rest = true -> exists o, worker_step L M b i st = Ret (Some o) /\ goes_on ph (Some o).
Proof using HN HM R Hi Hlock.
  intros Ew Hq. pose proof (worker_here _ _ Ew) as (K1 & K2 & K3). pose proof (running_bounds _ _ _ _ _ _ R) as (Bn & _ & _). cbn [place_of] in K3.
  destruct (lock_step _ _ _ i (ru_reach _ _ _ _ _ _ R) Bn Hi) as (p' & m' & En & Hl). rewrite K3 in Hl. destruct Hl as [Hl1 Hl2].
  unfold worker_step. rewrite Ew, (ru_lock _ _ _ _ _ _ R), En. pose proof (place_rest _ Hq) as Hp. destruct (at_idle L p') eqn:Ec; eexists; (split; [reflexivity|]); intros st' [= <-].
  - destruct (worker_calls _ _ p' m' (upd (b_workers L st) i (Running rest acq)) _ Ew En (upd_same _ _ _)) as [n' Rn];
      unfold wok, entered, counted, arrived, passed; rewrite ?Hp, ?Hl1; try done.
    + intros j Hne. by rewrite upd_other.
    + split; [exists rest; auto|done].
    + cbn. lia.
    + by exists m', v, a, n'.
  - destruct (worker_calls _ _ p' m' (b_workers L st) _ Ew En eq_refl) as [n' Rn]; rewrite ?Ew; try done.
    + split; [done|]. split; [done|]. destruct Hl2 as [|Hl2]; [done|]. congruence.
    + cbn. rewrite Hl1. lia.
    + by exists m', v, a, n'.
Qed.

Lemma step_count rest acq :
  b_workers L st i = Running (CountPassage :: rest) acq -> shape gcount rest -> place_of rest = (if gcount then PCnt else PUn) ->
  exists o, worker_step L M b i st = Ret (Some o) /\ goes_on ph (Some o).
Proof using HN HM HM64 R Hi Hlock.
  intros Ew Hs Hp. unfold worker_step. rewrite Ew. pose proof (worker_here _ _ Ew) as (K1 & K2 & K3 & K4). eexists. split; [reflexivity|]. intros st' [= <-].
  exists m, v, a, n. rewrite u64_small by lia.
  apply (worker_moves _ _ _ Ew); unfold wok, entered, counted, arrived, passed; cbn [place_of]; rewrite ?Hp; try done.
  - split; [done|]. split; [lia|]. destruct gcount; [split; [lia|done]|]. destruct (lock_places (L := L)) as (P1 & P2 & P3 & P4 & P5). by apply P5.
  - by destruct gcount.
  - intros ->. lia.
  - by destruct gcount.
  - intros _. apply (ru_passed _ _ _ _ _ _ R i Hi). by rewrite Ew.
Qed.

Lemma step_global rest acq :
  gcount = true -> b_workers L st i = Running (CountGlobal :: rest) acq -> shape gcount rest -> place_of rest = PUn ->
  exists o, worker_step L M b i st = Ret (Some o) /\ goes_on ph (Some o).
Proof using HN HM Hsize R Hi Hlock.
  intros G Ew Hs Hp. unfold worker_step. rewrite Ew, (ru_count _ _ _ _ _ _ R). pose proof (worker_here _ _ Ew) as (K1 & K2 & K3 & K4). eexists. split; [reflexivity|]. intros st' [= <-].
  assert (Run : running ph m (v + 1) a n (BState L (Val m) (b_pcs L st) (Val (v + 1)) (Some (N + 1, a)) (b_flag L st) (upd (b_workers L st) i (Running rest acq)) (b_main L st))).
  { apply (running_worker ph m v a n st i (Running rest acq) m (b_pcs L st) (v + 1) a n); rewrite ?Ew, ?G; unfold wok, entered, counted, arrived, passed; cbn [place_of]; rewrite ?Hp; try done; try lia.
    - apply (ru_reach _ _ _ _ _ _ R).
    - split; [done|]. split; [lia|]. destruct (lock_places (L := L)) as (P1 & P2 & P3 & P4 & P5). by apply P5.
    - intros _. apply (ru_passed _ _ _ _ _ _ R i Hi). by rewrite Ew. }
  pose proof (proj1 (proj2 (running_bounds _ _ _ _ _ _ Run)) G) as B. exists m, (v + 1), a, n. rewrite u64_small by lia. rewrite the_state.
  unfold with_worker, with_count. fields. by rewrite <- (ru_flag _ _ _ _ _ _ R).
Qed.

(** A worker that has not returned moves, unless it waits at the barrier. *)
Lemma worker_next :
  exists o, worker_step L M b i st = Ret o /\ goes_on ph o /\
    (o = None -> created (b_workers L st i) = false \/ finished (b_workers L st i) = true \/ (exists acq, b_workers L st i = Running [BarrierPass] acq /\ a <> N + 1)).
Proof using HN HM Hsize HM64 R Hi Hlock Hworker.
  destruct (b_workers L st i) as [|todo acq|acq] eqn:Ew; [exists None; unfold worker_step; rewrite Ew; split_and!; [done|done|by left]| |exists None; unfold worker_step; rewrite Ew; split_and!; [done|done|by right; left]].
  assert (Go : (exists o, worker_step L M b i st = Ret (Some o) /\ goes_on ph (Some o)) -> exists o, worker_step L M b i st = Ret o /\ goes_on ph o /\
    (o = None -> created (Running todo acq) = false \/ finished (Running todo acq) = true \/ (exists acq0, Running todo acq = Running [BarrierPass] acq0 /\ a <> N + 1))).
  { intros (o & E & G). exists (Some o). done. }
  destruct (worker_here _ _ Ew) as ((q & Hq & S) & _ & _).
  assert (Hrest : gcount = true -> shape gcount (CountGlobal :: UnlockCall :: q)).
  { intros G. exists q. split; [done|]. rewrite G. cbn. auto 10. }
  assert (Hun : shape gcount (UnlockCall :: q)) by (exists q; split; [done|]; cbn; auto 10).
  assert (Hqs : forall q, forallb quiet q = true -> shape gcount q /\ shape gcount (q ++ [BarrierWait])) by (intros q' H'; split; exists q'; cbn; auto).
  destruct S as [->|[->|[->|[->|[->|[[G ->]| ->]]]]]].
  - apply Go. destruct q as [|x q]; [by eapply step_wait|]. cbn in Hq. apply andb_true_iff in Hq as [H1 H2]. eapply step_quiet; [exact Ew|done|by apply Hqs].
  - destruct (step_pass acq Ew) as (o & E & G & P). exists o. split_and!; [done|done|]. intros ->. right; right. exists acq. split; [done|]. intros X. by apply P.
  - apply Go. destruct q as [|x q]; [by eapply step_test|]. cbn in Hq. apply andb_true_iff in Hq as [H1 H2]. eapply step_quiet; [exact Ew|done|by apply Hqs].
  - apply Go. eapply step_lock; [exact Ew|]. exists q. split; [done|]. cbn. auto 10.
  - apply Go. eapply step_count; [exact Ew| |by destruct gcount]. destruct gcount; auto.
  - apply Go. rewrite G in Ew. cbn in Ew. eapply step_global; [done|exact Ew|done|done].
  - apply Go. by eapply step_unlock.
Qed.
End Step.

(** *** Everything *)

Lemma setup_binv l st : setup l st -> binv st.
Proof using HN Hm0 Hlock Hmain.
  destruct l as [|op l]; [|left; by exists op, l]. intros S. apply setup_done in S. eapply running_binv; [exact S|]. cbn. lia.
Qed.

Lemma create_next j m v a n st :
  running (PhCreate j) m v a n st -> 0 <= j < N -> exists st', main_step L gcount m0 b st = Ret (Some st') /\ running (PhCreate (j + 1)) m v a n st'.
Proof using HN HM Hworker Hlock.
  intros R Hj. pose proof (ru_phase _ _ _ _ _ _ R j ltac:(lia)) as Ph. cbn [phase_ok] in Ph. rewrite Z.ltb_irrefl in Ph. destruct (b_workers L st j) eqn:Ew; try discriminate Ph. clear Ph.
  destruct Hworker as (q1 & q2 & q3 & Q1 & _ & _ & E1 & _). pose proof (ru_worker _ _ _ _ _ _ R j ltac:(lia)) as K. rewrite Ew in K. cbn in K.
  unfold main_step. rewrite (ru_main _ _ _ _ _ _ R). cbn [main_of]. rewrite (seqZ_cons j (N - j)) by lia. cbn [map app]. rewrite Ew. eexists. split; [reflexivity|].
  rewrite E1. assert (T : forall f, f NotCreated = f (Running (q1 ++ [BarrierWait]) 0) -> total N (fun i => f (upd (b_workers L st) j (Running (q1 ++ [BarrierWait]) 0) i)) = total N (fun i => f (b_workers L st i)) :> Z).
  { intros f Hf. rewrite (total_change N (fun i => f (b_workers L st i)) _ j); [|lia|intros i Hne; by rewrite upd_other]. rewrite upd_same, Ew, Hf. lia. }
  pose proof (place_quiet q1 [BarrierWait] Q1) as Hp. destruct R as [R1 R2 R3 R4 R5 R6 R7 R8 R9 R10 R11 R12 R13].
  constructor; fields; try done.
  - rewrite (T entered); [done|]. cbn. by rewrite Hp.
  - rewrite (T counted); [done|]. cbn. by rewrite Hp.
  - rewrite (T arrived); [done|]. cbn. by rewrite Hp.
  - intros i Hi. destruct (Z.eq_dec i j) as [->|Hne]; [rewrite upd_same; cbn; by rewrite Hp|]. rewrite upd_other by done. by apply R10.
  - intros i Hi. destruct (Z.eq_dec i j) as [->|Hne]; [rewrite upd_same; cbn; rewrite Hp; cbn|rewrite upd_other by done; by apply R11].
    split; [exists q1; cbn; auto|]. split; [lia|done].
  - intros i Hi. cbn [phase_ok]. destruct (Z.eq_dec i j) as [->|Hne]; [rewrite upd_same; cbn; symmetry; apply Z.ltb_lt; lia|]. rewrite upd_other by done.
    rewrite (R12 i Hi). destruct (Z.ltb_spec i j), (Z.ltb_spec i (j + 1)); done || lia.
  - cbn [main_of]. replace (Z.succ j) with (j + 1) by lia. replace (Z.pred (N - j)) with (N - (j + 1)) by lia. done.
Qed.

(** main is somewhere else, with the same memory and the same workers. *)
Lemma running_main ph ph' m v a a' n st :
  running ph m v a n st -> (forall i, 0 <= i < N -> phase_ok ph i (b_workers L st i) -> phase_ok ph' i (b_workers L st i)) ->
  a' = a - main_arrived ph + main_arrived ph' -> a <= a' <= N + 1 -> (main_passed ph' = true -> a' = N + 1) ->
  running ph' m v a' n (with_main L (with_barrier L st (Some (N + 1, a'))) (main_of ph')).
Proof using.
  intros [R1 R2 R3 R4 R5 R6 R7 R8 R9 R10 R11 R12 R13] Hph Ea La Hp. constructor; fields; try done.
  - lia.
  - intros i Hi X. pose proof (R10 i Hi X). lia.
  - intros i Hi. by apply Hph, R12.
Qed.

Lemma wait_next m v a n st :
  running (PhCreate N) m v a n st -> exists st', main_step L gcount m0 b st = Ret (Some st') /\ running PhPass m v (a + 1) n st'.
Proof using HN HM.
  intros R. unfold main_step. rewrite (ru_main _ _ _ _ _ _ R). cbn [main_of]. rewrite Z.sub_diag. cbn [seqZ Z.to_nat seq map app]. unfold arrive. rewrite (ru_barrier _ _ _ _ _ _ R).
  eexists. split; [reflexivity|]. pose proof (total_le N HN (fun j => arrived (b_workers L st j)) 1 (fun j Hj => proj2 (proj2 (proj2 (wok_bounds _ _ (ru_worker _ _ _ _ _ _ R j Hj)))))) as B.
  pose proof (ru_arrived _ _ _ _ _ _ R) as Ea. cbn [main_arrived] in Ea. apply (running_main (PhCreate N) PhPass m v a (a + 1) n st R); cbn [main_arrived main_passed phase_ok]; try done; try lia.
  intros i Hi ->. apply Z.ltb_lt. lia.
Qed.

Lemma pass_next m v a n st :
  running PhPass m v a n st -> exists o, main_step L gcount m0 b st = Ret o /\ (forall st', o = Some st' -> running (PhJoin 0) m v a n st') /\ (o = None -> a <> N + 1).
Proof using HN.
  intros R. unfold main_step, may_pass. rewrite (ru_main _ _ _ _ _ _ R), (ru_barrier _ _ _ _ _ _ R). cbn [main_of].
  destruct (Z.eqb_spec a (N + 1)) as [Ea|Ea]; eexists; (split; [reflexivity|]); (split; [|done]); [|done]. intros st' [= <-].
  pose proof (running_main PhPass (PhJoin 0) m v a a n st R) as X. cbn [main_of] in X. rewrite Z.sub_0_r in X.
  assert (E : with_barrier L st (Some (N + 1, a)) = st) by (destruct st; fields; rewrite <- (ru_barrier _ _ _ _ _ _ R); done). rewrite E in X.
  apply X; cbn [main_arrived main_passed phase_ok]; try done; try lia. intros i Hi H. split; [done|lia].
Qed.

Lemma join_next j m v a n st :
  running (PhJoin j) m v a n st -> 0 <= j < N ->
  exists o, main_step L gcount m0 b st = Ret o /\ (forall st', o = Some st' -> running (PhJoin (j + 1)) m v a n st') /\ (o = None -> finished (b_workers L st j) = false).
Proof using HN.
  intros R Hj. unfold main_step. rewrite (ru_main _ _ _ _ _ _ R). cbn [main_of]. rewrite (seqZ_cons j (N - j)) by lia. cbn [map app].
  pose proof (ru_phase _ _ _ _ _ _ R j ltac:(lia)) as [C _]. destruct (b_workers L st j) as [|todo acq|acq] eqn:Ew; [done|exists None; done|].
  eexists. split; [reflexivity|]. split; [|done]. intros st' [= <-]. pose proof (running_main (PhJoin j) (PhJoin (j + 1)) m v a a n st R) as X. cbn [main_of] in X.
  assert (E : with_barrier L st (Some (N + 1, a)) = st) by (destruct st; fields; rewrite <- (ru_barrier _ _ _ _ _ _ R); done). rewrite E in X.
  replace (Z.succ j) with (j + 1) by lia. replace (Z.pred (N - j)) with (N - (j + 1)) by lia. pose proof (ru_main_passed _ _ _ _ _ _ R eq_refl).
  apply X; cbn [main_arrived main_passed phase_ok]; try done; try lia. intros i Hi [H1 H2]. split; [done|]. intros H3.
  destruct (Z.eq_dec i j) as [->|Hne]; [by rewrite Ew|apply H2; lia].
Qed.

Lemma main_next st :
  binv st -> exists o, main_step L gcount m0 b st = Ret o /\ (forall st', o = Some st' -> binv st').
Proof using HN HM Hm0 Hlock Hmain Hworker.
  intros [(op & l & E & (x & A & Ru) & W & P)|[(ph & m & v & a & n & R & Hj)|(l & E & Hc & (x & y & A & Ru) & W & Hv)]].
  - cbn [abs_run] in Ru. destruct (abs_step op x) as [x'|] eqn:Es; [|done]. cbn [app] in E.
    destruct (agrees_step true op _ st x x' E A Es) as (st' & Em & A' & Em' & Ew & Ep & _). exists (Some st'). split; [done|]. intros s' [= <-].
    apply (setup_binv l). split; [done|]. split; [by exists x'|]. rewrite Ew, Ep. done.
  - destruct ph as [j| |j].
    + destruct (Z.eq_dec j N) as [->|].
      * destruct (wait_next m v a n st R) as (st' & Em & R'). exists (Some st'). split; [done|]. intros s' [= <-]. by eapply running_binv.
      * destruct (create_next j m v a n st R ltac:(lia)) as (st' & Em & R'). exists (Some st'). split; [done|]. intros s' [= <-]. eapply running_binv; [exact R'|]. cbn. lia.
    + destruct (pass_next m v a n st R) as (o & Em & R' & _). exists o. split; [done|]. intros s' Eo. eapply running_binv; [exact (R' s' Eo)|]. cbn. lia.
    + destruct (join_next j m v a n st R Hj) as (o & Em & R' & _). exists o. split; [done|]. intros s' Eo. eapply running_binv; [exact (R' s' Eo)|]. cbn. lia.
  - destruct l as [|op l]; [exists None; unfold main_step; by rewrite E|]. cbn [abs_run] in Ru. destruct (abs_step op x) as [x'|] eqn:Es; [|done].
    cbn [existsb] in Hc. apply orb_false_iff in Hc as [Hc1 Hc2].
    destruct (agrees_step false op _ st x x' E A Es) as (st' & Em & A' & Em' & Ew & Ep & Hk). exists (Some st'). split; [done|]. intros s' [= <-].
    right; right. exists l. split; [done|]. split; [done|]. split; [by exists x', y|]. rewrite Ew. split; [done|]. intros w X. by apply Hv, Hk.
Qed.

Lemma worker_binv st i :
  binv st -> 0 <= i < N -> exists o, worker_step L M b i st = Ret o /\ (forall st', o = Some st' -> binv st').
Proof using HN HM Hsize HM64 Hlock Hmain Hworker.
  intros [(op & l & E & _ & W & _)|[(ph & m & v & a & n & R & Hj)|(l & E & _ & _ & W & _)]] Hi.
  - exists None. unfold worker_step. by rewrite W.
  - destruct (worker_next ph m v a n st i R Hi) as (o & Eo & G & _). exists o. split; [done|]. intros st' E. destruct (G st' E) as (m' & v' & a' & n' & R').
    eapply running_binv; [exact R'|]. destruct ph; done || lia.
  - exists None. unfold worker_step. by rewrite (W i Hi).
Qed.

Lemma bench_binv st : bench_reachable L N M gcount m0 b st -> binv st.
Proof using HN HM Hsize HM64 Hm0 Hlock Hmain Hworker.
  induction 1 as [|st st1 _ IH [st2 Em|i st2 Hi Ew]].
  - destruct Hmain as (E & A & _). apply (setup_binv pre). split; [done|]. split; [|done].
    eexists. split; [|exact A]. unfold bench_start. constructor; cbn; try done; by destruct (static_lock b).
  - destruct (main_next st IH) as (o & Eo & G). rewrite Eo in Em. injection Em as ->. by apply G.
  - destruct (worker_binv st i IH Hi) as (o & Eo & G). rewrite Eo in Ew. injection Ew as ->. by apply G.
Qed.

(** *** What follows from the invariant *)

Lemma binv_exclusive st i j :
  binv st -> 0 <= i < N -> 0 <= j < N -> in_section L (b_workers L st i) (b_pcs L st i) = true -> in_section L (b_workers L st j) (b_pcs L st j) = true -> i = j.
Proof using HN HM Hlock.
  intros [(op & l & E & _ & W & _)|[(ph & m & v & a & n & R & Hj)|(l & E & _ & _ & W & _)]] Hi Hj' Si Sj.
  - by rewrite W in Si.
  - pose proof (running_bounds _ _ _ _ _ _ R) as (Bn & _ & _).
    assert (K : forall k, 0 <= k < N -> in_section L (b_workers L st k) (b_pcs L st k) = true -> at_critical L (b_pcs L st k) = true).
    { intros k Hk S. pose proof (ru_worker _ _ _ _ _ _ R k Hk) as X. destruct (b_workers L st k) as [|todo acq|]; try done. cbn in *. destruct X as (_ & _ & X).
      destruct (place_of todo); try done; apply X. }
    by eapply (lock_exclusive m (b_pcs L st) n); [apply (ru_reach _ _ _ _ _ _ R)|..]; auto.
  - by rewrite (W i Hi) in Si.
Qed.

Lemma binv_counts st :
  binv st -> (forall i, 0 <= i < N -> finished (b_workers L st i) = true) -> 0 < N ->
  (forall i, 0 <= i < N -> b_workers L st i = Finished M) /\ (forall v, b_count L st = Val v -> v = if gcount then N * M else 0).
Proof using HN.
  intros [(op & l & E & _ & W & _)|[(ph & m & v & a & n & R & Hj)|(l & E & _ & _ & W & Hv)]] F Hpos; [|..|done].
  - specialize (F 0 ltac:(lia)). by rewrite W in F.
  - assert (Fin : forall i, 0 <= i < N -> b_workers L st i = Finished M).
    { intros i Hi. specialize (F i Hi). pose proof (ru_worker _ _ _ _ _ _ R i Hi) as X. destruct (b_workers L st i); try done. by destruct X as [-> _]. }
    split; [done|]. intros v' Ev. rewrite (ru_count _ _ _ _ _ _ R) in Ev. injection Ev as <-. rewrite (ru_counted _ _ _ _ _ _ R). destruct gcount; [|done].
    apply total_const; [done|]. intros i Hi. by rewrite Fin.
Qed.

Lemma main_never_empty ph : main_of ph = [] -> match ph with PhCreate j => 0 <= j <= N | PhPass => True | PhJoin j => 0 <= j < N end -> False.
Proof using. destruct ph as [j| |j]; cbn; [by destruct (map _ _)|done|]. intros E Hj. rewrite seqZ_cons in E by lia. done. Qed.

Lemma binv_returned st : binv st -> b_main L st = [] -> forall i, 0 <= i < N -> b_workers L st i = Finished M.
Proof using.
  intros [(op & l & E & _)|[(ph & m & v & a & n & R & Hj)|(l & E & _ & _ & W & _)]] Em; [by rewrite E in Em| |done].
  rewrite (ru_main _ _ _ _ _ _ R) in Em. by apply main_never_empty in Em.
Qed.

Lemma binv_together st i : binv st -> 0 <= i < N -> passed (b_workers L st i) = true -> forall j, 0 <= j < N -> arrived (b_workers L st j) = 1.
Proof using HN HM.
  intros [(op & l & E & _ & W & _)|[(ph & m & v & a & n & R & Hj)|(l & E & _ & _ & W & _)]] Hi P j Hj'.
  - by rewrite W in P.
  - pose proof (ru_passed _ _ _ _ _ _ R i Hi P) as Ea. pose proof (ru_arrived _ _ _ _ _ _ R) as Eb.
    assert (B : forall k, 0 <= k < N -> arrived (b_workers L st k) <= 1) by (intros k Hk; apply (wok_bounds _ _ (ru_worker _ _ _ _ _ _ R k Hk))).
    pose proof (total_le N HN _ 1 B) as T. apply (total_full N HN (fun k => arrived (b_workers L st k)) 1 B); [|done]. destruct ph; cbn [main_arrived] in Eb; lia.
  - by rewrite (W j Hj').
Qed.

Lemma binv_moves st : binv st -> b_main L st = [] \/ exists st', bench_step L N M gcount m0 b st st'.
Proof using HN HM Hsize HM64 Hm0 Hlock Hmain Hworker.
  intros I. assert (Mv : forall st', main_step L gcount m0 b st = Ret (Some st') -> b_main L st = [] \/ exists st', bench_step L N M gcount m0 b st st') by
    (intros st' E; right; exists st'; by apply step_main).
  assert (Wv : forall ph m v a n i, running ph m v a n st -> 0 <= i < N -> created (b_workers L st i) = true -> finished (b_workers L st i) = false ->
    (arrived (b_workers L st i) = 1 -> a = N + 1) -> b_main L st = [] \/ exists st', bench_step L N M gcount m0 b st st').
  { intros ph m v a n i R Hi C F A. destruct (worker_next ph m v a n st i R Hi) as ([st'|] & Eo & _ & Hn); [right; exists st'; by apply (step_worker L N M gcount m0 b st i)|].
    exfalso. destruct (Hn eq_refl) as [X|[X|(acq & X & Y)]]; [congruence|congruence|]. apply Y, A. by rewrite X. }
  destruct I as [(op & l & E & (x & A & Ru) & W & P)|[(ph & m & v & a & n & R & Hj)|(l & E & Hc & (x & y & A & Ru) & W & Hv)]].
  - cbn [abs_run] in Ru. destruct (abs_step op x) as [x'|] eqn:Es; [|done]. destruct (agrees_step true op _ st x x' E A Es) as (st' & Em & _). by eapply Mv.
  - destruct ph as [j| |j].
    + destruct (Z.eq_dec j N) as [->|]; [destruct (wait_next m v a n st R) as (st' & Em & _)|destruct (create_next j m v a n st R ltac:(lia)) as (st' & Em & _)]; by eapply Mv.
    + destruct (pass_next m v a n st R) as ([st'|] & Em & _ & Hn); [by eapply Mv|]. specialize (Hn eq_refl).
      destruct (decide (Forall (fun i => arrived (b_workers L st i) = 1) (seqZ 0 N))) as [Fa|Fa].
      * exfalso. apply Hn. rewrite (ru_arrived _ _ _ _ _ _ R), (total_const N HN _ 1); [cbn; lia|]. intros i Hi. rewrite List.Forall_forall in Fa. apply Fa. apply list_elem_of_In. by apply thread_range.
      * apply not_Forall_Exists in Fa; [|intros i; apply _]. apply List.Exists_exists in Fa as (i & Hi & Na). apply list_elem_of_In, thread_range in Hi.
        apply (Wv PhPass m v a n i R Hi); [exact (ru_phase _ _ _ _ _ _ R i Hi)|cbn in Na; by destruct (b_workers L st i) eqn:Q|done].
    + destruct (join_next j m v a n st R Hj) as ([st'|] & Em & _ & Hn); [by eapply Mv|]. specialize (Hn eq_refl).
      apply (Wv (PhJoin j) m v a n j R Hj); [exact (proj1 (ru_phase _ _ _ _ _ _ R j Hj))|done|]. intros _. by apply (ru_main_passed _ _ _ _ _ _ R).
  - destruct l as [|op l]; [by left|]. cbn [abs_run] in Ru. destruct (abs_step op x) as [x'|] eqn:Es; [|done].
    destruct (agrees_step false op _ st x x' E A Es) as (st' & Em & _). by eapply Mv.
Qed.
End Runs.

(** ** The thirteen programs *)

(** Every program with the lock that it measures. *)
Definition suite (g : granularity) (unqueue_retry : Z) : list (lock * (Z -> bench)) :=
  [(rmcs, cxl_test_rmcs); (jj_wport g 32, cxl_test_jj_32port); (jj_spin g 5, cxl_test_jj); (ttas_user g, cxl_test_lpttas);
   (ttas_mutex, cxl_test_ttas); (qspin, cxl_test_qspin); (osq unqueue_retry, dram_test_osq); (qspin, dram_test_qspin);
   (ttas_mutex, dram_test_ttas); (ttas_user g, dram_test_lpttas); (rmcs, dram_test_rmcs); (jj_spin g 5, dram_test_jj);
   (jj_wport g 32, dram_test_jj_32port)].

(** The sizes that are covered; those of the sources are [THREADS_NUM] and [LOCK_NUM]. *)
Definition size_ok (N M : Z) : Prop := 0 < N <= THREADS_NUM /\ 0 <= M < 2 ^ 51.

Lemma suite_locks g r L p N M : (L, p) ∈ suite g r -> size_ok N M -> SpinLock L N (N * M).
Proof.
  intros H [HN HM]. unfold THREADS_NUM in HN. assert (N * M < 2 ^ 56 - 1) by nia.
  assert (W : SpinLock (jj_wport g 32) N (N * M)) by (apply jj_wport_ok; [lia..|]; rewrite s_max; lia).
  assert (J : SpinLock (jj_spin g 5) N (N * M)) by (apply jj_spin_ok; cbn; lia).
  assert (U : SpinLock (ttas_user g) N (N * M)) by (apply ttas_user_ok; lia).
  assert (Q : SpinLock qspin N (N * M)) by (apply qspin_ok; lia).
  assert (O : SpinLock (osq r) N (N * M)) by (apply osq_ok; lia).
  unfold suite in H. repeat (apply list.elem_of_cons in H as [H|H]; [injection H as -> _; done || apply _|]). by apply not_elem_of_nil in H.
Qed.

Lemma suite_shapes g r L p N : (L, p) ∈ suite g r -> worker_shape (the_worker (p N)) /\ exists pre post, main_shape N (p N) pre post.
Proof.
  assert (Wk : forall w q1 q2, forallb quiet q1 = true -> forallb quiet q2 = true ->
    w = Worker (q1 ++ [BarrierWait]) ([LockCall; CountPassage; CountGlobal; UnlockCall] ++ q2) [LockCall; CountPassage; UnlockCall] -> worker_shape w).
  { intros w q1 q2 Q1 Q2 ->. exists q1, q2, []. done. }
  assert (Mn : forall b pre post, the_main b = pre ++ create_all N ++ [MainWait] ++ join_all N ++ post ->
    abs_run pre (Abs (if static_lock b then KRaw else KAbsent) KAbsent None false) = Some (Abs KVal KVal (Some (N + 1)) true) ->
    existsb writes_count post = false -> (exists a, abs_run post (Abs KVal KVal (Some (N + 1)) true) = Some a) -> exists pre post, main_shape N b pre post).
  { intros b pre post H1 H2 H3 H4. by exists pre, post. }
  intros H. unfold suite in H. repeat (apply list.elem_of_cons in H as [H|H]; [injection H as _ ->; split|]); [..|by apply not_elem_of_nil in H].
  all: try first [by apply (Wk _ [CxlallocInit; PinThread] []) | by apply (Wk _ [CxlallocInit; PinThread] [CpuPause]) | by apply (Wk _ [PinThread] [])
    | by apply (Wk _ [PinThread] [CpuPause]) | by apply (Wk _ [ClearNode; PinThread] [])].
  all: eapply Mn; [cbn [the_main] in *; unfold set_pthread_attr; cbv delta [cxl_test_rmcs cxl_test_jj_32port cxl_test_jj cxl_test_lpttas cxl_test_ttas cxl_test_qspin
    dram_test_osq dram_test_qspin dram_test_ttas dram_test_lpttas dram_test_rmcs dram_test_jj dram_test_jj_32port set_pthread_attr] beta iota;
    rewrite (app_assoc _ [SetAttr]), (app_assoc _ [BarrierInit (N + 1)]); reflexivity|reflexivity|reflexivity|by eexists].
Qed.

Lemma suite_inv g r L p N M gcount m0 st :
  (L, p) ∈ suite g r -> size_ok N M -> linit L m0 -> bench_reachable L N M gcount m0 (p N) st ->
  exists post, binv L N M gcount m0 post st /\ worker_shape (the_worker (p N)) /\ exists pre, main_shape N (p N) pre post.
Proof.
  intros Hs Hsz Hm R. pose proof (suite_locks g r L p N M Hs Hsz) as Hl. destruct (suite_shapes g r L p N Hs) as (Hw & pre & post & Hsh).
  destruct Hsz as [HN HM]. unfold THREADS_NUM in HN. exists post. split; [|split; [done|by exists pre]].
  apply (bench_binv L N M gcount m0 (p N) pre post); try done; nia.
Qed.


(** C33. The benchmarks measure what they say.  A thread that has passed the barrier started
    with all others; when main returns every thread has passed through the lock exactly
    LOCK_NUM times; and when the threads have returned the global count, while it is
    there, is the number of all passages if GCOUNT asks for it, and 0 if not. *)
Theorem bench_counts (g : granularity) (unqueue_retry : Z) (L : lock) (p : Z -> bench) (N M : Z) (GCOUNT : option string) (m0 : lmem L) (st : bstate L)
  (Hs : (L, p) ∈ suite g unqueue_retry) (Hsz : size_ok N M) (Hm : linit L m0) (R : bench_reachable L N M (run_global_count GCOUNT) m0 (p N) st) :
  (forall i j, 0 <= i < N -> 0 <= j < N -> passed (b_workers L st i) = true -> arrived (b_workers L st j) = 1) /\
  (b_main L st = [] -> forall i, 0 <= i < N -> b_workers L st i = Finished M) /\
  ((forall i, 0 <= i < N -> finished (b_workers L st i) = true) -> forall v, b_count L st = Val v -> v = if run_global_count GCOUNT then N * M else 0).
Proof.
  destruct (suite_inv _ _ _ _ _ _ _ _ _ Hs Hsz Hm R) as (post & I & Hw & pre & Hsh). destruct Hsz as [HN HM]. unfold THREADS_NUM in HN. split_and!.
  - intros i j Hi Hj P. by apply (binv_together L N M (run_global_count GCOUNT) m0 post) with (st := st) (i := i); try lia.
  - intros E i Hi. by apply (binv_returned L N M (run_global_count GCOUNT) m0 post).
  - intros F. apply (binv_counts L N M (run_global_count GCOUNT) m0 post); try done; lia.
Qed.

(** The benchmarks never get stuck: until main has returned, some thread has a next
    step, so neither the barrier nor the joins wait for ever on their own. *)
Theorem bench_never_stuck (g : granularity) (unqueue_retry : Z) (L : lock) (p : Z -> bench) (N M : Z) (GCOUNT : option string) (m0 : lmem L) (st : bstate L)
  (Hs : (L, p) ∈ suite g unqueue_retry) (Hsz : size_ok N M) (Hm : linit L m0) (R : bench_reachable L N M (run_global_count GCOUNT) m0 (p N) st) :
  b_main L st = [] \/ exists st', bench_step L N M (run_global_count GCOUNT) m0 (p N) st st'.
Proof.
  destruct (suite_inv _ _ _ _ _ _ _ _ _ Hs Hsz Hm R) as (post & I & Hw & pre & Hsh). pose proof (suite_locks _ _ _ _ _ _ Hs Hsz) as Hl.
  destruct Hsz as [HN HM]. unfold THREADS_NUM in HN. by apply (binv_moves L N M (run_global_count GCOUNT) m0 (p N) pre post); try done; nia.
Qed.

(** ** A run of two threads *)

(** Runs main ([None]) and the workers in the order given; who waits is passed over. *)
Fixpoint bench_run (L : lock) (M : Z) (gcount : bool) (m0 : lmem L) (b : bench) (events : list (option Z)) (st : bstate L) : option (bstate L) :=
  match events with
  | [] => Some st
  | e :: events =>
      match match e with None => main_step L gcount m0 b st | Some i => worker_step L M b i st end with
      | Bug => None
      | Ret (Some st') => bench_run L M gcount m0 b events st'
      | Ret None => bench_run L M gcount m0 b events st
      end
  end.

Lemma bench_run_reachable L N M gcount m0 b events st st' :
  bench_reachable L N M gcount m0 b st -> Forall (fun e => match e with None => True | Some i => 0 <= i < N end) events ->
  bench_run L M gcount m0 b events st = Some st' -> bench_reachable L N M gcount m0 b st'.
Proof.
  revert st. induction events as [|e events IH]; intros st R F E; cbn [bench_run] in E; [congruence|]. apply list.Forall_cons in F as [F1 F2].
  destruct e as [i|].
  - destruct (worker_step L M b i st) as [[s'|]|] eqn:Es; try done; [|by eapply IH]. eapply IH; [|done|exact E].
    eapply bench_next; [exact R|]. by apply (step_worker L N M gcount m0 b st i).
  - destruct (main_step L gcount m0 b st) as [[s'|]|] eqn:Es; try done; [|by eapply IH]. eapply IH; [|done|exact E].
    eapply bench_next; [exact R|]. by apply step_main.
Qed.

Definition example_events (n : nat) : list (option Z) := concat (replicate n [None; Some 0; Some 1]).
Definition example_bench (n : nat) : bstate ttas_mutex :=
  default (bench_start ttas_mutex (dram_test_ttas 2)) (bench_run ttas_mutex 2 true 1 (dram_test_ttas 2) (example_events n) (bench_start ttas_mutex (dram_test_ttas 2))).

Lemma example_bench_reachable n :
  (if bench_run ttas_mutex 2 true 1 (dram_test_ttas 2) (example_events n) (bench_start ttas_mutex (dram_test_ttas 2)) then true else false) = true ->
  bench_reachable ttas_mutex 2 2 (run_global_count (Some "1"%string)) 1 (dram_test_ttas 2) (example_bench n).
Proof.
  unfold example_bench. destruct (bench_run _ _ _ _ _ _ _) as [st|] eqn:E; [intros _|done].
  eapply bench_run_reachable; [apply bench_init| |exact E]. unfold example_events. clear E. induction n as [|n IH]; [constructor|]. cbn.
  repeat (constructor; [done || lia|]). exact IH.
Qed.

Lemma example_in_suite : (ttas_mutex, dram_test_ttas) ∈ suite CACHELINE_GRANULAR 1.
Proof. unfold suite. do 8 right. by left. Qed.
Lemma example_size : size_ok 2 2.
Proof. unfold size_ok, THREADS_NUM. lia. Qed.


Lemma bench_counts_witness : b_count _ (example_bench 40) = Val 4 /\ b_main _ (example_bench 60) = [] /\ b_workers _ (example_bench 60) 1 = Finished 2.
Proof.
  split; [vm_compute; reflexivity|]. assert (E : b_main _ (example_bench 60) = []) by (vm_compute; reflexivity). split; [exact E|].
  apply (proj1 (proj2 (bench_counts CACHELINE_GRANULAR 1 ttas_mutex dram_test_ttas 2 2 (Some "1"%string) 1 (example_bench 60) example_in_suite example_size eq_refl
    (example_bench_reachable 60 ltac:(vm_compute; reflexivity)))) E). lia.
Defined.

Lemma bench_never_stuck_witness :
  b_main _ (example_bench 17) = [] \/ exists st', bench_step ttas_mutex 2 2 (run_global_count (Some "1"%string)) 1 (dram_test_ttas 2) (example_bench 17) st'.
Proof.
  exact (bench_never_stuck CACHELINE_GRANULAR 1 ttas_mutex dram_test_ttas 2 2 (Some "1"%string) 1 (example_bench 17) example_in_suite example_size eq_refl
    (example_bench_reachable 17 ltac:(vm_compute; reflexivity))).
Defined.
